(* ===== verification/_CoqProject ===== *)
-Q . S2P
Prelude.v
Lattice.v
Crdt.v
OrSet.v
OrSetCodec.v
Vll.v
FilterSpec.v
NexBloom.v
IntString.v
Sovereign.v
TaggedPtr.v
NexDash.v
NexDashRefine.v
Segcache.v
IntSet.v
SubkeyTtl.v
WebSocket.v
Quota.v
StorageApi.v
NdStorage.v
NexStorage.v
Engine.v
CrdtCommands.v
Mpsc.v
HazardPtr.v
Arena.v
Glob.v
ByteMem.v
NexTS.v
Persist.v
Slots.v
ProtoDetect.v
Hybrid.v
Reactive.v
Bits.v
BitCommands.v
Flash.v
FlashApi.v
ClusterRing.v
SplitArgs.v
Resp.v
RespRefine.v
RespServe.v
RespTrip.v
Listpack.v
ListpackRefine.v
ListpackUpdate.v
ListpackBulk.v
ListpackValid.v
