(* ===== verification/Prelude.v ===== *)
(** * NexCache: a verification development

    NexCache is an in-memory data server: the Valkey server core (src/src/,
    event loop, commands, data types) with engines of its own under it and
    beside it.  This library models the parts that carry data and decisions,
    one file per component, and proves what makes them correct.

    ** The program's parts and how they interact

    - A command enters through the networking layer (RESP in networking.c,
      WebSocket in network/websocket.c), is checked against the tenant's
      quotas (security/quota.c), and works on the keyspace (db.c).
    - [lookupKey] (db.c) first asks the speculative filter (sovereign.c)
      whether the key is certainly absent; a MULTI/EXEC block first takes its
      locks from the VLL lock manager (core/vll.c, called by multi.c).
    - Values live in the keyspace or in one of two engines: NexDash
      (hashtable/nexdash.c, a segmented hash table with a Bloom filter in
      front, bloom/nexbloom.c, and tagged pointers in its slots,
      memory/tagged_ptr.h) or Segcache (segcache/segcache.c, TTL segments).
    - Values are made of encodings: integer sets (intset.c), decimal strings
      (util.c); hash fields may expire on their own (core/subkey_ttl.c).
    - Replicas exchange CRDT states (crdt/crdt.c).

    ** Files

    - Prelude (this file): machine integers, bits, arrays, loops,
      little-endian bytes, the tactics [mach], [case_if], [cmp_prop] and the
      hint database [mach].
    - Lattice: the interface [CvRDT] of a convergent replicated data type and
      the convergence theorem its clients use.  Crdt (G-Counter, PN-Counter,
      LWW register) and OrSet (with the replica system as a step relation)
      are its instances; OrSetCodec is the serialisation.
    - Vll: the lock manager and the key collection of EXEC.
    - FilterSpec: the interface [ApproxSet] of a membership filter; NexBloom
      and Sovereign (speculative filter, vitality, synapses) implement it.
    - IntString: ll2string, string2ll in its scalar and AVX-512 versions.
    - TaggedPtr: the two pointer layouts and the architecture probe.
    - NexDash: the hash engine; NexDashRefine: its refinement of a finite map.
    - Segcache: the TTL engine.
    - IntSet: the packed integer set.
    - SubkeyTtl: per-field expiry.
    - WebSocket: frames, buffer, handshake, responses.
    - Quota: tenants, tokens, rate limits.
    - StorageApi: the interface of the storage layer (core/nexstorage.h) with
      its laws [StoreLaws], and the dual store over two backends; NdStorage:
      NexDash behind it, with the heap of value blocks; NexStorage: Segcache
      behind it and the two configurations the code creates.
    - Engine: the dispatch of commands to workers and the workers' loop
      (core/engine.c) over the interface.
    - CrdtCommands: the nine CRDT commands (t_hash.c) as clients of the
      interface.
    - Mpsc: the lock-free queue (vera_lockfree.h); HazardPtr: safe
      reclamation (memory/hazard_ptr.c); Arena: the bump allocator
      (memory/arena.c).
    - Glob: stringmatchlen (util.c).  NexTS: time series
      (timeseries/nexts.c).
    - Persist: the append-only file and the snapshots of the engines
      (persistence/persist.c).  Slots: crc16 and the slots of keys and
      patterns (crc16.c, cluster.c).  ClusterRing: membership, the ring of
      virtual nodes and the slot table (cluster/cluster.c).
    - Hybrid: temperatures and tiers of keys (memory/hybrid.c).  Flash: the
      record file of the flash tier with its index, heat and prefetching
      (flash/flash.c); FlashApi: the adapter that puts it behind the storage
      interface (core/nexstorage.c).
    - Reactive: streams with backpressure and the commands on them
      (streams/reactive.c, modules/nexbp_module.c).  ProtoDetect: the
      detection of a connection's protocol (network/protocol_detect.c).
    - ByteMem: the outcome monad [res] and the checked loads and stores of
      code that works on a block through pointers.
    - SplitArgs: the splitting of lines and the printing of arguments
      (sds.c).  Resp: the request parser and its reads (networking.c), the
      writer of requests (aof.c) and the interface [Executor] of what
      commands do; RespRefine: the reference parser, and the C parser against
      it; RespServe: whole connections against the reference server;
      RespTrip: the round trip and the theorems.
    - Listpack: the definitions (listpack.c); ListpackRefine: the
      representation, traversal and queries; ListpackUpdate: lpInsert and its
      uses; ListpackBulk: ranges, batches, merges; ListpackValid: validation
      of untrusted blocks.
    - Bits: population counts, bit search and integer fields; BitCommands: the
      commands on the keys of a database, from SETBIT to BITFIELD_RO
      (bitops.c).

    The dual store is used by db.c ([lookupKey], [dbGenericDelete]),
    core/engine.c and the CRDT commands; server.c creates it with Segcache as
    its main store.  Segcache takes free segments from the lock-free queue;
    NexDash creates an arena.  Glob patterns come from KEYS, SCAN, PSUBSCRIBE
    and the ACL.  Listpacks are the small encodings of hashes, sets, sorted
    sets, lists and streams, and use the conversions of IntString, as the
    request parser does; inline requests, configuration lines and the AOF
    manifest are split by SplitArgs.  FlashApi is the backend "flash"
    of the storage layer.  nexts.c and reactive.c are called from
    modules/nexts_module.c and modules/nexbp_module.c.  quota.c, websocket.c,
    protocol_detect.c, subkey_ttl.c, hybrid.c, hazard_ptr.c, persist.c and
    cluster/cluster.c have no caller in the server, and nothing dispatches
    commands to the engine yet.


    A definition has the name of the C function or struct it models; helpers
    that model a loop or a branch of a function have names of their own.  A
    struct is a [Record] with the fields of the struct, an enum an
    [Inductive].

    ** Conventions

    - A w-bit unsigned integer is a [Z]; arithmetic that can leave the range
      is followed by [wrap w], a signed conversion by [swrap w].  Bytes are
      [Z] in 0..255, a string or buffer is a list of them ([bytes]).
    - Arrays are lists read by [aget] and written by [aset]; the invariants
      keep the indices in range.  Where the code can leave an array, the
      model has an explicit result for it ([None], or a fault).
    - Pointer arguments are non-NULL (the NULL guards return at once).  What
      an allocation, the clock, a socket, a random choice or a library
      outside the repository returns is an argument of the definition.
      Memory from malloc or realloc holds unknown bytes.
    - A call that runs under one lock is one atomic step.  Where the code
      releases the lock inside a call, what others do meanwhile is an
      argument ([interf]).
    - Lock-free code is one step per atomic access, sequentially consistent.
    - Code that works on a block through pointers has checked accesses: an
      outcome is [Ok], [AssertFail], [OutOfBounds] or [OutOfFuel].
    - Floating-point statistics, logging and printing are left out; where
      doubles are data (NexTS) their type and operations are parameters.
    - Loops are folds over their index range or fixpoints with fuel; the fuel
      is an upper bound on the iterations computed from the arguments, and
      where a loop could run longer the result is [None] and the theorems
      show that it does not occur.

    ** What the theorems show

    - Replicated types: replicas that have seen the same states agree,
      whatever the order of delivery ([orset_strong_convergence],
      [gcounter_convergence], [lww_convergence]); an add wins over a
      concurrent remove; serialisation round-trips.
    - Engines: SET, GET, DEL, resize and eviction of NexDash refine operations
      on a finite map; Segcache returns what was stored until its segment
      expires, never loses or duplicates a segment and expires exactly what is
      due; the traces on which the code deviates are theorems too.
    - Locks: no two transactions hold conflicting locks; an attempt succeeds
      exactly when it can; acquisition returns by its deadline, so EXEC never
      hangs, but a transaction that names a key twice among the 64 keys that
      EXEC locks, once for writing, always times out.
    - Filters: no false negatives, no access outside the bits.
    - Conversions and encodings: the vector and scalar parsers agree on every
      input; printing and parsing are inverse; the integer set refines a
      finite set through re-encodings and moves, and its validator accepts
      exactly the images of sets.
    - Expiry, quotas, WebSocket: the table of field TTLs refines a map, while
      callbacks leave it alone ([subkey_expire_race]) and no time is asked
      for that has passed ([subkey_get_expired]); tokens
      identify exactly the tenants they were given to; the limiter admits
      exactly the configured number per window; frames round-trip under any
      fragmentation; escaping cannot be broken out of.
    - Requests: whatever the pieces a connection delivers, the request parser
      executes the commands, and reports the error, of a reference server
      that reads the whole stream; what the AOF writes is read back as the
      same commands.  Lines of the documented format are split into the values
      of their arguments, unclosed quotes are refused, and printed arguments
      are split back; the bytes and quotings outside that format are shown
      one by one.  A request parsed ahead in part is left waiting after a
      block ([unblocked_client_waits]).
    - Storage: the dual store of two NexDash tables refines a finite map on
      keys kept by one store, errors of size and memory included; through its
      adapter every block is freed once and none is used after that;
      read-modify-write is atomic; the CRDT commands refine their abstract
      types up to the bounds stated; the configuration of the server, with
      Segcache, stores strings cut to 16-bit lengths.
    - Engine: whatever the interleaving of the workers inside the two-store
      look-ups, the commands run as on one sequential machine, in order per
      worker, and every queued command is answered while the worker runs.
    - Lock-free code: the queue is linearizable and a dequeue makes progress;
      no protected node is freed, as long as no malloc fails when one is
      retired ([hp_retire_nomem_unsafe]).  Arena ranges are disjoint.
    - Listpacks: queries, insertion, range and batch deletion and merge act
      on the list of strings inside the block; validation is total on any
      bytes and sufficient for safe traversal.
    - Bit commands: on every instruction set BITCOUNT counts the bits of the
      range; BITPOS, BITOP, SETBIT, GETBIT and BITFIELD act on strings as on
      arrays of bits, without an access outside them, but for a saturated SET
      cut to the wrong bound ([bitfield_saturates_high]), a reversed range of
      BITPOS ([bitpos_empty_range]) and a refused write, which still makes the
      key and is not propagated ([bitfield_fail_creates_key]).
    - Globs: the matcher terminates and decides the reference semantics;
      the early cut-off does not change the answer.
    - Time series: retention loses only expired samples, queries are exact.
    - Persistence: with writes that are complete or fail at their start, the
      replay after a crash applies exactly the records that survived, a prefix
      of the log that has all that was synced; writes cut short and failed
      syncs are acknowledged ([aof_short_write_acknowledged],
      [aof_always_ignores_fsync]).
    - Sharding: keys a pattern matches are in its slot; the slot table of the
      engines is that of the live members while there is one
      ([failed_cluster_answers]), and a change of the membership moves only
      the slots it has to; the two checksum tables differ
      ([crc16_tables_differ]).
    - Tiers: the flash tier answers as a map from hashes to values with an
      expiry, on runs that do not write a stored hash again (which keeps the
      old value, [flash_write_twice]), in which transfers are complete or fail
      ([flash_short_write]) and the index can grow ([flash_write_unindexed]);
      temperatures refine a map with counters from any sound state, and every
      field keeps its width and its type; from the start of a process no
      eviction finds anything to do ([hybrid_evict_idle]).
    - Backpressure: whatever the interleaving, no stream has more pending than
      the largest limit it was given, and credit is accounted for exactly; a command that waits
      without a timeout never returns ([xbp_add_hangs]).
    - Protocol detection: the answer is final on a growing buffer, except
      for the beginning of a method's name.

    ** Not modelled

    The event loop, command tables and remaining data types of the Valkey
    core, replication, cluster_legacy.c and sentinel, RDB files, scripting and
    the module API: mostly I/O and glue around code under deps/.  The network
    back ends (I/O only) and the crypto wrapper (external libraries).  The
    vector index, the anomaly detector and the telemetry of vector/ and
    observability/: their data are doubles.  compression/auto.c: no object of
    the server needs it, and its codecs are external.  Cloud storage behind the storage
    interface: a client of HTTP.  Threads are modelled as the steps they take;
    logging, printing and floating-point statistics not at all. *)
From Stdlib Require Export ZArith Lia.
From stdpp Require Export base numbers option gmap list.

#[global] Open Scope Z_scope.

(** ** Machine integers

    A C unsigned integer of width [w] is a [Z] in [0, 2^w); arithmetic on it
    is followed by [wrap w].  A signed integer of width [w] is a [Z] in
    [-2^(w-1), 2^(w-1)); a cast to it is [swrap w]. *)

Declare Scope mach_scope.
Delimit Scope mach_scope with mach.

Definition wrap (w x : Z) : Z := x mod 2 ^ w.
Definition swrap (w x : Z) : Z := (x + 2 ^ (w - 1)) mod 2 ^ w - 2 ^ (w - 1).
Definition in_u (w x : Z) : Prop := 0 <= x < 2 ^ w.

Abbreviation u8 := (wrap 8).
Abbreviation u16 := (wrap 16).
Abbreviation u32 := (wrap 32).
Abbreviation u64 := (wrap 64).
Abbreviation i32 := (swrap 32).
Abbreviation i64 := (swrap 64).

Abbreviation UINT64_MAX := 18446744073709551615 (only parsing).

Notation "x '+64' y" := (wrap 64 (x + y)) (at level 50, left associativity) : mach_scope.
Notation "x '-64' y" := (wrap 64 (x - y)) (at level 50, left associativity) : mach_scope.
Notation "x '*64' y" := (wrap 64 (x * y)) (at level 40, left associativity) : mach_scope.
Notation "x '+32' y" := (wrap 32 (x + y)) (at level 50, left associativity) : mach_scope.
Notation "x '-32' y" := (wrap 32 (x - y)) (at level 50, left associativity) : mach_scope.
Open Scope mach_scope.

#[global] Instance in_u_dec w x : Decision (in_u w x).
Proof. unfold in_u. apply _. Defined.

Create HintDb mach.
Create Rewrite HintDb mach.

(** *** Ranges of wrapped values *)

Lemma wrap_range w x : 0 <= w -> in_u w (wrap w x).
Proof. intros Hw. unfold wrap, in_u. apply Z.mod_pos_bound. lia. Qed.

Lemma wrap_small w x : in_u w x -> wrap w x = x.
Proof. unfold wrap, in_u. intros. by apply Z.mod_small. Qed.

Lemma wrap_wrap w x : wrap w (wrap w x) = wrap w x.
Proof. unfold wrap. apply Zmod_mod. Qed.

Lemma wrap_le w x : 0 <= w -> 0 <= x -> wrap w x <= x.
Proof. intros. unfold wrap. apply Z.mod_le; lia. Qed.

Lemma wrap_add_l w x y : wrap w (wrap w x + y) = wrap w (x + y).
Proof. unfold wrap. apply Zplus_mod_idemp_l. Qed.

Lemma swrap_small w x : 0 < w -> - 2 ^ (w - 1) <= x < 2 ^ (w - 1) -> swrap w x = x.
Proof.
  intros Hw Hx. unfold swrap.
  assert (2 ^ w = 2 * 2 ^ (w - 1)) as Hp.
  { rewrite <- Z.pow_succ_r by lia. f_equal. lia. }
  rewrite Z.mod_small; lia.
Qed.

Lemma swrap_range w x : 0 < w -> - 2 ^ (w - 1) <= swrap w x < 2 ^ (w - 1).
Proof.
  intros Hw. unfold swrap.
  assert (2 ^ w = 2 * 2 ^ (w - 1)) as Hp.
  { rewrite <- Z.pow_succ_r by lia. f_equal. lia. }
  assert (0 < 2 ^ (w - 1)) by (apply Z.pow_pos_nonneg; lia).
  pose proof (Z.mod_pos_bound (x + 2 ^ (w - 1)) (2 ^ w)). lia.
Qed.

(** [mach_unfold] exposes the ranges of the usual widths as literals for [lia]. *)
Ltac mach_unfold :=
  unfold in_u in *;
  repeat match goal with
  | H : context [2 ^ ?w] |- _ =>
      let v := eval vm_compute in (2 ^ w) in
      lazymatch v with Z.pos _ => change (2 ^ w) with v in H end
  | |- context [2 ^ ?w] =>
      let v := eval vm_compute in (2 ^ w) in
      lazymatch v with Z.pos _ => change (2 ^ w) with v end
  end.

Ltac mach := mach_unfold; lia.

#[export] Hint Resolve wrap_range : mach.
#[export] Hint Rewrite wrap_wrap : mach.

(** ** Bits

    [bit_get], [bit_set] and [bit_clear] are the C idioms
    [(x >> i) & 1], [x | (1 << i)] and [x & ~(1 << i)]. *)

Definition bit_get (x i : Z) : bool := negb (Z.land (Z.shiftr x i) 1 =? 0).
Definition bit_set (x i : Z) : Z := Z.lor x (Z.shiftl 1 i).
Definition bit_clear (x i : Z) : Z := Z.land x (Z.lnot (Z.shiftl 1 i)).

Lemma testbit_shiftl_1 i j : 0 <= i -> 0 <= j -> Z.testbit (Z.shiftl 1 i) j = (i =? j).
Proof. intros. rewrite Z.shiftl_1_l. by apply Z.pow2_bits_eqb. Qed.

Lemma bit_get_spec x i : 0 <= i -> bit_get x i = Z.testbit x i.
Proof.
  intros Hi. unfold bit_get. change 1 with (Z.ones 1).
  rewrite Z.land_ones by lia. change (2 ^ 1) with 2.
  rewrite <- Z.bit0_mod, Z.shiftr_spec, Z.add_0_l by lia.
  by destruct (Z.testbit x i).
Qed.

Lemma bit_mask_spec x i : 0 <= i -> negb (Z.land x (Z.shiftl 1 i) =? 0) = Z.testbit x i.
Proof.
  intros Hi. destruct (Z.testbit x i) eqn:Hb.
  - apply negb_true_iff, Z.eqb_neq. intros H0.
    apply (f_equal (fun z => Z.testbit z i)) in H0.
    rewrite Z.land_spec, testbit_shiftl_1, Hb, Z.eqb_refl, Z.bits_0 in H0 by lia. done.
  - apply negb_false_iff, Z.eqb_eq, Z.bits_inj'. intros j Hj.
    rewrite Z.land_spec, testbit_shiftl_1, Z.bits_0 by lia.
    destruct (Z.eqb_spec i j) as [<-|]; [by rewrite Hb|by rewrite andb_false_r].
Qed.

Lemma bit_set_spec x i j : 0 <= i -> 0 <= j ->
  Z.testbit (bit_set x i) j = Z.testbit x j || (i =? j).
Proof. intros. unfold bit_set. by rewrite Z.lor_spec, testbit_shiftl_1. Qed.

Lemma bit_clear_spec x i j : 0 <= i -> 0 <= j ->
  Z.testbit (bit_clear x i) j = Z.testbit x j && negb (i =? j).
Proof. intros. unfold bit_clear. by rewrite Z.land_spec, Z.lnot_spec, testbit_shiftl_1. Qed.

Lemma testbit_high w x j : in_u w x -> 0 <= w <= j -> Z.testbit x j = false.
Proof.
  intros [H0 H1] Hj. destruct (Z.eq_dec x 0) as [->|]; [apply Z.bits_0|].
  apply Z.bits_above_log2; [lia|]. apply Z.log2_lt_pow2; [lia|].
  eapply Z.lt_le_trans; [exact H1|]. apply Z.pow_le_mono_r; lia.
Qed.

Lemma in_u_testbit w x : 0 <= w -> 0 <= x ->
  (forall j, w <= j -> Z.testbit x j = false) -> in_u w x.
Proof.
  intros Hw Hx Hb. split; [done|].
  destruct (Z.eq_dec x 0) as [->|]; [lia|].
  apply Z.log2_lt_pow2; [lia|].
  destruct (Z.lt_ge_cases (Z.log2 x) w) as [|Hge]; [done|].
  specialize (Hb _ Hge). rewrite Z.bit_log2 in Hb; [done|lia].
Qed.

Lemma bit_set_range w x i : 0 <= i < w -> in_u w x -> in_u w (bit_set x i).
Proof.
  intros Hi Hx. apply in_u_testbit; [lia| |].
  - apply Z.lor_nonneg. split; [apply Hx|]. apply Z.shiftl_nonneg. lia.
  - intros j Hj. rewrite bit_set_spec by lia.
    rewrite (testbit_high w) by (done || lia). simpl. lia.
Qed.

Lemma bit_clear_range w x i : 0 <= i -> 0 <= w -> in_u w x -> in_u w (bit_clear x i).
Proof.
  intros Hi Hw Hx. apply in_u_testbit; [lia| |].
  - apply Z.land_nonneg. left. apply Hx.
  - intros j Hj. rewrite bit_clear_spec by lia. by rewrite (testbit_high w) by (done || lia).
Qed.

#[export] Hint Rewrite bit_get_spec bit_set_spec bit_clear_spec using lia : mach.

(** ** Packing of disjoint bit fields *)
Lemma lor_pack a b w : in_u w a -> 0 <= w -> 0 <= b -> Z.lor a (Z.shiftl b w) = a + 2 ^ w * b.
Proof.
  intros Ha Hw Hb. rewrite <- Z.lxor_lor.
  - rewrite <- Z.add_nocarry_lxor.
    + rewrite Z.shiftl_mul_pow2 by done. lia.
    + apply Z.bits_inj'. intros j Hj. rewrite Z.land_spec, Z.bits_0.
      destruct (Z.lt_ge_cases j w); [rewrite Z.shiftl_spec_low by lia; apply andb_false_r|].
      by rewrite (testbit_high w a j) by (done || lia).
  - apply Z.bits_inj'. intros j Hj. rewrite Z.land_spec, Z.bits_0.
    destruct (Z.lt_ge_cases j w); [rewrite Z.shiftl_spec_low by lia; apply andb_false_r|].
    by rewrite (testbit_high w a j) by (done || lia).
Qed.

Lemma pow_split a b : 0 <= a -> 0 <= b -> 2 ^ (a + b) = 2 ^ a * 2 ^ b.
Proof. intros. apply Z.pow_add_r; lia. Qed.

(** A field: [(x >> s) & (2^w - 1)]. *)
Lemma field_get lo mid hi s w : in_u s lo -> in_u w mid -> 0 <= s -> 0 <= w -> 0 <= hi ->
  Z.land (Z.shiftr (lo + 2 ^ s * (mid + 2 ^ w * hi)) s) (Z.ones w) = mid.
Proof.
  intros Hlo Hmid Hs Hw Hhi. rewrite Z.shiftr_div_pow2, Z.land_ones by done.
  assert (0 < 2 ^ s) by (apply Z.pow_pos_nonneg; lia).
  rewrite (Z.mul_comm (2 ^ s)), Z.div_add, (Z.div_small lo), Z.add_0_l by (unfold in_u in *; lia).
  rewrite (Z.mul_comm (2 ^ w)), Z.mod_add by (assert (0 < 2 ^ w) by (apply Z.pow_pos_nonneg; lia); lia).
  by apply Z.mod_small.
Qed.

Lemma addr_get lo hi s : in_u s lo -> 0 <= s -> Z.land (lo + 2 ^ s * hi) (Z.ones s) = lo.
Proof.
  intros Hlo Hs. rewrite Z.land_ones by done. assert (0 < 2 ^ s) by (apply Z.pow_pos_nonneg; lia).
  rewrite (Z.mul_comm (2 ^ s)), Z.mod_add by lia. by apply Z.mod_small.
Qed.

Lemma shl_fits b s w : in_u w b -> 0 <= s -> 0 <= w -> s + w <= 64 -> u64 (Z.shiftl b s) = Z.shiftl b s.
Proof.
  intros Hb Hs Hw Hsum. apply wrap_small. rewrite Z.shiftl_mul_pow2 by done. unfold in_u in *.
  assert (0 < 2 ^ s) by (apply Z.pow_pos_nonneg; lia).
  assert (2 ^ w * 2 ^ s <= 2 ^ 64) by (rewrite <- pow_split by lia; apply Z.pow_le_mono_r; lia). nia.
Qed.

Lemma in_u_pack a b w v : in_u w a -> in_u v b -> 0 <= w -> 0 <= v -> in_u (w + v) (a + 2 ^ w * b).
Proof.
  intros Ha Hb Hw Hv. unfold in_u in *. rewrite pow_split by done.
  assert (0 < 2 ^ w) by (apply Z.pow_pos_nonneg; lia). nia.
Qed.

(** ** Arrays

    A C array is a list; [aget] and [aset] are [a[i]] and [a[i] = x] for an
    index in range.  Outside the range C has undefined behaviour: the
    theorems that use them prove the index in range, and code whose accesses
    are data-dependent uses [!!] and an [option] result instead. *)

Definition alen {A} (a : list A) : Z := Z.of_nat (length a).
Definition aget {A} `{!Inhabited A} (a : list A) (i : Z) : A := a !!! Z.to_nat i.
Definition aset {A} (a : list A) (i : Z) (x : A) : list A := <[Z.to_nat i := x]> a.
Definition calloc {A} (n : Z) (x : A) : list A := replicate (Z.to_nat n) x.

Section arrays.
Context {A : Type} `{!Inhabited A}.
Implicit Types (a : list A) (i j : Z) (x : A).

Lemma alen_aset a i x : alen (aset a i x) = alen a.
Proof. unfold alen, aset. by rewrite length_insert. Qed.

Lemma length_aset a i x : length (aset a i x) = length a.
Proof. unfold aset. by rewrite length_insert. Qed.

Lemma aget_aset_eq a i x : 0 <= i < alen a -> aget (aset a i x) i = x.
Proof.
  unfold alen, aget, aset. intros. apply list_lookup_total_insert_eq. lia.
Qed.

Lemma aget_aset_ne a i j x : 0 <= i -> 0 <= j -> i ≠ j -> aget (aset a i x) j = aget a j.
Proof. unfold aget, aset. intros. apply list_lookup_total_insert_ne. lia. Qed.

Lemma aget_lookup a i : 0 <= i < alen a -> a !! Z.to_nat i = Some (aget a i).
Proof. unfold alen, aget. intros. apply list_lookup_lookup_total_lt. lia. Qed.

Lemma aset_lookup a i k x : 0 <= i < alen a ->
  aset a i x !! k = if decide (k = Z.to_nat i) then Some x else a !! k.
Proof.
  unfold aset, alen. intros Hi. case_decide as Hk.
  - subst. apply list_lookup_insert_eq. lia.
  - by apply list_lookup_insert_ne.
Qed.

Lemma alen_calloc n x : 0 <= n -> alen (calloc n x) = n.
Proof. intros. unfold alen, calloc. rewrite length_replicate. lia. Qed.

Lemma aget_calloc n i x : 0 <= i < n -> aget (calloc n x) i = x.
Proof. intros. unfold aget, calloc. apply lookup_total_replicate_2. lia. Qed.

Lemma Forall_calloc (P : A -> Prop) n x : P x -> Forall P (calloc n x).
Proof. intros. by apply Forall_replicate. Qed.

Lemma arr_ext a b : alen a = alen b ->
  (forall i, 0 <= i < alen a -> aget a i = aget b i) -> a = b.
Proof.
  intros Hl Hg. unfold alen in *. apply (list_eq_same_length _ _ (length a)); [lia|done|].
  intros k x y Hk Hx Hy. specialize (Hg (Z.of_nat k) ltac:(lia)).
  unfold aget in Hg. rewrite Nat2Z.id in Hg.
  by rewrite (list_lookup_total_correct _ _ _ Hx), (list_lookup_total_correct _ _ _ Hy) in Hg.
Qed.

Lemma Forall_aset (P : A -> Prop) a i x : Forall P a -> P x -> Forall P (aset a i x).
Proof. intros. by apply Forall_insert. Qed.

Lemma Forall_aget (P : A -> Prop) a i : Forall P a -> 0 <= i < alen a -> P (aget a i).
Proof. intros Ha Hi. eapply Forall_lookup_1; [done|]. by apply aget_lookup. Qed.
End arrays.

#[export] Hint Rewrite @alen_aset @length_aset : mach.

Lemma alen_cons {A} (x : A) l : alen (x :: l) = 1 + alen l.
Proof. unfold alen. simpl length. lia. Qed.

Lemma alen_app {A} (l l' : list A) : alen (l ++ l') = alen l + alen l'.
Proof. unfold alen. rewrite length_app. lia. Qed.

Lemma alen_nonneg {A} (l : list A) : 0 <= alen l.
Proof. unfold alen. lia. Qed.

Lemma alen_nil {A} : alen ([] : list A) = 0.
Proof. done. Qed.

Lemma filter_none {A} (P : A -> Prop) `{!forall x, Decision (P x)} (l : list A) :
  Forall (fun x => ~ P x) l -> filter P l = [].
Proof. induction 1 as [|x l Hx Hl IH]; [done|]. by rewrite filter_cons, decide_False. Qed.

Lemma filter_all {A} (P : A -> Prop) `{!forall x, Decision (P x)} (l : list A) :
  Forall P l -> filter P l = l.
Proof. induction 1 as [|x l Hx Hl IH]; [done|]. rewrite filter_cons, decide_True by done. by rewrite IH. Qed.

(** [for_loop n f s] is [for (i = 0; i < n; i++) s = f i s]. *)
Definition for_loop {S} (n : Z) (f : Z -> S -> S) (s : S) : S :=
  fold_left (fun s i => f i s) (seqZ 0 n) s.

Lemma for_loop_0 {S} n (f : Z -> S -> S) s : n <= 0 -> for_loop n f s = s.
Proof. intros. unfold for_loop. rewrite seqZ_nil by lia. done. Qed.

Lemma for_loop_succ {S} n (f : Z -> S -> S) s :
  0 <= n -> for_loop (n + 1) f s = f n (for_loop n f s).
Proof.
  intros Hn. unfold for_loop. rewrite seqZ_app by lia.
  rewrite fold_left_app, (seqZ_cons (0 + n) 1), (seqZ_nil (Z.succ _)) by lia. simpl. f_equal; lia.
Qed.

(** Invariant rule for counting loops. *)
Lemma for_loop_ind {S} (P : Z -> S -> Prop) n (f : Z -> S -> S) s :
  0 <= n -> P 0 s -> (forall i t, 0 <= i < n -> P i t -> P (i + 1) (f i t)) ->
  P n (for_loop n f s).
Proof.
  intros Hn H0 Hs.
  cut (forall m, 0 <= m -> m <= n -> P m (for_loop m f s)); [intros H; by apply H|].
  apply (natlike_ind (fun m => m <= n -> P m (for_loop m f s))).
  - intros _. rewrite for_loop_0 by lia. done.
  - intros m Hm IH Hle. unfold Z.succ in *. rewrite for_loop_succ by lia.
    apply Hs; [lia|]. apply IH. lia.
Qed.

(** A scan [for (i = 0; i < n; i++) if (P(i)) ...] that stops at the first hit. *)
Lemma find_seqZ (P : Z -> bool) n : match find P (seqZ 0 n) with
  | Some i => 0 <= i < n /\ P i = true
  | None => forall i, 0 <= i < n -> P i = false
  end.
Proof.
  destruct (find P (seqZ 0 n)) as [i|] eqn:H.
  - apply find_some in H as [Hi HP]. apply list_elem_of_In, elem_of_seqZ in Hi. split; [lia|done].
  - intros i Hi. apply (find_none _ _ H). apply list_elem_of_In, elem_of_seqZ. lia.
Qed.

(** ** Byte strings *)

Abbreviation bytes := (list Z) (only parsing).
Definition is_bytes (b : bytes) : Prop := Forall (in_u 8) b.

(** Little-endian encoding: how a [memcpy] of an [n]-byte integer lays it out
    on the little-endian targets of the code. *)
Fixpoint le_bytes (n : nat) (z : Z) : bytes :=
  match n with
  | O => []
  | S n => z mod 256 :: le_bytes n (z / 256)
  end.

Fixpoint le_val (b : bytes) : Z :=
  match b with
  | [] => 0
  | x :: b => x + 256 * le_val b
  end.

Lemma length_le_bytes n z : length (le_bytes n z) = n.
Proof. revert z. induction n; intros z; simpl; [done|]. by rewrite IHn. Qed.

Lemma le_val_bytes n z : le_val (le_bytes n z) = z mod 2 ^ (8 * Z.of_nat n).
Proof.
  revert z. induction n as [|n IH]; intros z.
  - simpl. by rewrite Z.mod_1_r.
  - change (le_bytes (S n) z) with (z mod 256 :: le_bytes n (z / 256)). simpl le_val.
    rewrite IH.
    replace (8 * Z.of_nat (S n)) with (8 + 8 * Z.of_nat n) by lia.
    rewrite Z.pow_add_r by lia. change (2 ^ 8) with 256.
    rewrite Z.rem_mul_r by lia. lia.
Qed.

Lemma le_bytes_is_bytes n z : is_bytes (le_bytes n z).
Proof.
  revert z. induction n; intros z; simpl; constructor; [|apply IHn].
  unfold in_u. apply Z.mod_pos_bound. lia.
Qed.

Lemma le_round_trip n z : in_u (8 * Z.of_nat n) z -> le_val (le_bytes n z) = z.
Proof. intros. rewrite le_val_bytes. by apply Z.mod_small. Qed.

Lemma le_val_range b : is_bytes b -> in_u (8 * alen b) (le_val b).
Proof.
  unfold alen. induction 1 as [|x b Hx Hb IH]; [unfold in_u; simpl; lia|].
  change (length (x :: b)) with (S (length b)). simpl le_val. unfold in_u in *.
  replace (8 * Z.of_nat (S (length b))) with (8 + 8 * Z.of_nat (length b)) by lia.
  rewrite Z.pow_add_r by lia. change (2 ^ 8) with 256 in *. lia.
Qed.

Lemma le_bytes_val b : is_bytes b -> le_bytes (length b) (le_val b) = b.
Proof.
  induction 1 as [|x b Hx Hb IH]; [done|]. simpl. f_equal.
  - rewrite (Z.mul_comm 256), Z.mod_add by lia. apply Z.mod_small. mach.
  - rewrite (Z.mul_comm 256), Z.div_add by lia.
    rewrite Z.div_small by mach. by rewrite Z.add_0_l.
Qed.

(** [memcmp a b n == 0] on byte strings of at least [n] bytes. *)
Definition bytes_eqb (a b : bytes) : bool := bool_decide (a = b).

Lemma bytes_eqb_eq a b : bytes_eqb a b = true <-> a = b.
Proof. unfold bytes_eqb. apply bool_decide_eq_true. Qed.

(** ** Tactics of the development *)

(** Split every [if] and [match] of the goal and of the hypotheses that are
    boolean comparisons, turning the comparisons into arithmetic facts. *)
Ltac cmp_prop :=
  repeat match goal with
  | H : (_ =? _) = true |- _ => apply Z.eqb_eq in H
  | H : (_ =? _) = false |- _ => apply Z.eqb_neq in H
  | H : (_ <? _) = true |- _ => apply Z.ltb_lt in H
  | H : (_ <? _) = false |- _ => apply Z.ltb_ge in H
  | H : (_ <=? _) = true |- _ => apply Z.leb_le in H
  | H : (_ <=? _) = false |- _ => apply Z.leb_gt in H
  | H : bytes_eqb _ _ = true |- _ => apply bytes_eqb_eq in H
  | H : _ && _ = true |- _ => apply andb_true_iff in H; destruct H
  | H : _ || _ = false |- _ => apply orb_false_iff in H; destruct H
  | H : negb _ = true |- _ => apply negb_true_iff in H
  | H : negb _ = false |- _ => apply negb_false_iff in H
  end.

Ltac case_if :=
  match goal with
  | |- context [if ?b then _ else _] =>
      lazymatch type of b with
      | bool => let E := fresh "E" in destruct b eqn:E; cmp_prop
      end
  end.

Ltac case_if_in H :=
  match type of H with
  | context [if ?b then _ else _] =>
      lazymatch type of b with
      | bool => let E := fresh "E" in destruct b eqn:E; cmp_prop
      end
  end.
