(* ===== verification/Lattice.v ===== *)
(** * State-based replication: the interface

    The contract a convergent replicated data type offers to the replication
    layer: a merge that is commutative, associative and idempotent on the
    admissible states.  [converge] is the theorem the replication layer uses:
    two replicas that hold or received the same set of states reach the
    same state, whatever the order and the number of deliveries.  The CRDTs of
    src/src/crdt/crdt.c are instances (file Crdt). *)
From S2P Require Import Prelude.

Class CvRDT {S : Type} (ok : S -> Prop) (join : S -> S -> S) : Prop := {
  join_ok x y : ok x -> ok y -> ok (join x y);
  join_comm x y : ok x -> ok y -> join x y = join y x;
  join_assoc x y z : ok x -> ok y -> ok z -> join (join x y) z = join x (join y z);
  join_idem x : ok x -> join x x = x;
}.

Section convergence.
Context {S : Type} {ok : S -> Prop} {join : S -> S -> S} `{!CvRDT ok join}.
Implicit Types (x y z : S) (l : list S).

(** The order induced by the merge: [y] already contains [x]. *)
Definition below x y : Prop := join x y = y.

Lemma below_antisym x y : ok x -> ok y -> below x y -> below y x -> x = y.
Proof. unfold below. intros ?? H1 H2. transitivity (join y x); [done|]. by rewrite join_comm. Qed.

Lemma below_trans x y z : ok x -> ok y -> ok z -> below x y -> below y z -> below x z.
Proof. unfold below. intros ??? H1 H2. by rewrite <- H2, <- join_assoc, H1. Qed.

Lemma below_join_l x y : ok x -> ok y -> below x (join x y).
Proof. unfold below. intros. by rewrite <- join_assoc, join_idem. Qed.

Lemma below_join_r x y : ok x -> ok y -> below y (join x y).
Proof. intros. rewrite join_comm by done. by apply below_join_l. Qed.

Lemma below_lub x y z : ok x -> ok y -> ok z -> below x z -> below y z -> below (join x y) z.
Proof. unfold below. intros ??? H1 H2. by rewrite join_assoc, H2, H1. Qed.

(** Receiving the states of [l] in order. *)
Definition deliver (x : S) (l : list S) : S := fold_left join l x.

Lemma deliver_ok x l : ok x -> Forall ok l -> ok (deliver x l).
Proof.
  intros Hx Hl. revert x Hx. induction Hl as [|y l Hy Hl IH]; intros x Hx; [done|].
  apply IH. by apply join_ok.
Qed.

Lemma deliver_above x l : ok x -> Forall ok l ->
  below x (deliver x l) /\ (forall y, y ∈ l -> below y (deliver x l)).
Proof.
  intros Hx Hl. revert x Hx. induction Hl as [|y l Hy Hl IH]; intros x Hx; simpl.
  - split; [by apply join_idem|]. intros y Hy. by apply not_elem_of_nil in Hy.
  - destruct (IH (join x y) ltac:(by apply join_ok)) as [H1 H2].
    pose proof (deliver_ok (join x y) l ltac:(by apply join_ok) Hl) as Hok.
    pose proof (join_ok _ _ Hx Hy) as Hxy.
    split; [exact (below_trans _ _ _ Hx Hxy Hok (below_join_l x y Hx Hy) H1)|].
    intros z [->|Hz]%elem_of_cons; [|by apply H2].
    exact (below_trans _ _ _ Hy Hxy Hok (below_join_r x y Hx Hy) H1).
Qed.

Lemma deliver_least x l z : ok x -> Forall ok l -> ok z ->
  below x z -> (forall y, y ∈ l -> below y z) -> below (deliver x l) z.
Proof.
  intros Hx Hl Hz. revert x Hx. induction Hl as [|y l Hy Hl IH]; intros x Hx Hxz Hall; [done|].
  apply IH; [by apply join_ok| |].
  - apply below_lub; try done. apply Hall. by left.
  - intros w Hw. apply Hall. by right.
Qed.

Lemma deliver_mono x y l1 l2 : ok x -> ok y -> Forall ok l1 -> Forall ok l2 ->
  (forall z, z ∈ x :: l1 -> z ∈ y :: l2) -> below (deliver x l1) (deliver y l2).
Proof.
  intros Hx Hy H1 H2 Hsub. destruct (deliver_above y l2 Hy H2) as [Ha Hb].
  assert (Hall : forall z, z ∈ x :: l1 -> below z (deliver y l2)).
  { intros z Hz. apply Hsub in Hz. apply elem_of_cons in Hz as [->|Hz]; auto. }
  apply deliver_least; auto using deliver_ok; [apply Hall; by left|].
  intros z Hz. apply Hall. by right.
Qed.

(** Two replicas that hold or received the same states agree. *)
Lemma converge x y l1 l2 : ok x -> ok y -> Forall ok l1 -> Forall ok l2 ->
  (forall z, z ∈ x :: l1 <-> z ∈ y :: l2) -> deliver x l1 = deliver y l2.
Proof.
  intros Hx Hy H1 H2 Heq.
  apply below_antisym; auto using deliver_ok; apply deliver_mono; try done; intros z; apply Heq.
Qed.
End convergence.

(** Two replicated states side by side. *)
Definition prod_ok {S T} (okS : S -> Prop) (okT : T -> Prop) (x : S * T) : Prop := okS x.1 /\ okT x.2.
Definition prod_join {S T} (jS : S -> S -> S) (jT : T -> T -> T) (x y : S * T) : S * T :=
  (jS x.1 y.1, jT x.2 y.2).

#[export] Instance prod_cvrdt {S T} (okS : S -> Prop) (okT : T -> Prop) jS jT
  `{!CvRDT okS jS} `{!CvRDT okT jT} : CvRDT (prod_ok okS okT) (prod_join jS jT).
Proof.
  unfold prod_ok, prod_join. split; intros; destruct_and?; simpl.
  - split; by apply join_ok.
  - f_equal; by apply join_comm.
  - f_equal; by apply join_assoc.
  - destruct x; simpl in *. f_equal; by apply join_idem.
Qed.
