(* ===== verification/Crdt.v ===== *)
(** * Conflict-free replicated data types (src/src/crdt/crdt.c)

    G-Counter, PN-Counter, OR-Set and LWW-Register with the operations of the
    C file.  A pointer argument is a non-NULL object; [crdt_us_now] is the
    argument [now]; the outcome of a [realloc] to a capacity [c] is the oracle
    [alloc c].  Each operation runs under the object's lock, so a call is one
    atomic step. *)
From S2P Require Import Prelude Lattice.

Definition CRDT_MAX_NODES : Z := 128.

(** ** Merging vectors by maximum

    The loop [for (i = 0; i < n; i++) if (src[i] > dst[i]) dst[i] = src[i];]
    shared by the counters and the vector clock. *)
Definition max_step (src : list Z) (i : Z) (dst : list Z) : list Z :=
  if aget dst i <? aget src i then aset dst i (aget src i) else dst.

Definition max_loop (n : Z) (dst src : list Z) : list Z := for_loop n (max_step src) dst.

Section max_loop.
Implicit Types (dst src : list Z).

Lemma max_loop_spec n dst src : 0 <= n <= alen dst ->
  alen (max_loop n dst src) = alen dst /\
  forall i, 0 <= i < alen dst ->
    aget (max_loop n dst src) i = if i <? n then Z.max (aget dst i) (aget src i) else aget dst i.
Proof.
  intros Hn. unfold max_loop.
  apply (for_loop_ind (fun m d => alen d = alen dst /\
    forall i, 0 <= i < alen dst ->
      aget d i = if i <? m then Z.max (aget dst i) (aget src i) else aget dst i)); [lia| |].
  - split; [done|]. intros i Hi. by destruct (Z.ltb_spec i 0); [lia|].
  - intros k d Hk [Hl Hd]. unfold max_step.
    pose proof (Hd k ltac:(lia)) as Hk'. rewrite Z.ltb_irrefl in Hk'.
    case_if; (split; [by rewrite ?alen_aset|]); intros i Hi; specialize (Hd i Hi);
      destruct (Z.eq_dec i k) as [->|Hne].
    + rewrite aget_aset_eq by lia. destruct (Z.ltb_spec k (k + 1)); lia.
    + rewrite aget_aset_ne by lia. rewrite Hd.
      destruct (Z.ltb_spec i k), (Z.ltb_spec i (k + 1)); lia.
    + destruct (Z.ltb_spec k (k + 1)); lia.
    + rewrite Hd. destruct (Z.ltb_spec i k), (Z.ltb_spec i (k + 1)); lia.
Qed.
End max_loop.

(** ** A vector of per-node counters as the counters store it: the array is
    allocated for [CRDT_MAX_NODES] entries and is zero from [n] on. *)
Record vec_ok (n : Z) (v : list Z) : Prop := {
  vec_len : alen v = CRDT_MAX_NODES;
  vec_num : 0 <= n <= CRDT_MAX_NODES;
  vec_u64 : forall i, 0 <= i < CRDT_MAX_NODES -> in_u 64 (aget v i);
  vec_zero : forall i, n <= i < CRDT_MAX_NODES -> aget v i = 0;
}.

(** Merging two such vectors is the pointwise maximum over the whole array. *)
Lemma max_loop_full n1 n2 v1 v2 : vec_ok n1 v1 -> vec_ok n2 v2 ->
  alen (max_loop (Z.max n1 n2) v1 v2) = CRDT_MAX_NODES /\
  forall i, 0 <= i < CRDT_MAX_NODES ->
    aget (max_loop (Z.max n1 n2) v1 v2) i = Z.max (aget v1 i) (aget v2 i).
Proof.
  intros [L1 N1 U1 Z1] [L2 N2 U2 Z2].
  destruct (max_loop_spec (Z.max n1 n2) v1 v2) as [Hl Hg]; [lia|].
  split; [lia|]. intros i Hi. rewrite Hg by lia.
  destruct (Z.ltb_spec i (Z.max n1 n2)); [done|].
  rewrite Z1, Z2 by lia. lia.
Qed.

Lemma max_loop_ok n1 n2 v1 v2 : vec_ok n1 v1 -> vec_ok n2 v2 ->
  vec_ok (Z.max n1 n2) (max_loop (Z.max n1 n2) v1 v2).
Proof.
  intros H1 H2. destruct (max_loop_full n1 n2 v1 v2 H1 H2) as [Hl Hg].
  destruct H1 as [L1 N1 U1 Z1], H2 as [L2 N2 U2 Z2]. split.
  - done.
  - lia.
  - intros i Hi. rewrite Hg by done. specialize (U1 i Hi). specialize (U2 i Hi). mach.
  - intros i Hi. rewrite Hg by lia. rewrite Z1, Z2 by lia. lia.
Qed.

(** The state two counters exchange: array and node count. *)
Definition vec_join (a b : list Z * Z) : list Z * Z :=
  (max_loop (Z.max a.2 b.2) a.1 b.1, Z.max a.2 b.2).
Definition vec_state_ok (a : list Z * Z) : Prop := vec_ok a.2 a.1.

Lemma vec_join_eq a b (v : list Z) n : vec_state_ok a -> vec_state_ok b -> n = Z.max a.2 b.2 ->
  alen v = CRDT_MAX_NODES ->
  (forall i, 0 <= i < CRDT_MAX_NODES -> aget v i = Z.max (aget a.1 i) (aget b.1 i)) ->
  (v, n) = vec_join a b.
Proof.
  intros Ha Hb -> Hl Hv. unfold vec_join. f_equal.
  destruct (max_loop_full a.2 b.2 a.1 b.1 Ha Hb) as [L G].
  apply arr_ext; [lia|]. intros i Hi. rewrite Hv, G by lia. done.
Qed.

#[export] Instance vec_cvrdt : CvRDT vec_state_ok vec_join.
Proof.
  assert (Hok : forall x y, vec_state_ok x -> vec_state_ok y -> vec_state_ok (vec_join x y)).
  { intros x y Hx Hy. by apply max_loop_ok. }
  assert (Hget : forall x y i, vec_state_ok x -> vec_state_ok y -> 0 <= i < CRDT_MAX_NODES ->
    aget (vec_join x y).1 i = Z.max (aget x.1 i) (aget y.1 i)).
  { intros x y i Hx Hy Hi. by apply (max_loop_full x.2 y.2). }
  split; [done|..].
  - intros x y Hx Hy. symmetry. apply vec_join_eq; try done; simpl; [lia|by apply max_loop_full|].
    intros i Hi. rewrite (Z.max_comm (aget x.1 i)). by apply (Hget y x).
  - intros x y z Hx Hy Hz. apply vec_join_eq; auto; simpl; [lia|..].
    + apply (max_loop_full (vec_join x y).2 z.2); [by apply Hok|done].
    + intros i Hi. fold (vec_join x y). rewrite (Hget y z) by done.
      change (max_loop _ _ z.1) with (vec_join (vec_join x y) z).1.
      rewrite Hget, Hget by auto. lia.
  - intros x Hx. symmetry. destruct x as [v n]. apply vec_join_eq; try done; simpl; [lia|apply Hx|].
    intros i Hi. lia.
Qed.

(** ** G-Counter *)
Record GCounter := mkGCounter {
  g_values : list Z;   (* uint64_t values[CRDT_MAX_NODES] *)
  g_num_nodes : Z;     (* int *)
  g_self_node : Z;     (* uint32_t *)
}.

Definition gcounter_create (self_node_id num_nodes : Z) : GCounter :=
  let num_nodes := if CRDT_MAX_NODES <? num_nodes then CRDT_MAX_NODES else num_nodes in
  mkGCounter (calloc CRDT_MAX_NODES 0) num_nodes self_node_id.

(** The saturating addition written out in [gcounter_increment],
    [pncounter_increment] and [pncounter_decrement]. *)
Definition sat_add_at (v : list Z) (self delta : Z) : list Z :=
  if UINT64_MAX -64 aget v self <? delta then aset v self UINT64_MAX
  else aset v self (aget v self +64 delta).

Definition gcounter_increment (g : GCounter) (delta : Z) : GCounter :=
  if u32 (g_num_nodes g) <=? g_self_node g then g
  else mkGCounter (sat_add_at (g_values g) (g_self_node g) delta) (g_num_nodes g) (g_self_node g).

Definition sum_loop (n : Z) (v : list Z) : Z := for_loop n (fun i sum => sum +64 aget v i) 0.

Definition gcounter_value (g : GCounter) : Z := sum_loop (g_num_nodes g) (g_values g).

Definition gcounter_merge (dst src : GCounter) : GCounter :=
  let n := if g_num_nodes src <? g_num_nodes dst then g_num_nodes dst else g_num_nodes src in
  let n := if CRDT_MAX_NODES <? n then CRDT_MAX_NODES else n in
  mkGCounter (max_loop n (g_values dst) (g_values src))
    (if g_num_nodes dst <? g_num_nodes src then g_num_nodes src else g_num_nodes dst)
    (g_self_node dst).

(** *** Well-formedness and the shared-vector view *)
Definition gcounter_ok (g : GCounter) : Prop := vec_ok (g_num_nodes g) (g_values g).
Definition gcounter_payload (g : GCounter) : list Z * Z := (g_values g, g_num_nodes g).

Lemma calloc_vec_ok n : 0 <= n <= CRDT_MAX_NODES -> vec_ok n (calloc CRDT_MAX_NODES 0).
Proof.
  intros Hn. split; [by apply alen_calloc|done|..]; intros i Hi; rewrite aget_calloc by lia; [mach|done].
Qed.

Lemma gcounter_create_ok self n : 0 <= n -> gcounter_ok (gcounter_create self n).
Proof.
  intros Hn. unfold gcounter_ok, gcounter_create. simpl. apply calloc_vec_ok.
  unfold CRDT_MAX_NODES in *. case_if; lia.
Qed.

(** The node's own entry after a saturating addition, and the others. *)
Lemma sat_add_at_spec n v self delta i : vec_ok n v -> 0 <= self < n -> in_u 64 delta ->
  0 <= i < CRDT_MAX_NODES ->
  aget (sat_add_at v self delta) i =
    if i =? self then Z.min UINT64_MAX (aget v i + delta) else aget v i.
Proof.
  intros [L N U _] Hs Hd Hi. unfold sat_add_at.
  pose proof (U self ltac:(lia)) as Hu.
  rewrite (wrap_small 64 (UINT64_MAX - _)) by mach.
  destruct (Z.eqb_spec i self) as [->|Hne].
  - case_if; rewrite aget_aset_eq by lia; [lia|]. rewrite wrap_small by mach. lia.
  - case_if; by rewrite aget_aset_ne by lia.
Qed.

Lemma sat_add_at_ok n v self delta : vec_ok n v -> 0 <= self < n -> in_u 64 delta ->
  vec_ok n (sat_add_at v self delta).
Proof.
  intros Hv Hs Hd. pose proof (sat_add_at_spec n v self delta) as Hspec.
  destruct Hv as [L N U Z0]. split.
  - unfold sat_add_at. case_if; by rewrite alen_aset.
  - done.
  - intros i Hi. rewrite Hspec by done. pose proof (U i Hi). case_if; mach.
  - intros i Hi. rewrite Hspec by (done || lia). case_if; [lia|]. by apply Z0.
Qed.

Lemma gcounter_increment_ok g delta : 0 <= g_self_node g -> in_u 64 delta ->
  gcounter_ok g -> gcounter_ok (gcounter_increment g delta).
Proof.
  intros Hs Hd Hg. unfold gcounter_increment. case_if; [done|].
  apply sat_add_at_ok; [done| |done]. destruct Hg as [_ N _ _].
  unfold CRDT_MAX_NODES in *. rewrite wrap_small in E by mach. simpl. lia.
Qed.

Lemma gcounter_merge_payload dst src : gcounter_ok dst -> gcounter_ok src ->
  gcounter_payload (gcounter_merge dst src) = vec_join (gcounter_payload dst) (gcounter_payload src).
Proof.
  intros [_ N1 _ _] [_ N2 _ _]. unfold gcounter_payload, gcounter_merge, vec_join. simpl.
  unfold CRDT_MAX_NODES in *.
  destruct (Z.ltb_spec (g_num_nodes src) (g_num_nodes dst)),
    (Z.ltb_spec (g_num_nodes dst) (g_num_nodes src)); f_equal; [f_equal| |f_equal| |f_equal| |f_equal|];
    repeat case_if; lia.
Qed.

Lemma gcounter_merge_ok dst src : gcounter_ok dst -> gcounter_ok src -> gcounter_ok (gcounter_merge dst src).
Proof.
  intros H1 H2. pose proof (gcounter_merge_payload dst src H1 H2) as Hp.
  unfold gcounter_ok. change (vec_state_ok (gcounter_payload (gcounter_merge dst src))).
  rewrite Hp. by apply join_ok.
Qed.

(** *** The value of a counter is the sum of its entries *)
Definition vec_sum (n : Z) (v : list Z) : Z := foldr Z.add 0 ((aget v) <$> seqZ 0 n).

Lemma foldr_add_acc (c : Z) (l : list Z) : foldr Z.add c l = foldr Z.add 0 l + c.
Proof. induction l as [|x l IH]; simpl; lia. Qed.

Lemma vec_sum_succ n v : 0 <= n -> vec_sum (n + 1) v = vec_sum n v + aget v n.
Proof.
  intros Hn. unfold vec_sum. rewrite seqZ_app, fmap_app by lia.
  rewrite (seqZ_cons (0 + n) 1), (seqZ_nil (Z.succ _)) by lia. rewrite foldr_app, foldr_add_acc.
  simpl. rewrite Z.add_0_l. lia.
Qed.

Lemma sum_loop_wrap n v : 0 <= n -> sum_loop n v = u64 (vec_sum n v).
Proof.
  intros Hn. unfold sum_loop.
  apply (for_loop_ind (fun m s => s = u64 (vec_sum m v))); [done|done|].
  intros i t Hi ->. rewrite vec_sum_succ by lia. unfold wrap. by rewrite Zplus_mod_idemp_l.
Qed.

(** *** Delivery of remote states to a replica *)
Definition gcounter_deliver (g : GCounter) (l : list GCounter) : GCounter := fold_left gcounter_merge l g.

Lemma gcounter_deliver_payload g l : gcounter_ok g -> Forall gcounter_ok l ->
  gcounter_payload (gcounter_deliver g l) = deliver (join := vec_join) (gcounter_payload g) (gcounter_payload <$> l).
Proof.
  intros Hg Hl. revert g Hg. induction Hl as [|x l Hx Hl IH]; intros g Hg; [done|]. simpl.
  rewrite <- gcounter_merge_payload by done. apply IH. by apply gcounter_merge_ok.
Qed.

Lemma gcounter_payloads_ok l : Forall gcounter_ok l -> Forall vec_state_ok (gcounter_payload <$> l).
Proof. intros Hl. by apply Forall_fmap. Qed.

(** ** PN-Counter *)
Record PNCounter := mkPNCounter {
  p_positive : list Z;  (* uint64_t positive[CRDT_MAX_NODES] *)
  p_negative : list Z;  (* uint64_t negative[CRDT_MAX_NODES] *)
  p_num_nodes : Z;
  p_self_node : Z;
}.

Definition pncounter_create (self_node_id num_nodes : Z) : PNCounter :=
  let num_nodes := if CRDT_MAX_NODES <? num_nodes then CRDT_MAX_NODES else num_nodes in
  mkPNCounter (calloc CRDT_MAX_NODES 0) (calloc CRDT_MAX_NODES 0) num_nodes self_node_id.

Definition pncounter_increment (p : PNCounter) (delta : Z) : PNCounter :=
  if u32 (p_num_nodes p) <=? p_self_node p then p
  else mkPNCounter (sat_add_at (p_positive p) (p_self_node p) delta) (p_negative p)
         (p_num_nodes p) (p_self_node p).

Definition pncounter_decrement (p : PNCounter) (delta : Z) : PNCounter :=
  if u32 (p_num_nodes p) <=? p_self_node p then p
  else mkPNCounter (p_positive p) (sat_add_at (p_negative p) (p_self_node p) delta)
         (p_num_nodes p) (p_self_node p).

(** The two sums are accumulated in one loop; the subtraction is on
    [int64_t], where overflow is undefined: [None]. *)
Definition pncounter_value (p : PNCounter) : option Z :=
  let '(pos, neg) :=
    for_loop (p_num_nodes p)
      (fun i '(pos, neg) => (pos +64 aget (p_positive p) i, neg +64 aget (p_negative p) i)) (0, 0) in
  let r := i64 pos - i64 neg in
  if (- 2 ^ 63 <=? r) && (r <? 2 ^ 63) then Some r else None.

Definition pncounter_merge (dst src : PNCounter) : PNCounter :=
  let n := if p_num_nodes src <? p_num_nodes dst then p_num_nodes dst else p_num_nodes src in
  let n := if CRDT_MAX_NODES <? n then CRDT_MAX_NODES else n in
  let '(pos, neg) :=
    for_loop n (fun i '(pos, neg) => (max_step (p_positive src) i pos, max_step (p_negative src) i neg))
      (p_positive dst, p_negative dst) in
  mkPNCounter pos neg
    (if p_num_nodes dst <? p_num_nodes src then p_num_nodes src else p_num_nodes dst)
    (p_self_node dst).

Definition pncounter_ok (p : PNCounter) : Prop :=
  vec_ok (p_num_nodes p) (p_positive p) /\ vec_ok (p_num_nodes p) (p_negative p).

Definition pncounter_payload (p : PNCounter) : (list Z * Z) * (list Z * Z) :=
  ((p_positive p, p_num_nodes p), (p_negative p, p_num_nodes p)).

(** A loop that updates two independent accumulators is two loops. *)
Lemma for_loop_pair {S T} n (f : Z -> S -> S) (g : Z -> T -> T) s t :
  for_loop n (fun i '(s, t) => (f i s, g i t)) (s, t) = (for_loop n f s, for_loop n g t).
Proof.
  unfold for_loop. revert s t. induction (seqZ 0 n) as [|i l IH]; intros s t; simpl; [done|]. apply IH.
Qed.

Lemma pncounter_create_ok self n : 0 <= n -> pncounter_ok (pncounter_create self n).
Proof.
  intros Hn. unfold pncounter_ok, pncounter_create. simpl.
  split; apply calloc_vec_ok; unfold CRDT_MAX_NODES in *; case_if; lia.
Qed.

Lemma pncounter_in_range p : pncounter_ok p -> 0 <= p_self_node p ->
  (u32 (p_num_nodes p) <=? p_self_node p) = false -> 0 <= p_self_node p < p_num_nodes p.
Proof.
  intros [[_ N _ _] _] Hs E. cmp_prop. unfold CRDT_MAX_NODES in *.
  rewrite wrap_small in E by mach. lia.
Qed.

Lemma pncounter_increment_ok p delta : 0 <= p_self_node p -> in_u 64 delta ->
  pncounter_ok p -> pncounter_ok (pncounter_increment p delta).
Proof.
  intros Hs Hd Hp. unfold pncounter_increment. destruct (_ <=? _) eqn:E; [done|].
  pose proof (pncounter_in_range p Hp Hs E). destruct Hp. split; [|done]. by apply sat_add_at_ok.
Qed.

Lemma pncounter_decrement_ok p delta : 0 <= p_self_node p -> in_u 64 delta ->
  pncounter_ok p -> pncounter_ok (pncounter_decrement p delta).
Proof.
  intros Hs Hd Hp. unfold pncounter_decrement. destruct (_ <=? _) eqn:E; [done|].
  pose proof (pncounter_in_range p Hp Hs E). destruct Hp. split; [done|]. by apply sat_add_at_ok.
Qed.

Abbreviation pn_join := (prod_join vec_join vec_join).
Abbreviation pn_state_ok := (prod_ok vec_state_ok vec_state_ok).

Lemma pncounter_merge_payload dst src : pncounter_ok dst -> pncounter_ok src ->
  pncounter_payload (pncounter_merge dst src) = pn_join (pncounter_payload dst) (pncounter_payload src).
Proof.
  intros [[_ N1 _ _] _] [[_ N2 _ _] _].
  unfold pncounter_payload, pncounter_merge, prod_join, vec_join. simpl.
  rewrite for_loop_pair. simpl. fold (max_loop). unfold CRDT_MAX_NODES in *.
  replace (if p_num_nodes dst <? p_num_nodes src then p_num_nodes src else p_num_nodes dst)
    with (Z.max (p_num_nodes dst) (p_num_nodes src)) by (case_if; lia).
  replace (if p_num_nodes src <? p_num_nodes dst then p_num_nodes dst else p_num_nodes src)
    with (Z.max (p_num_nodes dst) (p_num_nodes src)) by (case_if; lia).
  case_if; [lia|done].
Qed.

Lemma pncounter_payload_ok p : pncounter_ok p -> pn_state_ok (pncounter_payload p).
Proof. done. Qed.

Lemma pncounter_merge_ok dst src : pncounter_ok dst -> pncounter_ok src -> pncounter_ok (pncounter_merge dst src).
Proof.
  intros H1 H2. change (pn_state_ok (pncounter_payload (pncounter_merge dst src))).
  rewrite pncounter_merge_payload by done. by apply join_ok.
Qed.

Definition pncounter_deliver (p : PNCounter) (l : list PNCounter) : PNCounter := fold_left pncounter_merge l p.

Lemma pncounter_deliver_payload p l : pncounter_ok p -> Forall pncounter_ok l ->
  pncounter_payload (pncounter_deliver p l) = deliver (join := pn_join) (pncounter_payload p) (pncounter_payload <$> l).
Proof.
  intros Hp Hl. revert p Hp. induction Hl as [|x l Hx Hl IH]; intros p Hp; [done|]. simpl.
  rewrite <- pncounter_merge_payload by done. apply IH. by apply pncounter_merge_ok.
Qed.

(** ** LWW-Register *)
Record VectorClock := mkVC { clocks : list Z; vc_num_nodes : Z }.

Record LWWRegister := mkLWW {
  r_value : bytes;         (* uint8_t value[1024] *)
  r_value_len : Z;         (* uint16_t *)
  r_timestamp_us : Z;      (* uint64_t *)
  r_node_id : Z;           (* uint32_t *)
  r_vc : VectorClock;
}.

Definition lww_create (self_node_id num_nodes : Z) : LWWRegister :=
  mkLWW (calloc 1024 0) 0 0 self_node_id
    (mkVC (calloc CRDT_MAX_NODES 0) (if num_nodes <? CRDT_MAX_NODES then num_nodes else CRDT_MAX_NODES)).

(** [memcpy(dst, src, len)] into the front of a buffer. *)
Definition memcpy_front (dst src : bytes) (len : Z) : bytes :=
  take (Z.to_nat len) src ++ drop (Z.to_nat len) dst.

(** [now] is the value of [crdt_us_now()]. *)
Definition lww_set (now : Z) (r : LWWRegister) (v : bytes) : LWWRegister * Z :=
  let len := alen v in
  if (len =? 0) || (1023 <? len) then (r, -1)
  else
    let vc := r_vc r in
    let vc := if r_node_id r <? u32 (vc_num_nodes vc)
              then mkVC (aset (clocks vc) (r_node_id r) (aget (clocks vc) (r_node_id r) +64 1)) (vc_num_nodes vc)
              else vc in
    (mkLWW (memcpy_front (r_value r) v len) len now (r_node_id r) vc, 0).

Definition lww_get (r : LWWRegister) (buf_len : Z) : bytes :=
  let copy_len := if r_value_len r <? buf_len then r_value_len r else buf_len in
  take (Z.to_nat copy_len) (r_value r).

Definition should_update (dst src : LWWRegister) : bool :=
  if r_timestamp_us dst <? r_timestamp_us src then true
  else (r_timestamp_us src =? r_timestamp_us dst) && (r_node_id dst <? r_node_id src).

Definition lww_merge (dst src : LWWRegister) : LWWRegister :=
  let vd := r_vc dst in
  let vs := r_vc src in
  let n := if vc_num_nodes vs <? vc_num_nodes vd then vc_num_nodes vd else vc_num_nodes vs in
  let n := if CRDT_MAX_NODES <? n then CRDT_MAX_NODES else n in
  let vc := mkVC (max_loop n (clocks vd) (clocks vs)) (vc_num_nodes vd) in
  if should_update dst src && (r_value_len src <=? 1024)
  then mkLWW (memcpy_front (r_value dst) (r_value src) (r_value_len src)) (r_value_len src)
         (r_timestamp_us src) (r_node_id src) vc
  else mkLWW (r_value dst) (r_value_len dst) (r_timestamp_us dst) (r_node_id dst) vc.

(** *** Invariant and the exchanged state: stamp and visible value *)
Record lww_ok (r : LWWRegister) : Prop := {
  lww_buf : alen (r_value r) = 1024;
  lww_len : 0 <= r_value_len r <= 1023;
}.

Definition lww_visible (r : LWWRegister) : bytes := take (Z.to_nat (r_value_len r)) (r_value r).
Definition lww_stamp (r : LWWRegister) : Z * Z := (r_timestamp_us r, r_node_id r).
Definition lww_payload (r : LWWRegister) : (Z * Z) * bytes := (lww_stamp r, lww_visible r).

Definition stamp_ltb (a b : Z * Z) : bool := (a.1 <? b.1) || ((b.1 =? a.1) && (a.2 <? b.2)).
Definition lww_join (x y : (Z * Z) * bytes) : (Z * Z) * bytes := if stamp_ltb x.1 y.1 then y else x.

(** Stamps identify writes: the register value is a function of the stamp. *)
Definition lww_agrees (val_of : Z * Z -> bytes) (x : (Z * Z) * bytes) : Prop := x.2 = val_of x.1.

Lemma stamp_ltb_spec a b : stamp_ltb a b = true <-> (a.1 < b.1 \/ (a.1 = b.1 /\ a.2 < b.2)).
Proof. unfold stamp_ltb. rewrite orb_true_iff, andb_true_iff, !Z.ltb_lt, Z.eqb_eq. lia. Qed.

Lemma stamp_ltb_false a b : stamp_ltb a b = false <-> (b.1 < a.1 \/ (a.1 = b.1 /\ b.2 <= a.2)).
Proof. rewrite <- not_true_iff_false, stamp_ltb_spec. lia. Qed.

#[export] Instance lww_cvrdt val_of : CvRDT (lww_agrees val_of) lww_join.
Proof.
  unfold lww_agrees, lww_join. split.
  - intros. by case_if.
  - intros [[t1 n1] v1] [[t2 n2] v2] Hx Hy; simpl in *.
    destruct (stamp_ltb (t1, n1) (t2, n2)) eqn:E1, (stamp_ltb (t2, n2) (t1, n1)) eqn:E2; try done.
    + apply stamp_ltb_spec in E1, E2. simpl in *. lia.
    + apply stamp_ltb_false in E1, E2. simpl in *.
      assert (t1 = t2) as -> by lia. assert (n1 = n2) as -> by lia. congruence.
  - intros x y z _ _ _. destruct (stamp_ltb x.1 y.1) eqn:E1, (stamp_ltb y.1 z.1) eqn:E2; rewrite ?E1, ?E2; try done.
    + destruct (stamp_ltb x.1 z.1) eqn:E3; [done|].
      apply stamp_ltb_spec in E1, E2. apply stamp_ltb_false in E3. lia.
    + destruct (stamp_ltb x.1 z.1) eqn:E3; [|done].
      apply stamp_ltb_false in E1, E2. apply stamp_ltb_spec in E3. lia.
  - intros. by case_if.
Qed.

Lemma should_update_stamp dst src : should_update dst src = stamp_ltb (lww_stamp dst) (lww_stamp src).
Proof. unfold should_update, stamp_ltb, lww_stamp. simpl. by case_if. Qed.

Lemma memcpy_front_take (d s : bytes) len : 0 <= len <= alen s -> take (Z.to_nat len) (memcpy_front d s len) = take (Z.to_nat len) s.
Proof.
  intros H. unfold memcpy_front, alen in *. rewrite take_app_le by (rewrite length_take; lia).
  by rewrite take_take, Nat.min_id.
Qed.

Lemma length_memcpy_front (d s : bytes) len : 0 <= len <= alen s -> len <= alen d -> alen (memcpy_front d s len) = alen d.
Proof. intros. unfold memcpy_front, alen in *. rewrite length_app, length_take, length_drop. lia. Qed.

Lemma lww_merge_payload dst src : lww_ok dst -> lww_ok src ->
  lww_payload (lww_merge dst src) = lww_join (lww_payload dst) (lww_payload src).
Proof.
  intros [Hb Hl] [Hb' Hl']. unfold lww_payload, lww_join, lww_merge. cbn [fst].
  rewrite should_update_stamp. destruct (Z.leb_spec (r_value_len src) 1024); [|lia].
  rewrite andb_true_r. destruct (stamp_ltb (lww_stamp dst) (lww_stamp src)); [|done].
  unfold lww_visible, lww_stamp. cbn. by rewrite memcpy_front_take by lia.
Qed.

Lemma lww_merge_ok dst src : lww_ok dst -> lww_ok src -> lww_ok (lww_merge dst src).
Proof.
  intros [Hb Hl] [Hb' Hl']. unfold lww_merge. case_if; split; cbn; try done.
  rewrite length_memcpy_front; lia.
Qed.

Lemma lww_set_ok now r v : lww_ok r -> lww_ok (lww_set now r v).1.
Proof.
  intros [Hb Hl]. unfold lww_set.
  destruct (Z.eqb_spec (alen v) 0); [done|]. destruct (Z.ltb_spec 1023 (alen v)); [done|].
  assert (0 <= alen v) by (unfold alen; lia).
  split; cbn; [rewrite length_memcpy_front; lia|lia].
Qed.

Definition lww_deliver (r : LWWRegister) (l : list LWWRegister) : LWWRegister := fold_left lww_merge l r.

Lemma lww_deliver_payload r l : lww_ok r -> Forall lww_ok l ->
  lww_ok (lww_deliver r l) /\
  lww_payload (lww_deliver r l) = deliver (join := lww_join) (lww_payload r) (lww_payload <$> l).
Proof.
  intros Hr Hl. revert r Hr. induction Hl as [|x l Hx Hl IH]; intros r Hr; [done|]. simpl.
  destruct (IH (lww_merge r x)) as [Hok Heq]; [by apply lww_merge_ok|].
  split; [done|]. rewrite Heq. f_equal. by apply lww_merge_payload.
Qed.

(** ** Sums of updated vectors *)
Lemma vec_sum_ext n v v' : 0 <= n -> (forall i, 0 <= i < n -> aget v i = aget v' i) -> vec_sum n v = vec_sum n v'.
Proof.
  intros Hn. revert n Hn. apply (natlike_ind (fun n => _ -> vec_sum n v = vec_sum n v')); [done|].
  intros n Hn IH H. unfold Z.succ in *. rewrite !vec_sum_succ, H by lia. rewrite IH; [done|].
  intros i Hi. apply H. lia.
Qed.

Lemma vec_sum_update n v v' k : 0 <= k < n ->
  (forall i, 0 <= i < n -> i <> k -> aget v' i = aget v i) ->
  vec_sum n v' = vec_sum n v + (aget v' k - aget v k).
Proof.
  intros Hk. assert (0 <= n) as Hn by lia. revert n Hn Hk.
  apply (natlike_ind (fun n => 0 <= k < n -> _ -> vec_sum n v' = vec_sum n v + (aget v' k - aget v k))); [lia|].
  intros n Hn IH Hk H. unfold Z.succ in *. rewrite !vec_sum_succ by lia.
  destruct (Z.eq_dec k n) as [->|Hne].
  - rewrite (vec_sum_ext n v' v); [lia|done|]. intros i Hi. apply H; lia.
  - rewrite IH, (H n); [lia|lia|lia|lia|]. intros i Hi Hik. apply H; lia.
Qed.

Lemma vec_sum_nonneg n v : 0 <= n <= CRDT_MAX_NODES -> (forall i, 0 <= i < CRDT_MAX_NODES -> in_u 64 (aget v i)) -> 0 <= vec_sum n v.
Proof.
  intros [Hn Hm] Hu. revert n Hn Hm.
  apply (natlike_ind (fun n => n <= CRDT_MAX_NODES -> 0 <= vec_sum n v)); [done|].
  intros n Hn IH Hm. unfold Z.succ in *. rewrite vec_sum_succ by lia.
  destruct (Hu n); lia.
Qed.

Lemma sat_add_sum n v self delta : vec_ok n v -> 0 <= self < n -> in_u 64 delta ->
  aget v self + delta <= UINT64_MAX -> vec_sum n (sat_add_at v self delta) = vec_sum n v + delta.
Proof.
  intros Hv Hs Hd Hmax. pose proof (vec_num _ _ Hv) as Hn.
  rewrite (vec_sum_update n v _ self); [|done|].
  - rewrite (sat_add_at_spec n) by (done || lia). rewrite Z.eqb_refl. lia.
  - intros i Hi Hne. rewrite (sat_add_at_spec n) by (done || lia). destruct (Z.eqb_spec i self); [lia|done].
Qed.

(** An entry never exceeds the sum of all of them. *)
Lemma vec_entry_le_sum n v k : vec_ok n v -> 0 <= k < n -> aget v k <= vec_sum n v.
Proof.
  intros Hv Hk. pose proof (vec_num _ _ Hv) as Hn. pose proof (vec_u64 _ _ Hv) as Hu.
  set (v0 := aset v k 0).
  assert (Hl : 0 <= k < alen v) by (rewrite (vec_len _ _ Hv); lia).
  assert (0 <= vec_sum n v0).
  { apply vec_sum_nonneg; [done|]. intros i Hi. unfold v0. destruct (Z.eq_dec i k) as [->|Hne].
    - rewrite aget_aset_eq by done. mach.
    - rewrite aget_aset_ne by lia. by apply Hu. }
  rewrite (vec_sum_update n v0 v k); [|done|].
  - unfold v0 at 2. rewrite aget_aset_eq by done. lia.
  - intros i Hi Hne. unfold v0. by rewrite aget_aset_ne by lia.
Qed.

(** ** Properties *)

(** Counter convergence: two well-formed G-Counter replicas that hold or
    received the same set of states (any order, any repetition) have the same
    per-node vector, node count and value. *)
Theorem gcounter_convergence g h l1 l2 :
  Forall gcounter_ok (g :: l1) -> Forall gcounter_ok (h :: l2) ->
  (forall x, x ∈ map gcounter_payload (g :: l1) <-> x ∈ map gcounter_payload (h :: l2)) ->
  gcounter_payload (gcounter_deliver g l1) = gcounter_payload (gcounter_deliver h l2) /\
  gcounter_value (gcounter_deliver g l1) = gcounter_value (gcounter_deliver h l2).
Proof.
  intros [Hg H1]%Forall_cons [Hh H2]%Forall_cons Heq.
  assert (Hp : gcounter_payload (gcounter_deliver g l1) = gcounter_payload (gcounter_deliver h l2)).
  { rewrite !gcounter_deliver_payload by done.
    by apply (converge (ok := vec_state_ok)); [..|apply gcounter_payloads_ok|apply gcounter_payloads_ok|]. }
  split; [done|]. unfold gcounter_payload in Hp. injection Hp as Hv Hn.
  unfold gcounter_value. by rewrite Hv, Hn.
Qed.

Lemma gcounter_convergence_witness :
  gcounter_value (gcounter_deliver (gcounter_increment (gcounter_create 0 2) 5) [gcounter_increment (gcounter_create 1 2) 7])
  = gcounter_value (gcounter_deliver (gcounter_increment (gcounter_create 1 2) 7) [gcounter_increment (gcounter_create 0 2) 5]).
Proof.
  apply gcounter_convergence.
  - repeat constructor; apply gcounter_increment_ok; try (apply gcounter_create_ok); vm_compute; (done || split; congruence).
  - repeat constructor; apply gcounter_increment_ok; try (apply gcounter_create_ok); vm_compute; (done || split; congruence).
  - intros x. simpl. set_solver.
Defined.

(** Saturating increments: an increment by a 64-bit delta changes only the
    node's own entry, to min(UINT64_MAX, old + delta), keeps the invariant,
    and adds exactly delta to the counter's value when the total fits in 64
    bits. *)
Theorem gcounter_increment_spec g delta i :
  gcounter_ok g -> 0 <= g_self_node g < g_num_nodes g -> in_u 64 delta -> 0 <= i < CRDT_MAX_NODES ->
  let g' := gcounter_increment g delta in
  gcounter_ok g' /\
  aget (g_values g') i = (if i =? g_self_node g then Z.min UINT64_MAX (aget (g_values g) i + delta)
                          else aget (g_values g) i) /\
  (vec_sum (g_num_nodes g) (g_values g) + delta < 2 ^ 64 -> gcounter_value g' = gcounter_value g + delta).
Proof.
  intros Hg Hs Hd Hi g'. pose proof (vec_num _ _ Hg) as Hn.
  assert (Hg' : g' = mkGCounter (sat_add_at (g_values g) (g_self_node g) delta) (g_num_nodes g) (g_self_node g)).
  { unfold g', gcounter_increment. unfold CRDT_MAX_NODES in *. rewrite wrap_small by mach.
    destruct (Z.leb_spec (g_num_nodes g) (g_self_node g)); [lia|done]. }
  split; [apply gcounter_increment_ok; (done || lia)|]. rewrite Hg'. cbn [g_values].
  split; [by apply (sat_add_at_spec (g_num_nodes g))|]. intros Hsum.
  unfold gcounter_value. cbn [g_values g_num_nodes]. rewrite !sum_loop_wrap by lia.
  pose proof (vec_entry_le_sum _ _ (g_self_node g) Hg Hs).
  pose proof (vec_sum_nonneg _ _ Hn (vec_u64 _ _ Hg)).
  rewrite sat_add_sum by (done || mach). rewrite !wrap_small by mach. done.
Qed.

Lemma gcounter_increment_spec_witness :
  gcounter_value (gcounter_increment (gcounter_create 1 3) 42) = gcounter_value (gcounter_create 1 3) + 42.
Proof.
  apply (gcounter_increment_spec (gcounter_create 1 3) 42 1);
    [apply gcounter_create_ok; lia|simpl; lia|mach|unfold CRDT_MAX_NODES; lia|vm_compute; reflexivity].
Defined.

(** The total of a G-Counter is not protected against 64-bit overflow: an
    increment saturates its own entry, but [gcounter_value] adds the entries
    modulo 2^64, so merging a remote increment can reset the reported total
    from UINT64_MAX to 0. *)
Theorem gcounter_value_wraps :
  let g := gcounter_increment (gcounter_create 0 2) UINT64_MAX in
  let h := gcounter_increment (gcounter_create 1 2) 1 in
  gcounter_value g = UINT64_MAX /\ gcounter_value h = 1 /\ gcounter_value (gcounter_merge g h) = 0.
Proof. vm_compute. done. Qed.

Lemma pncounter_value_sums p : pncounter_ok p ->
  vec_sum (p_num_nodes p) (p_positive p) < 2 ^ 63 -> vec_sum (p_num_nodes p) (p_negative p) < 2 ^ 63 ->
  pncounter_value p = Some (vec_sum (p_num_nodes p) (p_positive p) - vec_sum (p_num_nodes p) (p_negative p)).
Proof.
  intros [Hp Hn] Bp Bn. pose proof (vec_num _ _ Hp) as Hnum. unfold pncounter_value.
  rewrite (for_loop_pair _ (fun i pos => pos +64 aget (p_positive p) i) (fun i neg => neg +64 aget (p_negative p) i)).
  fold (sum_loop (p_num_nodes p) (p_positive p)) (sum_loop (p_num_nodes p) (p_negative p)).
  rewrite !sum_loop_wrap by lia.
  pose proof (vec_sum_nonneg _ _ Hnum (vec_u64 _ _ Hp)).
  pose proof (vec_sum_nonneg _ _ Hnum (vec_u64 _ _ Hn)).
  rewrite !(wrap_small 64) by mach. rewrite !swrap_small by mach.
  rewrite (proj2 (andb_true_iff _ _)); [done|]. rewrite Z.leb_le, Z.ltb_lt. mach.
Qed.

(** PN-Counter arithmetic: while the sums of increments and decrements
    stay below 2^63, [pncounter_increment] adds its delta to the signed value
    and [pncounter_decrement] subtracts it, with no overflow. *)
Theorem pncounter_arith p delta :
  pncounter_ok p -> 0 <= p_self_node p < p_num_nodes p -> 0 <= delta ->
  vec_sum (p_num_nodes p) (p_positive p) + delta < 2 ^ 63 ->
  vec_sum (p_num_nodes p) (p_negative p) + delta < 2 ^ 63 ->
  exists x, pncounter_value p = Some x /\
    pncounter_value (pncounter_increment p delta) = Some (x + delta) /\
    pncounter_value (pncounter_decrement p delta) = Some (x - delta).
Proof.
  intros Hok Hs Hd Bp Bn. pose proof Hok as [Hp Hn]. pose proof (vec_num _ _ Hp) as Hnum.
  pose proof (vec_entry_le_sum _ _ (p_self_node p) Hp Hs). pose proof (vec_entry_le_sum _ _ (p_self_node p) Hn Hs).
  pose proof (vec_sum_nonneg _ _ Hnum (vec_u64 _ _ Hp)). pose proof (vec_sum_nonneg _ _ Hnum (vec_u64 _ _ Hn)).
  assert (E : (u32 (p_num_nodes p) <=? p_self_node p) = false).
  { unfold CRDT_MAX_NODES in *. rewrite wrap_small by mach. apply Z.leb_gt. lia. }
  assert (Hd64 : in_u 64 delta) by mach.
  pose proof (pncounter_increment_ok p delta ltac:(lia) Hd64 Hok) as Hi.
  pose proof (pncounter_decrement_ok p delta ltac:(lia) Hd64 Hok) as Hdec.
  pose proof (sat_add_sum _ _ (p_self_node p) delta Hp Hs Hd64 ltac:(mach)) as Sp.
  pose proof (sat_add_sum _ _ (p_self_node p) delta Hn Hs Hd64 ltac:(mach)) as Sn.
  apply pncounter_value_sums in Hi, Hdec; unfold pncounter_increment, pncounter_decrement in *;
    rewrite E in *; cbn in *; rewrite ?Sp, ?Sn in *; try lia.
  eexists. split; [apply pncounter_value_sums; (done || lia)|].
  rewrite Hi, Hdec. split; f_equal; lia.
Qed.

Lemma pncounter_arith_witness : exists x,
  pncounter_value (pncounter_create 0 4) = Some x /\
  pncounter_value (pncounter_decrement (pncounter_create 0 4) 9) = Some (x - 9).
Proof.
  destruct (pncounter_arith (pncounter_create 0 4) 9) as (x & H1 & _ & H2);
    [apply pncounter_create_ok; lia|simpl; lia|lia|vm_compute; reflexivity|vm_compute; reflexivity|].
  by exists x.
Defined.

(** PN-Counter convergence, as for the G-Counter. *)
Theorem pncounter_convergence p q l1 l2 :
  Forall pncounter_ok (p :: l1) -> Forall pncounter_ok (q :: l2) ->
  (forall x, x ∈ map pncounter_payload (p :: l1) <-> x ∈ map pncounter_payload (q :: l2)) ->
  pncounter_value (pncounter_deliver p l1) = pncounter_value (pncounter_deliver q l2).
Proof.
  intros [Hp H1]%Forall_cons [Hq H2]%Forall_cons Heq.
  assert (E : pncounter_payload (pncounter_deliver p l1) = pncounter_payload (pncounter_deliver q l2)).
  { rewrite !pncounter_deliver_payload by done.
    apply (converge (ok := pn_state_ok)); [done|done|apply Forall_fmap; exact H1|apply Forall_fmap; exact H2|exact Heq]. }
  unfold pncounter_payload in E. injection E as Ep En Em. unfold pncounter_value. by rewrite Ep, En, Em.
Qed.

Lemma pncounter_convergence_witness :
  pncounter_value (pncounter_deliver (pncounter_increment (pncounter_create 0 2) 5) [pncounter_decrement (pncounter_create 1 2) 7])
  = pncounter_value (pncounter_deliver (pncounter_decrement (pncounter_create 1 2) 7) [pncounter_increment (pncounter_create 0 2) 5]).
Proof.
  assert (H5 : pncounter_ok (pncounter_increment (pncounter_create 0 2) 5))
    by (apply pncounter_increment_ok; [done|mach|by apply pncounter_create_ok]).
  assert (H7 : pncounter_ok (pncounter_decrement (pncounter_create 1 2) 7))
    by (apply pncounter_decrement_ok; [done|mach|by apply pncounter_create_ok]).
  apply pncounter_convergence; [by rewrite !Forall_cons, Forall_nil|by rewrite !Forall_cons, Forall_nil|]. intros x. simpl. set_solver.
Defined.

(** LWW convergence: when a stamp (timestamp, node id) identifies one
    written value, replicas that hold or received the same registers return
    the same value from [lww_get], the one of the greatest stamp. *)
Theorem lww_convergence val_of r s l1 l2 buf_len :
  Forall lww_ok (r :: l1) -> Forall lww_ok (s :: l2) ->
  Forall (fun x => lww_visible x = val_of (lww_stamp x)) (r :: l1 ++ s :: l2) ->
  (forall x, x ∈ map lww_payload (r :: l1) <-> x ∈ map lww_payload (s :: l2)) ->
  0 <= buf_len ->
  lww_stamp (lww_deliver r l1) = lww_stamp (lww_deliver s l2) /\
  lww_get (lww_deliver r l1) buf_len = lww_get (lww_deliver s l2) buf_len /\
  Forall (fun x => stamp_ltb (lww_stamp (lww_deliver r l1)) (lww_stamp x) = false) (r :: l1).
Proof.
  intros Hr Hs Hval Heq Hbuf. pose proof Hr as [Hr0 Hl1]%Forall_cons. pose proof Hs as [Hs0 Hl2]%Forall_cons.
  assert (Hag : Forall (lww_agrees val_of) (lww_payload <$> r :: l1) /\ Forall (lww_agrees val_of) (lww_payload <$> s :: l2)).
  { change (r :: l1 ++ s :: l2) with ((r :: l1) ++ s :: l2) in Hval.
    apply Forall_app in Hval as [??]. by split; apply Forall_fmap. }
  destruct Hag as [[Ar A1]%Forall_cons [As A2]%Forall_cons].
  destruct (lww_deliver_payload r l1 Hr0 Hl1) as [Ok1 E1].
  destruct (lww_deliver_payload s l2 Hs0 Hl2) as [Ok2 E2].
  assert (E : lww_payload (lww_deliver r l1) = lww_payload (lww_deliver s l2)).
  { rewrite E1, E2. by apply (converge (ok := lww_agrees val_of)). }
  assert (Habove : forall x, x ∈ r :: l1 -> stamp_ltb (lww_stamp (lww_deliver r l1)) (lww_stamp x) = false).
  { destruct (deliver_above (ok := lww_agrees val_of) (lww_payload r) (map lww_payload l1) Ar A1) as [B1 B2].
    change (map lww_payload l1) with (lww_payload <$> l1) in B1, B2.
    rewrite <- E1 in B1, B2.
    assert (forall y, below (join := lww_join) (lww_payload y) (lww_payload (lww_deliver r l1)) ->
      stamp_ltb (lww_stamp (lww_deliver r l1)) (lww_stamp y) = false) as Hb.
    { intros y Hy. unfold below, lww_join in Hy. cbn [fst lww_payload] in Hy. case_if_in Hy.
      - apply stamp_ltb_spec in E0. apply stamp_ltb_false. lia.
      - apply pair_equal_spec in Hy as [Hy _]. rewrite Hy. apply stamp_ltb_false. lia. }
    intros x [->|Hx]%elem_of_cons; [by apply Hb|]. apply Hb, B2. by apply list_elem_of_fmap_2. }
  unfold lww_payload in E. apply pair_equal_spec in E as [Es Ev].
  split_and!; [done| |by apply Forall_forall].
  assert (Hget : forall x, lww_ok x -> lww_get x buf_len = take (Z.to_nat buf_len) (lww_visible x)).
  { intros x [Hb Hl]. unfold lww_get, lww_visible. rewrite take_take. f_equal. case_if; lia. }
  by rewrite !Hget, Ev.
Qed.

Lemma lww_set_visible now r v : lww_ok r -> 0 < alen v <= 1023 ->
  lww_visible (lww_set now r v).1 = v /\ lww_stamp (lww_set now r v).1 = (now, r_node_id r) /\
  (lww_set now r v).2 = 0.
Proof.
  intros [Hb Hl] Hv. unfold lww_set.
  destruct (Z.eqb_spec (alen v) 0); [lia|]. destruct (Z.ltb_spec 1023 (alen v)); [lia|].
  unfold lww_visible, lww_stamp. cbn. rewrite memcpy_front_take by lia.
  unfold alen. rewrite Nat2Z.id, firstn_all. done.
Qed.

Lemma lww_convergence_witness :
  let a := (lww_set 5 (lww_create 0 2) [1]).1 in
  let b := (lww_set 6 (lww_create 1 2) [2]).1 in
  lww_get (lww_deliver a [b]) 100 = lww_get (lww_deliver b [a]) 100 /\ lww_get (lww_deliver b [a]) 100 = [2].
Proof.
  intros a b. split; [|vm_compute; reflexivity].
  assert (Ha : lww_ok a) by (apply lww_set_ok; split; vm_compute; (reflexivity || split; congruence)).
  assert (Hb : lww_ok b) by (apply lww_set_ok; split; vm_compute; (reflexivity || split; congruence)).
  apply (lww_convergence (fun st => if st.1 =? 5 then [1] else [2]) a b [b] [a] 100).
  - by rewrite !Forall_cons, Forall_nil.
  - by rewrite !Forall_cons, Forall_nil.
  - repeat constructor; vm_compute; reflexivity.
  - intros x. simpl. set_solver.
  - lia.
Defined.

(** A merge that adopts a remote write also overwrites the replica's own
    node id, so the replica's next write carries the remote node's id.  If both
    nodes then write different values in the same microsecond, the two
    registers have the same stamp and merging in either direction keeps each
    side's own value: the replicas have diverged. *)
Theorem lww_merge_loses_identity r0 r1 now v w :
  lww_ok r0 -> lww_ok r1 -> should_update r0 r1 = true ->
  0 < alen v <= 1023 -> 0 < alen w <= 1023 ->
  let r0' := (lww_set now (lww_merge r0 r1) v).1 in
  let r1' := (lww_set now r1 w).1 in
  r_node_id (lww_merge r0 r1) = r_node_id r1 /\
  lww_stamp r0' = lww_stamp r1' /\
  lww_visible (lww_merge r0' r1') = v /\ lww_visible (lww_merge r1' r0') = w.
Proof.
  intros H0 H1 Hup Hv Hw r0' r1'.
  assert (Hid : r_node_id (lww_merge r0 r1) = r_node_id r1).
  { unfold lww_merge. rewrite Hup. destruct H1 as [_ Hl]. destruct (Z.leb_spec (r_value_len r1) 1024); [done|lia]. }
  pose proof (lww_merge_ok r0 r1 H0 H1) as Hm.
  destruct (lww_set_visible now _ v Hm Hv) as (V0 & S0 & _).
  destruct (lww_set_visible now _ w H1 Hw) as (V1 & S1 & _).
  assert (Hs : lww_stamp r0' = lww_stamp r1') by (unfold r0', r1'; rewrite S0, S1, Hid; done).
  pose proof (lww_set_ok now _ v Hm) as O0. pose proof (lww_set_ok now _ w H1) as O1.
  assert (Hself : forall x, stamp_ltb x x = false) by (intros x; apply stamp_ltb_false; lia).
  split_and!; [done|done| |].
  - pose proof (lww_merge_payload r0' r1' O0 O1) as Hp. unfold lww_join, lww_payload in Hp. cbn [fst] in Hp.
    rewrite Hs, Hself in Hp. apply pair_equal_spec in Hp as [_ ->]. done.
  - pose proof (lww_merge_payload r1' r0' O1 O0) as Hp. unfold lww_join, lww_payload in Hp. cbn [fst] in Hp.
    rewrite Hs, Hself in Hp. apply pair_equal_spec in Hp as [_ ->]. done.
Qed.

Lemma lww_merge_loses_identity_witness :
  let r0 := lww_create 0 2 in
  let r1 := (lww_set 10 (lww_create 1 2) [65]).1 in
  lww_visible (lww_merge (lww_set 20 (lww_merge r0 r1) [66]).1 (lww_set 20 r1 [67]).1) = [66].
Proof.
  intros r0 r1.
  assert (H0 : lww_ok r0) by (split; vm_compute; (reflexivity || split; congruence)).
  apply (lww_merge_loses_identity r0 r1 20 [66] [67]); [done| |reflexivity|done|done].
  apply lww_set_ok. split; vm_compute; (reflexivity || split; congruence).
Defined.
