(* ===== verification/OrSet.v ===== *)
(** * The observed-remove set (src/src/crdt/crdt.c, OR-SET part)

    An [ORSet] is the array of its first [count] entries with the allocated
    capacity.  The abstract state [orset_abs] maps a unique tag
    (add_tag, origin_node) to the member and its tombstone; [orset_merge] is
    the tombstone-accumulating union of these maps.  A system of replicas is
    a step relation, and the facts that make the merge converge (a tag is
    never reused, a tag has one value) are invariants of the reachable
    systems. *)
From S2P Require Import Prelude Lattice.

Record ORSetEntry := mkEntry {
  value : bytes;        (* uint8_t value[256] *)
  value_len : Z;        (* uint16_t *)
  add_tag : Z;          (* uint64_t *)
  origin_node : Z;      (* uint32_t *)
  is_removed : Z;       (* int *)
}.

Record ORSet := mkORSet {
  entries : list ORSetEntry;  (* entries[0..count) *)
  capacity : Z;               (* uint32_t *)
  next_tag : Z;               (* uint64_t *)
  self_node : Z;              (* uint32_t *)
}.

Definition count (s : ORSet) : Z := alen (entries s).

Definition orset_create (self_node_id : Z) : ORSet := mkORSet [] 64 1 self_node_id.

(** [memset(e, 0); memcpy(e->value, v, len)] on the 256-byte buffer. *)
Definition entry_value (v : bytes) : bytes := v ++ calloc (256 - alen v) 0.

Definition orset_add (alloc : Z -> bool) (s : ORSet) (v : bytes) : ORSet * Z :=
  let len := alen v in
  if (len =? 0) || (255 <? len) then (s, -1)
  else
    let e := mkEntry (entry_value v) len (next_tag s) (self_node s) 0 in
    if capacity s <=? count s then
      let new_cap := u32 (capacity s * 2) in
      if alloc new_cap
      then (mkORSet (entries s ++ [e]) new_cap (next_tag s +64 1) (self_node s), 0)
      else (s, -1)
    else (mkORSet (entries s ++ [e]) (capacity s) (next_tag s +64 1) (self_node s), 0).

(** The test of [orset_remove] and [orset_contains]:
    [!e->is_removed && e->value_len == len && memcmp(e->value, v, len) == 0]. *)
Definition live_match (v : bytes) (e : ORSetEntry) : bool :=
  (is_removed e =? 0) && (value_len e =? alen v) && bytes_eqb (take (length v) (value e)) v.

Definition set_removed (e : ORSetEntry) (r : Z) : ORSetEntry :=
  mkEntry (value e) (value_len e) (add_tag e) (origin_node e) r.

Definition orset_remove (s : ORSet) (v : bytes) : ORSet * Z :=
  if alen v =? 0 then (s, -1)
  else
    (mkORSet (map (fun e => if live_match v e then set_removed e 1 else e) (entries s))
       (capacity s) (next_tag s) (self_node s),
     if existsb (live_match v) (entries s) then 1 else 0).

Definition orset_contains (s : ORSet) (v : bytes) : bool :=
  if alen v =? 0 then false else existsb (live_match v) (entries s).

Definition orset_size (s : ORSet) : Z :=
  fold_left (fun n e => if is_removed e =? 0 then u32 (n + 1) else n) (entries s) 0.

(** The inner loop of [orset_merge]: the first entry of [dst] with the tag of
    [se] accumulates its tombstone; [None] when there is none. *)
Definition same_tag (se e : ORSetEntry) : bool :=
  (add_tag e =? add_tag se) && (origin_node e =? origin_node se).

Fixpoint propagate (se : ORSetEntry) (es : list ORSetEntry) : option (list ORSetEntry) :=
  match es with
  | [] => None
  | e :: es =>
      if same_tag se e then Some (set_removed e (Z.lor (is_removed e) (is_removed se)) :: es)
      else match propagate se es with
           | Some es' => Some (e :: es')
           | None => None
           end
  end.

Definition with_entries (s : ORSet) (es : list ORSetEntry) (cap : Z) : ORSet :=
  mkORSet es cap (next_tag s) (self_node s).

(** The outer loop over the entries of [src]; a failed [realloc] breaks it. *)
Fixpoint merge_loop (alloc : Z -> bool) (ses : list ORSetEntry) (dst : ORSet) : ORSet :=
  match ses with
  | [] => dst
  | se :: ses =>
      match propagate se (entries dst) with
      | Some es => merge_loop alloc ses (with_entries dst es (capacity dst))
      | None =>
          if capacity dst <=? count dst then
            let nc := u32 (capacity dst * 2) in
            if alloc nc
            then merge_loop alloc ses (with_entries dst (entries dst ++ [se]) nc)
            else dst
          else merge_loop alloc ses (with_entries dst (entries dst ++ [se]) (capacity dst))
      end
  end.

Definition orset_merge (alloc : Z -> bool) (dst src : ORSet) : ORSet :=
  merge_loop alloc (entries src) dst.

(** ** Abstract state *)
Abbreviation tag := (Z * Z)%type.
Abbreviation astate := (gmap tag (bytes * bool)).

Definition entry_tag (e : ORSetEntry) : tag := (add_tag e, origin_node e).
Definition entry_member (e : ORSetEntry) : bytes := take (Z.to_nat (value_len e)) (value e).
Definition entry_abs (e : ORSetEntry) : tag * (bytes * bool) :=
  (entry_tag e, (entry_member e, negb (is_removed e =? 0))).

Definition abs_entries (es : list ORSetEntry) : astate := list_to_map (entry_abs <$> es).
Definition orset_abs (s : ORSet) : astate := abs_entries (entries s).

Definition tomb_or (x y : bytes * bool) : option (bytes * bool) := Some (x.1, x.2 || y.2).
Definition abs_join (a b : astate) : astate := union_with tomb_or a b.

(** A member is in the set when some tag of it has no tombstone. *)
Definition abs_contains (a : astate) (v : bytes) : Prop := exists t, a !! t = Some (v, false).

(** Entries as [orset_add] writes them. *)
Record entry_ok (e : ORSetEntry) : Prop := {
  entry_buf : alen (value e) = 256;
  entry_len : 0 < value_len e <= 255;
}.

Definition orset_ok (s : ORSet) : Prop :=
  NoDup (entry_tag <$> entries s) /\ Forall entry_ok (entries s).

(** ** Lemmas on the abstraction *)
Lemma abs_entries_cons e es : abs_entries (e :: es) = <[entry_tag e := (entry_abs e).2]> (abs_entries es).
Proof. done. Qed.

Lemma abs_entries_keys es : (entry_abs <$> es).*1 = entry_tag <$> es.
Proof. symmetry. exact (list_fmap_compose entry_abs fst es). Qed.

Lemma abs_entries_None es t : t ∉ (entry_tag <$> es) -> abs_entries es !! t = None.
Proof. intros H. apply not_elem_of_list_to_map_1. by rewrite abs_entries_keys. Qed.

Lemma abs_entries_snoc es e : entry_tag e ∉ (entry_tag <$> es) ->
  abs_entries (es ++ [e]) = <[entry_tag e := (entry_abs e).2]> (abs_entries es).
Proof.
  induction es as [|x es IH]; [done|]. simpl. intros [Hne Hin]%not_elem_of_cons.
  rewrite !abs_entries_cons, IH by done. by rewrite insert_insert_ne.
Qed.

Lemma abs_entries_lookup es t x : NoDup (entry_tag <$> es) ->
  abs_entries es !! t = Some x <-> exists e, e ∈ es /\ entry_tag e = t /\ (entry_abs e).2 = x.
Proof.
  intros Hnd. assert (NoDup (entry_abs <$> es).*1) as Hk by (by rewrite abs_entries_keys).
  unfold abs_entries. rewrite <- (elem_of_list_to_map (M := gmap tag) _ _ _ Hk).
  rewrite list_elem_of_fmap. split.
  - intros (e & He & Hin). exists e. unfold entry_abs in *. by simplify_eq/=.
  - intros (e & Hin & <- & <-). by exists e.
Qed.

Lemma same_tag_true se e : same_tag se e = true <-> entry_tag e = entry_tag se.
Proof.
  unfold same_tag, entry_tag. rewrite andb_true_iff, !Z.eqb_eq. split; [intros [-> ->]|intros [= -> ->]]; done.
Qed.

Lemma propagate_None se es : propagate se es = None -> entry_tag se ∉ (entry_tag <$> es).
Proof.
  induction es as [|e es IH]; simpl; intros H; [apply not_elem_of_nil|].
  destruct (same_tag se e) eqn:E; [done|]. destruct (propagate se es); [done|].
  apply not_elem_of_cons. split; [|by apply IH].
  intros Heq. apply not_true_iff_false in E. apply E. by apply same_tag_true.
Qed.

Lemma lor_zero_iff a b : negb (Z.lor a b =? 0) = negb (a =? 0) || negb (b =? 0).
Proof.
  destruct (Z.eqb_spec (Z.lor a b) 0) as [[-> ->]%Z.lor_eq_0_iff|H]; [done|].
  destruct (Z.eqb_spec a 0), (Z.eqb_spec b 0); subst; done.
Qed.

Lemma propagate_Some se es es' : propagate se es = Some es' ->
  (entry_tag <$> es') = (entry_tag <$> es) /\
  exists v r, abs_entries es !! entry_tag se = Some (v, r) /\
    abs_entries es' = <[entry_tag se := (v, r || negb (is_removed se =? 0))]> (abs_entries es).
Proof.
  revert es'. induction es as [|e es IH]; simpl; intros es' H; [done|].
  destruct (same_tag se e) eqn:E.
  - injection H as <-. apply same_tag_true in E. split; [done|].
    exists (entry_member e), (negb (is_removed e =? 0)).
    rewrite !abs_entries_cons, <- E. split; [apply lookup_insert_eq|].
    rewrite insert_insert_eq. unfold entry_abs. simpl. rewrite lor_zero_iff. done.
  - destruct (propagate se es) as [es0|]; [|done]. injection H as <-.
    destruct (IH _ eq_refl) as (Ht & v & r & Hl & Ha).
    assert (entry_tag e <> entry_tag se) as Hne.
    { intros Heq. apply not_true_iff_false in E. apply E. by apply same_tag_true. }
    split; [by rewrite !fmap_cons, Ht|]. exists v, r.
    rewrite !abs_entries_cons. split; [by rewrite lookup_insert_ne|].
    by rewrite Ha, insert_insert_ne.
Qed.

(** One step of the merge on the abstract state. *)
Definition join_at (a : astate) (t : tag) (x : bytes * bool) : astate :=
  <[t := match a !! t with Some y => (y.1, y.2 || x.2) | None => x end]> a.

Lemma abs_join_insert a b t x : b !! t = None ->
  abs_join a (<[t := x]> b) = abs_join (join_at a t x) b.
Proof.
  intros Hb. apply map_eq. intros k. unfold abs_join, join_at.
  rewrite !lookup_union_with. destruct (decide (t = k)) as [<-|Hne].
  - rewrite !lookup_insert_eq, Hb. by destruct (a !! t) as [[v r]|].
  - by rewrite !lookup_insert_ne.
Qed.

Lemma abs_join_empty a : abs_join a ∅ = a.
Proof. apply map_eq. intros k. unfold abs_join. rewrite lookup_union_with, lookup_empty. by destruct (a !! k). Qed.

(** ** Refinement: the merge loop computes the union of the abstract states *)
Section merge_refine.
Context (alloc : Z -> bool) (alloc_true : forall c, alloc c = true).

Lemma merge_loop_abs ses dst : NoDup (entry_tag <$> ses) ->
  orset_abs (merge_loop alloc ses dst) = abs_join (orset_abs dst) (abs_entries ses).
Proof.
  revert dst. induction ses as [|se ses IH]; intros dst; simpl.
  - intros _. change (abs_entries []) with (∅ : astate). by rewrite abs_join_empty.
  - intros [Hnin Hnd]%NoDup_cons.
    rewrite abs_entries_cons, abs_join_insert by (by apply abs_entries_None).
    destruct (propagate se (entries dst)) as [es|] eqn:Hp.
    + rewrite IH by done. apply propagate_Some in Hp as (_ & v & r & Hl & Ha).
      unfold orset_abs, with_entries, join_at. simpl. by rewrite Ha, Hl.
    + apply propagate_None in Hp.
      assert (abs_entries (entries dst ++ [se]) = join_at (orset_abs dst) (entry_tag se) (entry_abs se).2) as Hs.
      { rewrite abs_entries_snoc by done. unfold join_at, orset_abs. by rewrite abs_entries_None. }
      rewrite alloc_true. case_if; rewrite IH by done; unfold orset_abs, with_entries; simpl; by rewrite Hs.
Qed.
End merge_refine.

(** ** Membership *)
Lemma take_member e v : entry_ok e ->
  value_len e = alen v /\ take (length v) (value e) = v <-> entry_member e = v.
Proof.
  intros [Hb Hl]. unfold entry_member, alen in *. split.
  - intros [-> Ht]. by rewrite Nat2Z.id.
  - intros <-. rewrite length_take. replace (Z.to_nat (value_len e) `min` length (value e))%nat
      with (Z.to_nat (value_len e)) by lia. split; [lia|done].
Qed.

Lemma live_match_spec v e : entry_ok e ->
  live_match v e = true <-> entry_member e = v /\ is_removed e = 0.
Proof.
  intros He. unfold live_match. rewrite !andb_true_iff, !Z.eqb_eq, bytes_eqb_eq.
  rewrite <- (take_member e v He). tauto.
Qed.

Lemma orset_contains_abs s v : orset_ok s ->
  orset_contains s v = true <-> v <> [] /\ abs_contains (orset_abs s) v.
Proof.
  intros [Hnd Hok]. unfold orset_contains, abs_contains, orset_abs.
  destruct (Z.eqb_spec (alen v) 0) as [H0|H0].
  { unfold alen in H0. destruct v; [|simpl in H0; lia]. split; [done|]. by intros [? _]. }
  assert (v <> []) as Hv by (intros ->; done).
  rewrite existsb_exists. split.
  - intros (e & Hin%list_elem_of_In & Hm). split; [done|].
    apply live_match_spec in Hm as [Hm Hr]; [|by eapply Forall_forall in Hok].
    exists (entry_tag e). apply abs_entries_lookup; [done|]. exists e.
    unfold entry_abs. simpl. by rewrite Hm, Hr.
  - intros [_ [t Ht]]. apply abs_entries_lookup in Ht as (e & Hin & _ & Hx); [|done].
    exists e. split; [by apply list_elem_of_In|].
    apply live_match_spec; [by eapply Forall_forall in Hok|].
    unfold entry_abs in Hx. simpl in Hx. injection Hx as -> Hr. cmp_prop. done.
Qed.

(** ** Content of the entries after a merge

    Whatever the allocator answers, every entry of the result is an entry of
    one of the two sets, up to its tombstone. *)
Definition same_content (e e' : ORSetEntry) : Prop :=
  value e = value e' /\ value_len e = value_len e' /\ entry_tag e = entry_tag e'.

Lemma same_content_trans e1 e2 e3 : same_content e1 e2 -> same_content e2 e3 -> same_content e1 e3.
Proof. unfold same_content. intros (? & ? & ?) (? & ? & ?). split_and!; congruence. Qed.

Lemma propagate_content se es es' e : propagate se es = Some es' -> e ∈ es' ->
  exists e0, e0 ∈ es /\ same_content e e0.
Proof.
  revert es'. induction es as [|x es IH]; simpl; intros es' H Hin; [done|].
  destruct (same_tag se x).
  - injection H as <-. apply elem_of_cons in Hin as [->|Hin].
    + exists x. split; [by left|done].
    + exists e. split; [by right|done].
  - destruct (propagate se es) as [es0|]; [|done]. injection H as <-.
    apply elem_of_cons in Hin as [->|Hin]; [exists x; split; [by left|done]|].
    destruct (IH _ eq_refl Hin) as (e0 & ? & ?). exists e0. split; [by right|done].
Qed.

Lemma merge_loop_content alloc ses dst e : e ∈ entries (merge_loop alloc ses dst) ->
  exists e0, (e0 ∈ entries dst \/ e0 ∈ ses) /\ same_content e e0.
Proof.
  revert dst. induction ses as [|se ses IH]; intros dst; simpl.
  { intros H. exists e. split; [by left|done]. }
  destruct (propagate se (entries dst)) as [es|] eqn:Hp.
  - intros (e0 & [Hin|Hin] & Hs)%IH; [|exists e0; split; [right; by right|done]].
    destruct (propagate_content _ _ _ _ Hp Hin) as (e1 & Hin1 & Hs1).
    exists e1. split; [by left|]. by eapply same_content_trans.
  - assert (Hsnoc : forall c, e ∈ entries (merge_loop alloc ses (with_entries dst (entries dst ++ [se]) c)) ->
      exists e0, (e0 ∈ entries dst \/ e0 ∈ se :: ses) /\ same_content e e0).
    { intros c (e0 & [Hin|Hin] & Hs)%IH; exists e0; (split; [|done]).
      - apply elem_of_app in Hin as [? | ->%list_elem_of_singleton]; [by left|right; by left].
      - right. by right. }
    case_if; [|apply Hsnoc]. case_if; [apply Hsnoc|]. intros Hin. exists e. split; [by left|done].
Qed.

Lemma merge_loop_nodup alloc ses dst :
  NoDup (entry_tag <$> entries dst) -> NoDup (entry_tag <$> entries (merge_loop alloc ses dst)).
Proof.
  revert dst. induction ses as [|se ses IH]; intros dst Hnd; simpl; [done|].
  destruct (propagate se (entries dst)) as [es|] eqn:Hp.
  - apply IH. simpl. by destruct (propagate_Some _ _ _ Hp) as [-> _].
  - apply propagate_None in Hp.
    assert (NoDup (entry_tag <$> entries dst ++ [se])) as Hs.
    { rewrite fmap_app. apply NoDup_app. split; [done|]. split; [|apply NoDup_singleton].
      intros x Hx ->%list_elem_of_singleton. done. }
    case_if; [case_if|]; [by apply IH|done|by apply IH].
Qed.

Lemma same_content_ok e e0 : same_content e e0 -> entry_ok e0 -> entry_ok e.
Proof. intros (Hv & Hl & _) [? ?]. split; congruence. Qed.

Lemma orset_merge_ok alloc dst src : orset_ok dst -> orset_ok src -> orset_ok (orset_merge alloc dst src).
Proof.
  intros [Hd Hdo] [Hs Hso]. split; [by apply merge_loop_nodup|].
  apply Forall_forall. intros e He. apply merge_loop_content in He as (e0 & Hin & Hc).
  eapply same_content_ok; [done|]. rewrite Forall_forall in Hdo, Hso. destruct Hin; auto.
Qed.

Lemma orset_merge_self alloc dst src : self_node (orset_merge alloc dst src) = self_node dst /\
  next_tag (orset_merge alloc dst src) = next_tag dst.
Proof.
  unfold orset_merge. generalize (entries src) as ses. intros ses. revert dst.
  induction ses as [|se ses IH]; intros dst; simpl; [done|].
  destruct (propagate se (entries dst)); repeat case_if;
    rewrite ?(proj1 (IH _)), ?(proj2 (IH _)); done.
Qed.

Lemma orset_add_cases alloc s v :
  (orset_add alloc s v).1 = s \/
  exists cap, 0 < alen v <= 255 /\
    (orset_add alloc s v).1 =
      mkORSet (entries s ++ [mkEntry (entry_value v) (alen v) (next_tag s) (self_node s) 0])
        cap (next_tag s +64 1) (self_node s).
Proof.
  unfold orset_add. destruct (Z.eqb_spec (alen v) 0); simpl; [by left|].
  destruct (Z.ltb_spec 255 (alen v)); [by left|].
  assert (0 < alen v <= 255) by (unfold alen in *; lia).
  repeat case_if; simpl; eauto.
Qed.

Lemma fresh_entry_ok v t n : 0 < alen v <= 255 -> entry_ok (mkEntry (entry_value v) (alen v) t n 0).
Proof.
  intros Hv. split; simpl; [|done]. unfold entry_value, alen, calloc in *.
  rewrite length_app, length_replicate. lia.
Qed.

Lemma entry_member_fresh v t n r : 0 < alen v <= 255 -> entry_member (mkEntry (entry_value v) (alen v) t n r) = v.
Proof.
  intros Hv. unfold entry_member, entry_value, alen. simpl. rewrite Nat2Z.id.
  by rewrite take_app_length.
Qed.

(** ** A system of replicas

    Replica [i] of the system is the OR-Set of node [i].  The tag counter is
    a 64-bit integer: a step that adds requires that it does not wrap. *)
Abbreviation system := (list ORSet).

Inductive sys_step (alloc : Z -> bool) : system -> system -> Prop :=
| step_add sys i s v : sys !! i = Some s -> next_tag s + 1 < 2 ^ 64 ->
    sys_step alloc sys (<[i := (orset_add alloc s v).1]> sys)
| step_remove sys i s v : sys !! i = Some s ->
    sys_step alloc sys (<[i := (orset_remove s v).1]> sys)
| step_merge sys i j s src : sys !! i = Some s -> sys !! j = Some src ->
    sys_step alloc sys (<[i := orset_merge alloc s src]> sys).

Definition sys_init (n : nat) : system := (fun i => orset_create (Z.of_nat i)) <$> seq 0 n.

Definition reachable (alloc : Z -> bool) (n : nat) (sys : system) : Prop :=
  rtc (sys_step alloc) (sys_init n) sys.

(** The invariant: tags of origin [n] are below the counter of replica [n],
    and a tag carries one value everywhere. *)
Definition tag_bounded (sys : system) (e : ORSetEntry) : Prop :=
  exists n s, origin_node e = Z.of_nat n /\ sys !! n = Some s /\ add_tag e < next_tag s.

Definition in_sys (sys : system) (e : ORSetEntry) : Prop := exists i s, sys !! i = Some s /\ e ∈ entries s.

Record sys_inv (sys : system) : Prop := {
  inv_self : forall i s, sys !! i = Some s -> self_node s = Z.of_nat i;
  inv_ok : forall i s, sys !! i = Some s -> orset_ok s;
  inv_tag : forall i s, sys !! i = Some s -> 0 <= next_tag s < 2 ^ 64;
  inv_bound : forall e, in_sys sys e -> tag_bounded sys e;
  inv_agree : forall e e', in_sys sys e -> in_sys sys e' -> entry_tag e = entry_tag e' ->
    value e = value e' /\ value_len e = value_len e';
}.

(** Replacing replica [i] by a state whose entries were already in the
    system, up to tombstones, keeps the invariant. *)
Lemma sys_inv_update sys i s s' : sys_inv sys -> sys !! i = Some s ->
  orset_ok s' -> self_node s' = self_node s -> next_tag s' = next_tag s ->
  (forall e, e ∈ entries s' -> exists e0, in_sys sys e0 /\ same_content e e0) ->
  sys_inv (<[i := s']> sys).
Proof.
  intros [Iself Iok Itag Ibound Iagree] Hi Hok Hself Hnext Hsub.
  assert (Hlt : (i < length sys)%nat) by (by eapply lookup_lt_Some).
  assert (Hold : forall e, in_sys (<[i := s']> sys) e -> exists e0, in_sys sys e0 /\ same_content e e0).
  { intros e (j & sj & Hj & He). apply list_lookup_insert_Some in Hj as [(-> & -> & _)|[_ Hj]]; [by apply Hsub|].
    exists e. split; [by exists j, sj|done]. }
  split.
  - intros j sj Hj. apply list_lookup_insert_Some in Hj as [(-> & -> & _)|[_ Hj]]; [|by apply Iself].
    rewrite Hself. by apply Iself.
  - intros j sj Hj. apply list_lookup_insert_Some in Hj as [(-> & -> & _)|[_ Hj]]; [done|by eapply Iok].
  - intros j sj Hj. apply list_lookup_insert_Some in Hj as [(-> & -> & _)|[_ Hj]]; [|by eapply Itag].
    rewrite Hnext. by eapply Itag.
  - intros e (e0 & He0 & Hc)%Hold. destruct (Ibound e0 He0) as (n & sn & Ho & Hn & Hlt').
    destruct Hc as (_ & _ & [= Ht Hor]). unfold tag_bounded. rewrite Ht, Hor.
    destruct (decide (n = i)) as [->|Hne].
    + exists i, s'. rewrite list_lookup_insert_eq by done. simplify_eq. split_and!; [done|done|lia].
    + exists n, sn. by rewrite list_lookup_insert_ne.
  - intros e e' (e0 & He0 & H1 & H2 & H3)%Hold (e1 & He1 & H4 & H5 & H6)%Hold Ht.
    destruct (Iagree e0 e1 He0 He1) as [??]; [congruence|]. split; congruence.
Qed.

Lemma sys_inv_add alloc sys i s v : sys_inv sys -> sys !! i = Some s -> next_tag s + 1 < 2 ^ 64 ->
  sys_inv (<[i := (orset_add alloc s v).1]> sys).
Proof.
  intros Hinv Hi Hw. destruct (orset_add_cases alloc s v) as [->|(cap & Hv & ->)].
  { by rewrite list_insert_id. }
  destruct Hinv as [Iself Iok Itag Ibound Iagree].
  assert (Hlt : (i < length sys)%nat) by (by eapply lookup_lt_Some).
  set (e := mkEntry _ _ _ _ _). set (s' := mkORSet _ _ _ _).
  pose proof (Itag _ _ Hi) as Ht. pose proof (Iself _ _ Hi) as Hself.
  assert (Hnext : next_tag s' = next_tag s + 1) by (simpl; rewrite wrap_small; [done|mach]).
  assert (Hfresh : forall x, in_sys sys x -> entry_tag x <> entry_tag e).
  { intros x (n & sn & Ho & Hn & Hb)%Ibound [= Htag Hor].
    assert (n = i) as -> by lia. simplify_eq. lia. }
  assert (Hold : forall x, in_sys (<[i := s']> sys) x -> x = e \/ in_sys sys x).
  { intros x (j & sj & Hj & Hx). apply list_lookup_insert_Some in Hj as [(<- & <- & _)|[_ Hj]].
    - apply elem_of_app in Hx as [Hx | ->%list_elem_of_singleton]; [right; by exists i, s|by left].
    - right. by exists j, sj. }
  split.
  - intros j sj Hj. apply list_lookup_insert_Some in Hj as [(<- & <- & _)|[_ Hj]]; [exact Hself|by apply Iself].
  - intros j sj Hj. apply list_lookup_insert_Some in Hj as [(<- & <- & _)|[_ Hj]]; [|by eapply Iok].
    destruct (Iok _ _ Hi) as [Hnd Hf]. split; simpl.
    + rewrite fmap_app. apply NoDup_app. split_and!; [done| |apply NoDup_singleton].
      intros t (x & -> & Hx)%list_elem_of_fmap Hin%list_elem_of_singleton.
      apply (Hfresh x); [by exists i, s|done].
    + apply Forall_app. split; [done|]. apply Forall_singleton. by apply fresh_entry_ok.
  - intros j sj Hj. apply list_lookup_insert_Some in Hj as [(<- & <- & _)|[_ Hj]]; [lia|by eapply Itag].
  - intros x [->|Hx]%Hold.
    + exists i, s'. rewrite list_lookup_insert_eq by done. split_and!; [done|done|simpl in *; lia].
    + destruct (Ibound x Hx) as (n & sn & Ho & Hn & Hb). destruct (decide (n = i)) as [->|Hne].
      * exists i, s'. rewrite list_lookup_insert_eq by done. simplify_eq. split_and!; [done|done|lia].
      * exists n, sn. by rewrite list_lookup_insert_ne.
  - intros x y [->|Hx]%Hold [->|Hy]%Hold Htag; try done.
    + by destruct (Hfresh y Hy).
    + by destruct (Hfresh x Hx).
    + by apply Iagree.
Qed.

Lemma orset_remove_entries s v e : e ∈ entries (orset_remove s v).1 ->
  exists e0, e0 ∈ entries s /\ same_content e e0.
Proof.
  unfold orset_remove. case_if; simpl; [by exists e|].
  intros (x & -> & Hx)%list_elem_of_fmap. exists x. split; [done|]. by case_if.
Qed.

Lemma orset_remove_tags s v : (entry_tag <$> entries (orset_remove s v).1) = (entry_tag <$> entries s).
Proof.
  unfold orset_remove. case_if; simpl; [done|].
  change (map ?f ?l) with (f <$> l). rewrite <- list_fmap_compose.
  apply list_fmap_ext. intros k x _. simpl. by case_if.
Qed.

Lemma orset_remove_ok s v : orset_ok s -> orset_ok (orset_remove s v).1.
Proof.
  intros [Hnd Hf]. split; [by rewrite orset_remove_tags|]. apply Forall_forall. intros e He.
  apply orset_remove_entries in He as (e0 & Hin & Hc).
  eapply same_content_ok; [done|]. by eapply Forall_forall in Hf.
Qed.

Lemma sys_step_inv alloc sys sys' : sys_step alloc sys sys' -> sys_inv sys -> sys_inv sys'.
Proof.
  intros [sys0 i s v Hi Hw|sys0 i s v Hi|sys0 i j s src Hi Hj] Hinv.
  - by apply sys_inv_add.
  - eapply sys_inv_update; [done|done| | | |].
    + apply orset_remove_ok. by eapply inv_ok.
    + unfold orset_remove. by case_if.
    + unfold orset_remove. by case_if.
    + intros e (e0 & Hin & Hc)%orset_remove_entries. exists e0. split; [by exists i, s|done].
  - eapply sys_inv_update; [done|done| | | |].
    + apply orset_merge_ok; by eapply inv_ok.
    + apply orset_merge_self.
    + apply orset_merge_self.
    + intros e (e0 & [Hin|Hin] & Hc)%merge_loop_content; exists e0; (split; [|done]);
        [by exists i, s|by exists j, src].
Qed.

Lemma sys_init_inv n : sys_inv (sys_init n).
Proof.
  assert (Hl : forall i s, sys_init n !! i = Some s -> s = orset_create (Z.of_nat i)).
  { intros i s Hi. unfold sys_init in Hi. apply list_lookup_fmap_Some in Hi as (k & -> & Hk).
    apply lookup_seq in Hk as [-> _]. done. }
  assert (Hnone : forall e, ~ in_sys (sys_init n) e).
  { intros e (i & s & Hi & He). rewrite (Hl _ _ Hi) in He. by apply not_elem_of_nil in He. }
  split.
  - intros i s Hi. by rewrite (Hl _ _ Hi).
  - intros i s Hi. rewrite (Hl _ _ Hi). split; constructor.
  - intros i s Hi. rewrite (Hl _ _ Hi). simpl. lia.
  - intros e He. by destruct (Hnone e).
  - intros e e' He. by destruct (Hnone e).
Qed.

Lemma reachable_inv alloc n sys : reachable alloc n sys -> sys_inv sys.
Proof.
  intros Hr. unfold reachable in Hr. pose proof (sys_init_inv n) as H0. revert H0.
  induction Hr as [|x y z Hs Hr IH]; [done|]. intros Hx. apply IH. by eapply sys_step_inv.
Qed.

(** ** The abstract states form a convergent data type *)
Definition agrees (val_of : tag -> bytes) (a : astate) : Prop :=
  forall t v r, a !! t = Some (v, r) -> v = val_of t.

#[export] Instance orset_cvrdt val_of : CvRDT (agrees val_of) abs_join.
Proof.
  unfold agrees, abs_join. split.
  - intros x y Hx Hy t v r Hl. rewrite lookup_union_with in Hl.
    destruct (x !! t) as [[v1 r1]|] eqn:E1, (y !! t) as [[v2 r2]|] eqn:E2;
      unfold union_with, option_union_with, tomb_or in Hl; simplify_eq/=; eauto.
  - intros x y Hx Hy. apply map_eq. intros t. rewrite !lookup_union_with.
    destruct (x !! t) as [[v1 r1]|] eqn:E1, (y !! t) as [[v2 r2]|] eqn:E2; try done.
    simpl. unfold tomb_or. simpl. rewrite (Hx _ _ _ E1), (Hy _ _ _ E2), orb_comm. done.
  - intros x y z _ _ _. apply map_eq. intros t. rewrite !lookup_union_with.
    destruct (x !! t) as [[v1 r1]|], (y !! t) as [[v2 r2]|], (z !! t) as [[v3 r3]|]; try done.
    simpl. unfold tomb_or. simpl. by rewrite orb_assoc.
  - intros x _. apply map_eq. intros t. rewrite lookup_union_with.
    destruct (x !! t) as [[v r]|]; [|done]. simpl. unfold tomb_or. simpl. by rewrite orb_diag.
Qed.

Definition sys_value (sys : system) (t : tag) : bytes :=
  default [] (entry_member <$> List.find (fun e => bool_decide (entry_tag e = t)) (concat (entries <$> sys))).

Lemma in_sys_concat sys e : e ∈ concat (entries <$> sys) <-> in_sys sys e.
Proof.
  rewrite list_elem_of_In, in_concat. split.
  - intros (l & Hl & He). rewrite <- list_elem_of_In in Hl. rewrite <- list_elem_of_In in He.
    apply list_elem_of_fmap in Hl as (s & -> & Hs). apply list_elem_of_lookup in Hs as [i Hi]. by exists i, s.
  - intros (i & s & Hi & He). exists (entries s). split; [|by apply list_elem_of_In].
    apply list_elem_of_In, list_elem_of_fmap. exists s. split; [done|]. by eapply list_elem_of_lookup_2.
Qed.

Lemma sys_agrees sys i s : sys_inv sys -> sys !! i = Some s -> agrees (sys_value sys) (orset_abs s).
Proof.
  intros Hinv Hi t v r Hl. destruct (inv_ok _ Hinv _ _ Hi) as [Hnd _].
  apply abs_entries_lookup in Hl as (e & He & <- & Hx); [|done].
  unfold entry_abs in Hx. injection Hx as <- _. unfold sys_value.
  assert (Hin : in_sys sys e) by (by exists i, s).
  destruct (List.find _ _) as [e'|] eqn:Hf.
  - apply find_some in Hf as [Hin' Ht]. apply bool_decide_eq_true in Ht.
    rewrite <- list_elem_of_In, in_sys_concat in Hin'.
    destruct (inv_agree _ Hinv e e' Hin Hin' (eq_sym Ht)) as [Hv Hl']. simpl.
    unfold entry_member. by rewrite Hv, Hl'.
  - exfalso. rewrite <- in_sys_concat, list_elem_of_In in Hin.
    pose proof (find_none _ _ Hf e Hin) as Hc. simpl in Hc.
    by apply bool_decide_eq_false in Hc.
Qed.

Definition orset_deliver (alloc : Z -> bool) (s : ORSet) (l : list ORSet) : ORSet :=
  fold_left (orset_merge alloc) l s.

Lemma orset_deliver_abs alloc s l : (forall c, alloc c = true) -> orset_ok s -> Forall orset_ok l ->
  orset_ok (orset_deliver alloc s l) /\
  orset_abs (orset_deliver alloc s l) = deliver (join := abs_join) (orset_abs s) (orset_abs <$> l).
Proof.
  intros Ha Hs Hl. revert s Hs. induction Hl as [|x l Hx Hl IH]; intros s Hs; [done|]. simpl.
  destruct (IH (orset_merge alloc s x)) as [Hok Heq]; [by apply orset_merge_ok|].
  split; [done|]. rewrite Heq. f_equal. apply merge_loop_abs; [done|apply Hx].
Qed.

Lemma fmap_elem_iff {A B} (f : A -> B) x y (l1 l2 : list A) :
  (forall z, z ∈ x :: l1 <-> z ∈ y :: l2) -> forall z, z ∈ f x :: (f <$> l1) <-> z ∈ f y :: (f <$> l2).
Proof.
  intros H z. rewrite <- !fmap_cons, !list_elem_of_fmap.
  split; intros (w & -> & Hw); exists w; (split; [done|]); by apply H.
Qed.

(** The members of a set, as a function of the abstract state. *)
Lemma contains_ext s s' : orset_ok s -> orset_ok s' -> orset_abs s = orset_abs s' ->
  forall v, orset_contains s v = orset_contains s' v.
Proof.
  intros Hs Hs' Heq v. apply eq_true_iff_eq. by rewrite !orset_contains_abs, Heq.
Qed.

(** ** Functional behaviour of the sequential operations *)
Lemma orset_add_success alloc s v : 0 < alen v <= 255 -> (forall c, alloc c = true) ->
  (orset_add alloc s v).2 = 0 /\
  entries (orset_add alloc s v).1 = entries s ++ [mkEntry (entry_value v) (alen v) (next_tag s) (self_node s) 0].
Proof.
  intros Hv Ha. unfold orset_add. rewrite Ha.
  destruct (Z.eqb_spec (alen v) 0); [lia|]. destruct (Z.ltb_spec 255 (alen v)); [lia|]. simpl.
  by case_if.
Qed.

Lemma live_match_removed v e r : r <> 0 -> live_match v (set_removed e r) = false.
Proof. intros Hr. unfold live_match. simpl. destruct (Z.eqb_spec r 0); done. Qed.

Lemma existsb_map_removed v w es : Forall entry_ok es ->
  existsb (live_match w) (map (fun e => if live_match v e then set_removed e 1 else e) es) =
  existsb (live_match w) es && negb (bytes_eqb v w).
Proof.
  induction 1 as [|e es He Hes IH]; simpl; [done|]. rewrite IH.
  destruct (live_match v e) eqn:Ev.
  - rewrite live_match_removed by done. apply live_match_spec in Ev as [<- _]; [|done]. simpl.
    destruct (live_match w e) eqn:Ew; [|done].
    apply live_match_spec in Ew as [<- _]; [|done]. simpl.
    unfold bytes_eqb. rewrite bool_decide_eq_true_2 by done. simpl. by rewrite andb_false_r.
  - destruct (live_match w e) eqn:Ew; [|done]. simpl.
    destruct (bytes_eqb v w) eqn:Evw; [|simpl; by rewrite ?andb_true_r].
    cmp_prop. subst. congruence.
Qed.

(** Refinement statement for the sequential set: [orset_contains] after each
    operation, with the codes the operations return. *)
(** Sequential OR-Set: a successful [orset_add] of a value of 1..255 bytes
    returns 0 and inserts exactly that value; an out-of-range length returns -1
    and changes nothing; [orset_remove] deletes exactly that value from the
    observable membership and returns 1 iff it was present. *)
Theorem orset_sequential_spec alloc s v w :
  (forall c, alloc c = true) -> orset_ok s ->
  (0 < alen v <= 255 ->
    (orset_add alloc s v).2 = 0 /\
    orset_contains (orset_add alloc s v).1 w = bytes_eqb v w || orset_contains s w) /\
  (~ (0 < alen v <= 255) -> orset_add alloc s v = (s, -1)) /\
  (alen v <> 0 ->
    (orset_remove s v).2 = (if orset_contains s v then 1 else 0) /\
    orset_contains (orset_remove s v).1 w = orset_contains s w && negb (bytes_eqb v w)).
Proof.
  intros Ha [Hnd Hok]. split_and!.
  - intros Hv. destruct (orset_add_success alloc s v Hv Ha) as [-> He]. split; [done|].
    unfold orset_contains. rewrite He, existsb_app. simpl. rewrite orb_false_r.
    pose proof (live_match_spec w _ (fresh_entry_ok v (next_tag s) (self_node s) Hv)) as Hm.
    rewrite (entry_member_fresh v _ _ 0 Hv) in Hm. simpl in Hm.
    destruct (Z.eqb_spec (alen w) 0) as [Hw|Hw].
    + destruct (bytes_eqb v w) eqn:E; [cmp_prop; subst; lia|done].
    + rewrite orb_comm. f_equal. apply eq_true_iff_eq. rewrite Hm, bytes_eqb_eq. tauto.
  - intros Hv. unfold orset_add. destruct (Z.eqb_spec (alen v) 0); simpl; [done|].
    destruct (Z.ltb_spec 255 (alen v)); [done|]. unfold alen in *. lia.
  - intros Hv. unfold orset_remove, orset_contains. destruct (Z.eqb_spec (alen v) 0); [done|]. simpl.
    split; [done|]. destruct (Z.eqb_spec (alen w) 0); [done|]. by apply existsb_map_removed.
Qed.

Lemma orset_sequential_spec_witness :
  orset_contains (orset_add (fun _ => true) (orset_create 7) [1; 2]).1 [1; 2] = true.
Proof.
  destruct (orset_sequential_spec (fun _ => true) (orset_create 7) [1; 2] [1; 2]) as [H _];
    [done|split; constructor|].
  destruct H as [_ H]; [done|]. rewrite H. reflexivity.
Defined.

(** C1. Strong convergence of the OR-Set: in every reachable system of
    replicas, two replicas that hold or received the same set of replica
    states, in any order and with any repetition, contain the same members. *)
Theorem orset_strong_convergence alloc alloc' n sys a b l1 l2 v :
  reachable alloc n sys -> (forall c, alloc' c = true) ->
  (forall s, s ∈ a :: b :: l1 ++ l2 -> s ∈ sys) ->
  (forall s, s ∈ a :: l1 <-> s ∈ b :: l2) ->
  orset_contains (orset_deliver alloc' a l1) v = orset_contains (orset_deliver alloc' b l2) v.
Proof.
  intros Hr Ha Hin Heq. apply reachable_inv in Hr as Hinv.
  assert (Hall : forall s, s ∈ a :: b :: l1 ++ l2 -> orset_ok s /\ agrees (sys_value sys) (orset_abs s)).
  { intros s Hs. apply Hin, list_elem_of_lookup in Hs as [i Hi].
    split; [by eapply inv_ok|by eapply sys_agrees]. }
  assert (H1 : forall l, (forall s, s ∈ l -> s ∈ a :: b :: l1 ++ l2) ->
    Forall orset_ok l /\ Forall (agrees (sys_value sys)) (orset_abs <$> l)).
  { intros l Hl. split; [|apply Forall_fmap]; apply Forall_forall; intros s Hs; by apply Hall, Hl. }
  destruct (H1 l1) as [Hok1 Hag1]; [set_solver|]. destruct (H1 l2) as [Hok2 Hag2]; [set_solver|].
  destruct (Hall a) as [Hoka Haga]; [set_solver|]. destruct (Hall b) as [Hokb Hagb]; [set_solver|].
  destruct (orset_deliver_abs alloc' a l1 Ha Hoka Hok1) as [Hda Ea].
  destruct (orset_deliver_abs alloc' b l2 Ha Hokb Hok2) as [Hdb Eb].
  apply contains_ext; [done|done|]. rewrite Ea, Eb.
  apply (converge (ok := agrees (sys_value sys))); try done. by apply fmap_elem_iff.
Qed.

(** Two replicas: node 0 adds a member, node 1 adds another; exchanging the
    states in either order gives the same sets. *)
Definition witness_sys : system :=
  [ (orset_add (fun _ => true) (orset_create 0) [65]).1;
    (orset_add (fun _ => true) (orset_create 1) [66]).1 ].

Lemma witness_sys_reachable : reachable (fun _ => true) 2 witness_sys.
Proof.
  eapply rtc_l; [apply (step_add _ _ 0%nat (orset_create 0) [65]); [done|simpl; lia]|].
  eapply rtc_l; [apply (step_add _ _ 1%nat (orset_create 1) [66]); [done|simpl; lia]|].
  apply rtc_refl.
Defined.

Lemma orset_strong_convergence_witness :
  exists a b, witness_sys = [a; b] /\
    orset_contains (orset_deliver (fun _ => true) a [b]) [66] =
    orset_contains (orset_deliver (fun _ => true) b [a]) [66] /\
    orset_contains (orset_deliver (fun _ => true) b [a]) [66] = true.
Proof.
  eexists _, _. split; [reflexivity|]. split; [|vm_compute; reflexivity].
  apply (orset_strong_convergence (fun _ => true) (fun _ => true) 2 witness_sys);
    [apply witness_sys_reachable|done|unfold witness_sys; set_solver|set_solver].
Defined.

(** C28. Add wins: when replica [i] removes a value while another replica [j]
    concurrently adds it, the merge contains the value, on either side. *)
Theorem orset_add_wins alloc alloc' n sys i j a b v :
  reachable alloc n sys -> (forall c, alloc' c = true) -> i <> j ->
  sys !! i = Some a -> sys !! j = Some b -> 0 < alen v <= 255 -> next_tag b + 1 < 2 ^ 64 ->
  orset_contains (orset_merge alloc' (orset_remove a v).1 (orset_add alloc' b v).1) v = true /\
  orset_contains (orset_merge alloc' (orset_add alloc' b v).1 (orset_remove a v).1) v = true.
Proof.
  intros Hr Ha Hij Hi Hj Hv Hw. apply reachable_inv in Hr as Hinv.
  assert (Hinv' := sys_inv_add alloc' sys j b v Hinv Hj Hw).
  assert (Hlt : (j < length sys)%nat) by (by eapply lookup_lt_Some).
  pose proof (inv_ok _ Hinv' j _ (list_lookup_insert_eq _ _ _ Hlt)) as Hokb.
  pose proof (orset_remove_ok a v (inv_ok _ Hinv i a Hi)) as Hoka.
  destruct (orset_add_success alloc' b v Hv Ha) as [_ He].
  set (b' := (orset_add alloc' b v).1) in *. set (a' := (orset_remove a v).1) in *.
  set (t := (next_tag b, self_node b)).
  assert (Hb : orset_abs b' !! t = Some (v, false)).
  { destruct Hokb as [Hnd _]. apply abs_entries_lookup; [done|].
    eexists. split; [rewrite He; apply elem_of_app; right; by apply list_elem_of_singleton|].
    split; [done|]. unfold entry_abs. simpl. by rewrite entry_member_fresh. }
  assert (Ha' : orset_abs a' !! t = None).
  { apply abs_entries_None. unfold a'. rewrite orset_remove_tags.
    intros (e & Ht & Hin)%list_elem_of_fmap. unfold t, entry_tag in Ht. injection Ht as Ht1 Ht2.
    destruct (inv_bound _ Hinv e) as (m & sm & Ho & Hm & Hlt'); [by exists i, a|].
    rewrite (inv_self _ Hinv _ _ Hj) in Ht2. assert (m = j) as -> by lia. simplify_eq. lia. }
  assert (Hv0 : v <> []) by (intros ->; unfold alen in Hv; simpl in Hv; lia).
  split; apply orset_contains_abs; try (by apply orset_merge_ok); (split; [done|]); exists t;
    unfold orset_merge; rewrite merge_loop_abs by (done || apply Hokb || apply Hoka);
    unfold abs_join; rewrite lookup_union_with; fold (orset_abs b') (orset_abs a'); by rewrite Hb, Ha'.
Qed.

Lemma orset_add_wins_witness :
  exists a b, witness_sys = [a; b] /\
  orset_contains (orset_merge (fun _ => true) (orset_remove a [65]).1 (orset_add (fun _ => true) b [65]).1) [65] = true.
Proof.
  eexists _, _. split; [reflexivity|].
  apply (orset_add_wins (fun _ => true) (fun _ => true) 2 witness_sys 0 1);
    [apply witness_sys_reachable|done|done|reflexivity|reflexivity|done|vm_compute; reflexivity].
Defined.
