(* ===== verification/OrSetCodec.v ===== *)
(** * Flat serialization of the OR-Set (src/src/crdt/crdt.c)

    [orset_serialize] and [orset_deserialize], on the byte layout that
    [struct ORSetEntry] has on the 64-bit little-endian targets of the
    program: value at 0, value_len at 256, add_tag at 264, origin_node at 272,
    is_removed at 276, 280 bytes in all, padding zero. *)
From S2P Require Import Prelude Lattice OrSet.

Definition SIZEOF_ORSetEntry : Z := 280.

Definition orset_serialized_size (s : ORSet) : Z := 4 * 2 + count s * SIZEOF_ORSetEntry.

Definition entry_image (e : ORSetEntry) : bytes :=
  value e ++ le_bytes 2 (value_len e) ++ calloc 6 0 ++ le_bytes 8 (add_tag e) ++
  le_bytes 4 (origin_node e) ++ le_bytes 4 (is_removed e).

(** [None] is the return value 0 (buffer too small). *)
Definition orset_serialize (s : ORSet) (buf_cap : Z) : option bytes :=
  let needed := 4 * 2 + count s * SIZEOF_ORSetEntry in
  if buf_cap <? needed then None
  else Some (le_bytes 4 (count s) ++ le_bytes 4 (u32 (next_tag s)) ++ concat (map entry_image (entries s))).

(** [n] bytes of [b] at offset [off]. *)
Definition field (b : bytes) (off n : nat) : bytes := take n (drop off b).

Definition entry_of_image (b : bytes) : ORSetEntry :=
  mkEntry (field b 0 256) (le_val (field b 256 2)) (le_val (field b 264 8))
    (le_val (field b 272 4)) (i32 (le_val (field b 276 4))).

Fixpoint read_entries (n : nat) (b : bytes) : list ORSetEntry :=
  match n with
  | O => []
  | S n => entry_of_image (take 280 b) :: read_entries n (drop 280 b)
  end.

Definition orset_deserialize (buf : bytes) (self_node_id : Z) : ORSet :=
  let len := alen buf in
  if len <? 4 * 2 then orset_create self_node_id
  else
    let count := le_val (field buf 0 4) in
    let next_tag32 := le_val (field buf 4 4) in
    if len <? 4 * 2 + count * SIZEOF_ORSetEntry then orset_create self_node_id
    else mkORSet (read_entries (Z.to_nat count) (drop 8 buf))
           (if 0 <? count then count else 1) next_tag32 self_node_id.

(** Entries whose fields have their C types. *)
Record entry_typed (e : ORSetEntry) : Prop := {
  typed_value : alen (value e) = 256;
  typed_len : in_u 16 (value_len e);
  typed_tag : in_u 64 (add_tag e);
  typed_origin : in_u 32 (origin_node e);
  typed_removed : 0 <= is_removed e < 2 ^ 31;
}.

(** *** Fields of a concatenation *)
Lemma field_skip (a b : bytes) off n : (length a <= off)%nat -> field (a ++ b) off n = field b (off - length a) n.
Proof. intros H. unfold field. by rewrite drop_app_ge. Qed.

Lemma field_here (a b : bytes) n : length a = n -> field (a ++ b) 0 n = a.
Proof. intros <-. unfold field. rewrite drop_0. by rewrite take_app_length. Qed.

Lemma field_all (a : bytes) n : length a = n -> field a 0 n = a.
Proof. intros <-. unfold field. by rewrite drop_0, firstn_all. Qed.

Lemma length_calloc (n : Z) (x : Z) : length (calloc n x) = Z.to_nat n.
Proof. unfold calloc. apply length_replicate. Qed.

Ltac field_go :=
  repeat (rewrite field_skip by (rewrite ?length_le_bytes, ?length_calloc; simpl; lia);
          rewrite ?length_le_bytes, ?length_calloc; simpl (_ - _)%nat);
  first [ rewrite field_here by (rewrite ?length_le_bytes, ?length_calloc; done)
        | rewrite field_all by (rewrite ?length_le_bytes, ?length_calloc; done) ].

Lemma length_entry_image e : alen (value e) = 256 -> length (entry_image e) = 280%nat.
Proof.
  intros Hv. unfold entry_image, alen in *. rewrite !length_app, !length_le_bytes, length_calloc.
  assert (length (value e) = 256%nat) by lia. lia.
Qed.

Lemma entry_image_round_trip e : entry_typed e -> entry_of_image (entry_image e) = e.
Proof.
  intros [Hv Hl Ht Ho Hr]. assert (Hv' : length (value e) = 256%nat) by (unfold alen in Hv; lia).
  unfold entry_of_image, entry_image. destruct e as [v l t o r]. cbn [value value_len add_tag origin_node is_removed] in *.
  f_equal.
  - by rewrite field_here.
  - rewrite field_skip, Hv' by lia. simpl (_ - _)%nat. field_go. by apply le_round_trip.
  - rewrite field_skip, Hv' by lia. simpl (_ - _)%nat. field_go. by apply le_round_trip.
  - rewrite field_skip, Hv' by lia. simpl (_ - _)%nat. field_go. by apply le_round_trip.
  - rewrite field_skip, Hv' by lia. simpl (_ - _)%nat. field_go.
    rewrite le_round_trip by mach. apply swrap_small; mach.
Qed.

Lemma read_entries_images es rest : Forall entry_typed es ->
  read_entries (length es) (concat (map entry_image es) ++ rest) = es.
Proof.
  induction 1 as [|e es He Hes IH]; simpl; [done|].
  pose proof (length_entry_image e (typed_value _ He)) as Hlen.
  rewrite <- app_assoc. rewrite take_app_length', drop_app_length' by done.
  by rewrite entry_image_round_trip, IH.
Qed.

Lemma length_images es : Forall entry_typed es -> alen (concat (map entry_image es)) = alen es * 280.
Proof.
  unfold alen. induction 1 as [|e es He Hes IH]; simpl concat; [done|].
  rewrite length_app, length_entry_image by apply He. simpl length. lia.
Qed.

Lemma codec_spec s self cap buf : Forall entry_typed (entries s) ->
  in_u 32 (count s) -> in_u 32 (next_tag s) -> orset_serialize s cap = Some buf ->
  alen buf = orset_serialized_size s /\ orset_serialized_size s <= cap /\
  orset_deserialize buf self = mkORSet (entries s) (Z.max 1 (count s)) (next_tag s) self.
Proof.
  intros Hes Hc Hn Hs. unfold orset_serialize in Hs. case_if_in Hs; [done|].
  match type of Hs with Some ?x = _ => assert (buf = x) as -> by congruence end. clear Hs.
  rewrite (wrap_small 32) by done. set (data := concat _).
  assert (Hlen : alen (le_bytes 4 (count s) ++ le_bytes 4 (next_tag s) ++ data) = 8 + count s * 280).
  { pose proof (length_images _ Hes) as Hd. fold data in Hd. unfold count, alen in *.
    rewrite !length_app, !length_le_bytes. lia. }
  split. { unfold orset_serialized_size, SIZEOF_ORSetEntry. lia. }
  split; [done|]. unfold orset_deserialize. rewrite Hlen.
  rewrite (field_here (le_bytes 4 (count s))) by apply length_le_bytes.
  rewrite field_skip, length_le_bytes by (rewrite length_le_bytes; lia).
  rewrite (field_here (le_bytes 4 (next_tag s))) by apply length_le_bytes.
  rewrite !le_round_trip by done. unfold SIZEOF_ORSetEntry.
  destruct (Z.ltb_spec (8 + count s * 280) (4 * 2)); [mach|].
  destruct (Z.ltb_spec (8 + count s * 280) (4 * 2 + count s * 280)); [lia|]. f_equal.
  - rewrite app_assoc, drop_app_length' by (by rewrite length_app, !length_le_bytes).
    unfold count, alen. rewrite Nat2Z.id. rewrite <- (app_nil_r data). by apply read_entries_images.
  - destruct (Z.ltb_spec 0 (count s)); mach.
Qed.

(** Round trip of the flat format: the buffer has exactly
    [orset_serialized_size] bytes, a smaller capacity is refused, and
    deserializing restores every entry with its tag, origin and tombstone, and
    the tag counter when it fits the 32 bits the format gives it. *)
Theorem orset_codec_round_trip s self cap buf : Forall entry_typed (entries s) ->
  in_u 32 (count s) -> in_u 32 (next_tag s) -> orset_serialize s cap = Some buf ->
  alen buf = orset_serialized_size s /\ orset_serialized_size s <= cap /\
  orset_deserialize buf self = mkORSet (entries s) (Z.max 1 (count s)) (next_tag s) self.
Proof. apply codec_spec. Qed.

Lemma orset_codec_round_trip_witness :
  exists buf, orset_serialize (orset_add (fun _ => true) (orset_create 3) [7; 8]).1 400 = Some buf /\
    orset_deserialize buf 3 = mkORSet (entries (orset_add (fun _ => true) (orset_create 3) [7; 8]).1) 1 2 3.
Proof.
  eexists. split; [vm_compute; reflexivity|].
  apply (orset_codec_round_trip (orset_add (fun _ => true) (orset_create 3) [7; 8]).1 3 400).
  - repeat constructor; (reflexivity || (vm_compute; by split) || vm_compute; congruence).
  - vm_compute. split; congruence.
  - vm_compute. split; congruence.
  - vm_compute. reflexivity.
Defined.
