(* ===== verification/Vll.v ===== *)
(** * VLL, the lock manager of transactions (src/src/core/vll.c, used by
      EXEC in src/src/multi.c)

    A lock table of [table_size] slots, each with a reader count and a writer
    flag.  One attempt of [vll_acquire] runs under [table_lock] and is atomic;
    between two attempts other threads may change the table, which is the
    argument [interf]; [vll_us_now] is the argument [clock].  The moving
    average [avg_wait_us] (a double, never read by the code) is left out. *)
From Stdlib Require Import Sorted.
From S2P Require Import Prelude.

Definition VLL_MAX_KEYS_PER_TXN : Z := 64.
Definition VLL_TIMEOUT_US : Z := 10000.

Inductive VLLLockType := VLL_LOCK_READ | VLL_LOCK_WRITE.
Inductive VLLStatus := VLL_OK | VLL_CONFLICT | VLL_TIMEOUT | VLL_ABORTED.

#[export] Instance VLLLockType_eq_dec : EqDecision VLLLockType.
Proof. solve_decision. Defined.
#[export] Instance VLLStatus_eq_dec : EqDecision VLLStatus.
Proof. solve_decision. Defined.

Record VLLKey := mkKey { key_hash : Z; lock_type : VLLLockType }.

Record VLLRequest := mkReq {
  txn_id : Z;
  keys : list VLLKey;          (* keys[0..num_keys) *)
  status : VLLStatus;
  submit_us : Z;
  acquired_us : Z;
}.

Record VLLStats := mkStats {
  txns_submitted : Z;
  txns_committed : Z;
  txns_timeout : Z;
  conflicts_resolved : Z;
  predictive_reorders : Z;
}.

Record VLLManager := mkMgr {
  read_counts : list Z;        (* uint32_t *)
  write_flags : list Z;        (* uint8_t *)
  table_size : Z;
  stats : VLLStats;
  next_txn_id : Z;
}.

Definition num_keys (req : VLLRequest) : Z := alen (keys req).

(** [while (sz < table_size) sz <<= 1;] from 1024: the exponents 10..31 reach
    every size up to 2^31; a larger one makes the shifted size wrap to 0. *)
Fixpoint grow_size (fuel : nat) (sz target : Z) : Z :=
  match fuel with
  | O => sz
  | S fuel => if sz <? target then grow_size fuel (u32 (Z.shiftl sz 1)) target else sz
  end.

Definition vll_create (size : Z) : VLLManager :=
  let sz := grow_size 22 1024 size in
  mkMgr (calloc sz 0) (calloc sz 0) sz (mkStats 0 0 0 0 0) 1.

Definition key_to_slot (mgr : VLLManager) (hash : Z) : Z := u32 (Z.land hash (table_size mgr - 1)).

(** ** Lock ordering *)
Definition lock_rank (t : VLLLockType) : Z := match t with VLL_LOCK_READ => 0 | VLL_LOCK_WRITE => 1 end.

Definition cmp_key_hash (ka kb : VLLKey) : Z :=
  if key_hash ka <? key_hash kb then -1
  else if key_hash kb <? key_hash ka then 1
  else lock_rank (lock_type kb) - lock_rank (lock_type ka).

(** [qsort] with [cmp_key_hash]: keys that compare equal are equal, so the
    sorted array is unique and insertion sort computes it. *)
Fixpoint insert_key (k : VLLKey) (l : list VLLKey) : list VLLKey :=
  match l with
  | [] => [k]
  | x :: l' => if cmp_key_hash k x <=? 0 then k :: x :: l' else x :: insert_key k l'
  end.

Definition qsort_keys (l : list VLLKey) : list VLLKey := foldr insert_key [] l.

Definition bump_reorders (s : VLLStats) : VLLStats :=
  mkStats (txns_submitted s) (txns_committed s) (txns_timeout s) (conflicts_resolved s) (predictive_reorders s +64 1).
Definition bump_conflicts (s : VLLStats) : VLLStats :=
  mkStats (txns_submitted s) (txns_committed s) (txns_timeout s) (conflicts_resolved s +64 1) (predictive_reorders s).
Definition bump_committed (s : VLLStats) : VLLStats :=
  mkStats (txns_submitted s +64 1) (txns_committed s +64 1) (txns_timeout s) (conflicts_resolved s) (predictive_reorders s).
Definition bump_timeout (s : VLLStats) : VLLStats :=
  mkStats (txns_submitted s +64 1) (txns_committed s) (txns_timeout s +64 1) (conflicts_resolved s) (predictive_reorders s).

Definition with_stats (m : VLLManager) (f : VLLStats -> VLLStats) : VLLManager :=
  mkMgr (read_counts m) (write_flags m) (table_size m) (f (stats m)) (next_txn_id m).
Definition with_reads (m : VLLManager) (r : list Z) : VLLManager :=
  mkMgr r (write_flags m) (table_size m) (stats m) (next_txn_id m).
Definition with_writes (m : VLLManager) (w : list Z) : VLLManager :=
  mkMgr (read_counts m) w (table_size m) (stats m) (next_txn_id m).

Definition vll_sort_keys (mgr : VLLManager) (req : VLLRequest) : VLLManager * VLLRequest :=
  (with_stats mgr bump_reorders,
   mkReq (txn_id req) (qsort_keys (keys req)) (status req) (submit_us req) (acquired_us req)).

(** ** One attempt *)
Fixpoint acquire_keys (m : VLLManager) (ks : list VLLKey) (acquired : nat) : VLLManager * bool * nat :=
  match ks with
  | [] => (m, false, acquired)
  | k :: ks =>
      let slot := key_to_slot m (key_hash k) in
      match lock_type k with
      | VLL_LOCK_READ =>
          if negb (aget (write_flags m) slot =? 0)
          then (with_stats m bump_conflicts, true, acquired)
          else acquire_keys (with_reads m (aset (read_counts m) slot (aget (read_counts m) slot +32 1))) ks (S acquired)
      | VLL_LOCK_WRITE =>
          if negb (aget (write_flags m) slot =? 0) || (0 <? aget (read_counts m) slot)
          then (with_stats m bump_conflicts, true, acquired)
          else acquire_keys (with_writes m (aset (write_flags m) slot 1)) ks (S acquired)
      end
  end.

(** The release loop shared by the rollback and [vll_release]. *)
Fixpoint release_keys (m : VLLManager) (ks : list VLLKey) : VLLManager :=
  match ks with
  | [] => m
  | k :: ks =>
      let slot := key_to_slot m (key_hash k) in
      match lock_type k with
      | VLL_LOCK_READ =>
          release_keys (if 0 <? aget (read_counts m) slot
                        then with_reads m (aset (read_counts m) slot (aget (read_counts m) slot - 1))
                        else m) ks
      | VLL_LOCK_WRITE => release_keys (with_writes m (aset (write_flags m) slot 0)) ks
      end
  end.

(** Acquisition scan, and on conflict the rollback, under [table_lock]. *)
Definition vll_attempt (m : VLLManager) (ks : list VLLKey) : VLLManager * bool :=
  let '(m', conflict, n) := acquire_keys m ks 0 in
  if conflict then (release_keys m' (take n ks), false) else (m', true).

(** ** vll_acquire *)
Fixpoint acquire_loop (fuel : nat) (interf : nat -> VLLManager -> VLLManager) (clock : nat -> Z)
    (deadline : Z) (attempt : nat) (m : VLLManager) (req : VLLRequest)
    : option (VLLManager * VLLRequest * VLLStatus) :=
  match fuel with
  | O => None
  | S fuel =>
      let '(m, ok) := vll_attempt (interf attempt m) (keys req) in
      if ok then
        Some (with_stats m bump_committed,
              mkReq (txn_id req) (keys req) VLL_OK (submit_us req) (clock (S attempt)), VLL_OK)
      else if deadline <=? clock (S attempt) then
        Some (with_stats m bump_timeout,
              mkReq (txn_id req) (keys req) VLL_TIMEOUT (submit_us req) (acquired_us req), VLL_TIMEOUT)
      else acquire_loop fuel interf clock deadline (S attempt) m req
  end.

Definition vll_acquire (fuel : nat) (interf : nat -> VLLManager -> VLLManager) (clock : nat -> Z)
    (m : VLLManager) (req : VLLRequest) : option (VLLManager * VLLRequest * VLLStatus) :=
  if num_keys req =? 0 then Some (m, req, VLL_ABORTED)
  else
    let '(m, req) := vll_sort_keys m req in
    let req := mkReq (txn_id req) (keys req) (status req) (clock 0%nat) (acquired_us req) in
    acquire_loop fuel interf clock (submit_us req +64 VLL_TIMEOUT_US) 0 m req.

Definition vll_release (m : VLLManager) (req : VLLRequest) : VLLManager * VLLRequest :=
  if decide (status req = VLL_OK)
  then (release_keys m (keys req),
        mkReq (txn_id req) (keys req) VLL_ABORTED (submit_us req) (acquired_us req))
  else (m, req).

Definition vll_request_create (m : VLLManager) (ks : list VLLKey) : VLLManager * option VLLRequest :=
  if (alen ks =? 0) || (VLL_MAX_KEYS_PER_TXN <? alen ks) then (m, None)
  else (mkMgr (read_counts m) (write_flags m) (table_size m) (stats m) (next_txn_id m +64 1),
        Some (mkReq (next_txn_id m) ks VLL_CONFLICT 0 0)).

(** ** The lock collection of EXEC (src/src/multi.c)

    A queued command is the list of its keys and whether it writes; at most
    [VLL_MAX_KEYS_PER_TXN] keys are collected.  The cast of a [char] to
    [uint64_t] sign-extends it. *)
Definition multi_fnv1a_64 (key : bytes) : Z :=
  fold_left (fun hash c => Z.lxor hash (u64 (swrap 8 c)) *64 1099511628211) key 14695981039346656037.

Record multiCmd := mkCmd { cmd_keys : list bytes; cmd_write : bool }.

Definition queued_keys (cmds : list multiCmd) : list VLLKey :=
  concat (map (fun c => map (fun k => mkKey (multi_fnv1a_64 k) (if cmd_write c then VLL_LOCK_WRITE else VLL_LOCK_READ)) (cmd_keys c)) cmds).
Definition exec_keys (cmds : list multiCmd) : list VLLKey := take (Z.to_nat VLL_MAX_KEYS_PER_TXN) (queued_keys cmds).

(** ** The table as the sum of the held locks *)
Definition on_slot (size slot : Z) (t : VLLLockType) (k : VLLKey) : Prop :=
  lock_type k = t /\ u32 (Z.land (key_hash k) (size - 1)) = slot.

#[export] Instance on_slot_dec size slot t k : Decision (on_slot size slot t k).
Proof. unfold on_slot. apply _. Defined.

Definition n_locks (size slot : Z) (t : VLLLockType) (hs : list VLLKey) : Z :=
  alen (filter (on_slot size slot t) hs).

Record table_inv (m : VLLManager) (hs : list VLLKey) : Prop := {
  inv_size : exists k, 0 <= k <= 31 /\ table_size m = 2 ^ k;
  inv_rlen : alen (read_counts m) = table_size m;
  inv_wlen : alen (write_flags m) = table_size m;
  inv_reads : forall s, 0 <= s < table_size m -> aget (read_counts m) s = n_locks (table_size m) s VLL_LOCK_READ hs;
  inv_writes : forall s, 0 <= s < table_size m -> aget (write_flags m) s = n_locks (table_size m) s VLL_LOCK_WRITE hs;
  inv_excl : forall s, 0 <= s < table_size m ->
    n_locks (table_size m) s VLL_LOCK_WRITE hs = 0 \/
    (n_locks (table_size m) s VLL_LOCK_WRITE hs = 1 /\ n_locks (table_size m) s VLL_LOCK_READ hs = 0);
}.

Lemma n_locks_nonneg size s t hs : 0 <= n_locks size s t hs.
Proof. unfold n_locks, alen. lia. Qed.

Lemma n_locks_le size s t hs : n_locks size s t hs <= alen hs.
Proof. unfold n_locks, alen. pose proof (length_filter (on_slot size s t) hs). lia. Qed.

Lemma n_locks_cons size s t k hs :
  n_locks size s t (k :: hs) = (if decide (on_slot size s t k) then 1 else 0) + n_locks size s t hs.
Proof. unfold n_locks, alen. rewrite filter_cons. case_decide; simpl length; lia. Qed.

Lemma n_locks_app size s t a b : n_locks size s t (a ++ b) = n_locks size s t a + n_locks size s t b.
Proof. unfold n_locks, alen. rewrite filter_app, length_app. lia. Qed.

#[export] Instance n_locks_proper size s t : Proper (Permutation ==> eq) (n_locks size s t).
Proof. intros a b H. unfold n_locks, alen. by rewrite H. Qed.

#[export] Instance table_inv_proper m : Proper (Permutation ==> iff) (table_inv m).
Proof.
  assert (forall a b, a ≡ₚ b -> table_inv m a -> table_inv m b) as H.
  { intros a b Hp [? ? ? Hr Hw He]. split; try done; intros s Hs; rewrite <- ?Hp; auto. }
  intros a b Hp. split; apply H; [done|by symmetry].
Qed.

Lemma slot_range k h : 0 <= k <= 31 -> 0 <= h -> 0 <= u32 (Z.land h (2 ^ k - 1)) < 2 ^ k.
Proof.
  intros Hk Hh. replace (2 ^ k - 1) with (Z.ones k) by (rewrite Z.ones_equiv; lia).
  rewrite Z.land_ones by lia.
  assert (0 <= h mod 2 ^ k < 2 ^ k) by (apply Z.mod_pos_bound; lia).
  assert (2 ^ k <= 2 ^ 31) by (apply Z.pow_le_mono_r; lia).
  rewrite wrap_small; [done|]. mach.
Qed.

Lemma key_to_slot_range m hs h : table_inv m hs -> 0 <= h -> 0 <= key_to_slot m h < table_size m.
Proof.
  intros [(k & Hk & Hs) _ _ _ _ _] Hh. unfold key_to_slot. rewrite Hs. by apply slot_range.
Qed.

Lemma on_slot_key m k t : on_slot (table_size m) (key_to_slot m (key_hash k)) t k <-> lock_type k = t.
Proof. unfold on_slot, key_to_slot. tauto. Qed.

Lemma on_slot_other m k t s : s <> key_to_slot m (key_hash k) -> ~ on_slot (table_size m) s t k.
Proof. unfold on_slot, key_to_slot. intros H [_ H']. congruence. Qed.

(** [n_locks] of a key added on its own slot and elsewhere. *)
Lemma n_locks_here m k t hs :
  n_locks (table_size m) (key_to_slot m (key_hash k)) t (k :: hs) =
  (if decide (lock_type k = t) then 1 else 0) + n_locks (table_size m) (key_to_slot m (key_hash k)) t hs.
Proof.
  rewrite n_locks_cons. f_equal. pose proof (on_slot_key m k t). repeat case_decide; tauto || done.
Qed.

Lemma n_locks_there m k t s hs : s <> key_to_slot m (key_hash k) ->
  n_locks (table_size m) s t (k :: hs) = n_locks (table_size m) s t hs.
Proof. intros H. rewrite n_locks_cons. case_decide as Hd; [by apply on_slot_other in Hd|lia]. Qed.

Ltac slot_cases m k s :=
  destruct (Z.eq_dec s (key_to_slot m (key_hash k))) as [->|];
  [rewrite ?n_locks_here | rewrite ?n_locks_there by done].

(** ** Each lock and unlock of the code keeps the table the sum of the held locks *)
Lemma lock_read_inv m hs k : table_inv m hs -> lock_type k = VLL_LOCK_READ -> 0 <= key_hash k ->
  aget (write_flags m) (key_to_slot m (key_hash k)) = 0 -> alen hs + 1 < 2 ^ 32 ->
  table_inv (with_reads m (aset (read_counts m) (key_to_slot m (key_hash k))
    (aget (read_counts m) (key_to_slot m (key_hash k)) +32 1))) (k :: hs).
Proof.
  intros Hinv Ht Hh Hw Hb. pose proof (key_to_slot_range m hs _ Hinv Hh) as Hslot.
  destruct Hinv as [Isz Irl Iwl Ir Iw Ie]. split; simpl; try done.
  - by rewrite alen_aset.
  - intros s Hs. pose proof (n_locks_le (table_size m) s VLL_LOCK_READ hs).
    pose proof (n_locks_nonneg (table_size m) s VLL_LOCK_READ hs). slot_cases m k s.
    + rewrite aget_aset_eq, Ir, Ht by lia. rewrite decide_True by done.
      rewrite wrap_small by mach. lia.
    + rewrite aget_aset_ne by lia. by apply Ir.
  - intros s Hs. slot_cases m k s; [|by apply Iw]. rewrite Ht. simpl. rewrite Iw by done. lia.
  - intros s Hs. specialize (Ie s Hs). slot_cases m k s; [|done]. rewrite Ht. simpl.
    left. rewrite Iw in Hw by done. lia.
Qed.

Lemma lock_write_inv m hs k : table_inv m hs -> lock_type k = VLL_LOCK_WRITE -> 0 <= key_hash k ->
  aget (write_flags m) (key_to_slot m (key_hash k)) = 0 ->
  aget (read_counts m) (key_to_slot m (key_hash k)) <= 0 ->
  table_inv (with_writes m (aset (write_flags m) (key_to_slot m (key_hash k)) 1)) (k :: hs).
Proof.
  intros Hinv Ht Hh Hw Hr. pose proof (key_to_slot_range m hs _ Hinv Hh) as Hslot.
  destruct Hinv as [Isz Irl Iwl Ir Iw Ie]. rewrite Iw in Hw by done. rewrite Ir in Hr by done.
  split; simpl; try done.
  - by rewrite alen_aset.
  - intros s Hs. slot_cases m k s; [|by apply Ir]. rewrite Ht. simpl. rewrite Ir by done. lia.
  - intros s Hs. slot_cases m k s.
    + rewrite aget_aset_eq, Ht by lia. simpl. lia.
    + rewrite aget_aset_ne by lia. by apply Iw.
  - intros s Hs. specialize (Ie s Hs). slot_cases m k s; [|done]. rewrite Ht. simpl.
    right. pose proof (n_locks_nonneg (table_size m) (key_to_slot m (key_hash k)) VLL_LOCK_READ hs). lia.
Qed.

Lemma unlock_read_inv m hs k : table_inv m (k :: hs) -> lock_type k = VLL_LOCK_READ -> 0 <= key_hash k ->
  0 < aget (read_counts m) (key_to_slot m (key_hash k)) /\
  table_inv (with_reads m (aset (read_counts m) (key_to_slot m (key_hash k))
    (aget (read_counts m) (key_to_slot m (key_hash k)) - 1))) hs.
Proof.
  intros Hinv Ht Hh. pose proof (key_to_slot_range m _ _ Hinv Hh) as Hslot.
  destruct Hinv as [Isz Irl Iwl Ir Iw Ie].
  pose proof (Ir _ Hslot) as Hr. rewrite n_locks_here, Ht, decide_True in Hr by done.
  pose proof (n_locks_nonneg (table_size m) (key_to_slot m (key_hash k)) VLL_LOCK_READ hs).
  split; [lia|]. split; simpl; try done.
  - by rewrite alen_aset.
  - intros s Hs. specialize (Ir s Hs). revert Ir. slot_cases m k s; intros Ir.
    + rewrite aget_aset_eq by lia. lia.
    + rewrite aget_aset_ne by lia. done.
  - intros s Hs. specialize (Iw s Hs). revert Iw. slot_cases m k s; [|done]. rewrite Ht. simpl. lia.
  - intros s Hs. specialize (Ie s Hs). revert Ie. slot_cases m k s; [|done]. rewrite Ht. simpl. lia.
Qed.

Lemma unlock_write_inv m hs k : table_inv m (k :: hs) -> lock_type k = VLL_LOCK_WRITE -> 0 <= key_hash k ->
  table_inv (with_writes m (aset (write_flags m) (key_to_slot m (key_hash k)) 0)) hs.
Proof.
  intros Hinv Ht Hh. pose proof (key_to_slot_range m _ _ Hinv Hh) as Hslot.
  destruct Hinv as [Isz Irl Iwl Ir Iw Ie].
  pose proof (Ie _ Hslot) as He. rewrite !n_locks_here, Ht in He. simpl in He.
  pose proof (n_locks_nonneg (table_size m) (key_to_slot m (key_hash k)) VLL_LOCK_WRITE hs).
  split; simpl; try done.
  - by rewrite alen_aset.
  - intros s Hs. specialize (Ir s Hs). revert Ir. slot_cases m k s; [|done]. rewrite Ht. simpl. lia.
  - intros s Hs. specialize (Iw s Hs). revert Iw. slot_cases m k s; intros Iw.
    + rewrite aget_aset_eq by lia. lia.
    + rewrite aget_aset_ne by lia. done.
  - intros s Hs. specialize (Ie s Hs). revert Ie. slot_cases m k s; [|done]. rewrite Ht. simpl. lia.
Qed.

Lemma with_stats_inv m f hs : table_inv m hs -> table_inv (with_stats m f) hs.
Proof. by intros [? ? ? ? ? ?]. Qed.

Definition keys_ok (ks : list VLLKey) : Prop := Forall (fun k => 0 <= key_hash k) ks.

Lemma release_keys_inv m ks hs : table_inv m (ks ++ hs) -> keys_ok ks -> table_inv (release_keys m ks) hs.
Proof.
  revert m. induction ks as [|k ks IH]; intros m Hinv Hk; [done|].
  apply Forall_cons in Hk as [Hk Hks]. simpl. destruct (lock_type k) eqn:Ht; apply IH; try done.
  - destruct (unlock_read_inv m (ks ++ hs) k Hinv Ht Hk) as [Hpos Hi].
    destruct (Z.ltb_spec 0 (aget (read_counts m) (key_to_slot m (key_hash k)))); [done|lia].
  - by apply unlock_write_inv.
Qed.

(** The scan either takes every lock or stops at the first conflict with the
    locks of a prefix. *)
Lemma acquire_keys_inv m ks hs n m' c n' : table_inv m hs -> keys_ok ks -> alen ks + alen hs < 2 ^ 32 ->
  acquire_keys m ks n = (m', c, n') ->
  exists j, n' = (n + j)%nat /\ (j <= length ks)%nat /\ (c = false -> j = length ks) /\
    table_inv m' (take j ks ++ hs).
Proof.
  revert m hs n. induction ks as [|k ks IH]; intros m hs n Hinv Hk Hb Ha.
  { simpl in Ha. simplify_eq. exists 0%nat. split_and!; [lia|done|done|done]. }
  apply Forall_cons in Hk as [Hk Hks].
  assert (Hb' : alen ks + alen (k :: hs) < 2 ^ 32) by (unfold alen in *; simpl length in *; lia).
  assert (Hb1 : alen hs + 1 < 2 ^ 32) by (unfold alen in *; simpl length in *; lia).
  assert (Hstop : forall f, (with_stats m f, true, n) = (m', c, n') ->
    exists j, n' = (n + j)%nat /\ (j <= length (k :: ks))%nat /\ (c = false -> j = length (k :: ks)) /\
      table_inv m' (take j (k :: ks) ++ hs)).
  { intros f Hs. simplify_eq. exists 0%nat. split_and!; [lia|lia|done|by apply with_stats_inv]. }
  assert (Hgo : forall m1, table_inv m1 (k :: hs) -> acquire_keys m1 ks (S n) = (m', c, n') ->
    exists j, n' = (n + j)%nat /\ (j <= length (k :: ks))%nat /\ (c = false -> j = length (k :: ks)) /\
      table_inv m' (take j (k :: ks) ++ hs)).
  { intros m1 H1 H2. destruct (IH m1 (k :: hs) (S n) H1 Hks Hb' H2) as (j & -> & Hj & Hc & Hi).
    exists (S j). simpl. split_and!; [lia|lia|intros; f_equal; auto|].
    by rewrite Permutation_middle. }
  simpl in Ha. destruct (lock_type k) eqn:Ht.
  - case_if_in Ha; [by apply Hstop in Ha|]. eapply Hgo; [|done]. by apply lock_read_inv.
  - case_if_in Ha; [by apply Hstop in Ha|]. eapply Hgo; [|done]. apply lock_write_inv; try done; lia.
Qed.

Lemma acquire_keys_size m ks n m' c n' : acquire_keys m ks n = (m', c, n') -> table_size m' = table_size m.
Proof.
  revert m n. induction ks as [|k ks IH]; simpl; intros m n H; [by simplify_eq|].
  destruct (lock_type k); case_if_in H; (by simplify_eq) || (by apply IH in H).
Qed.

Lemma release_keys_size m ks : table_size (release_keys m ks) = table_size m.
Proof.
  revert m. induction ks as [|k ks IH]; simpl; intros m; [done|].
  destruct (lock_type k); rewrite IH; [by case_if|done].
Qed.

(** The held locks determine the table. *)
Lemma table_inv_unique m m' hs : table_inv m hs -> table_inv m' hs -> table_size m' = table_size m ->
  read_counts m' = read_counts m /\ write_flags m' = write_flags m.
Proof.
  intros [_ Rl Wl R W _] [_ Rl' Wl' R' W' _] Hs. rewrite Hs in *.
  split; apply arr_ext; try lia; intros s Hs'; rewrite ?Rl', ?Wl' in Hs'.
  - by rewrite R, R'.
  - by rewrite W, W'.
Qed.

Lemma vll_attempt_spec m ks hs m' ok : table_inv m hs -> keys_ok ks -> alen ks + alen hs < 2 ^ 32 ->
  vll_attempt m ks = (m', ok) ->
  if ok then table_inv m' (ks ++ hs)
  else table_inv m' hs /\ read_counts m' = read_counts m /\ write_flags m' = write_flags m.
Proof.
  intros Hinv Hk Hb Ha. unfold vll_attempt in Ha.
  destruct (acquire_keys m ks 0) as [[m1 c] n] eqn:E.
  destruct (acquire_keys_inv m ks hs 0 m1 c n Hinv Hk Hb E) as (j & -> & Hj & Hc & Hi).
  pose proof (acquire_keys_size _ _ _ _ _ _ E) as Hs1.
  destruct c; simplify_eq.
  - simpl. assert (table_inv (release_keys m1 (take j ks)) hs) as Hr.
    { apply release_keys_inv; [done|]. by apply Forall_take. }
    split; [done|]. apply (table_inv_unique m _ hs); [done|done|]. by rewrite release_keys_size.
  - rewrite (Hc eq_refl), firstn_all in Hi. done.
Qed.

(** Locks that can be held together. *)
Definition compatible (size : Z) (hs : list VLLKey) : Prop :=
  forall s, 0 <= s < size ->
    n_locks size s VLL_LOCK_WRITE hs = 0 \/
    (n_locks size s VLL_LOCK_WRITE hs = 1 /\ n_locks size s VLL_LOCK_READ hs = 0).

Lemma acquire_keys_complete m ks hs n : table_inv m hs -> keys_ok ks -> alen ks + alen hs < 2 ^ 32 ->
  compatible (table_size m) (ks ++ hs) -> exists m', acquire_keys m ks n = (m', false, (n + length ks)%nat).
Proof.
  revert m hs n. induction ks as [|k ks IH]; intros m hs n Hinv Hk Hb Hc.
  { simpl. eexists. by rewrite Nat.add_0_r. }
  apply Forall_cons in Hk as [Hk Hks]. pose proof (key_to_slot_range m hs _ Hinv Hk) as Hslot.
  assert (Hb' : alen ks + alen (k :: hs) < 2 ^ 32) by (unfold alen in *; simpl length in *; lia).
  assert (Hb1 : alen hs + 1 < 2 ^ 32) by (unfold alen in *; simpl length in *; lia).
  assert (Hc' : compatible (table_size m) (ks ++ k :: hs)).
  { intros s Hs. rewrite <- Permutation_middle. by apply Hc. }
  pose proof (Hc _ Hslot) as Hhere. simpl app in Hhere. rewrite !n_locks_here, !n_locks_app in Hhere.
  pose proof (n_locks_nonneg (table_size m) (key_to_slot m (key_hash k)) VLL_LOCK_WRITE ks).
  pose proof (n_locks_nonneg (table_size m) (key_to_slot m (key_hash k)) VLL_LOCK_WRITE hs).
  pose proof (n_locks_nonneg (table_size m) (key_to_slot m (key_hash k)) VLL_LOCK_READ ks).
  pose proof (n_locks_nonneg (table_size m) (key_to_slot m (key_hash k)) VLL_LOCK_READ hs).
  pose proof (inv_reads _ _ Hinv _ Hslot) as Hr. pose proof (inv_writes _ _ Hinv _ Hslot) as Hw.
  simpl. destruct (lock_type k) eqn:Ht; simpl in Hhere.
  - destruct (Z.eqb_spec (aget (write_flags m) (key_to_slot m (key_hash k))) 0); simpl; [|lia].
    destruct (IH _ (k :: hs) (S n) (lock_read_inv m hs k Hinv Ht Hk ltac:(done) Hb1) Hks Hb' Hc') as [m' Hm].
    exists m'. rewrite Hm. f_equal. simpl. lia.
  - destruct (Z.eqb_spec (aget (write_flags m) (key_to_slot m (key_hash k))) 0); simpl; [|lia].
    destruct (Z.ltb_spec 0 (aget (read_counts m) (key_to_slot m (key_hash k)))); simpl; [lia|].
    destruct (IH _ (k :: hs) (S n) (lock_write_inv m hs k Hinv Ht Hk ltac:(done) ltac:(done)) Hks Hb' Hc') as [m' Hm].
    exists m'. rewrite Hm. f_equal. simpl. lia.
Qed.

(** ** Concurrent transactions as a step relation

    The state is the manager and the requests that hold their locks.  A step
    is one critical section of [table_lock] (an attempt that succeeds or
    fails, a release) or an update of counters outside it. *)
Definition held_keys (held : list VLLRequest) : list VLLKey := concat (keys <$> held).

Inductive vll_step : VLLManager * list VLLRequest -> VLLManager * list VLLRequest -> Prop :=
| step_acquire m m' held req : keys_ok (keys req) ->
    alen (keys req) + alen (held_keys held) < 2 ^ 32 -> status req = VLL_OK ->
    vll_attempt m (keys req) = (m', true) -> vll_step (m, held) (m', req :: held)
| step_conflict m m' held ks : keys_ok ks -> alen ks + alen (held_keys held) < 2 ^ 32 ->
    vll_attempt m ks = (m', false) -> vll_step (m, held) (m', held)
| step_release m held1 req held2 :
    vll_step (m, held1 ++ req :: held2) ((vll_release m req).1, held1 ++ held2)
| step_stats m f held : vll_step (m, held) (with_stats m f, held).

Definition vll_reachable (size : Z) : VLLManager * list VLLRequest -> Prop :=
  rtc vll_step (vll_create size, []).

Definition vll_inv (st : VLLManager * list VLLRequest) : Prop :=
  table_inv st.1 (held_keys st.2) /\ Forall (fun r => status r = VLL_OK /\ keys_ok (keys r)) st.2.

Lemma held_keys_app a b : held_keys (a ++ b) = held_keys a ++ held_keys b.
Proof. unfold held_keys. by rewrite fmap_app, concat_app. Qed.

Lemma vll_step_inv st st' : vll_step st st' -> vll_inv st -> vll_inv st'.
Proof.
  intros Hs [Hi Hf]. destruct Hs as [m m' held req Hk Hb Hok Ha|m m' held ks Hk Hb Ha|m h1 req h2|m f held];
    unfold vll_inv in *; simpl in *.
  - pose proof (vll_attempt_spec m _ _ _ _ Hi Hk Hb Ha) as Hsp. simpl in Hsp.
    split; [done|]. by apply Forall_cons.
  - pose proof (vll_attempt_spec m _ _ _ _ Hi Hk Hb Ha) as [Hsp _]. done.
  - apply Forall_app in Hf as [Hf1 [[Hok Hk] Hf2]%Forall_cons].
    split; [|by apply Forall_app]. unfold vll_release. rewrite decide_True by done. simpl.
    apply release_keys_inv; [|done]. revert Hi. rewrite !held_keys_app.
    change (held_keys (req :: h2)) with (keys req ++ held_keys h2).
    by rewrite !app_assoc, (Permutation_app_comm (keys req)).
  - split; [by apply with_stats_inv|done].
Qed.

Lemma grow_size_pow fuel k target : 0 <= k -> k + Z.of_nat fuel <= 32 -> target <= 2 ^ 31 ->
  exists k', k <= k' <= 31 + (if decide (k <= 31) then 0 else 1) /\ grow_size fuel (2 ^ k) target = 2 ^ k'.
Proof.
  revert k. induction fuel as [|fuel IH]; intros k Hk Hf Ht; simpl.
  { exists k. split; [|done]. case_decide; lia. }
  destruct (Z.ltb_spec (2 ^ k) target) as [Hlt|Hge].
  - assert (k < 31) as Hk31.
    { destruct (Z.lt_ge_cases k 31) as [|Hg]; [done|].
      assert (2 ^ 31 <= 2 ^ k) by (apply Z.pow_le_mono_r; lia). lia. }
    rewrite Z.shiftl_mul_pow2 by lia. rewrite <- Z.pow_add_r by lia.
    assert (2 ^ (k + 1) <= 2 ^ 31) by (apply Z.pow_le_mono_r; lia).
    rewrite wrap_small by (split; [lia|mach]).
    destruct (IH (k + 1)) as (k' & Hk' & ->); [lia|lia|done|].
    exists k'. split; [|done]. repeat case_decide; lia.
  - exists k. split; [|done]. case_decide; lia.
Qed.

Lemma vll_create_inv size : size <= 2 ^ 31 -> vll_inv (vll_create size, []).
Proof.
  intros Hsz. destruct (grow_size_pow 22 10 size) as (k & Hk & Hg); [lia|lia|done|].
  change (2 ^ 10) with 1024 in Hg. rewrite decide_True in Hk by lia.
  unfold vll_inv, vll_create. cbn [fst snd]. rewrite Hg.
  assert (0 < 2 ^ k) by lia.
  split; [|constructor]. split; cbn [table_size read_counts write_flags].
  - exists k. split; [lia|done].
  - apply alen_calloc. lia.
  - apply alen_calloc. lia.
  - intros s Hs. by rewrite aget_calloc.
  - intros s Hs. by rewrite aget_calloc.
  - intros s Hs. by left.
Qed.

Lemma vll_reachable_inv size st : size <= 2 ^ 31 -> vll_reachable size st -> vll_inv st.
Proof.
  intros Hsz Hr. pose proof (vll_create_inv size Hsz) as H0. revert H0. unfold vll_reachable in Hr.
  induction Hr as [|x y z Hs Hr IH]; [done|]. intros Hx. apply IH. by eapply vll_step_inv.
Qed.

(** ** Counting the locks of two holders *)
Lemma n_locks_pos size s t k hs : on_slot size s t k -> k ∈ hs -> 1 <= n_locks size s t hs.
Proof.
  intros Ho Hin. unfold n_locks, alen.
  assert (k ∈ filter (on_slot size s t) hs) as H by (by apply list_elem_of_filter).
  destruct (filter (on_slot size s t) hs); [by apply not_elem_of_nil in H|simpl length; lia].
Qed.

Lemma n_locks_two size s t held i j a b : held !! i = Some a -> held !! j = Some b -> i <> j ->
  n_locks size s t (keys a) + n_locks size s t (keys b) <= n_locks size s t (held_keys held).
Proof.
  assert (Hone : forall h i (a : VLLRequest), h !! i = Some a -> n_locks size s t (keys a) <= n_locks size s t (held_keys h)).
  { intros h. induction h as [|x h IH]; intros i' a' Hi; [done|].
    change (held_keys (x :: h)) with (keys x ++ held_keys h). rewrite n_locks_app.
    pose proof (n_locks_nonneg size s t (keys x)). pose proof (n_locks_nonneg size s t (held_keys h)).
    destruct i'; simplify_eq/=; [lia|]. specialize (IH _ _ Hi). lia. }
  revert i j. induction held as [|x h IH]; intros i j Hi Hj Hne; [done|].
  change (held_keys (x :: h)) with (keys x ++ held_keys h). rewrite n_locks_app.
  pose proof (n_locks_nonneg size s t (keys x)).
  destruct i, j; simplify_eq/=.
  - specialize (Hone _ _ _ Hj). lia.
  - specialize (Hone _ _ _ Hi). lia.
  - assert (i <> j) as Hne' by congruence. specialize (IH _ _ Hi Hj Hne'). lia.
Qed.

(** ** The sort *)
Lemma insert_key_perm k l : insert_key k l ≡ₚ k :: l.
Proof.
  induction l as [|x l IH]; simpl; [done|]. case_if; [done|]. rewrite IH. apply Permutation_swap.
Qed.

Lemma qsort_keys_perm l : qsort_keys l ≡ₚ l.
Proof. induction l as [|k l IH]; simpl; [done|]. by rewrite insert_key_perm, IH. Qed.

Lemma keys_ok_perm a b : a ≡ₚ b -> keys_ok a -> keys_ok b.
Proof. unfold keys_ok. by intros ->. Qed.

(** ** Results of the acquisition loop *)
Lemma acquire_loop_returns interf clock deadline m req k attempt :
  deadline <= clock (S (attempt + k)) ->
  exists r, acquire_loop (S k) interf clock deadline attempt m req = Some r.
Proof.
  revert m attempt. induction k as [|k IH]; intros m attempt Hc.
  - simpl. destruct (vll_attempt _ _) as [m' []]; [by eexists|].
    rewrite Nat.add_0_r in Hc. destruct (Z.leb_spec deadline (clock (S attempt))); [by eexists|lia].
  - remember (S k) as k' eqn:Ek. simpl.
    destruct (vll_attempt _ _) as [m' []]; [by eexists|].
    destruct (deadline <=? clock (S attempt)); [by eexists|]. subst k'. apply IH.
    by replace (S attempt + k)%nat with (attempt + S k)%nat by lia.
Qed.

(** ** Properties *)

(** C8. Mutual exclusion: in every reachable state of the lock manager, two
    different transactions that hold locks on the same key both hold read
    locks. *)
Theorem vll_mutual_exclusion size m held i j a b ka kb :
  size <= 2 ^ 31 -> vll_reachable size (m, held) ->
  held !! i = Some a -> held !! j = Some b -> i <> j ->
  ka ∈ keys a -> kb ∈ keys b -> key_hash ka = key_hash kb ->
  lock_type ka = VLL_LOCK_READ /\ lock_type kb = VLL_LOCK_READ.
Proof.
  intros Hsz Hr Hi Hj Hne Hka Hkb Hh. destruct (vll_reachable_inv _ _ Hsz Hr) as [Hinv Hf]. simpl in *.
  set (s := key_to_slot m (key_hash ka)).
  assert (Hs : 0 <= s < table_size m).
  { eapply key_to_slot_range; [done|]. destruct (proj1 (Forall_lookup _ _) Hf _ _ Hi) as [_ Hk].
    by eapply Forall_forall in Hk. }
  assert (Oa : forall t, lock_type ka = t -> 1 <= n_locks (table_size m) s t (keys a)).
  { intros t Ht. eapply n_locks_pos; [|done]. by split. }
  assert (Ob : forall t, lock_type kb = t -> 1 <= n_locks (table_size m) s t (keys b)).
  { intros t Ht. eapply n_locks_pos; [|done]. split; [done|]. unfold s, key_to_slot. by rewrite Hh. }
  pose proof (n_locks_two (table_size m) s VLL_LOCK_WRITE held i j a b Hi Hj Hne).
  pose proof (n_locks_two (table_size m) s VLL_LOCK_READ held i j a b Hi Hj Hne).
  pose proof (n_locks_nonneg (table_size m) s VLL_LOCK_WRITE (keys a)).
  pose proof (n_locks_nonneg (table_size m) s VLL_LOCK_WRITE (keys b)).
  pose proof (n_locks_nonneg (table_size m) s VLL_LOCK_READ (keys a)).
  pose proof (n_locks_nonneg (table_size m) s VLL_LOCK_READ (keys b)).
  pose proof (inv_excl _ _ Hinv s Hs).
  destruct (lock_type ka) eqn:Ta, (lock_type kb) eqn:Tb; try done; exfalso;
    specialize (Oa _ eq_refl); specialize (Ob _ eq_refl); lia.
Qed.

(** An attempt succeeds exactly when the requested locks are compatible
    with each other and with the held ones; a failed attempt rolls back and
    leaves the lock table exactly as it was. *)
Theorem vll_attempt_exact m ks hs m' ok :
  table_inv m hs -> keys_ok ks -> alen ks + alen hs < 2 ^ 32 -> vll_attempt m ks = (m', ok) ->
  (ok = true <-> compatible (table_size m) (ks ++ hs)) /\
  (ok = true -> table_inv m' (ks ++ hs)) /\
  (ok = false -> read_counts m' = read_counts m /\ write_flags m' = write_flags m).
Proof.
  intros Hinv Hk Hb Ha. pose proof (vll_attempt_spec m ks hs m' ok Hinv Hk Hb Ha) as Hsp.
  assert (Hsize : ok = true -> table_size m' = table_size m).
  { intros ->. unfold vll_attempt in Ha. destruct (acquire_keys m ks 0) as [[m1 c] n] eqn:E.
    destruct c; simplify_eq. by eapply acquire_keys_size. }
  split_and!.
  - split.
    + intros ->. specialize (Hsize eq_refl). rewrite <- Hsize. exact (inv_excl _ _ Hsp).
    + intros Hc. destruct (acquire_keys_complete m ks hs 0 Hinv Hk Hb Hc) as [m1 E].
      unfold vll_attempt in Ha. rewrite E in Ha. by simplify_eq.
  - by intros ->.
  - intros ->. apply Hsp.
Qed.

(** C39. Termination: when the clock reaches the deadline (10 ms after the
    submission) at some attempt, [vll_acquire] has returned by then, whatever
    the other transactions do in between. *)
Theorem vll_acquire_returns interf clock m req k :
  clock 0%nat +64 VLL_TIMEOUT_US <= clock (S k) ->
  exists m' req' st, vll_acquire (S k) interf clock m req = Some (m', req', st).
Proof.
  intros Hc. unfold vll_acquire. destruct (num_keys req =? 0); [by eexists _, _, _|].
  unfold vll_sort_keys. cbn [keys submit_us txn_id status acquired_us].
  match goal with |- context [acquire_loop _ _ _ ?d _ ?m0 ?r0] =>
    destruct (acquire_loop_returns interf clock d m0 r0 k 0 Hc) as [[[m' r'] st] Hl] end.
  rewrite Hl. by eexists _, _, _.
Qed.

(** A request that locks one key twice, once for writing, conflicts with itself. *)
Lemma self_conflict k ks hs i j ki kj : 0 <= k <= 31 -> keys_ok ks ->
  ks !! i = Some ki -> ks !! j = Some kj -> i <> j -> key_hash ki = key_hash kj ->
  lock_type ki = VLL_LOCK_WRITE -> ~ compatible (2 ^ k) (ks ++ hs).
Proof.
  intros Hk Hks Hi Hj Hne Hh Hw Hc.
  set (r x := mkReq 0 [x] VLL_OK 0 0).
  assert (Hflat : held_keys (r <$> ks) = ks).
  { clear. induction ks as [|x l IH]; [done|]. unfold held_keys in *. simpl. by f_equal. }
  set (s := u32 (Z.land (key_hash ki) (2 ^ k - 1))).
  assert (Hs : 0 <= s < 2 ^ k).
  { apply slot_range; [done|]. by apply (proj1 (Forall_lookup _ _) Hks _ _ Hi). }
  assert (Hcount : forall t, n_locks (2 ^ k) s t [ki] + n_locks (2 ^ k) s t [kj] <= n_locks (2 ^ k) s t (ks ++ hs)).
  { intros t. rewrite n_locks_app. pose proof (n_locks_nonneg (2 ^ k) s t hs).
    pose proof (n_locks_two (2 ^ k) s t (r <$> ks) i j (r ki) (r kj)) as H2.
    rewrite !list_lookup_fmap, Hi, Hj, Hflat in H2. specialize (H2 eq_refl eq_refl Hne). simpl in H2. lia. }
  pose proof (Hcount VLL_LOCK_WRITE) as HW. pose proof (Hcount VLL_LOCK_READ) as HR.
  rewrite !n_locks_cons in HW, HR. unfold n_locks at 1 2 in HW. unfold n_locks at 1 2 in HR. simpl in HW, HR.
  rewrite (decide_True (P := on_slot (2 ^ k) s VLL_LOCK_WRITE ki)) in HW by (by split).
  specialize (Hc s Hs). destruct (lock_type kj) eqn:Hj'.
  - rewrite (decide_True (P := on_slot (2 ^ k) s VLL_LOCK_READ kj)) in HR
      by (split; [done|]; unfold s; by rewrite Hh).
    repeat case_decide; unfold alen in *; simpl in *; lia.
  - rewrite (decide_True (P := on_slot (2 ^ k) s VLL_LOCK_WRITE kj)) in HW
      by (split; [done|]; unfold s; by rewrite Hh).
    unfold alen in *; simpl in *; lia.
Qed.

Lemma self_conflict_attempt m hs ks i j ki kj m' ok : table_inv m hs -> keys_ok ks -> alen ks + alen hs < 2 ^ 32 ->
  ks !! i = Some ki -> ks !! j = Some kj -> i <> j -> key_hash ki = key_hash kj ->
  lock_type ki = VLL_LOCK_WRITE -> vll_attempt m ks = (m', ok) -> ok = false.
Proof.
  intros Hinv Hk Hb Hi Hj Hne Hh Hw Ha. destruct ok; [|done]. exfalso.
  pose proof (vll_attempt_spec m ks hs m' true Hinv Hk Hb Ha) as Hsp. simpl in Hsp.
  destruct (inv_size _ _ Hsp) as (k & Hk31 & Hsz).
  apply (self_conflict k ks hs i j ki kj Hk31 Hk Hi Hj Hne Hh Hw).
  intros s Hs. rewrite <- Hsz in *. by apply (inv_excl _ _ Hsp).
Qed.

(** *** Keys of EXEC *)
Lemma multi_fnv1a_64_range key : in_u 64 (multi_fnv1a_64 key).
Proof.
  unfold multi_fnv1a_64. assert (in_u 64 14695981039346656037) as H0 by (vm_compute; split; congruence).
  revert H0. generalize 14695981039346656037 as h. induction key as [|c key IH]; simpl; intros h Hh; [done|].
  apply IH, wrap_range. lia.
Qed.

Lemma exec_keys_ok cmds : keys_ok (exec_keys cmds).
Proof.
  apply Forall_take, Forall_concat, Forall_map, Forall_true. intros c. apply Forall_map, Forall_true.
  intros k. apply multi_fnv1a_64_range.
Qed.

Lemma exec_keys_len cmds : alen (exec_keys cmds) <= VLL_MAX_KEYS_PER_TXN.
Proof. unfold alen, exec_keys, VLL_MAX_KEYS_PER_TXN. rewrite length_take. lia. Qed.

(** What other transactions may do between two attempts: any change that
    leaves the table the sum of fewer than 2^31 held locks. *)
Definition well_locked (m : VLLManager) : Prop := exists hs, table_inv m hs /\ alen hs < 2 ^ 31.

Lemma self_conflict_loop interf clock deadline fuel attempt m req i j ki kj r :
  (forall n m, well_locked m -> well_locked (interf n m)) -> well_locked m ->
  keys_ok (keys req) -> alen (keys req) <= VLL_MAX_KEYS_PER_TXN ->
  keys req !! i = Some ki -> keys req !! j = Some kj -> i <> j -> key_hash ki = key_hash kj ->
  lock_type ki = VLL_LOCK_WRITE ->
  acquire_loop fuel interf clock deadline attempt m req = Some r -> r.2 = VLL_TIMEOUT.
Proof.
  intros Hint Hm Hk Hlen Hi Hj Hne Hh Hw. revert m attempt Hm.
  induction fuel as [|fuel IH]; intros m attempt Hm Hl; [done|]. simpl in Hl.
  destruct (Hint attempt m Hm) as (hs & Hinv & Hb).
  assert (Hsum : alen (keys req) + alen hs < 2 ^ 32) by (unfold VLL_MAX_KEYS_PER_TXN in *; mach).
  destruct (vll_attempt (interf attempt m) (keys req)) as [m1 ok] eqn:E.
  pose proof (self_conflict_attempt _ hs _ i j ki kj m1 ok Hinv Hk Hsum Hi Hj Hne Hh Hw E) as ->.
  pose proof (vll_attempt_spec _ _ hs _ _ Hinv Hk Hsum E) as [Hinv' _].
  case_if_in Hl; [by simplify_eq|]. apply (IH m1 (S attempt)); [by exists hs|done].
Qed.

(** The permutation of the sort keeps two distinct occurrences distinct. *)
Lemma perm_two {A} (a b : list A) i j x y : a ≡ₚ b -> i <> j -> a !! i = Some x -> a !! j = Some y ->
  exists i' j', i' <> j' /\ b !! i' = Some x /\ b !! j' = Some y.
Proof.
  intros Hp Hne Hi Hj. apply Permutation_inj in Hp as (_ & f & Hf & Hl).
  exists (f i), (f j). rewrite <- !Hl. split; [|done]. intros H. by apply Hf in H.
Qed.

(** *** The sort orders the keys *)
Definition key_le (a b : VLLKey) : Prop := cmp_key_hash a b <= 0.

Lemma insert_key_sorted k l : Sorted key_le l -> Sorted key_le (insert_key k l).
Proof.
  induction 1 as [|x l Hs IH Hr]; simpl; [by repeat constructor|].
  destruct (Z.leb_spec (cmp_key_hash k x) 0) as [|Hgt]; [by repeat constructor|].
  assert (key_le x k) as Hxk.
  { unfold key_le, cmp_key_hash, lock_rank in *. repeat case_if; try lia;
      repeat case_if_in Hgt; try lia; destruct (lock_type k), (lock_type x); lia. }
  constructor; [done|]. destruct l as [|y l]; simpl; [by constructor|].
  inversion Hr; subst. case_if; by constructor.
Qed.

Lemma qsort_keys_sorted l : Sorted key_le (qsort_keys l).
Proof. induction l as [|k l IH]; simpl; [constructor|]. by apply insert_key_sorted. Qed.

Lemma vll_mutual_exclusion_witness :
  let r1 := mkReq 1 [mkKey 7 VLL_LOCK_READ] VLL_OK 0 0 in
  let r2 := mkReq 2 [mkKey 7 VLL_LOCK_READ; mkKey 9 VLL_LOCK_WRITE] VLL_OK 0 0 in
  exists m, vll_reachable 16 (m, [r2; r1]) /\
    lock_type (mkKey 7 VLL_LOCK_READ) = VLL_LOCK_READ /\ lock_type (mkKey 7 VLL_LOCK_READ) = VLL_LOCK_READ.
Proof.
  intros r1 r2.
  set (m1 := (vll_attempt (vll_create 16) (keys r1)).1).
  set (m2 := (vll_attempt m1 (keys r2)).1). exists m2.
  assert (Hr : vll_reachable 16 (m2, [r2; r1])).
  { eapply rtc_l; [apply (step_acquire _ m1 [] r1)|].
    1-4: vm_compute; repeat constructor; congruence.
    eapply rtc_l; [apply (step_acquire _ m2 [r1] r2)|reflexivity].
    all: vm_compute; repeat constructor; congruence. }
  split; [exact Hr|].
  apply (vll_mutual_exclusion 16 m2 [r2; r1] 1 0 r1 r2); try done.
  - by apply list_elem_of_singleton.
  - by apply list_elem_of_here.
Defined.

Lemma vll_attempt_exact_witness :
  let m := vll_create 16 in let ks := [mkKey 7 VLL_LOCK_WRITE] in
  (true = true <-> compatible (table_size m) (ks ++ [])) /\
  (true = true -> table_inv (vll_attempt m ks).1 (ks ++ [])) /\
  (true = false -> read_counts (vll_attempt m ks).1 = read_counts m /\ write_flags (vll_attempt m ks).1 = write_flags m).
Proof.
  intros m ks. apply vll_attempt_exact.
  - apply (vll_create_inv 16). vm_compute. congruence.
  - vm_compute. repeat constructor; congruence.
  - reflexivity.
  - vm_compute. reflexivity.
Defined.

Lemma vll_acquire_returns_witness :
  exists m' req' st, vll_acquire 3 (fun _ m => m) (fun n => 6000 * Z.of_nat n) (vll_create 16)
    (mkReq 1 [mkKey 7 VLL_LOCK_WRITE; mkKey 7 VLL_LOCK_WRITE] VLL_CONFLICT 0 0) = Some (m', req', st).
Proof. apply vll_acquire_returns. vm_compute. congruence. Defined.

(** C40. A transaction whose queued commands name one key twice among the
    first 64 keys they name (those EXEC collects; later ones are not locked at
    all), at least once for writing, never gets its locks: whatever the other
    transactions do, [vll_acquire] ends in [VLL_TIMEOUT] and EXEC is aborted. *)
Theorem exec_repeated_key_aborts interf clock m cmds i j ki kj k id st0 :
  (forall n m, well_locked m -> well_locked (interf n m)) -> well_locked m ->
  queued_keys cmds !! i = Some ki -> queued_keys cmds !! j = Some kj -> i <> j ->
  Z.of_nat i < VLL_MAX_KEYS_PER_TXN -> Z.of_nat j < VLL_MAX_KEYS_PER_TXN ->
  key_hash ki = key_hash kj -> lock_type ki = VLL_LOCK_WRITE ->
  clock 0%nat +64 VLL_TIMEOUT_US <= clock (S k) ->
  exists m' req', vll_acquire (S k) interf clock m (mkReq id (exec_keys cmds) st0 0 0) = Some (m', req', VLL_TIMEOUT).
Proof.
  intros Hint Hm Hi Hj Hne Hil Hjl Hh Hw Hc. unfold vll_acquire.
  assert (exec_keys cmds !! i = Some ki /\ exec_keys cmds !! j = Some kj) as [Hi' Hj'] by (unfold exec_keys, VLL_MAX_KEYS_PER_TXN in *; by rewrite !lookup_take_lt by lia).
  assert ((num_keys (mkReq id (exec_keys cmds) st0 0 0) =? 0) = false) as ->.
  { apply Z.eqb_neq. unfold num_keys, alen. simpl. apply lookup_lt_Some in Hi'. lia. }
  unfold vll_sort_keys. cbn [keys submit_us txn_id status acquired_us].
  destruct (perm_two (exec_keys cmds) (qsort_keys (exec_keys cmds)) i j ki kj) as (i' & j' & Hne' & Hpi & Hpj); try done.
  { symmetry. apply qsort_keys_perm. }
  match goal with |- context [acquire_loop _ _ _ ?d _ ?m0 ?r0] =>
    destruct (acquire_loop_returns interf clock d m0 r0 k 0 Hc) as [[[m' r'] st] Hl];
    pose proof (self_conflict_loop interf clock d (S k) 0 m0 r0 i' j' ki kj (m', r', st) Hint) as Ht end.
  simpl in Ht. rewrite Ht in Hl; try done; [by eexists _, _| | |].
  - destruct Hm as (hs & Hinv & Hb). exists hs. split; [by apply with_stats_inv|done].
  - eapply keys_ok_perm; [symmetry; apply qsort_keys_perm|apply exec_keys_ok].
  - unfold alen. rewrite (Permutation_length (qsort_keys_perm _)). apply exec_keys_len.
Qed.

Lemma exec_repeated_key_aborts_witness :
  exists m' req', vll_acquire 3 (fun _ m => m) (fun n => 6000 * Z.of_nat n) (vll_create 16)
    (mkReq 1 (exec_keys [mkCmd [[107]] true; mkCmd [[107]] true]) VLL_CONFLICT 0 0) = Some (m', req', VLL_TIMEOUT).
Proof.
  apply (exec_repeated_key_aborts _ _ _ _ 0 1 (mkKey (multi_fnv1a_64 [107]) VLL_LOCK_WRITE)
           (mkKey (multi_fnv1a_64 [107]) VLL_LOCK_WRITE)).
  - intros n m H. exact H.
  - exists []. split; [|reflexivity]. apply (vll_create_inv 16). vm_compute. congruence.
  - reflexivity.
  - reflexivity.
  - congruence.
  - reflexivity.
  - reflexivity.
  - reflexivity.
  - reflexivity.
  - vm_compute. congruence.
Defined.

(** The lock order: [vll_sort_keys] permutes the keys of the request
    into increasing order of hash, write locks before read locks of the same
    key, and changes nothing else but the reorder counter. *)
Theorem vll_sort_keys_spec m req m' req' : vll_sort_keys m req = (m', req') ->
  keys req' ≡ₚ keys req /\ Sorted key_le (keys req') /\
  txn_id req' = txn_id req /\ status req' = status req /\
  read_counts m' = read_counts m /\ write_flags m' = write_flags m /\
  predictive_reorders (stats m') = predictive_reorders (stats m) +64 1.
Proof.
  unfold vll_sort_keys. intros H. simplify_eq. simpl.
  split_and!; try done; [apply qsort_keys_perm|apply qsort_keys_sorted].
Qed.

Lemma vll_sort_keys_spec_witness :
  let req := mkReq 1 [mkKey 9 VLL_LOCK_READ; mkKey 9 VLL_LOCK_WRITE; mkKey 7 VLL_LOCK_READ] VLL_CONFLICT 0 0 in
  let r := vll_sort_keys (vll_create 1) req in
  keys r.2 ≡ₚ keys req /\ Sorted key_le (keys r.2) /\
  txn_id r.2 = txn_id req /\ status r.2 = status req /\
  read_counts r.1 = read_counts (vll_create 1) /\ write_flags r.1 = write_flags (vll_create 1) /\
  predictive_reorders (stats r.1) = predictive_reorders (stats (vll_create 1)) +64 1.
Proof. intros req r. apply vll_sort_keys_spec. reflexivity. Defined.
