(* ===== verification/FilterSpec.v ===== *)
(** * What an approximate set promises its clients

    NexBloom and the Sovereign speculative filter are both bit sets indexed by
    a 64-bit hash.  A client skips a lookup when [check] answers "certainly
    absent", so what it needs is that no added hash is ever reported absent.
    An operation that may touch memory outside the bit set returns [None]. *)
From S2P Require Import Prelude.

Class ApproxSet {F : Type} (ok : F -> Prop) (add : F -> Z -> option F) (check : F -> Z -> option bool) := {
  add_total : forall f h, ok f -> in_u 64 h -> exists f', add f h = Some f' /\ ok f';
  check_total : forall f h, ok f -> in_u 64 h -> is_Some (check f h);
  check_added : forall f h f', ok f -> in_u 64 h -> add f h = Some f' -> check f' h = Some true;
  check_kept : forall f h f' g, ok f -> in_u 64 h -> in_u 64 g ->
    add f h = Some f' -> check f g = Some true -> check f' g = Some true;
}.

Section client.
Context {F : Type} {ok : F -> Prop} {add : F -> Z -> option F} {check : F -> Z -> option bool}.
Context `{!ApproxSet ok add check}.

Fixpoint add_all (f : F) (hs : list Z) : option F :=
  match hs with
  | [] => Some f
  | h :: hs => match add f h with Some f' => add_all f' hs | None => None end
  end.

Lemma add_all_total f hs : ok f -> Forall (in_u 64) hs -> exists f', add_all f hs = Some f' /\ ok f'.
Proof.
  revert f. induction hs as [|h hs IH]; intros f Hf Hh; [by exists f|].
  apply Forall_cons in Hh as [Hh Hhs]. destruct (add_total f h Hf Hh) as (f1 & E & Hf1).
  simpl. rewrite E. by apply IH.
Qed.

Lemma add_all_keeps f hs f' g : ok f -> Forall (in_u 64) hs -> in_u 64 g ->
  add_all f hs = Some f' -> check f g = Some true -> check f' g = Some true.
Proof.
  revert f. induction hs as [|h hs IH]; intros f Hf Hh Hg E Hc; simpl in E; [by simplify_eq|].
  apply Forall_cons in Hh as [Hh Hhs]. destruct (add_total f h Hf Hh) as (f1 & E1 & Hf1).
  rewrite E1 in E. eapply (IH f1); try done. by apply (check_kept f h f1 g).
Qed.

(** Every added hash is found, whatever else was added before and after. *)
Lemma add_all_found f hs f' g : ok f -> Forall (in_u 64) hs -> add_all f hs = Some f' ->
  g ∈ hs -> check f' g = Some true.
Proof.
  revert f. induction hs as [|h hs IH]; intros f Hf Hh E Hin; simpl in E; [by apply not_elem_of_nil in Hin|].
  apply Forall_cons in Hh as [Hh Hhs]. destruct (add_total f h Hf Hh) as (f1 & E1 & Hf1).
  rewrite E1 in E. apply elem_of_cons in Hin as [->|Hin].
  - apply (add_all_keeps f1 hs); try done. by apply (check_added f h f1).
  - by apply (IH f1).
Qed.
End client.
Arguments add_all {F} add f hs.
