(* ===== verification/NexBloom.v ===== *)
(** * NexBloom, the blocked Bloom filter (src/src/bloom/nexbloom.c)

    [data] is modelled as the array of its 64-bit words (a block is eight of
    them).  The code computes byte offsets and the allocation size in 32-bit
    arithmetic; an access outside [data] is [None].  The number of blocks
    comes from [ceil] and [log] of the C math library: the argument
    [ceil_blocks]. *)
From S2P Require Import Prelude FilterSpec.

Record NexBloom := mkBloom { data : list Z; num_blocks : Z; seed : Z }.

Definition get_block_index (hash num_blocks : Z) : Z := u32 (Z.shiftr hash 32) mod num_blocks.

(** [(h1 + i * h2) % 64] in 32-bit arithmetic. *)
Definition lane_bit (hash i : Z) : Z := (u32 hash +32 i * u32 (Z.shiftr hash 32)) mod 64.

Definition lanes : list Z := [0; 1; 2; 3; 4; 5; 6; 7].

(** [block] is the index in [data] of the first word of the block. *)
Fixpoint set_lanes (ls : list Z) (data : list Z) (block hash : Z) : option (list Z) :=
  match ls with
  | [] => Some data
  | i :: ls =>
      match data !! Z.to_nat (block + i) with
      | None => None
      | Some w => set_lanes ls (aset data (block + i) (Z.lor w (Z.shiftl 1 (lane_bit hash i)))) block hash
      end
  end.

Fixpoint check_lanes (ls : list Z) (data : list Z) (block hash : Z) : option bool :=
  match ls with
  | [] => Some true
  | i :: ls =>
      match data !! Z.to_nat (block + i) with
      | None => None
      | Some w => if Z.land w (Z.shiftl 1 (lane_bit hash i)) =? 0 then Some false
                  else check_lanes ls data block hash
      end
  end.

Definition set_bit_in_block := set_lanes lanes.
Definition check_bit_in_block := check_lanes lanes.

Definition nexbloom_create (ceil_blocks : Z -> Z) (expected_items : Z) : NexBloom :=
  let expected_items := if expected_items =? 0 then 1000 else expected_items in
  let num_blocks := u32 (ceil_blocks expected_items) in
  let num_blocks := if num_blocks =? 0 then 1 else num_blocks in
  mkBloom (calloc (u32 (num_blocks * 64) / 8) 0) num_blocks 322420463.

Definition nexbloom_add (nb : NexBloom) (hash : Z) : option NexBloom :=
  let bidx := get_block_index hash (num_blocks nb) in
  match set_bit_in_block (data nb) (u32 (bidx * 64) / 8) hash with
  | Some d => Some (mkBloom d (num_blocks nb) (seed nb))
  | None => None
  end.

Definition nexbloom_check (nb : NexBloom) (hash : Z) : option bool :=
  let bidx := get_block_index hash (num_blocks nb) in
  check_bit_in_block (data nb) (u32 (bidx * 64) / 8) hash.

Definition nexbloom_reset (nb : NexBloom) : NexBloom :=
  mkBloom (calloc (u32 (num_blocks nb * 64) / 8) 0 ++ drop (Z.to_nat (u32 (num_blocks nb * 64) / 8)) (data nb))
    (num_blocks nb) (seed nb).

Definition nexbloom_memory_usage (nb : NexBloom) : Z := u32 (num_blocks nb * 64).

(** ** Well-formed filters *)
Record bloom_ok (nb : NexBloom) : Prop := {
  ok_blocks : 0 < num_blocks nb < 2 ^ 26;
  ok_len : alen (data nb) = num_blocks nb * 8;
  ok_words : Forall (in_u 64) (data nb);
}.

Definition block_bit (d : list Z) (block hash i : Z) : bool := Z.testbit (aget d (block + i)) (lane_bit hash i).

Lemma lane_bit_range hash i : 0 <= lane_bit hash i < 64.
Proof. unfold lane_bit. apply Z.mod_pos_bound. lia. Qed.

Lemma block_start nb hash : bloom_ok nb -> in_u 64 hash ->
  u32 (get_block_index hash (num_blocks nb) * 64) / 8 = get_block_index hash (num_blocks nb) * 8 /\
  0 <= get_block_index hash (num_blocks nb) * 8 /\
  get_block_index hash (num_blocks nb) * 8 + 8 <= alen (data nb).
Proof.
  intros [Hb Hl _] Hh. unfold get_block_index.
  assert (0 <= u32 (Z.shiftr hash 32) mod num_blocks nb < num_blocks nb) by (apply Z.mod_pos_bound; lia).
  rewrite Hl. split; [|lia]. rewrite wrap_small by mach.
  set (b := u32 (Z.shiftr hash 32) mod num_blocks nb) in *.
  replace (b * 64) with (b * 8 * 8) by lia. apply Z.div_mul. lia.
Qed.

(** The two loops on a block that lies inside the array. *)
Lemma set_lanes_spec ls d block hash : 0 <= block -> Forall (fun i => 0 <= i /\ block + i < alen d) ls ->
  NoDup ls -> Forall (in_u 64) d ->
  exists d', set_lanes ls d block hash = Some d' /\ alen d' = alen d /\ Forall (in_u 64) d' /\
    (forall k j, 0 <= k -> 0 <= j -> Z.testbit (aget d' k) j = true <->
      Z.testbit (aget d k) j = true \/ exists i, i ∈ ls /\ k = block + i /\ j = lane_bit hash i).
Proof.
  intros Hb. revert d. induction ls as [|i ls IH]; intros d Hls Hnd Hd.
  { exists d. split_and!; try done. intros k j Hk Hj. split; [by left|]. intros [?|(i & Hi & _)]; [done|].
    by apply not_elem_of_nil in Hi. }
  apply Forall_cons in Hls as [[Hi Hin] Hls]. apply NoDup_cons in Hnd as [Hni Hnd]. simpl.
  rewrite aget_lookup by lia.
  pose proof (lane_bit_range hash i) as Hlb.
  destruct (IH (aset d (block + i) (bit_set (aget d (block + i)) (lane_bit hash i)))) as (d' & E & Hl & Hw & Hbits).
  - by setoid_rewrite alen_aset.
  - done.
  - apply Forall_aset; [done|]. apply bit_set_range; [done|]. apply Forall_aget; [done|lia].
  - exists d'. unfold bit_set in E. split_and!; [done|by rewrite Hl, alen_aset|done|].
    intros k j Hk Hj. rewrite Hbits by done. setoid_rewrite elem_of_cons.
    destruct (Z.eq_dec k (block + i)) as [->|Hne].
    + rewrite aget_aset_eq, bit_set_spec, orb_true_iff, Z.eqb_eq by lia. split.
      * intros [[?|<-]|(i' & ? & ? & ?)]; [by left|right; exists i; auto|right; exists i'; auto].
      * intros [?|(i' & [->|?] & ? & ->)]; [auto|auto|right; exists i'; auto].
    + rewrite aget_aset_ne by lia. split.
      * intros [?|(i' & ? & ? & ?)]; [by left|right; exists i'; auto].
      * intros [?|(i' & [->|?] & ? & ?)]; [auto|lia|right; exists i'; auto].
Qed.

Lemma check_lanes_spec ls d block hash : 0 <= block -> Forall (fun i => 0 <= i /\ block + i < alen d) ls ->
  check_lanes ls d block hash = Some (forallb (block_bit d block hash) ls).
Proof.
  intros Hb. induction 1 as [|i ls [Hi Hin] Hls IH]; [done|]. simpl. rewrite aget_lookup by lia.
  unfold block_bit at 1. rewrite <- bit_mask_spec by apply lane_bit_range.
  destruct (Z.land (aget d (block + i)) (Z.shiftl 1 (lane_bit hash i)) =? 0); [done|]. by rewrite IH.
Qed.

Lemma lanes_in (d : list Z) block : block + 8 <= alen d -> Forall (fun i => 0 <= i /\ block + i < alen d) lanes.
Proof. intros. unfold lanes. rewrite !Forall_cons, Forall_nil. lia. Qed.

Lemma lanes_nonneg i : i ∈ lanes -> 0 <= i.
Proof. unfold lanes. rewrite !elem_of_cons, elem_of_nil. lia. Qed.

Lemma lanes_NoDup : NoDup lanes.
Proof. apply (bool_decide_unpack _). vm_compute. done. Qed.

Lemma nexbloom_check_spec nb g : bloom_ok nb -> in_u 64 g ->
  nexbloom_check nb g = Some (forallb (block_bit (data nb) (get_block_index g (num_blocks nb) * 8) g) lanes).
Proof.
  intros Hok Hg. destruct (block_start nb g Hok Hg) as (Hs & H0 & H1).
  unfold nexbloom_check, check_bit_in_block. rewrite Hs. apply check_lanes_spec; [done|]. by apply lanes_in.
Qed.

(** [nexbloom_add] succeeds, keeps the filter well formed, only adds bits and
    adds the eight bits of its hash. *)
Lemma nexbloom_add_spec nb h : bloom_ok nb -> in_u 64 h ->
  exists nb', nexbloom_add nb h = Some nb' /\ bloom_ok nb' /\ num_blocks nb' = num_blocks nb /\
    (forall k j, 0 <= k -> 0 <= j -> Z.testbit (aget (data nb) k) j = true -> Z.testbit (aget (data nb') k) j = true) /\
    (forall i, i ∈ lanes -> block_bit (data nb') (get_block_index h (num_blocks nb) * 8) h i = true).
Proof.
  intros Hok Hh. destruct (block_start nb h Hok Hh) as (Hs & H0 & H1).
  destruct (set_lanes_spec lanes (data nb) _ h H0 (lanes_in _ _ H1) lanes_NoDup (ok_words _ Hok)) as (d & E & Hl & Hw & Hb).
  exists (mkBloom d (num_blocks nb) (seed nb)). unfold nexbloom_add, set_bit_in_block. rewrite Hs, E. simpl.
  destruct Hok as [? ? ?]. split_and!; try done.
  - split; simpl; [done|lia|done].
  - intros k j Hk Hj Ht. rewrite Hb by done. by left.
  - intros i Hi. pose proof (lane_bit_range h i).
    pose proof (lanes_nonneg i Hi).
    unfold block_bit. rewrite Hb by lia. right. by exists i.
Qed.

#[export] Instance nexbloom_filter : ApproxSet bloom_ok nexbloom_add nexbloom_check.
Proof.
  split.
  - intros nb h Hok Hh. destruct (nexbloom_add_spec nb h Hok Hh) as (nb' & ? & ? & _). by exists nb'.
  - intros nb h Hok Hh. rewrite nexbloom_check_spec by done. done.
  - intros nb h nb1 Hok Hh E. destruct (nexbloom_add_spec nb h Hok Hh) as (nb' & E' & Hok' & Hn & _ & Hset).
    simplify_eq. rewrite nexbloom_check_spec by done. f_equal. apply forallb_forall.
    intros i Hi%list_elem_of_In. rewrite Hn. by apply Hset.
  - intros nb h nb1 g Hok Hh Hg E. destruct (nexbloom_add_spec nb h Hok Hh) as (nb' & E' & Hok' & Hn & Hmono & _).
    simplify_eq. rewrite !nexbloom_check_spec by done. intros Hc. apply (inj Some) in Hc. f_equal.
    rewrite forallb_forall in Hc. apply forallb_forall. intros i Hi. specialize (Hc i Hi). rewrite Hn.
    apply list_elem_of_In in Hi. unfold block_bit in *.
    destruct (block_start nb g Hok Hg) as (_ & H0 & _). pose proof (lane_bit_range g i).
    pose proof (lanes_nonneg i Hi). apply Hmono; [lia|lia|done].
Qed.

(** A new or reset filter of fewer than 2^26 blocks (4 GiB) is well formed. *)
Lemma bloom_zero_ok n s : 0 < n < 2 ^ 26 -> bloom_ok (mkBloom (calloc (u32 (n * 64) / 8) 0) n s).
Proof.
  intros Hn. assert (u32 (n * 64) / 8 = n * 8) as E.
  { rewrite wrap_small by mach. replace (n * 64) with (n * 8 * 8) by lia. apply Z.div_mul. lia. }
  split; simpl; [done| |].
  - rewrite E. apply alen_calloc. lia.
  - apply Forall_replicate. mach.
Qed.

Lemma nexbloom_create_ok ceil_blocks n : 0 <= ceil_blocks (if n =? 0 then 1000 else n) < 2 ^ 26 ->
  bloom_ok (nexbloom_create ceil_blocks n).
Proof.
  intros Hc. unfold nexbloom_create. apply bloom_zero_ok.
  rewrite wrap_small by mach. case_if; lia.
Qed.

Lemma reset_data_ok nb : bloom_ok nb ->
  nexbloom_reset nb = mkBloom (calloc (u32 (num_blocks nb * 64) / 8) 0) (num_blocks nb) (seed nb).
Proof.
  intros [Hb Hl _]. unfold nexbloom_reset. f_equal. rewrite drop_ge, app_nil_r; [done|].
  rewrite wrap_small by mach. unfold alen in Hl.
  replace (num_blocks nb * 64) with (num_blocks nb * 8 * 8) by lia. rewrite Z.div_mul by lia. lia.
Qed.

(** NexBloom has no false negatives: on a filter created for fewer than
    2^26 blocks, every sequence of [nexbloom_add] stays inside [data], and
    [nexbloom_check] answers 1 for every hash of the sequence. *)
Theorem nexbloom_no_false_negative ceil_blocks n hs :
  0 <= ceil_blocks (if n =? 0 then 1000 else n) < 2 ^ 26 -> Forall (in_u 64) hs ->
  exists nb, add_all nexbloom_add (nexbloom_create ceil_blocks n) hs = Some nb /\
    Forall (fun h => nexbloom_check nb h = Some true) hs.
Proof.
  intros Hc Hhs. pose proof (nexbloom_create_ok _ _ Hc) as Hok.
  destruct (add_all_total _ hs Hok Hhs) as (nb & E & _). exists nb. split; [done|].
  apply Forall_forall. intros h Hh. by apply (add_all_found _ hs nb h Hok Hhs E).
Qed.

Lemma nexbloom_no_false_negative_witness :
  exists nb, add_all nexbloom_add (nexbloom_create (fun n => n * 10 / 512 + 1) 0) [7; 18446744073709551615] = Some nb /\
    Forall (fun h => nexbloom_check nb h = Some true) [7; 18446744073709551615].
Proof.
  apply (nexbloom_no_false_negative (fun n => n * 10 / 512 + 1) 0).
  - vm_compute. split; congruence.
  - rewrite !Forall_cons, Forall_nil. vm_compute. repeat split; congruence.
Defined.

(** [nexbloom_reset] forgets everything: afterwards every hash is
    reported absent and the filter is as well formed as a new one. *)
Theorem nexbloom_reset_empty nb h : bloom_ok nb -> in_u 64 h ->
  bloom_ok (nexbloom_reset nb) /\ nexbloom_check (nexbloom_reset nb) h = Some false.
Proof.
  intros Hok Hh. assert (bloom_ok (nexbloom_reset nb)) as Hr.
  { rewrite reset_data_ok by done. apply bloom_zero_ok, Hok. }
  split; [done|]. rewrite nexbloom_check_spec by done. f_equal.
  destruct (block_start _ h Hr Hh) as (_ & H0 & H1). cbn [forallb lanes].
  unfold block_bit at 1. rewrite reset_data_ok in * by done. cbn [data num_blocks] in *.
  rewrite aget_calloc; [by rewrite Z.bits_0|].
  rewrite alen_calloc in H1; [lia|]. apply Z.div_pos; [|lia]. apply wrap_range. lia.
Qed.

Lemma nexbloom_reset_empty_witness :
  let nb := nexbloom_create (fun _ => 2) 5 in
  bloom_ok (nexbloom_reset nb) /\ nexbloom_check (nexbloom_reset nb) 9 = Some false.
Proof.
  apply nexbloom_reset_empty.
  - apply (nexbloom_create_ok (fun _ => 2) 5). vm_compute. split; congruence.
  - vm_compute. split; congruence.
Defined.

(** The size arithmetic of the code is 32 bits wide: a filter of exactly
    2^26 blocks is allocated with 0 bytes, and every [nexbloom_add] on it
    accesses memory outside the allocation. *)
Theorem nexbloom_size_overflow ceil_blocks n h :
  ceil_blocks (if n =? 0 then 1000 else n) = 2 ^ 26 ->
  nexbloom_memory_usage (nexbloom_create ceil_blocks n) = 0 /\
  nexbloom_add (nexbloom_create ceil_blocks n) h = None.
Proof.
  intros Hc. unfold nexbloom_create. rewrite Hc. split; [reflexivity|].
  unfold nexbloom_add. change (data _) with (@nil Z). reflexivity.
Qed.

Lemma nexbloom_size_overflow_witness :
  nexbloom_memory_usage (nexbloom_create (fun _ => 2 ^ 26) 3500000000) = 0 /\
  nexbloom_add (nexbloom_create (fun _ => 2 ^ 26) 3500000000) 42 = None.
Proof. apply (nexbloom_size_overflow (fun _ => 2 ^ 26) 3500000000 42). reflexivity. Defined.
