(* ===== verification/IntString.v ===== *)
(** * Integers and decimal strings (src/src/util.c)

    [digits10], [sdigits10], [ull2string], [ll2string], and the two
    implementations of [string2ll]: the scalar loop and the AVX-512 version,
    whose vector instructions are modelled lane by lane with their saturation
    and truncation.  Characters are bytes 0..255; '0' is 48 and '-' is 45 (no
    byte above 127 is a digit, whether [char] is signed or not).  A parser
    result [None] is the return value 0. *)
From S2P Require Import Prelude.

Definition LLONG_MAX : Z := 9223372036854775807.
Definition LLONG_MIN : Z := -9223372036854775808.
Definition LONG_STR_SIZE : Z := 21.

(** ** Number of digits *)
Definition b2z (b : bool) : Z := if b then 1 else 0.

Fixpoint digits10_fuel (fuel : nat) (v : Z) : Z :=
  if v <? 10 then 1
  else if v <? 100 then 2
  else if v <? 1000 then 3
  else if v <? 1000000000000 then
    if v <? 100000000 then
      if v <? 1000000 then
        if v <? 10000 then 4 else 5 + b2z (100000 <=? v)
      else 7 + b2z (10000000 <=? v)
    else if v <? 10000000000 then 9 + b2z (1000000000 <=? v)
    else 11 + b2z (100000000000 <=? v)
  else match fuel with
       | O => 0
       | S fuel => 12 + digits10_fuel fuel (v / 1000000000000)
       end.

(** A 64-bit value recurses once. *)
Definition digits10 (v : Z) : Z := digits10_fuel 1 v.

Definition sdigits10 (v : Z) : Z :=
  if v <? 0 then digits10 (if v =? LLONG_MIN then u64 LLONG_MAX +64 1 else u64 (- v)) + 1 else digits10 v.

(** ** Printing: a call returns the length and the buffer *)
Definition digits : list Z := concat (map (fun k => [48 + k / 10; 48 + k mod 10]) (seqZ 0 100)).

(** The loop and the last one or two digits; [next] is the index written next. *)
Fixpoint put_digits (fuel : nat) (value next : Z) (dst : bytes) : bytes :=
  match fuel with
  | O => dst
  | S fuel =>
      if 100 <=? value then
        let i := value mod 100 * 2 in
        let dst := aset dst next (aget digits (i + 1)) in
        let dst := aset dst (next - 1) (aget digits i) in
        put_digits fuel (value / 100) (next - 2) dst
      else if value <? 10 then aset dst next (48 + value)
      else
        let i := value * 2 in
        let dst := aset dst next (aget digits (i + 1)) in
        aset dst (next - 1) (aget digits i)
  end.

Definition ull2string (dst : bytes) (dstlen value : Z) : Z * bytes :=
  let length := digits10 value in
  if dstlen <=? length then (0, if 0 <? dstlen then aset dst 0 0 else dst)
  else
    let next := length - 1 in
    let dst := aset dst (next + 1) 0 in
    (length, put_digits 11 value next dst).

Definition ll2string (dst : bytes) (dstlen svalue : Z) : Z * bytes :=
  if svalue <? 0 then
    let value := if svalue =? LLONG_MIN then u64 LLONG_MAX +64 1 else u64 (- svalue) in
    if dstlen <? 2 then (0, if 0 <? dstlen then aset dst 0 0 else dst)
    else
      let '(length, dst') := ull2string (drop 1 dst) (dstlen - 1) value in
      let dst' := 45 :: dst' in
      if length =? 0 then (0, dst') else (length + 1, dst')
  else ull2string dst dstlen svalue.

(** ** Scalar parser *)
Definition is_digit (c : Z) : bool := (48 <=? c) && (c <=? 57).

(** The [while] loop: [None] on overflow, else the value and the unread bytes. *)
Fixpoint scan_digits (v : Z) (p : bytes) : option (Z * bytes) :=
  match p with
  | [] => Some (v, [])
  | c :: p' =>
      if is_digit c then
        if UINT64_MAX / 10 <? v then None
        else
          let v := v * 10 in
          if UINT64_MAX - (c - 48) <? v then None else scan_digits (v + (c - 48)) p'
      else Some (v, p)
  end.

(** The final conversion to [long long]. *)
Definition to_ll (negative : bool) (v : Z) : option Z :=
  if negative then if - (LLONG_MIN + 1) + 1 <? v then None else Some (i64 (u64 (- v)))
  else if LLONG_MAX <? v then None else Some v.

Definition string2llScalar (s : bytes) : option Z :=
  match s with
  | [] => None
  | c :: s' =>
      if LONG_STR_SIZE <=? alen s then None
      else if (alen s =? 1) && is_digit c then Some (c - 48)
      else
        let '(negative, p) := if c =? 45 then (true, s') else (false, s) in
        match p with
        | [] => None
        | d :: p =>
            if (49 <=? d) && (d <=? 57) then
              match scan_digits (d - 48) p with
              | Some (v, []) => to_ll negative v
              | _ => None
              end
            else None
        end
  end.

Definition string2l (s : bytes) : option Z :=
  match string2llScalar s with
  | Some v => if (v <? LLONG_MIN) || (LLONG_MAX <? v) then None else Some v
  | None => None
  end.

(** ** AVX-512 parser *)
Definition sat16 (x : Z) : Z := Z.max (- 32768) (Z.min 32767 x).

(** [maddubs_epi16] / [madd_epi16] with the weights [w0], [w1] alternating:
    adjacent lanes multiplied and added, then [f] (saturation or wrap). *)
Fixpoint madd (f : Z -> Z) (w0 w1 : Z) (l : list Z) : list Z :=
  match l with
  | a :: b :: l => f (a * w0 + b * w1) :: madd f w0 w1 l
  | _ => []
  end.

Definition string2llAVX512 (s : bytes) : option Z :=
  match s with
  | [] => None
  | c :: s' =>
      if LONG_STR_SIZE <=? alen s then None
      else if (alen s =? 1) && is_digit c then Some (c - 48)
      else
        let '(negative, p, plen) := if c =? 45 then (true, s', 1) else (false, s, 0) in
        if plen =? alen s then None
        else if aget p 0 =? 48 then None
        else
          let mask := u32 (Z.shiftl 4294967295 (32 - alen s + plen)) in
          let input := map (fun i => if bit_get mask i then aget s (alen s - 32 + i) else 0) (seqZ 0 32) in
          let ascii_digits := imap (fun i c => if bit_get mask (Z.of_nat i) then u8 (c - 48) else 0) input in
          let nondigits := existsb (fun d => 9 <? d) ascii_digits in
          if nondigits then None
          else
            let multiplied_by_10 := madd sat16 10 1 ascii_digits in
            let reduced_to_16bit := map u8 multiplied_by_10 in
            let multiplied_by_100 := madd sat16 100 1 reduced_to_16bit in
            let multiplied_by_10000 := madd i32 10000 1 multiplied_by_100 in
            let low := u64 (aget multiplied_by_10000 3) in
            if Z.land mask 16777215 =? 0 then Some (i64 (if negative then u64 (- low) else low))
            else
              let middle := u64 (aget multiplied_by_10000 2) in
              let middle_low := low +64 (100000000 *64 middle) in
              if Z.land mask 65535 =? 0 then Some (i64 (if negative then u64 (- middle_low) else middle_low))
              else
                let high := u64 (aget multiplied_by_10000 1) in
                let result := middle_low +64 (10000000000000000 *64 high) in
                if (1844 <? high) || (result <? middle_low) then None else to_ll negative result
  end.

(** ** Decimal values *)
Definition horner (l : list Z) : Z := fold_left (fun v d => v * 10 + d) l 0.
Definition dval (s : bytes) : Z := horner (map (fun c => c - 48) s).
Definition all_digits (s : bytes) : bool := forallb is_digit s.

(** [n] decimal digits of [v]. *)
Fixpoint digits_of (n : nat) (v : Z) : bytes :=
  match n with
  | O => []
  | S n => digits_of n (v / 10) ++ [48 + v mod 10]
  end.

(** The canonical decimal strings: what the printer must produce and the
    parser must accept. *)
Definition decimal (v : Z) : bytes :=
  if v <? 0 then 45 :: digits_of (Z.to_nat (digits10 (- v))) (- v)
  else digits_of (Z.to_nat (digits10 v)) v.

Lemma length_digits_of n v : length (digits_of n v) = n.
Proof. revert v. induction n as [|n IH]; intros v; simpl; [done|]. rewrite length_app, IH. simpl. lia. Qed.

Lemma horner_acc l v : fold_left (fun v d => v * 10 + d) l v = v * 10 ^ alen l + horner l.
Proof.
  unfold horner, alen. revert v. induction l as [|d l IH]; intros v; [simpl; lia|].
  change (length (d :: l)) with (S (length l)). rewrite Nat2Z.inj_succ, Z.pow_succ_r by lia.
  cbn [fold_left]. rewrite (IH (v * 10 + d)), (IH (0 * 10 + d)). lia.
Qed.

Lemma horner_app a b : horner (a ++ b) = horner a * 10 ^ alen b + horner b.
Proof. unfold horner. rewrite fold_left_app. apply horner_acc. Qed.

Lemma horner_cons d l : horner (d :: l) = d * 10 ^ alen l + horner l.
Proof. apply (horner_app [d] l). Qed.

Lemma dval_app a b : dval (a ++ b) = dval a * 10 ^ alen b + dval b.
Proof. unfold dval. rewrite map_app, horner_app. unfold alen. by rewrite length_map. Qed.

Lemma dval_cons c s : dval (c :: s) = (c - 48) * 10 ^ alen s + dval s.
Proof. apply (dval_app [c] s). Qed.

Lemma dval_range s : all_digits s = true -> 0 <= dval s < 10 ^ alen s.
Proof.
  induction s as [|c s IH]; [done|]. unfold all_digits, is_digit. cbn [forallb]. intros H. cmp_prop.
  rewrite dval_cons. unfold alen in *. simpl length. rewrite Nat2Z.inj_succ, Z.pow_succ_r by lia.
  specialize (IH ltac:(done)). nia.
Qed.

Lemma dval_digits_of n v : 0 <= v -> dval (digits_of n v) = v mod 10 ^ Z.of_nat n.
Proof.
  revert v. induction n as [|n IH]; intros v Hv; [by rewrite Z.mod_1_r|].
  simpl digits_of. rewrite dval_app, IH by (by apply Z.div_pos).
  change (dval [48 + v mod 10]) with (48 + v mod 10 - 48). change (alen [48 + v mod 10]) with 1.
  rewrite Nat2Z.inj_succ, Z.pow_succ_r by lia. rewrite Z.rem_mul_r by lia. lia.
Qed.

Lemma all_digits_of n v : all_digits (digits_of n v) = true.
Proof.
  revert v. induction n as [|n IH]; intros v; [done|]. unfold all_digits in *. simpl.
  rewrite forallb_app, IH. simpl. unfold is_digit. pose proof (Z.mod_pos_bound v 10 ltac:(lia)). lia.
Qed.

(** Digit strings of one length are determined by their values. *)
Lemma dval_inj a b : all_digits a = true -> all_digits b = true -> alen a = alen b -> dval a = dval b -> a = b.
Proof.
  revert b. induction a as [|x a IH]; intros [|y b] Ha Hb Hl Hv; try done.
  unfold alen in Hl. simpl in Hl. assert (Hl' : alen a = alen b) by (unfold alen; lia).
  rewrite !dval_cons, Hl' in Hv. unfold all_digits in *. cbn [forallb] in *. cmp_prop.
  pose proof (dval_range a ltac:(done)) as Ra. pose proof (dval_range b ltac:(done)) as Rb. rewrite Hl' in Ra.
  assert (x = y) as -> by nia. f_equal. apply IH; try done. lia.
Qed.

Ltac pow10 := repeat match goal with |- context [10 ^ ?k] =>
  let v := eval vm_compute in (10 ^ k) in lazymatch v with Z.pos _ => change (10 ^ k) with v end end.

Lemma digits10_small fuel v : 0 <= v < 10 ^ 12 ->
  1 <= digits10_fuel fuel v <= 12 /\ v < 10 ^ digits10_fuel fuel v /\
  (1 <= v -> 10 ^ (digits10_fuel fuel v - 1) <= v).
Proof.
  change (10 ^ 12) with 1000000000000. intros Hv. destruct fuel; cbn [digits10_fuel]; unfold b2z;
    repeat case_if; try lia; cbn [Z.add Z.sub Z.opp Z.pos_sub Pos.add Pos.succ Pos.pred_double Pos.add_carry]; pow10; lia.
Qed.

Lemma digits10_spec v : 0 <= v < 2 ^ 64 ->
  1 <= digits10 v <= 20 /\ v < 10 ^ digits10 v /\ (1 <= v -> 10 ^ (digits10 v - 1) <= v).
Proof.
  intros Hv. unfold digits10. destruct (Z.lt_ge_cases v (10 ^ 12)) as [Hlt|Hge].
  - destruct (digits10_small 1 v ltac:(lia)) as (? & ? & ?). split_and!; [lia|lia|lia|done].
  - assert (digits10_fuel 1 v = 12 + digits10_fuel 0 (v / 1000000000000)) as ->.
    { change (10 ^ 12) with 1000000000000 in Hge. cbn [digits10_fuel]. repeat case_if; try lia; done. }
    change (10 ^ 12) with 1000000000000 in Hge.
    set (q := v / 1000000000000). assert (1 <= q < 18446745).
    { unfold q. split; [apply Z.div_le_lower_bound; lia|apply Z.div_lt_upper_bound; mach]. }
    assert (Hq : 1000000000000 * q <= v < 1000000000000 * q + 1000000000000).
    { unfold q. pose proof (Z.mul_div_le v 1000000000000). pose proof (Z.mul_succ_div_gt v 1000000000000). lia. }
    destruct (digits10_small 0 q ltac:(change (10 ^ 12) with 1000000000000; lia)) as (Hd & Hu & Hl).
    specialize (Hl ltac:(lia)). set (d := digits10_fuel 0 q) in *.
    assert (d <= 8) as Hd8.
    { destruct (Z.le_gt_cases d 8) as [|Hgt]; [done|].
      assert (10 ^ 8 <= 10 ^ (d - 1)) as Hp by (apply Z.pow_le_mono_r; lia). change (10 ^ 8) with 100000000 in Hp. lia. }
    split_and!; [lia|lia| |].
    + rewrite Z.pow_add_r by lia. change (10 ^ 12) with 1000000000000. lia.
    + intros _. replace (12 + d - 1) with (12 + (d - 1)) by lia. rewrite Z.pow_add_r by lia.
      change (10 ^ 12) with 1000000000000. lia.
Qed.

(** ** The printer writes the digits of its value *)
Lemma digits_table k : 0 <= k < 100 -> aget digits (k * 2) = 48 + k / 10 /\ aget digits (k * 2 + 1) = 48 + k mod 10.
Proof.
  intros Hk. assert (Forall (fun k => aget digits (k * 2) = 48 + k / 10 /\ aget digits (k * 2 + 1) = 48 + k mod 10) (seqZ 0 100)) as H.
  { apply (bool_decide_unpack _). vm_compute. done. }
  rewrite Forall_forall in H. apply H, elem_of_seqZ. lia.
Qed.

(** Two digits written at the end of the remaining field. *)
Lemma write_two (dst : bytes) (n : nat) a b : (2 <= n <= length dst)%nat ->
  aset (aset dst (Z.of_nat n - 1) b) (Z.of_nat n - 1 - 1) a = take (n - 2) dst ++ [a; b] ++ drop n dst.
Proof.
  intros Hn. unfold aset.
  replace (Z.to_nat (Z.of_nat n - 1)) with (S (n - 2)) by lia.
  replace (Z.to_nat (Z.of_nat n - 1 - 1)) with (n - 2)%nat by lia.
  rewrite !insert_take_drop by (rewrite ?length_insert; lia).
  rewrite take_app_le by (rewrite length_take; lia).
  rewrite take_take, Nat.min_l by lia. simpl. f_equal. f_equal.
  rewrite drop_app_ge by (rewrite length_take; lia). rewrite length_take, Nat.min_l by lia.
  replace (S (n - 2) - S (n - 2))%nat with 0%nat by lia. simpl. do 2 f_equal. lia.
Qed.

Lemma put_digits_spec fuel value (n : nat) dst : 0 <= value -> (n <= length dst)%nat -> (1 <= n)%nat ->
  value < 10 ^ Z.of_nat n -> ((2 <= n)%nat -> 10 ^ (Z.of_nat n - 1) <= value) -> (n <= 2 * fuel)%nat ->
  put_digits fuel value (Z.of_nat n - 1) dst = digits_of n value ++ drop n dst.
Proof.
  revert value n dst. induction fuel as [|fuel IH]; intros value n dst Hv Hlen H1 Hu Hl Hf; [lia|].
  simpl. destruct (Z.leb_spec 100 value) as [Hbig|Hsmall].
  - assert (3 <= n)%nat as Hn3.
    { destruct (le_lt_dec 3 n) as [|Hn]; [done|]. assert (10 ^ Z.of_nat n <= 10 ^ 2) as Hp by (apply Z.pow_le_mono_r; lia).
      change (10 ^ 2) with 100 in Hp. lia. }
    destruct n as [|[|m]]; [lia|lia|].
    pose proof (Z.mod_pos_bound value 100 ltac:(lia)) as Hm.
    destruct (digits_table (value mod 100) Hm) as [-> ->].
    rewrite write_two by lia. replace (S (S m) - 2)%nat with m by lia.
    replace (Z.of_nat (S (S m)) - 1 - 2) with (Z.of_nat m - 1) by lia.
    assert (Hpow : 10 ^ Z.of_nat (S (S m)) = 100 * 10 ^ Z.of_nat m).
    { rewrite !Nat2Z.inj_succ, !Z.pow_succ_r by lia. lia. }
    rewrite IH; [| by apply Z.div_pos | | lia | | | lia].
    + rewrite drop_app_ge by (rewrite length_take; lia). rewrite length_take, Nat.min_l, Nat.sub_diag by lia.
      change (digits_of (S (S m)) value) with ((digits_of m (value / 10 / 10) ++ [48 + (value / 10) mod 10]) ++ [48 + value mod 10]).
      rewrite <- !app_assoc. simpl. rewrite Z.div_div by lia. do 3 f_equal.
      * f_equal. Z.to_euclidean_division_equations; lia.
      * f_equal. Z.to_euclidean_division_equations; lia.
    + rewrite length_app, length_take. simpl. rewrite length_drop. lia.
    + apply Z.div_lt_upper_bound; lia.
    + intros Hm2. apply Z.div_le_lower_bound; [lia|]. specialize (Hl ltac:(lia)).
      replace (Z.of_nat (S (S m)) - 1) with (2 + (Z.of_nat m - 1)) in Hl by lia.
      rewrite Z.pow_add_r in Hl by lia. change (10 ^ 2) with 100 in Hl. lia.
  - assert (n <= 2)%nat as Hn2.
    { destruct (le_lt_dec n 2) as [|Hn]; [done|]. specialize (Hl ltac:(lia)).
      assert (10 ^ 2 <= 10 ^ (Z.of_nat n - 1)) as Hp by (apply Z.pow_le_mono_r; lia). change (10 ^ 2) with 100 in Hp. lia. }
    destruct (Z.ltb_spec value 10) as [H10|H10].
    + assert (n = 1)%nat as ->.
      { destruct (le_lt_dec n 1) as [|Hn]; [lia|]. specialize (Hl ltac:(lia)).
        assert (10 ^ 1 <= 10 ^ (Z.of_nat n - 1)) as Hp by (apply Z.pow_le_mono_r; lia). lia. }
      destruct dst as [|x dst]; [simpl in Hlen; lia|]. simpl. by rewrite Z.mod_small by lia.
    + assert (n = 2)%nat as ->.
      { destruct (le_lt_dec 2 n) as [|Hn]; [lia|]. assert (n = 1)%nat as -> by lia. simpl in Hu. lia. }
      destruct (digits_table value ltac:(lia)) as [-> ->]. rewrite write_two by lia. simpl.
      by rewrite (Z.mod_small (value / 10)) by (split; [apply Z.div_pos; lia|apply Z.div_lt_upper_bound; lia]).
Qed.

Lemma ull2string_spec dst dstlen value : 0 <= value < 2 ^ 64 -> dstlen <= alen dst ->
  ull2string dst dstlen value =
    if dstlen <=? digits10 value then (0, if 0 <? dstlen then aset dst 0 0 else dst)
    else (digits10 value, digits_of (Z.to_nat (digits10 value)) value ++ 0 :: drop (S (Z.to_nat (digits10 value))) dst).
Proof.
  intros Hv Hlen. destruct (digits10_spec value Hv) as (Hd & Hu & Hl). unfold ull2string.
  destruct (Z.leb_spec dstlen (digits10 value)) as [|Hlt]; [done|]. f_equal.
  unfold alen in Hlen. set (d := digits10 value) in *. replace (d - 1 + 1) with d by lia.
  replace (d - 1) with (Z.of_nat (Z.to_nat d) - 1) by lia.
  rewrite put_digits_spec; [| lia | rewrite length_aset; lia | lia | by rewrite Z2Nat.id by lia | | lia].
  - f_equal. unfold aset. rewrite insert_take_drop by lia.
    rewrite drop_app_ge by (rewrite length_take; lia). rewrite length_take, Nat.min_l, Nat.sub_diag by lia. done.
  - intros Hn. rewrite Z2Nat.id by lia. apply Hl.
    destruct (Z.le_gt_cases 1 value) as [|H0]; [done|]. assert (value = 0) as E by lia.
    unfold d in Hn. rewrite E in Hn. vm_compute in Hn. lia.
Qed.

(** ** What both parsers compute *)
Definition limit (negative : bool) : Z := if negative then 2 ^ 63 else 2 ^ 63 - 1.

Definition parse_ref (s : bytes) : option Z :=
  match s with
  | [] => None
  | c :: s' =>
      if LONG_STR_SIZE <=? alen s then None
      else if (alen s =? 1) && is_digit c then Some (c - 48)
      else
        let '(negative, p) := if c =? 45 then (true, s') else (false, s) in
        match p with
        | [] => None
        | d :: _ => if negb (d =? 48) && all_digits p && (dval p <=? limit negative)
                    then Some (if negative then - dval p else dval p) else None
        end
  end.

Lemma to_ll_spec negative v : 0 <= v ->
  to_ll negative v = if v <=? limit negative then Some (if negative then - v else v) else None.
Proof.
  intros Hv. unfold to_ll, limit, LLONG_MIN, LLONG_MAX. destruct negative.
  - change (- (-9223372036854775808 + 1) + 1) with 9223372036854775808.
    change (2 ^ 63) with 9223372036854775808.
    destruct (Z.ltb_spec 9223372036854775808 v), (Z.leb_spec v 9223372036854775808); try lia; [done|].
    f_equal. unfold swrap, wrap. change (64 - 1) with 63. rewrite Zplus_mod_idemp_l.
    assert (0 <= - v + 2 ^ 63 < 2 ^ 64) by mach. rewrite Z.mod_small by done. lia.
  - change (2 ^ 63 - 1) with 9223372036854775807.
    destruct (Z.ltb_spec 9223372036854775807 v), (Z.leb_spec v 9223372036854775807); try lia; done.
Qed.

Lemma all_digits_cons c s : all_digits (c :: s) = is_digit c && all_digits s.
Proof. done. Qed.

Lemma scan_digits_all v p : 0 <= v <= UINT64_MAX -> all_digits p = true ->
  scan_digits v p = if v * 10 ^ alen p + dval p <=? UINT64_MAX then Some (v * 10 ^ alen p + dval p, []) else None.
Proof.
  revert v. induction p as [|c p IH]; intros v Hv Hd.
  { unfold dval, alen. simpl. rewrite Z.mul_1_r, Z.add_0_r.
    destruct (Z.leb_spec v UINT64_MAX); [done|lia]. }
  rewrite all_digits_cons in Hd. apply andb_true_iff in Hd as [Hc Hp]. cbn [scan_digits]. rewrite Hc.
  unfold is_digit in Hc. cmp_prop. pose proof (dval_range p Hp) as Hr.
  replace (v * 10 ^ alen (c :: p) + dval (c :: p)) with ((v * 10 + (c - 48)) * 10 ^ alen p + dval p).
  2: { rewrite dval_cons. unfold alen. simpl length. rewrite Nat2Z.inj_succ, Z.pow_succ_r by lia. lia. }
  assert (1 <= 10 ^ alen p) by (apply (Z.pow_le_mono_r 10 0); unfold alen; lia).
  change (UINT64_MAX / 10) with 1844674407370955161.
  destruct (Z.ltb_spec 1844674407370955161 v) as [Hov|Hok].
  { destruct (Z.leb_spec ((v * 10 + (c - 48)) * 10 ^ alen p + dval p) UINT64_MAX); [nia|done]. }
  destruct (Z.ltb_spec (UINT64_MAX - (c - 48)) (v * 10)) as [Hov|Hok'].
  { destruct (Z.leb_spec ((v * 10 + (c - 48)) * 10 ^ alen p + dval p) UINT64_MAX); [nia|done]. }
  apply IH; [lia|done].
Qed.

Lemma scan_digits_stuck v p w : all_digits p = false -> scan_digits v p <> Some (w, []).
Proof.
  revert v. induction p as [|c p IH]; intros v Hd; [done|]. rewrite all_digits_cons in Hd. cbn [scan_digits].
  destruct (is_digit c); [|done]. repeat case_if; try done. by apply IH.
Qed.

Lemma scalar_body negative d p : (49 <=? d) && (d <=? 57) = negb (d =? 48) && is_digit d ->
  (if (49 <=? d) && (d <=? 57) then
     match scan_digits (d - 48) p with Some (v, []) => to_ll negative v | _ => None end
   else None) =
  (if negb (d =? 48) && all_digits (d :: p) && (dval (d :: p) <=? limit negative)
   then Some (if negative then - dval (d :: p) else dval (d :: p)) else None).
Proof.
  intros Hcond. rewrite all_digits_cons, andb_assoc, <- Hcond.
  destruct ((49 <=? d) && (d <=? 57)) eqn:Hc; [|done]. cmp_prop. rewrite andb_true_l.
  destruct (all_digits p) eqn:Hp.
  - rewrite andb_true_l, scan_digits_all by (done || lia). rewrite <- dval_cons.
    pose proof (dval_range p Hp). assert (0 < 10 ^ alen p) by (apply Z.pow_pos_nonneg; unfold alen; lia).
    assert (0 <= dval (d :: p)) by (rewrite dval_cons; nia).
    destruct (Z.leb_spec (dval (d :: p)) UINT64_MAX) as [|Hbig]; [by apply to_ll_spec|].
    assert (limit negative < dval (d :: p)) by (unfold limit; destruct negative; mach).
    destruct (Z.leb_spec (dval (d :: p)) (limit negative)); [lia|done].
  - destruct (scan_digits (d - 48) p) as [[w [|]]|] eqn:E; try done.
    by apply scan_digits_stuck in E.
Qed.

Lemma scalar_is_ref s : string2llScalar s = parse_ref s.
Proof.
  unfold string2llScalar, parse_ref. destruct s as [|c s']; [done|].
  destruct (LONG_STR_SIZE <=? alen (c :: s')); [done|].
  destruct ((alen (c :: s') =? 1) && is_digit c); [done|].
  assert (Hcond : forall d, (49 <=? d) && (d <=? 57) = negb (d =? 48) && is_digit d).
  { intros d. unfold is_digit. lia. }
  destruct (c =? 45).
  - destruct s' as [|d p]; [done|]. by apply scalar_body.
  - by apply scalar_body.
Qed.

(** *** The vector reduction *)
Definition reduce (l : list Z) : list Z := madd i32 10000 1 (madd sat16 100 1 (map u8 (madd sat16 10 1 l))).

Definition is_dig (d : Z) : Prop := 0 <= d <= 9.

Lemma reduce8 a b c d e f g h l : Forall is_dig [a; b; c; d; e; f; g; h] ->
  reduce (a :: b :: c :: d :: e :: f :: g :: h :: l) = horner [a; b; c; d; e; f; g; h] :: reduce l.
Proof.
  rewrite !Forall_cons. unfold is_dig. intros H. unfold reduce. cbn [madd map]. f_equal.
  unfold horner. cbn [fold_left].
  assert (Hs : forall x, 0 <= x <= 9999 -> sat16 x = x) by (intros; unfold sat16; lia).
  assert (Hu : forall x, 0 <= x <= 99 -> u8 x = x) by (intros; apply wrap_small; mach).
  rewrite !(Hs (_ * 10 + _ * 1)) by lia. rewrite !(Hu (_ * 10 + _ * 1)) by lia. rewrite !(Hs (_ * 100 + _ * 1)) by lia.
  rewrite swrap_small; [lia|lia|mach].
Qed.

Lemma horner_range l : Forall is_dig l -> 0 <= horner l < 10 ^ alen l.
Proof.
  unfold is_dig. induction 1 as [|d l Hd Hl IH]; [done|]. rewrite horner_cons. unfold alen in *. simpl length.
  rewrite Nat2Z.inj_succ, Z.pow_succ_r by lia. nia.
Qed.

Lemma reduce32 L : length L = 32%nat -> Forall is_dig L ->
  exists h0 h1 h2 h3, reduce L = [h0; h1; h2; h3] /\ 0 <= h0 < 10 ^ 8 /\ 0 <= h1 < 10 ^ 8 /\ 0 <= h2 < 10 ^ 8 /\
    0 <= h3 < 10 ^ 8 /\ horner L = ((h0 * 10 ^ 8 + h1) * 10 ^ 8 + h2) * 10 ^ 8 + h3.
Proof.
  intros Hlen Hd.
  assert (Hchunk : forall n (l : list Z), length l = (8 + n)%nat -> Forall is_dig l ->
    exists h l', reduce l = h :: reduce l' /\ 0 <= h < 10 ^ 8 /\ length l' = n /\ Forall is_dig l' /\
      horner l = h * 10 ^ Z.of_nat n + horner l').
  { intros n l Hl Hf. do 8 (destruct l as [|? l]; [done|]).
    change (?a :: ?b :: ?c :: ?d :: ?e :: ?f :: ?g :: ?h :: l) with ([a; b; c; d; e; f; g; h] ++ l) in Hf.
    apply Forall_app in Hf as [Hf8 Hf]. eexists _, l. rewrite reduce8 by done. split_and!; [done| | |simpl in Hl; lia|done|].
    1,2: by apply horner_range.
    change (?a :: ?b :: ?c :: ?d :: ?e :: ?f :: ?g :: ?h :: l) with ([a; b; c; d; e; f; g; h] ++ l).
    rewrite horner_app. unfold alen. simpl in Hl. by replace (length l) with n by lia. }
  destruct (Hchunk 24%nat L Hlen Hd) as (h0 & l0 & E0 & R0 & L0 & D0 & V0).
  destruct (Hchunk 16%nat l0 L0 D0) as (h1 & l1 & E1 & R1 & L1 & D1 & V1).
  destruct (Hchunk 8%nat l1 L1 D1) as (h2 & l2 & E2 & R2 & L2 & D2 & V2).
  destruct (Hchunk 0%nat l2 L2 D2) as (h3 & l3 & E3 & R3 & L3 & D3 & V3).
  destruct l3; [|done]. exists h0, h1, h2, h3. rewrite E0, E1, E2, E3, V0, V1, V2, V3.
  split_and!; try done; try lia. change (horner []) with 0. change (Z.of_nat 24) with 24. change (Z.of_nat 16) with 16. change (Z.of_nat 8) with 8. change (Z.of_nat 0) with 0. lia.
Qed.

(** *** The vector load *)
Definition lane_mask (n : Z) : Z := u32 (Z.shiftl 4294967295 (32 - n)).

Lemma lane_mask_facts n : 1 <= n <= 20 ->
  (Z.land (lane_mask n) 16777215 =? 0) = (n <=? 8) /\ (Z.land (lane_mask n) 65535 =? 0) = (n <=? 16) /\
  forall i, 0 <= i < 32 -> bit_get (lane_mask n) i = (32 - n <=? i).
Proof.
  intros Hn.
  assert (H : Forall (fun n => (Z.land (lane_mask n) 16777215 =? 0) = (n <=? 8) /\
    (Z.land (lane_mask n) 65535 =? 0) = (n <=? 16) /\
    Forall (fun i => bit_get (lane_mask n) i = (32 - n <=? i)) (seqZ 0 32)) (seqZ 1 20)).
  { apply (bool_decide_unpack _). vm_compute. done. }
  rewrite Forall_forall in H. destruct (H n) as (H1 & H2 & H3); [apply elem_of_seqZ; lia|].
  rewrite Forall_forall in H3. split_and!; [done|done|]. intros i Hi. apply H3, elem_of_seqZ. lia.
Qed.

Lemma lanes_loaded (s p : bytes) plen : 1 <= alen p <= 20 -> alen s = plen + alen p -> 0 <= plen ->
  drop (Z.to_nat plen) s = p ->
  imap (fun i c => if bit_get (lane_mask (alen p)) (Z.of_nat i) then u8 (c - 48) else 0)
    (map (fun i => if bit_get (lane_mask (alen p)) i then aget s (alen s - 32 + i) else 0) (seqZ 0 32)) =
  replicate (Z.to_nat (32 - alen p)) 0 ++ map (fun c => u8 (c - 48)) p.
Proof.
  intros Hp Hs Hpl Hdrop. destruct (lane_mask_facts (alen p) Hp) as (_ & _ & Hbit).
  assert (Hlp : length p = Z.to_nat (alen p)) by (unfold alen; lia).
  apply (list_eq_same_length _ _ 32).
  - rewrite length_app, length_replicate, length_map, Hlp. lia.
  - rewrite length_imap, length_map, length_seqZ. done.
  - intros k x y Hk Hx Hy. rewrite list_lookup_imap, list_lookup_fmap, lookup_seqZ_lt in Hx by lia.
    simpl in Hx. rewrite Hbit in Hx by lia. apply (inj Some) in Hx as <-.
    destruct (Z.leb_spec (32 - alen p) (Z.of_nat k)) as [Hin|Hout].
    + rewrite Hbit by lia. destruct (Z.leb_spec (32 - alen p) (0 + Z.of_nat k)); [|lia].
      rewrite lookup_app_r in Hy by (rewrite length_replicate; lia).
      rewrite length_replicate, list_lookup_fmap in Hy.
      destruct (p !! (k - Z.to_nat (32 - alen p))%nat) as [c|] eqn:Ep; [|done]. apply (inj Some) in Hy as <-.
      do 2 f_equal. unfold aget. rewrite <- Hdrop, lookup_drop, Hdrop in Ep.
      replace (Z.to_nat (alen s - 32 + (0 + Z.of_nat k))) with (Z.to_nat plen + (k - Z.to_nat (32 - alen p)))%nat by lia.
      by apply list_lookup_total_correct.
    + rewrite lookup_app_l in Hy by (rewrite length_replicate; lia).
      rewrite lookup_replicate_2 in Hy by lia. by apply (inj Some) in Hy.
Qed.

Lemma is_digit_u8 c : in_u 8 c -> is_digit c = negb (9 <? u8 (c - 48)).
Proof.
  intros Hc. unfold is_digit, wrap. unfold in_u in Hc. change (2 ^ 8) with 256 in *.
  destruct (Z.lt_ge_cases c 48).
  - replace ((c - 48) mod 256) with (c - 48 + 256); [lia|].
    apply Z.mod_unique with (-1); lia.
  - rewrite Z.mod_small by lia. lia.
Qed.

Lemma existsb_lanes (p : bytes) k : is_bytes p ->
  existsb (fun d => 9 <? d) (replicate k 0 ++ map (fun c => u8 (c - 48)) p) = negb (all_digits p).
Proof.
  intros Hp. rewrite existsb_app. assert (existsb (fun d => 9 <? d) (replicate k 0) = false) as ->.
  { induction k; [done|]. simpl. done. }
  simpl. induction Hp as [|c p Hc Hp IH]; [done|]. simpl existsb. rewrite IH, all_digits_cons, (is_digit_u8 c Hc).
  by destruct (9 <? u8 (c - 48)), (all_digits p).
Qed.

Lemma lanes_value (p : bytes) k : all_digits p = true ->
  Forall is_dig (replicate k 0 ++ map (fun c => u8 (c - 48)) p) /\
  horner (replicate k 0 ++ map (fun c => u8 (c - 48)) p) = dval p.
Proof.
  intros Hd. assert (map (fun c => u8 (c - 48)) p = map (fun c => c - 48) p /\ Forall is_dig (map (fun c => c - 48) p)) as [-> Hf].
  { induction p as [|c p IH]; [done|]. rewrite all_digits_cons in Hd. apply andb_true_iff in Hd as [Hc Hp].
    destruct (IH Hp) as [E Hf]. unfold is_digit in Hc. cmp_prop. simpl. rewrite E.
    rewrite wrap_small by mach. split; [done|]. constructor; [unfold is_dig; lia|done]. }
  split.
  - apply Forall_app. split; [|done]. apply Forall_replicate. unfold is_dig. lia.
  - rewrite horner_app. assert (horner (replicate k 0) = 0) as ->; [|unfold dval; lia].
    induction k; [done|]. simpl. rewrite horner_cons. lia.
Qed.

Lemma i64_sign (negative : bool) v : 0 <= v < 2 ^ 63 ->
  i64 (if negative then u64 (- v) else v) = if negative then - v else v.
Proof.
  intros Hv. destruct negative.
  - unfold swrap, wrap. change (64 - 1) with 63. rewrite Zplus_mod_idemp_l.
    assert (0 <= - v + 2 ^ 63 < 2 ^ 64) by mach. rewrite Z.mod_small by done. lia.
  - apply swrap_small; [lia|]. change (64 - 1) with 63. lia.
Qed.

(** The part of the AVX-512 parser after the sign and the leading digit. *)
Lemma avx_body (L : list Z) (negative : bool) n v : length L = 32%nat -> Forall is_dig L -> horner L = v ->
  0 <= v < 10 ^ n -> 1 <= n <= 20 ->
  (let m4 : list Z := reduce L in
   let low := u64 (aget m4 3) in
   if Z.land (lane_mask n) 16777215 =? 0 then Some (i64 (if negative then u64 (- low) else low))
   else
     let middle_low := low +64 (100000000 *64 u64 (aget m4 2)) in
     if Z.land (lane_mask n) 65535 =? 0 then Some (i64 (if negative then u64 (- middle_low) else middle_low))
     else
       let high := u64 (aget m4 1) in
       let result := middle_low +64 (10000000000000000 *64 high) in
       if (1844 <? high) || (result <? middle_low) then None else to_ll negative result) =
  if v <=? limit negative then Some (if negative then - v else v) else None.
Proof.
  intros Hlen Hd Hv Hr Hn. destruct (lane_mask_facts n Hn) as (-> & -> & _).
  destruct (reduce32 L Hlen Hd) as (h0 & h1 & h2 & h3 & -> & R0 & R1 & R2 & R3 & E).
  rewrite Hv in E. change (10 ^ 8) with 100000000 in *.
  unfold aget. simpl lookup_total. cbv zeta.
  assert (Hlim : forall x, x < 2 ^ 63 -> (x <=? limit negative) = true).
  { intros x Hx. apply Z.leb_le. unfold limit. destruct negative; lia. }
  rewrite !(wrap_small 64 h1), !(wrap_small 64 h2), !(wrap_small 64 h3) by mach.
  destruct (Z.leb_spec n 8) as [H8|H8].
  { assert (10 ^ n <= 10 ^ 8) as Hp by (apply Z.pow_le_mono_r; lia). change (10 ^ 8) with 100000000 in Hp.
    assert (v = h3) as -> by lia. rewrite Hlim by mach. f_equal. apply i64_sign. mach. }
  rewrite (wrap_small 64 (100000000 * h2)) by mach. rewrite (wrap_small 64 (h3 + 100000000 * h2)) by mach.
  destruct (Z.leb_spec n 16) as [H16|H16].
  { assert (10 ^ n <= 10 ^ 16) as Hp by (apply Z.pow_le_mono_r; lia). change (10 ^ 16) with 10000000000000000 in Hp.
    assert (v = h3 + 100000000 * h2) as -> by lia. rewrite Hlim by mach. f_equal. apply i64_sign. mach. }
  assert (10 ^ n <= 10 ^ 20) as Hp by (apply Z.pow_le_mono_r; lia). change (10 ^ 20) with 100000000000000000000 in Hp.
  assert (h0 = 0) as -> by lia. assert (h1 < 10000) by lia.
  assert (Hnone : 2 ^ 64 <= v -> (v <=? limit negative) = false).
  { intros Hb. apply Z.leb_gt. unfold limit. destruct negative; mach. }
  destruct (Z.ltb_spec 1844 h1) as [Hh|Hh]; simpl orb.
  { by rewrite Hnone by mach. }
  rewrite (wrap_small 64 (10000000000000000 * h1)) by mach.
  set (ml := h3 + 100000000 * h2) in *. assert (v = ml + 10000000000000000 * h1) as Ev by lia.
  rewrite <- Ev. destruct (Z.lt_ge_cases v (2 ^ 64)) as [Hs|Hb].
  - rewrite (wrap_small 64 v) by mach. destruct (Z.ltb_spec v ml); [lia|]. apply to_ll_spec. lia.
  - rewrite Hnone by done. assert (u64 v = v - 2 ^ 64) as ->.
    { unfold wrap. symmetry. apply Z.mod_unique with 1; [left; mach|lia]. }
    destruct (Z.ltb_spec (v - 2 ^ 64) ml) as [|Hge]; [done|]. exfalso. mach.
Qed.

Lemma avx_is_ref s : is_bytes s -> string2llAVX512 s = parse_ref s.
Proof.
  intros Hb. unfold string2llAVX512, parse_ref. destruct s as [|c s']; [done|].
  destruct (LONG_STR_SIZE <=? alen (c :: s')) eqn:Hlen; [done|]. unfold LONG_STR_SIZE in Hlen. cmp_prop.
  destruct ((alen (c :: s') =? 1) && is_digit c); [done|].
  set (s := c :: s') in *.
  assert (Hgen : forall (negative : bool) p plen, drop (Z.to_nat plen) s = p -> alen s = plen + alen p -> 0 <= plen ->
    (if plen =? alen s then None
     else if aget p 0 =? 48 then None
     else
       let mask := u32 (Z.shiftl 4294967295 (32 - alen s + plen)) in
       let L := imap (fun i c => if bit_get mask (Z.of_nat i) then u8 (c - 48) else 0)
         (map (fun i => if bit_get mask i then aget s (alen s - 32 + i) else 0) (seqZ 0 32)) in
       if existsb (fun d => 9 <? d) L then None
       else
         let m4 := reduce L in
         let low := u64 (aget m4 3) in
         if Z.land mask 16777215 =? 0 then Some (i64 (if negative then u64 (- low) else low))
         else
           let middle_low := low +64 (100000000 *64 u64 (aget m4 2)) in
           if Z.land mask 65535 =? 0 then Some (i64 (if negative then u64 (- middle_low) else middle_low))
           else
             let high := u64 (aget m4 1) in
             let result := middle_low +64 (10000000000000000 *64 high) in
             if (1844 <? high) || (result <? middle_low) then None else to_ll negative result) =
    match p with
    | [] => None
    | d :: _ => if negb (d =? 48) && all_digits p && (dval p <=? limit negative)
                then Some (if negative then - dval p else dval p) else None
    end).
  { intros negative [|d q] plen Hdrop Hsum Hpl.
    { change (alen []) with 0 in Hsum. by destruct (Z.eqb_spec plen (alen s)); [|lia]. }
    change (aget (d :: q) 0) with d. assert (1 <= alen (d :: q) <= 20).
    { unfold alen in *. simpl length in *. lia. }
    set (p := d :: q) in *. destruct (Z.eqb_spec plen (alen s)); [lia|].
    destruct (d =? 48); [done|]. rewrite andb_true_l. cbv zeta.
    replace (32 - alen s + plen) with (32 - alen p) by lia.
    change (u32 (Z.shiftl 4294967295 (32 - alen p))) with (lane_mask (alen p)).
    rewrite (lanes_loaded s p plen) by (done || lia).
    rewrite existsb_lanes by (rewrite <- Hdrop; by apply Forall_drop).
    destruct (all_digits p) eqn:Hd; [|done]. rewrite andb_true_l. cbn [negb].
    destruct (lanes_value p (Z.to_nat (32 - alen p)) Hd) as [Hf Hv].
    apply avx_body; try done.
    - rewrite length_app, length_replicate, length_map. unfold alen in *. lia.
    - by apply dval_range. }
  destruct (c =? 45).
  - apply (Hgen true s' 1); [done|unfold s, alen; simpl length; lia|lia].
  - apply (Hgen false s 0); [done|lia|lia].
Qed.

(** ** Canonical strings *)
Lemma neg_value v : - 2 ^ 63 <= v < 0 -> (if v =? LLONG_MIN then u64 LLONG_MAX +64 1 else u64 (- v)) = - v.
Proof.
  intros Hv. destruct (Z.eqb_spec v LLONG_MIN) as [->|]; [reflexivity|]. apply wrap_small. mach.
Qed.

(** The digits of a number, without sign. *)
Definition magnitude (v : Z) : bytes := digits_of (Z.to_nat (digits10 v)) v.

Lemma magnitude_spec v : 0 <= v < 2 ^ 64 ->
  all_digits (magnitude v) = true /\ dval (magnitude v) = v /\ alen (magnitude v) = digits10 v.
Proof.
  intros Hv. destruct (digits10_spec v Hv) as (Hd & Hu & _). unfold magnitude. split_and!.
  - apply all_digits_of.
  - rewrite dval_digits_of, Z2Nat.id by lia. apply Z.mod_small. lia.
  - unfold alen. rewrite length_digits_of. lia.
Qed.

(** A digit string without a leading zero is the magnitude of its value. *)
Lemma magnitude_unique d p : all_digits (d :: p) = true -> d <> 48 \/ p = [] -> dval (d :: p) < 2 ^ 64 ->
  d :: p = magnitude (dval (d :: p)).
Proof.
  intros Hd Hlead Hb. pose proof (dval_range _ Hd) as Hr. destruct (magnitude_spec (dval (d :: p)) ltac:(lia)) as (Ha & Hv & Hl).
  apply dval_inj; [done|done| |done]. rewrite Hl.
  destruct (digits10_spec (dval (d :: p)) ltac:(lia)) as (Hdr & Hu & Hlo).
  assert (Hlen : alen (d :: p) = 1 + alen p) by (unfold alen; simpl length; lia).
  assert (0 <= alen p) by (unfold alen; lia).
  rewrite all_digits_cons in Hd. apply andb_true_iff in Hd as [Hc Hp]. unfold is_digit in Hc. cmp_prop.
  pose proof (dval_range p Hp) as Hrp. rewrite dval_cons in *. rewrite Hlen in *.
  set (v := (d - 48) * 10 ^ alen p + dval p) in *.
  destruct (Z.eq_dec d 48) as [->|Hne].
  - destruct Hlead as [|Hnil]; [done|]. unfold v. rewrite Hnil. reflexivity.
  - assert (10 ^ alen p <= v) by (unfold v; nia). specialize (Hlo ltac:(lia)).
    assert (digits10 v - 1 < 1 + alen p) by (apply (Z.pow_lt_mono_r_iff 10); lia).
    assert (alen p < digits10 v) by (apply (Z.pow_lt_mono_r_iff 10); lia). lia.
Qed.

Lemma magnitude_head v : 0 <= v < 2 ^ 64 -> exists d p, magnitude v = d :: p /\ is_digit d = true /\ (1 <= v -> d <> 48).
Proof.
  intros Hv. destruct (magnitude_spec v Hv) as (Ha & Hval & Hl). destruct (digits10_spec v Hv) as (Hd & Hu & Hlo).
  destruct (magnitude v) as [|d p]; [change (alen []) with 0 in Hl; lia|]. exists d, p.
  rewrite all_digits_cons in Ha. apply andb_true_iff in Ha as [Hc Hp]. split_and!; [done|done|].
  intros H1 ->. specialize (Hlo H1). rewrite dval_cons in Hval. pose proof (dval_range p Hp).
  assert (alen (48 :: p) = 1 + alen p) as Hlen by (unfold alen; simpl length; lia).
  replace (digits10 v - 1) with (alen p) in Hlo by lia. lia.
Qed.

Lemma decimal_cases v : decimal v = if v <? 0 then 45 :: magnitude (- v) else magnitude v.
Proof. done. Qed.

(** Both parsers accept exactly the canonical strings. *)
Lemma parse_ref_decimal v : - 2 ^ 63 <= v < 2 ^ 63 -> parse_ref (decimal v) = Some v.
Proof.
  intros Hv. rewrite decimal_cases. destruct (Z.ltb_spec v 0) as [Hneg|Hpos].
  - destruct (magnitude_spec (- v) ltac:(mach)) as (Ha & Hval & Hl). destruct (digits10_spec (- v) ltac:(mach)) as (Hd & Hu & Hlo).
    destruct (magnitude_head (- v) ltac:(mach)) as (d & p & E & Hc & Hlead). specialize (Hlo ltac:(lia)). specialize (Hlead ltac:(lia)).
    unfold parse_ref. assert (Hlen : alen (45 :: magnitude (- v)) = 1 + digits10 (- v)) by (unfold alen in *; simpl length; lia).
    assert (digits10 (- v) <= 19).
    { destruct (Z.le_gt_cases (digits10 (- v)) 19) as [|Hgt]; [done|].
      assert (10 ^ 19 <= 10 ^ (digits10 (- v) - 1)) as Hp by (apply Z.pow_le_mono_r; lia).
      change (10 ^ 19) with 10000000000000000000 in Hp. mach. }
    rewrite Hlen. unfold LONG_STR_SIZE.
    destruct (Z.leb_spec 21 (1 + digits10 (- v))); [lia|]. destruct (Z.eqb_spec (1 + digits10 (- v)) 1); [lia|].
    cbn [andb]. change (45 =? 45) with true. cbv beta iota. rewrite E in *. cbv beta iota. rewrite Ha, Hval.
    destruct (Z.eqb_spec d 48); [done|]. cbn [negb andb]. destruct (Z.leb_spec (- v) (limit true)) as [|Hgt].
    + f_equal. lia.
    + unfold limit in Hgt. lia.
  - destruct (magnitude_spec v ltac:(mach)) as (Ha & Hval & Hl). destruct (digits10_spec v ltac:(mach)) as (Hd & Hu & Hlo).
    destruct (magnitude_head v ltac:(mach)) as (d & p & E & Hc & Hlead).
    rewrite E in *. unfold parse_ref. rewrite Hl, Hc. unfold LONG_STR_SIZE.
    destruct (Z.leb_spec 21 (digits10 v)); [lia|]. destruct (Z.eqb_spec (digits10 v) 1) as [H1|Hn1].
    + cbn [andb]. destruct p; [|unfold alen in Hl; simpl length in Hl; lia]. f_equal. rewrite dval_cons in Hval.
      change (dval []) with 0 in Hval. change (alen []) with 0 in Hval. lia.
    + cbn [andb]. assert (1 <= v).
      { destruct (Z.le_gt_cases 1 v); [done|]. assert (v = 0) as -> by lia. by destruct Hn1. }
      unfold is_digit in Hc. cmp_prop. destruct (Z.eqb_spec d 45); [lia|]. rewrite Ha, Hval.
      destruct (Z.eqb_spec d 48); [by destruct Hlead|]. cbn [negb andb].
      destruct (Z.leb_spec v (limit false)) as [|Hgt]; [done|]. unfold limit in Hgt. lia.
Qed.

Lemma parse_ref_inv s v : parse_ref s = Some v -> s = decimal v /\ - 2 ^ 63 <= v < 2 ^ 63.
Proof.
  unfold parse_ref. destruct s as [|c s']; [done|]. unfold LONG_STR_SIZE.
  destruct (21 <=? alen (c :: s')) eqn:Hlen; [done|]. destruct ((alen (c :: s') =? 1) && is_digit c) eqn:H1.
  { cmp_prop. intros Hv. simplify_eq. destruct s'; [|unfold alen in *; simpl length in *; lia].
    match goal with H : is_digit c = true |- _ => rename H into Hc end.
    pose proof (magnitude_unique c [] ltac:(by rewrite all_digits_cons, Hc) ltac:(by right)) as Hm.
    change (dval [c]) with (c - 48) in Hm. unfold is_digit in Hc. cmp_prop.
    rewrite decimal_cases. destruct (Z.ltb_spec (c - 48) 0); [lia|]. split; [apply Hm; mach|mach]. }
  destruct (Z.eqb_spec c 45) as [->|Hc].
  - destruct s' as [|d p]; [done|]. intros Hv. case_if_in Hv; [|done]. simplify_eq.
    assert (0 < dval (d :: p) <= 2 ^ 63) as Hr.
    { match goal with H : all_digits _ = true |- _ => pose proof H as Hd; rewrite all_digits_cons in H end. cmp_prop.
      unfold is_digit in *. cmp_prop. unfold limit in *.
      pose proof (dval_range p ltac:(done)). assert (0 < 10 ^ alen p) by (apply Z.pow_pos_nonneg; unfold alen; lia).
      rewrite dval_cons in *. split; [nia|done]. }
    rewrite decimal_cases. destruct (Z.ltb_spec (- dval (d :: p)) 0); [|lia]. rewrite Z.opp_involutive. split; [|lia].
    f_equal. apply magnitude_unique; [done|by left|mach].
  - intros Hv. case_if_in Hv; [|done]. simplify_eq. unfold limit in *.
    pose proof (dval_range (c :: s') ltac:(done)). rewrite decimal_cases.
    destruct (Z.ltb_spec (dval (c :: s')) 0); [lia|]. split; [|lia].
    apply magnitude_unique; [done|by left|mach].
Qed.

Lemma length_decimal v : - 2 ^ 63 <= v < 2 ^ 63 -> alen (decimal v) = sdigits10 v.
Proof.
  intros Hv. rewrite decimal_cases. unfold sdigits10. destruct (Z.ltb_spec v 0).
  - rewrite neg_value by lia. destruct (magnitude_spec (- v) ltac:(mach)) as (_ & _ & Hl).
    unfold alen in *. simpl length. lia.
  - destruct (magnitude_spec v ltac:(mach)) as (_ & _ & Hl). done.
Qed.

Lemma sdigits10_bound v : - 2 ^ 63 <= v < 2 ^ 63 -> 1 <= sdigits10 v <= 21.
Proof.
  intros Hv. unfold sdigits10. destruct (Z.ltb_spec v 0).
  - rewrite neg_value by lia. destruct (digits10_spec (- v) ltac:(mach)) as (? & _). lia.
  - destruct (digits10_spec v ltac:(mach)) as (? & _). lia.
Qed.

Lemma ll2string_short dst dstlen v : - 2 ^ 63 <= v < 2 ^ 63 -> 0 <= dstlen <= alen dst ->
  dstlen <= sdigits10 v -> (ll2string dst dstlen v).1 = 0.
Proof.
  intros Hv Hdst Hshort. unfold alen in Hdst.
  unfold ll2string, sdigits10 in *. destruct (Z.ltb_spec v 0) as [Hneg|Hpos].
  - rewrite neg_value in * by lia. rewrite ull2string_spec by (mach || (unfold alen; rewrite length_drop; lia)).
    destruct (Z.ltb_spec dstlen 2), (Z.leb_spec (dstlen - 1) (digits10 (- v))); try lia; done.
  - rewrite ull2string_spec by (mach || (unfold alen; lia)).
    destruct (Z.leb_spec dstlen (digits10 v)); [done|lia].
Qed.

Lemma ll2string_decimal dst dstlen v len buf : - 2 ^ 63 <= v < 2 ^ 63 -> 0 <= dstlen <= alen dst ->
  ll2string dst dstlen v = (len, buf) -> sdigits10 v < dstlen ->
  len = sdigits10 v /\ take (Z.to_nat len) buf = decimal v /\ buf !! Z.to_nat len = Some 0.
Proof.
  intros Hv Hdst E Hfit. pose proof (length_decimal v Hv) as Hlen. unfold alen in Hdst.
  unfold ll2string, sdigits10 in *. rewrite decimal_cases in *. destruct (Z.ltb_spec v 0) as [Hneg|Hpos].
  - rewrite neg_value in * by lia. destruct (digits10_spec (- v) ltac:(mach)) as (Hd & _).
    rewrite ull2string_spec in E by (mach || (unfold alen; rewrite length_drop; lia)).
    destruct (Z.ltb_spec dstlen 2), (Z.leb_spec (dstlen - 1) (digits10 (- v))); try lia.
    destruct (Z.eqb_spec (digits10 (- v)) 0); [lia|]. simplify_eq. split; [done|].
    replace (Z.to_nat (digits10 (- v) + 1)) with (S (Z.to_nat (digits10 (- v)))) by lia.
    cbn [take lookup]. split.
    + f_equal. by rewrite take_app_length' by (by rewrite length_digits_of).
    + simpl. rewrite lookup_app_r by (by rewrite length_digits_of). by rewrite length_digits_of, Nat.sub_diag.
  - rewrite ull2string_spec in E by (mach || (unfold alen; lia)).
    destruct (Z.leb_spec dstlen (digits10 v)); [lia|]. simplify_eq. split_and!; [done| |].
    + by rewrite take_app_length' by (by rewrite length_digits_of).
    + rewrite lookup_app_r by (by rewrite length_digits_of). by rewrite length_digits_of, Nat.sub_diag.
Qed.

(** ** Properties *)

(** C27. [string2llAVX512] and [string2llScalar] agree on every byte string:
    the vector routine, with its masks, saturating multiplications and
    overflow tests, accepts the same strings and yields the same values. *)
Theorem string2ll_avx512_equiv s : is_bytes s -> string2llAVX512 s = string2llScalar s.
Proof. intros Hb. by rewrite avx_is_ref, scalar_is_ref. Qed.

Lemma string2ll_avx512_equiv_witness :
  string2llAVX512 [45; 57; 50; 50; 51; 51; 55; 50; 48; 51; 54; 56; 53; 52; 55; 55; 53; 56; 48; 56] =
  string2llScalar [45; 57; 50; 50; 51; 51; 55; 50; 48; 51; 54; 56; 53; 52; 55; 55; 53; 56; 48; 56].
Proof.
  apply string2ll_avx512_equiv. repeat (constructor; [vm_compute; split; congruence|]). constructor.
Defined.

(** [string2ll] accepts exactly the canonical decimal strings of the
    [long long] values: it returns [v] on [s] iff [v] fits and [s] is the
    string that represents [v] (no sign on zero, no leading zeros, no spaces). *)
Theorem string2ll_exact s v :
  string2llScalar s = Some v <-> s = decimal v /\ - 2 ^ 63 <= v < 2 ^ 63.
Proof.
  rewrite scalar_is_ref. split; [apply parse_ref_inv|]. intros [-> Hv]. by apply parse_ref_decimal.
Qed.

(** [ll2string] on a buffer of [dstlen] bytes: it returns 0 exactly when
    the string and its terminator do not fit; otherwise it returns the length,
    the buffer starts with the canonical decimal string followed by a zero
    byte, and [string2ll] reads the value back. *)
Theorem ll2string_correct dst dstlen v len buf :
  - 2 ^ 63 <= v < 2 ^ 63 -> 0 <= dstlen <= alen dst -> ll2string dst dstlen v = (len, buf) ->
  if dstlen <=? sdigits10 v then len = 0
  else len = sdigits10 v /\ take (Z.to_nat len) buf = decimal v /\ buf !! Z.to_nat len = Some 0 /\
       string2llScalar (take (Z.to_nat len) buf) = Some v.
Proof.
  intros Hv Hdst E. destruct (Z.leb_spec dstlen (sdigits10 v)) as [Hs|Hs].
  - pose proof (ll2string_short dst dstlen v Hv Hdst Hs) as H0. by rewrite E in H0.
  - destruct (ll2string_decimal dst dstlen v len buf Hv Hdst E Hs) as (? & Hd & ?).
    split_and!; try done. rewrite Hd, scalar_is_ref. by apply parse_ref_decimal.
Qed.

Lemma ll2string_correct_witness :
  let r := ll2string (calloc 21 7) 21 (-905) in
  if 21 <=? sdigits10 (-905) then r.1 = 0
  else r.1 = sdigits10 (-905) /\ take (Z.to_nat r.1) r.2 = decimal (-905) /\ r.2 !! Z.to_nat r.1 = Some 0 /\
       string2llScalar (take (Z.to_nat r.1) r.2) = Some (-905).
Proof.
  apply (ll2string_correct (calloc 21 7) 21 (-905)).
  - vm_compute. split; congruence.
  - vm_compute. split; congruence.
  - vm_compute. reflexivity.
Defined.
