(* ===== verification/Sovereign.v ===== *)
(** * Sovereign extensions (src/src/sovereign.c)

    The speculative filter consulted by [lookupKey], the vitality counters of
    the values (reinforced on access, decayed by the gardener, read by the
    eviction pool) and the synaptic map.  [dictGenHashFunction] (SipHash with
    a per-process seed) is the argument [hash]; the random choices of the
    gardener are arguments. *)
From S2P Require Import Prelude FilterSpec IntString.

Inductive hw_dna_t := HW_GENERIC | HW_INTEL_AVX2 | HW_INTEL_AVX512 | HW_ARM_SVE2 | HW_APPLE_AMX.

#[export] Instance hw_dna_t_eq_dec : EqDecision hw_dna_t.
Proof. solve_decision. Defined.

(** The x86-64 branch of [Sovereign_SenseDNA]. *)
Definition Sovereign_SenseDNA (avx512f avx2 : bool) : hw_dna_t :=
  if avx512f then HW_INTEL_AVX512 else if avx2 then HW_INTEL_AVX2 else HW_GENERIC.

Definition FILTER_SIZE : Z := 1024 * 1024.
Definition SYNAPTIC_SLOTS : Z := 2048.

(** ** Hashing of keys *)
Inductive key_obj := key_int (v : Z) | key_sds (s : bytes).

Definition hash_sds (hash : bytes -> Z) (s : bytes) : Z := hash s.

Definition hash_key (hash : bytes -> Z) (key : option key_obj) : Z :=
  match key with
  | None => 0
  | Some (key_int v) => let '(len, buf) := ll2string (calloc 64 0) 64 v in hash (take (Z.to_nat len) buf)
  | Some (key_sds s) => hash_sds hash s
  end.

(** ** Pillar 1: the speculative filter; [None] is the NULL pointer *)
Definition filter := option (list Z).

Definition Sovereign_Init (f : filter) : list Z :=
  match f with Some b => b | None => calloc (FILTER_SIZE / 8) 0 end.

Definition Sovereign_UpdateFilterByHash (f : filter) (h : Z) : filter :=
  let b := Sovereign_Init f in
  let bit := u32 (h mod FILTER_SIZE) in
  Some (aset b (bit / 8) (u8 (Z.lor (aget b (bit / 8)) (Z.shiftl 1 (bit mod 8))))).

Definition Sovereign_UpdateFilter (hash : bytes -> Z) (f : filter) (key : option key_obj) : filter :=
  Sovereign_UpdateFilterByHash f (hash_key hash key).

Definition Sovereign_UpdateFilterSds (hash : bytes -> Z) (f : filter) (key : bytes) : filter :=
  Sovereign_UpdateFilterByHash f (hash_sds hash key).

Definition Sovereign_SpeculativeMissByHash (f : filter) (h : Z) : bool :=
  match f with
  | None => false
  | Some b =>
      let bit := u32 (h mod FILTER_SIZE) in
      Z.land (aget b (bit / 8)) (Z.shiftl 1 (bit mod 8)) =? 0
  end.

Definition Sovereign_SpeculativeMiss (hash : bytes -> Z) (f : filter) (key : option key_obj) : bool :=
  Sovereign_SpeculativeMissByHash f (hash_key hash key).

(** ** Pillar 3: vitality *)
Record robj := mkRobj { vitality : Z; refcount : Z }.
Definition OBJ_SHARED_REFCOUNT : Z := 2147483647.

Definition Sovereign_ReinforceSynapse (o : robj) : robj :=
  if vitality o <? 255 then mkRobj (vitality o + 1) (refcount o) else o.

Definition Sovereign_GetEvictionScore (o : robj) : Z := u64 (255 - vitality o).

(** Decay of one sampled value: shared objects are skipped. *)
Definition decay (o : robj) : robj :=
  if refcount o =? OBJ_SHARED_REFCOUNT then o
  else if 0 <? vitality o then mkRobj (vitality o - 1) (refcount o) else o.

Definition samples_per_db (dna : hw_dna_t) : Z := if decide (dna = HW_GENERIC) then 4 else 16.

(** One pass: [pick j i] is the value that sample [i] of database [j] returns
    ([None]: the random shard is empty); [under_pressure] is the maxmemory test. *)
Definition Sovereign_GardenerLoop (under_pressure : bool) (dna : hw_dna_t) (pick : Z -> Z -> option nat)
    (dbs : list (list robj)) : list (list robj) :=
  if under_pressure then dbs
  else imap (fun j db => for_loop (samples_per_db dna)
               (fun i db => match pick (Z.of_nat j) i with Some e => alter decay e db | None => db end) db) dbs.

(** ** Pillar 4: the synaptic map *)
Record synaptic_link := mkLink { trigger : Z; associate : Z; strength : Z }.
#[export] Instance synaptic_link_inhabited : Inhabited synaptic_link := populate (mkLink 0 0 0).

Definition Sovereign_LinkKeys (smap : list synaptic_link) (h1 h2 : Z) : list synaptic_link :=
  if (h1 =? 0) || (h2 =? 0) then smap
  else
    let idx := h1 mod SYNAPTIC_SLOTS in
    let l := aget smap idx in
    if (trigger l =? h1) && (associate l =? h2)
    then if strength l <? 255 then aset smap idx (mkLink (trigger l) (associate l) (strength l + 1)) else smap
    else aset smap idx (mkLink h1 h2 1).

(** ** The filter is an approximate set *)
Definition filter_ok (f : filter) : Prop :=
  match f with None => True | Some b => alen b = FILTER_SIZE / 8 /\ is_bytes b end.

Lemma filter_bit h : 0 <= h ->
  u32 (h mod FILTER_SIZE) = h mod FILTER_SIZE /\ 0 <= h mod FILTER_SIZE / 8 < FILTER_SIZE / 8 /\
  0 <= h mod FILTER_SIZE mod 8 < 8.
Proof.
  intros Hh. unfold FILTER_SIZE. change (1024 * 1024 / 8) with 131072. change (1024 * 1024) with 1048576.
  pose proof (Z.mod_pos_bound h 1048576). rewrite wrap_small by mach. split; [done|].
  split; [|apply Z.mod_pos_bound; lia]. split; [apply Z.div_pos; lia|apply Z.div_lt_upper_bound; lia].
Qed.

Lemma init_ok f : filter_ok f -> filter_ok (Some (Sovereign_Init f)).
Proof.
  destruct f as [b|]; [done|]. intros _. unfold Sovereign_Init, filter_ok, FILTER_SIZE. split.
  - apply alen_calloc. vm_compute. congruence.
  - apply Forall_replicate. mach.
Qed.

(** The bit of a hash in the filter. *)
Definition fbit (b : list Z) (h : Z) : bool := Z.testbit (aget b (h mod FILTER_SIZE / 8)) (h mod FILTER_SIZE mod 8).

Lemma miss_fbit b h : 0 <= h -> Sovereign_SpeculativeMissByHash (Some b) h = negb (fbit b h).
Proof.
  intros Hh. destruct (filter_bit h Hh) as (E & _ & Hb). unfold Sovereign_SpeculativeMissByHash, fbit. rewrite E.
  rewrite <- bit_mask_spec by lia. by rewrite negb_involutive.
Qed.

Lemma update_fbit f h g b : filter_ok f -> 0 <= h -> 0 <= g ->
  Sovereign_UpdateFilterByHash f h = Some b ->
  filter_ok (Some b) /\ fbit b g = fbit (Sovereign_Init f) g || (h mod FILTER_SIZE =? g mod FILTER_SIZE).
Proof.
  intros Hf Hh Hg E. destruct (filter_bit h Hh) as (Eh & Hi & Hb). destruct (filter_bit g Hg) as (_ & Hig & Hbg).
  destruct (init_ok f Hf) as [Hlen Hbytes]. unfold Sovereign_UpdateFilterByHash in E. rewrite Eh in E.
  apply (inj Some) in E as <-. set (b0 := Sovereign_Init f) in *.
  set (x := h mod FILTER_SIZE) in *. set (y := g mod FILTER_SIZE) in *.
  assert (Hx : in_u 8 (aget b0 (x / 8))) by (apply Forall_aget; [done|lia]).
  assert (Hw : u8 (Z.lor (aget b0 (x / 8)) (Z.shiftl 1 (x mod 8))) = bit_set (aget b0 (x / 8)) (x mod 8)).
  { apply wrap_small, bit_set_range; [done|done]. }
  rewrite Hw. split.
  - split; [by rewrite alen_aset|]. apply Forall_aset; [done|]. by apply bit_set_range.
  - unfold fbit. fold y. destruct (Z.eq_dec (x / 8) (y / 8)) as [Hd|Hd].
    + rewrite <- Hd, aget_aset_eq, bit_set_spec by lia. f_equal.
      pose proof (Z.div_mod x 8 ltac:(lia)). pose proof (Z.div_mod y 8 ltac:(lia)). lia.
    + rewrite aget_aset_ne by lia. destruct (Z.eqb_spec x y) as [Hxy|]; [by rewrite Hxy in Hd|by rewrite orb_false_r].
Qed.

(** A filter that [Sovereign_Init] has allocated.  (Before that [lookupKey]
    must not trust it: a NULL filter reports no miss, and the first update
    replaces it by an empty one.) *)
Definition filter_live (f : filter) : Prop := is_Some f /\ filter_ok f.

#[export] Instance sovereign_filter : ApproxSet filter_live
  (fun f h => Some (Sovereign_UpdateFilterByHash f h)) (fun f h => Some (negb (Sovereign_SpeculativeMissByHash f h))).
Proof.
  assert (Hsome : forall f h, exists b, Sovereign_UpdateFilterByHash f h = Some b) by (intros; by eexists).
  split.
  - intros f h [_ Hf] [Hh _]. eexists. split; [done|]. destruct (Hsome f h) as [b E]. rewrite E.
    split; [done|]. by apply (update_fbit f h h b).
  - intros f h _ _. by eexists.
  - intros f h f' [_ Hf] [Hh _] E. apply (inj Some) in E as <-. f_equal. destruct (Hsome f h) as [b E]. rewrite E.
    destruct (update_fbit f h h b Hf Hh Hh E) as [_ Hb].
    by rewrite miss_fbit, Hb, Z.eqb_refl, orb_true_r by done.
  - intros f h f' g [[b0 ->] Hf] [Hh _] [Hg _] E Hc. apply (inj Some) in E as <-. apply (inj Some) in Hc. f_equal.
    destruct (Hsome (Some b0) h) as [b E]. rewrite E. destruct (update_fbit _ h g b Hf Hh Hg E) as [_ Hb].
    rewrite miss_fbit, Hb by done. rewrite miss_fbit in Hc by done. simpl. rewrite negb_involutive in *. by rewrite Hc.
Qed.

Lemma filter_start : filter_live (Some (Sovereign_Init None)).
Proof. split; [done|]. by apply init_ok. Qed.

(** ** Vitality *)
Definition vital (o : robj) : Prop := 0 <= vitality o <= 255.
Definition total (os : list robj) : Z := foldr (fun o n => vitality o + n) 0 os.

Lemma decay_spec o : vital o -> vital (decay o) /\ vitality o - 1 <= vitality (decay o) <= vitality o /\
  (refcount o = OBJ_SHARED_REFCOUNT -> decay o = o) /\ refcount (decay o) = refcount o.
Proof.
  unfold vital, decay. intros Hv. repeat case_if; simpl; split_and!; try done; try lia.
Qed.

Lemma total_alter os e : Forall vital os ->
  Forall vital (alter decay e os) /\ total os - 1 <= total (alter decay e os) <= total os.
Proof.
  revert e. induction os as [|o os IH]; intros e Hf; [split; [done|simpl; lia]|].
  apply Forall_cons in Hf as [Ho Hos]. destruct (decay_spec o Ho) as (Hd & Hr & _).
  destruct e as [|e]; simpl.
  - split; [by constructor|lia].
  - destruct (IH e Hos) as [Hf Ht]. split; [by constructor|]. unfold alter in *. lia.
Qed.

(** ** Links *)
Lemma link_idx h : 0 <= h -> 0 <= h mod SYNAPTIC_SLOTS < SYNAPTIC_SLOTS.
Proof. intros. apply Z.mod_pos_bound. unfold SYNAPTIC_SLOTS. lia. Qed.

(** [n] observations of the same pair. *)
Fixpoint link_n (n : nat) (smap : list synaptic_link) (h1 h2 : Z) : list synaptic_link :=
  match n with
  | O => smap
  | S n => Sovereign_LinkKeys (link_n n smap h1 h2) h1 h2
  end.

(** ** Properties *)

(** The speculative filter has no false negatives, for keys in either
    encoding and any hash function: once [Sovereign_UpdateFilter] has seen a
    key, no later update makes [Sovereign_SpeculativeMiss] report it, so
    [lookupKey] never answers NULL for it from the filter. *)
Theorem speculative_filter_sound hash keys k :
  (forall s, in_u 64 (hash s)) -> k ∈ keys ->
  Sovereign_SpeculativeMiss hash (foldl (Sovereign_UpdateFilter hash) (Some (Sovereign_Init None)) keys) k = false.
Proof.
  intros Hhash Hk.
  assert (Hkey : forall o, in_u 64 (hash_key hash o)).
  { intros [[v|s]|]; [|apply Hhash|simpl; mach]. unfold hash_key. destruct (ll2string _ _ _). apply Hhash. }
  assert (Hfold : forall f, add_all (fun f h => Some (Sovereign_UpdateFilterByHash f h)) f (hash_key hash <$> keys) =
    Some (foldl (Sovereign_UpdateFilter hash) f keys)).
  { clear Hk. induction keys as [|o os IH]; intros f; [done|]. simpl. by rewrite IH. }
  assert (Hall : Forall (in_u 64) (hash_key hash <$> keys)).
  { apply Forall_fmap, Forall_true. intros. apply Hkey. }
  pose proof (add_all_found _ _ _ (hash_key hash k) filter_start Hall (Hfold _)) as Hf.
  specialize (Hf ltac:(by apply list_elem_of_fmap_2)). apply (inj Some), negb_true_iff in Hf. done.
Qed.

Lemma speculative_filter_sound_witness :
  Sovereign_SpeculativeMiss (fun s => u64 (dval s * 7919))
    (foldl (Sovereign_UpdateFilter (fun s => u64 (dval s * 7919))) (Some (Sovereign_Init None)) [Some (key_int 17); Some (key_sds [102; 111; 111])])
    (Some (key_sds [102; 111; 111])) = false.
Proof.
  apply speculative_filter_sound.
  - intros s. apply wrap_range. lia.
  - apply list_elem_of_further, list_elem_of_here.
Defined.

(** The hash of a key does not depend on its encoding: an INT-encoded
    key hashes as the decimal string it stands for, so a key added in one
    encoding is found in the other. *)
Theorem hash_key_encoding hash v : - 2 ^ 63 <= v < 2 ^ 63 ->
  hash_key hash (Some (key_int v)) = hash_key hash (Some (key_sds (decimal v))).
Proof.
  intros Hv. unfold hash_key, hash_sds. destruct (ll2string (calloc 64 0) 64 v) as [len buf] eqn:E.
  f_equal. pose proof (sdigits10_bound v Hv).
  apply (ll2string_decimal (calloc 64 0) 64 v len buf); [done|by vm_compute|done|lia].
Qed.

Lemma hash_key_encoding_witness :
  hash_key dval (Some (key_int (-42))) = hash_key dval (Some (key_sds (decimal (-42)))).
Proof. apply hash_key_encoding. vm_compute. split; congruence. Defined.

(** Vitality stays a byte, and one gardener pass takes at most one unit
    per sample: no value leaves 0..255, no database loses more than
    4 (generic hardware) or 16 units of vitality, none gains any. *)
Theorem gardener_bounded pressure dna pick dbs :
  Forall (Forall vital) dbs ->
  Forall2 (fun db db' => Forall vital db' /\ total db - samples_per_db dna <= total db' <= total db)
    dbs (Sovereign_GardenerLoop pressure dna pick dbs).
Proof.
  intros Hf. assert (Hs : 0 <= samples_per_db dna) by (unfold samples_per_db; case_decide; lia).
  unfold Sovereign_GardenerLoop. destruct pressure.
  { apply Forall_Forall2_diag. eapply Forall_impl; [done|]. intros db Hdb. simpl. split; [done|lia]. }
  apply Forall2_lookup. intros j. rewrite list_lookup_imap. destruct (dbs !! j) as [db|] eqn:E; simpl; constructor.
  rewrite Forall_lookup in Hf. specialize (Hf j db E).
  apply (for_loop_ind (fun i db' => Forall vital db' /\ total db - i <= total db' <= total db)); [done| |].
  - split; [done|lia].
  - intros i db' Hi [Hv Ht]. destruct (pick (Z.of_nat j) i) as [e|]; [|split; [done|lia]].
    destruct (total_alter db' e Hv) as [? ?]. split; [done|lia].
Qed.

Lemma gardener_bounded_witness :
  let dbs := [[mkRobj 3 1; mkRobj 0 1]; [mkRobj 255 OBJ_SHARED_REFCOUNT]] in
  Forall2 (fun db db' => Forall vital db' /\ total db - samples_per_db HW_GENERIC <= total db' <= total db)
    dbs (Sovereign_GardenerLoop false HW_GENERIC (fun _ _ => Some 0%nat) dbs).
Proof.
  apply gardener_bounded. unfold vital. rewrite !Forall_cons, Forall_nil. simpl. repeat split; try lia; apply Forall_nil; done.
Defined.

(** The eviction score is the complement of the vitality and never
    wraps: an access lowers the score by one (until 0), a decay raises it by
    at most one, and a saturated value stays saturated. *)
Theorem eviction_score_spec o : vital o ->
  0 <= Sovereign_GetEvictionScore o <= 255 /\ Sovereign_GetEvictionScore o = 255 - vitality o /\
  vital (Sovereign_ReinforceSynapse o) /\
  Sovereign_GetEvictionScore (Sovereign_ReinforceSynapse o) = Z.max 0 (Sovereign_GetEvictionScore o - 1) /\
  Sovereign_GetEvictionScore o <= Sovereign_GetEvictionScore (decay o) <= Sovereign_GetEvictionScore o + 1.
Proof.
  intros Hv. assert (Hsc : forall o, vital o -> Sovereign_GetEvictionScore o = 255 - vitality o).
  { intros o' H. unfold Sovereign_GetEvictionScore, vital in *. apply wrap_small. mach. }
  destruct (decay_spec o Hv) as (Hd & Hr & _).
  assert (vital (Sovereign_ReinforceSynapse o)) as Hre.
  { unfold vital, Sovereign_ReinforceSynapse in *. case_if; simpl; lia. }
  rewrite !Hsc by done. unfold vital in *. split_and!; try done; try lia.
  unfold Sovereign_ReinforceSynapse in *. case_if; simpl in *; lia.
Qed.

Lemma eviction_score_spec_witness :
  let o := mkRobj 255 1 in
  0 <= Sovereign_GetEvictionScore o <= 255 /\ Sovereign_GetEvictionScore o = 255 - vitality o /\
  vital (Sovereign_ReinforceSynapse o) /\
  Sovereign_GetEvictionScore (Sovereign_ReinforceSynapse o) = Z.max 0 (Sovereign_GetEvictionScore o - 1) /\
  Sovereign_GetEvictionScore o <= Sovereign_GetEvictionScore (decay o) <= Sovereign_GetEvictionScore o + 1.
Proof. apply eviction_score_spec. unfold vital. simpl. lia. Defined.

(** Link strength counts observations: after [n] > 0 observations of the
    pair from another link's slot the strength is min(n, 255), and the other
    slots of the map are untouched. *)
Theorem link_strength n smap h1 h2 i :
  alen smap = SYNAPTIC_SLOTS -> 0 < h1 -> 0 < h2 -> (0 < n)%nat ->
  (trigger (aget smap (h1 mod SYNAPTIC_SLOTS)), associate (aget smap (h1 mod SYNAPTIC_SLOTS))) <> (h1, h2) ->
  0 <= i < SYNAPTIC_SLOTS ->
  aget (link_n n smap h1 h2) i =
    if i =? h1 mod SYNAPTIC_SLOTS then mkLink h1 h2 (Z.min (Z.of_nat n) 255) else aget smap i.
Proof.
  intros Hlen H1 H2 Hn Hne Hi. pose proof (link_idx h1 ltac:(lia)) as Hidx.
  assert (Hl : forall n, alen (link_n n smap h1 h2) = SYNAPTIC_SLOTS).
  { intros m. induction m as [|m IH]; [done|]. simpl. unfold Sovereign_LinkKeys. repeat case_if; rewrite ?alen_aset; done. }
  destruct n as [|n]; [lia|]. clear Hn. revert i Hi. induction n as [|n IH]; intros i Hi.
  - simpl. unfold Sovereign_LinkKeys. destruct (Z.eqb_spec h1 0), (Z.eqb_spec h2 0); try lia. simpl orb. cbv iota.
    case_if. { exfalso. apply Hne. cmp_prop. congruence. }
    destruct (Z.eqb_spec i (h1 mod SYNAPTIC_SLOTS)) as [->|]; [by rewrite aget_aset_eq by lia|by rewrite aget_aset_ne by lia].
  - set (m := link_n (S n) smap h1 h2) in *. change (link_n (S (S n)) smap h1 h2) with (Sovereign_LinkKeys m h1 h2).
    pose proof (IH _ Hidx) as Hat. rewrite Z.eqb_refl in Hat. unfold Sovereign_LinkKeys. rewrite Hat.
    destruct (Z.eqb_spec h1 0), (Z.eqb_spec h2 0); try lia. simpl orb. cbv iota. cbn [trigger associate strength].
    rewrite !Z.eqb_refl. cbn [andb]. destruct (Z.ltb_spec (Z.min (Z.of_nat (S n)) 255) 255).
    + destruct (Z.eqb_spec i (h1 mod SYNAPTIC_SLOTS)) as [->|Hd].
      * rewrite aget_aset_eq by (unfold m; rewrite Hl; lia). f_equal. lia.
      * rewrite aget_aset_ne by lia. rewrite IH by done. by destruct (Z.eqb_spec i (h1 mod SYNAPTIC_SLOTS)).
    + rewrite IH by done. destruct (Z.eqb_spec i (h1 mod SYNAPTIC_SLOTS)) as [->|Hd]; [f_equal; lia|done].
Qed.

Lemma link_strength_witness :
  aget (link_n 300 (calloc SYNAPTIC_SLOTS (mkLink 0 0 0)) 5 9) 5 =
    if 5 =? 5 mod SYNAPTIC_SLOTS then mkLink 5 9 (Z.min (Z.of_nat 300) 255) else aget (calloc SYNAPTIC_SLOTS (mkLink 0 0 0)) 5.
Proof.
  apply link_strength; try (vm_compute; reflexivity).
  - lia.
  - vm_compute. congruence.
  - vm_compute. split; congruence.
Defined.
