(* ===== verification/TaggedPtr.v ===== *)
(** * Tagged pointers (src/src/memory/tagged_ptr.h, src/src/memory/arch_probe.c
      and the TAG_ macros of src/src/hashtable/nexdash.h)

    A 64-bit word holds an address in its low bits and metadata in the bits
    the architecture leaves free.  [TAG_SET_META] has a fixed layout (48-bit
    addresses); the [tptr_] functions take theirs from [g_nexarch], which
    [nexarch_probe] fills in: here the argument [arch]. *)
From S2P Require Import Prelude.

(** ** The fixed layout of NexDash *)
Definition TAG_ADDR_MASK : Z := 281474976710655.
Definition TAG_GET_ADDR (tp : Z) : Z := Z.land tp TAG_ADDR_MASK.
Definition TAG_GET_LEN (tp : Z) : Z := u8 (Z.shiftr tp 56).
Definition TAG_GET_TYPE (tp : Z) : Z := u8 (Z.land (Z.shiftr tp 52) 15).
Definition TAG_GET_TIER (tp : Z) : Z := u8 (Z.land (Z.shiftr tp 50) 3).
Definition TAG_GET_VER (tp : Z) : Z := u8 (Z.land (Z.shiftr tp 48) 3).

Definition TAG_SET_META (addr len type tier ver : Z) : Z :=
  Z.lor (Z.lor (Z.lor (Z.lor addr (u64 (Z.shiftl len 56))) (u64 (Z.shiftl type 52)))
    (u64 (Z.shiftl tier 50))) (u64 (Z.shiftl ver 48)).

Record tag_fields (addr len type tier ver : Z) : Prop := {
  tf_addr : in_u 48 addr; tf_len : in_u 8 len; tf_type : in_u 4 type; tf_tier : in_u 2 tier; tf_ver : in_u 2 ver }.

Lemma TAG_SET_META_sum addr len type tier ver : tag_fields addr len type tier ver ->
  TAG_SET_META addr len type tier ver =
  addr + 2 ^ 48 * (ver + 2 ^ 2 * (tier + 2 ^ 2 * (type + 2 ^ 4 * len))).
Proof.
  intros [Ha Hl Ht Hi Hv]. unfold TAG_SET_META.
  rewrite (shl_fits len 56 8), (shl_fits type 52 4), (shl_fits tier 50 2), (shl_fits ver 48 2) by (done || lia).
  assert (R : forall a b c d e, Z.lor (Z.lor (Z.lor (Z.lor a b) c) d) e = Z.lor (Z.lor (Z.lor (Z.lor a e) d) c) b).
  { intros a b c d e. apply Z.bits_inj'. intros j Hj. rewrite !Z.lor_spec.
    destruct (Z.testbit a j), (Z.testbit b j), (Z.testbit c j), (Z.testbit d j), (Z.testbit e j); reflexivity. }
  rewrite R. rewrite (lor_pack addr ver 48) by (done || lia || apply Hv).
  rewrite (lor_pack _ tier 50) by ((apply (in_u_pack addr ver 48 2); done || lia) || lia || apply Hi).
  rewrite (lor_pack _ type 52) by (mach || lia). rewrite (lor_pack _ len 56) by mach. mach.
Qed.

Lemma u8_small x : 0 <= x < 256 -> u8 x = x.
Proof. intros. apply wrap_small. mach. Qed.

Lemma TAG_get_set addr len type tier ver : tag_fields addr len type tier ver ->
  let tp := TAG_SET_META addr len type tier ver in
  in_u 64 tp /\ TAG_GET_ADDR tp = addr /\ TAG_GET_LEN tp = len /\ TAG_GET_TYPE tp = type /\
  TAG_GET_TIER tp = tier /\ TAG_GET_VER tp = ver.
Proof.
  intros Hf tp. unfold tp. clear tp. rewrite TAG_SET_META_sum by done. destruct Hf as [Ha Hl Ht Hi Hv].
  unfold TAG_GET_ADDR, TAG_GET_LEN, TAG_GET_TYPE, TAG_GET_TIER, TAG_GET_VER.
  change TAG_ADDR_MASK with (Z.ones 48). change 15 with (Z.ones 4). change 3 with (Z.ones 2).
  assert (E0 : addr + 2 ^ 48 * (ver + 2 ^ 2 * (tier + 2 ^ 2 * (type + 2 ^ 4 * len))) =
    (addr + 2 ^ 48 * ver) + 2 ^ 50 * (tier + 2 ^ 2 * (type + 2 ^ 4 * len))) by mach.
  assert (E1 : addr + 2 ^ 48 * (ver + 2 ^ 2 * (tier + 2 ^ 2 * (type + 2 ^ 4 * len))) =
    (addr + 2 ^ 48 * ver + 2 ^ 50 * tier) + 2 ^ 52 * (type + 2 ^ 4 * len)) by mach.
  assert (E2 : addr + 2 ^ 48 * (ver + 2 ^ 2 * (tier + 2 ^ 2 * (type + 2 ^ 4 * len))) =
    (addr + 2 ^ 48 * ver + 2 ^ 50 * tier + 2 ^ 52 * type) + 2 ^ 56 * (len + 2 ^ 8 * 0)) by mach.
  split_and!.
  - mach.
  - apply addr_get; [done|lia].
  - rewrite E2. rewrite <- (field_get (addr + 2 ^ 48 * ver + 2 ^ 50 * tier + 2 ^ 52 * type) len 0 56 8) at 2 by mach.
    unfold wrap. rewrite <- Z.land_ones by lia. done.
  - rewrite E1, field_get by mach. apply u8_small. mach.
  - rewrite E0, field_get by mach. apply u8_small. mach.
  - rewrite field_get by mach. apply u8_small. mach.
Qed.

Lemma TAG_fields tp : in_u 64 tp ->
  tag_fields (TAG_GET_ADDR tp) (TAG_GET_LEN tp) (TAG_GET_TYPE tp) (TAG_GET_TIER tp) (TAG_GET_VER tp).
Proof.
  intros Htp. unfold TAG_GET_ADDR, TAG_GET_LEN, TAG_GET_TYPE, TAG_GET_TIER, TAG_GET_VER.
  change TAG_ADDR_MASK with (Z.ones 48). change 15 with (Z.ones 4). change 3 with (Z.ones 2).
  rewrite !Z.land_ones by lia.
  assert (H : forall w x, 0 <= w <= 8 -> in_u w (u8 (x mod 2 ^ w))).
  { intros w x Hw. pose proof (wrap_range w x ltac:(lia)) as Hr. unfold wrap in Hr.
    assert (2 ^ w <= 2 ^ 8) by (apply Z.pow_le_mono_r; lia). rewrite wrap_small; [done|]. unfold in_u in *. lia. }
  split; try (apply H; lia).
  - apply (wrap_range 48). lia.
  - apply (wrap_range 8). lia.
Qed.

(** ** The layout chosen at start-up *)
Record NexArchInfo := mkArch { metadata_shift : Z; metadata_bits : Z; addr_mask : Z }.

Definition probe_aarch64 : NexArchInfo := mkArch 56 8 72057594037927935.
Definition probe_x86_64 (la57 : bool) : NexArchInfo :=
  if la57 then mkArch 57 7 144115188075855871 else mkArch 48 16 281474976710655.

Definition TPTR_FLAG_COMPRESSED : Z := 1.
Definition TPTR_FLAG_DIRTY : Z := 2.
Definition TPTR_FLAG_COLD : Z := 4.
Definition TPTR_FLAG_LOCKED : Z := 8.

(** [nexarch_probe] refuses an architecture with fewer than 6 free bits. *)
Definition nexarch_probe (arch : NexArchInfo) : Z := if metadata_bits arch <? 6 then -1 else 0.

Section tptr.
Variable arch : NexArchInfo.

Definition NEXPTR_SHIFT : Z := metadata_shift arch.
Definition NEXPTR_FLAGS_WIDE : bool := 10 <=? metadata_bits arch.

Definition tptr_ptr (tp : Z) : Z := Z.land tp (addr_mask arch).
Definition tptr_flags (tp : Z) : Z :=
  if NEXPTR_FLAGS_WIDE then u8 (Z.land (Z.shiftr tp NEXPTR_SHIFT) 15) else u8 (Z.land (Z.shiftr tp NEXPTR_SHIFT) 3).
Definition tptr_subtype (tp : Z) : Z :=
  let fshift := if NEXPTR_FLAGS_WIDE then 4 else 2 in u8 (Z.land (Z.shiftr tp (NEXPTR_SHIFT + fshift)) 3).
Definition tptr_type (tp : Z) : Z :=
  let tshift := if NEXPTR_FLAGS_WIDE then 6 else 4 in u8 (Z.land (Z.shiftr tp (NEXPTR_SHIFT + tshift)) 15).

Definition tptr_create (ptr type subtype flags version : Z) : Z :=
  if NEXPTR_FLAGS_WIDE then
    Z.lor (Z.lor (Z.lor ptr (u64 (Z.shiftl (Z.land type 15) (NEXPTR_SHIFT + 6))))
      (u64 (Z.shiftl (Z.land subtype 3) (NEXPTR_SHIFT + 4)))) (u64 (Z.shiftl (Z.land flags 15) NEXPTR_SHIFT))
  else
    Z.lor (Z.lor (Z.lor ptr (u64 (Z.shiftl (Z.land type 15) (NEXPTR_SHIFT + 4))))
      (u64 (Z.shiftl (Z.land subtype 3) (NEXPTR_SHIFT + 2)))) (u64 (Z.shiftl (Z.land flags 3) NEXPTR_SHIFT)).

Definition tptr_has_flag (tp flag : Z) : bool := negb (Z.land (tptr_flags tp) flag =? 0).
Definition tptr_set_flag (tp flag : Z) : Z :=
  tptr_create (tptr_ptr tp) (tptr_type tp) (tptr_subtype tp) (u8 (Z.lor (tptr_flags tp) flag)) 0.
Definition tptr_clear_flag (tp flag : Z) : Z :=
  tptr_create (tptr_ptr tp) (tptr_type tp) (tptr_subtype tp) (u8 (Z.land (tptr_flags tp) (Z.lnot flag))) 0.

Definition tptr_version (tp : Z) : Z :=
  if metadata_bits arch <? 16 then 0 else u8 (Z.land (Z.shiftr tp (NEXPTR_SHIFT + 12)) 15).
Definition tptr_set_version (tp v : Z) : Z :=
  if metadata_bits arch <? 16 then tp
  else Z.lor (Z.land tp (u64 (Z.lnot (u64 (Z.shiftl 15 (NEXPTR_SHIFT + 12))))))
         (u64 (Z.shiftl (Z.land v 15) (NEXPTR_SHIFT + 12))).
Definition tptr_bump_version (tp : Z) : Z := tptr_set_version tp (Z.land (tptr_version tp + 1) 15).
Definition tptr_is_null (tp : Z) : bool := tptr_ptr tp =? 0.
End tptr.

(** ** Layouts that fit the word *)
Definition flag_bits (arch : NexArchInfo) : Z := if NEXPTR_FLAGS_WIDE arch then 4 else 2.

Record layout_fits (arch : NexArchInfo) : Prop := {
  fits_shift : 0 <= metadata_shift arch;
  fits_mask : addr_mask arch = Z.ones (metadata_shift arch);
  fits_word : metadata_shift arch + flag_bits arch + 6 <= 64;
}.

Lemma aarch64_fits : layout_fits probe_aarch64.
Proof. split; vm_compute; congruence. Qed.
Lemma x86_fits : layout_fits (probe_x86_64 false).
Proof. split; vm_compute; congruence. Qed.

Lemma mask_range x w : 0 <= w -> in_u w (Z.land x (Z.ones w)).
Proof. intros. rewrite Z.land_ones by done. apply (wrap_range w x). done. Qed.

(** The word as a sum, for both widths of the flags field. *)
Lemma tptr_create_sum arch ptr type subtype flags version :
  layout_fits arch -> in_u (metadata_shift arch) ptr ->
  tptr_create arch ptr type subtype flags version =
  ptr + 2 ^ metadata_shift arch * (Z.land flags (Z.ones (flag_bits arch)) +
    2 ^ flag_bits arch * (Z.land subtype (Z.ones 2) + 2 ^ 2 * Z.land type (Z.ones 4))).
Proof.
  intros [Hs _ Hw] Hp. unfold tptr_create, flag_bits, NEXPTR_SHIFT in *.
  set (s := metadata_shift arch) in *.
  assert (R : forall a b c d, Z.lor (Z.lor (Z.lor a b) c) d = Z.lor (Z.lor (Z.lor a d) c) b).
  { intros a b c d. apply Z.bits_inj'. intros j Hj. rewrite !Z.lor_spec.
    destruct (Z.testbit a j), (Z.testbit b j), (Z.testbit c j), (Z.testbit d j); reflexivity. }
  change 15 with (Z.ones 4). change 3 with (Z.ones 2).
  pose proof (mask_range type 4 ltac:(lia)) as Ht. pose proof (mask_range subtype 2 ltac:(lia)) as Hsub.
  set (ty := Z.land type (Z.ones 4)) in *. set (su := Z.land subtype (Z.ones 2)) in *.
  assert (Hpack : forall fw fl, 0 <= fw -> s + fw + 6 <= 64 -> in_u fw fl ->
    Z.lor (Z.lor (Z.lor ptr (u64 (Z.shiftl ty (s + (fw + 2))))) (u64 (Z.shiftl su (s + fw)))) (u64 (Z.shiftl fl s)) =
    ptr + 2 ^ s * (fl + 2 ^ fw * (su + 2 ^ 2 * ty))).
  { intros fw fl Hfw Hfit Hfl. rewrite (shl_fits ty _ 4), (shl_fits su _ 2), (shl_fits fl s fw) by (done || lia).
    rewrite R. rewrite (lor_pack ptr fl s) by (done || apply Hfl).
    pose proof (in_u_pack ptr fl s fw Hp Hfl Hs Hfw) as H1.
    rewrite (lor_pack _ su (s + fw)) by (done || lia || apply Hsub).
    pose proof (in_u_pack _ su (s + fw) 2 H1 Hsub ltac:(lia) ltac:(lia)) as H2.
    rewrite Z.add_assoc. rewrite (lor_pack _ ty (s + fw + 2)) by (done || lia || apply Ht).
    rewrite !pow_split by lia. ring. }
  destruct (NEXPTR_FLAGS_WIDE arch).
  - apply (Hpack 4); [lia|lia|apply mask_range; lia].
  - apply (Hpack 2); [lia|lia|apply mask_range; lia].
Qed.

Lemma u8_mask x w : 0 <= w <= 8 -> u8 (Z.land x (Z.ones w)) = Z.land x (Z.ones w).
Proof.
  intros Hw. apply wrap_small. pose proof (mask_range x w ltac:(lia)).
  assert (2 ^ w <= 2 ^ 8) by (apply Z.pow_le_mono_r; lia). unfold in_u in *. lia.
Qed.

Lemma tptr_get_create arch ptr type subtype flags version :
  layout_fits arch -> in_u (metadata_shift arch) ptr ->
  let tp := tptr_create arch ptr type subtype flags version in
  tptr_ptr arch tp = ptr /\ tptr_type arch tp = Z.land type (Z.ones 4) /\
  tptr_subtype arch tp = Z.land subtype (Z.ones 2) /\ tptr_flags arch tp = Z.land flags (Z.ones (flag_bits arch)).
Proof.
  intros Hfit Hp tp. unfold tp. rewrite tptr_create_sum by done. clear tp.
  pose proof Hfit as [Hs Hm Hw].
  pose proof (mask_range type 4 ltac:(lia)) as Ht. pose proof (mask_range subtype 2 ltac:(lia)) as Hsub.
  assert (Hfb : flag_bits arch = 4 \/ flag_bits arch = 2) by (unfold flag_bits; destruct (NEXPTR_FLAGS_WIDE arch); auto).
  pose proof (mask_range flags (flag_bits arch) ltac:(lia)) as Hfl.
  unfold tptr_ptr, tptr_type, tptr_subtype, tptr_flags. rewrite Hm. unfold NEXPTR_SHIFT.
  set (s := metadata_shift arch) in *. set (fw := flag_bits arch) in *.
  set (ty := Z.land type (Z.ones 4)) in *. set (su := Z.land subtype (Z.ones 2)) in *.
  set (fl := Z.land flags (Z.ones fw)) in *.
  assert (E1 : ptr + 2 ^ s * (fl + 2 ^ fw * (su + 2 ^ 2 * ty)) = (ptr + 2 ^ s * fl) + 2 ^ (s + fw) * (su + 2 ^ 2 * ty)).
  { rewrite pow_split by lia. ring. }
  assert (E2 : ptr + 2 ^ s * (fl + 2 ^ fw * (su + 2 ^ 2 * ty)) =
    (ptr + 2 ^ s * fl + 2 ^ (s + fw) * su) + 2 ^ (s + (fw + 2)) * (ty + 2 ^ 4 * 0)).
  { replace (s + (fw + 2)) with (s + fw + 2) by lia. rewrite !pow_split by lia. ring. }
  pose proof (in_u_pack ptr fl s fw Hp Hfl Hs ltac:(lia)) as H1.
  pose proof (in_u_pack _ su (s + fw) 2 H1 Hsub ltac:(lia) ltac:(lia)) as H2.
  assert (Hty : u8 (Z.land (Z.shiftr (ptr + 2 ^ s * (fl + 2 ^ fw * (su + 2 ^ 2 * ty))) (s + (fw + 2))) (Z.ones 4)) = ty).
  { rewrite E2, field_get; [apply u8_mask; lia| |done|lia|lia|lia]. by replace (s + (fw + 2)) with (s + fw + 2) by lia. }
  assert (Hsu : u8 (Z.land (Z.shiftr (ptr + 2 ^ s * (fl + 2 ^ fw * (su + 2 ^ 2 * ty))) (s + fw)) (Z.ones 2)) = su).
  { rewrite E1, field_get; [apply u8_mask; lia|done|done|lia|lia|apply Ht]. }
  assert (Hflg : u8 (Z.land (Z.shiftr (ptr + 2 ^ s * (fl + 2 ^ fw * (su + 2 ^ 2 * ty))) s) (Z.ones fw)) = fl).
  { rewrite field_get; [apply u8_mask; lia|done|done|lia|lia|]. destruct Hsub, Ht. lia. }
  split_and!; [by apply addr_get| | |]; unfold fw, flag_bits in *; destruct (NEXPTR_FLAGS_WIDE arch); done.
Qed.

(** ** Properties *)

(** Slot metadata round trip: the five fields that [TAG_SET_META] packs
    into a slot word (48-bit address, key length, type, tier, version) are
    read back unchanged by the [TAG_GET_] macros. *)
Theorem tag_meta_round_trip addr len type tier ver : tag_fields addr len type tier ver ->
  let tp := TAG_SET_META addr len type tier ver in
  in_u 64 tp /\ TAG_GET_ADDR tp = addr /\ TAG_GET_LEN tp = len /\ TAG_GET_TYPE tp = type /\
  TAG_GET_TIER tp = tier /\ TAG_GET_VER tp = ver.
Proof. apply TAG_get_set. Qed.

Lemma tag_meta_round_trip_witness :
  let tp := TAG_SET_META 140737488355328 255 8 3 1 in
  in_u 64 tp /\ TAG_GET_ADDR tp = 140737488355328 /\ TAG_GET_LEN tp = 255 /\ TAG_GET_TYPE tp = 8 /\
  TAG_GET_TIER tp = 3 /\ TAG_GET_VER tp = 1.
Proof. apply tag_meta_round_trip. split; vm_compute; split; congruence. Defined.

(** On ARM64 and on x86-64 without LA57 the runtime layout is lossless:
    [tptr_create] followed by the accessors gives back the pointer, the type,
    the subtype and the flags that the width of the field can hold. *)
Theorem tptr_round_trip arch ptr type subtype flags version :
  arch = probe_aarch64 \/ arch = probe_x86_64 false -> in_u (metadata_shift arch) ptr ->
  in_u 4 type -> in_u 2 subtype -> in_u (flag_bits arch) flags ->
  let tp := tptr_create arch ptr type subtype flags version in
  tptr_ptr arch tp = ptr /\ tptr_type arch tp = type /\ tptr_subtype arch tp = subtype /\ tptr_flags arch tp = flags.
Proof.
  intros Harch Hp Ht Hsub Hf tp.
  assert (Hfit : layout_fits arch) by (destruct Harch as [->| ->]; [apply aarch64_fits|apply x86_fits]).
  destruct (tptr_get_create arch ptr type subtype flags version Hfit Hp) as (H1 & H2 & H3 & H4).
  assert (Hm : forall x w, 0 <= w -> in_u w x -> Z.land x (Z.ones w) = x).
  { intros x w Hw Hx. rewrite Z.land_ones by done. by apply Z.mod_small. }
  rewrite Hm in H2, H3, H4 by (done || lia || (unfold flag_bits; destruct (NEXPTR_FLAGS_WIDE arch); lia)).
  done.
Qed.

Lemma tptr_round_trip_witness :
  let tp := tptr_create (probe_x86_64 false) 281474976710640 10 3 12 0 in
  tptr_ptr (probe_x86_64 false) tp = 281474976710640 /\ tptr_type (probe_x86_64 false) tp = 10 /\
  tptr_subtype (probe_x86_64 false) tp = 3 /\ tptr_flags (probe_x86_64 false) tp = 12.
Proof.
  apply tptr_round_trip; [by right|..]; vm_compute; split; congruence.
Defined.

(** With LA57 the probe accepts 7 free bits while the layout needs 8:
    the top bit of the type is shifted out of the word, so the types 8 to 15
    (stream, module, internal, invalid) are read back as type - 8. *)
Theorem tptr_la57_loses_type ptr type subtype flags :
  in_u 57 ptr -> in_u 4 type -> in_u 2 subtype -> in_u 2 flags ->
  let arch := probe_x86_64 true in
  nexarch_probe arch = 0 /\ tptr_type arch (tptr_create arch ptr type subtype flags 0) = type mod 8.
Proof.
  intros Hp Ht Hsub Hf arch. split; [reflexivity|].
  unfold arch, tptr_type, tptr_create, NEXPTR_SHIFT. cbn [probe_x86_64 metadata_shift].
  change (NEXPTR_FLAGS_WIDE (mkArch 57 7 144115188075855871)) with false. cbv iota.
  change (57 + 4) with 61. change (57 + 2) with 59. change 15 with (Z.ones 4). change 3 with (Z.ones 2).
  assert (Hm : forall x w, 0 <= w -> in_u w x -> Z.land x (Z.ones w) = x).
  { intros x w Hw Hx. rewrite Z.land_ones by done. by apply Z.mod_small. }
  rewrite (Hm type 4), (Hm subtype 2), (Hm flags 2) by (done || lia). rewrite (shl_fits subtype 59 2), (shl_fits flags 57 2) by (done || lia).
  assert (Ht8 : u64 (Z.shiftl type 61) = Z.shiftl (type mod 8) 61).
  { rewrite !Z.shiftl_mul_pow2 by lia. unfold wrap. change (2 ^ 64) with (8 * 2 ^ 61).
    by rewrite Z.mul_mod_distr_r by (mach || lia). }
  rewrite Ht8. assert (R : forall a b c d, Z.lor (Z.lor (Z.lor a b) c) d = Z.lor (Z.lor (Z.lor a d) c) b).
  { intros a b c d. apply Z.bits_inj'. intros j Hj. rewrite !Z.lor_spec.
    destruct (Z.testbit a j), (Z.testbit b j), (Z.testbit c j), (Z.testbit d j); reflexivity. }
  rewrite R. pose proof (Z.mod_pos_bound type 8 ltac:(lia)) as Hb.
  rewrite (lor_pack ptr flags 57), (lor_pack _ subtype 59), (lor_pack _ (type mod 8) 61) by mach.
  replace (type mod 8) with (type mod 8 + 2 ^ 4 * 0) at 1 by lia. rewrite field_get by mach. apply u8_small. lia.
Qed.

Lemma tptr_la57_loses_type_witness :
  let arch := probe_x86_64 true in
  nexarch_probe arch = 0 /\ tptr_type arch (tptr_create arch 4096 8 0 0 0) = 8 mod 8.
Proof. apply tptr_la57_loses_type; vm_compute; split; congruence. Defined.

(** Flags on x86-64 without LA57: [tptr_set_flag] keeps the pointer, the
    type and the subtype and adds exactly the given flag, but it rebuilds the
    word without the version field, which [tptr_version] then reads as 0. *)
Theorem tptr_set_flag_spec tp flag : in_u 64 tp -> in_u 4 flag ->
  let arch := probe_x86_64 false in let tp' := tptr_set_flag arch tp flag in
  tptr_ptr arch tp' = tptr_ptr arch tp /\ tptr_type arch tp' = tptr_type arch tp /\
  tptr_subtype arch tp' = tptr_subtype arch tp /\ tptr_flags arch tp' = Z.lor (tptr_flags arch tp) flag /\
  tptr_version arch tp' = 0.
Proof.
  intros Htp Hfl arch tp'.
  assert (Hp : in_u 48 (tptr_ptr arch tp)) by (apply mask_range; lia).
  assert (Hm : forall x w, 0 <= w -> in_u w x -> Z.land x (Z.ones w) = x).
  { intros x w Hw Hx. rewrite Z.land_ones by done. by apply Z.mod_small. }
  assert (Hu : forall x w, 0 <= w <= 8 -> in_u w (u8 (Z.land x (Z.ones w)))).
  { intros x w Hw. rewrite u8_mask by done. apply mask_range. lia. }
  assert (Hty : in_u 4 (tptr_type arch tp)) by (apply (Hu _ 4); lia).
  assert (Hsu : in_u 2 (tptr_subtype arch tp)) by (apply (Hu _ 2); lia).
  assert (Hfg : in_u 4 (tptr_flags arch tp)) by (apply (Hu _ 4); lia).
  assert (Hor : in_u 4 (Z.lor (tptr_flags arch tp) flag)).
  { apply in_u_testbit; [lia|apply Z.lor_nonneg; split; [apply Hfg|apply Hfl]|].
    intros j Hj. rewrite Z.lor_spec, !(testbit_high 4) by (done || lia). done. }
  unfold tp', tptr_set_flag. rewrite (u8_small (Z.lor _ _)) by mach.
  destruct (tptr_get_create arch (tptr_ptr arch tp) (tptr_type arch tp) (tptr_subtype arch tp)
    (Z.lor (tptr_flags arch tp) flag) 0 x86_fits Hp) as (H1 & H2 & H3 & H4).
  rewrite Hm in H2, H3 by (done || lia). change (flag_bits arch) with 4 in H4. rewrite Hm in H4 by (done || lia).
  split_and!; try done. rewrite tptr_create_sum by (apply x86_fits || done).
  change (flag_bits arch) with 4. rewrite !Hm by (done || lia). unfold tptr_version, NEXPTR_SHIFT.
  change (metadata_bits arch <? 16) with false. cbv iota.
  change (metadata_shift arch + 12) with 60. match goal with |- context [Z.shiftr ?y 60] => set (x := y) end.
  assert (Hx : 0 <= x < 2 ^ 60).
  { unfold x. clear -Hp Hty Hsu Hor. change (metadata_shift _) with 48.
    revert Hp Hty Hsu Hor. generalize (tptr_ptr arch tp), (tptr_type arch tp), (tptr_subtype arch tp), (Z.lor (tptr_flags arch tp) flag).
    intros. mach. }
  rewrite Z.shiftr_div_pow2 by lia. by rewrite (Z.div_small x) by done.
Qed.

Lemma tptr_set_flag_spec_witness :
  let arch := probe_x86_64 false in let tp := tptr_set_version arch (tptr_create arch 4096 3 1 1 0) 7 in
  let tp' := tptr_set_flag arch tp TPTR_FLAG_DIRTY in
  tptr_ptr arch tp' = tptr_ptr arch tp /\ tptr_type arch tp' = tptr_type arch tp /\
  tptr_subtype arch tp' = tptr_subtype arch tp /\ tptr_flags arch tp' = Z.lor (tptr_flags arch tp) TPTR_FLAG_DIRTY /\
  tptr_version arch tp' = 0.
Proof. apply tptr_set_flag_spec; vm_compute; split; congruence. Defined.
