(* ===== verification/NexDash.v ===== *)
(** * NexDash, the hash engine (src/src/hashtable/nexdash.c)

    A directory of segments, each of 56 buckets of 4 slots with an occupancy
    mask; a slot holds the full hash, a tagged pointer to the value, the
    offset of the key in the key pool, the encoded expiry and the value size.
    Every public operation runs under [t->lock] and is one step.  A slot
    pointer is a location (segment index, bucket, slot).  The clock and the
    results of the allocations are the argument [env].  Values are opaque
    addresses; [freed] records the calls of [free_cb].  The float weights of
    [nexdash_record_access] and the never used FIFO queues are left out. *)
From S2P Require Import Prelude FilterSpec NexBloom TaggedPtr.

Definition NEXDASH_BUCKET_COUNT : Z := 56.
Definition NEXDASH_SLOT_COUNT : Z := 4.
Definition NEXDASH_ENTRY_OVERHEAD : Z := 32.
Definition NTYPE_STRING : Z := 0.
Definition NTYPE_DELETED : Z := 15.
Definition TIER_PROBATORY : Z := 0.
Definition TIER_PROTECTED : Z := 1.

Record NexDashSlot := mkSlot {
  key_hash : Z; value_ptr : Z; key_offset : Z; expire_us32 : Z; value_size : Z }.
Record NexDashBucket := mkBucket { slots : list NexDashSlot; occupancy : Z }.
Record NexDashSegment := mkSegment {
  buckets : list NexDashBucket; seg_item_count : Z; version : Z; last_modified : Z }.

Definition zero_slot : NexDashSlot := mkSlot 0 0 0 0 0.
Definition zero_bucket : NexDashBucket := mkBucket (calloc NEXDASH_SLOT_COUNT zero_slot) 0.
Definition zero_segment : NexDashSegment := mkSegment (calloc NEXDASH_BUCKET_COUNT zero_bucket) 0 0 0.

#[export] Instance NexDashSlot_inhabited : Inhabited NexDashSlot := populate zero_slot.
#[export] Instance NexDashBucket_inhabited : Inhabited NexDashBucket := populate zero_bucket.
#[export] Instance NexDashSegment_inhabited : Inhabited NexDashSegment := populate zero_segment.

Record NexDashStats := mkStats { gets : Z; sets : Z; dels : Z; hits : Z; misses : Z; evictions_probatory : Z; evictions_protected : Z; resizes : Z; snapshot_count : Z }.

Definition inc_gets (s : NexDashStats) : NexDashStats :=
  mkStats (gets s +64 1) (sets s) (dels s) (hits s) (misses s) (evictions_probatory s) (evictions_protected s) (resizes s) (snapshot_count s).
Definition inc_sets (s : NexDashStats) : NexDashStats :=
  mkStats (gets s) (sets s +64 1) (dels s) (hits s) (misses s) (evictions_probatory s) (evictions_protected s) (resizes s) (snapshot_count s).
Definition inc_dels (s : NexDashStats) : NexDashStats :=
  mkStats (gets s) (sets s) (dels s +64 1) (hits s) (misses s) (evictions_probatory s) (evictions_protected s) (resizes s) (snapshot_count s).
Definition inc_hits (s : NexDashStats) : NexDashStats :=
  mkStats (gets s) (sets s) (dels s) (hits s +64 1) (misses s) (evictions_probatory s) (evictions_protected s) (resizes s) (snapshot_count s).
Definition inc_misses (s : NexDashStats) : NexDashStats :=
  mkStats (gets s) (sets s) (dels s) (hits s) (misses s +64 1) (evictions_probatory s) (evictions_protected s) (resizes s) (snapshot_count s).
Definition inc_evictions_probatory (s : NexDashStats) : NexDashStats :=
  mkStats (gets s) (sets s) (dels s) (hits s) (misses s) (evictions_probatory s +64 1) (evictions_protected s) (resizes s) (snapshot_count s).
Definition inc_evictions_protected (s : NexDashStats) : NexDashStats :=
  mkStats (gets s) (sets s) (dels s) (hits s) (misses s) (evictions_probatory s) (evictions_protected s +64 1) (resizes s) (snapshot_count s).
Definition inc_resizes (s : NexDashStats) : NexDashStats :=
  mkStats (gets s) (sets s) (dels s) (hits s) (misses s) (evictions_probatory s) (evictions_protected s) (resizes s +64 1) (snapshot_count s).
Definition inc_snapshot_count (s : NexDashStats) : NexDashStats :=
  mkStats (gets s) (sets s) (dels s) (hits s) (misses s) (evictions_probatory s) (evictions_protected s) (resizes s) (snapshot_count s +64 1).

Record NexDashTable := mkTable {
  directory : list NexDashSegment;  (* dir_size = alen directory *)
  item_count : Z;  (* uint32_t *)
  key_pool : bytes;  (* the key_pool_size bytes in use *)
  key_pool_cap : Z;  (* uint32_t *)
  key_pool_alloc : Z;  (* ghost: the size of the last successful allocation *)
  pool_fault : bool;  (* ghost: a write beyond it has happened *)
  snapshot_in_progress : bool;
  snapshot_version : Z;
  current_version : Z;
  max_memory : Z;
  used_memory : Z;  (* size_t *)
  bloom : option NexBloom;  (* None is NULL *)
  stats : NexDashStats;
  free_cb : bool;  (* whether a callback is set *)
  freed : list Z;  (* ghost: the arguments of free_cb so far, latest first *)
}.

Definition set_directory (t : NexDashTable) (x : list NexDashSegment) : NexDashTable :=
  mkTable x (item_count t) (key_pool t) (key_pool_cap t) (key_pool_alloc t) (pool_fault t) (snapshot_in_progress t) (snapshot_version t) (current_version t) (max_memory t) (used_memory t) (bloom t) (stats t) (free_cb t) (freed t).
Definition set_item_count (t : NexDashTable) (x : Z) : NexDashTable :=
  mkTable (directory t) x (key_pool t) (key_pool_cap t) (key_pool_alloc t) (pool_fault t) (snapshot_in_progress t) (snapshot_version t) (current_version t) (max_memory t) (used_memory t) (bloom t) (stats t) (free_cb t) (freed t).
Definition set_key_pool (t : NexDashTable) (x : bytes) : NexDashTable :=
  mkTable (directory t) (item_count t) x (key_pool_cap t) (key_pool_alloc t) (pool_fault t) (snapshot_in_progress t) (snapshot_version t) (current_version t) (max_memory t) (used_memory t) (bloom t) (stats t) (free_cb t) (freed t).
Definition set_key_pool_cap (t : NexDashTable) (x : Z) : NexDashTable :=
  mkTable (directory t) (item_count t) (key_pool t) x (key_pool_alloc t) (pool_fault t) (snapshot_in_progress t) (snapshot_version t) (current_version t) (max_memory t) (used_memory t) (bloom t) (stats t) (free_cb t) (freed t).
Definition set_key_pool_alloc (t : NexDashTable) (x : Z) : NexDashTable :=
  mkTable (directory t) (item_count t) (key_pool t) (key_pool_cap t) x (pool_fault t) (snapshot_in_progress t) (snapshot_version t) (current_version t) (max_memory t) (used_memory t) (bloom t) (stats t) (free_cb t) (freed t).
Definition set_pool_fault (t : NexDashTable) (x : bool) : NexDashTable :=
  mkTable (directory t) (item_count t) (key_pool t) (key_pool_cap t) (key_pool_alloc t) x (snapshot_in_progress t) (snapshot_version t) (current_version t) (max_memory t) (used_memory t) (bloom t) (stats t) (free_cb t) (freed t).
Definition set_snapshot_in_progress (t : NexDashTable) (x : bool) : NexDashTable :=
  mkTable (directory t) (item_count t) (key_pool t) (key_pool_cap t) (key_pool_alloc t) (pool_fault t) x (snapshot_version t) (current_version t) (max_memory t) (used_memory t) (bloom t) (stats t) (free_cb t) (freed t).
Definition set_snapshot_version (t : NexDashTable) (x : Z) : NexDashTable :=
  mkTable (directory t) (item_count t) (key_pool t) (key_pool_cap t) (key_pool_alloc t) (pool_fault t) (snapshot_in_progress t) x (current_version t) (max_memory t) (used_memory t) (bloom t) (stats t) (free_cb t) (freed t).
Definition set_current_version (t : NexDashTable) (x : Z) : NexDashTable :=
  mkTable (directory t) (item_count t) (key_pool t) (key_pool_cap t) (key_pool_alloc t) (pool_fault t) (snapshot_in_progress t) (snapshot_version t) x (max_memory t) (used_memory t) (bloom t) (stats t) (free_cb t) (freed t).
Definition set_max_memory (t : NexDashTable) (x : Z) : NexDashTable :=
  mkTable (directory t) (item_count t) (key_pool t) (key_pool_cap t) (key_pool_alloc t) (pool_fault t) (snapshot_in_progress t) (snapshot_version t) (current_version t) x (used_memory t) (bloom t) (stats t) (free_cb t) (freed t).
Definition set_used_memory (t : NexDashTable) (x : Z) : NexDashTable :=
  mkTable (directory t) (item_count t) (key_pool t) (key_pool_cap t) (key_pool_alloc t) (pool_fault t) (snapshot_in_progress t) (snapshot_version t) (current_version t) (max_memory t) x (bloom t) (stats t) (free_cb t) (freed t).
Definition set_bloom (t : NexDashTable) (x : option NexBloom) : NexDashTable :=
  mkTable (directory t) (item_count t) (key_pool t) (key_pool_cap t) (key_pool_alloc t) (pool_fault t) (snapshot_in_progress t) (snapshot_version t) (current_version t) (max_memory t) (used_memory t) x (stats t) (free_cb t) (freed t).
Definition set_stats (t : NexDashTable) (x : NexDashStats) : NexDashTable :=
  mkTable (directory t) (item_count t) (key_pool t) (key_pool_cap t) (key_pool_alloc t) (pool_fault t) (snapshot_in_progress t) (snapshot_version t) (current_version t) (max_memory t) (used_memory t) (bloom t) x (free_cb t) (freed t).
Definition set_free_cb (t : NexDashTable) (x : bool) : NexDashTable :=
  mkTable (directory t) (item_count t) (key_pool t) (key_pool_cap t) (key_pool_alloc t) (pool_fault t) (snapshot_in_progress t) (snapshot_version t) (current_version t) (max_memory t) (used_memory t) (bloom t) (stats t) x (freed t).
Definition set_freed (t : NexDashTable) (x : list Z) : NexDashTable :=
  mkTable (directory t) (item_count t) (key_pool t) (key_pool_cap t) (key_pool_alloc t) (pool_fault t) (snapshot_in_progress t) (snapshot_version t) (current_version t) (max_memory t) (used_memory t) (bloom t) (stats t) (free_cb t) x.
Record Env := mkEnv { us_now : Z; realloc_ok : bool; arena_ok : bool }.

Definition dir_size (t : NexDashTable) : Z := alen (directory t).
Definition key_pool_size (t : NexDashTable) : Z := alen (key_pool t).

(** ** Helpers of the code *)
Definition fnv1a_64 (key : bytes) : Z :=
  fold_left (fun h c => Z.lxor h (u8 c) *64 1099511628211) key 14695981039346656037.

Definition encode_expire (expire_us : Z) : Z := if expire_us =? 0 then 0 else u32 (Z.shiftr expire_us 20).
Definition decode_expire (enc : Z) : Z := if enc =? 0 then 0 else u64 (Z.shiftl enc 20).

(** ** Locations inside a segment *)
Definition pos : Type := Z * Z.

Definition bucket_at (seg : NexDashSegment) (p : pos) : NexDashBucket := aget (buckets seg) p.1.
Definition occupied (seg : NexDashSegment) (p : pos) : bool := bit_get (occupancy (bucket_at seg p)) p.2.
Definition slot_at (seg : NexDashSegment) (p : pos) : NexDashSlot := aget (slots (bucket_at seg p)) p.2.

Definition put_bucket (seg : NexDashSegment) (bi : Z) (b : NexDashBucket) : NexDashSegment :=
  mkSegment (aset (buckets seg) bi b) (seg_item_count seg) (version seg) (last_modified seg).
Definition put_slot (seg : NexDashSegment) (p : pos) (sl : NexDashSlot) : NexDashSegment :=
  put_bucket seg p.1 (mkBucket (aset (slots (bucket_at seg p)) p.2 sl) (occupancy (bucket_at seg p))).
Definition set_occupied (seg : NexDashSegment) (p : pos) : NexDashSegment :=
  put_bucket seg p.1 (mkBucket (slots (bucket_at seg p)) (u8 (bit_set (occupancy (bucket_at seg p)) p.2))).
Definition clear_occupied (seg : NexDashSegment) (p : pos) : NexDashSegment :=
  put_bucket seg p.1 (mkBucket (slots (bucket_at seg p)) (u8 (bit_clear (occupancy (bucket_at seg p)) p.2))).
Definition set_seg_items (seg : NexDashSegment) (n : Z) : NexDashSegment :=
  mkSegment (buckets seg) n (version seg) (last_modified seg).

(** The order in which two nested loops visit the slots: a full scan, and a
    probe from bucket [start]. *)
Definition slot_range : list Z := [0; 1; 2; 3].
Definition all_pos : list pos :=
  concat (map (fun bi => map (fun s => (bi, s)) slot_range) (seqZ 0 NEXDASH_BUCKET_COUNT)).
Definition probe_order (start : Z) : list pos :=
  concat (map (fun probe => map (fun s => (u32 (start + probe) mod NEXDASH_BUCKET_COUNT, s)) slot_range)
            (seqZ 0 NEXDASH_BUCKET_COUNT)).

Definition bucket_start (hash : Z) : Z := u32 (Z.shiftr hash 10 mod NEXDASH_BUCKET_COUNT).

(** ** Slots of the table *)
Definition loc : Type := Z * pos.

Definition seg_at (t : NexDashTable) (si : Z) : NexDashSegment := aget (directory t) si.
Definition put_seg (t : NexDashTable) (si : Z) (seg : NexDashSegment) : NexDashTable :=
  set_directory t (aset (directory t) si seg).
Definition slot_get (t : NexDashTable) (l : loc) : NexDashSlot := slot_at (seg_at t l.1) l.2.
Definition slot_put (t : NexDashTable) (l : loc) (sl : NexDashSlot) : NexDashTable :=
  put_seg t l.1 (put_slot (seg_at t l.1) l.2 sl).

(** The bytes compared with the key: [key_pool + key_offset], key length many. *)
Definition slot_key (pool : bytes) (sl : NexDashSlot) : bytes :=
  take (Z.to_nat (TAG_GET_LEN (value_ptr sl))) (drop (Z.to_nat (key_offset sl)) pool).

(** ** nd_release_slot *)
Definition run_free_cb (t : NexDashTable) (addr type : Z) : NexDashTable :=
  if negb (addr =? 0) && negb (type =? NTYPE_DELETED) && free_cb t then set_freed t (addr :: freed t) else t.

Definition nd_release_slot (t : NexDashTable) (l : loc) : NexDashTable :=
  let sl := slot_get t l in
  let t := run_free_cb t (TAG_GET_ADDR (value_ptr sl)) (TAG_GET_TYPE (value_ptr sl)) in
  let freed := value_size sl + NEXDASH_ENTRY_OVERHEAD in
  let t := set_used_memory t (if freed <? used_memory t then used_memory t - freed else 0) in
  slot_put t l (mkSlot (key_hash sl) (TAG_SET_META 0 0 NTYPE_DELETED TIER_PROBATORY 0) (key_offset sl) (expire_us32 sl) 0).

(** The four statements that follow every lookup of a slot to discard:
    release it, clear its occupancy bit, decrement both item counts. *)
Definition drop_slot (t : NexDashTable) (l : loc) : NexDashTable :=
  let t := nd_release_slot t l in
  let seg := clear_occupied (seg_at t l.1) l.2 in
  let t := put_seg t l.1 (set_seg_items seg (seg_item_count seg -32 1)) in
  set_item_count t (item_count t -32 1).

(** ** nd_insert_into_segment

    The growth loop of the key pool doubles a 32-bit capacity; 33 iterations
    reach every size that fits (a larger one would make the C loop spin). *)
Fixpoint grow_cap (fuel : nat) (need cap : Z) : Z :=
  match fuel with
  | O => cap
  | S fuel => if cap <? need then grow_cap fuel need (u32 (cap * 2)) else cap
  end.

(** The key pool part: [None] when [realloc] fails.  The capacity is updated
    before [realloc] is called, also when it fails. *)
Definition pool_append (env : Env) (t : NexDashTable) (key : bytes) : NexDashTable * option Z :=
  let need := u32 (key_pool_size t + alen key + 1) in
  let grow := key_pool_cap t <? need in
  let t := if grow then set_key_pool_cap t (grow_cap 33 need (key_pool_cap t)) else t in
  if grow && negb (realloc_ok env) then (t, None)
  else
    let t := if grow then set_key_pool_alloc t (key_pool_cap t) else t in
    let off := key_pool_size t in
    let t := set_pool_fault t (pool_fault t || (key_pool_alloc t <? off + alen key + 1)) in
    (set_key_pool t (key_pool t ++ key ++ [0]), Some off).

Definition nd_insert_into_segment (env : Env) (t : NexDashTable) (seg : NexDashSegment) (bkt_start hash : Z)
    (key : option bytes) : NexDashTable * NexDashSegment * option pos :=
  match find (fun p => negb (occupied seg p)) (probe_order bkt_start) with
  | None => (t, seg, None)
  | Some p =>
      let seg := put_slot seg p (mkSlot hash 0 0 0 0) in
      let '(t, off) := match key with Some k => pool_append env t k | None => (t, Some 0) end in
      match off with
      | None => (t, seg, None)
      | Some off =>
          let key_len := match key with Some k => alen k | None => 0 end in
          let seg := put_slot seg p (mkSlot hash (TAG_SET_META 0 key_len NTYPE_STRING TIER_PROBATORY 0) off 0 0) in
          let seg := mkSegment (buckets seg) (seg_item_count seg +32 1) (u32 (current_version t)) (us_now env) in
          let t := set_item_count t (item_count t +32 1) in
          let t := match key, bloom t with
                   | Some _, Some b => set_bloom t (match nexbloom_add b hash with Some b' => Some b' | None => Some b end)
                   | _, _ => t
                   end in
          (t, set_occupied seg p, Some p)
      end
  end.

(** ** nd_resize *)
Definition rehash_slot (env : Env) (new_dir_size : Z) (old_sl : NexDashSlot)
    (st : NexDashTable * list NexDashSegment) : NexDashTable * list NexDashSegment :=
  let '(t, new_dir) := st in
  let nseg_idx := u32 (key_hash old_sl mod new_dir_size) in
  let '(t, nseg, placed) :=
    nd_insert_into_segment env t (aget new_dir nseg_idx) (bucket_start (key_hash old_sl)) (key_hash old_sl) None in
  match placed with
  | None => (t, aset new_dir nseg_idx nseg)
  | Some p =>
      (t, aset new_dir nseg_idx (put_slot nseg p
            (mkSlot (key_hash (slot_at nseg p)) (value_ptr old_sl) (key_offset old_sl) (expire_us32 old_sl) (value_size old_sl))))
  end.

(** The occupied slots of a segment, in scan order. *)
Definition entries (seg : NexDashSegment) : list NexDashSlot :=
  omap (fun p => if occupied seg p then Some (slot_at seg p) else None) all_pos.

Definition nd_resize (env : Env) (t : NexDashTable) : NexDashTable * bool :=
  let new_dir_size := u32 (dir_size t * 2) in
  if new_dir_size <=? dir_size t then (t, false)
  else if negb (arena_ok env) then (t, false)
  else
    let '(t', new_dir) :=
      fold_left (fun st sl => rehash_slot env new_dir_size sl st) (concat (entries <$> directory t))
        (t, calloc new_dir_size zero_segment) in
    let t' := set_directory t' new_dir in
    (set_stats t' (inc_resizes (stats t')), true).

(** ** nd_find_slot *)
Definition slot_matches (t : NexDashTable) (seg : NexDashSegment) (key : bytes) (hash : Z) (p : pos) : bool :=
  occupied seg p && (key_hash (slot_at seg p) =? hash) &&
  (TAG_GET_LEN (value_ptr (slot_at seg p)) =? alen key) && bytes_eqb (slot_key (key_pool t) (slot_at seg p)) key.

Definition slot_expired (env : Env) (sl : NexDashSlot) : bool :=
  negb (expire_us32 sl =? 0) && (decode_expire (expire_us32 sl) <=? us_now env).

Definition nd_create_in (env : Env) (t : NexDashTable) (key : bytes) (hash : Z) : NexDashTable * option loc :=
  let seg_idx := u32 (hash mod dir_size t) in
  let '(t', seg, p) := nd_insert_into_segment env t (seg_at t seg_idx) (bucket_start hash) hash (Some key) in
  (put_seg t' seg_idx seg, match p with Some p => Some (seg_idx, p) | None => None end).

Definition nd_find_slot (env : Env) (t : NexDashTable) (key : bytes) (hash : Z) (create_if_missing : bool)
    : NexDashTable * option loc :=
  let seg_idx := u32 (hash mod dir_size t) in
  let seg := seg_at t seg_idx in
  match find (slot_matches t seg key hash) (probe_order (bucket_start hash)) with
  | Some p =>
      if slot_expired env (slot_at seg p) then (drop_slot t (seg_idx, p), None) else (t, Some (seg_idx, p))
  | None =>
      if negb create_if_missing then (t, None)
      else
        let '(t, r) := nd_create_in env t key hash in
        match r with
        | Some l => (t, Some l)
        | None =>
            let '(t, ok) := nd_resize env t in
            if ok then nd_create_in env t key hash else (t, None)
        end
  end.

(** ** Public operations *)
Fixpoint grow_segs (fuel : nat) (nsegs target : Z) : Z :=
  match fuel with
  | O => nsegs
  | S fuel => if nsegs <? target then grow_segs fuel (u32 (Z.shiftl nsegs 1)) target else nsegs
  end.

Definition nexdash_create (ceil_blocks : Z -> Z) (initial_segments max_memory : Z) : NexDashTable :=
  let nsegs := grow_segs 30 4 initial_segments in
  mkTable (calloc nsegs zero_segment) 0 [] 65536 65536 false false 0 1 max_memory 0
    (Some (nexbloom_create ceil_blocks (u32 (nsegs * (NEXDASH_BUCKET_COUNT * NEXDASH_SLOT_COUNT)))))
    (mkStats 0 0 0 0 0 0 0 0 0) false [].

Definition nexdash_set_free_cb (t : NexDashTable) : NexDashTable := set_free_cb t true.

Definition nexdash_set (env : Env) (t : NexDashTable) (key : bytes) (value value_sz type expire_us : Z)
    : NexDashTable * Z :=
  if alen key =? 0 then (t, 0)
  else
    let hash := fnv1a_64 key in
    let '(t, r) := nd_find_slot env t key hash true in
    match r with
    | None => (t, 0)
    | Some l =>
        let sl := slot_get t l in
        let old_addr := TAG_GET_ADDR (value_ptr sl) in
        let t := run_free_cb t old_addr (TAG_GET_TYPE (value_ptr sl)) in
        let old_cost := if negb (old_addr =? 0) then value_size sl + NEXDASH_ENTRY_OVERHEAD else 0 in
        let ver := TAG_GET_VER (value_ptr sl) in
        let tier := TAG_GET_TIER (value_ptr sl) in
        let t := slot_put t l (mkSlot (key_hash sl) (TAG_SET_META value (alen key) type tier ver) (key_offset sl)
                                 (encode_expire expire_us) value_sz) in
        let t := set_used_memory t (u64 ((if old_cost <? used_memory t then used_memory t - old_cost else 0)
                                         + value_sz + NEXDASH_ENTRY_OVERHEAD)) in
        let t := set_current_version t (current_version t +64 1) in
        (set_stats t (inc_sets (stats t)), 1)
    end.

(** The result is the value address (0 is NULL) and the type. *)
Definition nexdash_get (env : Env) (t : NexDashTable) (key : bytes) : NexDashTable * (Z * Z) :=
  if alen key =? 0 then (set_stats t (inc_misses (stats t)), (0, 0))
  else
    let hash := fnv1a_64 key in
    let absent := match bloom t with
                  | Some b => match nexbloom_check b hash with Some r => negb r | None => false end
                  | None => false
                  end in
    if absent then (set_stats t (inc_misses (stats t)), (0, 0))
    else
      let '(t, r) := nd_find_slot env t key hash false in
      match r with
      | None => (set_stats t (inc_misses (stats t)), (0, 0))
      | Some l =>
          let sl := slot_get t l in
          let tier := TAG_GET_TIER (value_ptr sl) in
          let type := TAG_GET_TYPE (value_ptr sl) in
          let ver := TAG_GET_VER (value_ptr sl) in
          let t := if tier =? TIER_PROBATORY
                   then slot_put t l (mkSlot (key_hash sl)
                          (TAG_SET_META (TAG_GET_ADDR (value_ptr sl)) (alen key) type TIER_PROTECTED ver)
                          (key_offset sl) (expire_us32 sl) (value_size sl))
                   else t in
          let t := set_stats t (inc_gets (inc_hits (stats t))) in
          (t, (TAG_GET_ADDR (value_ptr (slot_get t l)), type))
      end.

Definition nexdash_del (t : NexDashTable) (key : bytes) : NexDashTable * Z :=
  if alen key =? 0 then (t, 0)
  else
    let hash := fnv1a_64 key in
    let seg_idx := u32 (hash mod dir_size t) in
    match find (slot_matches t (seg_at t seg_idx) key hash) (probe_order (bucket_start hash)) with
    | None => (t, 0)
    | Some p =>
        let t := drop_slot t (seg_idx, p) in
        let t := set_current_version t (current_version t +64 1) in
        (set_stats t (inc_dels (stats t)), 1)
    end.

Definition nexdash_exists (env : Env) (t : NexDashTable) (key : bytes) : NexDashTable * bool :=
  let '(t, (addr, _)) := nexdash_get env t key in (t, negb (addr =? 0)).

Definition nexdash_expire (env : Env) (t : NexDashTable) (key : bytes) (expire_us : Z) : NexDashTable * Z :=
  let '(t, r) := nd_find_slot env t key (fnv1a_64 key) false in
  match r with
  | None => (t, 0)
  | Some l =>
      let sl := slot_get t l in
      (slot_put t l (mkSlot (key_hash sl) (value_ptr sl) (key_offset sl) (encode_expire expire_us) (value_size sl)), 1)
  end.

(** The locations of a full scan. *)
Definition all_locs (t : NexDashTable) : list loc :=
  concat (map (fun si => map (fun p => (si, p)) all_pos) (seqZ 0 (dir_size t))).

Definition occupied_at (t : NexDashTable) (l : loc) : bool := occupied (seg_at t l.1) l.2.

(** [nexdash_scan]: the arguments of the callback, in order. *)
Definition nexdash_scan (env : Env) (t : NexDashTable) : list (bytes * Z * Z) :=
  omap (fun l =>
    let sl := slot_get t l in
    if occupied_at t l && negb (TAG_GET_TYPE (value_ptr sl) =? NTYPE_DELETED) && negb (slot_expired env sl)
    then Some (slot_key (key_pool t) sl, TAG_GET_ADDR (value_ptr sl), TAG_GET_TYPE (value_ptr sl)) else None)
    (all_locs t).

Definition nexdash_scan_expired (env : Env) (t : NexDashTable) : NexDashTable :=
  fold_left (fun t l =>
    if occupied_at t l && slot_expired env (slot_get t l)
    then let t := drop_slot t l in set_stats t (inc_dels (stats t)) else t)
    (all_locs t) t.

Definition nexdash_snapshot_start (t : NexDashTable) : NexDashTable :=
  let t := set_snapshot_version (set_snapshot_in_progress t true) (current_version t) in
  set_stats t (inc_snapshot_count (stats t)).
Definition nexdash_snapshot_end (t : NexDashTable) : NexDashTable := set_snapshot_in_progress t false.

(** One pass of the eviction for the tier [want]; the loop conditions re-test
    [used_memory > target_bytes] before every slot. *)
Definition evict_step (target_bytes want : Z) (st : NexDashTable * Z) (l : loc) : NexDashTable * Z :=
  let '(t, evicted) := st in
  if (target_bytes <? used_memory t) && occupied_at t l && (TAG_GET_TIER (value_ptr (slot_get t l)) =? want)
  then
    let t := drop_slot t l in
    (set_stats t ((if want =? TIER_PROBATORY then inc_evictions_probatory else inc_evictions_protected) (stats t)),
     evicted + 1)
  else st.

Definition evict_pass (target_bytes want : Z) (st : NexDashTable * Z) : NexDashTable * Z :=
  fold_left (evict_step target_bytes want) (all_locs st.1) st.

Definition nexdash_evict_to_target (t : NexDashTable) (target_bytes : Z) : NexDashTable * Z :=
  evict_pass target_bytes TIER_PROTECTED (evict_pass target_bytes TIER_PROBATORY (t, 0)).

(** ** Segments as partial functions from positions to slots *)
Definition valid (p : pos) : Prop := 0 <= p.1 < NEXDASH_BUCKET_COUNT /\ 0 <= p.2 < NEXDASH_SLOT_COUNT.

Definition bucket_ok (b : NexDashBucket) : Prop := alen (slots b) = NEXDASH_SLOT_COUNT /\ in_u 8 (occupancy b).
Definition seg_ok (seg : NexDashSegment) : Prop :=
  alen (buckets seg) = NEXDASH_BUCKET_COUNT /\ Forall bucket_ok (buckets seg).

Definition view (seg : NexDashSegment) (p : pos) : option NexDashSlot :=
  if occupied seg p then Some (slot_at seg p) else None.

Lemma elem_of_all_pos p : p ∈ all_pos <-> valid p.
Proof.
  unfold all_pos, valid, NEXDASH_SLOT_COUNT. rewrite list_elem_of_In, in_concat. setoid_rewrite in_map_iff. split.
  - intros (l & (bi & <- & Hbi) & Hin). apply in_map_iff in Hin as (s & <- & Hs). cbn [fst snd].
    apply list_elem_of_In, elem_of_seqZ in Hbi. simpl in Hs. lia.
  - destruct p as [bi s]. cbn [fst snd]. intros [Hb Hs]. eexists. split.
    + exists bi. split; [done|]. apply list_elem_of_In, elem_of_seqZ. lia.
    + apply in_map_iff. exists s. split; [done|]. simpl. lia.
Qed.

Lemma elem_of_probe_order start p : 0 <= start < NEXDASH_BUCKET_COUNT -> p ∈ probe_order start <-> p ∈ all_pos.
Proof.
  intros Hst. rewrite elem_of_all_pos. unfold probe_order, valid, NEXDASH_SLOT_COUNT, NEXDASH_BUCKET_COUNT in *.
  assert (Hu : forall probe, 0 <= probe < 56 -> u32 (start + probe) = start + probe) by (intros; apply wrap_small; mach).
  rewrite list_elem_of_In, in_concat. setoid_rewrite in_map_iff. split.
  - intros (l & (probe & <- & Hpr) & Hin). apply in_map_iff in Hin as (s & <- & Hs). cbn [fst snd].
    split; [apply Z.mod_pos_bound; lia|]. simpl in Hs. lia.
  - destruct p as [bi s]. cbn [fst snd]. intros [Hb Hs].
    pose proof (Z.mod_pos_bound (bi - start) 56 ltac:(lia)) as Hp.
    eexists. split.
    + exists ((bi - start) mod 56). split; [done|]. apply list_elem_of_In, elem_of_seqZ. lia.
    + apply in_map_iff. exists s. split; [|simpl; lia]. f_equal. rewrite Hu by done.
      rewrite Zplus_mod_idemp_r. replace (start + (bi - start)) with bi by lia. by apply Z.mod_small.
Qed.

Lemma NoDup_all_pos : NoDup all_pos.
Proof. apply (bool_decide_unpack _). vm_compute. done. Qed.

Lemma length_all_pos : length all_pos = 224%nat.
Proof. reflexivity. Qed.

Lemma bucket_start_range h : 0 <= bucket_start h < NEXDASH_BUCKET_COUNT.
Proof.
  unfold bucket_start, NEXDASH_BUCKET_COUNT. pose proof (Z.mod_pos_bound (Z.shiftr h 10) 56 ltac:(lia)).
  rewrite wrap_small by mach. done.
Qed.

Lemma bucket_at_ok seg p : seg_ok seg -> valid p -> bucket_ok (bucket_at seg p).
Proof. intros [Hl Hf] [Hb _]. unfold bucket_at. apply Forall_aget; [done|lia]. Qed.

(** One lemma for the three updates of a bucket. *)
Lemma bucket_at_put seg p b q : seg_ok seg -> valid p -> valid q ->
  bucket_at (put_bucket seg p.1 b) q = if decide (q.1 = p.1) then b else bucket_at seg q.
Proof.
  intros [Hl _] [Hp _] [Hq _]. unfold bucket_at, put_bucket. cbn [buckets]. case_decide as E.
  - rewrite E. apply aget_aset_eq. lia.
  - apply aget_aset_ne; lia.
Qed.

Lemma seg_ok_put seg p b : seg_ok seg -> bucket_ok b -> seg_ok (put_bucket seg p b).
Proof.
  intros [Hl Hf] Hb. split; cbn [put_bucket buckets]; [by rewrite alen_aset|by apply Forall_aset].
Qed.

Lemma put_slot_ok seg p sl : seg_ok seg -> valid p -> seg_ok (put_slot seg p sl).
Proof.
  intros Hs Hp. destruct (bucket_at_ok seg p Hs Hp) as [Hl Ho]. apply seg_ok_put; [done|].
  split; cbn [slots occupancy]; [by rewrite alen_aset|done].
Qed.

Lemma set_occupied_ok seg p : seg_ok seg -> valid p -> seg_ok (set_occupied seg p).
Proof.
  intros Hs Hp. destruct (bucket_at_ok seg p Hs Hp) as [Hl Ho]. apply seg_ok_put; [done|].
  split; cbn [slots occupancy]; [done|apply wrap_range; lia].
Qed.

Lemma clear_occupied_ok seg p : seg_ok seg -> valid p -> seg_ok (clear_occupied seg p).
Proof.
  intros Hs Hp. destruct (bucket_at_ok seg p Hs Hp) as [Hl Ho]. apply seg_ok_put; [done|].
  split; cbn [slots occupancy]; [done|apply wrap_range; lia].
Qed.

Lemma occupied_put_slot seg p sl q : seg_ok seg -> valid p -> valid q ->
  occupied (put_slot seg p sl) q = occupied seg q.
Proof.
  intros Hs Hp Hq. unfold occupied, put_slot. rewrite bucket_at_put by done. case_decide as E; [|done].
  cbn [occupancy]. unfold bucket_at. by rewrite E.
Qed.

Lemma slot_at_put_slot seg p sl q : seg_ok seg -> valid p -> valid q ->
  slot_at (put_slot seg p sl) q = if decide (q = p) then sl else slot_at seg q.
Proof.
  intros Hs Hp Hq. destruct (bucket_at_ok seg p Hs Hp) as [Hl _]. unfold slot_at, put_slot.
  rewrite bucket_at_put by done. destruct Hp as [Hp1 Hp2], Hq as [Hq1 Hq2].
  destruct p as [pb ps], q as [qb qs]. cbn [fst snd] in *. repeat case_decide; simplify_eq/=.
  - apply aget_aset_eq. lia.
  - rewrite aget_aset_ne by (lia || congruence). done.
  - done.
Qed.

Lemma occupied_bits seg f p q : seg_ok seg -> valid p -> valid q ->
  (forall x, in_u 8 x -> in_u 8 (f x)) ->
  occupied (put_bucket seg p.1 (mkBucket (slots (bucket_at seg p)) (f (occupancy (bucket_at seg p))))) q =
    Z.testbit (if decide (q.1 = p.1) then f (occupancy (bucket_at seg p)) else occupancy (bucket_at seg q)) q.2 /\
  slot_at (put_bucket seg p.1 (mkBucket (slots (bucket_at seg p)) (f (occupancy (bucket_at seg p))))) q = slot_at seg q.
Proof.
  intros Hs Hp Hq Hf. unfold occupied, slot_at. rewrite bucket_at_put by done.
  rewrite bit_get_spec by apply Hq. case_decide as E; [|done]. cbn [occupancy slots].
  split; [done|]. unfold bucket_at. by rewrite E.
Qed.

Lemma view_set_occupied seg p q : seg_ok seg -> valid p -> valid q ->
  view (set_occupied seg p) q = if decide (q = p) then Some (slot_at seg p) else view seg q.
Proof.
  intros Hs Hp Hq. destruct (bucket_at_ok seg p Hs Hp) as [_ Ho].
  assert (Hr : u8 (bit_set (occupancy (bucket_at seg p)) p.2) = bit_set (occupancy (bucket_at seg p)) p.2).
  { apply wrap_small, bit_set_range; [|done]. destruct Hp as [_ Hp]. unfold NEXDASH_SLOT_COUNT in Hp. lia. }
  unfold view, set_occupied. rewrite Hr.
  destruct (occupied_bits seg (fun x => bit_set x p.2) p q Hs Hp Hq) as [-> ->].
  { intros x Hx. apply bit_set_range; [|done]. destruct Hp as [_ Hp]. unfold NEXDASH_SLOT_COUNT in Hp. lia. }
  unfold occupied. rewrite bit_get_spec by apply Hq. destruct Hp as [Hp1 Hp2], Hq as [Hq1 Hq2].
  destruct p as [pb ps], q as [qb qs]. cbn [fst snd] in *.
  destruct (decide (qb = pb)) as [->|]; [|by rewrite decide_False by congruence].
  rewrite bit_set_spec by lia. case_decide as E.
  - simplify_eq. by rewrite Z.eqb_refl, orb_true_r.
  - assert (ps <> qs) by congruence. destruct (Z.eqb_spec ps qs); [done|]. rewrite orb_false_r. done.
Qed.

Lemma view_clear_occupied seg p q : seg_ok seg -> valid p -> valid q ->
  view (clear_occupied seg p) q = if decide (q = p) then None else view seg q.
Proof.
  intros Hs Hp Hq. destruct (bucket_at_ok seg p Hs Hp) as [_ Ho].
  assert (Hcr : forall x, in_u 8 x -> in_u 8 (bit_clear x p.2)).
  { intros x Hx. apply bit_clear_range; [apply Hp|lia|done]. }
  unfold view, clear_occupied. rewrite (wrap_small 8 (bit_clear _ _)) by (by apply Hcr).
  destruct (occupied_bits seg (fun x => bit_clear x p.2) p q Hs Hp Hq Hcr) as [-> ->].
  unfold occupied. rewrite bit_get_spec by apply Hq. destruct Hp as [Hp1 Hp2], Hq as [Hq1 Hq2].
  destruct p as [pb ps], q as [qb qs]. cbn [fst snd] in *.
  destruct (decide (qb = pb)) as [->|]; [|by rewrite decide_False by congruence].
  rewrite bit_clear_spec by lia. case_decide as E.
  - simplify_eq. by rewrite Z.eqb_refl, andb_false_r.
  - assert (ps <> qs) by congruence. destruct (Z.eqb_spec ps qs); [done|]. rewrite andb_true_r. done.
Qed.

Lemma view_put_slot seg p sl q : seg_ok seg -> valid p -> valid q ->
  view (put_slot seg p sl) q = if decide (q = p) then (if occupied seg p then Some sl else None) else view seg q.
Proof.
  intros Hs Hp Hq. unfold view. rewrite occupied_put_slot, slot_at_put_slot by done.
  destruct (decide (q = p)) as [->|]; done.
Qed.

(** ** Entries as a multiset *)
Lemma omap_split {A B} `{!EqDecision A} (f : A -> option B) ps p : NoDup ps -> p ∈ ps ->
  omap f ps ≡ₚ option_list (f p) ++ omap f (filter (fun q => q <> p) ps).
Proof.
  induction ps as [|x ps IH]; intros Hnd Hin; [by apply not_elem_of_nil in Hin|].
  apply NoDup_cons in Hnd as [Hx Hnd]. apply elem_of_cons in Hin as [->|Hin].
  - rewrite filter_cons, decide_False by (intros H; by apply H). simpl.
    assert (filter (fun q => q <> x) ps = ps) as ->.
    { clear -Hx. induction ps as [|y ps IH]; [done|]. apply not_elem_of_cons in Hx as [Hxy Hx].
      rewrite filter_cons, decide_True by congruence. by rewrite IH. }
    by destruct (f x).
  - rewrite filter_cons, decide_True by (intros ->; done). simpl.
    destruct (f x); rewrite (IH Hnd Hin); [|done]. by rewrite <- Permutation_middle.
Qed.

(** Two partial functions that differ at most at [p]. *)
Lemma omap_change {A B} `{!EqDecision A} (f g : A -> option B) ps p : NoDup ps -> p ∈ ps ->
  (forall q, q ∈ ps -> q <> p -> g q = f q) ->
  exists rest, omap f ps ≡ₚ option_list (f p) ++ rest /\ omap g ps ≡ₚ option_list (g p) ++ rest.
Proof.
  intros Hnd Hin Hfg. exists (omap f (filter (fun q => q <> p) ps)). split; [by apply omap_split|].
  rewrite (omap_split g ps p) by done. f_equiv.
  assert (H : forall l : list A, (forall q, q ∈ l -> g q = f q) -> omap g l = omap f l).
  { intros l. induction l as [|x l IH]; intros Hl; [done|]. simpl. rewrite (Hl x) by apply list_elem_of_here.
    assert (Hl' : forall q, q ∈ l -> g q = f q) by (intros; apply Hl; by apply list_elem_of_further).
    destruct (f x); [f_equal|]; by apply IH. }
  rewrite H; [done|]. intros q Hq. apply list_elem_of_filter in Hq as [Hne Hq]. by apply Hfg.
Qed.

Lemma entries_change seg seg' p : valid p -> (forall q, valid q -> q <> p -> view seg' q = view seg q) ->
  exists rest, entries seg ≡ₚ option_list (view seg p) ++ rest /\ entries seg' ≡ₚ option_list (view seg' p) ++ rest.
Proof.
  intros Hp Hv. apply (omap_change (view seg) (view seg') all_pos p NoDup_all_pos).
  - by apply elem_of_all_pos.
  - intros q Hq%elem_of_all_pos. by apply Hv.
Qed.

Lemma elem_of_entries seg sl : sl ∈ entries seg <-> exists p, valid p /\ view seg p = Some sl.
Proof.
  unfold entries. rewrite list_elem_of_omap. setoid_rewrite elem_of_all_pos. unfold view. done.
Qed.

Lemma entries_zero : entries zero_segment = [].
Proof. reflexivity. Qed.

Lemma zero_segment_ok : seg_ok zero_segment.
Proof.
  split; [reflexivity|]. apply Forall_replicate. split; [reflexivity|]. cbn. mach.
Qed.

(** A segment holds at most 224 entries, and one without a free slot exactly 224. *)
Lemma length_entries seg : (length (entries seg) <= 224)%nat.
Proof. 
  unfold entries. rewrite <- length_all_pos. generalize all_pos. intros l.
  induction l as [|p l IH]; [done|]. cbn. destruct (occupied seg p); [by apply le_n_S|by apply le_S].
Qed.

Lemma entries_full seg start : 0 <= start < NEXDASH_BUCKET_COUNT ->
  find (fun p => negb (occupied seg p)) (probe_order start) = None -> length (entries seg) = 224%nat.
Proof.
  intros Hst Hf. rewrite <- length_all_pos. unfold entries.
  assert (H : Forall (fun p => occupied seg p = true) all_pos).
  { apply Forall_forall. intros p Hp. apply (elem_of_probe_order start p Hst) in Hp.
    apply list_elem_of_In in Hp. pose proof (find_none _ _ Hf p Hp) as Hn. simpl in Hn. by apply negb_false_iff in Hn. }
  revert H. generalize all_pos. intros l. induction 1 as [|p l Hp Hl IH]; [done|]. cbn. rewrite Hp. cbn. by f_equal.
Qed.
