(* ===== verification/NexDashRefine.v ===== *)
(** * NexDash refines a finite map

    The abstract state of a table is the finite map from keys to items that
    its occupied slots represent.  The invariant [nd_inv] says that the slots
    are well formed, sit in the segment their hash selects, hold pairwise
    different keys and are known to the Bloom filter; every operation keeps
    it and acts on the abstract map as its name says. *)
From S2P Require Import Prelude FilterSpec NexBloom TaggedPtr NexDash.

(** ** The abstract state *)
Record Item := mkItem {
  it_addr : Z; it_type : Z; it_tier : Z; it_ver : Z; it_expire : Z; it_size : Z }.

Definition item_of (sl : NexDashSlot) : Item :=
  mkItem (TAG_GET_ADDR (value_ptr sl)) (TAG_GET_TYPE (value_ptr sl)) (TAG_GET_TIER (value_ptr sl))
    (TAG_GET_VER (value_ptr sl)) (expire_us32 sl) (value_size sl).

Definition item_expired (env : Env) (it : Item) : bool :=
  negb (it_expire it =? 0) && (decode_expire (it_expire it) <=? us_now env).

Definition contents (dir : list NexDashSegment) : list NexDashSlot := concat (entries <$> dir).

Definition amap (pool : bytes) (es : list NexDashSlot) : gmap bytes Item :=
  list_to_map ((fun sl => (slot_key pool sl, item_of sl)) <$> es).

Definition abs (t : NexDashTable) : gmap bytes Item := amap (key_pool t) (contents (directory t)).

(** ** The invariant *)
Record slot_ok (pool : bytes) (sl : NexDashSlot) : Prop := {
  so_word : in_u 64 (value_ptr sl);
  so_len : 1 <= TAG_GET_LEN (value_ptr sl);
  so_off : 0 <= key_offset sl /\ key_offset sl + TAG_GET_LEN (value_ptr sl) <= alen pool;
  so_hash : key_hash sl = fnv1a_64 (slot_key pool sl);
}.

Definition home_ok (dir : list NexDashSegment) : Prop :=
  forall si, 0 <= si < alen dir -> Forall (fun sl => key_hash sl mod alen dir = si) (entries (aget dir si)).

Record dir_ok (dir : list NexDashSegment) : Prop := {
  do_size : 0 < alen dir < 2 ^ 32;
  do_segs : Forall seg_ok dir;
  do_home : home_ok dir;
}.

Definition bloom_knows (b : option NexBloom) (es : list NexDashSlot) : Prop :=
  match b with
  | None => True
  | Some b => bloom_ok b /\ Forall (fun sl => nexbloom_check b (key_hash sl) = Some true) es
  end.

Record pool_ok (t : NexDashTable) : Prop := {
  po_size : alen (key_pool t) <= key_pool_cap t;
  po_cap : 0 < key_pool_cap t < 2 ^ 32;
  po_alloc : key_pool_alloc t = key_pool_cap t;
  po_safe : pool_fault t = false;
}.

Record nd_inv (t : NexDashTable) : Prop := {
  ni_dir : dir_ok (directory t);
  ni_slots : Forall (slot_ok (key_pool t)) (contents (directory t));
  ni_keys : NoDup (slot_key (key_pool t) <$> contents (directory t));
  ni_bloom : bloom_knows (bloom t) (contents (directory t));
  ni_pool : pool_ok t;
}.

(** The fields the invariant reads. *)
Definition same_core (t t' : NexDashTable) : Prop :=
  directory t' = directory t /\ key_pool t' = key_pool t /\ key_pool_cap t' = key_pool_cap t /\
  key_pool_alloc t' = key_pool_alloc t /\ pool_fault t' = pool_fault t /\ bloom t' = bloom t.

Lemma nd_inv_core t t' : same_core t t' -> nd_inv t -> nd_inv t'.
Proof.
  intros (Hd & Hp & Hc & Ha & Hf & Hb) [Id Is Ik Ib [Ps Pc Pa Pf]].
  split; rewrite ?Hd, ?Hp, ?Hb; try done. split; rewrite ?Hp, ?Hc, ?Ha, ?Hf; done.
Qed.

Lemma abs_core t t' : same_core t t' -> abs t' = abs t.
Proof. intros (Hd & Hp & _). unfold abs. by rewrite Hd, Hp. Qed.

Ltac core := repeat split; reflexivity.

(** ** The abstract map of a list of slots *)
Section amap.
Variable pool : bytes.

Lemma amap_keys (es : list NexDashSlot) : ((fun sl => (slot_key pool sl, item_of sl)) <$> es).*1 = slot_key pool <$> es.
Proof. induction es as [|sl es IH]; [done|]. rewrite !fmap_cons. simpl. by f_equal. Qed.

Lemma amap_perm es es' : NoDup (slot_key pool <$> es) -> es ≡ₚ es' -> amap pool es = amap pool es'.
Proof.
  intros Hnd Hp. unfold amap. apply list_to_map_proper; [by rewrite amap_keys|]. by rewrite Hp.
Qed.

Lemma amap_cons sl es : amap pool (sl :: es) = <[slot_key pool sl := item_of sl]> (amap pool es).
Proof. done. Qed.

Lemma amap_lookup_None es k : k ∉ slot_key pool <$> es -> amap pool es !! k = None.
Proof. intros Hk. apply not_elem_of_list_to_map_1. by rewrite amap_keys. Qed.

Lemma amap_lookup es sl : NoDup (slot_key pool <$> es) -> sl ∈ es -> amap pool es !! slot_key pool sl = Some (item_of sl).
Proof.
  intros Hnd Hin. apply elem_of_list_to_map_1; [by rewrite amap_keys|].
  apply list_elem_of_fmap. by exists sl.
Qed.

Lemma amap_delete sl es : NoDup (slot_key pool <$> sl :: es) ->
  delete (slot_key pool sl) (amap pool (sl :: es)) = amap pool es.
Proof.
  rewrite fmap_cons. intros [Hk _]%NoDup_cons. rewrite amap_cons. apply delete_insert_id.
  by apply amap_lookup_None.
Qed.

Lemma amap_update sl sl' es : slot_key pool sl' = slot_key pool sl ->
  amap pool (sl' :: es) = <[slot_key pool sl := item_of sl']> (amap pool (sl :: es)).
Proof. intros Hk. rewrite !amap_cons, Hk. by rewrite insert_insert_eq. Qed.
End amap.

(** ** The contents of a directory and one changed slot *)
Lemma contents_change dir si : 0 <= si < alen dir ->
  exists rest, contents dir ≡ₚ entries (aget dir si) ++ rest /\
    forall seg, contents (aset dir si seg) ≡ₚ entries seg ++ rest.
Proof.
  intros Hsi. unfold alen in Hsi. pose proof (aget_lookup dir si Hsi) as Hl.
  exists (contents (take (Z.to_nat si) dir) ++ contents (drop (S (Z.to_nat si)) dir)).
  assert (Hsplit : forall seg d, d = take (Z.to_nat si) dir ++ seg :: drop (S (Z.to_nat si)) dir ->
    contents d ≡ₚ entries seg ++ contents (take (Z.to_nat si) dir) ++ contents (drop (S (Z.to_nat si)) dir)).
  { intros seg d ->. unfold contents. rewrite fmap_app, concat_app. simpl. apply Permutation_app_swap_app. }
  split.
  - apply Hsplit. symmetry. by apply take_drop_middle.
  - intros seg. apply Hsplit. unfold aset. apply insert_take_drop. lia.
Qed.

Lemma slot_change dir si p seg' : Forall seg_ok dir -> 0 <= si < alen dir -> valid p ->
  (forall q, valid q -> q <> p -> view seg' q = view (aget dir si) q) ->
  exists rest, contents dir ≡ₚ option_list (view (aget dir si) p) ++ rest /\
    contents (aset dir si seg') ≡ₚ option_list (view seg' p) ++ rest.
Proof.
  intros Hok Hsi Hp Hv. destruct (entries_change (aget dir si) seg' p Hp Hv) as (r1 & E1 & E2).
  destruct (contents_change dir si Hsi) as (r2 & F1 & F2).
  exists (r1 ++ r2). rewrite F1, (F2 seg'), E1, E2, !app_assoc. done.
Qed.

Lemma aset_segs dir si seg' : Forall seg_ok dir -> seg_ok seg' -> Forall seg_ok (aset dir si seg').
Proof. intros. by apply Forall_aset. Qed.

(** The home property after a change of one segment. *)
Lemma home_aset dir si seg' : 0 <= si < alen dir -> home_ok dir ->
  Forall (fun sl => key_hash sl mod alen dir = si) (entries seg') -> home_ok (aset dir si seg').
Proof.
  intros Hsi Hh Hs sj Hsj. rewrite alen_aset in *. destruct (Z.eq_dec sj si) as [->|Hne].
  - by rewrite aget_aset_eq.
  - rewrite aget_aset_ne by lia. by apply Hh.
Qed.

Lemma home_entries dir si sl : dir_ok dir -> 0 <= si < alen dir -> sl ∈ entries (aget dir si) -> sl ∈ contents dir.
Proof.
  intros Hd Hsi Hin. destruct (contents_change dir si Hsi) as (rest & E & _). rewrite E. apply elem_of_app. by left.
Qed.

Lemma contents_home dir sl : dir_ok dir -> sl ∈ contents dir -> 0 <= key_hash sl mod alen dir < alen dir /\
  sl ∈ entries (aget dir (key_hash sl mod alen dir)).
Proof.
  intros [Hs _ Hh] Hin. unfold contents in Hin. apply list_elem_of_In, in_concat in Hin as (es & Hes & Hsl).
  apply list_elem_of_In in Hes. apply list_elem_of_In in Hsl.
  apply list_elem_of_fmap in Hes as (seg & -> & Hseg). apply list_elem_of_lookup in Hseg as [i Hi].
  pose proof (lookup_lt_Some _ _ _ Hi) as Hlt.
  assert (Hir : 0 <= Z.of_nat i < alen dir) by (unfold alen; lia).
  assert (aget dir (Z.of_nat i) = seg) as Hg.
  { unfold aget. rewrite Nat2Z.id. by apply list_lookup_total_correct. }
  specialize (Hh _ Hir). rewrite Hg in Hh. rewrite Forall_forall in Hh. specialize (Hh sl Hsl).
  rewrite Hh, Hg. done.
Qed.

(** ** Lookup *)
Lemma fnv1a_64_range key : in_u 64 (fnv1a_64 key).
Proof.
  unfold fnv1a_64. assert (in_u 64 14695981039346656037) as H0 by (vm_compute; split; congruence).
  revert H0. generalize 14695981039346656037 as h. induction key as [|c key IH]; simpl; intros h Hh; [done|].
  apply IH, wrap_range. lia.
Qed.

Definition home (t : NexDashTable) (key : bytes) : Z := fnv1a_64 key mod dir_size t.

Lemma home_range t key : dir_ok (directory t) -> 0 <= home t key < dir_size t /\ u32 (fnv1a_64 key mod dir_size t) = home t key.
Proof.
  intros [Hs _ _]. unfold home, dir_size in *. pose proof (Z.mod_pos_bound (fnv1a_64 key) (alen (directory t)) ltac:(lia)).
  split; [lia|]. apply wrap_small. mach.
Qed.

Lemma alen_slot_key pool sl : slot_ok pool sl -> alen (slot_key pool sl) = TAG_GET_LEN (value_ptr sl).
Proof.
  intros [_ Hl Ho _]. unfold slot_key, alen in *. rewrite length_take, length_drop. lia.
Qed.

(** The probe loop finds the slot of the key if there is one. *)
Lemma find_match t key : nd_inv t ->
  match find (slot_matches t (seg_at t (home t key)) key (fnv1a_64 key)) (probe_order (bucket_start (fnv1a_64 key))) with
  | Some p => valid p /\ exists sl, view (seg_at t (home t key)) p = Some sl /\ slot_at (seg_at t (home t key)) p = sl /\
      slot_key (key_pool t) sl = key /\ sl ∈ contents (directory t)
  | None => key ∉ slot_key (key_pool t) <$> contents (directory t)
  end.
Proof.
  intros Hinv. pose proof Hinv as [Hd Hs _ _ _]. destruct (home_range t key Hd) as [Hr _].
  pose proof (bucket_start_range (fnv1a_64 key)) as Hb.
  destruct (find _ _) as [p|] eqn:E.
  - apply find_some in E as [Hp Hm]. apply list_elem_of_In, (elem_of_probe_order _ _ Hb), elem_of_all_pos in Hp.
    split; [done|]. unfold slot_matches in Hm. cmp_prop.
    assert (Hv : view (seg_at t (home t key)) p = Some (slot_at (seg_at t (home t key)) p)).
    { unfold view. by destruct (occupied (seg_at t (home t key)) p). }
    exists (slot_at (seg_at t (home t key)) p). split_and!; [done|done|done|].
    eapply home_entries; [done|exact Hr|]. apply elem_of_entries. by exists p.
  - intros Hin. apply list_elem_of_fmap in Hin as (sl & -> & Hin).
    rewrite Forall_forall in Hs. pose proof (Hs sl Hin) as Hok. pose proof (so_hash _ _ Hok) as Hh.
    destruct (contents_home _ sl Hd Hin) as [_ He]. rewrite Hh in He. fold (dir_size t) in He.
    change (aget (directory t) (fnv1a_64 (slot_key (key_pool t) sl) mod dir_size t)) with (seg_at t (home t (slot_key (key_pool t) sl))) in He.
    apply elem_of_entries in He as (p & Hp & Hv).
    assert (Hpo : In p (probe_order (bucket_start (fnv1a_64 (slot_key (key_pool t) sl))))).
    { by apply list_elem_of_In, (elem_of_probe_order _ _ Hb), elem_of_all_pos. }
    pose proof (find_none _ _ E p Hpo) as Hn. unfold slot_matches in Hn. unfold view in Hv.
    destruct (occupied _ p); [|done]. apply (inj Some) in Hv. rewrite Hv, Hh, Z.eqb_refl in Hn.
    rewrite (alen_slot_key _ _ Hok), Z.eqb_refl in Hn. simpl in Hn.
    assert (bytes_eqb (slot_key (key_pool t) sl) (slot_key (key_pool t) sl) = true) by (by apply bytes_eqb_eq). congruence.
Qed.

(** ** Changing one slot *)
Lemma seg_at_ok t si : dir_ok (directory t) -> 0 <= si < dir_size t -> seg_ok (seg_at t si).
Proof. intros [_ Hs _] Hsi. unfold seg_at. apply Forall_aget; [done|exact Hsi]. Qed.

Lemma aset_aset {A} (a : list A) i x y : aset (aset a i x) i y = aset a i y.
Proof. unfold aset. apply list_insert_insert_eq. Qed.

(** [seg'] is [seg] with the slot at [p] changed from [old] to [new]. *)
Record seg_step (seg seg' : NexDashSegment) (p : pos) (old new : option NexDashSlot) : Prop := {
  ss_pos : valid p;
  ss_ok : seg_ok seg';
  ss_old : view seg p = old;
  ss_new : view seg' p = new;
  ss_rest : forall q, valid q -> q <> p -> view seg' q = view seg q;
}.

Lemma put_slot_step seg p sl sl' : seg_ok seg -> valid p -> view seg p = Some sl ->
  seg_step seg (put_slot seg p sl') p (Some sl) (Some sl').
Proof.
  intros Hs Hp Hv. split; try done.
  - by apply put_slot_ok.
  - rewrite view_put_slot by done. unfold view in Hv. destruct (occupied seg p); [|done]. by rewrite decide_True.
  - intros q Hq Hne. rewrite view_put_slot by done. by rewrite decide_False.
Qed.

Lemma drop_step seg p sl sl' n : seg_ok seg -> valid p -> view seg p = Some sl ->
  seg_step seg (set_seg_items (clear_occupied (put_slot seg p sl') p) n) p (Some sl) None.
Proof.
  intros Hs Hp Hv. pose proof (put_slot_ok seg p sl' Hs Hp) as Hs'.
  assert (Hview : forall q, view (set_seg_items (clear_occupied (put_slot seg p sl') p) n) q =
    view (clear_occupied (put_slot seg p sl') p) q) by done.
  split; try done.
  - apply (clear_occupied_ok (put_slot seg p sl') p Hs' Hp).
  - rewrite Hview, view_clear_occupied by done. by rewrite decide_True.
  - intros q Hq Hne. rewrite Hview, view_clear_occupied, view_put_slot by done. by rewrite !decide_False.
Qed.

Lemma seg_step_entries dir si seg' p old new : Forall seg_ok dir -> 0 <= si < alen dir ->
  seg_step (aget dir si) seg' p old new ->
  exists rest, contents dir ≡ₚ option_list old ++ rest /\ contents (aset dir si seg') ≡ₚ option_list new ++ rest /\
    Forall (fun sl => sl ∈ option_list new \/ sl ∈ entries (aget dir si)) (entries seg').
Proof.
  intros Hok Hsi [Hp Hs Ho Hn Hr]. destruct (slot_change dir si p seg' Hok Hsi Hp Hr) as (rest & E1 & E2).
  rewrite Ho in E1. rewrite Hn in E2. exists rest. split_and!; [done|done|].
  apply Forall_forall. intros sl Hsl. apply elem_of_entries in Hsl as (q & Hq & Hv).
  destruct (decide (q = p)) as [->|Hne].
  - left. rewrite Hn in Hv. rewrite Hv. apply list_elem_of_here.
  - right. apply elem_of_entries. exists q. split; [done|]. by rewrite <- Hr.
Qed.

(** The directory after a change of one slot. *)
Lemma dir_step dir si seg' p old new : dir_ok dir -> 0 <= si < alen dir ->
  seg_step (aget dir si) seg' p old new ->
  (forall sl, new = Some sl -> key_hash sl mod alen dir = si) -> dir_ok (aset dir si seg').
Proof.
  intros Hd Hsi Hst Hnew. pose proof Hd as [Hsz Hsegs Hhome].
  destruct (seg_step_entries dir si seg' p old new Hsegs Hsi Hst) as (rest & _ & _ & Hf).
  split; [by rewrite alen_aset|apply aset_segs; [done|apply Hst]|].
  apply home_aset; [done|done|]. eapply Forall_impl; [exact Hf|]. intros sl [Hin|Hin].
  - destruct new as [sl'|]; [|by apply not_elem_of_nil in Hin]. simpl in Hin. apply list_elem_of_singleton in Hin as ->. by apply Hnew.
  - specialize (Hhome si Hsi). rewrite Forall_forall in Hhome. by apply Hhome.
Qed.

Lemma bloom_knows_perm b es es' : es ≡ₚ es' -> bloom_knows b es -> bloom_knows b es'.
Proof. intros Hp. destruct b; [|done]. simpl. by rewrite Hp. Qed.

Lemma elem_contents t si p sl : dir_ok (directory t) -> 0 <= si < dir_size t -> valid p ->
  view (seg_at t si) p = Some sl -> sl ∈ contents (directory t).
Proof.
  intros Hd Hsi Hp Hv. eapply home_entries; [done|exact Hsi|]. apply elem_of_entries. by exists p.
Qed.

(** Replacing a slot by one with the same key. *)
Lemma update_inv t t' si p sl sl' : nd_inv t -> 0 <= si < dir_size t -> valid p ->
  view (seg_at t si) p = Some sl -> same_core (slot_put t (si, p) sl') t' ->
  slot_key (key_pool t) sl' = slot_key (key_pool t) sl -> key_hash sl' = key_hash sl -> slot_ok (key_pool t) sl' ->
  nd_inv t' /\ abs t' = <[slot_key (key_pool t) sl := item_of sl']> (abs t).
Proof.
  intros Hinv Hsi Hp Hv Hcore Hk Hh Hok. pose proof Hinv as [Hd Hs Hnd Hb Hpool].
  pose proof (seg_at_ok t si Hd Hsi) as Hso.
  pose proof (put_slot_step (seg_at t si) p sl sl' Hso Hp Hv) as Hst.
  pose proof (elem_contents t si p sl Hd Hsi Hp Hv) as Hin.
  destruct (seg_step_entries (directory t) si _ p _ _ (do_segs _ Hd) Hsi Hst) as (rest & E1 & E2 & _).
  change (aset (directory t) si (put_slot (seg_at t si) p sl')) with (directory (slot_put t (si, p) sl')) in E2.
  change (option_list (Some sl) ++ rest) with (sl :: rest) in E1. change (option_list (Some sl') ++ rest) with (sl' :: rest) in E2.
  assert (Hinv1 : nd_inv (slot_put t (si, p) sl')).
  { split.
    - eapply dir_step; [done|exact Hsi|exact Hst|]. intros s Hs'. simplify_eq. rewrite Hh.
      pose proof (do_home _ Hd si Hsi) as Hhome.
      rewrite Forall_forall in Hhome. apply Hhome. apply elem_of_entries. by exists p.
    - change (key_pool (slot_put t (si, p) sl')) with (key_pool t). rewrite E2. rewrite E1 in Hs.
      apply Forall_cons in Hs as [_ Hs]. by constructor.
    - change (key_pool (slot_put t (si, p) sl')) with (key_pool t). rewrite E2, fmap_cons, Hk. by rewrite E1, fmap_cons in Hnd.
    - change (bloom (slot_put t (si, p) sl')) with (bloom t). apply (bloom_knows_perm _ (sl' :: rest)); [by rewrite E2|].
      destruct (bloom t) as [b|]; [|done]. destruct Hb as [Hbo Hb]. split; [done|]. rewrite E1 in Hb.
      apply Forall_cons in Hb as [Hb1 Hb]. constructor; [by rewrite Hh|done].
    - destruct Hpool as [? ? ? ?]. split; done. }
  split; [by eapply nd_inv_core|]. rewrite (abs_core _ _ Hcore). unfold abs.
  change (key_pool (slot_put t (si, p) sl')) with (key_pool t).
  rewrite (amap_perm _ _ (sl' :: rest)); [|apply Hinv1|exact E2].
  rewrite (amap_perm _ (contents (directory t)) (sl :: rest)); [|done|exact E1].
  by apply amap_update.
Qed.

(** Discarding a slot. *)
Lemma drop_slot_core t si p : exists seg n,
  same_core (put_seg t si (set_seg_items (clear_occupied (put_slot (seg_at t si) p seg) p) n)) (drop_slot t (si, p)) \/
  ~ (0 <= si < dir_size t).
Proof.
  destruct (decide (0 <= si < dir_size t)) as [Hsi|Hn]; [|exists zero_slot, 0; by right].
  eexists _, _. left. unfold drop_slot, nd_release_slot, run_free_cb. cbn [fst snd].
  set (sl := slot_get t (si, p)).
  case_if; unfold slot_put, put_seg, seg_at, same_core, dir_size in *; cbn;
    rewrite aget_aset_eq by done; rewrite aset_aset; repeat split; reflexivity.
Qed.

Lemma drop_inv t t' si p sl : nd_inv t -> 0 <= si < dir_size t -> valid p ->
  view (seg_at t si) p = Some sl -> same_core (drop_slot t (si, p)) t' ->
  nd_inv t' /\ abs t' = delete (slot_key (key_pool t) sl) (abs t).
Proof.
  intros Hinv Hsi Hp Hv Hcore. pose proof Hinv as [Hd Hs Hnd Hb Hpool].
  pose proof (seg_at_ok t si Hd Hsi) as Hso.
  destruct (drop_slot_core t si p) as (sl' & n & [Hc|Hc]); [|done].
  pose proof (drop_step (seg_at t si) p sl sl' n Hso Hp Hv) as Hst.
  destruct (seg_step_entries (directory t) si _ p _ _ (do_segs _ Hd) Hsi Hst) as (rest & E1 & E2 & _).
  set (t1 := put_seg t si (set_seg_items (clear_occupied (put_slot (seg_at t si) p sl') p) n)) in *.
  change (aset (directory t) si _) with (directory t1) in E2. 
  change (option_list (Some sl) ++ rest) with (sl :: rest) in E1. change (option_list None ++ rest) with rest in E2.
  assert (Hinv1 : nd_inv t1).
  { split.
    - eapply dir_step; [done|exact Hsi|exact Hst|done].
    - change (key_pool t1) with (key_pool t). rewrite E2. rewrite E1 in Hs. by apply Forall_cons in Hs as [_ Hs].
    - change (key_pool t1) with (key_pool t). rewrite E2. rewrite E1, fmap_cons in Hnd. by apply NoDup_cons in Hnd as [_ ?].
    - change (bloom t1) with (bloom t). apply (bloom_knows_perm _ rest); [by rewrite E2|].
      destruct (bloom t) as [b|]; [|done]. destruct Hb as [Hbo Hb]. split; [done|]. rewrite E1 in Hb.
      by apply Forall_cons in Hb as [_ Hb].
    - destruct Hpool as [? ? ? ?]. split; done. }
  assert (Hcc : same_core t1 t').
  { unfold same_core in *. intuition congruence. }
  split; [by eapply nd_inv_core|]. rewrite (abs_core _ _ Hcc). unfold abs. change (key_pool t1) with (key_pool t).
  rewrite (amap_perm _ _ rest); [|apply Hinv1|exact E2].
  rewrite (amap_perm _ (contents (directory t)) (sl :: rest)); [|done|exact E1].
  symmetry. apply amap_delete. by rewrite E1 in Hnd.
Qed.

(** ** The key pool *)
Definition pool_room (t : NexDashTable) (key : bytes) : Prop := alen (key_pool t) + alen key + 1 <= 2 ^ 31.

Lemma grow_cap_spec fuel need cap : 0 < cap < 2 ^ 32 -> need <= 2 ^ 31 -> need <= cap * 2 ^ Z.of_nat fuel ->
  need <= grow_cap fuel need cap /\ 0 < grow_cap fuel need cap < 2 ^ 32.
Proof.
  revert cap. induction fuel as [|fuel IH]; intros cap Hc Hn Hf; simpl.
  { simpl in Hf. lia. }
  destruct (Z.ltb_spec cap need); [|lia]. rewrite wrap_small by mach. apply IH; [mach|done|].
  rewrite Nat2Z.inj_succ, Z.pow_succ_r in Hf by lia. lia.
Qed.

Lemma pool_append_spec env t key : pool_ok t -> pool_room t key -> realloc_ok env = true ->
  exists t', pool_append env t key = (t', Some (alen (key_pool t))) /\ pool_ok t' /\
    key_pool t' = key_pool t ++ key ++ [0] /\ directory t' = directory t /\ bloom t' = bloom t /\
    item_count t' = item_count t.
Proof.
  intros [Hs Hc Ha Hf] Hr Henv. unfold pool_room in Hr. unfold pool_append, key_pool_size.
  assert (Hlen : 0 <= alen (key_pool t) /\ 0 <= alen key) by (unfold alen; lia).
  rewrite (wrap_small 32 (alen (key_pool t) + alen key + 1)) by mach. rewrite Henv, andb_false_r.
  assert (Happ : alen (key_pool t ++ key ++ [0]) = alen (key_pool t) + alen key + 1).
  { unfold alen. rewrite !length_app. simpl. lia. }
  destruct (Z.ltb_spec (key_pool_cap t) (alen (key_pool t) + alen key + 1)) as [Hg|Hg].
  - destruct (grow_cap_spec 33 (alen (key_pool t) + alen key + 1) (key_pool_cap t) Hc Hr) as [H1 H2]; [mach|].
    eexists. split; [reflexivity|]. split_and!; try reflexivity.
    split; cbn -[grow_cap]; [by rewrite Happ|done|done|]. rewrite Hf, orb_false_l. apply Z.ltb_ge. done.
  - eexists. split; [reflexivity|]. split_and!; try reflexivity.
    split; cbn; [by rewrite Happ|done|done|]. rewrite Hf, orb_false_l. apply Z.ltb_ge. lia.
Qed.

Lemma slot_key_app pool x sl : slot_ok pool sl -> slot_key (pool ++ x) sl = slot_key pool sl.
Proof.
  intros [_ Hl Ho _]. unfold slot_key, alen in *. rewrite drop_app_le by lia. rewrite take_app_le; [done|].
  rewrite length_drop. lia.
Qed.

Lemma slot_ok_app pool x sl : slot_ok pool sl -> slot_ok (pool ++ x) sl.
Proof.
  intros Hok. pose proof (slot_key_app pool x sl Hok) as Hk. destruct Hok as [Hw Hl Ho Hh]. split; try done.
  - unfold alen in *. rewrite length_app. lia.
  - by rewrite Hk.
Qed.

(** The slot that a creation writes. *)
Definition new_slot (t : NexDashTable) (key : bytes) : NexDashSlot :=
  mkSlot (fnv1a_64 key) (TAG_SET_META 0 (alen key) NTYPE_STRING TIER_PROBATORY 0) (alen (key_pool t)) 0 0.

Lemma meta_fields addr key type tier ver : in_u 48 addr -> 1 <= alen key <= 255 -> in_u 4 type -> in_u 2 tier -> in_u 2 ver ->
  tag_fields addr (alen (A := Z) key) type tier ver.
Proof. intros. split; try done. mach. Qed.

Lemma new_slot_ok t key : 1 <= alen key <= 255 ->
  slot_ok (key_pool t ++ key ++ [0]) (new_slot t key) /\ slot_key (key_pool t ++ key ++ [0]) (new_slot t key) = key.
Proof.
  intros Hk. pose proof (meta_fields 0 key NTYPE_STRING TIER_PROBATORY 0) as Hf.
  destruct (TAG_get_set 0 (alen key) NTYPE_STRING TIER_PROBATORY 0) as (Hw & _ & Hl & _); [apply Hf; mach || done|].
  assert (Hkey : slot_key (key_pool t ++ key ++ [0]) (new_slot t key) = key).
  { unfold slot_key, new_slot. cbn [value_ptr key_offset]. rewrite Hl. unfold alen.
    rewrite !Nat2Z.id. rewrite drop_app_length. by rewrite take_app_length. }
  split; [|done]. split; cbn [new_slot value_ptr key_offset key_hash]; try done.
  - lia.
  - rewrite Hl. unfold alen. rewrite !length_app. simpl. lia.
  - by rewrite Hkey.
Qed.

(** ** Insertion into a segment *)
Lemma insert_step seg p sl n v m : seg_ok seg -> valid p -> occupied seg p = false ->
  seg_step seg (set_occupied (mkSegment (buckets (put_slot (put_slot seg p (mkSlot (key_hash sl) 0 0 0 0)) p sl)) n v m) p) p None (Some sl).
Proof.
  intros Hs Hp Ho. set (seg1 := put_slot seg p (mkSlot (key_hash sl) 0 0 0 0)).
  pose proof (put_slot_ok seg p (mkSlot (key_hash sl) 0 0 0 0) Hs Hp) as Hs1. fold seg1 in Hs1.
  pose proof (put_slot_ok seg1 p sl Hs1 Hp) as Hs2. set (seg2 := put_slot seg1 p sl) in *.
  set (seg3 := mkSegment (buckets seg2) n v m). assert (Hs3 : seg_ok seg3) by done.
  assert (Hv3 : forall q, view seg3 q = view seg2 q) by done.
  assert (Hslot : slot_at seg3 p = sl).
  { change (slot_at seg3 p) with (slot_at seg2 p). unfold seg2. rewrite slot_at_put_slot by done. by rewrite decide_True. }
  split; try done.
  - by apply set_occupied_ok.
  - unfold view. by rewrite Ho.
  - rewrite view_set_occupied by done. by rewrite decide_True, Hslot by done.
  - intros q Hq Hne. rewrite view_set_occupied, decide_False, Hv3 by done. unfold seg2, seg1.
    rewrite !view_put_slot by (done || by apply put_slot_ok). by rewrite !decide_False.
Qed.

Lemma find_free seg start p : 0 <= start < NEXDASH_BUCKET_COUNT ->
  find (fun p => negb (occupied seg p)) (probe_order start) = Some p -> valid p /\ occupied seg p = false.
Proof.
  intros Hst Hf. apply find_some in Hf as [Hin Ho]. apply negb_true_iff in Ho. split; [|done].
  by apply elem_of_all_pos, (elem_of_probe_order start p Hst), list_elem_of_In.
Qed.

Lemma aset_aget {A} `{!Inhabited A} (a : list A) i : 0 <= i < alen a -> aset a i (aget a i) = a.
Proof. intros Hi. unfold aset. apply list_insert_id. by apply aget_lookup. Qed.

Lemma bloom_add_knows b h es es' : bloom_knows (Some b) es -> in_u 64 h ->
  Forall (fun sl => in_u 64 (key_hash sl)) es ->
  (forall sl, sl ∈ es' -> sl ∈ es \/ key_hash sl = h) ->
  bloom_knows (match nexbloom_add b h with Some b' => Some b' | None => Some b end) es'.
Proof.
  intros [Hok Hf] Hh Hr Hsub. destruct (add_total b h Hok Hh) as (b' & E & Hok'). rewrite E. split; [done|].
  apply Forall_forall. intros sl Hsl. rewrite Forall_forall in Hf, Hr. destruct (Hsub sl Hsl) as [Hin|Heq].
  - apply (check_kept b h b' (key_hash sl)); try done; [by apply Hr|by apply Hf].
  - rewrite Heq. by apply (check_added b h b').
Qed.

Lemma slot_hash_range pool es : Forall (slot_ok pool) es -> Forall (fun sl => in_u 64 (key_hash sl)) es.
Proof. intros H. eapply Forall_impl; [exact H|]. intros sl [_ _ _ ->]. apply fnv1a_64_range. Qed.

(** A creation either stores a new empty slot for the key, or finds the
    segment full and changes nothing. *)
Lemma create_in_inv env t key : nd_inv t -> realloc_ok env = true -> 1 <= alen key <= 255 -> pool_room t key ->
  key ∉ slot_key (key_pool t) <$> contents (directory t) ->
  let '(t', r) := nd_create_in env t key (fnv1a_64 key) in
  match r with
  | Some (si, p) => si = home t key /\ dir_size t' = dir_size t /\ nd_inv t' /\ valid p /\
      (exists sl, view (seg_at t' si) p = Some sl /\ slot_key (key_pool t') sl = key /\
        item_of sl = item_of (new_slot t key)) /\
      abs t' = <[key := item_of (new_slot t key)]> (abs t)
  | None => same_core t t' /\ length (entries (seg_at t (home t key))) = 224%nat
  end.
Proof.
  intros Hinv Hre Hkl Hroom Hnew. pose proof Hinv as [Hd Hs Hnd Hb Hpool].
  destruct (home_range t key Hd) as [Hsi Hu]. unfold nd_create_in. rewrite Hu.
  set (si := home t key) in *. pose proof (seg_at_ok t si Hd Hsi) as Hso.
  pose proof (bucket_start_range (fnv1a_64 key)) as Hbs. unfold nd_insert_into_segment.
  destruct (find _ _) as [p|] eqn:Ef; cycle 1.
  { split; [|by eapply entries_full]. unfold same_core, put_seg. cbn. unfold seg_at. by rewrite aset_aget. }
  destruct (find_free _ _ _ Hbs Ef) as [Hp Ho].
  destruct (pool_append_spec env t key Hpool Hroom Hre) as (t1 & -> & Hpool1 & Hpk & Hdir & Hbl & Hic).
  pose proof (insert_step (seg_at t si) p (new_slot t key) (seg_item_count (seg_at t si) +32 1)
    (u32 (current_version t1)) (us_now env) Hso Hp Ho) as Hst.
  destruct (new_slot_ok t key Hkl) as [Hnok Hnkey].
  unfold new_slot in Hst. cbn [key_hash] in Hst.
  cbn [buckets seg_item_count put_slot put_bucket] in Hst |- *.
  match type of Hst with seg_step _ ?s _ _ _ => set (seg' := s) in * end.
  match goal with |- context [put_seg ?a si ?b] => set (t2 := a); change b with seg' end.
  fold (new_slot t key) in Hst.
  destruct (seg_step_entries (directory t) si seg' p _ _ (do_segs _ Hd) Hsi Hst) as (rest & E1 & E2 & _).
  change (option_list None ++ rest) with rest in E1. change (option_list (Some (new_slot t key)) ++ rest) with (new_slot t key :: rest) in E2.
  assert (Hd2 : directory t2 = directory t) by (unfold t2; cbn; rewrite Hbl; destruct (bloom t); done).
  assert (Hk2 : key_pool t2 = key_pool t ++ key ++ [0]) by (unfold t2; cbn; rewrite Hbl; destruct (bloom t); done).
  assert (Hb2 : bloom t2 = match bloom t with Some b => match nexbloom_add b (fnv1a_64 key) with Some b' => Some b' | None => Some b end | None => None end).
  { unfold t2. cbn. rewrite Hbl. destruct (bloom t); done. }
  assert (Hp2 : pool_ok t2).
  { destruct Hpool1 as [? ? ? ?]. unfold t2. cbn. rewrite Hbl. destruct (bloom t); split; done. }
  clearbody t2. set (t' := put_seg t2 si seg').
  assert (Hdir' : directory t' = aset (directory t) si seg') by (unfold t', put_seg; cbn; by rewrite Hd2).
  assert (Hkeys : slot_key (key_pool t ++ key ++ [0]) <$> rest = slot_key (key_pool t) <$> rest).
  { apply list_fmap_ext. intros i sl Hsl. apply slot_key_app. rewrite E1 in Hs. rewrite Forall_forall in Hs.
    apply Hs. by eapply list_elem_of_lookup_2. }
  assert (Hinv' : nd_inv t').
  { split.
    - rewrite Hdir'. eapply dir_step; [done|exact Hsi|exact Hst|]. intros sl Hsl. simplify_eq. reflexivity.
    - rewrite Hdir', E2. change (key_pool t') with (key_pool t2). rewrite Hk2. constructor; [done|].
      rewrite E1 in Hs. eapply Forall_impl; [exact Hs|]. intros. by apply slot_ok_app.
    - rewrite Hdir', E2, fmap_cons. change (key_pool t') with (key_pool t2). rewrite Hk2, Hnkey, Hkeys.
      rewrite E1 in Hnew, Hnd. by constructor.
    - rewrite Hdir'. change (bloom t') with (bloom t2). rewrite Hb2. destruct (bloom t) as [b|]; [|done].
      apply (bloom_add_knows b _ (contents (directory t))); [done|apply fnv1a_64_range|by eapply slot_hash_range|].
      intros sl Hsl. rewrite E2 in Hsl. rewrite E1. apply elem_of_cons in Hsl as [->|Hsl]; [by right|by left].
    - destruct Hp2 as [? ? ? ?]. split; done. }
  split_and!; try done.
  - unfold dir_size. rewrite Hdir'. apply alen_aset.
  - exists (new_slot t key). split_and!.
    + unfold seg_at. rewrite Hdir', aget_aset_eq by done. apply Hst.
    + change (key_pool t') with (key_pool t2). by rewrite Hk2.
    + done.
  - unfold abs. change (key_pool t') with (key_pool t2). rewrite Hk2, Hdir'.
    rewrite (amap_perm _ _ (new_slot t key :: rest)); [| |exact E2].
    2: { pose proof (ni_keys _ Hinv') as Hk'. rewrite Hdir' in Hk'. change (key_pool t') with (key_pool t2) in Hk'. by rewrite Hk2 in Hk'. }
    rewrite amap_cons, Hnkey. f_equal.
    rewrite (amap_perm _ (contents (directory t)) rest); [|done|exact E1].
    unfold amap. f_equal. apply list_fmap_ext. intros i sl Hsl. f_equal. apply slot_key_app.
    rewrite E1 in Hs. rewrite Forall_forall in Hs. apply Hs. by eapply list_elem_of_lookup_2.
Qed.

(** ** Resize *)
Lemma length_filter_mono {A} (P Q : A -> Prop) `{!forall x, Decision (P x)} `{!forall x, Decision (Q x)} (l : list A) :
  (forall x, P x -> Q x) -> (length (filter P l) <= length (filter Q l))%nat.
Proof.
  intros HPQ. induction l as [|x l IH]; [done|]. rewrite !filter_cons.
  destruct (decide (P x)), (decide (Q x)); simpl; try lia. exfalso. auto.
Qed.

(** The entries with home [si] are those of segment [si]. *)
Lemma filter_home_seq n off (dir : list NexDashSegment) si :
  (forall i seg, dir !! i = Some seg -> Forall (fun sl => key_hash sl mod n = off + Z.of_nat i) (entries seg)) ->
  filter (fun sl => key_hash sl mod n = si) (contents dir) =
  if decide (off <= si < off + alen dir) then entries (aget dir (si - off)) else [].
Proof.
  revert off. induction dir as [|seg dir IH]; intros off Hh.
  { rewrite decide_False by (unfold alen; simpl; lia). done. }
  change (contents (seg :: dir)) with (entries seg ++ contents dir). rewrite filter_app.
  rewrite (IH (off + 1)).
  2: { intros i s Hs. specialize (Hh (S i) s Hs). eapply Forall_impl; [exact Hh|]. simpl. intros sl Hsl. lia. }
  pose proof (Hh 0%nat seg eq_refl) as H0. simpl in H0. rewrite Z.add_0_r in H0.
  assert (Hal : alen (seg :: dir) = alen dir + 1) by (unfold alen; simpl length; lia). rewrite Hal.
  destruct (Z.eq_dec si off) as [->|Hne].
  - rewrite filter_all by done. rewrite decide_False by lia. rewrite decide_True by (unfold alen; lia).
    rewrite app_nil_r, Z.sub_diag. done.
  - rewrite filter_none by (eapply Forall_impl; [exact H0|]; simpl; lia). simpl app.
    destruct (decide (off + 1 <= si < off + 1 + alen dir)); [|by rewrite decide_False by lia].
    rewrite decide_True by lia. unfold aget. replace (Z.to_nat (si - off)) with (S (Z.to_nat (si - (off + 1)))) by lia. done.
Qed.

Lemma filter_home dir si : home_ok dir -> 0 <= si < alen dir ->
  filter (fun sl => key_hash sl mod alen dir = si) (contents dir) = entries (aget dir si).
Proof.
  intros Hh Hsi. rewrite (filter_home_seq _ 0).
  - rewrite decide_True by lia. by rewrite Z.sub_0_r.
  - intros i seg Hi. pose proof (lookup_lt_Some _ _ _ Hi). specialize (Hh (Z.of_nat i)).
    unfold aget, alen in *. rewrite Nat2Z.id, (list_lookup_total_correct _ _ _ Hi) in Hh. rewrite Z.add_0_l. apply Hh. lia.
Qed.

(** One entry moved to the new directory, whose segment has room. *)
Lemma rehash_step env t new_dir sl n : alen new_dir = n -> 0 < n < 2 ^ 32 -> Forall seg_ok new_dir -> home_ok new_dir ->
  (length (entries (aget new_dir (key_hash sl mod n))) < 224)%nat ->
  let '(t', new_dir') := rehash_slot env n sl (t, new_dir) in
  same_core t t' /\ alen new_dir' = n /\ Forall seg_ok new_dir' /\ home_ok new_dir' /\
  contents new_dir' ≡ₚ sl :: contents new_dir /\ item_count t' = item_count t +32 1.
Proof.
  intros Hn Hr Hsegs Hhome Hroom. unfold rehash_slot.
  pose proof (Z.mod_pos_bound (key_hash sl) n ltac:(lia)) as Hi.
  rewrite (wrap_small 32 (key_hash sl mod n)) by mach. set (si := key_hash sl mod n) in *.
  unfold nd_insert_into_segment. pose proof (bucket_start_range (key_hash sl)) as Hbs.
  assert (Hso : seg_ok (aget new_dir si)) by (apply Forall_aget; [done|lia]).
  destruct (find _ _) as [p|] eqn:Ef; cycle 1.
  { pose proof (entries_full _ _ Hbs Ef). lia. }
  destruct (find_free _ _ _ Hbs Ef) as [Hp Ho].
  pose proof (insert_step (aget new_dir si) p
    (mkSlot (key_hash sl) (TAG_SET_META 0 0 NTYPE_STRING TIER_PROBATORY 0) 0 0 0)
    (seg_item_count (aget new_dir si) +32 1) (u32 (current_version t)) (us_now env) Hso Hp Ho) as Hst.
  cbn [key_hash] in Hst. cbn [buckets seg_item_count put_slot put_bucket] in Hst |- *.
  match type of Hst with seg_step _ ?s _ _ _ => set (seg1 := s) in * end.
  match goal with |- context [aset new_dir si (put_slot ?b p _)] => change b with seg1 end.
  assert (Hkh : key_hash (slot_at seg1 p) = key_hash sl).
  { pose proof (ss_new _ _ _ _ _ Hst) as Hv. unfold view in Hv. destruct (occupied seg1 p); [|done].
    apply (inj Some) in Hv. by rewrite Hv. }
  rewrite Hkh. replace (mkSlot (key_hash sl) (value_ptr sl) (key_offset sl) (expire_us32 sl) (value_size sl)) with sl by (by destruct sl).
  assert (Hst2 : seg_step (aget new_dir si) (put_slot seg1 p sl) p None (Some sl)).
  { destruct Hst as [_ Hok Hold Hnew Hrest].
    destruct (put_slot_step seg1 p _ sl Hok Hp Hnew) as [_ Hok2 _ Hnew2 Hrest2].
    split; try done. intros q Hq Hne. by rewrite Hrest2, Hrest. }
  destruct (seg_step_entries new_dir si _ p _ _ Hsegs ltac:(lia) Hst2) as (rest & E1 & E2 & Hf).
  split_and!.
  - core.
  - by rewrite alen_aset.
  - apply aset_segs; [done|apply Hst2].
  - apply home_aset; [lia|done|]. eapply Forall_impl; [exact Hf|]. intros s [Hin|Hin].
    + change (option_list (Some sl)) with [sl] in Hin. apply list_elem_of_singleton in Hin as ->. by rewrite Hn.
    + specialize (Hhome si ltac:(lia)). rewrite Forall_forall in Hhome. by apply Hhome.
  - rewrite E2, E1. done.
  - done.
Qed.

(** All the entries moved: no segment of the doubled directory overflows,
    because each takes its entries from one old segment. *)
Lemma rehash_all env dir n todo : dir_ok dir -> n = 2 * alen dir -> n < 2 ^ 32 ->
  forall done_ t new_dir, contents dir ≡ₚ done_ ++ todo ->
  alen new_dir = n -> Forall seg_ok new_dir -> home_ok new_dir -> contents new_dir ≡ₚ done_ ->
  exists t' new_dir', fold_left (fun st sl => rehash_slot env n sl st) todo (t, new_dir) = (t', new_dir') /\
  same_core t t' /\ alen new_dir' = n /\ Forall seg_ok new_dir' /\ home_ok new_dir' /\
  contents new_dir' ≡ₚ contents dir /\ u32 (item_count t') = u32 (item_count t + Z.of_nat (length todo)).
Proof.
  intros Hd Hn Hb. pose proof (do_size _ Hd) as Hsz.
  induction todo as [|sl todo IH]; intros done_ t new_dir Hall Hlen Hsegs Hhome Hcont.
  { exists t, new_dir. split_and!; try done.
    - rewrite Hcont, Hall. by rewrite app_nil_r.
    - by rewrite Z.add_0_r. }
  cbn [fold_left].
  assert (Hroom : (length (entries (aget new_dir (key_hash sl mod n))) < 224)%nat).
  { pose proof (Z.mod_pos_bound (key_hash sl) n ltac:(lia)) as Hi.
    rewrite <- filter_home by (done || lia). rewrite Hlen, Hcont.
    set (P := fun s => key_hash s mod n = key_hash sl mod n).
    assert (Hsplit : (length (filter P done_) < length (filter P (contents dir)))%nat).
    { rewrite Hall, filter_app, length_app, filter_cons, decide_True by done. simpl. lia. }
    set (Q := fun s => key_hash s mod alen dir = key_hash sl mod alen dir).
    assert (Hq : (length (filter P (contents dir)) <= length (filter Q (contents dir)))%nat).
    { apply length_filter_mono. unfold P, Q. intros s Hs.
      assert (Hmm : forall h, h mod n mod alen dir = h mod alen dir).
      { intros h. subst n. rewrite Z.mul_comm. rewrite Z.rem_mul_r by lia. rewrite Z.mul_comm, Z.mod_add by lia. apply Zmod_mod. }
      by rewrite <- Hmm, Hs, Hmm. }
    unfold Q in Hq. rewrite filter_home in Hq; [|apply Hd|apply Z.mod_pos_bound; lia].
    pose proof (length_entries (aget dir (key_hash sl mod alen dir))). unfold P in *. lia. }
  pose proof (rehash_step env t new_dir sl n Hlen ltac:(lia) Hsegs Hhome Hroom) as Hst.
  destruct (rehash_slot env n sl (t, new_dir)) as [t1 dir1]. destruct Hst as (Hc1 & Hl1 & Hs1 & Hh1 & Hcont1 & Hic1).
  assert (Hall1 : contents dir ≡ₚ (sl :: done_) ++ todo) by (rewrite Hall; symmetry; apply Permutation_middle).
  destruct (IH (sl :: done_) t1 dir1 Hall1 Hl1 Hs1 Hh1 ltac:(by rewrite Hcont1, Hcont))
    as (t2 & dir2 & -> & Hc2 & Hl2 & Hs2 & Hh2 & Hcont2 & Hic2).
  exists t2, dir2. split_and!; try done.
  - unfold same_core in *. intuition congruence.
  - rewrite Hic2, Hic1. unfold wrap. rewrite Zplus_mod_idemp_l. f_equal. simpl length. lia.
Qed.

Lemma resize_inv env t t' ok : nd_inv t -> nd_resize env t = (t', ok) ->
  nd_inv t' /\ key_pool t' = key_pool t /\ contents (directory t') ≡ₚ contents (directory t) /\
  (ok = false -> t' = t) /\
  (ok = true -> dir_size t' = 2 * dir_size t /\
     u32 (item_count t') = u32 (item_count t + Z.of_nat (length (contents (directory t))))).
Proof.
  intros Hinv E. pose proof Hinv as [Hd Hs Hnd Hb Hpool]. pose proof (do_size _ Hd) as Hsz. unfold nd_resize in E.
  destruct (u32 (dir_size t * 2) <=? dir_size t) eqn:Eg; [by simplify_eq|].
  destruct (arena_ok env); simpl in E; [|by simplify_eq]. cmp_prop. unfold dir_size in *.
  assert (Hn : u32 (alen (directory t) * 2) = 2 * alen (directory t) /\ 2 * alen (directory t) < 2 ^ 32).
  { destruct (Z.lt_ge_cases (alen (directory t) * 2) (2 ^ 32)) as [Hlt|Hge].
    - rewrite wrap_small by (unfold in_u; lia). lia.
    - exfalso. assert (u32 (alen (directory t) * 2) = alen (directory t) * 2 - 2 ^ 32); [|lia].
      unfold wrap. symmetry. apply Z.mod_unique with 1; lia. }
  destruct Hn as [Hn Hlt]. rewrite Hn in E. set (n := 2 * alen (directory t)) in *.
  assert (Hz : alen (calloc n zero_segment) = n) by (apply alen_calloc; lia).
  assert (Hzc : contents (calloc n zero_segment) = []).
  { unfold calloc. generalize (Z.to_nat n). intros m. induction m as [|m IHm]; [done|]. exact IHm. }
  destruct (rehash_all env (directory t) n (contents (directory t)) Hd eq_refl Hlt [] t (calloc n zero_segment))
    as (t1 & dir1 & Ef & Hc & Hl & Hsg & Hh & Hcont & Hic); try done.
  { apply Forall_replicate, zero_segment_ok. }
  { intros si Hsi. rewrite Hz in Hsi. rewrite aget_calloc by done. rewrite entries_zero. constructor. }
  { by rewrite Hzc. }
  change (concat (entries <$> directory t)) with (contents (directory t)) in E. rewrite Ef in E. apply pair_equal_spec in E as [<- <-].
  destruct Hc as (Hcd & Hck & Hcc & Hca & Hcf & Hcb).
  split_and!; try done.
  split; cbn.
  - split; [unfold n in *; lia|done|done].
  - rewrite Hck. by rewrite Hcont.
  - rewrite Hck. by rewrite Hcont.
  - rewrite Hcb. by eapply bloom_knows_perm.
  - destruct Hpool as [? ? ? ?]. split; cbn; rewrite ?Hck, ?Hcc, ?Hca, ?Hcf; done.
Qed.

Lemma abs_perm t t' : nd_inv t -> key_pool t' = key_pool t -> contents (directory t') ≡ₚ contents (directory t) -> abs t' = abs t.
Proof.
  intros [_ _ Hnd _ _] Hk Hc. unfold abs. rewrite Hk. symmetry. by apply amap_perm.
Qed.

(** ** Calls of free_cb *)
Definition same_frees (t t' : NexDashTable) : Prop := freed t' = freed t /\ free_cb t' = free_cb t.

(** What [free_cb] gets when an item is discarded or replaced. *)
Definition free_of (t : NexDashTable) (it : Item) : list Z :=
  if negb (it_addr it =? 0) && negb (it_type it =? NTYPE_DELETED) && free_cb t then [it_addr it] else [].

Lemma insert_frees env t seg start h k : same_frees t (nd_insert_into_segment env t seg start h k).1.1.
Proof.
  unfold nd_insert_into_segment. destruct (find _ _) as [p|]; [|done].
  assert (Hp : forall key, same_frees t (pool_append env t key).1).
  { intros key. unfold pool_append. repeat case_if; done. }
  destruct k as [key|].
  - specialize (Hp key). destruct (pool_append env t key) as [t1 [off|]]; [|done]. cbn.
    destruct (bloom t1); [destruct (nexbloom_add _ _)|]; done.
  - done.
Qed.

Lemma create_frees env t key h : same_frees t (nd_create_in env t key h).1.
Proof.
  unfold nd_create_in. pose proof (insert_frees env t (seg_at t (u32 (h mod dir_size t))) (bucket_start h) h (Some key)) as H.
  destruct (nd_insert_into_segment _ _ _ _ _ _) as [[t1 seg] p]. done.
Qed.

Lemma rehash_frees env n l t d : same_frees t (fold_left (fun st sl => rehash_slot env n sl st) l (t, d)).1.
Proof.
  revert t d. induction l as [|sl l IH]; intros t d; [done|]. cbn [fold_left].
  assert (H : same_frees t (rehash_slot env n sl (t, d)).1).
  { unfold rehash_slot. pose proof (insert_frees env t (aget d (u32 (key_hash sl mod n))) (bucket_start (key_hash sl)) (key_hash sl) None) as H.
    destruct (nd_insert_into_segment _ _ _ _ _ _) as [[t1 seg] [p|]]; done. }
  destruct (rehash_slot env n sl (t, d)) as [t1 d1]. specialize (IH t1 d1). unfold same_frees in *. simpl in *. intuition congruence.
Qed.

Lemma resize_frees env t : same_frees t (nd_resize env t).1.
Proof.
  unfold nd_resize. repeat case_if; try done.
  pose proof (rehash_frees env (u32 (dir_size t * 2)) (concat (entries <$> directory t)) t (calloc (u32 (dir_size t * 2)) zero_segment)) as H.
  destruct (fold_left _ _ _) as [t1 d1]. done.
Qed.

Lemma drop_frees t l : freed (drop_slot t l) = free_of t (item_of (slot_get t l)) ++ freed t /\ free_cb (drop_slot t l) = free_cb t.
Proof.
  unfold drop_slot, nd_release_slot, free_of, run_free_cb, item_of. cbn [it_addr it_type]. case_if; done.
Qed.

(** ** nd_find_slot *)
Definition located (t : NexDashTable) (l : loc) (key : bytes) (sl : NexDashSlot) : Prop :=
  0 <= l.1 < dir_size t /\ valid l.2 /\ view (seg_at t l.1) l.2 = Some sl /\ slot_key (key_pool t) sl = key.

Definition empty_item : Item := mkItem 0 NTYPE_STRING TIER_PROBATORY 0 0 0.

Lemma new_item t key : 1 <= alen key <= 255 -> item_of (new_slot t key) = empty_item.
Proof.
  intros Hk. destruct (TAG_get_set 0 (alen key) NTYPE_STRING TIER_PROBATORY 0) as (_ & Ha & _ & Hty & Hti & Hv).
  { apply meta_fields; mach || done. }
  unfold item_of, new_slot, empty_item. cbn [value_ptr expire_us32 value_size]. by rewrite Ha, Hty, Hti, Hv.
Qed.

Lemma slot_expired_item env sl : slot_expired env sl = item_expired env (item_of sl).
Proof. done. Qed.

Lemma view_slot seg p sl : view seg p = Some sl -> slot_at seg p = sl.
Proof. unfold view. destruct (occupied seg p); congruence. Qed.

Lemma created env t key : nd_inv t -> realloc_ok env = true -> 1 <= alen key <= 255 -> pool_room t key ->
  key ∉ slot_key (key_pool t) <$> contents (directory t) ->
  let '(t', r) := nd_create_in env t key (fnv1a_64 key) in
  same_frees t t' /\
  match r with
  | Some l => nd_inv t' /\ (exists sl, located t' l key sl /\ item_of sl = empty_item) /\ abs t' = <[key := empty_item]> (abs t)
  | None => same_core t t' /\ length (entries (seg_at t (home t key))) = 224%nat
  end.
Proof.
  intros Hinv Hre Hkl Hroom Hnew. pose proof (create_in_inv env t key Hinv Hre Hkl Hroom Hnew) as H.
  pose proof (create_frees env t key (fnv1a_64 key)) as Hf.
  destruct (nd_create_in env t key (fnv1a_64 key)) as [t' [[si p]|]]; [|done].
  destruct H as (-> & Hds & Hi & Hp & (sl & Hv & Hk & Hit) & Ha). rewrite new_item in * by done.
  split; [done|]. split; [done|]. split; [|done]. exists sl. split; [|done].
  split; [|by split]. cbn [fst]. rewrite Hds. apply (proj1 (home_range t key (ni_dir _ Hinv))).
Qed.

Definition found (env : Env) (t : NexDashTable) (key : bytes) (create : bool) (t' : NexDashTable) (r : option loc) : Prop :=
  nd_inv t' /\
  match abs t !! key with
  | Some it =>
      if item_expired env it
      then r = None /\ abs t' = delete key (abs t) /\ freed t' = free_of t it ++ freed t
      else t' = t /\ exists l sl, r = Some l /\ located t l key sl /\ item_of sl = it
  | None =>
      same_frees t t' /\
      match r with
      | Some l => create = true /\ (exists sl, located t' l key sl /\ item_of sl = empty_item) /\ abs t' = <[key := empty_item]> (abs t)
      | None => abs t' = abs t /\ (create = true -> length (entries (seg_at t (home t key))) = 224%nat)
      end
  end.

Lemma find_slot_spec env t key create : nd_inv t ->
  (create = true -> realloc_ok env = true /\ 1 <= alen key <= 255 /\ pool_room t key) ->
  let '(t', r) := nd_find_slot env t key (fnv1a_64 key) create in found env t key create t' r.
Proof.
  intros Hinv Hcr. pose proof Hinv as [Hd Hs Hnd Hb Hpool]. destruct (home_range t key Hd) as [Hsi Hu].
  unfold nd_find_slot. rewrite Hu. pose proof (find_match t key Hinv) as Hfm.
  destruct (find _ _) as [p|].
  - destruct Hfm as (Hp & sl & Hv & Hsl & Hk & Hin).
    assert (Hab : abs t !! key = Some (item_of sl)) by (rewrite <- Hk; by apply amap_lookup).
    rewrite Hsl, slot_expired_item. destruct (item_expired env (item_of sl)) eqn:Ex; unfold found; rewrite Hab, Ex.
    + destruct (drop_inv t (drop_slot t (home t key, p)) (home t key) p sl Hinv Hsi Hp Hv) as [Hi Ha]; [core|].
      destruct (drop_frees t (home t key, p)) as [Hf _]. unfold slot_get in Hf. cbn [fst snd] in Hf. rewrite Hsl in Hf.
      rewrite Hk in Ha. done.
    + split; [done|]. split; [done|]. exists (home t key, p), sl. split; [done|]. split; [|done]. by split.
  - assert (Hab : abs t !! key = None) by (by apply amap_lookup_None).
    destruct create; cbn [negb]; cycle 1.
    { unfold found. rewrite Hab. done. }
    destruct (Hcr eq_refl) as (Hre & Hkl & Hroom).
    pose proof (created env t key Hinv Hre Hkl Hroom Hfm) as Hc.
    destruct (nd_create_in env t key (fnv1a_64 key)) as [t1 [l|]].
    { destruct Hc as (Hf & Hi & Hex & Ha). unfold found. rewrite Hab. done. }
    destruct Hc as (Hf & Hcore & Hfull).
    assert (Hinv1 : nd_inv t1) by (by eapply nd_inv_core).
    destruct (nd_resize env t1) as [t2 ok] eqn:Er.
    pose proof (resize_frees env t1) as Hf2. rewrite Er in Hf2. simpl in Hf2.
    destruct (resize_inv env t1 t2 ok Hinv1 Er) as (Hinv2 & Hk2 & Hc2 & _ & _).
    assert (Hfr2 : same_frees t t2) by (unfold same_frees in *; intuition congruence).
    assert (Ha2 : abs t2 = abs t) by (rewrite (abs_perm t1 t2) by done; by apply abs_core).
    destruct Hcore as (Hcd & Hck & _).
    destruct ok.
    + assert (Hnew2 : key ∉ slot_key (key_pool t2) <$> contents (directory t2)).
      { rewrite Hc2, Hk2, Hck, Hcd. done. }
      assert (Hroom2 : pool_room t2 key) by (unfold pool_room in *; by rewrite Hk2, Hck).
      pose proof (created env t2 key Hinv2 Hre Hkl Hroom2 Hnew2) as Hc'.
      destruct (nd_create_in env t2 key (fnv1a_64 key)) as [t3 [l|]]; unfold found; rewrite Hab.
      * destruct Hc' as (Hf3 & Hi3 & Hex & Ha3). split; [done|]. split; [unfold same_frees in *; intuition congruence|].
        split_and!; try done. by rewrite Ha3, Ha2.
      * destruct Hc' as (Hf3 & Hcore3 & _). split; [by eapply nd_inv_core|]. split; [unfold same_frees in *; intuition congruence|].
        split; [|done]. by rewrite (abs_core _ _ Hcore3).
    + unfold found. rewrite Hab. done.
Qed.

(** ** A new table *)
Lemma grow_segs_spec fuel n target : 0 < n < 2 ^ 32 -> target <= 2 ^ 31 ->
  0 < grow_segs fuel n target < 2 ^ 32.
Proof.
  revert n. induction fuel as [|fuel IH]; intros n Hn Ht; simpl; [lia|].
  destruct (Z.ltb_spec n target); [|lia]. apply IH; [|done].
  rewrite Z.shiftl_mul_pow2 by lia. rewrite wrap_small by mach. mach.
Qed.

Lemma create_inv ceil_blocks segs mem : segs <= 2 ^ 31 -> (forall n, 0 <= ceil_blocks n < 2 ^ 26) ->
  nd_inv (nexdash_create ceil_blocks segs mem) /\ abs (nexdash_create ceil_blocks segs mem) = ∅.
Proof.
  intros Hs Hc. pose proof (grow_segs_spec 30 4 segs ltac:(mach) Hs) as Hg.
  unfold nexdash_create. set (n := grow_segs 30 4 segs) in *.
  assert (Hz : alen (calloc n zero_segment) = n) by (apply alen_calloc; lia).
  assert (Hzc : contents (calloc n zero_segment) = []).
  { unfold calloc. generalize (Z.to_nat n). intros m. induction m as [|m IHm]; [done|]. exact IHm. }
  split; [|unfold abs; cbn [directory key_pool]; by rewrite Hzc].
  split; cbn [directory key_pool bloom]; rewrite ?Hzc; [|constructor|constructor| |].
  - split.
    + by rewrite Hz.
    + apply Forall_replicate, zero_segment_ok.
    + intros si Hsi. rewrite Hz in Hsi. rewrite aget_calloc by done. rewrite entries_zero. constructor.
  - split; [by apply nexbloom_create_ok|constructor].
  - split; done.
Qed.

(** ** Properties *)

Lemma located_get t l key sl : located t l key sl -> slot_get t l = sl.
Proof. intros (_ & _ & Hv & _). by apply view_slot. Qed.

(** Overwriting a located slot with new metadata for the same key. *)
Lemma located_update t t' l key sl addr type tier ver exp sz : nd_inv t -> located t l key sl -> 1 <= alen key <= 255 ->
  in_u 48 addr -> in_u 4 type -> in_u 2 tier -> in_u 2 ver ->
  same_core (slot_put t l (mkSlot (key_hash sl) (TAG_SET_META addr (alen key) type tier ver) (key_offset sl) exp sz)) t' ->
  nd_inv t' /\ abs t' = <[key := mkItem addr type tier ver exp sz]> (abs t).
Proof.
  intros Hinv (Hsi & Hp & Hv & Hk) Hkl Ha Hty Hti Hve Hcore. destruct l as [si p]. cbn [fst snd] in *.
  pose proof Hinv as [Hd Hs _ _ _]. pose proof (elem_contents t si p sl Hd Hsi Hp Hv) as Hin.
  rewrite Forall_forall in Hs. pose proof (Hs sl Hin) as Hok. pose proof (alen_slot_key _ _ Hok) as Hlen. rewrite Hk in Hlen.
  destruct (TAG_get_set addr (alen key) type tier ver (meta_fields addr key type tier ver Ha Hkl Hty Hti Hve))
    as (Hw & Ga & Gl & Gt & Gi & Gv).
  set (sl' := mkSlot _ _ _ _ _) in *.
  assert (Hk' : slot_key (key_pool t) sl' = slot_key (key_pool t) sl).
  { unfold slot_key, sl'. cbn [value_ptr key_offset]. by rewrite Gl, Hlen. }
  destruct Hok as [_ _ Ho Hh].
  destruct (update_inv t t' si p sl sl' Hinv Hsi Hp Hv Hcore Hk' eq_refl) as [Hi Hab].
  { split; [done| | |].
    - unfold sl'. cbn [value_ptr]. rewrite Gl. lia.
    - unfold sl'. cbn [value_ptr key_offset]. rewrite Gl, Hlen. done.
    - rewrite Hk'. done. }
  split; [done|]. rewrite Hab, Hk. f_equal. unfold item_of, sl'. cbn [value_ptr expire_us32 value_size]. by rewrite Ga, Gt, Gi, Gv.
Qed.

(** Changing the expiry of a located slot. *)
Lemma located_rewrite t t' l key sl exp : nd_inv t -> located t l key sl ->
  same_core (slot_put t l (mkSlot (key_hash sl) (value_ptr sl) (key_offset sl) exp (value_size sl))) t' ->
  nd_inv t' /\ abs t' = <[key := mkItem (it_addr (item_of sl)) (it_type (item_of sl)) (it_tier (item_of sl)) (it_ver (item_of sl)) exp
                             (it_size (item_of sl))]> (abs t).
Proof.
  intros Hinv (Hsi & Hp & Hv & Hk) Hcore. destruct l as [si p]. cbn [fst snd] in *.
  pose proof Hinv as [Hd Hs _ _ _]. pose proof (elem_contents t si p sl Hd Hsi Hp Hv) as Hin.
  rewrite Forall_forall in Hs. pose proof (Hs sl Hin) as [Ho1 Ho2 Ho3 Ho4].
  set (sl' := mkSlot _ _ _ _ _) in *. assert (Hk' : slot_key (key_pool t) sl' = slot_key (key_pool t) sl) by done.
  destruct (update_inv t t' si p sl sl' Hinv Hsi Hp Hv Hcore Hk' eq_refl) as [Hi Hab]; [by split|].
  split; [done|]. by rewrite Hab, Hk.
Qed.

Lemma item_ranges t l key sl : nd_inv t -> located t l key sl ->
  tag_fields (it_addr (item_of sl)) (TAG_GET_LEN (value_ptr sl)) (it_type (item_of sl)) (it_tier (item_of sl)) (it_ver (item_of sl)).
Proof.
  intros Hinv (Hsi & Hp & Hv & _). pose proof Hinv as [Hd Hs _ _ _]. rewrite Forall_forall in Hs.
  apply TAG_fields, (Hs sl). by eapply elem_contents.
Qed.

(** The outcome of a SET on the abstract map. *)
Definition set_outcome (env : Env) (t : NexDashTable) (key : bytes) (value vsz type exp : Z) (t' : NexDashTable) (r : Z) : Prop :=
  match abs t !! key with
  | Some it =>
      if item_expired env it
      then r = 0 /\ abs t' = delete key (abs t) /\ freed t' = free_of t it ++ freed t
      else r = 1 /\ abs t' = <[key := mkItem value type (it_tier it) (it_ver it) (encode_expire exp) vsz]> (abs t) /\
           freed t' = free_of t it ++ freed t
  | None =>
      freed t' = freed t /\
      (r = 1 /\ abs t' = <[key := mkItem value type TIER_PROBATORY 0 (encode_expire exp) vsz]> (abs t) \/
       r = 0 /\ abs t' = abs t /\ length (entries (seg_at t (home t key))) = 224%nat)
  end.

Lemma set_spec env t key value vsz type exp t' r :
  nd_inv t -> realloc_ok env = true -> 1 <= alen key <= 255 -> pool_room t key -> in_u 48 value -> in_u 4 type ->
  nexdash_set env t key value vsz type exp = (t', r) -> nd_inv t' /\ set_outcome env t key value vsz type exp t' r.
Proof.
  unfold set_outcome.
  intros Hinv Hre Hkl Hroom Hva Hty E. unfold nexdash_set in E.
  destruct (Z.eqb_spec (alen key) 0); [lia|].
  pose proof (find_slot_spec env t key true Hinv (fun _ => conj Hre (conj Hkl Hroom))) as Hf.
  destruct (nd_find_slot env t key (fnv1a_64 key) true) as [t1 [l|]].
  - destruct Hf as [Hinv1 Hf].
    assert (Hgo : exists sl, located t1 l key sl /\ slot_get t1 l = sl /\
      match abs t !! key with
      | Some it => item_expired env it = false /\ t1 = t /\ item_of sl = it
      | None => same_frees t t1 /\ item_of sl = empty_item /\ abs t1 = <[key := empty_item]> (abs t)
      end).
    { destruct (abs t !! key) as [it|].
      - destruct (item_expired env it); [by destruct Hf|]. destruct Hf as (-> & l' & sl & Hl & Hloc & Hit).
        simplify_eq. exists sl. split_and!; try apply Hloc; try done. by eapply located_get.
      - destruct Hf as (Hfr & _ & (sl & Hloc & Hit) & Ha). exists sl. split; [done|]. split; [by eapply located_get|]. done. }
    destruct Hgo as (sl & Hloc & Hget & Hcase). rewrite Hget in E.
    pose proof (item_ranges t1 l key sl Hinv1 Hloc) as [_ _ _ Hti Hve].
    apply pair_equal_spec in E as [Et <-].
    destruct (located_update t1 t' l key sl value type (TAG_GET_TIER (value_ptr sl)) (TAG_GET_VER (value_ptr sl))
      (encode_expire exp) vsz Hinv1 Hloc Hkl Hva Hty Hti Hve) as [Hi Hab].
    { subst t'. unfold run_free_cb. case_if; core. }
    split; [done|].
    assert (Hfr : freed t' = free_of t1 (item_of sl) ++ freed t1).
    { subst t'. unfold run_free_cb, free_of, item_of. cbn [it_addr it_type]. case_if; done. }
    destruct (abs t !! key) as [it|].
    + destruct Hcase as (Hx & Ht & <-). rewrite Hx. rewrite Ht in *. split; [done|]. split; [exact Hab|exact Hfr].
    + destruct Hcase as ((Hf1 & Hf2) & Hit & Hab1). rewrite Hit in Hfr. split; [by rewrite Hfr, Hf1|]. left. split; [done|].
      rewrite Hab, Hab1, insert_insert_eq. f_equal. unfold item_of, empty_item in Hit. by simplify_eq; congruence.
  - apply pair_equal_spec in E as [<- <-]. destruct Hf as [Hi Hf]. split; [done|].
    destruct (abs t !! key) as [it|].
    + destruct (item_expired env it); [by destruct Hf as (_ & ? & ?)|]. by destruct Hf as (_ & l & sl & ? & _).
    + destruct Hf as ((Hf1 & Hf2) & Ha & Hfull). split; [done|]. right. auto.
Qed.

(** C4. SET refines the insertion into the abstract map.  It keeps the
    invariant; on a live or new key it stores the value with its type, size
    and encoded expiry (a live key keeps its tier and version and exactly its
    old value is handed to [free_cb]); on a key whose entry has expired it
    removes the entry and reports failure without storing; on a new key it
    can fail only when the home segment is full, and then nothing changes. *)
Theorem nexdash_set_refines env t key value vsz type exp t' r :
  nd_inv t -> realloc_ok env = true -> 1 <= alen key <= 255 -> pool_room t key -> in_u 48 value -> in_u 4 type ->
  nexdash_set env t key value vsz type exp = (t', r) ->
  nd_inv t' /\ set_outcome env t key value vsz type exp t' r.
Proof. apply set_spec. Qed.

(** A table with one entry, for the examples. *)
Definition ex_env : Env := mkEnv 1000000000 true true.
Definition ex_table : NexDashTable := nexdash_create (fun _ => 2) 1 0.
Definition ex_table1 : NexDashTable := (nexdash_set ex_env (nexdash_set_free_cb ex_table) [107; 49] 4096 100 1 2000000000).1.

Lemma ex_table_inv : nd_inv (nexdash_set_free_cb ex_table).
Proof.
  apply (nd_inv_core ex_table); [core|]. apply create_inv; [vm_compute; congruence|]. intros n. vm_compute. split; congruence.
Qed.

Lemma ex_table1_inv : nd_inv ex_table1.
Proof.
  refine (proj1 (set_spec ex_env (nexdash_set_free_cb ex_table) [107; 49] 4096 100 1 2000000000 ex_table1 1 ex_table_inv _ _ _ _ _ _)).
  - reflexivity.
  - vm_compute. split; congruence.
  - vm_compute. congruence.
  - vm_compute. split; congruence.
  - vm_compute. split; congruence.
  - vm_compute. reflexivity.
Qed.

Lemma nexdash_set_refines_witness :
  nd_inv (nexdash_set ex_env ex_table1 [107; 49] 8192 7 2 0).1 /\
  set_outcome ex_env ex_table1 [107; 49] 8192 7 2 0 (nexdash_set ex_env ex_table1 [107; 49] 8192 7 2 0).1 1.
Proof.
  apply (nexdash_set_refines ex_env ex_table1).
  - exact ex_table1_inv.
  - reflexivity.
  - vm_compute. split; congruence.
  - vm_compute. congruence.
  - vm_compute. split; congruence.
  - vm_compute. split; congruence.
  - vm_compute. reflexivity.
Defined.

(** The Bloom filter does not hide a stored key. *)
Lemma bloom_absent t key : nd_inv t ->
  match bloom t with Some b => match nexbloom_check b (fnv1a_64 key) with Some r => negb r | None => false end | None => false end = true ->
  abs t !! key = None.
Proof.
  intros Hinv Eb. apply amap_lookup_None. intros Hin. apply list_elem_of_fmap in Hin as (sl & -> & Hin).
  pose proof Hinv as [_ Hs _ Hb _]. rewrite Forall_forall in Hs. pose proof (so_hash _ _ (Hs sl Hin)) as Hh.
  destruct (bloom t) as [b|]; [|done]. destruct Hb as [_ Hb]. rewrite Forall_forall in Hb. specialize (Hb sl Hin).
  rewrite Hh in Hb. by rewrite Hb in Eb.
Qed.

Lemma get_spec env t key t' addr type :
  nd_inv t -> 1 <= alen key <= 255 -> nexdash_get env t key = (t', (addr, type)) ->
  nd_inv t' /\
  match abs t !! key with
  | Some it =>
      if item_expired env it
      then addr = 0 /\ abs t' = delete key (abs t) /\ freed t' = free_of t it ++ freed t
      else addr = it_addr it /\ type = it_type it /\ freed t' = freed t /\
           abs t' = <[key := mkItem (it_addr it) (it_type it)
                              (if it_tier it =? TIER_PROBATORY then TIER_PROTECTED else it_tier it)
                              (it_ver it) (it_expire it) (it_size it)]> (abs t)
  | None => addr = 0 /\ abs t' = abs t /\ freed t' = freed t
  end.
Proof.
  intros Hinv Hkl E. unfold nexdash_get in E. destruct (Z.eqb_spec (alen key) 0); [lia|].
  destruct (match bloom t with Some b => _ | None => false end) eqn:Eb.
  { apply pair_equal_spec in E as [<- Ea]. apply pair_equal_spec in Ea as [<- <-].
    split; [by apply (nd_inv_core t); [core|]|]. by rewrite (bloom_absent t key Hinv Eb). }
  pose proof (find_slot_spec env t key false Hinv ltac:(done)) as Hf.
  destruct (nd_find_slot env t key (fnv1a_64 key) false) as [t1 [l|]]; destruct Hf as [Hinv1 Hf].
  - destruct (abs t !! key) as [it|]; [|by destruct Hf as (_ & ? & _)].
    destruct (item_expired env it) eqn:Ex; [by destruct Hf|]. destruct Hf as (-> & l' & sl & Hl & Hloc & <-).
    apply (inj Some) in Hl as <-. pose proof (located_get _ _ _ _ Hloc) as Hget. rewrite Hget in E.
    pose proof (item_ranges t l key sl Hinv Hloc) as Hrg. destruct Hrg as [Ha _ Hty _ Hve].
    apply pair_equal_spec in E as [Et Ea]. apply pair_equal_spec in Ea as [Ea <-].
    assert (Hpr : in_u 2 TIER_PROTECTED) by (unfold in_u, TIER_PROTECTED; lia).
    destruct (Z.eqb_spec (TAG_GET_TIER (value_ptr sl)) TIER_PROBATORY) as [Htier|Htier].
    + destruct (located_update t t' l key sl (TAG_GET_ADDR (value_ptr sl)) (TAG_GET_TYPE (value_ptr sl)) TIER_PROTECTED
        (TAG_GET_VER (value_ptr sl)) (expire_us32 sl) (value_size sl) Hinv Hloc Hkl Ha Hty Hpr Hve) as [Hi Hab].
      { subst t'. core. }
      split; [done|]. split.
      { rewrite <- Ea. destruct Hloc as (Hsi & Hp & Hv & _). unfold slot_get, slot_put, put_seg, seg_at. cbn [directory set_directory set_stats].
        rewrite aget_aset_eq by exact Hsi. rewrite slot_at_put_slot by (done || by apply seg_at_ok, Hsi; apply Hinv).
        rewrite decide_True by done. cbn [value_ptr].
        by destruct (TAG_get_set (TAG_GET_ADDR (value_ptr sl)) (alen key) (TAG_GET_TYPE (value_ptr sl)) TIER_PROTECTED
          (TAG_GET_VER (value_ptr sl)) (meta_fields _ _ _ _ _ Ha Hkl Hty Hpr Hve)) as (_ & Ga & _). }
      split; [done|]. split; [by subst t'|]. rewrite Hab. unfold item_of. cbn [it_tier it_addr it_type it_ver it_expire it_size].
      by rewrite Htier.
    + split; [apply (nd_inv_core t); [subst t'; core|done]|].
      split; [by rewrite <- Ea, <- Hget|]. split; [done|]. split; [by subst t'|].
      assert (abs t' = abs t) as -> by (apply abs_core; subst t'; core).
      unfold item_of. cbn [it_tier it_addr it_type it_ver it_expire it_size].
      destruct (Z.eqb_spec (TAG_GET_TIER (value_ptr sl)) TIER_PROBATORY); [done|]. symmetry. apply insert_id.
      destruct Hloc as (Hsi & Hp & Hv & <-). unfold abs. rewrite amap_lookup; [done|apply Hinv|].
      eapply elem_contents; try done. apply Hinv.
  - apply pair_equal_spec in E as [<- Ea]. apply pair_equal_spec in Ea as [<- <-].
    split; [by apply (nd_inv_core t1); [core|]|]. destruct (abs t !! key) as [it|].
    + destruct (item_expired env it); [by destruct Hf as (_ & ? & ?)|]. by destruct Hf as (_ & l & sl & ? & _).
    + destruct Hf as ((Hf1 & Hf2) & Ha & _). done.
Qed.

(** GET refines the lookup: a live key yields its value and type, moves
    from the probatory to the protected tier and changes nothing else; an
    expired key yields NULL and is removed; an absent key yields NULL.  The
    Bloom filter in front of the lookup never hides a stored key. *)
Theorem nexdash_get_refines env t key t' addr type :
  nd_inv t -> 1 <= alen key <= 255 -> nexdash_get env t key = (t', (addr, type)) ->
  nd_inv t' /\
  match abs t !! key with
  | Some it =>
      if item_expired env it
      then addr = 0 /\ abs t' = delete key (abs t) /\ freed t' = free_of t it ++ freed t
      else addr = it_addr it /\ type = it_type it /\ freed t' = freed t /\
           abs t' = <[key := mkItem (it_addr it) (it_type it)
                              (if it_tier it =? TIER_PROBATORY then TIER_PROTECTED else it_tier it)
                              (it_ver it) (it_expire it) (it_size it)]> (abs t)
  | None => addr = 0 /\ abs t' = abs t /\ freed t' = freed t
  end.
Proof. apply get_spec. Qed.

Lemma nexdash_get_refines_witness :
  let t' := (nexdash_get ex_env ex_table1 [107; 49]).1 in
  nd_inv t' /\
  match abs ex_table1 !! [107; 49] with
  | Some it =>
      if item_expired ex_env it
      then 4096 = 0 /\ abs t' = delete [107; 49] (abs ex_table1) /\ freed t' = free_of ex_table1 it ++ freed ex_table1
      else 4096 = it_addr it /\ 1 = it_type it /\ freed t' = freed ex_table1 /\
           abs t' = <[[107; 49] := mkItem (it_addr it) (it_type it)
                              (if it_tier it =? TIER_PROBATORY then TIER_PROTECTED else it_tier it)
                              (it_ver it) (it_expire it) (it_size it)]> (abs ex_table1)
  | None => 4096 = 0 /\ abs t' = abs ex_table1 /\ freed t' = freed ex_table1
  end.
Proof.
  apply (nexdash_get_refines ex_env ex_table1 [107; 49]).
  - exact ex_table1_inv.
  - vm_compute. split; congruence.
  - vm_compute. reflexivity.
Defined.

Lemma del_spec t key t' r : nd_inv t -> 1 <= alen key -> nexdash_del t key = (t', r) ->
  nd_inv t' /\
  match abs t !! key with
  | Some it => r = 1 /\ abs t' = delete key (abs t) /\ freed t' = free_of t it ++ freed t
  | None => r = 0 /\ t' = t
  end.
Proof.
  intros Hinv Hkl E. unfold nexdash_del in E. destruct (Z.eqb_spec (alen key) 0); [lia|].
  pose proof Hinv as [Hd _ _ _ _]. destruct (home_range t key Hd) as [Hsi Hu]. rewrite Hu in E.
  pose proof (find_match t key Hinv) as Hfm. destruct (find _ _) as [p|].
  - destruct Hfm as (Hp & sl & Hv & Hsl & Hk & Hin).
    assert (Hab : abs t !! key = Some (item_of sl)) by (rewrite <- Hk; apply amap_lookup; [apply Hinv|done]).
    apply pair_equal_spec in E as [Et <-].
    destruct (drop_inv t t' (home t key) p sl Hinv Hsi Hp Hv) as [Hi Ha]; [subst t'; core|].
    destruct (drop_frees t (home t key, p)) as [Hf _]. unfold slot_get in Hf. cbn [fst snd] in Hf. rewrite Hsl in Hf.
    rewrite Hab. split; [done|]. split; [done|]. split; [by rewrite <- Hk|]. by subst t'.
  - apply pair_equal_spec in E as [<- <-]. split; [done|].
    assert (abs t !! key = None) as -> by (by apply amap_lookup_None). done.
Qed.

(** EXPIRE on a live key changes its expiry only. *)
Lemma expire_spec env t key exp t' r : nd_inv t -> 1 <= alen key <= 255 -> nexdash_expire env t key exp = (t', r) ->
  nd_inv t' /\
  match abs t !! key with
  | Some it =>
      if item_expired env it
      then r = 0 /\ abs t' = delete key (abs t) /\ freed t' = free_of t it ++ freed t
      else r = 1 /\ freed t' = freed t /\
           abs t' = <[key := mkItem (it_addr it) (it_type it) (it_tier it) (it_ver it) (encode_expire exp) (it_size it)]> (abs t)
  | None => r = 0 /\ abs t' = abs t /\ freed t' = freed t
  end.
Proof.
  intros Hinv Hkl E. unfold nexdash_expire in E. pose proof (find_slot_spec env t key false Hinv ltac:(done)) as Hf.
  destruct (nd_find_slot env t key (fnv1a_64 key) false) as [t1 [l|]]; destruct Hf as [Hinv1 Hf]; apply pair_equal_spec in E as [Et <-].
  - destruct (abs t !! key) as [it|]; [|by destruct Hf as (_ & ? & _)].
    destruct (item_expired env it); [by destruct Hf|]. destruct Hf as (-> & l' & sl & Hl & Hloc & <-).
    apply (inj Some) in Hl as <-. pose proof (located_get _ _ _ _ Hloc) as Hget. rewrite Hget in Et. subst t'.
    destruct (located_rewrite t (slot_put t l (mkSlot (key_hash sl) (value_ptr sl) (key_offset sl) (encode_expire exp) (value_size sl)))
      l key sl (encode_expire exp) Hinv Hloc) as [Hi Hab]; [core|]. split; [done|]. done.
  - subst t'. split; [done|]. destruct (abs t !! key) as [it|].
    + destruct (item_expired env it); [by destruct Hf as (_ & ? & ?)|]. by destruct Hf as (_ & l & sl & ? & _).
    + by destruct Hf as ((Hf1 & _) & Ha & _).
Qed.

(** No operation changes the callback. *)
Lemma find_slot_cb env t key h create : free_cb (nd_find_slot env t key h create).1 = free_cb t.
Proof.
  unfold nd_find_slot. destruct (find _ _) as [p|]; [case_if; [by apply drop_frees|done]|].
  destruct create; [|done]. cbn [negb]. pose proof (create_frees env t key h) as Hc.
  destruct (nd_create_in env t key h) as [t1 [l|]]; [apply Hc|].
  pose proof (resize_frees env t1) as Hr. destruct (nd_resize env t1) as [t2 ok]. cbn [fst] in *.
  destruct ok; [|by destruct Hc as [_ <-], Hr as [_ <-]].
  pose proof (create_frees env t2 key h) as Hc2. destruct (nd_create_in env t2 key h) as [t3 r]. cbn [fst] in *.
  by destruct Hc as [_ <-], Hr as [_ <-], Hc2 as [_ <-].
Qed.

Lemma set_cb env t key value vsz type exp : free_cb (nexdash_set env t key value vsz type exp).1 = free_cb t.
Proof.
  unfold nexdash_set. case_if; [done|]. pose proof (find_slot_cb env t key (fnv1a_64 key) true) as H.
  destruct (nd_find_slot _ _ _ _ _) as [t1 [l|]]; [|done]. cbn [fst] in H. rewrite <- H. unfold run_free_cb. cbn. by case_if.
Qed.

Lemma get_cb env t key : free_cb (nexdash_get env t key).1 = free_cb t.
Proof.
  unfold nexdash_get. case_if; [done|]. case_if; [done|]. pose proof (find_slot_cb env t key (fnv1a_64 key) false) as H.
  destruct (nd_find_slot _ _ _ _ _) as [t1 [l|]]; [|done]. cbn [fst] in H. rewrite <- H. by case_if.
Qed.

Lemma del_cb t key : free_cb (nexdash_del t key).1 = free_cb t.
Proof. unfold nexdash_del. case_if; [done|]. destruct (find _ _) as [p|]; [|done]. by apply drop_frees. Qed.

Lemma expire_cb env t key exp : free_cb (nexdash_expire env t key exp).1 = free_cb t.
Proof.
  unfold nexdash_expire. pose proof (find_slot_cb env t key (fnv1a_64 key) false) as H.
  destruct (nd_find_slot _ _ _ _ _) as [t1 [l|]]; done.
Qed.

(** DEL refines the deletion: it answers 1 exactly when the key is
    stored (expired or not), removes it, hands exactly its value to
    [free_cb], and otherwise changes nothing. *)
Theorem nexdash_del_refines t key t' r : nd_inv t -> 1 <= alen key -> nexdash_del t key = (t', r) ->
  nd_inv t' /\
  match abs t !! key with
  | Some it => r = 1 /\ abs t' = delete key (abs t) /\ freed t' = free_of t it ++ freed t
  | None => r = 0 /\ t' = t
  end.
Proof. apply del_spec. Qed.

Lemma nexdash_del_refines_witness :
  let t' := (nexdash_del ex_table1 [107; 49]).1 in
  nd_inv t' /\
  match abs ex_table1 !! [107; 49] with
  | Some it => 1 = 1 /\ abs t' = delete [107; 49] (abs ex_table1) /\ freed t' = free_of ex_table1 it ++ freed ex_table1
  | None => 1 = 0 /\ t' = ex_table1
  end.
Proof.
  apply (nexdash_del_refines ex_table1 [107; 49]).
  - exact ex_table1_inv.
  - vm_compute. congruence.
  - vm_compute. reflexivity.
Defined.

(** ** Locations and the abstract map *)
Definition in_table (t : NexDashTable) (l : loc) : Prop := 0 <= l.1 < dir_size t /\ valid l.2.
Definition tview (t : NexDashTable) (l : loc) : option NexDashSlot := view (seg_at t l.1) l.2.

Lemma elem_all_locs t l : l ∈ all_locs t <-> in_table t l.
Proof.
  unfold all_locs, in_table. rewrite list_elem_of_In, in_concat. setoid_rewrite in_map_iff. destruct l as [si p]. split.
  - intros (x & (s & <- & Hs) & Hin). apply in_map_iff in Hin as (q & Hq & Hin). simplify_eq. cbn [fst snd].
    apply list_elem_of_In, elem_of_seqZ in Hs. apply list_elem_of_In, elem_of_all_pos in Hin. split; [lia|done].
  - intros [Hsi Hp]. cbn [fst snd] in *. eexists. split.
    + exists si. split; [done|]. apply list_elem_of_In, elem_of_seqZ. lia.
    + apply in_map_iff. exists p. split; [done|]. by apply list_elem_of_In, elem_of_all_pos.
Qed.

Lemma abs_Some t k it : nd_inv t ->
  abs t !! k = Some it <-> exists l sl, in_table t l /\ tview t l = Some sl /\ slot_key (key_pool t) sl = k /\ item_of sl = it.
Proof.
  intros Hinv. pose proof Hinv as [Hd _ Hnd _ _]. split.
  - intros Hk. apply elem_of_list_to_map_2 in Hk. apply list_elem_of_fmap in Hk as (sl & Heq & Hin). simplify_eq.
    destruct (contents_home _ sl Hd Hin) as [Hr He]. apply elem_of_entries in He as (p & Hp & Hv).
    by exists (key_hash sl mod dir_size t, p), sl.
  - intros (l & sl & [Hsi Hp] & Hv & <- & <-). apply amap_lookup; [done|]. by eapply elem_contents.
Qed.

Lemma size_abs t : nd_inv t -> size (abs t) = length (contents (directory t)).
Proof.
  intros Hinv. unfold abs, amap. rewrite map_size_list_to_map by (rewrite amap_keys; apply Hinv). by rewrite length_fmap.
Qed.

(** ** Discarding slots during a scan *)
Definition shrinks (t t' : NexDashTable) : Prop :=
  nd_inv t' /\ dir_size t' = dir_size t /\ key_pool t' = key_pool t /\ used_memory t' <= used_memory t /\ 0 <= used_memory t' /\
  (forall l, in_table t l -> tview t' l = tview t l \/ tview t' l = None) /\ abs t' ⊆ abs t.

Lemma shrinks_refl t : nd_inv t -> 0 <= used_memory t -> shrinks t t.
Proof. intros. split; [done|]. split_and!; try done. intros. by left. Qed.

Lemma shrinks_trans t1 t2 t3 : shrinks t1 t2 -> shrinks t2 t3 -> shrinks t1 t3.
Proof.
  intros (_ & D1 & K1 & U1 & _ & V1 & A1) (I2 & D2 & K2 & U2 & P2 & V2 & A2).
  split; [done|]. split; [congruence|]. split; [congruence|]. split; [lia|]. split; [done|]. split.
  - intros l Hl. assert (Hl2 : in_table t2 l) by (unfold in_table in *; by rewrite D1).
    destruct (V2 l Hl2) as [-> | ->]; [by apply V1|by right].
  - by etransitivity.
Qed.

Lemma drop_slot_view t si p : nd_inv t -> in_table t (si, p) ->
  tview (drop_slot t (si, p)) (si, p) = None /\ dir_size (drop_slot t (si, p)) = dir_size t /\
  (forall l, in_table t l -> l <> (si, p) -> tview (drop_slot t (si, p)) l = tview t l).
Proof.
  intros Hinv [Hsi Hp]. cbn [fst snd] in *. destruct (drop_slot_core t si p) as (sl' & n & [Hc|Hc]); [|done].
  destruct Hc as (Hd & _). pose proof (seg_at_ok t si (ni_dir _ Hinv) Hsi) as Hso.
  pose proof (put_slot_ok (seg_at t si) p sl' Hso Hp) as Hs'. unfold tview, seg_at, dir_size in *.
  rewrite Hd. unfold put_seg. cbn [directory set_directory fst snd].
  assert (Hview : forall q, view (set_seg_items (clear_occupied (put_slot (aget (directory t) si) p sl') p) n) q =
    view (clear_occupied (put_slot (aget (directory t) si) p sl') p) q) by done.
  split_and!.
  - rewrite aget_aset_eq by done. rewrite Hview. unfold seg_at in *. rewrite view_clear_occupied by done. by rewrite decide_True.
  - apply alen_aset.
  - intros [sj q] [Hsj Hq] Hne. cbn [fst snd] in *. destruct (Z.eq_dec sj si) as [->|Hs].
    + rewrite aget_aset_eq by done. assert (q <> p) by congruence.
      rewrite Hview. unfold seg_at in *. rewrite view_clear_occupied, view_put_slot by done. by rewrite !decide_False.
    + rewrite aget_aset_ne by lia. done.
Qed.

Lemma drop_shrinks t t' l sl : nd_inv t -> in_table t l -> tview t l = Some sl -> 0 <= used_memory t -> 0 <= value_size sl ->
  same_core (drop_slot t l) t' -> used_memory t' = used_memory (drop_slot t l) -> shrinks t t' /\ tview t' l = None.
Proof.
  intros Hinv Hl Hv Hu Hsz Hcore Hmem. destruct l as [si p]. pose proof (drop_slot_view t si p Hinv Hl) as (Hnone & Hds & Hoth).
  destruct Hl as [Hsi Hp]. destruct (drop_inv t t' si p sl Hinv Hsi Hp Hv Hcore) as [Hi Ha].
  destruct Hcore as (Hcd & Hck & _).
  assert (Htv : forall l, tview t' l = tview (drop_slot t (si, p)) l) by (intros; unfold tview, seg_at; by rewrite Hcd).
  assert (Hused : used_memory (drop_slot t (si, p)) =
    if value_size sl + NEXDASH_ENTRY_OVERHEAD <? used_memory t then used_memory t - (value_size sl + NEXDASH_ENTRY_OVERHEAD) else 0).
  { unfold drop_slot, nd_release_slot, run_free_cb. cbn [fst snd]. rewrite (view_slot _ _ _ Hv : slot_get t (si, p) = sl).
    case_if; done. }
  unfold NEXDASH_ENTRY_OVERHEAD in Hused.
  split; [|by rewrite Htv]. split; [done|]. split; [unfold dir_size in *; by rewrite Hcd|].
  split. { rewrite Hck. unfold drop_slot, nd_release_slot, run_free_cb. case_if; done. }
  rewrite Hmem, Hused. split; [case_if; lia|]. split; [case_if; lia|]. split.
  - intros l Hl. rewrite Htv. destruct (decide (l = (si, p))) as [->|Hne]; [by right|left; by apply Hoth].
  - rewrite Ha. apply delete_subseteq.
Qed.

Definition sizes_ok (t : NexDashTable) : Prop := map_Forall (fun _ it => 0 <= it_size it) (abs t).

Lemma tview_size t l sl : nd_inv t -> sizes_ok t -> in_table t l -> tview t l = Some sl -> 0 <= value_size sl.
Proof.
  intros Hinv Hsz Hl Hv. apply (Hsz (slot_key (key_pool t) sl) (item_of sl)). apply abs_Some; [done|]. by exists l, sl.
Qed.

Lemma occupied_tview t l : occupied_at t l = true -> tview t l = Some (slot_get t l).
Proof. unfold occupied_at, tview, view, slot_get. by intros ->. Qed.

Definition tier_at (t : NexDashTable) (l : loc) (want : Z) : Prop :=
  exists sl, tview t l = Some sl /\ TAG_GET_TIER (value_ptr sl) = want.

Lemma evict_step_spec target want t n l : nd_inv t -> 0 <= used_memory t -> sizes_ok t -> in_table t l ->
  let '(t', n') := evict_step target want (t, n) l in
  shrinks t t' /\ (target < used_memory t -> ~ tier_at t' l want) /\
  (forall l', in_table t l' -> ~ tier_at t l' want -> tview t' l' = tview t l') /\
  (used_memory t <= target -> t' = t).
Proof.
  intros Hinv Hu Hsz Hl. unfold evict_step.
  destruct ((target <? used_memory t) && occupied_at t l && (TAG_GET_TIER (value_ptr (slot_get t l)) =? want)) eqn:E.
  - cmp_prop. pose proof (occupied_tview t l ltac:(done)) as Hv.
    pose proof (tview_size t l _ Hinv Hsz Hl Hv) as Hs0.
    match goal with |- shrinks t ?x /\ _ => set (t' := x) end.
    destruct (drop_shrinks t t' l _ Hinv Hl Hv Hu Hs0) as [Hsh Hn]; [core|done|].
    split_and!; [done| | |lia].
    + intros _ (sl & Hsl & _). congruence.
    + intros l' Hl' Hnt. destruct l as [si p]. destruct (drop_slot_view t si p Hinv Hl) as (_ & _ & Hoth).
      apply Hoth; [done|]. intros ->. apply Hnt. by exists (slot_get t (si, p)).
  - split; [by apply shrinks_refl|]. split_and!; try done. intros Ht (sl & Hv & Hti).
    unfold tview, view in Hv. unfold occupied_at, slot_get in E. destruct (occupied (seg_at t l.1) l.2) eqn:Eo; [|done].
    apply (inj Some) in Hv. rewrite Hv, Hti, Z.eqb_refl in E. destruct (Z.ltb_spec target (used_memory t)); [done|lia].
Qed.

Lemma evict_fold_spec target want ls t n : nd_inv t -> 0 <= used_memory t -> sizes_ok t -> (forall l, l ∈ ls -> in_table t l) ->
  let '(t', n') := fold_left (evict_step target want) ls (t, n) in
  shrinks t t' /\ (target < used_memory t' -> forall l, l ∈ ls -> ~ tier_at t' l want) /\
  (forall l', in_table t l' -> ~ tier_at t l' want -> tview t' l' = tview t l') /\
  (used_memory t <= target -> t' = t).
Proof.
  revert t n. induction ls as [|l ls IH]; intros t n Hinv Hu Hsz Hls; cbn [fold_left].
  { split; [by apply shrinks_refl|]. split_and!; try done. intros _ l Hl. by apply not_elem_of_nil in Hl. }
  pose proof (Hls l (list_elem_of_here _ _)) as Hl.
  pose proof (evict_step_spec target want t n l Hinv Hu Hsz Hl) as Hst.
  destruct (evict_step target want (t, n) l) as [t1 n1]. destruct Hst as (Hsh1 & Hgone1 & Hkeep1 & Hstop1).
  pose proof Hsh1 as (I1 & D1 & K1 & U1 & P1 & V1 & A1).
  assert (Hsz1 : sizes_ok t1) by (intros k it Hk; apply (Hsz k it); by eapply lookup_weaken).
  assert (Hls1 : forall l', l' ∈ ls -> in_table t1 l').
  { intros l' Hl'. unfold in_table. rewrite D1. apply Hls. by apply list_elem_of_further. }
  specialize (IH t1 n1 I1 P1 Hsz1 Hls1). destruct (fold_left _ ls (t1, n1)) as [t2 n2].
  destruct IH as (Hsh2 & Hgone2 & Hkeep2 & Hstop2). pose proof Hsh2 as (I2 & D2 & K2 & U2 & P2 & V2 & A2).
  split; [by eapply shrinks_trans|]. split_and!.
  - intros Ht l' Hl'. apply elem_of_cons in Hl' as [->|Hl']; [|by apply Hgone2].
    intros (sl & Hv & Hti). apply (Hgone1 ltac:(lia)). exists sl. split; [|done].
    assert (in_table t1 l) by (unfold in_table in *; by rewrite D1).
    destruct (V2 l ltac:(done)) as [<-|Hn]; [done|congruence].
  - intros l' Hl' Hnt. pose proof (Hkeep1 l' Hl' Hnt) as H1. rewrite Hkeep2; [done|unfold in_table in *; by rewrite D1|].
    unfold tier_at. by rewrite H1.
  - intros Hle. specialize (Hstop1 Hle). subst t1. by apply Hstop2.
Qed.

Lemma evict_pass_spec target want t n : nd_inv t -> 0 <= used_memory t -> sizes_ok t ->
  let '(t', n') := evict_pass target want (t, n) in
  shrinks t t' /\ (target < used_memory t' -> forall l, in_table t l -> ~ tier_at t' l want) /\
  (forall l', in_table t l' -> ~ tier_at t l' want -> tview t' l' = tview t l') /\
  (used_memory t <= target -> t' = t).
Proof.
  intros Hinv Hu Hsz. unfold evict_pass. cbn [fst].
  pose proof (evict_fold_spec target want (all_locs t) t n Hinv Hu Hsz) as H.
  destruct (fold_left _ _ _) as [t' n']. destruct H as (H1 & H2 & H3 & H4); [intros l; apply elem_all_locs|].
  split_and!; try done. intros Ht l Hl. by apply H2, elem_all_locs.
Qed.

(** Eviction: [nexdash_evict_to_target] only removes entries, removes no
    hot or pinned entry, does nothing when the memory is already below the
    target, and stops only when the memory is at or below the target or no
    probatory and no protected entry is left. *)
Theorem nexdash_evict_spec t target t' n :
  nd_inv t -> 0 <= used_memory t -> sizes_ok t -> nexdash_evict_to_target t target = (t', n) ->
  nd_inv t' /\ abs t' ⊆ abs t /\
  (forall k it, abs t !! k = Some it -> it_tier it <> TIER_PROBATORY -> it_tier it <> TIER_PROTECTED -> abs t' !! k = Some it) /\
  (used_memory t <= target -> t' = t) /\
  (used_memory t' <= target \/
   forall k it, abs t' !! k = Some it -> it_tier it <> TIER_PROBATORY /\ it_tier it <> TIER_PROTECTED).
Proof.
  intros Hinv Hu Hsz E. unfold nexdash_evict_to_target in E.
  pose proof (evict_pass_spec target TIER_PROBATORY t 0 Hinv Hu Hsz) as H1.
  destruct (evict_pass target TIER_PROBATORY (t, 0)) as [t1 n1]. destruct H1 as (Hsh1 & Hgone1 & Hkeep1 & Hstop1).
  pose proof Hsh1 as (I1 & D1 & K1 & U1 & P1 & V1 & A1).
  assert (Hsz1 : sizes_ok t1) by (intros k it Hk; apply (Hsz k it); by eapply lookup_weaken).
  pose proof (evict_pass_spec target TIER_PROTECTED t1 n1 I1 P1 Hsz1) as H2. rewrite E in H2.
  destruct H2 as (Hsh2 & Hgone2 & Hkeep2 & Hstop2). pose proof Hsh2 as (I2 & D2 & K2 & U2 & P2 & V2 & A2).
  pose proof (shrinks_trans _ _ _ Hsh1 Hsh2) as (_ & D & K & U & _ & V & A).
  split; [done|]. split; [done|]. split_and!.
  - intros k it Hk Hn0 Hn1. apply (abs_Some t k it Hinv) in Hk as (l & sl & Hl & Hv & Hkey & Hit).
    apply (abs_Some t' k it I2). exists l, sl.
    assert (Hnt : forall w, w <> it_tier it -> forall x, tview x l = Some sl -> ~ tier_at x l w).
    { intros w Hw x Hx (s & Hs & Hti). assert (s = sl) as -> by congruence. apply Hw. rewrite <- Hit. by rewrite <- Hti. }
    assert (Hv1 : tview t1 l = Some sl) by (rewrite Hkeep1; [done|done|by apply Hnt]).
    split; [unfold in_table in *; by rewrite D|]. split; [|by rewrite K].
    rewrite Hkeep2; [done|unfold in_table in *; by rewrite D1|by apply Hnt].
  - intros Hle. specialize (Hstop1 Hle). subst t1. by apply Hstop2.
  - destruct (Z.le_gt_cases (used_memory t') target) as [|Hgt]; [by left|right].
    intros k it Hk. apply (abs_Some t' k it I2) in Hk as (l & sl & Hl & Hv & Hkey & Hit).
    assert (Hl1 : in_table t1 l) by (unfold in_table in *; by rewrite <- D2).
    assert (Hl0 : in_table t l) by (unfold in_table in *; by rewrite <- D).
    split; intros Ht; rewrite <- Hit in Ht.
    + apply (Hgone1 ltac:(lia) l Hl0). exists sl. split; [|done]. destruct (V2 l Hl1) as [<-|Hn]; [done|congruence].
    + apply (Hgone2 ltac:(lia) l Hl1). by exists sl.
Qed.

Lemma nexdash_evict_spec_witness :
  let t' := (nexdash_evict_to_target ex_table1 50).1 in
  nd_inv t' /\ abs t' ⊆ abs ex_table1 /\
  (forall k it, abs ex_table1 !! k = Some it -> it_tier it <> TIER_PROBATORY -> it_tier it <> TIER_PROTECTED -> abs t' !! k = Some it) /\
  (used_memory ex_table1 <= 50 -> t' = ex_table1) /\
  (used_memory t' <= 50 \/
   forall k it, abs t' !! k = Some it -> it_tier it <> TIER_PROBATORY /\ it_tier it <> TIER_PROTECTED).
Proof.
  apply (nexdash_evict_spec ex_table1 50 _ 1).
  - exact ex_table1_inv.
  - vm_compute. congruence.
  - apply (bool_decide_unpack _). vm_compute. exact I.
  - vm_compute. reflexivity.
Defined.

(** The resize of the table moves every entry: the doubled directory
    represents the same map (no segment overflows, so the overflow warning of
    the code is unreachable) and keeps the invariant. But each moved entry is
    counted a second time, so a correct [item_count] becomes twice the number
    of entries. *)
Theorem nexdash_resize_spec env t t' : nd_inv t -> nd_resize env t = (t', true) ->
  nd_inv t' /\ abs t' = abs t /\ dir_size t' = 2 * dir_size t /\
  (item_count t = Z.of_nat (size (abs t)) -> u32 (item_count t') = u32 (2 * Z.of_nat (size (abs t')))).
Proof.
  intros Hinv E. destruct (resize_inv env t t' true Hinv E) as (Hi & Hk & Hc & _ & Hok).
  destruct (Hok eq_refl) as [Hds Hic]. split_and!; try done.
  - by apply abs_perm.
  - intros Hn. rewrite Hic, Hn, !size_abs by done. rewrite (Permutation_length Hc). f_equal. lia.
Qed.

Lemma nexdash_resize_spec_witness :
  let t' := (nd_resize ex_env ex_table1).1 in
  nd_inv t' /\ abs t' = abs ex_table1 /\ dir_size t' = 2 * dir_size ex_table1 /\
  (item_count ex_table1 = Z.of_nat (size (abs ex_table1)) -> u32 (item_count t') = u32 (2 * Z.of_nat (size (abs t')))).
Proof.
  apply (nexdash_resize_spec ex_env ex_table1).
  - exact ex_table1_inv.
  - vm_compute. reflexivity.
Defined.
