(* ===== verification/Segcache.v ===== *)
(** * Segcache, the TTL-oriented engine (src/src/segcache/segcache.c)

    A pool of fixed segments; items with similar TTLs are appended to the same
    segment and a 16-shard hash index of 8-slot buckets points to them.  Every
    public operation holds the lock of the key's shard and is one step; the
    free queue is the FIFO of [vera_lockfree.h] with no enqueue under way.
    The doubly linked list of a TTL bucket is a list of segment numbers.  The
    clock is the argument [now].  [None] is an access outside a segment's
    buffer, undefined behaviour in the code.  The hit rate and the fields of
    [SegStats] that nothing writes are left out. *)
From S2P Require Import Prelude.

Create HintDb segcache.

Definition NEX_RCU_SHARDS : Z := 16.
Definition SEG_DEFAULT_SIZE : Z := 1024 * 1024.
Definition SEG_MAX_SEGMENTS : Z := 65536.
Definition SEG_TTL_BUCKETS : Z := 1024.
Definition SEG_BUCKETS_PER_SHARD : Z := Z.shiftl 1 13.
Definition SEG_HASH_BUCKETS : Z := SEG_BUCKETS_PER_SHARD * NEX_RCU_SHARDS.
Definition SEG_ITEMS_PER_BUCKET : Z := 8.

(** ** The packed item header *)
Definition SegItemHeader : Type := Z.
Definition SEG_HDR_KEY_HASH (h : SegItemHeader) : Z := Z.land (Z.shiftr h 48) 65535.
Definition SEG_HDR_KEY_LEN (h : SegItemHeader) : Z := Z.land (Z.shiftr h 32) 65535.
Definition SEG_HDR_VAL_LEN (h : SegItemHeader) : Z := Z.land (Z.shiftr h 16) 65535.
Definition SEG_HDR_TTL_BUCKET (h : SegItemHeader) : Z := Z.land h 65535.

(** ** State *)
Record NexSegment := mkSegment {
  data : bytes;
  data_size : Z;
  write_offset : Z;
  n_items : Z;
  ttl_bucket : Z;
  create_time : Z;
}.

Definition set_write_offset (seg : NexSegment) (x : Z) : NexSegment :=
  mkSegment (data seg) (data_size seg) x (n_items seg) (ttl_bucket seg) (create_time seg).
Definition set_n_items (seg : NexSegment) (x : Z) : NexSegment :=
  mkSegment (data seg) (data_size seg) (write_offset seg) x (ttl_bucket seg) (create_time seg).
Definition set_data (seg : NexSegment) (x : bytes) : NexSegment :=
  mkSegment x (data_size seg) (write_offset seg) (n_items seg) (ttl_bucket seg) (create_time seg).

Record SegStats := mkStats {
  gets : Z;
  sets : Z;
  dels : Z;
  hits : Z;
  misses : Z;
  evictions_segment : Z;
  expirations : Z;
  bytes_stored : Z;
}.

Definition add_gets (st : SegStats) (x : Z) : SegStats :=
  mkStats (gets st +64 x) (sets st) (dels st) (hits st) (misses st) (evictions_segment st) (expirations st) (bytes_stored st).
Definition add_sets (st : SegStats) (x : Z) : SegStats :=
  mkStats (gets st) (sets st +64 x) (dels st) (hits st) (misses st) (evictions_segment st) (expirations st) (bytes_stored st).
Definition add_dels (st : SegStats) (x : Z) : SegStats :=
  mkStats (gets st) (sets st) (dels st +64 x) (hits st) (misses st) (evictions_segment st) (expirations st) (bytes_stored st).
Definition add_hits (st : SegStats) (x : Z) : SegStats :=
  mkStats (gets st) (sets st) (dels st) (hits st +64 x) (misses st) (evictions_segment st) (expirations st) (bytes_stored st).
Definition add_misses (st : SegStats) (x : Z) : SegStats :=
  mkStats (gets st) (sets st) (dels st) (hits st) (misses st +64 x) (evictions_segment st) (expirations st) (bytes_stored st).
Definition add_evictions_segment (st : SegStats) (x : Z) : SegStats :=
  mkStats (gets st) (sets st) (dels st) (hits st) (misses st) (evictions_segment st +64 x) (expirations st) (bytes_stored st).
Definition add_expirations (st : SegStats) (x : Z) : SegStats :=
  mkStats (gets st) (sets st) (dels st) (hits st) (misses st) (evictions_segment st) (expirations st +64 x) (bytes_stored st).
Definition add_bytes_stored (st : SegStats) (x : Z) : SegStats :=
  mkStats (gets st) (sets st) (dels st) (hits st) (misses st) (evictions_segment st) (expirations st) (bytes_stored st +64 x).

Record SegHashEntry := mkEntry { key_fp : Z; seg_idx : Z; item_offset : Z }.
Record SegHashBucket := mkBucket { entries : list SegHashEntry; occupancy : Z }.

Record NexSegcache := mkSegcache {
  segments : list NexSegment;
  n_free : Z; (* uint32_t *)
  free_queue : list Z; (* segment numbers, oldest first *)
  ttl_shards : list (list (list Z)); (* per shard and TTL bucket, the linked list of segments *)
  hash_table : list SegHashBucket;
  buckets_per_shard : Z;
  used_memory : Z; (* size_t *)
  shard_stats : list SegStats;
}.

Definition set_segments (sc : NexSegcache) (x : list NexSegment) : NexSegcache :=
  mkSegcache x (n_free sc) (free_queue sc) (ttl_shards sc) (hash_table sc) (buckets_per_shard sc) (used_memory sc) (shard_stats sc).
Definition set_n_free (sc : NexSegcache) (x : Z) : NexSegcache :=
  mkSegcache (segments sc) x (free_queue sc) (ttl_shards sc) (hash_table sc) (buckets_per_shard sc) (used_memory sc) (shard_stats sc).
Definition set_free_queue (sc : NexSegcache) (x : list Z) : NexSegcache :=
  mkSegcache (segments sc) (n_free sc) x (ttl_shards sc) (hash_table sc) (buckets_per_shard sc) (used_memory sc) (shard_stats sc).
Definition set_ttl_shards (sc : NexSegcache) (x : list (list (list Z))) : NexSegcache :=
  mkSegcache (segments sc) (n_free sc) (free_queue sc) x (hash_table sc) (buckets_per_shard sc) (used_memory sc) (shard_stats sc).
Definition set_hash_table (sc : NexSegcache) (x : list SegHashBucket) : NexSegcache :=
  mkSegcache (segments sc) (n_free sc) (free_queue sc) (ttl_shards sc) x (buckets_per_shard sc) (used_memory sc) (shard_stats sc).
Definition set_used_memory (sc : NexSegcache) (x : Z) : NexSegcache :=
  mkSegcache (segments sc) (n_free sc) (free_queue sc) (ttl_shards sc) (hash_table sc) (buckets_per_shard sc) x (shard_stats sc).
Definition set_shard_stats (sc : NexSegcache) (x : list SegStats) : NexSegcache :=
  mkSegcache (segments sc) (n_free sc) (free_queue sc) (ttl_shards sc) (hash_table sc) (buckets_per_shard sc) (used_memory sc) x.

Definition zero_entry : SegHashEntry := mkEntry 0 0 0.
Definition zero_bucket : SegHashBucket := mkBucket (calloc SEG_ITEMS_PER_BUCKET zero_entry) 0.
Definition zero_stats : SegStats := mkStats 0 0 0 0 0 0 0 0.
Definition zero_segment : NexSegment := mkSegment [] 0 0 0 0 0.

#[export] Instance SegHashEntry_inhabited : Inhabited SegHashEntry := populate zero_entry.
#[export] Instance SegHashBucket_inhabited : Inhabited SegHashBucket := populate zero_bucket.
#[export] Instance SegStats_inhabited : Inhabited SegStats := populate zero_stats.
#[export] Instance NexSegment_inhabited : Inhabited NexSegment := populate zero_segment.

Definition n_segments (sc : NexSegcache) : Z := alen (segments sc).
Definition upd_stats (sc : NexSegcache) (shard : Z) (f : SegStats -> SegStats) : NexSegcache :=
  set_shard_stats sc (aset (shard_stats sc) shard (f (aget (shard_stats sc) shard))).
Definition get_ttl (sc : NexSegcache) (shard b : Z) : list Z := aget (aget (ttl_shards sc) shard) b.
Definition put_ttl (sc : NexSegcache) (shard b : Z) (l : list Z) : NexSegcache :=
  set_ttl_shards sc (aset (ttl_shards sc) shard (aset (aget (ttl_shards sc) shard) b l)).
Definition put_seg (sc : NexSegcache) (i : Z) (seg : NexSegment) : NexSegcache :=
  set_segments sc (aset (segments sc) i seg).

(** ** Memory of a segment *)
Definition mem_read (m : bytes) (off n : Z) : option bytes :=
  if (0 <=? off) && (off + n <=? alen m)
  then Some (take (Z.to_nat n) (drop (Z.to_nat off) m)) else None.
Definition mem_write (m : bytes) (off : Z) (b : bytes) : option bytes :=
  if (0 <=? off) && (off + alen b <=? alen m)
  then Some (take (Z.to_nat off) m ++ b ++ drop (Z.to_nat (off + alen b)) m) else None.

(** ** Hash and TTL buckets *)
Definition seg_hash (key : bytes) : Z :=
  fold_left (fun h c => Z.lxor h (u8 c) *64 1099511628211) key 14695981039346656037.

Definition ttl_to_bucket (ttl_seconds : Z) : Z :=
  if ttl_seconds =? 0 then 0 else
  if ttl_seconds <? 60 then ttl_seconds else
  if ttl_seconds <? 600 then 60 + (ttl_seconds - 60) / 10 else
  if ttl_seconds <? 3600 then 60 + 54 + (ttl_seconds - 600) / 60 else
  (60 + 54 + 50 + (ttl_seconds - 3600) / 3600) mod SEG_TTL_BUCKETS.

Definition bucket_to_ttl_seconds (b : Z) : Z :=
  if b =? 0 then 0 else
  if b <? 60 then b else
  if b <? 114 then 60 + (b - 60) * 10 else
  if b <? 164 then 600 + (b - 114) * 60 else
  u32 (3600 + (b - 164) * 3600).

(** ** segcache_create, with every allocation successful *)
Definition clamp_segments (max_memory segment_size : Z) : Z :=
  let n := u32 (max_memory / segment_size) in
  let n := if n =? 0 then 16 else n in
  let n := if n <? NEX_RCU_SHARDS then NEX_RCU_SHARDS else n in
  if SEG_MAX_SEGMENTS <? n then SEG_MAX_SEGMENTS else n.

Definition segcache_create (max_memory segment_size : Z) : NexSegcache :=
  let segment_size := if segment_size =? 0 then SEG_DEFAULT_SIZE else segment_size in
  let n := clamp_segments max_memory segment_size in
  mkSegcache (calloc n (mkSegment (calloc segment_size 0) segment_size 0 0 0 0)) n (seqZ 0 n)
    (calloc NEX_RCU_SHARDS (calloc SEG_TTL_BUCKETS [])) (calloc SEG_HASH_BUCKETS zero_bucket)
    SEG_BUCKETS_PER_SHARD 0 (calloc NEX_RCU_SHARDS zero_stats).

(** ** seg_alloc *)
Definition seg_alloc (sc : NexSegcache) (now ttl_b : Z) : option (NexSegcache * Z) :=
  match free_queue sc with
  | [] => None
  | idx :: q =>
      let seg := aget (segments sc) idx in
      let sc := set_n_free (set_free_queue sc q) (n_free sc -32 1) in
      Some (put_seg sc idx (mkSegment (calloc (data_size seg) 0) (data_size seg) 0 0 ttl_b now), idx)
  end.

(** ** The index *)
Definition bucket_index (sc : NexSegcache) (hash : Z) : Z :=
  let shard_id := hash mod NEX_RCU_SHARDS in
  let local_idx := (hash / NEX_RCU_SHARDS) mod buckets_per_shard sc in
  u32 (u32 (shard_id * buckets_per_shard sc) + local_idx).

Definition slot_range : list Z := [0; 1; 2; 3; 4; 5; 6; 7].

(** The key test of the three scans: the fingerprint, then the key length and
    the key bytes of the item the entry points to. *)
Definition entry_matches (segs : list NexSegment) (e : SegHashEntry) (fp : Z) (key : bytes) : option bool :=
  if negb (key_fp e =? fp) then Some false else
  seg ← segs !! Z.to_nat (seg_idx e);
  hdr ← mem_read (data seg) (item_offset e) 8;
  if negb (SEG_HDR_KEY_LEN (le_val hdr) =? alen key) then Some false else
  stored_key ← mem_read (data seg) (item_offset e + 8) (alen key);
  Some (bytes_eqb stored_key key).

Inductive scan_result := Found (s : Z) | NotFound (free_slot : Z).

(** One pass over the slots: the first matching slot, or else the first free
    slot met on the way (-1 when there is none). *)
Fixpoint ht_scan (segs : list NexSegment) (bkt : SegHashBucket) (fp : Z) (key : bytes)
    (ss : list Z) (free_slot : Z) : option scan_result :=
  match ss with
  | [] => Some (NotFound free_slot)
  | s :: ss =>
      if negb (bit_get (occupancy bkt) s)
      then ht_scan segs bkt fp key ss (if free_slot <? 0 then s else free_slot)
      else
        m ← entry_matches segs (aget (entries bkt) s) fp key;
        if (m : bool) then Some (Found s) else ht_scan segs bkt fp key ss free_slot
  end.

Definition put_bucket (sc : NexSegcache) (i : Z) (b : SegHashBucket) : NexSegcache :=
  set_hash_table sc (aset (hash_table sc) i b).
Definition clear_slot (bkt : SegHashBucket) (s : Z) : SegHashBucket :=
  mkBucket (entries bkt) (u8 (bit_clear (occupancy bkt) s)).

(** [None] in the pair is the code's -1, a full bucket. *)
Definition ht_insert (sc : NexSegcache) (hash fp sidx off : Z) (key : bytes) : option (NexSegcache * bool) :=
  let gi := bucket_index sc hash in
  let bkt := aget (hash_table sc) gi in
  r ← ht_scan (segments sc) bkt fp key slot_range (- 1);
  match r with
  | Found s =>
      let e := mkEntry (key_fp (aget (entries bkt) s)) (u16 sidx) off in
      Some (put_bucket sc gi (mkBucket (aset (entries bkt) s e) (occupancy bkt)), true)
  | NotFound free_slot =>
      if 0 <=? free_slot then
        let e := mkEntry fp (u16 sidx) off in
        Some (put_bucket sc gi (mkBucket (aset (entries bkt) free_slot e)
               (u8 (bit_set (occupancy bkt) free_slot))), true)
      else Some (sc, false)
  end.

Definition seg_expired (now ttl_s : Z) (seg : NexSegment) : bool :=
  (0 <? ttl_s) && (create_time seg +32 ttl_s <=? now).

Definition ht_find (sc : NexSegcache) (now hash fp : Z) (key : bytes) : option (NexSegcache * option SegHashEntry) :=
  let gi := bucket_index sc hash in
  let bkt := aget (hash_table sc) gi in
  r ← ht_scan (segments sc) bkt fp key slot_range (- 1);
  match r with
  | Found s =>
      let e := aget (entries bkt) s in
      let seg := aget (segments sc) (seg_idx e) in
      if seg_expired now (bucket_to_ttl_seconds (ttl_bucket seg)) seg
      then Some (put_bucket sc gi (clear_slot bkt s), None)
      else Some (sc, Some e)
  | NotFound _ => Some (sc, None)
  end.

(** ** segcache_set *)
Definition pack_header (fp key_len value_len ttl_b : Z) : SegItemHeader :=
  Z.lor (Z.lor (Z.lor (Z.lor 0 (u64 (Z.shiftl fp 48))) (u64 (Z.shiftl key_len 32)))
    (u64 (Z.shiftl value_len 16))) ttl_b.

Definition fits (sc : NexSegcache) (item_size : Z) (l : list Z) : bool :=
  match l with
  | [] => false
  | i :: _ => negb (data_size (aget (segments sc) i) <? write_offset (aget (segments sc) i) +32 item_size)
  end.

(** The segment the item goes to: the head of the TTL list when the item fits
    it, else a fresh segment pushed in front. *)
Definition pick_segment (sc : NexSegcache) (now shard ttl_b item_size : Z) : option (NexSegcache * Z) :=
  let l := get_ttl sc shard ttl_b in
  if fits sc item_size l then Some (sc, hd 0 l) else
  '(sc, idx) ← seg_alloc sc now ttl_b;
  Some (put_ttl sc shard ttl_b (idx :: get_ttl sc shard ttl_b), idx).

Definition item_bytes (fp : Z) (key value : bytes) (ttl_b : Z) : bytes :=
  le_bytes 8 (pack_header fp (alen key) (alen value) ttl_b) ++ key ++ value.

Definition segcache_set (sc : NexSegcache) (now : Z) (key value : bytes) (ttl_seconds : Z)
    : option (NexSegcache * Z) :=
  let item_size := u32 (8 + alen key + alen value) in
  let hash64 := seg_hash key in
  let shard_id := hash64 mod NEX_RCU_SHARDS in
  let ttl_b := ttl_to_bucket ttl_seconds in
  match pick_segment sc now shard_id ttl_b item_size with
  | None => Some (sc, - 1)
  | Some (sc, idx) =>
      let seg := aget (segments sc) idx in
      let off := write_offset seg in
      let fp := u16 (Z.shiftr hash64 48) in
      d ← mem_write (data seg) off (item_bytes fp key value ttl_b);
      let seg := set_n_items (set_write_offset (set_data seg d) (off +32 item_size)) (n_items seg +32 1) in
      let sc := put_seg sc idx seg in
      '(sc, ok) ← ht_insert sc hash64 fp idx off key;
      if (ok : bool) then
        let sc := set_used_memory sc (used_memory sc +64 item_size) in
        Some (upd_stats sc shard_id (fun st => add_bytes_stored (add_sets st 1) item_size), 0)
      else
        let seg := aget (segments sc) idx in
        let seg := set_n_items (set_write_offset seg (write_offset seg -32 item_size)) (n_items seg -32 1) in
        Some (put_seg sc idx seg, - 1)
  end.

(** ** segcache_get *)
Inductive get_result := GetMiss | GetTooSmall (vlen : Z) | GetOk (value : bytes).

Definition segcache_get (sc : NexSegcache) (now : Z) (key : bytes) (buf_len : Z)
    : option (NexSegcache * get_result) :=
  let hash64 := seg_hash key in
  let fp := u16 (Z.shiftr hash64 48) in
  let shard_id := hash64 mod NEX_RCU_SHARDS in
  '(sc, entry) ← ht_find sc now hash64 fp key;
  match entry with
  | None => Some (upd_stats sc shard_id (fun st => add_gets (add_misses st 1) 1), GetMiss)
  | Some e =>
      let seg := aget (segments sc) (seg_idx e) in
      h ← mem_read (data seg) (item_offset e) 8;
      let vlen := SEG_HDR_VAL_LEN (le_val h) in
      if buf_len <? vlen then Some (sc, GetTooSmall vlen) else
      v ← mem_read (data seg) (item_offset e + 8 + SEG_HDR_KEY_LEN (le_val h)) vlen;
      Some (upd_stats sc shard_id (fun st => add_gets (add_hits st 1) 1), GetOk v)
  end.

(** ** segcache_del and segcache_exists *)
Definition segcache_del (sc : NexSegcache) (key : bytes) : option (NexSegcache * Z) :=
  let hash64 := seg_hash key in
  let gi := bucket_index sc hash64 in
  let bkt := aget (hash_table sc) gi in
  r ← ht_scan (segments sc) bkt (u16 (Z.shiftr hash64 48)) key slot_range (- 1);
  match r with
  | Found s =>
      let sc := put_bucket sc gi (clear_slot bkt s) in
      Some (upd_stats sc (hash64 mod NEX_RCU_SHARDS) (fun st => add_dels st 1), 1)
  | NotFound _ => Some (sc, 0)
  end.

Definition segcache_exists (sc : NexSegcache) (now : Z) (key : bytes) : option (NexSegcache * Z) :=
  let hash64 := seg_hash key in
  let gi := bucket_index sc hash64 in
  let bkt := aget (hash_table sc) gi in
  r ← ht_scan (segments sc) bkt (u16 (Z.shiftr hash64 48)) key slot_range (- 1);
  match r with
  | Found s =>
      let seg := aget (segments sc) (seg_idx (aget (entries bkt) s)) in
      if seg_expired now (bucket_to_ttl_seconds (ttl_bucket seg)) seg
      then Some (put_bucket sc gi (clear_slot bkt s), 0)
      else Some (sc, 1)
  | NotFound _ => Some (sc, 0)
  end.

(** ** segcache_expire_segments *)

(** One TTL list: the segments kept, and the state after the others have gone
    back to the queue; the counter is [total_expired]. *)
Fixpoint expire_list (sc : NexSegcache) (now shard ttl_s : Z) (l : list Z) (total : Z)
    : NexSegcache * list Z * Z :=
  match l with
  | [] => (sc, [], total)
  | i :: l =>
      let seg := aget (segments sc) i in
      if seg_expired now ttl_s seg then
        let sc := set_n_free (set_free_queue sc (free_queue sc ++ [i])) (n_free sc +32 1) in
        let sc := upd_stats sc shard (fun st => add_expirations (add_evictions_segment st 1) (n_items seg)) in
        expire_list sc now shard ttl_s l (total +32 n_items seg)
      else
        let '(sc, kept, total) := expire_list sc now shard ttl_s l total in (sc, i :: kept, total)
  end.

Definition expire_bucket (now shard b : Z) (st : NexSegcache * Z) : NexSegcache * Z :=
  let '(sc, total) := st in
  let '(sc, kept, total) := expire_list sc now shard (bucket_to_ttl_seconds b) (get_ttl sc shard b) total in
  (put_ttl sc shard b kept, total).

Definition segcache_expire_segments (sc : NexSegcache) (now : Z) : NexSegcache * Z :=
  for_loop NEX_RCU_SHARDS (fun shard =>
    for_loop SEG_TTL_BUCKETS (fun b => expire_bucket now shard b)) (sc, 0).

(** ** segcache_get_stats: the totals and the number of segments in use *)
Definition add_stats (t s : SegStats) : SegStats :=
  mkStats (gets t +64 gets s) (sets t +64 sets s) (dels t +64 dels s) (hits t +64 hits s)
    (misses t +64 misses s) (evictions_segment t +64 evictions_segment s)
    (expirations t +64 expirations s) (bytes_stored t +64 bytes_stored s).

Definition segcache_get_stats (sc : NexSegcache) : SegStats * Z :=
  (for_loop NEX_RCU_SHARDS (fun i t => add_stats t (aget (shard_stats sc) i)) zero_stats,
   n_segments sc -32 n_free sc).

(** ** Memory and header lemmas *)
Lemma mem_write_len m off b m' : mem_write m off b = Some m' -> alen m' = alen m.
Proof.
  unfold mem_write. case_if; [|done]. intros [= <-]. unfold alen in *.
  rewrite !length_app, length_take, length_drop. lia.
Qed.

(** A read of any part of what has just been written returns it. *)
Lemma mem_read_written m off a b c m' :
  mem_write m off (a ++ b ++ c) = Some m' -> mem_read m' (off + alen a) (alen b) = Some b.
Proof.
  intros Hw. pose proof (mem_write_len _ _ _ _ Hw) as Hl. unfold mem_write in Hw.
  case_if_in Hw; [|done]. injection Hw as Hw.
  unfold mem_read. unfold alen in *. rewrite !length_app in *.
  replace (0 <=? off + Z.of_nat (length a)) with true by lia.
  rewrite (proj2 (Z.leb_le _ _)) by lia. cbn [andb]. f_equal. rewrite <- Hw.
  replace (Z.to_nat (off + Z.of_nat (length a))) with (Z.to_nat off + length a)%nat by lia.
  rewrite <- drop_drop, drop_app_length' by (rewrite length_take; lia).
  rewrite <- (assoc_L (++)), drop_app_length, Nat2Z.id, <- (assoc_L (++)).
  by apply take_app_length.
Qed.

Lemma pack_header_sum fp k v b : in_u 16 fp -> in_u 16 k -> in_u 16 v -> in_u 16 b ->
  pack_header fp k v b = b + 2 ^ 16 * (v + 2 ^ 16 * (k + 2 ^ 16 * fp)).
Proof.
  intros Hf Hk Hv Hb. unfold pack_header. rewrite Z.lor_0_l.
  rewrite !(shl_fits _ _ 16) by (done || lia).
  assert (in_u 32 (b + 2 ^ 16 * v)) by (apply (in_u_pack _ _ 16 16); done || lia).
  assert (in_u 48 (b + 2 ^ 16 * v + 2 ^ 32 * k)) by (apply (in_u_pack _ _ 32 16); done || lia).
  rewrite Z.lor_comm, Z.lor_assoc, Z.lor_assoc.
  replace (Z.lor (Z.lor (Z.lor b (Z.shiftl fp 48)) (Z.shiftl k 32)) (Z.shiftl v 16))
    with (Z.lor (Z.lor (Z.lor b (Z.shiftl v 16)) (Z.shiftl k 32)) (Z.shiftl fp 48)).
  - rewrite (lor_pack b) by (done || apply Hv || lia).
    rewrite (lor_pack (b + _)) by (done || apply Hk || lia).
    rewrite (lor_pack (b + _ + _)) by (done || apply Hf || lia).
    change (2 ^ 16) with 65536. change (2 ^ 32) with 4294967296.
    change (2 ^ 48) with 281474976710656. lia.
  - apply Z.bits_inj'. intros j Hj. rewrite !Z.lor_spec.
    by destruct (Z.testbit b j), (Z.testbit (Z.shiftl v 16) j), (Z.testbit (Z.shiftl k 32) j), (Z.testbit (Z.shiftl fp 48) j).
Qed.

Lemma pack_header_fields fp k v b : in_u 16 fp -> in_u 16 k -> in_u 16 v -> in_u 16 b ->
  in_u 64 (pack_header fp k v b) /\
  SEG_HDR_KEY_HASH (pack_header fp k v b) = fp /\ SEG_HDR_KEY_LEN (pack_header fp k v b) = k /\
  SEG_HDR_VAL_LEN (pack_header fp k v b) = v /\ SEG_HDR_TTL_BUCKET (pack_header fp k v b) = b.
Proof.
  intros Hf Hk Hv Hb. rewrite pack_header_sum by done.
  unfold SEG_HDR_KEY_HASH, SEG_HDR_KEY_LEN, SEG_HDR_VAL_LEN, SEG_HDR_TTL_BUCKET.
  change 65535 with (Z.ones 16).
  assert (in_u 32 (k + 2 ^ 16 * fp)) as H2 by (apply (in_u_pack _ _ 16 16); done || lia).
  assert (in_u 48 (v + 2 ^ 16 * (k + 2 ^ 16 * fp))) as H3 by (apply (in_u_pack _ _ 16 32); done || lia).
  assert (in_u 32 (b + 2 ^ 16 * v)) as H4 by (apply (in_u_pack _ _ 16 16); done || lia).
  assert (in_u 48 (b + 2 ^ 16 * v + 2 ^ 32 * k)) as H5 by (apply (in_u_pack _ _ 32 16); done || lia).
  split_and!.
  - apply (in_u_pack _ _ 16 48); done || lia.
  - transitivity (Z.land (Z.shiftr ((b + 2 ^ 16 * v + 2 ^ 32 * k) + 2 ^ 48 * (fp + 2 ^ 16 * 0)) 48) (Z.ones 16)).
    + do 2 f_equal. mach_unfold. lia.
    + apply field_get; done || lia.
  - transitivity (Z.land (Z.shiftr ((b + 2 ^ 16 * v) + 2 ^ 32 * (k + 2 ^ 16 * fp)) 32) (Z.ones 16)).
    + do 2 f_equal. mach_unfold. lia.
    + apply field_get; done || lia || apply Hf.
  - apply field_get; done || lia || apply H2.
  - apply addr_get; done || lia.
Qed.

(** ** TTL buckets *)
Lemma ttl_to_bucket_range t : in_u 32 t -> 0 <= ttl_to_bucket t < SEG_TTL_BUCKETS.
Proof.
  intros Ht. unfold ttl_to_bucket, SEG_TTL_BUCKETS. mach_unfold.
  repeat case_if; try lia.
  all: first [apply Z.mod_pos_bound; lia | Z.to_euclidean_division_equations; lia].
Qed.

Definition ttl_granularity (t : Z) : Z :=
  if t <? 60 then 1 else if t <? 600 then 10 else if t <? 3600 then 60 else 3600.

Lemma applied_hours b : 164 <= b < 1024 -> bucket_to_ttl_seconds b = 3600 * (b - 163).
Proof.
  intros Hb. unfold bucket_to_ttl_seconds.
  rewrite (proj2 (Z.eqb_neq b 0)), (proj2 (Z.ltb_ge b 60)), (proj2 (Z.ltb_ge b 114)), (proj2 (Z.ltb_ge b 164)) by lia.
  rewrite wrap_small by mach. lia.
Qed.

Lemma applied_bound b : 0 <= b < 1024 -> bucket_to_ttl_seconds b <= 3600 * 860 /\ (bucket_to_ttl_seconds b = 0 <-> b = 0).
Proof.
  intros Hb. destruct (Z.lt_ge_cases b 164); [|rewrite applied_hours by lia; lia].
  unfold bucket_to_ttl_seconds. repeat case_if; lia.
Qed.

Lemma ttl_bucket_hours t : 3600 <= t -> ttl_to_bucket t = (163 + t / 3600) mod 1024.
Proof.
  intros Ht. unfold ttl_to_bucket, SEG_TTL_BUCKETS.
  rewrite (proj2 (Z.eqb_neq t 0)), (proj2 (Z.ltb_ge t 60)), (proj2 (Z.ltb_ge t 600)), (proj2 (Z.ltb_ge t 3600)) by lia.
  f_equal. Z.to_euclidean_division_equations; lia.
Qed.

Lemma applied_below t : 0 <= t < 3600 * 861 ->
  let applied := bucket_to_ttl_seconds (ttl_to_bucket t) in applied <= t < applied + ttl_granularity t.
Proof.
  intros Ht. cbv zeta. unfold ttl_granularity. destruct (Z.lt_ge_cases t 3600).
  - rewrite (proj2 (Z.ltb_lt t 3600)) by lia. unfold ttl_to_bucket.
    destruct (Z.eqb_spec t 0) as [->|]; [done|]. destruct (Z.ltb_spec t 60).
    { unfold bucket_to_ttl_seconds. rewrite (proj2 (Z.eqb_neq t 0)), (proj2 (Z.ltb_lt t 60)) by lia. lia. }
    rewrite (proj2 (Z.ltb_lt t 3600)) by lia. unfold bucket_to_ttl_seconds. destruct (Z.ltb_spec t 600).
    + set (q := (t - 60) / 10). assert (10 * q <= t - 60 < 10 * q + 10) by (unfold q; Z.to_euclidean_division_equations; lia).
      rewrite (proj2 (Z.eqb_neq _ 0)), (proj2 (Z.ltb_ge _ 60)), (proj2 (Z.ltb_lt _ 114)) by lia. lia.
    + set (q := (t - 600) / 60). assert (60 * q <= t - 600 < 60 * q + 60) by (unfold q; Z.to_euclidean_division_equations; lia).
      rewrite (proj2 (Z.eqb_neq _ 0)), (proj2 (Z.ltb_ge _ 60)), (proj2 (Z.ltb_ge _ 114)), (proj2 (Z.ltb_lt _ 164)) by lia. lia.
  - rewrite ttl_bucket_hours by lia.
    rewrite (proj2 (Z.ltb_ge t 60)), (proj2 (Z.ltb_ge t 600)), (proj2 (Z.ltb_ge t 3600)) by lia.
    set (q := t / 3600). assert (3600 * q <= t < 3600 * q + 3600) by (unfold q; Z.to_euclidean_division_equations; lia).
    rewrite Z.mod_small by lia. rewrite applied_hours by lia. lia.
Qed.

(** ** The invariant *)
Record seg_ok (seg : NexSegment) : Prop := {
  seg_len : alen (data seg) = data_size seg;
  seg_size : in_u 32 (data_size seg);
  seg_off : 0 <= write_offset seg <= data_size seg }.

Definition entry_ok (n : Z) (e : SegHashEntry) : Prop := 0 <= seg_idx e < n.
Record bucket_ok (n : Z) (b : SegHashBucket) : Prop := {
  bkt_entries : alen (entries b) = SEG_ITEMS_PER_BUCKET;
  bkt_occ : in_u 8 (occupancy b);
  bkt_idx : Forall (entry_ok n) (entries b) }.

(** The segments on the TTL lists. *)
Definition live (sc : NexSegcache) : list Z := concat (concat (ttl_shards sc)).

Record sc_wf (sc : NexSegcache) : Prop := {
  wf_n : 0 < n_segments sc <= SEG_MAX_SEGMENTS;
  wf_segs : Forall seg_ok (segments sc);
  wf_pool : free_queue sc ++ live sc ≡ₚ seqZ 0 (n_segments sc);
  wf_free : n_free sc = alen (free_queue sc);
  wf_shards : alen (ttl_shards sc) = NEX_RCU_SHARDS;
  wf_lists : Forall (fun l => alen l = SEG_TTL_BUCKETS) (ttl_shards sc);
  wf_bucket : forall shard b i, 0 <= shard < NEX_RCU_SHARDS -> 0 <= b < SEG_TTL_BUCKETS ->
    i ∈ get_ttl sc shard b -> ttl_bucket (aget (segments sc) i) = b;
  wf_bps : 0 < buckets_per_shard sc <= SEG_BUCKETS_PER_SHARD;
  wf_table : alen (hash_table sc) = NEX_RCU_SHARDS * buckets_per_shard sc;
  wf_buckets : Forall (bucket_ok (n_segments sc)) (hash_table sc);
  wf_stats : alen (shard_stats sc) = NEX_RCU_SHARDS }.

(** Computes the projections of an updated state. *)
Ltac sc_cbn := unfold n_segments in *; cbn [put_ttl put_seg put_bucket upd_stats set_n_free set_free_queue set_segments set_ttl_shards set_hash_table set_used_memory set_shard_stats segments free_queue n_free ttl_shards hash_table buckets_per_shard used_memory shard_stats] in *.

(** ** Indices in range *)
Lemma shard_range h : 0 <= h mod NEX_RCU_SHARDS < NEX_RCU_SHARDS.
Proof. apply Z.mod_pos_bound. done. Qed.

Lemma bucket_index_range sc h : sc_wf sc -> 0 <= bucket_index sc h < alen (hash_table sc).
Proof.
  intros Hwf. rewrite (wf_table _ Hwf). pose proof (wf_bps _ Hwf) as Hb.
  unfold bucket_index. pose proof (shard_range h) as Hs.
  pose proof (Z.mod_pos_bound (h / NEX_RCU_SHARDS) (buckets_per_shard sc) ltac:(lia)) as Hl.
  unfold NEX_RCU_SHARDS in *. change SEG_BUCKETS_PER_SHARD with 8192 in *.
  assert (0 <= h mod 16 * buckets_per_shard sc <= 15 * buckets_per_shard sc) by nia.
  rewrite (wrap_small 32 (h mod 16 * _)) by mach. rewrite wrap_small by mach. lia.
Qed.

Lemma wf_bucket_at sc h : sc_wf sc -> bucket_ok (n_segments sc) (aget (hash_table sc) (bucket_index sc h)).
Proof. intros Hwf. apply Forall_aget; [apply Hwf|by apply bucket_index_range]. Qed.

Lemma put_bucket_at sc h b : sc_wf sc ->
  aget (hash_table (put_bucket sc (bucket_index sc h) b)) (bucket_index sc h) = b.
Proof. intros Hwf. apply aget_aset_eq. by apply bucket_index_range. Qed.

(** ** The scan *)
Lemma slot_range_elem s : s ∈ slot_range <-> 0 <= s < SEG_ITEMS_PER_BUCKET.
Proof. unfold slot_range, SEG_ITEMS_PER_BUCKET. rewrite !elem_of_cons, elem_of_nil. lia. Qed.

Lemma ht_scan_found segs bkt fp key ss f s :
  ht_scan segs bkt fp key ss f = Some (Found s) ->
  s ∈ ss /\ bit_get (occupancy bkt) s = true /\ entry_matches segs (aget (entries bkt) s) fp key = Some true.
Proof.
  revert f. induction ss as [|s0 ss IH]; intros f H; simpl in H; [done|].
  destruct (bit_get (occupancy bkt) s0) eqn:Ho; simpl in H.
  - apply bind_Some in H as ([] & Hm & H).
    + injection H as <-. split_and!; [apply list_elem_of_here|done|done].
    + apply IH in H as (? & ? & ?). split_and!; [by apply list_elem_of_further|done|done].
  - apply IH in H as (? & ? & ?). split_and!; [by apply list_elem_of_further|done|done].
Qed.

Lemma ht_scan_free segs bkt fp key ss f s :
  ht_scan segs bkt fp key ss f = Some (NotFound s) -> s = f \/ (s ∈ ss /\ bit_get (occupancy bkt) s = false).
Proof.
  revert f. induction ss as [|s0 ss IH]; intros f H; simpl in H; [left; congruence|].
  destruct (bit_get (occupancy bkt) s0) eqn:Ho; simpl in H.
  - apply bind_Some in H as ([] & Hm & H); [done|].
    apply IH in H as [->|[? ?]]; [by left|right; split; [by apply list_elem_of_further|done]].
  - apply IH in H as [->|[? ?]]; [|right; split; [by apply list_elem_of_further|done]].
    case_if; [right; split; [apply list_elem_of_here|done]|by left].
Qed.

(** A scan of a bucket in which only slot [s] changed, to a matching entry,
    finds [s], when [s] is where the first scan put the key. *)
Lemma ht_scan_inserted segs bkt bkt' fp key ss f f' r s :
  ht_scan segs bkt fp key ss f = Some r -> r = Found s \/ (r = NotFound s /\ f <> s) ->
  (forall j, j ∈ ss -> j <> s -> bit_get (occupancy bkt') j = bit_get (occupancy bkt) j /\
    aget (entries bkt') j = aget (entries bkt) j) ->
  bit_get (occupancy bkt') s = true -> entry_matches segs (aget (entries bkt') s) fp key = Some true ->
  ht_scan segs bkt' fp key ss f' = Some (Found s).
Proof.
  intros Hr Hs Hsame Ho Hm. revert f f' Hr Hs. induction ss as [|s0 ss IH]; intros f f' Hr Hs.
  - simpl in Hr. injection Hr as <-. destruct Hs as [?|[? ?]]; congruence.
  - assert (forall j, j ∈ ss -> j <> s -> bit_get (occupancy bkt') j = bit_get (occupancy bkt) j /\
      aget (entries bkt') j = aget (entries bkt) j) as Hss.
    { intros j Hj. apply Hsame. by apply list_elem_of_further. }
    specialize (IH Hss). simpl in Hr |- *. destruct (decide (s0 = s)) as [->|Hne].
    { rewrite Ho. simpl. by rewrite Hm. }
    destruct (Hsame s0 (list_elem_of_here _ _) Hne) as [-> ->].
    destruct (bit_get (occupancy bkt) s0); simpl in *.
    + apply bind_Some in Hr as (m & Hm0 & Hr). rewrite Hm0. simpl. destruct m.
      * injection Hr as <-. destruct Hs as [[= ->]|[? ?]]; done.
      * by eapply IH.
    + eapply IH; [done|]. destruct Hs as [|[? ?]]; [by left|right; split; [done|]]. by case_if.
Qed.

(** ** The segment pool *)
Lemma concat_split {A} (ll : list (list A)) i : 0 <= i < alen ll ->
  exists p q, concat ll = p ++ aget ll i ++ q /\ forall l, concat (aset ll i l) = p ++ l ++ q.
Proof.
  intros Hi. pose proof (aget_lookup _ _ Hi) as Hl. unfold alen in Hi.
  exists (concat (take (Z.to_nat i) ll)), (concat (drop (S (Z.to_nat i)) ll)). split.
  - rewrite <- (take_drop_middle _ _ _ Hl) at 1. by rewrite concat_app.
  - intros l. unfold aset. rewrite insert_take_drop by lia. by rewrite concat_app.
Qed.

Lemma wf_row sc shard : sc_wf sc -> 0 <= shard < NEX_RCU_SHARDS ->
  alen (aget (ttl_shards sc) shard) = SEG_TTL_BUCKETS.
Proof.
  intros Hwf Hs. rewrite <- (wf_shards _ Hwf) in Hs.
  exact (Forall_aget (fun l => alen l = SEG_TTL_BUCKETS) _ _ (wf_lists _ Hwf) Hs).
Qed.

Lemma live_split sc shard b : sc_wf sc -> 0 <= shard < NEX_RCU_SHARDS -> 0 <= b < SEG_TTL_BUCKETS ->
  exists p q, live sc = p ++ get_ttl sc shard b ++ q /\
    forall l, live (put_ttl sc shard b l) = p ++ l ++ q.
Proof.
  intros Hwf Hs Hb. unfold live, get_ttl, put_ttl. cbn [ttl_shards set_ttl_shards].
  pose proof (wf_row _ _ Hwf Hs) as Hlen. rewrite <- (wf_shards _ Hwf) in Hs.
  destruct (concat_split _ _ Hs) as (p & q & -> & Hp).
  rewrite <- Hlen in Hb. destruct (concat_split _ _ Hb) as (p' & q' & Hr & Hp').
  exists (concat p ++ p'), (q' ++ concat q). split.
  - rewrite !concat_app, Hr. by rewrite <- !(assoc_L (++)).
  - intros l. rewrite Hp, !concat_app, Hp'. by rewrite <- !(assoc_L (++)).
Qed.

Lemma get_put_ttl sc shard b l shard' b' : sc_wf sc ->
  0 <= shard < NEX_RCU_SHARDS -> 0 <= b < SEG_TTL_BUCKETS ->
  0 <= shard' < NEX_RCU_SHARDS -> 0 <= b' < SEG_TTL_BUCKETS ->
  get_ttl (put_ttl sc shard b l) shard' b' = if (shard =? shard') && (b =? b') then l else get_ttl sc shard' b'.
Proof.
  intros Hwf Hs Hb Hs' Hb'. unfold get_ttl, put_ttl. cbn [ttl_shards set_ttl_shards].
  pose proof (wf_row _ _ Hwf Hs) as Hlen. rewrite <- (wf_shards _ Hwf) in Hs, Hs'.
  destruct (Z.eqb_spec shard shard') as [<-|Hne]; simpl.
  - rewrite aget_aset_eq by done.
    destruct (Z.eqb_spec b b') as [<-|Hne]; [by rewrite aget_aset_eq by lia|].
    by rewrite aget_aset_ne by lia.
  - by rewrite aget_aset_ne by lia.
Qed.

Lemma pool_range sc i : sc_wf sc -> i ∈ free_queue sc ++ live sc <-> 0 <= i < n_segments sc.
Proof. intros Hwf. rewrite (wf_pool _ Hwf). rewrite elem_of_seqZ. lia. Qed.

Lemma pool_disjoint sc i : sc_wf sc -> i ∈ free_queue sc -> i ∉ live sc.
Proof.
  intros Hwf Hf Hl. pose proof (NoDup_seqZ 0 (n_segments sc)) as Hnd.
  rewrite <- (wf_pool _ Hwf) in Hnd. apply NoDup_app in Hnd as (_ & Hd & _). by apply (Hd i).
Qed.

Lemma get_ttl_live sc shard b i : sc_wf sc -> 0 <= shard < NEX_RCU_SHARDS -> 0 <= b < SEG_TTL_BUCKETS ->
  i ∈ get_ttl sc shard b -> i ∈ live sc.
Proof.
  intros Hwf Hs Hb Hi. destruct (live_split sc shard b Hwf Hs Hb) as (p & q & -> & _).
  rewrite !elem_of_app. auto.
Qed.

Lemma get_ttl_range sc shard b i : sc_wf sc -> 0 <= shard < NEX_RCU_SHARDS -> 0 <= b < SEG_TTL_BUCKETS ->
  i ∈ get_ttl sc shard b -> 0 <= i < n_segments sc.
Proof. intros Hwf Hs Hb Hi. apply pool_range; [done|]. rewrite elem_of_app. eauto using get_ttl_live. Qed.

(** ** Preservation of the invariant by the primitive updates *)
Lemma wf_put_seg sc i seg : sc_wf sc -> 0 <= i < n_segments sc -> seg_ok seg ->
  ttl_bucket seg = ttl_bucket (aget (segments sc) i) -> sc_wf (put_seg sc i seg).
Proof.
  intros Hwf Hi Hok Ht. destruct Hwf. unfold put_seg, n_segments in *.
  constructor; unfold n_segments in *; cbn [segments free_queue n_free ttl_shards buckets_per_shard hash_table shard_stats set_segments];
    rewrite ?alen_aset; try done.
  - by apply Forall_aset.
  - intros shard b j Hs Hb Hj. destruct (Z.eq_dec i j) as [<-|Hne].
    + rewrite aget_aset_eq by done. rewrite Ht. eauto.
    + destruct (Z.le_gt_cases 0 j).
      * rewrite aget_aset_ne by lia. eauto.
      * exfalso. assert (sc_wf sc) as Hw by (by constructor).
        pose proof (get_ttl_range sc shard b j Hw Hs Hb Hj). lia.
Qed.

Lemma wf_put_bucket sc i b : sc_wf sc -> bucket_ok (n_segments sc) b -> sc_wf (put_bucket sc i b).
Proof.
  intros [] Hb. unfold put_bucket. constructor; cbn; rewrite ?alen_aset; try done. by apply Forall_aset.
Qed.

Lemma wf_upd_stats sc shard f : sc_wf sc -> sc_wf (upd_stats sc shard f).
Proof. intros []. unfold upd_stats. constructor; cbn; rewrite ?alen_aset; done. Qed.

Lemma wf_set_used_memory sc x : sc_wf sc -> sc_wf (set_used_memory sc x).
Proof. intros []. by constructor. Qed.

#[export] Hint Resolve wf_put_bucket wf_upd_stats wf_set_used_memory : segcache.

Lemma clear_slot_ok n b s : 0 <= s -> bucket_ok n b -> bucket_ok n (clear_slot b s).
Proof.
  intros Hs []. constructor; [done| |done]. simpl. apply wrap_range. lia.
Qed.

(** ** Choice of the segment *)

(** When the segment that receives the item was taken from the pool. *)
Definition home_time (sc : NexSegcache) (now shard ttl_b item_size : Z) : Z :=
  let l := get_ttl sc shard ttl_b in
  if fits sc item_size l then create_time (aget (segments sc) (hd 0 l)) else now.

Lemma calloc_seg_ok seg ttl_b now : seg_ok seg ->
  seg_ok (mkSegment (calloc (data_size seg) 0) (data_size seg) 0 0 ttl_b now).
Proof.
  intros []. constructor; cbn; [apply alen_calloc; mach|done|mach].
Qed.

Lemma alloc_wf sc now shard ttl_b sc' idx : sc_wf sc ->
  0 <= shard < NEX_RCU_SHARDS -> 0 <= ttl_b < SEG_TTL_BUCKETS ->
  seg_alloc sc now ttl_b = Some (sc', idx) ->
  sc_wf (put_ttl sc' shard ttl_b (idx :: get_ttl sc' shard ttl_b)) /\
  0 <= idx < n_segments sc /\ n_segments sc' = n_segments sc /\
  ttl_bucket (aget (segments sc') idx) = ttl_b /\ create_time (aget (segments sc') idx) = now.
Proof.
  intros Hwf Hs Hb Ha. unfold seg_alloc in Ha.
  destruct (free_queue sc) as [|i q] eqn:Hq; [done|]. injection Ha as <- <-.
  assert (0 <= i < n_segments sc) as Hi.
  { apply pool_range; [done|]. rewrite Hq. apply list_elem_of_here. }
  assert (i ∉ live sc) as Hnl by (apply pool_disjoint; [done|rewrite Hq; apply list_elem_of_here]).
  pose proof (Forall_aget _ _ _ (wf_segs _ Hwf) Hi) as Hseg.
  destruct (live_split sc shard ttl_b Hwf Hs Hb) as (p & r & Hlive & Hput).
  pose proof (get_put_ttl sc shard ttl_b) as Hget.
  pose proof (wf_pool _ Hwf) as Hpool. rewrite Hq, Hlive in Hpool.
  pose proof (wf_free _ Hwf) as Hfree. rewrite Hq in Hfree. pose proof (wf_n _ Hwf) as Hn.
  assert (alen q < n_segments sc) as Hql.
  { apply Permutation_length in Hpool. rewrite length_seqZ in Hpool.
    simpl in Hpool. rewrite length_app in Hpool. unfold alen. lia. }
  cbn [put_seg set_segments segments] in *. split_and!; try (apply Hi).
  - set (seg := mkSegment _ _ _ _ _ _). constructor; sc_cbn.
    + by rewrite alen_aset.
    + apply Forall_aset; [apply Hwf|by apply calloc_seg_ok].
    + change (live _) with (live (put_ttl sc shard ttl_b (i :: get_ttl sc shard ttl_b))).
      rewrite Hput, alen_aset, <- Hpool.
      solve_Permutation.
    + rewrite Hfree. unfold alen in *. simpl length in *. unfold SEG_MAX_SEGMENTS in Hn.
      rewrite wrap_small by (mach_unfold; lia). lia.
    + rewrite alen_aset. apply Hwf.
    + apply Forall_aset; [apply Hwf|]. rewrite alen_aset. by apply wf_row.
    + intros shard' b' j Hs' Hb' Hj.
      change (j ∈ get_ttl (put_ttl sc shard ttl_b (i :: get_ttl sc shard ttl_b)) shard' b') in Hj.
      rewrite Hget in Hj by done.
      destruct (Z.eq_dec i j) as [<-|Hne].
      * rewrite aget_aset_eq by apply Hi. case_if_in Hj; [done|].
        exfalso. by apply Hnl, (get_ttl_live sc shard' b').
      * assert (j ∈ get_ttl sc shard' b') as Hj'.
        { case_if_in Hj; [|done]. apply elem_of_cons in Hj as [?|?]; [congruence|by subst]. }
        pose proof (get_ttl_range _ _ _ _ Hwf Hs' Hb' Hj'). rewrite aget_aset_ne by lia. by apply (wf_bucket _ Hwf shard').
    + apply Hwf.
    + apply Hwf.
    + rewrite alen_aset. apply Hwf.
    + apply Hwf.
  - unfold n_segments. cbn. by rewrite alen_aset.
  - by rewrite aget_aset_eq by apply Hi.
  - by rewrite aget_aset_eq by apply Hi.
Qed.

Lemma pick_segment_spec sc now shard ttl_b item_size sc' idx : sc_wf sc ->
  0 <= shard < NEX_RCU_SHARDS -> 0 <= ttl_b < SEG_TTL_BUCKETS ->
  pick_segment sc now shard ttl_b item_size = Some (sc', idx) ->
  sc_wf sc' /\ 0 <= idx < n_segments sc' /\ n_segments sc' = n_segments sc /\
  ttl_bucket (aget (segments sc') idx) = ttl_b /\
  create_time (aget (segments sc') idx) = home_time sc now shard ttl_b item_size.
Proof.
  intros Hwf Hs Hb Hp. unfold pick_segment, home_time in *. case_if.
  - injection Hp as <- <-. destruct (get_ttl sc shard ttl_b) as [|i l] eqn:Hl; [done|].
    assert (i ∈ get_ttl sc shard ttl_b) as Hi by (rewrite Hl; apply list_elem_of_here).
    split_and!; simpl; try done.
    1,2: by apply (get_ttl_range sc shard ttl_b i).
    by apply (wf_bucket _ Hwf shard).
  - apply bind_Some in Hp as ([sc1 i] & Ha & Hp). injection Hp as <- <-.
    destruct (alloc_wf _ _ _ _ _ _ Hwf Hs Hb Ha) as (? & ? & ? & ? & ?).
    split_and!; try done; sc_cbn; lia.
Qed.

(** ** The index operations *)
Lemma slot_bit (o s : Z) : in_u 8 o -> 0 <= s < SEG_ITEMS_PER_BUCKET ->
  (forall j, 0 <= j -> bit_get (u8 (bit_set o s)) j = bit_get o j || (s =? j)) /\
  (forall j, 0 <= j -> bit_get (u8 (bit_clear o s)) j = bit_get o j && negb (s =? j)).
Proof.
  unfold SEG_ITEMS_PER_BUCKET. intros Ho Hs.
  assert (u8 (bit_set o s) = bit_set o s) as -> by (apply wrap_small, bit_set_range; done || lia).
  assert (u8 (bit_clear o s) = bit_clear o s) as -> by (apply wrap_small, bit_clear_range; done || lia).
  split; intros j Hj; rewrite !bit_get_spec by lia; [apply bit_set_spec|apply bit_clear_spec]; lia.
Qed.

Lemma ht_insert_wf sc h fp idx off key sc' ok : sc_wf sc -> 0 <= idx < n_segments sc ->
  ht_insert sc h fp idx off key = Some (sc', ok) -> sc_wf sc' /\ segments sc' = segments sc.
Proof.
  intros Hwf Hi H. pose proof (wf_n _ Hwf) as Hn. unfold SEG_MAX_SEGMENTS in Hn.
  pose proof (wf_bucket_at sc h Hwf) as [He Ho Hx]. unfold ht_insert in H.
  apply bind_Some in H as (r & Hr & H).
  assert (u16 idx = idx) as Hu by (apply wrap_small; mach). rewrite Hu in H.
  destruct r as [s|s].
  - injection H as <- <-. split; [|done]. apply wf_put_bucket; [done|].
    constructor; cbn; [by rewrite alen_aset|done|by apply Forall_aset].
  - case_if_in H; injection H as <- <-; [|done]. split; [|done]. apply wf_put_bucket; [done|].
    constructor; cbn; [by rewrite alen_aset|apply wrap_range; lia|by apply Forall_aset].
Qed.

(** An entry that points to the item just written matches its key. *)
Lemma item_matches segs idx seg m off fp key value ttl_b :
  segs !! Z.to_nat idx = Some seg -> mem_write m off (item_bytes fp key value ttl_b) = Some (data seg) ->
  in_u 16 fp -> in_u 16 (alen key) -> in_u 16 (alen value) -> in_u 16 ttl_b ->
  entry_matches segs (mkEntry fp idx off) fp key = Some true /\
  exists h, mem_read (data seg) off 8 = Some h /\ SEG_HDR_KEY_LEN (le_val h) = alen key /\
    SEG_HDR_VAL_LEN (le_val h) = alen value /\
    mem_read (data seg) (off + 8 + alen key) (alen value) = Some value.
Proof.
  intros Hseg Hw Hf Hk Hv Hb. destruct (pack_header_fields fp (alen key) (alen value) ttl_b) as (Hr & _ & Hkl & Hvl & _); try done.
  unfold item_bytes in Hw. set (hdr := pack_header _ _ _ _) in *.
  assert (alen (le_bytes 8 hdr) = 8) as H8 by (unfold alen; by rewrite length_le_bytes).
  pose proof (mem_read_written _ _ [] (le_bytes 8 hdr) (key ++ value) _ Hw) as R1.
  pose proof (mem_read_written _ _ (le_bytes 8 hdr) key value _ Hw) as R2.
  assert (mem_write m off ((le_bytes 8 hdr ++ key) ++ value ++ []) = Some (data seg)) as Hw'.
  { by rewrite app_nil_r, <- app_assoc. }
  pose proof (mem_read_written _ _ _ _ _ _ Hw') as R3.
  assert (alen (le_bytes 8 hdr ++ key) = 8 + alen key) as Hl by (unfold alen in *; rewrite length_app; lia).
  rewrite H8 in R1, R2. rewrite Hl, Z.add_assoc in R3. change (alen []) with 0 in R1. rewrite Z.add_0_r in R1.
  assert (le_val (le_bytes 8 hdr) = hdr) as Hrt by (apply le_round_trip; exact Hr).
  split.
  - unfold entry_matches. cbn [key_fp seg_idx item_offset]. rewrite Z.eqb_refl, Hseg. cbn [negb mbind option_bind].
    rewrite R1. cbn [mbind option_bind]. rewrite Hrt, Hkl, Z.eqb_refl, R2. cbn [mbind option_bind negb].
    by rewrite (proj2 (bytes_eqb_eq key key)).
  - exists (le_bytes 8 hdr). rewrite Hrt. clearbody hdr. split_and!; assumption.
Qed.

Lemma entry_matches_fp segs e fp key : entry_matches segs e fp key = Some true -> key_fp e = fp.
Proof. unfold entry_matches. destruct (Z.eqb_spec (key_fp e) fp); cbn [negb]; [done|congruence]. Qed.

Lemma slot_put_same bkt o s (e : SegHashEntry) j : alen (entries bkt) = SEG_ITEMS_PER_BUCKET ->
  0 <= s < SEG_ITEMS_PER_BUCKET -> j ∈ slot_range ->
  (j <> s -> aget (entries (mkBucket (aset (entries bkt) s e) o)) j = aget (entries bkt) j) /\
  aget (entries (mkBucket (aset (entries bkt) s e) o)) s = e.
Proof.
  intros Hl Hs Hj. apply slot_range_elem in Hj. cbn [entries]. split.
  - intros. by rewrite aget_aset_ne by lia.
  - by rewrite aget_aset_eq by lia.
Qed.

(** After a successful insertion, a scan for the key finds the new entry. *)
Lemma ht_insert_scan sc h fp idx off key sc' : sc_wf sc -> 0 <= idx < n_segments sc ->
  entry_matches (segments sc) (mkEntry fp idx off) fp key = Some true ->
  ht_insert sc h fp idx off key = Some (sc', true) ->
  exists s, ht_scan (segments sc') (aget (hash_table sc') (bucket_index sc' h)) fp key slot_range (- 1) = Some (Found s)
    /\ 0 <= s < SEG_ITEMS_PER_BUCKET
    /\ aget (entries (aget (hash_table sc') (bucket_index sc' h))) s = mkEntry fp idx off.
Proof.
  intros Hwf Hi Hm H. pose proof (wf_n _ Hwf) as Hn. unfold SEG_MAX_SEGMENTS in Hn.
  pose proof (wf_bucket_at sc h Hwf) as [He Ho _]. unfold ht_insert in H.
  apply bind_Some in H as (r & Hr & H).
  assert (u16 idx = idx) as Hu by (apply wrap_small; mach). rewrite Hu in H.
  assert (exists s o, 0 <= s < SEG_ITEMS_PER_BUCKET /\ (r = Found s \/ r = NotFound s /\ - 1 <> s) /\
    sc' = put_bucket sc (bucket_index sc h) (mkBucket (aset (entries (aget (hash_table sc) (bucket_index sc h))) s (mkEntry fp idx off)) o)
    /\ bit_get o s = true /\ forall j, j ∈ slot_range -> j <> s ->
      bit_get o j = bit_get (occupancy (aget (hash_table sc) (bucket_index sc h))) j) as (s & o & Hs & Hrs & -> & Hbit & Hother).
  { destruct r as [s|s].
    - injection H as <-. pose proof (ht_scan_found _ _ _ _ _ _ _ Hr) as (Hs & Hb & Hf).
      apply slot_range_elem in Hs. apply entry_matches_fp in Hf. rewrite Hf.
      eexists s, _. split_and!; [lia..|by left|done|done|done].
    - case_if_in H; [|done]. injection H as <-.
      apply ht_scan_free in Hr as [?|[Hs Hb]]; [lia|]. apply slot_range_elem in Hs.
      destruct (slot_bit _ s Ho Hs) as [Hset _].
      eexists s, _. split_and!; [lia..|right; split; [done|lia]|done| |].
      + rewrite Hset by lia. by rewrite Z.eqb_refl, orb_true_r.
      + intros j Hj Hne. apply slot_range_elem in Hj. rewrite Hset by lia.
        rewrite (proj2 (Z.eqb_neq s j)) by lia. by rewrite orb_false_r. }
  exists s. change (bucket_index (put_bucket sc _ _) h) with (bucket_index sc h).
  rewrite put_bucket_at by done. change (segments (put_bucket sc _ _)) with (segments sc).
  pose proof (fun j => slot_put_same _ o s (mkEntry fp idx off) j He Hs) as Hput.
  destruct (Hput s (proj2 (slot_range_elem s) Hs)) as [_ Heq]. split_and!; [|lia..|done].
  eapply ht_scan_inserted; [exact Hr|exact Hrs| |done|by rewrite Heq].
  intros j Hj Hne. split; [by apply Hother|]. by apply Hput.
Qed.

(** ** segcache_set, step by step *)
Definition item_len (key value : bytes) : Z := 8 + alen key + alen value.

Lemma item_len_u32 key value : in_u 16 (alen key) -> in_u 16 (alen value) ->
  u32 (8 + alen key + alen value) = item_len key value /\ 0 <= item_len key value.
Proof. intros. unfold item_len. rewrite wrap_small by mach. split; [done|mach]. Qed.

Lemma alen_item_bytes fp key value b : alen (item_bytes fp key value b) = item_len key value.
Proof. unfold item_bytes, item_len, alen. rewrite !length_app, length_le_bytes. lia. Qed.

(** The segment after the item has been appended. *)
Definition append_item (seg : NexSegment) (d : bytes) (item_size : Z) : NexSegment :=
  set_n_items (set_write_offset (set_data seg d) (write_offset seg +32 item_size)) (n_items seg +32 1).

Lemma append_ok seg fp key value b d : seg_ok seg -> in_u 16 (alen key) -> in_u 16 (alen value) ->
  mem_write (data seg) (write_offset seg) (item_bytes fp key value b) = Some d ->
  seg_ok (append_item seg d (item_len key value)) /\
  write_offset (append_item seg d (item_len key value)) = write_offset seg + item_len key value.
Proof.
  intros [Hl Hs Ho] Hk Hv Hw. pose proof (mem_write_len _ _ _ _ Hw) as Hd.
  unfold mem_write in Hw. case_if_in Hw; [|done]. rewrite alen_item_bytes in *.
  destruct (item_len_u32 key value Hk Hv) as [_ ?].
  unfold append_item. cbn. rewrite wrap_small by mach. split; [|done].
  constructor; cbn; [lia|done|]. lia.
Qed.

(** A successful or refused SET has gone through these states. *)
Lemma segcache_set_inv sc now key value ttl sc' rc : sc_wf sc -> in_u 32 ttl ->
  in_u 16 (alen key) -> in_u 16 (alen value) ->
  segcache_set sc now key value ttl = Some (sc', rc) -> (sc' = sc /\ rc = - 1) \/
  exists sc1 idx d sc2 ok,
    pick_segment sc now (seg_hash key mod NEX_RCU_SHARDS) (ttl_to_bucket ttl) (item_len key value) = Some (sc1, idx) /\
    mem_write (data (aget (segments sc1) idx)) (write_offset (aget (segments sc1) idx))
      (item_bytes (u16 (Z.shiftr (seg_hash key) 48)) key value (ttl_to_bucket ttl)) = Some d /\
    ht_insert (put_seg sc1 idx (append_item (aget (segments sc1) idx) d (item_len key value))) (seg_hash key)
      (u16 (Z.shiftr (seg_hash key) 48)) idx (write_offset (aget (segments sc1) idx)) key = Some (sc2, ok) /\
    rc = (if (ok : bool) then 0 else - 1) /\
    sc' = if ok then upd_stats (set_used_memory sc2 (used_memory sc2 +64 item_len key value))
                (seg_hash key mod NEX_RCU_SHARDS) (fun st => add_bytes_stored (add_sets st 1) (item_len key value))
          else put_seg sc2 idx (set_n_items (set_write_offset (aget (segments sc2) idx)
                (write_offset (aget (segments sc2) idx) -32 item_len key value)) (n_items (aget (segments sc2) idx) -32 1)).
Proof.
  intros Hwf Ht Hk Hv H. unfold segcache_set in H.
  destruct (item_len_u32 key value Hk Hv) as [Hu _]. rewrite Hu in H.
  destruct (pick_segment _ _ _ _ _) as [[sc1 idx]|] eqn:Hp; [|left; by injection H as <- <-].
  right. apply bind_Some in H as (d & Hd & H). apply bind_Some in H as ([sc2 ok] & Hi & H).
  exists sc1, idx, d, sc2, ok. unfold append_item. split_and!; try done;
    destruct ok; injection H as <- <-; done.
Qed.

Lemma refused_ok seg d key value : seg_ok seg -> seg_ok (append_item seg d (item_len key value)) ->
  write_offset (append_item seg d (item_len key value)) = write_offset seg + item_len key value ->
  let seg' := append_item seg d (item_len key value) in
  seg_ok (set_n_items (set_write_offset seg' (write_offset seg' -32 item_len key value)) (n_items seg' -32 1)).
Proof.
  intros [_ _ Ho] [Hl' Hs' Ho'] Hw seg'. subst seg'. rewrite Hw in *.
  replace (write_offset seg + item_len key value - item_len key value) with (write_offset seg) by lia.
  assert (0 <= item_len key value) by (unfold item_len, alen; lia).
  constructor; cbn in *; [done|done|]. rewrite wrap_small by mach. lia.
Qed.

Lemma segcache_set_wf sc now key value ttl sc' rc : sc_wf sc -> in_u 32 ttl ->
  in_u 16 (alen key) -> in_u 16 (alen value) ->
  segcache_set sc now key value ttl = Some (sc', rc) -> sc_wf sc'.
Proof.
  intros Hwf Ht Hk Hv H.
  destruct (segcache_set_inv _ _ _ _ _ _ _ Hwf Ht Hk Hv H) as [[-> _]|(sc1 & idx & d & sc2 & ok & Hp & Hd & Hi & _ & ->)]; [done|].
  destruct (pick_segment_spec _ _ _ _ _ _ _ Hwf (shard_range _) (ttl_to_bucket_range _ Ht) Hp) as (Hwf1 & Hr & _).
  pose proof (Forall_aget _ _ _ (wf_segs _ Hwf1) Hr) as Hseg.
  destruct (append_ok _ _ _ _ _ _ Hseg Hk Hv Hd) as [Ha Hw].
  pose proof (wf_put_seg _ _ _ Hwf1 Hr Ha eq_refl) as Hwf2.
  apply ht_insert_wf in Hi as [Hwf3 Hsegs]; [|done|sc_cbn; by rewrite alen_aset].
  assert (0 <= idx < n_segments sc2) as Hr2 by (unfold n_segments; rewrite Hsegs; sc_cbn; by rewrite alen_aset).
  destruct ok; [auto with segcache|].
  apply wf_put_seg; [done|done| |done]. rewrite Hsegs. cbn [segments put_seg set_segments].
  rewrite aget_aset_eq by done. by apply refused_ok.
Qed.

(** ** Lookups *)
Lemma segcache_get_found sc now key buf_len s h v : let hash := seg_hash key in let fp := u16 (Z.shiftr hash 48) in
  let e := aget (entries (aget (hash_table sc) (bucket_index sc hash))) s in
  let seg := aget (segments sc) (seg_idx e) in
  ht_scan (segments sc) (aget (hash_table sc) (bucket_index sc hash)) fp key slot_range (- 1) = Some (Found s) ->
  mem_read (data seg) (item_offset e) 8 = Some h -> SEG_HDR_KEY_LEN (le_val h) = alen key ->
  SEG_HDR_VAL_LEN (le_val h) = alen v -> mem_read (data seg) (item_offset e + 8 + alen key) (alen v) = Some v ->
  exists sc', segcache_get sc now key buf_len = Some (sc',
    if seg_expired now (bucket_to_ttl_seconds (ttl_bucket seg)) seg then GetMiss
    else if buf_len <? alen v then GetTooSmall (alen v) else GetOk v).
Proof.
  intros hash fp e seg Hs Hh Hk Hv Hr. unfold segcache_get, ht_find. fold hash fp. rewrite Hs.
  cbn [mbind option_bind]. fold e seg. destruct (seg_expired _ _ seg); cbn [mbind option_bind].
  - eauto.
  - fold seg. rewrite Hh. cbn [mbind option_bind]. rewrite Hv. case_if; [eauto|].
    rewrite Hk, Hr. cbn [mbind option_bind]. eauto.
Qed.

(** ** Expiration of segments *)

(** The pure effect of [expire_list]: what goes back to the pool, what stays. *)
Definition gone_of (segs : list NexSegment) (now ttl_s : Z) (l : list Z) : list Z :=
  filter (fun i => seg_expired now ttl_s (aget segs i) = true) l.
Definition kept_of (segs : list NexSegment) (now ttl_s : Z) (l : list Z) : list Z :=
  filter (fun i => ~ seg_expired now ttl_s (aget segs i) = true) l.
Definition items_of (segs : list NexSegment) (l : list Z) : Z :=
  foldr Z.add 0 ((fun i => n_items (aget segs i)) <$> l).

(** Nothing but the queue, its counter, the TTL lists and the statistics changes. *)
Record same_store (sc sc' : NexSegcache) : Prop := {
  same_segments : segments sc' = segments sc;
  same_table : hash_table sc' = hash_table sc;
  same_bps : buckets_per_shard sc' = buckets_per_shard sc;
  same_memory : used_memory sc' = used_memory sc }.

#[export] Instance same_store_preorder : PreOrder same_store.
Proof. split; [by intros x|]. intros x y z [] []. split; congruence. Qed.

Lemma items_of_cons segs i l : items_of segs (i :: l) = n_items (aget segs i) + items_of segs l.
Proof. done. Qed.

Lemma items_of_app segs l l' : items_of segs (l ++ l') = items_of segs l + items_of segs l'.
Proof. induction l as [|i l IH]; [done|]. cbn [app]. rewrite !items_of_cons, IH. lia. Qed.

Lemma gone_cons segs now t i l : gone_of segs now t (i :: l) =
  if seg_expired now t (aget segs i) then i :: gone_of segs now t l else gone_of segs now t l.
Proof. unfold gone_of. rewrite filter_cons. case_decide as H; [by rewrite H|]. by destruct (seg_expired _ _ _). Qed.

Lemma kept_cons segs now t i l : kept_of segs now t (i :: l) =
  if seg_expired now t (aget segs i) then kept_of segs now t l else i :: kept_of segs now t l.
Proof. unfold kept_of. rewrite filter_cons. case_decide; by destruct (seg_expired _ _ _). Qed.

Lemma expire_list_spec now shard ttl_s l : forall sc total sc' kept total',
  expire_list sc now shard ttl_s l total = (sc', kept, total') ->
  in_u 32 total -> 0 <= n_free sc -> n_free sc + alen l < 2 ^ 32 ->
  let gone := gone_of (segments sc) now ttl_s l in
  kept = kept_of (segments sc) now ttl_s l /\
  free_queue sc' = free_queue sc ++ gone /\ n_free sc' = n_free sc + alen gone /\
  total' = u32 (total + items_of (segments sc) gone) /\
  ttl_shards sc' = ttl_shards sc /\ alen (shard_stats sc') = alen (shard_stats sc) /\ same_store sc sc'.
Proof.
  induction l as [|i l IH]; intros sc total sc' kept total' H Ht Hn Hl.
  - injection H as <- <- <-. cbv zeta.
    assert (gone_of (segments sc) now ttl_s [] = []) as -> by done. change (items_of _ []) with 0.
    rewrite app_nil_r, !Z.add_0_r. split_and!; try done. by rewrite wrap_small.
  - cbn [expire_list] in H. rewrite gone_cons, kept_cons. rewrite alen_cons in Hl. pose proof (alen_nonneg l).
    destruct (seg_expired now ttl_s (aget (segments sc) i)) eqn:Hx.
    + assert (n_free sc +32 1 = n_free sc + 1) as Hn1 by (apply wrap_small; mach).
      apply IH in H as (-> & Hq & Hf & -> & ? & Hst & Hss); [|apply wrap_range; lia|sc_cbn; lia|sc_cbn; lia].
      sc_cbn. rewrite alen_aset in Hst. rewrite items_of_cons, alen_cons.
      split_and!; try done.
      * by rewrite Hq, <- app_assoc.
      * lia.
      * rewrite wrap_add_l. by rewrite <- Z.add_assoc.
      * by destruct Hss.
    + destruct (expire_list sc now shard ttl_s l total) as [[sc1 k1] t1] eqn:He. injection H as <- <- <-.
      apply IH in He as (-> & ?); [done|done|done|lia].
Qed.

Lemma pool_size sc shard b : sc_wf sc -> 0 <= shard < NEX_RCU_SHARDS -> 0 <= b < SEG_TTL_BUCKETS ->
  n_free sc + alen (get_ttl sc shard b) <= n_segments sc.
Proof.
  intros Hwf Hs Hb. destruct (live_split sc shard b Hwf Hs Hb) as (p & q & Hl & _).
  pose proof (wf_pool _ Hwf) as Hp. apply Permutation_length in Hp.
  rewrite Hl, !length_app, length_seqZ in Hp. rewrite (wf_free _ Hwf).
  pose proof (wf_n _ Hwf). unfold alen. lia.
Qed.

Record expired_bucket (now shard b : Z) (sc sc' : NexSegcache) (total total' : Z) : Prop := {
  eb_wf : sc_wf sc';
  eb_same : same_store sc sc';
  eb_queue : free_queue sc' = free_queue sc ++ gone_of (segments sc) now (bucket_to_ttl_seconds b) (get_ttl sc shard b);
  eb_total : total' = u32 (total + items_of (segments sc) (gone_of (segments sc) now (bucket_to_ttl_seconds b) (get_ttl sc shard b)));
  eb_ttl : forall shard' b', 0 <= shard' < NEX_RCU_SHARDS -> 0 <= b' < SEG_TTL_BUCKETS ->
    get_ttl sc' shard' b' = if (shard =? shard') && (b =? b')
      then kept_of (segments sc) now (bucket_to_ttl_seconds b) (get_ttl sc shard b) else get_ttl sc shard' b' }.

Lemma expire_bucket_spec now shard b sc total sc' total' : sc_wf sc -> in_u 32 total ->
  0 <= shard < NEX_RCU_SHARDS -> 0 <= b < SEG_TTL_BUCKETS ->
  expire_bucket now shard b (sc, total) = (sc', total') -> expired_bucket now shard b sc sc' total total'.
Proof.
  intros Hwf Ht Hs Hb H. unfold expire_bucket in H.
  destruct (expire_list _ _ _ _ _ _) as [[sc1 kept] t1] eqn:He. injection H as <- <-.
  pose proof (pool_size sc shard b Hwf Hs Hb) as Hsize. pose proof (wf_n _ Hwf) as Hn. unfold SEG_MAX_SEGMENTS in Hn.
  pose proof (wf_free _ Hwf) as Hfree.
  apply expire_list_spec in He as (-> & Hq & Hf & -> & Htt & Hst & Hss);
    [|done|rewrite Hfree; apply alen_nonneg|mach].
  set (l := get_ttl sc shard b) in *. set (ttl_s := bucket_to_ttl_seconds b) in *.
  destruct (live_split sc shard b Hwf Hs Hb) as (p & q & Hl & Hput). fold l in Hl.
  assert (gone_of (segments sc) now ttl_s l ++ kept_of (segments sc) now ttl_s l ≡ₚ l) as Hperm
    by apply filter_app_complement.
  assert (forall shard' b' l', get_ttl (put_ttl sc1 shard b l') shard' b' = get_ttl (put_ttl sc shard b l') shard' b') as Hg.
  { intros. unfold get_ttl, put_ttl. cbn. by rewrite Htt. }
  pose proof (same_segments _ _ Hss) as Hsegs. pose proof (same_bps _ _ Hss) as Hbps.
  split; [|by split; cbn; apply Hss|done|done|].
  - constructor; sc_cbn; rewrite ?Hsegs, ?Hbps, ?(same_table _ _ Hss); try apply Hwf.
    + assert (live (put_ttl sc1 shard b (kept_of (segments sc) now ttl_s l)) =
        live (put_ttl sc shard b (kept_of (segments sc) now ttl_s l))) as -> by (unfold live; cbn; by rewrite Htt).
      rewrite Hput, Hq. pose proof (wf_pool _ Hwf) as Hp. sc_cbn. rewrite <- Hp, Hl.
      rewrite <- Hperm at 3. solve_Permutation.
    + rewrite Hf, Hq, Hfree, alen_app. done.
    + rewrite Htt, alen_aset. apply Hwf.
    + rewrite Htt. apply Forall_aset; [apply Hwf|]. rewrite alen_aset. by apply wf_row.
    + intros shard' b' i Hs' Hb'. rewrite Hg, get_put_ttl by done. case_if.
      * assert (shard = shard' /\ b = b') as [<- <-] by lia. unfold kept_of. intros Hi.
        apply list_elem_of_filter in Hi as [_ Hi]. by apply (wf_bucket _ Hwf shard).
      * by apply (wf_bucket _ Hwf shard').
    + rewrite Hst. apply Hwf.
  - intros shard' b' Hs' Hb'. by rewrite Hg, get_put_ttl by done.
Qed.

(** The TTL lists in the order the reaper visits them. *)
Definition all_lists : list (Z * Z) :=
  concat (map (fun shard => map (fun b => (shard, b)) (seqZ 0 SEG_TTL_BUCKETS)) (seqZ 0 NEX_RCU_SHARDS)).

Lemma fold_left_concat {A B C} (f : A -> B -> C -> C) (l : list A) (m : list B) c :
  fold_left (fun c x => fold_left (fun c y => f x y c) m c) l c =
  fold_left (fun c p => f p.1 p.2 c) (concat (map (fun x => map (fun y => (x, y)) m) l)) c.
Proof.
  revert c. induction l as [|x l IH]; intros c; [done|]. cbn [fold_left map concat].
  rewrite fold_left_app, IH. f_equal. clear. revert c. induction m as [|y m IH]; intros c; [done|].
  cbn [fold_left map]. by rewrite IH.
Qed.

Lemma elem_of_pairs {A B} (l : list A) (m : list B) x y :
  (x, y) ∈ concat (map (fun x => map (fun y => (x, y)) m) l) <-> x ∈ l /\ y ∈ m.
Proof.
  rewrite list_elem_of_In, in_concat. setoid_rewrite in_map_iff. split.
  - intros (r & (x' & <- & Hx) & Hr). apply in_map_iff in Hr as (y' & [= -> ->] & Hy).
    by rewrite !list_elem_of_In.
  - rewrite !list_elem_of_In. intros [Hx Hy]. eexists. split; [by exists x|]. apply in_map_iff. by exists y.
Qed.

Lemma NoDup_pairs {A B} (l : list A) (m : list B) : NoDup l -> NoDup m ->
  NoDup (concat (map (fun x => map (fun y => (x, y)) m) l)).
Proof.
  intros Hl Hm. induction Hl as [|x l Hx Hl IH]; [constructor|]. cbn [map concat]. apply NoDup_app. split_and!.
  - by apply (NoDup_fmap_2 (fun y => (x, y))).
  - intros [x' y] H1 H2. apply elem_of_pairs in H2 as [H2 _].
    apply list_elem_of_In, in_map_iff in H1 as (? & [= -> _] & _). done.
  - done.
Qed.

Lemma all_lists_elem shard b : (shard, b) ∈ all_lists <-> 0 <= shard < NEX_RCU_SHARDS /\ 0 <= b < SEG_TTL_BUCKETS.
Proof. unfold all_lists. rewrite elem_of_pairs, !elem_of_seqZ. lia. Qed.

Lemma all_lists_NoDup : NoDup all_lists.
Proof. apply NoDup_pairs; apply NoDup_seqZ. Qed.

Lemma expire_segments_fold sc now : segcache_expire_segments sc now =
  fold_left (fun st p => expire_bucket now p.1 p.2 st) all_lists (sc, 0).
Proof. unfold segcache_expire_segments, for_loop, all_lists. by rewrite fold_left_concat. Qed.

(** Everything that one pass over the lists [ps] gives back, in order. *)
Definition freed_by (sc : NexSegcache) (now : Z) (ps : list (Z * Z)) : list Z :=
  concat (map (fun p => gone_of (segments sc) now (bucket_to_ttl_seconds p.2) (get_ttl sc p.1 p.2)) ps).

Lemma freed_by_ext sc sc' now ps : segments sc' = segments sc ->
  (forall p, p ∈ ps -> get_ttl sc' p.1 p.2 = get_ttl sc p.1 p.2) -> freed_by sc' now ps = freed_by sc now ps.
Proof.
  intros Hs Hg. unfold freed_by. f_equal. apply map_ext_in. intros p Hp.
  rewrite Hs, Hg by (by apply list_elem_of_In). done.
Qed.

Record expired_lists (now : Z) (ps : list (Z * Z)) (sc sc' : NexSegcache) (total total' : Z) : Prop := {
  el_wf : sc_wf sc';
  el_same : same_store sc sc';
  el_queue : free_queue sc' = free_queue sc ++ freed_by sc now ps;
  el_total : total' = u32 (total + items_of (segments sc) (freed_by sc now ps));
  el_done : forall p, p ∈ ps ->
    get_ttl sc' p.1 p.2 = kept_of (segments sc) now (bucket_to_ttl_seconds p.2) (get_ttl sc p.1 p.2);
  el_rest : forall p, p ∈ all_lists -> p ∉ ps -> get_ttl sc' p.1 p.2 = get_ttl sc p.1 p.2 }.

Lemma expire_lists_spec now ps : forall sc total sc' total', sc_wf sc -> in_u 32 total ->
  NoDup ps -> ps ⊆ all_lists ->
  fold_left (fun st p => expire_bucket now p.1 p.2 st) ps (sc, total) = (sc', total') ->
  expired_lists now ps sc sc' total total'.
Proof.
  induction ps as [|[shard b] ps IH]; intros sc total sc' total' Hwf Ht Hnd Hin H.
  - injection H as <- <-. split; try done.
    + by rewrite app_nil_r.
    + change (items_of _ _) with 0. by rewrite Z.add_0_r, wrap_small.
    + intros p Hp. by apply not_elem_of_nil in Hp.
  - cbn [fold_left fst snd] in H. destruct (expire_bucket now shard b (sc, total)) as [sc1 t1] eqn:He.
    destruct (proj1 (all_lists_elem shard b) (Hin _ (list_elem_of_here _ _))) as [Hs Hb].
    apply NoDup_cons in Hnd as [Hni Hnd]. assert (ps ⊆ all_lists) as Hin' by (intros q Hq; apply Hin; by apply list_elem_of_further).
    destruct (expire_bucket_spec _ _ _ _ _ _ _ Hwf Ht Hs Hb He) as [Hwf1 Hss Hq ->  Hg].
    apply IH in H as [Hwf2 Hss2 Hq2 -> Hd Hr]; [|done|apply wrap_range; lia|done|done].
    assert (forall p, p ∈ all_lists -> p <> (shard, b) -> get_ttl sc1 p.1 p.2 = get_ttl sc p.1 p.2) as Hother.
    { intros [s' b'] Hp Hne. apply all_lists_elem in Hp as [? ?]. cbn [fst snd]. rewrite Hg by done.
      case_if; [|done]. exfalso. apply Hne. f_equal; lia. }
    assert (get_ttl sc1 shard b = kept_of (segments sc) now (bucket_to_ttl_seconds b) (get_ttl sc shard b)) as Hhere.
    { rewrite Hg by done. by rewrite !Z.eqb_refl. }
    assert (freed_by sc1 now ps = freed_by sc now ps) as Hfr.
    { apply freed_by_ext; [apply Hss|]. intros p Hp. apply Hother; [by apply Hin'|]. intros ->. done. }
    rewrite Hfr, (same_segments _ _ Hss) in *.
    assert (freed_by sc now ((shard, b) :: ps) =
      gone_of (segments sc) now (bucket_to_ttl_seconds b) (get_ttl sc shard b) ++ freed_by sc now ps) as Hcons by done.
    split; [done|by etrans| | | |].
    + by rewrite Hq2, Hq, Hcons, <- app_assoc.
    + rewrite Hcons, items_of_app, wrap_add_l. by rewrite Z.add_assoc.
    + intros p Hp. apply elem_of_cons in Hp as [->|Hp].
      * cbn [fst snd]. rewrite <- Hhere. apply (Hr (shard, b)); [by apply all_lists_elem|done].
      * rewrite Hd by done. rewrite Hother; [done|by apply Hin'|]. intros ->. done.
    + intros p Hp Hnp. rewrite not_elem_of_cons in Hnp. destruct Hnp as [? ?]. rewrite Hr by done. by apply Hother.
Qed.

(** ** Reachable states *)
Definition fresh (n segment_size bps : Z) : NexSegcache :=
  mkSegcache (calloc n (mkSegment (calloc segment_size 0) segment_size 0 0 0 0)) n (seqZ 0 n)
    (calloc NEX_RCU_SHARDS (calloc SEG_TTL_BUCKETS [])) (calloc (bps * NEX_RCU_SHARDS) zero_bucket)
    bps 0 (calloc NEX_RCU_SHARDS zero_stats).

Lemma concat_replicate_nil {A} n : concat (replicate n ([] : list A)) = [].
Proof. induction n; done. Qed.

Lemma fresh_get_ttl n size bps shard b : 0 <= shard < NEX_RCU_SHARDS -> 0 <= b < SEG_TTL_BUCKETS ->
  get_ttl (fresh n size bps) shard b = [].
Proof. intros. unfold get_ttl. cbn [fresh ttl_shards]. by rewrite !aget_calloc by done. Qed.

Lemma fresh_live n size bps : live (fresh n size bps) = [].
Proof.
  unfold live, fresh, calloc. cbn [ttl_shards].
  assert (forall k r, concat r = @nil Z -> concat (concat (replicate k r)) = []) as H.
  { intros k r Hr. induction k as [|k IH]; [done|]. cbn [replicate concat]. by rewrite concat_app, Hr, IH. }
  apply H, concat_replicate_nil.
Qed.

Lemma fresh_wf n size bps : 0 < n <= SEG_MAX_SEGMENTS -> in_u 32 size -> 0 < bps <= SEG_BUCKETS_PER_SHARD ->
  sc_wf (fresh n size bps).
Proof.
  intros Hn Hs Hb. assert (n_segments (fresh n size bps) = n) as Hns by (apply alen_calloc; lia).
  constructor; rewrite ?Hns; cbn [fresh segments free_queue n_free ttl_shards buckets_per_shard hash_table shard_stats].
  - done.
  - apply Forall_calloc. constructor; cbn; [apply alen_calloc; mach|done|mach].
  - by rewrite fresh_live, app_nil_r.
  - unfold alen. rewrite length_seqZ. lia.
  - by apply alen_calloc.
  - apply Forall_calloc. by apply alen_calloc.
  - intros shard b i Hsh Hbu. rewrite fresh_get_ttl by done. intros Hi. by apply not_elem_of_nil in Hi.
  - done.
  - rewrite alen_calloc by (unfold NEX_RCU_SHARDS; lia). lia.
  - apply Forall_calloc. constructor; cbn; [by apply alen_calloc|done|]. apply Forall_calloc. split; cbn; lia.
  - by apply alen_calloc.
Qed.

Lemma segcache_create_wf max_memory segment_size : in_u 64 max_memory -> in_u 32 segment_size ->
  sc_wf (segcache_create max_memory segment_size).
Proof.
  intros Hm Hs. apply fresh_wf; [|destruct (segment_size =? 0); [done|done]|done].
  unfold clamp_segments, NEX_RCU_SHARDS, SEG_MAX_SEGMENTS.
  set (x := u32 _). clearbody x. repeat case_if; lia.
Qed.

Inductive sc_op :=
  | OpSet (now : Z) (key value : bytes) (ttl : Z)
  | OpGet (now : Z) (key : bytes) (buf_len : Z)
  | OpDel (key : bytes)
  | OpExists (now : Z) (key : bytes)
  | OpExpire (now : Z).

(** The arguments have the types of the C signatures. *)
Definition op_ok (o : sc_op) : Prop :=
  match o with
  | OpSet _ key value ttl => in_u 16 (alen key) /\ in_u 16 (alen value) /\ in_u 32 ttl
  | _ => True
  end.

Definition sc_step (o : sc_op) (sc : NexSegcache) : option NexSegcache :=
  match o with
  | OpSet now key value ttl => fst <$> segcache_set sc now key value ttl
  | OpGet now key buf_len => fst <$> segcache_get sc now key buf_len
  | OpDel key => fst <$> segcache_del sc key
  | OpExists now key => fst <$> segcache_exists sc now key
  | OpExpire now => Some (segcache_expire_segments sc now).1
  end.

Fixpoint sc_run (ops : list sc_op) (sc : NexSegcache) : option NexSegcache :=
  match ops with
  | [] => Some sc
  | o :: ops => sc ← sc_step o sc; sc_run ops sc
  end.

Lemma clear_found_wf sc h fp key s : sc_wf sc ->
  ht_scan (segments sc) (aget (hash_table sc) (bucket_index sc h)) fp key slot_range (- 1) = Some (Found s) ->
  sc_wf (put_bucket sc (bucket_index sc h) (clear_slot (aget (hash_table sc) (bucket_index sc h)) s)).
Proof.
  intros Hwf Hs. apply ht_scan_found in Hs as (Hs & _). apply slot_range_elem in Hs.
  apply wf_put_bucket; [done|]. apply clear_slot_ok; [lia|by apply wf_bucket_at].
Qed.
#[export] Hint Resolve clear_found_wf : segcache.

Lemma segcache_get_wf sc now key n sc' r : sc_wf sc -> segcache_get sc now key n = Some (sc', r) -> sc_wf sc'.
Proof.
  intros Hwf H. unfold segcache_get, ht_find in H.
  apply bind_Some in H as ([sc1 e] & Hf & H). apply bind_Some in Hf as (r0 & Hs & Hf).
  assert (sc_wf sc1) as Hwf1.
  { destruct r0; [case_if_in Hf|]; injection Hf as <- <-; eauto with segcache. }
  destruct e as [e|]; [|injection H as <- <-; auto with segcache].
  apply bind_Some in H as (h & _ & H). case_if_in H; [by injection H as <- <-|].
  apply bind_Some in H as (v & _ & H). injection H as <- <-. auto with segcache.
Qed.

Lemma segcache_del_wf sc key sc' r : sc_wf sc -> segcache_del sc key = Some (sc', r) -> sc_wf sc'.
Proof.
  intros Hwf H. unfold segcache_del in H. apply bind_Some in H as (r0 & Hs & H).
  destruct r0; injection H as <- <-; eauto with segcache.
Qed.

Lemma segcache_exists_wf sc now key sc' r : sc_wf sc -> segcache_exists sc now key = Some (sc', r) -> sc_wf sc'.
Proof.
  intros Hwf H. unfold segcache_exists in H. apply bind_Some in H as (r0 & Hs & H).
  destruct r0; [case_if_in H|]; injection H as <- <-; eauto with segcache.
Qed.

Lemma expire_segments_spec sc now : sc_wf sc ->
  let '(sc', total) := segcache_expire_segments sc now in expired_lists now all_lists sc sc' 0 total.
Proof.
  intros Hwf. rewrite expire_segments_fold. destruct (fold_left _ _ _) as [sc' total] eqn:H.
  apply (expire_lists_spec now all_lists sc 0 sc' total Hwf); [by split|apply all_lists_NoDup|done|exact H].
Qed.

Lemma sc_step_wf o sc sc' : op_ok o -> sc_wf sc -> sc_step o sc = Some sc' -> sc_wf sc'.
Proof.
  intros Ho Hwf H. destruct o; cbn [sc_step op_ok] in *.
  1-4: apply fmap_Some in H as ([sc1 r] & H & ->); cbn [fst].
  - destruct Ho as (Hk & Hv & Ht). exact (segcache_set_wf _ _ _ _ _ _ _ Hwf Ht Hk Hv H).
  - by eapply segcache_get_wf.
  - by eapply segcache_del_wf.
  - by eapply segcache_exists_wf.
  - apply (inj Some) in H. rewrite <- H. clear H. pose proof (expire_segments_spec sc now Hwf) as He.
    destruct (segcache_expire_segments sc now). apply He.
Qed.

Lemma sc_run_wf ops : forall sc sc', Forall op_ok ops -> sc_wf sc -> sc_run ops sc = Some sc' -> sc_wf sc'.
Proof.
  induction ops as [|o ops IH]; intros sc sc' Ho Hwf H; [by injection H as <-|].
  apply Forall_cons in Ho as [Ho Hos]. apply bind_Some in H as (sc1 & H1 & H).
  eapply IH; [done| |done]. by eapply sc_step_wf.
Qed.

(** ** Claims *)

Lemma set_get_spec sc now key value ttl sc' now' buf_len :
  sc_wf sc -> in_u 32 ttl -> in_u 16 (alen key) -> in_u 16 (alen value) ->
  segcache_set sc now key value ttl = Some (sc', 0) ->
  let b := ttl_to_bucket ttl in
  let ttl_s := bucket_to_ttl_seconds b in
  let t0 := home_time sc now (seg_hash key mod NEX_RCU_SHARDS) b (item_len key value) in
  exists sc'', segcache_get sc' now' key buf_len = Some (sc'',
    if (0 <? ttl_s) && (t0 +32 ttl_s <=? now') then GetMiss
    else if buf_len <? alen value then GetTooSmall (alen value) else GetOk value).
Proof.
  intros Hwf Ht Hk Hv H b ttl_s t0.
  destruct (segcache_set_inv _ _ _ _ _ _ _ Hwf Ht Hk Hv H) as [[_ ?]|(sc1 & idx & d & sc2 & ok & Hp & Hd & Hi & Hrc & ->)]; [done|].
  destruct ok; [|done]. pose proof (ttl_to_bucket_range _ Ht) as Hb.
  destruct (pick_segment_spec _ _ _ _ _ _ _ Hwf (shard_range _) Hb Hp) as (Hwf1 & Hr & _ & Htb & Hct).
  pose proof (Forall_aget _ _ _ (wf_segs _ Hwf1) Hr) as Hseg.
  destruct (append_ok _ _ _ _ _ _ Hseg Hk Hv Hd) as [Ha Hw].
  pose proof (wf_put_seg _ _ _ Hwf1 Hr Ha eq_refl) as Hwf2.
  set (seg := append_item _ _ _) in *. set (sc1' := put_seg sc1 idx seg) in *.
  assert (segments sc1' !! Z.to_nat idx = Some seg) as Hlk.
  { unfold sc1', put_seg. cbn [segments set_segments]. rewrite aset_lookup by done. by case_decide. }
  assert (0 <= idx < n_segments sc1') as Hr' by (unfold sc1'; sc_cbn; by rewrite alen_aset).
  assert (aget (segments sc1') idx = seg) as Hget.
  { rewrite aget_lookup in Hlk by done. congruence. }
  destruct (item_matches (segments sc1') idx seg _ _ _ key value (ttl_to_bucket ttl) Hlk Hd) as (Hm & h & Hh & Hkl & Hvl & Hval);
    [apply wrap_range; lia|done|done|unfold SEG_TTL_BUCKETS in Hb; mach|].
  pose proof (ht_insert_wf _ _ _ _ _ _ _ _ Hwf2 Hr' Hi) as [_ Hsegs].
  destruct (ht_insert_scan _ _ _ _ _ _ _ Hwf2 Hr' Hm Hi) as (s & Hs & _ & He).
  rewrite Hsegs in Hs.
  set (sc3 := upd_stats _ _ _).
  assert (segments sc3 = segments sc1') as Hsegs3 by exact Hsegs.
  pose proof (segcache_get_found sc3 now' key buf_len s h value) as Hg. cbv zeta in Hg.
  rewrite Hsegs3 in Hg. change (hash_table sc3) with (hash_table sc2) in Hg.
  change (bucket_index sc3 (seg_hash key)) with (bucket_index sc2 (seg_hash key)) in Hg.
  rewrite He in Hg. cbn [seg_idx item_offset] in Hg. rewrite Hget in Hg.
  specialize (Hg Hs Hh Hkl Hvl Hval).
  assert (ttl_bucket seg = b) as Htb' by exact Htb. rewrite Htb' in Hg.
  assert (create_time seg = t0) as Hct' by exact Hct. unfold seg_expired in Hg. rewrite Hct' in Hg. exact Hg.
Qed.

(** C29. After a SET that returned 0, in any well-formed state, a GET of the
    key returns the value (or its length when the buffer is too small) as
    long as the segment that received the item has not expired.  The clock of
    the item is the segment's: the TTL of the item's bucket counted from the
    moment the segment left the pool, not from the SET. *)
Theorem segcache_set_get sc now key value ttl sc' now' buf_len :
  sc_wf sc -> in_u 32 ttl -> in_u 16 (alen key) -> in_u 16 (alen value) ->
  segcache_set sc now key value ttl = Some (sc', 0) ->
  let b := ttl_to_bucket ttl in
  let ttl_s := bucket_to_ttl_seconds b in
  let t0 := home_time sc now (seg_hash key mod NEX_RCU_SHARDS) b (item_len key value) in
  exists sc'', segcache_get sc' now' key buf_len = Some (sc'',
    if (0 <? ttl_s) && (t0 +32 ttl_s <=? now') then GetMiss
    else if buf_len <? alen value then GetTooSmall (alen value) else GetOk value).
Proof. apply set_get_spec. Qed.

(** Expiry of segments, on every well-formed state: each TTL list keeps,
    in order, exactly its unexpired segments; the expired ones are appended
    to the free queue in visiting order and no other state of the store
    changes; the result is the number of their items (modulo 2^32); the
    invariant is preserved. *)
Theorem segcache_expire_exact sc now sc' total : sc_wf sc ->
  segcache_expire_segments sc now = (sc', total) ->
  (forall shard b, 0 <= shard < NEX_RCU_SHARDS -> 0 <= b < SEG_TTL_BUCKETS ->
    get_ttl sc' shard b = kept_of (segments sc) now (bucket_to_ttl_seconds b) (get_ttl sc shard b)) /\
  free_queue sc' = free_queue sc ++ freed_by sc now all_lists /\
  total = u32 (items_of (segments sc) (freed_by sc now all_lists)) /\
  same_store sc sc' /\ sc_wf sc'.
Proof.
  intros Hwf H. pose proof (expire_segments_spec sc now Hwf) as He. rewrite H in He.
  destruct He as [Hwf' Hss Hq Ht Hd _]. split_and!; [|assumption..].
  intros shard b Hs Hb. apply (Hd (shard, b)). apply all_lists_elem. split; assumption.
Qed.

(** Conservation of the segment pool: after any sequence of operations
    on a fresh cache that makes no access outside a segment, the free queue
    and the TTL lists together hold every segment exactly once, the counter
    [n_free] is the length of the queue, and the statistics report as active
    exactly the segments on the lists. *)
Theorem segcache_pool_conserved max_memory segment_size ops sc' :
  in_u 64 max_memory -> in_u 32 segment_size -> Forall op_ok ops ->
  sc_run ops (segcache_create max_memory segment_size) = Some sc' ->
  free_queue sc' ++ live sc' ≡ₚ seqZ 0 (n_segments sc') /\ n_free sc' = alen (free_queue sc') /\
  (segcache_get_stats sc').2 = alen (live sc').
Proof.
  intros Hm Hs Ho H. pose proof (sc_run_wf _ _ _ Ho (segcache_create_wf _ _ Hm Hs) H) as Hwf.
  pose proof (wf_pool _ Hwf) as Hp. pose proof (wf_free _ Hwf) as Hf. pose proof (wf_n _ Hwf) as Hn.
  split_and!; [done|done|]. unfold segcache_get_stats. cbn [snd]. rewrite Hf.
  apply Permutation_length in Hp. rewrite length_app, length_seqZ in Hp.
  unfold SEG_MAX_SEGMENTS in Hn. rewrite wrap_small by (unfold alen in *; mach). unfold alen in *. lia.
Qed.

(** TTL quantisation: every TTL has a list, below 861 hours the TTL that
    is applied is the one asked for rounded down to the granularity of its
    range (1 s, 10 s, 1 min, 1 h), and from 861 hours on it is at least an
    hour too short, except that in one hour out of 1024 it becomes 0: the
    item never expires. *)
Theorem segcache_ttl_quantised t : in_u 32 t ->
  0 <= ttl_to_bucket t < SEG_TTL_BUCKETS /\
  let applied := bucket_to_ttl_seconds (ttl_to_bucket t) in
  (t < 3600 * 861 -> applied <= t < applied + ttl_granularity t) /\
  (3600 * 861 <= t -> applied <= t - 3600 /\ (applied = 0 <-> (t / 3600) mod 1024 = 861)).
Proof.
  intros Ht. split; [by apply ttl_to_bucket_range|]. cbv zeta. split; intros Hlt.
  - apply applied_below. mach.
  - rewrite ttl_bucket_hours by lia. set (q := t / 3600).
    assert (3600 * q <= t) by (unfold q; Z.to_euclidean_division_equations; lia).
    set (m := (163 + q) mod 1024). assert (0 <= m < 1024) by (apply Z.mod_pos_bound; lia).
    assert (m = 0 <-> q mod 1024 = 861) as Hz by (unfold m; Z.to_euclidean_division_equations; lia).
    rewrite <- Hz. pose proof (applied_bound m ltac:(lia)). lia.
Qed.

(** ** A deleted key that comes back

    Recycling a segment leaves the index entries that point into it.  In the
    trace the segment of key [65] is recycled by another key of its shard, the
    key is stored in a second segment under a new entry, and then again at the
    old place, where the stale entry of the key comes back to life. *)
Definition churn (from n now : Z) : list sc_op := map (fun t => OpSet now [81] [0] t) (seqZ from n).
Definition resurrect_ops : list sc_op :=
  [OpSet 0 [81] [0] 10; OpSet 0 [65] [1] 10; OpExpire 100; OpSet 100 [81] [0] 0] ++ churn 11 14 100 ++
  [OpSet 100 [81] [0] 30; OpSet 100 [65] [2] 0; OpSet 100 [65] [3] 30].

(** Stale index entries break DEL: there is a trace after which GET
    returns the last value stored, DEL reports one key deleted, and a second
    GET returns the value stored before it. *)
Theorem segcache_del_resurrects :
  (sc ← sc_run resurrect_ops (segcache_create 1024 64);
   '(sc, r1) ← segcache_get sc 101 [65] 100;
   '(sc, d) ← segcache_del sc [65];
   '(sc, r2) ← segcache_get sc 101 [65] 100;
   Some (r1, d, r2)) = Some (GetOk [3], 1, GetOk [2]).
Proof. vm_compute. reflexivity. Qed.

(** ** Witnesses *)
Definition sc_small : NexSegcache := fresh 16 64 1.
Definition sc_one : NexSegcache := default sc_small (fst <$> segcache_set sc_small 100 [1] [7] 10).

Lemma sc_small_wf : sc_wf sc_small.
Proof. apply fresh_wf; vm_compute; split; congruence. Qed.

Lemma sc_one_wf : sc_wf sc_one.
Proof.
  unfold sc_one. destruct (segcache_set sc_small 100 [1] [7] 10) as [[sc rc]|] eqn:H; [|exact sc_small_wf].
  refine (segcache_set_wf _ _ _ _ _ _ _ sc_small_wf _ _ _ H); vm_compute; split; congruence.
Qed.

Lemma set_ok_some {A} (o : option (A * Z)) : snd <$> o = Some 0 -> exists a, o = Some (a, 0).
Proof. destruct o as [[a r]|]; simpl; [intros [= ->]; eauto|done]. Qed.

(** A key stored with a TTL of 10 s at time 109, in a segment opened at time
    100, is gone at time 110. *)
Lemma segcache_set_get_witness : exists sc' sc'',
  segcache_set sc_one 109 [17] [8] 10 = Some (sc', 0) /\ segcache_get sc' 110 [17] 10 = Some (sc'', GetMiss).
Proof.
  destruct (set_ok_some (segcache_set sc_one 109 [17] [8] 10)) as [sc' H]; [vm_compute; reflexivity|].
  destruct (segcache_set_get sc_one 109 [17] [8] 10 sc' 110 10) as [sc'' H'];
    [exact sc_one_wf|vm_compute; split; congruence..|exact H|].
  exists sc', sc''. split; [exact H|]. rewrite H'. vm_compute. reflexivity.
Defined.

Lemma segcache_expire_exact_witness :
  let shard := seg_hash [1] mod NEX_RCU_SHARDS in
  get_ttl sc_one shard 10 = [0] /\ get_ttl (segcache_expire_segments sc_one 110).1 shard 10 = [].
Proof.
  cbv zeta. destruct (segcache_expire_segments sc_one 110) as [sc' total] eqn:H. cbn [fst].
  destruct (segcache_expire_exact sc_one 110 sc' total sc_one_wf H) as (Hk & _).
  split; [vm_compute; reflexivity|]. rewrite Hk; [vm_compute; reflexivity|vm_compute; split; congruence..].
Defined.

Lemma segcache_pool_conserved_witness : exists sc',
  sc_run [OpSet 5 [1] [2] 10; OpDel [1]] (segcache_create 0 64) = Some sc' /\
  free_queue sc' ++ live sc' ≡ₚ seqZ 0 (n_segments sc').
Proof.
  destruct (sc_run [OpSet 5 [1] [2] 10; OpDel [1]] (segcache_create 0 64)) as [sc'|] eqn:H.
  - exists sc'. split; [reflexivity|].
    apply (segcache_pool_conserved 0 64 [OpSet 5 [1] [2] 10; OpDel [1]] sc');
      [vm_compute; split; congruence..| |exact H].
    repeat constructor; vm_compute; congruence.
  - exfalso. assert (match sc_run [OpSet 5 [1] [2] 10; OpDel [1]] (segcache_create 0 64) with Some _ => 1 | None => 0 end = 1) as Hs
      by (vm_compute; reflexivity).
    rewrite H in Hs. discriminate Hs.
Defined.

Lemma segcache_ttl_quantised_witness :
  bucket_to_ttl_seconds (ttl_to_bucket 7199) = 3600 /\ ttl_to_bucket 7199 < SEG_TTL_BUCKETS.
Proof.
  destruct (segcache_ttl_quantised 7199) as [[_ H] _]; [vm_compute; split; congruence|].
  split; [vm_compute; reflexivity|exact H].
Defined.
