(* ===== verification/IntSet.v ===== *)
(** * Integer sets (src/src/intset.c)

    A set of integers as a sorted array packed at the width of its widest
    element so far: a header (encoding, length) and [length * encoding] bytes,
    little-endian.  The model keeps the bytes, so the in-place re-encoding of
    [intsetUpgradeAndAdd] and the overlapping moves of [intsetMoveTail] are
    what the code does.  Memory gained by a [zrealloc] holds the bytes [junk],
    about which nothing is assumed. *)
From Stdlib Require Import Sorted.
From stdpp Require Import sorting.
From S2P Require Import Prelude.

Definition INTSET_ENC_INT16 : Z := 2.
Definition INTSET_ENC_INT32 : Z := 4.
Definition INTSET_ENC_INT64 : Z := 8.

Record intset := mkIntset { encoding : Z; length : Z; contents : bytes }.

(** ** Memory *)
Definition rd (c : bytes) (off n : Z) : bytes := take (Z.to_nat n) (drop (Z.to_nat off) c).
Definition wr (c : bytes) (off : Z) (b : bytes) : bytes :=
  take (Z.to_nat off) c ++ b ++ drop (Z.to_nat (off + alen b)) c.
Definition set_contents (s : intset) (c : bytes) : intset := mkIntset (encoding s) (length s) c.

Definition _intsetValueEncoding (v : Z) : Z :=
  if (v <? - 2147483648) || (2147483647 <? v) then INTSET_ENC_INT64
  else if (v <? - 32768) || (32767 <? v) then INTSET_ENC_INT32
  else INTSET_ENC_INT16.

Definition _intsetGetEncoded (c : bytes) (pos enc : Z) : Z :=
  if enc =? INTSET_ENC_INT64 then swrap 64 (le_val (rd c (pos * 8) 8))
  else if enc =? INTSET_ENC_INT32 then swrap 32 (le_val (rd c (pos * 4) 4))
  else swrap 16 (le_val (rd c (pos * 2) 2)).

Definition _intsetGet (s : intset) (pos : Z) : Z := _intsetGetEncoded (contents s) pos (encoding s).

Definition _intsetSet (s : intset) (pos value : Z) : intset :=
  if encoding s =? INTSET_ENC_INT64 then set_contents s (wr (contents s) (pos * 8) (le_bytes 8 value))
  else if encoding s =? INTSET_ENC_INT32 then set_contents s (wr (contents s) (pos * 4) (le_bytes 4 value))
  else set_contents s (wr (contents s) (pos * 2) (le_bytes 2 value)).

Definition intsetNew : intset := mkIntset INTSET_ENC_INT16 0 [].

(** ** Search *)
Fixpoint search_loop (fuel : nat) (s : intset) (value min max mid cur : Z) : Z * Z * Z :=
  match fuel with
  | O => (min, mid, cur)
  | S fuel =>
      if max <? min then (min, mid, cur)
      else
        let mid := Z.shiftr (u32 (u32 min + u32 max)) 1 in
        let cur := _intsetGet s mid in
        if cur <? value then search_loop fuel s value (mid + 1) max mid cur
        else if value <? cur then search_loop fuel s value min (mid - 1) mid cur
        else (min, mid, cur)
  end.

(** Whether the value is there, and its position or its insertion point. *)
Definition intsetSearch (s : intset) (value : Z) : bool * Z :=
  let max := length s - 1 in
  if length s =? 0 then (false, 0)
  else if _intsetGet s max <? value then (false, length s)
  else if value <? _intsetGet s 0 then (false, 0)
  else
    let '(min, mid, cur) := search_loop (S (Z.to_nat (length s))) s value 0 max (- 1) (- 1) in
    if value =? cur then (true, mid) else (false, min).

(** ** Moves *)
Definition intsetMoveTail (s : intset) (from to : Z) : intset :=
  let count := u32 (length s - from) in
  let esz := if encoding s =? INTSET_ENC_INT64 then 8 else if encoding s =? INTSET_ENC_INT32 then 4 else 2 in
  set_contents s (wr (contents s) (to * esz) (rd (contents s) (from * esz) (u32 (count * esz)))).

Section memory.
Context (junk : Z -> Z).

Definition intsetResize (s : intset) (len : Z) : intset :=
  let size := u64 (len * encoding s) in
  set_contents s (take (Z.to_nat size)
    (contents s ++ (junk <$> seqZ (alen (contents s)) (size - alen (contents s))))).

Fixpoint upgrade_loop (len : nat) (s : intset) (prepend curenc : Z) : intset :=
  match len with
  | O => s
  | S k => upgrade_loop k
      (_intsetSet s (Z.of_nat k + prepend) (_intsetGetEncoded (contents s) (Z.of_nat k) curenc)) prepend curenc
  end.

Definition intsetUpgradeAndAdd (s : intset) (value : Z) : intset :=
  let curenc := encoding s in
  let newenc := _intsetValueEncoding value in
  let prepend := if value <? 0 then 1 else 0 in
  let s := mkIntset newenc (length s) (contents s) in
  let s := intsetResize s (u32 (length s + 1)) in
  let s := upgrade_loop (Z.to_nat (length s)) s prepend curenc in
  let s := if prepend =? 1 then _intsetSet s 0 value else _intsetSet s (length s) value in
  mkIntset (encoding s) (u32 (length s + 1)) (contents s).

Definition intsetAdd (s : intset) (value : Z) : intset * bool :=
  if encoding s <? _intsetValueEncoding value then (intsetUpgradeAndAdd s value, true)
  else
    let '(found, pos) := intsetSearch s value in
    if (found : bool) then (s, false)
    else
      let s := intsetResize s (u32 (length s + 1)) in
      let s := if pos <? length s then intsetMoveTail s pos (u32 (pos + 1)) else s in
      let s := _intsetSet s pos value in
      (mkIntset (encoding s) (u32 (length s + 1)) (contents s), true).

Definition intsetRemove (s : intset) (value : Z) : intset * bool :=
  if _intsetValueEncoding value <=? encoding s then
    let '(found, pos) := intsetSearch s value in
    if (found : bool) then
      let len := length s in
      let s := if pos <? u32 (len - 1) then intsetMoveTail s (u32 (pos + 1)) pos else s in
      let s := intsetResize s (u32 (len - 1)) in
      (mkIntset (encoding s) (u32 (len - 1)) (contents s), true)
    else (s, false)
  else (s, false).
End memory.

Definition intsetFind (s : intset) (value : Z) : bool :=
  (_intsetValueEncoding value <=? encoding s) && (intsetSearch s value).1.

Definition intsetMax (s : intset) : Z := _intsetGet s (length s - 1).
Definition intsetMin (s : intset) : Z := _intsetGet s 0.
Definition intsetGet (s : intset) (pos : Z) : option Z := if pos <? length s then Some (_intsetGet s pos) else None.
Definition intsetRandom (rand : Z) (s : intset) : Z := _intsetGet s (rand mod length s).
Definition intsetLen (s : intset) : Z := length s.
Definition intsetBlobLen (s : intset) : Z := u64 (8 + length s * encoding s).

(** The bytes of the allocation: the two header words and the contents. *)
Definition blob (s : intset) : bytes := le_bytes 4 (encoding s) ++ le_bytes 4 (length s) ++ contents s.

(** An [intset *] over a buffer. *)
Definition view_blob (p : bytes) : intset := mkIntset (le_val (rd p 0 4)) (le_val (rd p 4 4)) (drop 8 p).

Fixpoint ordered_from (s : intset) (prev i : Z) (n : nat) : bool :=
  match n with
  | O => true
  | S n => let cur := _intsetGet s i in if cur <=? prev then false else ordered_from s cur (i + 1) n
  end.

Definition intsetValidateIntegrity (p : bytes) (size : Z) (deep : bool) : bool :=
  if size <? 8 then false
  else
    let s := view_blob p in
    if negb ((encoding s =? INTSET_ENC_INT64) || (encoding s =? INTSET_ENC_INT32) || (encoding s =? INTSET_ENC_INT16))
    then false
    else
      let count := length s in
      if negb (u64 (8 + u64 (count * encoding s)) =? size) then false
      else if count =? 0 then false
      else if negb deep then true
      else ordered_from s (_intsetGet s 0) 1 (Z.to_nat (count - 1)).

(** ** Encoded elements *)
Definition enc_ok (e : Z) : Prop := e = INTSET_ENC_INT16 \/ e = INTSET_ENC_INT32 \/ e = INTSET_ENC_INT64.
Definition fits (e v : Z) : Prop := - 2 ^ (8 * e - 1) <= v < 2 ^ (8 * e - 1).
Definition cell (e v : Z) : bytes := le_bytes (Z.to_nat e) v.
Definition cells (e : Z) (vs : list Z) : bytes := concat (map (cell e) vs).

Lemma enc_ok_pos e : enc_ok e -> 2 <= e <= 8.
Proof. unfold enc_ok, INTSET_ENC_INT16, INTSET_ENC_INT32, INTSET_ENC_INT64. lia. Qed.

Lemma alen_cell e v : enc_ok e -> alen (cell e v) = e.
Proof. intros He%enc_ok_pos. unfold cell, alen. rewrite length_le_bytes. lia. Qed.

Lemma cells_app e vs ws : cells e (vs ++ ws) = cells e vs ++ cells e ws.
Proof. unfold cells. by rewrite map_app, concat_app. Qed.

Lemma cells_one e v : cells e [v] = cell e v.
Proof. unfold cells. simpl. by rewrite app_nil_r. Qed.

Lemma cells_cons e v vs : cells e (v :: vs) = cell e v ++ cells e vs.
Proof. done. Qed.

Lemma alen_cells e vs : enc_ok e -> alen (cells e vs) = alen vs * e.
Proof.
  intros He. induction vs as [|v vs IH]; [done|].
  rewrite cells_cons, alen_app, alen_cons, alen_cell, IH by done. lia.
Qed.

Lemma swrap_le_val e v : enc_ok e -> fits e v -> swrap (8 * e) (le_val (cell e v)) = v.
Proof.
  intros He Hv. pose proof (enc_ok_pos _ He). unfold cell. rewrite le_val_bytes.
  replace (8 * Z.of_nat (Z.to_nat e)) with (8 * e) by lia. unfold swrap, fits in *.
  rewrite Zplus_mod_idemp_l. assert (2 ^ (8 * e) = 2 * 2 ^ (8 * e - 1)) as Hp.
  { rewrite <- Z.pow_succ_r by lia. f_equal. lia. }
  rewrite Z.mod_small by lia. lia.
Qed.

(** ** Reads and writes on a buffer cut in three *)
Lemma rd_mid a b c : rd (a ++ b ++ c) (alen a) (alen b) = b.
Proof. unfold rd, alen. rewrite !Nat2Z.id, drop_app_length. apply take_app_length. Qed.

Lemma wr_mid a b c b' : alen b' = alen b -> wr (a ++ b ++ c) (alen a) b' = a ++ b' ++ c.
Proof.
  unfold wr, alen. intros Hb. rewrite Nat2Z.id, take_app_length. do 2 f_equal.
  replace (Z.to_nat (Z.of_nat (Datatypes.length a) + Z.of_nat (Datatypes.length b')))
    with (Datatypes.length a + Datatypes.length b)%nat by lia.
  by rewrite <- drop_drop, drop_app_length, drop_app_length.
Qed.

Lemma take_alen {A} (a b : list A) n : n = alen a -> take (Z.to_nat n) (a ++ b) = a.
Proof. intros ->. unfold alen. rewrite Nat2Z.id. apply take_app_length. Qed.

Lemma split_at {A} (a : list A) n : 0 <= n <= alen a -> exists b c, a = b ++ c /\ alen b = n /\ alen c = alen a - n.
Proof.
  intros Hn. exists (take (Z.to_nat n) a), (drop (Z.to_nat n) a). rewrite take_drop. unfold alen in *.
  rewrite length_take, length_drop. split_and!; [done|lia..].
Qed.

Lemma app_split {A} (a b c d : list A) : a ++ b = c ++ d -> alen a = alen c -> a = c /\ b = d.
Proof. intros H Hl. apply app_inj_1; [unfold alen in Hl; lia|done]. Qed.

Lemma get_encoded c pos e : enc_ok e -> _intsetGetEncoded c pos e = swrap (8 * e) (le_val (rd c (pos * e) e)).
Proof. intros [-> | [-> | ->]]; done. Qed.

Lemma set_encoded s pos v : enc_ok (encoding s) ->
  _intsetSet s pos v = set_contents s (wr (contents s) (pos * encoding s) (cell (encoding s) v)).
Proof. destruct s as [e n c]. intros [He | [He | He]]; simpl in He; subst e; done. Qed.

Lemma get_cell e l v rest i : enc_ok e -> fits e v -> i = alen l ->
  _intsetGetEncoded (cells e l ++ cell e v ++ rest) i e = v.
Proof.
  intros He Hv ->. rewrite get_encoded by done.
  pose proof (rd_mid (cells e l) (cell e v) rest) as H. rewrite alen_cells, alen_cell in H by done.
  rewrite H. by apply swrap_le_val.
Qed.

(** ** The representation invariant *)
Record rep (s : intset) (vs : list Z) : Prop := {
  rep_enc : enc_ok (encoding s);
  rep_len : length s = alen vs;
  rep_cells : contents s = cells (encoding s) vs;
  rep_fits : Forall (fits (encoding s)) vs;
  rep_sorted : StronglySorted Z.lt vs;
  rep_small : alen vs < 2 ^ 29 }.

Lemma list_split_at (vs : list Z) i : 0 <= i < alen vs ->
  exists l r, vs = l ++ aget vs i :: r /\ alen l = i.
Proof.
  intros Hi. pose proof (aget_lookup _ _ Hi) as Hl. unfold alen in Hi.
  exists (take (Z.to_nat i) vs), (drop (S (Z.to_nat i)) vs). rewrite take_drop_middle by done. split; [done|].
  unfold alen. rewrite length_take. lia.
Qed.

Lemma rep_get s vs i : rep s vs -> 0 <= i < alen vs -> _intsetGet s i = aget vs i.
Proof.
  intros [He Hl Hc Hf _ _] Hi. unfold _intsetGet. rewrite Hc.
  destruct (list_split_at vs i Hi) as (l & r & Hvs & Hli).
  rewrite Hvs at 1. rewrite cells_app, cells_cons. apply get_cell; [done| |done].
  eapply (Forall_aget (fits (encoding s))); done.
Qed.

Lemma sorted_lt (vs : list Z) i j : StronglySorted Z.lt vs -> 0 <= i < j -> j < alen vs -> aget vs i < aget vs j.
Proof.
  intros Hs Hi Hj. destruct (list_split_at vs i ltac:(lia)) as (l & r & Hvs & Hl).
  assert (aget vs j ∈ r) as Hr.
  { pose proof (aget_lookup vs j ltac:(lia)) as Hlk. rewrite Hvs in Hlk at 1. unfold alen in *.
    rewrite lookup_app_r in Hlk by lia. rewrite lookup_cons_ne_0 in Hlk by lia. by eapply list_elem_of_lookup_2. }
  rewrite Hvs in Hs. apply StronglySorted_app in Hs as (_ & _ & Hs). inversion Hs as [|? ? _ Hall]; subst.
  by rewrite Forall_forall in Hall; apply Hall.
Qed.

(** ** Search finds the value or its insertion point *)
Definition below (vs : list Z) (v pos : Z) : Prop := forall i, 0 <= i < pos -> i < alen vs -> aget vs i < v.
Definition above (vs : list Z) (v pos : Z) : Prop := forall i, pos <= i < alen vs -> v < aget vs i.

Lemma below_step (vs : list Z) v m : StronglySorted Z.lt vs -> 0 <= m < alen vs -> aget vs m < v -> below vs v (m + 1).
Proof.
  intros Hs Hm Hv i Hi Hl. destruct (Z.eq_dec i m) as [->|]; [done|].
  pose proof (sorted_lt vs i m Hs ltac:(lia) ltac:(lia)). lia.
Qed.

Lemma above_step (vs : list Z) v m : StronglySorted Z.lt vs -> 0 <= m < alen vs -> v < aget vs m -> above vs v m.
Proof.
  intros Hs Hm Hv i Hi. destruct (Z.eq_dec i m) as [->|]; [done|].
  pose proof (sorted_lt vs m i Hs ltac:(lia) ltac:(lia)). lia.
Qed.

Lemma mid_spec min max : 0 <= min <= max -> max < 2 ^ 31 ->
  min <= Z.shiftr (u32 (u32 min + u32 max)) 1 <= max.
Proof.
  intros Hm Hx. rewrite !wrap_small by (rewrite ?wrap_small; mach). rewrite Z.shiftr_div_pow2 by lia.
  change (2 ^ 1) with 2. Z.to_euclidean_division_equations; lia.
Qed.

Lemma search_loop_spec s vs value fuel : forall min max mid cur min' mid' cur', rep s vs ->
  (Z.to_nat (max - min + 1) < fuel)%nat -> 0 <= min -> max < alen vs -> min <= max + 1 ->
  below vs value min -> above vs value (max + 1) -> min <= max \/ cur <> value ->
  search_loop fuel s value min max mid cur = (min', mid', cur') ->
  (cur' = value /\ 0 <= mid' < alen vs /\ aget vs mid' = value) \/
  (cur' <> value /\ 0 <= min' <= alen vs /\ below vs value min' /\ above vs value min').
Proof.
  intros min max mid cur min' mid' cur' Hrep. pose proof (rep_sorted _ _ Hrep) as Hs. pose proof (rep_small _ _ Hrep) as Hsm.
  revert min max mid cur. induction fuel as [|fuel IH]; intros min max mid cur Hf Hmin Hmax Hle Hb Ha Hc H; [lia|].
  simpl in H. case_if_in H.
  - injection H as <- <- <-. right. assert (max + 1 = min) as Heq by lia. rewrite Heq in Ha.
    split_and!; [lia|lia|lia|done|done].
  - pose proof (mid_spec min max ltac:(lia) ltac:(mach)) as Hmid. set (m := Z.shiftr _ 1) in *.
    rewrite (rep_get _ _ _ Hrep) in H by lia. case_if_in H; [|case_if_in H].
    + eapply IH in H; [exact H|lia|lia|lia|lia| |done|].
      * by apply below_step; [|lia|].
      * destruct (Z.le_gt_cases (m + 1) max); [by left|right; lia].
    + eapply IH in H; [exact H|lia|lia|lia|lia|done| |].
      * replace (m - 1 + 1) with m by lia. by apply above_step; [|lia|].
      * destruct (Z.le_gt_cases min (m - 1)); [by left|right; lia].
    + injection H as <- <- <-. left. split_and!; lia.
Qed.

Lemma search_spec s vs value found pos : rep s vs -> intsetSearch s value = (found, pos) ->
  0 <= pos <= alen vs /\
  if (found : bool) then pos < alen vs /\ aget vs pos = value else below vs value pos /\ above vs value pos.
Proof.
  intros Hrep H. pose proof (rep_sorted _ _ Hrep) as Hs. pose proof (rep_len _ _ Hrep) as Hl.
  pose proof (alen_nonneg vs) as H0. unfold intsetSearch in H. rewrite Hl in H.
  case_if_in H; [injection H as <- <-; split; [lia|split; intros i Hi; lia]|].
  rewrite !(rep_get _ _ _ Hrep) in H by lia.
  case_if_in H; [|case_if_in H].
  - injection H as <- <-. split; [lia|]. split; [|intros i Hi; lia].
    intros i Hi ?. apply (below_step vs value (alen vs - 1)); [done|lia|done|lia|lia].
  - injection H as <- <-. split; [lia|]. split; [intros i Hi; lia|]. by apply above_step; [|lia|].
  - destruct (search_loop _ _ _ _ _ _ _) as [[min' mid'] cur'] eqn:Hloop.
    eapply search_loop_spec in Hloop; [|done|lia|lia|lia|lia|intros i Hi; lia|intros i Hi; lia|left; lia].
    destruct Hloop as [(-> & Hm & Hv)|(Hne & Hm & Hb & Ha)].
    + rewrite Z.eqb_refl in H. injection H as <- <-. split; [lia|]. split; [lia|done].
    + rewrite (proj2 (Z.eqb_neq _ _)) in H by lia. injection H as <- <-. split; [lia|done].
Qed.

(** The insertion point cuts the list. *)
Lemma insertion_cut (vs : list Z) v pos : 0 <= pos <= alen vs -> below vs v pos -> above vs v pos ->
  exists l r, vs = l ++ r /\ alen l = pos /\ Forall (fun x => x < v) l /\ Forall (fun x => v < x) r.
Proof.
  intros Hp Hb Ha. destruct (split_at vs pos Hp) as (l & r & -> & Hl & Hr). exists l, r. split_and!; try done.
  - apply Forall_lookup. intros i x Hx. pose proof (lookup_lt_Some _ _ _ Hx) as Hi.
    specialize (Hb (Z.of_nat i)). unfold aget, alen in *. rewrite Nat2Z.id in Hb.
    rewrite lookup_total_app_l in Hb by done. rewrite (list_lookup_total_correct _ _ _ Hx) in Hb.
    rewrite length_app in Hb. lia.
  - apply Forall_lookup. intros i x Hx. pose proof (lookup_lt_Some _ _ _ Hx) as Hi.
    specialize (Ha (Z.of_nat (Datatypes.length l + i))). unfold aget, alen in *. rewrite Nat2Z.id in Ha.
    rewrite lookup_total_app_r in Ha by lia. replace (Datatypes.length l + i - Datatypes.length l)%nat with i in Ha by lia.
    rewrite (list_lookup_total_correct _ _ _ Hx) in Ha. rewrite length_app in Ha. lia.
Qed.

(** ** In-place upgrade *)
Lemma upgrade_loop_spec ce ne prepend rest : enc_ok ce -> enc_ok ne -> ce <= ne -> 0 <= prepend ->
  forall l s gap m, encoding s = ne -> Forall (fits ce) l ->
  contents s = cells ce l ++ gap ++ cells ne m ++ rest ->
  alen (cells ce l ++ gap) = (alen l + prepend) * ne ->
  exists gap', upgrade_loop (List.length l) s prepend ce =
    set_contents s (gap' ++ cells ne (l ++ m) ++ rest) /\ alen gap' = prepend * ne.
Proof.
  intros Hce Hne Hle Hp. pose proof (enc_ok_pos _ Hce). pose proof (enc_ok_pos _ Hne).
  induction l as [|v l IH] using rev_ind; intros s gap m Hs Hf Hc Hlen.
  - exists gap. split; [|exact Hlen]. destruct s. simpl in *. by rewrite Hc.
  - apply Forall_app in Hf as [Hf Hv]. inversion Hv as [|? ? Hv' _]; subst.
    rewrite length_app. simpl List.length. rewrite Nat.add_1_r. cbn [upgrade_loop].
    rewrite cells_app, cells_one in *. rewrite <- !app_assoc in Hc.
    assert (_intsetGetEncoded (contents s) (Z.of_nat (List.length l)) ce = v) as Hget.
    { rewrite Hc. by apply get_cell. }
    rewrite Hget, set_encoded by done.
    set (pfx := (cells ce l ++ cell ce v) ++ gap) in *.
    rewrite !alen_app, alen_cons, alen_nil in Hlen.
    pose proof (alen_nonneg l) as Hl0.
    destruct (split_at pfx ((alen l + prepend) * encoding s)) as (a & b & Hab & Ha & Hb); [unfold alen in *; nia|].
    assert (exists gap', a = cells ce l ++ gap') as [gap' ->].
    { assert (alen (cells ce l) <= alen a) as Hal by (rewrite alen_cells by done; nia).
      destruct (split_at a (alen (cells ce l))) as (a1 & a2 & -> & Ha1 & _); [split; [apply alen_nonneg|done]|].
      exists a2. unfold pfx in Hab. rewrite <- !app_assoc in Hab. apply app_split in Hab as [-> _]; [done|lia]. }
    destruct (IH (set_contents s (wr (contents s) ((Z.of_nat (List.length l) + prepend) * encoding s) (cell (encoding s) v)))
      gap' (v :: m)) as (g & -> & Hg); [done|done| |by rewrite Ha|].
    + cbn [contents set_contents].
      assert (contents s = (cells ce l ++ gap') ++ b ++ cells (encoding s) m ++ rest) as ->.
      { rewrite Hc. rewrite (app_assoc _ b), <- Hab. unfold pfx. by rewrite <- !app_assoc. }
      fold (alen l). rewrite <- Ha. rewrite wr_mid by (rewrite alen_cell by done; lia).
      rewrite cells_cons. by rewrite <- !app_assoc.
    + exists g. split; [|done]. unfold set_contents. cbn [encoding length]. f_equal. f_equal.
      by rewrite !cells_app, cells_cons, cells_one, <- !app_assoc.
Qed.

(** ** Fitting encodings *)
Lemma encoding_ok v : enc_ok (_intsetValueEncoding v).
Proof. unfold enc_ok, _intsetValueEncoding. repeat case_if; auto. Qed.

Lemma fits_value e v : enc_ok e -> fits 8 v -> fits e v <-> _intsetValueEncoding v <= e.
Proof.
  intros He Hv. unfold fits, _intsetValueEncoding, INTSET_ENC_INT16, INTSET_ENC_INT32, INTSET_ENC_INT64 in *.
  destruct He as [-> | [-> | ->]]; unfold INTSET_ENC_INT16, INTSET_ENC_INT32, INTSET_ENC_INT64;
    mach_unfold; repeat case_if; lia.
Qed.

Lemma fits_mono e e' v : enc_ok e -> enc_ok e' -> e <= e' -> fits e v -> fits e' v.
Proof.
  intros He He' Hle. unfold fits. destruct He as [-> | [-> | ->]], He' as [-> | [-> | ->]];
    unfold INTSET_ENC_INT16, INTSET_ENC_INT32, INTSET_ENC_INT64 in *; mach_unfold; lia.
Qed.

(** A value that does not fit lies outside the range of those that do. *)
Lemma unfit_outside e v x : enc_ok e -> fits 8 v -> e < _intsetValueEncoding v -> fits e x ->
  if v <? 0 then v < x else x < v.
Proof.
  intros He Hv Hlt Hx. assert (~ fits e v) as Hn by (rewrite fits_value by done; lia).
  unfold fits in *. case_if; lia.
Qed.

Section ops.
Context (junk : Z -> Z).

(** A resize to more elements keeps the contents and adds unknown bytes. *)
Lemma resize_grow s len : enc_ok (encoding s) -> 0 <= len < 2 ^ 32 -> alen (contents s) <= len * encoding s ->
  exists j, intsetResize junk s len = set_contents s (contents s ++ j) /\ alen j = len * encoding s - alen (contents s).
Proof.
  intros He Hlen Hc. pose proof (enc_ok_pos _ He) as Hp. unfold intsetResize.
  assert (u64 (len * encoding s) = len * encoding s) as -> by (apply wrap_small; mach_unfold; nia).
  set (k := len * encoding s - alen (contents s)).
  exists (junk <$> seqZ (alen (contents s)) k).
  assert (alen (junk <$> seqZ (alen (contents s)) k) = k) as Hk.
  { unfold alen. rewrite length_fmap, length_seqZ. unfold k in *. lia. }
  split; [|done]. f_equal. rewrite take_ge; [done|]. unfold alen in *. rewrite length_app. lia.
Qed.

Lemma resize_shrink s a b len : enc_ok (encoding s) -> 0 <= len < 2 ^ 32 -> contents s = a ++ b ->
  alen a = len * encoding s -> intsetResize junk s len = set_contents s a.
Proof.
  intros He Hlen Hc Ha. pose proof (enc_ok_pos _ He) as Hp. unfold intsetResize.
  assert (u64 (len * encoding s) = len * encoding s) as -> by (apply wrap_small; mach_unfold; nia).
  f_equal. rewrite Hc, <- app_assoc. by apply take_alen.
Qed.

Lemma rep_insert e (l r : list Z) v : enc_ok e -> fits e v -> Forall (fits e) (l ++ r) ->
  StronglySorted Z.lt (l ++ r) -> Forall (fun x => x < v) l -> Forall (fun x => v < x) r ->
  alen (l ++ r) < 2 ^ 29 - 1 ->
  rep (mkIntset e (alen (l ++ r) + 1) (cells e (l ++ v :: r))) (l ++ v :: r).
Proof.
  intros He Hv Hf Hs Hl Hr Hsm. rewrite alen_app in *.
  constructor; cbn; [done|rewrite alen_app, alen_cons; lia|done| | |rewrite alen_app, alen_cons; lia].
  - apply Forall_app in Hf as [? ?]. apply Forall_app; split; [done|]. by constructor.
  - apply StronglySorted_app in Hs as (Hlr & Hs1 & Hs2). rewrite Forall_forall in Hl, Hr.
    apply StronglySorted_app. split_and!; [|done|constructor; [done|by apply Forall_forall]].
    intros x y Hx Hy. apply elem_of_cons in Hy as [->|Hy]; [by apply Hl|]. by apply Hlr.
Qed.

Lemma upgrade_spec s vs v : rep s vs -> fits 8 v -> encoding s < _intsetValueEncoding v ->
  alen vs < 2 ^ 29 - 1 ->
  exists l r, vs = l ++ r /\ rep (intsetUpgradeAndAdd junk s v) (l ++ v :: r).
Proof.
  intros [He Hl Hc Hf Hs Hsm] Hv Hlt Hsm'. set (ne := _intsetValueEncoding v) in *.
  assert (enc_ok ne) as Hne by apply encoding_ok. pose proof (enc_ok_pos _ He). pose proof (enc_ok_pos _ Hne).
  pose proof (alen_nonneg vs) as Hvs0. set (prepend := if v <? 0 then 1 else 0).
  assert (0 <= prepend <= 1) as Hpre by (unfold prepend; case_if; lia).
  assert (u32 (length s + 1) = alen vs + 1) as Hu by (rewrite Hl; apply wrap_small; mach).
  assert (alen (contents s) = alen vs * encoding s) as Hcl by (rewrite Hc; by apply alen_cells).
  unfold intsetUpgradeAndAdd. fold ne prepend. cbn [length].
  destruct (resize_grow (mkIntset ne (length s) (contents s)) (alen vs + 1)) as (j & Hres & Hj); cbn [encoding contents] in *;
    [done|mach|nia|]. rewrite Hu, Hres. cbn [set_contents encoding length contents].
  destruct (split_at j ((alen vs + prepend) * ne - alen (contents s))) as (gap & rest & -> & Hg & Hr); [nia|].
  destruct (upgrade_loop_spec (encoding s) ne prepend rest He Hne ltac:(lia) ltac:(lia) vs
    (mkIntset ne (length s) (contents s ++ gap ++ rest)) gap []) as (gap' & Hup & Hg'); cbn [encoding contents]; [done|done| | |].
  { by rewrite Hc. }
  { rewrite alen_app, <- Hc. lia. }
  assert (upgrade_loop (Z.to_nat (length s)) (set_contents (mkIntset ne (length s) (contents s)) (contents s ++ gap ++ rest))
    prepend (encoding s) = mkIntset ne (length s) (gap' ++ cells ne vs ++ rest)) as Hup'.
  { rewrite app_nil_r in Hup. rewrite Hl at 1. unfold alen at 1. rewrite Nat2Z.id. exact Hup. }
  rewrite !Hup'. clear Hup Hup'. cbn [length].
  assert (Forall (fits ne) vs) as Hfn.
  { eapply Forall_impl; [exact Hf|]. intros x Hx. cbv beta in Hx. apply (fits_mono (encoding s)); done || lia. }
  assert (fits ne v) as Hfv by (apply fits_value; [done|done|unfold ne; lia]).
  assert (Forall (fun x => if v <? 0 then v < x else x < v) vs) as Hout.
  { eapply Forall_impl; [exact Hf|]. intros x Hx. by apply (unfit_outside (encoding s)). }
  unfold prepend in *. destruct (v <? 0) eqn:Hneg.
  - exists [], vs. split; [done|]. assert (rest = []) as -> by (destruct rest; [done|rewrite alen_cons in Hr; pose proof (alen_nonneg rest); nia]).
    change (1 =? 1) with true. cbn match. rewrite set_encoded by done. cbn [encoding contents set_contents length].
    pose proof (wr_mid [] gap' (cells ne vs ++ []) (cell ne v)) as Hw. rewrite alen_nil in Hw. cbn [app] in Hw.
    rewrite Z.mul_0_l, Hw, app_nil_r by (rewrite alen_cell by done; lia). rewrite Hu, <- cells_cons.
    apply (rep_insert ne [] vs v); try done.
  - exists vs, []. split; [by rewrite app_nil_r|]. assert (gap' = []) as -> by (destruct gap'; [done|rewrite alen_cons in Hg'; pose proof (alen_nonneg gap'); lia]).
    change (0 =? 1) with false. cbn match. rewrite set_encoded by done. cbn [encoding contents set_contents length app].
    pose proof (wr_mid (cells ne vs) rest [] (cell ne v)) as Hw. rewrite alen_cells, !app_nil_r in Hw by done.
    rewrite Hl at 2. rewrite Hw by (rewrite alen_cell by done; nia). rewrite Hu, <- cells_one, <- cells_app.
    pose proof (rep_insert ne vs [] v) as Hri. rewrite app_nil_r in Hri. apply Hri; done.
Qed.
(** A move of the tail, as long as its byte count fits 32 bits. *)
Lemma move_tail s from to a b c : enc_ok (encoding s) -> contents s = a ++ b ++ c ->
  alen a = from * encoding s -> alen b = (length s - from) * encoding s -> 0 <= from <= length s -> length s < 2 ^ 29 ->
  intsetMoveTail s from to = set_contents s (wr (contents s) (to * encoding s) b).
Proof.
  intros He Hc Ha Hb Hf Hl. pose proof (enc_ok_pos _ He). unfold intsetMoveTail.
  assert ((if encoding s =? INTSET_ENC_INT64 then 8 else if encoding s =? INTSET_ENC_INT32 then 4 else 2) = encoding s) as ->
    by (destruct He as [-> | [-> | ->]]; done).
  assert (u32 (length s - from) = length s - from) as -> by (apply wrap_small; mach).
  assert (u32 ((length s - from) * encoding s) = (length s - from) * encoding s) as -> by (apply wrap_small; mach_unfold; nia).
  do 2 f_equal. rewrite Hc, <- Ha, <- Hb. apply rd_mid.
Qed.

Lemma add_spec s vs v s' ok : rep s vs -> fits 8 v -> alen vs < 2 ^ 29 - 1 -> intsetAdd junk s v = (s', ok) ->
  encoding s' = Z.max (encoding s) (_intsetValueEncoding v) /\
  ((ok = false /\ (v ∈ vs) /\ s' = s) \/
   (ok = true /\ (v ∉ vs) /\ exists l r, vs = l ++ r /\ rep s' (l ++ v :: r))).
Proof.
  intros Hrep Hv Hsm H. pose proof (rep_enc _ _ Hrep) as He. pose proof (enc_ok_pos _ He) as Hp.
  pose proof (rep_sorted _ _ Hrep) as Hs. unfold intsetAdd in H. case_if_in H.
  - injection H as <- <-. destruct (upgrade_spec s vs v Hrep Hv E Hsm) as (l & r & Hlr & Hrep').
    split; [|right; split_and!; [done| |eauto]].
    + unfold intsetUpgradeAndAdd. cbn [encoding]. assert (forall n t p c, encoding (upgrade_loop n t p c) = encoding t) as Hue.
      { induction n; intros t p c; [done|]. cbn [upgrade_loop]. rewrite IHn. unfold _intsetSet. by repeat case_if. }
      case_if; unfold _intsetSet; repeat case_if; cbn [encoding set_contents]; rewrite Hue; cbn; lia.
    + intros Hin. pose proof (rep_fits _ _ Hrep) as Hf. rewrite Forall_forall in Hf.
      apply Hf, fits_value in Hin; [lia|done|done].
  - destruct (intsetSearch s v) as [found pos] eqn:Hse. apply (search_spec _ _ _ _ _ Hrep) in Hse as [Hpos Hse].
    destruct found.
    + injection H as <- <-. destruct Hse as [Hlt Hat]. split; [lia|]. left. split_and!; try done.
      rewrite <- Hat. eapply list_elem_of_lookup_2, aget_lookup. lia.
    + destruct Hse as [Hb Ha]. destruct (insertion_cut vs v pos Hpos Hb Ha) as (l & r & -> & Hl & Hlo & Hhi).
      destruct Hrep as [_ Hlen Hc Hf _ _]. rewrite alen_app in *. pose proof (alen_nonneg l). pose proof (alen_nonneg r).
      assert (u32 (length s + 1) = alen l + alen r + 1) as Hu by (rewrite Hlen; apply wrap_small; mach).
      rewrite Hu in H. destruct (resize_grow s (alen l + alen r + 1) He) as (j & Hres & Hj);
        [mach|rewrite Hc, alen_cells, alen_app by done; nia|].
      rewrite Hc, alen_cells, alen_app in Hj by done. rewrite Hres in H. cbn [length set_contents] in H.
      assert (alen j = encoding s) as Hje by nia. rewrite Hc, cells_app in *.
      (* the state before the value is written *)
      assert (exists j', alen j' = encoding s /\
        (if pos <? length s then intsetMoveTail (set_contents s ((cells (encoding s) l ++ cells (encoding s) r) ++ j)) pos (u32 (pos + 1))
         else set_contents s ((cells (encoding s) l ++ cells (encoding s) r) ++ j)) =
        set_contents s (cells (encoding s) l ++ j' ++ cells (encoding s) r)) as (j' & Hj' & Hmoved).
      { case_if.
        - rewrite (move_tail _ pos _ (cells (encoding s) l) (cells (encoding s) r) j); cbn [set_contents encoding contents length];
            [|done|by rewrite <- app_assoc|rewrite alen_cells by done; lia|rewrite alen_cells by done; f_equal; lia|lia|lia].
          rewrite wrap_small by mach.
          destruct (split_at (cells (encoding s) r ++ j) (encoding s)) as (x & y & Hxy & Hx & Hy);
            [rewrite alen_app, alen_cells by done; nia|].
          exists x. split; [done|]. unfold set_contents. cbn [encoding length]. f_equal.
          rewrite <- app_assoc, Hxy. rewrite alen_app, alen_cells in Hy by done.
          replace ((pos + 1) * encoding s) with (alen (cells (encoding s) l ++ x)) by (rewrite alen_app, alen_cells by done; nia).
          pose proof (wr_mid (cells (encoding s) l ++ x) y [] (cells (encoding s) r)) as Hw.
          rewrite !app_nil_r, <- !app_assoc in Hw. apply Hw. rewrite alen_cells by done. nia.
        - exists j. split; [done|]. assert (r = []) as -> by (destruct r; [done|rewrite alen_cons in *; pose proof (alen_nonneg r); lia]).
          unfold cells at 2 4. simpl. by rewrite !app_nil_r. }
      rewrite Hmoved, set_encoded in H by done. cbn [set_contents encoding contents length] in H.
      rewrite Hl in *. replace (pos * encoding s) with (alen (cells (encoding s) l)) in H by (rewrite alen_cells by done; nia).
      rewrite wr_mid, Hu in H by (rewrite alen_cell by done; lia).
      apply pair_equal_spec in H as [<- <-]. split; [cbn; lia|]. right. split_and!; [done| |].
      * rewrite elem_of_app. rewrite Forall_forall in Hlo, Hhi. intros [Hin|Hin]; [apply Hlo in Hin|apply Hhi in Hin]; lia.
      * exists l, r. split; [done|]. pose proof (rep_insert (encoding s) l r v He) as Hri.
        rewrite alen_app, cells_app, cells_cons, Hl in Hri. apply Hri; try done. by apply fits_value.
Qed.
Lemma remove_spec s vs v s' ok : rep s vs -> fits 8 v -> intsetRemove junk s v = (s', ok) ->
  encoding s' = encoding s /\
  ((ok = false /\ (v ∉ vs) /\ s' = s) \/
   (ok = true /\ exists l r, vs = l ++ v :: r /\ rep s' (l ++ r))).
Proof.
  intros Hrep Hv H. pose proof (rep_enc _ _ Hrep) as He. pose proof (enc_ok_pos _ He) as Hp.
  pose proof (rep_sorted _ _ Hrep) as Hs. unfold intsetRemove in H. case_if_in H.
  - destruct (intsetSearch s v) as [found pos] eqn:Hse. apply (search_spec _ _ _ _ _ Hrep) in Hse as [Hpos Hse].
    destruct found.
    + destruct Hse as [Hlt Hat]. destruct (list_split_at vs pos ltac:(lia)) as (l & r & Hvs & Hl). rewrite Hat in Hvs.
      destruct Hrep as [_ Hlen Hc Hf _ Hsm]. subst vs. clear Hat. rewrite alen_app, alen_cons in *.
      pose proof (alen_nonneg l). pose proof (alen_nonneg r).
      assert (u32 (length s - 1) = alen l + alen r) as Hu by (rewrite Hlen, wrap_small by mach; lia).
      rewrite Hu in H. rewrite cells_app, cells_cons in Hc.
      assert (exists j, (if pos <? alen l + alen r then intsetMoveTail s (u32 (pos + 1)) pos else s) =
        set_contents s (cells (encoding s) (l ++ r) ++ j)) as (j & Hmoved).
      { rewrite cells_app. case_if.
        - rewrite wrap_small by mach.
          rewrite (move_tail _ (pos + 1) _ (cells (encoding s) l ++ cell (encoding s) v) (cells (encoding s) r) []);
            [|done|by rewrite app_nil_r, <- app_assoc|rewrite alen_app, alen_cells, alen_cell by done; nia
             |rewrite alen_cells by done; f_equal; lia|lia|lia].
          destruct (split_at (cell (encoding s) v ++ cells (encoding s) r) (alen (cells (encoding s) r))) as (x & y & Hxy & Hx & _);
            [rewrite alen_app, alen_cell, alen_cells by done; nia|].
          exists y. f_equal. rewrite Hc, Hxy, <- app_assoc.
          replace (pos * encoding s) with (alen (cells (encoding s) l)) by (rewrite alen_cells by done; nia).
          apply wr_mid. lia.
        - exists (cell (encoding s) v). assert (r = []) as -> by (destruct r; [done|rewrite alen_cons in *; pose proof (alen_nonneg r); lia]).
          destruct s. unfold set_contents. simpl in *. f_equal. rewrite Hc. unfold cells at 2 4. simpl. by rewrite !app_nil_r. }
      rewrite Hmoved in H. rewrite (resize_shrink _ (cells (encoding s) (l ++ r)) j) in H;
        [|done|mach|done|cbn; rewrite alen_cells, alen_app by done; lia].
      apply pair_equal_spec in H as [<- <-]. split; [done|]. right. split; [done|]. exists l, r. split; [done|].
      apply Forall_app in Hf as [Hf1 Hf2]. apply Forall_cons in Hf2 as [_ Hf2].
      apply StronglySorted_app in Hs as (Hlr & Hs1 & Hs2). inversion Hs2; subst.
      constructor; cbn; rewrite ?alen_app; [done|done|done|by apply Forall_app|apply StronglySorted_app|lia].
      split_and!; [|done|done]. intros x y Hx Hy. apply Hlr; [done|by apply list_elem_of_further].
    + injection H as <- <-. split; [done|]. left. split_and!; try done.
      destruct Hse as [Hb Ha]. intros Hin. apply list_elem_of_lookup in Hin as [i Hi].
      pose proof (lookup_lt_Some _ _ _ Hi) as Hlt. specialize (Hb (Z.of_nat i)). specialize (Ha (Z.of_nat i)).
      unfold aget, alen in *. rewrite Nat2Z.id, (list_lookup_total_correct _ _ _ Hi) in *. lia.
  - injection H as <- <-. split; [done|]. left. split_and!; try done.
    intros Hin. pose proof (rep_fits _ _ Hrep) as Hf. rewrite Forall_forall in Hf.
    apply Hf, fits_value in Hin; [lia|done|done].
Qed.
End ops.

(** ** The abstract set *)
Definition values (s : intset) : list Z := _intsetGet s <$> seqZ 0 (length s).
Definition members (s : intset) : gset Z := list_to_set (values s).
Definition inv (s : intset) : Prop := rep s (values s).

Lemma rep_values s vs : rep s vs -> values s = vs.
Proof.
  intros Hrep. pose proof (rep_len _ _ Hrep) as Hl. pose proof (alen_nonneg vs) as H0.
  assert (alen (values s) = alen vs) as Hlen.
  { unfold values, alen in *. rewrite length_fmap, length_seqZ. lia. }
  apply arr_ext; [done|]. intros i Hi. rewrite Hlen in Hi. rewrite <- (rep_get _ _ _ Hrep Hi).
  unfold values, aget. apply list_lookup_total_correct. rewrite list_lookup_fmap.
  rewrite lookup_seqZ_lt by lia. simpl. do 2 f_equal. lia.
Qed.

Lemma rep_inv s vs : rep s vs -> inv s.
Proof. intros H. unfold inv. by rewrite (rep_values _ _ H). Qed.

Lemma rep_members s vs : rep s vs -> members s = list_to_set vs.
Proof. intros H. unfold members. by rewrite (rep_values _ _ H). Qed.

Lemma elem_members s v : v ∈ members s <-> v ∈ values s.
Proof. apply elem_of_list_to_set. Qed.

Lemma intsetNew_inv : inv intsetNew.
Proof. constructor; cbn; try done; [by left|constructor]. Qed.

(** ** Validation *)
Lemma ordered_from_spec s n : forall prev i, ordered_from s prev i n = true <->
  StronglySorted Z.lt (prev :: (_intsetGet s <$> seqZ i (Z.of_nat n))).
Proof.
  assert (forall x y l, StronglySorted Z.lt (x :: y :: l) <-> x < y /\ StronglySorted Z.lt (y :: l)) as Hss.
  { intros x y l. split.
    - intros H. inversion H as [|? ? H1 H2]; subst. by inversion H2.
    - intros [Hlt H]. constructor; [done|]. constructor; [done|]. inversion H as [|? ? _ Hf]; subst.
      eapply Forall_impl; [exact Hf|]. simpl. lia. }
  induction n as [|n IH]; intros prev i.
  - simpl. split; [repeat constructor|done].
  - rewrite seqZ_cons by lia. rewrite fmap_cons, Hss. cbn [ordered_from].
    replace (Z.pred (Z.of_nat (S n))) with (Z.of_nat n) by lia. replace (Z.succ i) with (i + 1) by lia.
    rewrite <- IH. case_if; [split; [done|lia]|]. split; [by intros|by intros []].
Qed.

Lemma le_bytes_mod n z : le_bytes n (z mod 2 ^ (8 * Z.of_nat n)) = le_bytes n z.
Proof.
  rewrite <- le_val_bytes. rewrite <- (length_le_bytes n z) at 1. apply le_bytes_val, le_bytes_is_bytes.
Qed.

Lemma cells_surj e c n : enc_ok e -> is_bytes c -> alen c = Z.of_nat n * e ->
  exists vs, c = cells e vs /\ alen vs = Z.of_nat n /\ Forall (fits e) vs.
Proof.
  intros He. pose proof (enc_ok_pos _ He). revert c. induction n as [|n IH]; intros c Hb Hl.
  - exists []. destruct c; [done|]. rewrite alen_cons in Hl. pose proof (alen_nonneg c). lia.
  - destruct (split_at c e) as (a & r & -> & Ha & Hr); [nia|]. apply Forall_app in Hb as [Hba Hbr].
    destruct (IH r Hbr) as (vs & -> & Hlv & Hf); [nia|].
    pose proof (le_val_range a Hba) as Hrange. rewrite Ha in Hrange.
    assert (2 ^ (8 * e) = 2 * 2 ^ (8 * e - 1)) as Hp. { rewrite <- Z.pow_succ_r by lia. f_equal. lia. }
    assert (exists v, fits e v /\ cell e v = a) as (v & Hv & Hc).
    { assert (le_bytes (Z.to_nat e) (le_val a) = a) as Hle.
      { rewrite <- (le_bytes_val a Hba) at 2. f_equal. unfold alen in Ha. lia. }
      destruct (Z.lt_ge_cases (le_val a) (2 ^ (8 * e - 1))).
      - exists (le_val a). split; [unfold fits, in_u in *; lia|exact Hle].
      - exists (le_val a - 2 ^ (8 * e)). split; [unfold fits, in_u in *; lia|]. unfold cell.
        etrans; [|exact Hle]. rewrite <- (le_bytes_mod _ (le_val a - _)), <- (le_bytes_mod _ (le_val a)).
        f_equal. replace (8 * Z.of_nat (Z.to_nat e)) with (8 * e) by lia.
        rewrite <- (Z.mod_add (le_val a - _) 1), Z.mul_1_l by (pose proof (Z.pow_pos_nonneg 2 (8 * e)); lia). f_equal. lia. }
    exists (v :: vs). rewrite cells_cons, Hc. split_and!; [done|rewrite alen_cons; lia|by constructor].
Qed.

Lemma le_bytes_split p : is_bytes p -> 8 <= alen p ->
  p = le_bytes 4 (le_val (rd p 0 4)) ++ le_bytes 4 (le_val (rd p 4 4)) ++ drop 8 p.
Proof.
  intros Hb Hl. destruct (split_at p 4 ltac:(lia)) as (a & p1 & -> & Ha & H1).
  destruct (split_at p1 4 ltac:(lia)) as (b & c & -> & Hb4 & Hc).
  apply Forall_app in Hb as [Hba Hb]. apply Forall_app in Hb as [Hbb _].
  pose proof (rd_mid [] a (b ++ c)) as R1. rewrite alen_nil, Ha in R1. cbn [app] in R1. rewrite R1.
  pose proof (rd_mid a b c) as R2. rewrite Ha, Hb4 in R2. rewrite R2.
  assert (Datatypes.length a = 4%nat /\ Datatypes.length b = 4%nat) as [La Lb] by (unfold alen in *; lia).
  pose proof (le_bytes_val a Hba) as Ea. rewrite La in Ea. pose proof (le_bytes_val b Hbb) as Eb. rewrite Lb in Eb.
  rewrite Ea, Eb.
  do 2 f_equal. rewrite app_assoc, drop_app_length' by (rewrite length_app; lia). done.
Qed.

Lemma blob_view s : in_u 32 (encoding s) -> in_u 32 (length s) -> view_blob (blob s) = s.
Proof.
  intros He Hl. destruct s as [e n c]. unfold view_blob, blob. cbn [encoding length contents] in *.
  assert (alen (le_bytes 4 e) = 4 /\ alen (le_bytes 4 n) = 4) as [Ae An] by (unfold alen; by rewrite !length_le_bytes).
  pose proof (rd_mid [] (le_bytes 4 e) (le_bytes 4 n ++ c)) as R1. rewrite alen_nil, Ae in R1. cbn [app] in R1.
  pose proof (rd_mid (le_bytes 4 e) (le_bytes 4 n) c) as R2. rewrite Ae, An in R2.
  rewrite R1, R2, !le_round_trip by done. f_equal.
Qed.

(** ** Claims *)

(** [intsetAdd] refines insertion into a set of integers: on a
    well-formed set of fewer than 2^29 - 1 elements, the sorted packed array
    that results (re-encoded in place when the value needs a wider encoding,
    whatever the new memory contains) is well formed and holds exactly the
    old elements and the value; the flag says whether the value is new, and
    the encoding is the wider of the two. *)
Theorem intset_add_refines junk s v s' ok : inv s -> fits 8 v -> length s < 2 ^ 29 - 1 ->
  intsetAdd junk s v = (s', ok) ->
  inv s' /\ members s' = {[ v ]} ∪ members s /\ ok = bool_decide (v ∉ members s) /\
  encoding s' = Z.max (encoding s) (_intsetValueEncoding v).
Proof.
  intros Hi Hv Hl H. rewrite (rep_len _ _ Hi) in Hl.
  destruct (add_spec junk s (values s) v s' ok Hi Hv Hl H) as [He [(-> & Hin & ->)|(-> & Hni & l & r & Hvs & Hrep)]].
  - apply elem_members in Hin. split_and!; [done|set_solver|by rewrite bool_decide_eq_false_2 by auto|done].
  - split_and!; [by eapply rep_inv| |rewrite bool_decide_eq_true_2; [done|by rewrite elem_members]|done].
    rewrite (rep_members _ _ Hrep). unfold members. rewrite Hvs. rewrite !list_to_set_app_L. simpl. set_solver.
Qed.

(** [intsetRemove] refines deletion: the result is well formed, holds
    exactly the other elements at the same encoding, and the flag says
    whether the value was present. *)
Theorem intset_remove_refines junk s v s' ok : inv s -> fits 8 v -> intsetRemove junk s v = (s', ok) ->
  inv s' /\ members s' = members s ∖ {[ v ]} /\ ok = bool_decide (v ∈ members s) /\ encoding s' = encoding s.
Proof.
  intros Hi Hv H. destruct (remove_spec junk s (values s) v s' ok Hi Hv H) as [He [(-> & Hni & ->)|(-> & l & r & Hvs & Hrep)]].
  - assert (v ∉ members s) by (by rewrite elem_members).
    split_and!; [done|set_solver|by rewrite bool_decide_eq_false_2|done].
  - assert (v ∈ members s) as Hin. { rewrite elem_members, Hvs, elem_of_app, elem_of_cons. auto. }
    split_and!; [by eapply rep_inv| |by rewrite bool_decide_eq_true_2|done].
    pose proof (rep_sorted _ _ Hi) as Hs. rewrite Hvs in Hs. apply StronglySorted_app in Hs as (Hlr & _ & Hs2).
    inversion Hs2 as [|? ? _ Hall]; subst. rewrite Forall_forall in Hall.
    rewrite (rep_members _ _ Hrep). unfold members. rewrite Hvs, !list_to_set_app_L. simpl.
    assert (v ∉ l) by (intros Hx; specialize (Hlr v v Hx (list_elem_of_here _ _)); lia).
    assert (v ∉ r) by (intros Hx; apply Hall in Hx; lia). set_solver.
Qed.

(** Queries: [intsetFind] decides membership by binary search on the
    packed array, [intsetGet] enumerates the elements in increasing order, and
    [intsetMin] and [intsetMax] are the least and greatest element. *)
Theorem intset_queries s : inv s ->
  (forall v, fits 8 v -> intsetFind s v = bool_decide (v ∈ members s)) /\
  (forall i, 0 <= i -> intsetGet s i = values s !! Z.to_nat i) /\ StronglySorted Z.lt (values s) /\
  (forall v, v ∈ members s -> intsetMin s <= v <= intsetMax s).
Proof.
  intros Hi. pose proof (rep_sorted _ _ Hi) as Hs. pose proof (rep_len _ _ Hi) as Hl. split_and!; [| |done|].
  - intros v Hv. unfold intsetFind. destruct (intsetSearch s v) as [found pos] eqn:Hse. cbn [fst].
    apply (search_spec _ _ _ _ _ Hi) in Hse as [Hpos Hse].
    destruct (Z.leb_spec (_intsetValueEncoding v) (encoding s)) as [Hle|Hlt]; cbn [andb].
    + symmetry. destruct found.
      * apply bool_decide_eq_true_2. destruct Hse as [Hlt <-]. apply elem_members.
        eapply list_elem_of_lookup_2, aget_lookup. lia.
      * apply bool_decide_eq_false_2. rewrite elem_members. intros Hin. destruct Hse as [Hb Ha].
        apply list_elem_of_lookup in Hin as [i Hlk].
        pose proof (lookup_lt_Some _ _ _ Hlk) as Hlt. specialize (Hb (Z.of_nat i)). specialize (Ha (Z.of_nat i)).
        unfold aget, alen in *. rewrite Nat2Z.id, (list_lookup_total_correct _ _ _ Hlk) in *. lia.
    + symmetry. apply bool_decide_eq_false_2. rewrite elem_members. intros Hin.
      pose proof (rep_fits _ _ Hi) as Hf. rewrite Forall_forall in Hf.
      apply Hf, fits_value in Hin; [lia|apply Hi|done].
  - intros i H0. unfold intsetGet. case_if.
    + rewrite (rep_get _ _ _ Hi) by lia. symmetry. apply aget_lookup. lia.
    + symmetry. apply lookup_ge_None_2. unfold alen in Hl. lia.
  - intros v Hin. apply elem_members, list_elem_of_lookup in Hin as [i Hlk].
    pose proof (lookup_lt_Some _ _ _ Hlk) as Hlt. unfold intsetMin, intsetMax.
    rewrite !(rep_get _ _ _ Hi) by (unfold alen in *; lia).
    assert (v = aget (values s) (Z.of_nat i)) as ->.
    { unfold aget. rewrite Nat2Z.id. symmetry. by apply list_lookup_total_correct. }
    unfold alen in *. rewrite Hl. split.
    + destruct (Z.eq_dec (Z.of_nat i) 0) as [->|]; [done|]. apply Z.lt_le_incl, sorted_lt; unfold alen; [done|lia|lia].
    + destruct (Z.eq_dec (Z.of_nat i) (Z.of_nat (Datatypes.length (values s)) - 1)) as [<-|]; [done|].
      apply Z.lt_le_incl, sorted_lt; unfold alen; [done|lia|lia].
Qed.

(** The elements of a set whose contents are the cells of [vs] are [vs]. *)
Lemma cells_values s vs : enc_ok (encoding s) -> contents s = cells (encoding s) vs -> alen vs = length s ->
  Forall (fits (encoding s)) vs -> values s = vs.
Proof.
  intros He Hc Hlv Hf. pose proof (alen_nonneg vs). apply arr_ext; [unfold values, alen in *; rewrite length_fmap, length_seqZ; lia|].
  intros i Hi. assert (0 <= i < alen vs) as Hi' by (unfold values, alen in *; rewrite length_fmap, length_seqZ in Hi; lia).
  assert (aget (values s) i = _intsetGet s i) as ->.
  { unfold values, aget. apply list_lookup_total_correct. rewrite list_lookup_fmap.
    rewrite lookup_seqZ_lt by lia. simpl. do 2 f_equal. lia. }
  destruct (list_split_at vs i Hi') as (l & r & Hvs & Hli). unfold _intsetGet. rewrite Hc, Hvs at 1.
  rewrite cells_app, cells_cons. apply get_cell; [done| |done]. by apply (Forall_aget (fits (encoding s))).
Qed.

Lemma blob_len s : inv s -> alen (blob s) = 8 + length s * encoding s.
Proof.
  intros Hi. unfold blob. rewrite !alen_app, (rep_cells _ _ Hi), alen_cells, <- (rep_len _ _ Hi) by apply (rep_enc _ _ Hi).
  unfold alen. rewrite !length_le_bytes. lia.
Qed.

Lemma size_u64 n e : in_u 32 n -> enc_ok e -> u64 (8 + u64 (n * e)) = 8 + n * e.
Proof.
  intros Hn He. assert (0 <= n * e <= 2 ^ 32 * 8).
  { destruct He as [-> | [-> | ->]]; unfold INTSET_ENC_INT16, INTSET_ENC_INT32, INTSET_ENC_INT64; mach. }
  rewrite (wrap_small 64 (n * e)) by mach. apply wrap_small. mach.
Qed.

Lemma view_length p : is_bytes p -> 8 <= alen p -> in_u 32 (length (view_blob p)).
Proof.
  intros Hb H8. pose proof (le_val_range (rd p 4 4)) as Hr. unfold alen in Hr.
  assert (Datatypes.length (rd p 4 4) = 4%nat) as L4 by (unfold rd, alen in *; rewrite length_take, length_drop; lia).
  rewrite L4 in Hr. apply Hr. unfold rd. by apply Forall_take, Forall_drop.
Qed.

Lemma ordered_sorted s : 0 < length s ->
  ordered_from s (_intsetGet s 0) 1 (Z.to_nat (length s - 1)) = true <-> StronglySorted Z.lt (values s).
Proof.
  intros Hl. rewrite ordered_from_spec. unfold values. rewrite (seqZ_cons 0 (length s)) by lia. cbn [fmap list_fmap].
  by replace (Z.pred (length s)) with (Z.of_nat (Z.to_nat (length s - 1))) by lia.
Qed.

(** What deep validation accepts is an image. *)
Lemma validate_sound p : is_bytes p -> alen p < 2 ^ 30 -> intsetValidateIntegrity p (alen p) true = true ->
  inv (view_blob p) /\ p = blob (view_blob p) /\ 0 < length (view_blob p).
Proof.
  intros Hb Hlen. unfold intsetValidateIntegrity. destruct (Z.ltb_spec (alen p) 8) as [|H8]; [done|].
  pose proof (le_bytes_split p Hb H8) as Hp. pose proof (view_length p Hb H8) as Hls. set (s := view_blob p) in *.
  change (p = blob s) in Hp. destruct (_ || _) eqn:Henc; [|done]. cbn [negb].
  assert (enc_ok (encoding s)) as He. { rewrite !orb_true_iff, !Z.eqb_eq in Henc. unfold enc_ok. tauto. }
  pose proof (enc_ok_pos _ He). assert (is_bytes (contents s)) as Hbc by (by apply Forall_drop).
  rewrite size_u64 by done. destruct (Z.eqb_spec (8 + length s * encoding s) (alen p)) as [Hsz|]; [|done]. cbn [negb].
  destruct (Z.eqb_spec (length s) 0) as [|Hne]; [done|]. intros Hord.
  destruct (cells_surj (encoding s) (contents s) (Z.to_nat (length s)) He Hbc) as (vs & Hc & Hlv & Hf).
  { assert (alen (contents s) = alen p - 8) by (unfold s, view_blob, alen; cbn; rewrite length_drop; unfold alen in *; lia).
    mach_unfold. lia. }
  assert (0 < length s < 2 ^ 29) as Hsmall by (mach_unfold; nia). split_and!; [|done|lia].
  assert (values s = vs) as Hvals by (apply cells_values; [done|done|unfold alen in *; lia|done]).
  unfold inv. rewrite Hvals. constructor; try done; [unfold alen in *; lia| |unfold alen in *; lia].
  rewrite <- Hvals. apply ordered_sorted; [lia|exact Hord].
Qed.

(** Deep validation of an untrusted buffer accepts exactly the images of
    well-formed non-empty sets (for buffers below 2^30 bytes). *)
Theorem intset_validate_exact p : is_bytes p -> alen p < 2 ^ 30 ->
  intsetValidateIntegrity p (alen p) true = true <-> exists s, inv s /\ p = blob s /\ 0 < length s.
Proof.
  intros Hb Hlen. split; [intros H; exists (view_blob p); by apply validate_sound|].
  intros (s & Hi & -> & Hpos). pose proof (rep_enc _ _ Hi) as He. pose proof (enc_ok_pos _ He).
  pose proof (rep_len _ _ Hi) as Hl. pose proof (rep_small _ _ Hi) as Hsm.
  unfold intsetValidateIntegrity. rewrite blob_view by mach. rewrite (blob_len _ Hi).
  destruct (Z.ltb_spec (8 + length s * encoding s) 8); [nia|].
  assert ((encoding s =? INTSET_ENC_INT64) || (encoding s =? INTSET_ENC_INT32) || (encoding s =? INTSET_ENC_INT16) = true) as ->
    by (destruct He as [-> | [-> | ->]]; done). cbn [negb].
  rewrite size_u64 by (done || mach).
  rewrite Z.eqb_refl, (proj2 (Z.eqb_neq (length s) 0)) by lia. cbn [negb]. apply ordered_sorted; [done|]. apply (rep_sorted _ _ Hi).
Qed.

(** The 32-bit byte count of [intsetMoveTail] limits the structure to
    fewer than 2^29 elements: at 2^29 elements of 8 bytes, well below the 2^30
    that the callers allow, the move of the whole tail moves nothing. *)
Theorem intset_move_overflow s : encoding s = INTSET_ENC_INT64 -> length s = 2 ^ 29 -> intsetMoveTail s 0 1 = s.
Proof.
  intros He Hl. destruct s as [e n c]. cbn in He, Hl. subst e n. unfold intsetMoveTail. cbn [encoding length contents].
  change (u32 (u32 (2 ^ 29 - 0) * (if INTSET_ENC_INT64 =? INTSET_ENC_INT64 then 8 else _))) with 0.
  unfold rd. change (Z.to_nat 0) with 0%nat. rewrite take_0. unfold set_contents, wr. cbn [encoding length].
  rewrite alen_nil, Z.add_0_r. cbn [app]. by rewrite take_drop.
Qed.

(** ** Witnesses *)
Definition ex_junk (i : Z) : Z := 85.
Definition ex_small : intset := (intsetAdd ex_junk (intsetAdd ex_junk (intsetAdd ex_junk intsetNew 5).1 (- 3)).1 1000).1.

Lemma ex_small_rep : rep ex_small [- 3; 5; 1000].
Proof.
  constructor; try (vm_compute; reflexivity); [by left| |].
  - repeat constructor; vm_compute; congruence.
  - repeat constructor; lia.
Qed.

Lemma ex_small_inv : inv ex_small.
Proof. exact (rep_inv _ _ ex_small_rep). Qed.

(** An addition that widens the encoding from 16 to 32 bits in place. *)
Lemma intset_add_refines_witness :
  let r := intsetAdd ex_junk ex_small (- 70000) in
  inv r.1 /\ r.2 = true /\ values r.1 = [- 70000; - 3; 5; 1000] /\ encoding r.1 = INTSET_ENC_INT32.
Proof.
  cbv zeta. destruct (intsetAdd ex_junk ex_small (- 70000)) as [s' ok] eqn:H. cbn [fst snd].
  destruct (intset_add_refines ex_junk ex_small (- 70000) s' ok) as (Hi & _ & _ & He);
    [exact ex_small_inv|vm_compute; split; congruence|vm_compute; reflexivity|exact H|].
  split; [exact Hi|]. vm_compute in H. injection H as <- <-. vm_compute. auto.
Defined.

Lemma intset_remove_refines_witness :
  let r := intsetRemove ex_junk ex_small 5 in inv r.1 /\ r.2 = true /\ values r.1 = [- 3; 1000].
Proof.
  cbv zeta. destruct (intsetRemove ex_junk ex_small 5) as [s' ok] eqn:H. cbn [fst snd].
  destruct (intset_remove_refines ex_junk ex_small 5 s' ok) as (Hi & _);
    [exact ex_small_inv|vm_compute; split; congruence|exact H|].
  split; [exact Hi|]. vm_compute in H. injection H as <- <-. vm_compute. auto.
Defined.

Lemma intset_queries_witness : intsetFind ex_small 5 = true /\ intsetMin ex_small <= 5 <= intsetMax ex_small.
Proof.
  destruct (intset_queries ex_small ex_small_inv) as (_ & _ & _ & Hm).
  split; [vm_compute; reflexivity|]. apply Hm. vm_compute. reflexivity.
Defined.

Lemma intset_validate_exact_witness :
  intsetValidateIntegrity (blob ex_small) (alen (blob ex_small)) true = true /\
  exists s, inv s /\ blob ex_small = blob s /\ 0 < length s.
Proof.
  assert (intsetValidateIntegrity (blob ex_small) (alen (blob ex_small)) true = true) as H by (vm_compute; reflexivity).
  split; [exact H|]. apply intset_validate_exact; [|vm_compute; reflexivity|exact H].
  vm_compute. repeat constructor; congruence.
Defined.

Lemma intset_move_overflow_witness :
  intsetMoveTail (mkIntset INTSET_ENC_INT64 536870912 [7]) 0 1 = mkIntset INTSET_ENC_INT64 536870912 [7].
Proof. apply (intset_move_overflow (mkIntset INTSET_ENC_INT64 536870912 [7])); reflexivity. Defined.
