(* ===== verification/SubkeyTtl.v ===== *)
(** * Per-field expiry (src/src/core/subkey_ttl.c)

    A table maps the fields of a container to expiry times; a manager scans
    the registered tables.  [entries] is the allocated array (its length is
    the capacity), of which the first [count] elements are in use.  Each
    operation runs under the table's lock, except that [subkey_ttl_expire]
    releases it around every callback: what other threads, or the callback
    itself, do to the table meanwhile is the argument [interf].  The calls of
    the callback are returned, in order. *)
From S2P Require Import Prelude.

Inductive SubkeyContainerType := SKC_HASH | SKC_SET | SKC_ZSET | SKC_LIST | SKC_JSON | SKC_VECTOR.

Record SubkeyEntry := mkEntry { field : bytes; expire_unix : Z }.  (* field_len = alen field *)
Record SubkeyTTL := mkSubkey { entries : list SubkeyEntry; count : Z; container_type : SubkeyContainerType; parent_key : bytes }.

Definition zero_entry : SubkeyEntry := mkEntry [] 0.
#[export] Instance SubkeyEntry_inhabited : Inhabited SubkeyEntry := populate zero_entry.

Definition capacity (s : SubkeyTTL) : Z := alen (entries s).
Definition set_entries (s : SubkeyTTL) (es : list SubkeyEntry) (n : Z) : SubkeyTTL :=
  mkSubkey es n (container_type s) (parent_key s).

Definition subkey_ttl_create (key : bytes) (type : SubkeyContainerType) : SubkeyTTL :=
  mkSubkey (calloc 64 zero_entry) 0 type (take 255 key).

(** The scan of set, clear and get: the first index below [count] with the field. *)
Definition find_field (s : SubkeyTTL) (f : bytes) : option Z :=
  find (fun i => bytes_eqb (field (aget (entries s) i)) f) (seqZ 0 (count s)).

Definition subkey_ttl_set (realloc_ok : bool) (s : SubkeyTTL) (f : bytes) (expire : Z) : SubkeyTTL * Z :=
  if alen f =? 0 then (s, - 1)
  else
    match find_field s f with
    | Some i => (set_entries s (aset (entries s) i (mkEntry (field (aget (entries s) i)) expire)) (count s), 1)
    | None =>
        let grow := capacity s <=? count s in
        if grow && negb realloc_ok then (s, - 1)
        else
          let es := if grow then entries s ++ calloc (u32 (capacity s * 2) - capacity s) zero_entry else entries s in
          let copy_len := if alen f <? 255 then alen f else 255 in
          (set_entries s (aset es (count s) (mkEntry (take (Z.to_nat copy_len) f) expire)) (count s +32 1), 0)
    end.

(** [entries[i] = entries[--count]] *)
Definition remove_at (s : SubkeyTTL) (i : Z) : SubkeyTTL :=
  let n := count s -32 1 in set_entries s (aset (entries s) i (aget (entries s) n)) n.

Definition subkey_ttl_clear (s : SubkeyTTL) (f : bytes) : SubkeyTTL * Z :=
  match find_field s f with
  | Some i => (remove_at s i, 1)
  | None => (s, 0)
  end.

Definition subkey_ttl_get (s : SubkeyTTL) (f : bytes) : Z :=
  match find_field s f with
  | Some i => expire_unix (aget (entries s) i)
  | None => 0
  end.

Definition expired_at (now : Z) (e : SubkeyEntry) : bool := (0 <? expire_unix e) && (expire_unix e <=? now).

Fixpoint expire_loop (fuel : nat) (interf : bytes -> SubkeyTTL -> SubkeyTTL) (now i : Z)
    (s : SubkeyTTL) (calls : list bytes) (expired : Z) : option (SubkeyTTL * list bytes * Z) :=
  match fuel with
  | O => None
  | S fuel =>
      if i <? count s then
        let e := aget (entries s) i in
        if expired_at now e then
          let s := interf (field e) s in
          expire_loop fuel interf now i (remove_at s i) (calls ++ [field e]) (expired +32 1)
        else expire_loop fuel interf now (i + 1) s calls expired
      else Some (s, calls, expired)
  end.

(** Every iteration removes an entry or advances past one, so this much fuel
    is enough when nothing is added meanwhile; [None] is a loop that has not
    ended. *)
Definition subkey_ttl_expire (interf : bytes -> SubkeyTTL -> SubkeyTTL) (now : Z) (s : SubkeyTTL)
    : option (SubkeyTTL * list bytes * Z) :=
  expire_loop (S (Z.to_nat (count s))) interf now 0 s [] 0.

Definition subkey_ttl_active_count (now : Z) (s : SubkeyTTL) : Z :=
  for_loop (count s) (fun i n =>
    let e := aget (entries s) i in if (expire_unix e =? 0) || (now <? expire_unix e) then n +32 1 else n) 0.

(** ** The manager: [tables] holds the addresses of the registered tables *)
Record SubkeyTTLManager := mkMgr { tables : list Z; mgr_capacity : Z; expired_total : Z }.

Definition subkey_mgr_create : SubkeyTTLManager := mkMgr [] 256 0.

Definition subkey_mgr_register (realloc_ok : bool) (mgr : SubkeyTTLManager) (p : Z) : SubkeyTTLManager * Z :=
  if mgr_capacity mgr <=? alen (tables mgr) then
    if realloc_ok then (mkMgr (tables mgr ++ [p]) (u32 (mgr_capacity mgr * 2)) (expired_total mgr), 0) else (mgr, - 1)
  else (mkMgr (tables mgr ++ [p]) (mgr_capacity mgr) (expired_total mgr), 0).

Definition subkey_mgr_unregister (mgr : SubkeyTTLManager) (p : Z) : SubkeyTTLManager * Z :=
  let n := alen (tables mgr) in
  match find (fun i => aget (tables mgr) i =? p) (seqZ 0 n) with
  | Some i => (mkMgr (take (Z.to_nat (n - 1)) (aset (tables mgr) i (aget (tables mgr) (n - 1)))) (mgr_capacity mgr) (expired_total mgr), 0)
  | None => (mgr, - 1)
  end.

(** One pass of the background thread over a store of tables. *)
Definition mgr_pass (now : Z) (mgr : SubkeyTTLManager) (heap : gmap Z SubkeyTTL)
    : SubkeyTTLManager * gmap Z SubkeyTTL * list bytes :=
  fold_left (fun '(mgr, heap, calls) p =>
    match heap !! p ≫= subkey_ttl_expire (fun _ s => s) now with
    | Some (s, cs, n) =>
        (mkMgr (tables mgr) (mgr_capacity mgr) (if 0 <? n then expired_total mgr +64 n else expired_total mgr),
         <[p := s]> heap, calls ++ cs)
    | None => (mgr, heap, calls)
    end) (tables mgr) (mgr, heap, []).

(** ** Representation *)
Definition used (s : SubkeyTTL) : list SubkeyEntry := take (Z.to_nat (count s)) (entries s).
Definition pair_of (e : SubkeyEntry) : bytes * Z := (field e, expire_unix e).
Definition abs (s : SubkeyTTL) : gmap bytes Z := list_to_map (pair_of <$> used s).

Record inv (s : SubkeyTTL) : Prop := {
  inv_count : 0 <= count s <= capacity s;
  inv_cap : 0 < capacity s < 2 ^ 31;
  inv_fields : NoDup (field <$> used s) }.

Lemma used_lookup s i : inv s -> 0 <= i < count s -> used s !! Z.to_nat i = Some (aget (entries s) i).
Proof.
  intros Hi Hr. unfold used. rewrite lookup_take_lt by lia. apply aget_lookup.
  pose proof (inv_count _ Hi). unfold capacity in *. lia.
Qed.

Lemma fields_abs s : (pair_of <$> used s).*1 = field <$> used s.
Proof. rewrite <- list_fmap_compose. by apply list_fmap_ext. Qed.

Lemma abs_lookup s f x : inv s -> abs s !! f = Some x <->
  exists i, 0 <= i < count s /\ field (aget (entries s) i) = f /\ expire_unix (aget (entries s) i) = x.
Proof.
  intros Hi. unfold abs. rewrite <- elem_of_list_to_map by (rewrite fields_abs; apply Hi).
  rewrite list_elem_of_fmap. setoid_rewrite list_elem_of_lookup. split.
  - intros (e & [= -> ->] & k & Hk). assert (Z.of_nat k < count s) as Hlt.
    { apply lookup_lt_Some in Hk. unfold used in Hk. rewrite length_take in Hk. lia. }
    exists (Z.of_nat k). pose proof (used_lookup s (Z.of_nat k) Hi ltac:(lia)) as Hu. rewrite Nat2Z.id in Hu.
    rewrite Hk in Hu. injection Hu as ->. split; [lia|done].
  - intros (i & Hr & <- & <-). eexists. split; [done|]. exists (Z.to_nat i). by apply used_lookup.
Qed.

Lemma find_field_spec s f : inv s -> match find_field s f with
  | Some i => 0 <= i < count s /\ field (aget (entries s) i) = f /\ abs s !! f = Some (expire_unix (aget (entries s) i))
  | None => abs s !! f = None
  end.
Proof.
  intros Hi. unfold find_field. pose proof (find_seqZ (fun i => bytes_eqb (field (aget (entries s) i)) f) (count s)) as H.
  destruct (find _ _) as [i|]; cbv beta in H.
  - destruct H as [Hr Hf]. apply bytes_eqb_eq in Hf. split_and!; [lia|lia|done|]. apply abs_lookup; [done|]. eauto.
  - destruct (abs s !! f) as [x|] eqn:Hx; [|done]. apply abs_lookup in Hx as (i & Hr & Hf & _); [|done].
    specialize (H i Hr). rewrite (proj2 (bytes_eqb_eq _ _) Hf) in H. done.
Qed.

(** ** Updates of the array *)
Lemma used_length s : inv s -> alen (used s) = count s.
Proof. intros Hi. pose proof (inv_count _ Hi). unfold used, capacity, alen in *. rewrite length_take. lia. Qed.

Lemma abs_elem s f x : inv s -> abs s !! f = Some x <-> (f, x) ∈ pair_of <$> used s.
Proof. intros Hi. unfold abs. rewrite <- elem_of_list_to_map by (rewrite fields_abs; apply Hi). done. Qed.

Lemma used_update s i e : inv s -> 0 <= i < count s -> used (set_entries s (aset (entries s) i e) (count s)) = <[Z.to_nat i := e]> (used s).
Proof. intros Hi Hr. unfold used, set_entries, aset. cbn. apply take_insert_lt. lia. Qed.

Lemma used_append s es e : inv s -> take (Z.to_nat (count s)) es = used s -> count s < alen es ->
  used (set_entries s (aset es (count s) e) (count s + 1)) = used s ++ [e].
Proof.
  intros Hi Ht Hlen. pose proof (inv_count _ Hi). unfold used, set_entries, aset. cbn.
  replace (Z.to_nat (count s + 1)) with (S (Z.to_nat (count s))) by lia.
  rewrite (take_S_r _ _ e).
  - rewrite take_insert_ge by lia. by rewrite Ht.
  - apply list_lookup_insert_eq. unfold alen in Hlen. lia.
Qed.

Lemma remove_at_perm s i : inv s -> 0 <= i < count s ->
  used s ≡ₚ aget (entries s) i :: used (remove_at s i) /\ count (remove_at s i) = count s - 1 /\
  (forall j, 0 <= j < i -> aget (entries (remove_at s i)) j = aget (entries s) j).
Proof.
  intros Hi Hr. pose proof (inv_count _ Hi) as Hc. pose proof (inv_cap _ Hi) as Hcap.
  assert (count s -32 1 = count s - 1) as Hw by (apply wrap_small; mach).
  unfold remove_at. rewrite Hw. split_and!; [|done|].
  - set (n := count s - 1). set (y := aget (entries s) n).
    assert (used s = take (Z.to_nat n) (entries s) ++ [y]) as Hu.
    { unfold used. replace (Z.to_nat (count s)) with (S (Z.to_nat n)) by lia. apply take_S_r.
      apply aget_lookup. unfold capacity in *. lia. }
    rewrite Hu. unfold used. cbn [set_entries count entries]. unfold aset.
    destruct (Z.eq_dec i n) as [->|Hne].
    + rewrite take_insert_ge by lia. fold y. by rewrite Permutation_app_comm.
    + rewrite take_insert_lt by lia. set (l := take (Z.to_nat n) (entries s)).
      assert (l !! Z.to_nat i = Some (aget (entries s) i)) as Hl.
      { unfold l. rewrite lookup_take_lt by lia. apply aget_lookup. unfold capacity in *. lia. }
      rewrite <- (take_drop_middle _ _ _ Hl) at 1. rewrite insert_take_drop by (by eapply lookup_lt_Some).
      solve_Permutation.
  - intros j Hj. cbn. apply aget_aset_ne; lia.
Qed.

Lemma remove_at_inv s i : inv s -> 0 <= i < count s -> inv (remove_at s i).
Proof.
  intros Hi Hr. destruct (remove_at_perm s i Hi Hr) as (Hp & Hc & _). pose proof (inv_count _ Hi).
  split; [rewrite Hc| |].
  - unfold capacity in *. cbn. rewrite alen_aset. lia.
  - unfold capacity. cbn. rewrite alen_aset. apply Hi.
  - pose proof (inv_fields _ Hi) as Hn. rewrite Hp in Hn. by apply NoDup_cons in Hn as [_ Hn].
Qed.

Lemma abs_remove s i : inv s -> 0 <= i < count s ->
  abs (remove_at s i) = delete (field (aget (entries s) i)) (abs s).
Proof.
  intros Hi Hr. destruct (remove_at_perm s i Hi Hr) as (Hp & _ & _). set (e := aget (entries s) i) in *.
  assert (NoDup ((pair_of <$> used s).*1)) as Hnd by (rewrite fields_abs; apply Hi).
  assert (abs s = <[field e := expire_unix e]> (abs (remove_at s i))) as ->.
  { unfold abs. rewrite (list_to_map_proper _ (pair_of <$> (e :: used (remove_at s i)))); [done|done|by rewrite Hp]. }
  rewrite delete_insert_id; [done|].
  unfold abs. apply not_elem_of_list_to_map_1. rewrite fields_abs.
  pose proof (inv_fields _ Hi) as Hn. rewrite Hp in Hn. by apply NoDup_cons in Hn as [Hn _].
Qed.

(** ** Set *)
Lemma abs_update s i x : inv s -> 0 <= i < count s ->
  let f := field (aget (entries s) i) in
  let s' := set_entries s (aset (entries s) i (mkEntry f x)) (count s) in
  inv s' /\ abs s' = <[f := x]> (abs s).
Proof.
  intros Hi Hr f s'. pose proof (used_lookup s i Hi Hr) as Hl.
  assert (used s' = <[Z.to_nat i := mkEntry f x]> (used s)) as Hu by (by apply used_update).
  assert (field <$> used s' = field <$> used s) as Hfields.
  { rewrite Hu, list_fmap_insert. apply list_insert_id. by rewrite list_lookup_fmap, Hl. }
  assert (capacity s' = capacity s) as Hcs by (unfold capacity; cbn; by rewrite alen_aset).
  assert (inv s') as Hi' by (split; [rewrite Hcs; apply Hi|rewrite Hcs; apply Hi|rewrite Hfields; apply Hi]).
  split; [done|]. apply map_eq. intros k. rewrite lookup_insert. apply option_eq. intros v.
  rewrite (abs_elem s') by done. rewrite Hu, list_fmap_insert.
  pose proof (take_drop_middle _ _ _ Hl) as Hsplit. set (l1 := take _ _) in *. set (l2 := drop _ _) in *.
  assert (length l1 = Z.to_nat i) as Hl1. { unfold l1. rewrite length_take. apply lookup_lt_Some in Hl. lia. }
  pose proof (inv_fields _ Hi) as Hnd. rewrite <- Hsplit in Hnd |- *. rewrite fmap_app, fmap_cons.
  rewrite fmap_app in Hnd. apply NoDup_app in Hnd as (Hn1 & Hd & Hn2). rewrite fmap_cons in Hn2, Hd.
  apply NoDup_cons in Hn2 as [Hn2 _]. rewrite insert_app_r_alt by (rewrite length_fmap; lia).
  replace (Z.to_nat i - length (pair_of <$> l1))%nat with 0%nat by (rewrite length_fmap; lia). cbn [insert list_insert].
  rewrite elem_of_app, elem_of_cons. fold f in Hn2, Hd.
  assert (forall l : list SubkeyEntry, (k, v) ∈ pair_of <$> l -> k ∈ field <$> l) as Hin.
  { intros l. rewrite !list_elem_of_fmap. intros (e & [= -> ->] & He). eauto. }
  case_decide as Hk.
  - subst k. split; [|intros [= ->]; by right; left]. intros [H|[H|H]]; [|by injection H as ->|]; exfalso; apply Hin in H.
    + apply (Hd _ H), list_elem_of_here.
    + done.
  - rewrite (abs_elem s) by done. rewrite <- Hsplit, fmap_app, fmap_cons, elem_of_app, elem_of_cons.
    assert ((k, v) <> pair_of (aget (entries s) i)) by (unfold pair_of; fold f; congruence).
    assert ((k, v) <> pair_of (mkEntry f x)) by (unfold pair_of; cbn; congruence). tauto.
Qed.

Lemma abs_append s es f x : inv s -> abs s !! f = None -> take (Z.to_nat (count s)) es = used s ->
  count s < alen es < 2 ^ 31 ->
  let s' := set_entries s (aset es (count s) (mkEntry f x)) (count s + 1) in inv s' /\ abs s' = <[f := x]> (abs s).
Proof.
  intros Hi Hf Ht Hlen s'. pose proof (inv_count _ Hi) as Hc.
  assert (used s' = used s ++ [mkEntry f x]) as Hu by (apply used_append; [done|done|lia]).
  assert (capacity s' = alen es) as Hcs by (unfold capacity; cbn; by rewrite alen_aset).
  assert (NoDup (field <$> (used s ++ [mkEntry f x]))) as Hnd.
  { rewrite fmap_app. apply NoDup_app. split_and!; [apply Hi| |apply NoDup_singleton].
    intros g Hg Hg'. apply list_elem_of_singleton in Hg'. cbn in Hg'. subst g. apply list_elem_of_fmap in Hg as (e & -> & He).
    assert (abs s !! field e = Some (expire_unix e)) as Hs by (apply abs_elem; [done|]; apply list_elem_of_fmap; eauto).
    congruence. }
  split; [split; [rewrite Hcs; cbn; lia|rewrite Hcs; lia|by rewrite Hu]|].
  unfold abs. rewrite Hu, fmap_app.
  rewrite (list_to_map_proper _ ((f, x) :: (pair_of <$> used s))); [done| |solve_Permutation].
  rewrite <- fmap_app, <- list_fmap_compose. exact Hnd.
Qed.

Lemma subkey_set_spec ok s f x : inv s -> alen f <= 255 -> capacity s < 2 ^ 30 -> ok = true \/ count s < capacity s ->
  let '(s', r) := subkey_ttl_set ok s f x in
  inv s' /\ if alen f =? 0 then r = - 1 /\ s' = s
  else r = (match abs s !! f with Some _ => 1 | None => 0 end) /\ abs s' = <[f := x]> (abs s).
Proof.
  intros Hi Hf Hcap2 Hok. pose proof (inv_count _ Hi) as Hc. pose proof (inv_cap _ Hi) as Hcap.
  unfold subkey_ttl_set. destruct (Z.eqb_spec (alen f) 0) as [|Hf0]; [done|].
  pose proof (find_field_spec s f Hi) as Hfind. destruct (find_field s f) as [i|].
  - destruct Hfind as (Hr & <- & ->). destruct (abs_update s i x Hi Hr) as [? ?]. done.
  - rewrite Hfind. set (grow := capacity s <=? count s). set (es := if grow then _ else _).
    assert (grow && negb ok = false) as ->.
    { unfold grow. destruct Hok as [-> | ?]; [apply andb_false_r|]. by rewrite (proj2 (Z.leb_gt _ _)) by lia. }
    assert ((if alen f <? 255 then alen f else 255) = alen f) as -> by (case_if; lia).
    assert (take (Z.to_nat (alen f)) f = f) as -> by (apply take_ge; unfold alen; lia).
    assert (u32 (capacity s * 2) = capacity s * 2) as Hu2 by (apply wrap_small; mach).
    assert (take (Z.to_nat (count s)) es = used s /\ count s < alen es /\ alen es <= 2 * capacity s) as (Ht & Hlt & Hle).
    { unfold es. rewrite Hu2. destruct grow eqn:Hg; [|unfold grow in Hg; cmp_prop; unfold used, capacity in *; split_and!; [done|lia|lia]].
      rewrite alen_app, alen_calloc by lia. unfold capacity in *. split_and!; [|lia|lia].
      unfold used. rewrite take_app_le; [done|]. unfold alen in *. lia. }
    clearbody es. assert (count s +32 1 = count s + 1) as -> by (apply wrap_small; mach).
    destruct (abs_append s es f x Hi Hfind Ht) as [? ?]; [mach_unfold; lia|done].
Qed.

(** ** Expiry with nothing else going on *)
Lemma expire_loop_spec now fuel : forall s i calls n, inv s -> 0 <= i <= count s ->
  (Z.to_nat (count s - i) < fuel)%nat -> 0 <= n -> n + count s < 2 ^ 32 ->
  (forall j, 0 <= j < i -> expired_at now (aget (entries s) j) = false) ->
  exists s' calls' n', expire_loop fuel (fun _ s => s) now i s calls n = Some (s', calls', n') /\
  inv s' /\ capacity s' = capacity s /\ exists gone, used s ≡ₚ used s' ++ gone /\
    Forall (fun e => expired_at now e = false) (used s') /\ Forall (fun e => expired_at now e = true) gone /\
    calls' = calls ++ (field <$> gone) /\ n' = n + alen gone.
Proof.
  induction fuel as [|fuel IH]; intros s i calls n Hi Hr Hf Hn Hb Hpre; [lia|].
  cbn [expire_loop]. pose proof (inv_count _ Hi) as Hc. pose proof (inv_cap _ Hi) as Hcap. case_if.
  - destruct (expired_at now (aget (entries s) i)) eqn:He.
    + destruct (remove_at_perm s i Hi ltac:(lia)) as (Hp & Hcount & Hsame).
      assert (n +32 1 = n + 1) as Hn1 by (apply wrap_small; mach).
      destruct (IH (remove_at s i) i (calls ++ [field (aget (entries s) i)]) (n +32 1))
        as (s' & calls' & n' & Hrun & Hi' & Hcs & gone & Hperm & Hlive & Hgone & -> & ->);
        [by apply remove_at_inv; [|lia]|lia|lia|rewrite Hn1; lia|rewrite Hn1; lia| |].
      { intros j Hj. rewrite Hsame by done. by apply Hpre. }
      eexists _, _, _. split; [exact Hrun|].
      split_and!; [done|rewrite Hcs; unfold capacity; cbn; apply alen_aset|].
      exists (aget (entries s) i :: gone). split_and!; [|done|by constructor| |rewrite Hn1, alen_cons; lia].
      * rewrite Hp, Hperm. solve_Permutation.
      * rewrite fmap_cons. by rewrite <- app_assoc.
    + apply IH; [done|lia|lia|lia|lia|]. intros j Hj.
      destruct (Z.eq_dec j i) as [->|]; [done|]. apply Hpre. lia.
  - eexists _, _, _. split; [done|]. assert (i = count s) as -> by lia. split_and!; [done|done|]. exists [].
    rewrite !app_nil_r, alen_nil. split_and!; [done| |constructor|done|lia].
    apply Forall_lookup. intros k e Hk. pose proof (lookup_lt_Some _ _ _ Hk) as Hlt.
    pose proof (used_length _ Hi) as Hl. unfold alen in Hl.
    pose proof (used_lookup s (Z.of_nat k) Hi ltac:(lia)) as Hu. rewrite Nat2Z.id, Hk in Hu. injection Hu as ->.
    apply Hpre. lia.
Qed.

Definition live_pair (now : Z) (p : bytes * Z) : Prop := ~ (0 < p.2 <= now).
#[export] Instance live_pair_dec now p : Decision (live_pair now p).
Proof. unfold live_pair. apply _. Defined.

Lemma expired_pair now e : expired_at now e = true <-> ~ live_pair now (pair_of e).
Proof. unfold expired_at, live_pair, pair_of. cbn. rewrite andb_true_iff, Z.ltb_lt, Z.leb_le. lia. Qed.

Lemma subkey_expire_spec now s : inv s -> exists s' calls n, subkey_ttl_expire (fun _ s => s) now s = Some (s', calls, n) /\
  inv s' /\ capacity s' = capacity s /\ count s' <= count s /\ abs s' = filter (live_pair now) (abs s) /\
  NoDup calls /\ n = alen calls /\
  (forall f, f ∈ calls <-> exists x, abs s !! f = Some x /\ ~ live_pair now (f, x)).
Proof.
  intros Hi. pose proof (inv_count _ Hi) as Hc. pose proof (inv_cap _ Hi) as Hcap.
  destruct (expire_loop_spec now (S (Z.to_nat (count s))) s 0 [] 0) as (s' & calls & n & Hrun & Hi' & Hcs & gone & Hp & Hl & Hg & -> & ->);
    [done|lia|lia|lia|mach|intros; lia|]. exists s', (field <$> gone), (alen gone). split; [exact Hrun|].
  rewrite Forall_forall in Hl, Hg.
  assert (forall f x, abs s !! f = Some x <-> abs s' !! f = Some x \/ (f, x) ∈ pair_of <$> gone) as Hsplit.
  { intros f x. rewrite !abs_elem by done. by rewrite Hp, fmap_app, elem_of_app. }
  split_and!; [done|done| | | |unfold alen; rewrite length_fmap; lia|].
  - apply Permutation_length in Hp. rewrite length_app in Hp.
    pose proof (used_length _ Hi). pose proof (used_length _ Hi'). unfold alen in *. lia.
  - apply map_eq. intros f. apply option_eq. intros x. rewrite map_lookup_filter_Some, Hsplit. split.
    + intros Ha. split; [by left|]. apply abs_elem, list_elem_of_fmap in Ha as (e & -> & He); [|done].
      apply Hl in He. destruct (decide (live_pair now (pair_of e))) as [|Hn]; [done|].
      apply expired_pair in Hn. congruence.
    + intros [[?|Hin] Hlive]; [done|]. apply list_elem_of_fmap in Hin as (e & Heq & He). rewrite Heq in Hlive.
      exfalso. by apply (proj1 (expired_pair now e)); [apply Hg|].
  - pose proof (inv_fields _ Hi) as Hn. rewrite Hp, fmap_app in Hn. by apply NoDup_app in Hn as (_ & _ & Hn).
  - intros f. rewrite list_elem_of_fmap. split.
    + intros (e & -> & He). exists (expire_unix e). split.
      * apply Hsplit. right. apply list_elem_of_fmap. eauto.
      * by apply (expired_pair now e), Hg.
    + intros (x & Ha & Hx). apply Hsplit in Ha as [Ha|Ha].
      * apply abs_elem, list_elem_of_fmap in Ha as (e & Heq & He); [|done].
        rewrite Heq in Hx. apply expired_pair in Hx. apply Hl in He. congruence.
      * apply list_elem_of_fmap in Ha as (e & [= -> ->] & He). eauto.
Qed.

(** ** Simulation

    [now] is the time of the call; [subkey_ttl_get] does not look at it.  The
    callback of an expiry leaves the table alone, and so do the other threads
    while the lock is released for it. *)
Inductive op := OSet (f : bytes) (x : Z) | OClear (f : bytes) | OGet (now : Z) (f : bytes) | OExpire (now : Z).
Inductive out := OInt (r : Z) | OCalls (n : Z) (fs : gset bytes) | ODiverges.

#[export] Instance out_inhabited : Inhabited out := populate (OInt 0).

Definition step (o : op) (s : SubkeyTTL) : SubkeyTTL * out :=
  match o with
  | OSet f x => let '(s, r) := subkey_ttl_set true s f x in (s, OInt r)
  | OClear f => let '(s, r) := subkey_ttl_clear s f in (s, OInt r)
  | OGet _ f => (s, OInt (subkey_ttl_get s f))
  | OExpire now =>
      match subkey_ttl_expire (fun _ s => s) now s with
      | Some (s, calls, n) => (s, OCalls n (list_to_set calls))
      | None => (s, ODiverges)
      end
  end.

(** The specification: a finite map from fields to expiry times; a get answers 0
    for a field that has no expiry time or has expired. *)
Definition spec_step (o : op) (m : gmap bytes Z) : gmap bytes Z * out :=
  match o with
  | OSet f x => if alen f =? 0 then (m, OInt (- 1))
                else (<[f := x]> m, OInt (match m !! f with Some _ => 1 | None => 0 end))
  | OClear f => (delete f m, OInt (match m !! f with Some _ => 1 | None => 0 end))
  | OGet now f => (m, OInt (match m !! f with Some x => if decide (live_pair now (f, x)) then x else 0 | None => 0 end))
  | OExpire now =>
      let gone := dom (filter (fun p => ~ live_pair now p) m) in
      (filter (live_pair now) m, OCalls (Z.of_nat (size gone)) gone)
  end.

(** What is asked of a call: a [uint8_t] length, and no get of a field whose
    time is over but which has not been removed yet ([subkey_get_expired]). *)
Definition op_ok (o : op) (m : gmap bytes Z) : Prop :=
  match o with OSet f _ => alen f <= 255 | OGet now f => forall x, m !! f = Some x -> live_pair now (f, x) | _ => True end.
Fixpoint run_ok (os : list op) (m : gmap bytes Z) : Prop :=
  match os with [] => True | o :: os => op_ok o m /\ run_ok os (spec_step o m).1 end.

Lemma subkey_set_shape s f x : inv s -> capacity s < 2 ^ 30 ->
  let s' := (subkey_ttl_set true s f x).1 in
  capacity s' <= Z.max (capacity s) (2 * count s) /\ count s' <= count s + 1.
Proof.
  intros Hi Hcap2. pose proof (inv_count _ Hi) as Hc. pose proof (inv_cap _ Hi) as Hcap.
  assert (count s +32 1 <= count s + 1) by (apply wrap_le; lia).
  unfold subkey_ttl_set. case_if; [cbn; lia|]. destruct (find_field s f) as [i|].
  - unfold capacity in *. cbn. rewrite alen_aset. lia.
  - rewrite andb_false_r. unfold capacity in *. cbn. rewrite alen_aset. split; [|lia]. case_if; [|lia].
    rewrite alen_app. rewrite wrap_small by mach. rewrite alen_calloc by lia. lia.
Qed.

Lemma step_refines o s : op_ok o (abs s) -> inv s -> capacity s < 2 ^ 30 ->
  let '(s', r) := step o s in inv s' /\ capacity s' <= Z.max (capacity s) (2 * count s) /\ count s' <= count s + 1 /\
  (abs s', r) = spec_step o (abs s).
Proof.
  intros Ho Hi Hcap. pose proof (inv_count _ Hi) as Hc. destruct o as [f x|f|now f|now]; cbn [step spec_step op_ok] in *.
  - pose proof (subkey_set_shape s f x Hi Hcap) as Hsh. pose proof (subkey_set_spec true s f x Hi Ho Hcap (or_introl eq_refl)) as Hs.
    destruct (subkey_ttl_set true s f x) as [s' r]. cbn [fst] in Hsh. destruct Hs as (? & Hs). split_and!; [done|lia|lia|].
    destruct (alen f =? 0); destruct Hs as [-> ->]; done.
  - unfold subkey_ttl_clear. pose proof (find_field_spec s f Hi) as Hf. destruct (find_field s f) as [i|].
    + destruct Hf as (Hr & <- & ->). destruct (remove_at_perm s i Hi Hr) as (_ & Hcount & _).
      split_and!; [by apply remove_at_inv|unfold capacity; cbn; rewrite alen_aset; unfold capacity in *; lia|lia|].
      by rewrite abs_remove.
    + rewrite Hf. split_and!; [done|lia|lia|]. by rewrite delete_id.
  - unfold subkey_ttl_get. pose proof (find_field_spec s f Hi) as Hf. destruct (find_field s f) as [i|].
    + destruct Hf as (_ & _ & Hf). rewrite Hf. split_and!; [done|lia|lia|]. by rewrite decide_True by auto.
    + rewrite Hf. split_and!; [done|lia|lia|done].
  - destruct (subkey_expire_spec now s Hi) as (s' & calls & n & -> & Hi' & Hcs & Hcount & -> & Hnd & -> & Hcalls).
    assert (list_to_set calls = dom (filter (fun p => ~ live_pair now p) (abs s))) as Hset.
    { apply set_eq. intros f. rewrite elem_of_list_to_set, Hcalls, elem_of_dom. split.
      - intros (x & Hx & Hn). exists x. by apply map_lookup_filter_Some.
      - intros [x Hx]. apply map_lookup_filter_Some in Hx as [? ?]. eauto. }
    split_and!; [done|lia|lia|]. rewrite <- Hset. unfold alen. by rewrite size_list_to_set.
Qed.

Fixpoint run (os : list op) (s : SubkeyTTL) : SubkeyTTL * list out :=
  match os with
  | [] => (s, [])
  | o :: os => let '(s, r) := step o s in let '(s, rs) := run os s in (s, r :: rs)
  end.

Fixpoint spec_run (os : list op) (m : gmap bytes Z) : gmap bytes Z * list out :=
  match os with
  | [] => (m, [])
  | o :: os => let '(m, r) := spec_step o m in let '(m, rs) := spec_run os m in (m, r :: rs)
  end.

Lemma run_refines os : forall s k, run_ok os (abs s) -> inv s -> count s <= k -> capacity s <= Z.max 64 (2 * k) ->
  k + alen os < 2 ^ 28 -> let '(s', rs) := run os s in inv s' /\ (abs s', rs) = spec_run os (abs s).
Proof.
  induction os as [|o os IH]; intros s k Ho Hi Hk Hcap Hlen; [done|].
  destruct Ho as [Ho Hos]. rewrite alen_cons in Hlen. pose proof (alen_nonneg os).
  pose proof (inv_count _ Hi).
  pose proof (step_refines o s Ho Hi ltac:(mach)) as Hs. cbn [run spec_run].
  destruct (step o s) as [s1 r]. destruct Hs as (Hi1 & Hc1 & Hn1 & Hs). rewrite <- Hs in *. cbn [fst] in Hos.
  specialize (IH s1 (k + 1) Hos Hi1 ltac:(lia) ltac:(lia) ltac:(lia)).
  destruct (run os s1) as [s2 rs]. destruct IH as [Hi2 <-]. done.
Qed.

(** ** Claims *)

(** C31. The table refines a finite map from fields to expiry times: for
    every sequence of fewer than 2^28 set, clear, get and expire calls on a
    fresh table, in which no get asks for a field that has expired without
    having been removed, memory never runs out, and the expiry callback and
    the other threads leave the table alone while its lock is released, all
    results agree with the map; an expiry ends, calls back exactly once for
    each expired field and removes exactly those. *)
Theorem subkey_ttl_refines key type os : run_ok os ∅ -> alen os < 2 ^ 28 ->
  (run os (subkey_ttl_create key type)).2 = (spec_run os ∅).2 /\
  abs (run os (subkey_ttl_create key type)).1 = (spec_run os ∅).1.
Proof.
  intros Ho Hlen. assert (inv (subkey_ttl_create key type)) as Hi by (split; vm_compute; [split; congruence..|constructor]).
  pose proof (run_refines os (subkey_ttl_create key type) 0 Ho Hi) as H.
  specialize (H ltac:(vm_compute; congruence) ltac:(vm_compute; congruence) ltac:(lia)).
  destruct (run os _) as [s' rs]. destruct H as [_ H]. change (abs (subkey_ttl_create key type)) with (∅ : gmap bytes Z) in H.
  rewrite <- H. done.
Qed.

(** [subkey_ttl_get] answers the time of a field that has expired; the comment
    of its declaration promises 0. *)
Theorem subkey_get_expired :
  (run [OSet [97] 5; OGet 10 [97]] (subkey_ttl_create [] SKC_HASH)).2 = [OInt 0; OInt 5] /\
  (spec_run [OSet [97] 5; OGet 10 [97]] ∅).2 = [OInt 0; OInt 0].
Proof. split; vm_compute; reflexivity. Qed.

(** The lock is released around the callback and the entry is then
    removed by its old index: when the callback clears the field it is told
    about (as removing the element does), the expiry drops the entry that
    took its place, and that field never expires; when there is no other
    entry, the count wraps around to 2^32 - 1. *)
Theorem subkey_expire_race :
  let s := (run [OSet [97] 5; OSet [98] 900] (subkey_ttl_create [] SKC_HASH)).1 in
  let interf f s := (subkey_ttl_clear s f).1 in
  (exists s', subkey_ttl_expire interf 10 s = Some (s', [[97]], 1) /\
     subkey_ttl_get s [98] = 900 /\ subkey_ttl_get s' [98] = 0 /\ count s' = 0) /\
  let s1 := (run [OSet [97] 5] (subkey_ttl_create [] SKC_HASH)).1 in
  count (remove_at (interf [97] s1) 0) = 2 ^ 32 - 1.
Proof.
  cbv zeta. split; [eexists; vm_compute; auto|].
  set (s := (subkey_ttl_clear _ _).1). assert (count s = 0) as Hs by (vm_compute; reflexivity).
  unfold remove_at, set_entries. cbn [count]. rewrite Hs. reflexivity.
Qed.

Lemma subkey_ttl_refines_witness :
  let os := [OSet [97] 5; OSet [98] 9; OSet [97] 7; OGet 6 [97]; OExpire 8; OGet 9 [97]; OClear [98]] in
  (run os (subkey_ttl_create [1] SKC_SET)).2 = (spec_run os ∅).2.
Proof.
  apply (subkey_ttl_refines [1] SKC_SET [OSet [97] 5; OSet [98] 9; OSet [97] 7; OGet 6 [97]; OExpire 8; OGet 9 [97]; OClear [98]]);
    [|vm_compute; reflexivity].
  cbn [run_ok op_ok]. split_and!; try (vm_compute; congruence); try exact I; intros x Hx; vm_compute in Hx.
  injection Hx as <-. vm_compute. intros [_ H]. by apply H.
Defined.
