(* ===== verification/WebSocket.v ===== *)
(** * WebSocket connections (src/src/network/websocket.c)

    The frame codec, the connection state machine with its receive buffer,
    the JSON responses, and the handshake key (SHA-1 and Base64).  What the
    socket does is data: the results of the two [send] calls of a frame are the
    argument [tx] (a count of bytes, or negative for an error), the bytes sent
    are part of the result, and one [recv] is an argument [rx].  [read_buf] holds the [read_len]
    bytes in use; the capacity is a field.  Reads of the stack buffer beyond
    its size are [None]. *)
From Stdlib Require Import Ascii String.
From S2P Require Import Prelude.

Definition bytes_of (s : string) : bytes := map (fun c => Z.of_nat (nat_of_ascii c)) (list_ascii_of_string s).

Definition WS_OP_CONTINUATION : Z := 0.
Definition WS_OP_TEXT : Z := 1.
Definition WS_OP_BINARY : Z := 2.
Definition WS_OP_CLOSE : Z := 8.
Definition WS_OP_PING : Z := 9.
Definition WS_OP_PONG : Z := 10.
Definition WS_MAX_PAYLOAD : Z := 16 * 1024 * 1024.
Definition WS_GUID : bytes := bytes_of "258EAFA5-E914-47DA-95CA-C5AB0DC85B11".

Inductive WsState := WS_STATE_CONNECTING | WS_STATE_HANDSHAKE | WS_STATE_OPEN | WS_STATE_CLOSING | WS_STATE_CLOSED.
#[export] Instance WsState_eq_dec : EqDecision WsState.
Proof. solve_decision. Defined.

Record WsFrame := mkFrame { fin : Z; opcode : Z; masked : Z; masking_key : bytes; payload : bytes }.

Record WsConn := mkConn {
  state : WsState; read_buf : bytes; read_cap : Z;
  frames_received : Z; frames_sent : Z; bytes_received : Z; bytes_sent : Z }.

Definition ws_conn_create : WsConn := mkConn WS_STATE_CONNECTING [] 65536 0 0 0 0.
Definition set_state (c : WsConn) (st : WsState) : WsConn :=
  mkConn st (read_buf c) (read_cap c) (frames_received c) (frames_sent c) (bytes_received c) (bytes_sent c).
Definition set_read (c : WsConn) (buf : bytes) (cap : Z) : WsConn :=
  mkConn (state c) buf cap (frames_received c) (frames_sent c) (bytes_received c) (bytes_sent c).

(** ** Masking *)
Fixpoint mask_from (i : nat) (data mask : bytes) : bytes :=
  match data with
  | [] => []
  | b :: data => Z.lxor b (mask !!! (i mod 4)%nat) :: mask_from (S i) data mask
  end.
Definition ws_mask_payload (data mask : bytes) : bytes := mask_from 0 data mask.

(** ** Sending *)
Definition frame_header (op data_len : Z) : bytes :=
  Z.lor 128 op ::
  (if data_len <=? 125 then [u8 data_len]
   else if data_len <=? 65535 then [126; u8 (Z.shiftr data_len 8); u8 (Z.land data_len 255)]
   else 127 :: map (fun i => u8 (Z.land (Z.shiftr data_len (i * 8)) 255)) [7; 6; 5; 4; 3; 2; 1; 0]).

(** [tx] holds the results of sending the header and the payload.  The result
    is the connection, the bytes that went out and the return value. *)
Definition ws_send_frame (tx : Z * Z) (c : WsConn) (op : Z) (data : bytes) : WsConn * bytes * Z :=
  if bool_decide (state c = WS_STATE_OPEN) then
    let header := frame_header op (alen data) in
    if tx.1 <? 0 then (c, [], - 1)
    else
      let out := take (Z.to_nat tx.1) header in
      if (0 <? alen data) && (tx.2 <? 0) then (c, out, - 1)
      else
        (mkConn (state c) (read_buf c) (read_cap c) (frames_received c) (frames_sent c +64 1) (bytes_received c)
           (u64 (bytes_sent c + (alen header + alen data))), out ++ take (Z.to_nat tx.2) data, 0)
  else (c, [], - 1).

Definition ws_send_text (tx : Z * Z) (c : WsConn) (text : bytes) : WsConn * bytes * Z := ws_send_frame tx c WS_OP_TEXT text.
Definition ws_send_binary (tx : Z * Z) (c : WsConn) (data : bytes) : WsConn * bytes * Z := ws_send_frame tx c WS_OP_BINARY data.
Definition ws_send_ping (tx : Z * Z) (c : WsConn) : WsConn * bytes * Z := ws_send_frame tx c WS_OP_PING [].

Definition ws_send_close (tx : Z * Z) (c : WsConn) (code : Z) (reason : bytes) : WsConn * bytes * Z :=
  let payload := u8 (Z.shiftr code 8) :: u8 (Z.land code 255) :: take 120 reason in
  ws_send_frame tx (set_state c WS_STATE_CLOSING) WS_OP_CLOSE payload.

(** ** Receiving *)
Inductive parse_result := PNeedMore | PError | PFrame (f : WsFrame) (size : Z).

(** The parsing part of [ws_read_frame] on the bytes available: the payload
    of a frame whose length is known, and before it the header. *)
Definition parse_body (buf : bytes) (fin opcode masked payload_len offset : Z) : parse_result :=
  let avail := alen buf in
  if WS_MAX_PAYLOAD <? payload_len then PError
  else if (masked =? 1) && (avail <? offset + 4) then PNeedMore
  else
    let key := if masked =? 1 then take 4 (drop (Z.to_nat offset) buf) else [] in
    let offset := if masked =? 1 then offset + 4 else offset in
    if avail <? offset + payload_len then PNeedMore
    else
      let raw := take (Z.to_nat payload_len) (drop (Z.to_nat offset) buf) in
      PFrame (mkFrame fin opcode masked key (if masked =? 1 then ws_mask_payload raw key else raw)) (offset + payload_len).

Definition parse_frame (buf : bytes) : parse_result :=
  let avail := alen buf in
  if avail <? 2 then PNeedMore
  else
    let b0 := aget buf 0 in
    let b1 := aget buf 1 in
    let fin := Z.land (Z.shiftr b0 7) 1 in
    let opcode := Z.land b0 15 in
    let masked := Z.land (Z.shiftr b1 7) 1 in
    let len7 := Z.land b1 127 in
    if len7 =? 126 then
      if avail <? 4 then PNeedMore
      else parse_body buf fin opcode masked (Z.lor (u64 (Z.shiftl (aget buf 2) 8)) (aget buf 3)) 4
    else if len7 =? 127 then
      if avail <? 10 then PNeedMore
      else parse_body buf fin opcode masked
             (fold_left (fun l i => Z.lor (u64 (Z.shiftl l 8)) (aget buf (2 + i))) [0; 1; 2; 3; 4; 5; 6; 7] 0) 10
    else parse_body buf fin opcode masked len7 2.

Inductive recv_result := RData (b : bytes) | RClosed | RWouldBlock | RError.
Inductive read_result := ReadErr | ReadMore | ReadFrame (f : WsFrame).

Definition grow_buffer (realloc_ok : bool) (c : WsConn) : WsConn :=
  if (read_cap c - alen (read_buf c) <? 4096) && (read_cap c <? WS_MAX_PAYLOAD) then
    let new_cap := read_cap c * 2 in
    let new_cap := if WS_MAX_PAYLOAD + 16 <? new_cap then WS_MAX_PAYLOAD + 16 else new_cap in
    if realloc_ok then set_read c (read_buf c) new_cap else c
  else c.

Definition ws_read_frame (realloc_ok : bool) (rx : recv_result) (c : WsConn) : WsConn * read_result :=
  if negb (bool_decide (state c = WS_STATE_OPEN)) then (c, ReadErr)
  else
    let c := grow_buffer realloc_ok c in
    let room := alen (read_buf c) <? read_cap c in
    let received := if room then rx else RClosed in
    let failed := match received with RClosed => room | RError => true | _ => false end in
    if failed then (c, ReadErr)
    else
      let c := match received with
               | RData b => set_read c (read_buf c ++ take (Z.to_nat (read_cap c - alen (read_buf c))) b) (read_cap c)
               | _ => c
               end in
      match parse_frame (read_buf c) with
      | PNeedMore => (c, ReadMore)
      | PError => (c, ReadErr)
      | PFrame f size =>
          (mkConn (state c) (drop (Z.to_nat size) (read_buf c)) (read_cap c) (frames_received c +64 1) (frames_sent c)
             (bytes_received c +64 size) (bytes_sent c), ReadFrame f)
      end.

(** ** JSON responses *)
Definition hex_digit (n : Z) : Z := if n <? 10 then 48 + n else 87 + n.

Definition escape_char (c : Z) : bytes :=
  if c =? 34 then [92; 34]
  else if c =? 92 then [92; 92]
  else if c =? 10 then [92; 110]
  else if c =? 13 then [92; 114]
  else if c =? 9 then [92; 116]
  else if c <? 32 then [92; 117; 48; 48; hex_digit (c / 16); hex_digit (c mod 16)]
  else [c].

(** [src] is a C string: it ends at its first zero byte. *)
Fixpoint ws_json_escape_from (src out : bytes) (dst_cap : Z) : bytes :=
  match src with
  | [] => out
  | c :: src =>
      if (c =? 0) || negb (alen out + 6 <? dst_cap) then out
      else ws_json_escape_from src (out ++ escape_char c) dst_cap
  end.
Definition ws_json_escape (src : bytes) (dst_cap : Z) : bytes := ws_json_escape_from src [] dst_cap.

Definition QUOTE : bytes := [34].

Definition response_text (req_id : bytes) (result error : option bytes) : bytes :=
  match error with
  | Some error =>
      bytes_of "{" ++ QUOTE ++ bytes_of "ok" ++ QUOTE ++ bytes_of ":false," ++ QUOTE ++ bytes_of "error" ++ QUOTE ++ bytes_of ":" ++
      QUOTE ++ ws_json_escape error 2048 ++ QUOTE ++ bytes_of "," ++ QUOTE ++ bytes_of "id" ++ QUOTE ++ bytes_of ":" ++
      QUOTE ++ ws_json_escape req_id 2048 ++ QUOTE ++ bytes_of "}"
  | None =>
      let literal := match result with Some (34 :: _) => true | _ => false end in
      let q := if (literal : bool) then [] else QUOTE in
      let body := match result with Some r => if literal then r else ws_json_escape r 2048 | None => bytes_of "null" end in
      bytes_of "{" ++ QUOTE ++ bytes_of "ok" ++ QUOTE ++ bytes_of ":true," ++ QUOTE ++ bytes_of "result" ++ QUOTE ++ bytes_of ":" ++
      q ++ body ++ q ++ bytes_of "," ++ QUOTE ++ bytes_of "id" ++ QUOTE ++ bytes_of ":" ++
      QUOTE ++ ws_json_escape req_id 2048 ++ QUOTE ++ bytes_of "}"
  end.

(** [snprintf] into [buf[8192]] keeps 8191 bytes but returns the full length,
    and that many bytes of [buf] are sent. *)
Definition ws_send_response (tx : Z * Z) (c : WsConn) (req_id : bytes) (result error : option bytes) : option (WsConn * bytes * Z) :=
  let text := response_text req_id result error in
  let buf := take (Z.to_nat 8191) text ++ [0] in
  if 8192 <? alen text then None else Some (ws_send_text tx c (take (Z.to_nat (alen text)) buf)).

(** ** SHA-1 and Base64 of the handshake *)
Record SHA1Ctx := mkSha { sha_h : list Z; sha_buf : bytes; sha_total : Z }.  (* len = alen sha_buf *)

Definition sha1_init : SHA1Ctx := mkSha [1732584193; 4023233417; 2562383102; 271733878; 3285377520] [] 0.
Definition SHA1_ROL (v n : Z) : Z := Z.lor (u32 (Z.shiftl v n)) (Z.shiftr v (32 - n)).

Definition sha1_schedule (blk : bytes) : list Z :=
  let w := map (fun i => Z.lor (Z.lor (Z.lor (Z.shiftl (aget blk (i * 4)) 24) (Z.shiftl (aget blk (i * 4 + 1)) 16))
                                      (Z.shiftl (aget blk (i * 4 + 2)) 8)) (aget blk (i * 4 + 3))) (seqZ 0 16) in
  fold_left (fun w i => w ++ [SHA1_ROL (Z.lxor (Z.lxor (Z.lxor (aget w (i - 3)) (aget w (i - 8))) (aget w (i - 14))) (aget w (i - 16))) 1])
    (seqZ 16 64) w.

Definition sha1_round (w : list Z) (i : Z) (st : Z * Z * Z * Z * Z) : Z * Z * Z * Z * Z :=
  let '(a, b, c, d, e) := st in
  let '(f, k) :=
    if i <? 20 then (Z.lor (Z.land b c) (Z.land (u32 (Z.lnot b)) d), 1518500249)
    else if i <? 40 then (Z.lxor (Z.lxor b c) d, 1859775393)
    else if i <? 60 then (Z.lor (Z.lor (Z.land b c) (Z.land b d)) (Z.land c d), 2400959708)
    else (Z.lxor (Z.lxor b c) d, 3395469782) in
  let t := u32 (SHA1_ROL a 5 + f + e + k + aget w i) in
  (t, a, SHA1_ROL b 30, c, d).

Definition sha1_process (c : SHA1Ctx) (blk : bytes) : list Z :=
  let w := sha1_schedule blk in
  let h := aget (sha_h c) in
  let '(a, b, cc, d, e) := for_loop 80 (sha1_round w) (h 0, h 1, h 2, h 3, h 4) in
  [h 0 +32 a; h 1 +32 b; h 2 +32 cc; h 3 +32 d; h 4 +32 e].

Definition sha1_update (c : SHA1Ctx) (data : bytes) : SHA1Ctx :=
  fold_left (fun c x =>
    let c := mkSha (sha_h c) (sha_buf c ++ [x]) (sha_total c +32 1) in
    if alen (sha_buf c) =? 64 then mkSha (sha1_process c (sha_buf c)) [] (sha_total c) else c) data c.

Definition pad_to (n : Z) (buf : bytes) : bytes := buf ++ calloc (n - alen buf) 0.

Definition sha1_final (c : SHA1Ctx) : bytes :=
  let c := mkSha (sha_h c) (sha_buf c ++ [128]) (sha_total c) in
  let c := if 56 <? alen (sha_buf c) then mkSha (sha1_process c (pad_to 64 (sha_buf c))) [] (sha_total c) else c in
  let bits := u64 (sha_total c * 8) in
  let blk := pad_to 56 (sha_buf c) ++ map (fun i => Z.land (Z.shiftr bits (8 * (7 - i))) 255) (seqZ 0 8) in
  concat (map (fun x => [Z.land (Z.shiftr x 24) 255; Z.land (Z.shiftr x 16) 255; Z.land (Z.shiftr x 8) 255; Z.land x 255]) (sha1_process c blk)).

Definition B64 : bytes := bytes_of "ABCDEFGHIJKLMNOPQRSTUVWXYZabcdefghijklmnopqrstuvwxyz0123456789+/".
Definition b64_group (a b c : Z) : bytes :=
  let triple := Z.lor (Z.lor (Z.shiftl a 16) (Z.shiftl b 8)) c in
  map (fun sh => aget B64 (Z.land (Z.shiftr triple sh) 63)) [18; 12; 6; 0].

Fixpoint b64_loop (x out : bytes) (out_cap : Z) : option bytes :=
  match x with
  | [] => Some out
  | a :: b :: c :: x => if out_cap <? alen out + 5 then None else b64_loop x (out ++ b64_group a b c) out_cap
  | [a; b] => if out_cap <? alen out + 5 then None else Some (out ++ b64_group a b 0)
  | [a] => if out_cap <? alen out + 5 then None else Some (out ++ b64_group a 0 0)
  end.

(** [None] is the result -1. *)
Definition base64_encode (x : bytes) (out_cap : Z) : option bytes :=
  out ← b64_loop x [] out_cap;
  let j := alen out in
  Some (if alen x mod 3 =? 1 then aset (aset out (j - 2) 61) (j - 1) 61
        else if alen x mod 3 =? 2 then aset out (j - 1) 61 else out).

(** [snprintf] into [combined[256]] keeps 255 bytes. *)
Definition ws_compute_accept_key (client_key : bytes) : option bytes :=
  base64_encode (sha1_final (sha1_update sha1_init (take 255 (client_key ++ WS_GUID)))) 64.

(** ** Handshake *)
Fixpoint memmem (hay needle : bytes) (pos : Z) : option Z :=
  if bytes_eqb (take (List.length needle) hay) needle then Some pos
  else match hay with [] => None | _ :: hay => memmem hay needle (pos + 1) end.

Definition found (hay needle : bytes) : bool := match memmem hay needle 0 with Some _ => true | None => false end.

Definition ws_detect_upgrade (data : bytes) : bool :=
  if alen data <? 4 then false
  else found data (bytes_of "Upgrade: websocket") || found data (bytes_of "upgrade: websocket") || found data (bytes_of "Upgrade:websocket").

Fixpoint take_key (n : nat) (b : bytes) : bytes :=
  match n, b with
  | S n, c :: b => if (c =? 13) || (c =? 10) then [] else c :: take_key n b
  | _, _ => []
  end.

Definition CRLF : bytes := [13; 10].
(** A buffer read as a C string. *)
Fixpoint c_string (b : bytes) : bytes :=
  match b with
  | [] => []
  | c :: b => if c =? 0 then [] else c :: c_string b
  end.

(** The connection, the response that is sent and the result. *)
Definition ws_handshake (tx : Z) (c : WsConn) (request : bytes) : WsConn * bytes * Z :=
  let upper := bytes_of "Sec-WebSocket-Key: " in
  let key_str := if found request upper then upper else bytes_of "sec-websocket-key: " in
  match memmem request key_str 0 with
  | None => (c, [], - 1)
  | Some p =>
      let client_key := take_key 63 (drop (Z.to_nat (p + alen key_str)) request) in
      match ws_compute_accept_key (c_string client_key) with
      | None => (c, [], - 1)
      | Some accept =>
          let response :=
            bytes_of "HTTP/1.1 101 Switching Protocols" ++ CRLF ++ bytes_of "Upgrade: websocket" ++ CRLF ++
            bytes_of "Connection: Upgrade" ++ CRLF ++ bytes_of "Sec-WebSocket-Accept: " ++ accept ++ CRLF ++
            bytes_of "Sec-WebSocket-Version: 13" ++ CRLF ++ CRLF in
          let out := take (Z.to_nat tx) response in
          if tx =? alen response then (set_state c WS_STATE_OPEN, out, 0) else (c, out, - 1)
      end
  end.

(** ** The wire format

    A frame as a peer sends it: unmasked as in [ws_send_frame], or with a
    4-byte masking key as RFC 6455 requires of clients. *)
Definition len_code (n : Z) : Z := if n <=? 125 then n else if n <=? 65535 then 126 else 127.
Definition len_ext (n : Z) : bytes := drop 2 (frame_header 0 n).
Definition wire (op : Z) (key : option bytes) (data : bytes) : bytes :=
  match key with
  | None => frame_header op (alen data) ++ data
  | Some k => Z.lor 128 op :: Z.lor 128 (len_code (alen data)) :: len_ext (alen data) ++ k ++ ws_mask_payload data k
  end.

Lemma mask_from_involutive data mask : forall i, mask_from i (mask_from i data mask) mask = data.
Proof.
  induction data as [|b data IH]; intros i; [done|]. cbn [mask_from]. rewrite IH. f_equal.
  by rewrite Z.lxor_assoc, Z.lxor_nilpotent, Z.lxor_0_r.
Qed.

Lemma length_mask_from data mask : forall i, List.length (mask_from i data mask) = List.length data.
Proof. induction data as [|b data IH]; intros i; [done|]. cbn [mask_from]. simpl. by rewrite IH. Qed.

Lemma alen_mask data mask : alen (ws_mask_payload data mask) = alen data.
Proof. unfold alen, ws_mask_payload. by rewrite length_mask_from. Qed.

Lemma len_code_range n : 0 <= n -> 0 <= len_code n < 128.
Proof. intros. unfold len_code. repeat case_if; lia. Qed.

Lemma lor_128 x : 0 <= x < 128 -> Z.lor 128 x = x + 128.
Proof. intros Hx. rewrite Z.lor_comm. pose proof (lor_pack x 1 7) as H. change (Z.shiftl 1 7) with 128 in H. rewrite H; [lia|mach|lia|lia]. Qed.

Lemma byte0 op : 0 <= op < 16 ->
  Z.land (Z.shiftr (Z.lor 128 op) 7) 1 = 1 /\ Z.land (Z.lor 128 op) 15 = op.
Proof.
  intros Hop. rewrite lor_128 by lia. change 15 with (Z.ones 4). change 1 with (Z.ones 1) at 1.
  rewrite Z.shiftr_div_pow2, !Z.land_ones by lia. change (2 ^ 7) with 128. change (2 ^ 4) with 16. change (2 ^ 1) with 2.
  Z.to_euclidean_division_equations; lia.
Qed.

Lemma byte1_masked x : 0 <= x < 128 -> Z.land (Z.shiftr (Z.lor 128 x) 7) 1 = 1 /\ Z.land (Z.lor 128 x) 127 = x.
Proof.
  intros Hx. rewrite lor_128 by lia. change 127 with (Z.ones 7). change 1 with (Z.ones 1) at 1.
  rewrite Z.shiftr_div_pow2, !Z.land_ones by lia. change (2 ^ 7) with 128. change (2 ^ 1) with 2.
  Z.to_euclidean_division_equations; lia.
Qed.

Lemma byte1_plain x : 0 <= x < 128 -> Z.land (Z.shiftr x 7) 1 = 0 /\ Z.land x 127 = x.
Proof.
  intros Hx. change 127 with (Z.ones 7). change 1 with (Z.ones 1).
  rewrite Z.shiftr_div_pow2, !Z.land_ones by lia. change (2 ^ 7) with 128. change (2 ^ 1) with 2.
  Z.to_euclidean_division_equations; lia.
Qed.

Lemma len16 n : 125 < n <= 65535 -> Z.lor (u64 (Z.shiftl (u8 (Z.shiftr n 8)) 8)) (u8 (Z.land n 255)) = n.
Proof.
  intros Hn. change 255 with (Z.ones 8). rewrite Z.land_ones, Z.shiftr_div_pow2 by lia. change (2 ^ 8) with 256.
  assert (0 <= n / 256 < 256 /\ 0 <= n mod 256 < 256 /\ n = 256 * (n / 256) + n mod 256) as (Hq & Hr & Hd)
    by (Z.to_euclidean_division_equations; lia).
  rewrite !(wrap_small 8) by mach. rewrite (shl_fits _ _ 8) by (mach || lia). rewrite Z.lor_comm, lor_pack by mach.
  change (2 ^ 8) with 256. lia.
Qed.

(** The big-endian accumulation of the 8-byte length. *)
Lemma be_step q n i : 0 <= i -> 0 <= n < 2 ^ 56 -> q = n / 2 ^ (8 * (i + 1)) ->
  Z.lor (u64 (Z.shiftl q 8)) (u8 (Z.land (Z.shiftr n (i * 8)) 255)) = n / 2 ^ (8 * i).
Proof.
  intros Hi Hn ->. change 255 with (Z.ones 8). rewrite Z.land_ones, Z.shiftr_div_pow2 by lia.
  replace (i * 8) with (8 * i) by lia. set (x := n / 2 ^ (8 * i)).
  assert (0 < 2 ^ (8 * i)) by (apply Z.pow_pos_nonneg; lia).
  assert (n / 2 ^ (8 * (i + 1)) = x / 256) as ->.
  { unfold x. replace (8 * (i + 1)) with (8 * i + 8) by lia. rewrite Z.pow_add_r by lia.
    change (2 ^ 8) with 256. by rewrite Z.div_div by lia. }
  assert (0 <= x <= n) as Hx by (unfold x; split; [apply Z.div_pos; lia|apply Z.div_le_upper_bound; nia]).
  change (2 ^ 8) with 256. assert (0 <= x mod 256 < 256 /\ x = 256 * (x / 256) + x mod 256 /\ 0 <= x / 256 <= x) as (Hr & Hd & Hq)
    by (Z.to_euclidean_division_equations; lia).
  rewrite (wrap_small 8) by mach. rewrite (shl_fits _ _ 56) by (mach || lia). rewrite Z.lor_comm, lor_pack by mach.
  change (2 ^ 8) with 256. lia.
Qed.

Lemma frame_header_eq op n : 0 <= n -> frame_header op n = Z.lor 128 op :: len_code n :: len_ext n.
Proof.
  intros Hn. unfold frame_header, len_code, len_ext. destruct (Z.leb_spec n 125); [|destruct (Z.leb_spec n 65535)].
  - unfold frame_header. rewrite (proj2 (Z.leb_le n 125)) by done. simpl. by rewrite wrap_small by mach.
  - unfold frame_header. rewrite (proj2 (Z.leb_gt n 125)), (proj2 (Z.leb_le n 65535)) by lia. done.
  - unfold frame_header. rewrite (proj2 (Z.leb_gt n 125)), (proj2 (Z.leb_gt n 65535)) by lia. done.
Qed.

Lemma len_ext_small n : 0 <= n <= 125 -> len_code n = n /\ len_ext n = [].
Proof. intros. unfold len_code, len_ext, frame_header. rewrite (proj2 (Z.leb_le n 125)) by lia. done. Qed.

Lemma len_ext_16 n : 125 < n <= 65535 -> len_code n = 126 /\ len_ext n = [u8 (Z.shiftr n 8); u8 (Z.land n 255)].
Proof.
  intros. unfold len_code, len_ext, frame_header.
  rewrite (proj2 (Z.leb_gt n 125)), (proj2 (Z.leb_le n 65535)) by lia. done.
Qed.

Lemma len_ext_64 n : 65535 < n -> len_code n = 127 /\
  len_ext n = map (fun i => u8 (Z.land (Z.shiftr n (i * 8)) 255)) [7; 6; 5; 4; 3; 2; 1; 0].
Proof.
  intros. unfold len_code, len_ext, frame_header.
  rewrite (proj2 (Z.leb_gt n 125)), (proj2 (Z.leb_gt n 65535)) by lia. done.
Qed.

Lemma be_val n a b c d e f g h tail : 0 <= n < 2 ^ 56 -> [a; b; c; d; e; f; g; h] = map (fun i => u8 (Z.land (Z.shiftr n (i * 8)) 255)) [7; 6; 5; 4; 3; 2; 1; 0] ->
  forall x y, fold_left (fun l i => Z.lor (u64 (Z.shiftl l 8)) (aget (x :: y :: a :: b :: c :: d :: e :: f :: g :: h :: tail) (2 + i)))
    [0; 1; 2; 3; 4; 5; 6; 7] 0 = n.
Proof.
  intros Hn Heq x y. cbn [map] in Heq. injection Heq as -> -> -> -> -> -> -> ->. cbn [fold_left].
  do 8 match goal with |- context [aget (x :: y :: ?l) (2 + ?i)] =>
    let v := eval cbv [aget lookup_total list_lookup_total Z.to_nat Z.add Pos.to_nat Pos.iter_op Nat.add Pos.add Pos.succ] in (aget (x :: y :: l) (2 + i)) in
    change (aget (x :: y :: l) (2 + i)) with v end.
  assert (0 = n / 2 ^ (8 * (7 + 1))) as H8 by (symmetry; apply Z.div_small; mach).
  rewrite H8 at 1.
  rewrite (be_step _ n 7), (be_step _ n 6), (be_step _ n 5), (be_step _ n 4), (be_step _ n 3), (be_step _ n 2), (be_step _ n 1), (be_step _ n 0)
    by (done || lia). change (2 ^ (8 * 0)) with 1. apply Z.div_1_r.
Qed.

(** A complete header is read off as the length and the offset it encodes. *)
Lemma parse_head b0 b1 n tail : 0 <= n < 2 ^ 56 -> Z.land b1 127 = len_code n ->
  let buf := b0 :: b1 :: len_ext n ++ tail in
  parse_frame buf = parse_body buf (Z.land (Z.shiftr b0 7) 1) (Z.land b0 15) (Z.land (Z.shiftr b1 7) 1) n (2 + alen (len_ext n)).
Proof.
  intros Hn Hb buf. unfold parse_frame.
  assert (2 <= alen buf) as Hl by (unfold buf; rewrite !alen_cons; pose proof (alen_nonneg (len_ext n ++ tail)); lia).
  rewrite (proj2 (Z.ltb_ge (alen buf) 2)) by lia.
  change (aget buf 0) with b0. change (aget buf 1) with b1. rewrite Hb. unfold buf in *.
  destruct (Z.le_gt_cases n 125); [|destruct (Z.le_gt_cases n 65535)].
  - destruct (len_ext_small n) as [-> ->]; [lia|].
    rewrite (proj2 (Z.eqb_neq n 126)), (proj2 (Z.eqb_neq n 127)) by lia. done.
  - destruct (len_ext_16 n) as [-> ->]; [lia|]. change (126 =? 126) with true. cbn match.
    rewrite (proj2 (Z.ltb_ge _ 4)) by (rewrite !alen_cons, alen_app, !alen_cons, alen_nil; pose proof (alen_nonneg tail); lia).
    cbn [app]. change (aget (_ :: _ :: ?x :: _) 2) with x. change (aget (_ :: _ :: _ :: ?x :: _) 3) with x.
    rewrite len16 by lia. done.
  - destruct (len_ext_64 n) as [-> Hext]; [lia|]. change (127 =? 126) with false. change (127 =? 127) with true. cbn match.
    destruct (len_ext n) as [|a [|b [|c [|d [|e [|f [|g [|h [|]]]]]]]]] eqn:Hx; try discriminate Hext.
    rewrite (proj2 (Z.ltb_ge _ 10)) by (rewrite !alen_cons, alen_app, !alen_cons, alen_nil; pose proof (alen_nonneg tail); lia).
    cbn [app]. rewrite (be_val n) by done. done.
Qed.

Lemma body_short buf fin op masked n off : n <= WS_MAX_PAYLOAD -> masked = 0 \/ masked = 1 -> 0 <= n ->
  alen buf < off + 4 * masked + n -> parse_body buf fin op masked n off = PNeedMore.
Proof.
  intros Hn Hm H0 Hs. unfold parse_body. rewrite (proj2 (Z.ltb_ge WS_MAX_PAYLOAD n)) by lia.
  destruct Hm as [-> | ->].
  - change (0 =? 1) with false. cbn [andb]. by rewrite (proj2 (Z.ltb_lt _ _)) by lia.
  - change (1 =? 1) with true. cbn [andb]. case_if; [done|]. by rewrite (proj2 (Z.ltb_lt _ _)) by lia.
Qed.

Lemma body_plain hdr data rest fin op : alen data <= WS_MAX_PAYLOAD ->
  parse_body (hdr ++ data ++ rest) fin op 0 (alen data) (alen hdr) =
  PFrame (mkFrame fin op 0 [] data) (alen hdr + alen data).
Proof.
  intros Hn. unfold parse_body. rewrite (proj2 (Z.ltb_ge WS_MAX_PAYLOAD _)) by lia. change (0 =? 1) with false. cbn [andb].
  rewrite !alen_app. rewrite (proj2 (Z.ltb_ge _ _)) by (pose proof (alen_nonneg rest); lia).
  unfold alen. rewrite !Nat2Z.id, drop_app_length, take_app_length. done.
Qed.

Lemma body_masked hdr key data rest fin op : alen data <= WS_MAX_PAYLOAD -> alen key = 4 ->
  parse_body (hdr ++ key ++ ws_mask_payload data key ++ rest) fin op 1 (alen data) (alen hdr) =
  PFrame (mkFrame fin op 1 key data) (alen hdr + 4 + alen data).
Proof.
  intros Hn Hk. unfold parse_body. rewrite (proj2 (Z.ltb_ge WS_MAX_PAYLOAD _)) by lia. change (1 =? 1) with true. cbn [andb].
  rewrite !alen_app, alen_mask, Hk. pose proof (alen_nonneg rest). pose proof (alen_nonneg data).
  rewrite !(proj2 (Z.ltb_ge _ _)) by lia.
  assert (take 4 (drop (Z.to_nat (alen hdr)) (hdr ++ key ++ ws_mask_payload data key ++ rest)) = key) as ->.
  { unfold alen in *. rewrite Nat2Z.id, drop_app_length. apply take_app_length'. lia. }
  assert (take (Z.to_nat (alen data)) (drop (Z.to_nat (alen hdr + 4)) (hdr ++ key ++ ws_mask_payload data key ++ rest)) =
    ws_mask_payload data key) as ->.
  { rewrite app_assoc. unfold alen in *. rewrite drop_app_length' by (rewrite length_app; lia).
    rewrite Nat2Z.id. apply take_app_length'. unfold ws_mask_payload. symmetry. apply length_mask_from. }
  do 2 f_equal. unfold ws_mask_payload. apply mask_from_involutive.
Qed.

Definition key_ok (key : option bytes) : Prop := match key with Some k => alen k = 4 | None => True end.
Definition masked_bit (key : option bytes) : Z := match key with Some _ => 1 | None => 0 end.

(** Every wire frame is a two-byte header, the extended length, and a tail. *)
Lemma wire_shape op key data : 0 <= op < 16 -> exists b1 tail,
  wire op key data = Z.lor 128 op :: b1 :: len_ext (alen data) ++ tail /\
  Z.land (Z.shiftr b1 7) 1 = masked_bit key /\ Z.land b1 127 = len_code (alen data) /\
  tail = match key with Some k => k ++ ws_mask_payload data k | None => data end.
Proof.
  intros Hop. pose proof (alen_nonneg data) as H0. pose proof (len_code_range (alen data) H0) as Hc. destruct key as [k|]; cbn [wire masked_bit].
  - destruct (byte1_masked _ Hc). eauto 10.
  - rewrite frame_header_eq by done. destruct (byte1_plain _ Hc). eexists _, _. split_and!; [done|done|done|done].
Qed.

Lemma take_prefix_cases {A} (x y : list A) tail m :
  (Z.to_nat m < List.length x)%nat \/ exists r, take (Z.to_nat m) (x ++ tail) = x ++ r /\ r = take (Z.to_nat m - List.length x) tail.
Proof.
  destruct (Nat.lt_ge_cases (Z.to_nat m) (List.length x)) as [|Hge]; [by left|right].
  eexists. split; [|done]. rewrite take_app. by rewrite (take_ge x) by lia.
Qed.

(** A buffer that ends inside the header asks for more. *)
Lemma parse_short_head op b1 n tail m : 0 <= op < 16 -> 0 <= n < 2 ^ 56 -> Z.land b1 127 = len_code n -> 0 <= m < 2 + alen (len_ext n) ->
  parse_frame (take (Z.to_nat m) (Z.lor 128 op :: b1 :: len_ext n ++ tail)) = PNeedMore.
Proof.
  intros Hop Hn Hb Hm. unfold parse_frame. set (buf := take _ _).
  assert (alen buf = m) as Hl.
  { unfold buf, alen in *. rewrite length_take. cbn [List.length]. rewrite length_app. lia. }
  rewrite Hl. case_if; [done|]. assert (aget buf 1 = b1) as ->.
  { unfold buf, aget. apply list_lookup_total_correct. rewrite lookup_take_lt by lia. done. }
  rewrite Hb. destruct (Z.le_gt_cases n 125); [|destruct (Z.le_gt_cases n 65535)].
  - destruct (len_ext_small n) as [_ Hx]; [lia|]. assert (alen (len_ext n) = 0) by (by rewrite Hx). lia.
  - destruct (len_ext_16 n) as [-> Hx]; [lia|]. assert (alen (len_ext n) = 2) by (by rewrite Hx). change (126 =? 126) with true. cbn match.
    by rewrite (proj2 (Z.ltb_lt m 4)) by lia.
  - destruct (len_ext_64 n) as [-> Hx]; [lia|]. assert (alen (len_ext n) = 8) by (by rewrite Hx).
    change (127 =? 126) with false. change (127 =? 127) with true. cbn match. by rewrite (proj2 (Z.ltb_lt m 10)) by lia.
Qed.

(** The parts of a wire frame and their sizes. *)
Lemma wire_parts op key data : 0 <= op < 16 -> key_ok key -> alen data <= WS_MAX_PAYLOAD ->
  exists b1 tail, let hdr := Z.lor 128 op :: b1 :: len_ext (alen data) in
  wire op key data = hdr ++ tail /\ alen (wire op key data) = alen hdr + 4 * masked_bit key + alen data /\
  tail = (match key with Some k => k ++ ws_mask_payload data k | None => data end) /\
  forall r, parse_frame (hdr ++ r) = parse_body (hdr ++ r) 1 op (masked_bit key) (alen data) (alen hdr).
Proof.
  intros Hop Hk Hd. pose proof (alen_nonneg data) as H0. set (n := alen data) in *.
  assert (0 <= n < 2 ^ 56) as Hn by (unfold WS_MAX_PAYLOAD in *; mach).
  destruct (byte0 op Hop) as [Hfin Hopc]. destruct (wire_shape op key data Hop) as (b1 & tail & Hw & Hmask & Hcode & Htail).
  fold n in Hw, Hcode. exists b1, tail. intros hdr. fold n.
  assert (alen hdr = 2 + alen (len_ext n)) as Hhdr by (unfold hdr; rewrite !alen_cons; lia).
  assert (alen tail = 4 * masked_bit key + n) as Htl.
  { subst tail. destruct key as [k|]; cbn [masked_bit key_ok] in *; [rewrite alen_app, alen_mask, Hk|]; fold n; lia. }
  split_and!; [exact Hw|rewrite Hw, !alen_cons, alen_app; lia|done|].
  intros r. unfold hdr. cbn [app]. rewrite parse_head by done. rewrite Hfin, Hopc, Hmask. fold hdr. by rewrite Hhdr.
Qed.

Lemma parse_wire op key data rest : 0 <= op < 16 -> key_ok key -> alen data <= WS_MAX_PAYLOAD ->
  parse_frame (wire op key data ++ rest) =
    PFrame (mkFrame 1 op (masked_bit key) (default [] key) data) (alen (wire op key data)).
Proof.
  intros Hop Hk Hd. destruct (wire_parts op key data Hop Hk Hd) as (b1 & tail & Hw & Hlen & Htail & Hp).
  rewrite Hlen, Hw, <- app_assoc, Hp. set (hdr := _ :: _ :: _). subst tail.
  destruct key as [k|]; cbn [masked_bit default] in *.
  - rewrite <- app_assoc, body_masked by done. f_equal; lia.
  - rewrite body_plain by done. f_equal; lia.
Qed.

Lemma parse_wire_prefix op key data m : 0 <= op < 16 -> key_ok key -> alen data <= WS_MAX_PAYLOAD ->
  0 <= m < alen (wire op key data) -> parse_frame (take (Z.to_nat m) (wire op key data)) = PNeedMore.
Proof.
  intros Hop Hk Hd Hm. pose proof (alen_nonneg data) as H0.
  destruct (wire_shape op key data Hop) as (b1 & tail & Hw & _ & Hcode & _).
  destruct (wire_parts op key data Hop Hk Hd) as (b1' & tail' & Hw' & Hlen & _ & Hp).
  rewrite Hw in Hw'. cbn [app] in Hw'. injection Hw' as Hb Ht. apply app_inv_head in Ht. subst b1 tail. rewrite Hw.
  set (hdr := Z.lor 128 op :: b1' :: len_ext (alen data)) in *.
  assert (alen hdr = 2 + alen (len_ext (alen data))) as Hhdr by (unfold hdr; rewrite !alen_cons; lia).
  destruct (Z.lt_ge_cases m (alen hdr)) as [Hlt|Hge].
  - apply parse_short_head; [done|unfold WS_MAX_PAYLOAD in *; mach|done|lia].
  - destruct (take_prefix_cases hdr [] tail' m) as [Hx|(r & Hr & _)]; [unfold alen in *; lia|].
    change (Z.lor 128 op :: b1' :: len_ext (alen data) ++ tail') with (hdr ++ tail'). rewrite Hr, Hp.
    assert (alen (hdr ++ r) = m) as Hlm.
    { rewrite <- Hr. rewrite Hw in Hlen, Hm. change (Z.lor 128 op :: b1' :: len_ext (alen data) ++ tail') with (hdr ++ tail') in *.
      unfold alen in *. rewrite length_take. lia. }
    apply body_short; [done|destruct key; [by right|by left]|lia|lia].
Qed.

(** ** Claims *)

(** C32. The frame codec: when the socket takes all the bytes, [ws_send_frame]
    puts the frame on the wire; a frame on the wire, unmasked or masked by a
    client, followed by anything, is parsed back to its opcode, key and
    unmasked payload, consuming exactly its bytes; and every proper prefix of
    it asks for more data, so a frame may arrive in any pieces. *)
Theorem ws_frame_round_trip op key data rest : 0 <= op < 16 -> key_ok key -> alen data <= WS_MAX_PAYLOAD ->
  (forall tx c, state c = WS_STATE_OPEN -> alen (frame_header op (alen data)) <= tx.1 -> alen data <= tx.2 ->
     exists c', ws_send_frame tx c op data = (c', wire op None data, 0)) /\
  parse_frame (wire op key data ++ rest) =
    PFrame (mkFrame 1 op (masked_bit key) (default [] key) data) (alen (wire op key data)) /\
  forall m, 0 <= m < alen (wire op key data) -> parse_frame (take (Z.to_nat m) (wire op key data)) = PNeedMore.
Proof.
  intros Hop Hk Hd. split_and!; [|by apply parse_wire|intros m Hm; by apply parse_wire_prefix].
  intros tx c Hst Ht1 Ht2. unfold ws_send_frame. rewrite bool_decide_eq_true_2 by done.
  pose proof (alen_nonneg (frame_header op (alen data))). pose proof (alen_nonneg data).
  rewrite (proj2 (Z.ltb_ge tx.1 0)), (proj2 (Z.ltb_ge tx.2 0)), andb_false_r by lia.
  unfold alen in *. rewrite !take_ge by lia. eexists. done.
Qed.

(** A short [send] is not noticed: when the socket takes only part of the
    payload the call still returns 0 and counts the whole frame. *)
Lemma ws_short_send_unnoticed c op data n : state c = WS_STATE_OPEN -> 0 <= n < alen data ->
  exists c', ws_send_frame (alen (frame_header op (alen data)), n) c op data =
    (c', frame_header op (alen data) ++ take (Z.to_nat n) data, 0).
Proof.
  intros Hst Hn. unfold ws_send_frame. rewrite bool_decide_eq_true_2 by done. cbn [fst snd].
  pose proof (alen_nonneg (frame_header op (alen data))).
  rewrite (proj2 (Z.ltb_ge (alen _) 0)), (proj2 (Z.ltb_ge n 0)), andb_false_r by lia.
  rewrite (take_ge (frame_header _ _)) by (unfold alen; lia). eexists. done.
Qed.

(** [ws_send_close] never sends a close frame: it moves the connection
    to CLOSING first, and [ws_send_frame] refuses to send in that state. *)
Lemma ws_close_never_sent tx c code reason :
  ws_send_close tx c code reason = (set_state c WS_STATE_CLOSING, [], - 1).
Proof. reflexivity. Qed.

(** ** The receive buffer *)
Inductive ws_reach : WsConn -> Prop :=
  | reach_open : ws_reach (set_state ws_conn_create WS_STATE_OPEN)
  | reach_read ok rx c : ws_reach c -> ws_reach (ws_read_frame ok rx c).1.

Definition cap_ok (c : WsConn) : Prop :=
  alen (read_buf c) <= read_cap c /\ exists k, 16 <= k <= 24 /\ read_cap c = 2 ^ k.

Lemma grow_ok ok c : cap_ok c -> cap_ok (grow_buffer ok c).
Proof.
  intros [Hl (k & Hk & Hcap)]. unfold grow_buffer. case_if; [|by split; eauto]. destruct ok; [|by split; eauto].
  assert (read_cap c * 2 = 2 ^ (k + 1)) as Hc2 by (rewrite Z.pow_add_r, Hcap by lia; lia).
  assert (k < 24) as Hk24.
  { destruct (Z.lt_ge_cases k 24); [done|]. assert (k = 24) by lia. subst k. unfold WS_MAX_PAYLOAD in *. mach_unfold. lia. }
  assert (2 ^ (k + 1) <= 2 ^ 24) by (apply Z.pow_le_mono_r; lia).
  rewrite (proj2 (Z.ltb_ge _ (read_cap c * 2))) by (unfold WS_MAX_PAYLOAD; mach_unfold; lia).
  split; cbn [set_read read_buf read_cap].
  - assert (0 <= read_cap c) by (rewrite Hcap; apply Z.pow_nonneg; lia). lia.
  - exists (k + 1). split; [lia|done].
Qed.

(** The part of [ws_read_frame] after the data have been received. *)
Definition deliver (c : WsConn) : WsConn * read_result :=
  match parse_frame (read_buf c) with
  | PNeedMore => (c, ReadMore)
  | PError => (c, ReadErr)
  | PFrame f size =>
      (mkConn (state c) (drop (Z.to_nat size) (read_buf c)) (read_cap c) (frames_received c +64 1) (frames_sent c)
         (bytes_received c +64 size) (bytes_sent c), ReadFrame f)
  end.

Lemma deliver_cap_ok c : cap_ok c -> cap_ok (deliver c).1.
Proof.
  intros [Hl Hk]. unfold deliver. destruct (parse_frame (read_buf c)) as [| |f n]; cbn [fst]; [by split..|].
  split; cbn; [|done]. unfold alen in *. rewrite length_drop. lia.
Qed.

Lemma read_ok ok rx c : cap_ok c -> cap_ok (ws_read_frame ok rx c).1.
Proof.
  intros Hc. unfold ws_read_frame. case_if; [done|]. pose proof (grow_ok ok c Hc) as Hg.
  set (c1 := grow_buffer ok c) in *. clearbody c1.
  destruct (alen (read_buf c1) <? read_cap c1), rx as [b| | |]; try done; try by apply (deliver_cap_ok c1).
  apply (deliver_cap_ok (set_read c1 _ _)). destruct Hg as [Hl Hk]. split; cbn [set_read read_buf read_cap]; [|done].
  rewrite alen_app. unfold alen in *. rewrite length_take. lia.
Qed.

Lemma reach_cap c : ws_reach c -> cap_ok c.
Proof. induction 1 as [|ok rx c _ IH]; [|by apply read_ok]. split; [vm_compute; congruence|]. exists 16. done. Qed.

(** The receive buffer stops growing at exactly WS_MAX_PAYLOAD bytes
    (the 16 extra bytes meant for the header are never allocated), so a frame
    whose payload is within the limit but whose total size is not can never
    be received: once its first WS_MAX_PAYLOAD bytes fill the buffer,
    [ws_read_frame] asks for more for ever, whatever arrives. *)
Theorem ws_large_frame_stalls c op key data ok rx :
  ws_reach c -> 0 <= op < 16 -> key_ok key ->
  alen data <= WS_MAX_PAYLOAD -> WS_MAX_PAYLOAD < alen (wire op key data) ->
  alen (read_buf c) <= read_cap c <= WS_MAX_PAYLOAD /\
  (state c = WS_STATE_OPEN -> read_buf c = take (Z.to_nat WS_MAX_PAYLOAD) (wire op key data) ->
   ws_read_frame ok rx c = (c, ReadMore)).
Proof.
  intros Hr Hop Hk Hd Hbig. destruct (reach_cap c Hr) as [Hl (k & Hk' & Hcap)].
  assert (2 ^ k <= 2 ^ 24) as Hle by (apply Z.pow_le_mono_r; lia).
  assert (read_cap c <= WS_MAX_PAYLOAD) as Hm by (unfold WS_MAX_PAYLOAD; mach_unfold; lia).
  split; [lia|]. intros Hst Hbuf.
  assert (alen (read_buf c) = WS_MAX_PAYLOAD) as Hfull.
  { rewrite Hbuf. unfold alen in *. rewrite length_take. unfold WS_MAX_PAYLOAD in *. lia. }
  unfold ws_read_frame. rewrite bool_decide_eq_true_2 by done. cbn [negb].
  assert (grow_buffer ok c = c) as ->.
  { unfold grow_buffer. rewrite (proj2 (Z.ltb_ge (read_cap c) WS_MAX_PAYLOAD)) by lia. by rewrite andb_false_r. }
  rewrite (proj2 (Z.ltb_ge (alen (read_buf c)) (read_cap c))) by lia.
  rewrite Hbuf at 1. rewrite parse_wire_prefix; [done|done|done|done|unfold WS_MAX_PAYLOAD in *; lia].
Qed.

(** ** JSON string literals

    The reader's side of the escaping: the contents of a JSON string literal,
    up to the end of the input; a raw quote or control character is an error. *)
Definition hex_value (c : Z) : option Z :=
  if (48 <=? c) && (c <=? 57) then Some (c - 48) else if (97 <=? c) && (c <=? 102) then Some (c - 87) else None.
Definition simple_escape (e : Z) : option Z :=
  if e =? 34 then Some 34 else if e =? 92 then Some 92 else if e =? 110 then Some 10
  else if e =? 114 then Some 13 else if e =? 116 then Some 9 else None.

Fixpoint json_unescape (s : bytes) : option bytes :=
  match s with
  | [] => Some []
  | c :: r =>
      if c =? 92 then
        match r with
        | [] => None
        | e :: r =>
            if e =? 117 then
              match r with
              | h1 :: h2 :: h3 :: h4 :: r =>
                  a ← hex_value h1; b ← hex_value h2; c ← hex_value h3; d ← hex_value h4;
                  cons (((a * 16 + b) * 16 + c) * 16 + d) <$> json_unescape r
              | _ => None
              end
            else v ← simple_escape e; cons v <$> json_unescape r
        end
      else if (c =? 34) || (c <? 32) then None
      else cons c <$> json_unescape r
  end.

Lemma hex_round n : 0 <= n < 16 -> hex_value (hex_digit n) = Some n.
Proof.
  intros Hn. unfold hex_value, hex_digit. destruct (Z.ltb_spec n 10).
  - rewrite (proj2 (Z.leb_le 48 _)), (proj2 (Z.leb_le _ 57)) by lia. simpl. f_equal. lia.
  - rewrite (proj2 (Z.leb_gt (87 + n) 57)) by lia. rewrite andb_false_r.
    rewrite (proj2 (Z.leb_le 97 _)), (proj2 (Z.leb_le _ 102)) by lia. simpl. f_equal. lia.
Qed.

Lemma unescape_char c r : 0 < c -> json_unescape (escape_char c ++ r) = cons c <$> json_unescape r.
Proof.
  intros Hc. unfold escape_char.
  destruct (Z.eqb_spec c 34) as [->|]; [done|]. destruct (Z.eqb_spec c 92) as [->|]; [done|].
  destruct (Z.eqb_spec c 10) as [->|]; [done|]. destruct (Z.eqb_spec c 13) as [->|]; [done|].
  destruct (Z.eqb_spec c 9) as [->|]; [done|]. destruct (Z.ltb_spec c 32).
  - cbn [app json_unescape]. change (92 =? 92) with true. change (117 =? 117) with true. cbn match.
    change (hex_value 48) with (Some 0). cbn [mbind option_bind].
    rewrite !hex_round by (Z.to_euclidean_division_equations; lia). cbn [mbind option_bind].
    f_equal. f_equal. Z.to_euclidean_division_equations; lia.
  - cbn [app json_unescape]. rewrite (proj2 (Z.eqb_neq c 92)), (proj2 (Z.eqb_neq c 34)), (proj2 (Z.ltb_ge c 32)) by lia. done.
Qed.

Lemma unescape_all p : Forall (fun c => 0 < c) p -> json_unescape (concat (map escape_char p)) = Some p.
Proof.
  induction 1 as [|c p Hc _ IH]; [done|]. cbn [map concat]. rewrite unescape_char, IH by done. done.
Qed.

Lemma alen_escape_char c : 1 <= alen (escape_char c) <= 6.
Proof. unfold escape_char. repeat case_if; vm_compute; split; congruence. Qed.

Lemma escape_from_spec src cap : Forall (fun c => 0 <= c) src -> forall out, alen out < cap ->
  exists p q, src = p ++ q /\ Forall (fun c => 0 < c) p /\
    ws_json_escape_from src out cap = out ++ concat (map escape_char p) /\
    alen (ws_json_escape_from src out cap) < cap /\
    (q = [] \/ hd 0 q = 0 \/ cap <= alen (ws_json_escape_from src out cap) + 6).
Proof.
  induction 1 as [|c src Hc _ IH]; intros out Hout.
  - exists [], []. split_and!; [done|constructor|cbn; by rewrite app_nil_r|done|by left].
  - cbn [ws_json_escape_from]. case_if.
    + exists [], (c :: src). split_and!; [done|constructor|cbn; by rewrite app_nil_r|done|].
      right. apply orb_true_iff in E as [E|E]; cmp_prop; [left; done|right; lia].
    + pose proof (alen_escape_char c). destruct (IH (out ++ escape_char c)) as (p & q & -> & Hp & Heq & Hlen & Hq); [rewrite alen_app; lia|].
      exists (c :: p), q. split_and!; try done; [constructor; [lia|done]|]. by rewrite Heq, <- app_assoc.
Qed.

(** Escaping is safe: what [ws_json_escape] writes fits the buffer with
    its terminator and, read back as the contents of a JSON string literal, is
    a prefix of the source string, cut only at its end or where the buffer has
    no room for one more escape; no quote of the source can end the literal. *)
Theorem ws_json_escape_safe src dst_cap : Forall (fun c => 0 <= c) src -> 0 < dst_cap ->
  exists p q, src = p ++ q /\ json_unescape (ws_json_escape src dst_cap) = Some p /\
    alen (ws_json_escape src dst_cap) < dst_cap /\
    (q = [] \/ hd 0 q = 0 \/ dst_cap <= alen (ws_json_escape src dst_cap) + 6).
Proof.
  intros Hs Hcap. unfold ws_json_escape.
  destruct (escape_from_spec src dst_cap Hs [] ltac:(done)) as (p & q & Hpq & Hp & Heq & Hlen & Hq).
  exists p, q. split_and!; try done. rewrite Heq. cbn [app]. by apply unescape_all.
Qed.

Lemma alen_json_escape src : Forall (fun c => 0 <= c) src -> alen (ws_json_escape src 2048) < 2048.
Proof.
  intros Hs. destruct (escape_from_spec src 2048 Hs [] ltac:(done)) as (p & q & _ & _ & _ & Hlen & _). exact Hlen.
Qed.

Definition is_literal (result : option bytes) : bool := match result with Some (34 :: _) => true | _ => false end.
Definition text_ok (o : option bytes) : Prop := match o with Some r => Forall (fun c => 0 <= c) r | None => True end.

Lemma alen_result_escape result : text_ok result -> is_literal result = false ->
  alen (match result with Some r => if is_literal result then r else ws_json_escape r 2048 | None => bytes_of "null" end) < 2048.
Proof. destruct result as [r|]; [|done]. intros Hr ->. by apply alen_json_escape. Qed.

(** Responses and the 8192-byte stack buffer: an error or an escaped
    result always fits and is sent in full; a result that starts with a quote
    is copied unescaped, and one of 8192 bytes or more makes [ws_send_text]
    read beyond the buffer. *)
Theorem ws_response_bounds tx c req_id result error : text_ok (Some req_id) -> text_ok result -> text_ok error ->
  (is_Some error \/ is_literal result = false ->
   ws_send_response tx c req_id result error = Some (ws_send_text tx c (response_text req_id result error))) /\
  (forall r, error = None -> result = Some (34 :: r) -> 8192 <= alen r -> ws_send_response tx c req_id result error = None).
Proof.
  intros Hid Hr He. pose proof (alen_json_escape req_id Hid) as Hl. split.
  - intros Hcase. unfold ws_send_response. set (text := response_text _ _ _).
    assert (alen text < 8191) as Ht.
    { unfold text, response_text. destruct error as [e|].
      - pose proof (alen_json_escape e He). rewrite !alen_app. unfold alen in *. simpl. lia.
      - destruct Hcase as [[? [=]]|Hlit]. pose proof (alen_result_escape result Hr Hlit) as Hb.
        change (match result with Some (34 :: _) => true | _ => false end) with (is_literal result). rewrite Hlit in *.
        rewrite !alen_app. unfold alen in *. simpl. lia. }
    clearbody text. rewrite (proj2 (Z.ltb_ge 8192 _)) by lia. do 2 f_equal.
    rewrite (take_ge text) by (unfold alen in Ht; lia). unfold alen. rewrite Nat2Z.id. apply take_app_length.
  - intros r -> -> Hbig. unfold ws_send_response.
    rewrite (proj2 (Z.ltb_lt 8192 _)); [done|]. unfold response_text. rewrite !alen_app, !alen_cons.
    repeat match goal with |- context [alen ?x] => lazymatch x with r => fail | _ => pose proof (alen_nonneg x); generalize dependent (alen x); intros end end.
    lia.
Qed.

(** ** Base64: the reader's side *)
Definition b64_index (c : Z) : option Z := (fun p => Z.of_nat p.1) <$> list_find (fun x => x = c) B64.

Fixpoint b64_decode (s : bytes) : option bytes :=
  match s with
  | [] => Some []
  | c1 :: c2 :: c3 :: c4 :: r =>
      x ← b64_index c1; y ← b64_index c2;
      if c3 =? 61 then (if (c4 =? 61) && bytes_eqb r [] then Some [x * 4 + y / 16] else None)
      else
        z ← b64_index c3;
        if c4 =? 61 then (if bytes_eqb r [] then Some [x * 4 + y / 16; y mod 16 * 16 + z / 4] else None)
        else w ← b64_index c4; app [x * 4 + y / 16; y mod 16 * 16 + z / 4; z mod 4 * 64 + w] <$> b64_decode r
  | _ => None
  end.

Lemma b64_index_get i : 0 <= i < 64 -> b64_index (aget B64 i) = Some i /\ (aget B64 i =? 61) = false.
Proof.
  intros Hi. assert (forallb (fun i => bool_decide (b64_index (aget B64 i) = Some i) && negb (aget B64 i =? 61)) (seqZ 0 64) = true) as H
    by (vm_compute; reflexivity).
  rewrite forallb_forall in H. specialize (H i). rewrite <- list_elem_of_In, elem_of_seqZ in H.
  specialize (H ltac:(lia)). apply andb_true_iff in H as [H1 H2]. apply bool_decide_eq_true in H1. by apply negb_true_iff in H2.
Qed.

Lemma triple_sum a b c : in_u 8 a -> in_u 8 b -> in_u 8 c ->
  Z.lor (Z.lor (Z.shiftl a 16) (Z.shiftl b 8)) c = a * 65536 + b * 256 + c.
Proof.
  intros Ha Hb Hc. rewrite Z.lor_comm, (Z.lor_comm (Z.shiftl a 16)), Z.lor_assoc.
  rewrite (lor_pack c) by (done || apply Hb || lia).
  rewrite (lor_pack (c + _)) by ((apply (in_u_pack _ _ 8 8); done || lia) || apply Ha || lia).
  change (2 ^ 8) with 256. change (2 ^ 16) with 65536. lia.
Qed.

Lemma b64_group_eq a b c : in_u 8 a -> in_u 8 b -> in_u 8 c ->
  b64_group a b c = [aget B64 (a / 4); aget B64 (a mod 4 * 16 + b / 16); aget B64 (b mod 16 * 4 + c / 64); aget B64 (c mod 64)].
Proof.
  intros Ha Hb Hc. unfold b64_group. rewrite triple_sum by done. cbn [map]. change 63 with (Z.ones 6).
  rewrite !Z.land_ones, !Z.shiftr_div_pow2 by lia. mach_unfold. set (t := a * 65536 + b * 256 + c).
  assert (t / 262144 mod 64 = a / 4) as -> by (unfold t; Z.to_euclidean_division_equations; lia).
  assert (t / 4096 mod 64 = a mod 4 * 16 + b / 16) as -> by (unfold t; Z.to_euclidean_division_equations; lia).
  assert (t / 64 mod 64 = b mod 16 * 4 + c / 64) as -> by (unfold t; Z.to_euclidean_division_equations; lia).
  assert (t / 1 mod 64 = c mod 64) as -> by (unfold t; Z.to_euclidean_division_equations; lia). done.
Qed.

Ltac b64_indices := repeat match goal with |- context [aget B64 ?i] =>
  let H1 := fresh in let H2 := fresh in
  destruct (b64_index_get i) as [H1 H2]; [Z.to_euclidean_division_equations; lia|];
  rewrite ?H1, ?H2; clear H1 H2 end.

Lemma b64_first a b : 0 <= a < 256 -> 0 <= b < 256 -> a / 4 * 4 + (a mod 4 * 16 + b / 16) / 16 = a.
Proof. intros. Z.to_euclidean_division_equations; lia. Qed.
Lemma b64_second a b c : 0 <= a < 256 -> 0 <= b < 256 -> 0 <= c < 256 ->
  (a mod 4 * 16 + b / 16) mod 16 * 16 + (b mod 16 * 4 + c / 64) / 4 = b.
Proof. intros. Z.to_euclidean_division_equations; lia. Qed.
Lemma b64_third b c : 0 <= b < 256 -> 0 <= c < 256 -> (b mod 16 * 4 + c / 64) mod 4 * 64 + c mod 64 = c.
Proof. intros. Z.to_euclidean_division_equations; lia. Qed.

Lemma b64_decode_group a b c r : in_u 8 a -> in_u 8 b -> in_u 8 c ->
  b64_decode (b64_group a b c ++ r) = app [a; b; c] <$> b64_decode r.
Proof.
  intros Ha Hb Hc. rewrite b64_group_eq by done. cbn [app b64_decode]. mach_unfold. b64_indices.
  cbn [mbind option_bind]. rewrite b64_first, b64_second, b64_third by done. done.
Qed.

Lemma b64_decode_two a b : in_u 8 a -> in_u 8 b -> b64_decode [aget B64 (a / 4); aget B64 (a mod 4 * 16 + b / 16); aget B64 (b mod 16 * 4); 61] = Some [a; b].
Proof.
  intros Ha Hb. cbn [b64_decode]. mach_unfold. b64_indices. cbn [mbind option_bind]. change (61 =? 61) with true. cbn match.
  change (bytes_eqb [] []) with true. cbn match. rewrite b64_first by done.
  replace (b mod 16 * 4) with (b mod 16 * 4 + 0 / 64) by (Z.to_euclidean_division_equations; lia).
  rewrite b64_second by (done || lia). done.
Qed.

Lemma b64_decode_one a : in_u 8 a -> b64_decode [aget B64 (a / 4); aget B64 (a mod 4 * 16); 61; 61] = Some [a].
Proof.
  intros Ha. cbn [b64_decode]. mach_unfold. b64_indices. cbn [mbind option_bind]. change (61 =? 61) with true. cbn [andb].
  change (bytes_eqb [] []) with true. cbn match.
  replace (a mod 4 * 16) with (a mod 4 * 16 + 0 / 16) by (Z.to_euclidean_division_equations; lia).
  rewrite b64_first by (done || lia). done.
Qed.

(** The loop, as the complete groups and the last one. *)
Fixpoint b64_groups (x : bytes) : bytes :=
  match x with
  | a :: b :: c :: x => b64_group a b c ++ b64_groups x
  | [a; b] => b64_group a b 0
  | [a] => b64_group a 0 0
  | [] => []
  end.

Lemma alen_b64_group a b c : alen (b64_group a b c) = 4.
Proof. done. Qed.

(** Induction by three. *)
Lemma list_ind3 {A} (P : list A -> Prop) : P [] -> (forall a, P [a]) -> (forall a b, P [a; b]) ->
  (forall a b c l, P l -> P (a :: b :: c :: l)) -> forall l, P l.
Proof.
  intros H0 H1 H2 H3. fix IH 1. intros [|a [|b [|c l]]]; [exact H0|apply H1|apply H2|]. apply H3, IH.
Qed.

Lemma alen_b64_groups x : alen (b64_groups x) = 4 * ((alen x + 2) / 3).
Proof.
  induction x as [|a|a b|a b c x IH] using list_ind3; [done..|]. cbn [b64_groups].
  rewrite alen_app, alen_b64_group, IH, !alen_cons. Z.to_euclidean_division_equations; lia.
Qed.

Lemma b64_loop_spec x cap : forall out, alen out + alen (b64_groups x) < cap ->
  b64_loop x out cap = Some (out ++ b64_groups x).
Proof.
  induction x as [|a|a b|a b c x IH] using list_ind3; intros out Hcap; cbn [b64_loop b64_groups] in *.
  - by rewrite app_nil_r.
  - rewrite alen_b64_group in Hcap. by rewrite (proj2 (Z.ltb_ge cap _)) by lia.
  - rewrite alen_b64_group in Hcap. by rewrite (proj2 (Z.ltb_ge cap _)) by lia.
  - rewrite alen_app, alen_b64_group in Hcap. pose proof (alen_nonneg (b64_groups x)).
    rewrite (proj2 (Z.ltb_ge cap _)) by lia. rewrite IH by (rewrite alen_app, alen_b64_group; lia). by rewrite <- app_assoc.
Qed.

Definition b64_pad (n : Z) (out : bytes) : bytes :=
  let j := alen out in
  if n mod 3 =? 1 then aset (aset out (j - 2) 61) (j - 1) 61 else if n mod 3 =? 2 then aset out (j - 1) 61 else out.

Lemma aset_app_r {A} (l l' : list A) i x : alen l <= i -> aset (l ++ l') i x = l ++ aset l' (i - alen l) x.
Proof.
  intros Hi. unfold aset, alen in *. rewrite insert_app_r_alt by lia. do 2 f_equal. lia.
Qed.

Lemma b64_pad_app n a b c out : 0 < alen out -> 2 <= alen out -> b64_pad (3 + n) (b64_group a b c ++ out) = b64_group a b c ++ b64_pad n out.
Proof.
  intros Ho Ho2. unfold b64_pad. rewrite alen_app, alen_b64_group.
  assert ((3 + n) mod 3 = n mod 3) as -> by (Z.to_euclidean_division_equations; lia).
  case_if; [|case_if; [|done]].
  - rewrite !aset_app_r by (rewrite alen_b64_group; lia). rewrite alen_b64_group.
    replace (4 + alen out - 2 - 4) with (alen out - 2) by lia. by replace (4 + alen out - 1 - 4) with (alen out - 1) by lia.
  - rewrite aset_app_r by (rewrite alen_b64_group; lia). rewrite alen_b64_group.
    by replace (4 + alen out - 1 - 4) with (alen out - 1) by lia.
Qed.

Lemma b64_decode_pad x : is_bytes x -> b64_decode (b64_pad (alen x) (b64_groups x)) = Some x.
Proof.
  induction x as [|a|a b|a b c x IH] using list_ind3; intros Hb.
  - done.
  - apply Forall_cons in Hb as [Ha _]. unfold b64_pad. change (alen [a] mod 3 =? 1) with true. cbn match.
    cbn [b64_groups]. rewrite b64_group_eq by (done || mach). change (0 / 16) with 0. rewrite Z.add_0_r. by apply b64_decode_one.
  - apply Forall_cons in Hb as [Ha Hb]. apply Forall_cons in Hb as [Hb _]. unfold b64_pad.
    change (alen [a; b] mod 3 =? 1) with false. change (alen [a; b] mod 3 =? 2) with true. cbn match.
    cbn [b64_groups]. rewrite b64_group_eq by (done || mach). change (0 / 64) with 0. rewrite Z.add_0_r. by apply b64_decode_two.
  - apply Forall_cons in Hb as [Ha Hb]. apply Forall_cons in Hb as [Hb Hc]. apply Forall_cons in Hc as [Hc Hx].
    cbn [b64_groups]. destruct x as [|d x].
    + unfold b64_pad. change (alen [a; b; c] mod 3 =? 1) with false. change (alen [a; b; c] mod 3 =? 2) with false. cbn match.
      cbn [b64_groups]. rewrite b64_decode_group by done. done.
    + rewrite !alen_cons. replace (1 + (1 + (1 + (1 + alen x)))) with (3 + alen (d :: x)) by (rewrite alen_cons; lia).
      pose proof (alen_b64_groups (d :: x)) as Hl. rewrite alen_cons in Hl. pose proof (alen_nonneg x).
      rewrite b64_pad_app by (Z.to_euclidean_division_equations; lia).
      rewrite b64_decode_group, IH by done. done.
Qed.

(** The Base64 encoder of the handshake: given room for the text and its
    terminator it writes the 4 * ceil(n / 3) characters whose decoding is the
    input. *)
Theorem base64_round_trip x out_cap : is_bytes x -> 4 * ((alen x + 2) / 3) < out_cap ->
  exists s, base64_encode x out_cap = Some s /\ alen s = 4 * ((alen x + 2) / 3) /\ b64_decode s = Some x.
Proof.
  intros Hb Hcap. exists (b64_pad (alen x) (b64_groups x)). split_and!.
  - unfold base64_encode. rewrite b64_loop_spec by (rewrite alen_b64_groups, alen_nil; lia). done.
  - rewrite <- alen_b64_groups. unfold b64_pad. repeat case_if; by rewrite ?alen_aset.
  - by apply b64_decode_pad.
Qed.

(** The example of RFC 6455: SHA-1 and Base64 as the protocol defines them. *)
Example ws_accept_rfc6455 :
  ws_compute_accept_key (bytes_of "dGhlIHNhbXBsZSBub25jZQ==") = Some (bytes_of "s3pPLMBiTxaQ9kYGzzhZRbK+xOo=").
Proof. vm_compute. reflexivity. Qed.

(** ** Witnesses *)
Lemma ws_frame_round_trip_witness :
  parse_frame (wire WS_OP_TEXT (Some [1; 2; 3; 4]) [104; 105] ++ [129]) = PFrame (mkFrame 1 1 1 [1; 2; 3; 4] [104; 105]) 8 /\
  parse_frame (take 7 (wire WS_OP_TEXT (Some [1; 2; 3; 4]) [104; 105])) = PNeedMore.
Proof.
  destruct (ws_frame_round_trip WS_OP_TEXT (Some [1; 2; 3; 4]) [104; 105] [129]) as (_ & H1 & H2);
    [vm_compute; split; congruence|reflexivity|vm_compute; congruence|].
  split; [exact H1|]. apply (H2 7). vm_compute. split; congruence.
Defined.

Definition big_payload : bytes := calloc WS_MAX_PAYLOAD 0.

Lemma big_payload_len : alen big_payload = WS_MAX_PAYLOAD.
Proof. apply alen_calloc. unfold WS_MAX_PAYLOAD. lia. Qed.

Lemma ws_large_frame_stalls_witness :
  alen big_payload <= WS_MAX_PAYLOAD /\ WS_MAX_PAYLOAD < alen (wire WS_OP_BINARY (Some [1; 2; 3; 4]) big_payload) /\
  read_cap (set_state ws_conn_create WS_STATE_OPEN) <= WS_MAX_PAYLOAD.
Proof.
  assert (alen big_payload <= WS_MAX_PAYLOAD) as Hd by (rewrite big_payload_len; lia).
  assert (WS_MAX_PAYLOAD < alen (wire WS_OP_BINARY (Some [1; 2; 3; 4]) big_payload)) as Hb.
  { cbn [wire]. rewrite !alen_cons, !alen_app, alen_mask, big_payload_len.
    pose proof (alen_nonneg (len_ext WS_MAX_PAYLOAD)). pose proof (alen_nonneg [1; 2; 3; 4]). lia. }
  split; [exact Hd|]. split; [exact Hb|].
  destruct (ws_large_frame_stalls (set_state ws_conn_create WS_STATE_OPEN) WS_OP_BINARY (Some [1; 2; 3; 4]) big_payload true RWouldBlock)
    as [[_ H] _]; [exact reach_open|vm_compute; split; congruence|reflexivity|exact Hd|exact Hb|exact H].
Defined.

(** A quote and a control character. *)
Lemma ws_json_escape_safe_witness :
  ws_json_escape [97; 34; 1] 64 = [97; 92; 34; 92; 117; 48; 48; 48; 49] /\
  exists p, json_unescape (ws_json_escape [97; 34; 1] 64) = Some p.
Proof.
  split; [vm_compute; reflexivity|].
  destruct (ws_json_escape_safe [97; 34; 1] 64) as (p & q & _ & H & _); [repeat constructor; lia|lia|].
  exists p. exact H.
Defined.

Lemma ws_response_bounds_witness :
  ws_send_response (0, 0) ws_conn_create [49] (Some (34 :: calloc 8192 120)) None = None.
Proof.
  destruct (ws_response_bounds (0, 0) ws_conn_create [49] (Some (34 :: calloc 8192 120)) None) as [_ H].
  - repeat constructor; lia.
  - constructor; [lia|]. apply Forall_replicate. lia.
  - exact I.
  - apply (H (calloc 8192 120)); [reflexivity|reflexivity|]. rewrite alen_calloc; lia.
Defined.

Lemma base64_round_trip_witness : exists s, base64_encode [104; 105] 64 = Some s /\ b64_decode s = Some [104; 105].
Proof.
  destruct (base64_round_trip [104; 105] 64) as (s & H1 & _ & H2);
    [repeat constructor; vm_compute; congruence|vm_compute; reflexivity|].
  exists s. split; [exact H1|exact H2].
Defined.
