(* ===== verification/Quota.v ===== *)
(** * Tenant quotas (src/src/security/quota.c)

    A table of 256 namespaces with limits, statistics, authentication tokens
    and a rate limiter.  Strings are byte lists without a terminating zero.
    Every operation is one step (it holds the global lock or the lock of its
    namespace); the clock is the argument [now], and the number that [atoll]
    or [atoi] reads is an argument of [quota_namespace_update].  Floating-point
    statistics and the configuration fields that nothing reads (bandwidth,
    CPU budget, eviction policy, workers) are left out. *)
From S2P Require Import Prelude.

Definition QUOTA_MAX_NAMESPACES : Z := 256.
Definition QUOTA_NS_NAME_MAX : Z := 64.
Definition QUOTA_WINDOW_SECS : Z := 1.

Inductive QuotaAction := QUOTA_ACTION_REJECT | QUOTA_ACTION_THROTTLE | QUOTA_ACTION_EVICT | QUOTA_ACTION_LOG_ONLY.
#[export] Instance QuotaAction_eq_dec : EqDecision QuotaAction.
Proof. solve_decision. Defined.

Record NamespaceConfig := mkConfig {
  name : bytes; max_memory_bytes : Z; max_keys : Z; memory_action : QuotaAction;
  max_ops_per_sec : Z; cpu_action : QuotaAction; max_connections : Z; default_ttl_secs : Z }.

Record NamespaceStats := mkStats {
  st_name : bytes; used_memory_bytes : Z; key_count : Z; ops_total : Z; bytes_read : Z; bytes_written : Z;
  hits : Z; misses : Z; quota_violations_memory : Z; quota_violations_cpu : Z;
  requests_rejected : Z; requests_throttled : Z; evictions_forced : Z; created_at_us : Z; last_access_us : Z }.

Record Namespace := mkNs {
  config : NamespaceConfig; stats : NamespaceStats; active : bool; tokens : list bytes; token_cap : Z;
  ops_this_window : Z; window_start_us : Z }.

Definition zero_config : NamespaceConfig := mkConfig [] 0 0 QUOTA_ACTION_REJECT 0 QUOTA_ACTION_REJECT 0 0.
Definition zero_stats : NamespaceStats := mkStats [] 0 0 0 0 0 0 0 0 0 0 0 0 0 0.
Definition zero_ns : Namespace := mkNs zero_config zero_stats false [] 0 0 0.
#[export] Instance Namespace_inhabited : Inhabited Namespace := populate zero_ns.

Record Quota := mkQuota { g_namespaces : list Namespace; g_ns_count : Z }.

Definition quota_init : Quota := mkQuota (calloc QUOTA_MAX_NAMESPACES zero_ns) 0.
Definition quota_shutdown (q : Quota) : Quota :=
  mkQuota (for_loop (g_ns_count q) (fun i nss =>
    let ns := aget nss i in
    aset nss i (mkNs (config ns) (stats ns) false [] (token_cap ns) (ops_this_window ns) (window_start_us ns))) (g_namespaces q)) 0.

(** [diff |= a[i] ^ b[i]] over the common length, after the length test. *)
Definition ct_str_equal (a b : bytes) : bool :=
  let diff := if alen a =? alen b then 0 else 1 in
  let n := if alen a <? alen b then alen a else alen b in
  for_loop n (fun i d => u8 (Z.lor d (u8 (Z.lxor (aget a i) (aget b i))))) diff =? 0.

Definition ns_find_nolock (q : Quota) (nm : bytes) : option Z :=
  find (fun i => active (aget (g_namespaces q) i) && bytes_eqb (name (config (aget (g_namespaces q) i))) nm)
    (seqZ 0 (g_ns_count q)).

Definition put_ns (q : Quota) (i : Z) (ns : Namespace) : Quota := mkQuota (aset (g_namespaces q) i ns) (g_ns_count q).
Definition get_ns (q : Quota) (i : Z) : Namespace := aget (g_namespaces q) i.

Definition quota_namespace_create (q : Quota) (now : Z) (cfg : NamespaceConfig) : Quota * Z :=
  if bytes_eqb (name cfg) [] then (q, - 1)
  else
    match ns_find_nolock q (name cfg) with
    | Some _ => (q, - 1)
    | None =>
        if QUOTA_MAX_NAMESPACES <=? g_ns_count q then (q, - 1)
        else
          let ns := mkNs cfg (mkStats (take 63 (name cfg)) 0 0 0 0 0 0 0 0 0 0 0 0 now 0) true [] 0 0 now in
          (mkQuota (aset (g_namespaces q) (g_ns_count q) ns) (g_ns_count q + 1), 0)
    end.

Inductive ConfigKey := KMemoryLimit | KMaxKeys | KMaxConnections | KMaxOpsPerSec | KDefaultTtl | KOther.

Definition update_config (c : NamespaceConfig) (key : ConfigKey) (v : Z) : NamespaceConfig :=
  match key with
  | KMemoryLimit => mkConfig (name c) (u64 (u64 v * 1024 * 1024)) (max_keys c) (memory_action c) (max_ops_per_sec c) (cpu_action c) (max_connections c) (default_ttl_secs c)
  | KMaxKeys => mkConfig (name c) (max_memory_bytes c) (u64 v) (memory_action c) (max_ops_per_sec c) (cpu_action c) (max_connections c) (default_ttl_secs c)
  | KMaxConnections => mkConfig (name c) (max_memory_bytes c) (max_keys c) (memory_action c) (max_ops_per_sec c) (cpu_action c) (u32 v) (default_ttl_secs c)
  | KMaxOpsPerSec => mkConfig (name c) (max_memory_bytes c) (max_keys c) (memory_action c) (u64 v) (cpu_action c) (max_connections c) (default_ttl_secs c)
  | KDefaultTtl => mkConfig (name c) (max_memory_bytes c) (max_keys c) (memory_action c) (max_ops_per_sec c) (cpu_action c) (max_connections c) (i32 v)
  | KOther => c
  end.

Definition with_config (ns : Namespace) (c : NamespaceConfig) : Namespace :=
  mkNs c (stats ns) (active ns) (tokens ns) (token_cap ns) (ops_this_window ns) (window_start_us ns).
Definition with_stats (ns : Namespace) (s : NamespaceStats) : Namespace :=
  mkNs (config ns) s (active ns) (tokens ns) (token_cap ns) (ops_this_window ns) (window_start_us ns).
Definition with_tokens (ns : Namespace) (t : list bytes) (cap : Z) : Namespace :=
  mkNs (config ns) (stats ns) (active ns) t cap (ops_this_window ns) (window_start_us ns).
Definition with_window (ns : Namespace) (ops start : Z) : Namespace :=
  mkNs (config ns) (stats ns) (active ns) (tokens ns) (token_cap ns) ops start.

Definition quota_namespace_update (q : Quota) (nm : bytes) (key : ConfigKey) (v : Z) : Quota * Z :=
  match ns_find_nolock q nm with
  | None => (q, - 1)
  | Some i => (put_ns q i (with_config (get_ns q i) (update_config (config (get_ns q i)) key v)), 0)
  end.

Definition quota_namespace_drop (q : Quota) (nm : bytes) : Quota * Z :=
  match ns_find_nolock q nm with
  | None => (q, - 1)
  | Some i =>
      let ns := get_ns q i in
      (put_ns q i (mkNs zero_config (stats ns) false [] 0 (ops_this_window ns) (window_start_us ns)), 0)
  end.

Definition quota_namespace_evict (q : Quota) (nm : bytes) (target_mb : Z) : Quota * Z :=
  match ns_find_nolock q nm with
  | None => (q, 0)
  | Some i =>
      let s := stats (get_ns q i) in
      let freed := u64 (u64 (target_mb * 1024) * 1024) in
      let used := if freed <? used_memory_bytes s then used_memory_bytes s - freed else used_memory_bytes s in
      (put_ns q i (with_stats (get_ns q i)
         (mkStats (st_name s) used (key_count s) (ops_total s) (bytes_read s) (bytes_written s) (hits s) (misses s)
            (quota_violations_memory s) (quota_violations_cpu s) (requests_rejected s) (requests_throttled s)
            (evictions_forced s +64 target_mb) (created_at_us s) (last_access_us s))), target_mb)
  end.

Definition quota_auth_token_add (realloc_ok : bool) (q : Quota) (nm token : bytes) : Quota * Z :=
  match ns_find_nolock q nm with
  | None => (q, - 1)
  | Some i =>
      let ns := get_ns q i in
      let grow := token_cap ns <=? alen (tokens ns) in
      if grow && negb realloc_ok then (q, - 1)
      else
        let cap := if grow then (if token_cap ns =? 0 then 8 else token_cap ns * 2) else token_cap ns in
        (put_ns q i (with_tokens ns (tokens ns ++ [token]) cap), 0)
  end.

Definition quota_resolve_namespace (q : Quota) (token : bytes) (out_cap : Z) : option bytes :=
  match find (fun i => active (get_ns q i) && existsb (fun t => ct_str_equal t token) (tokens (get_ns q i)))
          (seqZ 0 (g_ns_count q)) with
  | Some i => Some (take (Z.to_nat (out_cap - 1)) (name (config (get_ns q i))))
  | None => None
  end.

(** ** quota_check *)
Definition bump (s : NamespaceStats) (vm vc rej thr : Z) : NamespaceStats :=
  mkStats (st_name s) (used_memory_bytes s) (key_count s) (ops_total s) (bytes_read s) (bytes_written s) (hits s) (misses s)
    (quota_violations_memory s +64 vm) (quota_violations_cpu s +64 vc) (requests_rejected s +64 rej)
    (requests_throttled s +64 thr) (evictions_forced s) (created_at_us s) (last_access_us s).

Definition check_memory (ns : Namespace) : Namespace * Z :=
  let c := config ns in
  if (0 <? max_memory_bytes c) && (max_memory_bytes c <=? used_memory_bytes (stats ns)) then
    match memory_action c with
    | QUOTA_ACTION_REJECT => (with_stats ns (bump (stats ns) 1 0 1 0), - 1)
    | QUOTA_ACTION_THROTTLE => (with_stats ns (bump (stats ns) 1 0 0 1), 1)
    | _ => (with_stats ns (bump (stats ns) 1 0 0 0), 0)
    end
  else (ns, 0).

Definition check_rate (ns : Namespace) (now : Z) : Namespace * Z :=
  let c := config ns in
  if 0 <? max_ops_per_sec c then
    let window_us := QUOTA_WINDOW_SECS * 1000000 in
    let ns := if window_us <=? (now -64 window_start_us ns) then with_window ns 0 now else ns in
    let ns := with_window ns (ops_this_window ns +64 1) (window_start_us ns) in
    if max_ops_per_sec c <? ops_this_window ns then
      match cpu_action c with
      | QUOTA_ACTION_REJECT => (with_stats ns (bump (stats ns) 0 1 1 0), - 1)
      | _ => (with_stats ns (bump (stats ns) 0 1 0 1), 1)
      end
    else (ns, 0)
  else (ns, 0).

Definition check_keys (ns : Namespace) : Namespace * Z :=
  if (0 <? max_keys (config ns)) && (max_keys (config ns) <=? key_count (stats ns))
  then (with_stats ns (bump (stats ns) 0 0 1 0), - 1) else (ns, 0).

Definition check_ns (ns : Namespace) (now : Z) : Namespace * Z :=
  let '(ns, r) := check_memory ns in
  if negb (r =? 0) then (ns, r) else
  let '(ns, r) := check_rate ns now in
  if negb (r =? 0) then (ns, r) else check_keys ns.

Definition quota_check (q : Quota) (now : Z) (nm : option bytes) : Quota * Z :=
  match nm with
  | None => (q, 0)
  | Some nm =>
      match ns_find_nolock q nm with
      | None => (q, 0)
      | Some i => let '(ns, r) := check_ns (get_ns q i) now in (put_ns q i ns, r)
      end
  end.

Definition quota_record (q : Quota) (now : Z) (nm : bytes) (bytes_in bytes_out : Z) (is_hit : bool) : Quota :=
  match ns_find_nolock q nm with
  | None => q
  | Some i =>
      let s := stats (get_ns q i) in
      put_ns q i (with_stats (get_ns q i)
        (mkStats (st_name s) (used_memory_bytes s) (key_count s) (ops_total s +64 1) (bytes_read s +64 bytes_in)
           (bytes_written s +64 bytes_out) (if is_hit then hits s +64 1 else hits s) (if is_hit then misses s else misses s +64 1)
           (quota_violations_memory s) (quota_violations_cpu s) (requests_rejected s) (requests_throttled s)
           (evictions_forced s) (created_at_us s) now))
  end.

Definition quota_namespace_stats (q : Quota) (nm : bytes) : NamespaceStats :=
  match ns_find_nolock q nm with Some i => stats (get_ns q i) | None => zero_stats end.

Definition quota_list_namespaces (q : Quota) (max : Z) : list bytes :=
  take (Z.to_nat max) (omap (fun i => if active (get_ns q i) then Some (name (config (get_ns q i))) else None) (seqZ 0 (g_ns_count q))).

(** ** Constant-time comparison *)
Lemma lor_zero a b : 0 <= a -> 0 <= b -> Z.lor a b = 0 <-> a = 0 /\ b = 0.
Proof. intros. apply Z.lor_eq_0_iff. Qed.

Lemma lxor_byte a b : in_u 8 a -> in_u 8 b -> in_u 8 (Z.lxor a b) /\ (Z.lxor a b = 0 <-> a = b).
Proof.
  intros Ha Hb. split; [|split; [apply Z.lxor_eq|intros ->; apply Z.lxor_nilpotent]].
  apply in_u_testbit; [lia|apply Z.lxor_nonneg; split; intros _; [apply Hb|apply Ha]|].
  intros j Hj. rewrite Z.lxor_spec. by rewrite !(testbit_high 8) by (done || lia).
Qed.

Lemma lor_byte a b : in_u 8 a -> in_u 8 b -> in_u 8 (Z.lor a b).
Proof.
  intros Ha Hb. apply in_u_testbit; [lia|apply Z.lor_nonneg; split; [apply Ha|apply Hb]|].
  intros j Hj. rewrite Z.lor_spec. by rewrite !(testbit_high 8) by (done || lia).
Qed.

Lemma diff_loop a b n d0 : is_bytes a -> is_bytes b -> in_u 8 d0 -> 0 <= n <= alen a -> n <= alen b ->
  let d := for_loop n (fun i d => u8 (Z.lor d (u8 (Z.lxor (aget a i) (aget b i))))) d0 in
  in_u 8 d /\ (d = 0 <-> d0 = 0 /\ forall i, 0 <= i < n -> aget a i = aget b i).
Proof.
  intros Ha Hb Hd Hn Hnb. cbv zeta.
  apply (for_loop_ind (fun m d => in_u 8 d /\ (d = 0 <-> d0 = 0 /\ forall i, 0 <= i < m -> aget a i = aget b i))); [lia| |].
  - split; [done|]. split; [intros ->; split; [done|lia]|by intros []].
  - intros i d Hi [Hr Hz].
    pose proof (Forall_aget _ _ i Ha ltac:(lia)) as Hai. pose proof (Forall_aget _ _ i Hb ltac:(lia)) as Hbi.
    destruct (lxor_byte _ _ Hai Hbi) as [Hx Hx0]. rewrite (wrap_small 8 (Z.lxor _ _)) by done.
    pose proof (lor_byte _ _ Hr Hx) as Hl. rewrite wrap_small by done. split; [done|].
    rewrite lor_zero by (apply Hr || apply Hx). rewrite Hz, Hx0. split.
    + intros [[H0 Hall] He]. split; [done|]. intros j Hj. destruct (Z.eq_dec j i) as [->|]; [done|]. apply Hall. lia.
    + intros [H0 Hall]. split; [split; [done|]|]; [intros j Hj|]; apply Hall; lia.
Qed.

Lemma ct_str_equal_spec a b : is_bytes a -> is_bytes b -> ct_str_equal a b = bool_decide (a = b).
Proof.
  intros Ha Hb. unfold ct_str_equal. set (n := if alen a <? alen b then alen a else alen b). set (d0 := if alen a =? alen b then 0 else 1).
  pose proof (alen_nonneg a). pose proof (alen_nonneg b).
  assert (0 <= n <= alen a /\ n <= alen b) as [Hn Hnb] by (unfold n; case_if; lia).
  assert (in_u 8 d0) as Hd by (unfold d0; case_if; mach).
  destruct (diff_loop a b n d0 Ha Hb Hd Hn Hnb) as [_ Hz]. set (d := for_loop _ _ _) in *.
  destruct (Z.eqb_spec d 0) as [Hd0|Hd0].
  - symmetry. apply bool_decide_eq_true_2. apply Hz in Hd0 as [He Hall].
    assert (alen a = alen b) as Hl by (unfold d0 in He; case_if_in He; [done|lia]).
    apply arr_ext; [done|]. intros i Hi. apply Hall. unfold n. case_if; lia.
  - symmetry. apply bool_decide_eq_false_2. intros ->. apply Hd0, Hz. unfold d0. rewrite Z.eqb_refl. done.
Qed.

(** ** Lookup of namespaces *)
Record inv (q : Quota) : Prop := {
  inv_len : alen (g_namespaces q) = QUOTA_MAX_NAMESPACES;
  inv_count : 0 <= g_ns_count q <= QUOTA_MAX_NAMESPACES;
  inv_tokens : forall i, 0 <= i < g_ns_count q -> Forall is_bytes (tokens (get_ns q i));
  inv_names : forall i j, 0 <= i < g_ns_count q -> 0 <= j < g_ns_count q ->
    active (get_ns q i) = true -> active (get_ns q j) = true ->
    name (config (get_ns q i)) = name (config (get_ns q j)) -> i = j }.

Lemma ns_find_spec q nm : match ns_find_nolock q nm with
  | Some i => 0 <= i < g_ns_count q /\ active (get_ns q i) = true /\ name (config (get_ns q i)) = nm
  | None => forall i, 0 <= i < g_ns_count q -> active (get_ns q i) = true -> name (config (get_ns q i)) <> nm
  end.
Proof.
  unfold ns_find_nolock. pose proof (find_seqZ (fun i => active (aget (g_namespaces q) i) && bytes_eqb (name (config (aget (g_namespaces q) i))) nm) (g_ns_count q)) as H.
  destruct (find _ _) as [i|]; cbv beta in H.
  - destruct H as [Hi H]. apply andb_true_iff in H as [Ha Hn]. apply bytes_eqb_eq in Hn. done.
  - intros i Hi Ha Hn. specialize (H i Hi). unfold get_ns in *. rewrite Ha in H. by rewrite (proj2 (bytes_eqb_eq _ _) Hn) in H.
Qed.

Lemma get_put_ns q i ns j : inv q -> 0 <= i < g_ns_count q -> 0 <= j ->
  get_ns (put_ns q i ns) j = if i =? j then ns else get_ns q j.
Proof.
  intros Hq Hi Hj. unfold get_ns, put_ns. cbn [g_namespaces]. pose proof (inv_len _ Hq). pose proof (inv_count _ Hq).
  destruct (Z.eqb_spec i j) as [<-|]; [apply aget_aset_eq; lia|apply aget_aset_ne; lia].
Qed.

Definition holds (q : Quota) (token : bytes) (i : Z) : bool :=
  active (get_ns q i) && existsb (fun t => ct_str_equal t token) (tokens (get_ns q i)).

Lemma holds_spec q token i : inv q -> is_bytes token -> 0 <= i < g_ns_count q ->
  holds q token i = true <-> active (get_ns q i) = true /\ token ∈ tokens (get_ns q i).
Proof.
  intros Hq Ht Hi. unfold holds. rewrite andb_true_iff, existsb_exists. pose proof (inv_tokens _ Hq i Hi) as Hb.
  rewrite Forall_forall in Hb. split; intros [Ha H]; (split; [done|]).
  - destruct H as (t & Hin & He). apply list_elem_of_In in Hin. rewrite ct_str_equal_spec in He by auto.
    by apply bool_decide_eq_true in He as ->.
  - exists token. split; [by apply list_elem_of_In|]. rewrite ct_str_equal_spec by done. by apply bool_decide_eq_true_2.
Qed.

(** ** The rate limiter over a sequence of checks *)
Fixpoint run_checks (ns : Namespace) (ts : list Z) : Namespace * list Z :=
  match ts with
  | [] => (ns, [])
  | t :: ts => let '(ns, r) := check_ns ns t in let '(ns, rs) := run_checks ns ts in (ns, r :: rs)
  end.

(** Only the rate is limited. *)
Record rate_only (ns : Namespace) (m : Z) : Prop := {
  ro_max : max_ops_per_sec (config ns) = m;
  ro_pos : 0 < m < 2 ^ 62;
  ro_mem : max_memory_bytes (config ns) = 0;
  ro_keys : max_keys (config ns) = 0 }.

Definition over_result (ns : Namespace) : Z := match cpu_action (config ns) with QUOTA_ACTION_REJECT => - 1 | _ => 1 end.

Lemma check_rate_only ns m t : rate_only ns m -> 0 <= window_start_us ns <= t -> t < 2 ^ 63 -> 0 <= ops_this_window ns < 2 ^ 62 ->
  let fresh := 1000000 <=? t - window_start_us ns in
  let ops := (if fresh then 0 else ops_this_window ns) + 1 in
  let '(ns', r) := check_ns ns t in
  rate_only ns' m /\ config ns' = config ns /\ ops_this_window ns' = ops /\
  window_start_us ns' = (if fresh then t else window_start_us ns) /\ r = if m <? ops then over_result ns else 0.
Proof.
  intros [Hm Hp Hmem Hk] Hw Ht Ho. cbv zeta. unfold check_ns, check_memory. rewrite Hmem. change (0 <? 0) with false. cbn [andb].
  change (negb (0 =? 0)) with false. cbn match. unfold check_rate. rewrite Hm. rewrite (proj2 (Z.ltb_lt 0 m)) by lia.
  change (QUOTA_WINDOW_SECS * 1000000) with 1000000. rewrite (wrap_small 64 (t - _)) by mach.
  set (fresh := 1000000 <=? t - window_start_us ns). set (base := if fresh then 0 else ops_this_window ns).
  assert (forall b : bool, config (if b then with_window ns 0 t else ns) = config ns) as Hcfg by (by intros []).
  assert (ops_this_window (if fresh then with_window ns 0 t else ns) = base) as -> by (unfold base; by destruct fresh).
  assert (window_start_us (if fresh then with_window ns 0 t else ns) = if fresh then t else window_start_us ns) as -> by (by destruct fresh).
  assert (0 <= base < 2 ^ 62) as Hbase by (unfold base; case_if; mach).
  rewrite (wrap_small 64 (base + 1)) by mach. cbn [with_window ops_this_window]. unfold over_result.
  destruct (Z.ltb_spec m (base + 1)).
  - destruct (cpu_action (config ns)); cbn -[Z.add]; rewrite ?Hcfg; split_and!; try done; split; cbn; rewrite ?Hcfg; try done; lia.
  - change (negb (0 =? 0)) with false. cbn match. unfold check_keys. cbn [with_window config]. rewrite Hcfg, Hk.
    change (0 <? 0) with false. cbn -[Z.add]. rewrite ?Hcfg. split_and!; try done. split; cbn; rewrite ?Hcfg; try done; lia.
Qed.

Lemma run_window m : forall ts ns, rate_only ns m -> 0 <= window_start_us ns -> window_start_us ns + 1000000 < 2 ^ 63 ->
  Forall (fun t => window_start_us ns <= t < window_start_us ns + 1000000) ts ->
  0 <= ops_this_window ns -> ops_this_window ns + alen ts < 2 ^ 62 ->
  let '(ns', rs) := run_checks ns ts in
  rate_only ns' m /\ config ns' = config ns /\ window_start_us ns' = window_start_us ns /\
  ops_this_window ns' = ops_this_window ns + alen ts /\
  rs = (fun j => if m <? ops_this_window ns + j then over_result ns else 0) <$> seqZ 1 (alen ts).
Proof.
  induction ts as [|t ts IH]; intros ns Hro Hw0 Hw Hts Ho Hlen.
  - cbn [run_checks]. rewrite alen_nil. split_and!; try apply Hro; [done|done|lia|done].
  - apply Forall_cons in Hts as [Ht Hts]. rewrite alen_cons in Hlen. pose proof (alen_nonneg ts). cbn [run_checks].
    pose proof (check_rate_only ns m t Hro ltac:(lia) ltac:(mach) ltac:(mach)) as Hc. cbv zeta in Hc.
    rewrite (proj2 (Z.leb_gt 1000000 (t - window_start_us ns))) in Hc by lia.
    destruct (check_ns ns t) as [ns1 r]. destruct Hc as (Hro1 & Hc1 & Ho1 & Hw1 & ->).
    specialize (IH ns1 Hro1). rewrite Hw1, Ho1 in IH. specialize (IH Hw0 Hw Hts ltac:(lia) ltac:(lia)).
    destruct (run_checks ns1 ts) as [ns2 rs]. destruct IH as (Hro2 & Hc2 & Hw2 & Ho2 & ->).
    split_and!; [done|congruence|congruence|rewrite alen_cons; lia|].
    rewrite alen_cons, (seqZ_cons 1 (1 + alen ts)) by lia. rewrite fmap_cons. f_equal.
    replace (Z.pred (1 + alen ts)) with (alen ts) by lia. change (Z.succ 1) with 2.
    rewrite <- (fmap_add_seqZ 1 1), <- list_fmap_compose. apply list_fmap_ext. intros _ j _. cbn.
    unfold over_result. rewrite Hc1. by rewrite <- Z.add_assoc.
Qed.

Lemma accepted_prefix m n (x : Z) : 0 <= m -> 0 <= n ->
  (fun j => if m <? 0 + j then x else 0) <$> seqZ 1 n =
  replicate (Z.to_nat (Z.min m n)) 0 ++ replicate (Z.to_nat (n - Z.min m n)) x.
Proof.
  intros Hm Hn. apply list_eq. intros k. rewrite list_lookup_fmap, lookup_app.
  destruct (decide (k < Z.to_nat n)%nat) as [Hk|Hk].
  - rewrite lookup_seqZ_lt by lia. simpl. destruct (Z.ltb_spec m (0 + (1 + Z.of_nat k))).
    + rewrite lookup_ge_None_2 by (rewrite length_replicate; lia). rewrite length_replicate, lookup_replicate_2 by lia. done.
    + rewrite lookup_replicate_2 by lia. done.
  - rewrite lookup_seqZ_ge by lia. simpl. rewrite lookup_ge_None_2 by (rewrite length_replicate; lia).
    rewrite lookup_ge_None_2 by (rewrite !length_replicate; lia). done.
Qed.

Lemma run_checks_app ns ts1 ts2 :
  run_checks ns (ts1 ++ ts2) =
  ((run_checks (run_checks ns ts1).1 ts2).1, (run_checks ns ts1).2 ++ (run_checks (run_checks ns ts1).1 ts2).2).
Proof.
  revert ns. induction ts1 as [|t ts1 IH]; intros ns; cbn [run_checks app].
  - cbn [fst snd app]. by destruct (run_checks ns ts2).
  - destruct (check_ns ns t) as [ns1 r]. rewrite IH. by destruct (run_checks ns1 ts1) as [ns2 rs].
Qed.

Lemma accepted_all m k n x : 0 <= n -> k + n <= m ->
  Forall (fun r => r = 0) ((fun j => if m <? k + j then x else 0) <$> seqZ 1 n).
Proof.
  intros Hn Hk. apply Forall_fmap, Forall_forall. intros j Hj. apply elem_of_seqZ in Hj. cbn.
  by rewrite (proj2 (Z.ltb_ge m (k + j))) by lia.
Qed.

(** A burst that fits the limit and falls in the open window is accepted. *)
Lemma burst_accepted ns m n t : rate_only ns m -> 0 <= window_start_us ns -> window_start_us ns + 1000000 < 2 ^ 63 ->
  window_start_us ns <= t < window_start_us ns + 1000000 -> 0 <= ops_this_window ns -> 0 <= n -> ops_this_window ns + n <= m ->
  let '(ns', rs) := run_checks ns (calloc n t) in
  rate_only ns' m /\ window_start_us ns' = window_start_us ns /\ ops_this_window ns' = ops_this_window ns + n /\
  Forall (fun r => r = 0) rs.
Proof.
  intros Hro Hw0 Hw Ht Ho Hn Hm. pose proof (ro_pos _ _ Hro).
  pose proof (run_window m (calloc n t) ns Hro Hw0 Hw (Forall_calloc _ _ _ Ht) Ho) as H1.
  rewrite alen_calloc in H1 by lia. specialize (H1 ltac:(lia)).
  destruct (run_checks ns (calloc n t)) as [ns' rs]. destruct H1 as (Hro' & _ & Hw' & Ho' & ->).
  split_and!; try done. by apply accepted_all.
Qed.

(** ** The invariant *)
Lemma get_ns_init i : 0 <= i < QUOTA_MAX_NAMESPACES -> get_ns quota_init i = zero_ns.
Proof. intros. apply aget_calloc. done. Qed.

Lemma inv_init : inv quota_init.
Proof. split; try done; cbn; lia. Qed.

(** Replacing a namespace by one with byte tokens whose name, when it is
    active, was its own keeps the invariant. *)
Lemma inv_put q i ns : inv q -> 0 <= i < g_ns_count q -> Forall is_bytes (tokens ns) ->
  (active ns = true -> active (get_ns q i) = true /\ name (config ns) = name (config (get_ns q i))) -> inv (put_ns q i ns).
Proof.
  intros Hq Hi Ht Hn. pose proof Hq as [Hl Hc Htk Hnm]. split.
  - unfold put_ns. cbn [g_namespaces]. by rewrite alen_aset.
  - done.
  - intros j Hj. cbn [put_ns g_ns_count] in Hj. rewrite get_put_ns by (done || lia). destruct (Z.eqb_spec i j); auto.
  - intros j k Hj Hk. cbn [put_ns g_ns_count] in Hj, Hk. rewrite !get_put_ns by (done || lia).
    destruct (Z.eqb_spec i j) as [<-|], (Z.eqb_spec i k) as [<-|]; intros Ha Hb He; try lia; auto.
    + destruct (Hn Ha) as [Ha' Hn']. apply Hnm; auto. congruence.
    + destruct (Hn Hb) as [Hb' Hn']. apply Hnm; auto. congruence.
Qed.

Lemma get_new_ns q ns j : inv q -> g_ns_count q < QUOTA_MAX_NAMESPACES -> 0 <= j ->
  get_ns (mkQuota (aset (g_namespaces q) (g_ns_count q) ns) (g_ns_count q + 1)) j =
  if g_ns_count q =? j then ns else get_ns q j.
Proof.
  intros Hq Hc Hj. unfold get_ns. cbn [g_namespaces]. pose proof (inv_len _ Hq). pose proof (inv_count _ Hq).
  destruct (Z.eqb_spec (g_ns_count q) j) as [<-|]; [apply aget_aset_eq; lia|apply aget_aset_ne; lia].
Qed.

Lemma inv_create q now cfg : inv q -> inv (quota_namespace_create q now cfg).1.
Proof.
  intros Hq. unfold quota_namespace_create. case_if; [done|]. pose proof (ns_find_spec q (name cfg)) as Hf.
  destruct (ns_find_nolock q (name cfg)) as [i|]; [done|]. destruct (Z.leb_spec QUOTA_MAX_NAMESPACES (g_ns_count q)); [done|].
  set (ns := mkNs _ _ _ _ _ _ _). pose proof Hq as [Hl Hc Htk Hnm]. cbn [fst]. split.
  - cbn [g_namespaces]. by rewrite alen_aset.
  - cbn [g_ns_count]. lia.
  - intros j Hj. cbn [g_ns_count] in Hj. rewrite get_new_ns by (done || lia). destruct (Z.eqb_spec (g_ns_count q) j); [constructor|].
    apply Htk. lia.
  - intros j k Hj Hk. cbn [g_ns_count] in Hj, Hk. rewrite !get_new_ns by (done || lia).
    destruct (Z.eqb_spec (g_ns_count q) j), (Z.eqb_spec (g_ns_count q) k); intros Ha Hb He; try lia.
    + cbn in He. exfalso. apply (Hf k); [lia|done|done].
    + cbn in He. exfalso. apply (Hf j); [lia|done|done].
    + apply Hnm; auto; lia.
Qed.

Lemma inv_token_add ok q nm token : inv q -> is_bytes token -> inv (quota_auth_token_add ok q nm token).1.
Proof.
  intros Hq Ht. unfold quota_auth_token_add. pose proof (ns_find_spec q nm) as Hf. destruct (ns_find_nolock q nm) as [i|]; [|done].
  destruct Hf as (Hi & Ha & Hn). case_match; [done|]. cbn [fst]. apply inv_put; [done|done| |done].
  cbn. apply Forall_app. split; [by apply inv_tokens|]. by constructor.
Qed.

Lemma inv_drop q nm : inv q -> inv (quota_namespace_drop q nm).1.
Proof.
  intros Hq. unfold quota_namespace_drop. pose proof (ns_find_spec q nm) as Hf. destruct (ns_find_nolock q nm) as [i|]; [|done].
  apply inv_put; [done|apply Hf|constructor|done].
Qed.

(** ** Claims *)

(** The rate limiter inside one window: of the checks that fall in the
    second after the window opened, exactly the first [max_ops_per_sec] are
    accepted and all later ones are refused. *)
Theorem quota_rate_exact ns m ts : rate_only ns m -> 0 <= window_start_us ns -> window_start_us ns + 1000000 < 2 ^ 63 ->
  ops_this_window ns = 0 -> alen ts < 2 ^ 62 ->
  Forall (fun t => window_start_us ns <= t < window_start_us ns + 1000000) ts ->
  (run_checks ns ts).2 = replicate (Z.to_nat (Z.min m (alen ts))) 0 ++
                         replicate (Z.to_nat (alen ts - Z.min m (alen ts))) (over_result ns) /\ over_result ns <> 0.
Proof.
  intros Hro Hw0 Hw Ho Hlen Hts. split; [|unfold over_result; by destruct (cpu_action _)].
  pose proof (run_window m ts ns Hro Hw0 Hw Hts ltac:(lia) ltac:(lia)) as H. rewrite Ho in H.
  destruct (run_checks ns ts) as [ns' rs]. destruct H as (_ & _ & _ & _ & ->). cbn [snd].
  apply accepted_prefix; [destruct Hro; lia|apply alen_nonneg].
Qed.

(** The window does not slide: a burst of [max_ops_per_sec] checks at
    the end of a window followed by as many one microsecond later is accepted
    in full, twice the configured rate. *)
Theorem quota_rate_burst ns m : rate_only ns m -> 0 <= window_start_us ns -> window_start_us ns + 2000000 < 2 ^ 63 ->
  ops_this_window ns = 0 -> let w := window_start_us ns in
  Forall (fun r => r = 0) (run_checks ns (calloc m (w + 999999) ++ calloc m (w + 1000000))).2.
Proof.
  intros Hro Hw0 Hw Ho w. pose proof (ro_pos _ _ Hro) as Hm. rewrite run_checks_app. cbn [snd]. apply Forall_app.
  pose proof (burst_accepted ns m m (w + 999999) Hro Hw0 ltac:(lia) ltac:(lia) ltac:(lia) ltac:(lia) ltac:(lia)) as H1.
  destruct (run_checks ns (calloc m (w + 999999))) as [ns1 rs1]. destruct H1 as (Hro1 & Hw1 & Ho1 & Hr1). split; [done|]. cbn [fst].
  replace (calloc m (w + 1000000)) with ((w + 1000000) :: calloc (m - 1) (w + 1000000))
    by (unfold calloc; by replace (Z.to_nat m) with (S (Z.to_nat (m - 1))) by lia).
  cbn [run_checks]. pose proof (check_rate_only ns1 m (w + 1000000) Hro1 ltac:(lia) ltac:(lia) ltac:(lia)) as H2. cbv zeta in H2.
  rewrite (proj2 (Z.leb_le 1000000 (w + 1000000 - window_start_us ns1))) in H2 by lia.
  rewrite (proj2 (Z.ltb_ge m (0 + 1))) in H2 by lia.
  destruct (check_ns ns1 (w + 1000000)) as [ns2 r2]. destruct H2 as (Hro2 & _ & Ho2 & Hw2 & ->).
  pose proof (burst_accepted ns2 m (m - 1) (w + 1000000) Hro2 ltac:(lia) ltac:(lia) ltac:(lia) ltac:(lia) ltac:(lia) ltac:(lia)) as H3.
  destruct (run_checks ns2 (calloc (m - 1) (w + 1000000))) as [ns3 rs3]. destruct H3 as (_ & _ & _ & Hr3).
  constructor; [done|exact Hr3].
Qed.

(** ** Tokens *)
Lemma resolve_spec q token cap : inv q -> is_bytes token ->
  match quota_resolve_namespace q token cap with
  | Some nm => exists i, 0 <= i < g_ns_count q /\ active (get_ns q i) = true /\ token ∈ tokens (get_ns q i) /\
                 nm = take (Z.to_nat (cap - 1)) (name (config (get_ns q i)))
  | None => forall i, 0 <= i < g_ns_count q -> active (get_ns q i) = true -> token ∉ tokens (get_ns q i)
  end.
Proof.
  intros Hq Ht. unfold quota_resolve_namespace. pose proof (find_seqZ (holds q token) (g_ns_count q)) as H.
  fold (holds q token). destruct (find _ _) as [i|].
  - destruct H as [Hi H]. apply holds_spec in H as [Ha Htk]; [|done..]. eauto.
  - intros i Hi Ha Htk. specialize (H i Hi). by rewrite (proj2 (holds_spec q token i Hq Ht Hi)) in H.
Qed.

(** The active namespaces that know a token. *)
Definition knows (q : Quota) (nm token : bytes) : Prop :=
  exists i, 0 <= i < g_ns_count q /\ active (get_ns q i) = true /\ name (config (get_ns q i)) = nm /\ token ∈ tokens (get_ns q i).

Lemma knows_put q i ns nm token : inv q -> 0 <= i < g_ns_count q ->
  knows (put_ns q i ns) nm token <->
  (active ns = true /\ name (config ns) = nm /\ token ∈ tokens ns) \/
  exists j, i <> j /\ 0 <= j < g_ns_count q /\ active (get_ns q j) = true /\ name (config (get_ns q j)) = nm /\ token ∈ tokens (get_ns q j).
Proof.
  intros Hq Hi. unfold knows. cbn [put_ns g_ns_count]. split.
  - intros (j & Hj & H). rewrite get_put_ns in H by (done || lia). destruct (Z.eqb_spec i j); [by left|right; eauto].
  - intros [H|(j & Hne & Hj & H)]; [exists i|exists j]; (split; [done|]); rewrite get_put_ns by (done || lia).
    + by rewrite Z.eqb_refl.
    + by rewrite (proj2 (Z.eqb_neq i j)).
Qed.

Lemma knows_token_add q nm token ok : inv q -> (quota_auth_token_add ok q nm token).2 = 0 -> forall nm' token',
  knows (quota_auth_token_add ok q nm token).1 nm' token' <-> knows q nm' token' \/ (nm' = nm /\ token' = token).
Proof.
  intros Hq. unfold quota_auth_token_add. pose proof (ns_find_spec q nm) as Hf. destruct (ns_find_nolock q nm) as [i|]; [|done].
  destruct Hf as (Hi & Ha & Hn). case_match; [done|]. intros _ nm' token'. cbn [fst]. rewrite knows_put by done.
  cbn [with_tokens active config tokens]. rewrite Hn, elem_of_app, list_elem_of_singleton. split.
  - intros [(_ & <- & [Htk| ->])|(j & _ & Hj)]; [left; exists i; done|by right|left; by exists j].
  - intros [(j & Hj & Haj & Hnj & Htj)|[-> ->]]; [|left; auto].
    destruct (Z.eq_dec i j) as [<-|]; [left; subst; auto|right; exists j; done].
Qed.

Lemma knows_drop q nm : inv q -> (quota_namespace_drop q nm).2 = 0 -> forall nm' token',
  knows (quota_namespace_drop q nm).1 nm' token' <-> knows q nm' token' /\ nm' <> nm.
Proof.
  intros Hq. unfold quota_namespace_drop. pose proof (ns_find_spec q nm) as Hf. destruct (ns_find_nolock q nm) as [i|]; [|done].
  destruct Hf as (Hi & Ha & Hn). intros _ nm' token'. cbn [fst]. rewrite knows_put by done. split.
  - intros [[? _]|(j & Hne & Hj & Haj & Hnj & Htj)]; [done|]. split; [by exists j|]. intros ->.
    apply Hne. apply (inv_names _ Hq); try done. congruence.
  - intros [(j & Hj & Haj & Hnj & Htj) Hne]. right. exists j. split; [|done]. intros ->. congruence.
Qed.

Lemma knows_create q now cfg : inv q -> (quota_namespace_create q now cfg).2 = 0 -> forall nm' token',
  knows (quota_namespace_create q now cfg).1 nm' token' <-> knows q nm' token'.
Proof.
  intros Hq. unfold quota_namespace_create. case_if; [done|]. destruct (ns_find_nolock q (name cfg)) as [i|]; [done|].
  destruct (Z.leb_spec QUOTA_MAX_NAMESPACES (g_ns_count q)); [done|]. intros _ nm' token'. cbn [fst]. unfold knows. cbn [g_ns_count]. split.
  - intros (j & Hj & H1). rewrite get_new_ns in H1 by (done || lia). destruct (Z.eqb_spec (g_ns_count q) j).
    + cbn in H1. destruct H1 as (_ & _ & H1). by apply not_elem_of_nil in H1.
    + exists j. split; [lia|done].
  - intros (j & Hj & H1). exists j. split; [lia|]. rewrite get_new_ns by (done || lia). by rewrite (proj2 (Z.eqb_neq _ j)) by lia.
Qed.

(** C36. Tokens authenticate exactly the namespaces they were added to.
    Resolving a token gives the name of an active namespace that knows it, and
    fails only when none does; a successful [quota_auth_token_add] adds
    precisely that pair, a successful [quota_namespace_create] none, and a
    successful [quota_namespace_drop] removes all the tokens of that name and
    no others. *)
Theorem quota_token_isolation q : inv q ->
  (forall token, is_bytes token ->
     match quota_resolve_namespace q token QUOTA_NS_NAME_MAX with
     | Some nm => exists full, knows q full token /\ nm = take 63 full
     | None => forall nm, ~ knows q nm token
     end) /\
  (forall ok nm token q', is_bytes token -> quota_auth_token_add ok q nm token = (q', 0) ->
     inv q' /\ forall nm' t, knows q' nm' t <-> knows q nm' t \/ (nm' = nm /\ t = token)) /\
  (forall now cfg q', quota_namespace_create q now cfg = (q', 0) ->
     inv q' /\ forall nm' t, knows q' nm' t <-> knows q nm' t) /\
  (forall nm q', quota_namespace_drop q nm = (q', 0) ->
     inv q' /\ forall nm' t, knows q' nm' t <-> knows q nm' t /\ nm' <> nm).
Proof.
  intros Hq. split_and!.
  - intros token Ht. pose proof (resolve_spec q token QUOTA_NS_NAME_MAX Hq Ht) as H.
    destruct (quota_resolve_namespace _ _ _) as [nm|].
    + destruct H as (i & Hi & Ha & Htk & ->). eexists. split; [by exists i|done].
    + intros nm (i & Hi & Ha & _ & Htk). by eapply H.
  - intros ok nm token q' Ht E. pose proof (inv_token_add ok q nm token Hq Ht) as Hi.
    pose proof (knows_token_add q nm token ok Hq) as Hk. rewrite E in Hi, Hk. eauto.
  - intros now cfg q' E. pose proof (inv_create q now cfg Hq) as Hi. pose proof (knows_create q now cfg Hq) as Hk.
    rewrite E in Hi, Hk. eauto.
  - intros nm q' E. pose proof (inv_drop q nm Hq) as Hi. pose proof (knows_drop q nm Hq) as Hk.
    rewrite E in Hi, Hk. eauto.
Qed.

(** ** Slots *)
Definition churn (now : Z) (cfg : NamespaceConfig) (q : Quota) : Quota :=
  (quota_namespace_drop (quota_namespace_create q now cfg).1 (name cfg)).1.

Definition all_inactive (q : Quota) : Prop := forall i, 0 <= i < g_ns_count q -> active (get_ns q i) = false.

Lemma find_inactive q nm : all_inactive q -> ns_find_nolock q nm = None.
Proof.
  intros Hq. pose proof (ns_find_spec q nm) as H. destruct (ns_find_nolock q nm) as [i|]; [|done].
  destruct H as (Hi & Ha & _). by rewrite Hq in Ha.
Qed.

Lemma churn_step now cfg q : inv q -> all_inactive q -> name cfg <> [] -> g_ns_count q < QUOTA_MAX_NAMESPACES ->
  inv (churn now cfg q) /\ all_inactive (churn now cfg q) /\ g_ns_count (churn now cfg q) = g_ns_count q + 1.
Proof.
  intros Hq Hin Hne Hc. split; [by apply inv_drop, inv_create|]. unfold churn.
  pose proof (inv_create q now cfg Hq) as Hq1. pose proof (inv_count _ Hq).
  unfold quota_namespace_create in *. rewrite (find_inactive _ _ Hin) in *.
  destruct (bytes_eqb (name cfg) []) eqn:E; [by apply bytes_eqb_eq in E|]. rewrite (proj2 (Z.leb_gt QUOTA_MAX_NAMESPACES _)) in * by done.
  cbn [fst] in *. set (q1 := mkQuota _ _) in *. unfold quota_namespace_drop. pose proof (ns_find_spec q1 (name cfg)) as Hf.
  assert (forall j, 0 <= j -> g_ns_count q <> j -> get_ns q1 j = get_ns q j) as Hold.
  { intros j Hj Hn. unfold q1. rewrite get_new_ns by done. by rewrite (proj2 (Z.eqb_neq _ j)). }
  destruct (ns_find_nolock q1 (name cfg)) as [i|].
  - destruct Hf as (Hi & Ha & _). cbn [fst]. split; [|done]. intros j Hj. cbn [put_ns g_ns_count q1] in Hj, Hi.
    rewrite get_put_ns by (done || lia). destruct (Z.eqb_spec i j); [done|].
    destruct (Z.eq_dec (g_ns_count q) i) as [He|Hni].
    + rewrite Hold by lia. apply Hin. lia.
    + rewrite Hold in Ha by lia. rewrite Hin in Ha by lia. done.
  - exfalso. apply (Hf (g_ns_count q)); [cbn; lia|..]; unfold q1; rewrite get_new_ns, Z.eqb_refl by (done || lia); done.
Qed.

(** Dropped namespaces keep their slots: after 256 create/drop pairs on
    a fresh table no namespace exists and yet no namespace can be created any
    more, until the whole subsystem is initialised again. *)
Theorem quota_slots_leak now cfg : name cfg <> [] ->
  let q := Nat.iter 256 (churn now cfg) quota_init in
  quota_list_namespaces q QUOTA_MAX_NAMESPACES = [] /\
  forall now' cfg', quota_namespace_create q now' cfg' = (q, - 1).
Proof.
  intros Hne q.
  assert (forall n : nat, (n <= 256)%nat -> let q := Nat.iter n (churn now cfg) quota_init in
            inv q /\ all_inactive q /\ g_ns_count q = Z.of_nat n) as Hn.
  { induction n as [|n IH]; intros Hle; cbn [Nat.iter nat_rect].
    - split_and!; [apply inv_init|intros i Hi; cbn in Hi; lia|done].
    - destruct (IH ltac:(lia)) as (Hi & Ha & Hc).
      destruct (churn_step now cfg (Nat.iter n (churn now cfg) quota_init) Hi Ha Hne) as (Hi' & Ha' & Hc'); [rewrite Hc; unfold QUOTA_MAX_NAMESPACES; lia|].
      split_and!; [done..|]. etransitivity; [exact Hc'|]. lia. }
  specialize (Hn 256%nat ltac:(lia)). cbv zeta in Hn. fold q in Hn. clearbody q. destruct Hn as (Hi & Ha & Hc).
  assert (g_ns_count q = 256) as Hc' by (rewrite Hc; reflexivity). split.
  - unfold quota_list_namespaces.
    assert (forall l, (forall i, i ∈ l -> 0 <= i < g_ns_count q) ->
              omap (fun i => if active (get_ns q i) then Some (name (config (get_ns q i))) else None) l = []) as Hno.
    { induction l as [|x l IHl]; intros Hl; [done|]. cbn. rewrite Ha by (apply Hl; left). apply IHl. intros i Hx. apply Hl. by right. }
    rewrite Hno; [by rewrite take_nil|]. intros i Hx. apply elem_of_seqZ in Hx. lia.
  - intros now' cfg'. unfold quota_namespace_create. case_if; [done|]. rewrite find_inactive by done.
    rewrite (proj2 (Z.leb_le QUOTA_MAX_NAMESPACES (g_ns_count q))) by (rewrite Hc'; done). done.
Qed.

Definition demo_cfg : NamespaceConfig :=
  mkConfig [110; 115] 0 0 QUOTA_ACTION_REJECT 2 QUOTA_ACTION_REJECT 0 0.
Definition demo_ns : Namespace := mkNs demo_cfg zero_stats true [] 0 0 1000.

Lemma demo_rate_only : rate_only demo_ns 2.
Proof. split; cbn; lia. Qed.

Lemma quota_rate_exact_witness : (run_checks demo_ns [1000; 2000; 3000; 1000999]).2 = [0; 0; - 1; - 1] /\ over_result demo_ns <> 0.
Proof.
  apply (quota_rate_exact demo_ns 2 [1000; 2000; 3000; 1000999] demo_rate_only); try (cbn; lia); try reflexivity.
  repeat constructor; cbn; lia.
Defined.

Lemma quota_rate_burst_witness : Forall (fun r => r = 0) (run_checks demo_ns [1000999; 1000999; 1001000; 1001000]).2.
Proof. apply (quota_rate_burst demo_ns 2 demo_rate_only); cbn; lia. Defined.

Lemma quota_token_isolation_witness :
  let q := (quota_namespace_create quota_init 0 demo_cfg).1 in
  exists q', quota_auth_token_add true q [110; 115] [1; 2; 3] = (q', 0) /\ knows q' [110; 115] [1; 2; 3].
Proof.
  cbv zeta. set (q := (quota_namespace_create quota_init 0 demo_cfg).1).
  pose proof (inv_create quota_init 0 demo_cfg inv_init) as Hq. fold q in Hq.
  destruct (quota_auth_token_add true q [110; 115] [1; 2; 3]) as [q' r] eqn:E.
  assert (r = 0) as -> by (apply (f_equal snd) in E; vm_compute in E; exact (eq_sym E)).
  exists q'. split; [done|]. apply (quota_token_isolation q Hq) in E as [_ Hk]; [apply Hk; by right|].
  repeat constructor; mach.
Defined.

Lemma quota_slots_leak_witness :
  quota_list_namespaces (Nat.iter 256 (churn 0 demo_cfg) quota_init) QUOTA_MAX_NAMESPACES = [].
Proof. apply (quota_slots_leak 0 demo_cfg). done. Defined.

(** The two limits read their actions differently: a namespace over its
    memory limit with the soft action passes, one over its rate with the same
    action is throttled. *)
Lemma quota_log_only_throttles ns t :
  cpu_action (config ns) = QUOTA_ACTION_LOG_ONLY -> 0 < max_ops_per_sec (config ns) ->
  max_ops_per_sec (config ns) <= ops_this_window ns < 2 ^ 64 - 1 -> 0 <= window_start_us ns <= t -> t < window_start_us ns + 1000000 -> t < 2 ^ 64 ->
  (check_rate ns t).2 = 1.
Proof.
  intros Ha Hp Ho Hw Ht Ht'. unfold check_rate. rewrite (proj2 (Z.ltb_lt 0 _)) by done.
  change (QUOTA_WINDOW_SECS * 1000000) with 1000000. rewrite (wrap_small 64 (t - _)) by mach.
  rewrite (proj2 (Z.leb_gt 1000000 (t - _))) by lia. rewrite wrap_small by mach. cbn [with_window ops_this_window].
  rewrite (proj2 (Z.ltb_lt _ (ops_this_window ns + 1))) by lia. by rewrite Ha.
Qed.
