(* ===== verification/StorageApi.v ===== *)
(** * The storage interface (src/src/core/nexstorage.h)

    The narrow waist between the command layer and the engines: the result
    codes, the entry that a read returns, the table of operations
    [NexStorageAPI] of a backend, and the dual store [NexStorage], which keeps
    strings in a main backend and everything else in an object backend.
    [StoreLaws] is what a backend promises; the theorems on the dual store are
    proved against it.  What the clock and the allocator do during a call is
    the argument [Ctx]: the clock does not move during a call. *)
From S2P Require Import Prelude.

Inductive NexStorageResult :=
  | NEXS_OK | NEXS_NOT_FOUND | NEXS_EXPIRED | NEXS_ERROR | NEXS_FULL | NEXS_TOO_LARGE | NEXS_PENDING.
#[export] Instance NexStorageResult_eq_dec : EqDecision NexStorageResult.
Proof. solve_decision. Defined.

(** [NexDataType]: the numbers are stored in the slots of NexDash. *)
Definition NEXDT_STRING : Z := 0.
Definition NEXDT_HASH : Z := 1.
Definition NEXDT_CRDT : Z := 8.

(** [e_value = None] is a NULL pointer; [value_len] is the length of the bytes. *)
Record NexEntry := mkEntry { e_value : option bytes; e_type : Z; e_ttl_ms : Z; e_version : Z }.

Record Ctx := mkCtx { now_us : Z; realloc_works : bool; arena_works : bool; malloc : option Z }.

(** A callback of a read-modify-write: the new entry, the result and its output. *)
Definition NexRMWCallback (O : Type) : Type := NexEntry -> NexEntry * NexStorageResult * O.

Record NexStorageAPI (B : Type) := mkApi {
  api_get : Ctx -> B -> bytes -> B * NexStorageResult * option NexEntry;
  api_set : Ctx -> B -> bytes -> bytes -> Z -> Z -> B * NexStorageResult;
  api_del : Ctx -> B -> bytes -> B * NexStorageResult;
  api_exists : Ctx -> B -> bytes -> B * bool;
  (* the output is None when the callback has not run *)
  api_rmw : option (forall O, Ctx -> B -> bytes -> NexRMWCallback O -> B * NexStorageResult * option O) }.
Arguments mkApi {B}.
Arguments api_get {B}.
Arguments api_set {B}.
Arguments api_del {B}.
Arguments api_exists {B}.
Arguments api_rmw {B}.

(** A length passed as [uint16_t] selects this prefix. *)
Definition cut16 (b : bytes) : bytes := take (Z.to_nat (u16 (alen b))) b.

(** ** Values *)
Record NexValue := mkValue { v_data : bytes; v_type : Z; v_expire_us : Z; v_version : Z }.

(** The time to live a reader sees: -1 is none, -2 is over. *)
Definition ttl_of (now : Z) (expire_us : Z) : Z :=
  if expire_us <? 0 then - 1
  else let remaining := i64 (expire_us - now) in if 0 <? remaining then remaining / 1000 else - 2.

Definition entry_of (now : Z) (v : NexValue) : NexEntry :=
  mkEntry (Some (v_data v)) (v_type v) (ttl_of now (v_expire_us v)) (v_version v).
Definition no_entry : NexEntry := mkEntry None 0 (- 1) 0.

Definition new_expire (now ttl_ms : Z) : Z := if 0 <=? ttl_ms then now + ttl_ms * 1000 else - 1.
Definition new_value (now : Z) (data : bytes) (type ttl_ms : Z) : NexValue :=
  mkValue data type (new_expire now ttl_ms) now.

(** What a read of a key with the given live value answers. *)
Definition read_answer (limit now : Z) (v : option NexValue) (r : NexStorageResult) (out : option NexEntry) : Prop :=
  match v with
  | Some v => if alen (v_data v) <=? limit then r = NEXS_OK /\ out = Some (entry_of now v) else r = NEXS_TOO_LARGE /\ out = None
  | None => r = NEXS_NOT_FOUND /\ out = None
  end.

(** ** What a backend promises

    [view now b] is the map of the keys that are live at [now]; [live] says
    how long a stored value lives; [ready] is what a write needs of the
    allocator. *)
Definition put (live : Z -> NexValue -> bool) (now : Z) (k : bytes) (v : NexValue) (m : gmap bytes NexValue) : gmap bytes NexValue :=
  if live now v then <[k := v]> m else delete k m.

Class StoreLaws {B : Type} (api : NexStorageAPI B) (inv : B -> Prop) (view : Z -> B -> gmap bytes NexValue)
    (live : Z -> NexValue -> bool) (key_ok : bytes -> Prop) (ready : Ctx -> B -> bytes -> Z -> Z -> Prop) (limit : Z) : Prop := {
  law_get c b k b' r out : inv b -> key_ok k -> api_get api c b k = (b', r, out) ->
    inv b' /\ (forall now, now_us c <= now -> view now b' = view now b) /\
    read_answer limit (now_us c) (view (now_us c) b !! k) r out;
  law_set c b k data type ttl b' r : inv b -> key_ok k -> ready c b k type ttl -> api_set api c b k data type ttl = (b', r) ->
    inv b' /\
    ((r = NEXS_OK /\ forall now, now_us c <= now -> view now b' = put live now k (new_value (now_us c) data type ttl) (view now b)) \/
     (r = NEXS_ERROR /\ (malloc c = None \/ view (now_us c) b !! k = None) /\ forall now, now_us c <= now -> view now b' = view now b));
  law_del c b k b' r : inv b -> key_ok k -> api_del api c b k = (b', r) ->
    inv b' /\ (forall now, view now b' = delete k (view now b)) /\
    ((r = NEXS_OK /\ exists now, is_Some (view now b !! k)) \/ (r = NEXS_NOT_FOUND /\ forall now, view now b !! k = None));
  law_exists c b k b' r : inv b -> key_ok k -> api_exists api c b k = (b', r) ->
    inv b' /\ (forall now, now_us c <= now -> view now b' = view now b) /\
    r = bool_decide (is_Some (view (now_us c) b !! k)) }.

(** What a store whose entries never expire promises on top: it holds the map
    [m] at all times, before and after. *)
Class StoreKeeps {B : Type} (api : NexStorageAPI B) (inv : B -> Prop) (view : Z -> B -> gmap bytes NexValue)
    (key_ok : bytes -> Prop) (ready : Ctx -> B -> bytes -> Z -> Z -> Prop) : Prop := {
  keep_get c b k b' r out m : inv b -> key_ok k -> (forall now, view now b = m) -> api_get api c b k = (b', r, out) -> forall now, view now b' = m;
  keep_set c b k data type ttl b' r m : inv b -> key_ok k -> ready c b k type ttl -> ttl < 0 -> (forall now, view now b = m) ->
    api_set api c b k data type ttl = (b', r) ->
    forall now, view now b' = if bool_decide (r = NEXS_OK) then <[k := new_value (now_us c) data type ttl]> m else m }.

(** ** The dual store *)
Record NexStorage (B1 B2 : Type) := mkStorage { main_backend : B1; object_backend : B2 }.
Arguments mkStorage {B1 B2}.
Arguments main_backend {B1 B2}.
Arguments object_backend {B1 B2}.

Section DualStore.
Context {B1 B2 : Type} (main_api : NexStorageAPI B1) (object_api : NexStorageAPI B2).

Definition nexstorage_get (c : Ctx) (ns : NexStorage B1 B2) (k : bytes) : NexStorage B1 B2 * NexStorageResult * option NexEntry :=
  let '(b1, r, out) := api_get main_api c (main_backend ns) k in
  let ns := mkStorage b1 (object_backend ns) in
  if bool_decide (r = NEXS_OK) then (ns, NEXS_OK, out)
  else
    let '(b2, r, out) := api_get object_api c (object_backend ns) k in
    (mkStorage b1 b2, r, out).

Definition nexstorage_set (c : Ctx) (ns : NexStorage B1 B2) (k data : bytes) (type ttl_ms : Z) : NexStorage B1 B2 * NexStorageResult :=
  if type =? NEXDT_STRING then
    let '(b1, r) := api_set main_api c (main_backend ns) k data type ttl_ms in (mkStorage b1 (object_backend ns), r)
  else
    let '(b2, r) := api_set object_api c (object_backend ns) k data type ttl_ms in (mkStorage (main_backend ns) b2, r).

Definition nexstorage_del (c : Ctx) (ns : NexStorage B1 B2) (k : bytes) : NexStorage B1 B2 * NexStorageResult :=
  let '(b1, r1) := api_del main_api c (main_backend ns) k in
  let ns := mkStorage b1 (object_backend ns) in
  if bool_decide (r1 = NEXS_OK) then (ns, NEXS_OK)
  else
    let '(b2, r2) := api_del object_api c (object_backend ns) k in
    (mkStorage b1 b2, if bool_decide (r2 = NEXS_OK) then NEXS_OK else NEXS_NOT_FOUND).

Definition nexstorage_exists (c : Ctx) (ns : NexStorage B1 B2) (k : bytes) : NexStorage B1 B2 * bool :=
  let '(b1, r) := api_exists main_api c (main_backend ns) k in
  if r then (mkStorage b1 (object_backend ns), true)
  else let '(b2, r) := api_exists object_api c (object_backend ns) k in (mkStorage b1 b2, r).

Definition nexstorage_rmw {O : Type} (c : Ctx) (ns : NexStorage B1 B2) (k : bytes) (cb : NexRMWCallback O)
    : NexStorage B1 B2 * NexStorageResult * option O :=
  match api_rmw object_api with
  | Some rmw => let '(b2, r, o) := rmw O c (object_backend ns) k cb in (mkStorage (main_backend ns) b2, r, o)
  | None => (ns, NEXS_ERROR, None)
  end.
End DualStore.

(** ** Correctness of the dual store *)
Section DualLaws.
Context {B1 B2 : Type} {api1 : NexStorageAPI B1} {api2 : NexStorageAPI B2}.
Context {inv1 : B1 -> Prop} {inv2 : B2 -> Prop} {view1 : Z -> B1 -> gmap bytes NexValue} {view2 : Z -> B2 -> gmap bytes NexValue}.
Context {live1 live2 : Z -> NexValue -> bool} {key_ok : bytes -> Prop}.
Context {ready1 : Ctx -> B1 -> bytes -> Z -> Z -> Prop} {ready2 : Ctx -> B2 -> bytes -> Z -> Z -> Prop} {limit : Z}.
Context `{!StoreLaws api1 inv1 view1 live1 key_ok ready1 limit, !StoreLaws api2 inv2 view2 live2 key_ok ready2 limit}.

Definition dual_inv (ns : NexStorage B1 B2) : Prop := inv1 (main_backend ns) /\ inv2 (object_backend ns).
(** What a reader sees: the main store covers the object store. *)
Definition dual_view (now : Z) (ns : NexStorage B1 B2) : gmap bytes NexValue :=
  view1 now (main_backend ns) ∪ view2 now (object_backend ns).

(** A read of a value that fits the read buffers, one of a key that is not
    there, and one of a value that does not fit: when it is in the main store
    the object store is asked as well. *)
Lemma dual_get c ns k ns' r out : dual_inv ns -> key_ok k -> nexstorage_get api1 api2 c ns k = (ns', r, out) ->
  dual_inv ns' /\ (forall now, now_us c <= now -> dual_view now ns' = dual_view now ns) /\
  read_answer limit (now_us c)
    (match view1 (now_us c) (main_backend ns) !! k with
     | Some v => if alen (v_data v) <=? limit then Some v else view2 (now_us c) (object_backend ns) !! k
     | None => view2 (now_us c) (object_backend ns) !! k
     end) r out.
Proof.
  intros [H1 H2] Hk. unfold nexstorage_get, dual_view. destruct (api_get api1 c (main_backend ns) k) as [[b1 r1] o1] eqn:E1.
  apply law_get in E1 as (I1 & V1 & A1); [|done..]. unfold read_answer at 1 in A1.
  assert (r1 <> NEXS_OK -> (let '(b2, r, out) := api_get api2 c (object_backend ns) k in (mkStorage b1 b2, r, out)) = (ns', r, out) ->
    dual_inv ns' /\ (forall now, now_us c <= now -> view1 now (main_backend ns') ∪ view2 now (object_backend ns') =
      view1 now (main_backend ns) ∪ view2 now (object_backend ns)) /\
    read_answer limit (now_us c) (view2 (now_us c) (object_backend ns) !! k) r out) as Hobj.
  { intros _. destruct (api_get api2 c (object_backend ns) k) as [[b2 r2] o2] eqn:E2. intros [= <- <- <-].
    apply law_get in E2 as (I2 & V2 & A2); [|done..]. split; [by split|]. split; [intros now Hn; cbn; by rewrite V1, V2|done]. }
  cbn [object_backend]. destruct (view1 (now_us c) (main_backend ns) !! k) as [v|]; [destruct (alen (v_data v) <=? limit) eqn:Hs|];
    destruct A1 as [-> ->]; [|by apply Hobj..].
  intros [= <- <- <-]. split; [by split|]. split; [intros now Hn; cbn; by rewrite V1|]. unfold read_answer. by rewrite Hs.
Qed.

Lemma dual_exists c ns k ns' r : dual_inv ns -> key_ok k -> nexstorage_exists api1 api2 c ns k = (ns', r) ->
  dual_inv ns' /\ (forall now, now_us c <= now -> dual_view now ns' = dual_view now ns) /\
  r = bool_decide (is_Some (dual_view (now_us c) ns !! k)).
Proof.
  intros [H1 H2] Hk. unfold nexstorage_exists, dual_view. destruct (api_exists api1 c (main_backend ns) k) as [b1 r1] eqn:E1.
  apply law_exists in E1 as (I1 & V1 & ->); [|done..]. case_bool_decide as Hs.
  - intros [= <- <-]. split; [by split|]. split; [intros now Hn; cbn; by rewrite V1|].
    rewrite bool_decide_eq_true_2; [done|]. apply lookup_union_is_Some. by left.
  - destruct (api_exists api2 c (object_backend ns) k) as [b2 r2] eqn:E2. intros [= <- <-].
    apply law_exists in E2 as (I2 & V2 & ->); [|done..]. split; [by split|].
    split; [intros now Hn; cbn; by rewrite V1, V2|]. apply bool_decide_ext. rewrite lookup_union_is_Some. tauto.
Qed.

Lemma dual_set_object c ns k data type ttl ns' r : dual_inv ns -> key_ok k -> ready2 c (object_backend ns) k type ttl -> type <> NEXDT_STRING ->
  nexstorage_set api1 api2 c ns k data type ttl = (ns', r) ->
  dual_inv ns' /\ main_backend ns' = main_backend ns /\
  (r = NEXS_OK -> forall now, now_us c <= now ->
     view2 now (object_backend ns') = put live2 now k (new_value (now_us c) data type ttl) (view2 now (object_backend ns))) /\
  (r <> NEXS_OK -> forall now, now_us c <= now -> dual_view now ns' = dual_view now ns).
Proof.
  intros [H1 H2] Hk Hr Ht. unfold nexstorage_set. rewrite (proj2 (Z.eqb_neq _ _) Ht).
  destruct (api_set api2 c (object_backend ns) k data type ttl) as [b2 r2] eqn:E. intros [= <- <-].
  apply law_set in E as (I2 & [(-> & V)|(-> & Hnew & V)]); [| |done..]; (split; [by split|]); (split; [done|]); split; try done.
  intros _ now Hn. unfold dual_view. cbn. by rewrite V.
Qed.

(** A key is in one store only; an expired value that has not been removed
    yet counts. *)
Definition exclusive (k : bytes) (ns : NexStorage B1 B2) : Prop :=
  (forall now, view1 now (main_backend ns) !! k = None) \/ (forall now, view2 now (object_backend ns) !! k = None).

Lemma dual_del c ns k ns' r : dual_inv ns -> key_ok k -> nexstorage_del api1 api2 c ns k = (ns', r) ->
  dual_inv ns' /\ (forall now, view1 now (main_backend ns') = delete k (view1 now (main_backend ns))) /\
  ((r = NEXS_OK /\ (exists now, is_Some (view1 now (main_backend ns) !! k)) /\ object_backend ns' = object_backend ns) \/
   (forall now, view1 now (main_backend ns) !! k = None) /\
   (forall now, view2 now (object_backend ns') = delete k (view2 now (object_backend ns))) /\
   ((r = NEXS_OK /\ exists now, is_Some (view2 now (object_backend ns) !! k)) \/
    (r = NEXS_NOT_FOUND /\ forall now, view2 now (object_backend ns) !! k = None))).
Proof.
  intros [H1 H2] Hk. unfold nexstorage_del. destruct (api_del api1 c (main_backend ns) k) as [b1 r1] eqn:E1.
  apply law_del in E1 as (I1 & V1 & [[-> N1]|[-> N1]]); [| |done..].
  - rewrite bool_decide_eq_true_2 by done. intros [= <- <-]. split; [by split|]. split; [done|]. by left.
  - rewrite bool_decide_eq_false_2 by done. cbn [object_backend]. destruct (api_del api2 c (object_backend ns) k) as [b2 r2] eqn:E2.
    intros [= <- <-]. apply law_del in E2 as (I2 & V2 & R2); [|done..]. split; [by split|]. split; [done|]. right.
    split; [done|]. split; [done|]. destruct R2 as [[-> N2]|[-> N2]]; [by left|by right].
Qed.

Lemma dual_del_exclusive c ns k ns' r : dual_inv ns -> key_ok k -> exclusive k ns ->
  nexstorage_del api1 api2 c ns k = (ns', r) ->
  dual_inv ns' /\ (forall now, dual_view now ns' = delete k (dual_view now ns)) /\
  ((r = NEXS_OK /\ exists now, is_Some (dual_view now ns !! k)) \/ (r = NEXS_NOT_FOUND /\ forall now, dual_view now ns !! k = None)).
Proof.
  intros Hi Hk Hx E. apply dual_del in E as (Hi' & V1 & Hc); [|done..]. split; [done|]. unfold dual_view.
  destruct Hc as [(-> & [t1 Hs] & Ho)|(N1 & V2 & Hr)].
  - assert (forall now, view2 now (object_backend ns) !! k = None) as N2.
    { destruct Hx as [Hx|]; [|done]. rewrite Hx in Hs. by destruct Hs. }
    split; [|left; split; [done|]; exists t1; apply lookup_union_is_Some; by left].
    intros now. rewrite V1, Ho, delete_union. by rewrite (delete_id (view2 now _)).
  - split; [intros now; by rewrite V1, V2, delete_union|]. destruct Hr as [[-> [t2 Hs]]|[-> N2]]; [left|right]; (split; [done|]).
    + exists t2. apply lookup_union_is_Some. by right.
    + intros now. by rewrite lookup_union, N1, N2.
Qed.

Lemma dual_set_exclusive c ns k data type ttl ns' r : dual_inv ns -> key_ok k ->
  (if type =? NEXDT_STRING then ready1 c (main_backend ns) k type ttl /\ forall now, view2 now (object_backend ns) !! k = None
   else ready2 c (object_backend ns) k type ttl /\ forall now, view1 now (main_backend ns) !! k = None) ->
  nexstorage_set api1 api2 c ns k data type ttl = (ns', r) ->
  dual_inv ns' /\
  ((r = NEXS_OK /\ forall now, now_us c <= now -> dual_view now ns' =
      put (if type =? NEXDT_STRING then live1 else live2) now k (new_value (now_us c) data type ttl) (dual_view now ns)) \/
   (r = NEXS_ERROR /\ (malloc c = None \/ dual_view (now_us c) ns !! k = None) /\
    forall now, now_us c <= now -> dual_view now ns' = dual_view now ns)).
Proof.
  intros [H1 H2] Hk Hx. unfold nexstorage_set, dual_view. setoid_rewrite lookup_union. destruct (type =? NEXDT_STRING); destruct Hx as [Hr Hn].
  - destruct (api_set api1 c (main_backend ns) k data type ttl) as [b1 r1] eqn:E. intros [= <- <-].
    apply law_set in E as (I1 & [(-> & V)|(-> & Hnew & V)]); [| |done..]; (split; [by split|]); [left|right]; (split; [done|]).
    + intros now Hw. cbn [main_backend object_backend]. rewrite V by done. unfold put. case_if; [by rewrite insert_union_l|].
      by rewrite delete_union, (delete_id (view2 now _)).
    + split; [rewrite Hn; destruct Hnew as [|Hnew]; [by left|right; by rewrite Hnew]|]. intros now Hw. cbn [main_backend object_backend]. by rewrite V.
  - destruct (api_set api2 c (object_backend ns) k data type ttl) as [b2 r2] eqn:E. intros [= <- <-].
    apply law_set in E as (I2 & [(-> & V)|(-> & Hnew & V)]); [| |done..]; (split; [by split|]); [left|right]; (split; [done|]).
    + intros now Hw. cbn [main_backend object_backend]. rewrite V by done. unfold put. case_if; [by rewrite insert_union_r|].
      by rewrite delete_union, (delete_id (view1 now _)).
    + split; [rewrite Hn; destruct Hnew as [|Hnew]; [by left|right; by rewrite Hnew]|]. intros now Hw. cbn [main_backend object_backend]. by rewrite V.
Qed.
End DualLaws.
