(* ===== verification/NdStorage.v ===== *)
(** * The object store: NexDash behind the storage interface
      (src/src/core/nexstorage.c, the ndapi_ adapter)

    A value is an [NDValue] block on the heap, whose address is what the table
    stores.  [heap] is the set of live blocks; the addresses that an operation
    of the table hands to [ndvalue_free_cb] are freed when it returns.
    Reading, or freeing, an address that is not allocated sets [fault]. *)
From S2P Require Import Prelude FilterSpec NexBloom TaggedPtr NexDash NexDashRefine StorageApi.

Definition ND_MAX_KEY_LEN : Z := 255.
Definition ND_GET_BUF : Z := 1024 * 1024.
Definition SIZEOF_NDValue : Z := 40.

Record NDValue := mkND { nd_data : bytes; nd_type : Z; nd_expire_us : Z; nd_version : Z }.
Record NdBackend := mkNd { table : NexDashTable; heap : gmap Z NDValue; fault : bool }.

Definition env_of (c : Ctx) : Env := mkEnv (now_us c) (realloc_works c) (arena_works c).

(** [free] of one block. *)
Definition free_block (st : gmap Z NDValue * bool) (a : Z) : gmap Z NDValue * bool :=
  match st.1 !! a with Some _ => (delete a st.1, st.2) | None => (st.1, true) end.

(** The blocks freed by the callback during a step from [t] to [t']. *)
Definition new_frees (t t' : NexDashTable) : list Z := take (length (freed t') - length (freed t)) (freed t').
Definition after (b : NdBackend) (t' : NexDashTable) : NdBackend :=
  let '(h, f) := fold_left free_block (reverse (new_frees (table b) t')) (heap b, fault b) in mkNd t' h f.

Definition ndapi_create (ceil_blocks : Z -> Z) (max_mem : Z) : NdBackend :=
  mkNd (nexdash_set_free_cb (nexdash_create ceil_blocks 4 max_mem)) ∅ false.

Definition ndapi_get (c : Ctx) (b : NdBackend) (key : bytes) : NdBackend * NexStorageResult * option NexEntry :=
  if ND_MAX_KEY_LEN <? alen key then (b, NEXS_TOO_LARGE, None)
  else
    let '(t, (addr, _)) := nexdash_get (env_of c) (table b) key in
    let b := after b t in
    if addr =? 0 then (b, NEXS_NOT_FOUND, None)
    else
      match heap b !! addr with
      | None => (mkNd (table b) (heap b) true, NEXS_ERROR, None)
      | Some val =>
          if ND_GET_BUF <? alen (nd_data val) then (b, NEXS_TOO_LARGE, None)
          else (b, NEXS_OK, Some (mkEntry (Some (nd_data val)) (nd_type val) (ttl_of (now_us c) (nd_expire_us val)) (nd_version val)))
      end.

(** The allocation, initialisation and store of a new block, shared by
    [ndapi_set] and [ndapi_rmw]. *)
Definition nd_store (c : Ctx) (b : NdBackend) (key data : bytes) (type ttl_ms : Z) : NdBackend * NexStorageResult :=
  match malloc c with
  | None => (b, NEXS_ERROR)
  | Some a =>
      let expire_us := if 0 <=? ttl_ms then i64 (u64 (now_us c + u64 (ttl_ms * 1000))) else - 1 in
      let b := mkNd (table b) (<[a := mkND data type expire_us (now_us c)]> (heap b)) (fault b) in
      let expire_us_arg := if 0 <=? ttl_ms then u64 (now_us c + u64 (ttl_ms * 1000)) else 0 in
      let total_size := u32 (SIZEOF_NDValue + alen data) in
      let '(t, rc) := nexdash_set (env_of c) (table b) key a total_size type expire_us_arg in
      let b := after b t in
      if rc =? 0
      then let '(h, f) := free_block (heap b, fault b) a in (mkNd (table b) h f, NEXS_ERROR)
      else (b, NEXS_OK)
  end.

Definition ndapi_set (c : Ctx) (b : NdBackend) (key data : bytes) (type ttl_ms : Z) : NdBackend * NexStorageResult :=
  if ND_MAX_KEY_LEN <? alen key then (b, NEXS_TOO_LARGE) else nd_store c b key data type ttl_ms.

Definition ndapi_del (c : Ctx) (b : NdBackend) (key : bytes) : NdBackend * NexStorageResult :=
  if ND_MAX_KEY_LEN <? alen key then (b, NEXS_NOT_FOUND)
  else let '(t, rc) := nexdash_del (table b) key in (after b t, if 0 <? rc then NEXS_OK else NEXS_NOT_FOUND).

Definition ndapi_exists (c : Ctx) (b : NdBackend) (key : bytes) : NdBackend * bool :=
  if ND_MAX_KEY_LEN <? alen key then (b, false)
  else let '(t, r) := nexdash_exists (env_of c) (table b) key in (after b t, r).

Definition ndapi_rmw (O : Type) (c : Ctx) (b : NdBackend) (key : bytes) (cb : NexRMWCallback O)
    : NdBackend * NexStorageResult * option O :=
  if ND_MAX_KEY_LEN <? alen key then (b, NEXS_TOO_LARGE, None)
  else
    let '(t, (addr, _)) := nexdash_get (env_of c) (table b) key in
    let b := after b t in
    let '(entry, f) :=
      if addr =? 0 then (no_entry, fault b)
      else match heap b !! addr with
           | Some val => (mkEntry (Some (nd_data val)) (nd_type val) (ttl_of (now_us c) (nd_expire_us val)) (nd_version val), fault b)
           | None => (no_entry, true)
           end in
    let b := mkNd (table b) (heap b) f in
    let '(entry, res, o) := cb entry in
    if bool_decide (res = NEXS_OK) then
      let '(b, r) := nd_store c b key (default [] (e_value entry)) (e_type entry) (e_ttl_ms entry) in (b, r, Some o)
    else (b, res, Some o).

Definition ndapi_expire (c : Ctx) (b : NdBackend) (key : bytes) (ttl_ms : Z) : NdBackend * NexStorageResult :=
  if ND_MAX_KEY_LEN <? alen key then (b, NEXS_NOT_FOUND)
  else
    let expire_us := if 0 <=? ttl_ms then u64 (now_us c + u64 (ttl_ms * 1000)) else 0 in
    let '(t, rc) := nexdash_expire (env_of c) (table b) key expire_us in
    (after b t, if 0 <? rc then NEXS_OK else NEXS_NOT_FOUND).

Definition ndapi_ttl (c : Ctx) (b : NdBackend) (key : bytes) : NdBackend * Z :=
  let '(b, r, out) := ndapi_get c b key in
  match out with Some e => if bool_decide (r = NEXS_OK) then (b, e_ttl_ms e) else (b, - 2) | None => (b, - 2) end.

(** [ndapi_scan]: the pairs given to the callback, in order; the adapter reads
    the block of every visited slot, and skips a NULL address. *)
Definition scan_entry (b : NdBackend) (x : bytes * Z * Z) : option (bytes * NexEntry) :=
  if x.1.2 =? 0 then None
  else match heap b !! x.1.2 with
       | Some val => Some (x.1.1, mkEntry (Some (nd_data val)) (nd_type val) (- 1) (nd_version val))
       | None => None
       end.
Definition scan_faults (b : NdBackend) (x : bytes * Z * Z) : bool :=
  negb (x.1.2 =? 0) && negb (bool_decide (is_Some (heap b !! x.1.2))).
Definition ndapi_scan (c : Ctx) (b : NdBackend) : NdBackend * list (bytes * NexEntry) :=
  let visited := nexdash_scan (env_of c) (table b) in
  (mkNd (table b) (heap b) (fault b || existsb (scan_faults b) visited), omap (scan_entry b) visited).

Definition NexDashTableAPI : NexStorageAPI NdBackend := mkApi ndapi_get ndapi_set ndapi_del ndapi_exists (Some ndapi_rmw).

(** ** Ownership of the blocks

    Every stored item owns its block, no two items share one, and there is no
    block without an item. *)
Definition nd_enc (expire_us : Z) : Z := if expire_us <? 0 then 0 else encode_expire expire_us.

Record matches (it : Item) (v : NDValue) : Prop := {
  ma_addr : it_addr it <> 0;
  ma_type : it_type it <> NTYPE_DELETED;
  ma_same : nd_type v = it_type it }.

Record owns (m : gmap bytes Item) (h : gmap Z NDValue) : Prop := {
  ow_block : forall k it, m !! k = Some it -> exists v, h !! it_addr it = Some v /\ matches it v;
  ow_inj : forall k1 k2 it1 it2, m !! k1 = Some it1 -> m !! k2 = Some it2 -> it_addr it1 = it_addr it2 -> k1 = k2;
  ow_noleak : forall a, is_Some (h !! a) -> exists k it, m !! k = Some it /\ it_addr it = a }.

Definition expired_at (now : Z) (it : Item) : bool := negb (it_expire it =? 0) && (decode_expire (it_expire it) <=? now).

Definition value_of (v : NDValue) : NexValue := mkValue (nd_data v) (nd_type v) (nd_expire_us v) (nd_version v).

Definition live_item (now : Z) (h : gmap Z NDValue) (it : Item) : option NexValue :=
  if expired_at now it then None else value_of <$> h !! it_addr it.
Definition live_view (now : Z) (m : gmap bytes Item) (h : gmap Z NDValue) : gmap bytes NexValue := omap (live_item now h) m.

Lemma live_view_lookup now m h k : live_view now m h !! k = m !! k ≫= live_item now h.
Proof. apply lookup_omap. Qed.

Lemma live_view_ext now m h h' : (forall k it, m !! k = Some it -> h' !! it_addr it = h !! it_addr it) ->
  live_view now m h' = live_view now m h.
Proof.
  intros H. apply map_eq. intros k. rewrite !live_view_lookup. destruct (m !! k) as [it|] eqn:E; [|done]. cbn.
  unfold live_item. by rewrite (H k it E).
Qed.

Lemma live_view_insert now m h k it : live_view now (<[k := it]> m) h =
  match live_item now h it with Some v => <[k := v]> (live_view now m h) | None => delete k (live_view now m h) end.
Proof.
  apply map_eq. intros j. rewrite live_view_lookup. destruct (decide (j = k)) as [->|Hj].
  - rewrite lookup_insert_eq. cbn. destruct (live_item now h it); [by rewrite lookup_insert_eq|by rewrite lookup_delete_eq].
  - rewrite lookup_insert_ne by done. destruct (live_item now h it); [rewrite lookup_insert_ne by done|rewrite lookup_delete_ne by done];
      by rewrite live_view_lookup.
Qed.

Lemma live_view_delete now m h k : live_view now (delete k m) h = delete k (live_view now m h).
Proof.
  apply map_eq. intros j. rewrite live_view_lookup. destruct (decide (j = k)) as [->|Hj].
  - by rewrite !lookup_delete_eq.
  - by rewrite !lookup_delete_ne, live_view_lookup.
Qed.

Lemma owns_delete m h k it : owns m h -> m !! k = Some it ->
  owns (delete k m) (delete (it_addr it) h) /\
  forall now, live_view now (delete k m) (delete (it_addr it) h) = delete k (live_view now m h).
Proof.
  intros [Hb Hi Hn] Hk.
  assert (forall j jt, delete k m !! j = Some jt -> delete (it_addr it) h !! it_addr jt = h !! it_addr jt) as Hsame.
  { intros j jt [Hne Hj]%lookup_delete_Some. apply lookup_delete_ne. intros He. apply Hne. by eapply Hi. }
  split; [split|].
  - intros j jt Hj. rewrite (Hsame j jt Hj). apply lookup_delete_Some in Hj as [_ Hj]. eauto.
  - intros j1 j2 t1 t2 [_ H1]%lookup_delete_Some [_ H2]%lookup_delete_Some. eauto.
  - intros a [v [Hne Ha]%lookup_delete_Some]. destruct (Hn a ltac:(eauto)) as (j & jt & Hj & <-).
    exists j, jt. split; [|done]. apply lookup_delete_Some. split; [|done]. intros ->. congruence.
  - intros now. rewrite (live_view_ext now (delete k m) h) by (intros; by eapply Hsame). apply live_view_delete.
Qed.

(** A step that changes neither the owned block nor, for the second lemma, the
    expiry of an item. *)
Lemma owns_touch m h k it it' : owns m h -> m !! k = Some it -> it_addr it' = it_addr it -> it_type it' = it_type it ->
  owns (<[k := it']> m) h.
Proof.
  intros [Hb Hi Hn] Hk Ha Ht. split.
  - intros j jt [[<- <-]|[Hne Hj]]%lookup_insert_Some; [|eauto].
    destruct (Hb k it Hk) as (v & Hv & [M1 M2 M3]). rewrite Ha. exists v. split; [done|]. split; congruence.
  - assert (forall j jt, <[k := it']> m !! j = Some jt -> exists jt', m !! j = Some jt' /\ it_addr jt' = it_addr jt) as Hold.
    { intros j jt [[<- <-]|[Hne Hj]]%lookup_insert_Some; eauto. }
    intros j1 j2 t1 t2 H1 H2 E. destruct (Hold _ _ H1) as (t1' & H1' & E1), (Hold _ _ H2) as (t2' & H2' & E2).
    eapply Hi; [done..|congruence].
  - intros a Ha'. destruct (Hn a Ha') as (j & jt & Hj & <-). destruct (decide (j = k)) as [->|Hj'].
    + exists k, it'. split; [by rewrite lookup_insert_eq|]. congruence.
    + exists j, jt. by rewrite lookup_insert_ne.
Qed.

Lemma view_touch m h k it it' now : m !! k = Some it -> it_addr it' = it_addr it -> it_expire it' = it_expire it ->
  live_view now (<[k := it']> m) h = live_view now m h.
Proof.
  intros Hk Ha He. apply map_eq. intros j. rewrite !live_view_lookup. destruct (decide (j = k)) as [->|Hj].
  - rewrite lookup_insert_eq, Hk. cbn. unfold live_item, expired_at. by rewrite Ha, He.
  - by rewrite lookup_insert_ne.
Qed.

(** A new item with a new block. *)
Lemma owns_insert m h k it v : owns m h -> m !! k = None -> h !! it_addr it = None -> matches it v ->
  owns (<[k := it]> m) (<[it_addr it := v]> h) /\
  forall now, live_view now (<[k := it]> m) (<[it_addr it := v]> h) =
    if expired_at now it then delete k (live_view now m h) else <[k := value_of v]> (live_view now m h).
Proof.
  intros [Hb Hi Hn] Hk Hf Hm.
  assert (forall j jt, m !! j = Some jt -> it_addr jt <> it_addr it) as Hne.
  { intros j jt Hj He. destruct (Hb j jt Hj) as (w & Hw & _). rewrite He in Hw. congruence. }
  split; [split|].
  - intros j jt [[<- <-]|[Hj' Hj]]%lookup_insert_Some; [exists v; by rewrite lookup_insert_eq|].
    rewrite lookup_insert_ne by (apply not_eq_sym; by eapply Hne). eauto.
  - intros j1 j2 t1 t2 [[<- <-]|[H1' H1]]%lookup_insert_Some [[<- <-]|[H2' H2]]%lookup_insert_Some E; try done.
    + by destruct (Hne _ _ H2).
    + by destruct (Hne _ _ H1).
    + by eapply Hi.
  - intros a [w [[<- <-]|[Ha' Ha]]%lookup_insert_Some]; [exists k, it; by rewrite lookup_insert_eq|].
    destruct (Hn a ltac:(eauto)) as (j & jt & Hj & Hja). exists j, jt. split; [|done].
    rewrite lookup_insert_ne; [done|]. intros ->. congruence.
  - intros now. rewrite live_view_insert. unfold live_item at 1. rewrite lookup_insert_eq. cbn [fmap option_fmap option_map].
    assert (live_view now m (<[it_addr it := v]> h) = live_view now m h) as ->.
    { apply live_view_ext. intros j jt Hj. apply lookup_insert_ne, not_eq_sym. by eapply Hne. }
    by destruct (expired_at now it).
Qed.

(** ** The invariant of the backend *)
Record nd_ok (b : NdBackend) : Prop := {
  ok_table : nd_inv (table b);
  ok_cb : free_cb (table b) = true;
  ok_fault : fault b = false;
  ok_owns : owns (abs (table b)) (heap b) }.

Definition nd_view (now : Z) (b : NdBackend) : gmap bytes NexValue := live_view now (abs (table b)) (heap b).

Lemma after_none b t' : freed t' = freed (table b) -> after b t' = mkNd t' (heap b) (fault b).
Proof. intros H. unfold after, new_frees. by rewrite H, Nat.sub_diag, take_0. Qed.

Lemma after_one b t' a : freed t' = a :: freed (table b) -> is_Some (heap b !! a) ->
  after b t' = mkNd t' (delete a (heap b)) (fault b).
Proof.
  intros H [v Hv]. unfold after, new_frees. rewrite H. cbn [length].
  replace (S (length (freed (table b))) - length (freed (table b)))%nat with 1%nat by lia.
  rewrite firstn_cons, take_0, reverse_singleton. cbn [fold_left]. unfold free_block. cbn [fst snd]. by rewrite Hv.
Qed.

Lemma free_of_owned b k it : nd_ok b -> abs (table b) !! k = Some it -> free_of (table b) it = [it_addr it].
Proof.
  intros [_ Hcb _ Ho] Hk. destruct (ow_block _ _ Ho k it Hk) as (v & _ & [Ha Ht _]). unfold free_of.
  rewrite (proj2 (Z.eqb_neq _ _) Ha), (proj2 (Z.eqb_neq _ _) Ht), Hcb. done.
Qed.

Lemma expired_later now now' it : expired_at now it = true -> now <= now' -> expired_at now' it = true.
Proof. unfold expired_at. intros [-> H]%andb_true_iff Hn. cbn. apply Z.leb_le in H. apply Z.leb_le. lia. Qed.

Lemma expired_gone now now' m h k it : m !! k = Some it -> expired_at now it = true -> now <= now' -> live_view now' m h !! k = None.
Proof. intros Hk He Hn. rewrite live_view_lookup, Hk. cbn. unfold live_item. by rewrite (expired_later now now' it). Qed.

(** The four ways an operation of the table changes the backend. *)
Lemma step_same b t' : nd_ok b -> nd_inv t' -> free_cb t' = true -> abs t' = abs (table b) -> freed t' = freed (table b) ->
  nd_ok (after b t') /\ forall now, nd_view now (after b t') = nd_view now b.
Proof.
  intros [Ht Hc Hf Ho] Hi Hcb Ha Hfr. rewrite after_none by done. unfold nd_view. cbn [table heap]. rewrite Ha.
  split; [|done]. split; cbn; try done. by rewrite Ha.
Qed.

Lemma step_drop b t' k it : nd_ok b -> nd_inv t' -> free_cb t' = true -> abs (table b) !! k = Some it ->
  abs t' = delete k (abs (table b)) -> freed t' = free_of (table b) it ++ freed (table b) ->
  nd_ok (after b t') /\ (forall now, nd_view now (after b t') = delete k (nd_view now b)).
Proof.
  intros Hb Hi Hcb Hk Ha Hfr. rewrite (free_of_owned b k it Hb Hk) in Hfr. pose proof Hb as [Ht Hc Hf Ho].
  destruct (ow_block _ _ Ho k it Hk) as (v & Hv & _). rewrite (after_one b t' (it_addr it)) by eauto.
  destruct (owns_delete _ _ k it Ho Hk) as [Ho' Hv']. unfold nd_view. cbn [table heap]. rewrite Ha.
  split; [|done]. split; cbn; try done. by rewrite Ha.
Qed.

Lemma step_expired b t' k it now : nd_ok b -> nd_inv t' -> free_cb t' = true -> abs (table b) !! k = Some it ->
  expired_at now it = true -> abs t' = delete k (abs (table b)) -> freed t' = free_of (table b) it ++ freed (table b) ->
  nd_ok (after b t') /\ (forall now', now <= now' -> nd_view now' (after b t') = nd_view now' b) /\ nd_view now b !! k = None /\
  abs (table (after b t')) !! k = None /\ heap (after b t') !! it_addr it = None.
Proof.
  intros Hb Hi Hcb Hk He Ha Hfr. destruct (step_drop b t' k it Hb Hi Hcb Hk Ha Hfr) as [Hok Hv].
  split; [done|]. split; [|split; [by eapply expired_gone|]].
  - intros now' Hn. rewrite Hv. apply delete_id. by eapply expired_gone.
  - rewrite (free_of_owned b k it Hb Hk) in Hfr. destruct (ow_block _ _ (ok_owns _ Hb) k it Hk) as (v & Hbl & _).
    rewrite (after_one b t' (it_addr it)) by eauto. cbn. rewrite Ha. by rewrite !lookup_delete_eq.
Qed.

Lemma step_kept b t' k it it' : nd_ok b -> nd_inv t' -> free_cb t' = true -> abs (table b) !! k = Some it ->
  it_addr it' = it_addr it -> it_type it' = it_type it ->
  abs t' = <[k := it']> (abs (table b)) -> freed t' = freed (table b) -> nd_ok (after b t').
Proof.
  intros [Ht Hc Hf Ho] Hi Hcb Hk E1 E2 Ha Hfr. rewrite after_none by done.
  split; cbn; try done. rewrite Ha. by eapply owns_touch.
Qed.

Lemma step_touch b t' k it it' : nd_ok b -> nd_inv t' -> free_cb t' = true -> abs (table b) !! k = Some it ->
  it_addr it' = it_addr it -> it_type it' = it_type it -> it_expire it' = it_expire it ->
  abs t' = <[k := it']> (abs (table b)) -> freed t' = freed (table b) ->
  nd_ok (after b t') /\ forall now, nd_view now (after b t') = nd_view now b.
Proof.
  intros Hb Hi Hcb Hk E1 E2 E3 Ha Hfr. split; [by eapply step_kept|]. intros now. rewrite after_none by done.
  unfold nd_view. cbn [table heap]. rewrite Ha. by eapply view_touch.
Qed.

(** ** Reading *)
Definition key_ok (k : bytes) : Prop := 1 <= alen k <= 255.

Lemma key_ok_short k : key_ok k -> (ND_MAX_KEY_LEN <? alen k) = false.
Proof. intros [_ H]. apply Z.ltb_ge. done. Qed.

Lemma nd_lookup c b k t' addr ty : nd_ok b -> key_ok k -> nexdash_get (env_of c) (table b) k = (t', (addr, ty)) ->
  nd_ok (after b t') /\ (forall now, now_us c <= now -> nd_view now (after b t') = nd_view now b) /\
  match nd_view (now_us c) b !! k with
  | Some v => addr <> 0 /\ exists nv, heap (after b t') !! addr = Some nv /\ value_of nv = v
  | None => addr = 0 /\ abs (table (after b t')) !! k = None
  end.
Proof.
  intros Hb Hk E. pose proof (get_cb (env_of c) (table b) k) as Hcb. rewrite E in Hcb. cbn [fst] in Hcb. rewrite (ok_cb _ Hb) in Hcb.
  pose proof (get_spec (env_of c) (table b) k t' addr ty (ok_table _ Hb) Hk E) as [Hi Hm]. clear E.
  destruct (abs (table b) !! k) as [it|] eqn:Hab.
  - change (item_expired (env_of c) it) with (expired_at (now_us c) it) in Hm. destruct (expired_at (now_us c) it) eqn:He.
    + destruct Hm as (-> & Ha & Hfr). destruct (step_expired b t' k it (now_us c) Hb Hi Hcb Hab He Ha Hfr) as (Hok & Hv & Hn & Hg & _).
      split; [done|]. split; [done|]. rewrite Hn. done.
    + destruct Hm as (-> & -> & Hfr & Ha).
      match type of Ha with _ = <[_ := ?it']> _ =>
        destruct (step_touch b t' k it it' Hb Hi Hcb Hab eq_refl eq_refl eq_refl Ha Hfr) as [Hok Hv] end. split; [done|]. split; [auto|].
      destruct (ow_block _ _ (ok_owns _ Hb) k it Hab) as (v & Hbl & [Hne _ _]).
      unfold nd_view. rewrite live_view_lookup, Hab. cbn. unfold live_item. rewrite He, Hbl. cbn. split; [done|].
      exists v. rewrite after_none by done. done.
  - destruct Hm as (-> & Ha & Hfr). destruct (step_same b t' Hb Hi Hcb Ha Hfr) as [Hok Hv]. split; [done|]. split; [auto|].
    unfold nd_view. rewrite live_view_lookup, Hab. cbn. split; [done|]. rewrite after_none by done. cbn. by rewrite Ha.
Qed.

Lemma nd_law_get c b k b' r out : nd_ok b -> key_ok k -> ndapi_get c b k = (b', r, out) ->
  nd_ok b' /\ (forall now, now_us c <= now -> nd_view now b' = nd_view now b) /\
  read_answer ND_GET_BUF (now_us c) (nd_view (now_us c) b !! k) r out.
Proof.
  intros Hb Hk. unfold ndapi_get. rewrite key_ok_short by done.
  destruct (nexdash_get (env_of c) (table b) k) as [t' [addr ty]] eqn:E.
  destruct (nd_lookup c b k t' addr ty Hb Hk E) as (Hok & Hv & Hm).
  destruct (nd_view (now_us c) b !! k) as [v|].
  - destruct Hm as (Hne & nv & Hh & <-). rewrite (proj2 (Z.eqb_neq _ _) Hne), Hh. unfold read_answer.
    cbn [value_of v_data]. rewrite Z.leb_antisym. destruct (ND_GET_BUF <? alen (nd_data nv)); intros [= <- <- <-]; done.
  - destruct Hm as [-> _]. cbn match. intros [= <- <- <-]. done.
Qed.

Lemma nd_law_exists c b k b' r : nd_ok b -> key_ok k -> ndapi_exists c b k = (b', r) ->
  nd_ok b' /\ (forall now, now_us c <= now -> nd_view now b' = nd_view now b) /\
  r = bool_decide (is_Some (nd_view (now_us c) b !! k)).
Proof.
  intros Hb Hk. unfold ndapi_exists, nexdash_exists. rewrite key_ok_short by done.
  destruct (nexdash_get (env_of c) (table b) k) as [t' [addr ty]] eqn:E. intros [= <- <-].
  destruct (nd_lookup c b k t' addr ty Hb Hk E) as (Hok & Hv & Hm). split; [done|]. split; [done|].
  destruct (nd_view (now_us c) b !! k) as [v|].
  - destruct Hm as (Hne & _). rewrite (proj2 (Z.eqb_neq _ _) Hne). done.
  - destruct Hm as [-> _]. done.
Qed.

(** Every stored value is live at some time. *)
Lemma stored_once b k it : nd_ok b -> abs (table b) !! k = Some it -> exists now, is_Some (nd_view now b !! k).
Proof.
  intros Hb Hk. destruct (ow_block _ _ (ok_owns _ Hb) k it Hk) as (v & Hbl & _). exists (- 1).
  unfold nd_view. rewrite live_view_lookup, Hk. cbn. unfold live_item, expired_at, decode_expire.
  destruct (it_expire it =? 0); [by rewrite Hbl|]. cbn [negb andb].
  pose proof (wrap_range 64 (Z.shiftl (it_expire it) 20) ltac:(lia)) as Hw. rewrite (proj2 (Z.leb_gt _ (- 1))) by mach. by rewrite Hbl.
Qed.

Lemma nd_law_del c b k b' r : nd_ok b -> key_ok k -> ndapi_del c b k = (b', r) ->
  nd_ok b' /\ (forall now, nd_view now b' = delete k (nd_view now b)) /\
  ((r = NEXS_OK /\ exists now, is_Some (nd_view now b !! k)) \/ (r = NEXS_NOT_FOUND /\ forall now, nd_view now b !! k = None)).
Proof.
  intros Hb Hk. unfold ndapi_del. rewrite key_ok_short by done. destruct (nexdash_del (table b) k) as [t' rc] eqn:E. intros [= <- <-].
  pose proof (del_cb (table b) k) as Hcb. rewrite E in Hcb. cbn [fst] in Hcb. rewrite (ok_cb _ Hb) in Hcb.
  destruct (del_spec (table b) k t' rc (ok_table _ Hb) ltac:(apply Hk) E) as [Hi Hm].
  destruct (abs (table b) !! k) as [it|] eqn:Hab.
  - destruct Hm as (-> & Ha & Hfr). destruct (step_drop b t' k it Hb Hi Hcb Hab Ha Hfr) as [Hok Hv].
    split; [done|]. split; [done|]. left. split; [done|]. by eapply stored_once.
  - destruct Hm as (-> & ->). destruct (step_same b (table b) Hb Hi Hcb eq_refl eq_refl) as [Hok Hv]. split; [done|].
    assert (forall now, nd_view now b !! k = None) as Hn by (intros now; unfold nd_view; rewrite live_view_lookup, Hab; done).
    split; [|by right]. intros now. rewrite Hv. by rewrite delete_id.
Qed.

(** ** Writing *)
Definition nd_live (now : Z) (v : NexValue) : bool := (v_expire_us v <? 0) || (now <? v_expire_us v / 2 ^ 20 * 2 ^ 20).

Record ready (c : Ctx) (b : NdBackend) (k : bytes) (type ttl_ms : Z) : Prop := {
  rd_realloc : realloc_works c = true;
  rd_pool : pool_room (table b) k;
  rd_type : in_u 4 type /\ type <> NTYPE_DELETED;
  rd_malloc : match malloc c with Some a => 0 < a < 2 ^ 48 /\ heap b !! a = None | None => True end;
  rd_clock : 2 ^ 20 <= now_us c < 2 ^ 52;
  rd_ttl : 0 <= ttl_ms -> now_us c + ttl_ms * 1000 < 2 ^ 52 }.

Lemma expire_args c b k type ttl : ready c b k type ttl ->
  (if 0 <=? ttl then i64 (u64 (now_us c + u64 (ttl * 1000))) else - 1) = new_expire (now_us c) ttl /\
  encode_expire (if 0 <=? ttl then u64 (now_us c + u64 (ttl * 1000)) else 0) = nd_enc (new_expire (now_us c) ttl) /\
  (new_expire (now_us c) ttl = - 1 \/ 2 ^ 20 <= new_expire (now_us c) ttl < 2 ^ 52).
Proof.
  intros [_ _ _ _ Hc Ht]. unfold new_expire, nd_enc. destruct (Z.leb_spec 0 ttl) as [H|H]; [|split; [done|split; [done|by left]]].
  specialize (Ht H). rewrite (wrap_small 64 (ttl * 1000)) by mach. rewrite (wrap_small 64 (now_us c + _)) by mach.
  split; [apply swrap_small; mach|]. split; [|right; mach]. by rewrite (proj2 (Z.ltb_ge _ 0)) by mach.
Qed.

Lemma expired_live now it v : it_expire it = nd_enc (nd_expire_us v) -> nd_expire_us v = - 1 \/ 2 ^ 20 <= nd_expire_us v < 2 ^ 52 ->
  expired_at now it = negb (nd_live now (value_of v)).
Proof.
  intros He Hr. unfold expired_at, nd_live. rewrite He. cbn [value_of v_expire_us]. unfold nd_enc, encode_expire, decode_expire.
  destruct Hr as [-> | Hr]; [done|]. rewrite (proj2 (Z.ltb_ge _ 0)) by mach. cbn [orb].
  destruct (Z.eqb_spec (nd_expire_us v) 0); [mach|].
  rewrite Z.shiftr_div_pow2 by lia. set (q := nd_expire_us v / 2 ^ 20). assert (1 <= q < 2 ^ 32) as Hq.
  { unfold q. split; [apply Z.div_le_lower_bound; lia|apply Z.div_lt_upper_bound; lia]. }
  rewrite (wrap_small 32 q) by mach. destruct (Z.eqb_spec q 0); [lia|]. cbn [negb andb].
  rewrite Z.shiftl_mul_pow2 by lia. rewrite wrap_small by mach. by rewrite Z.leb_antisym.
Qed.

(** The view after an item has been stored with its own block. *)
Lemma stored_view now m h k it v : it_expire it = nd_enc (nd_expire_us v) -> nd_expire_us v = - 1 \/ 2 ^ 20 <= nd_expire_us v < 2 ^ 52 ->
  (if expired_at now it then delete k (live_view now m h) else <[k := value_of v]> (live_view now m h)) =
  put nd_live now k (value_of v) (live_view now m h).
Proof. intros He Hr. rewrite (expired_live now it v He Hr). unfold put. by destruct (nd_live now (value_of v)). Qed.

(** What is stored under the key has not expired. *)
Definition calm (c : Ctx) (b : NdBackend) (k : bytes) : Prop := forall it, abs (table b) !! k = Some it -> expired_at (now_us c) it = false.

Definition store_done (c : Ctx) (b : NdBackend) (k data : bytes) (type ttl : Z) (b' : NdBackend) (r : NexStorageResult) : Prop :=
  nd_ok b' /\
  ((r = NEXS_OK /\ forall now, nd_view now b' = put nd_live now k (new_value (now_us c) data type ttl) (nd_view now b)) \/
   (r = NEXS_ERROR /\ (malloc c = None \/ nd_view (now_us c) b !! k = None) /\
    forall now, now_us c <= now \/ calm c b k -> nd_view now b' = nd_view now b)).

Lemma store_new c b k data type ttl t' a it nv : nd_ok b -> ready c b k type ttl -> nd_inv t' -> free_cb t' = true ->
  nv = mkND data type (new_expire (now_us c) ttl) (now_us c) ->
  heap b !! a = None -> matches it nv -> it_expire it = nd_enc (nd_expire_us nv) -> it_addr it = a ->
  (nd_expire_us nv = - 1 \/ 2 ^ 20 <= nd_expire_us nv < 2 ^ 52) ->
  abs (table b) !! k = None -> abs t' = <[k := it]> (abs (table b)) -> freed t' = freed (table b) ->
  store_done c b k data type ttl (after (mkNd (table b) (<[a := nv]> (heap b)) (fault b)) t') NEXS_OK.
Proof.
  intros Hb Hr Hi Hcb Hnv Hfree Hm Henc Hia Hex Hk Ha Hfr. rewrite after_none by done. subst a. cbn [heap fault].
  destruct (owns_insert _ _ k it nv (ok_owns _ Hb) Hk Hfree Hm) as [Ho Hv]. split.
  - split; cbn; [done|done|apply Hb|by rewrite Ha].
  - left. split; [done|]. intros now. unfold nd_view. cbn [table heap]. rewrite Ha, Hv.
    rewrite stored_view by done. by subst nv.
Qed.

Lemma store_over c b k data type ttl t' a it old nv : nd_ok b -> ready c b k type ttl -> nd_inv t' -> free_cb t' = true ->
  nv = mkND data type (new_expire (now_us c) ttl) (now_us c) ->
  heap b !! a = None -> matches it nv -> it_expire it = nd_enc (nd_expire_us nv) -> it_addr it = a ->
  (nd_expire_us nv = - 1 \/ 2 ^ 20 <= nd_expire_us nv < 2 ^ 52) ->
  abs (table b) !! k = Some old -> abs t' = <[k := it]> (abs (table b)) -> freed t' = free_of (table b) old ++ freed (table b) ->
  store_done c b k data type ttl (after (mkNd (table b) (<[a := nv]> (heap b)) (fault b)) t') NEXS_OK.
Proof.
  intros Hb Hr Hi Hcb Hnv Hfree Hm Henc Hia Hex Hk Ha Hfr. rewrite (free_of_owned b k old Hb Hk) in Hfr.
  destruct (ow_block _ _ (ok_owns _ Hb) k old Hk) as (ov & Hov & _).
  assert (it_addr old <> a) as Hne by congruence.
  rewrite (after_one _ t' (it_addr old)); [|done|cbn; rewrite lookup_insert_ne by done; eauto]. cbn [heap fault].
  rewrite delete_insert_ne by done.
  destruct (owns_delete _ _ k old (ok_owns _ Hb) Hk) as [Ho1 Hv1]. subst a.
  destruct (owns_insert _ _ k it nv Ho1) as [Ho2 Hv2]; [by rewrite lookup_delete_eq|by rewrite lookup_delete_ne|done|].
  rewrite insert_delete_eq in Ho2, Hv2. split.
  - split; cbn; [done|done|apply Hb|by rewrite Ha].
  - left. split; [done|]. intros now. unfold nd_view. cbn [table heap]. rewrite Ha, Hv2, stored_view by done.
    assert (value_of nv = new_value (now_us c) data type ttl) as -> by (by subst nv). rewrite Hv1. unfold put.
    destruct (nd_live now _); [by rewrite insert_delete_eq|by rewrite delete_delete_eq].
Qed.

(** A failed store frees its own block and leaves what the table did. *)
Lemma store_failed b t' a nv : heap b !! a = None ->
  freed t' = freed (table b) \/ (exists x, freed t' = x :: freed (table b) /\ is_Some (heap b !! x)) ->
  let b1 := after (mkNd (table b) (<[a := nv]> (heap b)) (fault b)) t' in
  (let '(h, f) := free_block (heap b1, fault b1) a in mkNd (table b1) h f) = after b t'.
Proof.
  intros Hf [Hfr|(x & Hfr & [v Hx])]; cbv zeta.
  - rewrite !after_none by done. unfold free_block. cbn [heap fault fst snd table]. rewrite lookup_insert_eq. by rewrite delete_insert_id.
  - assert (x <> a) by congruence. rewrite (after_one b t' x) by eauto.
    rewrite (after_one _ t' x) by (cbn; rewrite ?lookup_insert_ne by done; eauto). unfold free_block. cbn [heap fault fst snd table].
    rewrite lookup_delete_ne, lookup_insert_eq by done. rewrite delete_delete. by rewrite delete_insert_id.
Qed.

Lemma nd_store_spec c b k data type ttl b' r : nd_ok b -> key_ok k -> ready c b k type ttl ->
  nd_store c b k data type ttl = (b', r) -> store_done c b k data type ttl b' r.
Proof.
  intros Hb Hk Hr. unfold nd_store. pose proof (rd_malloc _ _ _ _ _ Hr) as Hma. destruct (malloc c) as [a|] eqn:Em.
  2:{ intros [= <- <-]. split; [done|]. right. auto. }
  destruct Hma as [Har Hfree]. destruct (expire_args c b k type ttl Hr) as (-> & Henc & Hrange).
  set (nv := mkND data type (new_expire (now_us c) ttl) (now_us c)). cbn [table].
  destruct (nexdash_set _ _ _ _ _ _ _) as [t' rc] eqn:E.
  pose proof (set_cb (env_of c) (table b) k a (u32 (SIZEOF_NDValue + alen data)) type
    (if 0 <=? ttl then u64 (now_us c + u64 (ttl * 1000)) else 0)) as Hcb. rewrite E in Hcb. cbn [fst] in Hcb. rewrite (ok_cb _ Hb) in Hcb.
  apply set_spec in E as [Hi Ho]; [|apply Hb|apply Hr|done|apply Hr|mach|apply Hr]. unfold set_outcome in Ho. rewrite Henc in Ho.
  assert (forall tier ver sz, matches (mkItem a type tier ver (nd_enc (new_expire (now_us c) ttl)) sz) nv) as Hm.
  { intros. split; cbn; [lia|apply Hr|done]. }
  destruct (abs (table b) !! k) as [it|] eqn:Hab.
  - change (item_expired (env_of c) it) with (expired_at (now_us c) it) in Ho. destruct (expired_at (now_us c) it) eqn:He.
    + destruct Ho as (-> & Ha & Hfr). cbn match.
      destruct (step_expired b t' k it (now_us c) Hb Hi Hcb Hab He Ha Hfr) as (Hok & Hv & Hn & _).
      rewrite (free_of_owned b k it Hb Hab) in Hfr. destruct (ow_block _ _ (ok_owns _ Hb) k it Hab) as (v & Hbl & _).
      pose proof (store_failed b t' a nv Hfree ltac:(right; eauto)) as Hs. cbv zeta in Hs.
      destruct (free_block _ _) as [h f]. rewrite Hs. intros [= <- <-]. split; [done|]. right. split; [done|]. split; [auto|].
      intros now [Hn'|Hc]; [by apply Hv|]. by rewrite (Hc it Hab) in He.
    + destruct Ho as (-> & Ha & Hfr). cbn match. intros [= <- <-].
      by eapply (store_over c b k data type ttl t' a _ it nv).
  - destruct Ho as [Hfr [[-> Ha]|(-> & Ha & _)]]; cbn match.
    + intros [= <- <-]. by eapply (store_new c b k data type ttl t' a _ nv).
    + destruct (step_same b t' Hb Hi Hcb Ha Hfr) as [Hok Hv].
      pose proof (store_failed b t' a nv Hfree ltac:(by left)) as Hs. cbv zeta in Hs.
      destruct (free_block _ _) as [h f]. rewrite Hs. intros [= <- <-]. split; [done|]. right.
      split; [done|]. split; [|auto]. right. unfold nd_view. by rewrite live_view_lookup, Hab.
Qed.

(** ** The laws of the interface *)
Lemma nd_law_set c b k data type ttl b' r : nd_ok b -> key_ok k -> ready c b k type ttl -> ndapi_set c b k data type ttl = (b', r) ->
  nd_ok b' /\
  ((r = NEXS_OK /\ forall now, now_us c <= now -> nd_view now b' = put nd_live now k (new_value (now_us c) data type ttl) (nd_view now b)) \/
   (r = NEXS_ERROR /\ (malloc c = None \/ nd_view (now_us c) b !! k = None) /\
    forall now, now_us c <= now -> nd_view now b' = nd_view now b)).
Proof.
  intros Hb Hk Hr. unfold ndapi_set. rewrite key_ok_short by done. intros E.
  apply nd_store_spec in E as [Hok [[-> Hv]|(-> & Hn & Hv)]]; [| |done..]; (split; [done|]); [left|right]; split_and!; auto.
Qed.

#[export] Instance nd_laws : StoreLaws NexDashTableAPI nd_ok nd_view nd_live key_ok ready ND_GET_BUF.
Proof. split; cbn [api_get api_set api_del api_exists NexDashTableAPI]; eauto using nd_law_get, nd_law_set, nd_law_del, nd_law_exists. Qed.

(** *** Tables without expiries *)
Lemma permanent_calm c b k m : nd_ok b -> (forall now, nd_view now b = m) -> calm c b k.
Proof.
  intros Hb Hm it Hk. destruct (stored_once b k it Hb Hk) as [t Ht]. rewrite Hm, <- (Hm (now_us c)) in Ht.
  destruct (expired_at (now_us c) it) eqn:He; [|done]. unfold nd_view in Ht. rewrite (expired_gone (now_us c) (now_us c) (abs (table b)) (heap b) k it Hk He) in Ht by lia.
  by destruct Ht.
Qed.

Lemma lookup_calm c b k t' r : nd_ok b -> key_ok k -> calm c b k -> nexdash_get (env_of c) (table b) k = (t', r) ->
  forall now, nd_view now (after b t') = nd_view now b.
Proof.
  intros Hb Hk Hc E. destruct r as [addr ty]. pose proof (get_cb (env_of c) (table b) k) as Hcb. rewrite E in Hcb. cbn [fst] in Hcb. rewrite (ok_cb _ Hb) in Hcb.
  pose proof (get_spec (env_of c) (table b) k t' addr ty (ok_table _ Hb) Hk E) as [Hi Hm]. destruct (abs (table b) !! k) as [it|] eqn:Hab.
  - change (item_expired (env_of c) it) with (expired_at (now_us c) it) in Hm. rewrite (Hc it Hab) in Hm. destruct Hm as (-> & -> & Hfr & Ha).
    match type of Ha with _ = <[_ := ?it']> _ =>
      destruct (step_touch b t' k it it' Hb Hi Hcb Hab eq_refl eq_refl eq_refl Ha Hfr) as [_ Hv] end. exact Hv.
  - destruct Hm as (-> & Ha & Hfr). by destruct (step_same b t' Hb Hi Hcb Ha Hfr) as [_ Hv].
Qed.

#[export] Instance nd_keeps : StoreKeeps NexDashTableAPI nd_ok nd_view key_ok ready.
Proof.
  split; cbn [api_get api_set NexDashTableAPI].
  - intros c b k b' r out m Hb Hk Hm. unfold ndapi_get. rewrite key_ok_short by done.
    destruct (nexdash_get (env_of c) (table b) k) as [t' [addr ty]] eqn:E. pose proof (permanent_calm c b k m Hb Hm) as Hc.
    pose proof (lookup_calm c b k t' _ Hb Hk Hc E) as Hv. intros H now.
    assert (nd_view now b' = nd_view now (after b t')) as ->; [|by rewrite Hv].
    revert H. destruct (addr =? 0); [by intros [= <- _ _]|]. destruct (heap _ !! addr); [|by intros [= <- _ _]]. case_if; by intros [= <- _ _].
  - intros c b k data type ttl b' r m Hb Hk Hr Hneg Hm. unfold ndapi_set. rewrite key_ok_short by done. intros E now.
    pose proof (permanent_calm c b k m Hb Hm) as Hc. apply nd_store_spec in E as [_ [[-> Hv]|(-> & _ & Hv)]]; [| |done..].
    + rewrite bool_decide_eq_true_2, Hv, Hm by done. unfold put, nd_live, new_value, new_expire. cbn [v_expire_us].
      by rewrite (proj2 (Z.leb_gt 0 ttl) Hneg).
    + rewrite bool_decide_eq_false_2 by done. rewrite Hv; [done|]. by right.
Qed.

Lemma ndapi_create_ok ceil_blocks mem : (forall n, 0 <= ceil_blocks n < 2 ^ 26) ->
  nd_ok (ndapi_create ceil_blocks mem) /\ forall now, nd_view now (ndapi_create ceil_blocks mem) = ∅.
Proof.
  intros Hc. destruct (create_inv ceil_blocks 4 mem ltac:(lia) Hc) as [Hi Ha].
  assert (abs (nexdash_set_free_cb (nexdash_create ceil_blocks 4 mem)) = ∅) as Ha' by (rewrite <- Ha; apply abs_core; core).
  split.
  - split; cbn [table heap fault ndapi_create]; [by apply (nd_inv_core (nexdash_create ceil_blocks 4 mem)); [core|]|done|done|]. rewrite Ha'.
    split; [intros k it H|intros k1 k2 it1 it2 H|intros a [v H]]; by apply lookup_empty_Some in H.
  - intros now. unfold nd_view. cbn [table heap ndapi_create]. rewrite Ha'. apply omap_empty.
Qed.

(** ** Read-modify-write *)
Lemma free_blocks_heap l : forall st, (fold_left free_block l st).1 ⊆ st.1.
Proof.
  induction l as [|a l IH]; intros st; [done|]. cbn [fold_left]. etrans; [apply IH|]. unfold free_block.
  destruct (st.1 !! a); [apply delete_subseteq|done].
Qed.

Lemma after_table b t' : table (after b t') = t' /\ heap (after b t') ⊆ heap b.
Proof.
  unfold after. pose proof (free_blocks_heap (reverse (new_frees (table b) t')) (heap b, fault b)) as H.
  by destruct (fold_left _ _ _) as [h f].
Qed.

Lemma get_pool env t key : key_pool (nexdash_get env t key).1 = key_pool t.
Proof.
  unfold nexdash_get. case_if; [done|]. case_if; [done|]. unfold nd_find_slot.
  destruct (find _ _) as [p|]; [|done]. cbn [negb]. case_if.
  - unfold drop_slot, nd_release_slot, run_free_cb. by case_if.
  - by case_if.
Qed.

Lemma ready_after c b k type ttl t' : ready c b k type ttl -> key_pool t' = key_pool (table b) -> ready c (after b t') k type ttl.
Proof.
  intros [R1 R2 R3 R4 R5 R6] Hp. destruct (after_table b t') as [Ht Hh]. split; try done.
  - unfold pool_room in *. by rewrite Ht, Hp.
  - destruct (malloc c) as [a|]; [|done]. destruct R4 as [? R4]. split; [done|].
    destruct (heap (after b t') !! a) as [v|] eqn:E; [|done]. eapply lookup_weaken in E; [|exact Hh]. congruence.
Qed.

(** What the callback is given. *)
Definition rmw_entry (now : Z) (v : option NexValue) : NexEntry := match v with Some v => entry_of now v | None => no_entry end.

Lemma nd_rmw_spec O (c : Ctx) b k (cb : NexRMWCallback O) b' r o : nd_ok b -> key_ok k ->
  let '(e, res, out) := cb (rmw_entry (now_us c) (nd_view (now_us c) b !! k)) in
  (res = NEXS_OK -> ready c b k (e_type e) (e_ttl_ms e)) ->
  ndapi_rmw O c b k cb = (b', r, o) ->
  nd_ok b' /\ o = Some out /\
  if bool_decide (res = NEXS_OK)
  then (r = NEXS_OK /\ forall now, now_us c <= now ->
          nd_view now b' = put nd_live now k (new_value (now_us c) (default [] (e_value e)) (e_type e) (e_ttl_ms e)) (nd_view now b)) \/
       (r = NEXS_ERROR /\ (malloc c = None \/ nd_view (now_us c) b !! k = None) /\
        forall now, now_us c <= now -> nd_view now b' = nd_view now b)
  else r = res /\ forall now, now_us c <= now -> nd_view now b' = nd_view now b.
Proof.
  intros Hb Hk. destruct (cb _) as [[e res] out] eqn:Ecb. intros Hr. unfold ndapi_rmw. rewrite key_ok_short by done.
  pose proof (get_pool (env_of c) (table b) k) as Hpool.
  destruct (nexdash_get (env_of c) (table b) k) as [t' [addr ty]] eqn:E. cbn [fst] in Hpool.
  destruct (nd_lookup c b k t' addr ty Hb Hk E) as (Hok & Hv & Hm).
  assert ((if addr =? 0 then (no_entry, fault (after b t'))
           else match heap (after b t') !! addr with
                | Some val => (mkEntry (Some (nd_data val)) (nd_type val) (ttl_of (now_us c) (nd_expire_us val)) (nd_version val), fault (after b t'))
                | None => (no_entry, true)
                end) = (rmw_entry (now_us c) (nd_view (now_us c) b !! k), false)) as ->.
  { rewrite (ok_fault _ Hok). destruct (nd_view (now_us c) b !! k) as [v|]; [|by destruct Hm as [-> _]].
    destruct Hm as (Hne & nv & Hh & <-). by rewrite (proj2 (Z.eqb_neq _ _) Hne), Hh. }
  assert (mkNd (table (after b t')) (heap (after b t')) false = after b t') as ->.
  { pose proof (ok_fault _ Hok) as Hf. destruct (after b t') as [t1 h1 f1]. cbn in Hf. by subst f1. }
  rewrite Ecb. case_bool_decide as Hres.
  - destruct (nd_store _ _ _ _ _ _) as [b2 r2] eqn:Es. intros [= <- <- <-].
    apply nd_store_spec in Es as [Hok2 Hd]; [|done|done|apply ready_after; auto]. split; [done|]. split; [done|].
    destruct Hd as [[-> Hd]|(-> & Hn & Hd)]; [left|right]; (split; [done|]).
    + intros now Hw. by rewrite Hd, Hv.
    + split; [by rewrite <- Hv by lia|]. intros now Hw. rewrite Hd, Hv; auto.
  - intros [= <- <- <-]. done.
Qed.

(** [ndapi_expire] moves the expiry of the slot but not the one stored in the
    block: the time to live that is reported afterwards is the old one. *)
Lemma ndapi_expire_block c b k ttl b' a v : nd_ok b -> key_ok k -> ndapi_expire c b k ttl = (b', NEXS_OK) ->
  heap b !! a = Some v -> (forall it, abs (table b) !! k = Some it -> it_addr it = a) ->
  heap b' !! a = Some v /\ exists it, abs (table b') !! k = Some it /\ it_addr it = a.
Proof.
  intros Hb Hk. unfold ndapi_expire. rewrite key_ok_short by done. destruct (nexdash_expire _ _ _ _) as [t' rc] eqn:E.
  intros [= <- Hrc] Ha Hit. apply expire_spec in E as [Hi Hm]; [|apply Hb|done].
  destruct (abs (table b) !! k) as [it|] eqn:Hab; [|by destruct Hm as [-> _]].
  destruct (item_expired (env_of c) it); [by destruct Hm as [-> _]|]. destruct Hm as (_ & Hfr & Habs).
  rewrite after_none by done. cbn. split; [done|]. rewrite Habs. eexists. split; [by rewrite lookup_insert_eq|]. cbn. by apply Hit.
Qed.

(** ** Expire, ttl and scan *)
Lemma ndapi_expire_ok c b k ttl : nd_ok b -> key_ok k -> nd_ok (ndapi_expire c b k ttl).1.
Proof.
  intros Hb Hk. unfold ndapi_expire. rewrite key_ok_short by done.
  pose proof (expire_cb (env_of c) (table b) k (if 0 <=? ttl then u64 (now_us c + u64 (ttl * 1000)) else 0)) as Hcb.
  rewrite (ok_cb _ Hb) in Hcb. destruct (nexdash_expire _ _ _ _) as [t' rc] eqn:E. cbn [fst] in *.
  apply expire_spec in E as [Hi Hm]; [|apply Hb|done]. destruct (abs (table b) !! k) as [it|] eqn:Hab.
  - change (item_expired (env_of c) it) with (expired_at (now_us c) it) in Hm. destruct (expired_at (now_us c) it) eqn:He.
    + destruct Hm as (_ & Ha & Hfr). by destruct (step_drop b t' k it Hb Hi Hcb Hab Ha Hfr).
    + destruct Hm as (_ & Hfr & Ha).
      match type of Ha with _ = <[_ := ?it']> _ => by apply (step_kept b t' k it it' Hb Hi Hcb Hab eq_refl eq_refl Ha Hfr) end.
  - destruct Hm as (_ & Ha & Hfr). by destruct (step_same b t' Hb Hi Hcb Ha Hfr).
Qed.

Lemma ndapi_ttl_state c b k : (ndapi_ttl c b k).1 = (ndapi_get c b k).1.1.
Proof. unfold ndapi_ttl. destruct (ndapi_get c b k) as [[b' r] [e|]]; [|done]. by case_bool_decide. Qed.

(** A scan visits stored items only. *)
Lemma scan_visits env b x : nd_ok b -> x ∈ nexdash_scan env (table b) ->
  exists it, abs (table b) !! x.1.1 = Some it /\ it_addr it = x.1.2.
Proof.
  intros Hb Hx. apply list_elem_of_omap in Hx as (l & Hl & Hx). apply elem_all_locs in Hl.
  cbv zeta in Hx. case_match eqn:E; [|done]. injection Hx as <-. apply andb_true_iff in E as [[Ho _]%andb_true_iff _].
  exists (item_of (slot_get (table b) l)). split; [|done]. apply abs_Some; [apply Hb|].
  exists l, (slot_get (table b) l). split; [done|]. split; [by apply occupied_tview|done].
Qed.

Lemma ndapi_scan_same c b : nd_ok b -> (ndapi_scan c b).1 = b.
Proof.
  intros Hb. unfold ndapi_scan. cbn [fst]. assert (existsb (scan_faults b) (nexdash_scan (env_of c) (table b)) = false) as ->.
  { apply not_true_iff_false. intros (x & Hx%list_elem_of_In & Hf)%existsb_exists. revert Hf.
    destruct (scan_visits _ b x Hb Hx) as (it & Hk & Ha). destruct (ow_block _ _ (ok_owns _ Hb) _ _ Hk) as (v & Hv & _).
    unfold scan_faults. by rewrite <- Ha, Hv, andb_false_r. }
  rewrite orb_false_r. by destruct b.
Qed.

(** A key that is too long is refused before the table is touched. *)
Lemma key_too_long (k : bytes) : 255 < alen k -> (ND_MAX_KEY_LEN <? alen k) = true.
Proof. intros H. by apply Z.ltb_lt. Qed.

Lemma nd_long_key c b k : 255 < alen k ->
  ndapi_get c b k = (b, NEXS_TOO_LARGE, None) /\ (forall data type ttl, ndapi_set c b k data type ttl = (b, NEXS_TOO_LARGE)) /\
  ndapi_del c b k = (b, NEXS_NOT_FOUND) /\ ndapi_exists c b k = (b, false) /\
  (forall O cb, ndapi_rmw O c b k cb = (b, NEXS_TOO_LARGE, None)) /\
  (forall ttl, ndapi_expire c b k ttl = (b, NEXS_NOT_FOUND)).
Proof.
  intros H%key_too_long. unfold ndapi_get, ndapi_set, ndapi_del, ndapi_exists, ndapi_rmw, ndapi_expire. by rewrite H.
Qed.

(** ** All states of the object store

    The calls take any key that is not empty.  A call that stores a value
    under a key of at most 255 bytes finds the allocator, the key pool and the
    clock [ready]; that the allocation of the block fails is included. *)
Inductive nd_reach : NdBackend -> Prop :=
  | reach_create ceil_blocks mem : (forall n, 0 <= ceil_blocks n < 2 ^ 26) -> nd_reach (ndapi_create ceil_blocks mem)
  | reach_get c b k : nd_reach b -> 1 <= alen k -> nd_reach (ndapi_get c b k).1.1
  | reach_set c b k data type ttl : nd_reach b -> 1 <= alen k -> (alen k <= 255 -> ready c b k type ttl) ->
      nd_reach (ndapi_set c b k data type ttl).1
  | reach_del c b k : nd_reach b -> 1 <= alen k -> nd_reach (ndapi_del c b k).1
  | reach_exists c b k : nd_reach b -> 1 <= alen k -> nd_reach (ndapi_exists c b k).1
  | reach_rmw O c b k (cb : NexRMWCallback O) : nd_reach b -> 1 <= alen k ->
      (forall e, alen k <= 255 -> (cb e).1.2 = NEXS_OK -> ready c b k (e_type (cb e).1.1) (e_ttl_ms (cb e).1.1)) ->
      nd_reach (ndapi_rmw O c b k cb).1.1
  | reach_expire c b k ttl : nd_reach b -> 1 <= alen k -> nd_reach (ndapi_expire c b k ttl).1
  | reach_ttl c b k : nd_reach b -> 1 <= alen k -> nd_reach (ndapi_ttl c b k).1
  | reach_scan c b : nd_reach b -> nd_reach (ndapi_scan c b).1.

Lemma ndapi_get_ok c b k : nd_ok b -> 1 <= alen k -> nd_ok (ndapi_get c b k).1.1.
Proof.
  intros Hb Hk. destruct (Z_lt_le_dec 255 (alen k)) as [Hl|Hl]; [by rewrite (proj1 (nd_long_key c b k Hl))|].
  destruct (ndapi_get c b k) as [[b' r] out] eqn:E. by apply nd_law_get in E as [? _].
Qed.

Lemma nd_reach_ok b : nd_reach b -> nd_ok b.
Proof.
  induction 1 as [? ? Hc|c b k _ IH Hk|c b k data type ttl _ IH Hk Hr|c b k _ IH Hk|c b k _ IH Hk|O c b k cb _ IH Hk Hr
    |c b k ttl _ IH Hk|c b k _ IH Hk|c b _ IH]; try (destruct (Z_lt_le_dec 255 (alen k)) as [Hl|Hl];
      [pose proof (nd_long_key c b k Hl) as (Lg & Ls & Ld & Le & Lr & Lx)|assert (key_ok k) as Hk' by done]).
  - by apply ndapi_create_ok.
  - by rewrite Lg.
  - by apply ndapi_get_ok.
  - by rewrite Ls.
  - destruct (ndapi_set c b k data type ttl) as [b' r] eqn:E. by apply nd_law_set in E as [? _]; auto.
  - by rewrite Ld.
  - destruct (ndapi_del c b k) as [b' r] eqn:E. by apply nd_law_del in E as [? _].
  - by rewrite Le.
  - destruct (ndapi_exists c b k) as [b' r] eqn:E. by apply nd_law_exists in E as [? _].
  - by rewrite Lr.
  - destruct (ndapi_rmw O c b k cb) as [[b' r] o] eqn:E. pose proof (nd_rmw_spec O c b k cb b' r o IH Hk') as H.
    specialize (Hr (rmw_entry (now_us c) (nd_view (now_us c) b !! k))). destruct (cb _) as [[e res] out].
    by destruct (H (Hr Hl) E) as [? _].
  - by rewrite Lx.
  - by apply ndapi_expire_ok.
  - rewrite ndapi_ttl_state. by apply ndapi_get_ok.
  - rewrite ndapi_ttl_state. by apply ndapi_get_ok.
  - by rewrite ndapi_scan_same.
Qed.

(** C6. The object store is memory safe.  Start with a new store, and make any
    sequence of get, set, del, exists, read-modify-write, expire, ttl and scan
    calls with keys of at least one byte, where growing the key pool does not
    fail and the pool stays within 2^31 bytes, malloc answers a free block or NULL, and
    the clock and times to live are within 2^52 microseconds when a value is
    stored ([ready]).  Then no freed or foreign block has been read or freed,
    every stored key has an allocated block of its own type, and every
    allocated block belongs to exactly one stored key: nothing leaks and
    nothing is shared. *)
Theorem ndapi_memory_safe b : nd_reach b ->
  fault b = false /\
  (forall k it, abs (table b) !! k = Some it -> exists v, heap b !! it_addr it = Some v /\ nd_type v = it_type it) /\
  (forall a, is_Some (heap b !! a) -> exists k, (exists it, abs (table b) !! k = Some it /\ it_addr it = a) /\
     forall k' it', abs (table b) !! k' = Some it' -> it_addr it' = a -> k' = k).
Proof.
  intros H. apply nd_reach_ok in H as [_ _ Hf [Hb Hi Hn]]. split; [done|]. split.
  - intros k it Hk. destruct (Hb k it Hk) as (v & Hv & [_ _ Ht]). eauto.
  - intros a Ha. destruct (Hn a Ha) as (k & it & Hk & <-). exists k. split; [eauto|]. intros k' it' Hk' He. by eapply Hi.
Qed.

(** Read-modify-write is one atomic update: the callback gets the live
    value of the key (or a NULL entry), and what it makes of it is stored, with
    its type and time to live, when it answers OK; the store can fail only
    when there is no memory, or for a new key; any other answer is passed on
    and leaves the store as it was. *)
Theorem ndapi_rmw_atomic O (c : Ctx) b k (cb : NexRMWCallback O) e res out b' r o : nd_ok b -> key_ok k ->
  cb (rmw_entry (now_us c) (nd_view (now_us c) b !! k)) = (e, res, out) ->
  (res = NEXS_OK -> ready c b k (e_type e) (e_ttl_ms e)) ->
  ndapi_rmw O c b k cb = (b', r, o) ->
  nd_ok b' /\ o = Some out /\
  if bool_decide (res = NEXS_OK)
  then (r = NEXS_OK /\ forall now, now_us c <= now ->
          nd_view now b' = put nd_live now k (new_value (now_us c) (default [] (e_value e)) (e_type e) (e_ttl_ms e)) (nd_view now b)) \/
       (r = NEXS_ERROR /\ (malloc c = None \/ nd_view (now_us c) b !! k = None) /\
        forall now, now_us c <= now -> nd_view now b' = nd_view now b)
  else r = res /\ forall now, now_us c <= now -> nd_view now b' = nd_view now b.
Proof.
  intros Hb Hk Hcb Hr E. pose proof (nd_rmw_spec O c b k cb b' r o Hb Hk) as H. rewrite Hcb in H. by apply H.
Qed.

(** ** Examples *)
Definition nd_ctx : Ctx := mkCtx 2000000 true true (Some 4096).
Definition nd_empty : NdBackend := ndapi_create (fun _ => 2) 0.
Definition nd_key : bytes := [107; 49].

Lemma nd_blocks : forall n : Z, 0 <= (fun _ : Z => 2) n < 2 ^ 26.
Proof. intros n. vm_compute. split; congruence. Qed.

Lemma nd_empty_ok : nd_ok nd_empty.
Proof. apply ndapi_create_ok, nd_blocks. Qed.

Lemma nd_key_ok : key_ok nd_key.
Proof. vm_compute. split; congruence. Qed.

Lemma nd_ready type ttl : in_u 4 type -> type <> NTYPE_DELETED -> ttl < 0 -> ready nd_ctx nd_empty nd_key type ttl.
Proof.
  intros H1 H2 H3. constructor; [reflexivity|vm_compute; congruence|by split| |vm_compute; split; congruence|lia].
  split; [vm_compute; split; congruence|reflexivity].
Qed.

Lemma ndapi_memory_safe_witness :
  let b := (ndapi_set nd_ctx nd_empty nd_key [1; 2; 3] NEXDT_CRDT (- 1)).1 in fault b = false /\ is_Some (heap b !! 4096).
Proof.
  cbv zeta. split; [|vm_compute; by eexists].
  apply (ndapi_memory_safe (ndapi_set nd_ctx nd_empty nd_key [1; 2; 3] NEXDT_CRDT (- 1)).1).
  apply reach_set; [apply reach_create, nd_blocks|apply nd_key_ok|]. intros _. apply nd_ready; [vm_compute; split; congruence|done|lia].
Defined.

Lemma ndapi_rmw_atomic_witness :
  let cb := fun e : NexEntry => (mkEntry (Some [7]) NEXDT_CRDT (- 1) 0, NEXS_OK, e_ttl_ms e) in
  exists b', ndapi_rmw Z nd_ctx nd_empty nd_key cb = (b', NEXS_OK, Some (- 1)) /\
    nd_view 3000000 b' !! nd_key = Some (mkValue [7] NEXDT_CRDT (- 1) 2000000).
Proof.
  cbv zeta. set (cb := fun e : NexEntry => _). destruct (ndapi_rmw Z nd_ctx nd_empty nd_key cb) as [[b' r] o] eqn:E.
  assert (r = NEXS_OK) as -> by (apply (f_equal (fun x => x.1.2)) in E; vm_compute in E; exact (eq_sym E)).
  pose proof (ndapi_rmw_atomic Z nd_ctx nd_empty nd_key cb (mkEntry (Some [7]) NEXDT_CRDT (- 1) 0) NEXS_OK (- 1) b' NEXS_OK o
    nd_empty_ok nd_key_ok) as H.
  destruct H as (_ & -> & H); [vm_compute; reflexivity|intros _; apply nd_ready; [vm_compute; split; congruence|done|cbn; lia]|exact E|].
  exists b'. split; [reflexivity|]. rewrite bool_decide_eq_true_2 in H by done. destruct H as [[_ H]|[H _]]; [|done].
  rewrite H by (cbn; lia). unfold put. change (nd_live 3000000 _) with true. cbn match. by rewrite lookup_insert_eq.
Defined.
