(* ===== verification/NexStorage.v ===== *)
(** * The storage of the server (src/src/core/nexstorage.c)

    The Segcache adapter of the storage interface, and the dual store in the
    two configurations of the code: the default of [nexstorage_create], where
    both backends are NexDash tables, and the one of server.c, where strings
    are in Segcache.  [segcache_get] and the other operations of Segcache
    answer [None] where the code would leave a segment's memory; the adapter
    then sets [sc_fault]. *)
From S2P Require Import Prelude FilterSpec NexBloom TaggedPtr NexDash NexDashRefine StorageApi NdStorage.
From S2P Require Segcache.

(** ** The Segcache adapter *)
Record ScBackend := mkSc { store : Segcache.NexSegcache; sc_fault : bool }.

Definition sc_secs (c : Ctx) : Z := now_us c / 1000000.

Definition scapi_get (c : Ctx) (b : ScBackend) (key : bytes) : ScBackend * NexStorageResult * option NexEntry :=
  match Segcache.segcache_get (store b) (sc_secs c) (cut16 key) (u16 65535) with
  | None => (mkSc (store b) true, NEXS_ERROR, None)
  | Some (sc, Segcache.GetOk v) => (mkSc sc (sc_fault b), NEXS_OK, Some (mkEntry (Some v) NEXDT_STRING (- 1) 0))
  | Some (sc, _) => (mkSc sc (sc_fault b), NEXS_NOT_FOUND, None)
  end.

Definition scapi_set (c : Ctx) (b : ScBackend) (key value : bytes) (type ttl_ms : Z) : ScBackend * NexStorageResult :=
  let ttl_s := if 0 <=? ttl_ms then u32 (ttl_ms / 1000) else 0 in
  match Segcache.segcache_set (store b) (sc_secs c) (cut16 key) (cut16 value) ttl_s with
  | None => (mkSc (store b) true, NEXS_ERROR)
  | Some (sc, rc) => (mkSc sc (sc_fault b), if rc =? 0 then NEXS_OK else NEXS_ERROR)
  end.

Definition scapi_del (c : Ctx) (b : ScBackend) (key : bytes) : ScBackend * NexStorageResult :=
  match Segcache.segcache_del (store b) (cut16 key) with
  | None => (mkSc (store b) true, NEXS_ERROR)
  | Some (sc, rc) => (mkSc sc (sc_fault b), if 0 <? rc then NEXS_OK else NEXS_NOT_FOUND)
  end.

Definition scapi_exists (c : Ctx) (b : ScBackend) (key : bytes) : ScBackend * bool :=
  match Segcache.segcache_exists (store b) (sc_secs c) (cut16 key) with
  | None => (mkSc (store b) true, false)
  | Some (sc, r) => (mkSc sc (sc_fault b), negb (r =? 0))
  end.

(** The entry is read and written back in two steps of the cache. *)
Definition scapi_rmw (O : Type) (c : Ctx) (b : ScBackend) (key : bytes) (cb : NexRMWCallback O)
    : ScBackend * NexStorageResult * option O :=
  let '(b, _, out) := scapi_get c b key in
  let '(entry, res, o) := cb (default no_entry out) in
  if bool_decide (res = NEXS_OK) then
    let '(b, _) := scapi_set c b key (default [] (e_value entry)) (e_type entry) (e_ttl_ms entry) in (b, res, Some o)
  else (b, res, Some o).

Definition NexSegcacheAPI : NexStorageAPI ScBackend := mkApi scapi_get scapi_set scapi_del scapi_exists (Some scapi_rmw).

(** ** nexstorage_create *)
Definition nexstorage_create_default (ceil_blocks : Z -> Z) (max_mem : Z) : NexStorage NdBackend NdBackend :=
  mkStorage (ndapi_create ceil_blocks max_mem) (ndapi_create ceil_blocks max_mem).
Definition nexstorage_create_segcache (sc : Segcache.NexSegcache) (ceil_blocks : Z -> Z) (max_mem : Z) : NexStorage ScBackend NdBackend :=
  mkStorage (mkSc sc false) (ndapi_create ceil_blocks max_mem).

(** ** The default configuration is a finite map on exclusive keys *)
Abbreviation Ns := (NexStorage NdBackend NdBackend).
Definition ns_inv (ns : Ns) : Prop := dual_inv (inv1 := nd_ok) (inv2 := nd_ok) ns.
Definition ns_view (now : Z) (ns : Ns) : gmap bytes NexValue := dual_view (view1 := nd_view) (view2 := nd_view) now ns.
Definition ns_exclusive (k : bytes) (ns : Ns) : Prop := exclusive (view1 := nd_view) (view2 := nd_view) k ns.
Definition ns_get := nexstorage_get NexDashTableAPI NexDashTableAPI.
Definition ns_set := nexstorage_set NexDashTableAPI NexDashTableAPI.
Definition ns_del := nexstorage_del NexDashTableAPI NexDashTableAPI.
Definition ns_exists := nexstorage_exists NexDashTableAPI NexDashTableAPI.
Definition ns_rmw {O} := nexstorage_rmw (O := O) (B1 := NdBackend) NexDashTableAPI.

(** The store that a type goes to can take the key, and the other does not
    have it. *)
Definition ns_ready (c : Ctx) (ns : Ns) (k : bytes) (type ttl : Z) : Prop :=
  if type =? NEXDT_STRING
  then ready c (main_backend ns) k type ttl /\ forall now, nd_view now (object_backend ns) !! k = None
  else ready c (object_backend ns) k type ttl /\ forall now, nd_view now (main_backend ns) !! k = None.

(** A read, in terms of the map that a reader sees. *)
Lemma ns_read now ns k r out :
  read_answer ND_GET_BUF now
    (match nd_view now (main_backend ns) !! k with
     | Some v => if alen (v_data v) <=? ND_GET_BUF then Some v else nd_view now (object_backend ns) !! k
     | None => nd_view now (object_backend ns) !! k
     end) r out ->
  match ns_view now ns !! k with
  | Some v => if alen (v_data v) <=? ND_GET_BUF then r = NEXS_OK /\ out = Some (entry_of now v)
              else ns_exclusive k ns -> out = None /\
                r = if bool_decide (is_Some (nd_view now (main_backend ns) !! k)) then NEXS_NOT_FOUND else NEXS_TOO_LARGE
  | None => r = NEXS_NOT_FOUND /\ out = None
  end.
Proof.
  unfold ns_view, dual_view, ns_exclusive, exclusive. rewrite lookup_union.
  destruct (nd_view now (main_backend ns) !! k) as [v|] eqn:E1.
  - rewrite union_Some_l. destruct (alen (v_data v) <=? ND_GET_BUF) eqn:Hs; [unfold read_answer; by rewrite Hs|].
    intros Ha [Hx|Hx]; rewrite Hx in *; [done|]. destruct Ha as [-> ->]. by rewrite bool_decide_eq_true_2.
  - rewrite (left_id_L None union). destruct (nd_view now (object_backend ns) !! k) as [v|]; [|done]. unfold read_answer.
    destruct (_ <=? _); [done|]. intros [-> ->] _. by rewrite bool_decide_eq_false_2 by (by intros []).
Qed.

(** The length check of the adapter. *)
Lemma ns_long_key c ns k : 255 < alen k ->
  ns_get c ns k = (ns, NEXS_TOO_LARGE, None) /\ ns_exists c ns k = (ns, false) /\
  (forall data type ttl, ns_set c ns k data type ttl = (ns, NEXS_TOO_LARGE)) /\ ns_del c ns k = (ns, NEXS_NOT_FOUND).
Proof.
  intros Hk. destruct ns as [b1 b2]. destruct (nd_long_key c b1 k Hk) as (G1 & S1 & D1 & X1 & _), (nd_long_key c b2 k Hk) as (G2 & S2 & D2 & X2 & _).
  unfold ns_get, ns_exists, ns_set, ns_del, nexstorage_get, nexstorage_exists, nexstorage_set, nexstorage_del.
  cbn [main_backend object_backend api_get api_set api_del api_exists NexDashTableAPI]. rewrite G1, X1, D1, D2, X2.
  split_and!; [by cbn; rewrite G2|done| |done]. intros data type ttl. rewrite S1, S2. by case_if.
Qed.

(** C5. The default configuration, where both stores are NexDash tables,
    refines a finite map from keys to values, for keys of 1 to 255 bytes.  GET
    answers the value that the map of the live keys holds, when it has at most
    1 MB; a longer one is TOO_LARGE, or NOT_FOUND when it is in the main store.
    EXISTS answers whether the map has the key.  SET, when the store that the
    type selects is [ready] and the other does not hold the key, inserts the
    value for as long as it lives, or answers ERROR and changes nothing: that
    only when malloc fails or the key is not in the map.  DEL removes a key
    that is in at most one store and says whether it was there.  All of them
    keep the invariant.  A longer key is refused, with the state as it was. *)
Theorem nexstorage_refines c ns k : ns_inv ns ->
  (key_ok k ->
   (forall ns' r out, ns_get c ns k = (ns', r, out) ->
      ns_inv ns' /\ (forall now, now_us c <= now -> ns_view now ns' = ns_view now ns) /\
      match ns_view (now_us c) ns !! k with
      | Some v => if alen (v_data v) <=? ND_GET_BUF then r = NEXS_OK /\ out = Some (entry_of (now_us c) v)
                  else ns_exclusive k ns -> out = None /\
                    r = if bool_decide (is_Some (nd_view (now_us c) (main_backend ns) !! k)) then NEXS_NOT_FOUND else NEXS_TOO_LARGE
      | None => r = NEXS_NOT_FOUND /\ out = None
      end) /\
   (forall ns' r, ns_exists c ns k = (ns', r) ->
      ns_inv ns' /\ (forall now, now_us c <= now -> ns_view now ns' = ns_view now ns) /\
      r = bool_decide (is_Some (ns_view (now_us c) ns !! k))) /\
   (forall data type ttl ns' r, ns_ready c ns k type ttl -> ns_set c ns k data type ttl = (ns', r) ->
      ns_inv ns' /\
      ((r = NEXS_OK /\ forall now, now_us c <= now ->
          ns_view now ns' = put nd_live now k (new_value (now_us c) data type ttl) (ns_view now ns)) \/
       (r = NEXS_ERROR /\ (malloc c = None \/ ns_view (now_us c) ns !! k = None) /\
        forall now, now_us c <= now -> ns_view now ns' = ns_view now ns))) /\
   (forall ns' r, ns_exclusive k ns -> ns_del c ns k = (ns', r) ->
      ns_inv ns' /\ (forall now, ns_view now ns' = delete k (ns_view now ns)) /\
      ((r = NEXS_OK /\ exists now, is_Some (ns_view now ns !! k)) \/ (r = NEXS_NOT_FOUND /\ forall now, ns_view now ns !! k = None)))) /\
  (255 < alen k ->
   ns_get c ns k = (ns, NEXS_TOO_LARGE, None) /\ ns_exists c ns k = (ns, false) /\
   (forall data type ttl, ns_set c ns k data type ttl = (ns, NEXS_TOO_LARGE)) /\ ns_del c ns k = (ns, NEXS_NOT_FOUND)).
Proof.
  intros Hi. split; [intros Hk; split_and!|intros Hk; by apply ns_long_key].
  - intros ns' r out E. apply (dual_get (inv1 := nd_ok)) in E as (Hi' & Hv & Ha); [|done..]. split; [done|]. split; [done|].
    by apply ns_read.
  - intros ns' r E. by eapply dual_exists.
  - intros data type ttl ns' r Hr E. pose proof (dual_set_exclusive c ns k data type ttl ns' r Hi Hk Hr E) as [Hi' Hv].
    split; [done|]. by destruct (type =? NEXDT_STRING).
  - intros ns' r Hx E. by eapply dual_del_exclusive.
Qed.

(** A key can be in both stores, although [nexstorage_del] relies on the
    contrary: storing a hash under a key that holds a live string succeeds,
    yet the string is still what GET returns; a DEL then answers that the key
    was deleted and uncovers the hash. *)
Theorem nexstorage_both_stores c ns k data type ttl ns1 : ns_inv ns -> key_ok k -> type <> NEXDT_STRING ->
  ready c (object_backend ns) k type ttl -> ns_set c ns k data type ttl = (ns1, NEXS_OK) ->
  (forall now v, now_us c <= now -> nd_view now (main_backend ns) !! k = Some v -> ns_view now ns1 !! k = Some v) /\
  (forall v c2 ns2 r, nd_view (now_us c) (main_backend ns) !! k = Some v -> ns_del c2 ns1 k = (ns2, r) ->
     r = NEXS_OK /\
     forall now, now_us c <= now -> nd_live now (new_value (now_us c) data type ttl) = true ->
       ns_view now ns2 !! k = Some (new_value (now_us c) data type ttl)).
Proof.
  intros Hi Hk Ht Hr E. apply (dual_set_object (inv1 := nd_ok) (view1 := nd_view)) in E as (Hi1 & Hm & Hok & _); [|done..]. specialize (Hok eq_refl). split.
  - intros now v Hn Hv. unfold ns_view, dual_view. rewrite Hm, lookup_union, Hv. apply union_Some_l.
  - intros v c2 ns2 r Hv E2. apply (dual_del (inv1 := nd_ok) (view1 := nd_view) (inv2 := nd_ok) (view2 := nd_view)) in E2 as (Hi2 & V1 & Hc); [|done..].
    destruct Hc as [(-> & _ & Ho)|(N1 & _)]; [|rewrite Hm in N1; by rewrite N1 in Hv].
    split; [done|]. intros now Hn Hl. unfold ns_view, dual_view. rewrite V1, Ho, Hok by done. unfold put. rewrite Hl.
    rewrite lookup_union, lookup_delete_eq, lookup_insert_eq. done.
Qed.

(** ** Strings in Segcache *)
Lemma cut16_len b : in_u 16 (alen (cut16 b)).
Proof.
  unfold cut16. pose proof (wrap_range 16 (alen b) ltac:(lia)) as H. unfold alen at 1. rewrite length_take. mach.
Qed.

Lemma cut16_small b : alen b < 65536 -> cut16 b = b.
Proof. intros H. unfold cut16. pose proof (alen_nonneg b). rewrite wrap_small by mach. apply take_ge. unfold alen. lia. Qed.

(** C30. The configuration of the server, strings in Segcache: after a SET
    without TTL that answered OK, every GET of the key returns the value cut to
    its length modulo 2^16, which is the value itself exactly below 65536
    bytes, and so does a GET of any other key that agrees with it after the
    same cut. *)
Theorem server_set_get c c' (ns : NexStorage ScBackend NdBackend) k k' v ttl ns1 :
  Segcache.sc_wf (store (main_backend ns)) -> ttl < 0 -> cut16 k' = cut16 k ->
  nexstorage_set NexSegcacheAPI NexDashTableAPI c ns k v NEXDT_STRING ttl = (ns1, NEXS_OK) ->
  (exists ns2, nexstorage_get NexSegcacheAPI NexDashTableAPI c' ns1 k' =
     (ns2, NEXS_OK, Some (mkEntry (Some (cut16 v)) NEXDT_STRING (- 1) 0))) /\
  (cut16 v = v <-> alen v < 65536).
Proof.
  intros Hwf Ht Hkk E. split.
  2:{ split; [|apply cut16_small]. intros H. pose proof (cut16_len v) as Hl. rewrite H in Hl. mach. }
  unfold nexstorage_set in E. change (NEXDT_STRING =? NEXDT_STRING) with true in E. cbn [api_set NexSegcacheAPI] in E.
  unfold scapi_set in E. rewrite (proj2 (Z.leb_gt 0 ttl) Ht) in E.
  destruct (Segcache.segcache_set _ _ _ _ _) as [[sc rc]|] eqn:Es; [|done].
  destruct (Z.eqb_spec rc 0) as [->|]; [|done]. injection E as <-.
  pose proof (Segcache.set_get_spec _ _ _ _ 0 _ (sc_secs c') 65535 Hwf ltac:(mach) (cut16_len k) (cut16_len v) Es) as H.
  cbv zeta in H. change (Segcache.bucket_to_ttl_seconds (Segcache.ttl_to_bucket 0)) with 0 in H. change (0 <? 0) with false in H. cbn [andb] in H.
  pose proof (cut16_len v) as Hl. rewrite (proj2 (Z.ltb_ge 65535 _)) in H by mach. destruct H as [sc2 Hg].
  unfold nexstorage_get. cbn [main_backend api_get NexSegcacheAPI]. unfold scapi_get. cbn [store sc_fault].
  change (u16 65535) with 65535. rewrite Hkk, Hg. rewrite bool_decide_eq_true_2 by done. eexists. done.
Qed.

(** ** Examples *)
Definition ns_empty : Ns := nexstorage_create_default (fun _ => 2) 0.

Lemma ns_empty_inv : ns_inv ns_empty.
Proof. split; apply ndapi_create_ok, nd_blocks. Qed.

Lemma nexstorage_refines_witness :
  exists ns', ns_set nd_ctx ns_empty nd_key [1; 2] NEXDT_HASH (- 1) = (ns', NEXS_OK) /\
    ns_view 3000000 ns' = <[nd_key := mkValue [1; 2] NEXDT_HASH (- 1) 2000000]> ∅.
Proof.
  destruct (nexstorage_refines nd_ctx ns_empty nd_key ns_empty_inv) as [H0 _]. destruct (H0 nd_key_ok) as (_ & _ & H & _).
  destruct (ns_set nd_ctx ns_empty nd_key [1; 2] NEXDT_HASH (- 1)) as [ns' r] eqn:E.
  assert (r = NEXS_OK) as -> by (apply (f_equal snd) in E; vm_compute in E; exact (eq_sym E)).
  exists ns'. split; [reflexivity|]. apply H in E as [_ [[_ Hv]|[Hf _]]]; [|done|].
  - rewrite Hv by (cbn; lia). unfold put. change (nd_live 3000000 _) with true. cbn match.
    unfold ns_view, dual_view. cbn [main_backend object_backend ns_empty nexstorage_create_default].
    rewrite (proj2 (ndapi_create_ok (fun _ => 2) 0 nd_blocks)). reflexivity.
  - split; [apply nd_ready; [vm_compute; split; congruence|done|lia]|].
    intros now. cbn [main_backend ns_empty nexstorage_create_default]. by rewrite (proj2 (ndapi_create_ok (fun _ => 2) 0 nd_blocks)).
Defined.

(** A string, then a hash under the same key. *)
Definition nd_string : NdBackend := (ndapi_set (mkCtx 2000000 true true (Some 8192)) nd_empty nd_key [115] NEXDT_STRING (- 1)).1.
Definition ns_string : Ns := mkStorage nd_string nd_empty.

Lemma ns_string_inv : ns_inv ns_string.
Proof.
  split; [|exact nd_empty_ok]. apply nd_reach_ok, reach_set; [apply reach_create, nd_blocks|apply nd_key_ok|]. intros _.
  constructor; [reflexivity|vm_compute; congruence|by vm_compute|split; [vm_compute; split; congruence|reflexivity]|vm_compute; split; congruence|lia].
Qed.

Lemma nexstorage_both_stores_witness :
  let '(ns1, r1) := ns_set nd_ctx ns_string nd_key [1; 2] NEXDT_HASH (- 1) in
  let '(ns2, r2) := ns_del nd_ctx ns1 nd_key in
  r1 = NEXS_OK /\ r2 = NEXS_OK /\ ns_view 3000000 ns2 !! nd_key = Some (mkValue [1; 2] NEXDT_HASH (- 1) 2000000).
Proof.
  destruct (ns_set nd_ctx ns_string nd_key [1; 2] NEXDT_HASH (- 1)) as [ns1 r1] eqn:E.
  assert (r1 = NEXS_OK) as -> by (apply (f_equal snd) in E; vm_compute in E; exact (eq_sym E)).
  destruct (ns_del nd_ctx ns1 nd_key) as [ns2 r2] eqn:E2.
  destruct (nexstorage_both_stores nd_ctx ns_string nd_key [1; 2] NEXDT_HASH (- 1) ns1 ns_string_inv nd_key_ok) as [_ H];
    [done|apply nd_ready; [vm_compute; split; congruence|done|lia]|exact E|].
  destruct (H (mkValue [115] NEXDT_STRING (- 1) 2000000) nd_ctx ns2 r2) as [-> Hv]; [vm_compute; reflexivity|exact E2|].
  split_and!; [reflexivity|reflexivity|]. apply Hv; [cbn; lia|reflexivity].
Defined.

Lemma server_set_get_witness :
  let ns := nexstorage_create_segcache Segcache.sc_small (fun _ => 2) 0 in
  exists ns1 ns2, nexstorage_set NexSegcacheAPI NexDashTableAPI nd_ctx ns nd_key [7; 8] NEXDT_STRING (- 1) = (ns1, NEXS_OK) /\
    nexstorage_get NexSegcacheAPI NexDashTableAPI nd_ctx ns1 nd_key = (ns2, NEXS_OK, Some (mkEntry (Some [7; 8]) NEXDT_STRING (- 1) 0)).
Proof.
  cbv zeta. set (ns := nexstorage_create_segcache _ _ _).
  destruct (nexstorage_set NexSegcacheAPI NexDashTableAPI nd_ctx ns nd_key [7; 8] NEXDT_STRING (- 1)) as [ns1 r] eqn:E.
  assert (r = NEXS_OK) as -> by (apply (f_equal snd) in E; vm_compute in E; exact (eq_sym E)).
  destruct (server_set_get nd_ctx nd_ctx ns nd_key nd_key [7; 8] (- 1) ns1) as [[ns2 H] _];
    [exact Segcache.sc_small_wf|lia|reflexivity|exact E|]. exists ns1, ns2. split; [reflexivity|exact H].
Defined.
