(* ===== verification/Engine.v ===== *)
(** * The engine (src/src/core/engine.c)

    Commands are queued for the worker of their key; each worker takes the
    commands of its queue in order and executes them on the global storage.
    A step is a dispatch, one access of a worker to its queue or to one of the
    two backends of the storage, a callback, or the stop of a worker, so that
    commands of different workers interleave inside GET and DEL, which look in
    both backends.  The queue is a list: [Mpsc.mpsc_linearizable] is that the
    lock-free queue behaves as one, and a dequeue that answers NULL is no
    step.  The storage is behind the interface [NexStorageAPI].  Latencies
    (doubles), arenas, spinning and CPU affinity are left out. *)
From S2P Require Import Prelude IntString StorageApi.
From S2P Require NdStorage NexStorage.

Inductive NexCmdType :=
  | NEX_CMD_GET | NEX_CMD_SET | NEX_CMD_DEL | NEX_CMD_MGET | NEX_CMD_MSET | NEX_CMD_INCR | NEX_CMD_DECR | NEX_CMD_EXPIRE
  | NEX_CMD_TTL | NEX_CMD_TYPE | NEX_CMD_EXISTS | NEX_CMD_VADD | NEX_CMD_VSIM | NEX_CMD_SCADD | NEX_CMD_SCGET | NEX_CMD_SHUTDOWN.

Definition NEX_MAX_WORKERS : Z := 16.
Definition NEX_HASH_SLOTS : Z := 16384.

(** [reply_buf = None] is a NULL pointer; its length is [reply_cap]. *)
Record NexCmd := mkCmd { type : NexCmdType; argv : list bytes; reply_buf : option bytes; reply_len : Z }.

(** Where a worker is in its loop: at its head, about to execute, about to
    look in the object store, about to call back, or out of the loop. *)
Inductive Pc := AtLoop | Execute (cmd : NexCmd) | InObject (cmd : NexCmd) | Finish (cmd : NexCmd) | Stopped.

Record NexWorker := mkWorker {
  slot_start : Z; slot_end : Z; cmd_queue : list NexCmd; pc : Pc; running : bool; cmds_processed : Z; cache_hits : Z; cache_misses : Z }.

#[export] Instance NexWorker_inhabited : Inhabited NexWorker := populate (mkWorker 0 0 [] AtLoop false 0 0 0).

Definition set_pc (w : NexWorker) (p : Pc) : NexWorker :=
  mkWorker (slot_start w) (slot_end w) (cmd_queue w) p (running w) (cmds_processed w) (cache_hits w) (cache_misses w).
Definition set_queue (w : NexWorker) (q : list NexCmd) : NexWorker :=
  mkWorker (slot_start w) (slot_end w) q (pc w) (running w) (cmds_processed w) (cache_hits w) (cache_misses w).
Definition set_running (w : NexWorker) (r : bool) : NexWorker :=
  mkWorker (slot_start w) (slot_end w) (cmd_queue w) (pc w) r (cmds_processed w) (cache_hits w) (cache_misses w).

(** ** Replies *)

(** What a command answers; [NoReply] when its arguments are missing. *)
Inductive answer := NoReply | Bulk (v : bytes) | Nil | Stored | StorageError | Deleted (found : bool) | Unknown.

(** [memcpy] into a buffer. *)
Definition overlay (buf : bytes) (off : Z) (data : bytes) : option bytes :=
  if alen buf <? off + alen data then None
  else Some (take (Z.to_nat off) buf ++ data ++ drop (Z.to_nat (off + alen data)) buf).

(** [strncpy(buf, s, n)] writes [n] bytes, [snprintf(buf, cap, "%s", s)] at
    most [cap] with the terminator. *)
Definition strncpy (buf s : bytes) (n : Z) : option bytes :=
  if alen buf <? n then None else overlay buf 0 (take (Z.to_nat n) (s ++ replicate (Z.to_nat n) 0)).
Definition snprintf (buf s : bytes) : option bytes :=
  if alen buf =? 0 then Some buf else overlay buf 0 (take (Z.to_nat (alen buf - 1)) s ++ [0]).

Definition with_reply (cmd : NexCmd) (buf : bytes) (len : Z) : NexCmd := mkCmd (type cmd) (argv cmd) (Some buf) len.

Definition reply_line (cmd : NexCmd) (s : bytes) : option NexCmd :=
  match reply_buf cmd with
  | None => Some cmd
  | Some buf => buf ← strncpy buf s (u64 (alen buf - 1)); Some (with_reply cmd buf (alen s))
  end.

Definition CRLF : bytes := [13; 10].

Definition reply_bulk (cmd : NexCmd) (value : bytes) : option NexCmd :=
  match reply_buf cmd with
  | None => Some cmd
  | Some buf =>
      let s := 36 :: decimal (u32 (alen value)) ++ CRLF in
      let n := alen s in
      let cap := alen buf in
      buf ← snprintf buf s;
      if n + alen value + 2 <=? cap then
        buf ← overlay buf n value;
        buf ← overlay buf (n + alen value) CRLF;
        Some (with_reply cmd buf (n + alen value + 2))
      else Some (with_reply cmd buf (reply_len cmd))
  end.

(** "$-1\r\n", "+OK\r\n", "-ERR storage error\r\n", ":1\r\n", ":0\r\n", "-ERR unknown command\r\n" *)
Definition nil_line : bytes := [36; 45; 49] ++ CRLF.
Definition ok_line : bytes := [43; 79; 75] ++ CRLF.
Definition storage_error_line : bytes := [45; 69; 82; 82; 32; 115; 116; 111; 114; 97; 103; 101; 32; 101; 114; 114; 111; 114] ++ CRLF.
Definition deleted_line (found : bool) : bytes := [58; if found then 49 else 48] ++ CRLF.
Definition unknown_line : bytes := [45; 69; 82; 82; 32; 117; 110; 107; 110; 111; 119; 110; 32; 99; 111; 109; 109; 97; 110; 100] ++ CRLF.

Definition reply (cmd : NexCmd) (a : answer) : option NexCmd :=
  match a with
  | NoReply => Some cmd
  | Bulk v => reply_bulk cmd v
  | Nil => reply_line cmd nil_line
  | Stored => reply_line cmd ok_line
  | StorageError => reply_line cmd storage_error_line
  | Deleted found => reply_line cmd (deleted_line found)
  | Unknown => reply_line cmd unknown_line
  end.

(** ** The worker *)

(** What an observer sees of a worker: a command was sent to it, it ran with
    an answer, its callback was called. *)
Inductive Event := Sent (cmd : NexCmd) | Ran (cmd : NexCmd) (a : answer) | Callback (cmd : NexCmd).

(** A length passed as [uint32_t]. *)
Definition cut32 (b : bytes) : bytes := take (Z.to_nat (u32 (alen b))) b.

Section engine.
Context {B1 B2 : Type} (main_api : NexStorageAPI B1) (object_api : NexStorageAPI B2).

Definition finish (w : NexWorker) (cmd : NexCmd) (a : answer) : option (NexWorker * list Event) :=
  cmd' ← reply cmd a; Some (set_pc w (Finish cmd'), [Ran cmd a]).

Definition hit (w : NexWorker) : NexWorker :=
  mkWorker (slot_start w) (slot_end w) (cmd_queue w) (pc w) (running w) (cmds_processed w) (cache_hits w +64 1) (cache_misses w).
Definition miss (w : NexWorker) : NexWorker :=
  mkWorker (slot_start w) (slot_end w) (cmd_queue w) (pc w) (running w) (cmds_processed w) (cache_hits w) (cache_misses w +64 1).

Definition entry_bytes (out : option NexEntry) : bytes := default [] (out ≫= e_value).

(** One step of the loop of [worker_thread_main]. *)
Definition worker_step (c : Ctx) (ns : NexStorage B1 B2) (w : NexWorker) : option (NexStorage B1 B2 * NexWorker * list Event) :=
  match pc w with
  | AtLoop =>
      if running w then
        match cmd_queue w with
        | [] => Some (ns, w, [])
        | cmd :: q => Some (ns, set_pc (set_queue w q) (Execute cmd), [])
        end
      else Some (ns, set_pc w Stopped, [])
  | Execute cmd =>
      match type cmd, argv cmd with
      | NEX_CMD_GET, _ :: k :: _ =>
          let '(b1, r, out) := api_get main_api c (main_backend ns) (cut32 k) in
          let ns := mkStorage b1 (object_backend ns) in
          if bool_decide (r = NEXS_OK) then '(w, ev) ← finish (hit w) cmd (Bulk (entry_bytes out)); Some (ns, w, ev)
          else Some (ns, set_pc w (InObject cmd), [])
      | NEX_CMD_SET, _ :: k :: v :: _ =>
          let '(ns, r) := nexstorage_set main_api object_api c ns (cut32 k) (cut32 v) NEXDT_STRING (- 1) in
          '(w, ev) ← finish w cmd (if bool_decide (r = NEXS_OK) then Stored else StorageError); Some (ns, w, ev)
      | NEX_CMD_DEL, _ :: k :: _ =>
          let '(b1, r) := api_del main_api c (main_backend ns) (cut32 k) in
          let ns := mkStorage b1 (object_backend ns) in
          if bool_decide (r = NEXS_OK) then '(w, ev) ← finish w cmd (Deleted true); Some (ns, w, ev)
          else Some (ns, set_pc w (InObject cmd), [])
      | (NEX_CMD_GET | NEX_CMD_SET | NEX_CMD_DEL), _ => '(w, ev) ← finish w cmd NoReply; Some (ns, w, ev)
      | NEX_CMD_SHUTDOWN, _ => Some (ns, set_pc (set_running w false) Stopped, [Ran cmd NoReply])
      | _, _ => '(w, ev) ← finish w cmd Unknown; Some (ns, w, ev)
      end
  | InObject cmd =>
      match type cmd, argv cmd with
      | NEX_CMD_GET, _ :: k :: _ =>
          let '(b2, r, out) := api_get object_api c (object_backend ns) (cut32 k) in
          let ns := mkStorage (main_backend ns) b2 in
          if bool_decide (r = NEXS_OK) then '(w, ev) ← finish (hit w) cmd (Bulk (entry_bytes out)); Some (ns, w, ev)
          else '(w, ev) ← finish (miss w) cmd Nil; Some (ns, w, ev)
      | NEX_CMD_DEL, _ :: k :: _ =>
          let '(b2, r) := api_del object_api c (object_backend ns) (cut32 k) in
          let ns := mkStorage (main_backend ns) b2 in
          '(w, ev) ← finish w cmd (Deleted (bool_decide (r = NEXS_OK))); Some (ns, w, ev)
      | _, _ => None
      end
  | Finish cmd =>
      Some (ns, mkWorker (slot_start w) (slot_end w) (cmd_queue w) AtLoop (running w) (cmds_processed w +64 1) (cache_hits w) (cache_misses w),
            [Callback cmd])
  | Stopped => Some (ns, w, [])
  end.

(** ** The engine *)
Record NexEngine := mkEngine { workers : list NexWorker; total_commands : Z; storage : NexStorage B1 B2 }.

Definition num_workers (e : NexEngine) : Z := alen (workers e).

(** Slots [NEX_HASH_SLOTS / n] each, the rest to the last worker. *)
Definition engine_create (n : Z) (ns : NexStorage B1 B2) : NexEngine :=
  let n := if n <=? 0 then 8 else n in
  let n := if NEX_MAX_WORKERS <? n then NEX_MAX_WORKERS else n in
  let per := NEX_HASH_SLOTS / n in
  mkEngine (map (fun i => mkWorker (i * per) (if i =? n - 1 then NEX_HASH_SLOTS else (i + 1) * per) [] AtLoop false 0 0 0) (seqZ 0 n)) 0 ns.

(** All threads are created. *)
Definition engine_start (e : NexEngine) : NexEngine := mkEngine (map (fun w => set_running w true) (workers e)) (total_commands e) (storage e).

(** DJB2; a [char] is signed. *)
Definition djb2 (key : bytes) : Z := fold_left (fun h b => u32 (u32 (u32 (Z.shiftl h 5) + h) + swrap 8 b)) key 5381.
Definition engine_worker_for_key (n : Z) (key : bytes) : Z := if alen key =? 0 then 0 else djb2 key mod n.

Inductive Step := Dispatch (cmd : NexCmd) (key : bytes) | Work (i : Z) (c : Ctx) | StopWorker (i : Z).

Definition set_worker (e : NexEngine) (i : Z) (w : NexWorker) : NexEngine := mkEngine (aset (workers e) i w) (total_commands e) (storage e).

Definition engine_dispatch_cmd (e : NexEngine) (cmd : NexCmd) (key : bytes) : NexEngine * list (Z * Event) :=
  let i := engine_worker_for_key (num_workers e) key in
  let w := aget (workers e) i in
  (mkEngine (aset (workers e) i (set_queue w (cmd_queue w ++ [cmd]))) (total_commands e +64 1) (storage e), [(i, Sent cmd)]).

(** A step; [None] is an access outside a buffer. *)
Definition engine_step (e : NexEngine) (s : Step) : option (NexEngine * list (Z * Event)) :=
  match s with
  | Dispatch cmd key => Some (engine_dispatch_cmd e cmd key)
  | Work i c =>
      '(ns, w, evs) ← worker_step c (storage e) (aget (workers e) i);
      Some (mkEngine (aset (workers e) i w) (total_commands e) ns, map (pair i) evs)
  | StopWorker i => Some (set_worker e i (set_running (aget (workers e) i) false), [])
  end.
End engine.
Arguments NexEngine : clear implicits.
Arguments mkEngine {B1 B2}.
Arguments workers {B1 B2}.
Arguments total_commands {B1 B2}.
Arguments storage {B1 B2}.

(** ** The sequential machine

    Two maps from keys to bytes, the main store and the object store; [limit]
    is the largest value a read can return. *)
Definition key_of (cmd : NexCmd) : option bytes :=
  match type cmd, argv cmd with
  | (NEX_CMD_GET | NEX_CMD_DEL), _ :: k :: _ => Some k
  | NEX_CMD_SET, _ :: k :: _ :: _ => Some k
  | _, _ => None
  end.

Section machine.
Context (limit : Z).

Definition fits (v : option bytes) : option bytes := v ← v; if alen v <=? limit then Some v else None.
Definition seen (st : gmap bytes bytes * gmap bytes bytes) (k : bytes) : option bytes :=
  match fits (st.1 !! k) with Some v => Some v | None => fits (st.2 !! k) end.

#[local] Instance answer_eq : EqDecision answer.
Proof. solve_decision. Defined.

(** The machine after [cmd] has answered [a]; [None] when it cannot. *)
Definition machine_step (st : gmap bytes bytes * gmap bytes bytes) (cmd : NexCmd) (a : answer) : option (gmap bytes bytes * gmap bytes bytes) :=
  let expect (b : answer) st := if decide (a = b) then Some st else None in
  match type cmd, argv cmd with
  | NEX_CMD_GET, _ :: k :: _ => expect (match seen st (cut32 k) with Some v => Bulk v | None => Nil end) st
  | NEX_CMD_SET, _ :: k :: v :: _ =>
      match a with Stored => Some (<[cut32 k := cut32 v]> st.1, st.2) | StorageError => Some st | _ => None end
  | NEX_CMD_DEL, _ :: k :: _ =>
      if decide (is_Some (st.1 !! cut32 k)) then expect (Deleted true) (delete (cut32 k) st.1, st.2)
      else expect (Deleted (bool_decide (is_Some (st.2 !! cut32 k)))) (st.1, delete (cut32 k) st.2)
  | (NEX_CMD_GET | NEX_CMD_SET | NEX_CMD_DEL | NEX_CMD_SHUTDOWN), _ => expect NoReply st
  | _, _ => expect Unknown st
  end.

Definition machine_run (st : gmap bytes bytes * gmap bytes bytes) (l : list (NexCmd * answer)) : option (gmap bytes bytes * gmap bytes bytes) :=
  fold_left (fun st x => st ← st; machine_step st x.1 x.2) l (Some st).

Lemma machine_run_snoc st l x : machine_run st (l ++ [x]) = (st ← machine_run st l; machine_step st x.1 x.2).
Proof. unfold machine_run. by rewrite fold_left_app. Qed.

Lemma machine_frame st cmd a st' k : machine_step st cmd a = Some st' -> (forall k', key_of cmd = Some k' -> cut32 k' <> k) -> st'.1 !! k = st.1 !! k.
Proof.
  unfold machine_step, key_of. intros H Hk.
  destruct (type cmd), (argv cmd) as [|? [|k' [|? ?]]]; cbn in H; repeat (case_decide || case_match); simplify_eq/=; try done;
    first [by rewrite lookup_insert_ne by auto | by rewrite lookup_delete_ne by auto].
Qed.
End machine.

(** What the client finds in its buffer. *)
Definition encode (a : answer) : bytes :=
  match a with
  | NoReply => []
  | Bulk v => 36 :: decimal (alen v) ++ CRLF ++ v ++ CRLF
  | Nil => nil_line
  | Stored => ok_line
  | StorageError => storage_error_line
  | Deleted found => deleted_line found
  | Unknown => unknown_line
  end.

Definition delivers (cmd : NexCmd) (a : answer) (cb : NexCmd) : Prop :=
  type cb = type cmd /\ argv cb = argv cmd /\
  forall b, reply_buf cmd = Some b -> a <> NoReply -> alen (encode a) < alen b ->
    exists b', reply_buf cb = Some b' /\ take (Z.to_nat (reply_len cb)) b' = encode a.

Definition buffer_ok (cmd : NexCmd) : Prop := forall b, reply_buf cmd = Some b -> 1 <= alen b < 2 ^ 32.

(** ** Replies *)
Lemma overlay_some buf off data : 0 <= off -> off + alen data <= alen buf -> exists b, overlay buf off data = Some b /\ alen b = alen buf /\
  take (Z.to_nat (off + alen data)) b = take (Z.to_nat off) buf ++ data.
Proof.
  intros H0 H. unfold overlay. rewrite (proj2 (Z.ltb_ge _ _)) by lia. eexists. split; [done|]. unfold alen in *. split.
  - rewrite !length_app, length_take, length_drop. lia.
  - rewrite app_assoc. apply take_app_length'. rewrite length_app, length_take. lia.
Qed.

Lemma strncpy_some buf s n : 0 <= n <= alen buf -> exists b, strncpy buf s n = Some b /\ alen b = alen buf /\ (alen s <= n -> take (length s) b = s).
Proof.
  intros Hn. unfold strncpy. rewrite (proj2 (Z.ltb_ge _ _)) by lia. set (data := take _ _).
  assert (alen data = n) as Hd by (unfold data, alen; rewrite length_take, length_app, length_replicate; lia).
  destruct (overlay_some buf 0 data) as (b & -> & Hl & Ht); [lia|lia|]. exists b. split; [done|]. split; [done|]. intros Hs.
  rewrite Hd, take_0 in Ht. cbn [app] in Ht. replace (0 + n) with n in Ht by lia.
  transitivity (take (length s) (take (Z.to_nat n) b)); [rewrite take_take; f_equal; unfold alen in Hs; lia|].
  rewrite Ht. unfold data. rewrite take_take. unfold alen in Hs. rewrite Nat.min_l by lia. apply take_app_length.
Qed.

Lemma line_delivers cmd a s : buffer_ok cmd -> encode a = s -> exists cb, reply_line cmd s = Some cb /\ delivers cmd a cb.
Proof.
  intros Hb He. unfold reply_line. destruct (reply_buf cmd) as [buf|] eqn:Hbuf; [|exists cmd; split; [done|]; split; [done|]; split; [done|]; intros b Hb'; by rewrite Hbuf in Hb'].
  pose proof (Hb buf Hbuf) as Hr. rewrite (wrap_small 64) by (unfold in_u; lia). destruct (strncpy_some buf s (alen buf - 1)) as (b & -> & Hl & Ht); [lia|].
  eexists. split; [done|]. split; [done|]. split; [done|]. intros b0 Hb0 _ Hlt. rewrite Hbuf in Hb0. injection Hb0 as <-. exists b. split; [done|].
  cbn [with_reply reply_len]. rewrite He in *. unfold alen. rewrite Nat2Z.id. apply Ht. lia.
Qed.

Lemma bulk_delivers cmd v : buffer_ok cmd -> exists cb, reply_bulk cmd v = Some cb /\ delivers cmd (Bulk v) cb.
Proof.
  intros Hb. unfold reply_bulk. destruct (reply_buf cmd) as [buf|] eqn:Hbuf; [|exists cmd; split; [done|]; split; [done|]; split; [done|]; intros b Hb'; by rewrite Hbuf in Hb'].
  pose proof (Hb buf Hbuf) as Hr. set (s := 36 :: decimal (u32 (alen v)) ++ CRLF). unfold snprintf. rewrite (proj2 (Z.eqb_neq _ _)) by lia.
  set (data := take _ s ++ [0]). assert (alen data <= alen buf) as Hd by (unfold data, alen in *; rewrite length_app, length_take; cbn [length]; lia).
  destruct (overlay_some buf 0 data) as (b1 & -> & Hl1 & Ht1); [lia|lia|]. rewrite take_0 in Ht1. cbn [app] in Ht1. cbn [mbind option_bind].
  pose proof (alen_nonneg s). pose proof (alen_nonneg v). destruct (Z.leb_spec (alen s + alen v + 2) (alen buf)) as [Hfit|Hfit].
  - destruct (overlay_some b1 (alen s) v) as (b2 & -> & Hl2 & Ht2); [lia|lia|]. cbn [mbind option_bind].
    destruct (overlay_some b2 (alen s + alen v) CRLF) as (b3 & -> & Hl3 & Ht3); [lia|change (alen CRLF) with 2; lia|]. cbn [mbind option_bind].
    eexists. split; [done|]. split; [done|]. split; [done|]. intros b0 Hb0 _ Hlt. exists b3. split; [done|]. cbn [with_reply reply_len].
    change (alen CRLF) with 2 in Ht3. rewrite Ht3, Ht2. assert (take (Z.to_nat (alen s)) b1 = s) as ->.
    { transitivity (take (Z.to_nat (alen s)) (take (Z.to_nat (0 + alen data)) b1)); [rewrite take_take; f_equal; unfold data, alen in *; rewrite length_app, length_take; cbn [length]; lia|].
      rewrite Ht1. unfold data. rewrite take_app_le by (rewrite length_take; unfold alen in *; lia). rewrite take_take. apply firstn_all2. unfold alen in *. lia. }
    cbn [encode]. unfold s. rewrite wrap_small by (unfold in_u; unfold alen in *; lia). cbn [app]. by rewrite <- !app_assoc.
  - eexists. split; [done|]. split; [done|]. split; [done|]. intros b0 Hb0 _ Hlt. exfalso. rewrite Hbuf in Hb0. injection Hb0 as <-.
    assert (alen v < 2 ^ 32) as Hv by (cbn [encode] in Hlt; rewrite alen_cons, !alen_app in Hlt; pose proof (alen_nonneg (decimal (alen v))); change (alen CRLF) with 2 in Hlt; lia).
    cbn [encode] in Hlt. unfold s in Hfit. rewrite wrap_small in Hfit by (unfold in_u; lia). rewrite !alen_cons, !alen_app in *. change (alen CRLF) with 2 in *. lia.
Qed.

Lemma reply_delivers cmd a : buffer_ok cmd -> exists cb, reply cmd a = Some cb /\ delivers cmd a cb.
Proof.
  intros Hb. destruct a; cbn [reply]; try (apply line_delivers; done); [|by apply bulk_delivers]. exists cmd. split; [done|]. by split_and!.
Qed.

(** ** One step of a worker *)
Section refinement.
Context {B1 B2 : Type} {api1 : NexStorageAPI B1} {api2 : NexStorageAPI B2}.
Context {inv1 : B1 -> Prop} {inv2 : B2 -> Prop} {view1 : Z -> B1 -> gmap bytes NexValue} {view2 : Z -> B2 -> gmap bytes NexValue}.
Context {live1 live2 : Z -> NexValue -> bool} {key_ok : bytes -> Prop}.
Context {ready1 : Ctx -> B1 -> bytes -> Z -> Z -> Prop} {ready2 : Ctx -> B2 -> bytes -> Z -> Z -> Prop} {limit : Z}.
Context `{!StoreLaws api1 inv1 view1 live1 key_ok ready1 limit, !StoreLaws api2 inv2 view2 live2 key_ok ready2 limit}.
Context `{!StoreKeeps api1 inv1 view1 key_ok ready1, !StoreKeeps api2 inv2 view2 key_ok ready2}.

(** A store without expiries holds these bytes. *)
Definition keeps {B} (inv : B -> Prop) (view : Z -> B -> gmap bytes NexValue) (b : B) (m : gmap bytes bytes) : Prop :=
  inv b /\ exists vs, (forall now, view now b = vs) /\ m = v_data <$> vs.

Definition holds (ns : NexStorage B1 B2) (st : gmap bytes bytes * gmap bytes bytes) : Prop :=
  keeps inv1 view1 (main_backend ns) st.1 /\ keeps inv2 view2 (object_backend ns) st.2.

Lemma get_keeps {B} {api : NexStorageAPI B} {inv view live ready} `{!StoreLaws api inv view live key_ok ready limit, !StoreKeeps api inv view key_ok ready}
  c b k b' r out m : keeps inv view b m -> key_ok k -> api_get api c b k = (b', r, out) ->
  keeps inv view b' m /\ (if bool_decide (r = NEXS_OK) then fits limit (m !! k) = Some (entry_bytes out) else fits limit (m !! k) = None).
Proof.
  intros (Hi & vs & Hv & ->) Hk E. pose proof (keep_get c b k b' r out vs Hi Hk Hv E) as Hv'. apply law_get in E as (Hi' & _ & Ha); [|done..].
  split; [by split; [|exists vs]|]. rewrite Hv in Ha. unfold read_answer in Ha. rewrite lookup_fmap. destruct (vs !! k) as [v|]; cbn.
  - destruct (alen (v_data v) <=? limit); destruct Ha as [-> ->]; [by rewrite bool_decide_eq_true_2|by rewrite bool_decide_eq_false_2].
  - destruct Ha as [-> _]. by rewrite bool_decide_eq_false_2.
Qed.

Lemma del_keeps {B} {api : NexStorageAPI B} {inv view live ready} `{!StoreLaws api inv view live key_ok ready limit}
  c b k b' r m : keeps inv view b m -> key_ok k -> api_del api c b k = (b', r) ->
  keeps inv view b' (delete k m) /\ bool_decide (r = NEXS_OK) = bool_decide (is_Some (m !! k)).
Proof.
  intros (Hi & vs & Hv & ->) Hk E. apply law_del in E as (Hi' & Hv' & Hr); [|done..]. split.
  - split; [done|]. exists (delete k vs). split; [intros now; by rewrite Hv', Hv|by rewrite fmap_delete].
  - apply bool_decide_ext. rewrite lookup_fmap, fmap_is_Some. destruct Hr as [[-> [now Hs]]|[-> Hn]].
    + rewrite Hv in Hs. done.
    + specialize (Hn 0). rewrite Hv in Hn. rewrite Hn. split; [done|by intros []].
Qed.

Lemma set_keeps c ns k v ns' r st : holds ns st -> key_ok k -> ready1 c (main_backend ns) k NEXDT_STRING (- 1) ->
  nexstorage_set api1 api2 c ns k v NEXDT_STRING (- 1) = (ns', r) ->
  holds ns' (if bool_decide (r = NEXS_OK) then (<[k := v]> st.1, st.2) else st).
Proof.
  intros [(Hi & vs & Hv & Hst) Ho] Hk Hr. unfold nexstorage_set. cbn [Z.eqb NEXDT_STRING]. destruct (api_set api1 _ _ _ _ _ _) as [b1 r1] eqn:E. intros [= <- <-].
  pose proof (keep_set c _ k v _ _ b1 r1 vs Hi Hk Hr ltac:(lia) Hv E) as Hv'. apply law_set in E as [Hi' _]; [|done..].
  case_bool_decide; (split; [|exact Ho]); (split; [done|]); eexists; (split; [exact Hv'|]); [by rewrite fmap_insert, <- Hst|done].
Qed.

(** What has been taken or is queued and has not run; what has run and waits
    for its callback. *)
Definition pending (w : NexWorker) : list NexCmd :=
  match pc w with Execute cmd | InObject cmd => cmd :: cmd_queue w | _ => cmd_queue w end.
Definition finishing (w : NexWorker) : list NexCmd := match pc w with Finish cmd => [cmd] | _ => [] end.

(** Half way the main store has not answered. *)
Definition half (st : gmap bytes bytes * gmap bytes bytes) (w : NexWorker) : Prop :=
  match pc w with
  | InObject cmd =>
      match type cmd, argv cmd with
      | NEX_CMD_GET, _ :: k :: _ => fits limit (st.1 !! cut32 k) = None
      | NEX_CMD_DEL, _ :: k :: _ => st.1 !! cut32 k = None
      | _, _ => False
      end
  | _ => True
  end.

Definition cmd_fine (cmd : NexCmd) : Prop := (forall k, key_of cmd = Some k -> key_ok (cut32 k) /\ alen k < 2 ^ 32) /\ buffer_ok cmd.

(** What a SET needs of the allocator. *)
Definition work_ready (c : Ctx) (ns : NexStorage B1 B2) (w : NexWorker) : Prop :=
  match pc w with
  | Execute cmd => match type cmd, argv cmd with NEX_CMD_SET, _ :: k :: _ :: _ => ready1 c (main_backend ns) (cut32 k) NEXDT_STRING (- 1) | _, _ => True end
  | _ => True
  end.

Definition is_shutdown (cmd : NexCmd) : bool := match type cmd with NEX_CMD_SHUTDOWN => true | _ => false end.

Inductive outcome (st : gmap bytes bytes * gmap bytes bytes) (w : NexWorker) : gmap bytes bytes * gmap bytes bytes -> NexWorker -> list Event -> Prop :=
  | out_silent w' : pending w' = pending w -> finishing w' = finishing w -> outcome st w st w' []
  | out_ran st' w' cmd a cb : machine_step limit st cmd a = Some st' -> pending w = cmd :: pending w' -> finishing w = [] ->
      is_shutdown cmd = false -> delivers cmd a cb -> finishing w' = [cb] -> outcome st w st' w' [Ran cmd a]
  | out_shutdown st' w' cmd a : machine_step limit st cmd a = Some st' -> pending w = cmd :: pending w' -> finishing w = [] ->
      is_shutdown cmd = true -> finishing w' = [] -> outcome st w st' w' [Ran cmd a]
  | out_callback w' cmd : pending w' = pending w -> finishing w = [cmd] -> finishing w' = [] -> outcome st w st w' [Callback cmd].

Definition step_fine (st : gmap bytes bytes * gmap bytes bytes) (w : NexWorker) (x : option (NexStorage B1 B2 * NexWorker * list Event)) : Prop :=
  exists ns' w' evs st', x = Some (ns', w', evs) /\ holds ns' st' /\ outcome st w st' w' evs /\ half st' w'.

(** The end of every command but SHUTDOWN. *)
Lemma finish_fine ns' st st' w w0 cmd a : buffer_ok cmd -> is_shutdown cmd = false -> pending w = cmd :: cmd_queue w -> finishing w = [] ->
  cmd_queue w0 = cmd_queue w -> holds ns' st' -> machine_step limit st cmd a = Some st' ->
  step_fine st w ('(w, ev) ← finish w0 cmd a; Some (ns', w, ev)).
Proof.
  intros Hb Hsd Hp Hf Hq Hh Hm. destruct (reply_delivers cmd a Hb) as (cb & Hr & Hd). unfold finish. rewrite Hr. cbn [mbind option_bind].
  exists ns', (set_pc w0 (Finish cb)), [Ran cmd a], st'. split; [done|]. split; [done|]. split; [|done].
  by apply (out_ran _ _ _ _ cmd a cb); [|rewrite Hp; unfold pending; cbn; by rewrite Hq|..].
Qed.

(** Commands that do not reach the storage. *)
Lemma no_key_fine ns w st cmd a : holds ns st -> buffer_ok cmd -> is_shutdown cmd = false -> pending w = cmd :: cmd_queue w -> finishing w = [] ->
  machine_step limit st cmd a = Some st -> step_fine st w ('(w, ev) ← finish w cmd a; Some (ns, w, ev)).
Proof. intros. by apply finish_fine with st. Qed.

Lemma run_get_fine c ns w st cmd k x rest : type cmd = NEX_CMD_GET -> argv cmd = x :: k :: rest -> holds ns st -> cmd_fine cmd ->
  pending w = cmd :: cmd_queue w -> finishing w = [] ->
  step_fine st w (let '(b1, r, out) := api_get api1 c (main_backend ns) (cut32 k) in
    let ns := mkStorage b1 (object_backend ns) in
    if bool_decide (r = NEXS_OK) then '(w, ev) ← finish (hit w) cmd (Bulk (entry_bytes out)); Some (ns, w, ev)
    else Some (ns, set_pc w (InObject cmd), [])).
Proof.
  intros Ht Ha [H1 H2] [Hkey Hb] Hp Hf. unfold key_of in Hkey. rewrite Ht, Ha in Hkey. destruct (Hkey k eq_refl) as [Hk _].
  destruct (api_get _ _ _ _) as [[b1 r] out] eqn:E. apply (get_keeps c _ _ _ _ _ _ H1 Hk) in E as [H1' Hout]. case_bool_decide.
  - apply finish_fine with st; try done; [by unfold is_shutdown; rewrite Ht|]. unfold machine_step. rewrite Ht, Ha. unfold seen. rewrite Hout. by rewrite decide_True.
  - eexists _, _, _, st. split; [done|]. split; [by split|]. split; [apply out_silent|].
    + by rewrite Hp.
    + by rewrite Hf.
    + unfold half. cbn. by rewrite Ht, Ha.
Qed.

Lemma run_del_fine c ns w st cmd k x rest : type cmd = NEX_CMD_DEL -> argv cmd = x :: k :: rest -> holds ns st -> cmd_fine cmd ->
  pending w = cmd :: cmd_queue w -> finishing w = [] ->
  step_fine st w (let '(b1, r) := api_del api1 c (main_backend ns) (cut32 k) in
    let ns := mkStorage b1 (object_backend ns) in
    if bool_decide (r = NEXS_OK) then '(w, ev) ← finish w cmd (Deleted true); Some (ns, w, ev)
    else Some (ns, set_pc w (InObject cmd), [])).
Proof.
  intros Ht Ha [H1 H2] [Hkey Hb] Hp Hf. unfold key_of in Hkey. rewrite Ht, Ha in Hkey. destruct (Hkey k eq_refl) as [Hk _].
  destruct (api_del _ _ _ _) as [b1 r] eqn:E. apply (del_keeps c _ _ _ _ _ H1 Hk) in E as [H1' Hr]. rewrite Hr. clear Hr. case_bool_decide as Hs.
  - apply finish_fine with (delete (cut32 k) st.1, st.2); try done; [by unfold is_shutdown; rewrite Ht|]. unfold machine_step. rewrite Ht, Ha.
    by rewrite !decide_True.
  - apply eq_None_not_Some in Hs. rewrite delete_id in H1' by done. eexists _, _, _, st. split; [done|]. split; [by split|]. split; [apply out_silent|].
    + by rewrite Hp.
    + by rewrite Hf.
    + unfold half. cbn. by rewrite Ht, Ha.
Qed.

Lemma run_set_fine c ns w st cmd k v x rest : type cmd = NEX_CMD_SET -> argv cmd = x :: k :: v :: rest -> holds ns st -> cmd_fine cmd ->
  ready1 c (main_backend ns) (cut32 k) NEXDT_STRING (- 1) -> pending w = cmd :: cmd_queue w -> finishing w = [] ->
  step_fine st w (let '(ns, r) := nexstorage_set api1 api2 c ns (cut32 k) (cut32 v) NEXDT_STRING (- 1) in
    '(w, ev) ← finish w cmd (if bool_decide (r = NEXS_OK) then Stored else StorageError); Some (ns, w, ev)).
Proof.
  intros Ht Ha Hh [Hkey Hb] Hr Hp Hf. unfold key_of in Hkey. rewrite Ht, Ha in Hkey. destruct (Hkey k eq_refl) as [Hk _].
  destruct (nexstorage_set _ _ _ _ _ _ _ _) as [ns' r] eqn:E. apply (set_keeps c _ _ _ _ _ _ Hh Hk Hr) in E.
  case_bool_decide; (eapply finish_fine; [done|by unfold is_shutdown; rewrite Ht|done|done|done|exact E|]); unfold machine_step; by rewrite Ht, Ha.
Qed.

Lemma object_get_fine c ns w st cmd k x rest : type cmd = NEX_CMD_GET -> argv cmd = x :: k :: rest -> holds ns st -> cmd_fine cmd ->
  fits limit (st.1 !! cut32 k) = None -> pending w = cmd :: cmd_queue w -> finishing w = [] ->
  step_fine st w (let '(b2, r, out) := api_get api2 c (object_backend ns) (cut32 k) in
    let ns := mkStorage (main_backend ns) b2 in
    if bool_decide (r = NEXS_OK) then '(w, ev) ← finish (hit w) cmd (Bulk (entry_bytes out)); Some (ns, w, ev)
    else '(w, ev) ← finish (miss w) cmd Nil; Some (ns, w, ev)).
Proof.
  intros Ht Ha [H1 H2] [Hkey Hb] Hhalf Hp Hf. unfold key_of in Hkey. rewrite Ht, Ha in Hkey. destruct (Hkey k eq_refl) as [Hk _].
  destruct (api_get _ _ _ _) as [[b2 r] out] eqn:E. apply (get_keeps c _ _ _ _ _ _ H2 Hk) in E as [H2' Hout].
  case_bool_decide; (apply finish_fine with st; try done; [by unfold is_shutdown; rewrite Ht|]); unfold machine_step; rewrite Ht, Ha; unfold seen;
    by rewrite Hhalf, Hout, decide_True.
Qed.

Lemma object_del_fine c ns w st cmd k x rest : type cmd = NEX_CMD_DEL -> argv cmd = x :: k :: rest -> holds ns st -> cmd_fine cmd ->
  st.1 !! cut32 k = None -> pending w = cmd :: cmd_queue w -> finishing w = [] ->
  step_fine st w (let '(b2, r) := api_del api2 c (object_backend ns) (cut32 k) in
    let ns := mkStorage (main_backend ns) b2 in
    '(w, ev) ← finish w cmd (Deleted (bool_decide (r = NEXS_OK))); Some (ns, w, ev)).
Proof.
  intros Ht Ha [H1 H2] [Hkey Hb] Hhalf Hp Hf. unfold key_of in Hkey. rewrite Ht, Ha in Hkey. destruct (Hkey k eq_refl) as [Hk _].
  destruct (api_del _ _ _ _) as [b2 r] eqn:E. apply (del_keeps c _ _ _ _ _ H2 Hk) in E as [H2' Hr]. rewrite Hr.
  apply finish_fine with (st.1, delete (cut32 k) st.2); try done; [by unfold is_shutdown; rewrite Ht|]. unfold machine_step. rewrite Ht, Ha.
  rewrite decide_False by (rewrite Hhalf; apply is_Some_None). by rewrite decide_True.
Qed.

Lemma worker_step_fine c ns w st : holds ns st -> Forall cmd_fine (pending w) -> work_ready c ns w -> half st w -> step_fine st w (worker_step api1 api2 c ns w).
Proof.
  intros Hh Hfine Hr Hhalf. unfold worker_step. destruct (pc w) as [|cmd|cmd|cmd|] eqn:Hpc.
  - destruct (running w); [destruct (cmd_queue w) as [|cmd q] eqn:Hq|]; eexists _, _, _, st; (split; [done|]); (split; [done|]); (split; [|done || by unfold half; rewrite ?Hpc]);
      apply out_silent; unfold pending, finishing; cbn; by rewrite ?Hpc, ?Hq.
  - assert (pending w = cmd :: cmd_queue w /\ finishing w = []) as [Hp Hf] by (unfold pending, finishing; by rewrite Hpc).
    rewrite Hp in Hfine. apply Forall_cons in Hfine as [Hcmd _]. pose proof Hcmd as [_ Hb]. unfold work_ready in Hr. rewrite Hpc in Hr.
    destruct (type cmd) eqn:Ht, (argv cmd) as [|x [|k [|v rest]]] eqn:Ha;
      try (eapply no_key_fine; try done; [by unfold is_shutdown; rewrite Ht|unfold machine_step; rewrite Ht, ?Ha; by rewrite decide_True]);
      try (eapply run_get_fine; done); try (eapply run_del_fine; done); try (eapply run_set_fine; done);
      (eexists _, _, _, st; split; [done|]; split; [done|]; split; [|done]; apply out_shutdown; try done;
       [unfold machine_step; rewrite Ht, ?Ha; by rewrite decide_True|by unfold is_shutdown; rewrite Ht]).
  - assert (pending w = cmd :: cmd_queue w /\ finishing w = []) as [Hp Hf] by (unfold pending, finishing; by rewrite Hpc).
    rewrite Hp in Hfine. apply Forall_cons in Hfine as [Hcmd _]. unfold half in Hhalf. rewrite Hpc in Hhalf.
    destruct (type cmd) eqn:Ht, (argv cmd) as [|x [|k rest]] eqn:Ha; try done; [by eapply object_get_fine|by eapply object_del_fine].
  - eexists _, _, _, st. split; [done|]. split; [done|]. split; [|done]. apply out_callback; unfold pending, finishing; by rewrite ?Hpc.
  - eexists _, _, _, st. split; [done|]. split; [done|]. split; [by apply out_silent|]. unfold half. by rewrite Hpc.
Qed.

(** ** Runs of the engine *)
Definition sent (i : Z) (tr : list (Z * Event)) : list NexCmd :=
  omap (fun x => match x with (j, Sent cmd) => if j =? i then Some cmd else None | _ => None end) tr.
Definition ran (i : Z) (tr : list (Z * Event)) : list (NexCmd * answer) :=
  omap (fun x => match x with (j, Ran cmd a) => if j =? i then Some (cmd, a) else None | _ => None end) tr.
Definition ran_all (tr : list (Z * Event)) : list (NexCmd * answer) :=
  omap (fun x => match x with (_, Ran cmd a) => Some (cmd, a) | _ => None end) tr.
Definition callbacks (i : Z) (tr : list (Z * Event)) : list NexCmd :=
  omap (fun x => match x with (j, Callback cmd) => if j =? i then Some cmd else None | _ => None end) tr.

(** SHUTDOWN is not answered. *)
Definition to_answer (l : list (NexCmd * answer)) : list (NexCmd * answer) := filter (fun x => is_shutdown x.1 = false) l.

Definition delivered (l : list (NexCmd * answer)) (cbs : list NexCmd) : Prop := Forall2 (fun x cb => delivers x.1 x.2 cb) l cbs.

Definition worker_of (n : Z) (i : Z) (cmd : NexCmd) : Prop := forall k, key_of cmd = Some k -> engine_worker_for_key n k = i.

Record worker_ok (n : Z) (st : gmap bytes bytes * gmap bytes bytes) (tr : list (Z * Event)) (i : Z) (w : NexWorker) : Prop := {
  wk_order : sent i tr = map fst (ran i tr) ++ pending w;
  wk_answers : delivered (to_answer (ran i tr)) (callbacks i tr ++ finishing w);
  wk_fine : Forall cmd_fine (pending w);
  wk_route : Forall (worker_of n i) (pending w);
  wk_half : half st w }.

Record engine_ok (st0 : gmap bytes bytes * gmap bytes bytes) (tr : list (Z * Event)) (e : NexEngine B1 B2) (st : gmap bytes bytes * gmap bytes bytes) : Prop := {
  en_run : machine_run limit st0 (ran_all tr) = Some st;
  en_holds : holds (storage e) st;
  en_workers : forall i, 0 <= i < num_workers e -> worker_ok (num_workers e) st tr i (aget (workers e) i) }.

Definition step_ok (e : NexEngine B1 B2) (s : Step) : Prop :=
  match s with
  | Dispatch cmd key => cmd_fine cmd /\ forall k, key_of cmd = Some k -> k = key
  | Work i c => 0 <= i < num_workers e /\ work_ready c (storage e) (aget (workers e) i)
  | StopWorker i => 0 <= i < num_workers e
  end.

Inductive runs (e0 : NexEngine B1 B2) : list Step -> list (Z * Event) -> NexEngine B1 B2 -> Prop :=
  | runs_start : runs e0 [] [] e0
  | runs_step ss tr e s e' evs : runs e0 ss tr e -> step_ok e s -> engine_step api1 api2 e s = Some (e', evs) -> runs e0 (ss ++ [s]) (tr ++ evs) e'.

Lemma worker_for_key_range n k : 0 < n -> 0 <= engine_worker_for_key n k < n.
Proof. intros Hn. unfold engine_worker_for_key. case_match; [lia|]. apply Z.mod_pos_bound. lia. Qed.

Lemma cut32_small b : alen b < 2 ^ 32 -> cut32 b = b.
Proof. intros H. pose proof (alen_nonneg b). unfold cut32. rewrite wrap_small by (unfold in_u; lia). apply firstn_all2. unfold alen. lia. Qed.

(** Another worker's command has another key. *)
Lemma half_frame n st st' cmd a i j w : machine_step limit st cmd a = Some st' -> i <> j -> cmd_fine cmd -> worker_of n i cmd ->
  Forall cmd_fine (pending w) -> Forall (worker_of n j) (pending w) -> half st w -> half st' w.
Proof.
  intros Hm Hij [Hc _] Hi Hf Hj. unfold half. destruct (pc w) as [| |cmd'| |] eqn:Hpc; try done. unfold pending in Hf, Hj. rewrite Hpc in Hf, Hj.
  apply Forall_cons in Hf as [[Hf _] _]. apply Forall_cons in Hj as [Hj _].
  assert (forall k, key_of cmd' = Some k -> st'.1 !! cut32 k = st.1 !! cut32 k) as Hframe.
  { intros k Hk. apply (machine_frame limit st cmd a); [done|]. intros k' Hk' Heq. destruct (Hc k' Hk') as [_ H1]. destruct (Hf k Hk) as [_ H2].
    rewrite !cut32_small in Heq by done. subst k'. apply Hij. rewrite <- (Hi k Hk'). by apply Hj. }
  unfold key_of in Hframe. destruct (type cmd'), (argv cmd') as [|? [|k ?]]; try done; by rewrite Hframe.
Qed.

Lemma omap_snoc {A B} (f : A -> option B) l x : omap f (l ++ [x]) = omap f l ++ match f x with Some y => [y] | None => [] end.
Proof. rewrite omap_app. f_equal. Qed.

(** What a step of worker [i] leaves of worker [j]. *)
Lemma other_worker n st st' tr i j w evs : worker_ok n st tr j w -> i <> j -> half st' w ->
  (forall x, x ∈ evs -> x.1 = i) -> worker_ok n st' (tr ++ evs) j w.
Proof.
  intros [H1 H2 H3 H4 H5] Hij Hh Hev.
  assert (forall (B : Type) (f : Z * Event -> option B), (forall x, x.1 = i -> f x = None) -> omap f (tr ++ evs) = omap f tr) as Hsame.
  { intros B f Hf. rewrite omap_app. rewrite <- (app_nil_r (omap f tr)) at 2. f_equal. induction evs as [|x evs IH]; [done|]. cbn.
    rewrite Hf by (apply Hev; by left). apply IH. intros y Hy. apply Hev. by right. }
  unfold sent, ran, callbacks in *. split; try done; unfold sent, ran, callbacks; rewrite !Hsame; try done;
    intros [k [c|c a|c]] Hk; cbn in *; try done; subst k; by rewrite (proj2 (Z.eqb_neq _ _) Hij).
Qed.

Lemma sent_app i tr tr' : sent i (tr ++ tr') = sent i tr ++ sent i tr'.
Proof. apply omap_app. Qed.
Lemma ran_app i tr tr' : ran i (tr ++ tr') = ran i tr ++ ran i tr'.
Proof. apply omap_app. Qed.
Lemma callbacks_app i tr tr' : callbacks i (tr ++ tr') = callbacks i tr ++ callbacks i tr'.
Proof. apply omap_app. Qed.
Lemma ran_all_app tr tr' : ran_all (tr ++ tr') = ran_all tr ++ ran_all tr'.
Proof. apply omap_app. Qed.

Lemma to_answer_snoc l x : to_answer (l ++ [x]) = to_answer l ++ (if is_shutdown x.1 then [] else [x]).
Proof. unfold to_answer. rewrite filter_app. f_equal. rewrite filter_cons. cbn. by destruct (is_shutdown x.1). Qed.

(** The worker that moves. *)
Lemma own_worker n st st' tr i w w' evs : worker_ok n st tr i w -> outcome st w st' w' evs -> half st' w' -> worker_ok n st' (tr ++ map (pair i) evs) i w'.
Proof.
  intros [H1 H2 H3 H4 H5] Ho Hh. destruct Ho as [w' Hp Hf|st' w' cmd a cb Hm Hp Hf Hsd Hd Hf'|st' w' cmd a Hm Hp Hf Hsd Hf'|w' cmd Hp Hf Hf'].
  - cbn. rewrite app_nil_r. split; try done; by rewrite ?Hp, ?Hf.
  - rewrite Hp in H1, H3, H4. rewrite Hf, app_nil_r in H2. apply Forall_cons in H3 as [_ H3]. apply Forall_cons in H4 as [_ H4]. split; try done.
    + rewrite sent_app, ran_app, H1. cbn. rewrite Z.eqb_refl, map_app, app_nil_r, <- app_assoc. done.
    + rewrite ran_app, callbacks_app. cbn. rewrite Z.eqb_refl, app_nil_r, to_answer_snoc. cbn. rewrite Hsd, Hf'. by apply Forall2_app; [|constructor].
  - rewrite Hp in H1, H3, H4. rewrite Hf, app_nil_r in H2. apply Forall_cons in H3 as [_ H3]. apply Forall_cons in H4 as [_ H4]. split; try done.
    + rewrite sent_app, ran_app, H1. cbn. rewrite Z.eqb_refl, map_app, app_nil_r, <- app_assoc. done.
    + rewrite ran_app, callbacks_app. cbn. rewrite Z.eqb_refl, !app_nil_r, to_answer_snoc. cbn. by rewrite Hsd, Hf', !app_nil_r.
  - split; try (by rewrite ?Hp).
    + rewrite sent_app, ran_app. cbn. by rewrite !app_nil_r, Hp.
    + rewrite ran_app, callbacks_app. cbn. rewrite Z.eqb_refl, Hf', !app_nil_r. by rewrite Hf in H2.
Qed.

Lemma outcome_frame n st w st' w' evs i j wj : outcome st w st' w' evs -> i <> j -> Forall cmd_fine (pending w) -> Forall (worker_of n i) (pending w) ->
  Forall cmd_fine (pending wj) -> Forall (worker_of n j) (pending wj) -> half st wj -> half st' wj.
Proof.
  intros Ho Hij Hf Hr Hfj Hrj Hh. destruct Ho as [| ? ? cmd a ? Hm Hp| ? ? cmd a Hm Hp|]; try done;
    rewrite Hp in Hf, Hr; apply Forall_cons in Hf as [Hf _]; apply Forall_cons in Hr as [Hr _]; by eapply (half_frame n st st' cmd a i j).
Qed.

Lemma outcome_run st0 tr st w st' w' evs i : outcome st w st' w' evs -> machine_run limit st0 (ran_all tr) = Some st ->
  machine_run limit st0 (ran_all (tr ++ map (pair i) evs)) = Some st'.
Proof.
  intros Ho Hr. rewrite ran_all_app. destruct Ho as [| ? ? cmd a ? Hm| ? ? cmd a Hm|]; cbn; rewrite ?app_nil_r; try done; rewrite machine_run_snoc, Hr; done.
Qed.

Lemma work_ok st0 tr e st i c : engine_ok st0 tr e st -> step_ok e (Work i c) ->
  exists e' evs st', engine_step api1 api2 e (Work i c) = Some (e', evs) /\ engine_ok st0 (tr ++ evs) e' st' /\ num_workers e' = num_workers e.
Proof.
  intros [Hrun Hh Hw] [Hi Hready]. pose proof (Hw i Hi) as Hwi. pose proof Hwi as [_ _ Hf Hr Hhalf].
  destruct (worker_step_fine c (storage e) (aget (workers e) i) st Hh Hf Hready Hhalf) as (ns' & w' & evs & st' & E & Hh' & Ho & Hhalf').
  cbn [engine_step]. rewrite E. cbn [mbind option_bind]. eexists _, _, st'. split; [done|].
  assert (num_workers (mkEngine (aset (workers e) i w') (total_commands e) ns') = num_workers e) as Hn by (unfold num_workers; cbn; by rewrite alen_aset).
  split; [|exact Hn]. split; [by eapply outcome_run|exact Hh'|]. rewrite Hn. intros j Hj. cbn [workers]. destruct (Z.eq_dec i j) as [<-|Hij].
  - rewrite aget_aset_eq by done. by eapply own_worker.
  - rewrite aget_aset_ne by lia. pose proof (Hw j Hj) as Hwj. pose proof Hwj as [_ _ Hfj Hrj Hhj]. apply (other_worker _ st _ _ i); [done|done| |].
    + by eapply (outcome_frame (num_workers e) st _ _ _ _ i j).
    + intros x (ev & -> & _)%list_elem_of_fmap. done.
Qed.

(** A worker that has been given a command, or told to stop. *)
Lemma queue_ok n st tr i w cmd : worker_ok n st tr i w -> cmd_fine cmd -> worker_of n i cmd ->
  worker_ok n st (tr ++ [(i, Sent cmd)]) i (set_queue w (cmd_queue w ++ [cmd])).
Proof.
  intros [H1 H2 H3 H4 H5] Hc Hr. assert (pending (set_queue w (cmd_queue w ++ [cmd])) = pending w ++ [cmd]) as Hp by (unfold pending; cbn; by destruct (pc w)).
  split; [|by rewrite ran_app, callbacks_app; cbn; rewrite !app_nil_r|by rewrite Hp; apply Forall_app; split; [|constructor]..|done].
  rewrite sent_app, ran_app, Hp, H1. cbn. by rewrite Z.eqb_refl, app_nil_r, app_assoc.
Qed.

Lemma dispatch_ok st0 tr e st cmd key : 0 < num_workers e -> engine_ok st0 tr e st -> step_ok e (Dispatch cmd key) ->
  let '(e', evs) := engine_dispatch_cmd e cmd key in engine_ok st0 (tr ++ evs) e' st /\ num_workers e' = num_workers e.
Proof.
  intros Hn [Hrun Hh Hw] [Hc Hkey]. unfold engine_dispatch_cmd. set (i := engine_worker_for_key _ _). pose proof (worker_for_key_range (num_workers e) key Hn) as Hi.
  fold i in Hi. set (w' := set_queue _ _). assert (num_workers (mkEngine (aset (workers e) i w') (total_commands e +64 1) (storage e)) = num_workers e) as Hn' by (unfold num_workers; cbn; by rewrite alen_aset).
  split; [|exact Hn']. split; [by rewrite ran_all_app; cbn; rewrite app_nil_r|exact Hh|]. rewrite Hn'. intros j Hj. cbn [workers]. destruct (Z.eq_dec i j) as [<-|Hij].
  - rewrite aget_aset_eq by done. apply queue_ok; [by apply Hw|done|]. intros k Hk. by rewrite (Hkey k Hk).
  - rewrite aget_aset_ne by lia. apply (other_worker _ st _ _ i); [by apply Hw|done|apply (Hw j Hj)|]. intros x ->%list_elem_of_singleton. done.
Qed.

Lemma stop_ok st0 tr e st i : 0 <= i < num_workers e -> engine_ok st0 tr e st -> engine_ok st0 tr (set_worker e i (set_running (aget (workers e) i) false)) st.
Proof.
  intros Hi [Hrun Hh Hw]. split; [done|done|]. intros j Hj. assert (num_workers (set_worker e i (set_running (aget (workers e) i) false)) = num_workers e) as Hn by (unfold num_workers; cbn; by rewrite alen_aset).
  rewrite Hn in *. cbn [set_worker workers]. destruct (Z.eq_dec i j) as [<-|Hij]; [rewrite aget_aset_eq by done|rewrite aget_aset_ne by lia; by apply Hw].
  by destruct (Hw i Hi) as [? ? ? ? ?].
Qed.

Lemma step_preserves st0 tr e st s e' evs : 0 < num_workers e -> engine_ok st0 tr e st -> step_ok e s -> engine_step api1 api2 e s = Some (e', evs) ->
  num_workers e' = num_workers e /\ exists st', engine_ok st0 (tr ++ evs) e' st'.
Proof.
  intros Hn Hok Hs E. destruct s as [cmd key|i c|i].
  - pose proof (dispatch_ok st0 tr e st cmd key Hn Hok Hs) as H. assert (engine_dispatch_cmd e cmd key = (e', evs)) as E' by (cbn [engine_step] in E; congruence).
    rewrite E' in H. destruct H as [H1 H2]. eauto.
  - destruct (work_ok st0 tr e st i c Hok Hs) as (e1 & evs1 & st' & E' & Hok' & Hn1). rewrite E in E'. injection E' as <- <-. eauto.
  - cbn in E. injection E as <- <-. rewrite app_nil_r. split; [unfold num_workers; cbn; by rewrite alen_aset|]. exists st. by apply stop_ok.
Qed.

Lemma runs_ok st0 tr0 e0 st ss tr e : 0 < num_workers e0 -> engine_ok st0 tr0 e0 st -> runs e0 ss tr e ->
  num_workers e = num_workers e0 /\ exists st', engine_ok st0 (tr0 ++ tr) e st'.
Proof.
  intros Hn H0 Hr. induction Hr as [|ss tr e s e' evs _ [Hn' [st1 Hok]] Hs E]; [rewrite app_nil_r; eauto|]. rewrite <- Hn' in Hn.
  rewrite app_assoc. destruct (step_preserves st0 _ e st1 s e' evs Hn Hok Hs E) as [Hn1 He']. split; [congruence|done].
Qed.

Lemma runs_routed e0 ss tr e : 0 < num_workers e0 -> runs e0 ss tr e ->
  num_workers e = num_workers e0 /\ forall i cmd k, (i, Sent cmd) ∈ tr -> key_of cmd = Some k -> engine_worker_for_key (num_workers e0) k = i.
Proof.
  intros Hn Hr. induction Hr as [|ss tr e s e' evs _ [Hn' IH] Hs E]; [split; [done|]; by intros i cmd k H%not_elem_of_nil|].
  assert (num_workers e' = num_workers e0 /\ forall i cmd k, (i, Sent cmd) ∈ evs -> key_of cmd = Some k -> engine_worker_for_key (num_workers e0) k = i) as [H1 H2].
  { destruct s as [cmd key|i c|i]; cbn in E.
    - injection E as <- <-. split; [unfold num_workers in *; cbn; by rewrite alen_aset|]. intros i cmd' k Hin%list_elem_of_singleton Hk. injection Hin as -> ->.
      rewrite <- Hn'. destruct Hs as [_ Hs]. by rewrite (Hs k Hk).
    - destruct (worker_step _ _ _ _ _) as [[[ns w] evs']|] eqn:Ew; [|done]. injection E as <- <-. split; [unfold num_workers in *; cbn; by rewrite alen_aset|].
      intros j cmd k (ev & [= -> <-] & Hev)%list_elem_of_fmap. exfalso. clear - Ew Hev. unfold worker_step, finish in Ew.
      repeat (case_match; simplify_option_eq); set_solver.
    - injection E as <- <-. split; [unfold num_workers in *; cbn; by rewrite alen_aset|]. by intros i' cmd k Hin%not_elem_of_nil. }
  split; [done|]. intros i cmd k [Hin|Hin]%elem_of_app; eauto.
Qed.

(** ** Progress *)

(** The turns a worker needs until its first [k] commands have been called back. *)
Definition rank (k : nat) (w : NexWorker) : nat :=
  match pc w with AtLoop => 4 * k | Execute _ => 4 * k - 1 | InObject _ => 4 * k - 2 | Finish _ => 1 + 4 * k | Stopped => 0 end.

Definition is_ran (ev : Event) : bool := match ev with Ran _ _ => true | _ => false end.
Definition is_callback (ev : Event) : bool := match ev with Callback _ => true | _ => false end.
Definition count (p : Event -> bool) (evs : list Event) : nat := length (List.filter p evs).

(** Something is left of the first [k] commands. *)
Definition unfinished (k : nat) (w : NexWorker) : Prop := (1 <= k)%nat \/ finishing w <> [].

(** What executing does to the worker. *)
Lemma worker_step_inv c (ns : NexStorage B1 B2) w ns' w' evs cmd : worker_step api1 api2 c ns w = Some (ns', w', evs) -> running w' = true ->
  pc w = Execute cmd \/ pc w = InObject cmd -> running w = true /\ cmd_queue w' = cmd_queue w /\
  ((exists cb a, pc w' = Finish cb /\ evs = [Ran cmd a]) \/ (pc w = Execute cmd /\ pc w' = InObject cmd /\ evs = [])).
Proof.
  unfold worker_step, finish. intros E Hr [Hpc|Hpc]; rewrite Hpc in E; repeat (case_match; simplify_option_eq);
    (split; [done|]); (split; [done|]); first [left; by eexists _, _ | by right].
Qed.

Lemma worker_step_running c (ns : NexStorage B1 B2) w ns' w' evs : worker_step api1 api2 c ns w = Some (ns', w', evs) -> running w' = true -> running w = true.
Proof.
  intros E Hr. destruct (pc w) as [|cmd|cmd|cmd|] eqn:Hpc.
  2: by destruct (worker_step_inv c ns w ns' w' evs cmd E Hr ltac:(by left)). 2: by destruct (worker_step_inv c ns w ns' w' evs cmd E Hr ltac:(by right)).
  all: unfold worker_step in E; rewrite Hpc in E; repeat case_match; simplify_eq; cbn in Hr; congruence.
Qed.

Lemma worker_step_rank c (ns : NexStorage B1 B2) w ns' w' evs k : worker_step api1 api2 c ns w = Some (ns', w', evs) -> running w' = true ->
  pc w <> Stopped -> (k <= length (pending w))%nat ->
  running w = true /\ pc w' <> Stopped /\ length (pending w) = (count is_ran evs + length (pending w'))%nat /\
  (length (finishing w) + count is_ran evs = count is_callback evs + length (finishing w'))%nat /\
  (unfinished k w -> (rank (k - count is_ran evs) w' + 1 <= rank k w)%nat).
Proof.
  intros E Hr Hns Hk. unfold unfinished. destruct (pc w) as [|cmd|cmd|cmd|] eqn:Hpc.
  - unfold worker_step in E. rewrite Hpc in E. unfold pending, finishing, rank in *. rewrite Hpc in *.
    destruct (running w) eqn:Hrun; [|injection E as <- <- <-; cbn in Hr; by rewrite Hrun in Hr].
    destruct (cmd_queue w) as [|cmd q] eqn:Hq; injection E as <- <- <-; cbn in *; rewrite ?Hpc, ?Hq in *; cbn in *; split_and!; try done; try lia; intros [?|?]; try done; lia.
  - destruct (worker_step_inv _ _ _ _ _ _ cmd E Hr ltac:(by left)) as (Hrun & Hq & [(cb & a & Hpc' & ->)|(_ & Hpc' & ->)]);
      unfold pending, finishing, rank in *; rewrite Hpc, Hpc', Hq in *; cbn in *; split_and!; try done; intros [?|?]; try done; lia.
  - destruct (worker_step_inv _ _ _ _ _ _ cmd E Hr ltac:(by right)) as (Hrun & Hq & [(cb & a & Hpc' & ->)|(H & _)]); [|congruence].
    unfold pending, finishing, rank in *; rewrite Hpc, Hpc', Hq in *; cbn in *; split_and!; try done; intros [?|?]; try done; lia.
  - unfold worker_step in E. rewrite Hpc in E. injection E as <- <- <-. unfold pending, finishing, rank in *. rewrite Hpc in *. cbn in *. split_and!; try done; try lia; intros [?|?]; lia.
  - done.
Qed.

Definition turns (i : Z) (ss : list Step) : nat := length (List.filter (fun s => match s with Work j _ => j =? i | _ => false end) ss).

Lemma length_ran i evs : length (ran i (map (pair i) evs)) = count is_ran evs.
Proof. unfold ran, count. induction evs as [|[c|c a|c] evs IH]; cbn; rewrite ?Z.eqb_refl; cbn; auto. Qed.
Lemma length_callbacks i evs : length (callbacks i (map (pair i) evs)) = count is_callback evs.
Proof. unfold callbacks, count. induction evs as [|[c|c a|c] evs IH]; cbn; rewrite ?Z.eqb_refl; cbn; auto. Qed.

Lemma other_events i j evs : i <> j -> ran j (map (pair i) evs) = [] /\ callbacks j (map (pair i) evs) = [].
Proof. intros Hij. unfold ran, callbacks. induction evs as [|[c|c a|c] evs [IH1 IH2]]; cbn; rewrite ?(proj2 (Z.eqb_neq i j) Hij); auto. Qed.

(** How far worker [i] is with the [k0] commands and the callback it had. *)
Record advance (i : Z) (w : NexWorker) (ss : list Step) (tr : list (Z * Event)) (w' : NexWorker) : Prop := {
  ad_awake : pc w' <> Stopped;
  ad_count : (length (finishing w) + length (ran i tr) = length (callbacks i tr) + length (finishing w'))%nat;
  ad_pending : (length (pending w) - length (ran i tr) <= length (pending w'))%nat;
  ad_rank : (length (finishing w) + length (pending w) <= length (callbacks i tr))%nat \/
            (turns i ss + rank (length (pending w) - length (ran i tr)) w' <= rank (length (pending w)) w)%nat }.

Lemma turns_snoc i ss s : turns i (ss ++ [s]) = (turns i ss + match s with Work j _ => if (j =? i)%Z then 1 else 0 | _ => 0 end)%nat.
Proof. unfold turns. rewrite List.filter_app, length_app. f_equal. cbn. destruct s as [| j c|]; try done. by destruct (j =? i). Qed.

Lemma advance_turn i w ss tr c (ns ns' : NexStorage B1 B2) w1 w2 evs : advance i w ss tr w1 -> worker_step api1 api2 c ns w1 = Some (ns', w2, evs) -> running w2 = true ->
  running w1 = true /\ advance i w (ss ++ [Work i c]) (tr ++ map (pair i) evs) w2.
Proof.
  intros [Ha Hc Hp Hr] E Hrun. destruct (worker_step_rank c ns w1 ns' w2 evs (length (pending w) - length (ran i tr)) E Hrun Ha Hp) as (Hrun1 & Ha2 & Hl & Hb & Hk).
  split; [done|]. split; [done|..]; rewrite ?turns_snoc, ?ran_app, ?callbacks_app, ?length_app, ?length_ran, ?length_callbacks; [lia|lia|]. rewrite Z.eqb_refl.
  destruct (decide (length (finishing w) + length (pending w) <= length (callbacks i tr))%nat) as [Hd|Hd]; [left; lia|]. destruct Hr as [|Hr]; [done|]. right.
  assert (unfinished (length (pending w) - length (ran i tr)) w1) as Hu.
  { unfold unfinished. destruct (decide (finishing w1 = [])) as [Hf|]; [left|by right]. rewrite Hf in Hc. cbn in Hc. lia. }
  specialize (Hk Hu). rewrite Nat.sub_add_distr. lia.
Qed.

Lemma advance_still i w ss tr w1 w2 s evs : advance i w ss tr w1 -> pc w2 = pc w1 -> (length (pending w1) <= length (pending w2))%nat ->
  (match s with Work j _ => j <> i | _ => True end) -> ran i evs = [] -> callbacks i evs = [] -> advance i w (ss ++ [s]) (tr ++ evs) w2.
Proof.
  intros [Ha Hc Hp Hr] Hpc Hl Hs He1 He2. assert (finishing w2 = finishing w1) as Hf by (unfold finishing; by rewrite Hpc).
  assert (forall k, rank k w2 = rank k w1) as Hk by (intros k; unfold rank; by rewrite Hpc).
  assert (match s with Work j _ => if (j =? i)%Z then 1 else 0 | _ => 0 end = 0)%nat as Ht by (destruct s as [|j c|]; try done; by rewrite (proj2 (Z.eqb_neq j i) Hs)).
  split; rewrite ?turns_snoc, ?ran_app, ?callbacks_app, ?He1, ?He2, ?app_nil_r, ?Hk, ?Hf, ?Hpc, ?Ht; try done; try lia.
Qed.

(** A step leaves worker [i] in its place, or is its turn. *)
Lemma step_worker e s e2 evs i : 0 <= i < num_workers e -> step_ok e s -> engine_step api1 api2 e s = Some (e2, evs) ->
  num_workers e2 = num_workers e /\
  ((pc (aget (workers e2) i) = pc (aget (workers e) i) /\ (length (pending (aget (workers e) i)) <= length (pending (aget (workers e2) i)))%nat /\
    (running (aget (workers e2) i) = true -> running (aget (workers e) i) = true) /\
    (match s with Work j _ => j <> i | _ => True end) /\ ran i evs = [] /\ callbacks i evs = []) \/
   exists c ns evs0, s = Work i c /\ worker_step api1 api2 c (storage e) (aget (workers e) i) = Some (ns, aget (workers e2) i, evs0) /\ evs = map (pair i) evs0).
Proof.
  intros Hi Hs E. destruct s as [cmd key|j c|j]; cbn in E.
  - injection E as <- <-. split; [unfold num_workers; cbn; by rewrite alen_aset|]. left. set (j := engine_worker_for_key _ _). cbn [workers].
    pose proof (worker_for_key_range (num_workers e) key ltac:(lia)) as Hj. fold j in Hj. destruct (Z.eq_dec j i) as [->|Hne].
    + rewrite aget_aset_eq by done. split_and!; try done. unfold pending. cbn. destruct (pc _); cbn; rewrite length_app; cbn; lia.
    + rewrite aget_aset_ne by lia. by split_and!.
  - destruct (worker_step _ _ _ _ _) as [[[ns w] evs0]|] eqn:Ew; [|done]. injection E as <- <-. split; [unfold num_workers; cbn; by rewrite alen_aset|]. cbn [workers].
    destruct (Z.eq_dec j i) as [->|Hne]; [right; exists c, ns, evs0; by rewrite aget_aset_eq|left]. destruct Hs as [Hj _]. rewrite aget_aset_ne by lia.
    destruct (other_events j i evs0 Hne) as [-> ->]. by split_and!.
  - injection E as <- <-. split; [unfold num_workers; cbn; by rewrite alen_aset|]. left. cbn [workers set_worker]. destruct (Z.eq_dec j i) as [->|Hne].
    + rewrite aget_aset_eq by done. by split_and!.
    + cbn in Hs. rewrite aget_aset_ne by lia. by split_and!.
Qed.

Lemma runs_advance e ss tr e' i : 0 <= i < num_workers e -> pc (aget (workers e) i) <> Stopped -> runs e ss tr e' ->
  num_workers e' = num_workers e /\ (running (aget (workers e') i) = true ->
    running (aget (workers e) i) = true /\ advance i (aget (workers e) i) ss tr (aget (workers e') i)).
Proof.
  intros Hi Ha Hr. induction Hr as [|ss tr e1 s e2 evs _ [Hn IH] Hs E].
  { split; [done|]. intros Hrun. split; [done|]. split; [done|cbn; lia|cbn; lia|right; cbn; rewrite Nat.sub_0_r; lia]. }
  rewrite <- Hn in Hi. destruct (step_worker e1 s e2 evs i Hi Hs E) as [Hn2 Hcase]. split; [congruence|]. intros Hrun.
  destruct Hcase as [(Hpc & Hl & Hr1 & Ht & He1 & He2)|(c & ns & evs0 & -> & Ew & ->)].
  - destruct (IH (Hr1 Hrun)) as [H0 Had]. split; [done|]. by apply (advance_still i _ ss tr (aget (workers e1) i)).
  - destruct (running (aget (workers e1) i)) eqn:Hr1.
    + destruct (IH eq_refl) as [H0 Had]. split; [done|]. by destruct (advance_turn i _ ss tr c (storage e1) ns _ _ evs0 Had Ew Hrun).
    + pose proof (worker_step_running c _ _ _ _ _ Ew Hrun). congruence.
Qed.

(** The engine when its threads have been started. *)
Definition started (n : Z) (ns : NexStorage B1 B2) : NexEngine B1 B2 := engine_start (engine_create n ns).

Lemma started_workers n ns : 0 < num_workers (started n ns) <= 16 /\
  forall i, 0 <= i < num_workers (started n ns) -> exists a b, aget (workers (started n ns)) i = mkWorker a b [] AtLoop true 0 0 0.
Proof.
  unfold started, engine_start, engine_create, num_workers, NEX_MAX_WORKERS. cbn [workers]. set (m := if n <=? 0 then 8 else n). set (k := if 16 <? m then 16 else m).
  assert (0 < k <= 16) as Hk by (unfold k, m; repeat case_match; lia). unfold alen. rewrite !length_map, length_seqZ. split; [lia|]. intros i Hi.
  unfold aget. rewrite list_lookup_total_alt. change (@map) with (fun A B f => @fmap list _ A B f). rewrite !list_lookup_fmap, lookup_seqZ_lt by lia. cbn. by eexists _, _.
Qed.

Lemma started_ok n ns st : holds ns st -> engine_ok st [] (started n ns) st.
Proof.
  intros Hh. split; [done|done|]. intros i Hi. destruct (started_workers n ns) as [_ Hw]. destruct (Hw i Hi) as (a & b & ->). by split; try constructor.
Qed.

Lemma runs_running e ss tr e' i : 0 <= i < num_workers e -> runs e ss tr e' ->
  num_workers e' = num_workers e /\ (running (aget (workers e') i) = true -> running (aget (workers e) i) = true).
Proof.
  intros Hi Hr. induction Hr as [|ss tr e1 s e2 evs _ [Hn IH] Hs E]; [done|]. rewrite <- Hn in Hi.
  destruct (step_worker e1 s e2 evs i Hi Hs E) as [Hn2 Hcase]. split; [congruence|]. intros Hrun. apply IH.
  destruct Hcase as [(_ & _ & Hr1 & _)|(c & ns & evs0 & _ & Ew & _)]; [by apply Hr1|by eapply worker_step_running].
Qed.

(** A client that sends one command to an engine of one worker. *)
Definition one_worker (p : Pc) (done : Z) (q : list NexCmd) (n : Z) (ns : NexStorage B1 B2) : NexEngine B1 B2 :=
  mkEngine [mkWorker 0 16384 q p true done 0 0] n ns.

Lemma one_dispatch (ns : NexStorage B1 B2) cmd key : engine_step api1 api2 (started 1 ns) (Dispatch cmd key) = Some (one_worker AtLoop 0 [cmd] 1 ns, [(0, Sent cmd)]).
Proof.
  cbn [engine_step]. unfold engine_dispatch_cmd. change (num_workers (started 1 ns)) with 1. assert (engine_worker_for_key 1 key = 0) as ->; [|reflexivity].
  unfold engine_worker_for_key. case_match; [done|apply Z.mod_1_r].
Qed.

Lemma one_set c ns ns' x k v cmd cb : type cmd = NEX_CMD_SET -> argv cmd = [x; k; v] -> cmd_fine cmd ->
  ready1 c (main_backend ns) (cut32 k) NEXDT_STRING (- 1) ->
  nexstorage_set api1 api2 c ns (cut32 k) (cut32 v) NEXDT_STRING (- 1) = (ns', NEXS_OK) -> reply cmd Stored = Some cb ->
  runs (started 1 ns) [Dispatch cmd k; Work 0 c; Work 0 c; Work 0 c] [(0, Sent cmd); (0, Ran cmd Stored); (0, Callback cb)] (one_worker AtLoop 1 [] 1 ns').
Proof.
  intros Ht Ha Hf Hr E Hcb.
  assert (runs (started 1 ns) [Dispatch cmd k] [(0, Sent cmd)] (one_worker AtLoop 0 [cmd] 1 ns)) as H1.
  { eapply (runs_step _ [] []); [constructor| |apply one_dispatch]. split; [done|]. unfold key_of. rewrite Ht, Ha. by intros ? [= ->]. }
  assert (runs (started 1 ns) [Dispatch cmd k; Work 0 c] [(0, Sent cmd)] (one_worker (Execute cmd) 0 [] 1 ns)) as H2.
  { by eapply (runs_step _ [_] [_] _ _ _ []); [exact H1|..]. }
  assert (runs (started 1 ns) [Dispatch cmd k; Work 0 c; Work 0 c] [(0, Sent cmd); (0, Ran cmd Stored)] (one_worker (Finish cb) 0 [] 1 ns')) as H3.
  { eapply (runs_step _ [_; _] [_] _ _ _ [_]); [exact H2| |].
    - split; [done|]. unfold work_ready. change (aget _ 0) with (mkWorker 0 16384 [] (Execute cmd) true 0 0 0). cbn [pc]. by rewrite Ht, Ha.
    - cbn [engine_step]. change (aget _ 0) with (mkWorker 0 16384 [] (Execute cmd) true 0 0 0). unfold worker_step, one_worker. cbn [pc storage]. rewrite Ht, Ha, E.
      rewrite bool_decide_eq_true_2 by done. unfold finish. by rewrite Hcb. }
  by eapply (runs_step _ [_; _; _] [_; _] _ _ _ [_]); [exact H3|..].
Qed.

(** A command that no worker implements, taken and answered. *)
Lemma one_unknown c ns cmd cb : type cmd = NEX_CMD_TTL -> cmd_fine cmd -> reply cmd Unknown = Some cb ->
  runs (started 1 ns) [Dispatch cmd []] [(0, Sent cmd)] (one_worker AtLoop 0 [cmd] 1 ns) /\
  runs (one_worker AtLoop 0 [cmd] 1 ns) [Work 0 c; Work 0 c; Work 0 c; Work 0 c; Work 0 c] [(0, Ran cmd Unknown); (0, Callback cb)] (one_worker AtLoop 1 [] 1 ns).
Proof.
  intros Ht Hf Hcb. split.
  { eapply (runs_step _ [] []); [constructor| |apply one_dispatch]. split; [done|]. unfold key_of. by rewrite Ht. }
  assert (runs (one_worker AtLoop 0 [cmd] 1 ns) [Work 0 c] [] (one_worker (Execute cmd) 0 [] 1 ns)) as H1 by (by eapply (runs_step _ [] [] _ _ _ []); [constructor|..]).
  assert (runs (one_worker AtLoop 0 [cmd] 1 ns) [Work 0 c; Work 0 c] [(0, Ran cmd Unknown)] (one_worker (Finish cb) 0 [] 1 ns)) as H2.
  { eapply (runs_step _ [_] [] _ _ _ [_]); [exact H1| |].
    - split; [done|]. unfold work_ready. change (aget _ 0) with (mkWorker 0 16384 [] (Execute cmd) true 0 0 0). cbn [pc]. by rewrite Ht.
    - cbn [engine_step]. change (aget _ 0) with (mkWorker 0 16384 [] (Execute cmd) true 0 0 0). unfold worker_step, one_worker. cbn [pc storage]. rewrite Ht. unfold finish. by rewrite Hcb. }
  assert (runs (one_worker AtLoop 0 [cmd] 1 ns) [Work 0 c; Work 0 c; Work 0 c] [(0, Ran cmd Unknown); (0, Callback cb)] (one_worker AtLoop 1 [] 1 ns)) as H3
    by (by eapply (runs_step _ [_; _] [_] _ _ _ [_]); [exact H2|..]).
  assert (runs (one_worker AtLoop 0 [cmd] 1 ns) [Work 0 c; Work 0 c; Work 0 c; Work 0 c] [(0, Ran cmd Unknown); (0, Callback cb)] (one_worker AtLoop 1 [] 1 ns)) as H4
    by (by eapply (runs_step _ [_; _; _] [_; _] _ _ _ []); [exact H3|..]).
  by eapply (runs_step _ [_; _; _; _] [_; _] _ _ _ []); [exact H4|..].
Qed.

(** C14. The engine executes commands as one machine with a map for each
    store.  In every interleaving of dispatches, accesses of the workers and
    stops: the commands that have run, in the order of their deciding access,
    are a run of the sequential machine, which ends in what the stores hold;
    every worker runs the commands sent to it in order and none is lost; each
    callback finds the answer of its command in the buffer, when it fits;
    commands on the same key go to the same worker; and no step that the
    callers allow leaves a reply buffer. *)
Theorem engine_linearizable st0 n ns ss tr e : holds ns st0 -> runs (started n ns) ss tr e ->
  (exists st, machine_run limit st0 (ran_all tr) = Some st /\ holds (storage e) st) /\
  (forall i, 0 <= i < num_workers e -> sent i tr = map fst (ran i tr) ++ pending (aget (workers e) i) /\
     delivered (to_answer (ran i tr)) (callbacks i tr ++ finishing (aget (workers e) i))) /\
  (forall i cmd k, (i, Sent cmd) ∈ tr -> key_of cmd = Some k -> engine_worker_for_key (num_workers e) k = i) /\
  (forall s, step_ok e s -> engine_step api1 api2 e s <> None).
Proof.
  intros Hh Hr. pose proof (started_ok n ns st0 Hh) as H0. destruct (started_workers n ns) as [Hn _].
  destruct (runs_ok st0 [] (started n ns) st0 ss tr e ltac:(lia) H0 Hr) as [Hne [st Hok]]. pose proof Hok as [Hrun Hst Hw]. cbn [app] in *. split_and!.
  - by exists st.
  - intros i Hi. destruct (Hw i Hi) as [H1 H2 _ _ _]. done.
  - rewrite Hne. by apply (runs_routed (started n ns) ss tr e ltac:(lia) Hr).
  - intros s Hs. destruct s as [cmd key|i c|i]; [done| |done]. destruct (work_ok st0 tr e st i c Hok Hs) as (e' & evs & st' & E & _). by rewrite E.
Qed.

(** C15. Progress of a worker.  While a worker is not stopped, every command
    that it had taken or that was queued for it has been answered and called
    back after at most four of its turns per command, and one more, whatever
    the other workers and the clients do. *)
Theorem engine_progress n ns ss0 tr0 e ss tr e' i : runs (started n ns) ss0 tr0 e -> runs e ss tr e' -> 0 <= i < num_workers e ->
  running (aget (workers e') i) = true -> (4 * length (pending (aget (workers e) i)) + 1 <= turns i ss)%nat ->
  (length (finishing (aget (workers e) i)) + length (pending (aget (workers e) i)) <= length (callbacks i tr))%nat.
Proof.
  intros Hr0 Hr Hi Hrun Ht. destruct (started_workers n ns) as [Hn Hw]. destruct (runs_running e ss tr e' i Hi Hr) as [_ Hmono]. specialize (Hmono Hrun).
  assert (0 <= i < num_workers (started n ns)) as Hi0.
  { destruct (runs_routed (started n ns) ss0 tr0 e ltac:(lia) Hr0) as [<- _]. done. }
  destruct (Hw i Hi0) as (a & b & Hinit). destruct (runs_advance (started n ns) ss0 tr0 e i Hi0 ltac:(by rewrite Hinit) Hr0) as [_ Had0]. destruct (Had0 Hmono) as [_ [Hawake _ _ _]].
  destruct (runs_advance e ss tr e' i Hi Hawake Hr) as [_ Had]. destruct (Had Hrun) as [_ [Haw Hc Hp [|Hk]]]; [done|].
  unfold rank in Hk. pose proof (length (pending (aget (workers e) i))) as _. unfold pending, finishing in *. destruct (pc (aget (workers e) i)), (pc (aget (workers e') i)); cbn in *; lia || done.
Qed.
End refinement.

(** ** Witnesses: both backends NexDash *)
Import NdStorage NexStorage.

Lemma empty_holds : holds (inv1 := nd_ok) (inv2 := nd_ok) (view1 := nd_view) (view2 := nd_view) ns_empty (∅, ∅).
Proof.
  destruct (ndapi_create_ok (fun _ => 2) 0 nd_blocks) as [Hok Hv].
  split; (split; [exact Hok|]); exists ∅; (split; [exact Hv|]); by rewrite fmap_empty.
Qed.

Definition set_cmd : NexCmd := mkCmd NEX_CMD_SET [[83; 69; 84]; nd_key; [115]] (Some (replicate 16 0)) 0.
Definition ttl_cmd : NexCmd := mkCmd NEX_CMD_TTL [[84; 84; 76]; nd_key] (Some (replicate 64 0)) 0.

Lemma buffer_16 : buffer_ok set_cmd.
Proof. intros b [= <-]. vm_compute. split; [discriminate|reflexivity]. Qed.

Lemma engine_linearizable_witness : exists ss tr e st, runs (api1 := NexDashTableAPI) (api2 := NexDashTableAPI) (key_ok := key_ok) (ready1 := ready) (started 1 ns_empty) ss tr e /\
  ran_all tr = [(set_cmd, Stored)] /\ machine_run ND_GET_BUF (∅, ∅) (ran_all tr) = Some st /\ st.1 !! nd_key = Some [115] /\
  holds (inv1 := nd_ok) (inv2 := nd_ok) (view1 := nd_view) (view2 := nd_view) (storage e) st.
Proof.
  destruct (nexstorage_set NexDashTableAPI NexDashTableAPI nd_ctx ns_empty (cut32 nd_key) (cut32 [115]) NEXDT_STRING (- 1)) as [ns' r] eqn:E.
  assert (r = NEXS_OK) as -> by (apply (f_equal snd) in E; vm_compute in E; exact (eq_sym E)).
  destruct (reply_delivers set_cmd Stored buffer_16) as (cb & Hcb & _).
  assert (cmd_fine (key_ok := key_ok) set_cmd) as Hf.
  { split; [intros k [= <-]; split; [exact nd_key_ok|reflexivity]|exact buffer_16]. }
  pose proof (one_set (api1 := NexDashTableAPI) (api2 := NexDashTableAPI) (ready1 := ready) nd_ctx ns_empty ns' [83; 69; 84] nd_key [115] set_cmd cb eq_refl eq_refl Hf
    (nd_ready NEXDT_STRING (- 1) ltac:(vm_compute; split; congruence) ltac:(done) ltac:(lia)) E Hcb) as Hr.
  eexists _, _, _. destruct (engine_linearizable (∅, ∅) 1 ns_empty _ _ _ empty_holds Hr) as ((st & Hst & Hh) & _).
  exists st. split; [exact Hr|]. split; [reflexivity|]. split; [exact Hst|]. split; [|exact Hh].
  unfold machine_run in Hst. cbn in Hst. injection Hst as <-. cbn [fst]. reflexivity.
Defined.

Lemma engine_progress_witness : exists tr0 e ss tr e', runs (api1 := NexDashTableAPI) (api2 := NexDashTableAPI) (key_ok := key_ok) (ready1 := ready) (started 1 ns_empty) [Dispatch ttl_cmd []] tr0 e /\
  runs (api1 := NexDashTableAPI) (api2 := NexDashTableAPI) (key_ok := key_ok) (ready1 := ready) e ss tr e' /\ turns 0 ss = 5%nat /\
  (1 <= length (callbacks 0 tr))%nat.
Proof.
  assert (cmd_fine (key_ok := key_ok) ttl_cmd) as Hf.
  { split; [discriminate|]. intros b [= <-]. vm_compute. split; [discriminate|reflexivity]. }
  destruct (reply_delivers ttl_cmd Unknown (proj2 Hf)) as (cb & Hcb & _).
  destruct (one_unknown (api1 := NexDashTableAPI) (api2 := NexDashTableAPI) (ready1 := ready) nd_ctx ns_empty ttl_cmd cb eq_refl Hf Hcb) as [H1 H2].
  eexists _, _, _, _, _. split; [exact H1|]. split; [exact H2|]. split; [reflexivity|].
  exact (engine_progress 1 ns_empty _ _ _ _ _ _ 0 H1 H2 ltac:(vm_compute; split; congruence) eq_refl ltac:(apply le_n)).
Defined.

(** ** Deviations *)

(** A reply buffer of no bytes: [strncpy] is given the length [reply_cap - 1]. *)
Lemma empty_buffer_overflow t args n s : reply_line (mkCmd t args (Some []) n) s = None.
Proof. reflexivity. Qed.

(** A value that does not fit: [reply_len] is what the client had put there,
    the buffer holds the start of the header. *)
Lemma bulk_too_large : reply_bulk (mkCmd NEX_CMD_GET [[71]; [107]] (Some [0; 0; 0; 0]) 99) [97; 98] = Some (mkCmd NEX_CMD_GET [[71]; [107]] (Some [36; 50; 13; 0]) 99).
Proof. reflexivity. Qed.

(** A stopped worker never calls back the commands that are queued for it. *)
Lemma stopped_drops {B1 B2} (api1 : NexStorageAPI B1) (api2 : NexStorageAPI B2) c ns w : pc w = AtLoop -> running w = false ->
  worker_step api1 api2 c ns w = Some (ns, set_pc w Stopped, []) /\ worker_step api1 api2 c ns (set_pc w Stopped) = Some (ns, set_pc w Stopped, []).
Proof. intros Hp Hr. unfold worker_step. by rewrite Hp, Hr. Qed.
