(* ===== verification/CrdtCommands.v ===== *)
(** * The CRDT commands (src/src/t_hash.c, the CRDT layer)

    GINCR, PNINCR, ORSET.ADD, ORSET.REMOVE, LWW.SET and the reading commands,
    as clients of the storage interface: the callbacks of the atomic
    read-modify-write work on the images of the structs of crdt.h in the
    object store.  [RUndefined] is a reply the code never gets to: the
    callback has left the bounds of an object.  [beyond] is the memory after
    the stored block, [set_alloc] says whether the set could be allocated.
    The theorem is that the commands on a key, as long as they keep to one
    type, behave as a counter, a signed counter, a set with tombstones or a
    register. *)
From S2P Require Import Prelude Lattice Crdt IntString NexDash StorageApi NdStorage.
From S2P Require OrSet OrSetCodec.

(** ** Struct images *)
Definition SIZEOF_GCounter : Z := 1032.
Definition SIZEOF_PNCounter : Z := 2056.
Definition SIZEOF_LWWRegister : Z := 2120.

Definition words (v : list Z) : bytes := concat (map (le_bytes 8) v).
Fixpoint read_words (n : nat) (b : bytes) : list Z :=
  match n with O => [] | S n => le_val (take 8 b) :: read_words n (drop 8 b) end.

Abbreviation field := OrSetCodec.field.

Definition gcounter_image (g : GCounter) : bytes :=
  words (g_values g) ++ le_bytes 4 (u32 (g_num_nodes g)) ++ le_bytes 4 (g_self_node g).
Definition gcounter_of (b : bytes) : GCounter :=
  mkGCounter (read_words 128 b) (i32 (le_val (field b 1024 4))) (le_val (field b 1028 4)).

Definition pncounter_image (p : PNCounter) : bytes :=
  words (p_positive p) ++ words (p_negative p) ++ le_bytes 4 (u32 (p_num_nodes p)) ++ le_bytes 4 (p_self_node p).
Definition pncounter_of (b : bytes) : PNCounter :=
  mkPNCounter (read_words 128 b) (read_words 128 (drop 1024 b)) (i32 (le_val (field b 2048 4))) (le_val (field b 2052 4)).

(** The padding and the mutex are those of the image [base]. *)
Definition lww_image (base : bytes) (r : LWWRegister) : bytes :=
  r_value r ++ le_bytes 2 (r_value_len r) ++ field base 1026 6 ++ le_bytes 8 (r_timestamp_us r) ++ le_bytes 4 (r_node_id r) ++
  field base 1044 4 ++ words (clocks (r_vc r)) ++ le_bytes 4 (u32 (vc_num_nodes (r_vc r))) ++ field base 2076 44.
Definition lww_of (b : bytes) : LWWRegister :=
  mkLWW (field b 0 1024) (le_val (field b 1024 2)) (le_val (field b 1032 8)) (le_val (field b 1040 4))
    (mkVC (read_words 128 (drop 1048 b)) (i32 (le_val (field b 2072 4)))).

(** Whether the loops of [gcounter_increment] and [gcounter_value] stay in
    [values[CRDT_MAX_NODES]]. *)
Definition inc_in_bounds (num_nodes self_node : Z) : bool := (u32 num_nodes <=? self_node) || (self_node <? CRDT_MAX_NODES).
Definition sum_in_bounds (num_nodes : Z) : bool := num_nodes <=? CRDT_MAX_NODES.

(** ** Callbacks *)
Record GIncrInput := mkGIncr { gi_delta : Z; gi_node_id : Z }.
Record PNIncrInput := mkPNIncr { pi_delta : Z; pi_node_id : Z }.

Definition crdt_entry (e : NexEntry) (b : bytes) : NexEntry := mkEntry (Some b) NEXDT_CRDT (e_ttl_ms e) (e_version e).

(** The stored value, when it is of the CRDT type and has [n] bytes at least. *)
Definition crdt_value (e : NexEntry) (n : Z) : option bytes :=
  match e_value e with
  | Some b => if (n <=? alen b) && (e_type e =? NEXDT_CRDT) then Some b else None
  | None => None
  end.

(** [None] as output: an access out of bounds. *)
Definition gincr_callback (inp : GIncrInput) : NexRMWCallback (option Z) := fun existing =>
  let g := match crdt_value existing SIZEOF_GCounter with
           | Some b => gcounter_of (take 1032 b)
           | None => mkGCounter (calloc CRDT_MAX_NODES 0) CRDT_MAX_NODES (gi_node_id inp)
           end in
  let g' := gcounter_increment g (gi_delta inp) in
  (crdt_entry existing (gcounter_image g'), NEXS_OK,
   if inc_in_bounds (g_num_nodes g) (g_self_node g) && sum_in_bounds (g_num_nodes g) then Some (gcounter_value g') else None).

Definition orset_of (existing : NexEntry) (node : Z) : OrSet.ORSet :=
  match e_value existing with
  | Some b => if e_type existing =? NEXDT_CRDT then OrSetCodec.orset_deserialize b node else OrSet.orset_create node
  | None => OrSet.orset_create node
  end.

(** The image that [orset_serialize] leaves in a buffer of the needed size. *)
Definition orset_image (s : OrSet.ORSet) : bytes := default [] (OrSetCodec.orset_serialize s (OrSetCodec.orset_serialized_size s)).

Definition orset_callback (node : Z) (alloc : Z -> bool) (set_alloc : bool) (val : bytes) : NexRMWCallback Z := fun existing =>
  if negb set_alloc then (existing, NEXS_ERROR, 0)
  else
    let s := orset_of existing node in
    let vlen := if 255 <? alen val then 255 else alen val in
    let '(s, rc) := OrSet.orset_add alloc s (take (Z.to_nat vlen) val) in
    (crdt_entry existing (orset_image s), NEXS_OK, if rc =? 0 then 1 else 0).

Definition orset_remove_callback (node : Z) (set_alloc : bool) (val : bytes) : NexRMWCallback Z := fun existing =>
  match e_value existing with
  | Some b =>
      if negb (e_type existing =? NEXDT_CRDT) then (existing, NEXS_NOT_FOUND, 0)
      else if negb set_alloc then (existing, NEXS_ERROR, 0)
      else
        let s := OrSetCodec.orset_deserialize b node in
        let '(s, removed) := OrSet.orset_remove s (cut16 val) in
        (crdt_entry existing (orset_image s), NEXS_OK, removed)
  | None => (existing, NEXS_NOT_FOUND, 0)
  end.

(** [-in->delta] overflows for the least [int64_t]. *)
Definition pnincr_callback (inp : PNIncrInput) : NexRMWCallback (option Z) := fun existing =>
  let p := match crdt_value existing SIZEOF_PNCounter with
           | Some b => pncounter_of (take 2056 b)
           | None => mkPNCounter (calloc CRDT_MAX_NODES 0) (calloc CRDT_MAX_NODES 0) CRDT_MAX_NODES (pi_node_id inp)
           end in
  let p' := if 0 <=? pi_delta inp then pncounter_increment p (u64 (pi_delta inp)) else pncounter_decrement p (u64 (- pi_delta inp)) in
  (crdt_entry existing (pncounter_image p'), NEXS_OK,
   if inc_in_bounds (p_num_nodes p) (p_self_node p) && sum_in_bounds (p_num_nodes p) && (- 2 ^ 63 <? pi_delta inp)
   then pncounter_value p' else None).

(** The register is copied whatever the length of the stored value is. *)
Definition lww_callback (now : Z) (beyond val : bytes) : NexRMWCallback Z := fun existing =>
  let base := match e_value existing with
              | Some b => if e_type existing =? NEXDT_CRDT then take 2120 (b ++ beyond) else calloc SIZEOF_LWWRegister 0
              | None => calloc SIZEOF_LWWRegister 0
              end in
  let '(r, _) := lww_set now (lww_of base) (cut16 val) in
  (crdt_entry existing (lww_image base r), NEXS_OK, 1).

(** ** Commands *)
Inductive CrdtError := NotInitialised | NotAnInteger | IncrFailed | AddFailed | RemoveFailed | SetFailed | WrongType | BadSet.
Inductive Reply :=
  | RInt (z : Z) | RStatusOK | RBulk (b : bytes) | RArray (l : list bytes) | RNull | RError (e : CrdtError) | RUndefined.

Record CmdEnv := mkCmdEnv { cctx : Ctx; set_alloc : bool; beyond : bytes }.

Section Commands.
Context {B1 : Type} (main_api : NexStorageAPI B1).
Abbreviation NS := (NexStorage B1 NdBackend).
Variable node_id : Z.                                   (* g_nexcache_node_id *)

Definition with_storage (gs : option NS) (f : NS -> NS * Reply) : option NS * Reply :=
  match gs with
  | None => (None, RError NotInitialised)
  | Some ns => let '(ns, r) := f ns in (Some ns, r)
  end.

(** [getLongLongFromObjectOrReply] on a string argument. *)
Definition with_integer (arg : bytes) (ns : NS) (f : Z -> NS * Reply) : NS * Reply :=
  match string2llScalar arg with Some z => f z | None => (ns, RError NotAnInteger) end.

(** An out-of-bounds access inside the callback makes the reply undefined. *)
Definition gincrCommand (c : CmdEnv) (gs : option NS) (key arg : bytes) : option NS * Reply :=
  with_storage gs (fun ns => with_integer arg ns (fun delta =>
    let '(ns, res, o) := nexstorage_rmw NexDashTableAPI (cctx c) ns key (gincr_callback (mkGIncr (u64 delta) node_id)) in
    match o with
    | Some None => (ns, RUndefined)
    | Some (Some v) => (ns, if bool_decide (res = NEXS_OK) then RInt (i64 v) else RError IncrFailed)
    | None => (ns, RError IncrFailed)
    end)).

Definition pnincrCommand (c : CmdEnv) (gs : option NS) (key arg : bytes) : option NS * Reply :=
  with_storage gs (fun ns => with_integer arg ns (fun delta =>
    let '(ns, res, o) := nexstorage_rmw NexDashTableAPI (cctx c) ns key (pnincr_callback (mkPNIncr delta node_id)) in
    match o with
    | Some None => (ns, RUndefined)
    | Some (Some v) => (ns, if bool_decide (res = NEXS_OK) then RInt v else RError IncrFailed)
    | None => (ns, RError IncrFailed)
    end)).

Definition orsetAddCommand (c : CmdEnv) (gs : option NS) (key val : bytes) : option NS * Reply :=
  with_storage gs (fun ns =>
    let '(ns, res, _) := nexstorage_rmw NexDashTableAPI (cctx c) ns key
      (orset_callback node_id (fun _ => realloc_works (cctx c)) (set_alloc c) val) in
    (ns, if bool_decide (res = NEXS_OK) then RInt 1 else RError AddFailed)).

Definition orsetRemoveCommand (c : CmdEnv) (gs : option NS) (key val : bytes) : option NS * Reply :=
  with_storage gs (fun ns =>
    let '(ns, res, o) := nexstorage_rmw NexDashTableAPI (cctx c) ns key (orset_remove_callback node_id (set_alloc c) val) in
    (ns, if bool_decide (res = NEXS_OK) then RInt (default 0 o) else RError RemoveFailed)).

Definition lwwSetCommand (c : CmdEnv) (gs : option NS) (key val : bytes) : option NS * Reply :=
  with_storage gs (fun ns =>
    let '(ns, res, _) := nexstorage_rmw NexDashTableAPI (cctx c) ns key (lww_callback (now_us (cctx c)) (beyond c) val) in
    (ns, if bool_decide (res = NEXS_OK) then RStatusOK else RError SetFailed)).

(** The reading commands share the lookup: a value of the CRDT type with [n]
    bytes at least, no key, or anything else. *)
Definition crdt_read (c : CmdEnv) (gs : option NS) (key : bytes) (n : Z) (found : bytes -> Reply) (missing : Reply) : option NS * Reply :=
  with_storage gs (fun ns =>
    let '(ns, res, out) := nexstorage_get main_api NexDashTableAPI (cctx c) ns key in
    match res, out with
    | NEXS_OK, Some e => (ns, match crdt_value e n with Some b => found b | None => RError WrongType end)
    | NEXS_NOT_FOUND, _ => (ns, missing)
    | _, _ => (ns, RError WrongType)
    end).

Definition gcounterGetCommand (c : CmdEnv) (gs : option NS) (key : bytes) : option NS * Reply :=
  crdt_read c gs key SIZEOF_GCounter
    (fun b => let g := gcounter_of b in if sum_in_bounds (g_num_nodes g) then RInt (i64 (gcounter_value g)) else RUndefined) (RInt 0).

Definition pncounterGetCommand (c : CmdEnv) (gs : option NS) (key : bytes) : option NS * Reply :=
  crdt_read c gs key SIZEOF_PNCounter
    (fun b => let p := pncounter_of b in
              if sum_in_bounds (p_num_nodes p) then match pncounter_value p with Some z => RInt z | None => RUndefined end else RUndefined)
    (RInt 0).

Definition live_values (s : OrSet.ORSet) : list bytes :=
  map OrSet.entry_member (List.filter (fun e => OrSet.is_removed e =? 0) (OrSet.entries s)).

(** A live entry whose [value_len] exceeds its buffer is read out of bounds. *)
Definition values_in_bounds (s : OrSet.ORSet) : bool :=
  forallb (fun e => negb (OrSet.is_removed e =? 0) || (OrSet.value_len e <=? 256)) (OrSet.entries s).

Definition orsetMembersCommand (c : CmdEnv) (gs : option NS) (key : bytes) : option NS * Reply :=
  crdt_read c gs key 0
    (fun b => if negb (set_alloc c) then RError BadSet
              else let s := OrSetCodec.orset_deserialize b node_id in
                   if values_in_bounds s then RArray (live_values s) else RUndefined) (RArray []).

Definition lwwGetCommand (c : CmdEnv) (gs : option NS) (key : bytes) : option NS * Reply :=
  crdt_read c gs key SIZEOF_LWWRegister (fun b => RBulk (lww_get (lww_of b) 1024)) RNull.
End Commands.

(** ** Images and their objects *)
Lemma length_words v : length (words v) = (8 * length v)%nat.
Proof. unfold words. induction v as [|x v IH]; [done|]. cbn [map concat length]. rewrite length_app, length_le_bytes, IH. lia. Qed.

Lemma read_words_app v rest n : Forall (in_u 64) v -> n = length v -> read_words n (words v ++ rest) = v.
Proof.
  intros Hv ->. revert rest. induction Hv as [|x v Hx Hv IH]; intros rest; [done|]. cbn [length read_words]. unfold words. cbn [map concat].
  rewrite <- app_assoc. rewrite take_app_length', drop_app_length' by (by rewrite length_le_bytes). rewrite le_round_trip by exact Hx. f_equal. apply IH.
Qed.

Lemma vec_words n v : vec_ok n v -> Forall (in_u 64) v /\ length v = 128%nat.
Proof.
  intros [Hl _ Hu _]. unfold alen, CRDT_MAX_NODES in *. split; [|lia]. apply Forall_lookup. intros i x Hi.
  pose proof (lookup_lt_Some _ _ _ Hi). specialize (Hu (Z.of_nat i) ltac:(lia)). unfold aget in Hu.
  by rewrite Nat2Z.id, (list_lookup_total_correct _ _ _ Hi) in Hu.
Qed.

(** An [int] field that holds a node count. *)
Lemma int_field n : 0 <= n <= CRDT_MAX_NODES -> i32 (le_val (le_bytes 4 (u32 n))) = n.
Proof.
  intros H. unfold CRDT_MAX_NODES in H. rewrite wrap_small by mach. rewrite le_round_trip by mach. apply swrap_small; mach.
Qed.

Record g_rep (g : GCounter) (n : Z) : Prop := {
  gr_ok : gcounter_ok g; gr_num : g_num_nodes g = CRDT_MAX_NODES; gr_self : 0 <= g_self_node g < CRDT_MAX_NODES;
  gr_sum : vec_sum CRDT_MAX_NODES (g_values g) = n; gr_bound : n < 2 ^ 63 }.

Lemma gcounter_image_len g : alen (g_values g) = CRDT_MAX_NODES -> alen (gcounter_image g) = SIZEOF_GCounter.
Proof. unfold gcounter_image, alen, CRDT_MAX_NODES, SIZEOF_GCounter. intros H. rewrite !length_app, !length_le_bytes, length_words. lia. Qed.

Lemma gcounter_of_image g n : g_rep g n -> gcounter_of (gcounter_image g) = g.
Proof.
  intros [[Hl Hn Hu Hz] Hm Hs _ _]. pose proof (vec_words _ _ (Build_vec_ok _ _ Hl Hn Hu Hz)) as [Hw Hlen].
  unfold gcounter_of, gcounter_image. rewrite read_words_app by done. destruct g as [v m s]. cbn [g_values g_num_nodes g_self_node] in *.
  assert (length (words v) = 1024%nat) as Lw by (rewrite length_words; lia).
  f_equal; rewrite (OrSetCodec.field_skip (words v)), Lw by lia; cbn [Nat.sub].
  - rewrite OrSetCodec.field_here by apply length_le_bytes. by apply int_field.
  - rewrite OrSetCodec.field_skip, length_le_bytes by (rewrite length_le_bytes; lia). cbn [Nat.sub].
    rewrite OrSetCodec.field_all by apply length_le_bytes. apply le_round_trip. unfold CRDT_MAX_NODES in *. mach.
Qed.

Record pn_rep (p : PNCounter) (pos neg : Z) : Prop := {
  pr_ok : pncounter_ok p; pr_num : p_num_nodes p = CRDT_MAX_NODES; pr_self : 0 <= p_self_node p < CRDT_MAX_NODES;
  pr_pos : vec_sum CRDT_MAX_NODES (p_positive p) = pos; pr_neg : vec_sum CRDT_MAX_NODES (p_negative p) = neg;
  pr_bound : pos < 2 ^ 63 /\ neg < 2 ^ 63 }.

Lemma pncounter_image_len p : alen (p_positive p) = CRDT_MAX_NODES -> alen (p_negative p) = CRDT_MAX_NODES ->
  alen (pncounter_image p) = SIZEOF_PNCounter.
Proof.
  unfold pncounter_image, alen, CRDT_MAX_NODES, SIZEOF_PNCounter. intros H1 H2. rewrite !length_app, !length_le_bytes, !length_words. lia.
Qed.

Lemma pncounter_of_image p pos neg : pn_rep p pos neg -> pncounter_of (pncounter_image p) = p.
Proof.
  intros [[Hp Hn] Hm Hs _ _ _]. pose proof (vec_words _ _ Hp) as [Wp Lp]. pose proof (vec_words _ _ Hn) as [Wn Ln].
  pose proof (vec_num _ _ Hp) as Hnum. unfold pncounter_of, pncounter_image. rewrite read_words_app by done.
  destruct p as [vp vn m s]. cbn [p_positive p_negative p_num_nodes p_self_node] in *.
  assert (length (words vp) = 1024%nat) as Lwp by (rewrite length_words; lia).
  assert (length (words vn) = 1024%nat) as Lwn by (rewrite length_words; lia).
  rewrite drop_app_length' by done. rewrite read_words_app by done.
  f_equal; rewrite (OrSetCodec.field_skip (words vp)), Lwp by lia; cbn [Nat.sub];
    rewrite (OrSetCodec.field_skip (words vn)), Lwn by lia; cbn [Nat.sub].
  - rewrite OrSetCodec.field_here by apply length_le_bytes. by apply int_field.
  - rewrite OrSetCodec.field_skip, length_le_bytes by (rewrite length_le_bytes; lia). cbn [Nat.sub].
    rewrite OrSetCodec.field_all by apply length_le_bytes. apply le_round_trip. unfold CRDT_MAX_NODES in *. mach.
Qed.

(** A typed register, and the value that is visible in it. *)
Record reg_rep (r : LWWRegister) (v : bytes) : Prop := {
  rr_buf : alen (r_value r) = 1024; rr_len : 0 <= r_value_len r <= 1023; rr_value : take (Z.to_nat (r_value_len r)) (r_value r) = v;
  rr_time : in_u 64 (r_timestamp_us r); rr_node : in_u 32 (r_node_id r); rr_vc : vec_ok (vc_num_nodes (r_vc r)) (clocks (r_vc r)) }.

Lemma length_field b off n : (off + n <= length b)%nat -> length (field b off n) = n.
Proof. intros H. unfold OrSetCodec.field. rewrite length_take, length_drop. lia. Qed.

Ltac img_len := rewrite ?length_app, ?length_le_bytes, ?length_words, ?length_field by lia.
Ltac next_field := rewrite OrSetCodec.field_skip by (img_len; lia); img_len.

Section LwwImage.
Variables (base : bytes) (r : LWWRegister) (v : bytes).
Hypothesis Hb : alen base = SIZEOF_LWWRegister.
Hypothesis Hr : reg_rep r v.

Lemma lww_lengths : length base = 2120%nat /\ length (r_value r) = 1024%nat /\ length (clocks (r_vc r)) = 128%nat /\ Forall (in_u 64) (clocks (r_vc r)).
Proof.
  pose proof (vec_words _ _ (rr_vc _ _ Hr)) as [? ?]. pose proof (rr_buf _ _ Hr). unfold alen, SIZEOF_LWWRegister in *. repeat split; (done || lia).
Qed.

Lemma lww_image_len : alen (lww_image base r) = SIZEOF_LWWRegister.
Proof. destruct lww_lengths as (L1 & L2 & L3 & _). unfold lww_image, alen. img_len. unfold SIZEOF_LWWRegister. lia. Qed.

Lemma lww_of_image : lww_of (lww_image base r) = r.
Proof.
  destruct lww_lengths as (L1 & L2 & L3 & Hw). destruct Hr as [_ Hl _ Ht Hn [_ Hnum _ _]]. unfold CRDT_MAX_NODES in Hnum.
  unfold lww_of, lww_image. destruct r as [rv rl rt rn [vc vn]]. cbn [r_value r_value_len r_timestamp_us r_node_id r_vc clocks vc_num_nodes] in *.
  assert (length (words vc) = 1024%nat) as L4 by (rewrite length_words; lia).
  f_equal; [..|f_equal].
  - by rewrite OrSetCodec.field_here.
  - next_field. rewrite L2. cbn [Nat.sub]. rewrite OrSetCodec.field_here by apply length_le_bytes. apply le_round_trip. mach.
  - do 3 (next_field; rewrite ?L2; cbn [Nat.sub]). rewrite OrSetCodec.field_here by apply length_le_bytes. by apply le_round_trip.
  - do 4 (next_field; rewrite ?L2; cbn [Nat.sub]). rewrite OrSetCodec.field_here by apply length_le_bytes. by apply le_round_trip.
  - do 6 (rewrite drop_app_ge by (img_len; lia); img_len; rewrite ?L2; cbn [Nat.sub]). rewrite drop_0. by rewrite read_words_app.
  - do 7 (next_field; rewrite ?L2, ?L3; cbn [Nat.sub Nat.mul Nat.add]). rewrite OrSetCodec.field_here by apply length_le_bytes. by apply int_field.
Qed.
End LwwImage.

(** ** The OR-Set *)
Definition max_adds : Z := 2 ^ 20.
Record set_rep (s : OrSet.ORSet) (adds : Z) (l : list bytes) : Prop := {
  sr_count : OrSet.count s = adds; sr_tag : OrSet.next_tag s = adds + 1; sr_bound : 0 <= adds <= max_adds;
  sr_typed : Forall OrSetCodec.entry_typed (OrSet.entries s); sr_ok : Forall OrSet.entry_ok (OrSet.entries s);
  sr_live : live_values s = l }.

Lemma orset_image_spec s n l node : set_rep s n l ->
  alen (orset_image s) = 8 + n * 280 /\
  OrSetCodec.orset_deserialize (orset_image s) node = OrSet.mkORSet (OrSet.entries s) (Z.max 1 n) (n + 1) node.
Proof.
  intros [Hc Ht Hb Hty _ _]. unfold max_adds in Hb. unfold orset_image.
  destruct (OrSetCodec.orset_serialize s (OrSetCodec.orset_serialized_size s)) as [b|] eqn:E.
  - destruct (OrSetCodec.codec_spec s node _ b Hty ltac:(rewrite Hc; mach) ltac:(rewrite Ht; mach) E) as (Hl & _ & Hd). cbn [default from_option id].
    rewrite Hd, Hl, Hc, Ht. split; [|done]. unfold OrSetCodec.orset_serialized_size, OrSetCodec.SIZEOF_ORSetEntry. lia.
  - unfold OrSetCodec.orset_serialize, OrSetCodec.orset_serialized_size in E. by rewrite Z.ltb_irrefl in E.
Qed.

Lemma set_rep_entries s s' n l : set_rep s n l -> OrSet.entries s' = OrSet.entries s -> OrSet.next_tag s' = n + 1 -> set_rep s' n l.
Proof. intros [Hc Ht Hb Hty Hok Hl] He Hn. unfold OrSet.count, live_values in *. split; unfold OrSet.count, live_values; rewrite ?He; done. Qed.

Lemma set_rep_add alloc s n l v : set_rep s n l -> n < max_adds -> 0 < alen v <= 255 -> in_u 32 (OrSet.self_node s) ->
  (forall c, alloc c = true) ->
  exists s', OrSet.orset_add alloc s v = (s', 0) /\ set_rep s' (n + 1) (l ++ [v]).
Proof.
  intros [Hc Ht Hb Hty Hok Hl] Hn Hv Hs Ha. unfold max_adds in *. unfold OrSet.orset_add.
  rewrite (proj2 (Z.eqb_neq _ _)), (proj2 (Z.ltb_ge _ _)) by lia. cbn [orb]. rewrite Ha.
  set (e := OrSet.mkEntry _ _ _ _ _).
  assert (OrSetCodec.entry_typed e /\ OrSet.entry_ok e) as [Et Eo].
  { subst e. unfold OrSet.entry_value. split; split; cbn; rewrite ?alen_app, ?alen_calloc by lia; rewrite ?Ht; mach. }
  assert (OrSet.entry_member e = v) as Em.
  { subst e. unfold OrSet.entry_member, OrSet.entry_value. cbn. unfold alen. rewrite Nat2Z.id. apply take_app_length. }
  assert (forall s', OrSet.entries s' = OrSet.entries s ++ [e] -> OrSet.next_tag s' = OrSet.next_tag s +64 1 -> set_rep s' (n + 1) (l ++ [v])) as H.
  { intros s' He Hn'. unfold OrSet.count, live_values in *. split; unfold OrSet.count, live_values, max_adds; rewrite ?He.
    - rewrite alen_app. change (alen [e]) with 1. lia.
    - rewrite Hn', Ht. apply wrap_small. mach.
    - lia.
    - by apply Forall_app_2; [|constructor].
    - by apply Forall_app_2; [|constructor].
    - rewrite List.filter_app, map_app, Hl. f_equal. cbn. by rewrite Em. }
  case_if; eexists; (split; [reflexivity|]); by apply H.
Qed.

Lemma live_match_member v e : OrSet.entry_ok e -> OrSet.live_match v e = (OrSet.is_removed e =? 0) && bytes_eqb (OrSet.entry_member e) v.
Proof.
  intros [Hb Hl]. unfold OrSet.live_match, OrSet.entry_member. rewrite <- andb_assoc. f_equal. unfold alen in *.
  destruct (Z.eqb_spec (OrSet.value_len e) (Z.of_nat (length v))) as [->|Hne]; [by rewrite Nat2Z.id|]. cbn [andb]. symmetry.
  apply not_true_is_false. intros H%bytes_eqb_eq. apply Hne. rewrite <- H, length_take. lia.
Qed.

Lemma set_rep_remove s n l v : set_rep s n l -> v <> [] ->
  exists s', OrSet.orset_remove s v = (s', if bool_decide (v ∈ l) then 1 else 0) /\ set_rep s' n (filter (fun x => x <> v) l).
Proof.
  intros [Hc Ht Hb Hty Hok Hl] Hv. unfold OrSet.orset_remove.
  rewrite (proj2 (Z.eqb_neq (alen v) 0)) by (destruct v; [done|rewrite alen_cons; pose proof (alen_nonneg v); lia]).
  eexists. split.
  - f_equal. rewrite <- Hl. unfold live_values. clear -Hok.
    assert (existsb (OrSet.live_match v) (OrSet.entries s) =
      bool_decide (v ∈ map OrSet.entry_member (List.filter (fun e => OrSet.is_removed e =? 0) (OrSet.entries s)))) as ->; [|done].
    induction Hok as [|e es He _ IH]; [done|]. cbn [existsb List.filter]. rewrite live_match_member, IH by done.
    destruct (OrSet.is_removed e =? 0); cbn [andb orb map]; [|done]. unfold bytes_eqb. symmetry. rewrite <- bool_decide_or.
    apply bool_decide_ext. rewrite elem_of_cons. split; intros [->|]; auto.
  - subst l. unfold OrSet.count, live_values in *. split; unfold OrSet.count, live_values; cbn [OrSet.entries OrSet.next_tag].
    + unfold alen in *. by rewrite length_map.
    + done.
    + done.
    + apply Forall_map. eapply Forall_impl; [exact Hty|]. intros e He. case_if; [|done]. destruct He. split; cbn; (done || lia).
    + apply Forall_map. eapply Forall_impl; [exact Hok|]. intros e He. case_if; [|done]. by destruct He.
    + clear -Hok. induction Hok as [|e es He _ IH]; [done|]. cbn [map]. rewrite live_match_member by done.
      destruct (OrSet.is_removed e =? 0) eqn:Er; cbn [andb].
      * destruct (bytes_eqb (OrSet.entry_member e) v) eqn:Ev; cbn [List.filter OrSet.set_removed OrSet.is_removed]; rewrite ?Er; cbn [map].
        -- rewrite filter_cons_False by (rewrite bytes_eqb_eq in Ev; congruence). exact IH.
        -- rewrite filter_cons_True by (intros H; rewrite (proj2 (bytes_eqb_eq _ _) H) in Ev; done). f_equal. exact IH.
      * cbn [List.filter]. rewrite Er. exact IH.
Qed.

(** ** What the commands promise

    The object of a key; [OSet adds l] has had [adds] successful additions and
    lists [l], repetitions included. *)
Inductive Obj := OMissing | OCount (n : Z) | OPn (pos neg : Z) | OSet (adds : Z) (l : list bytes) | OReg (v : bytes).

Inductive Cmd :=
  | GINCR (arg : bytes) | GCOUNTER_GET | PNINCR (arg : bytes) | PNCOUNTER_GET
  | ORSET_ADD (v : bytes) | ORSET_REMOVE (v : bytes) | ORSET_MEMBERS | LWW_SET (v : bytes) | LWW_GET.

Definition as_count (o : Obj) : option Z := match o with OMissing => Some 0 | OCount n => Some n | _ => None end.
Definition as_pn (o : Obj) : option (Z * Z) := match o with OMissing => Some (0, 0) | OPn p n => Some (p, n) | _ => None end.
Definition as_set (o : Obj) : option (Z * list bytes) := match o with OMissing => Some (0, []) | OSet n l => Some (n, l) | _ => None end.
Definition as_reg (o : Obj) : option bytes := match o with OMissing => Some [] | OReg v => Some v | _ => None end.

(** The largest set that GET still returns. *)
Definition max_readable : Z := 3744.

(** [None]: the command does not fit the type of the object, or the numbers
    leave the range of [int64_t]. *)
Definition spec_step (o : Obj) (c : Cmd) : option (Reply * Obj) :=
  match c with
  | GINCR arg =>
      match string2llScalar arg with
      | None => Some (RError NotAnInteger, o)
      | Some d => n ← as_count o; if (0 <=? d) && (n + d <? 2 ^ 63) then Some (RInt (n + d), OCount (n + d)) else None
      end
  | GCOUNTER_GET => n ← as_count o; Some (RInt n, o)
  | PNINCR arg =>
      match string2llScalar arg with
      | None => Some (RError NotAnInteger, o)
      | Some d =>
          pn ← as_pn o;
          let '(pos, neg) := (if 0 <=? d then (pn.1 + d, pn.2) else (pn.1, pn.2 - d)) : Z * Z in
          if (pos <? 2 ^ 63) && (neg <? 2 ^ 63) then Some (RInt (pos - neg), OPn pos neg) else None
      end
  | PNCOUNTER_GET => pn ← as_pn o; Some (RInt (pn.1 - pn.2), o)
  | ORSET_ADD v =>
      s ← as_set o;
      if decide (v = []) then Some (RInt 1, OSet s.1 s.2)
      else if s.1 <? max_adds then Some (RInt 1, OSet (s.1 + 1) (s.2 ++ [take 255 v])) else None
  | ORSET_REMOVE v =>
      match o with
      | OMissing => Some (RError RemoveFailed, OMissing)
      | OSet n l =>
          if decide (cut16 v = []) then Some (RInt (- 1), o)
          else Some (RInt (if bool_decide (cut16 v ∈ l) then 1 else 0), OSet n (filter (fun x => x <> cut16 v) l))
      | _ => None
      end
  | ORSET_MEMBERS => s ← as_set o; Some (if s.1 <=? max_readable then RArray s.2 else RError WrongType, o)
  | LWW_SET v => old ← as_reg o; Some (RStatusOK, OReg (if (1 <=? alen (cut16 v)) && (alen (cut16 v) <=? 1023) then cut16 v else old))
  | LWW_GET => match o with OMissing => Some (RNull, o) | OReg v => Some (RBulk v, o) | _ => None end
  end.

(** The answer when memory is short. *)
Definition failure (c : Cmd) : option Reply :=
  match c with
  | GINCR _ | PNINCR _ => Some (RError IncrFailed)
  | ORSET_ADD _ => Some (RError AddFailed)
  | ORSET_REMOVE _ => Some (RError RemoveFailed)
  | LWW_SET _ => Some (RError SetFailed)
  | ORSET_MEMBERS => Some (RError BadSet)
  | _ => None
  end.

(** A command may only fail when memory is short: a set command when its set
    cannot be allocated, a write when malloc fails, or on a new key, which the
    table can refuse. *)
Definition memory_short (c : CmdEnv) (o : Obj) (cmd : Cmd) : Prop :=
  match cmd with
  | ORSET_MEMBERS => set_alloc c = false
  | ORSET_ADD _ | ORSET_REMOVE _ => set_alloc c = false \/ malloc (cctx c) = None \/ o = OMissing
  | _ => malloc (cctx c) = None \/ o = OMissing
  end.

Definition spec_allows (c : CmdEnv) (o : Obj) (cmd : Cmd) (r : Reply) (o' : Obj) : Prop :=
  spec_step o cmd = Some (r, o') \/ (failure cmd = Some r /\ memory_short c o cmd /\ o' = o /\ is_Some (spec_step o cmd)).

(** Stored bytes of an object. *)
Definition img_rep (o : Obj) (d : bytes) : Prop :=
  match o with
  | OMissing => False
  | OCount n => exists g, g_rep g n /\ d = gcounter_image g
  | OPn pos neg => exists p, pn_rep p pos neg /\ d = pncounter_image p
  | OSet n l => exists s, set_rep s n l /\ d = orset_image s
  | OReg v => exists base r, alen base = SIZEOF_LWWRegister /\ reg_rep r v /\ d = lww_image base r
  end.

Definition entry_rep (e : NexEntry) (o : Obj) : Prop :=
  match e_value e with
  | None => o = OMissing /\ e = no_entry
  | Some d => e_type e = NEXDT_CRDT /\ e_ttl_ms e = - 1 /\ img_rep o d
  end.

(** The callbacks take an object to the object of the specification. *)
Definition cb_spec {O} (out : NexEntry * NexStorageResult * O) (o' : Obj) (x : O) : Prop :=
  exists e', out = (e', NEXS_OK, x) /\ entry_rep e' o' /\ is_Some (e_value e').

Lemma crdt_entry_rep e o d o' : entry_rep e o -> img_rep o' d -> entry_rep (crdt_entry e d) o' /\ is_Some (e_value (crdt_entry e d)).
Proof.
  unfold entry_rep, crdt_entry. cbn [e_value e_type e_ttl_ms]. intros He Hi. split; [|by eexists]. split; [done|]. split; [|done].
  destruct (e_value e); [by destruct He as (_ & H & _)|]. by destruct He as [_ ->].
Qed.

Lemma cb_spec_write {O} e o d o' (x : O) : entry_rep e o -> img_rep o' d -> cb_spec (crdt_entry e d, NEXS_OK, x) o' x.
Proof. intros He Hi. eexists. split; [reflexivity|]. by eapply crdt_entry_rep. Qed.

Lemma zero_vec : vec_ok CRDT_MAX_NODES (calloc CRDT_MAX_NODES 0) /\ vec_sum CRDT_MAX_NODES (calloc CRDT_MAX_NODES 0) = 0.
Proof. split; [|by vm_compute]. apply calloc_vec_ok. unfold CRDT_MAX_NODES. lia. Qed.

Lemma g_rep_nonneg g n : g_rep g n -> 0 <= n.
Proof. intros [Hok _ _ <- _]. apply vec_sum_nonneg; [unfold CRDT_MAX_NODES; lia|apply Hok]. Qed.

Lemma gcounter_value_rep g n : g_rep g n -> gcounter_value g = n.
Proof.
  intros Hg. pose proof (g_rep_nonneg g n Hg). destruct Hg as [Hok Hm Hs Hsum Hb]. unfold gcounter_value.
  rewrite Hm, sum_loop_wrap by (unfold CRDT_MAX_NODES; lia). rewrite Hsum. apply wrap_small. mach.
Qed.

Lemma in_bounds_128 self : 0 <= self < CRDT_MAX_NODES -> inc_in_bounds CRDT_MAX_NODES self && sum_in_bounds CRDT_MAX_NODES = true.
Proof. intros H. unfold inc_in_bounds. rewrite (proj2 (Z.ltb_lt _ _)) by lia. by rewrite orb_true_r. Qed.

Lemma gcounter_increment_rep g n d : g_rep g n -> 0 <= d -> n + d < 2 ^ 63 -> g_rep (gcounter_increment g (u64 d)) (n + d).
Proof.
  intros [Hok Hm Hs Hsum Hb] Hd Hn. pose proof Hok as Hv. unfold gcounter_ok in Hv. rewrite Hm in Hv.
  pose proof (vec_sum_nonneg CRDT_MAX_NODES (g_values g) ltac:(unfold CRDT_MAX_NODES; lia) (vec_u64 _ _ Hok)).
  assert (u64 d = d) as -> by (apply wrap_small; mach).
  pose proof (vec_entry_le_sum _ _ (g_self_node g) Hv Hs). pose proof (vec_u64 _ _ Hv _ Hs).
  assert (in_u 64 d) as Hd64 by mach.
  pose proof (gcounter_increment_ok g d ltac:(lia) Hd64 Hok) as Hok'.
  unfold gcounter_increment in *. rewrite Hm in *. rewrite (proj2 (Z.leb_gt (u32 CRDT_MAX_NODES) _)) in * by exact (proj2 Hs).
  split; cbn [g_num_nodes g_self_node g_values]; try done.
  rewrite sat_add_sum by (done || mach). by rewrite Hsum.
Qed.

(** The counter a callback starts from. *)
Lemma gcounter_start e o n node : entry_rep e o -> as_count o = Some n -> 0 <= node < CRDT_MAX_NODES ->
  g_rep match crdt_value e SIZEOF_GCounter with
        | Some b => gcounter_of (take 1032 b)
        | None => mkGCounter (calloc CRDT_MAX_NODES 0) CRDT_MAX_NODES node
        end n.
Proof.
  intros He Ho Hn. unfold entry_rep in He. unfold crdt_value. destruct (e_value e) as [d|].
  - destruct He as (-> & _ & Hi). destruct o; try done; [].  injection Ho as ->. destruct Hi as (g & Hg & ->).
    pose proof (gcounter_image_len g (vec_len _ _ (gr_ok _ _ Hg))) as Hl. rewrite Hl. cbn. rewrite take_ge; [|unfold alen, SIZEOF_GCounter in Hl; lia].
    by rewrite (gcounter_of_image g n Hg).
  - destruct He as [-> _]. injection Ho as <-. destruct zero_vec. by split.
Qed.

Lemma gincr_callback_spec e o n d node : entry_rep e o -> as_count o = Some n -> 0 <= node < CRDT_MAX_NODES -> 0 <= d -> n + d < 2 ^ 63 ->
  cb_spec (gincr_callback (mkGIncr (u64 d) node) e) (OCount (n + d)) (Some (n + d)).
Proof.
  intros He Ho Hn Hd Hb. unfold gincr_callback. cbn [gi_delta gi_node_id]. pose proof (gcounter_start e o n node He Ho Hn) as Hg.
  set (g := match crdt_value e SIZEOF_GCounter with Some _ => _ | None => _ end) in *.
  pose proof (gcounter_increment_rep g n d Hg Hd Hb) as Hg'. rewrite (gr_num _ _ Hg), in_bounds_128 by apply Hg.
  rewrite (gcounter_value_rep _ _ Hg'). eapply cb_spec_write; [exact He|]. cbn. eauto.
Qed.

Lemma pncounter_value_rep p pos neg : pn_rep p pos neg -> pncounter_value p = Some (pos - neg).
Proof. intros [Hok Hm Hs <- <- [Hp Hn]]. rewrite <- Hm in *. by rewrite pncounter_value_sums. Qed.

Lemma pncounter_step_rep p pos neg d : pn_rep p pos neg ->
  let '(pos', neg') := (if 0 <=? d then (pos + d, neg) else (pos, neg - d)) : Z * Z in
  pos' < 2 ^ 63 -> neg' < 2 ^ 63 ->
  pn_rep (if 0 <=? d then pncounter_increment p (u64 d) else pncounter_decrement p (u64 (- d))) pos' neg'.
Proof.
  intros [Hok Hm Hs Hp Hn Hb]. pose proof Hok as [Vp Vn]. rewrite Hm in Vp, Vn.
  pose proof (vec_sum_nonneg CRDT_MAX_NODES _ ltac:(unfold CRDT_MAX_NODES; lia) (vec_u64 _ _ Vp)).
  pose proof (vec_sum_nonneg CRDT_MAX_NODES _ ltac:(unfold CRDT_MAX_NODES; lia) (vec_u64 _ _ Vn)).
  pose proof (vec_entry_le_sum _ _ (p_self_node p) Vp Hs). pose proof (vec_u64 _ _ Vp _ Hs).
  pose proof (vec_entry_le_sum _ _ (p_self_node p) Vn Hs). pose proof (vec_u64 _ _ Vn _ Hs).
  destruct (Z.leb_spec 0 d); intros B1 B2; rewrite wrap_small by mach.
  - assert (in_u 64 d) as Hd64 by mach. pose proof (pncounter_increment_ok p d ltac:(lia) Hd64 Hok) as Hok'.
    unfold pncounter_increment in *. rewrite Hm in *. rewrite (proj2 (Z.leb_gt (u32 CRDT_MAX_NODES) _)) in * by exact (proj2 Hs).
    split; cbn [p_num_nodes p_self_node p_positive p_negative]; try done. rewrite sat_add_sum by (done || mach). by rewrite Hp.
  - assert (in_u 64 (- d)) as Hd64 by mach. pose proof (pncounter_decrement_ok p (- d) ltac:(lia) Hd64 Hok) as Hok'.
    unfold pncounter_decrement in *. rewrite Hm in *. rewrite (proj2 (Z.leb_gt (u32 CRDT_MAX_NODES) _)) in * by exact (proj2 Hs).
    split; cbn [p_num_nodes p_self_node p_positive p_negative]; try done. rewrite sat_add_sum by (done || mach). rewrite Hn. lia.
Qed.

Lemma pncounter_start e o pn node : entry_rep e o -> as_pn o = Some pn -> 0 <= node < CRDT_MAX_NODES ->
  pn_rep match crdt_value e SIZEOF_PNCounter with
         | Some b => pncounter_of (take 2056 b)
         | None => mkPNCounter (calloc CRDT_MAX_NODES 0) (calloc CRDT_MAX_NODES 0) CRDT_MAX_NODES node
         end pn.1 pn.2.
Proof.
  intros He Ho Hn. unfold entry_rep in He. unfold crdt_value. destruct (e_value e) as [d|].
  - destruct He as (-> & _ & Hi). destruct o; try done; []. injection Ho as <-. destruct Hi as (p & Hp & ->).
    pose proof (pncounter_image_len p (vec_len _ _ (proj1 (pr_ok _ _ _ Hp))) (vec_len _ _ (proj2 (pr_ok _ _ _ Hp)))) as Hl. rewrite Hl.
    cbn. rewrite take_ge; [|unfold alen, SIZEOF_PNCounter in Hl; lia]. by rewrite (pncounter_of_image p _ _ Hp).
  - destruct He as [-> _]. injection Ho as <-. destruct zero_vec. by split.
Qed.

Lemma pnincr_callback_spec e o pn d node : entry_rep e o -> as_pn o = Some pn -> 0 <= node < CRDT_MAX_NODES ->
  let '(pos, neg) := (if 0 <=? d then (pn.1 + d, pn.2) else (pn.1, pn.2 - d)) : Z * Z in
  pos < 2 ^ 63 -> neg < 2 ^ 63 -> cb_spec (pnincr_callback (mkPNIncr d node) e) (OPn pos neg) (Some (pos - neg)).
Proof.
  intros He Ho Hn. unfold pnincr_callback. cbn [pi_delta pi_node_id]. pose proof (pncounter_start e o pn node He Ho Hn) as Hp.
  set (p := match crdt_value e SIZEOF_PNCounter with Some _ => _ | None => _ end) in *.
  pose proof (pncounter_step_rep p _ _ d Hp) as Hs.
  assert (0 <= pn.2) as Hneg.
  { destruct Hp as [[_ V] Hm _ _ <- _]. rewrite Hm in V. apply vec_sum_nonneg; [unfold CRDT_MAX_NODES; lia|apply V]. }
  destruct (if 0 <=? d then _ else _) as [pos neg] eqn:E. intros B1 B2. specialize (Hs B1 B2).
  assert ((- 2 ^ 63 <? d) = true) as Hd.
  { apply Z.ltb_lt. destruct (Z.leb_spec 0 d); [lia|]. injection E as _ <-. lia. }
  rewrite (pr_num _ _ _ Hp), in_bounds_128, Hd by apply Hp. cbn [andb]. rewrite (pncounter_value_rep _ _ _ Hs).
  eapply cb_spec_write; [exact He|]. cbn. eauto.
Qed.

(** The set a callback starts from. *)
Lemma set_rep_empty node : set_rep (OrSet.orset_create node) 0 [].
Proof. by split. Qed.

Lemma orset_start e o s node : entry_rep e o -> as_set o = Some s ->
  set_rep (orset_of e node) s.1 s.2 /\ OrSet.self_node (orset_of e node) = node.
Proof.
  intros He Ho. unfold entry_rep in He. unfold orset_of. destruct (e_value e) as [d|].
  - destruct He as (-> & _ & Hi). destruct o as [| | |n l|]; try done; []. injection Ho as <-. destruct Hi as (s & Hs & ->). cbn [Z.eqb NEXDT_CRDT Pos.eqb].
    destruct (orset_image_spec s n l node Hs) as [_ ->]. split; [|done]. by eapply set_rep_entries.
  - destruct He as [-> _]. injection Ho as <-. split; [apply set_rep_empty|done].
Qed.

Lemma orset_callback_spec e o s node alloc v : entry_rep e o -> as_set o = Some s -> 0 <= node < CRDT_MAX_NODES -> (forall c, alloc c = true) ->
  (v <> [] -> s.1 < max_adds) ->
  cb_spec (orset_callback node alloc true v e)
    (if decide (v = []) then OSet s.1 s.2 else OSet (s.1 + 1) (s.2 ++ [take 255 v])) (if decide (v = []) then 0 else 1).
Proof.
  intros He Ho Hn Ha Hm. unfold orset_callback. cbn [negb]. destruct (orset_start e o s node He Ho) as [Hs Hself].
  set (v' := take _ v). assert (v' = take 255 v) as ->.
  { subst v'. destruct (Z.ltb_spec 255 (alen v)); [done|]. unfold alen in *. rewrite Nat2Z.id, !take_ge by lia. done. }
  case_decide as Hv.
  - subst v. cbn [take]. eapply (cb_spec_write e o); [done|]. cbn. eauto.
  - assert (0 < alen (take 255 v) <= 255) as Hl.
    { unfold alen. rewrite length_take. destruct v; [done|]. cbn [length]. lia. }
    destruct (set_rep_add alloc _ _ _ (take 255 v) Hs (Hm Hv) Hl) as (s' & -> & Hs'); [rewrite Hself; unfold CRDT_MAX_NODES in Hn; mach|done|].
    eapply (cb_spec_write e o); [done|]. cbn. eauto.
Qed.

Lemma orset_remove_callback_spec e n l node v : entry_rep e (OSet n l) ->
  if decide (cut16 v = [])
  then cb_spec (orset_remove_callback node true v e) (OSet n l) (- 1)
  else cb_spec (orset_remove_callback node true v e) (OSet n (filter (fun x => x <> cut16 v) l)) (if bool_decide (cut16 v ∈ l) then 1 else 0).
Proof.
  intros He. unfold orset_remove_callback. pose proof (orset_start e _ (n, l) node He eq_refl) as [Hs _]. unfold orset_of in Hs.
  pose proof He as He'. unfold entry_rep in He'. destruct (e_value e) as [d|]; [|by destruct He' as [? _]].
  destruct He' as (Ht & _ & _). rewrite Ht in *. cbn [Z.eqb NEXDT_CRDT Pos.eqb negb fst snd] in *.
  case_decide as Hv.
  - rewrite Hv. cbn. eapply (cb_spec_write e _); [exact He|]. cbn. eauto.
  - destruct (set_rep_remove _ _ _ (cut16 v) Hs Hv) as (s' & -> & Hs'). eapply (cb_spec_write e _); [exact He|]. cbn. eauto.
Qed.

Lemma reg_rep_zero : reg_rep (lww_of (calloc SIZEOF_LWWRegister 0)) [].
Proof.
  split; try (vm_compute; split; congruence); try (vm_compute; reflexivity).
  assert (clocks (r_vc (lww_of (calloc SIZEOF_LWWRegister 0))) = calloc CRDT_MAX_NODES 0) as -> by (vm_compute; reflexivity).
  change (vc_num_nodes _) with 0. apply calloc_vec_ok. unfold CRDT_MAX_NODES. lia.
Qed.

Lemma reg_rep_set now r v w : reg_rep r v -> in_u 64 now ->
  reg_rep (lww_set now r w).1 (if (1 <=? alen w) && (alen w <=? 1023) then w else v).
Proof.
  intros Hr Hnow. unfold lww_set. pose proof (alen_nonneg w). destruct (Z.leb_spec 1 (alen w)), (Z.leb_spec (alen w) 1023); cbn [andb].
  2-4: rewrite (proj2 (orb_true_iff _ _)) by (rewrite Z.eqb_eq, Z.ltb_lt; lia); exact Hr.
  rewrite (proj2 (Z.eqb_neq _ _)), (proj2 (Z.ltb_ge _ _)) by lia. cbn [orb fst]. destruct Hr as [Hb Hl Hv Ht Hn Hvc].
  split; cbn [r_value r_value_len r_timestamp_us r_node_id r_vc]; try done.
  - rewrite length_memcpy_front; lia.
  - rewrite memcpy_front_take by lia. apply take_ge. unfold alen. lia.
  - case_if; [|done]. cbn [clocks vc_num_nodes]. destruct Hvc as [Vl Vn Vu Vz]. unfold CRDT_MAX_NODES in *. rewrite wrap_small in E by mach. split; cbn.
    + by rewrite alen_aset.
    + done.
    + intros i Hi. destruct (Z.eq_dec i (r_node_id r)) as [->|Hne]; [rewrite aget_aset_eq by lia; apply wrap_range; lia|].
      rewrite aget_aset_ne by mach. by apply Vu.
    + intros i Hi. rewrite aget_aset_ne by (mach || lia). by apply Vz.
Qed.

Lemma lww_callback_spec e o old now beyond v : entry_rep e o -> as_reg o = Some old -> in_u 64 now ->
  cb_spec (lww_callback now beyond v e) (OReg (if (1 <=? alen (cut16 v)) && (alen (cut16 v) <=? 1023) then cut16 v else old)) 1.
Proof.
  intros He Ho Hnow. unfold lww_callback. set (base := match e_value e with Some _ => _ | None => _ end).
  assert (alen base = SIZEOF_LWWRegister /\ reg_rep (lww_of base) old) as [Hb Hr].
  { subst base. unfold entry_rep in He. destruct (e_value e) as [d|].
    - destruct He as (-> & _ & Hi). destruct o; try done; []. injection Ho as ->. destruct Hi as (base & r & Hb & Hr & ->).
      pose proof (lww_image_len base r _ Hb Hr) as Hl. cbn [Z.eqb NEXDT_CRDT Pos.eqb].
      rewrite take_app_length' by (unfold alen, SIZEOF_LWWRegister in Hl; lia). split; [done|]. by rewrite (lww_of_image base r _ Hb Hr).
    - destruct He as [-> _]. injection Ho as <-. split; [by apply alen_calloc|apply reg_rep_zero]. }
  pose proof (reg_rep_set now _ _ (cut16 v) Hr Hnow) as Hr'. destruct (lww_set now (lww_of base) (cut16 v)) as [r' rc].
  cbn [fst] in Hr'. eapply cb_spec_write; [exact He|]. cbn. eauto.
Qed.

(** ** Runs of commands on one key *)
Definition rep (t : Z) (b : NdBackend) (k : bytes) (o : Obj) : Prop :=
  forall now, t <= now -> entry_rep (rmw_entry now (nd_view now b !! k)) o.

Lemma rep_view t t' b b' k o : rep t b k o -> t <= t' -> (forall now, t' <= now -> nd_view now b' = nd_view now b) -> rep t' b' k o.
Proof. intros H Ht Hv now Hn. rewrite Hv by done. apply H. lia. Qed.

Lemma rmw_rep O (c : Ctx) b k (cb : NexRMWCallback O) t o o' x b' r out : nd_ok b -> key_ok k -> rep t b k o -> t <= now_us c ->
  ready c b k NEXDT_CRDT (- 1) -> (forall e, entry_rep e o -> cb_spec (cb e) o' x) -> ndapi_rmw O c b k cb = (b', r, out) ->
  nd_ok b' /\ out = Some x /\
  ((r = NEXS_OK /\ rep (now_us c) b' k o') \/ (r = NEXS_ERROR /\ (malloc c = None \/ o = OMissing) /\ rep (now_us c) b' k o)).
Proof.
  intros Hb Hk Ho Ht Hr Hcb E. pose proof (nd_rmw_spec O c b k cb b' r out Hb Hk) as H. destruct (Hcb _ (Ho _ Ht)) as (e' & Heq & He & [d Hd]).
  rewrite Heq in H. unfold entry_rep in He. rewrite Hd in He. destruct He as (Hty & Httl & Himg). rewrite Hty, Httl, Hd in H.
  specialize (H (fun _ => Hr) E). destruct H as (Hb' & -> & H). split; [done|]. split; [done|]. rewrite bool_decide_eq_true_2 in H by done.
  destruct H as [[-> Hv]|(-> & Hs & Hv)]; [left|right]; (split; [done|]).
  - intros now Hn. rewrite Hv by done. unfold put. change (nd_live now _) with true. cbn match. rewrite lookup_insert_eq. done.
  - split; [|by eapply rep_view]. destruct Hs as [Hs|Hs]; [by left|right]. specialize (Ho _ Ht). rewrite Hs in Ho. by destruct Ho.
Qed.

(** A callback that refuses leaves the store as it was. *)
Lemma rmw_refused O (c : Ctx) b k (cb : NexRMWCallback O) t o res x b' r out : nd_ok b -> key_ok k -> rep t b k o -> t <= now_us c ->
  res <> NEXS_OK -> (forall e, entry_rep e o -> cb e = (e, res, x)) -> ndapi_rmw O c b k cb = (b', r, out) ->
  nd_ok b' /\ out = Some x /\ r = res /\ rep (now_us c) b' k o.
Proof.
  intros Hb Hk Ho Ht Hres Hcb E. pose proof (nd_rmw_spec O c b k cb b' r out Hb Hk) as H. rewrite (Hcb _ (Ho _ Ht)) in H.
  destruct H as (Hb' & -> & H); [done|done|]. rewrite bool_decide_eq_false_2 in H by done. destruct H as [-> Hv].
  repeat (split; [done|]). by eapply rep_view.
Qed.

Section Runs.
Context {B1 : Type} (main_api : NexStorageAPI B1) (node_id : Z) (k : bytes).
Abbreviation NS := (NexStorage B1 NdBackend).

Definition exec (c : CmdEnv) (gs : option NS) (cmd : Cmd) : option NS * Reply :=
  match cmd with
  | GINCR arg => gincrCommand node_id c gs k arg
  | GCOUNTER_GET => gcounterGetCommand main_api c gs k
  | PNINCR arg => pnincrCommand node_id c gs k arg
  | PNCOUNTER_GET => pncounterGetCommand main_api c gs k
  | ORSET_ADD v => orsetAddCommand node_id c gs k v
  | ORSET_REMOVE v => orsetRemoveCommand node_id c gs k v
  | ORSET_MEMBERS => orsetMembersCommand main_api node_id c gs k
  | LWW_SET v => lwwSetCommand c gs k v
  | LWW_GET => lwwGetCommand main_api c gs k
  end.

(** Commands executed one after the other, with their replies; the clock does
    not go back, and each write finds room for the key. *)
Inductive run : Z -> NS -> list (CmdEnv * Cmd * Reply) -> Z -> NS -> Prop :=
  | run_nil t ns : run t ns [] t ns
  | run_cons t ns c cmd ns1 r tr t' ns' : t <= now_us (cctx c) -> ready (cctx c) (object_backend ns) k NEXDT_CRDT (- 1) ->
      exec c (Some ns) cmd = (Some ns1, r) -> run (now_us (cctx c)) ns1 tr t' ns' -> run t ns ((c, cmd, r) :: tr) t' ns'.

Inductive spec_run : Obj -> list (CmdEnv * Cmd * Reply) -> Obj -> Prop :=
  | spec_nil o : spec_run o [] o
  | spec_cons o c cmd r o1 tr o' : spec_allows c o cmd r o1 -> spec_run o1 tr o' -> spec_run o ((c, cmd, r) :: tr) o'.

(** [main_absent t b]: from [t] on the key is not in the main store; reads keep it so. *)
Variable main_absent : Z -> B1 -> Prop.
Hypothesis main_later : forall t t' b, main_absent t b -> t <= t' -> main_absent t' b.
Hypothesis main_get : forall c b, main_absent (now_us c) b ->
  (api_get main_api c b k).1.2 <> NEXS_OK /\ main_absent (now_us c) (api_get main_api c b k).1.1.
Hypothesis Hk : key_ok k.
Hypothesis Hnode : 0 <= node_id < CRDT_MAX_NODES.

Record holds (t : Z) (ns : NS) (o : Obj) : Prop := {
  ho_ok : nd_ok (object_backend ns); ho_main : main_absent t (main_backend ns); ho_rep : rep t (object_backend ns) k o }.

Lemma read_rep c ns n found missing t o gs r : holds t ns o -> t <= now_us (cctx c) ->
  crdt_read main_api c (Some ns) k n found missing = (gs, r) ->
  exists ns1, gs = Some ns1 /\ holds (now_us (cctx c)) ns1 o /\
    ((o = OMissing /\ r = missing) \/
     exists d, img_rep o d /\ r = if (alen d <=? ND_GET_BUF) && (n <=? alen d) then found d else RError WrongType).
Proof.
  intros [Hb Hm Hr] Ht. unfold crdt_read, with_storage, nexstorage_get. destruct (main_get (cctx c) _ (main_later _ _ _ Hm Ht)) as [Hne Hm'].
  destruct (api_get main_api (cctx c) (main_backend ns) k) as [[b1 r1] o1]. cbn [fst snd] in *. rewrite bool_decide_eq_false_2 by done. cbn [object_backend api_get NexDashTableAPI].
  destruct (ndapi_get (cctx c) (object_backend ns) k) as [[b2 r2] o2] eqn:E. apply nd_law_get in E as (Hb2 & Hv & Ha); [|done..].
  assert (rep (now_us (cctx c)) b2 k o) as Hr2 by (by eapply rep_view).
  specialize (Hr _ Ht). unfold read_answer in Ha. destruct (nd_view (now_us (cctx c)) (object_backend ns) !! k) as [v|].
  - cbn in Hr. destruct Hr as (Hty & _ & Hi).
    destruct (Z.leb_spec (alen (v_data v)) ND_GET_BUF); destruct Ha as [-> ->]; intros [= <- <-]; eexists; (split; [reflexivity|]); (split; [by split|]);
      right; exists (v_data v); (split; [done|]); rewrite ?(proj2 (Z.leb_le (alen (v_data v)) ND_GET_BUF)), ?(proj2 (Z.leb_gt (alen (v_data v)) ND_GET_BUF)) by lia; [|done].
    unfold crdt_value. cbn [entry_of e_value e_type andb]. rewrite Hty. cbn [Z.eqb NEXDT_CRDT Pos.eqb]. rewrite andb_true_r.
    by destruct (n <=? alen (v_data v)).
  - destruct Ha as [-> ->]. intros [= <- <-]. eexists. split; [reflexivity|]. split; [by split|]. left. split; [by destruct Hr|done].
Qed.

Lemma rmw_holds O c ns (cb : NexRMWCallback O) t o o' x ns' res out : holds t ns o -> t <= now_us c ->
  ready c (object_backend ns) k NEXDT_CRDT (- 1) -> (forall e, entry_rep e o -> cb_spec (cb e) o' x) ->
  nexstorage_rmw NexDashTableAPI c ns k cb = (ns', res, out) ->
  out = Some x /\ ((res = NEXS_OK /\ holds (now_us c) ns' o') \/ (res = NEXS_ERROR /\ (malloc c = None \/ o = OMissing) /\ holds (now_us c) ns' o)).
Proof.
  intros [Hb Hm Hr] Ht Hrd Hcb. unfold nexstorage_rmw. cbn [api_rmw NexDashTableAPI].
  destruct (ndapi_rmw O c (object_backend ns) k cb) as [[b2 r2] o2] eqn:E. intros [= <- <- <-].
  eapply rmw_rep in E as (Hb2 & -> & H); [|done..]. split; [done|].
  destruct H as [[-> H]|(-> & Hs & H)]; [left|right]; repeat (split; [done|]); (split; [done|by eapply main_later|done]).
Qed.

Lemma rmw_refused_holds O c ns (cb : NexRMWCallback O) t o e0 x ns' res out : holds t ns o -> t <= now_us c ->
  e0 <> NEXS_OK -> (forall e, entry_rep e o -> cb e = (e, e0, x)) -> nexstorage_rmw NexDashTableAPI c ns k cb = (ns', res, out) ->
  out = Some x /\ res = e0 /\ holds (now_us c) ns' o.
Proof.
  intros [Hb Hm Hr] Ht He Hcb. unfold nexstorage_rmw. cbn [api_rmw NexDashTableAPI].
  destruct (ndapi_rmw O c (object_backend ns) k cb) as [[b2 r2] o2] eqn:E. intros [= <- <- <-].
  eapply rmw_refused in E as (Hb2 & -> & -> & H); [|done..]. split; [done|]. split; [done|]. split; [done|by eapply main_later|done].
Qed.

(** A step that the specification has an answer for. *)
Definition step_ok (t : Z) (ns : NS) (o : Obj) (c : CmdEnv) (cmd : Cmd) : Prop := forall gs r, exec c (Some ns) cmd = (gs, r) ->
  exists ns1 o', gs = Some ns1 /\ spec_allows c o cmd r o' /\ holds (now_us (cctx c)) ns1 o'.

Lemma holds_later t t' ns o : holds t ns o -> t <= t' -> holds t' ns o.
Proof. intros [? ? H] Ht. split; [done|by eapply main_later|by eapply rep_view]. Qed.

Section Step.
Variables (t : Z) (ns : NS) (o : Obj) (c : CmdEnv).
Hypothesis Hh : holds t ns o.
Hypothesis Ht : t <= now_us (cctx c).
Hypothesis Hrd : ready (cctx c) (object_backend ns) k NEXDT_CRDT (- 1).

(** The common end of the writing commands. *)
Lemma write_done {O} cmd (cb : NexRMWCallback O) o' x (mk : option O -> Reply) fail ns' res out :
  (forall e, entry_rep e o -> cb_spec (cb e) o' x) -> spec_step o cmd = Some (mk (Some x), o') -> failure cmd = Some fail ->
  (malloc (cctx c) = None \/ o = OMissing -> memory_short c o cmd) ->
  nexstorage_rmw NexDashTableAPI (cctx c) ns k cb = (ns', res, out) ->
  out = Some x /\ exists o1, spec_allows c o cmd (if bool_decide (res = NEXS_OK) then mk out else fail) o1 /\ holds (now_us (cctx c)) ns' o1.
Proof.
  intros Hcb Hs Hf Hm E. eapply rmw_holds in E as (-> & H); [|done..]. split; [done|].
  destruct H as [[-> H]|(-> & Hn & H)]; [rewrite bool_decide_eq_true_2 by done|rewrite bool_decide_eq_false_2 by done]; eexists; (split; [|exact H]).
  - by left.
  - right. rewrite Hs. split_and!; auto.
Qed.

Lemma count_nonneg n : as_count o = Some n -> 0 <= n.
Proof.
  intros Ho. pose proof (ho_rep _ _ _ Hh _ Ht) as He. unfold entry_rep in He. destruct (e_value _) as [d|].
  - destruct He as (_ & _ & Hi). destruct o; try done; []. injection Ho as ->. destruct Hi as (g & Hg & _).
    by eapply g_rep_nonneg.
  - destruct He as [-> _]. by injection Ho as <-.
Qed.

Lemma step_gincr arg : is_Some (spec_step o (GINCR arg)) -> step_ok t ns o c (GINCR arg).
Proof.
  intros [[r0 o0] Hs] gs r. pose proof Hs as Hs'. cbn [exec]. cbn [spec_step] in Hs'. unfold gincrCommand, with_storage, with_integer.
  destruct (string2llScalar arg) as [d|].
  - destruct (as_count o) as [n|] eqn:Ho; [|done]. cbn in Hs'. case_if_in Hs'; [|done]. injection Hs' as <- <-.
    destruct (nexstorage_rmw _ _ _ _ _) as [[ns' res] out] eqn:E. pose proof (count_nonneg n Ho).
    eapply (write_done (GINCR arg) _ _ _ (fun out => match out with Some (Some v) => RInt (i64 v) | _ => RUndefined end)) in E as (-> & o1 & Ha & Hh1);
      [|intros e He; apply (gincr_callback_spec e o n d node_id); [done|done|done|lia|lia]|cbv beta iota; rewrite swrap_small by mach; exact Hs|reflexivity|done].
    intros [= <- <-]. exists ns', o1. done.
  - injection Hs' as <- <-. intros [= <- <-]. exists ns, o. split; [done|]. split; [by left|]. by eapply holds_later.
Qed.

Lemma step_pnincr arg : is_Some (spec_step o (PNINCR arg)) -> step_ok t ns o c (PNINCR arg).
Proof.
  intros [[r0 o0] Hs] gs r. pose proof Hs as Hs'. cbn [exec]. cbn [spec_step] in Hs'. unfold pnincrCommand, with_storage, with_integer.
  destruct (string2llScalar arg) as [d|].
  - destruct (as_pn o) as [pn|] eqn:Ho; [|done]. cbn in Hs'.
    pose proof (fun e He => pnincr_callback_spec e o pn d node_id He Ho Hnode) as Hcb.
    destruct (if 0 <=? d then _ else _) as [pos neg]. case_if_in Hs'; [|done]. injection Hs' as <- <-.
    destruct (nexstorage_rmw _ _ _ _ _) as [[ns' res] out] eqn:E.
    eapply (write_done (PNINCR arg) _ _ _ (fun out => match out with Some (Some v) => RInt v | _ => RUndefined end)) in E as (-> & o1 & Ha & Hh1);
      [|intros e He; by apply Hcb|exact Hs|reflexivity|cbn; tauto].
    intros [= <- <-]. exists ns', o1. done.
  - injection Hs' as <- <-. intros [= <- <-]. exists ns, o. split; [done|]. split; [by left|]. by eapply holds_later.
Qed.

Lemma step_add v : is_Some (spec_step o (ORSET_ADD v)) -> step_ok t ns o c (ORSET_ADD v).
Proof.
  intros [[r0 o0] Hs] gs r. pose proof Hs as Hs'. cbn [exec]. cbn [spec_step] in Hs'. unfold orsetAddCommand, with_storage.
  destruct (as_set o) as [s|] eqn:Ho; [|done]. cbn [mbind option_bind] in Hs'.
  destruct (nexstorage_rmw _ _ _ _ _) as [[ns' res] out] eqn:E. intros [= <- <-]. destruct (set_alloc c) eqn:Ea.
  - assert (v <> [] -> s.1 < max_adds) as Hm.
    { intros Hv. rewrite decide_False in Hs' by done. case_if_in Hs'; [lia|done]. }
    assert (r0 = RInt 1 /\ o0 = if decide (v = []) then OSet s.1 s.2 else OSet (s.1 + 1) (s.2 ++ [take 255 v])) as [-> ->].
    { destruct (decide (v = [])); [by injection Hs' as <- <-|]. case_if_in Hs'; [by injection Hs' as <- <-|done]. }
    eapply (write_done (ORSET_ADD v) _ _ _ (fun _ => RInt 1)) in E as (-> & o1 & Ha & Hh1); [|intros e He|exact Hs|reflexivity|cbn; tauto]; [by exists ns', o1|].
    apply (orset_callback_spec e o s); [done|done|done|intros; apply Hrd|done].
  - eapply (rmw_refused_holds _ _ _ _ _ _ NEXS_ERROR) in E as (_ & -> & Hh1); [|done..]. exists ns', o. split; [done|]. split; [|done].
    right. rewrite Hs. split_and!; [done|cbn; by left|done|by eexists].
Qed.

Lemma step_remove v : is_Some (spec_step o (ORSET_REMOVE v)) -> step_ok t ns o c (ORSET_REMOVE v).
Proof.
  intros [[r0 o0] Hs] gs r. pose proof Hs as Hs'. cbn [exec]. cbn [spec_step] in Hs'. unfold orsetRemoveCommand, with_storage.
  destruct (nexstorage_rmw _ _ _ _ _) as [[ns' res] out] eqn:E. intros [= <- <-].
  assert (forall e, entry_rep e OMissing -> orset_remove_callback node_id (set_alloc c) v e = (e, NEXS_NOT_FOUND, 0)) as Hmiss.
  { intros e He. unfold orset_remove_callback, entry_rep in *. by destruct (e_value e) as [d|]; [destruct He as (_ & _ & [])|]. }
  assert (forall n l e, entry_rep e (OSet n l) -> orset_remove_callback node_id false v e = (e, NEXS_ERROR, 0)) as Hsh.
  { intros n l e He. unfold orset_remove_callback, entry_rep in *. destruct (e_value e) as [d|]; [|by destruct He]. by destruct He as (-> & _). }
  assert (o = OMissing \/ exists n l, o = OSet n l) as [Eo|(n & l & Eo)].
  { clear -Hs'. destruct o; try done; eauto. }
  - rewrite Eo in Hs'. injection Hs' as <- <-.
    eapply (rmw_refused_holds _ _ _ _ _ _ NEXS_NOT_FOUND) in E as (-> & -> & Hh1); [|done|done|done|intros e He; apply Hmiss; by rewrite <- Eo].
    exists ns', o. split; [done|]. split; [left; by rewrite Hs, Eo|done].
  - rewrite Eo in Hs'. destruct (set_alloc c) eqn:Ea.
    + pose proof (fun e He => orset_remove_callback_spec e n l node_id v He) as Hcb. rewrite <- Eo in Hcb. case_decide; injection Hs' as <- <-;
        (eapply (write_done (ORSET_REMOVE v) _ _ _ (fun x => RInt (default 0 x))) in E as (-> & o1 & Ha & Hh1);
          [|exact Hcb|rewrite Hs; by rewrite ?Eo|reflexivity|cbn; tauto]; by exists ns', o1).
    + eapply (rmw_refused_holds _ _ _ _ _ _ NEXS_ERROR) in E as (-> & -> & Hh1); [|done|done|done|intros e He; apply (Hsh n l); by rewrite <- Eo].
      exists ns', o. split; [done|]. split; [|done]. right. rewrite Hs. split_and!; [done|cbn; by left|done|by eexists].
Qed.

Lemma step_lww_set v : is_Some (spec_step o (LWW_SET v)) -> step_ok t ns o c (LWW_SET v).
Proof.
  intros [[r0 o0] Hs] gs r. pose proof Hs as Hs'. cbn [exec]. cbn [spec_step] in Hs'. unfold lwwSetCommand, with_storage.
  destruct (nexstorage_rmw _ _ _ _ _) as [[ns' res] out] eqn:E. intros [= <- <-].
  destruct (as_reg o) as [old|] eqn:Ho; [|done]. injection Hs' as <- <-.
  eapply (write_done (LWW_SET v) _ _ _ (fun _ => RStatusOK)) in E as (-> & o1 & Ha & Hh1); [|intros e He|exact Hs|reflexivity|cbn; tauto]; [by exists ns', o1|].
  apply (lww_callback_spec e o); [done|done|]. pose proof (rd_clock _ _ _ _ _ Hrd). mach.
Qed.
(** The reading commands leave the object as it is. *)
Lemma read_done cmd n found missing : (forall gs r, exec c (Some ns) cmd = (gs, r) -> crdt_read main_api c (Some ns) k n found missing = (gs, r)) ->
  (o = OMissing -> spec_allows c o cmd missing o) ->
  (forall d, img_rep o d -> spec_allows c o cmd (if (alen d <=? ND_GET_BUF) && (n <=? alen d) then found d else RError WrongType) o) ->
  step_ok t ns o c cmd.
Proof.
  intros Hex Hmiss Hfound gs r E. apply Hex in E. eapply read_rep in E as (ns1 & -> & Hh1 & [[Eo ->]|(d & Hi & ->)]); [| |done..];
    exists ns1, o; (split; [done|]); (split; [|done]); auto.
Qed.

Lemma step_gget : is_Some (spec_step o GCOUNTER_GET) -> step_ok t ns o c GCOUNTER_GET.
Proof.
  intros [[r0 o0] Hs]. eapply read_done; [done|intros ->; by left|]. intros d Hi. left. cbn [spec_step] in *. destruct o as [|n| | |]; try done; [].
  destruct Hi as (g & Hg & ->). rewrite gcounter_image_len by apply Hg. cbn [andb]. change (_ && _) with true. cbv iota.
  rewrite (gcounter_of_image g n Hg), (gr_num _ _ Hg), (gcounter_value_rep g n Hg).
  change (sum_in_bounds CRDT_MAX_NODES) with true. cbv iota. cbn. rewrite swrap_small; [done|lia|].
  pose proof (gr_bound _ _ Hg). pose proof (g_rep_nonneg g n Hg). mach.
Qed.

Lemma step_pnget : is_Some (spec_step o PNCOUNTER_GET) -> step_ok t ns o c PNCOUNTER_GET.
Proof.
  intros [[r0 o0] Hs]. eapply read_done; [done|intros ->; by left|]. intros d Hi. left. cbn [spec_step] in *. destruct o as [| |pos neg| |]; try done; [].
  destruct Hi as (p & Hp & ->). rewrite pncounter_image_len by apply (pr_ok _ _ _ Hp). change (_ && _) with true. cbv iota.
  rewrite (pncounter_of_image p pos neg Hp), (pr_num _ _ _ Hp), (pncounter_value_rep p pos neg Hp). done.
Qed.

Lemma step_members : is_Some (spec_step o ORSET_MEMBERS) -> step_ok t ns o c ORSET_MEMBERS.
Proof.
  intros [[r0 o0] Hs]. eapply read_done; [done|intros ->; by left|]. intros d Hi. cbn [spec_step] in *. destruct o as [| | |n l|]; try done; [].
  destruct Hi as (s & Hset & ->). destruct (orset_image_spec s n l node_id Hset) as [Hl Hd]. rewrite Hd, Hl. pose proof (sr_bound _ _ _ Hset).
  rewrite (proj2 (Z.leb_le 0 _)), andb_true_r by lia. unfold ND_GET_BUF. unfold spec_allows. cbn [spec_step as_set mbind option_bind fst snd]. unfold max_readable.
  destruct (Z.leb_spec n 3744); [rewrite (proj2 (Z.leb_le (8 + n * 280) _)) by lia|rewrite (proj2 (Z.leb_gt (8 + n * 280) _)) by lia; by left].
  destruct (set_alloc c) eqn:Ea; cbn [negb]; [left|right; by split_and!].
  assert (values_in_bounds (OrSet.mkORSet (OrSet.entries s) (Z.max 1 n) (n + 1) node_id) = true) as ->.
  { unfold values_in_bounds. apply forallb_forall. intros e He. apply list_elem_of_In in He. cbn in He.
    pose proof (proj1 (Forall_forall _ _) (sr_ok _ _ _ Hset) e He) as [_ Hlen]. rewrite (proj2 (Z.leb_le _ _)) by lia. apply orb_true_r. }
  unfold live_values. cbn [OrSet.entries]. fold (live_values s). by rewrite (sr_live _ _ _ Hset).
Qed.

Lemma step_lww_get : is_Some (spec_step o LWW_GET) -> step_ok t ns o c LWW_GET.
Proof.
  intros [[r0 o0] Hs]. eapply read_done; [done|intros ->; by left|]. intros d Hi. left. cbn [spec_step] in *. destruct o as [| | | |v]; try done; [].
  destruct Hi as (base & r & Hb & Hr & ->). rewrite (lww_image_len base r v Hb Hr), (lww_of_image base r v Hb Hr). change (_ && _) with true. cbv iota.
  unfold lww_get. destruct Hr as [Hbuf Hlen <- _ _ _]. by rewrite (proj2 (Z.ltb_lt _ 1024)) by lia.
Qed.

Lemma step_spec cmd : is_Some (spec_step o cmd) -> step_ok t ns o c cmd.
Proof.
  destruct cmd;
    auto using step_gincr, step_gget, step_pnincr, step_pnget, step_add, step_remove, step_members, step_lww_set, step_lww_get.
Qed.
End Step.

Lemma run_spec t ns tr t' ns' : run t ns tr t' ns' -> forall o, holds t ns o ->
  (exists o', spec_run o tr o' /\ holds t' ns' o') \/
  (exists tr1 c cmd r tr2 o1, tr = tr1 ++ (c, cmd, r) :: tr2 /\ spec_run o tr1 o1 /\ spec_step o1 cmd = None).
Proof.
  induction 1 as [t ns|t ns c cmd ns1 r tr t' ns' Ht Hrd E _ IH]; intros o Hh; [left; exists o; split; [constructor|done]|].
  destruct (spec_step o cmd) as [x|] eqn:Es; [|right; exists [], c, cmd, r, tr, o; split_and!; [done|constructor|done]].
  destruct (step_spec t ns o c Hh Ht Hrd cmd ltac:(by rewrite Es) _ _ E) as (ns2 & o1 & [= <-] & Ha & Hh1).
  destruct (IH o1 Hh1) as [(o' & Hr & Hh')|(tr1 & c' & cmd' & r' & tr2 & o2 & -> & Hr & Hn)].
  - left. exists o'. split; [by econstructor|done].
  - right. exists ((c, cmd, r) :: tr1), c', cmd', r', tr2, o2. split_and!; [done|by econstructor|done].
Qed.
End Runs.


(** GINCR with a negative number on a counter whose own entry is at least as
    large saturates that entry for good: every later increment is lost. *)
Lemma gincr_negative_saturates g d d' : gcounter_ok g -> g_num_nodes g = CRDT_MAX_NODES -> 0 <= g_self_node g < CRDT_MAX_NODES ->
  - 2 ^ 63 <= d < 0 -> - d <= aget (g_values g) (g_self_node g) -> 0 < d' < 2 ^ 63 ->
  let g1 := gcounter_increment g (u64 d) in
  aget (g_values g1) (g_self_node g1) = UINT64_MAX /\ g_values (gcounter_increment g1 (u64 d')) = g_values g1.
Proof.
  intros [Hl Hn Hu Hz] Hm Hs Hd Hb Hd'. unfold gcounter_increment. rewrite Hm. rewrite (proj2 (Z.leb_gt (u32 CRDT_MAX_NODES) _)) by exact (proj2 Hs).
  cbn [g_num_nodes g_self_node g_values]. rewrite (proj2 (Z.leb_gt (u32 CRDT_MAX_NODES) _)) by exact (proj2 Hs). cbn [g_values].
  assert (u64 d = 2 ^ 64 + d) as -> by (unfold wrap; rewrite <- (Z.mod_add d 1 (2 ^ 64)) by lia; rewrite Z.mod_small; mach).
  pose proof (Hu _ Hs). assert (sat_add_at (g_values g) (g_self_node g) (2 ^ 64 + d) = aset (g_values g) (g_self_node g) UINT64_MAX) as ->.
  { unfold sat_add_at. rewrite (wrap_small 64 (_ - _)) by mach. by rewrite (proj2 (Z.ltb_lt _ _)) by mach. }
  assert (aget (aset (g_values g) (g_self_node g) UINT64_MAX) (g_self_node g) = UINT64_MAX) as Hget by (apply aget_aset_eq; rewrite Hl; lia).
  split; [done|]. unfold sat_add_at. rewrite Hget, (wrap_small 64 d') by mach. change (wrap 64 (UINT64_MAX - UINT64_MAX)) with 0.
  rewrite (proj2 (Z.ltb_lt 0 d')) by lia. unfold aset. apply list_insert_insert_eq.
Qed.

(** GINCR on a key that holds an OR-Set of four members or more reads the node
    count and the node number out of the fourth member, so that the sender of
    that member chooses where the counter is written. *)
Lemma gincr_on_orset s n l e0 e1 e2 e3 es : set_rep s n l -> OrSet.entries s = e0 :: e1 :: e2 :: e3 :: es ->
  let g := gcounter_of (take 1032 (orset_image s)) in
  g_num_nodes g = i32 (le_val (field (OrSet.value e3) 176 4)) /\ g_self_node g = le_val (field (OrSet.value e3) 180 4).
Proof.
  intros Hs He. assert (Forall OrSetCodec.entry_typed [e0; e1; e2; e3]) as Hty.
  { pose proof (sr_typed _ _ _ Hs) as H. rewrite He in H. by repeat (apply Forall_cons in H as [? H]; constructor; [done|]). }
  unfold orset_image, OrSetCodec.orset_serialize, OrSetCodec.orset_serialized_size. rewrite Z.ltb_irrefl. cbn [default from_option id].
  rewrite He. cbn [map concat]. unfold gcounter_of. cbn [g_num_nodes g_self_node].
  assert (forall off b, (off + 4 <= 1032)%nat -> field (take 1032 b) off 4 = field b off 4) as Htake.
  { intros off b Ho. unfold OrSetCodec.field. rewrite skipn_firstn_comm, take_take. f_equal. lia. }
  rewrite !Htake by lia. inversion_clear Hty as [|? ? T0 Hty']. inversion_clear Hty' as [|? ? T1 Hty'']. inversion_clear Hty'' as [|? ? T2 Hty']. inversion_clear Hty' as [|? ? T3 _].
  assert (forall off b, (off + 4 <= 256)%nat -> field (OrSetCodec.entry_image e3 ++ b) off 4 = field (OrSet.value e3) off 4) as Hval.
  { intros off b Ho. unfold OrSetCodec.entry_image. rewrite <- app_assoc. pose proof (OrSetCodec.typed_value _ T3) as Hv. unfold alen in Hv.
    unfold OrSetCodec.field. rewrite drop_app_le by lia. apply take_app_le. rewrite length_drop. lia. }
  split; [do 2 f_equal|f_equal]; do 2 (rewrite OrSetCodec.field_skip, length_le_bytes by (rewrite length_le_bytes; lia));
    do 3 (rewrite OrSetCodec.field_skip by (rewrite OrSetCodec.length_entry_image by (apply T0 || apply T1 || apply T2); lia);
          rewrite OrSetCodec.length_entry_image by (apply T0 || apply T1 || apply T2)); cbn [Nat.sub]; apply Hval; lia.
Qed.

(** ** Example: a counter in the default configuration *)
Definition main_missing (k : bytes) (t : Z) (b : NdBackend) : Prop := nd_ok b /\ forall now, t <= now -> nd_view now b !! k = None.

Lemma main_missing_get k : key_ok k -> forall c b, main_missing k (now_us c) b ->
  (api_get NexDashTableAPI c b k).1.2 <> NEXS_OK /\ main_missing k (now_us c) (api_get NexDashTableAPI c b k).1.1.
Proof.
  intros Hk c b [Hb Hn]. cbn [api_get NexDashTableAPI]. destruct (ndapi_get c b k) as [[b' r] out] eqn:E.
  apply nd_law_get in E as (Hb' & Hv & Ha); [|done..]. cbn [fst snd]. rewrite Hn in Ha by lia. destruct Ha as [-> _]. split; [done|].
  split; [done|]. intros now H. rewrite Hv by done. auto.
Qed.

Definition two_stores : NexStorage NdBackend NdBackend := mkStorage nd_empty nd_empty.
Definition at_time (t addr : Z) : CmdEnv := mkCmdEnv (mkCtx t true true (Some addr)) true [].

Lemma two_stores_holds : holds nd_key (main_missing nd_key) 2000000 two_stores OMissing.
Proof.
  destruct (ndapi_create_ok (fun _ => 2) 0 nd_blocks) as [Hok Hv]. fold nd_empty in Hok, Hv. split; cbn [two_stores main_backend object_backend]; [done| |].
  - split; [done|]. intros now _. by rewrite Hv.
  - intros now _. by rewrite Hv.
Qed.

(** GINCR k 5, then GCOUNTER.GET k. *)
Definition after_incr : NexStorage NdBackend NdBackend :=
  default two_stores (exec NexDashTableAPI 3 nd_key (at_time 2000000 4096) (Some two_stores) (GINCR [53])).1.
Definition after_get : NexStorage NdBackend NdBackend :=
  default two_stores (exec NexDashTableAPI 3 nd_key (at_time 3000000 8192) (Some after_incr) GCOUNTER_GET).1.

Definition example_trace : list (CmdEnv * Cmd * Reply) :=
  [(at_time 2000000 4096, GINCR [53], RInt 5); (at_time 3000000 8192, GCOUNTER_GET, RInt 5)].

Lemma example_run : run NexDashTableAPI 3 nd_key 2000000 two_stores example_trace 3000000 after_get.
Proof.
  eapply (run_cons _ _ _ _ _ (at_time 2000000 4096) _ after_incr); [cbn; lia| |vm_compute; reflexivity|].
  { constructor; [reflexivity|vm_compute; congruence|by vm_compute|split; [vm_compute; split; congruence|reflexivity]|vm_compute; split; congruence|cbn; lia]. }
  eapply (run_cons _ _ _ _ _ (at_time 3000000 8192) _ after_get); [cbn; lia| |vm_compute; reflexivity|apply run_nil].
  constructor; [reflexivity|vm_compute; congruence|by vm_compute|split; [vm_compute; split; congruence|vm_compute; reflexivity]|vm_compute; split; congruence|cbn; lia].
Qed.

