(* ===== verification/Mpsc.v ===== *)
(** * The lock-free queue (src/src/vera_lockfree.h)

    Vyukov's queue for many producers and one consumer, with every atomic
    access a step of its own: any number of [mpsc_enqueue] calls, one per
    node, interleave with the calls of [mpsc_dequeue].  The accesses are
    sequentially consistent, as the C11 defaults say.  A node is a non-zero
    address, [stub] the one embedded in the queue.  [free] is the set of nodes
    in the hands of the clients: a node is enqueued only when it is there.
    [overlap] is a history variable: whether an enqueue was between its two
    writes at some moment of the current dequeue. *)
From S2P Require Import Prelude.

Section Mpsc.
Variable stub : Z.

(** An enqueue under way: the node's link is cleared, or the node is the new
    head and the link from the previous one is missing. *)
Inductive Op := Stored | Swapped (prev : Z).

(** Where the consumer is in [mpsc_dequeue]; the argument is its [tail]. *)
Inductive Pc :=
  | Idle | LoadNext (tail : Z) | LoadHead (tail : Z)
  | StubStore (tail : Z) | StubSwap (tail : Z) | StubLink (tail prev : Z) | ReloadNext (tail : Z).

Record Queue := mkQueue {
  next : Z -> Z; head : Z; tail : Z;
  inflight : gmap Z Op; pc : Pc; free : gset Z; overlap : bool }.

Definition upd (f : Z -> Z) (a x : Z) : Z -> Z := fun b => if b =? a then x else f b.
Definition is_swapped (x : Op) : bool := match x with Stored => false | Swapped _ => true end.
Definition some_swapped (m : gmap Z Op) : bool := existsb (fun x => is_swapped x.2) (map_to_list m).

Definition mpsc_init (nodes : gset Z) : Queue := mkQueue (fun _ => 0) stub stub ∅ Idle nodes false.

(** The three accesses of [mpsc_enqueue]. *)
Definition enqueue_store (q : Queue) (n : Z) : Queue :=
  mkQueue (upd (next q) n 0) (head q) (tail q) (<[n := Stored]> (inflight q)) (pc q) (free q ∖ {[n]}) (overlap q).
Definition enqueue_swap (q : Queue) (n : Z) : Queue :=
  mkQueue (next q) n (tail q) (<[n := Swapped (head q)]> (inflight q)) (pc q) (free q) true.
Definition enqueue_link (q : Queue) (n prev : Z) : Queue :=
  mkQueue (upd (next q) prev n) (head q) (tail q) (delete n (inflight q)) (pc q) (free q) (overlap q).

(** What a call answers: a node, or NULL with the history of the call. *)
Inductive Event := Enq (n : Z) | Deq (n : Z) | Null (overlap : bool).

Definition goto (q : Queue) (c : Pc) : Queue := mkQueue (next q) (head q) (tail q) (inflight q) c (free q) (overlap q).
Definition return_null (q : Queue) : Queue * option Event := (goto q Idle, Some (Null (overlap q))).
(** [q->tail = next; return tail;] *)
Definition return_node (q : Queue) (t nx : Z) : Queue * option Event :=
  (mkQueue (next q) (head q) nx (inflight q) Idle (free q ∪ {[t]}) (overlap q), Some (Deq t)).
Definition after_next (q : Queue) (t : Z) : Queue * option Event :=
  if negb (next q t =? 0) then return_node q t (next q t) else (goto q (LoadHead t), None).

(** One access of [mpsc_dequeue] and what follows it up to the next one. *)
Definition dequeue_step (q : Queue) : Queue * option Event :=
  match pc q with
  | Idle =>
      let q := mkQueue (next q) (head q) (tail q) (inflight q) Idle (free q) (some_swapped (inflight q)) in
      let t := tail q in
      if t =? stub then
        if next q t =? 0 then return_null q
        else (mkQueue (next q) (head q) (next q t) (inflight q) (LoadNext (next q t)) (free q) (overlap q), None)
      else after_next q t
  | LoadNext t => after_next q t
  | LoadHead t => if negb (t =? head q) then return_null q else (goto q (StubStore t), None)
  | StubStore t => (mkQueue (upd (next q) stub 0) (head q) (tail q) (<[stub := Stored]> (inflight q)) (StubSwap t) (free q) (overlap q), None)
  | StubSwap t => (mkQueue (next q) stub (tail q) (<[stub := Swapped (head q)]> (inflight q)) (StubLink t (head q)) (free q) (overlap q), None)
  | StubLink t prev => (mkQueue (upd (next q) prev stub) (head q) (tail q) (delete stub (inflight q)) (ReloadNext t) (free q) (overlap q), None)
  | ReloadNext t => if negb (next q t =? 0) then return_node q t (next q t) else return_null q
  end.

(** A step of some producer. *)
Inductive producer : Queue -> option Event -> Queue -> Prop :=
  | producer_store q n : n ∈ free q -> producer q None (enqueue_store q n)
  | producer_swap q n : n <> stub -> inflight q !! n = Some Stored -> producer q (Some (Enq n)) (enqueue_swap q n)
  | producer_link q n p : n <> stub -> inflight q !! n = Some (Swapped p) -> producer q None (enqueue_link q n p).

(** An execution: the events, and the number of steps of the consumer. *)
Inductive exec : Queue -> list Event -> nat -> Queue -> Prop :=
  | exec_nil q : exec q [] 0 q
  | exec_producer q ev q1 tr n q2 : producer q ev q1 -> exec q1 tr n q2 -> exec q (option_list ev ++ tr) n q2
  | exec_consumer q ev q1 tr n q2 : dequeue_step q = (q1, ev) -> exec q1 tr n q2 -> exec q (option_list ev ++ tr) (S n) q2.

(** A whole call of [mpsc_dequeue] without interference, and of [mpsc_enqueue]. *)
Fixpoint dequeue_loop (fuel : nat) (q : Queue) : Queue * option Event :=
  match fuel with
  | O => (q, None)
  | S fuel => match dequeue_step q with (q, None) => dequeue_loop fuel q | (q, Some ev) => (q, Some ev) end
  end.
Definition mpsc_dequeue (q : Queue) : Queue * option Event := dequeue_loop 7 q.
Definition mpsc_enqueue (q : Queue) (n : Z) : Queue :=
  let q := enqueue_store q n in let prev := head q in enqueue_link (enqueue_swap q n) n prev.

(** ** What the queue promises: a FIFO queue that may answer NULL during an
    enqueue, and otherwise only when it is empty. *)
Inductive fifo : list Z -> list Event -> list Z -> Prop :=
  | fifo_nil q : fifo q [] q
  | fifo_enq q n tr q' : fifo (q ++ [n]) tr q' -> fifo q (Enq n :: tr) q'
  | fifo_deq q n tr q' : fifo q tr q' -> fifo (n :: q) (Deq n :: tr) q'
  | fifo_null q b tr q' : (b = false -> q = []) -> fifo q tr q' -> fifo q (Null b :: tr) q'.

(** ** Neighbours in the chain *)
Definition succ (L : list Z) (a b : Z) : Prop := exists i, L !! i = Some a /\ L !! S i = Some b.

Lemma succ_elem L a b : succ L a b -> a ∈ L /\ b ∈ L.
Proof. intros (i & H1 & H2). split; by eapply list_elem_of_lookup_2. Qed.

Lemma succ_fun L a b c : NoDup L -> succ L a b -> succ L a c -> b = c.
Proof. intros Hn (i & H1 & H2) (j & H3 & H4). assert (i = j) as -> by (by eapply NoDup_lookup). congruence. Qed.

Lemma succ_inj L a b c : NoDup L -> succ L a c -> succ L b c -> a = b.
Proof. intros Hn (i & H1 & H2) (j & H3 & H4). assert (S i = S j) as [= ->] by (by eapply NoDup_lookup). congruence. Qed.

Lemma succ_snoc L n a b : succ (L ++ [n]) a b -> succ L a b \/ (last L = Some a /\ b = n).
Proof.
  intros (i & H1 & H2). apply lookup_app_Some in H2 as [H2|[Hl H2]].
  - left. exists i. split; [|done]. apply lookup_lt_Some in H2. by rewrite lookup_app_l in H1 by lia.
  - right. apply list_lookup_singleton_Some in H2 as [H2 <-]. split; [|done]. rewrite lookup_app_l in H1 by lia.
    rewrite last_lookup. replace (pred (length L)) with i by lia. done.
Qed.

Lemma succ_snoc_l L n a b : succ L a b -> succ (L ++ [n]) a b.
Proof. intros (i & H1 & H2). exists i. split; by apply lookup_app_l_Some. Qed.

Lemma succ_snoc_last L n h : last L = Some h -> succ (L ++ [n]) h n.
Proof.
  intros H. exists (pred (length L)). rewrite last_lookup in H. pose proof (lookup_lt_Some _ _ _ H). split; [by apply lookup_app_l_Some|].
  rewrite lookup_app_r by lia. replace (S (pred (length L)) - length L)%nat with 0%nat by lia. done.
Qed.

Lemma succ_tl t L a b : succ L a b -> succ (t :: L) a b.
Proof. intros (i & H1 & H2). by exists (S i). Qed.

Lemma succ_cons t L a b : NoDup (t :: L) -> succ (t :: L) a b -> a <> t -> succ L a b.
Proof. intros Hn ([|i] & H1 & H2) Hne; [by injection H1 as ->|]. by exists i. Qed.

Lemma succ_last L a b : NoDup L -> last L = Some a -> ~ succ L a b.
Proof.
  intros Hn Hl (i & H1 & H2). rewrite last_lookup in Hl. assert (i = pred (length L)) as -> by (by eapply NoDup_lookup).
  apply lookup_lt_Some in H2. lia.
Qed.

Lemma not_last_succ L a : a ∈ L -> last L <> Some a -> exists b, succ L a b.
Proof.
  intros [i Hi]%list_elem_of_lookup Hl. destruct (L !! S i) as [b|] eqn:E; [by exists b, i|]. destruct Hl.
  apply lookup_ge_None in E. pose proof (lookup_lt_Some _ _ _ Hi). rewrite last_lookup. by replace (pred (length L)) with i by lia.
Qed.

Lemma last_tail (t : Z) (L : list Z) h : last (t :: L) = Some h -> L <> [] -> last L = Some h.
Proof. destruct L; [done|]. done. Qed.
(** ** The invariant

    [rest] is what follows [q->tail] in the order of the exchanges.  The link
    between two neighbours is there, or its enqueue is under way. *)
Record Core (nx : Z -> Z) (hd tl : Z) (fl : gmap Z Op) (fr : gset Z) (rest : list Z) : Prop := {
  iv_last : last (tl :: rest) = Some hd;
  iv_nodup : NoDup (tl :: rest);
  iv_nz : 0 ∉ (tl :: rest);
  iv_links : forall a b, succ (tl :: rest) a b -> nx a = b \/ (nx a = 0 /\ fl !! b = Some (Swapped a));
  iv_end : nx hd = 0;
  iv_swapped : forall n p, fl !! n = Some (Swapped p) -> nx p = 0 /\ succ (tl :: rest) p n;
  iv_stored : forall n, fl !! n = Some Stored -> n <> 0 /\ (n ∉ (tl :: rest)) /\ nx n = 0;
  iv_free : forall n, n ∈ fr -> n <> 0 /\ n <> stub /\ (n ∉ (tl :: rest)) /\ fl !! n = None }.

Section Core.
Context {nx : Z -> Z} {hd tl : Z} {fl : gmap Z Op} {fr : gset Z} {rest : list Z}.
Hypothesis HC : Core nx hd tl fl fr rest.

Lemma upd_ne f n x a : a <> n -> upd f n x a = f a.
Proof. unfold upd. by destruct (Z.eqb_spec a n). Qed.
Lemma upd_eq f n x : upd f n x n = x.
Proof. unfold upd. by rewrite Z.eqb_refl. Qed.

Lemma hd_in_chain : hd ∈ (tl :: rest).
Proof. destruct HC as [H1 _ _ _ _ _ _ _]. by apply last_Some_elem_of. Qed.

(** The first write of an enqueue, of a node that is nowhere else. *)
Lemma core_store n : n <> 0 -> n ∉ (tl :: rest) -> fl !! n = None ->
  Core (upd nx n 0) hd tl (<[n := Stored]> fl) (fr ∖ {[n]}) rest.
Proof.
  pose proof hd_in_chain as Hhd. destruct HC as [H1 H2 H3 H4 H5 H6 H7 H8]. intros Hn0 HnL Hni.
  assert (forall a, a ∈ (tl :: rest) -> upd nx n 0 a = nx a) as Hu by (intros a Ha; apply upd_ne; by intros ->).
  split; try done.
  - intros a b Hs. pose proof (succ_elem _ _ _ Hs) as [Ha Hb]. rewrite Hu by done. destruct (H4 a b Hs) as [|[? ?]]; [by left|right].
    split; [done|]. rewrite lookup_insert_ne; [done|]. by intros ->.
  - by rewrite Hu.
  - intros m p Hm. apply lookup_insert_Some in Hm as [[_ ?]|[Hne Hm]]; [done|]. destruct (H6 m p Hm) as [? Hs]. split; [|done].
    rewrite Hu; [done|]. by apply succ_elem in Hs as [? _].
  - intros m Hm. apply lookup_insert_Some in Hm as [[<- _]|[Hne Hm]]; [by rewrite upd_eq|].
    destruct (H7 m Hm) as (? & ? & ?). split_and!; [done|done|]. by rewrite upd_ne.
  - intros m [Hm Hne]%elem_of_difference. destruct (H8 m Hm) as (? & ? & ? & ?). split_and!; [done|done|done|].
    rewrite lookup_insert_ne; [done|]. intros ->. set_solver.
Qed.

(** The exchange puts the node at the end of the chain. *)
Lemma core_swap n : fl !! n = Some Stored -> Core nx n tl (<[n := Swapped hd]> fl) fr (rest ++ [n]).
Proof.
  destruct HC as [H1 H2 H3 H4 H5 H6 H7 H8]. intros Hn. destruct (H7 n Hn) as (Hn0 & HnL & Hnx).
  split; try done; try (change (tl :: rest ++ [n]) with ((tl :: rest) ++ [n])).
  - apply last_snoc.
  - apply NoDup_app. split; [done|]. split; [set_solver|apply NoDup_singleton].
  - set_solver.
  - intros a b [Hs|[Hl ->]]%succ_snoc.
    + pose proof (succ_elem _ _ _ Hs) as [_ Hb]. rewrite lookup_insert_ne by (by intros ->). by apply H4.
    + rewrite H1 in Hl. injection Hl as <-. right. by rewrite lookup_insert_eq.
  - intros m p [[<- [= <-]]|[Hne Hm]]%lookup_insert_Some.
    + split; [done|]. by apply succ_snoc_last.
    + destruct (H6 m p Hm). split; [done|]. by apply succ_snoc_l.
  - intros m [[_ ?]|[Hne Hm]]%lookup_insert_Some; [done|]. destruct (H7 m Hm) as (? & ? & ?). split_and!; [done| |done]. set_solver.
  - intros m Hm. destruct (H8 m Hm) as (? & ? & ? & Hf). assert (m <> n) by (intros ->; congruence).
    split_and!; [done|done|set_solver|]. by rewrite lookup_insert_ne.
Qed.

(** The second write completes the link. *)
Lemma core_link n p : fl !! n = Some (Swapped p) -> Core (upd nx p n) hd tl (delete n fl) fr rest.
Proof.
  destruct HC as [H1 H2 H3 H4 H5 H6 H7 H8]. intros Hn. destruct (H6 n p Hn) as [Hp Hs]. pose proof (succ_elem _ _ _ Hs) as [HpL HnL].
  split; try done.
  - intros a b Hab. destruct (Z.eq_dec a p) as [->|Hne].
    + left. rewrite upd_eq. by eapply succ_fun.
    + rewrite upd_ne by done. rewrite lookup_delete_ne; [by apply H4|]. intros ->. apply Hne. by eapply succ_inj.
  - rewrite upd_ne; [done|]. intros <-. by eapply succ_last.
  - intros m r [Hne Hm]%lookup_delete_Some. destruct (H6 m r Hm) as [? Hs']. split; [|done]. rewrite upd_ne; [done|].
    intros ->. apply Hne. by eapply succ_fun.
  - intros m [Hne Hm]%lookup_delete_Some. destruct (H7 m Hm) as (? & ? & ?). split_and!; [done|done|]. rewrite upd_ne; [done|]. by intros ->.
  - intros m Hm. destruct (H8 m Hm) as (? & ? & ? & ?). split_and!; [done|done|done|]. rewrite lookup_delete_None. by right.
Qed.
(** A set link from the tail leads to the next node, and nothing refers to the
    tail any more. *)
Lemma core_next : nx tl <> 0 -> exists rest', rest = nx tl :: rest' /\ Core nx hd (nx tl) fl fr rest' /\ (tl ∉ rest) /\ fl !! tl = None.
Proof.
  destruct HC as [H1 H2 H3 H4 H5 H6 H7 H8]. intros Hx. destruct rest as [|b rest'] eqn:Er.
  { injection H1 as ->. done. }
  assert (succ (tl :: b :: rest') tl b) as Hs by (by exists 0%nat). destruct (H4 tl b Hs) as [Hb|[? _]]; [|done]. subst b. exists rest'. split; [done|].
  pose proof (NoDup_cons_1_1 _ _ H2) as Ht. pose proof (NoDup_cons_1_2 _ _ H2) as H2'.
  assert (fl !! tl = None) as Hfl.
  { destruct (fl !! tl) as [[|p]|] eqn:E; [| |done].
    - destruct (H7 _ E) as (_ & Hni & _). set_solver.
    - destruct (H6 _ _ E) as [_ ([|i] & Hi1 & Hi2)]; [injection Hi2 as Hi2; set_solver|].
      cbn in Hi2. apply list_elem_of_lookup_2 in Hi2. set_solver. }
  split; [|done]. split; try done.
  - set_solver.
  - intros a b Hab. apply H4. by apply succ_tl.
  - intros m p Hm. destruct (H6 m p Hm) as [Hp0 Hpm]. split; [done|]. eapply succ_cons; [exact H2|done|]. by intros ->.
  - intros m Hm. destruct (H7 m Hm) as (? & ? & ?). split_and!; [done|set_solver|done].
  - intros m Hm. destruct (H8 m Hm) as (? & ? & ? & ?). split_and!; [done|done|set_solver|done].
Qed.

Lemma core_release n : n <> 0 -> n <> stub -> n ∉ (tl :: rest) -> fl !! n = None -> Core nx hd tl fl (fr ∪ {[n]}) rest.
Proof.
  destruct HC as [H1 H2 H3 H4 H5 H6 H7 H8]. intros ? ? ? ?. split; try done. intros m [Hm| ->%elem_of_singleton]%elem_of_union; [by apply H8|done].
Qed.

(** A missing link from the tail: it is the last node, or an enqueue is under way. *)
Lemma core_no_next : nx tl = 0 -> rest = [] \/ exists n, fl !! n = Some (Swapped tl) /\ n ∈ rest.
Proof.
  destruct HC as [H1 H2 H3 H4 H5 H6 H7 H8]. intros Hx. destruct rest as [|b rest']; [by left|right]. exists b.
  assert (succ (tl :: b :: rest') tl b) as Hs by (by exists 0%nat). split; [|set_solver].
  destruct (H4 tl b Hs) as [Hb|[_ ?]]; [|done]. rewrite Hx in Hb. subst b. set_solver.
Qed.
End Core.

(** What holds at each place of the consumer. *)
Definition pc_ok (q : Queue) (rest : list Z) : Prop :=
  match pc q with
  | Idle => inflight q !! stub = None
  | LoadNext t => t = tail q /\ t <> stub /\ inflight q !! stub = None
  | LoadHead t => t = tail q /\ t <> stub /\ inflight q !! stub = None /\ (rest = [] \/ overlap q = true)
  | StubStore t => t = tail q /\ t <> stub /\ inflight q !! stub = None /\ stub ∉ rest
  | StubSwap t => t = tail q /\ t <> stub /\ inflight q !! stub = Some Stored
  | StubLink t prev => t = tail q /\ t <> stub /\ inflight q !! stub = Some (Swapped prev)
  | ReloadNext t => t = tail q /\ t <> stub /\ inflight q !! stub = None /\ stub ∈ rest
  end.

Record Inv (q : Queue) (rest : list Z) : Prop := {
  iv_core : Core (next q) (head q) (tail q) (inflight q) (free q) rest;
  iv_over : pc q <> Idle -> overlap q = false -> forall n p, n <> stub -> inflight q !! n <> Some (Swapped p);
  iv_pc : pc_ok q rest }.

Definition queued (q : Queue) (rest : list Z) : list Z := filter (fun n => n <> stub) (tail q :: rest).

(** How an event changes the abstract queue. *)
Definition ev_ok (ev : option Event) (A A' : list Z) : Prop :=
  match ev with
  | None => A' = A
  | Some (Enq n) => A' = A ++ [n]
  | Some (Deq n) => A = n :: A'
  | Some (Null b) => A' = A /\ (b = false -> A = [])
  end.

Lemma mpsc_init_inv nodes : stub <> 0 -> 0 ∉ nodes -> stub ∉ nodes -> Inv (mpsc_init nodes) [] /\ queued (mpsc_init nodes) [] = [].
Proof.
  intros Hs H0 Hn. split; [|unfold queued; cbn; by rewrite decide_False by tauto].
  split; cbn; try done. split; cbn; try done.
  - apply NoDup_singleton.
  - set_solver.
  - intros a b (i & _ & H2). by destruct i.
  - intros n Hf. split; [by intros ->|]. split; [by intros ->|]. split; [|done]. intros ->%list_elem_of_singleton. done.
Qed.

Lemma producer_inv q ev q' rest : producer q ev q' -> Inv q rest ->
  exists rest', Inv q' rest' /\ ev_ok ev (queued q rest) (queued q' rest').
Proof.
  intros Hp [HC Ho Hpc]. destruct Hp as [q n Hf|q n Hns Hn|q n p Hns Hn].
  - destruct (iv_free _ _ _ _ _ _ HC n Hf) as (Hn0 & Hns & HnL & Hni). exists rest. split; [|done]. split; cbn [enqueue_store next head tail inflight free pc overlap].
    + by apply core_store.
    + intros Hi Hv m p Hms [[_ ?]|[_ Hm]]%lookup_insert_Some; [done|]. by eapply Ho.
    + unfold pc_ok in *. cbn. rewrite lookup_insert_ne by done. exact Hpc.
  - exists (rest ++ [n]). split; [|unfold queued; cbn [ev_ok enqueue_swap tail]; change (tail q :: rest ++ [n]) with ((tail q :: rest) ++ [n]);
      rewrite filter_app; by rewrite (filter_cons_True _ n)].
    split; cbn [enqueue_swap next head tail inflight free pc overlap]; [by apply core_swap|done|].
    unfold pc_ok in *. cbn. rewrite lookup_insert_ne by done. destruct (pc q); try done.
    + destruct Hpc as (? & ? & ? & _). split_and!; auto.
    + destruct Hpc as (? & ? & ? & ?). split_and!; [done..|set_solver].
    + destruct Hpc as (? & ? & ? & ?). split_and!; [done..|set_solver].
  - exists rest. split; [|done]. split; cbn [enqueue_link next head tail inflight free pc overlap]; [by apply core_link| |].
    + intros Hi Hv m r Hms [_ Hm]%lookup_delete_Some. by eapply Ho.
    + unfold pc_ok in *. cbn. rewrite lookup_delete_ne by done. exact Hpc.
Qed.
Lemma some_swapped_spec m : some_swapped m = false -> forall n p, m !! n <> Some (Swapped p).
Proof.
  unfold some_swapped. intros H n p Hn. apply elem_of_map_to_list in Hn. apply list_elem_of_In in Hn.
  apply not_true_iff_false in H. apply H, existsb_exists. by exists (n, Swapped p).
Qed.

Lemma queued_cons q rest : tail q <> stub -> queued q rest = tail q :: filter (fun n => n <> stub) rest.
Proof. intros H. unfold queued. by rewrite filter_cons_True. Qed.

(** [q->tail = next; return tail;] takes the first node of the queue. *)
Lemma return_node_inv q rest : Core (next q) (head q) (tail q) (inflight q) (free q) rest -> tail q <> stub -> inflight q !! stub = None ->
  next q (tail q) <> 0 ->
  exists rest', Inv (return_node q (tail q) (next q (tail q))).1 rest' /\
    ev_ok (Some (Deq (tail q))) (queued q rest) (queued (return_node q (tail q) (next q (tail q))).1 rest').
Proof.
  intros HC Hts Hst Hx. destruct (core_next HC Hx) as (rest' & Er & HC' & Hni & Hfl). exists rest'. split.
  - split; cbn [return_node fst next head tail inflight free pc overlap]; [|done|done].
    apply core_release; [done| |done|by rewrite <- Er|done]. intros H0. apply (iv_nz _ _ _ _ _ _ HC). rewrite H0. set_solver.
  - cbn [ev_ok]. rewrite queued_cons by done. unfold queued. cbn [return_node fst tail]. by rewrite Er.
Qed.

Lemma after_next_inv q rest q' ev : Core (next q) (head q) (tail q) (inflight q) (free q) rest -> tail q <> stub -> inflight q !! stub = None ->
  (overlap q = false -> forall n p, n <> stub -> inflight q !! n <> Some (Swapped p)) -> after_next q (tail q) = (q', ev) ->
  exists rest', Inv q' rest' /\ ev_ok ev (queued q rest) (queued q' rest').
Proof.
  intros HC Hts Hst Ho. unfold after_next. destruct (Z.eqb_spec (next q (tail q)) 0) as [Hx|Hx]; cbn [negb].
  - intros [= <- <-]. exists rest. split; [|done]. split; cbn; [done|done|]. unfold pc_ok. cbn. split_and!; [done..|].
    destruct (core_no_next HC Hx) as [->|(n & Hn & Hin)]; [by left|right]. destruct (overlap q); [done|].
    destruct (Ho eq_refl n (tail q)); [intros ->; congruence|done].
  - intros [= <- <-]. by apply return_node_inv.
Qed.

Lemma null_inv q rest : Core (next q) (head q) (tail q) (inflight q) (free q) rest -> inflight q !! stub = None ->
  (overlap q = false -> queued q rest = []) ->
  exists rest', Inv (return_null q).1 rest' /\ ev_ok (return_null q).2 (queued q rest) (queued (return_null q).1 rest').
Proof. intros HC Hst Hq. exists rest. split; [by split|]. by split. Qed.

Lemma dequeue_inv q q' ev rest : stub <> 0 -> dequeue_step q = (q', ev) -> Inv q rest ->
  exists rest', Inv q' rest' /\ ev_ok ev (queued q rest) (queued q' rest').
Proof.
  intros Hs0 E [HC Ho Hpc]. unfold dequeue_step in E. unfold pc_ok in Hpc. destruct (pc q) as [|t|t|t|t|t prev|t] eqn:Ep.
  - set (q0 := mkQueue (next q) (head q) (tail q) (inflight q) Idle (free q) (some_swapped (inflight q))) in *.
    change (queued q rest) with (queued q0 rest). pose proof (some_swapped_spec (inflight q)) as Hsw. cbn zeta in E.
    destruct (Z.eqb_spec (tail q0) stub) as [Ht|Ht].
    + destruct (Z.eqb_spec (next q0 (tail q0)) 0) as [Hx|Hx].
      * pose proof (null_inv q0 rest HC Hpc) as Hn. rewrite E in Hn. apply Hn. intros Hv. destruct (core_no_next HC Hx) as [->|(n & Hn' & _)].
        -- unfold queued. by rewrite filter_cons_False by tauto.
        -- by destruct (Hsw Hv n (tail q)).
      * injection E as <- <-. destruct (core_next HC Hx) as (rest' & Er & HC' & Hni & Hfl). exists rest'. split.
        -- split; cbn; [done|intros _ Hv n p _; by apply Hsw|]. unfold pc_ok. cbn. split_and!; [done| |done].
           intros Hc. apply Hni. assert (tail q = next q (tail q)) as -> by (transitivity stub; [exact Ht|exact (eq_sym Hc)]). rewrite Er. left.
        -- unfold queued. cbn [ev_ok tail]. rewrite (filter_cons_False _ (tail q0)) by tauto. by rewrite Er.
    + apply (after_next_inv q0 rest); try done. intros Hv n p _. by apply Hsw.
  - destruct Hpc as (-> & Hts & Hst). apply (after_next_inv q rest); try done. by apply Ho.
  - destruct Hpc as (-> & Hts & Hst & Hr). destruct (Z.eqb_spec (tail q) (head q)) as [Hh|Hh]; cbn [negb] in E.
    + injection E as <- <-. exists rest. split; [|done]. split; [done|intros _; by apply Ho|]. unfold pc_ok. cbn. split_and!; [done..|].
      destruct rest as [|b rest]; [set_solver|]. pose proof (iv_last _ _ _ _ _ _ HC) as Hl. rewrite <- Hh in Hl.
      pose proof (iv_nodup _ _ _ _ _ _ HC) as Hnd. apply NoDup_cons_1_1 in Hnd. apply last_tail in Hl; [|done]. by apply last_Some_elem_of in Hl.
    + pose proof (null_inv q rest HC Hst) as Hn. rewrite E in Hn. apply Hn. intros Hv. destruct Hr as [->|?]; [|congruence].
      pose proof (iv_last _ _ _ _ _ _ HC) as Hl. cbn in Hl. congruence.
  - destruct Hpc as (-> & Hts & Hst & Hr). injection E as <- <-. exists rest. split; [|done]. split; cbn [next head tail inflight free pc overlap].
    + replace (free q) with (free q ∖ {[stub]}); [apply core_store; [done|done| |done]|].
      * intros [?|?]%elem_of_cons; [done|done].
      * apply leibniz_equiv. intros x. rewrite elem_of_difference, elem_of_singleton. split; [tauto|]. intros Hx. split; [done|].
        by destruct (iv_free _ _ _ _ _ _ HC x Hx) as (_ & ? & _).
    + intros _ Hv n p Hns [[? _]|[_ Hm]]%lookup_insert_Some; [done|]. by eapply Ho.
    + unfold pc_ok. cbn. by rewrite lookup_insert_eq.
  - destruct Hpc as (-> & Hts & Hst). injection E as <- <-. exists (rest ++ [stub]). split.
    + split; cbn [next head tail inflight free pc overlap]; [by apply core_swap| |].
      * intros _ Hv n p Hns [[? _]|[_ Hm]]%lookup_insert_Some; [done|]. by eapply Ho.
      * unfold pc_ok. cbn. by rewrite lookup_insert_eq.
    + unfold queued. cbn [ev_ok tail]. change (tail q :: rest ++ [stub]) with ((tail q :: rest) ++ [stub]). rewrite filter_app.
      rewrite (filter_cons_False _ stub) by tauto. by rewrite app_nil_r.
  - destruct Hpc as (-> & Hts & Hst). injection E as <- <-. exists rest. split; [|done]. split; cbn [next head tail inflight free pc overlap].
    + by apply core_link.
    + intros _ Hv n p Hns [_ Hm]%lookup_delete_Some. by eapply Ho.
    + unfold pc_ok. cbn. rewrite lookup_delete_eq. split_and!; [done..|].
      destruct (iv_swapped _ _ _ _ _ _ HC _ _ Hst) as [_ Hs%succ_elem]. set_solver.
  - destruct Hpc as (-> & Hts & Hst & Hin). destruct (Z.eqb_spec (next q (tail q)) 0) as [Hx|Hx]; cbn [negb] in E.
    + pose proof (null_inv q rest HC Hst) as Hn. rewrite E in Hn. apply Hn. intros Hv. destruct (core_no_next HC Hx) as [->|(n & Hn' & _)]; [set_solver|].
      destruct (Ho ltac:(done) Hv n (tail q)); [intros ->; congruence|done].
    + injection E as <- <-. by apply return_node_inv.
Qed.
Lemma fifo_step ev A A1 tr A' : ev_ok ev A A1 -> fifo A1 tr A' -> fifo A (option_list ev ++ tr) A'.
Proof.
  destruct ev as [[n|n|b]|]; cbn.
  - intros ->. by constructor.
  - intros ->. by constructor.
  - intros [-> Hb]. by constructor.
  - by intros ->.
Qed.

Lemma exec_fifo q tr n q' : stub <> 0 -> exec q tr n q' -> forall rest, Inv q rest ->
  exists rest', Inv q' rest' /\ fifo (queued q rest) tr (queued q' rest').
Proof.
  intros Hs. induction 1 as [q|q ev q1 tr n q2 Hp _ IH|q ev q1 tr n q2 Hd _ IH]; intros rest Hi.
  - exists rest. split; [done|constructor].
  - destruct (producer_inv _ _ _ _ Hp Hi) as (r1 & Hi1 & He). destruct (IH r1 Hi1) as (r2 & Hi2 & Hf). exists r2. split; [done|]. by eapply fifo_step.
  - destruct (dequeue_inv _ _ _ _ Hs Hd Hi) as (r1 & Hi1 & He). destruct (IH r1 Hi1) as (r2 & Hi2 & Hf). exists r2. split; [done|]. by eapply fifo_step.
Qed.

(** ** Progress of the consumer *)
Definition rank (c : Pc) : nat :=
  match c with Idle => 7 | LoadNext _ => 6 | LoadHead _ => 5 | StubStore _ => 4 | StubSwap _ => 3 | StubLink _ _ => 2 | ReloadNext _ => 1 end.

Lemma dequeue_rank q q' : dequeue_step q = (q', None) -> (rank (pc q') < rank (pc q))%nat /\ (pc q <> Idle -> overlap q' = overlap q) /\
  (pc q = Idle -> overlap q' = some_swapped (inflight q)) /\ pc q' <> Idle.
Proof.
  unfold dequeue_step, after_next, return_node, return_null, goto. destruct (pc q); cbn; repeat case_if; intros [= <-]; cbn; split_and!; (done || lia).
Qed.

Lemma producer_pc q ev q' : producer q ev q' -> pc q' = pc q.
Proof. by destruct 1. Qed.

Definition is_return (ev : Event) : bool := match ev with Enq _ => false | _ => true end.

Lemma exec_rank q tr n q' : exec q tr n q' -> existsb is_return tr = false -> (n + rank (pc q') <= rank (pc q))%nat.
Proof.
  induction 1 as [q|q ev q1 tr n q2 Hp _ IH|q ev q1 tr n q2 Hd _ IH]; [done| |].
  - rewrite existsb_app, orb_false_iff. intros [_ H]. rewrite <- (producer_pc _ _ _ Hp). auto.
  - rewrite existsb_app, orb_false_iff. intros [He H]. destruct ev as [ev|].
    + exfalso. unfold dequeue_step, after_next, return_node, return_null in Hd. cbn in He.
      destruct (pc q); cbn in Hd; repeat case_if_in Hd; try discriminate Hd; injection Hd as _ <-; done.
    + apply dequeue_rank in Hd as [Hr _]. specialize (IH H). lia.
Qed.

Lemma dequeue_loop_spec fuel : stub <> 0 -> forall q rest, Inv q rest -> (pc q = Idle -> some_swapped (inflight q) = false) -> (pc q <> Idle -> overlap q = false) ->
  (rank (pc q) <= fuel)%nat -> exists q' ev rest', dequeue_loop fuel q = (q', Some ev) /\ Inv q' rest' /\
    ev_ok (Some ev) (queued q rest) (queued q' rest') /\ ev <> Null true /\ is_return ev = true.
Proof.
  intros Hs. induction fuel as [|fuel IH]; intros q rest Hi H1 H2 Hr; [destruct (pc q); cbn in Hr; lia|].
  cbn [dequeue_loop]. destruct (dequeue_step q) as [q1 ev] eqn:E. destruct (dequeue_inv _ _ _ _ Hs E Hi) as (r1 & Hi1 & He).
  destruct ev as [ev|].
  - exists q1, ev, r1. split_and!; try done.
    + intros ->. unfold dequeue_step, after_next, return_node, return_null in E.
      destruct (pc q); cbn in E; repeat case_if_in E; try discriminate E; injection E as _ E; rewrite E in *; (by discriminate H1) || (by discriminate H2) || auto.
      all: by rewrite H1 in E || by rewrite H2 in E.
    + unfold dequeue_step, after_next, return_node, return_null in E.
      destruct (pc q); cbn in E; repeat case_if_in E; try discriminate E; by injection E as _ <-.
  - pose proof (dequeue_rank q q1 E) as (Hlt & Ho1 & Ho2 & Hni).
    destruct (IH q1 r1 Hi1) as (q' & ev & r' & -> & Hi' & He' & Hn & Hret); [done| |lia|].
    + intros _. assert (pc q = Idle \/ pc q <> Idle) as [Hid|Hid] by (destruct (pc q); auto); [rewrite Ho2; auto|rewrite Ho1; auto].
    + exists q', ev, r'. split_and!; try done. cbn [ev_ok] in He. by rewrite <- He.
Qed.
(** C12. The queue is linearizable.  In any interleaving of any number of
    enqueues with the consumer, starting from the initial queue, the exchanges
    and the returned nodes are those of a FIFO queue: every node is returned
    once, in the order of the exchanges, and none is lost or made up; and
    NULL is answered only when the queue is empty or an enqueue was under way
    during the call. *)
Theorem mpsc_linearizable nodes tr n q : stub <> 0 -> 0 ∉ nodes -> stub ∉ nodes -> exec (mpsc_init nodes) tr n q ->
  exists content, fifo [] tr content.
Proof.
  intros Hs H0 Hn E. destruct (mpsc_init_inv nodes Hs H0 Hn) as [Hi Hq]. destruct (exec_fifo _ _ _ _ Hs E [] Hi) as (rest & _ & Hf).
  rewrite Hq in Hf. eauto.
Qed.

(** Progress of the consumer.  However the producers are scheduled, a
    dequeue returns within seven of the consumer's own accesses; and one that
    runs while no enqueue is under way, on a queue that is not empty, returns
    the node that has been there longest (any FIFO run of the events so far
    has that node at its front). *)
Theorem mpsc_dequeue_progress nodes tr n q : stub <> 0 -> 0 ∉ nodes -> stub ∉ nodes -> exec (mpsc_init nodes) tr n q ->
  (forall tr' k q', exec q tr' k q' -> (7 <= k)%nat -> existsb is_return tr' = true) /\
  (pc q = Idle -> some_swapped (inflight q) = false ->
   exists content, fifo [] tr content /\
     (mpsc_dequeue q).2 = Some (match content with [] => Null false | m :: _ => Deq m end)).
Proof.
  intros Hs H0 Hn E. split.
  - intros tr' k q' E' Hk. destruct (existsb is_return tr') eqn:Hr; [done|]. pose proof (exec_rank _ _ _ _ E' Hr).
    destruct (pc q), (pc q'); cbn in *; lia.
  - intros Hp Hsw. destruct (mpsc_init_inv nodes Hs H0 Hn) as [Hi Hq]. destruct (exec_fifo _ _ _ _ Hs E [] Hi) as (rest & Hi' & Hf).
    rewrite Hq in Hf. exists (queued q rest). split; [done|].
    destruct (dequeue_loop_spec 7 Hs q rest Hi' ltac:(auto) ltac:(done) ltac:(rewrite Hp; cbn; lia)) as (q' & ev & rest' & El & _ & He & Hnt & Hret).
    unfold mpsc_dequeue. rewrite El. cbn [snd]. f_equal. destruct ev as [m|m|[]]; try done; cbn [ev_ok] in He.
    + by rewrite He.
    + by destruct He as [_ ->].
Qed.
End Mpsc.

(** ** Example: two producers, the second overtaking the first *)
Definition ex_init : Queue := mpsc_init 1 {[2; 3]}.
Definition ex_busy : Queue := enqueue_link (enqueue_swap (enqueue_swap (enqueue_store (enqueue_store ex_init 2) 3) 3) 2) 2 3.
Definition ex_done : Queue := enqueue_link ex_busy 3 1.

Lemma ex_exec : exec 1 ex_init [Enq 3; Enq 2] 0 ex_done.
Proof.
  apply (exec_producer _ _ None _ [Enq 3; Enq 2] _ _ (producer_store 1 ex_init 2 ltac:(set_solver))).
  apply (exec_producer _ _ None _ [Enq 3; Enq 2] _ _ (producer_store 1 (enqueue_store ex_init 2) 3 ltac:(vm_compute; reflexivity))).
  eapply (exec_producer _ _ (Some (Enq 3)) _ [Enq 2]); [apply (producer_swap 1 _ 3); [done|reflexivity]|].
  eapply (exec_producer _ _ (Some (Enq 2)) _ []); [apply (producer_swap 1 _ 2); [done|reflexivity]|].
  eapply (exec_producer _ _ None _ []); [apply (producer_link 1 _ 2 3); [done|reflexivity]|].
  eapply (exec_producer _ _ None _ []); [apply (producer_link 1 _ 3 1); [done|reflexivity]|]. apply exec_nil.
Qed.

Lemma mpsc_linearizable_witness : exists content, fifo [] [Enq 3; Enq 2] content.
Proof. exact (mpsc_linearizable 1 {[2; 3]} [Enq 3; Enq 2] 0 ex_done ltac:(done) ltac:(set_solver) ltac:(set_solver) ex_exec). Defined.

Lemma mpsc_dequeue_progress_witness : exists content, fifo [] [Enq 3; Enq 2] content /\
  (mpsc_dequeue 1 ex_done).2 = Some (match content with [] => Null false | m :: _ => Deq m end) /\ (mpsc_dequeue 1 ex_done).2 = Some (Deq 3).
Proof.
  destruct (mpsc_dequeue_progress 1 {[2; 3]} [Enq 3; Enq 2] 0 ex_done ltac:(done) ltac:(set_solver) ltac:(set_solver) ex_exec) as [_ H].
  destruct (H eq_refl eq_refl) as (content & Hf & Hd). exists content. split; [exact Hf|]. split; [exact Hd|vm_compute; reflexivity].
Defined.
