(* ===== verification/HazardPtr.v ===== *)
(** * Hazard pointers (src/src/memory/hazard_ptr.c, hazard_ptr.h)

    Safe reclamation for lock-free structures.  Threads run [HP_LOAD_SAFE],
    [hp_release], [hp_retire] and [hp_scan] in any interleaving, one atomic
    access per step, sequentially consistent (the store of [hp_acquire] is
    followed by a sequentially consistent fence).  The clients are part of the
    model: a node is allocated, put into one shared location, replaced there,
    and retired once by the thread that replaced it; [status] says where each
    allocated node is.  A freed address may be allocated again.  Slots and
    records are numbered as in the arrays; a null pointer is 0. *)
From S2P Require Import Prelude.

Definition HP_MAX_THREADS : nat := 128.
Definition HP_PER_THREAD : nat := 8.
Definition HP_RETIRE_THRESHOLD : nat := 64.

Inductive Status := Private | Linked | Unlinked | Retired.
#[export] Instance Status_eq_dec : EqDecision Status.
Proof. solve_decision. Defined.

(** Where a thread is: between two operations, in [HP_LOAD_SAFE] after the
    first load or after [hp_acquire], in [collect_hazardous] about to read the
    flag of record [i] or its slot [j], or in the loop of [hp_scan] over the
    retire list. *)
Inductive Pc :=
  | Ready
  | Loaded (slot loc : nat) (p : Z)
  | Published (slot loc : nat) (p : Z)
  | Flag (i : nat) (hazardous : list Z)
  | Slot (i j : nat) (hazardous : list Z)
  | Sweep (hazardous curr kept : list Z).

(** [HazardState]; [held] are the slots whose pointer the thread may use. *)
Record Thread := mkThread { my_record : option nat; retire_list : list Z; pc : Pc; held : nat -> Z }.

Record State := mkState {
  hp : nat -> nat -> Z; active : nat -> bool; thread : nat -> Thread;
  shared : nat -> Z; status : gmap Z Status; fault : bool }.

Definition set_at {A} (f : nat -> A) (i : nat) (x : A) : nat -> A := fun j => if decide (j = i) then x else f j.

Definition with_thread (s : State) (t : nat) (th : Thread) : State :=
  mkState (hp s) (active s) (set_at (thread s) t th) (shared s) (status s) (fault s).
Definition set_hp (s : State) (r slot : nat) (p : Z) : State :=
  mkState (set_at (hp s) r (set_at (hp s r) slot p)) (active s) (thread s) (shared s) (status s) (fault s).
Definition set_status (s : State) (m : gmap Z Status) : State := mkState (hp s) (active s) (thread s) (shared s) m (fault s).
Definition goto (th : Thread) (c : Pc) : Thread := mkThread (my_record th) (retire_list th) c (held th).

Definition hp_init : State := mkState (fun _ _ => 0) (fun _ => false) (fun _ => mkThread None [] Ready (fun _ => 0)) (fun _ => 0) ∅ false.

(** The exchange of [hp_thread_init] that succeeds, on a free record. *)
Definition register (s : State) (t r : nat) : State :=
  mkState (hp s) (set_at (active s) r true) (set_at (thread s) t (mkThread (Some r) [] Ready (held (thread s t)))) (shared s) (status s) (fault s).
(** The last step of [hp_thread_exit]: the retire list is left behind. *)
Definition unregister (s : State) (t r : nat) : State :=
  mkState (hp s) (set_at (active s) r false) (set_at (thread s) t (mkThread None (retire_list (thread s t)) Ready (held (thread s t)))) (shared s) (status s) (fault s).

(** [hp_acquire] and [hp_release] of a registered thread, which is at [c]
    afterwards. *)
Definition hp_acquire (s : State) (t r slot : nat) (p : Z) (c : Pc) : State :=
  let th := thread s t in
  set_hp (with_thread s t (mkThread (my_record th) (retire_list th) c (set_at (held th) slot 0))) r slot p.
Definition hp_release (s : State) (t r slot : nat) : State := hp_acquire s t r slot 0 Ready.

(** [hp_retire] when [malloc] succeeds; the scan starts at the threshold. *)
Definition hp_retire (s : State) (t : nat) (p : Z) : State :=
  let th := thread s t in
  let l := p :: retire_list th in
  set_status (with_thread s t (mkThread (my_record th) l (if HP_RETIRE_THRESHOLD <=? length l then Flag 0 [] else Ready)%nat (held th)))
    (<[p := Retired]> (status s)).

(** [hp_retire] when [malloc] fails frees the pointer at once, also when a
    thread uses it. *)
Definition hp_retire_nomem (s : State) (p : Z) : State := set_status s (delete p (status s)).

(** The accesses of [collect_hazardous], and the passage to the second loop. *)
Definition flag_step (s : State) (t i : nat) (haz : list Z) : State :=
  let th := thread s t in
  if (HP_MAX_THREADS <=? i)%nat then with_thread s t (goto th (Sweep haz (retire_list th) []))
  else with_thread s t (goto th (if active s i then Slot i 0 haz else Flag (S i) haz)).
Definition slot_step (s : State) (t i j : nat) (haz : list Z) : State :=
  let p := hp s i j in
  let haz := if p =? 0 then haz else haz ++ [p] in
  with_thread s t (goto (thread s t) (if (S j <? HP_PER_THREAD)%nat then Slot i (S j) haz else Flag (S i) haz)).

(** One round of the loop over the retire list; freeing what is not retired
    is a fault. *)
Definition sweep_step (s : State) (t : nat) (haz curr kept : list Z) : State :=
  let th := thread s t in
  match curr with
  | [] => with_thread s t (mkThread (my_record th) kept Ready (held th))
  | p :: curr =>
      if existsb (Z.eqb p) haz then with_thread s t (goto th (Sweep haz curr (p :: kept)))
      else
        let s := mkState (hp s) (active s) (thread s) (shared s) (delete p (status s)) (fault s || negb (bool_decide (status s !! p = Some Retired))) in
        with_thread s t (goto th (Sweep haz curr kept))
  end.

(** The exchange of a client: [q], a new node or NULL, replaces what is at [l]. *)
Definition swap_shared (s : State) (l : nat) (q : Z) : State :=
  let old := shared s l in
  let m := if q =? 0 then status s else <[q := Linked]> (status s) in
  mkState (hp s) (active s) (thread s) (set_at (shared s) l q) (if old =? 0 then m else <[old := Unlinked]> m) (fault s).

(** The second load of [HP_LOAD_SAFE]; when it differs the loop starts again. *)
Definition check_step (s : State) (t slot l : nat) (p : Z) : State :=
  let th := thread s t in
  with_thread s t (mkThread (my_record th) (retire_list th) Ready (if shared s l =? p then set_at (held th) slot p else held th)).

(** The label is the pointer that [hp_retire] frees at once, if it does. *)
Inductive step : option Z -> State -> State -> Prop :=
  | step_alloc s p : p <> 0 -> status s !! p = None -> step None s (set_status s (<[p := Private]> (status s)))
  | step_swap s l q : q = 0 \/ status s !! q = Some Private -> step None s (swap_shared s l q)
  | step_register s t r : my_record (thread s t) = None -> active s r = false -> (r < HP_MAX_THREADS)%nat -> step None s (register s t r)
  | step_unregister s t r : my_record (thread s t) = Some r -> pc (thread s t) = Ready -> (forall j, hp s r j = 0) -> step None s (unregister s t r)
  | step_load s t r slot l : my_record (thread s t) = Some r -> pc (thread s t) = Ready -> (slot < HP_PER_THREAD)%nat ->
      step None s (with_thread s t (goto (thread s t) (Loaded slot l (shared s l))))
  | step_publish s t r slot l p : my_record (thread s t) = Some r -> pc (thread s t) = Loaded slot l p ->
      step None s (hp_acquire s t r slot p (Published slot l p))
  | step_check s t slot l p : pc (thread s t) = Published slot l p -> step None s (check_step s t slot l p)
  | step_release s t r slot : my_record (thread s t) = Some r -> pc (thread s t) = Ready -> (slot < HP_PER_THREAD)%nat -> step None s (hp_release s t r slot)
  | step_retire s t r p : my_record (thread s t) = Some r -> pc (thread s t) = Ready -> status s !! p = Some Unlinked -> step None s (hp_retire s t p)
  | step_retire_nomem s t r p : my_record (thread s t) = Some r -> pc (thread s t) = Ready -> status s !! p = Some Unlinked -> step (Some p) s (hp_retire_nomem s p)
  | step_scan s t r : my_record (thread s t) = Some r -> pc (thread s t) = Ready -> retire_list (thread s t) <> [] ->
      step None s (with_thread s t (goto (thread s t) (Flag 0 [])))
  | step_flag s t i haz : pc (thread s t) = Flag i haz -> step None s (flag_step s t i haz)
  | step_slot s t i j haz : pc (thread s t) = Slot i j haz -> step None s (slot_step s t i j haz)
  | step_sweep s t haz curr kept : pc (thread s t) = Sweep haz curr kept -> step None s (sweep_step s t haz curr kept).

Inductive reach : State -> Prop :=
  | reach_init : reach hp_init
  | reach_step l s s' : reach s -> step l s s' -> reach s'.

(** A pointer that [HP_LOAD_SAFE] has returned and that is not released. *)
Definition in_use (s : State) (p : Z) : Prop := exists t slot, held (thread s t) slot = p.

(** Runs in which no [malloc] of [hp_retire] fails for a pointer in use. *)
Inductive reach_mem : State -> Prop :=
  | reach_mem_init : reach_mem hp_init
  | reach_mem_step l s s' : reach_mem s -> step l s s' -> (forall p, l = Some p -> ~ in_use s p) -> reach_mem s'.

(** ** Invariant *)
Definition pending (th : Thread) : list Z := match pc th with Sweep _ curr kept => curr ++ kept | _ => retire_list th end.

(** A pointer that is in use in slot [slot] of record [r] has been collected
    by a scan that has passed the slot. *)
Definition collected (c : Pc) (r slot : nat) (p : Z) : Prop :=
  match c with
  | Flag i haz => (r < i)%nat -> p ∈ haz
  | Slot i j haz => (r < i \/ (r = i /\ slot < j))%nat -> p ∈ haz
  | Sweep haz _ _ => p ∈ haz
  | _ => True
  end.

(** The slot that the thread is about to check is published. *)
Definition pc_ok (s : State) (th : Thread) : Prop :=
  match pc th with
  | Loaded slot _ _ => (slot < HP_PER_THREAD)%nat /\ exists r, my_record th = Some r
  | Published slot _ p => (slot < HP_PER_THREAD)%nat /\ exists r, my_record th = Some r /\ hp s r slot = p
  | Slot i j _ => (i < HP_MAX_THREADS)%nat /\ (j < HP_PER_THREAD)%nat
  | _ => True
  end.

Record Inv (s : State) : Prop := {
  iv_rec : forall t r, my_record (thread s t) = Some r -> active s r = true /\ (r < HP_MAX_THREADS)%nat;
  iv_inj : forall t u r, my_record (thread s t) = Some r -> my_record (thread s u) = Some r -> t = u;
  iv_held : forall t slot, held (thread s t) slot <> 0 -> (slot < HP_PER_THREAD)%nat /\ is_Some (status s !! held (thread s t) slot) /\
    exists r, my_record (thread s t) = Some r /\ hp s r slot = held (thread s t) slot;
  iv_shared : forall l, shared s l <> 0 -> status s !! shared s l = Some Linked;
  iv_once : forall l l', shared s l <> 0 -> shared s l = shared s l' -> l = l';
  iv_ret : forall t p, p ∈ pending (thread s t) -> status s !! p = Some Retired;
  iv_nodup : forall t, NoDup (pending (thread s t));
  iv_disj : forall t u p, p ∈ pending (thread s t) -> p ∈ pending (thread s u) -> t = u;
  iv_scan : forall t u slot r, held (thread s u) slot <> 0 -> my_record (thread s u) = Some r ->
    held (thread s u) slot ∈ pending (thread s t) -> collected (pc (thread s t)) r slot (held (thread s u) slot);
  iv_pc : forall t, pc_ok s (thread s t);
  iv_null : forall p, is_Some (status s !! p) -> p <> 0;
  iv_fault : fault s = false }.

Lemma set_at_eq {A} (f : nat -> A) i x : set_at f i x i = x.
Proof. unfold set_at. by rewrite decide_True. Qed.
Lemma set_at_ne {A} (f : nat -> A) i j x : j <> i -> set_at f i x j = f j.
Proof. intros. unfold set_at. by rewrite decide_False. Qed.

Lemma hp_init_inv : Inv hp_init.
Proof.
  split; cbn; try done; try (intros; set_solver).
  - intros t. constructor.
  - intros p [? H]. by rewrite lookup_empty in H.
Qed.

(** A thread that moves on with the same record and the same pointers in use. *)
Lemma inv_thread s t th : Inv s -> my_record th = my_record (thread s t) -> held th = held (thread s t) ->
  pending th ⊆ pending (thread s t) -> NoDup (pending th) -> pc_ok s th ->
  (forall u slot r, held (thread s u) slot <> 0 -> my_record (thread s u) = Some r -> held (thread s u) slot ∈ pending th ->
     collected (pc th) r slot (held (thread s u) slot)) ->
  Inv (with_thread s t th).
Proof.
  intros [H1 H2 H3 H4 H5 H6 H7 H8 H9 H10 H11 H12] Er Eh Ep En Ec Eo.
  assert (forall u, my_record (set_at (thread s) t th u) = my_record (thread s u)) as Hr.
  { intros u. destruct (decide (u = t)) as [->|]; [by rewrite set_at_eq|by rewrite set_at_ne]. }
  assert (forall u, held (set_at (thread s) t th u) = held (thread s u)) as Hh.
  { intros u. destruct (decide (u = t)) as [->|]; [by rewrite set_at_eq|by rewrite set_at_ne]. }
  assert (forall u p, p ∈ pending (set_at (thread s) t th u) -> p ∈ pending (thread s u)) as Hp.
  { intros u p. destruct (decide (u = t)) as [->|]; [rewrite set_at_eq; apply Ep|by rewrite set_at_ne]. }
  split; cbn [with_thread hp active thread shared status fault]; try done.
  - intros u r. rewrite Hr. apply H1.
  - intros u v r. rewrite !Hr. apply H2.
  - intros u slot. rewrite Hh, Hr. apply H3.
  - intros u p Hu%Hp. by eapply H6.
  - intros u. destruct (decide (u = t)) as [->|]; [by rewrite set_at_eq|by rewrite set_at_ne].
  - intros u v p Hu%Hp Hv%Hp. by eapply H8.
  - intros v u slot r. rewrite Hh, Hr. destruct (decide (v = t)) as [->|]; [rewrite set_at_eq; by apply Eo|rewrite set_at_ne by done; by apply H9].
  - intros u. destruct (decide (u = t)) as [->|]; [by rewrite set_at_eq|rewrite set_at_ne by done; by apply H10].
Qed.

(** Statuses may change where nothing depends on them. *)
Lemma inv_status s m sh : Inv s ->
  (forall p, is_Some (status s !! p) -> is_Some (m !! p)) -> (forall p, status s !! p = Some Retired -> m !! p = Some Retired) ->
  (forall p, is_Some (m !! p) -> p <> 0) ->
  (forall l, sh l <> 0 -> m !! sh l = Some Linked) -> (forall l l', sh l <> 0 -> sh l = sh l' -> l = l') ->
  Inv (mkState (hp s) (active s) (thread s) sh m (fault s)).
Proof.
  intros [H1 H2 H3 H4 H5 H6 H7 H8 H9 H10 H11 H12] E1 E2 E3 E4 E5. split; cbn [hp active thread shared status fault]; try done.
  - intros t slot Hn. destruct (H3 t slot Hn) as (? & ? & ?). split_and!; [done|by apply E1|done].
  - intros t p Hp. apply E2. by eapply H6.
Qed.

Lemma alloc_inv s p : Inv s -> p <> 0 -> status s !! p = None -> Inv (set_status s (<[p := Private]> (status s))).
Proof.
  intros Hi Hp Hn. apply inv_status; [done| | | | |].
  - intros q Hq. apply lookup_insert_is_Some'. by right.
  - intros q Hq. rewrite lookup_insert_ne; [done|]. intros ->. congruence.
  - intros q Hq. apply lookup_insert_is_Some' in Hq as [<-|Hq]; [done|]. by eapply iv_null.
  - intros l Hl. pose proof (iv_shared s Hi l Hl). rewrite lookup_insert_ne; [done|]. intros ->. congruence.
  - by apply iv_once.
Qed.

Lemma swap_inv s l q : Inv s -> q = 0 \/ status s !! q = Some Private -> Inv (swap_shared s l q).
Proof.
  intros Hi Hq. unfold swap_shared. set (m := if q =? 0 then _ else _).
  assert (forall p, m !! p = if decide (p = q /\ q <> 0) then Some Linked else status s !! p) as Hm.
  { intros p. subst m. destruct (Z.eqb_spec q 0) as [->|Hne]; [by rewrite decide_False by tauto|].
    destruct (decide (p = q /\ q <> 0)) as [[-> _]|Hd]; [by rewrite lookup_insert_eq|].
    rewrite lookup_insert_ne; [done|]. intros ->. tauto. }
  set (m' := if shared s l =? 0 then m else _).
  assert (forall p, m' !! p = if decide (p = shared s l /\ p <> 0) then Some Unlinked else m !! p) as Hm'.
  { intros p. subst m'. destruct (Z.eqb_spec (shared s l) 0) as [E|Hne]; [by rewrite decide_False by (rewrite E; tauto)|].
    destruct (decide (p = shared s l /\ p <> 0)) as [[-> _]|Hd]; [by rewrite lookup_insert_eq|].
    rewrite lookup_insert_ne; [done|]. intros <-. tauto. }
  assert (shared s l <> 0 -> shared s l <> q) as Hold.
  { intros Hn E. pose proof (iv_shared s Hi l Hn). destruct Hq as [->|Hq]; congruence. }
  apply inv_status; [done| | | | |].
  - intros p Hp. rewrite Hm', Hm. by destruct (decide (p = shared s l /\ p <> 0)), (decide (p = q /\ q <> 0)).
  - intros p Hp. rewrite Hm', Hm, !decide_False; [done| |].
    + intros [-> Hn]. destruct Hq as [->|Hq]; [done|]. congruence.
    + intros [-> Hn]. pose proof (iv_shared s Hi l Hn). congruence.
  - intros p. rewrite Hm', Hm. destruct (decide (p = shared s l /\ p <> 0)) as [[_ ?]|D1]; [done|].
    destruct (decide (p = q /\ q <> 0)) as [[-> ?]|D2]; [done|]. apply (iv_null s Hi).
  - intros l' Hn. rewrite Hm', Hm. destruct (decide (l' = l)) as [->|Hne].
    + rewrite set_at_eq in *. rewrite decide_False, decide_True; [done|done|]. intros [E _]. rewrite E in Hold. by apply Hold; [rewrite <- E|].
    + rewrite set_at_ne in * by done. rewrite decide_False.
      * destruct (decide (shared s l' = q /\ q <> 0)); [done|]. by apply (iv_shared s Hi).
      * intros [E _]. apply Hne. by apply (iv_once s Hi).
  - intros l1 l2 Hn He. destruct (decide (l1 = l)) as [->|H1], (decide (l2 = l)) as [->|H2]; [done| | |]; rewrite ?set_at_eq, ?set_at_ne in * by done.
    + pose proof (iv_shared s Hi l2 ltac:(congruence)). destruct Hq as [->|Hq]; [done|]. congruence.
    + pose proof (iv_shared s Hi l1 Hn). destruct Hq as [->|Hq]; congruence.
    + by apply (iv_once s Hi).
Qed.

Lemma register_inv s t r : Inv s -> my_record (thread s t) = None -> active s r = false -> (r < HP_MAX_THREADS)%nat -> Inv (register s t r).
Proof.
  intros [H1 H2 H3 H4 H5 H6 H7 H8 H9 H10 H11 H12] Hn Ha Hr. set (th := mkThread (Some r) [] Ready (held (thread s t))).
  assert (forall slot, held (thread s t) slot = 0) as Hz.
  { intros slot. destruct (Z.eq_dec (held (thread s t) slot) 0); [done|]. destruct (H3 t slot) as (_ & _ & r' & ? & _); [done|]. congruence. }
  assert (forall u r', my_record (thread s u) = Some r' -> r' <> r) as Hne by (intros u r' Hu ->; apply H1 in Hu as [? _]; congruence).
  assert (forall u, held (set_at (thread s) t th u) = held (thread s u)) as Hh.
  { intros u. destruct (decide (u = t)) as [->|]; [by rewrite set_at_eq|by rewrite set_at_ne]. }
  assert (forall u p, p ∈ pending (set_at (thread s) t th u) -> u <> t /\ p ∈ pending (thread s u)) as Hp.
  { intros u p. destruct (decide (u = t)) as [->|]; [rewrite set_at_eq; set_solver|by rewrite set_at_ne]. }
  split; cbn [register hp active thread shared status fault]; try done; fold th.
  - intros u r' Hu. destruct (decide (u = t)) as [->|]; [rewrite set_at_eq in Hu; injection Hu as <-; by rewrite set_at_eq|].
    rewrite set_at_ne in Hu by done. rewrite set_at_ne by (by eapply Hne). by eapply H1.
  - intros u v r' Hu Hv. destruct (decide (u = t)) as [->|], (decide (v = t)) as [->|]; [done|..]; rewrite ?set_at_eq, ?set_at_ne in * by done.
    + injection Hu as <-. by destruct (Hne v r Hv).
    + injection Hv as <-. by destruct (Hne u r Hu).
    + by eapply H2.
  - intros u slot. rewrite Hh. intros Hs. destruct (decide (u = t)) as [->|]; [by rewrite Hz in Hs|]. rewrite set_at_ne by done. by apply H3.
  - intros u p [_ Hu]%Hp. by eapply H6.
  - intros u. destruct (decide (u = t)) as [->|]; [rewrite set_at_eq; constructor|by rewrite set_at_ne].
  - intros u v p [_ Hu]%Hp [_ Hv]%Hp. by eapply H8.
  - intros v u slot r'. rewrite Hh. intros Hs Hu [Hv Hin]%Hp. rewrite (set_at_ne _ t v) by done.
    destruct (decide (u = t)) as [->|]; [by rewrite Hz in Hs|]. rewrite set_at_ne in Hu by done. by apply H9.
  - intros u. destruct (decide (u = t)) as [->|]; [by rewrite set_at_eq|rewrite set_at_ne by done; apply (H10 u)].
Qed.

Lemma unregister_inv s t r : Inv s -> my_record (thread s t) = Some r -> pc (thread s t) = Ready -> (forall j, hp s r j = 0) -> Inv (unregister s t r).
Proof.
  intros [H1 H2 H3 H4 H5 H6 H7 H8 H9 H10 H11 H12] Hr Hpc Hz0. set (th := mkThread None (retire_list (thread s t)) Ready (held (thread s t))).
  assert (forall slot, held (thread s t) slot = 0) as Hz.
  { intros slot. destruct (Z.eq_dec (held (thread s t) slot) 0); [done|]. destruct (H3 t slot) as (_ & _ & r' & E & Hh); [done|].
    rewrite Hr in E. injection E as <-. by rewrite Hz0 in Hh. }
  assert (forall u, held (set_at (thread s) t th u) = held (thread s u)) as Hh.
  { intros u. destruct (decide (u = t)) as [->|]; [by rewrite set_at_eq|by rewrite set_at_ne]. }
  assert (forall u r', my_record (set_at (thread s) t th u) = Some r' -> u <> t /\ my_record (thread s u) = Some r' /\ r' <> r) as Hrec.
  { intros u r'. destruct (decide (u = t)) as [->|Hne]; [by rewrite set_at_eq|]. rewrite set_at_ne by done. intros Hu. split_and!; [done|done|].
    intros ->. apply Hne. by eapply H2. }
  assert (forall u, pending (set_at (thread s) t th u) = pending (thread s u)) as Hp.
  { intros u. destruct (decide (u = t)) as [->|]; [rewrite set_at_eq|by rewrite set_at_ne]. unfold pending. by rewrite Hpc. }
  split; cbn [unregister hp active thread shared status fault]; try done; fold th.
  - intros u r' (Hu & Hr' & Hne)%Hrec. rewrite set_at_ne by done. by eapply H1.
  - intros u v r' (Hu & Hr1 & _)%Hrec (Hv & Hr2 & _)%Hrec. by eapply H2.
  - intros u slot. rewrite Hh. intros Hs. destruct (decide (u = t)) as [->|]; [by rewrite Hz in Hs|]. rewrite set_at_ne by done. by apply H3.
  - intros u p. rewrite Hp. apply H6.
  - intros u. rewrite Hp. apply H7.
  - intros u v p. rewrite !Hp. apply H8.
  - intros v u slot r'. rewrite Hh, Hp. intros Hs (Hu & Hr' & _)%Hrec Hin.
    destruct (decide (v = t)) as [->|]; [by rewrite set_at_eq|rewrite set_at_ne by done; by apply H9].
  - intros u. destruct (decide (u = t)) as [->|]; [by rewrite set_at_eq|rewrite set_at_ne by done; apply (H10 u)].
Qed.

(** A store to a slot of the thread's own record ends the use of the old
    pointer in it; other records are untouched. *)
Lemma acquire_inv s t r slot p c : Inv s -> my_record (thread s t) = Some r -> (slot < HP_PER_THREAD)%nat ->
  (pc (thread s t) = Ready /\ c = Ready \/ exists l, pc (thread s t) = Loaded slot l p /\ c = Published slot l p) ->
  Inv (hp_acquire s t r slot p c).
Proof.
  intros [H1 H2 H3 H4 H5 H6 H7 H8 H9 H10 H11 H12] Hr Hslot Hc. unfold hp_acquire.
  set (th := mkThread (my_record (thread s t)) (retire_list (thread s t)) c (set_at (held (thread s t)) slot 0)).
  assert (pending th = pending (thread s t)) as Epend by (unfold pending; destruct Hc as [[-> ->]|(l & -> & ->)]; done).
  assert (forall u, pending (set_at (thread s) t th u) = pending (thread s u)) as Hp.
  { intros u. destruct (decide (u = t)) as [->|]; [by rewrite set_at_eq|by rewrite set_at_ne]. }
  assert (forall u, my_record (set_at (thread s) t th u) = my_record (thread s u)) as Hrec.
  { intros u. destruct (decide (u = t)) as [->|]; [by rewrite set_at_eq|by rewrite set_at_ne]. }
  assert (forall u sl, held (set_at (thread s) t th u) sl <> 0 -> (u, sl) <> (t, slot) /\ held (set_at (thread s) t th u) sl = held (thread s u) sl) as Hh.
  { intros u sl. destruct (decide (u = t)) as [->|]; [rewrite set_at_eq|rewrite set_at_ne by done; intros _; split; congruence].
    cbn. destruct (decide (sl = slot)) as [->|]; [by rewrite set_at_eq|rewrite set_at_ne by done]. intros _. split; congruence. }
  assert (forall u r' sl, my_record (thread s u) = Some r' -> (u, sl) <> (t, slot) -> set_at (hp s) r (set_at (hp s r) slot p) r' sl = hp s r' sl) as Hhp.
  { intros u r' sl Hu Hne. destruct (decide (r' = r)) as [->|]; [|by rewrite set_at_ne]. assert (u = t) as -> by (by eapply H2).
    rewrite set_at_eq, set_at_ne; [done|]. intros ->. done. }
  split; cbn [set_hp with_thread hp active thread shared status fault]; try done.
  - intros u r'. rewrite Hrec. apply H1.
  - intros u v r'. rewrite !Hrec. apply H2.
  - intros u sl Hnz. destruct (Hh u sl Hnz) as [Hne Hs]. rewrite Hs in *. destruct (H3 u sl Hnz) as (? & ? & r' & Hu & ?). split_and!; [done|done|].
    exists r'. rewrite Hrec. split; [done|]. by rewrite (Hhp u).
  - intros u q. rewrite Hp. apply H6.
  - intros u. rewrite Hp. apply H7.
  - intros u v q. rewrite !Hp. apply H8.
  - intros v u sl r' Hnz. destruct (Hh u sl Hnz) as [Hne Hs]. rewrite Hs in *. rewrite Hrec, Hp. intros Hu Hin.
    destruct (decide (v = t)) as [->|]; [rewrite set_at_eq; cbn; destruct Hc as [[_ ->]|(l & _ & ->)]; done|rewrite set_at_ne by done; by apply H9].
  - intros u. destruct (decide (u = t)) as [->|Hne].
    + rewrite set_at_eq. unfold pc_ok. cbn. destruct Hc as [[_ ->]|(l & _ & ->)]; [done|]. split; [done|]. exists r. split; [done|]. by rewrite !set_at_eq.
    + rewrite set_at_ne by done. specialize (H10 u). unfold pc_ok in *. cbn. destruct (pc (thread s u)); try done.
      destruct H10 as (? & r' & Hu & ?). split; [done|]. exists r'. split; [done|]. rewrite (Hhp u); [done|done|]. congruence.
Qed.

(** The second load finds the pointer still in place: it is not retired, and
    no scan can have missed it. *)
Lemma check_inv s t slot l p : Inv s -> pc (thread s t) = Published slot l p -> Inv (check_step s t slot l p).
Proof.
  intros Hi Hpc. unfold check_step. destruct (Z.eqb_spec (shared s l) p) as [Hl|Hl].
  2:{ apply inv_thread; try done; pose proof (iv_nodup s Hi t) as Hn; unfold pending in *; rewrite Hpc in *; done. }
  pose proof (iv_pc s Hi t) as Hok. unfold pc_ok in Hok. rewrite Hpc in Hok. destruct Hok as (Hslot & r & Hr & Hhp).
  pose proof (iv_shared s Hi l) as Hlink. rewrite Hl in Hlink. destruct Hi as [H1 H2 H3 H4 H5 H6 H7 H8 H9 H10 H11 H12].
  set (th := mkThread _ _ _ _).
  assert (forall u, pending (set_at (thread s) t th u) = pending (thread s u)) as Hp.
  { intros u. destruct (decide (u = t)) as [->|]; [rewrite set_at_eq; unfold pending; by rewrite Hpc|by rewrite set_at_ne]. }
  assert (forall u, my_record (set_at (thread s) t th u) = my_record (thread s u)) as Hrec.
  { intros u. destruct (decide (u = t)) as [->|]; [by rewrite set_at_eq|by rewrite set_at_ne]. }
  assert (forall u sl, held (set_at (thread s) t th u) sl = held (thread s u) sl \/ (u = t /\ sl = slot /\ held (set_at (thread s) t th u) sl = p)) as Hh.
  { intros u sl. destruct (decide (u = t)) as [->|]; [rewrite set_at_eq; cbn|rewrite set_at_ne by done; by left].
    destruct (decide (sl = slot)) as [->|]; [right; by rewrite set_at_eq|left; by rewrite set_at_ne]. }
  split; cbn [with_thread hp active thread shared status fault]; try done.
  - intros u r'. rewrite Hrec. apply H1.
  - intros u v r'. rewrite !Hrec. apply H2.
  - intros u sl. rewrite Hrec. destruct (Hh u sl) as [->|(-> & -> & ->)]; [apply H3|]. intros Hnz. split_and!; [done|by rewrite Hlink|by exists r].
  - intros u q. rewrite Hp. apply H6.
  - intros u. rewrite Hp. apply H7.
  - intros u v q. rewrite !Hp. apply H8.
  - intros v u sl r'. rewrite Hrec, Hp. intros Hnz Hu Hin.
    assert (collected (pc (thread s v)) r' sl (held (set_at (thread s) t th u) sl)) as Hc.
    { destruct (Hh u sl) as [Heq|(-> & -> & Heq)]; rewrite Heq in *; [by apply H9|]. apply H6 in Hin. rewrite Hlink in Hin by done. done. }
    destruct (decide (v = t)) as [->|]; [by rewrite set_at_eq|by rewrite set_at_ne].
  - intros u. destruct (decide (u = t)) as [->|]; [by rewrite set_at_eq|rewrite set_at_ne by done; apply (H10 u)].
Qed.

Lemma retire_inv s t r p : Inv s -> my_record (thread s t) = Some r -> pc (thread s t) = Ready -> status s !! p = Some Unlinked -> Inv (hp_retire s t p).
Proof.
  intros [H1 H2 H3 H4 H5 H6 H7 H8 H9 H10 H11 H12] Hr Hpc Hst. unfold hp_retire. set (full := (HP_RETIRE_THRESHOLD <=? length (p :: retire_list (thread s t)))%nat).
  set (th := mkThread _ _ _ _).
  assert (pending th = p :: pending (thread s t)) as Epend by (unfold pending, th; cbn [pc retire_list]; rewrite Hpc; by destruct full).
  assert (forall u, p ∉ pending (thread s u)) as Hfresh by (intros u Hu; apply H6 in Hu; congruence).
  assert (forall u q, q ∈ pending (set_at (thread s) t th u) -> (u = t /\ q = p) \/ q ∈ pending (thread s u)) as Hp.
  { intros u q. destruct (decide (u = t)) as [->|]; [rewrite set_at_eq, Epend, elem_of_cons|rewrite set_at_ne by done]; tauto. }
  assert (forall u, my_record (set_at (thread s) t th u) = my_record (thread s u) /\ held (set_at (thread s) t th u) = held (thread s u)) as Hrec.
  { intros u. destruct (decide (u = t)) as [->|]; [by rewrite set_at_eq|by rewrite set_at_ne]. }
  assert (forall q, is_Some (status s !! q) -> is_Some (<[p := Retired]> (status s) !! q)) as Hsome.
  { intros q Hq. apply lookup_insert_is_Some'. by right. }
  split; cbn [set_status with_thread hp active thread shared status fault]; try done.
  - intros u r'. rewrite (proj1 (Hrec u)). apply H1.
  - intros u v r'. rewrite (proj1 (Hrec u)), (proj1 (Hrec v)). apply H2.
  - intros u sl. rewrite (proj1 (Hrec u)), (proj2 (Hrec u)). intros Hnz. destruct (H3 u sl Hnz) as (? & ? & ?). split_and!; auto.
  - intros l Hl. pose proof (H4 l Hl). rewrite lookup_insert_ne; [done|]. intros ->. congruence.
  - intros u q [[-> ->]|Hu]%Hp; [by rewrite lookup_insert_eq|]. rewrite lookup_insert_ne; [by eapply H6|]. intros ->. by eapply Hfresh.
  - intros u. destruct (decide (u = t)) as [->|]; [rewrite set_at_eq, Epend|by rewrite set_at_ne]. constructor; [apply Hfresh|apply H7].
  - intros u v q [[-> ->]|Hu]%Hp [[-> Hq]|Hv]%Hp; [done| | |by eapply H8].
    + by destruct (Hfresh v).
    + subst q. by destruct (Hfresh u).
  - intros v u sl r'. rewrite (proj1 (Hrec u)), (proj2 (Hrec u)). intros Hnz Hu Hin. destruct (decide (v = t)) as [->|].
    + rewrite set_at_eq. unfold th. cbn [pc]. destruct full; [|done]. cbn. lia.
    + destruct (Hp _ _ Hin) as [[? _]|Hin']; [done|]. rewrite set_at_ne by done. by apply H9.
  - intros u. destruct (decide (u = t)) as [->|]; [rewrite set_at_eq; unfold pc_ok, th; cbn [pc]; by destruct full|rewrite set_at_ne by done; apply (H10 u)].
  - intros q [<-|Hq]%lookup_insert_is_Some'; [|by apply H11]. apply H11. by rewrite Hst.
Qed.

(** Freeing a retired pointer that the scan has not collected: nobody uses it. *)
Lemma free_inv s t haz p curr kept : Inv s -> pc (thread s t) = Sweep haz (p :: curr) kept -> p ∉ haz ->
  Inv (mkState (hp s) (active s) (set_at (thread s) t (goto (thread s t) (Sweep haz curr kept))) (shared s) (delete p (status s))
    (fault s || negb (bool_decide (status s !! p = Some Retired)))).
Proof.
  intros [H1 H2 H3 H4 H5 H6 H7 H8 H9 H10 H11 H12] Hpc Hhaz. set (th := goto _ _).
  assert (pending (thread s t) = p :: curr ++ kept) as Epend by (unfold pending; by rewrite Hpc).
  assert (status s !! p = Some Retired) as Hret by (apply (H6 t); rewrite Epend; set_solver).
  assert (NoDup (p :: curr ++ kept)) as Hnd by (rewrite <- Epend; apply H7).
  assert (forall u q, q ∈ pending (set_at (thread s) t th u) -> q ∈ pending (thread s u) /\ q <> p) as Hp.
  { intros u q. destruct (decide (u = t)) as [->|Hne].
    - rewrite set_at_eq, Epend. cbn. intros Hq. split; [set_solver|]. intros ->. by apply NoDup_cons_1_1 in Hnd.
    - rewrite set_at_ne by done. intros Hq. split; [done|]. intros ->. apply Hne. apply (H8 u t p); [done|]. rewrite Epend. set_solver. }
  assert (forall u, my_record (set_at (thread s) t th u) = my_record (thread s u) /\ held (set_at (thread s) t th u) = held (thread s u)) as Hrec.
  { intros u. destruct (decide (u = t)) as [->|]; [by rewrite set_at_eq|by rewrite set_at_ne]. }
  assert (forall u sl, held (thread s u) sl <> 0 -> held (thread s u) sl <> p) as Hfree.
  { intros u sl Hnz E. destruct (H3 u sl Hnz) as (_ & _ & r & Hr & _). pose proof (H9 t u sl r Hnz Hr) as Hc. rewrite E, Epend, Hpc in Hc. apply Hhaz, Hc. set_solver. }
  split; cbn [hp active thread shared status fault]; try done.
  - intros u r'. rewrite (proj1 (Hrec u)). apply H1.
  - intros u v r'. rewrite (proj1 (Hrec u)), (proj1 (Hrec v)). apply H2.
  - intros u sl. rewrite (proj1 (Hrec u)), (proj2 (Hrec u)). intros Hnz. destruct (H3 u sl Hnz) as (? & ? & ?). split_and!; [done| |done].
    rewrite lookup_delete_ne; [done|]. by apply not_eq_sym, Hfree.
  - intros l Hl. pose proof (H4 l Hl). rewrite lookup_delete_ne; [done|]. intros ->. congruence.
  - intros u q [Hq Hne]%Hp. rewrite lookup_delete_ne by done. by eapply H6.
  - intros u. destruct (decide (u = t)) as [->|]; [rewrite set_at_eq; by apply NoDup_cons_1_2 in Hnd|by rewrite set_at_ne].
  - intros u v q [Hu _]%Hp [Hv _]%Hp. by eapply H8.
  - intros v u sl r'. rewrite (proj1 (Hrec u)), (proj2 (Hrec u)). intros Hnz Hu [Hin _]%Hp. specialize (H9 v u sl r' Hnz Hu Hin).
    destruct (decide (v = t)) as [->|]; [rewrite set_at_eq; by rewrite Hpc in H9|by rewrite set_at_ne].
  - intros u. destruct (decide (u = t)) as [->|]; [by rewrite set_at_eq|rewrite set_at_ne by done; apply (H10 u)].
  - intros q [_ Hq]%lookup_delete_is_Some. by apply H11.
  - rewrite H12, bool_decide_eq_true_2 by done. done.
Qed.

Lemma existsb_elem p l : existsb (Z.eqb p) l = true <-> p ∈ l.
Proof. rewrite existsb_exists. split; [intros (x & Hx & ->%Z.eqb_eq); by apply list_elem_of_In|]. intros Hp. exists p. split; [by apply list_elem_of_In|apply Z.eqb_refl]. Qed.

Lemma sweep_inv s t haz curr kept : Inv s -> pc (thread s t) = Sweep haz curr kept -> Inv (sweep_step s t haz curr kept).
Proof.
  intros Hi Hpc. pose proof (iv_nodup s Hi t) as Hnd. pose proof (iv_scan s Hi t) as Hsc. unfold pending in Hnd, Hsc. rewrite Hpc in Hnd, Hsc.
  unfold sweep_step. destruct curr as [|p curr].
  - apply inv_thread; try done. unfold pending. by rewrite Hpc.
  - destruct (existsb (Z.eqb p) haz) eqn:E.
    + apply inv_thread; try done; unfold pending; rewrite ?Hpc; cbn [goto pc].
      * set_solver.
      * rewrite <- Permutation_middle. exact Hnd.
      * intros u sl r Hnz Hr Hin. apply (Hsc u sl r); try done. set_solver.
    + apply (free_inv s t haz p curr kept Hi Hpc). rewrite <- existsb_elem. by rewrite E.
Qed.

Lemma flag_inv s t i haz : Inv s -> pc (thread s t) = Flag i haz -> Inv (flag_step s t i haz).
Proof.
  intros Hi Hpc. pose proof (iv_nodup s Hi t) as Hnd. pose proof (iv_scan s Hi t) as Hsc. unfold pending in Hnd, Hsc. rewrite Hpc in Hnd, Hsc.
  unfold flag_step. destruct (Nat.leb_spec HP_MAX_THREADS i) as [Hm|Hm].
  - apply inv_thread; try done; unfold pending; rewrite ?Hpc; cbn [goto pc]; rewrite ?app_nil_r; try done.
    intros u sl r Hnz Hr Hin. apply (Hsc u sl r Hnz Hr Hin). pose proof (iv_rec s Hi u r Hr). lia.
  - destruct (active s i) eqn:Ha; apply inv_thread; try done; unfold pending; rewrite ?Hpc; cbn [goto pc]; try done.
    + split; [done|]. unfold HP_PER_THREAD. lia.
    + intros u sl r Hnz Hr Hin [?|[_ ?]]; [by apply (Hsc u sl r)|lia].
    + intros u sl r Hnz Hr Hin Hlt. apply (Hsc u sl r Hnz Hr Hin). pose proof (iv_rec s Hi u r Hr) as [Hact _].
      assert (r <> i) by congruence. lia.
Qed.

Lemma slot_inv s t i j haz : Inv s -> pc (thread s t) = Slot i j haz -> Inv (slot_step s t i j haz).
Proof.
  intros Hi Hpc. pose proof (iv_nodup s Hi t) as Hnd. pose proof (iv_scan s Hi t) as Hsc. pose proof (iv_pc s Hi t) as Hok.
  unfold pending in Hnd, Hsc. unfold pc_ok in Hok. rewrite Hpc in Hnd, Hsc, Hok. destruct Hok as [Hi1 Hj1].
  unfold slot_step. set (haz' := if hp s i j =? 0 then haz else haz ++ [hp s i j]).
  assert (forall u sl r, held (thread s u) sl <> 0 -> my_record (thread s u) = Some r -> held (thread s u) sl ∈ retire_list (thread s t) ->
    (r < i \/ (r = i /\ sl < S j))%nat -> held (thread s u) sl ∈ haz') as Hnew.
  { intros u sl r Hnz Hr Hin Hpos. destruct (decide (r = i /\ sl = j)) as [[-> ->]|Hne].
    - destruct (iv_held s Hi u j Hnz) as (_ & _ & r' & Hr' & Hhp). rewrite Hr in Hr'. injection Hr' as <-. unfold haz'. rewrite Hhp.
      rewrite (proj2 (Z.eqb_neq _ _)) by done. set_solver.
    - assert (held (thread s u) sl ∈ haz) by (apply (Hsc u sl r Hnz Hr Hin); lia). unfold haz'. case_if; set_solver. }
  destruct (Nat.ltb_spec (S j) HP_PER_THREAD) as [Hn|Hn]; apply inv_thread; try done; unfold pending; rewrite ?Hpc; cbn [goto pc]; try done.
  intros u sl r Hnz Hr Hin Hlt. apply (Hnew u sl r Hnz Hr Hin). pose proof (iv_held s Hi u sl Hnz) as [? _]. lia.
Qed.

Lemma nomem_inv s p : Inv s -> status s !! p = Some Unlinked -> ~ in_use s p -> Inv (hp_retire_nomem s p).
Proof.
  intros [H1 H2 H3 H4 H5 H6 H7 H8 H9 H10 H11 H12] Hp Hu. split; cbn [hp_retire_nomem set_status hp active thread shared status fault]; try done.
  - intros t slot Hn. destruct (H3 t slot Hn) as (? & ? & ?). split_and!; [done| |done]. rewrite lookup_delete_ne; [done|]. intros E. apply Hu. by exists t, slot.
  - intros l Hl. pose proof (H4 l Hl). rewrite lookup_delete_ne; [done|]. intros ->. congruence.
  - intros t q Hq. pose proof (H6 t q Hq). rewrite lookup_delete_ne; [done|]. intros ->. congruence.
  - intros q [_ Hq]%lookup_delete_is_Some. by apply H11.
Qed.

Lemma step_inv l s s' : step l s s' -> (forall p, l = Some p -> ~ in_use s p) -> Inv s -> Inv s'.
Proof.
  intros Hst Hmem Hi. destruct Hst as [s p|s l q|s t r|s t r|s t r slot l Hr Hpc Hsl|s t r slot l p Hr Hpc|s t slot l p|s t r slot|s t r p|s t r p Hr Hpc Hp|s t r Hr Hpc _|s t i haz|s t i j haz|s t haz curr kept].
  - by apply alloc_inv.
  - by apply swap_inv.
  - by apply register_inv.
  - by apply unregister_inv.
  - apply inv_thread; try done; unfold pending; rewrite ?Hpc; cbn; try done; [pose proof (iv_nodup s Hi t) as Hn; unfold pending in Hn; by rewrite Hpc in Hn|].
    split; [done|by exists r].
  - apply acquire_inv; [done|done| |right; by exists l]. pose proof (iv_pc s Hi t) as Hok. unfold pc_ok in Hok. rewrite Hpc in Hok. by destruct Hok.
  - by apply check_inv.
  - apply acquire_inv; [done|done|done|by left].
  - by eapply retire_inv.
  - apply nomem_inv; [done|done|]. by apply Hmem.
  - apply inv_thread; try done; unfold pending; rewrite ?Hpc; cbn; try done; [pose proof (iv_nodup s Hi t) as Hn; unfold pending in Hn; by rewrite Hpc in Hn|].
    intros; lia.
  - by apply flag_inv.
  - by apply slot_inv.
  - by apply sweep_inv.
Qed.

Lemma reach_inv s : reach_mem s -> Inv s.
Proof. induction 1 as [|l s s' _ IH Hst Hm]; [apply hp_init_inv|by eapply step_inv]. Qed.

(** C13. Safety of the reclamation.  As long as no [malloc] of [hp_retire]
    fails for a pointer in use (then it is freed at once,
    [hp_retire_nomem_unsafe]): in every state that the threads can reach, a
    pointer that [HP_LOAD_SAFE] has returned and that has not been
    released is allocated; only retired pointers have been freed, each once;
    and what is freed next is in use by no thread. *)
Theorem hp_no_use_after_free s : reach_mem s ->
  fault s = false /\
  (forall t slot, held (thread s t) slot <> 0 -> is_Some (status s !! held (thread s t) slot)) /\
  (forall t haz p curr kept, pc (thread s t) = Sweep haz (p :: curr) kept -> p ∉ haz ->
     status s !! p = Some Retired /\ forall u slot, held (thread s u) slot <> p).
Proof.
  intros Hi%reach_inv. split; [apply Hi|]. split; [intros t slot Hn; by apply (iv_held s Hi)|]. intros t haz p curr kept Hpc Hp.
  assert (p ∈ pending (thread s t)) as Hin by (unfold pending; rewrite Hpc; set_solver). pose proof (iv_ret s Hi t p Hin) as Hst. split; [done|].
  intros u slot E. assert (held (thread s u) slot <> 0) as Hnz by (rewrite E; by apply (iv_null s Hi); rewrite Hst).
  destruct (iv_held s Hi u slot Hnz) as (_ & _ & r & Hr & _). pose proof (iv_scan s Hi t u slot r Hnz Hr) as Hc. rewrite E, Hpc in Hc. by apply Hp, Hc.
Qed.

(** ** Example: thread 0 reads node 100, thread 1 takes it out and retires it *)
Definition ex1 : State := swap_shared (set_status hp_init (<[100 := Private]> (status hp_init))) 0 100.
Definition ex2 : State := register (register ex1 0 0) 1 1.
Definition ex3 : State := with_thread ex2 0 (goto (thread ex2 0) (Loaded 3 0 (shared ex2 0))).
Definition ex4 : State := hp_acquire ex3 0 0 3 100 (Published 3 0 100).
Definition ex5 : State := swap_shared (check_step ex4 0 3 0 100) 0 0.
Definition ex6 : State := hp_retire ex5 1 100.

Lemma reach_more s s' : reach_mem s -> step None s s' -> reach_mem s'.
Proof. intros H Hs. by eapply reach_mem_step. Qed.
Lemma reach_mem_reach s : reach_mem s -> reach s.
Proof. induction 1; [apply reach_init|by eapply reach_step]. Qed.

Lemma ex5_reach : reach_mem ex5.
Proof.
  assert (reach_mem ex2) as H.
  { eapply reach_more; [eapply reach_more; [eapply reach_more; [eapply reach_more; [apply reach_mem_init|]|]|]|].
    - by apply (step_alloc hp_init 100).
    - apply (step_swap _ 0 100). right. reflexivity.
    - apply (step_register ex1 0 0); [done|done|unfold HP_MAX_THREADS; lia].
    - apply (step_register _ 1 1); [done|done|unfold HP_MAX_THREADS; lia]. }
  eapply reach_more; [eapply reach_more; [eapply reach_more; [eapply reach_more; [exact H|]|]|]|].
  - apply (step_load ex2 0 0 3 0); [done|done|unfold HP_PER_THREAD; lia].
  - apply (step_publish ex3 0 0 3 0 100); done.
  - apply (step_check ex4 0 3 0 100). done.
  - apply (step_swap _ 0 0). by left.
Qed.

Lemma hp_no_use_after_free_witness : held (thread ex6 0) 3 = 100 /\ status ex6 !! 100 = Some Retired /\ is_Some (status ex6 !! held (thread ex6 0) 3).
Proof.
  split; [reflexivity|]. split; [reflexivity|]. apply (hp_no_use_after_free ex6); [|done].
  apply (reach_more ex5 ex6 ex5_reach). apply (step_retire ex5 1 1 100); reflexivity.
Defined.

(** Without memory for the list entry, [hp_retire] frees a pointer in use. *)
Lemma hp_retire_nomem_unsafe : exists s s', reach s /\ step (Some 100) s s' /\ held (thread s 0) 3 = 100 /\ held (thread s' 0) 3 = 100 /\ status s' !! 100 = None.
Proof.
  exists ex5, (hp_retire_nomem ex5 100). split; [apply reach_mem_reach, ex5_reach|]. split; [by apply (step_retire_nomem ex5 1 1 100)|]. by split_and!.
Qed.
