(* ===== verification/Arena.v ===== *)
(** * The arena allocator (src/src/memory/arena.c)

    A bump allocator over mapped blocks.  The blocks are numbered in the order
    of their creation; [b_next] is the link of the C list.  What [mmap]
    answers is the argument [mem]; that it is a fresh range of user addresses
    is the hypothesis [fresh_map].  The contents of the memory, the clock and
    the running average of the latency are left out. *)
From S2P Require Import Prelude.

Definition ARENA_DEFAULT_SIZE : Z := 16 * 1024 * 1024.
Definition ARENA_GROWTH_FACTOR : Z := 2.

Record ArenaBlock := mkBlock { base : Z; size : Z; used : Z; peak : Z; b_next : option nat; b_prev : option nat }.
Record ArenaStats := mkStats { total_allocs : Z; total_bytes : Z; wasted_bytes : Z; block_count : Z; reset_count : Z }.
Record Arena := mkArena { blocks : list ArenaBlock; current : nat; head : nat; default_block_sz : Z; stats : ArenaStats }.

(** [(x + a - 1) & ~(a - 1)] on 64 bits. *)
Definition align_up (x a : Z) : Z := Z.land (u64 (x + a - 1)) (Z.lnot (a - 1)).

(** The new block is not linked yet; [None]: no memory. *)
Definition arena_block_create (page_size : Z) (mem : option Z) (sz : Z) : option ArenaBlock :=
  match mem with
  | None => None
  | Some b => Some (mkBlock b (align_up sz page_size) 0 0 None None)
  end.

Definition arena_create (page_size : Z) (mem : option Z) (block_size : Z) : option Arena :=
  let block_size := if block_size =? 0 then ARENA_DEFAULT_SIZE else block_size in
  match arena_block_create page_size mem block_size with
  | None => None
  | Some b => Some (mkArena [b] 0 0 block_size (mkStats 0 0 0 1 0))
  end.

Definition bump (b : ArenaBlock) (new_used : Z) : ArenaBlock :=
  mkBlock (base b) (size b) new_used (if peak b <? new_used then new_used else peak b) (b_next b) (b_prev b).

Definition count_alloc (s : ArenaStats) (sz waste new_blocks : Z) : ArenaStats :=
  mkStats (u64 (total_allocs s + 1)) (u64 (total_bytes s + sz)) (u64 (wasted_bytes s + waste)) (u64 (block_count s + new_blocks)) (reset_count s).

(** The size asked for when the current block is full. *)
Definition grow_size (a : Arena) (sz alignment : Z) : Z :=
  let new_size := u64 (default_block_sz a * ARENA_GROWTH_FACTOR) in
  if new_size <? u64 (sz + alignment) then u64 (sz + alignment + 4096) else new_size.

(** [None] as the new state is a failed assertion. *)
Definition arena_alloc_aligned (page_size : Z) (mem : option Z) (a : Arena) (sz alignment : Z) : option (Arena * option Z) :=
  if sz =? 0 then Some (a, None)
  else
    let alignment := if alignment =? 0 then 8 else alignment in
    if negb (Z.land alignment (alignment - 1) =? 0) then None
    else
      match blocks a !! current a with
      | None => None
      | Some block =>
          let current_ptr := u64 (base block + used block) in
          let aligned_ptr := align_up current_ptr alignment in
          let padding := u64 (aligned_ptr - current_ptr) in
          let total_need := u64 (padding + sz) in
          if u64 (used block + total_need) <=? size block then
            Some (mkArena (<[current a := bump block (u64 (used block + total_need))]> (blocks a)) (current a) (head a) (default_block_sz a)
                    (count_alloc (stats a) sz padding 0), Some aligned_ptr)
          else
            match arena_block_create page_size mem (grow_size a sz alignment) with
            | None => Some (a, None)
            | Some nb =>
                let id := length (blocks a) in
                let ap := align_up (base nb) alignment in
                let pd := u64 (ap - base nb) in
                let nb := mkBlock (base nb) (size nb) 0 0 None (Some (current a)) in
                let old := mkBlock (base block) (size block) (used block) (peak block) (Some id) (b_prev block) in
                Some (mkArena (<[current a := old]> (blocks a) ++ [bump nb (u64 (pd + sz))]) id (head a) (default_block_sz a)
                        (count_alloc (stats a) sz pd 1), Some ap)
            end
      end.

(** [while (al < alignment) al <<= 1;] for an alignment of 8 at most. *)
Fixpoint grow_pow2 (fuel : nat) (al alignment : Z) : Z :=
  match fuel with O => al | S fuel => if al <? alignment then grow_pow2 fuel (al * 2) alignment else al end.

Definition arena_alloc (page_size : Z) (mem : option Z) (a : Arena) (sz : Z) : option (Arena * option Z) :=
  let alignment := if 8 <=? sz then 8 else sz in
  arena_alloc_aligned page_size mem a sz (grow_pow2 3 1 alignment).

(** The blocks that [head] leads to, at most all of them. *)
Fixpoint chain (fuel : nat) (bs : list ArenaBlock) (at_ : option nat) : list nat :=
  match fuel, at_ with
  | S fuel, Some i => match bs !! i with Some b => i :: chain fuel bs (b_next b) | None => [] end
  | _, _ => []
  end.
Definition reachable (a : Arena) : list nat := chain (length (blocks a)) (blocks a) (Some (head a)).

Definition rewind (b : ArenaBlock) : ArenaBlock := mkBlock (base b) (size b) 0 (peak b) (b_next b) (b_prev b).

Definition arena_reset (a : Arena) : Arena :=
  mkArena (foldr (fun i bs => alter rewind i bs) (blocks a) (reachable a)) (head a) (head a) (default_block_sz a)
    (mkStats (total_allocs (stats a)) (total_bytes (stats a)) (wasted_bytes (stats a)) (block_count (stats a)) (u64 (reset_count (stats a) + 1))).

Definition sum_blocks (f : ArenaBlock -> Z) (a : Arena) : Z :=
  fold_left (fun t i => match blocks a !! i with Some b => u64 (t + f b) | None => t end) (reachable a) 0.
Definition arena_used (a : Arena) : Z := sum_blocks used a.
Definition arena_capacity (a : Arena) : Z := sum_blocks size a.
(** The mappings that [arena_destroy] returns to the system. *)
Definition arena_destroy (a : Arena) : list (Z * Z) := omap (fun i => (fun b => (base b, size b)) <$> (blocks a !! i)) (reachable a).

(** ** Alignment *)
Lemma align_up_spec x k : 0 <= x -> 0 <= k -> x + 2 ^ k <= 2 ^ 64 ->
  x <= align_up x (2 ^ k) < x + 2 ^ k /\ (2 ^ k | align_up x (2 ^ k)).
Proof.
  intros Hx Hk Hb. assert (0 < 2 ^ k) as Hp by (apply Z.pow_pos_nonneg; lia). unfold align_up. rewrite wrap_small by (split; lia).
  replace (2 ^ k - 1) with (Z.ones k) by (rewrite Z.ones_equiv; lia). rewrite <- Z.ldiff_land, Z.ldiff_ones_r by lia.
  rewrite Z.shiftr_div_pow2, Z.shiftl_mul_pow2 by lia. split; [|by exists ((x + 2 ^ k - 1) / 2 ^ k)].
  pose proof (Z.div_mod (x + 2 ^ k - 1) (2 ^ k) ltac:(lia)). pose proof (Z.mod_pos_bound (x + 2 ^ k - 1) (2 ^ k) Hp). lia.
Qed.

Lemma pow2_test k : 0 <= k -> Z.land (2 ^ k) (2 ^ k - 1) = 0.
Proof.
  intros Hk. replace (2 ^ k - 1) with (Z.ones k) by (rewrite Z.ones_equiv; lia). rewrite Z.land_ones by lia. apply Z.mod_same.
  pose proof (Z.pow_pos_nonneg 2 k). lia.
Qed.

(** ** Invariant

    [live] are the ranges handed out since the last reset. *)
Definition disj (a b : Z * Z) : Prop := a.1 + a.2 <= b.1 \/ b.1 + b.2 <= a.1.
Definition range (b : ArenaBlock) : Z * Z := (base b, size b).

Record block_ok (b : ArenaBlock) : Prop := {
  bk_base : 0 < base b; bk_size : base b + size b <= 2 ^ 47; bk_used : 0 <= used b <= size b }.

Definition inside (bs : list ArenaBlock) (r : Z * Z) : Prop :=
  exists i b, bs !! i = Some b /\ 0 < r.2 /\ base b <= r.1 /\ r.1 + r.2 <= base b + used b.

Record arena_ok (a : Arena) (live : list (Z * Z)) : Prop := {
  ao_blocks : Forall block_ok (blocks a);
  ao_disj : forall i j b b', blocks a !! i = Some b -> blocks a !! j = Some b' -> i <> j -> disj (range b) (range b');
  ao_cur : is_Some (blocks a !! current a);
  ao_head : is_Some (blocks a !! head a);
  ao_size : 0 < default_block_sz a <= 2 ^ 44;
  ao_inside : Forall (inside (blocks a)) live;
  ao_live : ForallOrdPairs disj live }.

(** A range that [mmap] may answer. *)
Definition fresh_map (bs : list ArenaBlock) (m sz : Z) : Prop :=
  0 < m /\ m + sz <= 2 ^ 47 /\ forall i b, bs !! i = Some b -> disj (range b) (m, sz).

(** Two ranges in disjoint blocks, or below and above a cursor, are disjoint. *)
Lemma inside_disj bs r p n i b : Forall block_ok bs ->
  (forall i j b b', bs !! i = Some b -> bs !! j = Some b' -> i <> j -> disj (range b) (range b')) ->
  inside bs r -> bs !! i = Some b -> base b + used b <= p -> p + n <= base b + size b -> disj (p, n) r.
Proof.
  intros Hok Hd (j & b' & Hj & Hn & H1 & H2) Hi Hp1 Hp2. destruct (decide (i = j)) as [->|Hne].
  - rewrite Hi in Hj. injection Hj as <-. right. cbn. lia.
  - pose proof (Hd i j b b' Hi Hj Hne) as Hdd. pose proof (Forall_lookup_1 _ _ _ _ Hok Hi) as [? ? ?]. pose proof (Forall_lookup_1 _ _ _ _ Hok Hj) as [? ? ?].
    unfold disj, range in *. cbn in *. lia.
Qed.

(** Writing back a block with the same memory and a cursor that is not lower. *)
Section Replace.
Context (bs : list ArenaBlock) (i : nat) (b b' : ArenaBlock).
Hypothesis Hi : bs !! i = Some b.
Hypothesis Hr : range b' = range b.

Lemma replace_lookup j x : <[i := b']> bs !! j = Some x -> exists y, bs !! j = Some y /\ range x = range y /\ (j <> i -> x = y).
Proof.
  intros H. destruct (decide (j = i)) as [->|Hne].
  - rewrite list_lookup_insert_eq in H by (by eapply lookup_lt_Some). injection H as <-. exists b. done.
  - rewrite list_lookup_insert_ne in H by done. by exists x.
Qed.

Lemma replace_disj : (forall i j b b', bs !! i = Some b -> bs !! j = Some b' -> i <> j -> disj (range b) (range b')) ->
  forall j k x y, <[i := b']> bs !! j = Some x -> <[i := b']> bs !! k = Some y -> j <> k -> disj (range x) (range y).
Proof.
  intros H j k x y (x' & Hx & -> & _)%replace_lookup (y' & Hy & -> & _)%replace_lookup Hne. by apply (H j k).
Qed.

Lemma replace_inside r : used b <= used b' -> inside bs r -> inside (<[i := b']> bs) r.
Proof.
  intros Hu (j & x & Hj & Hn & H1 & H2). injection Hr as Hb Hs. destruct (decide (j = i)) as [->|Hne].
  - rewrite Hi in Hj. injection Hj as <-. exists i, b'. rewrite list_lookup_insert_eq by (by eapply lookup_lt_Some). split_and!; [done|done|lia|lia].
  - exists j, x. by rewrite list_lookup_insert_ne.
Qed.
End Replace.

(** What the request may be. *)
Record request_ok (a : Arena) (page_size : Z) (mem : option Z) (sz k : Z) : Prop := {
  rq_size : 0 < sz <= 2 ^ 46; rq_align : 0 <= k <= 20; rq_page : exists p, page_size = 2 ^ p /\ 0 <= p <= 30;
  rq_map : forall m, mem = Some m -> fresh_map (blocks a) m (align_up (grow_size a sz (2 ^ k)) page_size) }.

Lemma grow_size_ok a page_size sz k : 0 < default_block_sz a <= 2 ^ 44 -> 0 < sz <= 2 ^ 46 -> 0 <= k <= 20 -> (exists p, page_size = 2 ^ p /\ 0 <= p <= 30) ->
  sz + 2 ^ k <= align_up (grow_size a sz (2 ^ k)) page_size < 2 ^ 48.
Proof.
  intros Hd Hs Hk (p & -> & Hp). assert (1 <= 2 ^ k <= 2 ^ 20) by (split; [apply (Z.pow_le_mono_r 2 0); lia|apply Z.pow_le_mono_r; lia]).
  assert (1 <= 2 ^ p <= 2 ^ 30) by (split; [apply (Z.pow_le_mono_r 2 0); lia|apply Z.pow_le_mono_r; lia]).
  assert (sz + 2 ^ k <= grow_size a sz (2 ^ k) <= 2 ^ 47) as Hg.
  { unfold grow_size, ARENA_GROWTH_FACTOR. rewrite (wrap_small 64 (default_block_sz a * 2)) by mach.
    rewrite (wrap_small 64 (sz + 2 ^ k)) by mach. rewrite (wrap_small 64 (sz + 2 ^ k + 4096)) by mach. case_if; mach. }
  destruct (align_up_spec (grow_size a sz (2 ^ k)) p ltac:(lia) ltac:(lia) ltac:(mach)) as [Ha _]. mach.
Qed.

Definition alloc_post (a a' : Arena) (live : list (Z * Z)) (sz k : Z) (r : option Z) : Prop :=
  match r with
  | Some p => arena_ok a' ((p, sz) :: live) /\ (2 ^ k | p) /\ Forall (disj (p, sz)) live
  | None => a' = a
  end.

Lemma alloc_here a live page_size mem sz k b : arena_ok a live -> request_ok a page_size mem sz k -> blocks a !! current a = Some b ->
  let cur := u64 (base b + used b) in let p := align_up cur (2 ^ k) in let need := u64 (u64 (p - cur) + sz) in
  u64 (used b + need) <= size b ->
  alloc_post a (mkArena (<[current a := bump b (u64 (used b + need))]> (blocks a)) (current a) (head a) (default_block_sz a)
    (count_alloc (stats a) sz (u64 (p - cur)) 0)) live sz k (Some p).
Proof.
  intros [H1 H2 H3 H4 H5 H6 H7] [Q1 Q2 Q3 Q4] Hb. cbv zeta. pose proof (Forall_lookup_1 _ _ _ _ H1 Hb) as [B1 B2 B3].
  assert (1 <= 2 ^ k <= 2 ^ 20) by (split; [apply (Z.pow_le_mono_r 2 0); lia|apply Z.pow_le_mono_r; lia]).
  rewrite (wrap_small 64 (base b + used b)) by mach.
  destruct (align_up_spec (base b + used b) k ltac:(lia) ltac:(lia) ltac:(mach)) as [A1 A2]. set (p := align_up (base b + used b) (2 ^ k)) in *.
  rewrite (wrap_small 64 (p - _)) by mach. rewrite (wrap_small 64 (p - _ + sz)) by mach. rewrite (wrap_small 64 (used b + _)) by mach.
  intros Hfit. set (b' := bump b _). assert (range b' = range b) as Hr by done.
  assert (Forall (disj (p, sz)) live) as Hdis.
  { eapply Forall_impl; [exact H6|]. intros r Hin. eapply inside_disj; [exact H1|exact H2|exact Hin|exact Hb|lia|lia]. }
  split; [|done]. split; cbn [blocks current head default_block_sz]; try done.
  - apply Forall_insert; [done|]. split; cbn; mach.
  - by eapply replace_disj.
  - rewrite list_lookup_insert_eq by (by eapply lookup_lt_Some). by eexists.
  - apply lookup_lt_is_Some. rewrite length_insert. by apply lookup_lt_is_Some.
  - constructor.
    + exists (current a), b'. rewrite list_lookup_insert_eq by (by eapply lookup_lt_Some). cbn. split_and!; [done|lia|lia|lia].
    + eapply Forall_impl; [exact H6|]. intros r Hin. eapply replace_inside; [done|done| |done]. cbn. lia.
  - by constructor.
Qed.

Lemma alloc_new a live page_size m sz k b : arena_ok a live -> request_ok a page_size (Some m) sz k -> blocks a !! current a = Some b ->
  let msz := align_up (grow_size a sz (2 ^ k)) page_size in let p := align_up m (2 ^ k) in let pd := u64 (p - m) in
  let old := mkBlock (base b) (size b) (used b) (peak b) (Some (length (blocks a))) (b_prev b) in
  alloc_post a (mkArena (<[current a := old]> (blocks a) ++ [bump (mkBlock m msz 0 0 None (Some (current a))) (u64 (pd + sz))])
    (length (blocks a)) (head a) (default_block_sz a) (count_alloc (stats a) sz pd 1)) live sz k (Some p).
Proof.
  intros [H1 H2 H3 H4 H5 H6 H7] [Q1 Q2 Q3 Q4] Hb. cbv zeta. destruct (Q4 m eq_refl) as (M1 & M2 & M3). clear Q4.
  destruct (grow_size_ok a page_size sz k H5 Q1 Q2 Q3) as [G1 G2].
  assert (1 <= 2 ^ k <= 2 ^ 20) by (split; [apply (Z.pow_le_mono_r 2 0); lia|apply Z.pow_le_mono_r; lia]).
  destruct (align_up_spec m k ltac:(lia) ltac:(lia) ltac:(mach)) as [A1 A2]. set (p := align_up m (2 ^ k)) in *. set (msz := align_up _ page_size) in *.
  rewrite (wrap_small 64 (p - m)) by mach. rewrite (wrap_small 64 (p - m + sz)) by mach.
  set (old := mkBlock _ _ (used b) _ _ _). set (nb := bump _ _). assert (range old = range b) as Hr by done.
  pose proof (Forall_lookup_1 _ _ _ _ H1 Hb) as Hbok. set (bs := <[current a := old]> (blocks a)).
  assert (forall j x, (bs ++ [nb]) !! j = Some x -> (j = length (blocks a) /\ x = nb) \/ ((j < length (blocks a))%nat /\ bs !! j = Some x)) as Hlook.
  { intros j x [Hj|[Hl Hj]]%lookup_app_Some.
    - right. split; [|done]. apply lookup_lt_Some in Hj. subst bs. by rewrite length_insert in Hj.
    - left. apply list_lookup_singleton_Some in Hj as [Hj <-]. subst bs. rewrite length_insert in *. split; [lia|done]. }
  assert (Forall (disj (p, sz)) live) as Hdis.
  { eapply Forall_impl; [exact H6|]. intros r (i & x & Hi & R1 & R2 & R3). pose proof (M3 i x Hi) as Hd. pose proof (Forall_lookup_1 _ _ _ _ H1 Hi) as [? ? ?].
    unfold disj, range in *. cbn in *. lia. }
  split; [|done]. split; cbn [blocks current head default_block_sz]; try done.
  - apply Forall_app. split; [apply Forall_insert; [done|by destruct Hbok]|]. constructor; [|constructor]. split; cbn; lia.
  - assert (forall j x, bs !! j = Some x -> disj (range x) (range nb)) as Hn.
    { intros j x Hj. eapply replace_lookup in Hj as (y & Hy & -> & _); [|exact Hb|exact Hr]. apply (M3 j y Hy). }
    intros i j x y [[-> ->]|[Hi1 Hi]]%Hlook [[-> ->]|[Hj1 Hj]]%Hlook Hne; [done|destruct (Hn j y Hj); [by right|by left]|by eapply Hn|].
    eapply (replace_disj (blocks a) (current a) b old Hb Hr H2 i j); done.
  - apply lookup_lt_is_Some. subst bs. rewrite length_app, length_insert. cbn. lia.
  - apply lookup_lt_is_Some in H4. apply lookup_lt_is_Some. subst bs. rewrite length_app, length_insert. cbn. lia.
  - constructor.
    + exists (length (blocks a)), nb. split; [|cbn; lia]. subst bs. rewrite lookup_app_r by (rewrite length_insert; lia). rewrite length_insert, Nat.sub_diag. done.
    + eapply Forall_impl; [exact H6|]. intros r Hin. apply (replace_inside (blocks a) (current a) b old Hb Hr) in Hin as (i & x & Hi & HH); [|done].
      exists i, x. split; [by apply lookup_app_l_Some|done].
  - by constructor.
Qed.

Lemma alloc_spec a live page_size mem sz k : arena_ok a live -> request_ok a page_size mem sz k ->
  exists a' r, arena_alloc_aligned page_size mem a sz (2 ^ k) = Some (a', r) /\ alloc_post a a' live sz k r /\ (r = None -> mem = None).
Proof.
  intros Ha Hq. pose proof (ao_cur _ _ Ha) as [b Hb]. unfold arena_alloc_aligned. pose proof (rq_size _ _ _ _ _ Hq). pose proof (rq_align _ _ _ _ _ Hq).
  rewrite (proj2 (Z.eqb_neq sz 0)) by lia. assert (0 < 2 ^ k) by (apply Z.pow_pos_nonneg; lia). rewrite (proj2 (Z.eqb_neq (2 ^ k) 0)) by lia.
  rewrite pow2_test, Hb by lia. cbn [negb Z.eqb]. case_if.
  - eexists _, _. split; [reflexivity|]. split; [|done]. by eapply alloc_here.
  - destruct mem as [m|]; cbn [arena_block_create base size]; eexists _, _; (split; [reflexivity|]); [|done]. split; [|done].
    by eapply (alloc_new a live page_size m sz k b).
Qed.

Lemma rewind_all is_ bs : length (foldr (fun i bs => alter rewind i bs) bs is_) = length bs /\
  forall j x, foldr (fun i bs => alter rewind i bs) bs is_ !! j = Some x ->
    exists y, bs !! j = Some y /\ range x = range y /\ (used x = 0 \/ x = y).
Proof.
  induction is_ as [|i is_ [IHl IH]]; cbn [foldr]; [split; [done|]; intros j x Hj; exists x; auto|].
  split; [by rewrite length_alter|]. intros j x. destruct (decide (i = j)) as [->|Hne].
  - rewrite list_lookup_alter_eq. intros (y & Hy & ->)%fmap_Some. destruct (IH j y ltac:(done)) as (z & Hz & Hr & _). exists z. auto.
  - rewrite list_lookup_alter_ne by done. apply IH.
Qed.

Lemma reset_ok a live : arena_ok a live -> arena_ok (arena_reset a) [].
Proof.
  intros [H1 H2 H3 H4 H5 H6 H7]. unfold arena_reset. destruct (rewind_all (reachable a) (blocks a)) as [Hl Hx].
  set (bs := foldr _ (blocks a) (reachable a)) in *. split; cbn [blocks current head default_block_sz]; try done.
  - apply Forall_lookup. intros j x (y & Hy & Hr & Hu)%Hx. pose proof (Forall_lookup_1 _ _ _ _ H1 Hy) as [B1 B2 B3]. injection Hr as Hb Hs.
    destruct Hu as [Hu| ->]; [|done]. split; lia.
  - intros i j x y (x' & Hx' & -> & _)%Hx (y' & Hy' & -> & _)%Hx Hne. by apply (H2 i j).
  - apply lookup_lt_is_Some. rewrite Hl. by apply lookup_lt_is_Some.
  - apply lookup_lt_is_Some. rewrite Hl. by apply lookup_lt_is_Some.
  - constructor.
Qed.

(** ** Every use of an arena *)
Inductive arena_run (page_size : Z) : Arena -> list (Z * Z) -> Prop :=
  | run_create m bsz a : arena_create page_size (Some m) bsz = Some a -> (exists p, page_size = 2 ^ p /\ 0 <= p <= 30) -> 0 <= bsz <= 2 ^ 44 ->
      fresh_map [] m (align_up (if bsz =? 0 then ARENA_DEFAULT_SIZE else bsz) page_size) -> arena_run page_size a []
  | run_alloc a live mem sz k a' r : arena_run page_size a live -> request_ok a page_size mem sz k ->
      arena_alloc_aligned page_size mem a sz (2 ^ k) = Some (a', r) ->
      arena_run page_size a' (match r with Some p => (p, sz) :: live | None => live end)
  | run_reset a live : arena_run page_size a live -> arena_run page_size (arena_reset a) [].

Lemma create_ok page_size m bsz a : arena_create page_size (Some m) bsz = Some a -> (exists p, page_size = 2 ^ p /\ 0 <= p <= 30) -> 0 <= bsz <= 2 ^ 44 ->
  fresh_map [] m (align_up (if bsz =? 0 then ARENA_DEFAULT_SIZE else bsz) page_size) -> arena_ok a [].
Proof.
  unfold arena_create. set (n := if bsz =? 0 then _ else _). intros [= <-] (p & -> & Hp) Hb (M1 & M2 & _).
  assert (0 < n <= 2 ^ 44) as Hn by (subst n; unfold ARENA_DEFAULT_SIZE; destruct (Z.eqb_spec bsz 0); mach).
  assert (1 <= 2 ^ p <= 2 ^ 30) by (split; [apply (Z.pow_le_mono_r 2 0); lia|apply Z.pow_le_mono_r; lia]).
  destruct (align_up_spec n p ltac:(lia) ltac:(lia) ltac:(mach)) as [A1 _].
  split; cbn [blocks current head default_block_sz]; try done.
  - constructor; [|constructor]. split; cbn; lia.
  - by intros [|i] [|j] b b' Hi Hj Hne.
  - constructor.
Qed.

Lemma run_ok page_size a live : arena_run page_size a live -> arena_ok a live.
Proof.
  induction 1 as [m bsz a E Hp Hb Hm|a live mem sz k a' r _ IH Hq E|a live _ IH]; [by eapply create_ok| |by eapply reset_ok].
  destruct (alloc_spec a live page_size mem sz k IH Hq) as (a1 & r1 & E1 & Hpost & _). rewrite E in E1. injection E1 as <- <-.
  destruct r as [p|]; cbn in Hpost; [by destruct Hpost as [? _]|by subst a'].
Qed.

(** C26. Memory safety of the arena.  After any sequence of allocations and
    resets, the ranges handed out since the last reset do not overlap, and
    each lies in the used part of one mapped block; the next request of up to
    2^46 bytes never fails an assertion, gives an address with the alignment
    asked for in a range that overlaps none of them, and is refused only when
    [mmap] fails. *)
Theorem arena_allocations_disjoint page_size a live : arena_run page_size a live ->
  ForallOrdPairs disj live /\ Forall (inside (blocks a)) live /\
  forall mem sz k, request_ok a page_size mem sz k ->
    exists a' r, arena_alloc_aligned page_size mem a sz (2 ^ k) = Some (a', r) /\
      match r with Some p => (2 ^ k | p) /\ Forall (disj (p, sz)) live /\ inside (blocks a') (p, sz) | None => mem = None /\ a' = a end.
Proof.
  intros H%run_ok. split; [apply H|]. split; [apply H|]. intros mem sz k Hq.
  destruct (alloc_spec a live page_size mem sz k H Hq) as (a' & r & E & Hp & Hn). exists a', r. split; [done|].
  destruct r as [p|]; cbn in Hp; [|auto]. destruct Hp as (Hok & Hd & Hl). split_and!; [done|done|]. apply ao_inside in Hok. by apply Forall_cons in Hok as [? _].
Qed.

(** After a reset the first allocation that opens a block cuts the list of the
    older ones off: only the first and the new block are reset or unmapped
    from then on. *)
Theorem arena_reset_leaks page_size m a live sz k a' p : arena_ok a live -> current a = head a -> request_ok a page_size (Some m) sz k ->
  arena_alloc_aligned page_size (Some m) a sz (2 ^ k) = Some (a', Some p) -> length (blocks a') <> length (blocks a) ->
  reachable a' = [head a; length (blocks a)] /\ length (arena_destroy a') = 2%nat /\ length (blocks a') = S (length (blocks a)).
Proof.
  intros Ha Hc Hq E Hl. pose proof (ao_cur _ _ Ha) as [b Hb]. unfold arena_alloc_aligned in E. pose proof (rq_size _ _ _ _ _ Hq). pose proof (rq_align _ _ _ _ _ Hq).
  rewrite (proj2 (Z.eqb_neq sz 0)) in E by lia. assert (0 < 2 ^ k) by (apply Z.pow_pos_nonneg; lia). rewrite (proj2 (Z.eqb_neq (2 ^ k) 0)) in E by lia.
  rewrite pow2_test, Hb in E by lia. cbn [negb Z.eqb] in E. case_if_in E.
  { injection E as <- _. cbn in Hl. by rewrite length_insert in Hl. }
  cbn [arena_block_create base size] in E. injection E as <- _. cbn [blocks]. rewrite length_app, length_insert. cbn [length].
  pose proof (lookup_lt_Some _ _ _ Hb) as Hlt.
  match goal with |- reachable ?x = _ /\ _ => assert (reachable x = [head a; length (blocks a)]) as Hr end.
  { unfold reachable. cbn [blocks head]. rewrite length_app, length_insert. cbn [length]. rewrite Nat.add_1_r.
    destruct (length (blocks a)) as [|n] eqn:El; [lia|]. cbn [chain]. rewrite lookup_app_l by (rewrite length_insert; lia).
    rewrite Hc, list_lookup_insert_eq by lia. cbn [b_next chain]. rewrite lookup_app_r by (rewrite length_insert; lia).
    rewrite length_insert, El, Nat.sub_diag. cbn [list_lookup lookup b_next bump chain]. by destruct n. }
  split; [done|]. unfold arena_destroy. rewrite Hr. cbn [blocks omap list_omap]. rewrite lookup_app_l by (rewrite length_insert; lia).
  rewrite Hc, list_lookup_insert_eq by lia. cbn [fmap option_fmap option_map]. rewrite lookup_app_r by (rewrite length_insert; lia).
  rewrite length_insert, Nat.sub_diag. cbn. split; [done|lia].
Qed.

(** The test for room wraps around: a request of 2^64 minus the used bytes is
    granted and sets the cursor back to the beginning of the block. *)
Lemma arena_huge_alloc page_size mem a live b : arena_ok a live -> blocks a !! current a = Some b -> 0 < used b ->
  exists a', arena_alloc_aligned page_size mem a (2 ^ 64 - used b) 1 = Some (a', Some (base b + used b)) /\
    (used <$> (blocks a' !! current a')) = Some 0.
Proof.
  intros Ha Hb Hu. pose proof (Forall_lookup_1 _ _ _ _ (ao_blocks _ _ Ha) Hb) as [B1 B2 B3]. unfold arena_alloc_aligned.
  rewrite (proj2 (Z.eqb_neq _ 0)) by mach. rewrite Hb.
  change (if 1 =? 0 then 8 else 1) with 1. change (negb (Z.land 1 (1 - 1) =? 0)) with false. cbv beta iota zeta.
  destruct (align_up_spec (base b + used b) 0 ltac:(lia) ltac:(lia) ltac:(mach)) as [A1 _]. change (2 ^ 0) with 1 in A1.
  rewrite (wrap_small 64 (base b + used b)) by mach. replace (align_up (base b + used b) 1) with (base b + used b) by lia.
  rewrite Z.sub_diag. change (u64 0) with 0. rewrite Z.add_0_l, (wrap_small 64 (2 ^ 64 - used b)) by mach.
  replace (used b + (2 ^ 64 - used b)) with (2 ^ 64) by lia. change (u64 (2 ^ 64)) with 0. rewrite (proj2 (Z.leb_le 0 _)) by lia.
  eexists. split; [reflexivity|]. cbn [blocks current]. by rewrite list_lookup_insert_eq by (by eapply lookup_lt_Some).
Qed.

(** ** Example *)
Definition ex_arena : Arena := mkArena [mkBlock 65536 4096 0 0 None None] 0 0 4096 (mkStats 0 0 0 1 0).

Lemma ex_arena_run : arena_run 4096 ex_arena [].
Proof.
  apply (run_create 4096 65536 4096); [vm_compute; reflexivity|exists 12; split; [reflexivity|lia]|lia|].
  split; [lia|]. split; [vm_compute; congruence|]. intros i b Hi. by destruct i.
Qed.

Lemma ex_request : request_ok ex_arena 4096 (Some 1048576) 100 3.
Proof.
  split; [lia|lia|exists 12; split; [reflexivity|lia]|]. intros m [= <-]. split; [lia|]. split; [vm_compute; congruence|].
  intros [|i] b Hi; [|done]. injection Hi as <-. left. vm_compute. congruence.
Qed.

Lemma arena_allocations_disjoint_witness : exists a' p, arena_alloc_aligned 4096 (Some 1048576) ex_arena 100 (2 ^ 3) = Some (a', Some p) /\ (8 | p) /\ inside (blocks a') (p, 100).
Proof.
  destruct (arena_allocations_disjoint 4096 ex_arena [] ex_arena_run) as (_ & _ & H).
  destruct (H (Some 1048576) 100 3 ex_request) as (a' & [p|] & E & Hr); [|by destruct Hr].
  exists a', p. split; [exact E|]. destruct Hr as (H1 & _ & H2). split; [exact H1|exact H2].
Defined.
