(* ===== verification/Glob.v ===== *)
(** * Glob-style matching (src/src/util.c, stringmatchlen)

    The matcher behind KEYS, SCAN, PSUBSCRIBE and the ACL patterns, with its
    cut-off for hopeless retries ([skipLongerMatches]) and its limit on
    nesting.  Pattern and string are lists of bytes; the byte after the
    pattern is a NUL, as in an sds.  The promotion of a [char] to [int] and
    [tolower] depend on platform and locale: they are the parameters [to_int]
    and [lower].  The reference is the textbook semantics of a list of
    tokens. *)
From S2P Require Import Prelude.

Section Glob.
Variables (to_int lower : Z -> Z) (nocase : bool).

Definition STAR : Z := 42.
Definition QUESTION : Z := 63.
Definition OPEN : Z := 91.
Definition BACKSLASH : Z := 92.
Definition CLOSE : Z := 93.
Definition CARET : Z := 94.
Definition DASH : Z := 45.

(** [pattern[0] == string[0]], ignoring case when asked to. *)
Definition same (c d : Z) : bool := if nocase then lower (to_int c) =? lower (to_int d) else c =? d.

Definition in_range (a b c : Z) : bool :=
  let '(s, e) := if to_int b <? to_int a then (to_int b, to_int a) else (to_int a, to_int b) in
  let '(s, e, c) := if nocase then (lower s, lower e, lower (to_int c)) else (s, e, to_int c) in
  (s <=? c) && (c <=? e).

(** The loop over the inside of brackets: whether [ch] matched, and the pattern
    after the class. *)
Fixpoint class_loop (p : bytes) (ch : Z) (m : bool) : bool * bytes :=
  match p with
  | [] => (m, [])
  | c :: p1 =>
      match p1 with
      | d :: p2 =>
          if c =? BACKSLASH then class_loop p2 ch (m || (d =? ch))
          else if c =? CLOSE then (m, p1)
          else
            match p2 with
            | e :: p3 => if d =? DASH then class_loop p3 ch (m || in_range c e ch) else class_loop p1 ch (m || same c ch)
            | [] => class_loop p1 ch (m || same c ch)
            end
      | [] => if c =? CLOSE then (m, []) else (m || same c ch, [])
      end
  end.

Definition class_step (p : bytes) (ch : Z) : bool * bytes :=
  let '(not_op, p) := match p with c :: p1 => if c =? CARET then (true, p1) else (false, p) | [] => (false, p) end in
  let '(m, p) := class_loop p ch false in
  (if not_op then negb m else m, p).

Fixpoint skip_stars (p : bytes) : bytes :=
  match p with c :: p1 => if c =? STAR then skip_stars p1 else p | [] => [] end.

(** [None] is out of fuel; the second component of the result is
    [*skipLongerMatches]. *)
Section Loop.
Variable rec : bytes -> bytes -> bool -> option (bool * bool).

Fixpoint star_loop (rest s : bytes) (skip : bool) : option (bool * bool) :=
  match s with
  | [] => Some (false, true)
  | _ :: s1 =>
      match rec rest s skip with
      | None => None
      | Some (true, skip) => Some (true, skip)
      | Some (false, skip) => if skip then Some (false, skip) else star_loop rest s1 skip
      end
  end.
End Loop.

Fixpoint match_loop (fuel : nat) (nesting : Z) (p s : bytes) (skip : bool) : option (bool * bool) :=
  match p, s with
  | [], [] => Some (true, skip)
  | [], _ | _, [] => Some (false, skip)
  | c :: p1, ch :: s1 =>
      match fuel with
      | O => None
      | S fuel =>
          (* [pattern++; ...; if (stringLen == 0) ...] and the next round *)
          let next p s :=
            match s with
            | [] => Some (match skip_stars p with [] => true | _ => false end, skip)
            | _ => match_loop fuel nesting p s skip
            end in
          if c =? STAR then
            match skip_stars p1 with
            | [] => Some (true, skip)
            | rest => star_loop (fun p s skip => if 1000 <? nesting + 1 then Some (false, skip) else match_loop fuel (nesting + 1) p s skip) rest s skip
            end
          else if c =? QUESTION then next p1 s1
          else if c =? OPEN then
            let '(m, p2) := class_step p1 ch in if m then next p2 s1 else Some (false, skip)
          else
            let '(d, p2) := match p1 with d :: p2 => if c =? BACKSLASH then (d, p2) else (c, p1) | [] => (c, p1) end in
            if same d ch then next p2 s1 else Some (false, skip)
      end
  end.

Definition stringmatchlen_impl (p s : bytes) (skip : bool) (nesting : Z) : option (bool * bool) :=
  if 1000 <? nesting then Some (false, skip) else match_loop (length p) nesting p s skip.

Definition stringmatchlen (p s : bytes) : option bool := fst <$> stringmatchlen_impl p s false 0.

Definition prefixmatchlen (p s : bytes) : option bool :=
  if bytes_eqb p [STAR] then Some true
  else match last p with
       | Some c => if negb (c =? STAR) then Some false else stringmatchlen p s
       | None => stringmatchlen p s
       end.

(** ** The reference semantics *)
Inductive Token := TStar | TOne (f : Z -> bool).

Fixpoint gmatch (ts : list Token) (s : bytes) : bool :=
  match ts with
  | [] => match s with [] => true | _ => false end
  | TOne f :: ts => match s with c :: s => f c && gmatch ts s | [] => false end
  | TStar :: ts => (fix any (s : bytes) : bool := gmatch ts s || match s with [] => false | _ :: s => any s end) s
  end.

(** A class is a list of items; an escaped byte is itself, whatever the case. *)
Inductive Item := IByte (c : Z) | IRange (a b : Z) | IChar (c : Z).
Definition item_match (ch : Z) (i : Item) : bool :=
  match i with IByte c => c =? ch | IRange a b => in_range a b ch | IChar c => same c ch end.

(** The items up to the closing bracket or the end of the pattern. *)
Fixpoint class_items (p : bytes) : list Item * bytes :=
  match p with
  | [] => ([], [])
  | c :: p1 =>
      match p1 with
      | d :: p2 =>
          if c =? BACKSLASH then let '(is_, r) := class_items p2 in (IByte d :: is_, r)
          else if c =? CLOSE then ([], p1)
          else
            match p2 with
            | e :: p3 =>
                if d =? DASH then let '(is_, r) := class_items p3 in (IRange c e :: is_, r)
                else let '(is_, r) := class_items p1 in (IChar c :: is_, r)
            | [] => let '(is_, r) := class_items p1 in (IChar c :: is_, r)
            end
      | [] => if c =? CLOSE then ([], []) else ([IChar c], [])
      end
  end.

(** Tokens of a pattern. *)
Fixpoint tokens (fuel : nat) (p : bytes) : list Token :=
  match fuel, p with
  | S fuel, c :: p1 =>
      if c =? STAR then TStar :: tokens fuel p1
      else if c =? QUESTION then TOne (fun _ => true) :: tokens fuel p1
      else if c =? OPEN then
        let '(neg, p2) := match p1 with c :: p2 => if c =? CARET then (true, p2) else (false, p1) | [] => (false, p1) end in
        let '(is_, p3) := class_items p2 in
        TOne (fun ch => xorb neg (existsb (item_match ch) is_)) :: tokens fuel p3
      else
        let '(d, p2) := match p1 with d :: p2 => if c =? BACKSLASH then (d, p2) else (c, p1) | [] => (c, p1) end in
        TOne (same d) :: tokens fuel p2
  | _, _ => []
  end.
Definition pattern_tokens (p : bytes) : list Token := tokens (length p) p.
Definition is_star (t : Token) : bool := match t with TStar => true | _ => false end.
Definition star_count (ts : list Token) : Z := alen (List.filter is_star ts).

(** ** Classes *)
Lemma class_loop_eq c d p2 ch m : class_loop (c :: d :: p2) ch m =
  if c =? BACKSLASH then class_loop p2 ch (m || (d =? ch))
  else if c =? CLOSE then (m, d :: p2)
  else match p2 with
       | e :: p3 => if d =? DASH then class_loop p3 ch (m || in_range c e ch) else class_loop (d :: p2) ch (m || same c ch)
       | [] => class_loop (d :: p2) ch (m || same c ch)
       end.
Proof. done. Qed.

Lemma class_items_eq c d p2 : class_items (c :: d :: p2) =
  let push i x := (i :: x.1, x.2) in
  if c =? BACKSLASH then push (IByte d) (class_items p2)
  else if c =? CLOSE then ([], d :: p2)
  else match p2 with
       | e :: p3 => if d =? DASH then push (IRange c e) (class_items p3) else push (IChar c) (class_items (d :: p2))
       | [] => push (IChar c) (class_items (d :: p2))
       end.
Proof.
  cbv zeta. change (class_items (c :: d :: p2)) with
    (if c =? BACKSLASH then let '(is_, r) := class_items p2 in (IByte d :: is_, r)
     else if c =? CLOSE then ([], d :: p2)
     else match p2 with
          | e :: p3 => if d =? DASH then let '(is_, r) := class_items p3 in (IRange c e :: is_, r)
                       else let '(is_, r) := class_items (d :: p2) in (IChar c :: is_, r)
          | [] => let '(is_, r) := class_items (d :: p2) in (IChar c :: is_, r)
          end).
  destruct (c =? BACKSLASH); [by destruct (class_items p2)|]. destruct (c =? CLOSE); [done|].
  destruct p2 as [|e p3]; [by destruct (class_items [d])|]. destruct (d =? DASH); [by destruct (class_items p3)|by destruct (class_items (d :: e :: p3))].
Qed.

Lemma class_loop_items n : forall p ch m, (length p <= n)%nat ->
  class_loop p ch m = (m || existsb (item_match ch) (class_items p).1, (class_items p).2).
Proof.
  induction n as [|n IH]; intros p ch m Hn; [destruct p; [by rewrite orb_false_r|cbn in Hn; lia]|].
  destruct p as [|c [|d p2]].
  - by rewrite orb_false_r.
  - cbn. destruct (c =? CLOSE); cbn; by rewrite ?orb_false_r.
  - cbn [length] in Hn. rewrite class_loop_eq, class_items_eq. cbv zeta.
    destruct (c =? BACKSLASH); [rewrite IH by lia; cbn [fst snd existsb item_match]; by rewrite orb_assoc|].
    destruct (c =? CLOSE); [by rewrite orb_false_r|]. destruct p2 as [|e p3]; [|destruct (d =? DASH)]; cbn [length] in Hn;
      (rewrite IH by (cbn [length]; lia); cbn [fst snd existsb item_match]; by rewrite orb_assoc).
Qed.

Lemma class_items_len n : forall p, (length p <= n)%nat -> (length (class_items p).2 <= length p)%nat.
Proof.
  induction n as [|n IH]; intros p Hn; [destruct p; [done|cbn in Hn; lia]|].
  destruct p as [|c [|d p2]]; [done|cbn; destruct (c =? CLOSE); cbn; lia|]. cbn [length] in Hn. rewrite class_items_eq. cbv zeta.
  destruct (c =? BACKSLASH); [pose proof (IH p2 ltac:(lia)); cbn [fst snd length]; lia|].
  destruct (c =? CLOSE); [cbn; lia|]. destruct p2 as [|e p3]; [|destruct (d =? DASH)]; cbn [length] in Hn; cbn [fst snd].
  - pose proof (IH [d] ltac:(cbn; lia)). cbn [length] in *. lia.
  - pose proof (IH p3 ltac:(lia)). cbn [length] in *. lia.
  - pose proof (IH (d :: e :: p3) ltac:(cbn; lia)). cbn [length] in *. lia.
Qed.

(** What the first character of a pattern that is not a star stands for, and
    what is left of the pattern. *)
Definition one_token (c : Z) (p1 : bytes) : (Z -> bool) * bytes :=
  if c =? QUESTION then (fun _ => true, p1)
  else if c =? OPEN then
    let '(neg, p2) := match p1 with c :: p2 => if c =? CARET then (true, p2) else (false, p1) | [] => (false, p1) end in
    let '(is_, p3) := class_items p2 in (fun ch => xorb neg (existsb (item_match ch) is_), p3)
  else
    let '(d, p2) := match p1 with d :: p2 => if c =? BACKSLASH then (d, p2) else (c, p1) | [] => (c, p1) end in (same d, p2).

Lemma tokens_one fuel c p1 : c <> STAR -> tokens (S fuel) (c :: p1) = let '(f, p2) := one_token c p1 in TOne f :: tokens fuel p2.
Proof.
  intros Hc. cbn [tokens]. rewrite (proj2 (Z.eqb_neq _ _) Hc). unfold one_token. destruct (c =? QUESTION); [done|]. destruct (c =? OPEN).
  - destruct (match p1 with [] => _ | _ => _ end) as [neg p2]. by destruct (class_items p2).
  - by destruct (match p1 with [] => _ | _ => _ end) as [d p2].
Qed.

Lemma one_token_len c p1 : (length (one_token c p1).2 <= length p1)%nat.
Proof.
  unfold one_token. destruct (c =? QUESTION); [done|]. destruct (c =? OPEN).
  - destruct (match p1 with [] => _ | _ => _ end) as [neg p2] eqn:E.
    assert (length p2 <= length p1)%nat by (destruct p1 as [|x p1]; [by injection E as _ <-|]; destruct (x =? CARET); injection E as _ <-; cbn; lia).
    pose proof (class_items_len _ p2 (Nat.le_refl _)). destruct (class_items p2). cbn in *. lia.
  - destruct p1 as [|d p2]; [done|]. destruct (c =? BACKSLASH); cbn; lia.
Qed.

Lemma skip_stars_len p : (length (skip_stars p) <= length p)%nat.
Proof. induction p as [|c p IH]; [done|]. cbn [skip_stars]. destruct (c =? STAR); cbn; lia. Qed.

Lemma tokens_fuel n : forall p, (length p <= n)%nat -> tokens n p = pattern_tokens p.
Proof.
  unfold pattern_tokens. induction n as [n IH] using lt_wf_ind. intros p Hn. destruct p as [|c p1]; [by destruct n|]. cbn [length] in *. destruct n as [|n]; [lia|].
  destruct (Z.eq_dec c STAR) as [->|Hc].
  - cbn [tokens]. change (STAR =? STAR) with true. cbv iota. f_equal. rewrite (IH n) by lia. done.
  - rewrite !tokens_one by done. pose proof (one_token_len c p1). destruct (one_token c p1) as [f p2]. cbn [snd] in *. f_equal.
    rewrite (IH n) by lia. symmetry. apply (IH (length p1)); lia.
Qed.

(** ** Facts on the reference *)
Lemma suffix_cases (s' s : bytes) c : s' `suffix_of` c :: s -> s' = c :: s \/ s' `suffix_of` s.
Proof. destruct s' as [|x s']; [right; apply suffix_nil|apply suffix_cons_inv]. Qed.

Lemma gmatch_star ts s : gmatch (TStar :: ts) s = true <-> exists s', s' `suffix_of` s /\ gmatch ts s' = true.
Proof.
  induction s as [|c s IH].
  - change (gmatch (TStar :: ts) []) with (gmatch ts [] || false). rewrite orb_false_r. split.
    + intros H. exists []. split; [done|done].
    + intros (s' & Hs & H). apply suffix_nil_inv in Hs. by subst s'.
  - change (gmatch (TStar :: ts) (c :: s)) with (gmatch ts (c :: s) || gmatch (TStar :: ts) s). rewrite orb_true_iff, IH. split.
    + intros [H|(s' & Hs & H)]; [exists (c :: s); done|]. exists s'. split; [by apply suffix_cons_r|done].
    + intros (s' & Hs & H). apply suffix_cases in Hs as [->|Hs]; [by left|right; eauto].
Qed.

Lemma gmatch_star_star ts s : gmatch (TStar :: TStar :: ts) s = gmatch (TStar :: ts) s.
Proof.
  apply eq_true_iff_eq. rewrite !gmatch_star. split.
  - intros (s1 & H1 & (s2 & H2 & H)%gmatch_star). exists s2. split; [by etrans|done].
  - intros (s1 & H1 & H). exists s1. split; [done|]. apply gmatch_star. by exists s1.
Qed.

Lemma gmatch_skip_stars p s : gmatch (TStar :: pattern_tokens p) s = gmatch (TStar :: pattern_tokens (skip_stars p)) s.
Proof.
  induction p as [|c p IH]; [done|]. cbn [skip_stars]. destruct (Z.eqb_spec c STAR) as [->|]; [|done].
  unfold pattern_tokens at 1. cbn [length tokens]. change (STAR =? STAR) with true. cbv iota. fold (pattern_tokens p).
  by rewrite gmatch_star_star, IH.
Qed.

Lemma gmatch_nil_stars p : gmatch (pattern_tokens p) [] = match skip_stars p with [] => true | _ => false end.
Proof.
  induction p as [|c p IH]; [done|]. cbn [skip_stars]. destruct (Z.eqb_spec c STAR) as [->|Hc].
  - unfold pattern_tokens. cbn [length tokens]. change (STAR =? STAR) with true. cbv iota. fold (pattern_tokens p).
    change (gmatch (TStar :: pattern_tokens p) []) with (gmatch (pattern_tokens p) [] || false). by rewrite orb_false_r.
  - unfold pattern_tokens. cbn [length]. rewrite tokens_one by done. by destruct (one_token c p).
Qed.

Lemma skip_stars_head p : match skip_stars p with c :: _ => c <> STAR | [] => True end.
Proof. induction p as [|c p IH]; [done|]. cbn [skip_stars]. by destruct (Z.eqb_spec c STAR). Qed.

Lemma star_count_skip p : star_count (pattern_tokens (skip_stars p)) <= star_count (pattern_tokens p).
Proof.
  induction p as [|c p IH]; [done|]. cbn [skip_stars]. destruct (Z.eqb_spec c STAR) as [->|]; [|done].
  etrans; [exact IH|]. unfold pattern_tokens at 2. cbn [length tokens]. change (STAR =? STAR) with true. cbv iota. fold (pattern_tokens p).
  unfold star_count. cbn [List.filter is_star]. rewrite alen_cons. lia.
Qed.

(** ** The matcher *)
Section Step.
Variables (fuel : nat) (nesting : Z) (skip : bool).
Definition next_round (p s : bytes) : option (bool * bool) :=
  match s with
  | [] => Some (match skip_stars p with [] => true | _ => false end, skip)
  | _ => match_loop fuel nesting p s skip
  end.

Lemma match_loop_star p1 ch s1 : match_loop (S fuel) nesting (STAR :: p1) (ch :: s1) skip =
  match skip_stars p1 with
  | [] => Some (true, skip)
  | rest => star_loop (fun p s skip => if 1000 <? nesting + 1 then Some (false, skip) else match_loop fuel (nesting + 1) p s skip) rest (ch :: s1) skip
  end.
Proof. done. Qed.

Lemma match_loop_one c p1 ch s1 : c <> STAR ->
  match_loop (S fuel) nesting (c :: p1) (ch :: s1) skip =
  let '(f, p2) := one_token c p1 in if f ch then next_round p2 s1 else Some (false, skip).
Proof.
  intros Hc. cbn [match_loop]. rewrite (proj2 (Z.eqb_neq _ _) Hc). fold (next_round p1 s1). unfold one_token. destruct (c =? QUESTION); [done|]. destruct (c =? OPEN).
  - unfold class_step. destruct (match p1 with [] => _ | _ => _ end) as [neg p2]. rewrite (class_loop_items (length p2)) by done.
    destruct (class_items p2) as [is_ p3]. cbn [fst snd orb]. by destruct neg, (existsb (item_match ch) is_).
  - by destruct (match p1 with [] => _ | _ => _ end) as [d p2].
Qed.
End Step.

(** What a call promises: the answer of the reference, and a set flag means
    that the pattern matches no suffix of the string. *)
Definition good (p s : bytes) (r : option (bool * bool)) : Prop :=
  exists b sk, r = Some (b, sk) /\ b = gmatch (pattern_tokens p) s /\
    (sk = true -> forall s', s' `suffix_of` s -> gmatch (pattern_tokens p) s' = false).

Lemma star_loop_good rec rest s : gmatch (pattern_tokens rest) [] = false ->
  (forall s', s' <> [] -> s' `suffix_of` s -> good rest s' (rec rest s' false)) ->
  exists b sk, star_loop rec rest s false = Some (b, sk) /\ b = gmatch (TStar :: pattern_tokens rest) s /\
    (sk = true -> forall s', s' `suffix_of` s -> gmatch (TStar :: pattern_tokens rest) s' = false).
Proof.
  intros Hnil. induction s as [|c s IH]; intros Hrec.
  - exists false, true. split; [done|]. split.
    + symmetry. apply not_true_is_false. intros (s' & Hs & H)%gmatch_star. apply suffix_nil_inv in Hs. subst. congruence.
    + intros _ s' Hs. apply suffix_nil_inv in Hs. subst s'. apply not_true_is_false. intros (s' & Hs & H)%gmatch_star. apply suffix_nil_inv in Hs. subst. congruence.
  - cbn [star_loop]. destruct (Hrec (c :: s)) as (b & sk & -> & -> & Hsk); [done|done|].
    assert (gmatch (TStar :: pattern_tokens rest) (c :: s) = gmatch (pattern_tokens rest) (c :: s) || gmatch (TStar :: pattern_tokens rest) s) as Hs by done.
    destruct (gmatch (pattern_tokens rest) (c :: s)) eqn:E.
    + exists true, sk. split; [done|]. split; [by rewrite Hs|]. intros Ht. specialize (Hsk Ht (c :: s) ltac:(done)). congruence.
    + destruct sk.
      * assert (forall s', s' `suffix_of` c :: s -> gmatch (TStar :: pattern_tokens rest) s' = false) as Hall.
        { intros s' Hs'. apply not_true_is_false. intros (s2 & H2 & H)%gmatch_star. rewrite Hsk in H; [done|done|]. by etrans. }
        exists false, true. split; [done|]. split; [symmetry; by apply Hall|done].
      * destruct IH as (b & sk & -> & Hb & Hsk2).
        { intros s' Hne Hs'. apply Hrec; [done|]. by apply suffix_cons_r. }
        exists b, sk. split; [done|]. split; [by rewrite Hs, orb_false_l|]. intros Ht s' [->|Hs']%suffix_cases.
        -- rewrite Hs, orb_false_l. by apply Hsk2.
        -- by apply Hsk2.
Qed.

Lemma match_loop_good fuel : forall nesting p s, (length p <= fuel)%nat -> s <> [] -> nesting + star_count (pattern_tokens p) <= 1000 ->
  good p s (match_loop fuel nesting p s false).
Proof.
  induction fuel as [|fuel IH]; intros nesting p s Hf Hs Hn.
  { destruct p; [|cbn in Hf; lia]. destruct s; [done|]. by exists false, false. }
  destruct p as [|c p1]; [destruct s; [done|]; by exists false, false|]. destruct s as [|ch s1]; [done|]. cbn [length] in Hf.
  destruct (Z.eq_dec c STAR) as [->|Hc].
  - rewrite match_loop_star. pose proof (skip_stars_head p1) as Hh. pose proof (skip_stars_len p1) as Hlen. pose proof (star_count_skip p1) as Hcnt.
    pose proof (gmatch_skip_stars p1) as Hg. pose proof (gmatch_nil_stars (skip_stars p1)) as Hnil.
    assert (pattern_tokens (STAR :: p1) = TStar :: pattern_tokens p1) as Ht by done. rewrite Ht in Hn. unfold star_count in Hn. cbn [List.filter is_star] in Hn.
    rewrite alen_cons in Hn. fold (star_count (pattern_tokens p1)) in Hn.
    destruct (skip_stars p1) as [|d rest].
    + exists true, false. split; [done|]. split; [|done]. rewrite Ht, Hg. symmetry. apply gmatch_star. exists []. split; [apply suffix_nil|done].
    + assert (skip_stars (d :: rest) = d :: rest) as Hskip by (cbn [skip_stars]; by rewrite (proj2 (Z.eqb_neq _ _) Hh)). rewrite Hskip in Hnil.
      pose proof (alen_nonneg (List.filter is_star (pattern_tokens (d :: rest)))) as Hpos. unfold star_count in Hcnt, Hn.
      destruct (star_loop_good (fun p s skip => if 1000 <? nesting + 1 then Some (false, skip) else match_loop fuel (nesting + 1) p s skip) (d :: rest) (ch :: s1) Hnil)
        as (b & sk & -> & Hb & Hsk).
      { intros s' Hne Hs'. rewrite (proj2 (Z.ltb_ge _ _)) by lia. apply IH; [lia|done|]. unfold star_count. lia. }
      exists b, sk. split; [done|]. rewrite Ht. split; [by rewrite Hg|]. intros Hk s' Hs'. rewrite Hg. by apply Hsk.
  - rewrite match_loop_one by done. pose proof (one_token_len c p1) as Hlen.
    assert (pattern_tokens (c :: p1) = let '(f, p2) := one_token c p1 in TOne f :: pattern_tokens p2) as Ht.
    { unfold pattern_tokens at 1. cbn [length]. rewrite tokens_one by done. destruct (one_token c p1) as [f p2]. f_equal. by apply tokens_fuel. }
    destruct (one_token c p1) as [f p2]. cbn [snd] in Hlen. rewrite Ht in Hn. unfold good. rewrite Ht.
    destruct (f ch) eqn:Ef.
    2:{ exists false, false. split; [done|]. split; [|done]. cbn [gmatch]. by rewrite Ef. }
    unfold next_round. destruct s1 as [|c2 s2].
    + eexists _, false. split; [reflexivity|]. split; [|done]. cbn [gmatch]. rewrite Ef. cbn [andb]. by rewrite <- gmatch_nil_stars.
    + destruct (IH nesting p2 (c2 :: s2)) as (b & sk & -> & Hb & Hsk); [lia|done|exact Hn|]. exists b, sk. split; [done|]. split.
      * rewrite Hb. cbn [gmatch]. by rewrite Ef.
      * intros Hk s' Hs'. destruct s' as [|x s']; [done|]. cbn [gmatch]. rewrite (Hsk Hk s'); [by rewrite andb_false_r|].
        apply suffix_cases in Hs' as [[= -> ->]|Hs']; [done|]. etrans; [|exact Hs']. by apply suffix_cons_r.
Qed.

(** C25. The matcher decides the glob semantics.  On every pattern with at
    most 1000 stars it terminates and answers what the reference semantics of
    the pattern's tokens says, for every non-empty string: the shortcut that
    abandons longer matches of earlier stars never changes the answer.  The
    empty string matches the empty pattern only, not "*". *)
Theorem stringmatchlen_equiv p s : star_count (pattern_tokens p) <= 1000 ->
  stringmatchlen p s = Some (match s, p with [], [] => true | [], _ => false | _, _ => gmatch (pattern_tokens p) s end).
Proof.
  intros Hn. unfold stringmatchlen, stringmatchlen_impl. change (1000 <? 0) with false. cbv iota. destruct s as [|c s].
  - by destruct p as [|d [|? ?]].
  - destruct (match_loop_good (length p) 0 p (c :: s)) as (b & sk & -> & -> & _); [done|done|lia|]. cbn. by destruct p.
Qed.
End Glob.

(** ** Example: the pattern h*l[k-m]o on "hello" *)
Lemma stringmatchlen_equiv_witness :
  stringmatchlen (fun x => x) (fun x => x) false [104; 42; 108; 91; 107; 45; 109; 93; 111] [104; 101; 108; 108; 111] = Some true.
Proof. rewrite (stringmatchlen_equiv (fun x => x) (fun x => x) false); [vm_compute; reflexivity|vm_compute; congruence]. Defined.

(** In a class an escaped letter is compared with its case even when case is
    to be ignored: with [tolower] on ASCII, "A" does not match the class of the escaped letter a. *)
Definition ascii_lower (c : Z) : Z := if (65 <=? c) && (c <=? 90) then c + 32 else c.
Lemma class_escape_case :
  stringmatchlen (fun x => x) ascii_lower true [91; 97; 93] [65] = Some true /\
  stringmatchlen (fun x => x) ascii_lower true [91; 92; 97; 93] [65] = Some false.
Proof. by vm_compute. Qed.
