(* ===== verification/ByteMem.v ===== *)
(** * Byte-addressed blocks with checked accesses

    The outcome monad and the memory operations of the components that work
    on one allocated block through pointers into it: a pointer is an offset, a
    load or a store outside the block is [OutOfBounds], a failed [assert] is
    [AssertFail] (the server aborts), and [OutOfFuel] stands for a loop that
    runs longer than the bound its model was given. *)
From S2P Require Import Prelude.

Inductive res (A : Type) : Type :=
  | Ok (a : A)
  | AssertFail
  | OutOfBounds
  | OutOfFuel.
Arguments Ok {A} a.
Arguments AssertFail {A}.
Arguments OutOfBounds {A}.
Arguments OutOfFuel {A}.

#[global] Instance res_ret : MRet res := fun A a => Ok a.
#[global] Instance res_bind : MBind res := fun A B f r =>
  match r with
  | Ok a => f a
  | AssertFail => AssertFail
  | OutOfBounds => OutOfBounds
  | OutOfFuel => OutOfFuel
  end.

(** [assert(b)] of serverassert.h: always compiled in. *)
Definition assert (b : bool) : res unit := if b then Ok tt else AssertFail.

(** ** Accesses *)

(** [p[0]] *)
Definition ld (m : bytes) (p : Z) : res Z :=
  if p <? 0 then OutOfBounds
  else match m !! Z.to_nat p with Some b => Ok b | None => OutOfBounds end.

(** The [n] bytes from [p]. *)
Definition ldn (m : bytes) (p n : Z) : res bytes :=
  if (0 <=? p) && (0 <=? n) && (p + n <=? alen m)
  then Ok (take (Z.to_nat n) (drop (Z.to_nat p) m)) else OutOfBounds.

(** [memcpy(p, b, alen b)] *)
Definition st (m : bytes) (p : Z) (b : bytes) : res bytes :=
  if (0 <=? p) && (p + alen b <=? alen m)
  then Ok (take (Z.to_nat p) m ++ b ++ drop (Z.to_nat (p + alen b)) m) else OutOfBounds.

(** [memmove(dst, src, n)] inside one block. *)
Definition memmove (m : bytes) (dst src n : Z) : res bytes :=
  b ← ldn m src n; st m dst b.

(** [b[0] << s | b[1] << (s + 8) | ...] *)
Fixpoint le_or (s : Z) (b : bytes) : Z :=
  match b with
  | [] => 0
  | x :: b => Z.lor (Z.shiftl x s) (le_or (s + 8) b)
  end.

(** ** Lemmas *)
Lemma bind_ok {A B} (a : A) (f : A -> res B) : Ok a ≫= f = f a.
Proof. done. Qed.

#[export] Hint Rewrite @bind_ok : mach.

Lemma bind_ok_inv {A B} (r : res A) (f : A -> res B) b : r ≫= f = Ok b -> exists a, r = Ok a /\ f a = Ok b.
Proof. destruct r; simpl; intros H; try done. by eexists. Qed.

Lemma bind_assoc {A B C} (r : res A) (f : A -> res B) (g : B -> res C) : (r ≫= f) ≫= g = r ≫= (fun a => f a ≫= g).
Proof. by destruct r. Qed.

Lemma assert_ok_inv b u : assert b = Ok u -> b = true.
Proof. by destruct b. Qed.

Lemma assert_true b : b = true -> assert b = Ok tt.
Proof. by intros ->. Qed.

Section blocks.
Implicit Types (a b e m : bytes).

Lemma ld_lt m p v : ld m p = Ok v -> 0 <= p < alen m.
Proof.
  unfold ld, alen. case_if; [done|]. destruct (m !! Z.to_nat p) eqn:Hl; [|done]. intros _.
  apply lookup_lt_Some in Hl. lia.
Qed.

Lemma ld_in m p : 0 <= p < alen m -> exists v, ld m p = Ok v.
Proof.
  unfold ld, alen. intros. rewrite (proj2 (Z.ltb_ge p 0)) by lia.
  destruct (lookup_lt_is_Some_2 m (Z.to_nat p)) as [v ->]; [lia|eauto].
Qed.

Lemma ld_byte m p v : is_bytes m -> ld m p = Ok v -> in_u 8 v.
Proof.
  intros Hm. unfold ld. case_if; [done|]. destruct (m !! Z.to_nat p) eqn:Hl; [|done].
  intros [= <-]. by eapply Forall_lookup_1.
Qed.

Lemma ld_frame a e b i v : ld e i = Ok v -> ld (a ++ e ++ b) (alen a + i) = Ok v.
Proof.
  intros H. pose proof (ld_lt _ _ _ H) as Hi. revert H. unfold ld, alen in *.
  rewrite !(proj2 (Z.ltb_ge _ 0)) by lia. rewrite Z2Nat.inj_add, Nat2Z.id by lia.
  rewrite lookup_app_r, lookup_app_l by lia. by replace (_ + _ - _)%nat with (Z.to_nat i) by lia.
Qed.

Lemma ld_frame0 a e b v : ld e 0 = Ok v -> ld (a ++ e ++ b) (alen a) = Ok v.
Proof. intros H. rewrite <- (Z.add_0_r (alen a)). by apply ld_frame. Qed.

Lemma ldn_inv m p n b : ldn m p n = Ok b -> 0 <= p /\ 0 <= n /\ p + n <= alen m /\ alen b = n.
Proof.
  unfold ldn, alen. case_if; [|done]. intros [= <-]. rewrite length_take, length_drop. lia.
Qed.

Lemma ldn_in m p n : 0 <= p -> 0 <= n -> p + n <= alen m -> exists b, ldn m p n = Ok b.
Proof. intros. unfold ldn. rewrite !(proj2 (Z.leb_le _ _)) by lia. eauto. Qed.

Lemma ldn_byte m p n b : is_bytes m -> ldn m p n = Ok b -> is_bytes b.
Proof. intros Hm. unfold ldn. case_if; [|done]. intros [= <-]. by apply Forall_take, Forall_drop. Qed.

Lemma ldn_app a e b : ldn (a ++ e ++ b) (alen a) (alen e) = Ok e.
Proof.
  pose proof (alen_nonneg a). pose proof (alen_nonneg b). pose proof (alen_nonneg e).
  unfold ldn. rewrite !(proj2 (Z.leb_le _ _)) by (rewrite ?alen_app; lia). simpl. unfold alen. rewrite !Nat2Z.id, drop_app_length, take_app_length. done.
Qed.

(** A block cut at an offset. *)
Lemma cut_at m n : 0 <= n <= alen m -> exists x y, m = x ++ y /\ alen x = n.
Proof.
  intros. exists (take (Z.to_nat n) m), (drop (Z.to_nat n) m). rewrite take_drop. split; [done|].
  unfold alen in *. rewrite length_take. lia.
Qed.

Lemma ldn_frame a e b i n v : ldn e i n = Ok v -> ldn (a ++ e ++ b) (alen a + i) n = Ok v.
Proof.
  intros H. pose proof (ldn_inv _ _ _ _ H) as (H0 & H1 & H2 & _).
  destruct (cut_at e i) as (x & y' & -> & Hx); [lia|]. rewrite alen_app in H2.
  destruct (cut_at y' n) as (y & z & -> & Hy); [lia|].
  rewrite <- Hx, <- Hy, ldn_app in H. injection H as <-.
  replace (a ++ (x ++ y ++ z) ++ b) with ((a ++ x) ++ y ++ (z ++ b)) by (by rewrite <- !app_assoc).
  rewrite <- Hx, <- Hy, <- alen_app. apply ldn_app.
Qed.

Lemma ldn_ld m p n b i : ldn m p n = Ok b -> 0 <= i < n -> ld m (p + i) = ld b i.
Proof.
  unfold ldn. case_if; [|done]. intros [= <-] Hi. unfold ld. rewrite !(proj2 (Z.ltb_ge _ 0)) by lia.
  rewrite lookup_take_lt, lookup_drop by lia. by rewrite Z2Nat.inj_add by lia.
Qed.

Lemma st_app a o e b : alen o = alen e -> st (a ++ o ++ b) (alen a) e = Ok (a ++ e ++ b).
Proof.
  intros Ho. unfold st. rewrite !(proj2 (Z.leb_le _ _)).
  - simpl. unfold alen in *. rewrite Nat2Z.id, take_app_length. do 3 f_equal.
    rewrite <- Ho, <- Nat2Z.inj_add, Nat2Z.id, <- length_app, app_assoc. by rewrite drop_app_length.
  - rewrite !alen_app. pose proof (alen_nonneg b). lia.
  - apply alen_nonneg.
Qed.

Lemma st_in m p b : 0 <= p -> p + alen b <= alen m -> exists m', st m p b = Ok m' /\ alen m' = alen m.
Proof.
  intros. unfold st. rewrite !(proj2 (Z.leb_le _ _)) by lia. eexists. split; [done|].
  unfold alen in *. rewrite !length_app, length_take, length_drop. lia.
Qed.

(** The same with the block and the offsets given up to an equation. *)
Lemma ld_at a e b m p i v : m = a ++ e ++ b -> p = alen a + i -> ld e i = Ok v -> ld m p = Ok v.
Proof. intros -> ->. apply ld_frame. Qed.

Lemma ldn_at a e b m p n : m = a ++ e ++ b -> p = alen a -> n = alen e -> ldn m p n = Ok e.
Proof. intros -> -> ->. apply ldn_app. Qed.

Lemma st_at a o e b m p : m = a ++ o ++ b -> p = alen a -> alen o = alen e -> st m p e = Ok (a ++ e ++ b).
Proof. intros -> ->. apply st_app. Qed.

(** Moving the tail [b] so that a gap of [n] bytes follows [p]: opens a gap,
    closes one, or resizes one ([r] is what was there). *)
Lemma memmove_gap p r b s n : 0 <= n <= alen r + alen s ->
  exists x s', alen x = n /\ alen s' = alen r + alen s - n /\
    memmove (p ++ r ++ b ++ s) (alen p + n) (alen p + alen r) (alen b) = Ok (p ++ x ++ b ++ s').
Proof.
  intros Hn. pose proof (alen_nonneg b).
  destruct (cut_at (r ++ b ++ s) n) as (x & y & Hxy & Hx); [rewrite !alen_app; lia|].
  pose proof (f_equal alen Hxy) as Hl. rewrite !alen_app in Hl.
  destruct (cut_at y (alen b)) as (z & s' & -> & Hz); [lia|].
  exists x, s'. rewrite alen_app in Hl. split; [done|]. split; [lia|].
  unfold memmove. rewrite <- alen_app.
  replace (p ++ r ++ b ++ s) with ((p ++ r) ++ b ++ s) by (by rewrite <- app_assoc).
  rewrite ldn_app, bind_ok. rewrite <- app_assoc, Hxy.
  rewrite <- Hx, <- alen_app. rewrite (app_assoc p x). rewrite st_app by done. by rewrite <- app_assoc.
Qed.

(** Moving [b] down over [r]; what follows [b] stays. *)
Lemma memmove_down p r b s : exists j, alen j = alen r /\
  memmove (p ++ r ++ b ++ s) (alen p) (alen p + alen r) (alen b) = Ok (p ++ b ++ j ++ s).
Proof.
  pose proof (alen_nonneg b). pose proof (alen_nonneg r).
  destruct (cut_at (r ++ b) (alen b)) as (x & j & Hxj & Hx); [rewrite alen_app; lia|].
  pose proof (f_equal alen Hxj) as Hl. rewrite !alen_app in Hl. exists j. split; [lia|].
  unfold memmove. rewrite <- alen_app. replace (p ++ r ++ b ++ s) with ((p ++ r) ++ b ++ s) by (by rewrite <- app_assoc).
  rewrite ldn_app, bind_ok. replace ((p ++ r) ++ b ++ s) with (p ++ x ++ j ++ s); [by rewrite st_app|].
  rewrite (app_assoc x j s), <- Hxj. by rewrite <- !app_assoc.
Qed.

Lemma le_or_val k b : is_bytes b -> 0 <= k -> le_or k b = 2 ^ k * le_val b.
Proof.
  intros Hb. revert k. induction Hb as [|x b Hx Hb IH]; intros k Hk; simpl; [lia|].
  assert (0 <= le_val b) by (apply le_val_range in Hb; unfold in_u in Hb; lia).
  rewrite IH by lia.
  replace (2 ^ (k + 8) * le_val b) with (Z.shiftl (Z.shiftl (le_val b) 8) k).
  - rewrite <- Z.shiftl_lor, lor_pack, Z.shiftl_mul_pow2 by (done || lia). change (2 ^ 8) with 256. lia.
  - rewrite !Z.shiftl_mul_pow2, Z.pow_add_r by lia. lia.
Qed.

Lemma le_or_0 b : is_bytes b -> le_or 0 b = le_val b.
Proof. intros. rewrite le_or_val by (done || lia). lia. Qed.

Lemma is_bytes_app a b : is_bytes (a ++ b) <-> is_bytes a /\ is_bytes b.
Proof. apply Forall_app. Qed.
End blocks.

(** A boolean fact about bytes is settled by trying the 256 of them. *)
Lemma byte_forall (P : Z -> bool) : forallb P (seqZ 0 256) = true -> forall b, in_u 8 b -> P b = true.
Proof.
  intros H b Hb. eapply forallb_forall; [exact H|]. apply list_elem_of_In, elem_of_seqZ. mach.
Qed.

(** The bytes the C code extracts with shifts and masks are the little-endian ones. *)
Lemma le_bytes_shift z k : 0 <= k -> Z.land (Z.shiftr z k) 255 = (z / 2 ^ k) mod 256.
Proof. intros. change 255 with (Z.ones 8). by rewrite Z.land_ones, Z.shiftr_div_pow2 by lia. Qed.
