(* ===== verification/NexTS.v ===== *)
(** * Time series (src/src/timeseries/nexts.c)

    A series is a linked list of chunks of at most 128 samples; the model
    keeps the list from head to tail.  The values are doubles: their type and
    the operations on them are parameters, so that the theorems hold for the
    arithmetic of the machine.  Allocation results are arguments; [None] is a
    write through the NULL data pointer of a chunk or result array.  Times are
    [int64_t]; the one difference the code takes of them, the cutoff, stays in
    range for times that are not negative, which is what [in_order 0] gives. *)
From S2P Require Import Prelude.

Definition CHUNK_MAX_SAMPLES : Z := 128.

Inductive NexTSAggType := TS_AGG_AVG | TS_AGG_SUM | TS_AGG_MIN | TS_AGG_MAX | TS_AGG_COUNT.

Section series.
Context {V : Type} (vzero : V) (vlt : V -> V -> bool) (vadd : V -> V -> V) (of_count : Z -> V) (vdiv : V -> V -> V).

Record NexSample := mkSample { timestamp : Z; value : V }.
Record NexTSChunk := mkChunk { start_time : Z; end_time : Z; samples : list NexSample }.
Record NexTS := mkTS { chunks : list NexTSChunk; total_samples : Z; retention_ms : Z; last_sample : NexSample }.

Definition count (c : NexTSChunk) : Z := alen (samples c).

Definition nexts_create (retention : Z) : NexTS := mkTS [] 0 retention (mkSample 0 vzero).

Definition chunk_create (start : Z) : NexTSChunk := mkChunk start 0 [].

(** The loop of [nexts_apply_retention]: the chunks left and [total_samples]. *)
Fixpoint drop_dead (cutoff : Z) (cs : list NexTSChunk) (total : Z) : list NexTSChunk * Z :=
  match cs with
  | [] => ([], total)
  | c :: rest => if end_time c <? cutoff then drop_dead cutoff rest (total -64 count c)%mach else (cs, total)
  end.

Definition nexts_apply_retention (ts : NexTS) (now_ts : Z) : NexTS :=
  if retention_ms ts <=? 0 then ts
  else
    let cutoff := now_ts - retention_ms ts in
    let '(cs, total) := drop_dead cutoff (chunks ts) (total_samples ts) in
    mkTS cs total (retention_ms ts) (last_sample ts).

Definition needs_chunk (cs : list NexTSChunk) : bool :=
  match list.last cs with
  | None => true
  | Some c => CHUNK_MAX_SAMPLES <=? count c
  end.

(** The stores through [ts->tail]. *)
Fixpoint write_tail (x : NexSample) (cs : list NexTSChunk) : list NexTSChunk :=
  match cs with
  | [] => []
  | [c] => [mkChunk (start_time c) (timestamp x) (samples c ++ [x])]
  | c :: cs => c :: write_tail x cs
  end.

Definition nexts_add (calloc_ok malloc_ok : bool) (ts : NexTS) (t : Z) (v : V) : option (NexTS * Z) :=
  let ts := nexts_apply_retention ts t in
  if needs_chunk (chunks ts) && negb calloc_ok then Some (ts, - 1)
  else if needs_chunk (chunks ts) && negb malloc_ok then None
  else
    let cs := if needs_chunk (chunks ts) then chunks ts ++ [chunk_create t] else chunks ts in
    let x := mkSample t v in
    Some (mkTS (write_tail x cs) (total_samples ts +64 1)%mach (retention_ms ts) x, 0).

(** ** Queries *)
Definition in_window (start end_ : Z) (x : NexSample) : Prop := start <= timestamp x <= end_.

#[local] Instance in_window_dec start end_ x : Decision (in_window start end_ x).
Proof. unfold in_window. apply _. Defined.

Fixpoint scan_chunk (start end_ max_out : Z) (l acc : list NexSample) : list NexSample :=
  match l with
  | [] => acc
  | x :: l =>
      if alen acc <? max_out then
        scan_chunk start end_ max_out l (if (start <=? timestamp x) && (timestamp x <=? end_) then acc ++ [x] else acc)
      else acc
  end.

Fixpoint scan_chunks (start end_ max_out : Z) (cs : list NexTSChunk) (acc : list NexSample) : list NexSample :=
  match cs with
  | [] => acc
  | c :: cs =>
      if alen acc <? max_out then
        if end_time c <? start then scan_chunks start end_ max_out cs acc
        else if end_ <? start_time c then acc
        else scan_chunks start end_ max_out cs (scan_chunk start end_ max_out (samples c) acc)
      else acc
  end.

(** The samples stored in the result array; [*count_out] is their number.  The
    code stores the first one without a look at the result of [malloc]. *)
Definition nexts_query (malloc_ok : bool) (ts : NexTS) (start end_ : Z) : option (list NexSample) :=
  let max_out := if total_samples ts <? 1000 then total_samples ts else 1000 in
  let res := scan_chunks start end_ max_out (chunks ts) [] in
  match malloc_ok, res with
  | false, _ :: _ => None
  | _, _ => Some res
  end.

Record Agg := mkAgg { a_sum : V; a_min : V; a_max : V; a_count : Z }.

Definition agg_sample (a : Agg) (v : V) : Agg :=
  let '(mn, mx) := if a_count a =? 0 then (v, v)
                   else (if vlt v (a_min a) then v else a_min a, if vlt (a_max a) v then v else a_max a) in
  mkAgg (vadd (a_sum a) v) mn mx (a_count a +64 1)%mach.

Fixpoint agg_chunk (start end_ : Z) (l : list NexSample) (a : Agg) : Agg :=
  match l with
  | [] => a
  | x :: l =>
      agg_chunk start end_ l (if (timestamp x <? start) || (end_ <? timestamp x) then a else agg_sample a (value x))
  end.

Fixpoint agg_chunks (start end_ : Z) (cs : list NexTSChunk) (a : Agg) : Agg :=
  match cs with
  | [] => a
  | c :: cs =>
      if end_time c <? start then agg_chunks start end_ cs a
      else if end_ <? start_time c then a
      else agg_chunks start end_ cs (agg_chunk start end_ (samples c) a)
  end.

Definition nexts_aggregate (ts : NexTS) (start end_ : Z) (type : NexTSAggType) : V :=
  let a := agg_chunks start end_ (chunks ts) (mkAgg vzero vzero vzero 0) in
  if a_count a =? 0 then vzero
  else match type with
       | TS_AGG_SUM => a_sum a
       | TS_AGG_MIN => a_min a
       | TS_AGG_MAX => a_max a
       | TS_AGG_COUNT => of_count (a_count a)
       | TS_AGG_AVG => vdiv (a_sum a) (of_count (a_count a))
       end.

(** ** The samples of a series *)
Definition contents (ts : NexTS) : list NexSample := concat (map samples (chunks ts)).

(** The samples of a chunk lie between its two times, and one is at the end. *)
Definition chunk_ok (c : NexTSChunk) : Prop :=
  Forall (in_window (start_time c) (end_time c)) (samples c) /\ Exists (fun x => timestamp x = end_time c) (samples c) /\
  count c <= CHUNK_MAX_SAMPLES.

(** Chunks one after the other in time, from [lo] on and up to [hi]. *)
Fixpoint chain (lo : Z) (cs : list NexTSChunk) (hi : Z) : Prop :=
  match cs with
  | [] => lo <= hi
  | c :: cs => lo <= start_time c /\ chunk_ok c /\ chain (end_time c) cs hi
  end.

Lemma chunk_ok_order c : chunk_ok c -> start_time c <= end_time c.
Proof.
  intros (Hf & He & _). apply Exists_exists in He as (x & Hx & Ht). rewrite Forall_forall in Hf.
  pose proof (Hf x Hx) as [? ?]. lia.
Qed.

Lemma chain_mono lo lo' cs hi : chain lo cs hi -> lo' <= lo -> chain lo' cs hi.
Proof. destruct cs as [|c cs]; cbn; [lia|]. intros (? & ? & ?) ?. split; [lia|done]. Qed.

Lemma chain_lo cs : forall lo hi, chain lo cs hi -> lo <= hi.
Proof.
  induction cs as [|c cs IH]; cbn; [done|]. intros lo hi (? & Hc & Hr). pose proof (chunk_ok_order c Hc). specialize (IH _ _ Hr). lia.
Qed.

Lemma chain_bounds cs : forall lo hi, chain lo cs hi -> Forall (fun x => lo <= timestamp x <= hi) (concat (map samples cs)).
Proof.
  induction cs as [|c cs IH]; cbn; intros lo hi; [done|]. intros (Hlo & Hc & Hr). pose proof (chain_lo _ _ _ Hr).
  pose proof (chunk_ok_order c Hc). apply Forall_app. split.
  - destruct Hc as (Hf & _). eapply Forall_impl; [exact Hf|]. intros x [? ?]. cbn. lia.
  - eapply Forall_impl; [apply (IH _ _ Hr)|]. intros x ?. cbn in *. lia.
Qed.

(** *** Scans *)
Lemma scan_chunk_spec s e mx l : forall acc, alen acc <= mx ->
  scan_chunk s e mx l acc = take (Z.to_nat mx) (acc ++ filter (in_window s e) l).
Proof.
  induction l as [|x l IH]; intros acc Ha; cbn [scan_chunk].
  - rewrite filter_nil, app_nil_r, take_ge; [done|]. unfold alen in Ha. lia.
  - case_if.
    + rewrite IH by (case_if; [rewrite alen_app; change (alen [x]) with 1|]; lia).
      case_if.
      * rewrite filter_cons_True by (unfold in_window; lia). by rewrite <- app_assoc.
      * rewrite filter_cons_False; [done|]. unfold in_window. intros [? ?]. apply andb_false_iff in E0 as [?|?]; cmp_prop; lia.
    + unfold alen in *. by rewrite take_app_le, take_ge by lia.
Qed.

Lemma scan_chunks_spec s e mx cs : forall lo hi acc, chain lo cs hi -> alen acc <= mx ->
  scan_chunks s e mx cs acc = take (Z.to_nat mx) (acc ++ filter (in_window s e) (concat (map samples cs))).
Proof.
  induction cs as [|c cs IH]; intros lo hi acc Hch Ha; cbn [scan_chunks map concat].
  - rewrite filter_nil, app_nil_r, take_ge; [done|]. unfold alen in Ha. lia.
  - pose proof (chain_bounds _ _ _ Hch) as Hb. destruct Hch as (Hlo & Hc & Hr). pose proof Hc as (Hf & _).
    rewrite filter_app. case_if; [|unfold alen in *; by rewrite take_app_le, take_ge by lia]. case_if.
    + rewrite (filter_none (in_window s e) (samples c)); [by apply (IH _ _ _ Hr)|].
      eapply Forall_impl; [exact Hf|]. intros x [? ?] [? ?]. lia.
    + case_if.
      * pose proof (chain_bounds _ _ _ Hr) as Hb2. pose proof (chunk_ok_order c Hc).
        rewrite (filter_none (in_window s e) (samples c)), (filter_none (in_window s e) (concat _)).
        -- rewrite app_nil_r, take_ge; [done|]. unfold alen in *. lia.
        -- eapply Forall_impl; [exact Hb2|]. intros x ? [? ?]. cbn in *. lia.
        -- eapply Forall_impl; [exact Hf|]. intros x [? ?] [? ?]. lia.
      * rewrite (scan_chunk_spec s e mx (samples c) acc) by lia.
        pose proof (alen_nonneg acc). rewrite (IH _ _ _ Hr) by (unfold alen; rewrite length_take; lia).
        set (l1 := acc ++ filter (in_window s e) (samples c)). rewrite app_assoc. fold l1.
        set (l2 := filter (in_window s e) (concat (map samples cs))).
        destruct (Nat.le_gt_cases (length l1) (Z.to_nat mx)); [by rewrite (take_ge l1)|].
        rewrite !take_app_le by (rewrite ?length_take; lia). by rewrite take_take, Nat.min_id.
Qed.

(** *** Aggregation over the samples in the window *)
Definition agg_ref (type : NexTSAggType) (l : list V) : V :=
  match l with
  | [] => vzero
  | v0 :: r =>
      match type with
      | TS_AGG_SUM => fold_left vadd l vzero
      | TS_AGG_MIN => fold_left (fun m v => if vlt v m then v else m) r v0
      | TS_AGG_MAX => fold_left (fun m v => if vlt m v then v else m) r v0
      | TS_AGG_COUNT => of_count (alen l)
      | TS_AGG_AVG => vdiv (fold_left vadd l vzero) (of_count (alen l))
      end
  end.

Lemma agg_chunk_spec s e l : forall a,
  agg_chunk s e l a = fold_left agg_sample (map value (filter (in_window s e) l)) a.
Proof.
  induction l as [|x l IH]; intros a; [done|]. cbn [agg_chunk]. rewrite IH. case_if.
  - rewrite filter_cons_False; [done|]. unfold in_window. intros [? ?]. apply orb_true_iff in E as [?|?]; cmp_prop; lia.
  - rewrite filter_cons_True by (unfold in_window; lia). done.
Qed.

Lemma agg_chunks_spec s e cs : forall lo hi a, chain lo cs hi ->
  agg_chunks s e cs a = fold_left agg_sample (map value (filter (in_window s e) (concat (map samples cs)))) a.
Proof.
  induction cs as [|c cs IH]; intros lo hi a Hch; [done|]. cbn [agg_chunks map concat]. destruct Hch as (Hlo & Hc & Hr).
  pose proof Hc as (Hf & _). rewrite filter_app, map_app, fold_left_app. case_if.
  - rewrite (filter_none (in_window s e) (samples c)); [by apply (IH _ _ _ Hr)|].
    eapply Forall_impl; [exact Hf|]. intros x [? ?] [? ?]. lia.
  - case_if.
    + pose proof (chain_bounds _ _ _ Hr) as Hb2. pose proof (chunk_ok_order c Hc).
      rewrite (filter_none (in_window s e) (samples c)), (filter_none (in_window s e) (concat _)); [done| |].
      * eapply Forall_impl; [exact Hb2|]. intros x ? [? ?]. cbn in *. lia.
      * eapply Forall_impl; [exact Hf|]. intros x [? ?] [? ?]. lia.
    + by rewrite agg_chunk_spec, (IH _ _ _ Hr).
Qed.

(** The accumulators after the first value. *)
Lemma agg_fold l : forall a, 1 <= a_count a -> a_count a + alen l < 2 ^ 64 ->
  fold_left agg_sample l a = mkAgg (fold_left vadd l (a_sum a)) (fold_left (fun m v => if vlt v m then v else m) l (a_min a))
    (fold_left (fun m v => if vlt m v then v else m) l (a_max a)) (a_count a + alen l).
Proof.
  induction l as [|v l IH]; intros a H1 Hb; cbn [fold_left].
  - rewrite alen_nil, Z.add_0_r. by destruct a.
  - rewrite alen_cons in *. pose proof (alen_nonneg l). unfold agg_sample at 2. rewrite (proj2 (Z.eqb_neq _ _)) by lia.
    rewrite wrap_small by mach. rewrite IH; cbn [a_count a_sum a_min a_max]; [f_equal; lia|lia|lia].
Qed.

Lemma aggregate_spec ts lo hi s e type : chain lo (chunks ts) hi -> alen (contents ts) < 2 ^ 64 ->
  nexts_aggregate ts s e type = agg_ref type (map value (filter (in_window s e) (contents ts))).
Proof.
  intros Hch Hl. unfold nexts_aggregate. rewrite (agg_chunks_spec s e _ _ _ _ Hch). fold (contents ts).
  assert (alen (map value (filter (in_window s e) (contents ts))) < 2 ^ 64) as Hf.
  { unfold alen in *. rewrite length_map. pose proof (length_filter (in_window s e) (contents ts)). lia. }
  destruct (map value (filter (in_window s e) (contents ts))) as [|v l]; [done|]. rewrite alen_cons in Hf.
  pose proof (alen_nonneg l). cbn [fold_left].
  assert (agg_sample (mkAgg vzero vzero vzero 0) v = mkAgg (vadd vzero v) v v 1) as -> by done.
  rewrite agg_fold by (cbn [a_count]; lia). cbn [a_count a_sum a_min a_max].
  rewrite (proj2 (Z.eqb_neq _ _)) by lia. by destruct type; cbn [agg_ref fold_left]; rewrite ?alen_cons.
Qed.

(** *** Adding *)
Lemma drop_dead_spec cutoff cs : forall lo hi total, chain lo cs hi -> 0 <= total < 2 ^ 64 -> alen (concat (map samples cs)) <= total ->
  exists dead cs', cs = dead ++ cs' /\ Forall (fun x => timestamp x < cutoff) (concat (map samples dead)) /\
    (exists lo', lo <= lo' /\ chain lo' cs' hi) /\ match cs' with [] => True | c :: _ => cutoff <= end_time c end /\
    drop_dead cutoff cs total = (cs', total - alen (concat (map samples dead))).
Proof.
  induction cs as [|c cs IH]; intros lo hi total Hch Ht Hl; cbn [drop_dead].
  - exists [], []. cbn. rewrite Z.sub_0_r. repeat split; [done|]. exists lo. by split.
  - case_if.
    + destruct Hch as (Hlo & Hc & Hr). cbn [map concat] in Hl. rewrite alen_app in Hl. unfold count in *.
      pose proof (alen_nonneg (samples c)). pose proof (alen_nonneg (concat (map samples cs))). rewrite wrap_small by mach.
      destruct (IH _ _ (total - alen (samples c)) Hr) as (dead & cs' & -> & Hd & (lo' & Hlo' & Hch') & Hh & ->); [lia|lia|].
      pose proof (chunk_ok_order c Hc). destruct Hc as (Hf & _).
      exists (c :: dead), cs'. split; [done|]. split; [|split; [exists lo'; split; [lia|done]|split; [done|]]].
      * cbn. apply Forall_app. split; [|done]. eapply Forall_impl; [exact Hf|]. intros x [? ?]. cbn. lia.
      * cbn [map concat]. rewrite alen_app. f_equal. lia.
    + exists [], (c :: cs). cbn [map concat app]. rewrite alen_nil, Z.sub_0_r. repeat split; [done|by exists lo|done].
Qed.

Lemma write_tail_snoc x cs c : write_tail x (cs ++ [c]) = cs ++ [mkChunk (start_time c) (timestamp x) (samples c ++ [x])].
Proof.
  induction cs as [|c' cs IH]; [done|]. cbn [app write_tail]. rewrite IH. destruct cs; done.
Qed.

Lemma chain_snoc lo cs c hi : chain lo (cs ++ [c]) hi <-> chain lo cs (start_time c) /\ chunk_ok c /\ end_time c <= hi.
Proof.
  revert lo. induction cs as [|c' cs IH]; intros lo; cbn; [tauto|]. rewrite IH. tauto.
Qed.

Lemma chain_hi lo cs hi hi' : chain lo cs hi -> hi <= hi' -> chain lo cs hi'.
Proof. revert lo. induction cs as [|c cs IH]; cbn; intros lo; [lia|]. intros (? & ? & ?) ?. split; [done|]. split; [done|]. by apply IH. Qed.

(** The new sample at the end, in the last chunk or in one of its own. *)
Lemma write_spec lo cs hi t v : chain lo cs hi -> hi <= t -> let x := mkSample t v in
  let cs1 := if needs_chunk cs then cs ++ [chunk_create t] else cs in
  chain lo (write_tail x cs1) t /\ concat (map samples (write_tail x cs1)) = concat (map samples cs) ++ [x].
Proof.
  intros Hch Ht x cs1. subst cs1. destruct cs as [|c cs _] using rev_ind.
  - cbn in *. split; [|done]. split; [lia|]. split; [|lia]. split; [by apply Forall_singleton|]. split; [by apply Exists_cons; left|by vm_compute].
  - unfold needs_chunk. rewrite last_snoc. case_if.
    + rewrite write_tail_snoc. cbn [chunk_create start_time samples app]. split.
      * apply chain_snoc. cbn [start_time end_time]. split; [by apply (chain_hi _ _ hi)|]. split; [|done].
        split; [apply Forall_singleton; unfold in_window; cbn; lia|]. split; [by apply Exists_cons; left|by vm_compute].
      * by rewrite map_app, concat_app.
    + rewrite write_tail_snoc. apply chain_snoc in Hch as (Hch & (Hf & He & Hn) & Hhi). split.
      * apply chain_snoc. cbn [start_time end_time]. split; [done|]. split; [|done]. assert (chunk_ok c) as Hc by (by split). pose proof (chunk_ok_order c Hc).
        split; [|split].
        -- cbn [samples start_time end_time timestamp x]. apply Forall_app. split; [|apply Forall_singleton; unfold in_window; cbn; lia].
           eapply Forall_impl; [exact Hf|]. intros y [? ?]. unfold in_window. lia.
        -- cbn [samples end_time]. apply Exists_app. right. by apply Exists_cons; left.
        -- unfold count, CHUNK_MAX_SAMPLES in *. cbn [samples]. rewrite alen_app. change (alen [x]) with 1. lia.
      * rewrite !map_app, !concat_app. cbn. by rewrite !app_nil_r, <- app_assoc.
Qed.

(** ** Runs *)

(** The samples of [log] added in order, with memory available. *)
Fixpoint nexts_run (ts : NexTS) (log : list NexSample) : option NexTS :=
  match log with
  | [] => Some ts
  | x :: log =>
      match nexts_add true true ts (timestamp x) (value x) with
      | Some (ts, _) => nexts_run ts log
      | None => None
      end
  end.

(** Time stamps do not decrease. *)
Fixpoint in_order (lo : Z) (log : list NexSample) : Prop :=
  match log with
  | [] => True
  | x :: log => lo <= timestamp x /\ in_order (timestamp x) log
  end.

Definition newest (lo : Z) (log : list NexSample) : Z := match list.last log with Some x => timestamp x | None => lo end.

(** [ts] holds what retention has left of the samples [log], the newest at [hi]. *)
Record holds (r : Z) (log : list NexSample) (hi : Z) (ts : NexTS) : Prop := {
  h_retention : retention_ms ts = r;
  h_chain : exists lo, chain lo (chunks ts) hi;
  h_total : total_samples ts = alen (contents ts);
  h_log : exists dead, log = dead ++ contents ts /\ Forall (fun x => 0 < r /\ timestamp x < hi - r) dead;
  h_head : 0 < r -> match chunks ts with [] => True | c :: _ => hi - r <= end_time c end
}.

Lemma add_holds r log hi ts t v : holds r log hi ts -> hi <= t -> alen log + 1 < 2 ^ 64 ->
  exists ts', nexts_add true true ts t v = Some (ts', 0) /\ holds r (log ++ [mkSample t v]) t ts'.
Proof.
  intros [Hr (lo & Hch) Htot (dead & Hlog & Hdead) Hhead] Ht Hlen.
  assert (alen (contents ts) <= alen log) as Hcl by (rewrite Hlog, alen_app; pose proof (alen_nonneg dead); lia).
  pose proof (alen_nonneg (contents ts)).
  assert (exists dead2 cs', chunks ts = dead2 ++ cs' /\ Forall (fun x => 0 < r /\ timestamp x < t - r) (concat (map samples dead2)) /\
    (exists lo', chain lo' cs' hi) /\ (0 < r -> match cs' with [] => True | c :: _ => t - r <= end_time c end) /\
    nexts_apply_retention ts t = mkTS cs' (alen (concat (map samples cs'))) r (last_sample ts)) as (dead2 & cs' & Hcs & Hd2 & (lo' & Hch') & Hh & Hret).
  { unfold nexts_apply_retention. rewrite Hr. case_if.
    - exists [], (chunks ts). repeat split; [done|by exists lo|lia|]. fold (contents ts). rewrite <- Htot, <- Hr. by destruct ts.
    - destruct (drop_dead_spec (t - r) (chunks ts) lo hi (total_samples ts) Hch) as (d & cs' & Hd & Hf & (lo' & _ & Hc') & Hh & ->);
        [lia|unfold contents in *; lia|].
      exists d, cs'. split; [done|]. split; [eapply Forall_impl; [exact Hf|]; intros x ?; split; [lia|done]|].
      split; [by exists lo'|]. split; [done|]. f_equal. rewrite Htot. unfold contents. rewrite Hd, map_app, concat_app, alen_app. lia. }
  unfold nexts_add. rewrite Hret. cbn [chunks total_samples retention_ms]. rewrite !andb_false_r.
  eexists. split; [done|]. destruct (write_spec lo' cs' hi t v Hch' Ht) as [Hw Hc].
  assert (alen (concat (map samples cs')) <= alen (contents ts)) as Hle.
  { unfold contents. rewrite Hcs, map_app, concat_app, alen_app. pose proof (alen_nonneg (concat (map samples dead2))). lia. }
  pose proof (alen_nonneg (concat (map samples cs'))). split; cbn [chunks total_samples retention_ms].
  - done.
  - by exists lo'.
  - unfold contents. cbn [chunks]. rewrite Hc, alen_app, wrap_small by mach. done.
  - exists (dead ++ concat (map samples dead2)). unfold contents. cbn [chunks]. rewrite Hc. split.
    + rewrite Hlog. unfold contents. rewrite Hcs, map_app, concat_app, <- !app_assoc. done.
    + apply Forall_app. split; [|done]. eapply Forall_impl; [exact Hdead|]. intros x ?. cbn in *. lia.
  - intros Hpos. specialize (Hh Hpos). destruct cs' as [|c cs']; [cbn; lia|].
    destruct cs' as [|c' cs']; [|unfold needs_chunk; by case_if].
    unfold needs_chunk. cbn [list.last]. case_if; cbn; lia.
Qed.

Lemma run_holds r log2 : forall log hi ts, holds r log hi ts -> in_order hi log2 -> alen log + alen log2 < 2 ^ 64 ->
  exists ts', nexts_run ts log2 = Some ts' /\ holds r (log ++ log2) (newest hi log2) ts'.
Proof.
  induction log2 as [|x log2 IH]; intros log hi ts Hh Ho Hl.
  - exists ts. by rewrite app_nil_r.
  - destruct Ho as [Hx Ho]. rewrite alen_cons in Hl. pose proof (alen_nonneg log2). pose proof (alen_nonneg log).
    destruct (add_holds r log hi ts (timestamp x) (value x) Hh Hx) as (ts1 & Ha & Hh1); [lia|].
    replace (mkSample (timestamp x) (value x)) with x in Hh1 by (by destruct x).
    destruct (IH _ _ _ Hh1 Ho) as (ts' & Hrun & Hh'); [rewrite alen_app; change (alen [x]) with 1; lia|].
    exists ts'. cbn [nexts_run]. rewrite Ha. split; [done|]. rewrite <- app_assoc in Hh'.
    assert (newest hi (x :: log2) = newest (timestamp x) log2) as ->; [|done].
    unfold newest. destruct log2 as [|y log2]; [done|]. change (list.last (x :: y :: log2)) with (list.last (y :: log2)).
    destruct (list.last (y :: log2)) eqn:E; [done|]. by apply last_None in E.
Qed.

(** At most 127 samples stay beyond the retention: those in the chunk that also holds a newer one. *)
Lemma stale_bound r log hi ts : holds r log hi ts -> 0 < r ->
  alen (filter (fun x => timestamp x < hi - r) (contents ts)) <= 127.
Proof.
  intros [_ (lo & Hch) _ _ Hhead] Hr. specialize (Hhead Hr). unfold contents. destruct (chunks ts) as [|c cs]; [by vm_compute|].
  destruct Hch as (_ & (Hf & He & Hn) & Hrest). cbn [map concat]. rewrite filter_app, alen_app.
  rewrite (filter_none _ (concat _)).
  - rewrite alen_nil, Z.add_0_r. apply Exists_exists in He as (x & Hx & Hxt). apply list_elem_of_split in Hx as (l1 & l2 & Hs).
    unfold count, CHUNK_MAX_SAMPLES in Hn. rewrite Hs in *. rewrite filter_app, filter_cons_False by lia.
    rewrite alen_app, alen_cons in Hn. rewrite alen_app.
    pose proof (length_filter (fun x => timestamp x < hi - r) l1). pose proof (length_filter (fun x => timestamp x < hi - r) l2).
    unfold alen in *. lia.
  - eapply Forall_impl; [apply (chain_bounds _ _ _ Hrest)|]. intros x ?. cbn in *. lia.
Qed.

Lemma query_spec ts lo hi s e : chain lo (chunks ts) hi -> total_samples ts = alen (contents ts) ->
  nexts_query true ts s e = Some (take 1000 (filter (in_window s e) (contents ts))).
Proof.
  intros Hch Ht. unfold nexts_query. f_equal. pose proof (alen_nonneg (contents ts)).
  rewrite (scan_chunks_spec s e _ _ _ _ [] Hch) by (rewrite alen_nil; case_if; lia). cbn [app]. fold (contents ts).
  case_if; [|done]. pose proof (length_filter (in_window s e) (contents ts)). unfold alen in *.
  rewrite !take_ge by lia. done.
Qed.

(** ** Properties *)

(** C37. A series that was given samples in time order: none is lost but those
    older than the retention before the newest one, at most 127 older ones
    remain, [nexts_query] returns exactly the samples of the window, in order
    and at most 1000, and [nexts_aggregate] is the aggregate of exactly the
    samples of the window, whatever the arithmetic of the values. *)
Theorem nexts_exact r log : in_order 0 log -> alen log < 2 ^ 64 ->
  exists ts dead, nexts_run (nexts_create r) log = Some ts /\ log = dead ++ contents ts /\
    Forall (fun x => 0 < r /\ timestamp x < newest 0 log - r) dead /\
    (0 < r -> alen (filter (fun x => timestamp x < newest 0 log - r) (contents ts)) <= 127) /\
    (forall s e, nexts_query true ts s e = Some (take 1000 (filter (in_window s e) (contents ts)))) /\
    (forall s e type, nexts_aggregate ts s e type = agg_ref type (map value (filter (in_window s e) (contents ts)))).
Proof.
  intros Ho Hl.
  assert (holds r [] 0 (nexts_create r)) as Hinit.
  { split; [done|by exists 0|done| |done]. exists []. by split. }
  destruct (run_holds r log [] 0 _ Hinit Ho Hl) as (ts & Hrun & Hh). pose proof Hh as [_ (lo & Hch) Htot (dead & Hlog & Hdead) _].
  cbn [app] in *. exists ts, dead. split; [done|]. split; [done|]. split; [done|]. split; [by apply stale_bound with log|].
  split; [intros s e; by apply (query_spec ts lo (newest 0 log))|]. intros s e type. apply (aggregate_spec ts lo (newest 0 log)); [done|].
  rewrite Hlog, alen_app in Hl. pose proof (alen_nonneg dead). lia.
Qed.
End series.

(** Values as integers: the third sample makes the chunk of the first two dead. *)
Lemma nexts_exact_witness : exists ts, nexts_run (nexts_create 0 10) [mkSample 1 7; mkSample 5 9; mkSample 40 8] = Some ts /\
  nexts_query true ts 5 100 = Some [mkSample 40 8] /\ nexts_aggregate 0 Z.ltb Z.add (fun n => n) Z.div ts 0 100 TS_AGG_MAX = 8.
Proof.
  destruct (nexts_exact 0 Z.ltb Z.add (fun n => n) Z.div 10 [mkSample 1 7; mkSample 5 9; mkSample 40 8])
    as (ts & dead & Hrun & _ & _ & _ & Hq & Ha); [cbn; lia|by vm_compute|].
  exists ts. split; [done|]. rewrite Hq, Ha. vm_compute in Hrun. injection Hrun as <-. by vm_compute.
Defined.

(** Out of order, the end time of a chunk is that of its last sample, not of its
    newest: a query misses a sample of its window, and retention drops one
    that is inside the retention. *)
Lemma nexts_out_of_order_missed : exists ts,
  nexts_run (nexts_create 0 0) [mkSample 50 1; mkSample 10 2] = Some ts /\ mkSample 50 1 ∈ contents ts /\
  nexts_query true ts 40 60 = Some [].
Proof. eexists. split; [by vm_compute|]. split; [by apply list_elem_of_here|by vm_compute]. Qed.

Lemma nexts_retention_loses : exists ts,
  nexts_run (nexts_create 0 10) [mkSample 100 1; mkSample 1 2; mkSample 105 3] = Some ts /\ contents ts = [mkSample 105 3].
Proof. eexists. split; by vm_compute. Qed.
