(* ===== verification/Persist.v ===== *)
(** * Persistence of the engines (src/src/persistence/persist.c)

    The binary append-only file and the snapshots.  A file is its bytes; what
    the kernel answers to a [write] is an argument (the number of bytes taken,
    negative for an error), a [read] of a file returns what is asked for or
    what is left.  [synced] is a history variable: how much of the file an
    [fsync] has made durable; a crash leaves some prefix of the file that has
    at least those bytes.  Counters of time, the background thread (calls of
    [aof_fsync_now] and of the rewriting stub) and printing are left out. *)
From S2P Require Import Prelude.

Inductive AOFMode := AOF_DISABLED | AOF_ALWAYS | AOF_EVERYSEC | AOF_NO.

Definition AOF_OP_SET : Z := 1.
Definition AOF_OP_DEL : Z := 2.

(** ["NEXAOF1"], ["NEXRDB1"] *)
Definition AOF_MAGIC : bytes := [78; 69; 88; 65; 79; 70; 49].
Definition RDB_MAGIC : bytes := [78; 69; 88; 82; 68; 66; 49].

Record AOFEntry := mkEntry { type : Z; flags : Z; key_len : Z; value_len : Z; expire_us : Z }.

(** The packed struct: 16 bytes. *)
Definition entry_image (e : AOFEntry) : bytes :=
  le_bytes 1 (type e) ++ le_bytes 1 (flags e) ++ le_bytes 2 (key_len e) ++ le_bytes 4 (value_len e) ++ le_bytes 8 (expire_us e).

Definition entry_of_image (b : bytes) : AOFEntry :=
  mkEntry (le_val (take 1 b)) (le_val (take 1 (drop 1 b))) (le_val (take 2 (drop 2 b))) (le_val (take 4 (drop 4 b))) (le_val (take 8 (drop 8 b))).

Record PersistStats := mkStats { aof_writes : Z; aof_bytes : Z; aof_fsyncs : Z; rdb_saves : Z; rdb_bytes : Z; recovery_ops : Z }.

Record persist := mkPersist { aof_open : bool; aof_mode : AOFMode; stats : PersistStats; dirty_keys : Z; aof_file : bytes; synced : Z }.

(** [write(fd, data, alen data)] on a file opened for appending. *)
Definition write (f data : bytes) (r : Z) : bytes := f ++ take (Z.to_nat r) data.

(** ** The append-only file *)

(** [old] is the file at the path before, [opened] whether it could be opened,
    [r] the answer to the write of the magic. *)
Definition aof_init (mode : AOFMode) (has_path opened : bool) (old : bytes) (r : Z) (thread_ok : bool) : persist * Z :=
  let g := mkPersist false mode (mkStats 0 0 0 0 0 0) 0 old 0 in
  let start g := (g, if (thread_ok : bool) then 0 else - 1) in
  match mode with
  | AOF_DISABLED => start g
  | _ =>
      if has_path then
        if opened then
          let f := if alen old =? 0 then write old AOF_MAGIC r else old in
          start (mkPersist true mode (stats g) 0 f 0)
        else (g, - 1)
      else start g
  end.

Definition count_write (s : PersistStats) (n : Z) : PersistStats :=
  mkStats (aof_writes s +64 1) (aof_bytes s +64 n) (aof_fsyncs s) (rdb_saves s) (rdb_bytes s) (recovery_ops s).

Definition count_fsync (s : PersistStats) : PersistStats :=
  mkStats (aof_writes s) (aof_bytes s) (aof_fsyncs s +64 1) (rdb_saves s) (rdb_bytes s) (recovery_ops s).

(** [r1], [r2], [r3] answer the writes of header, key and value, [rs] the
    [fsync] (0 when it succeeds). *)
Definition aof_write (g : persist) (ty : Z) (key : bytes) (value : option bytes) (vlen expire r1 r2 r3 rs : Z) : persist * Z :=
  if negb (aof_open g) then (g, 0)
  else if alen key =? 0 then (g, - 1)
  else
    let hdr := mkEntry (u8 ty) 0 (if 65535 <? alen key then 65535 else alen key) (if 4294967295 <? vlen then 4294967295 else vlen) expire in
    let f := write (aof_file g) (entry_image hdr) r1 in
    let '(f, w) := if r1 =? 16 then (write f (take (Z.to_nat (key_len hdr)) key) r2, r2) else (f, r1) in
    let '(f, w) := match value with
                   | Some v => if (0 <? vlen) && (0 <? w) then (write f (take (Z.to_nat (value_len hdr)) v) r3, r3) else (f, w)
                   | None => (f, w)
                   end in
    if w <? 0 then (mkPersist (aof_open g) (aof_mode g) (stats g) (dirty_keys g) f (synced g), - 1)
    else
      let st := count_write (stats g) (16 + key_len hdr + value_len hdr) in
      match aof_mode g with
      | AOF_ALWAYS => (mkPersist (aof_open g) (aof_mode g) (count_fsync st) (dirty_keys g +64 1) f (if rs =? 0 then alen f else synced g), 0)
      | _ => (mkPersist (aof_open g) (aof_mode g) st (dirty_keys g +64 1) f (synced g), 0)
      end.

Definition aof_fsync_now (g : persist) (rs : Z) : persist * Z :=
  if negb (aof_open g) then (g, 0)
  else if rs =? 0 then (mkPersist (aof_open g) (aof_mode g) (count_fsync (stats g)) (dirty_keys g) (aof_file g) (alen (aof_file g)), 0)
  else (g, rs).

(** What [apply_fn] is called with. *)
Record op := mkOp { op_type : Z; op_key : bytes; op_value : option bytes; op_value_len : Z; op_expire : Z }.

(** [read(fd, _, n)] when it returns [n]. *)
Definition read (n : Z) (l : bytes) : option (bytes * bytes) :=
  if alen l <? n then None else Some (take (Z.to_nat n) l, drop (Z.to_nat n) l).

(** [mem i]: whether the two allocations for the [i]-th record succeed. *)
Fixpoint replay_loop (fuel : nat) (mem : nat -> bool * bool) (i : nat) (rest : bytes) : option (list op) :=
  match fuel with
  | O => None
  | S fuel =>
      match read 16 rest with
      | None => Some []
      | Some (h, rest) =>
          let hdr := entry_of_image h in
          let '(key_ok, value_ok) := mem i in
          let value_ok := (0 <? value_len hdr) && value_ok in
          if negb key_ok then Some []
          else
            match read (key_len hdr) rest with
            | None => Some []
            | Some (key, rest) =>
                if value_ok : bool then
                  match read (value_len hdr) rest with
                  | None => Some []
                  | Some (value, rest) =>
                      ops ← replay_loop fuel mem (S i) rest; Some (mkOp (type hdr) key (Some value) (value_len hdr) (expire_us hdr) :: ops)
                  end
                else ops ← replay_loop fuel mem (S i) rest; Some (mkOp (type hdr) key None (value_len hdr) (expire_us hdr) :: ops)
            end
      end
  end.

(** The calls of [apply_fn] and the result. *)
Definition aof_replay (file : option bytes) (mem : nat -> bool * bool) : option (list op * Z) :=
  match file with
  | None => Some ([], - 1)
  | Some f =>
      match read 7 f with
      | None => Some ([], - 1)
      | Some (magic, rest) =>
          if bytes_eqb magic AOF_MAGIC then ops ← replay_loop (S (length rest)) mem 0 rest; Some (ops, 0) else Some ([], - 1)
      end
  end.

(** ** Snapshots *)

(** An entry the iterator yields: the C string in [key_buf], the value. *)
Record kv := mkKv { kv_key : bytes; kv_value : option bytes; kv_len : Z; kv_expire : Z }.

(** The file descriptor: the bytes and the number of writes so far; [ans]
    answers the writes. *)
Definition put (ans : nat -> Z -> Z) (fd : bytes * nat) (data : bytes) : bytes * nat :=
  (write (fst fd) data (ans (snd fd) (alen data)), S (snd fd)).

Definition save_entry (ans : nat -> Z -> Z) (fd : bytes * nat) (e : kv) : bytes * nat :=
  let klen := u16 (alen (kv_key e)) in
  let vlen := u32 (kv_len e) in
  let fd := put ans fd (le_bytes 2 klen) in
  let fd := put ans fd (take (Z.to_nat klen) (kv_key e)) in
  let fd := put ans fd (le_bytes 4 vlen) in
  let fd := match kv_value e with
            | Some v => if 0 <? kv_len e then put ans fd (take (Z.to_nat vlen) v) else fd
            | None => fd
            end in
  put ans fd (le_bytes 8 (kv_expire e)).

(** [path] is the file at the path before; the result is what is there after. *)
Definition rdb_save (path : option bytes) (ts : Z) (entries : list kv) (opened renamed : bool) (ans : nat -> Z -> Z) : option bytes * Z :=
  if negb opened then (path, - 1)
  else
    let fd := put ans ([], O) RDB_MAGIC in
    let fd := put ans fd (le_bytes 4 1) in
    let fd := put ans fd (le_bytes 8 ts) in
    let fd := fold_left (save_entry ans) entries fd in
    let fd := put ans fd (le_bytes 2 65535) in
    if renamed then (Some (fst fd), 0) else (path, - 1).

(** [junk] is what the uninitialised [expire_us] holds. *)
Fixpoint load_loop (fuel : nat) (junk : Z) (mem : nat -> bool * bool) (i : nat) (rest : bytes) : option (list kv) :=
  match fuel with
  | O => None
  | S fuel =>
      match read 2 rest with
      | None => Some []
      | Some (b, rest) =>
          let klen := le_val b in
          if klen =? 65535 then Some []
          else if negb (fst (mem i)) then Some []
          else
            match read klen rest with
            | None => Some []
            | Some (key, rest) =>
                match read 4 rest with
                | None => Some []
                | Some (b, rest) =>
                    let vlen := le_val b in
                    let value := if 0 <? vlen then if snd (mem i) then '(v, rest) ← read vlen rest; Some (Some v, rest) else None
                                 else Some (None, rest) in
                    match value with
                    | None => Some []
                    | Some (value, rest) =>
                        let '(expire, rest) := match read 8 rest with
                                               | Some (b, rest) => (le_val b, rest)
                                               | None => (le_val (rest ++ drop (length rest) (le_bytes 8 junk)), [])
                                               end in
                        es ← load_loop fuel junk mem (S i) rest; Some (mkKv key value vlen expire :: es)
                    end
                end
            end
      end
  end.

Definition rdb_load (file : option bytes) (junk : Z) (mem : nat -> bool * bool) : option (list kv * Z) :=
  match file with
  | None => Some ([], - 1)
  | Some f =>
      match read 7 f with
      | None => Some ([], - 1)
      | Some (magic, rest) =>
          if bytes_eqb magic RDB_MAGIC
          then es ← load_loop (S (length rest)) junk mem 0 (drop 8 (drop 4 rest)); Some (es, 0)
          else Some ([], - 1)
      end
  end.

(** ** Records *)
#[local] Arguments read : simpl never.
#[local] Arguments le_bytes : simpl never.
#[local] Arguments le_val : simpl never.

Lemma read_app n (a l : bytes) : alen a = n -> read n (a ++ l) = Some (a, l).
Proof.
  intros <-. unfold read. pose proof (alen_nonneg l). rewrite alen_app, (proj2 (Z.ltb_ge _ _)) by lia. unfold alen. rewrite Nat2Z.id.
  by rewrite take_app_length, drop_app_length.
Qed.

Lemma read_short n (l : bytes) : alen l < n -> read n l = None.
Proof. intros. unfold read. by rewrite (proj2 (Z.ltb_lt _ _)). Qed.

Lemma read_length n l a b : 0 <= n -> read n l = Some (a, b) -> l = a ++ b /\ alen a = n.
Proof.
  unfold read. intros Hn. case_if; [done|]. intros [= <- <-]. split; [by rewrite take_drop|]. unfold alen in *. rewrite length_take. lia.
Qed.

Lemma alen_le_bytes n z : alen (le_bytes n z) = Z.of_nat n.
Proof. unfold alen. by rewrite length_le_bytes. Qed.

Lemma alen_entry_image e : alen (entry_image e) = 16.
Proof. unfold entry_image. rewrite !alen_app, !alen_le_bytes. lia. Qed.

Lemma image_round_trip ty fl kl vl ex : in_u 8 ty -> in_u 8 fl -> in_u 16 kl -> in_u 32 vl -> in_u 64 ex ->
  entry_of_image (entry_image (mkEntry ty fl kl vl ex)) = mkEntry ty fl kl vl ex.
Proof.
  intros. unfold entry_of_image, entry_image. cbn [type flags key_len value_len expire_us].
  assert (forall n z (l : bytes), take n (le_bytes n z ++ l) = le_bytes n z) as Htake.
  { intros n z l. apply take_app_length'. by rewrite length_le_bytes. }
  assert (forall n k z (l : bytes), (n <= k)%nat -> drop k (le_bytes n z ++ l) = drop (k - n) l) as Hdrop.
  { intros n k z l Hk. rewrite drop_app_ge by (by rewrite length_le_bytes). by rewrite length_le_bytes. }
  rewrite <- (app_nil_r (le_bytes 8 ex)).
  rewrite (Hdrop 1 1)%nat, (Hdrop 1 2)%nat, (Hdrop 1 4)%nat, (Hdrop 1 8)%nat by lia. cbn [Nat.sub].
  rewrite (Hdrop 1 1)%nat, (Hdrop 1 3)%nat, (Hdrop 1 7)%nat by lia. cbn [Nat.sub].
  rewrite (Hdrop 2 2)%nat, (Hdrop 2 6)%nat by lia. cbn [Nat.sub]. rewrite (Hdrop 4 4)%nat by lia. cbn [Nat.sub].
  rewrite ?drop_0, !Htake. rewrite !le_round_trip by assumption. done.
Qed.

(** ** Replay of a log cut anywhere *)
Definition value_bytes (o : op) : bytes := default [] (op_value o).

Definition record_bytes (o : op) : bytes :=
  entry_image (mkEntry (op_type o) 0 (alen (op_key o)) (op_value_len o) (op_expire o)) ++ op_key o ++ value_bytes o.

(** What [aof_write] is asked for so that the record can be read back. *)
Definition op_ok (o : op) : Prop :=
  in_u 8 (op_type o) /\ 1 <= alen (op_key o) <= 65535 /\ in_u 32 (op_value_len o) /\ in_u 64 (op_expire o) /\
  match op_value o with Some v => 0 < op_value_len o /\ alen v = op_value_len o | None => op_value_len o = 0 end.

(** The operations whose records lie in the first [n] bytes. *)
Fixpoint complete (n : Z) (ops : list op) : list op :=
  match ops with
  | [] => []
  | o :: ops => if alen (record_bytes o) <=? n then o :: complete (n - alen (record_bytes o)) ops else []
  end.

Lemma complete_prefix ops : forall n, exists tail, ops = complete n ops ++ tail.
Proof.
  induction ops as [|o ops IH]; intros n; cbn; [by exists []|]. case_if; [|by exists (o :: ops)].
  destruct (IH (n - alen (record_bytes o))) as [tail Htail]. exists tail. cbn. by f_equal.
Qed.

Lemma complete_all ops : forall n, alen (concat (map record_bytes ops)) <= n -> complete n ops = ops.
Proof.
  induction ops as [|o ops IH]; intros n Hn; [done|]. cbn [map concat complete] in *. rewrite alen_app in Hn.
  pose proof (alen_nonneg (concat (map record_bytes ops))). rewrite (proj2 (Z.leb_le _ _)) by lia. by rewrite IH by lia.
Qed.

Lemma alen_record o : alen (record_bytes o) = 16 + alen (op_key o) + alen (value_bytes o).
Proof. unfold record_bytes. rewrite !alen_app, alen_entry_image. lia. Qed.

Section replay.
Context (mem : nat -> bool * bool) (Hmem : forall i, mem i = (true, true)).

Lemma replay_record fuel i o l : op_ok o ->
  replay_loop (S fuel) mem i (record_bytes o ++ l) = (ops ← replay_loop fuel mem (S i) l; Some (o :: ops)).
Proof.
  intros (Ht & Hk & Hv & He & Hval). cbn [replay_loop]. unfold record_bytes. rewrite <- !app_assoc, (read_app 16) by apply alen_entry_image.
  rewrite image_round_trip by (done || mach). cbn [type key_len value_len expire_us]. rewrite Hmem. cbn [negb]. rewrite (read_app (alen (op_key o))) by done.
  unfold value_bytes. destruct o as [ty key [v|] vlen ex]; cbn in *.
  - destruct Hval. rewrite (proj2 (Z.ltb_lt _ _)) by done. cbn [andb]. by rewrite (read_app vlen).
  - by subst vlen.
Qed.

Lemma replay_cut fuel i o n : op_ok o -> 0 <= n < alen (record_bytes o) ->
  replay_loop (S fuel) mem i (take (Z.to_nat n) (record_bytes o)) = Some [].
Proof.
  intros (Ht & Hk & Hv & He & Hval) Hn. rewrite alen_record in Hn. cbn [replay_loop].
  assert (forall a b : bytes, alen a <= n -> take (Z.to_nat n) (a ++ b) = a ++ take (Z.to_nat (n - alen a)) b) as Hcut.
  { intros a b Ha. unfold alen in *. rewrite take_app_ge by lia. do 2 f_equal. lia. }
  assert (forall m (a : bytes), n < m -> alen (take (Z.to_nat n) a) < m) as Hshort.
  { intros m a Hm. unfold alen. rewrite length_take. lia. }
  destruct (Z.lt_ge_cases n 16) as [H1|H1]; [by rewrite read_short by (by apply Hshort)|].
  unfold record_bytes. rewrite Hcut, (read_app 16), alen_entry_image by (rewrite ?alen_entry_image; done).
  rewrite image_round_trip by (done || mach). cbn [type key_len value_len expire_us]. rewrite Hmem. cbn [negb].
  destruct (Z.lt_ge_cases (n - 16) (alen (op_key o))) as [H2|H2].
  { rewrite read_short; [done|]. unfold alen in *. rewrite length_take. lia. }
  assert (alen (op_key o) = Z.of_nat (length (op_key o))) as Hkl by done.
  rewrite take_app_ge by lia. rewrite (read_app (alen (op_key o))) by done.
  destruct o as [ty key [v|] vlen ex]; unfold value_bytes in *; cbn in *; [|change (alen (@nil Z)) with 0 in *; lia]. destruct Hval as [H0 Hl]. rewrite (proj2 (Z.ltb_lt _ _)) by done. cbn [andb].
  rewrite read_short; [done|]. unfold alen in *. rewrite length_take. lia.
Qed.

Lemma replay_prefix : forall ops n fuel i, Forall op_ok ops -> 0 <= n -> (length (take (Z.to_nat n) (concat (map record_bytes ops))) < fuel)%nat ->
  replay_loop fuel mem i (take (Z.to_nat n) (concat (map record_bytes ops))) = Some (complete n ops).
Proof.
  induction ops as [|o ops IH]; intros n fuel i Hops Hn Hf; cbn [map concat complete] in *.
  { destruct fuel; [lia|]. rewrite take_nil. by cbn. }
  apply Forall_cons in Hops as [Ho Hops]. destruct fuel as [|fuel]; [lia|]. pose proof (alen_record o) as Hr. pose proof (alen_nonneg (op_key o)).
  pose proof (alen_nonneg (value_bytes o)). assert (alen (record_bytes o) = Z.of_nat (length (record_bytes o))) as Hl by done.
  case_if.
  - rewrite take_app_ge in * by lia. replace (Z.to_nat n - length (record_bytes o))%nat with (Z.to_nat (n - alen (record_bytes o))) in * by lia.
    rewrite replay_record by done. rewrite IH; [done|done|lia|]. rewrite length_app in Hf. lia.
  - rewrite take_app_le by lia. apply replay_cut; [done|lia].
Qed.
End replay.

(** ** Writing the log *)
Lemma write_full f data r : alen data = r -> write f data r = f ++ data.
Proof. intros <-. unfold write, alen. by rewrite Nat2Z.id, firstn_all. Qed.

(** A call whose writes are complete; [rs] answers the [fsync] of AOF_ALWAYS. *)
Definition log_op (g : persist) (o : op) (rs : Z) : persist * Z :=
  aof_write g (op_type o) (op_key o) (op_value o) (op_value_len o) (op_expire o) 16 (alen (op_key o)) (alen (value_bytes o)) rs.
Definition append_op (g : persist) (o : op) : persist := fst (log_op g o 0).

Lemma log_op_spec g o rs : aof_open g = true -> op_ok o ->
  let '(g', rc) := log_op g o rs in
  rc = 0 /\ aof_file g' = aof_file g ++ record_bytes o /\ aof_open g' = true /\ aof_mode g' = aof_mode g /\
  synced g' = match aof_mode g with AOF_ALWAYS => if rs =? 0 then alen (aof_file g') else synced g | _ => synced g end.
Proof.
  intros Hopen (Ht & Hk & Hv & He & Hval). unfold log_op, aof_write. rewrite Hopen. cbn [negb].
  rewrite (proj2 (Z.eqb_neq (alen (op_key o)) 0)), (proj2 (Z.ltb_ge 65535 _)), (proj2 (Z.ltb_ge 4294967295 _)) by mach. cbn [key_len value_len].
  rewrite Z.eqb_refl, wrap_small by done. rewrite !write_full by (rewrite ?alen_entry_image; unfold alen; rewrite ?Nat2Z.id, ?firstn_all; done).
  assert (take (Z.to_nat (alen (op_key o))) (op_key o) = op_key o) as -> by (unfold alen; by rewrite Nat2Z.id, firstn_all).
  unfold record_bytes, value_bytes. destruct o as [ty key [v|] vlen ex]; cbn in *.
  - destruct Hval as [H0 Hl]. rewrite !(proj2 (Z.ltb_lt _ _)) by lia. cbn [andb].
    assert (take (Z.to_nat vlen) v = v) as -> by (apply firstn_all2; unfold alen in Hl; lia).
    rewrite write_full by done. rewrite (proj2 (Z.ltb_ge _ _)) by lia. rewrite <- !app_assoc. by destruct (aof_mode g), (rs =? 0).
  - subst vlen. rewrite (proj2 (Z.ltb_ge _ _)) by lia. rewrite app_nil_r, <- !app_assoc. by destruct (aof_mode g), (rs =? 0).
Qed.

(** A write that fails at once leaves the file alone and is not acknowledged. *)
Lemma log_fails g o r1 r2 r3 rs : aof_open g = true -> op_ok o -> r1 < 0 ->
  let '(g', rc) := aof_write g (op_type o) (op_key o) (op_value o) (op_value_len o) (op_expire o) r1 r2 r3 rs in
  rc = - 1 /\ aof_file g' = aof_file g /\ aof_open g' = true /\ aof_mode g' = aof_mode g /\ synced g' = synced g.
Proof.
  intros Hopen (Ht & Hk & Hv & He & Hval) Hr. unfold aof_write. rewrite Hopen. cbn [negb]. rewrite (proj2 (Z.eqb_neq (alen (op_key o)) 0)) by lia.
  rewrite (proj2 (Z.eqb_neq r1 16)) by lia. unfold write. replace (Z.to_nat r1) with 0%nat by lia. rewrite take_0, app_nil_r.
  destruct (op_value o); rewrite ?(proj2 (Z.ltb_ge 0 r1)), ?andb_false_r, (proj2 (Z.ltb_lt r1 0)) by lia; done.
Qed.

(** *** Runs

    Logged operations with what the kernel answers, and calls of
    [aof_fsync_now].  [acked] are the operations that were acknowledged, [safe]
    those acknowledged by the time of the last [fsync] that succeeded. *)
Inductive event := ELog (o : op) (r1 r2 r3 rs : Z) | EFsync (rs : Z).

Definition run_event (st : persist * list op * list op) (ev : event) : persist * list op * list op :=
  let '(g, acked, safe) := st in
  match ev with
  | ELog o r1 r2 r3 rs =>
      let '(g', rc) := aof_write g (op_type o) (op_key o) (op_value o) (op_value_len o) (op_expire o) r1 r2 r3 rs in
      if rc =? 0 then (g', acked ++ [o], match aof_mode g with AOF_ALWAYS => if rs =? 0 then acked ++ [o] else safe | _ => safe end)
      else (g', acked, safe)
  | EFsync rs => let '(g', rc) := aof_fsync_now g rs in (g', acked, if rc =? 0 then acked else safe)
  end.
Definition run_events (evs : list event) (g : persist) : persist * list op * list op := fold_left run_event evs (g, [], []).

(** The writes of a record are all complete, or the first fails: a record that
    is written in part is left out. *)
Definition event_ok (ev : event) : Prop :=
  match ev with
  | ELog o r1 r2 r3 _ => op_ok o /\ (r1 < 0 \/ r1 = 16 /\ r2 = alen (op_key o) /\ r3 = alen (value_bytes o))
  | EFsync _ => True
  end.

Definition all_records (ops : list op) : bytes := concat (map record_bytes ops).
Lemma all_records_app l l' : all_records (l ++ l') = all_records l ++ all_records l'.
Proof. unfold all_records. by rewrite map_app, concat_app. Qed.

Record run_inv (mode : AOFMode) (st : persist * list op * list op) : Prop := {
  ri_open : aof_open st.1.1 = true; ri_mode : aof_mode st.1.1 = mode;
  ri_ops : Forall op_ok st.1.2; ri_file : aof_file st.1.1 = AOF_MAGIC ++ all_records st.1.2;
  ri_safe : exists tail, st.1.2 = st.2 ++ tail;
  ri_synced : st.2 = [] \/ alen (AOF_MAGIC ++ all_records st.2) <= synced st.1.1 }.

Lemma run_event_inv mode st ev : event_ok ev -> run_inv mode st -> run_inv mode (run_event st ev).
Proof.
  destruct st as [[g acked] safe]. intros Hev [Ho Hm Hops Hf [tail Ht] Hs]. cbn [fst snd] in *. destruct ev as [o r1 r2 r3 rs|rs]; cbn [run_event].
  - destruct Hev as [Hok [Hr|(-> & -> & ->)]].
    + pose proof (log_fails g o r1 r2 r3 rs Ho Hok Hr) as H. destruct (aof_write _ _ _ _ _ _ _ _ _ _) as [g' rc].
      destruct H as (-> & H1 & H2 & H3 & H4). cbn. split; cbn; rewrite ?H1, ?H3, ?H4; eauto.
    + pose proof (log_op_spec g o rs Ho Hok) as H. unfold log_op in H. destruct (aof_write _ _ _ _ _ _ _ _ _ _) as [g' rc].
      destruct H as (-> & H1 & H2 & H3 & H4). cbn [Z.eqb].
      assert (aof_file g' = AOF_MAGIC ++ all_records (acked ++ [o])) as Hf'.
      { rewrite H1, Hf, all_records_app, <- app_assoc. unfold all_records at 3. cbn. by rewrite app_nil_r. }
      rewrite Hm in *. split; cbn [fst snd]; [done|congruence|apply Forall_app; split; [done|by constructor]|done| |].
      * destruct mode; try destruct (rs =? 0); try (exists []; by rewrite app_nil_r); exists (tail ++ [o]); by rewrite Ht, app_assoc.
      * rewrite H4. destruct mode; try destruct (rs =? 0); try done. right. rewrite Hf'. lia.
  - unfold aof_fsync_now. rewrite Ho. cbn [negb]. destruct (Z.eqb_spec rs 0) as [->|Hr]; cbn [Z.eqb].
    + split; cbn [fst snd aof_open aof_mode aof_file synced]; try done; [exists []; by rewrite app_nil_r|]. right. rewrite Hf. lia.
    + rewrite (proj2 (Z.eqb_neq rs 0)) by done. split; cbn; eauto.
Qed.

Lemma run_events_inv mode evs : forall st, Forall event_ok evs -> run_inv mode st -> run_inv mode (fold_left run_event evs st).
Proof.
  induction evs as [|ev evs IH]; intros st Hevs Hst; [done|]. apply Forall_cons in Hevs as [Hev Hevs]. apply IH; [done|]. by apply run_event_inv.
Qed.

(** What is safe is among the complete records. *)
Lemma complete_covers safe : forall tail n, alen (all_records safe) <= n -> exists more, complete n (safe ++ tail) = safe ++ more.
Proof.
  induction safe as [|o safe IH]; intros tail n Hn; [by eexists|]. unfold all_records in Hn. cbn [map concat] in Hn. rewrite alen_app in Hn.
  pose proof (alen_nonneg (concat (map record_bytes safe))). cbn [app complete]. rewrite (proj2 (Z.leb_le _ _)) by lia.
  destruct (IH tail (n - alen (record_bytes o))) as [more ->]; [unfold all_records; lia|]. by exists more.
Qed.

(** In the mode AOF_ALWAYS, when no [fsync] fails, everything acknowledged is safe. *)
Definition fsync_works (ev : event) : Prop := match ev with ELog _ _ _ _ rs | EFsync rs => rs = 0 end.

Lemma always_safe evs : forall st, Forall event_ok evs -> Forall fsync_works evs -> run_inv AOF_ALWAYS st -> st.1.2 = st.2 ->
  (fold_left run_event evs st).1.2 = (fold_left run_event evs st).2.
Proof.
  induction evs as [|ev evs IH]; intros st Hevs Hw Hst He; [done|]. apply Forall_cons in Hevs as [Hev Hevs]. apply Forall_cons in Hw as [Hw Hws].
  cbn [fold_left]. apply IH; [done|done|by apply run_event_inv|]. destruct st as [[g acked] safe]. destruct Hst as [_ Hm _ _ _ _]. cbn [fst snd] in *. subst safe.
  destruct ev as [o r1 r2 r3 rs|rs]; cbn in Hw; subst rs; cbn [run_event].
  - destruct (aof_write _ _ _ _ _ _ _ _ _ _) as [g' rc]. rewrite Hm. by destruct (rc =? 0).
  - destruct (aof_fsync_now g 0) as [g' rc]. by destruct (rc =? 0).
Qed.

(** ** Snapshots *)
Definition kv_bytes (e : kv) : bytes :=
  le_bytes 2 (alen (kv_key e)) ++ kv_key e ++ le_bytes 4 (kv_len e) ++ default [] (kv_value e) ++ le_bytes 8 (kv_expire e).

(** [key_buf] has 512 bytes, so a key has at most 511. *)
Definition kv_ok (e : kv) : Prop :=
  alen (kv_key e) <= 511 /\ in_u 32 (kv_len e) /\ in_u 64 (kv_expire e) /\
  match kv_value e with Some v => 0 < kv_len e /\ alen v = kv_len e | None => kv_len e = 0 end.

Definition all_written (i : nat) (n : Z) : Z := n.

Lemma put_full fd data : put all_written fd data = (fst fd ++ data, S (snd fd)).
Proof. unfold put. by rewrite write_full. Qed.

Lemma take_prefix_alen (l : bytes) : take (Z.to_nat (alen l)) l = l.
Proof. unfold alen. by rewrite Nat2Z.id, firstn_all. Qed.

Lemma save_entry_full fd e : kv_ok e -> fst (save_entry all_written fd e) = fst fd ++ kv_bytes e.
Proof.
  intros (Hk & Hl & He & Hv). unfold save_entry, kv_bytes. pose proof (alen_nonneg (kv_key e)). rewrite !wrap_small by (done || mach). rewrite take_prefix_alen.
  destruct (kv_value e) as [v|]; cbn [default].
  - destruct Hv as [H0 Hlv]. rewrite (proj2 (Z.ltb_lt _ _)) by done. rewrite <- Hlv, take_prefix_alen, !put_full. cbn [fst]. by rewrite <- !app_assoc.
  - rewrite !put_full. cbn [fst]. by rewrite <- !app_assoc.
Qed.

Lemma save_entries_full es : forall fd, Forall kv_ok es -> fst (fold_left (save_entry all_written) es fd) = fst fd ++ concat (map kv_bytes es).
Proof.
  induction es as [|e es IH]; intros fd Hes; cbn [fold_left map concat]; [by rewrite app_nil_r|]. apply Forall_cons in Hes as [He Hes].
  by rewrite IH, save_entry_full, app_assoc.
Qed.

Lemma load_entries mem (Hmem : forall i, mem i = (true, true)) junk : forall es fuel i, Forall kv_ok es ->
  (length (concat (map kv_bytes es) ++ le_bytes 2 65535) < fuel)%nat ->
  load_loop fuel junk mem i (concat (map kv_bytes es) ++ le_bytes 2 65535) = Some es.
Proof.
  induction es as [|e es IH]; intros fuel i Hes Hf; (destruct fuel as [|fuel]; [lia|]); cbn [map concat load_loop] in *; [done|].
  apply Forall_cons in Hes as [He Hes]. destruct He as (Hk & Hl & He & Hv). pose proof (alen_nonneg (kv_key e)). unfold kv_bytes at 1.
  rewrite <- !app_assoc, (read_app 2) by apply alen_le_bytes. rewrite le_round_trip by mach.
  rewrite (proj2 (Z.eqb_neq _ _)) by lia. rewrite Hmem. cbn [fst snd negb]. rewrite (read_app (alen (kv_key e))) by done.
  rewrite (read_app 4) by apply alen_le_bytes. rewrite le_round_trip by done.
  assert (forall e l, (length l < length (kv_bytes e ++ l))%nat) as Hshort.
  { intros e' l. unfold kv_bytes. rewrite !length_app, !length_le_bytes. lia. }
  rewrite <- app_assoc in Hf. pose proof (Hshort e (concat (map kv_bytes es) ++ le_bytes 2 65535)).
  destruct e as [key [v|] vlen ex]; cbn in *.
  - destruct Hv as [Hpos Hlv]. rewrite (proj2 (Z.ltb_lt _ _)) by done. rewrite (read_app vlen) by done. cbn.
    rewrite (read_app 8) by apply alen_le_bytes. rewrite le_round_trip by done. rewrite IH; [done|done|lia].
  - subst vlen. cbn. rewrite (read_app 8) by apply alen_le_bytes. rewrite le_round_trip by done. rewrite IH; [done|done|lia].
Qed.

Lemma rdb_round_trip mem (Hmem : forall i, mem i = (true, true)) path ts es junk : Forall kv_ok es ->
  rdb_load (fst (rdb_save path ts es true true all_written)) junk mem = Some (es, 0).
Proof.
  intros Hes. unfold rdb_save. cbn [negb]. rewrite !put_full. cbn [fst]. rewrite save_entries_full by done. cbn [fst]. unfold write. cbn [app].
  unfold rdb_load. rewrite <- !app_assoc, (read_app 7), (proj2 (bytes_eqb_eq _ _)) by done.
  assert (forall k z (l : bytes), drop k (le_bytes k z ++ l) = l) as Hdrop by (intros k z l; apply drop_app_length'; by rewrite length_le_bytes).
  rewrite !Hdrop, load_entries; [done|done|done|]. rewrite !length_app. lia.
Qed.

(** ** The theorems *)


Definition some_ops : list op :=
  [mkOp AOF_OP_SET [107] (Some [1; 2; 3]) 3 0; mkOp AOF_OP_DEL [108; 109] None 0 0; mkOp AOF_OP_SET [107] (Some [9]) 1 77].

Definition enough (i : nat) : bool * bool := (true, true).

(** An [fsync] after the first operation, a write that fails, an [fsync] that
    fails; the crash cuts the third record. *)
Definition some_events : list event :=
  [ELog (mkOp AOF_OP_SET [107] (Some [1; 2; 3]) 3 0) 16 1 3 0; EFsync 0; ELog (mkOp AOF_OP_DEL [100] None 0 0) (- 1) 0 0 0;
   ELog (mkOp AOF_OP_DEL [108; 109] None 0 0) 16 2 0 0; ELog (mkOp AOF_OP_SET [107] (Some [9]) 1 77) 16 1 1 0; EFsync (- 1)].


(** ** Deviations *)
Definition fresh_log : persist := fst (aof_init AOF_ALWAYS true true [] 7 true).

(** A write cut short (a full disk) is acknowledged, and every later record is
    lost with it. *)
Lemma aof_short_write_acknowledged :
  let '(g, rc) := aof_write fresh_log AOF_OP_SET [107] (Some [1; 2; 3]) 3 0 16 1 1 0 in
  let g := append_op g (mkOp AOF_OP_SET [108] (Some [7; 7; 7; 7]) 4 0) in
  rc = 0 /\ aof_replay (Some (aof_file g)) enough = Some ([mkOp AOF_OP_SET [107] (Some [1; 1; 0]) 3 0], 0).
Proof. by vm_compute. Qed.

(** A NULL value with a length is announced in the header but not written. *)
Lemma aof_null_value_announced :
  let '(g, rc) := aof_write fresh_log AOF_OP_SET [107] None 3 0 16 1 0 0 in
  let g := append_op g (mkOp AOF_OP_DEL [108; 109] None 0 0) in
  rc = 0 /\ aof_replay (Some (aof_file g)) enough = Some ([mkOp AOF_OP_SET [107] (Some [2; 0; 2]) 3 0], 0).
Proof. by vm_compute. Qed.

(** A failed [fsync] is not noticed: the operation is acknowledged in the mode
    of maximal durability although nothing of it may be on disk. *)
Lemma aof_always_ignores_fsync :
  let '(g, rc) := aof_write fresh_log AOF_OP_SET [107] (Some [1]) 1 0 16 1 1 (- 1) in rc = 0 /\ synced g = 0 /\ aof_fsyncs (stats g) = 1.
Proof. by vm_compute. Qed.

(** A value whose allocation fails during the replay is applied as NULL with
    its length, and its bytes are read as the next record. *)
Lemma aof_replay_allocation :
  let g := fold_left append_op [mkOp AOF_OP_SET [107] (Some (replicate 16 1)) 16 5; mkOp AOF_OP_DEL [108] None 0 0] fresh_log in
  aof_replay (Some (aof_file g)) (fun i => (true, negb (Nat.eqb i 0))) = Some ([mkOp AOF_OP_SET [107] None 16 5], 0).
Proof. by vm_compute. Qed.

(** When the disk is full, the old snapshot is replaced by a truncated one and
    the save reports success; the load of the result succeeds too. *)
Lemma rdb_save_full_disk :
  let good := fst (rdb_save None 0 [mkKv [97] (Some [1]) 1 0] true true all_written) in
  let full (i : nat) (n : Z) := if Nat.ltb i 3 then n else - 1 in
  let r := rdb_save good 0 [mkKv [97] (Some [1]) 1 0] true true full in
  snd r = 0 /\ rdb_load (fst r) 0 enough = Some ([], 0) /\ rdb_load good 0 enough = Some ([mkKv [97] (Some [1]) 1 0], 0).
Proof. by vm_compute. Qed.

(** A snapshot cut inside the last field of an entry is loaded with whatever
    the variable held. *)
Lemma rdb_load_truncated junk : in_u 64 junk ->
  let file := fst (rdb_save None 0 [mkKv [97] (Some [1]) 1 5] true true all_written) in
  rdb_load (option_map (take 27) file) junk enough = Some ([mkKv [97] (Some [1]) 1 junk], 0).
Proof.
  intros Hj. transitivity (Some ([mkKv [97] (Some [1]) 1 (le_val (le_bytes 8 junk))], 0)); [done|]. by rewrite le_round_trip.
Qed.
