(* ===== verification/Slots.v ===== *)
(** * Hash slots (src/src/crc16.c, cluster.c)

    CRC16, the slot of a key ([keyHashSlot]) and the slot of a glob pattern
    ([patternHashSlot]), with the theorem that connects the last to the matcher
    of Glob: when a pattern has a slot, every key it matches is in that slot,
    which is what KEYS and SCAN rely on when they look at one slot only. *)
From S2P Require Import Prelude Glob.

Definition crc16tab : list Z := [
   0x0000; 0x1021; 0x2042; 0x3063; 0x4084; 0x50a5; 0x60c6; 0x70e7; 0x8108; 0x9129; 0xa14a; 0xb16b; 0xc18c; 0xd1ad; 0xe1ce; 0xf1ef;
   0x1231; 0x0210; 0x3273; 0x2252; 0x52b5; 0x4294; 0x72f7; 0x62d6; 0x9339; 0x8318; 0xb37b; 0xa35a; 0xd3bd; 0xc39c; 0xf3ff; 0xe3de;
   0x2462; 0x3443; 0x0420; 0x1401; 0x64e6; 0x74c7; 0x44a4; 0x5485; 0xa56a; 0xb54b; 0x8528; 0x9509; 0xe5ee; 0xf5cf; 0xc5ac; 0xd58d;
   0x3653; 0x2672; 0x1611; 0x0630; 0x76d7; 0x66f6; 0x5695; 0x46b4; 0xb75b; 0xa77a; 0x9719; 0x8738; 0xf7df; 0xe7fe; 0xd79d; 0xc7bc;
   0x48c4; 0x58e5; 0x6886; 0x78a7; 0x0840; 0x1861; 0x2802; 0x3823; 0xc9cc; 0xd9ed; 0xe98e; 0xf9af; 0x8948; 0x9969; 0xa90a; 0xb92b;
   0x5af5; 0x4ad4; 0x7ab7; 0x6a96; 0x1a71; 0x0a50; 0x3a33; 0x2a12; 0xdbfd; 0xcbdc; 0xfbbf; 0xeb9e; 0x9b79; 0x8b58; 0xbb3b; 0xab1a;
   0x6ca6; 0x7c87; 0x4ce4; 0x5cc5; 0x2c22; 0x3c03; 0x0c60; 0x1c41; 0xedae; 0xfd8f; 0xcdec; 0xddcd; 0xad2a; 0xbd0b; 0x8d68; 0x9d49;
   0x7e97; 0x6eb6; 0x5ed5; 0x4ef4; 0x3e13; 0x2e32; 0x1e51; 0x0e70; 0xff9f; 0xefbe; 0xdfdd; 0xcffc; 0xbf1b; 0xaf3a; 0x9f59; 0x8f78;
   0x9188; 0x81a9; 0xb1ca; 0xa1eb; 0xd10c; 0xc12d; 0xf14e; 0xe16f; 0x1080; 0x00a1; 0x30c2; 0x20e3; 0x5004; 0x4025; 0x7046; 0x6067;
   0x83b9; 0x9398; 0xa3fb; 0xb3da; 0xc33d; 0xd31c; 0xe37f; 0xf35e; 0x02b1; 0x1290; 0x22f3; 0x32d2; 0x4235; 0x5214; 0x6277; 0x7256;
   0xb5ea; 0xa5cb; 0x95a8; 0x8589; 0xf56e; 0xe54f; 0xd52c; 0xc50d; 0x34e2; 0x24c3; 0x14a0; 0x0481; 0x7466; 0x6447; 0x5424; 0x4405;
   0xa7db; 0xb7fa; 0x8799; 0x97b8; 0xe75f; 0xf77e; 0xc71d; 0xd73c; 0x26d3; 0x36f2; 0x0691; 0x16b0; 0x6657; 0x7676; 0x4615; 0x5634;
   0xd94c; 0xc96d; 0xf90e; 0xe92f; 0x99c8; 0x89e9; 0xb98a; 0xa9ab; 0x5844; 0x4865; 0x7806; 0x6827; 0x18c0; 0x08e1; 0x3882; 0x28a3;
   0xcb7d; 0xdb5c; 0xeb3f; 0xfb1e; 0x8bf9; 0x9bd8; 0xabbb; 0xbb9a; 0x4a75; 0x5a54; 0x6a37; 0x7a16; 0x0af1; 0x1ad0; 0x2ab3; 0x3a92;
   0xfd2e; 0xed0f; 0xdd6c; 0xcd4d; 0xbdaa; 0xad8b; 0x9de8; 0x8dc9; 0x7c26; 0x6c07; 0x5c64; 0x4c45; 0x3ca2; 0x2c83; 0x1ce0; 0x0cc1;
   0xef1f; 0xff3e; 0xcf5d; 0xdf7c; 0xaf9b; 0xbfba; 0x8fd9; 0x9ff8; 0x6e17; 0x7e36; 0x4e55; 0x5e74; 0x2e93; 0x3eb2; 0x0ed1; 0x1ef0].

(** [crc = (crc << 8) ^ crc16tab[((crc >> 8) ^ b) & 0xff]], [crc] a [uint16_t]. *)
Definition crc16_step (tab : list Z) (crc b : Z) : Z :=
  u16 (Z.lxor (Z.shiftl crc 8) (aget tab (Z.land (Z.lxor (Z.shiftr crc 8) b) 255))).

Definition crc16 (buf : bytes) : Z := fold_left (crc16_step crc16tab) buf 0.

(** The loops that look for a brace: what is before it and what after. *)
Fixpoint find_char (ch : Z) (l : bytes) : option (bytes * bytes) :=
  match l with
  | [] => None
  | c :: l => if c =? ch then Some ([], l) else '(a, b) ← find_char ch l; Some (c :: a, b)
  end.

Definition LBRACE : Z := 123.
Definition RBRACE : Z := 125.

Definition keyHashSlot (key : bytes) : Z :=
  match find_char LBRACE key with
  | None => Z.land (crc16 key) 16383
  | Some (_, rest) =>
      match find_char RBRACE rest with
      | None | Some ([], _) => Z.land (crc16 key) 16383
      | Some (tag, _) => Z.land (crc16 tag) 16383
      end
  end.

(** [rest] is the pattern from [i], [s] the state of the scan. *)
Fixpoint pattern_loop (pattern rest : bytes) (i s : Z) : Z :=
  match rest with
  | [] => Z.land (crc16 pattern) 16383
  | c :: rest =>
      if (c =? STAR) || (c =? QUESTION) || (c =? OPEN) then - 1
      else if c =? BACKSLASH then - 1
      else if (s =? - 1) && (c =? LBRACE) then pattern_loop pattern rest (i + 1) i
      else if (0 <=? s) && (c =? RBRACE) && (i =? s + 1) then pattern_loop pattern rest (i + 1) (- 2)
      else if (0 <=? s) && (c =? RBRACE) then Z.land (crc16 (take (Z.to_nat (i - s - 1)) (drop (Z.to_nat (s + 1)) pattern))) 16383
      else pattern_loop pattern rest (i + 1) s
  end.

Definition patternHashSlot (pattern : bytes) : Z := pattern_loop pattern pattern 0 (- 1).

(** ** The reference CRC: XMODEM, polynomial x^16 + x^12 + x^5 + 1 *)
Definition crc_bit (c : Z) : Z := if Z.testbit c 15 then Z.lxor (u16 (Z.shiftl c 1)) 0x1021 else u16 (Z.shiftl c 1).
Definition crc_byte (c b : Z) : Z := Nat.iter 8 crc_bit (Z.lxor c (Z.shiftl b 8)).
Definition crc_ref (l : bytes) : Z := fold_left crc_byte l 0.

(** *** Bits are linear *)
Lemma u16_lxor a b : u16 (Z.lxor a b) = Z.lxor (u16 a) (u16 b).
Proof.
  unfold wrap. rewrite <- !Z.land_ones by lia. apply Z.bits_inj'. intros n Hn. rewrite !Z.land_spec, !Z.lxor_spec, !Z.land_spec.
  by destruct (Z.testbit a n), (Z.testbit b n), (Z.testbit (Z.ones 16) n).
Qed.

Lemma crc_bit_eq c : crc_bit c = Z.lxor (u16 (Z.shiftl c 1)) (if Z.testbit c 15 then 0x1021 else 0).
Proof. unfold crc_bit. case_match; [done|]. by rewrite Z.lxor_0_r. Qed.

Lemma crc_bit_lxor a b : crc_bit (Z.lxor a b) = Z.lxor (crc_bit a) (crc_bit b).
Proof.
  rewrite !crc_bit_eq, Z.shiftl_lxor, u16_lxor, Z.lxor_spec. set (x := u16 (Z.shiftl a 1)). set (y := u16 (Z.shiftl b 1)). set (g := 0x1021).
  assert (forall u v, Z.lxor (Z.lxor x y) (Z.lxor u v) = Z.lxor (Z.lxor x u) (Z.lxor y v)) as Hac.
  { intros u v. rewrite <- !Z.lxor_assoc. f_equal. rewrite !Z.lxor_assoc. f_equal. apply Z.lxor_comm. }
  rewrite <- Hac. f_equal. destruct (Z.testbit a 15), (Z.testbit b 15); cbn [xorb]; by rewrite ?Z.lxor_nilpotent, ?Z.lxor_0_r, ?Z.lxor_0_l.
Qed.

Lemma crc_bits_lxor n a b : Nat.iter n crc_bit (Z.lxor a b) = Z.lxor (Nat.iter n crc_bit a) (Nat.iter n crc_bit b).
Proof. induction n as [|n IH]; [done|]. by rewrite !Nat.iter_succ, IH, crc_bit_lxor. Qed.

Lemma crc_bit_range c : in_u 16 (crc_bit c).
Proof.
  rewrite crc_bit_eq. apply in_u_testbit; [lia| |].
  - apply Z.lxor_nonneg. pose proof (wrap_range 16 (Z.shiftl c 1) ltac:(lia)) as [? _]. case_match; by split; intros.
  - intros j Hj. rewrite Z.lxor_spec, (testbit_high 16) by (try apply wrap_range; lia). case_match; [by rewrite (testbit_high 16) by (done || lia)|by rewrite Z.bits_0].
Qed.

Lemma crc_bits_nonneg c : 0 <= Nat.iter 8 crc_bit c.
Proof. apply crc_bit_range. Qed.

(** Eight bits of a low byte shift it up, of a high byte give the table. *)
Lemma low_bytes : forallb (fun lo => Nat.iter 8 crc_bit lo =? Z.shiftl lo 8) (seqZ 0 256) = true.
Proof. by vm_compute. Qed.

Lemma high_bytes : forallb (fun hi => (Nat.iter 8 crc_bit (Z.shiftl hi 8) =? aget crc16tab hi) && (aget crc16tab hi <? 65536)) (seqZ 0 256) = true.
Proof. by vm_compute. Qed.

Lemma byte_of_table (P : Z -> bool) b : forallb P (seqZ 0 256) = true -> in_u 8 b -> P b = true.
Proof.
  intros Hall Hb. rewrite forallb_forall in Hall. apply Hall. apply list_elem_of_In, elem_of_seqZ. mach.
Qed.

Lemma crc16_step_ref c b : in_u 16 c -> in_u 8 b -> crc16_step crc16tab c b = crc_byte c b.
Proof.
  intros Hc Hb. unfold crc16_step, crc_byte. set (hi := Z.lxor (Z.shiftr c 8) b). set (lo := Z.land c 255).
  assert (in_u 8 (Z.shiftr c 8)) as Hsh.
  { unfold in_u. rewrite Z.shiftr_div_pow2 by lia. split; [apply Z.div_pos; mach|apply Z.div_lt_upper_bound; mach]. }
  assert (in_u 8 hi) as Hhi.
  { apply in_u_testbit; [lia|apply Z.lxor_nonneg; split; intros; mach|]. intros j Hj. unfold hi. rewrite Z.lxor_spec. by rewrite !(testbit_high 8) by (done || lia). }
  assert (in_u 8 lo) as Hlo.
  { unfold lo. change 255 with (Z.ones 8). rewrite Z.land_ones by lia. apply Z.mod_pos_bound. lia. }
  assert (Z.lxor c (Z.shiftl b 8) = Z.lxor (Z.shiftl hi 8) lo) as ->.
  { apply Z.bits_inj'. intros n Hn. unfold hi, lo. rewrite !Z.lxor_spec, Z.land_spec. change 255 with (Z.ones 8).
    rewrite (Z.testbit_ones_nonneg 8) by lia. destruct (Z.ltb_spec n 8).
    - rewrite !Z.shiftl_spec_low by lia. by rewrite xorb_false_r, andb_true_r.
    - rewrite !Z.shiftl_spec, Z.lxor_spec, Z.shiftr_spec by lia. replace (n - 8 + 8) with n by lia. by rewrite andb_false_r, xorb_false_r. }
  rewrite crc_bits_lxor. pose proof (byte_of_table _ lo low_bytes Hlo) as Hl. pose proof (byte_of_table _ hi high_bytes Hhi) as Hh. cbn beta in Hl, Hh.
  apply andb_prop in Hh as [Hh Hr]. apply Z.eqb_eq in Hl, Hh. apply Z.ltb_lt in Hr. rewrite Hl, Hh.
  assert (Z.land hi 255 = hi) as ->.
  { change 255 with (Z.ones 8). rewrite Z.land_ones by lia. apply Z.mod_small. mach. }
  rewrite u16_lxor, Z.lxor_comm, (wrap_small 16 (aget crc16tab hi)). 2:{ split; [|done]. rewrite <- Hh. apply crc_bits_nonneg. }
  f_equal. apply Z.bits_inj'. intros n Hn. unfold wrap. rewrite <- Z.land_ones, Z.land_spec, Z.testbit_ones_nonneg by lia. unfold lo. rewrite !Z.shiftl_spec by lia.
  change 255 with (Z.ones 8). rewrite Z.land_spec. destruct (Z.ltb_spec n 16), (Z.ltb_spec n 8).
  - by rewrite !Z.testbit_neg_r by lia.
  - by rewrite (Z.testbit_ones_nonneg 8), (proj2 (Z.ltb_lt _ _)) by lia.
  - lia.
  - rewrite (Z.testbit_ones_nonneg 8), (proj2 (Z.ltb_ge _ _)) by lia. by rewrite !andb_false_r.
Qed.

Lemma crc16_fold l : is_bytes l -> forall c, in_u 16 c -> fold_left (crc16_step crc16tab) l c = fold_left crc_byte l c /\ in_u 16 (fold_left (crc16_step crc16tab) l c).
Proof.
  induction 1 as [|b l Hb _ IH]; intros c Hc; [done|]. cbn [fold_left]. rewrite <- crc16_step_ref by done. apply IH. apply wrap_range. lia.
Qed.

Lemma keyHashSlot_range c : in_u 14 (Z.land c 16383).
Proof. change 16383 with (Z.ones 14). rewrite Z.land_ones by lia. apply Z.mod_pos_bound. lia. Qed.

(** ** Braces *)
Lemma find_char_some ch l a b : find_char ch l = Some (a, b) -> l = a ++ ch :: b /\ ch ∉ a.
Proof.
  revert a b. induction l as [|c l IH]; intros a b; [done|]. cbn. case_if; [intros [= <- <-]; subst; split; [done|apply not_elem_of_nil]|].
  destruct (find_char ch l) as [[a' b']|]; [|done]. intros [= <- <-]. destruct (IH a' b' eq_refl) as [-> Hn]. split; [done|].
  apply not_elem_of_cons. split; [congruence|done].
Qed.

Lemma find_char_app ch a b : ch ∉ a -> find_char ch (a ++ ch :: b) = Some (a, b).
Proof.
  induction a as [|c a IH]; intros Ha; cbn; [by rewrite Z.eqb_refl|]. apply not_elem_of_cons in Ha as [Hc Ha].
  rewrite (proj2 (Z.eqb_neq c ch)) by congruence. by rewrite IH.
Qed.

Lemma find_char_none ch l : ch ∉ l -> find_char ch l = None.
Proof.
  induction l as [|c l IH]; intros Ha; cbn; [done|]. apply not_elem_of_cons in Ha as [Hc Ha].
  rewrite (proj2 (Z.eqb_neq c ch)) by congruence. by rewrite IH.
Qed.

(** A key with a non-empty tag is in the slot of the tag. *)
Lemma keyHashSlot_tag a tag b : LBRACE ∉ a -> RBRACE ∉ tag -> tag <> [] -> keyHashSlot (a ++ LBRACE :: tag ++ RBRACE :: b) = Z.land (crc16 tag) 16383.
Proof.
  intros Ha Ht Hne. unfold keyHashSlot. rewrite find_char_app, find_char_app by done. by destruct tag.
Qed.

(** ** What a literal part of a pattern matches *)
Definition literal (c : Z) : Prop := c <> STAR /\ c <> QUESTION /\ c <> OPEN /\ c <> BACKSLASH.

Lemma match_literal to_int lower lits : Forall literal lits -> forall fuel nesting rest s skip sk,
  match_loop to_int lower false fuel nesting (lits ++ rest) s skip = Some (true, sk) -> exists s', s = lits ++ s' /\ (rest = [] -> s' = []).
Proof.
  induction 1 as [|c lits (H1 & H2 & H3 & H4) Hl IH]; intros fuel nesting rest s skip sk Hm.
  { exists s. split; [done|]. intros ->. by destruct fuel, s. }
  destruct s as [|ch s]; [by destruct fuel|]. destruct fuel as [|fuel]; [done|]. cbn [match_loop app] in Hm.
  rewrite (proj2 (Z.eqb_neq c STAR)), (proj2 (Z.eqb_neq c QUESTION)), (proj2 (Z.eqb_neq c OPEN)), (proj2 (Z.eqb_neq c BACKSLASH)) in Hm by done.
  assert ((if same to_int lower false c ch then match s with [] => Some (match skip_stars (lits ++ rest) with [] => true | _ => false end, skip)
    | _ => match_loop to_int lower false fuel nesting (lits ++ rest) s skip end else Some (false, skip)) = Some (true, sk)) as Hm'.
  { by destruct (lits ++ rest). }
  unfold same in Hm'. destruct (Z.eqb_spec c ch) as [<-|]; [|done]. destruct s as [|x s].
  - destruct lits as [|y lits]; [exists []|].
    + split; [done|]. done.
    + apply Forall_cons in Hl as [(Hy & _) _]. cbn [skip_stars app] in Hm'. by rewrite (proj2 (Z.eqb_neq y STAR)) in Hm' by done.
  - destruct (IH _ _ _ _ _ _ Hm') as (s' & -> & Hr). exists s'. by split.
Qed.

(** ** The scan of a pattern *)
Inductive scan_state : Z -> bytes -> Prop :=
  | scan_none pre : LBRACE ∉ pre -> scan_state (- 1) pre
  | scan_open a t : LBRACE ∉ a -> RBRACE ∉ t -> scan_state (alen a) (a ++ LBRACE :: t)
  | scan_empty a b : LBRACE ∉ a -> scan_state (- 2) (a ++ LBRACE :: RBRACE :: b).

(** The whole key is hashed when no tag was found in it. *)
Lemma scan_whole s pre : scan_state s pre -> keyHashSlot pre = Z.land (crc16 pre) 16383.
Proof.
  intros [? Hn|a t Ha Ht|a b Ha]; unfold keyHashSlot; [by rewrite find_char_none|by rewrite find_char_app, find_char_none|by rewrite find_char_app].
Qed.

Lemma pattern_loop_sound pattern rest : forall pre i s, pattern = pre ++ rest -> alen pre = i -> Forall literal pre -> scan_state s pre ->
  pattern_loop pattern rest i s <> - 1 ->
  exists L R, pattern = L ++ R /\ Forall literal L /\ forall s', (R = [] -> s' = []) -> keyHashSlot (L ++ s') = pattern_loop pattern rest i s.
Proof.
  induction rest as [|c rest IH]; intros pre i s Hp Hi Hlit Hs Hne; cbn [pattern_loop] in *.
  { exists pre, []. split; [done|]. split; [done|]. intros s' ->; [|done]. rewrite app_nil_r in *. rewrite Hp. by apply scan_whole in Hs. }
  case_if; [done|]. case_if; [done|].
  assert (Forall literal (pre ++ [c])) as Hlit'.
  { apply Forall_app. split; [done|]. constructor; [|done]. repeat split; congruence. }
  assert (pattern = (pre ++ [c]) ++ rest) as Hp' by (by rewrite <- app_assoc). assert (alen (pre ++ [c]) = i + 1) as Hi' by (by rewrite alen_app, Hi).
  assert (forall s', scan_state s' (pre ++ [c]) -> pattern_loop pattern rest (i + 1) s' <> - 1 ->
    exists L R, pattern = L ++ R /\ Forall literal L /\ forall s1, (R = [] -> s1 = []) -> keyHashSlot (L ++ s1) = pattern_loop pattern rest (i + 1) s') as IH'.
  { intros s' Hs' Hne'. by apply (IH (pre ++ [c])). }
  clear IH. inversion Hs as [pre' Hn|a t Ha Ht|a b Ha]; subst pre s.
  - change (- 1 =? - 1) with true in *. change (0 <=? - 1) with false in *. cbn [andb] in *. destruct (Z.eqb_spec c LBRACE) as [->|Hc].
    + apply IH'; [|done]. rewrite <- Hi. apply (scan_open pre' []); [done|apply not_elem_of_nil].
    + apply IH'; [|done]. apply scan_none. rewrite elem_of_app, list_elem_of_singleton. intros [?|?]; [done|congruence].
  - pose proof (alen_nonneg a). rewrite (proj2 (Z.eqb_neq (alen a) (- 1))), (proj2 (Z.leb_le 0 _)) in * by lia. cbn [andb] in *.
    rewrite alen_app, alen_cons in Hi. destruct (Z.eqb_spec c RBRACE) as [->|Hc]; cbn [andb] in *.
    + destruct (Z.eqb_spec i (alen a + 1)) as [Hia|Hia].
      * apply IH'; [|done]. assert (t = []) as -> by (destruct t; [done|]; rewrite alen_cons in Hi; pose proof (alen_nonneg t); lia).
        rewrite <- app_assoc. by apply (scan_empty a []).
      * exists (a ++ LBRACE :: t ++ [RBRACE]), rest. split; [rewrite Hp; by list_simplifier|].
        split; [by rewrite <- app_assoc in Hlit'|]. intros s' _.
        replace ((a ++ LBRACE :: t ++ [RBRACE]) ++ s') with (a ++ LBRACE :: t ++ RBRACE :: s') by by list_simplifier. rewrite Hp.
        rewrite keyHashSlot_tag; [|done|done|intros ->; change (alen (@nil Z)) with 0 in Hi; lia].
        do 2 f_equal. replace (Z.to_nat (alen a + 1)) with (S (length a)) by (unfold alen; lia). replace (Z.to_nat (i - alen a - 1)) with (length t) by (unfold alen in *; lia).
        replace ((a ++ LBRACE :: t) ++ RBRACE :: rest) with ((a ++ [LBRACE]) ++ t ++ RBRACE :: rest) by by list_simplifier. rewrite drop_app_length' by (rewrite length_app; cbn; lia).
        by rewrite take_app_length.
    + apply IH'; [|done]. rewrite <- app_assoc. apply scan_open; [done|]. rewrite elem_of_app, list_elem_of_singleton. intros [?|?]; [done|congruence].
  - change (- 2 =? - 1) with false in *. change (0 <=? - 2) with false in *. cbn [andb] in *. apply IH'; [|done]. rewrite <- app_assoc. by apply scan_empty.
Qed.

(** C35. Slots.  [crc16] is the XMODEM checksum, so every slot is below 16384;
    keys with the same non-empty tag are in the same slot; and when a pattern
    has a slot, every key the matcher accepts for it is in that slot, so that a
    KEYS or SCAN that visits one slot misses nothing. *)
Theorem slots_correct (to_int lower : Z -> Z) :
  (forall buf, is_bytes buf -> crc16 buf = crc_ref buf) /\
  (forall key, 0 <= keyHashSlot key < 16384) /\
  (forall a b a' b' tag, LBRACE ∉ a -> LBRACE ∉ a' -> RBRACE ∉ tag -> tag <> [] ->
   keyHashSlot (a ++ LBRACE :: tag ++ RBRACE :: b) = keyHashSlot (a' ++ LBRACE :: tag ++ RBRACE :: b')) /\
  (forall pattern key, patternHashSlot pattern <> - 1 -> stringmatchlen to_int lower false pattern key = Some true ->
   keyHashSlot key = patternHashSlot pattern).
Proof.
  split; [|split; [|split]].
  - intros buf Hb. unfold crc16, crc_ref. apply crc16_fold; [done|mach].
  - intros key. pose proof (fun c => keyHashSlot_range c : 0 <= Z.land c 16383 < 16384) as Hr. unfold keyHashSlot. repeat case_match; apply Hr.
  - intros. by rewrite !keyHashSlot_tag.
  - intros pattern key Hne Hm. unfold patternHashSlot in *.
    destruct (pattern_loop_sound pattern pattern [] 0 (- 1)) as (L & R & -> & HL & Hslot); [done|done|constructor|apply scan_none, not_elem_of_nil|done|].
    unfold stringmatchlen, stringmatchlen_impl in Hm. cbn [Z.ltb Z.compare] in Hm.
    destruct (match_loop to_int lower false (length (L ++ R)) 0 (L ++ R) key false) as [[m sk]|] eqn:Hml; [|done]. injection Hm as ->.
    destruct (match_literal to_int lower L HL _ _ _ _ _ _ Hml) as (s' & -> & Hs'). by apply Hslot.
Qed.

(** The pattern [user:{42}:*] and the key [user:{42}:name]. *)
Definition tagged : bytes := [117; 58; 123; 52; 50; 125; 58].

Lemma slots_correct_witness :
  stringmatchlen (fun x => x) (fun x => x) false (tagged ++ [42]) (tagged ++ [110]) = Some true /\
  keyHashSlot (tagged ++ [110]) = 8000 /\ patternHashSlot (tagged ++ [42]) = 8000.
Proof.
  destruct (slots_correct (fun x => x) (fun x => x)) as (_ & _ & _ & Hp). split; [by vm_compute|]. split; [|by vm_compute].
  transitivity (patternHashSlot (tagged ++ [42])); [|by vm_compute]. apply Hp; by vm_compute.
Defined.

(** The published check value: "123456789" gives 31C3. *)
Lemma crc16_check : crc16 [49; 50; 51; 52; 53; 54; 55; 56; 57] = 0x31C3.
Proof. by vm_compute. Qed.
