(* ===== verification/ProtoDetect.v ===== *)
(** * Protocol detection (src/src/network/protocol_detect.c)

    The protocol of a connection from the bytes received so far.  [data] holds
    the [len] bytes.  The answer is 0 when the protocol is known, 1 when more
    bytes are needed and -1 when it is none; the theorems say what more bytes
    can do to an answer. *)
From Stdlib Require Import Ascii String.
From S2P Require Import Prelude WebSocket.

Inductive NexProtocol :=
  | NEX_PROTO_UNKNOWN | NEX_PROTO_RESP2 | NEX_PROTO_RESP3 | NEX_PROTO_WEBSOCKET | NEX_PROTO_GRAPHQL | NEX_PROTO_GRPC | NEX_PROTO_HTTP_REST.
#[export] Instance NexProtocol_eq_dec : EqDecision NexProtocol.
Proof. solve_decision. Defined.

Definition protocol_name (p : NexProtocol) : bytes :=
  bytes_of (match p with
  | NEX_PROTO_RESP2 => "RESP2" | NEX_PROTO_RESP3 => "RESP3" | NEX_PROTO_WEBSOCKET => "WebSocket" | NEX_PROTO_GRAPHQL => "GraphQL"
  | NEX_PROTO_GRPC => "gRPC" | NEX_PROTO_HTTP_REST => "HTTP-REST" | NEX_PROTO_UNKNOWN => "Unknown"
  end).

Record ProtoDetectResult := mkDetect { protocol : NexProtocol; need_more_data : bool; is_tls : bool; version : bytes }.

Definition starts_with (data prefix : bytes) : bool :=
  if alen data <? alen prefix then false else bytes_eqb (take (List.length prefix) data) prefix.

Definition lower (c : Z) : Z := if (65 <=? c) && (c <=? 90) then c + 32 else c.

Fixpoint header_at (data header : bytes) {struct header} : bool :=
  match header, data with
  | [], _ => true
  | b :: header, a :: data => if lower a =? lower b then header_at data header else false
  | _ :: _, [] => false
  end.

Definition contains_header (data header : bytes) : bool :=
  if alen data <? alen header then false
  else existsb (fun i => header_at (drop i data) header) (seq 0 (S (List.length data - List.length header))).

Definition CRLF2 : bytes := [13; 10; 13; 10].
Definition METHODS : list bytes :=
  [bytes_of "GET "; bytes_of "POST "; bytes_of "PUT "; bytes_of "DELETE "; bytes_of "OPTIONS "; bytes_of "HEAD "].
Definition PRI : bytes := bytes_of "PRI * HTTP/2.0".
Definition resp2_types : bytes := bytes_of "*$+-:".
Definition resp3_extras : bytes := bytes_of "_,#!=>|~%".

Definition more (tls : bool) : Z * ProtoDetectResult := (1, mkDetect NEX_PROTO_UNKNOWN true tls []).
Definition known (p : NexProtocol) (v : string) : Z * ProtoDetectResult := (0, mkDetect p false false (bytes_of v)).

Definition is_http (data : bytes) : bool := existsb (starts_with data) METHODS.
Definition detect_http (data : bytes) : Z * ProtoDetectResult :=
  let has_headers_end := (4 <=? alen data) && found data CRLF2 in
  if negb has_headers_end && (alen data <? 16) then more false
  else if contains_header data (bytes_of "upgrade: websocket") || contains_header data (bytes_of "upgrade:websocket") then
    if contains_header data (bytes_of "/graphql") || contains_header data (bytes_of "graphql-ws") || contains_header data (bytes_of "graphql-transport-ws")
    then known NEX_PROTO_GRAPHQL "graphql-ws" else known NEX_PROTO_WEBSOCKET "RFC6455"
  else known NEX_PROTO_HTTP_REST "HTTP/1.1".

Definition detect_resp (c : Z) : option (Z * ProtoDetectResult) :=
  if c =? 0 then None
  else if bool_decide (c ∈ resp3_extras) then Some (known NEX_PROTO_RESP3 "3")
  else if bool_decide (c ∈ resp2_types) then Some (known NEX_PROTO_RESP2 "2")
  else if (65 <=? c) && (c <=? 90) then Some (known NEX_PROTO_RESP2 "2-inline")
  else None.

Definition protocol_detect (data : bytes) : Z * ProtoDetectResult :=
  match data with
  | [] => more false
  | c :: _ =>
      if (c =? 0x16) && (3 <=? alen data) then more true
      else if starts_with data PRI then known NEX_PROTO_GRPC "HTTP/2"
      else if is_http data then detect_http data
      else
        match detect_resp c with
        | Some r => r
        | None => if alen data <? 16 then more false else (- 1, mkDetect NEX_PROTO_UNKNOWN false false [])
        end
  end.

(** ** Searching *)
Definition same_letters (b h : bytes) : Prop := lower <$> b = lower <$> h.

Lemma header_at_spec h : forall d, header_at d h = true <-> exists b c, d = b ++ c /\ same_letters b h.
Proof.
  unfold same_letters. induction h as [|x h IH]; intros d; cbn.
  - split; [|by intros _]. intros _. exists [], d. by split.
  - destruct d as [|a d].
    + split; [done|]. intros (b & c & Hd & Hs). destruct b; [done|discriminate].
    + destruct (Z.eqb_spec (lower a) (lower x)) as [Ha|Ha].
      * rewrite IH. split.
        -- intros (b & c & -> & Hb). exists (a :: b), c. split; [done|]. cbn. by rewrite Ha, Hb.
        -- intros ([|y b] & c & Hd & Hs); [done|]. injection Hd as <- ->. injection Hs as _ Hs. by exists b, c.
      * split; [done|]. intros ([|y b] & c & Hd & Hs); [done|]. injection Hd as <- _. injection Hs as Hs _. done.
Qed.

(** The loops find a header exactly when it occurs, up to the case of letters. *)
Lemma contains_header_spec d h : contains_header d h = true <-> exists a b c, d = a ++ b ++ c /\ same_letters b h.
Proof.
  unfold contains_header. split.
  - destruct (_ <? _); [done|]. intros (i & _ & Hi)%existsb_exists. apply header_at_spec in Hi as (b & c & Hd & Hs).
    exists (take i d), b, c. split; [|done]. by rewrite <- Hd, take_drop.
  - intros (a & b & c & -> & Hs). assert (List.length b = List.length h) as Hl by (apply (f_equal List.length) in Hs; by rewrite !length_fmap in Hs).
    rewrite (proj2 (Z.ltb_ge _ _)) by (rewrite !alen_app; unfold alen; lia). apply existsb_exists. exists (List.length a). split.
    + apply in_seq. rewrite !length_app. lia.
    + rewrite drop_app_length. apply header_at_spec. by exists b, c.
Qed.

Lemma memmem_spec n : forall d pos, is_Some (memmem d n pos) <-> exists a c, d = a ++ n ++ c.
Proof.
  induction d as [|x d IH]; intros pos; cbn; destruct (bytes_eqb _ n) eqn:E.
  - apply bytes_eqb_eq in E. rewrite take_nil in E. subst n. split; [by exists [], []|by eexists].
  - split; [by intros []|]. intros (a & c & Hd). destruct a, n; try done; discriminate.
  - apply bytes_eqb_eq in E. split; [|by eexists]. intros _. exists [], (drop (List.length n) (x :: d)). cbn [app]. rewrite <- E at 1. by rewrite take_drop.
  - rewrite IH. split.
    + intros (a & c & ->). by exists (x :: a), c.
    + intros ([|y a] & c & Hd); [|injection Hd as _ ->; by exists a, c]. cbn in Hd. rewrite Hd, take_app_length in E.
      by rewrite (proj2 (bytes_eqb_eq n n) eq_refl) in E.
Qed.

Lemma found_spec d n : found d n = true <-> exists a c, d = a ++ n ++ c.
Proof. unfold found. rewrite <- (memmem_spec n d 0). destruct (memmem d n 0); split; intros H; [by eexists|done|done|by destruct H]. Qed.

Lemma contains_app d r h : contains_header d h = true -> contains_header (d ++ r) h = true.
Proof. rewrite !contains_header_spec. intros (a & b & c & -> & Hs). exists a, b, (c ++ r). by rewrite <- !app_assoc. Qed.

Lemma found_app d r n : found d n = true -> found (d ++ r) n = true.
Proof. rewrite !found_spec. intros (a & c & ->). exists a, (c ++ r). by rewrite <- !app_assoc. Qed.

Lemma found_contains d n : found d n = true -> contains_header d n = true.
Proof. rewrite found_spec, contains_header_spec. intros (a & c & ->). by exists a, n, c. Qed.

(** ** Prefixes *)
Definition cut_short (data sig : bytes) : Prop := exists x, x <> [] /\ sig = data ++ x.

Lemma starts_with_spec d p : starts_with d p = true <-> exists r, d = p ++ r.
Proof.
  unfold starts_with. split.
  - destruct (_ <? _); [done|]. intros E%bytes_eqb_eq. exists (drop (List.length p) d). rewrite <- E at 1. by rewrite take_drop.
  - intros (r & ->). rewrite (proj2 (Z.ltb_ge _ _)) by (rewrite alen_app; pose proof (alen_nonneg r); lia).
    apply bytes_eqb_eq. by rewrite take_app_length.
Qed.

Lemma starts_with_app d r p : ~ cut_short d p -> starts_with (d ++ r) p = starts_with d p.
Proof.
  intros Hn. apply eq_bool_prop_intro. rewrite !Is_true_true, !starts_with_spec. split.
  - intros (x & Hx). apply app_eq_inv in Hx as [(k & -> & ->)|(k & -> & ->)]; [by exists k|].
    destruct k as [|y k]; [exists []; by rewrite !app_nil_r|]. exfalso. apply Hn. by exists (y :: k).
  - intros (x & ->). exists (x ++ r). by rewrite app_assoc.
Qed.

(** The bytes are the beginning of a method or of the HTTP/2 preface. *)
Definition premature (data : bytes) : Prop := exists sig, sig ∈ PRI :: METHODS /\ cut_short data sig.

Lemma is_http_app d r : ~ premature d -> is_http (d ++ r) = is_http d.
Proof.
  intros Hn. assert (forall l, l ⊆ METHODS -> existsb (starts_with (d ++ r)) l = existsb (starts_with d) l) as H; [|by apply H].
  induction l as [|p l IH]; intros Hl; [done|]. cbn. rewrite starts_with_app, IH; [done| |].
  - intros x Hx. apply Hl. by right.
  - intros Hc. apply Hn. exists p. split; [|done]. right. apply Hl. by left.
Qed.

(** ** What more bytes do to an answer *)

(** A decision about an HTTP request may still be refined. *)
Definition refined (p q : NexProtocol) : Prop :=
  q = p \/ (p = NEX_PROTO_HTTP_REST /\ (q = NEX_PROTO_WEBSOCKET \/ q = NEX_PROTO_GRAPHQL)) \/ (p = NEX_PROTO_WEBSOCKET /\ q = NEX_PROTO_GRAPHQL).

Lemma orb_app d r h1 h2 : contains_header d h1 || contains_header d h2 = true -> contains_header (d ++ r) h1 || contains_header (d ++ r) h2 = true.
Proof. intros [H|H]%orb_true_iff; apply orb_true_iff; [left|right]; by apply contains_app. Qed.

Lemma detect_http_cases d : detect_http d = more false \/ detect_http d = known NEX_PROTO_GRAPHQL "graphql-ws" \/
  detect_http d = known NEX_PROTO_WEBSOCKET "RFC6455" \/ detect_http d = known NEX_PROTO_HTTP_REST "HTTP/1.1".
Proof. unfold detect_http. destruct (_ && _); [by left|]. destruct (_ || _); [destruct (_ || _)|]; tauto. Qed.

Lemma ended_app d r : negb ((4 <=? alen d) && found d CRLF2) && (alen d <? 16) = false ->
  negb ((4 <=? alen (d ++ r)) && found (d ++ r) CRLF2) && (alen (d ++ r) <? 16) = false.
Proof.
  intros E. apply andb_false_iff in E as [E|E].
  - apply negb_false_iff, andb_true_iff in E as [E1 E2]. rewrite (found_app d r) by done.
    rewrite (proj2 (Z.leb_le 4 _)); [done|]. apply Z.leb_le in E1. rewrite alen_app. pose proof (alen_nonneg r). lia.
  - apply Z.ltb_ge in E. rewrite (proj2 (Z.ltb_ge (alen (d ++ r)) 16)); [apply andb_false_r|]. rewrite alen_app. pose proof (alen_nonneg r). lia.
Qed.

Lemma detect_http_app d r res : detect_http d = (0, res) ->
  exists res', detect_http (d ++ r) = (0, res') /\ refined (protocol res) (protocol res').
Proof.
  unfold detect_http at 1. destruct (negb _ && _) eqn:E; [done|]. apply (ended_app d r) in E. unfold detect_http. rewrite E.
  destruct (contains_header d _ || _) eqn:Hu.
  - rewrite (orb_app _ _ _ _ Hu). destruct (contains_header d (bytes_of "/graphql") || _ || _) eqn:Hg; intros [= <-].
    + assert (contains_header (d ++ r) (bytes_of "/graphql") || contains_header (d ++ r) (bytes_of "graphql-ws") || contains_header (d ++ r) (bytes_of "graphql-transport-ws") = true) as ->.
      { apply orb_true_iff in Hg as [Hg|Hg]; [by rewrite (orb_app _ _ _ _ Hg)|]. rewrite (contains_app _ _ _ Hg). apply orb_true_r. }
      eexists. split; [done|by left].
    + destruct (contains_header (d ++ r) _ || _ || _); eexists; (split; [done|]); [by right; right|by left].
  - intros [= <-]. destruct (contains_header (d ++ r) (bytes_of "upgrade: websocket") || _); [|by eexists; split; [done|left]].
    destruct (_ || _ || _); eexists; (split; [done|]); right; left; (split; [done|]); [by right|by left].
Qed.

Lemma starts_head c d x p : starts_with (c :: d) (x :: p) = true -> c = x.
Proof. rewrite starts_with_spec. intros (r & Hr). by injection Hr. Qed.

(** A TLS handshake record is never more than that. *)
Lemma detect_tls d : exists b, protocol_detect (0x16 :: d) = more b.
Proof.
  unfold protocol_detect. destruct (3 <=? _) eqn:E3; [by eexists|]. cbn [andb Z.eqb Pos.eqb].
  destruct (starts_with (0x16 :: d) PRI) eqn:E1; [by apply starts_head in E1|].
  assert (is_http (0x16 :: d) = false) as ->.
  { apply not_true_iff_false. intros (m & Hm & Hs)%existsb_exists. repeat (destruct Hm as [<-|Hm]; [by apply starts_head in Hs|]). done. }
  change (detect_resp 0x16) with (@None (Z * ProtoDetectResult)). cbn match. apply Z.leb_gt in E3. rewrite (proj2 (Z.ltb_lt _ 16)) by lia. by eexists.
Qed.

(** C19. Protocol detection on a growing buffer.  Unless the bytes are only the
    beginning of a method or of the HTTP/2 preface, an answer is final: after
    more bytes the protocol is still known and is the same, except that an
    HTTP request may turn out to be a WebSocket or a GraphQL one; bytes of no
    protocol stay so.  With 16 bytes there is always an answer, unless the
    connection is TLS. *)
Theorem protocol_detect_stable data rest : ~ premature data -> data <> [] ->
  (forall res, protocol_detect data = (0, res) ->
     exists res', protocol_detect (data ++ rest) = (0, res') /\ refined (protocol res) (protocol res')) /\
  (forall res, protocol_detect data = (- 1, res) -> protocol_detect (data ++ rest) = (- 1, res)) /\
  (16 <= alen data -> (protocol_detect data).1 = 1 -> data !! 0%nat = Some 0x16).
Proof.
  intros Hp Hne. destruct data as [|c d]; [done|]. clear Hne.
  assert (starts_with ((c :: d) ++ rest) PRI = starts_with (c :: d) PRI) as Hpri.
  { apply starts_with_app. intros Hc. apply Hp. exists PRI. split; [by left|done]. }
  pose proof (is_http_app _ rest Hp) as Hht.
  assert (alen (c :: d) <= alen ((c :: d) ++ rest)) as Hle by (rewrite alen_app; pose proof (alen_nonneg rest); lia).
  assert (forall r, detect_resp c = Some r -> r.1 = 0 /\ is_tls r.2 = false) as Hresp.
  { unfold detect_resp. intros r. repeat (case_match; try done); by intros [= <-]. }
  destruct (Z.eq_dec c 0x16) as [->|Hc].
  { destruct (detect_tls d) as [x Hx], (detect_tls (d ++ rest)) as [y Hy]. rewrite Hx. split_and!; [done|done|by intros _]. }
  apply Z.eqb_neq in Hc. cbn [app] in *. unfold protocol_detect. rewrite Hc, Hpri, Hht. cbn [andb].
  destruct (starts_with (c :: d) PRI); [by split_and!; [intros ? [= <-]; eexists; (split; [done|left])|..]|].
  destruct (is_http (c :: d)).
  { split_and!; [intros res; apply (detect_http_app (c :: d) rest)| |].
    - intros res Hd. destruct (detect_http_cases (c :: d)) as [Hx|[Hx|[Hx|Hx]]]; by rewrite Hx in Hd.
    - intros Hl. unfold detect_http. rewrite (proj2 (Z.ltb_ge (alen (c :: d)) 16)), andb_false_r by done. by repeat case_match. }
  destruct (detect_resp c) as [r|] eqn:Er.
  { destruct (Hresp r eq_refl) as [H0 _]. destruct r as [z res]. cbn in H0. subst z. split_and!; [|done|done]. intros res' [= ->]. eexists. split; [done|by left]. }
  split_and!.
  - intros res. by destruct (_ <? 16).
  - intros res. destruct (Z.ltb_spec (alen (c :: d)) 16); [done|]. by rewrite (proj2 (Z.ltb_ge _ 16)) by lia.
  - intros Hl. by rewrite (proj2 (Z.ltb_ge _ 16)) by done.
Qed.

(** The detector agrees with the upgrade test of the WebSocket code: a request
    that test accepts is seen as WebSocket or GraphQL as soon as there is an
    answer. *)
Theorem detect_agrees_upgrade data res : is_http data = true -> ws_detect_upgrade data = true -> protocol_detect data = (0, res) ->
  protocol res = NEX_PROTO_WEBSOCKET \/ protocol res = NEX_PROTO_GRAPHQL.
Proof.
  intros Hh Hw. assert (contains_header data (bytes_of "upgrade: websocket") || contains_header data (bytes_of "upgrade:websocket") = true) as Hu.
  { assert (forall n h, same_letters n h -> found data n = true -> contains_header data h = true) as H.
    { intros n h Hs (a & c & ->)%found_spec. apply contains_header_spec. by exists a, n, c. }
    unfold ws_detect_upgrade in Hw. destruct (_ <? _); [done|]. apply orb_true_iff in Hw as [[Hw|Hw]%orb_true_iff|Hw]; apply orb_true_iff.
    - left. by apply (H _ _ eq_refl Hw).
    - left. by apply (H _ _ eq_refl Hw).
    - right. by apply (H _ _ eq_refl Hw). }
  unfold protocol_detect. destruct data as [|c d]; [done|]. destruct (_ && _); [done|].
  destruct (starts_with (c :: d) PRI) eqn:Hp.
  { exfalso. apply starts_with_spec in Hp as (r & Hr). rewrite Hr in Hh. apply existsb_exists in Hh as (m & Hm & (r' & Hs)%starts_with_spec).
    repeat (destruct Hm as [<-|Hm]; [by vm_compute in Hs|]). done. }
  rewrite Hh. unfold detect_http. rewrite Hu. destruct (negb _ && _); [done|]. destruct (_ || _ || _); intros [= <-]; [by right|by left].
Qed.

(** ** Fragments

    The first bytes of a request can be taken for an inline command, and a
    WebSocket request whose headers are still to come for REST; a name in
    capitals is an upgrade here but not for the WebSocket code. *)
Definition request (upgrade : string) : bytes := bytes_of "GET /ws HTTP/1.1" ++ [13; 10] ++ bytes_of upgrade ++ CRLF2.

Theorem detect_fragments :
  (forall d, d ∈ [bytes_of "G"; bytes_of "GET"; bytes_of "PRI"; bytes_of "PRI * HTTP/2."] -> exists res, protocol_detect d = (0, res) /\ protocol res = NEX_PROTO_RESP2) /\
  protocol_detect (bytes_of "GET ") = more false /\
  protocol_detect (take 16 (request "Upgrade: websocket")) = known NEX_PROTO_HTTP_REST "HTTP/1.1" /\
  protocol_detect (request "Upgrade: websocket") = known NEX_PROTO_WEBSOCKET "RFC6455" /\
  protocol_detect (request "UPGRADE: WebSocket") = known NEX_PROTO_WEBSOCKET "RFC6455" /\
  ws_detect_upgrade (request "UPGRADE: WebSocket") = false.
Proof.
  split; [|by split_and!; vm_compute]. apply Forall_forall. repeat (apply Forall_cons; split; [eexists; split; vm_compute; reflexivity|]). constructor.
Qed.

(** ** Witnesses *)
Lemma protocol_detect_stable_witness :
  (exists res, protocol_detect (take 20 (request "Upgrade: websocket") ++ drop 20 (request "Upgrade: websocket")) = (0, res) /\
     refined NEX_PROTO_HTTP_REST (protocol res)) /\
  protocol_detect (calloc 16 97 ++ [1; 2]) = (- 1, mkDetect NEX_PROTO_UNKNOWN false false []).
Proof.
  assert (forall d, forallb (fun sig => negb (bytes_eqb (take (List.length d) sig) d) || bytes_eqb sig d) (PRI :: METHODS) = true -> ~ premature d) as Hnp.
  { intros d H (sig & Hin & x & Hx & ->). rewrite forallb_forall in H. apply list_elem_of_In in Hin. specialize (H _ Hin).
    rewrite take_app_length, (proj2 (bytes_eqb_eq d d) eq_refl) in H. cbn in H. apply bytes_eqb_eq in H. destruct x; [done|].
    apply (f_equal List.length) in H. rewrite length_app in H. cbn in H. lia. }
  destruct (protocol_detect_stable (take 20 (request "Upgrade: websocket")) (drop 20 (request "Upgrade: websocket"))) as (H & _).
  { by apply Hnp; vm_compute. }
  { done. }
  destruct (protocol_detect_stable (calloc 16 97) [1; 2]) as (_ & H2 & _).
  { by apply Hnp; vm_compute. }
  { done. }
  split; [by apply (H (mkDetect NEX_PROTO_HTTP_REST false false (bytes_of "HTTP/1.1"))); vm_compute|by apply H2; vm_compute].
Defined.

Lemma detect_agrees_upgrade_witness : protocol (mkDetect NEX_PROTO_WEBSOCKET false false (bytes_of "RFC6455")) = NEX_PROTO_WEBSOCKET \/ False.
Proof.
  destruct (detect_agrees_upgrade (request "Upgrade: websocket") (mkDetect NEX_PROTO_WEBSOCKET false false (bytes_of "RFC6455"))) as [H|H];
    [by vm_compute|by vm_compute|by vm_compute|by left|discriminate].
Defined.
