(* ===== verification/Hybrid.v ===== *)
(** * The hybrid memory manager (src/src/memory/hybrid.c)

    A temperature per key, kept in a hash table of 65536 chains; accesses warm
    a key, a background pass cools it and marks the cold ones as moved to the
    SSD.  [map_get]s under the lock of the table are one step; the clock and
    the allocator are arguments.  Nothing is written to the SSD by the code,
    and nothing here is: [on_ssd] is a mark.  Printing and the hit rate (a
    double) are left out. *)
From S2P Require Import Prelude.

Definition TEMP_HOT_THRESHOLD : Z := 200.
Definition TEMP_COLD_THRESHOLD : Z := 10.
Definition TEMP_COOLING_RATE : Z := 5.
Definition TEMP_MAP_BUCKETS : Z := 65536.
Definition HOUR_US : Z := 3600000000.

(** ** Data *)
Record DataTemperature := mkTemp { last_access_us : Z; access_count_24h : Z; access_count_1h : Z; temperature : Z; on_ssd : Z;
  ssd_offset : Z; ssd_size : Z }.
Record TempEntry := mkEntry { key : bytes; temp : DataTemperature }.  (* keylen = alen key *)
Record TempMap := mkMap { buckets : list (list TempEntry); count : Z }.
Record HybridStats := mkStats { promotions : Z; evictions : Z; ram_hits : Z; ssd_hits : Z }.
Record HybridManager := mkMgr { ssd_cache_size : Z; ram_limit : Z; running : bool; stats : HybridStats }.
(** The globals: a NULL pointer is [None]. *)
Record Hybrid := mkHybrid { g_hybrid_manager : option HybridManager; g_temp_map : option TempMap }.

(** ** The table *)
Definition _hash_key (k : bytes) : Z := fold_left (fun h c => u32 (Z.lxor h (u8 c) * 16777619)) k 2166136261.
Definition bucket_of (k : bytes) : Z := _hash_key k mod TEMP_MAP_BUCKETS.

Definition temp_map_create (malloc_ok calloc_ok : bool) : option TempMap :=
  if malloc_ok && calloc_ok then Some (mkMap (calloc TEMP_MAP_BUCKETS []) 0) else None.

Definition is_key (k : bytes) (e : TempEntry) : bool := (alen (key e) =? alen k) && bytes_eqb (key e) k.
Definition temp_map_get (map : TempMap) (k : bytes) : option TempEntry := find (is_key k) (aget (buckets map) (bucket_of k)).

Definition new_temp : DataTemperature := mkTemp 0 0 0 128 0 0 0.

(** The entry is the first of its chain with this key; a new one goes to the
    front.  [None]: an allocation has failed. *)
Definition temp_map_get_or_create (m1 m2 : bool) (map : TempMap) (k : bytes) : option (TempMap * TempEntry) :=
  match temp_map_get map k with
  | Some e => Some (map, e)
  | None =>
      if m1 && m2 then
        let h := bucket_of k in
        let e := mkEntry k new_temp in
        Some (mkMap (aset (buckets map) h (e :: aget (buckets map) h)) (count map +64 1), e)
      else None
  end.

(** Writing through the pointer to the entry of a key. *)
Fixpoint chain_store (k : bytes) (t : DataTemperature) (c : list TempEntry) : list TempEntry :=
  match c with
  | [] => []
  | e :: c => if is_key k e then mkEntry (key e) t :: c else e :: chain_store k t c
  end.
Definition store (map : TempMap) (k : bytes) (t : DataTemperature) : TempMap :=
  let h := bucket_of k in mkMap (aset (buckets map) h (chain_store k t (aget (buckets map) h))) (count map).

(** ** The operations *)
Definition set_stats (m : HybridManager) (s : HybridStats) : HybridManager := mkMgr (ssd_cache_size m) (ram_limit m) (running m) s.
Definition add_promotion (s : HybridStats) : HybridStats := mkStats (promotions s +64 1) (evictions s) (ram_hits s) (ssd_hits s).
Definition add_evictions (n : Z) (s : HybridStats) : HybridStats := mkStats (promotions s) (evictions s +64 n) (ram_hits s) (ssd_hits s).
Definition add_ram_hit (s : HybridStats) : HybridStats := mkStats (promotions s) (evictions s) (ram_hits s +64 1) (ssd_hits s).
Definition add_ssd_hit (s : HybridStats) : HybridStats := mkStats (promotions s) (evictions s) (ram_hits s) (ssd_hits s +64 1).

Definition set_on_ssd (t : DataTemperature) (b : Z) : DataTemperature :=
  mkTemp (last_access_us t) (access_count_24h t) (access_count_1h t) (temperature t) b (ssd_offset t) (ssd_size t).
Definition set_temperature (t : DataTemperature) (x : Z) : DataTemperature :=
  mkTemp (last_access_us t) (access_count_24h t) (access_count_1h t) x (on_ssd t) (ssd_offset t) (ssd_size t).
Definition set_count_1h (t : DataTemperature) (x : Z) : DataTemperature :=
  mkTemp (last_access_us t) (access_count_24h t) x (temperature t) (on_ssd t) (ssd_offset t) (ssd_size t).

(** An access, and whether it brings the key back from the SSD. *)
Definition warm (now : Z) (t : DataTemperature) : DataTemperature :=
  let new := temperature t + 20 in
  mkTemp now (access_count_24h t +32 1) (wrap 16 (access_count_1h t + 1)) (u8 (if 255 <? new then 255 else new)) (on_ssd t) (ssd_offset t) (ssd_size t).
Definition comes_back (t : DataTemperature) : bool := negb (on_ssd t =? 0) && (TEMP_HOT_THRESHOLD <=? temperature t).

Definition hybrid_update_temperature (now : Z) (m1 m2 : bool) (s : Hybrid) (k : bytes) : Hybrid :=
  match g_hybrid_manager s, g_temp_map s with
  | Some mgr, Some map =>
      match temp_map_get_or_create m1 m2 map k with
      | None => s
      | Some (map, e) =>
          let t := warm now (temp e) in
          if comes_back t then mkHybrid (Some (set_stats mgr (add_ssd_hit (add_promotion (stats mgr))))) (Some (store map k (set_on_ssd t 0)))
          else mkHybrid (Some (set_stats mgr (add_ram_hit (stats mgr)))) (Some (store map k t))
      end
  | _, _ => s
  end.

Definition is_cold (t : DataTemperature) : bool := (temperature t <=? TEMP_COLD_THRESHOLD) && (on_ssd t =? 0).

(** One entry in the background pass: the entry and the evictions. *)
Definition pass_temp (now : Z) (t : DataTemperature) : DataTemperature :=
  let t := set_temperature t (if TEMP_COOLING_RATE <? temperature t then temperature t - TEMP_COOLING_RATE else 0) in
  let t := if HOUR_US <? now -64 last_access_us t then set_count_1h t 0 else t in
  if is_cold t then set_on_ssd t 1 else t.
Definition pass_entry (now : Z) (e : TempEntry) : TempEntry := mkEntry (key e) (pass_temp now (temp e)).
Definition newly_cold (now : Z) (t : DataTemperature) : bool := (on_ssd t =? 0) && negb (on_ssd (pass_temp now t) =? 0).

Definition hybrid_bg_pass (now : Z) (s : Hybrid) : Hybrid :=
  match g_hybrid_manager s, g_temp_map s with
  | Some mgr, Some map =>
      if running mgr then
        let n := alen (List.filter (fun e => newly_cold now (temp e)) (concat (buckets map))) in
        mkHybrid (Some (set_stats mgr (add_evictions n (stats mgr)))) (Some (mkMap (List.map (List.map (pass_entry now)) (buckets map)) (count map)))
      else s
  | _, _ => s
  end.

Definition hybrid_init (alloc_ok open_ok : bool) (map_malloc map_calloc : bool) (ssd_mb ram_mb : Z) (s : Hybrid) : Hybrid * Z :=
  match g_hybrid_manager s with
  | Some _ => (s, 0)
  | None =>
      if negb alloc_ok || negb open_ok then (s, - 1)
      else
        match temp_map_create map_malloc map_calloc with
        | None => (mkHybrid None None, - 1)
        | Some map =>
            (mkHybrid (Some (mkMgr (ssd_mb *64 1024 *64 1024) (ram_mb *64 1024 *64 1024) true (mkStats 0 0 0 0))) (Some map), 0)
        end
  end.

(** The two loops of the eviction stop as soon as enough is freed. *)
Fixpoint evict_chain (target freed n : Z) (c : list TempEntry) : list TempEntry * Z * Z :=
  match c with
  | [] => ([], freed, n)
  | e :: c' =>
      if freed <? target then
        if is_cold (temp e) then
          let '(c', freed, n) := evict_chain target (freed +64 256) (n + 1) c' in (mkEntry (key e) (set_on_ssd (temp e) 1) :: c', freed, n)
        else let '(c', freed, n) := evict_chain target freed n c' in (e :: c', freed, n)
      else (c, freed, n)
  end.
Fixpoint evict_buckets (target freed n : Z) (bs : list (list TempEntry)) : list (list TempEntry) * Z * Z :=
  match bs with
  | [] => ([], freed, n)
  | c :: bs' =>
      if freed <? target then
        let '(c, freed, n) := evict_chain target freed n c in
        let '(bs', freed, n) := evict_buckets target freed n bs' in (c :: bs', freed, n)
      else (bs, freed, n)
  end.

Definition hybrid_evict_cold_data (target_free_mb : Z) (s : Hybrid) : Hybrid * Z :=
  match g_hybrid_manager s, g_temp_map s with
  | Some mgr, Some map =>
      let target := target_free_mb *64 1024 *64 1024 in
      let '(bs, freed, n) := evict_buckets target 0 0 (buckets map) in
      (mkHybrid (Some (set_stats mgr (add_evictions n (stats mgr)))) (Some (mkMap bs (count map))), freed / 1024 / 1024)
  | _, _ => (s, - 1)
  end.

Definition hybrid_promote_hot_data (s : Hybrid) (k : bytes) : Hybrid * Z :=
  match g_hybrid_manager s, g_temp_map s with
  | Some mgr, Some map =>
      match temp_map_get map k with
      | Some e =>
          if negb (on_ssd (temp e) =? 0) then
            (mkHybrid (Some (set_stats mgr (add_promotion (stats mgr)))) (Some (store map k (set_temperature (set_on_ssd (temp e) 0) TEMP_HOT_THRESHOLD))), 0)
          else (s, - 1)
      | None => (s, - 1)
      end
  | _, _ => (s, - 1)
  end.

(** The copied temperature, or -1. *)
Definition hybrid_get_temperature (s : Hybrid) (k : bytes) : option DataTemperature :=
  map ← g_temp_map s; temp <$> temp_map_get map k.

Definition hybrid_is_on_ssd (s : Hybrid) (k : bytes) : Z :=
  match g_temp_map s with
  | Some map => match temp_map_get map k with Some e => if negb (on_ssd (temp e) =? 0) then 1 else 0 | None => 0 end
  | None => 0
  end.

Definition hybrid_get_stats (s : Hybrid) : HybridStats := match g_hybrid_manager s with Some m => stats m | None => mkStats 0 0 0 0 end.

(** The table of temperatures stays, without a manager. *)
Definition hybrid_shutdown (s : Hybrid) : Hybrid := match g_hybrid_manager s with Some _ => mkHybrid None (g_temp_map s) | None => s end.

(** ** The table as a finite map *)
Definition entries (map : TempMap) : list TempEntry := concat (buckets map).
Definition pair_of (e : TempEntry) : bytes * DataTemperature := (key e, temp e).
Definition view (map : TempMap) : gmap bytes DataTemperature := list_to_map (pair_of <$> entries map).

Record inv (map : TempMap) : Prop := {
  inv_buckets : alen (buckets map) = TEMP_MAP_BUCKETS;
  inv_placed i e : 0 <= i < TEMP_MAP_BUCKETS -> e ∈ aget (buckets map) i -> bucket_of (key e) = i;
  inv_keys : NoDup (key <$> entries map);
  inv_count : count map = u64 (alen (entries map)) }.

Lemma bucket_range k : 0 <= bucket_of k < TEMP_MAP_BUCKETS.
Proof. apply Z.mod_pos_bound. done. Qed.

Lemma is_key_eq k e : is_key k e = true <-> key e = k.
Proof.
  unfold is_key. rewrite andb_true_iff, bytes_eqb_eq, Z.eqb_eq. split; [by intros [_ ?]|by intros ->].
Qed.

Lemma chain_concat_split (bs : list (list TempEntry)) h : 0 <= h < alen bs -> exists rest,
  concat bs ≡ₚ aget bs h ++ rest /\ forall c, concat (aset bs h c) ≡ₚ c ++ rest.
Proof.
  intros Hr. pose proof (aget_lookup bs h Hr) as Hl. exists (concat (take (Z.to_nat h) bs ++ drop (S (Z.to_nat h)) bs)). split.
  - rewrite <- (take_drop_middle _ _ _ Hl) at 1. rewrite !concat_app. cbn. rewrite !app_assoc. apply Permutation_app_tail, Permutation_app_comm.
  - intros c. unfold aset. rewrite insert_take_drop by (by eapply lookup_lt_Some). rewrite !concat_app. cbn. rewrite !app_assoc.
    apply Permutation_app_tail, Permutation_app_comm.
Qed.

Lemma entry_bucket map e : inv map -> e ∈ entries map <-> e ∈ aget (buckets map) (bucket_of (key e)).
Proof.
  intros Hi. pose proof (bucket_range (key e)) as Hr. pose proof (inv_buckets _ Hi) as Hb. split.
  - intros (c & Hc & He)%list_elem_of_In%in_concat. apply list_elem_of_In, list_elem_of_lookup in Hc as [i Hc]. apply list_elem_of_In in He.
    pose proof (lookup_lt_Some _ _ _ Hc). assert (aget (buckets map) (Z.of_nat i) = c) as Hg by (unfold aget; rewrite Nat2Z.id; by apply list_lookup_total_correct).
    rewrite (inv_placed _ Hi (Z.of_nat i) e); [by rewrite Hg|unfold alen in *; lia|by rewrite Hg].
  - intros He. destruct (chain_concat_split (buckets map) (bucket_of (key e))) as (rest & Hp & _); [lia|]. unfold entries. rewrite Hp. apply elem_of_app. by left.
Qed.

Lemma pair_keys (l : list TempEntry) : (pair_of <$> l).*1 = key <$> l.
Proof. by rewrite <- list_fmap_compose. Qed.

Lemma view_elem map k t : inv map -> view map !! k = Some t <-> mkEntry k t ∈ entries map.
Proof.
  intros Hi. unfold view. rewrite <- elem_of_list_to_map by (rewrite pair_keys; apply Hi). rewrite list_elem_of_fmap. split.
  - intros ([k' t'] & [= -> ->] & He). done.
  - intros He. by exists (mkEntry k t).
Qed.

Lemma find_chain k (c : list TempEntry) : match find (is_key k) c with
  | Some e => key e = k /\ e ∈ c
  | None => forall e, e ∈ c -> key e <> k
  end.
Proof.
  destruct (find _ c) as [e|] eqn:E.
  - apply find_some in E as [Hin Hk%is_key_eq]. split; [done|]. by apply list_elem_of_In.
  - intros e He Hk%is_key_eq. apply list_elem_of_In in He. by rewrite (find_none _ _ E e He) in Hk.
Qed.

(** Looking a key up is looking it up in the map. *)
Lemma temp_map_get_spec map k : inv map -> temp <$> temp_map_get map k = view map !! k /\
  forall e, temp_map_get map k = Some e -> key e = k.
Proof.
  intros Hi. unfold temp_map_get. pose proof (find_chain k (aget (buckets map) (bucket_of k))) as H.
  destruct (find _ _) as [e|]; cbn.
  - destruct H as [<- He]. split; [|by intros ? [= <-]]. symmetry. apply view_elem; [done|]. destruct e as [k t]. by apply entry_bucket.
  - split; [|done]. symmetry. destruct (view map !! k) as [t|] eqn:Hv; [|done]. apply view_elem in Hv; [|done].
    apply entry_bucket in Hv; [|done]. by destruct (H _ Hv).
Qed.

(** ** Changing the table *)
Lemma chain_store_perm k t (c : list TempEntry) e : find (is_key k) c = Some e -> exists c0,
  c ≡ₚ e :: c0 /\ chain_store k t c ≡ₚ mkEntry k t :: c0.
Proof.
  induction c as [|x c IH]; cbn; [done|]. destruct (is_key k x) eqn:Hk.
  - intros [= <-]. apply is_key_eq in Hk. exists c. split; [done|]. by rewrite Hk.
  - intros (c0 & H1 & H2)%IH. exists (x :: c0). split; [by rewrite H1; apply perm_swap|]. etransitivity; [by apply perm_skip, H2|apply perm_swap].
Qed.

Lemma perm_view map l : inv map -> entries map ≡ₚ l -> view map = list_to_map (pair_of <$> l).
Proof. intros Hi Hp. apply list_to_map_proper; [rewrite pair_keys; apply Hi|by apply fmap_Permutation]. Qed.

Lemma chain_inv map h c n : inv map -> 0 <= h < TEMP_MAP_BUCKETS -> (forall e, e ∈ c -> bucket_of (key e) = h) ->
  forall map', map' = mkMap (aset (buckets map) h c) n -> NoDup (key <$> entries map') -> n = u64 (alen (entries map')) -> inv map'.
Proof.
  intros Hi Hh Hc map' -> Hn Hcount. pose proof (inv_buckets _ Hi) as Hb. split; cbn; [by rewrite alen_aset| |done|done].
  intros i e Hr. destruct (Z.eq_dec i h) as [->|Hne]; [rewrite aget_aset_eq by lia; apply Hc|].
  rewrite aget_aset_ne by lia. by apply Hi.
Qed.

Lemma store_spec map k t e : inv map -> temp_map_get map k = Some e -> inv (store map k t) /\ view (store map k t) = <[k := t]> (view map).
Proof.
  intros Hi E. pose proof (bucket_range k) as Hr. pose proof (inv_buckets _ Hi) as Hb. destruct (temp_map_get_spec map k Hi) as [_ Hk]. specialize (Hk e E).
  destruct (chain_store_perm k t _ e E) as (c0 & Hc & Hs). destruct (chain_concat_split (buckets map) (bucket_of k)) as (rest & Hp & Ha); [lia|].
  assert (entries map ≡ₚ e :: (c0 ++ rest)) as H1 by (unfold entries; by rewrite Hp, Hc).
  assert (entries (store map k t) ≡ₚ mkEntry k t :: (c0 ++ rest)) as H2 by (unfold entries, store; cbn; by rewrite Ha, Hs).
  assert (key <$> entries (store map k t) ≡ₚ key <$> entries map) as H3 by (rewrite H1, H2; cbn; by rewrite Hk).
  assert (inv (store map k t)) as Hi'.
  { eapply (chain_inv map (bucket_of k) _ (count map) Hi Hr); [|done| |].
    - intros x Hx. rewrite Hs in Hx. apply elem_of_cons in Hx as [->|Hx]; [done|]. apply (inv_placed _ Hi); [done|]. rewrite Hc. by right.
    - rewrite H3. apply Hi.
    - rewrite (inv_count _ Hi). f_equal. unfold alen. apply Permutation_length in H3. rewrite !length_fmap in H3. lia. }
  split; [done|]. rewrite (perm_view _ _ Hi' H2), (perm_view _ _ Hi H1). cbn. by rewrite Hk, insert_insert_eq.
Qed.

Lemma hybrid_insert_spec map k t : inv map -> view map !! k = None -> forall map',
  map' = mkMap (aset (buckets map) (bucket_of k) (mkEntry k t :: aget (buckets map) (bucket_of k))) (count map +64 1) ->
  inv map' /\ view map' = <[k := t]> (view map) /\ temp_map_get map' k = Some (mkEntry k t).
Proof.
  intros Hi Hv map' Em. pose proof (bucket_range k) as Hr. pose proof (inv_buckets _ Hi) as Hb.
  destruct (chain_concat_split (buckets map) (bucket_of k)) as (rest & Hp & Ha); [lia|].
  assert (entries map' ≡ₚ mkEntry k t :: entries map) as H1 by (subst map'; unfold entries; cbn; by rewrite Ha, Hp).
  assert (k ∉ key <$> entries map) as Hk.
  { intros (e & -> & He)%list_elem_of_fmap. destruct e as [k t']. cbn in Hv. apply (view_elem map k t' Hi) in He. congruence. }
  assert (inv map') as Hi'.
  { eapply (chain_inv map (bucket_of k) _ (count map +64 1) Hi Hr); [|done| |].
    - intros x Hx. apply elem_of_cons in Hx as [->|Hx]; [done|]. by apply (inv_placed _ Hi).
    - rewrite H1. cbn. apply NoDup_cons. split; [done|apply Hi].
    - rewrite (inv_count _ Hi), wrap_add_l. f_equal. apply Permutation_length in H1. unfold alen. cbn in H1. lia. }
  split; [done|]. split; [rewrite (perm_view _ _ Hi' H1); done|].
  unfold temp_map_get. subst map'. cbn. rewrite aget_aset_eq by lia. cbn. by rewrite (proj2 (is_key_eq k (mkEntry k t)) eq_refl).
Qed.

Lemma concat_calloc n : concat (calloc n ([] : list TempEntry)) = [].
Proof. unfold calloc. by induction (Z.to_nat n). Qed.

Lemma create_spec map : temp_map_create true true = Some map -> inv map /\ view map = ∅.
Proof.
  unfold temp_map_create. cbn [andb]. pose proof (concat_calloc TEMP_MAP_BUCKETS) as Hc. pose proof (alen_calloc TEMP_MAP_BUCKETS ([] : list TempEntry)) as Hl.
  pose proof (fun i => aget_calloc TEMP_MAP_BUCKETS i ([] : list TempEntry)) as Hg. generalize dependent (calloc TEMP_MAP_BUCKETS ([] : list TempEntry)).
  intros b Hc Hl Hg [= <-]. assert (entries (mkMap b 0) = []) as He by exact Hc.
  split; [|unfold view; by rewrite He]. split; rewrite ?He; cbn [buckets count].
  - by apply Hl.
  - intros i e Hr. rewrite Hg by done. by intros ?%not_elem_of_nil.
  - constructor.
  - reflexivity.
Qed.

(** ** Changing all entries *)
Definition same_keys (bs bs' : list (list TempEntry)) : Prop := Forall2 (Forall2 (fun e e' => key e' = key e)) bs bs'.

Lemma chain_keys (c c' : list TempEntry) : Forall2 (fun e e' => key e' = key e) c c' -> key <$> c' = key <$> c.
Proof. induction 1 as [|e e' c c' He _ IH]; [done|]. cbn. by rewrite He, IH. Qed.

Lemma same_keys_concat bs bs' : same_keys bs bs' -> key <$> concat bs' = key <$> concat bs.
Proof. induction 1 as [|c c' bs bs' Hc _ IH]; [done|]. cbn. by rewrite !fmap_app, IH, (chain_keys c c'). Qed.

Lemma same_keys_inv map bs : inv map -> same_keys (buckets map) bs -> inv (mkMap bs (count map)).
Proof.
  intros Hi Hs. pose proof (same_keys_concat _ _ Hs) as Hk. pose proof (Forall2_length _ _ _ Hs) as Hl. split; cbn.
  - rewrite <- (inv_buckets _ Hi). unfold alen. by rewrite Hl.
  - intros i e' Hr He. pose proof (inv_buckets _ Hi) as Hb. assert (bs !! Z.to_nat i = Some (aget bs i)) as Hx by (apply aget_lookup; unfold alen in *; lia).
    destruct (Forall2_lookup_r _ _ _ _ _ Hs Hx) as (c & Hc & H2). apply list_elem_of_lookup in He as [j Hj].
    destruct (Forall2_lookup_r _ _ _ _ _ H2 Hj) as (e & He & ->). apply (inv_placed _ Hi); [done|].
    unfold aget. rewrite (list_lookup_total_correct _ _ _ Hc). by eapply list_elem_of_lookup_2.
  - unfold entries. cbn. rewrite Hk. apply Hi.
  - rewrite (inv_count _ Hi). f_equal. unfold alen, entries. cbn. apply (f_equal length) in Hk. rewrite !length_fmap in Hk. lia.
Qed.

(** How many temperatures of the table have a property. *)
Lemma count_view (P : DataTemperature -> bool) map : inv map ->
  alen (List.filter (fun e => P (temp e)) (entries map)) = Z.of_nat (size (filter (fun p => P p.2 = true) (view map))).
Proof.
  intros Hi. unfold alen. f_equal. unfold view. pose proof (inv_keys _ Hi) as Hn. induction (entries map) as [|e l IH]; [done|].
  cbn in Hn. apply NoDup_cons in Hn as [Hk Hn]. cbn. rewrite map_filter_insert. cbn.
  assert ((list_to_map (pair_of <$> l) : gmap bytes DataTemperature) !! key e = None) as Hnone.
  { apply not_elem_of_list_to_map_1. by rewrite pair_keys. }
  destruct (P (temp e)); case_decide; try done; cbn.
  - rewrite map_size_insert_None, IH; [done|done|]. apply map_lookup_filter_None. by left.
  - rewrite delete_id by done. by apply IH.
Qed.

Lemma bg_pass_spec now map : inv map ->
  let map' := mkMap (List.map (List.map (pass_entry now)) (buckets map)) (count map) in
  inv map' /\ view map' = pass_temp now <$> view map.
Proof.
  intros Hi map'. split.
  - apply same_keys_inv; [done|]. unfold same_keys. apply Forall2_fmap_r, Forall_Forall2_diag, Forall_forall. intros c _.
    apply Forall2_fmap_r, Forall_Forall2_diag, Forall_forall. by intros e _.
  - unfold view, entries, map'. cbn [buckets]. rewrite <- concat_map. induction (concat (buckets map)) as [|e l IH]; [symmetry; exact (fmap_empty (pass_temp now))|].
    cbn. rewrite fmap_insert. f_equal. exact IH.
Qed.

(** ** Eviction

    The loops mark the first cold entries, as many as the target takes. *)
Definition mark (e : TempEntry) : TempEntry := mkEntry (key e) (set_on_ssd (temp e) 1).
Definition colds (l : list TempEntry) : Z := alen (List.filter (fun e => is_cold (temp e)) l).
Fixpoint mark_first (d : Z) (l : list TempEntry) : list TempEntry :=
  match l with
  | [] => []
  | e :: l => if (0 <? d) && is_cold (temp e) then mark e :: mark_first (d - 1) l else e :: mark_first d l
  end.
Definition needed (target freed : Z) : Z := Z.max 0 ((target - freed + 255) / 256).

Lemma colds_cons e l : colds (e :: l) = (if is_cold (temp e) then 1 else 0) + colds l.
Proof. unfold colds. cbn. destruct (is_cold _); [by rewrite alen_cons|done]. Qed.
Lemma colds_app l l' : colds (l ++ l') = colds l + colds l'.
Proof. induction l as [|e l IH]; [done|]. cbn [app]. rewrite !colds_cons. lia. Qed.
Lemma colds_range l : 0 <= colds l <= alen l.
Proof. induction l as [|e l IH]; [done|]. rewrite colds_cons, alen_cons. destruct (is_cold _); lia. Qed.

Lemma mark_first_0 d l : d <= 0 -> mark_first d l = l.
Proof. intros Hd. induction l as [|e l IH]; [done|]. cbn. by rewrite (proj2 (Z.ltb_ge 0 d)), IH by lia. Qed.

Lemma mark_first_app d l l' : mark_first d (l ++ l') = mark_first d l ++ mark_first (d - colds l) l'.
Proof.
  revert d. induction l as [|e l IH]; intros d; cbn [app mark_first]; [f_equal; unfold colds; cbn; change (alen []) with 0; lia|].
  rewrite colds_cons. destruct (Z.ltb_spec 0 d); cbn [andb].
  - destruct (is_cold (temp e)); cbn [app]; f_equal; rewrite IH; do 2 f_equal; lia.
  - cbn [app]. f_equal. rewrite IH. f_equal. rewrite !mark_first_0; [done|..]; destruct (is_cold (temp e)); pose proof (colds_range l); lia.
Qed.

Lemma mark_first_all l a : 0 <= a -> mark_first (colds l) l = mark_first (colds l + a) l.
Proof.
  revert a. induction l as [|e l IH]; intros a Ha; [done|]. cbn [mark_first]. rewrite colds_cons. pose proof (colds_range l). destruct (is_cold (temp e)); cbn [andb].
  - rewrite !(proj2 (Z.ltb_lt 0 _)) by lia. cbn [andb]. f_equal. rewrite Z.add_simpl_l. rewrite (IH a Ha). f_equal. lia.
  - rewrite !andb_false_r. f_equal. by apply IH.
Qed.

Lemma needed_done target freed : target <= freed -> needed target freed = 0.
Proof. intros. unfold needed. assert ((target - freed + 255) / 256 < 1) by (apply Z.div_lt_upper_bound; lia). lia. Qed.

Lemma needed_step target freed : freed < target -> needed target (freed + 256) = needed target freed - 1 /\ 0 < needed target freed.
Proof.
  intros. unfold needed. replace (target - freed + 255) with (target - (freed + 256) + 255 + 1 * 256) by lia.
  rewrite Z.div_add by done. assert (- 1 < (target - (freed + 256) + 255) / 256); [|lia].
  apply Z.lt_le_trans with 0; [lia|]. apply Z.div_pos; lia.
Qed.

Lemma evict_chain_spec target l : forall freed n, 0 <= freed -> freed + 256 * alen l < 2 ^ 64 ->
  let d := Z.min (colds l) (needed target freed) in
  evict_chain target freed n l = (mark_first d l, freed + 256 * d, n + d) /\ needed target (freed + 256 * d) = needed target freed - d.
Proof.
  induction l as [|e l IH]; intros freed n Hf Hb.
  - cbn. change (colds []) with 0. pose proof (Z.le_max_l 0 ((target - freed + 255) / 256)). fold (needed target freed) in *.
    rewrite Z.min_l by (unfold needed; lia). rewrite Z.mul_0_r, !Z.add_0_r. split; [done|lia].
  - rewrite alen_cons in Hb. pose proof (alen_nonneg l). pose proof (colds_range l) as Hc. cbn [evict_chain]. rewrite colds_cons.
    destruct (Z.ltb_spec freed target) as [Hlt|Hge].
    + destruct (needed_step target freed Hlt) as [Hn Hp]. cbn [mark_first]. destruct (is_cold (temp e)).
      * assert (freed +64 256 = freed + 256) as -> by (apply wrap_small; mach).
        destruct (IH (freed + 256) (n + 1) ltac:(lia) ltac:(lia)) as [-> Hd]. rewrite Hn in *.
        set (d := Z.min (colds l) (needed target freed - 1)) in *. assert (Z.min (1 + colds l) (needed target freed) = d + 1) as -> by lia.
        assert (0 <= d) by lia. rewrite (proj2 (Z.ltb_lt 0 (d + 1))) by lia. cbn [andb]. rewrite Z.add_simpl_r. split.
        -- f_equal; [f_equal; lia|lia].
        -- replace (freed + 256 * (d + 1)) with (freed + 256 + 256 * d) by lia. lia.
      * destruct (IH freed n Hf ltac:(lia)) as [-> Hd]. cbn [Z.add]. rewrite andb_false_r. done.
    + rewrite needed_done by done. rewrite Z.min_r by (destruct (is_cold _); lia). rewrite mark_first_0, Z.mul_0_r, !Z.add_0_r by lia.
      split; [done|]. rewrite needed_done by done. done.
Qed.

Lemma evict_buckets_spec target bs : forall freed n, 0 <= freed -> freed + 256 * alen (concat bs) < 2 ^ 64 ->
  let d := Z.min (colds (concat bs)) (needed target freed) in
  exists bs', evict_buckets target freed n bs = (bs', freed + 256 * d, n + d) /\ concat bs' = mark_first d (concat bs) /\ same_keys bs bs'.
Proof.
  assert (forall l d, Forall2 (fun e e' => key e' = key e) l (mark_first d l)) as Hsame.
  { induction l as [|e l IH]; intros d; [constructor|]. cbn. destruct (_ && _); constructor; [done|done|done|done]. }
  assert (forall l : list TempEntry, Forall2 (fun e e' => key e' = key e) l l) as Hrefl.
  { intros l. by apply Forall_Forall2_diag, Forall_forall. }
  induction bs as [|c bs IH]; intros freed n Hf Hb.
  - exists []. cbn. change (colds []) with 0. rewrite Z.min_l by (unfold needed; lia). rewrite Z.mul_0_r, !Z.add_0_r. split; [done|]. split; [done|constructor].
  - cbn [concat] in *. rewrite alen_app in Hb. rewrite colds_app. pose proof (alen_nonneg (concat bs)). pose proof (colds_range c). pose proof (colds_range (concat bs)).
    cbn [evict_buckets]. destruct (Z.ltb_spec freed target) as [Hlt|Hge].
    + destruct (evict_chain_spec target c freed n Hf ltac:(lia)) as [-> Hd]. set (d := Z.min (colds c) (needed target freed)) in *.
      assert (0 <= needed target freed) by (unfold needed; lia).
      destruct (IH (freed + 256 * d) (n + d)) as (bs' & -> & Hc & Hs); [lia|lia|]. rewrite Hd in *.
      set (d' := Z.min (colds (concat bs)) (needed target freed - d)) in *.
      assert (Z.min (colds c + colds (concat bs)) (needed target freed) = d + d') as -> by lia.
      exists (mark_first d c :: bs'). split; [f_equal; [f_equal; lia|lia]|]. split; [|constructor; done]. cbn [concat]. rewrite Hc, mark_first_app.
      f_equal.
      * destruct (Z.le_gt_cases (colds c) (needed target freed)) as [Hle|Hgt].
        -- assert (d = colds c) as -> by lia. apply mark_first_all. lia.
        -- assert (d' = 0) as -> by lia. by rewrite Z.add_0_r.
      * destruct (Z.le_gt_cases (colds c) (needed target freed)) as [Hle|Hgt].
        -- f_equal. lia.
        -- rewrite !mark_first_0 by lia. done.
    + rewrite needed_done by done. rewrite Z.min_r by lia. exists (c :: bs). rewrite Z.mul_0_r, !Z.add_0_r. split; [done|]. rewrite mark_first_0 by lia. split; [done|].
      constructor; [done|]. by apply Forall_Forall2_diag, Forall_forall.
Qed.

(** A cold key in RAM, in the words of the specification. *)
Definition cold (t : DataTemperature) : bool := (on_ssd t =? 0) && (temperature t <? 11).
Lemma is_cold_spec t : is_cold t = cold t.
Proof. unfold is_cold, cold, TEMP_COLD_THRESHOLD. rewrite andb_comm. f_equal. apply Z.b2z_inj. destruct (Z.leb_spec (temperature t) 10), (Z.ltb_spec (temperature t) 11); lia. Qed.

(** [marked ks m m']: the keys of [ks] have been marked. *)
Definition marked (ks : gset bytes) (m m' : gmap bytes DataTemperature) : Prop :=
  forall k, m' !! k = (fun t => if decide (k ∈ ks) then set_on_ssd t 1 else t) <$> m !! k.
Definition cold_keys (ks : gset bytes) (m : gmap bytes DataTemperature) : Prop := forall k, k ∈ ks -> exists t, m !! k = Some t /\ cold t = true.

Lemma cold_insert ks m k t : m !! k = None -> cold_keys ks m -> cold_keys ks (<[k := t]> m).
Proof.
  intros Hn Hc j Hj. destruct (Hc j Hj) as (u & Hu & Hcold). exists u. split; [|done]. rewrite lookup_insert_ne; [done|]. congruence.
Qed.

Lemma marked_insert ks m m' k t : k ∉ ks -> marked ks m m' -> marked ks (<[k := t]> m) (<[k := t]> m').
Proof.
  intros Hk Hm j. destruct (decide (j = k)) as [->|Hne]; [|rewrite !lookup_insert_ne by done; apply Hm].
  rewrite !lookup_insert_eq. cbn. by rewrite decide_False.
Qed.

Lemma mark_first_view l : forall d, NoDup (key <$> l) -> 0 <= d -> exists ks,
  cold_keys ks (list_to_map (pair_of <$> l)) /\ Z.of_nat (size ks) = Z.min d (colds l) /\
  marked ks (list_to_map (pair_of <$> l)) (list_to_map (pair_of <$> mark_first d l)).
Proof.
  induction l as [|e l IH]; intros d Hn Hd.
  - exists ∅. split; [by intros k ?%not_elem_of_empty|]. split; [rewrite size_empty; change (colds []) with 0; lia|]. intros k. cbn. by rewrite lookup_empty.
  - cbn in Hn. apply NoDup_cons in Hn as [Hk Hn]. pose proof (colds_range l) as Hc.
    assert ((list_to_map (pair_of <$> l) : gmap bytes DataTemperature) !! key e = None) as Hnone.
    { apply not_elem_of_list_to_map_1. by rewrite pair_keys. }
    assert (forall ks, cold_keys ks (list_to_map (pair_of <$> l)) -> key e ∉ ks) as Hfresh.
    { intros ks Hks Hin. destruct (Hks _ Hin) as (t & Ht & _). by rewrite Hnone in Ht. }
    cbn [mark_first]. rewrite colds_cons. destruct (Z.ltb_spec 0 d) as [Hp|Hp], (is_cold (temp e)) eqn:He; cbn [andb].
    + destruct (IH (d - 1) Hn ltac:(lia)) as (ks & H1 & H2 & H3). exists ({[key e]} ∪ ks). split; [|split].
      * intros k [->%elem_of_singleton|Hin]%elem_of_union; cbn; [exists (temp e); by rewrite lookup_insert_eq, <- is_cold_spec|].
        destruct (H1 k Hin) as (t & Ht & Hct). exists t. split; [|done]. rewrite lookup_insert_ne; [done|]. intros <-. by apply (Hfresh ks).
      * rewrite size_union by (apply disjoint_singleton_l, Hfresh, H1). rewrite size_singleton. lia.
      * intros k. cbn. destruct (decide (k = key e)) as [->|Hne].
        -- rewrite !lookup_insert_eq. cbn. rewrite decide_True by set_solver. done.
        -- rewrite !lookup_insert_ne by done. rewrite (H3 k). destruct (_ !! k); [|done]. cbn. f_equal. do 2 case_decide; set_solver.
    + destruct (IH d Hn Hd) as (ks & H1 & H2 & H3). exists ks. split; [|split; [lia|by apply marked_insert; [apply Hfresh|]]].
      by apply cold_insert.
    + destruct (IH d Hn Hd) as (ks & H1 & H2 & H3). exists ks. split; [by apply cold_insert|]. split; [lia|by apply marked_insert; [apply Hfresh|]].
    + destruct (IH d Hn Hd) as (ks & H1 & H2 & H3). exists ks. split; [by apply cold_insert|]. split; [lia|by apply marked_insert; [apply Hfresh|]].
Qed.

(** ** Refinement *)
Inductive op :=
  | HInit (alloc_ok open_ok m1 m2 : bool) (ssd_mb ram_mb : Z)
  | HShutdown
  | HUpdate (now : Z) (m1 m2 : bool) (k : bytes)
  | HPass (now : Z)
  | HEvict (mb : Z)
  | HPromote (k : bytes)
  | HGet (k : bytes)
  | HIsSsd (k : bytes).
Inductive out := OUnit | OInt (r : Z) | OTemp (t : option DataTemperature).

Definition step (o : op) (s : Hybrid) : Hybrid * out :=
  match o with
  | HInit a f m1 m2 ssd ram => let '(s, r) := hybrid_init a f m1 m2 ssd ram s in (s, OInt r)
  | HShutdown => (hybrid_shutdown s, OUnit)
  | HUpdate now m1 m2 k => (hybrid_update_temperature now m1 m2 s k, OUnit)
  | HPass now => (hybrid_bg_pass now s, OUnit)
  | HEvict mb => let '(s, r) := hybrid_evict_cold_data mb s in (s, OInt r)
  | HPromote k => let '(s, r) := hybrid_promote_hot_data s k in (s, OInt r)
  | HGet k => (s, OTemp (hybrid_get_temperature s k))
  | HIsSsd k => (s, OInt (hybrid_is_on_ssd s k))
  end.

Record Spec := mkSpec { sp_stats : option HybridStats; sp_map : option (gmap bytes DataTemperature) }.

(** The rules of the specification.  An access warms a key by 20 degrees, up to
    255, and counts it; at 200 degrees the key is in RAM again. *)
Definition heated (t : DataTemperature) : Z := u8 (Z.min 255 (temperature t + 20)).
Definition access (now : Z) (t : DataTemperature) : DataTemperature :=
  mkTemp now (u32 (access_count_24h t + 1)) (wrap 16 (access_count_1h t + 1)) (heated t)
    (if 200 <=? heated t then 0 else on_ssd t) (ssd_offset t) (ssd_size t).
Definition count_access (t : DataTemperature) (st : HybridStats) : HybridStats :=
  if (on_ssd t =? 0) || (heated t <? 200) then add_ram_hit st else add_ssd_hit (add_promotion st).
(** A pass cools by 5 degrees, down to 0, forgets the accesses of the last hour
    when there has been none for longer, and marks what has fallen to 10 degrees
    or less. *)
Definition cooled (now : Z) (t : DataTemperature) : DataTemperature :=
  let x := Z.max 0 (temperature t - 5) in
  mkTemp (last_access_us t) (access_count_24h t) (if u64 (now - last_access_us t) <=? HOUR_US then access_count_1h t else 0) x
    (if (on_ssd t =? 0) && (x <=? 10) then 1 else on_ssd t) (ssd_offset t) (ssd_size t).
Definition gets_cold (t : DataTemperature) : bool := (on_ssd t =? 0) && (temperature t <=? 15).

Lemma access_spec now t : (if comes_back (warm now t) then set_on_ssd (warm now t) 0 else warm now t) = access now t /\
  comes_back (warm now t) = negb ((on_ssd t =? 0) || (heated t <? 200)).
Proof.
  assert (u8 (if 255 <? temperature t + 20 then 255 else temperature t + 20) = heated t) as Hh.
  { unfold heated. f_equal. destruct (Z.ltb_spec 255 (temperature t + 20)); lia. }
  unfold comes_back, warm, access, set_on_ssd, TEMP_HOT_THRESHOLD. cbn. rewrite Hh, negb_orb, <- Z.leb_antisym. split; [|done].
  destruct (200 <=? heated t); [|by rewrite andb_false_r]. rewrite andb_true_r. by destruct (Z.eqb_spec (on_ssd t) 0) as [->|].
Qed.

Lemma cooled_spec now t : pass_temp now t = cooled now t.
Proof.
  destruct t as [la c24 c1 x o off sz]. unfold pass_temp, cooled, is_cold, set_temperature, set_count_1h, set_on_ssd, TEMP_COOLING_RATE, TEMP_COLD_THRESHOLD. cbn.
  assert ((if 5 <? x then x - 5 else 0) = Z.max 0 (x - 5)) as -> by (destruct (Z.ltb_spec 5 x); lia). rewrite (Z.leb_antisym HOUR_US).
  destruct (HOUR_US <? u64 (now - la)); cbn; rewrite (andb_comm (o =? 0)); by destruct (_ && _).
Qed.

Lemma gets_cold_spec now t : newly_cold now t = gets_cold t.
Proof.
  unfold newly_cold, gets_cold. rewrite cooled_spec. cbn. destruct (Z.eqb_spec (on_ssd t) 0) as [->|]; [|done]. cbn.
  destruct (Z.leb_spec (Z.max 0 (temperature t - 5)) 10), (Z.leb_spec (temperature t) 15); lia || done.
Qed.

Definition size_of (P : DataTemperature -> bool) (m : gmap bytes DataTemperature) : Z := Z.of_nat (size (filter (fun p => P p.2 = true) m)).

Definition spec_up (o : op) (st : HybridStats) (m : gmap bytes DataTemperature) : HybridStats * gmap bytes DataTemperature * out :=
  match o with
  | HUpdate now m1 m2 k =>
      match m !! k with
      | Some t => (count_access t st, <[k := access now t]> m, OUnit)
      | None => if m1 && m2 then (count_access new_temp st, <[k := access now new_temp]> m, OUnit) else (st, m, OUnit)
      end
  | HPass now => (add_evictions (size_of gets_cold m) st, cooled now <$> m, OUnit)
  | HPromote k =>
      match m !! k with
      | Some t => if on_ssd t =? 0 then (st, m, OInt (- 1)) else (add_promotion st, <[k := set_temperature (set_on_ssd t 0) TEMP_HOT_THRESHOLD]> m, OInt 0)
      | None => (st, m, OInt (- 1))
      end
  | HGet k => (st, m, OTemp (m !! k))
  | HIsSsd k => (st, m, OInt (match m !! k with Some t => if on_ssd t =? 0 then 0 else 1 | None => 0 end))
  | _ => (st, m, OUnit)
  end.

(** Without a manager only the reads work. *)
Definition spec_down (o : op) (m : option (gmap bytes DataTemperature)) : out :=
  match o with
  | HGet k => OTemp (m ≫= lookup k)
  | HIsSsd k => OInt (match m ≫= lookup k with Some t => if on_ssd t =? 0 then 0 else 1 | None => 0 end)
  | HEvict _ | HPromote _ => OInt (- 1)
  | _ => OUnit
  end.

Inductive spec_step : op -> Spec -> Spec -> out -> Prop :=
  | SpInit a f m1 m2 ssd ram m : a && f && m1 && m2 = true -> spec_step (HInit a f m1 m2 ssd ram) (mkSpec None m) (mkSpec (Some (mkStats 0 0 0 0)) (Some ∅)) (OInt 0)
  | SpInitFails a f m1 m2 ssd ram m : a && f && m1 && m2 = false -> spec_step (HInit a f m1 m2 ssd ram) (mkSpec None m) (mkSpec None (if a && f then None else m)) (OInt (- 1))
  | SpInitAgain a f m1 m2 ssd ram st m : spec_step (HInit a f m1 m2 ssd ram) (mkSpec (Some st) m) (mkSpec (Some st) m) (OInt 0)
  | SpShutdown st m : spec_step HShutdown (mkSpec st m) (mkSpec None m) OUnit
  | SpEvict mb st m ks m' : cold_keys ks m -> Z.of_nat (size ks) = Z.min (size_of cold m) (needed (mb *64 1024 *64 1024) 0) -> marked ks m m' ->
      spec_step (HEvict mb) (mkSpec (Some st) (Some m)) (mkSpec (Some (add_evictions (Z.of_nat (size ks)) st)) (Some m')) (OInt (256 * Z.of_nat (size ks) / 2 ^ 20))
  | SpUp o st m st' m' r : (match o with HUpdate _ _ _ _ | HPass _ | HPromote _ | HGet _ | HIsSsd _ => True | _ => False end) ->
      spec_up o st m = (st', m', r) -> spec_step o (mkSpec (Some st) (Some m)) (mkSpec (Some st') (Some m')) r
  | SpDown o m : (match o with HInit _ _ _ _ _ _ | HShutdown => False | _ => True end) -> spec_step o (mkSpec None m) (mkSpec None m) (spec_down o m).

(** The table is in order, and a manager always has one. *)
Definition ok (s : Hybrid) : Prop :=
  match g_temp_map s with Some map => inv map | None => g_hybrid_manager s = None end /\
  match g_hybrid_manager s with Some mgr => running mgr = true | None => True end.
Definition abs (s : Hybrid) : Spec := mkSpec (stats <$> g_hybrid_manager s) (view <$> g_temp_map s).
Definition used (s : Hybrid) : Z := match g_temp_map s with Some map => alen (entries map) | None => 0 end.

Lemma same_length map map' : key <$> entries map' = key <$> entries map -> alen (entries map') = alen (entries map).
Proof. intros H. unfold alen. apply (f_equal length) in H. rewrite !length_fmap in H. lia. Qed.

Lemma hybrid_view_length map : inv map -> alen (entries map) = Z.of_nat (size (view map)).
Proof.
  intros Hi. unfold view. pose proof (inv_keys _ Hi) as Hn. induction (entries map) as [|e l IH]; [reflexivity|].
  cbn in Hn. apply NoDup_cons in Hn as [Hk Hn]. rewrite fmap_cons. cbn [list_to_map foldr pair_of]. rewrite alen_cons, IH by done.
  unfold pair_of at 2. cbn. rewrite map_size_insert_None; [lia|]. apply not_elem_of_list_to_map_1. by rewrite pair_keys.
Qed.

Lemma update_step now m1 m2 mgr map k : inv map -> exists mgr' map',
  hybrid_update_temperature now m1 m2 (mkHybrid (Some mgr) (Some map)) k = mkHybrid (Some mgr') (Some map') /\ inv map' /\ running mgr' = running mgr /\
  spec_up (HUpdate now m1 m2 k) (stats mgr) (view map) = (stats mgr', view map', OUnit).
Proof.
  intros Hi. unfold hybrid_update_temperature, temp_map_get_or_create. cbn [g_hybrid_manager g_temp_map spec_up].
  destruct (temp_map_get_spec map k Hi) as [Hv Hk].
  assert (forall map1 t, inv map1 -> temp_map_get map1 k = Some (mkEntry k t) -> exists mgr' map',
    (let t' := warm now t in
     if comes_back t' then mkHybrid (Some (set_stats mgr (add_ssd_hit (add_promotion (stats mgr))))) (Some (store map1 k (set_on_ssd t' 0)))
     else mkHybrid (Some (set_stats mgr (add_ram_hit (stats mgr)))) (Some (store map1 k t'))) = mkHybrid (Some mgr') (Some map') /\
    inv map' /\ running mgr' = running mgr /\ stats mgr' = count_access t (stats mgr) /\ view map' = <[k := access now t]> (view map1)) as Hstore.
  { intros map1 t Hi1 E. cbn. destruct (access_spec now t) as [<- Hb]. unfold count_access. rewrite <- (negb_involutive (_ || _)), <- Hb.
    destruct (comes_back (warm now t)); cbn [negb].
    - destruct (store_spec map1 k (set_on_ssd (warm now t) 0) _ Hi1 E) as [? ?]. by eexists _, _.
    - destruct (store_spec map1 k (warm now t) _ Hi1 E) as [? ?]. by eexists _, _. }
  destruct (temp_map_get map k) as [[k' t]|] eqn:E.
  - specialize (Hk _ eq_refl). cbn in Hk, Hv. subst k'. rewrite <- Hv. destruct (Hstore map t Hi E) as (mgr' & map' & H1 & H2 & H3 & H4 & H5).
    exists mgr', map'. split; [exact H1|]. split; [done|]. split; [done|]. by rewrite H4, H5.
  - cbn in Hv. rewrite <- Hv. destruct (m1 && m2); [|by eexists _, _].
    destruct (hybrid_insert_spec map k new_temp Hi (eq_sym Hv) _ eq_refl) as (Hi1 & Hv1 & Hg).
    destruct (Hstore _ new_temp Hi1 Hg) as (mgr' & map' & H1 & H2 & H3 & H4 & H5). exists mgr', map'. split; [exact H1|]. split; [done|]. split; [done|].
    by rewrite H4, H5, Hv1, insert_insert_eq.
Qed.

Lemma promote_step mgr map k : inv map -> exists mgr' map' r,
  hybrid_promote_hot_data (mkHybrid (Some mgr) (Some map)) k = (mkHybrid (Some mgr') (Some map'), r) /\ inv map' /\ running mgr' = running mgr /\
  spec_up (HPromote k) (stats mgr) (view map) = (stats mgr', view map', OInt r).
Proof.
  intros Hi. unfold hybrid_promote_hot_data. cbn [g_hybrid_manager g_temp_map spec_up]. destruct (temp_map_get_spec map k Hi) as [Hv Hk].
  destruct (temp_map_get map k) as [e|] eqn:E; cbn in Hv; rewrite <- Hv; [|by eexists _, _, _].
  destruct (on_ssd (temp e) =? 0); cbn [negb]; [by eexists _, _, _|].
  destruct (store_spec map k (set_temperature (set_on_ssd (temp e) 0) TEMP_HOT_THRESHOLD) e Hi E) as [H1 H2]. eexists _, _, _. split; [done|]. rewrite H2. done.
Qed.

Lemma evict_step mb mgr map : inv map -> alen (entries map) < 2 ^ 50 -> exists mgr' map' r,
  hybrid_evict_cold_data mb (mkHybrid (Some mgr) (Some map)) = (mkHybrid (Some mgr') (Some map'), r) /\ inv map' /\ running mgr' = running mgr /\
  alen (entries map') = alen (entries map) /\ spec_step (HEvict mb) (mkSpec (Some (stats mgr)) (Some (view map))) (mkSpec (Some (stats mgr')) (Some (view map'))) (OInt r).
Proof.
  intros Hi Hn. unfold hybrid_evict_cold_data. cbn [g_hybrid_manager g_temp_map].
  destruct (evict_buckets_spec (mb *64 1024 *64 1024) (buckets map) 0 0) as (bs' & -> & Hc & Hs); [done|unfold entries in Hn; lia|].
  fold (entries map) in *. set (d := Z.min _ _) in *. pose proof (colds_range (entries map)). assert (0 <= d) by (unfold d, needed; lia).
  destruct (mark_first_view (entries map) d (inv_keys _ Hi)) as (ks & K1 & K2 & K3); [done|].
  assert (Z.of_nat (size ks) = d) as Hsz by lia.
  eexists _, _, _. split; [done|]. split; [by apply same_keys_inv|]. split; [done|]. split; [by apply same_length, same_keys_concat|].
  rewrite Z.div_div, !Z.add_0_l, <- Hsz by done. apply SpEvict; [done| |].
  - rewrite Hsz. unfold d, colds. rewrite (count_view is_cold) by done. unfold size_of. do 2 f_equal. f_equal. apply map_filter_ext. intros k t _. by rewrite is_cold_spec.
  - unfold view, entries at 2. cbn [buckets]. by rewrite Hc.
Qed.

Lemma size_insert_le (m : gmap bytes DataTemperature) k t : (size (<[k := t]> m) <= S (size m))%nat.
Proof. rewrite map_size_insert. destruct (m !! k); cbn; lia. Qed.

Lemma up_size o st m st' m' r : spec_up o st m = (st', m', r) -> (size m' <= S (size m))%nat.
Proof.
  destruct o as [| |now m1 m2 k|now|mb|k|k|k]; cbn; try (intros [= _ <- _]; lia).
  - destruct (m !! k); [|destruct (_ && _); [|intros [= _ <- _]; lia]]; intros [= _ <- _]; apply size_insert_le.
  - intros [= _ <- _]. rewrite map_size_fmap. lia.
  - destruct (m !! k); [destruct (_ =? 0)|]; intros [= _ <- _]; [lia|apply size_insert_le|lia].
Qed.

(** The reads only need the table. *)
Lemma reads_spec mgr m k : match m with Some map => inv map | None => True end ->
  hybrid_get_temperature (mkHybrid mgr m) k = (view <$> m) ≫= lookup k /\
  hybrid_is_on_ssd (mkHybrid mgr m) k = match (view <$> m) ≫= lookup k with Some t => if on_ssd t =? 0 then 0 else 1 | None => 0 end.
Proof.
  unfold hybrid_get_temperature, hybrid_is_on_ssd. destruct m as [map|]; [|done]. intros Hi. cbn [g_temp_map mbind option_bind fmap option_fmap option_map].
  destruct (temp_map_get_spec map k Hi) as [<- _]. split; [done|]. destruct (temp_map_get map k) as [e|]; [|done]. cbn. by destruct (on_ssd (temp e) =? 0).
Qed.

Lemma init_step a f m1 m2 ssd ram m s' r : hybrid_init a f m1 m2 ssd ram (mkHybrid None m) = (s', r) -> match m with Some map => inv map | None => True end ->
  ok s' /\ used s' <= used (mkHybrid None m) + 1 /\ spec_step (HInit a f m1 m2 ssd ram) (mkSpec None (view <$> m)) (abs s') (OInt r).
Proof.
  intros E Hm. assert (0 <= used (mkHybrid None m)) as Hu by (destruct m; cbn; [apply alen_nonneg|done]).
  unfold hybrid_init in E. cbn [g_hybrid_manager] in E. destruct (a && f) eqn:Haf.
  - apply andb_true_iff in Haf as [-> ->]. cbn [negb orb] in E. destruct (m1 && m2) eqn:H12.
    + apply andb_true_iff in H12 as [-> ->]. destruct (temp_map_create true true) as [map|] eqn:Ec; [|done]. destruct (create_spec map Ec) as [Hi Hv]. injection E as <- <-.
      assert (alen (entries map) = 0) as H0 by (rewrite (hybrid_view_length map Hi), Hv; done).
      split; [done|]. split; [cbn; lia|]. unfold abs. cbn [g_hybrid_manager g_temp_map fmap option_fmap option_map stats]. rewrite Hv. by apply SpInit.
    + unfold temp_map_create in E. rewrite H12 in E. injection E as <- <-. split; [done|]. split; [cbn in *; lia|].
      apply (SpInitFails true true m1 m2). done.
  - assert (negb a || negb f = true) as Hx by (by rewrite <- negb_andb, Haf). rewrite Hx in E. injection E as <- <-. split; [split; [by destruct m|done]|]. split; [lia|].
    pose proof (SpInitFails a f m1 m2 ssd ram (view <$> m)) as Hs. rewrite Haf in Hs. by apply Hs.
Qed.

Lemma up_case o mgr map s' r : inv map -> running mgr = true ->
  (match o with HUpdate _ _ _ _ | HPass _ | HPromote _ | HGet _ | HIsSsd _ => True | _ => False end) ->
  step o (mkHybrid (Some mgr) (Some map)) = (s', r) -> exists mgr' map',
  s' = mkHybrid (Some mgr') (Some map') /\ inv map' /\ running mgr' = true /\ spec_up o (stats mgr) (view map) = (stats mgr', view map', r).
Proof.
  intros Hi Hr Ho. destruct o as [| |now m1 m2 k|now|mb|k|k|k]; try done; cbn [step].
  - destruct (update_step now m1 m2 mgr map k Hi) as (mgr' & map' & -> & Hi' & Hr' & Hs). intros [= <- <-]. exists mgr', map'. by rewrite Hr'.
  - destruct (bg_pass_spec now map Hi) as [Hi' Hv]. unfold hybrid_bg_pass. cbn [g_hybrid_manager g_temp_map]. rewrite Hr. intros [= <- <-].
    eexists _, _. split; [done|]. split; [done|]. split; [done|]. cbn [spec_up]. rewrite Hv.
    rewrite (map_fmap_ext (pass_temp now) (cooled now) (view map)) by (intros; apply cooled_spec).
    do 2 f_equal. unfold size_of. rewrite <- (count_view gets_cold) by done. cbn [stats set_stats]. do 2 f_equal.
    apply List.filter_ext. intros e. symmetry. apply gets_cold_spec.
  - destruct (promote_step mgr map k Hi) as (mgr' & map' & x & -> & Hi' & Hr' & Hs). intros [= <- <-]. exists mgr', map'. by rewrite Hr'.
  - intros [= <- <-]. exists mgr, map. destruct (reads_spec (Some mgr) (Some map) k Hi) as [-> _]. done.
  - intros [= <- <-]. exists mgr, map. destruct (reads_spec (Some mgr) (Some map) k Hi) as [_ ->]. done.
Qed.

Lemma down_case o m s' r : match m with Some map => inv map | None => True end -> step o (mkHybrid None m) = (s', r) ->
  ok s' /\ used s' <= used (mkHybrid None m) + 1 /\ spec_step o (mkSpec None (view <$> m)) (abs s') r.
Proof.
  intros Hm E. assert (ok (mkHybrid None m)) as Hok by (split; [by destruct m|done]).
  assert (used (mkHybrid None m) <= used (mkHybrid None m) + 1) as Hle by lia. destruct o as [a f m1 m2 ssd ram| |now m1 m2 k|now|mb|k|k|k]; cbn [step] in E.
  - destruct (hybrid_init a f m1 m2 ssd ram (mkHybrid None m)) as [s1 x] eqn:Ei. injection E as <- <-. by apply init_step.
  - injection E as <- <-. split; [done|]. split; [exact Hle|apply SpShutdown].
  - injection E as <- <-. split; [done|]. split; [exact Hle|by apply (SpDown (HUpdate now m1 m2 k))].
  - injection E as <- <-. split; [done|]. split; [exact Hle|by apply (SpDown (HPass now))].
  - injection E as <- <-. split; [done|]. split; [exact Hle|by apply (SpDown (HEvict mb))].
  - injection E as <- <-. split; [done|]. split; [exact Hle|by apply (SpDown (HPromote k))].
  - injection E as <- <-. split; [done|]. split; [exact Hle|]. destruct (reads_spec None m k Hm) as [-> _]. by apply (SpDown (HGet k)).
  - injection E as <- <-. split; [done|]. split; [exact Hle|]. destruct (reads_spec None m k Hm) as [_ ->]. by apply (SpDown (HIsSsd k)).
Qed.

Lemma hybrid_step_refines o s s' r : ok s -> used s < 2 ^ 50 -> step o s = (s', r) -> ok s' /\ used s' <= used s + 1 /\ spec_step o (abs s) (abs s') r.
Proof.
  intros [Hm Hr] Hu E. destruct s as [[mgr|] [map|]]; cbn in Hm, Hr; try done; unfold abs; cbn [g_hybrid_manager g_temp_map fmap option_fmap option_map].
  - assert ((match o with HUpdate _ _ _ _ | HPass _ | HPromote _ | HGet _ | HIsSsd _ => True | _ => False end) -> ok s' /\ used s' <= used (mkHybrid (Some mgr) (Some map)) + 1 /\
      spec_step o (mkSpec (Some (stats mgr)) (Some (view map))) (mkSpec (stats <$> g_hybrid_manager s') (view <$> g_temp_map s')) r) as Hup.
    { intros Ho. destruct (up_case o mgr map s' r Hm Hr Ho E) as (mgr' & map' & -> & Hi' & Hr' & Hs). split; [done|]. split; [|by apply SpUp].
      apply up_size in Hs. cbn. rewrite !hybrid_view_length by done. lia. }
    destruct o as [a f m1 m2 ssd ram| |now m1 m2 k|now|mb|k|k|k]; try (by apply Hup); cbn [step] in E.
    + injection E as <- <-. split; [done|]. split; [lia|]. apply SpInitAgain.
    + injection E as <- <-. split; [done|]. split; [cbn; lia|]. apply SpShutdown.
    + destruct (evict_step mb mgr map Hm Hu) as (mgr' & map' & x & Ee & Hi' & Hr' & Hl & Hs). rewrite Ee in E. injection E as <- <-.
      split; [by rewrite Hr in Hr'|]. split; [cbn; lia|done].
  - by apply (down_case o (Some map)).
  - by apply (down_case o None).
Qed.

Fixpoint run (os : list op) (s : Hybrid) : Hybrid * list out :=
  match os with
  | [] => (s, [])
  | o :: os => let '(s, r) := step o s in let '(s, rs) := run os s in (s, r :: rs)
  end.
Inductive spec_run : list op -> Spec -> Spec -> list out -> Prop :=
  | SpNil s : spec_run [] s s []
  | SpCons o os s1 s2 s3 r rs : spec_step o s1 s2 r -> spec_run os s2 s3 rs -> spec_run (o :: os) s1 s3 (r :: rs).

Definition start : Hybrid := mkHybrid None None.

Lemma hybrid_run_refines os : forall s, ok s -> used s + alen os < 2 ^ 50 ->
  ok (run os s).1 /\ used (run os s).1 <= used s + alen os /\ spec_run os (abs s) (abs (run os s).1) (run os s).2.
Proof.
  induction os as [|o os IH]; intros s Hok Hn; [split; [done|]; split; [rewrite alen_nil; cbn; lia|constructor]|].
  rewrite alen_cons in Hn |- *. pose proof (alen_nonneg os). cbn [run].
  destruct (step o s) as [s' r] eqn:E. destruct (hybrid_step_refines o s s' r Hok ltac:(lia) E) as (Hok' & Hu & Hs).
  destruct (IH s' Hok' ltac:(lia)) as (Hok'' & Hu' & Hr). destruct (run os s') as [s'' rs]. split; [done|]. cbn in *. split; [lia|]. by econstructor.
Qed.


(** ** Types *)
Record fields_ok (t : DataTemperature) : Prop := {
  ty_last : in_u 64 (last_access_us t); ty_24h : in_u 32 (access_count_24h t); ty_1h : in_u 16 (access_count_1h t);
  ty_temp : in_u 8 (temperature t); ty_ssd : on_ssd t = 0 \/ on_ssd t = 1;
  ty_cool : on_ssd t = 1 -> temperature t < TEMP_HOT_THRESHOLD; ty_off : ssd_offset t = 0; ty_size : ssd_size t = 0 }.
(** A key in RAM is never cold: the pass that cools it marks it at once. *)
Definition typed (t : DataTemperature) : Prop := fields_ok t /\ (on_ssd t = 0 -> TEMP_COLD_THRESHOLD < temperature t).
Definition typed_stats (st : HybridStats) : Prop := in_u 64 (promotions st) /\ in_u 64 (evictions st) /\ in_u 64 (ram_hits st) /\ in_u 64 (ssd_hits st).
Definition typed_op (o : op) : Prop := match o with HUpdate now _ _ _ | HPass now => in_u 64 now | _ => True end.
Definition typed_spec (s : Spec) : Prop :=
  match sp_map s with Some m => map_Forall (fun _ t => typed t) m | None => True end /\
  match sp_stats s with Some st => typed_stats st | None => True end.
Definition well_typed (s : Hybrid) : Prop :=
  match g_temp_map s with Some map => Forall (fun e => typed (temp e)) (entries map) /\ in_u 64 (count map) | None => True end /\
  match g_hybrid_manager s with Some mgr => typed_stats (stats mgr) | None => True end.

Lemma typed_mk a b c d : in_u 64 a -> in_u 64 b -> in_u 64 c -> in_u 64 d -> typed_stats (mkStats a b c d).
Proof. done. Qed.

Lemma typed_new : typed new_temp.
Proof. split; [|done]. split; cbn; try mach; by left. Qed.

Lemma typed_mark t : fields_ok t -> temperature t <= TEMP_COLD_THRESHOLD -> typed (set_on_ssd t 1).
Proof. intros [? ? ? ? ? ? ? ?] Hc. split; [|done]. split; cbn; try done; [by right|]. intros _. unfold TEMP_HOT_THRESHOLD, TEMP_COLD_THRESHOLD in *. lia. Qed.

Lemma typed_access now t : in_u 64 now -> typed t -> typed (access now t).
Proof.
  rewrite <- (proj1 (access_spec now t)). intros Hn [[H1 H2 H3 H4 H5 H6 H7 H8] Hw]. unfold comes_back.
  set (x := if 255 <? temperature t + 20 then 255 else temperature t + 20).
  assert (temperature (warm now t) = x /\ in_u 8 x /\ (temperature t < x \/ x = 255)) as (Hx & Hr & Hup).
  { cbn. fold x. assert (in_u 8 x) by (unfold x; destruct (Z.ltb_spec 255 (temperature t + 20)); mach). split; [by apply wrap_small|]. split; [done|].
    unfold x. destruct (Z.ltb_spec 255 (temperature t + 20)); lia. }
  destruct (negb _ && _) eqn:E.
  - apply andb_true_iff in E as [_ E]. apply Z.leb_le in E. split; [|unfold TEMP_HOT_THRESHOLD, TEMP_COLD_THRESHOLD in *; cbn in *; lia].
    split; cbn; try done; [by apply wrap_range|by apply wrap_range|by fold x; apply wrap_range|by left].
  - split; [split; try done; cbn [warm last_access_us access_count_24h access_count_1h on_ssd]; [by apply wrap_range|by apply wrap_range|by rewrite Hx|]|].
    + intros Ho. rewrite Hx. change (on_ssd (warm now t)) with (on_ssd t) in E. rewrite Ho, Hx in E. cbn in E. by apply Z.leb_gt in E.
    + rewrite Hx. intros Ho. specialize (Hw Ho). unfold TEMP_COLD_THRESHOLD in *. lia.
Qed.

Lemma typed_pass now t : typed t -> typed (cooled now t).
Proof.
  rewrite <- cooled_spec. intros [[H1 H2 H3 H4 H5 H6 H7 H8] _]. unfold pass_temp. set (x := if TEMP_COOLING_RATE <? temperature t then _ else _).
  assert (in_u 8 x /\ x <= temperature t) as [Hx Hle].
  { unfold x, TEMP_COOLING_RATE. destruct (Z.ltb_spec 5 (temperature t)); split; mach. }
  set (t1 := set_temperature t x). assert (fields_ok t1) as Ht1.
  { split; try done. cbn. intros Ho. specialize (H6 Ho). lia. }
  set (t2 := if HOUR_US <? _ then set_count_1h t1 0 else t1).
  assert (fields_ok t2) as Ht2. { unfold t2. destruct (HOUR_US <? _); [|done]. destruct Ht1. split; try done. }
  destruct (is_cold t2) eqn:Hc; unfold is_cold in Hc.
  - apply typed_mark; [done|]. apply andb_true_iff in Hc as [Hc _]. by apply Z.leb_le.
  - split; [done|]. intros Ho. rewrite Ho, andb_true_r in Hc. by apply Z.leb_gt in Hc.
Qed.

Lemma typed_up o st m st' m' r : typed_op o -> typed_stats st -> map_Forall (fun _ t => typed t) m -> spec_up o st m = (st', m', r) ->
  typed_stats st' /\ map_Forall (fun _ t => typed t) m'.
Proof.
  intros Ho Hst Hm. assert (forall t, typed_stats (count_access t st)) as Hca.
  { intros t. destruct Hst as (? & ? & ? & ?). unfold count_access. destruct (_ || _); by apply typed_mk; cbn; try done; apply wrap_range. }
  destruct o as [| |now m1 m2 k|now|mb|k|k|k]; cbn [typed_op spec_up] in Ho |- *; try (by intros [= <- <- _]).
  - destruct (m !! k) as [t|] eqn:E; [|destruct (m1 && m2); [|by intros [= <- <- _]]]; intros [= <- <- _]; (split; [apply Hca|]).
    + apply map_Forall_insert_2; [|done]. apply typed_access; [done|]. by apply (Hm k).
    + apply map_Forall_insert_2; [|done]. by apply typed_access, typed_new.
  - intros [= <- <- _]. split; [destruct Hst as (? & ? & ? & ?); by apply typed_mk; cbn; try done; apply wrap_range|].
    intros k t. rewrite lookup_fmap. intros (t0 & Ht & ->)%fmap_Some. by apply typed_pass, (Hm k).
  - destruct (m !! k) as [t|] eqn:E; [|by intros [= <- <- _]]. destruct (on_ssd t =? 0); [by intros [= <- <- _]|]. intros [= <- <- _].
    split; [destruct Hst as (? & ? & ? & ?); by apply typed_mk; cbn; try done; apply wrap_range|]. apply map_Forall_insert_2; [|done].
    destruct (Hm k t E) as [[] _]. split; [|done]. split; try done; cbn; by left.
Qed.

Lemma typed_spec_step o s s' r : typed_op o -> typed_spec s -> spec_step o s s' r -> typed_spec s'.
Proof.
  intros Ho [Hm Hst] Hs. destruct Hs as [| | | |mb st m ks m' K1 K2 K3|o st m st' m' r Hk Hup|o m Hk]; cbn in Hm, Hst; split; cbn; try done.
  - by destruct (a && f).
  - intros k t Hk. rewrite (K3 k) in Hk. destruct (m !! k) as [t0|] eqn:E; [|done]. cbn in Hk. injection Hk as <-. case_decide as Hin; [|by apply (Hm k)].
    apply typed_mark; [by apply (Hm k t0)|]. destruct (K1 k Hin) as (t1 & Ht1 & Hc). rewrite E in Ht1. injection Ht1 as <-.
    apply andb_true_iff in Hc as [_ Hc%Z.ltb_lt]. unfold TEMP_COLD_THRESHOLD. lia.
  - destruct Hst as (? & ? & ? & ?). by apply typed_mk; cbn; try done; apply wrap_range.
  - by apply (typed_up _ _ _ _ _ _ Ho Hst Hm Hup).
  - by apply (typed_up _ _ _ _ _ _ Ho Hst Hm Hup).
Qed.

Lemma typed_spec_run os s s' rs : spec_run os s s' rs -> Forall typed_op os -> typed_spec s -> typed_spec s'.
Proof. induction 1 as [|o os s1 s2 s3 r rs Hs _ IH]; [done|]. intros [Ho Hos]%Forall_cons Ht. apply IH; [done|]. by eapply typed_spec_step. Qed.

(** C18. In every state that calls and background passes reach, the fields of
    every entry are in their widths (a temperature in 0..255, the counters of
    accesses in 32 and 16 bits), [on_ssd] is 0 or 1, the unused SSD position
    is zero, a key that is marked as on the SSD is never hot, and a key in RAM
    is never cold. *)
Theorem hybrid_typed os : alen os < 2 ^ 50 -> Forall typed_op os -> well_typed (run os start).1.
Proof.
  intros Hn Ho. destruct (hybrid_run_refines os start) as ([Hok _] & _ & Hr); [done|cbn; lia|]. apply typed_spec_run in Hr; [|done|done].
  destruct Hr as [Hm Hst]. destruct (run os start).1 as [mgr m]; cbn in *. unfold well_typed. cbn. destruct m as [map|]; cbn in *.
  - split; [split|by destruct mgr]; [|rewrite (inv_count _ Hok); by apply wrap_range]. apply Forall_forall. intros [k t] He. apply (Hm k). by apply view_elem.
  - split; [done|]. by destruct mgr.
Qed.

(** ** Witnesses *)
Definition ka : bytes := [97].
Definition script : list op :=
  [HInit true true true true 1 1; HUpdate 5 true true ka] ++ List.repeat (HPass 6) 28 ++
  [HEvict 1; HIsSsd ka; HUpdate 7 true true ka; HIsSsd ka; HPromote ka; HGet ka; HPromote ka; HShutdown; HIsSsd ka].

Lemma script_typed : Forall typed_op script.
Proof. unfold script. cbn [app List.repeat]. repeat (apply Forall_cons; split; [cbn; mach|]). constructor. Qed.

(** 148 degrees fall to 8 in 28 passes; the last marks the key. *)
Definition answers : list out :=
  [OInt 0; OUnit] ++ List.repeat OUnit 28 ++
  [OInt 0; OInt 1; OUnit; OInt 1; OInt 0; OTemp (Some (mkTemp 7 2 2 200 0 0 0)); OInt (- 1); OUnit; OInt 0].

(** A table with two cold keys in RAM: an eviction marks both, and the second
    finds none. *)
Definition kb : bytes := [98].
Definition two_keys : Hybrid := (run [HInit true true true true 1 1; HUpdate 5 true true ka; HUpdate 6 true true kb] start).1.
Definition chill (k : bytes) (s : Hybrid) : Hybrid :=
  mkHybrid (g_hybrid_manager s) ((fun map => store map k (mkTemp 5 1 1 3 0 0 0)) <$> g_temp_map s).

Definition known (k : bytes) (s : Hybrid) : bool :=
  match g_temp_map s with Some map => match temp_map_get map k with Some _ => true | None => false end | None => false end.

Lemma chill_ok k s : ok s -> known k s = true -> ok (chill k s).
Proof.
  intros [Hm Hr]. unfold ok, chill, known. destruct (g_temp_map s) as [map|]; [|done]. destruct (temp_map_get map k) as [e|] eqn:E; [|done].
  intros _. split; [|done]. cbn. by destruct (store_spec map k (mkTemp 5 1 1 3 0 0 0) e Hm E).
Qed.

Definition two_cold : Hybrid := chill kb (chill ka two_keys).

Lemma two_cold_ok : ok two_cold.
Proof.
  unfold two_cold. apply chill_ok; [|vm_compute; reflexivity]. apply chill_ok; [|vm_compute; reflexivity].
  unfold two_keys. apply hybrid_run_refines; [done|by vm_compute].
Qed.


Lemma hybrid_typed_witness : well_typed (run script start).1.
Proof. apply hybrid_typed; [by vm_compute|apply script_typed]. Defined.

(** A key on the SSD is counted as a hit in RAM until it is hot. *)
Theorem hybrid_counts :
  hybrid_is_on_ssd (run (List.firstn 30 script) start).1 ka = 1 /\
  hybrid_is_on_ssd (run (List.firstn 30 script ++ [HUpdate 7 true true ka]) start).1 ka = 1 /\
  hybrid_get_stats (run (List.firstn 30 script ++ [HUpdate 7 true true ka]) start).1 = mkStats 0 1 2 0.
Proof. split_and!; vm_compute; reflexivity. Qed.

(** Nothing is ever left for [hybrid_evict_cold_data] to do: the background
    pass marks a key in the step that makes it cold, so an eviction finds no
    cold key in RAM, answers 0 and changes nothing. *)
Theorem hybrid_evict_idle os mb s r : alen os < 2 ^ 49 -> Forall typed_op os -> step (HEvict mb) (run os start).1 = (s, r) ->
  abs s = abs (run os start).1 /\ (r = OInt 0 \/ g_hybrid_manager (run os start).1 = None).
Proof.
  intros Hn Ho E. destruct (hybrid_run_refines os start) as (Hok & Hu & Hr); [done|cbn; lia|]. apply typed_spec_run in Hr; [|done|done].
  set (s0 := (run os start).1) in *. change (used start) with 0 in Hu. destruct (hybrid_step_refines (HEvict mb) s0 s r Hok ltac:(lia) E) as (_ & _ & Hs).
  assert (sp_stats (abs s0) = None -> g_hybrid_manager s0 = None) as Hnone by (unfold abs; cbn; by destruct (g_hybrid_manager s0)).
  revert Hs Hr Hnone. generalize (abs s0) (abs s). intros a0 a1 Hs [Hm Hst] Hnone. clear E Ho Hok.
  inversion Hs as [| | | |? st m ks m' K1 K2 K3|? ? ? ? ? ? Hf|? m Hf]; subst; [|done|split; [done|right; by apply Hnone]].
  cbn in Hm, Hst. assert (size_of cold m = 0) as H0.
  { unfold size_of. rewrite (map_empty_filter_2 _ m); [done|]. intros k t Ht. cbn. destruct (Hm k t Ht) as [_ Hw]. unfold cold.
    intros [Hz Hc]%andb_true_iff. apply Z.eqb_eq in Hz. apply Z.ltb_lt in Hc. specialize (Hw Hz). unfold TEMP_COLD_THRESHOLD in Hw. lia. }
  assert (size ks = 0%nat) as Hks by (unfold needed in K2; lia). rewrite Hks. apply size_empty_inv, leibniz_equiv in Hks. subst ks. split; [|by left].
  f_equal; f_equal.
  - destruct st as [p ev rh sh]. unfold add_evictions. cbn. rewrite Z.add_0_r. f_equal. apply wrap_small, Hst.
  - apply map_eq. intros k. rewrite (K3 k). by destruct (m !! k).
Qed.

Lemma script_typed_cut : Forall typed_op (List.firstn 29 script).
Proof. pose proof script_typed as Ht. rewrite <- (List.firstn_skipn 29 script) in Ht. by apply Forall_app in Ht as [Ht _]. Qed.

Lemma hybrid_evict_idle_witness : exists s r, step (HEvict 1) (run (List.firstn 29 script) start).1 = (s, r) /\
  abs s = abs (run (List.firstn 29 script) start).1.
Proof.
  destruct (step (HEvict 1) (run (List.firstn 29 script) start).1) as [s r] eqn:E. exists s, r. split; [reflexivity|].
  exact (proj1 (hybrid_evict_idle (List.firstn 29 script) 1 s r ltac:(by vm_compute) script_typed_cut E)).
Defined.
