(* ===== verification/Reactive.v ===== *)
(** * Streams with backpressure (src/src/streams/reactive.c, modules/nexbp_module.c)

    The registry of streams, credit accounting and the five commands of the
    module.  A producer that is blocked sleeps with the lock released: the
    function [stream_bp_add] takes the clock readings of its polls, and the
    relation [sys_step] interleaves blocked producers with everything else.
    Names and arguments are C strings; the ratios (doubles) and the counters
    nothing writes are left out.  [None] is a producer still blocked when its
    polls are over. *)
From Stdlib Require Import Ascii String.
From S2P Require Import Prelude IntString WebSocket.

Definition MAX_BP_STREAMS : Z := 256.

Inductive BackpressureStrategy := BP_STRATEGY_BLOCK | BP_STRATEGY_DROP | BP_STRATEGY_SAMPLE | BP_STRATEGY_EVICT_OLD.
#[export] Instance BackpressureStrategy_eq_dec : EqDecision BackpressureStrategy.
Proof. solve_decision. Defined.
Definition strategy_num (s : BackpressureStrategy) : Z :=
  match s with BP_STRATEGY_BLOCK => 0 | BP_STRATEGY_DROP => 1 | BP_STRATEGY_SAMPLE => 2 | BP_STRATEGY_EVICT_OLD => 3 end.

Record StreamBackpressure := mkBp { name : bytes; strategy : BackpressureStrategy; max_pending : Z; current_pending : Z; credit_total : Z;
  msgs_produced : Z; msgs_consumed : Z; msgs_dropped : Z; msgs_sampled : Z; producer_blocks : Z; producer_block_us_total : Z;
  sample_rate : Z; sample_counter : Z }.
#[export] Instance bp_inhabited : Inhabited StreamBackpressure := populate (mkBp [] BP_STRATEGY_BLOCK 0 0 0 0 0 0 0 0 0 0 0).

(** [g_streams] up to [g_stream_count]; streams are never removed. *)
Definition Registry : Type := list StreamBackpressure.

(** ** Fields *)
Definition set_pending (b : StreamBackpressure) (x : Z) : StreamBackpressure :=
  mkBp (name b) (strategy b) (max_pending b) x (credit_total b) (msgs_produced b) (msgs_consumed b) (msgs_dropped b) (msgs_sampled b)
    (producer_blocks b) (producer_block_us_total b) (sample_rate b) (sample_counter b).
Definition count_dropped (b : StreamBackpressure) : StreamBackpressure :=
  mkBp (name b) (strategy b) (max_pending b) (current_pending b) (credit_total b) (msgs_produced b) (msgs_consumed b) (msgs_dropped b +64 1) (msgs_sampled b)
    (producer_blocks b) (producer_block_us_total b) (sample_rate b) (sample_counter b).
Definition count_sampled (b : StreamBackpressure) : StreamBackpressure :=
  mkBp (name b) (strategy b) (max_pending b) (current_pending b) (credit_total b) (msgs_produced b) (msgs_consumed b) (msgs_dropped b) (msgs_sampled b +64 1)
    (producer_blocks b) (producer_block_us_total b) (sample_rate b) (sample_counter b).
Definition bump_sample (b : StreamBackpressure) : StreamBackpressure :=
  mkBp (name b) (strategy b) (max_pending b) (current_pending b) (credit_total b) (msgs_produced b) (msgs_consumed b) (msgs_dropped b) (msgs_sampled b)
    (producer_blocks b) (producer_block_us_total b) (sample_rate b) (sample_counter b +64 1).
Definition count_block (us : Z) (b : StreamBackpressure) : StreamBackpressure :=
  mkBp (name b) (strategy b) (max_pending b) (current_pending b) (credit_total b) (msgs_produced b) (msgs_consumed b) (msgs_dropped b) (msgs_sampled b)
    (producer_blocks b +64 1) (producer_block_us_total b +64 us) (sample_rate b) (sample_counter b).
Definition count_consumed (n : Z) (b : StreamBackpressure) : StreamBackpressure :=
  mkBp (name b) (strategy b) (max_pending b) (current_pending b) (credit_total b) (msgs_produced b) (msgs_consumed b +64 n) (msgs_dropped b) (msgs_sampled b)
    (producer_blocks b) (producer_block_us_total b) (sample_rate b) (sample_counter b).
Definition release (n : Z) (b : StreamBackpressure) : StreamBackpressure :=
  mkBp (name b) (strategy b) (max_pending b) (current_pending b - n) (credit_total b +64 n) (msgs_produced b) (msgs_consumed b) (msgs_dropped b) (msgs_sampled b)
    (producer_blocks b) (producer_block_us_total b) (sample_rate b) (sample_counter b).
Definition configure (s : BackpressureStrategy) (max rate : Z) (b : StreamBackpressure) : StreamBackpressure :=
  mkBp (name b) s max (current_pending b) (credit_total b) (msgs_produced b) (msgs_consumed b) (msgs_dropped b) (msgs_sampled b)
    (producer_blocks b) (producer_block_us_total b) rate (sample_counter b).

(** ** The functions of reactive.c *)
Definition bp_find (reg : Registry) (n : bytes) : option Z :=
  find (fun i => bytes_eqb (name (aget reg i)) n) (seqZ 0 (alen reg)).

Definition stream_bp_init (calloc_ok : bool) (reg : Registry) (stream_name : bytes) (s : BackpressureStrategy) (max : Z) : Registry * Z :=
  if max =? 0 then (reg, - 1)
  else match bp_find reg stream_name with
  | Some _ => (reg, - 1)
  | None =>
      if (MAX_BP_STREAMS <=? alen reg) || negb calloc_ok then (reg, - 1)
      else (reg ++ [mkBp (take 255 stream_name) s max 0 max 0 0 0 0 0 0 10 0], 0)
  end.

(** The message is counted. *)
Definition produce (b : StreamBackpressure) : StreamBackpressure :=
  mkBp (name b) (strategy b) (max_pending b) (current_pending b +64 1) (credit_total b) (msgs_produced b +64 1) (msgs_consumed b) (msgs_dropped b) (msgs_sampled b)
    (producer_blocks b) (producer_block_us_total b) (sample_rate b) (sample_counter b).

(** A producer is through with a result, or waits. *)
Inductive attempt := Through (b : StreamBackpressure) (r : Z) | Wait.

Definition bp_enter (b : StreamBackpressure) : attempt :=
  if max_pending b <=? current_pending b then
    match strategy b with
    | BP_STRATEGY_DROP => Through (count_dropped b) 1
    | BP_STRATEGY_SAMPLE =>
        let b := bump_sample b in
        if negb (sample_counter b mod sample_rate b =? 0) then Through (count_sampled b) 2 else Through (produce b) 0
    | BP_STRATEGY_EVICT_OLD => Through (produce (if 0 <? current_pending b then set_pending b (current_pending b - 1) else b)) 0
    | BP_STRATEGY_BLOCK => Wait
    end
  else Through (produce b) 0.

(** One poll of a producer blocked since [t0]: the clock, then the stream
    with the lock held again; [t1] is the clock after the loop. *)
Definition bp_poll (t0 timeout_ms now t1 : Z) (b : StreamBackpressure) : attempt :=
  let elapsed_ms := (now -64 t0) / 1000 in
  if (0 <? timeout_ms) && (timeout_ms <=? elapsed_ms) then Through (count_block (t1 -64 t0) b) (- 1)
  else if max_pending b <=? current_pending b then Wait
  else Through (produce (count_block (t1 -64 t0) b)) 0.

(** [polls]: for each poll the two clock readings and what the other threads
    have done to the registry meanwhile. *)
Fixpoint bp_block (polls : list (Z * Z * (Registry -> Registry))) (t0 timeout_ms i : Z) (reg : Registry) : option (Registry * Z) :=
  match polls with
  | [] => None
  | (now, t1, interf) :: polls =>
      let reg := interf reg in
      match bp_poll t0 timeout_ms now t1 (aget reg i) with
      | Through b r => Some (aset reg i b, r)
      | Wait => bp_block polls t0 timeout_ms i reg
      end
  end.

(** The registry, the result and the identifier written: [id_us] is the clock
    it is made of, [cap] the room for it. *)
Definition stream_bp_add (polls : list (Z * Z * (Registry -> Registry))) (t0 id_us : Z) (reg : Registry) (stream_name : bytes) (timeout_ms cap : Z)
    : option (Registry * Z * bytes) :=
  let written s := take (Z.to_nat (cap - 1)) s in
  match bp_find reg stream_name with
  | None => Some (reg, 0, written (bytes_of "*"))
  | Some i =>
      let id := written (decimal (id_us / 1000) ++ bytes_of "-0") in
      match bp_enter (aget reg i) with
      | Through b r => Some (aset reg i b, r, if r =? 0 then id else [])
      | Wait => '(reg, r) ← bp_block polls t0 timeout_ms i reg; Some (reg, r, if r =? 0 then id else [])
      end
  end.

Definition stream_bp_read (reg : Registry) (stream_name : bytes) (cnt : Z) : Registry * Z * Z :=
  match bp_find reg stream_name with
  | None => (reg, - 1, 0)
  | Some i =>
      let b := aget reg i in
      let available := if current_pending b <? cnt then u32 (current_pending b) else cnt in
      (aset reg i (count_consumed available b), 0, available)
  end.

Definition stream_bp_ack (reg : Registry) (stream_name : bytes) (nids : Z) : Registry * Z :=
  if nids <? 0 then (reg, - 1)
  else match bp_find reg stream_name with
  | None => (reg, - 1)
  | Some i =>
      let b := aget reg i in
      let to_release := if current_pending b <? nids then current_pending b else nids in
      (aset reg i (release to_release b), i32 to_release)
  end.

Definition stream_bp_get_info (reg : Registry) (stream_name : bytes) : option StreamBackpressure :=
  i ← bp_find reg stream_name; Some (aget reg i).

(** [strtoll] in base ten: white space, a sign, digits; out of range is
    clamped. *)
Definition is_space (c : Z) : bool := (c =? 32) || ((9 <=? c) && (c <=? 13)).
Fixpoint skip_spaces (s : bytes) : bytes := match s with c :: s' => if is_space c then skip_spaces s' else s | [] => [] end.
Fixpoint leading_digits (s : bytes) (acc : Z) : Z := match s with c :: s' => if is_digit c then leading_digits s' (acc * 10 + (c - 48)) else acc | [] => acc end.
Definition strtoll (s : bytes) : Z :=
  let v := match skip_spaces s with
           | c :: s' => if c =? 45 then - leading_digits s' 0 else if c =? 43 then leading_digits s' 0 else leading_digits (c :: s') 0
           | [] => 0
           end in
  Z.max (- 2 ^ 63) (Z.min (2 ^ 63 - 1) v).
Definition atoll (s : bytes) : Z := strtoll s.
Definition atoi (s : bytes) : Z := i32 (strtoll s).

Definition parse_config_strategy (value : bytes) : option BackpressureStrategy :=
  if bytes_eqb value (bytes_of "BLOCK") then Some BP_STRATEGY_BLOCK
  else if bytes_eqb value (bytes_of "DROP") then Some BP_STRATEGY_DROP
  else if bytes_eqb value (bytes_of "SAMPLE") then Some BP_STRATEGY_SAMPLE
  else if bytes_eqb value (bytes_of "EVICT_OLD") then Some BP_STRATEGY_EVICT_OLD
  else None.

Definition bp_config (key value : bytes) (b : StreamBackpressure) : StreamBackpressure :=
  if bytes_eqb key (bytes_of "max-pending") then configure (strategy b) (u64 (atoll value)) (sample_rate b) b
  else if bytes_eqb key (bytes_of "backpressure-strategy") then configure (default (strategy b) (parse_config_strategy value)) (max_pending b) (sample_rate b) b
  else if bytes_eqb key (bytes_of "sample-rate") then
    let rate := u32 (atoi value) in configure (strategy b) (max_pending b) (if rate =? 0 then 1 else rate) b
  else b.

Definition stream_bp_config (reg : Registry) (stream_name key value : bytes) : Registry * Z :=
  match bp_find reg stream_name with
  | None => (reg, - 1)
  | Some i => (aset reg i (bp_config key value (aget reg i)), 0)
  end.

(** ** The commands of nexbp_module.c

    [argv] has the name of the command first.  [None] is a command that does
    not return. *)
Inductive Reply := RArity | RErr (msg : string) | RSimple (s : bytes) | RInt (n : Z) | RInfo (l : list (string * Z)).

Definition lower (c : Z) : Z := if (65 <=? c) && (c <=? 90) then c + 32 else c.
Definition strcase_eq (s : bytes) (lit : string) : bool := bytes_eqb (lower <$> c_string s) (lower <$> bytes_of lit).

Definition parse_strategy (s : bytes) : option BackpressureStrategy :=
  if strcase_eq s "BLOCK" then Some BP_STRATEGY_BLOCK
  else if strcase_eq s "DROP" then Some BP_STRATEGY_DROP
  else if strcase_eq s "SAMPLE" then Some BP_STRATEGY_SAMPLE
  else if strcase_eq s "EVICT_OLD" then Some BP_STRATEGY_EVICT_OLD
  else None.

Definition bad_name (s : bytes) (room : Z) : bool := (alen s =? 0) || (room <=? alen s).
Definition arg (argv : list bytes) (i : Z) : bytes := aget argv i.

Definition XBPInit (calloc_ok : bool) (reg : Registry) (argv : list bytes) : Registry * Reply :=
  if negb (alen argv =? 5) then (reg, RArity)
  else if bad_name (arg argv 1) 256 then (reg, RErr "ERR nome stream non valido")
  else if negb (strcase_eq (arg argv 2) "STRATEGY") then (reg, RErr "ERR sintassi: XBP.INIT stream STRATEGY <s> max_pending")
  else match parse_strategy (arg argv 3) with
  | None => (reg, RErr "ERR strategy deve essere BLOCK|DROP|SAMPLE|EVICT_OLD")
  | Some s =>
      match string2llScalar (arg argv 4) with
      | Some max =>
          if max <=? 0 then (reg, RErr "ERR max_pending deve essere un intero positivo")
          else let '(reg, rc) := stream_bp_init calloc_ok reg (c_string (arg argv 1)) s max in
            (reg, if rc =? 0 then RSimple (bytes_of "OK") else RErr "ERR inizializzazione backpressure fallita")
      | None => (reg, RErr "ERR max_pending deve essere un intero positivo")
      end
  end.

(** The timeout, when there is one, and where the fields start. *)
Definition add_timeout (argv : list bytes) : option (Z * Z) :=
  if strcase_eq (arg argv 2) "TIMEOUT" && (5 <=? alen argv) then
    t ← string2llScalar (arg argv 3);
    if t <? 0 then None else Some (u32 t, 4)
  else Some (0, 2).

Definition XBPAdd (polls : list (Z * Z * (Registry -> Registry))) (t0 id_us : Z) (reg : Registry) (argv : list bytes) : option (Registry * Reply) :=
  if alen argv <? 4 then Some (reg, RArity)
  else if bad_name (arg argv 1) 256 then Some (reg, RErr "ERR nome stream non valido")
  else match add_timeout argv with
  | None => Some (reg, RErr "ERR TIMEOUT deve essere un intero >= 0 (ms)")
  | Some (timeout_ms, start) =>
      let nfield_args := alen argv - start in
      if (nfield_args <=? 0) || negb (nfield_args mod 2 =? 0) then Some (reg, RErr "ERR numero dispari di field/value")
      else
        '(reg, rc, id) ← stream_bp_add polls t0 id_us reg (c_string (arg argv 1)) timeout_ms 128;
        Some (reg, if rc =? 0 then RSimple id
                   else if rc =? 1 then RErr "DROPPED buffer pieno, messaggio scartato (strategia DROP)"
                   else if rc =? 2 then RErr "SAMPLED messaggio scartato dal campionamento (strategia SAMPLE)"
                   else RErr "ERR XBP.ADD fallito (stream non inizializzato con XBP.INIT o backpressure BLOCK con timeout scaduto)")
  end.

Definition XBPAck (reg : Registry) (argv : list bytes) : Registry * Reply :=
  if alen argv <? 4 then (reg, RArity)
  else if bad_name (arg argv 1) 256 then (reg, RErr "ERR nome stream non valido")
  else if bad_name (arg argv 2) 128 then (reg, RErr "ERR nome group non valido")
  else let '(reg, rc) := stream_bp_ack reg (c_string (arg argv 1)) (alen argv - 3) in
    (reg, if rc <? 0 then RErr "ERR XBP.ACK fallito" else RInt rc).

Definition XBPInfo (reg : Registry) (argv : list bytes) : Reply :=
  if negb (alen argv =? 2) then RArity
  else if bad_name (arg argv 1) 256 then RErr "ERR nome stream non valido"
  else match stream_bp_get_info reg (c_string (arg argv 1)) with
  | None => RErr "ERR stream non inizializzato con XBP.INIT"
  | Some b => RInfo [("max_pending"%string, i64 (max_pending b)); ("current_pending"%string, i64 (current_pending b));
      ("msgs_produced"%string, i64 (msgs_produced b)); ("msgs_dropped"%string, i64 (msgs_dropped b)); ("msgs_sampled"%string, i64 (msgs_sampled b));
      ("producer_blocks"%string, i64 (producer_blocks b)); ("credit_total"%string, i64 (credit_total b)); ("strategy"%string, strategy_num (strategy b))]
  end.

Definition XBPConfig (reg : Registry) (argv : list bytes) : Registry * Reply :=
  if negb (alen argv =? 4) then (reg, RArity)
  else if bad_name (arg argv 1) 256 then (reg, RErr "ERR nome stream non valido")
  else if (64 <=? alen (arg argv 2)) || (64 <=? alen (arg argv 3)) then (reg, RErr "ERR key/value troppo lunghi")
  else let '(reg, rc) := stream_bp_config reg (c_string (arg argv 1)) (c_string (arg argv 2)) (c_string (arg argv 3)) in
    (reg, if rc =? 0 then RSimple (bytes_of "OK") else RErr "ERR XBP.CONFIG fallito (chiave sconosciuta o stream non inizializzato)").

(** ** Threads

    [waiting]: the producers that are blocked, with their stream, start and
    timeout.  One step is a call, or a poll of a blocked producer. *)
Record Waiter := mkWaiter { w_stream : Z; w_t0 : Z; w_timeout : Z }.
Record Sys := mkSys { reg : Registry; waiting : list Waiter }.

Inductive label :=
  | LInit (n : bytes) (s : BackpressureStrategy) (max rc : Z) | LAdd | LPoll | LRead | LAck | LConfig (n key value : bytes) (rc : Z).

Inductive sys_step : label -> Sys -> Sys -> Prop :=
  | StInit ok s n st max r rc : in_u 64 max -> stream_bp_init ok (reg s) n st max = (r, rc) -> sys_step (LInit n st max rc) s (mkSys r (waiting s))
  | StAddPass s n : bp_find (reg s) n = None -> sys_step LAdd s s
  | StAdd s n i b rc : bp_find (reg s) n = Some i -> bp_enter (aget (reg s) i) = Through b rc -> sys_step LAdd s (mkSys (aset (reg s) i b) (waiting s))
  | StBlock s n i t0 timeout : bp_find (reg s) n = Some i -> bp_enter (aget (reg s) i) = Wait ->
      sys_step LAdd s (mkSys (reg s) (waiting s ++ [mkWaiter i t0 timeout]))
  | StPoll s k w now t1 b rc : waiting s !! k = Some w -> bp_poll (w_t0 w) (w_timeout w) now t1 (aget (reg s) (w_stream w)) = Through b rc ->
      sys_step LPoll s (mkSys (aset (reg s) (w_stream w) b) (delete k (waiting s)))
  | StPollWait s k w now t1 : waiting s !! k = Some w -> bp_poll (w_t0 w) (w_timeout w) now t1 (aget (reg s) (w_stream w)) = Wait -> sys_step LPoll s s
  | StRead s n cnt r rc out : in_u 32 cnt -> stream_bp_read (reg s) n cnt = (r, rc, out) -> sys_step LRead s (mkSys r (waiting s))
  | StAck s n nids r rc : stream_bp_ack (reg s) n nids = (r, rc) -> sys_step LAck s (mkSys r (waiting s))
  | StConfig s n key value r rc : stream_bp_config (reg s) n key value = (r, rc) -> sys_step (LConfig n key value rc) s (mkSys r (waiting s)).

Inductive sys_run : list label -> Sys -> Prop :=
  | RunStart : sys_run [] (mkSys [] [])
  | RunStep ls l s s' : sys_run ls s -> sys_step l s s' -> sys_run (l :: ls) s'.

(** ** Credit *)

(** The limits a stream has been given: by XBP.INIT and by XBP.CONFIG. *)
Definition limit_of (stream : bytes) (l : label) : Z :=
  match l with
  | LInit n _ max rc => if (rc =? 0) && bytes_eqb (take 255 n) stream then max else 0
  | LConfig n key value rc => if (rc =? 0) && bytes_eqb n stream && bytes_eqb key (bytes_of "max-pending") then u64 (atoll value) else 0
  | _ => 0
  end.
Definition largest_limit (ls : list label) (stream : bytes) : Z := foldr Z.max 0 (limit_of stream <$> ls).

(** A stream that loses nothing: the messages produced are those pending and
    those whose credit has come back to the one of XBP.INIT. *)
Record inv_bp (ls : list label) (b : StreamBackpressure) : Prop := {
  ib_strategy : strategy b = BP_STRATEGY_BLOCK \/ strategy b = BP_STRATEGY_DROP;
  ib_pending : 0 <= current_pending b <= largest_limit ls (name b);
  ib_max : in_u 64 (max_pending b) /\ max_pending b <= largest_limit ls (name b);
  ib_credit : exists n st max, LInit n st max 0 ∈ ls /\ take 255 n = name b /\ credit_total b = u64 (msgs_produced b - current_pending b + max);
  ib_limit : (forall key value rc, LConfig (name b) key value rc ∈ ls -> key <> bytes_of "max-pending") -> current_pending b <= max_pending b;
  ib_produced : in_u 64 (msgs_produced b) }.

(** No strategy that drops accepted messages or lets them pass a full stream. *)
Definition tame (l : label) : Prop :=
  match l with
  | LInit _ s _ _ => s = BP_STRATEGY_BLOCK \/ s = BP_STRATEGY_DROP
  | LConfig _ key value _ => key = bytes_of "backpressure-strategy" -> parse_config_strategy value <> Some BP_STRATEGY_SAMPLE /\ parse_config_strategy value <> Some BP_STRATEGY_EVICT_OLD
  | _ => True
  end.

Record sys_ok (ls : list label) (s : Sys) : Prop := {
  so_streams : Forall (inv_bp ls) (reg s);
  so_count : alen (reg s) <= MAX_BP_STREAMS;
  so_waiters : Forall (fun w => 0 <= w_stream w < alen (reg s)) (waiting s) }.

Lemma bp_find_some r n i : bp_find r n = Some i -> 0 <= i < alen r /\ name (aget r i) = n.
Proof.
  unfold bp_find. intros E. pose proof (find_seqZ (fun i => bytes_eqb (name (aget r i)) n) (alen r)) as H. rewrite E in H.
  destruct H as [Hr Hn%bytes_eqb_eq]. done.
Qed.

Lemma limit_cons l ls n : 0 <= limit_of n l -> largest_limit ls n <= largest_limit (l :: ls) n /\ limit_of n l <= largest_limit (l :: ls) n.
Proof. unfold largest_limit. cbn. lia. Qed.

Lemma inv_cons l ls b : inv_bp ls b -> inv_bp (l :: ls) b.
Proof.
  intros [H1 H2 [H3 H3'] (n & st & mx & Hi & Hn & Hc) H5 H6].
  assert (largest_limit ls (name b) <= largest_limit (l :: ls) (name b)) as Hl by (unfold largest_limit; cbn; lia).
  split; [done|lia|split; [done|lia]| | |done].
  - exists n, st, mx. split; [by apply list_elem_of_further|done].
  - intros Hk. apply H5. intros key value rc Hin. eapply Hk. by apply list_elem_of_further.
Qed.

Lemma inv_produce ls b : inv_bp ls b -> current_pending b < max_pending b -> inv_bp ls (produce b).
Proof.
  intros [H1 H2 [H3 H3'] (n & st & mx & Hi & Hn & Hc) H5 H6] Hlt. unfold in_u in H3. split; cbn [strategy current_pending max_pending name credit_total msgs_produced produce]; try done.
  - rewrite wrap_small by mach. lia.
  - exists n, st, mx. split_and!; [done|done|]. rewrite Hc. rewrite (wrap_small 64 (current_pending b + 1)) by mach.
    replace (msgs_produced b +64 1 - (current_pending b + 1) + mx) with (msgs_produced b +64 1 + (mx - current_pending b - 1)) by lia.
    rewrite wrap_add_l. f_equal. lia.
  - intros _. rewrite wrap_small by mach. lia.
  - by apply wrap_range.
Qed.

Lemma inv_count_dropped ls b : inv_bp ls b -> inv_bp ls (count_dropped b).
Proof. by intros []. Qed.
Lemma inv_count_block ls us b : inv_bp ls b -> inv_bp ls (count_block us b).
Proof. by intros []. Qed.
Lemma inv_count_consumed ls n b : inv_bp ls b -> inv_bp ls (count_consumed n b).
Proof. by intros []. Qed.

Lemma inv_release ls n b : inv_bp ls b -> 0 <= n <= current_pending b -> inv_bp ls (release n b).
Proof.
  intros [H1 H2 H3 (m & st & mx & Hi & Hn & Hc) H5 H6] Hr. split; cbn [strategy current_pending max_pending name credit_total msgs_produced release]; try done; [lia| |].
  - exists m, st, mx. split_and!; [done|done|]. rewrite Hc, wrap_add_l. f_equal. lia.
  - intros Hk. specialize (H5 Hk). lia.
Qed.

Lemma inv_enter ls b b' rc : inv_bp ls b -> bp_enter b = Through b' rc -> inv_bp ls b'.
Proof.
  intros Hi. unfold bp_enter. destruct (Z.leb_spec (max_pending b) (current_pending b)); [|intros [= <- _]; by apply inv_produce].
  destruct (ib_strategy _ b Hi) as [-> | ->]; [done|]. intros [= <- _]. by apply inv_count_dropped.
Qed.

Lemma inv_poll ls b t0 timeout now t1 b' rc : inv_bp ls b -> bp_poll t0 timeout now t1 b = Through b' rc -> inv_bp ls b'.
Proof.
  intros Hi. unfold bp_poll. destruct (_ && _); [intros [= <- _]; by apply inv_count_block|].
  destruct (Z.leb_spec (max_pending b) (current_pending b)); [done|]. intros [= <- _]. apply inv_produce; [by apply inv_count_block|done].
Qed.

Lemma inv_config ls key value b : tame (LConfig (name b) key value 0) -> inv_bp (LConfig (name b) key value 0 :: ls) b ->
  inv_bp (LConfig (name b) key value 0 :: ls) (bp_config key value b).
Proof.
  intros Hs [H1 H2 H3 H4 H5 H6]. unfold bp_config. destruct (bytes_eqb key (bytes_of "max-pending")) eqn:E1.
  - split; cbn [strategy current_pending max_pending name credit_total msgs_produced configure]; try done.
    + split; [by apply wrap_range|]. pose proof (wrap_range 64 (atoll value) ltac:(lia)) as Hw. unfold in_u in Hw.
      unfold largest_limit. cbn [fmap list_fmap foldr limit_of]. rewrite E1, (proj2 (bytes_eqb_eq (name b) (name b))) by done. cbn [andb Z.eqb]. lia.
    + intros Hk. apply bytes_eqb_eq in E1. destruct (Hk key value 0 ltac:(apply list_elem_of_here) E1).
  - destruct (bytes_eqb key (bytes_of "backpressure-strategy")) eqn:E2.
    + apply bytes_eqb_eq in E2. destruct (Hs E2) as [Ha Hb]. split; cbn [strategy current_pending max_pending name credit_total msgs_produced configure]; try done.
      destruct (parse_config_strategy value) as [[]|]; cbn; auto; done.
    + destruct (bytes_eqb key (bytes_of "sample-rate")); by split.
Qed.

Lemma update_ok ls s i b : sys_ok ls s -> 0 <= i < alen (reg s) -> inv_bp ls b -> sys_ok ls (mkSys (aset (reg s) i b) (waiting s)).
Proof.
  intros [H1 H2 H3] Hr Hb. split; cbn; [by apply Forall_aset|by rewrite alen_aset|]. by rewrite alen_aset.
Qed.

Lemma bp_init_ok ls okc r n st max r' rc : (st = BP_STRATEGY_BLOCK \/ st = BP_STRATEGY_DROP) -> in_u 64 max -> stream_bp_init okc r n st max = (r', rc) ->
  Forall (inv_bp (LInit n st max rc :: ls)) r -> alen r <= MAX_BP_STREAMS -> Forall (inv_bp (LInit n st max rc :: ls)) r' /\ alen r <= alen r' <= MAX_BP_STREAMS.
Proof.
  intros Hs Hm. unfold stream_bp_init. destruct (max =? 0) eqn:E0; [intros [= <- _]; done|]. destruct (bp_find r n); [intros [= <- _]; done|].
  destruct (Z.leb_spec MAX_BP_STREAMS (alen r)); cbn [orb]; [intros [= <- _]; done|]. destruct okc; cbn [negb]; intros [= <- <-]; [|done].
  intros Hf Hl. rewrite alen_app. change (alen [_]) with 1. split; [|lia]. apply Forall_app. split; [done|]. apply Forall_singleton.
  unfold in_u in Hm. assert (max <= largest_limit (LInit n st max 0 :: ls) (take 255 n)) as Hlim.
  { unfold largest_limit. cbn [fmap list_fmap limit_of foldr]. rewrite (proj2 (bytes_eqb_eq (take 255 n) (take 255 n))) by done. cbn [andb Z.eqb]. lia. }
  split; cbn [strategy current_pending max_pending name credit_total msgs_produced]; try done; [lia| |lia].
  exists n, st, max. split_and!; [apply list_elem_of_here|done|]. by rewrite wrap_small by mach.
Qed.

Lemma sys_step_ok ls l s s' : tame l -> sys_ok ls s -> sys_step l s s' -> sys_ok (l :: ls) s'.
Proof.
  intros Ht Hok0 Hs. assert (sys_ok (l :: ls) s) as Hok.
  { destruct Hok0 as [H1 H2 H3]. split; [|done|done]. eapply Forall_impl; [exact H1|]. intros b. apply inv_cons. }
  pose proof Hok as [H1 H2 H3].
  assert (forall i, 0 <= i < alen (reg s) -> inv_bp (l :: ls) (aget (reg s) i)) as Hg by (intros i Hr; by apply Forall_aget).
  destruct Hs as [ok s n st max r rc Hm E|s n E|s n i b rc E Eb|s n i t0 timeout E Eb|s k w now t1 b rc Ew Eb|s k w now t1 Ew Eb|s n cnt r rc o Hc E|s n nids r rc E|s n key value r rc E].
  - destruct (bp_init_ok _ _ _ _ _ _ _ _ Ht Hm E H1 H2) as [Hf Hl]. split; [done|cbn; lia|]. eapply Forall_impl; [exact H3|]. cbn. lia.
  - done.
  - destruct (bp_find_some _ _ _ E) as [Hr _]. apply update_ok; [done|done|]. by eapply inv_enter; [apply Hg|].
  - destruct (bp_find_some _ _ _ E) as [Hr _]. split; [done|done|]. cbn. apply Forall_app. split; [done|]. by apply Forall_singleton.
  - assert (0 <= w_stream w < alen (reg s)) as Hr by (rewrite Forall_forall in H3; by apply H3, (list_elem_of_lookup_2 _ k)).
    apply (update_ok _ (mkSys (reg s) (delete k (waiting s)))); [split; [done|done|by apply Forall_delete]|done|]. by eapply inv_poll; [apply Hg|].
  - done.
  - unfold stream_bp_read in E. destruct (bp_find (reg s) n) as [i|] eqn:Ef; injection E as <- _ _; [|by destruct s].
    destruct (bp_find_some _ _ _ Ef) as [Hr _]. apply update_ok; [done|done|]. by apply inv_count_consumed, Hg.
  - unfold stream_bp_ack in E. destruct (Z.ltb_spec nids 0); [injection E as <- _; by destruct s|].
    destruct (bp_find (reg s) n) as [i|] eqn:Ef; injection E as <- _; [|by destruct s]. destruct (bp_find_some _ _ _ Ef) as [Hr _].
    apply update_ok; [done|done|]. apply inv_release; [by apply Hg|]. pose proof (ib_pending _ _ (Hg i Hr)).
    destruct (Z.ltb_spec (current_pending (aget (reg s) i)) nids); lia.
  - unfold stream_bp_config in E. destruct (bp_find (reg s) n) as [i|] eqn:Ef; injection E as <- <-; [|by destruct s].
    destruct (bp_find_some _ _ _ Ef) as [Hr Hn]. subst n. apply update_ok; [done|done|]. by apply inv_config, Hg.
Qed.


(** A blocked producer gets on at its next poll once its timeout is over,
    with the result -1, or when there is credit, and then its message is
    counted. *)
Theorem reactive_unblocks t0 timeout now t1 b :
  (0 < timeout -> 1000 * timeout <= now -64 t0 -> bp_poll t0 timeout now t1 b = Through (count_block (t1 -64 t0) b) (- 1)) /\
  (current_pending b < max_pending b -> exists b' r, bp_poll t0 timeout now t1 b = Through b' r /\
     (r = - 1 \/ r = 0 /\ current_pending b' = current_pending b +64 1 /\ msgs_produced b' = msgs_produced b +64 1)).
Proof.
  unfold bp_poll. split.
  - intros Ht Hn. rewrite (proj2 (Z.ltb_lt 0 timeout)) by done. rewrite (proj2 (Z.leb_le _ _)); [done|]. apply Z.div_le_lower_bound; lia.
  - intros Hc. destruct (_ && _); [by eexists _, _; split; [|left]|]. rewrite (proj2 (Z.leb_gt _ _)) by done. by eexists _, _; split; [|right].
Qed.

(** Commands run one at a time: while XBP.ADD waits no other can run.  On a
    full stream with the strategy BLOCK and no TIMEOUT (or a timeout that is
    a multiple of 2^32) it never returns, however often it polls. *)
Lemma bp_block_stuck polls t0 i r : Forall (fun p : Z * Z * (Registry -> Registry) => p.2 r = r) polls ->
  max_pending (aget r i) <= current_pending (aget r i) -> bp_block polls t0 0 i r = None.
Proof.
  intros Hp Hf. induction polls as [|[[now t1] f] polls IH]; [done|]. apply Forall_cons in Hp as [Hid Hp]. cbn in Hid |- *. rewrite Hid.
  unfold bp_poll. cbn. rewrite (proj2 (Z.leb_le _ _)) by done. by apply IH.
Qed.

Theorem xbp_add_hangs polls t0 id_us r i argv : Forall (fun p : Z * Z * (Registry -> Registry) => p.2 r = r) polls ->
  bp_find r (c_string (arg argv 1)) = Some i -> strategy (aget r i) = BP_STRATEGY_BLOCK -> max_pending (aget r i) <= current_pending (aget r i) ->
  4 <= alen argv -> bad_name (arg argv 1) 256 = false -> (exists start, add_timeout argv = Some (0, start) /\ start < alen argv /\ (alen argv - start) mod 2 = 0) ->
  XBPAdd polls t0 id_us r argv = None.
Proof.
  intros Hp Hf Hs Hfull Ha Hn (start & Ht & Hl & Hm). unfold XBPAdd. rewrite (proj2 (Z.ltb_ge (alen argv) 4)), Hn, Ht by done.
  rewrite (proj2 (Z.leb_gt _ 0)) by lia. rewrite Hm. cbn [orb negb Z.eqb]. unfold stream_bp_add. rewrite Hf. unfold bp_enter.
  rewrite (proj2 (Z.leb_le _ _)), Hs by done. by rewrite (bp_block_stuck polls t0 i r Hp Hfull).
Qed.

(** ** Traces *)
Definition str (s : string) : bytes := bytes_of s.
Definition fill (strat : string) : Registry :=
  (XBPInit true [] [str "xbp.init"; str "s"; str "STRATEGY"; str strat; str "2"]).1.
Definition add (r : Registry) : Registry := match XBPAdd [] 0 5000000 r [str "xbp.add"; str "s"; str "f"; str "v"] with Some (r, _) => r | None => r end.

(** With SAMPLE every tenth message passes a full stream: the pending count
    leaves its limit behind. *)
Theorem sample_exceeds : current_pending (aget (Nat.iter 42 add (fill "SAMPLE")) 0) = 6 /\ max_pending (aget (fill "SAMPLE") 0) = 2.
Proof. split; vm_compute; reflexivity. Qed.

(** An unknown configuration key is answered with OK; a limit is read with
    [atoll], so that a word sets it to 0 and blocks every producer. *)
Theorem config_anything :
  (XBPConfig (fill "DROP") [str "xbp.config"; str "s"; str "no-such-key"; str "1"]).2 = RSimple (str "OK") /\
  max_pending (aget (XBPConfig (fill "DROP") [str "xbp.config"; str "s"; str "max-pending"; str "many"]).1 0) = 0.
Proof. split; vm_compute; reflexivity. Qed.

(** A TIMEOUT of 2^32 ms is no timeout. *)
Theorem timeout_wraps : add_timeout [str "xbp.add"; str "s"; str "TIMEOUT"; str "4294967296"; str "f"; str "v"] = Some (0, 4).
Proof. vm_compute. reflexivity. Qed.

(** ** Witnesses *)
Definition block2 : Registry := Nat.iter 2 add (fill "BLOCK").

Lemma xbp_add_hangs_witness : XBPAdd (List.repeat (7000000, 7000001, fun r => r) 20) 6000000 5000000 block2 [str "xbp.add"; str "s"; str "f"; str "v"] = None.
Proof.
  apply (xbp_add_hangs _ _ _ block2 0); try (vm_compute; congruence).
  - apply Forall_forall. intros x Hx%list_elem_of_In%repeat_spec. by subst x.
  - exists 2. split_and!; vm_compute; congruence.
Defined.

Lemma reactive_unblocks_witness : bp_poll 0 5 6000 7000 (aget block2 0) = Through (count_block 7000 (aget block2 0)) (- 1).
Proof. apply (reactive_unblocks 0 5 6000 7000 (aget block2 0)); vm_compute; congruence. Defined.

