(* ===== verification/Bits.v ===== *)
(** * Bits of a string (src/src/bitops.c, the helpers)

    Counting bits in its scalar, AVX2, NEON and SVE2 versions, looking for a
    bit, and integers of 1 to 64 bits at any bit offset with their overflow
    checks.  A string is the list of its bytes; bit 0 is the most significant
    bit of the first byte ([bits_of]).  A vector register is a list of bytes,
    lowest first. *)
From S2P Require Import Prelude ByteMem.

(** ** Counting *)
Definition bitsinbyte : list Z := [
  0; 1; 1; 2; 1; 2; 2; 3; 1; 2; 2; 3; 2; 3; 3; 4; 1; 2; 2; 3; 2; 3; 3; 4; 2; 3; 3; 4; 3; 4; 4; 5;
  1; 2; 2; 3; 2; 3; 3; 4; 2; 3; 3; 4; 3; 4; 4; 5; 2; 3; 3; 4; 3; 4; 4; 5; 3; 4; 4; 5; 4; 5; 5; 6;
  1; 2; 2; 3; 2; 3; 3; 4; 2; 3; 3; 4; 3; 4; 4; 5; 2; 3; 3; 4; 3; 4; 4; 5; 3; 4; 4; 5; 4; 5; 5; 6;
  2; 3; 3; 4; 3; 4; 4; 5; 3; 4; 4; 5; 4; 5; 5; 6; 3; 4; 4; 5; 4; 5; 5; 6; 4; 5; 5; 6; 5; 6; 6; 7;
  1; 2; 2; 3; 2; 3; 3; 4; 2; 3; 3; 4; 3; 4; 4; 5; 2; 3; 3; 4; 3; 4; 4; 5; 3; 4; 4; 5; 4; 5; 5; 6;
  2; 3; 3; 4; 3; 4; 4; 5; 3; 4; 4; 5; 4; 5; 5; 6; 3; 4; 4; 5; 4; 5; 5; 6; 4; 5; 5; 6; 5; 6; 6; 7;
  2; 3; 3; 4; 3; 4; 4; 5; 3; 4; 4; 5; 4; 5; 5; 6; 3; 4; 4; 5; 4; 5; 5; 6; 4; 5; 5; 6; 5; 6; 6; 7;
  3; 4; 4; 5; 4; 5; 5; 6; 4; 5; 5; 6; 5; 6; 6; 7; 4; 5; 5; 6; 5; 6; 6; 7; 5; 6; 6; 7; 6; 7; 7; 8].

(** [for (...) bits += bitsinbyte[p[i]]] *)
Definition count_bytes (bits : Z) (s : bytes) : Z := fold_left (fun n b => n + aget bitsinbyte b) s bits.

(** The bytes before the address is a multiple of 4. *)
Fixpoint count_head (addr bits : Z) (s : bytes) : Z * bytes :=
  match s with
  | b :: s' => if Z.land addr 3 =? 0 then (bits, s) else count_head (addr + 1) (bits + aget bitsinbyte b) s'
  | [] => (bits, [])
  end.

(** Sums of pairs, then of groups of four. *)
Definition swar (aux : Z) : Z :=
  let aux := aux -32 Z.land (Z.shiftr aux 1) 0x55555555 in
  Z.land aux 0x33333333 +32 Z.land (Z.shiftr aux 2) 0x33333333.
(** The bits of each byte in that byte. *)
Definition swar_bytes (aux : Z) : Z := Z.land (aux +32 Z.shiftr aux 4) 0x0F0F0F0F.

(** Seven 32-bit words. *)
Definition count28 (s : bytes) : Z :=
  let w i := swar_bytes (swar (le_val (take 4 (drop (4 * i) s)))) in
  let sum := w 0%nat +32 w 1%nat +32 w 2%nat +32 w 3%nat +32 w 4%nat +32 w 5%nat +32 w 6%nat in
  Z.shiftr (wrap 32 (sum * 0x01010101)) 24.

Fixpoint count_words (fuel : nat) (bits : Z) (s : bytes) : res (Z * bytes) :=
  if 28 <=? alen s then
    match fuel with
    | O => OutOfFuel
    | S fuel => count_words fuel (bits + count28 (take 28 s)) (drop 28 s)
    end
  else Ok (bits, s).

(** [addr]: the address of [s], the [count] bytes to look at. *)
Definition popcountScalar (addr : Z) (s : bytes) : res Z :=
  let '(bits, s) := count_head addr 0 s in
  '(bits, s) ← count_words (length s) bits s;
  Ok (count_bytes bits s).

(** *** AVX2 *)
Definition lookup16 : bytes := [0; 1; 1; 2; 1; 2; 2; 3; 1; 2; 2; 3; 2; 3; 3; 4].
(** [_mm256_srli_epi16 v 4]: each 16-bit lane. *)
Fixpoint srli_epi16_4 (v : bytes) : bytes :=
  match v with
  | a :: b :: v => let w := Z.shiftr (a + 256 * b) 4 in w mod 256 :: w / 256 :: srli_epi16_4 v
  | v => v
  end.
(** [_mm256_shuffle_epi8] of a table with two equal lanes. *)
Definition shuffle_epi8 (table v : bytes) : bytes := (fun i => if 128 <=? i then 0 else aget table (Z.land i 15)) <$> v.
Definition and_bytes (m : Z) (v : bytes) : bytes := (fun b => Z.land b m) <$> v.
Definition add_epi8 (v w : bytes) : bytes := zip_with (fun a b => u8 (a + b)) v w.
(** [_mm256_sad_epu8 v 0]: the sums of the groups of eight bytes. *)
Definition sad_epu8 (v : bytes) : list Z := (fun i => fold_left Z.add (take 8 (drop (8 * i) v)) 0) <$> seq 0 4.
Definition add_epi64 (v w : list Z) : list Z := zip_with (fun a b => a +64 b) v w.

Definition iter_32_bytes (local vec : bytes) : bytes :=
  let lo := and_bytes 0x0f vec in
  let hi := and_bytes 0x0f (srli_epi16_4 vec) in
  add_epi8 (add_epi8 local (shuffle_epi8 lookup16 lo)) (shuffle_epi8 lookup16 hi).

Fixpoint iter_n (n : nat) (local s : bytes) : bytes :=
  match n with O => local | S n => iter_n n (iter_32_bytes local (take 32 s)) (drop 32 s) end.

Definition zero256 : bytes := replicate 32 0.

Fixpoint avx_part_a (fuel : nat) (acc : list Z) (s : bytes) : res (list Z * bytes) :=
  if 8 * 32 <=? alen s then
    match fuel with
    | O => OutOfFuel
    | S fuel => avx_part_a fuel (add_epi64 acc (sad_epu8 (iter_n 8 zero256 s))) (drop 256 s)
    end
  else Ok (acc, s).

Fixpoint avx_part_b (fuel : nat) (local s : bytes) : res (bytes * bytes) :=
  if 32 <=? alen s then
    match fuel with
    | O => OutOfFuel
    | S fuel => avx_part_b fuel (iter_32_bytes local (take 32 s)) (drop 32 s)
    end
  else Ok (local, s).

Definition popcountAVX2 (s : bytes) : res Z :=
  '(acc, s) ← avx_part_a (length s) (replicate 4 0) s;
  '(local, s) ← avx_part_b (length s) zero256 s;
  let acc := add_epi64 acc (sad_epu8 local) in
  Ok (count_bytes (fold_left Z.add acc 0) s).

(** *** NEON *)
Definition vcntq_u8 (v : bytes) : bytes := aget bitsinbyte <$> v.
Definition vaddvq_u8 (v : bytes) : Z := fold_left (fun a b => u8 (a + b)) v 0.
Fixpoint vpaddlq_u8 (v : bytes) : list Z := match v with a :: b :: v => a + b :: vpaddlq_u8 v | _ => [] end.
Definition vaddvq_u16 (v : list Z) : Z := fold_left (fun a b => u16 (a + b)) v 0.

Fixpoint neon_64 (fuel : nat) (t : Z) (s : bytes) : res (Z * bytes) :=
  if 64 <=? alen s then
    match fuel with
    | O => OutOfFuel
    | S fuel =>
        let v i := vcntq_u8 (take 16 (drop (16 * i) s)) in
        let s0 := add_epi8 (add_epi8 (v 0%nat) (v 1%nat)) (add_epi8 (v 2%nat) (v 3%nat)) in
        neon_64 fuel (t + vaddvq_u16 (vpaddlq_u8 s0)) (drop 64 s)
    end
  else Ok (t, s).

Fixpoint neon_16 (fuel : nat) (t : Z) (s : bytes) : res (Z * bytes) :=
  if 16 <=? alen s then
    match fuel with
    | O => OutOfFuel
    | S fuel => neon_16 fuel (t + vaddvq_u8 (vcntq_u8 (take 16 s))) (drop 16 s)
    end
  else Ok (t, s).

Definition popcountNEON (addr : Z) (s : bytes) : res Z :=
  '(t, r) ← neon_64 (length s) 0 s;
  '(t, r) ← neon_16 (length r) t r;
  if alen r =? 0 then Ok t
  else x ← popcountScalar (addr + (alen s - alen r)) r; Ok (t + x).

(** *** SVE2: [vl] is the length of a vector in bytes.

    Lane [k] is active when [i + k < n] for 32-bit [i] and [n], and so are all
    lanes before it; loads of lanes that are not active do not happen. *)
Fixpoint active_lanes (vl : nat) (i n : Z) : nat :=
  match vl with O => O | S vl => if u32 i <? u32 n then S (active_lanes vl (u32 i + 1) n) else O end.

Fixpoint sve_loop (fuel : nat) (vl : Z) (t i : Z) (s : bytes) : res Z :=
  if i <? alen s then
    match fuel with
    | O => OutOfFuel
    | S fuel =>
        v ← ldn s i (Z.of_nat (active_lanes (Z.to_nat vl) i (alen s)));
        sve_loop fuel vl (t + fold_left Z.add (vcntq_u8 v) 0) (i + vl) s
    end
  else Ok t.
Definition popcountSVE2 (vl : Z) (s : bytes) : res Z := sve_loop (length s) vl 0 0 s.

(** The machine the server runs on. *)
Inductive Cpu := Scalar | Avx2 | Neon | Sve2 (vl : Z).

Definition serverPopcount (cpu : Cpu) (addr : Z) (s : bytes) : res Z :=
  match cpu with
  | Avx2 => if 32 <=? alen s then popcountAVX2 s else popcountScalar addr s
  | Neon => if 16 <=? alen s then popcountNEON addr s else popcountScalar addr s
  | Sve2 vl => if 16 <=? alen s then popcountSVE2 vl s else popcountScalar addr s
  | Scalar => popcountScalar addr s
  end.

(** ** Looking for a bit *)
Definition ULONG_MAX : Z := 2 ^ 64 - 1.

(** Byte by byte until the address is a multiple of 8: the flag [found], the
    position and what is left. *)
Fixpoint pos_head (addr skipval pos : Z) (s : bytes) : bool * Z * bytes :=
  match s with
  | b :: s' =>
      if Z.land addr 7 =? 0 then (false, pos, s)
      else if negb (b =? skipval) then (true, pos, s)
      else pos_head (addr + 1) skipval (pos + 8) s'
  | [] => (false, pos, [])
  end.

Fixpoint pos_words (fuel : nat) (skipval pos : Z) (s : bytes) : res (Z * bytes) :=
  if 8 <=? alen s then
    if negb (le_val (take 8 s) =? skipval) then Ok (pos, s)
    else match fuel with
    | O => OutOfFuel
    | S fuel => pos_words fuel skipval (pos + 64) (drop 8 s)
    end
  else Ok (pos, s).

(** Eight bytes, the first one the most significant, padded with zeros. *)
Fixpoint load_word (n : nat) (word : Z) (s : bytes) : Z :=
  match n with
  | O => word
  | S n =>
      let word := u64 (Z.shiftl word 8) in
      match s with b :: s => load_word n (Z.lor word b) s | [] => load_word n word [] end
  end.

(** [while (one)]: the panic after the loop is [AssertFail]. *)
Fixpoint pos_bits (fuel : nat) (one word pos : Z) (bit : bool) : res Z :=
  if one =? 0 then AssertFail
  else if Bool.eqb (negb (Z.land one word =? 0)) bit then Ok pos
  else match fuel with
  | O => OutOfFuel
  | S fuel => pos_bits fuel (Z.shiftr one 1) word (pos + 1) bit
  end.

Definition serverBitpos (addr : Z) (s : bytes) (bit : bool) : res Z :=
  let '(found, pos, s) := pos_head addr (if bit then 0 else 255) 0 s in
  '(pos, s) ← (if found : bool then Ok (pos, s) else pos_words (length s) (if bit then 0 else ULONG_MAX) pos s);
  let word := load_word 8 0 s in
  if bit && (word =? 0) then Ok (- 1)
  else pos_bits 64 (2 ^ 63) word pos bit.

(** ** Integers in a string *)
Definition LL (x : Z) : Z := i64 x.

Fixpoint set_bits (n : nat) (p : bytes) (offset bits value j : Z) : res bytes :=
  match n with
  | O => Ok p
  | S n =>
      let bitval := if Z.land value (Z.shiftl 1 (bits - 1 - j)) =? 0 then 0 else 1 in
      let byte := Z.shiftr offset 3 in
      let bit := 7 - Z.land offset 7 in
      byteval ← ld p byte;
      let byteval := Z.land byteval (Z.lnot (Z.shiftl 1 bit)) in
      let byteval := Z.lor byteval (Z.shiftl bitval bit) in
      p ← st p byte [Z.land byteval 255];
      set_bits n p (offset +64 1) bits value (j + 1)
  end.
Definition setUnsignedBitfield (p : bytes) (offset bits value : Z) : res bytes := set_bits (Z.to_nat bits) p offset bits value 0.
Definition setSignedBitfield (p : bytes) (offset bits value : Z) : res bytes := setUnsignedBitfield p offset bits (u64 value).

Fixpoint get_bits (n : nat) (p : bytes) (offset value : Z) : res Z :=
  match n with
  | O => Ok value
  | S n =>
      let byte := Z.shiftr offset 3 in
      let bit := 7 - Z.land offset 7 in
      byteval ← ld p byte;
      let bitval := Z.land (Z.shiftr byteval bit) 1 in
      get_bits n p (offset +64 1) (Z.lor (u64 (Z.shiftl value 1)) bitval)
  end.
Definition getUnsignedBitfield (p : bytes) (offset bits : Z) : res Z := get_bits (Z.to_nat bits) p offset 0.
Definition getSignedBitfield (p : bytes) (offset bits : Z) : res Z :=
  u ← getUnsignedBitfield p offset bits;
  let value := LL u in
  Ok (if (bits <? 64) && negb (Z.land value (Z.shiftl 1 (bits - 1)) =? 0) then LL (Z.lor value (u64 (Z.shiftl (- 1) bits))) else value).

(** ** Overflow *)
Inductive Overflow := BFOVERFLOW_WRAP | BFOVERFLOW_SAT | BFOVERFLOW_FAIL.
#[export] Instance Overflow_eq_dec : EqDecision Overflow.
Proof. solve_decision. Defined.

(** The answer, and [*limit] when it is written. *)
Definition checkUnsignedBitfieldOverflow (value incr bits : Z) (owtype : Overflow) : Z * option Z :=
  let max := if bits =? 64 then UINT64_MAX else u64 (Z.shiftl 1 bits) - 1 in
  let maxincr := LL (max - value) in
  let minincr := LL (- value) in
  let wrapped := Z.land (value +64 incr) (Z.lnot (u64 (Z.shiftl (- 1) bits))) in
  let over ret limit := match owtype with
                        | BFOVERFLOW_WRAP => (1, Some wrapped)
                        | BFOVERFLOW_SAT => (ret, Some limit)
                        | BFOVERFLOW_FAIL => (ret, None)
                        end in
  if (max <? value) || (0 <? incr) && (maxincr <? incr) then over 1 max
  else if (incr <? 0) && (incr <? minincr) then over (- 1) 0
  else (0, None).

Definition checkSignedBitfieldOverflow (value incr bits : Z) (owtype : Overflow) : Z * option Z :=
  let max := if bits =? 64 then 2 ^ 63 - 1 else Z.shiftl 1 (bits - 1) - 1 in
  let min := - max - 1 in
  let maxincr := LL (u64 max -64 u64 value) in
  let minincr := LL (u64 min -64 u64 value) in
  let msb := Z.shiftl 1 (bits - 1) in
  let c := u64 value +64 u64 incr in
  let mask := u64 (Z.shiftl (- 1) bits) in
  let wrapped := LL (if bits <? 64 then (if Z.land c msb =? 0 then Z.land c (Z.lnot mask) else Z.lor c mask) else c) in
  let over ret limit := match owtype with
                        | BFOVERFLOW_WRAP => (1, Some wrapped)
                        | BFOVERFLOW_SAT => (ret, Some limit)
                        | BFOVERFLOW_FAIL => (ret, None)
                        end in
  if (max <? value) || negb (bits =? 64) && (maxincr <? incr) || (0 <=? value) && (0 <? incr) && (maxincr <? incr) then over 1 max
  else if (value <? min) || negb (bits =? 64) && (incr <? minincr) || (value <? 0) && (incr <? 0) && (incr <? minincr) then over (- 1) min
  else (0, None).

(** ** Reference definitions *)

(** The bits of a byte and of a string, most significant first. *)
Definition bits_of_byte (b : Z) : list bool := (fun k => Z.testbit b k) <$> [7; 6; 5; 4; 3; 2; 1; 0].
Definition bits_of (s : bytes) : list bool := s ≫= bits_of_byte.

(** How many are set, and where the first [b] is. *)
Fixpoint ones (l : list bool) : Z := match l with b :: l => (if b : bool then 1 else 0) + ones l | [] => 0 end.
Fixpoint first_bit (b : bool) (l : list bool) : option Z :=
  match l with
  | x :: l => if Bool.eqb x b then Some 0 else i ← first_bit b l; Some (i + 1)
  | [] => None
  end.
(** Zeros follow the string, ones do not. *)
Definition bit_position (b : bool) (l : list bool) : Z := default (if b then - 1 else alen l) (first_bit b l).

(** Integers as lists of bits, most significant first. *)
Fixpoint unsigned_of (acc : Z) (l : list bool) : Z := match l with b :: l => unsigned_of (2 * acc + if b : bool then 1 else 0) l | [] => acc end.
Definition int_bits (n v : Z) : list bool := (fun k => Z.testbit v (n - 1 - k)) <$> seqZ 0 n.
Definition field (l : list bool) (off n : Z) : list bool := take (Z.to_nat n) (drop (Z.to_nat off) l).
Definition splice (l : list bool) (off : Z) (x : list bool) : list bool := take (Z.to_nat off) l ++ x ++ drop (Z.to_nat off + length x) l.

Definition int_min (sign : bool) (n : Z) : Z := if sign then - 2 ^ (n - 1) else 0.
Definition int_max (sign : bool) (n : Z) : Z := if sign then 2 ^ (n - 1) - 1 else 2 ^ n - 1.
(** The integer of [n] bits that is congruent to [x]. *)
Definition int_wrap (sign : bool) (n x : Z) : Z := if sign then swrap n x else wrap n x.
Definition decode (sign : bool) (n : Z) (l : list bool) : Z := int_wrap sign n (unsigned_of 0 l).

(** ** Bits and bytes *)
Ltac lia_div := Z.to_euclidean_division_equations; lia.

Lemma byte_forallb (P : Z -> bool) b : forallb P (seqZ 0 256) = true -> in_u 8 b -> P b = true.
Proof. intros H Hb. rewrite forallb_forall in H. apply H, list_elem_of_In, elem_of_seqZ. mach. Qed.

Lemma ones_app l l' : ones (l ++ l') = ones l + ones l'.
Proof. induction l as [|b l IH]; cbn [ones app]; [done|]. rewrite IH. lia. Qed.

Lemma bits_of_cons b s : bits_of (b :: s) = bits_of_byte b ++ bits_of s.
Proof. done. Qed.

Lemma bits_of_app s s' : bits_of (s ++ s') = bits_of s ++ bits_of s'.
Proof. apply bind_app. Qed.

Lemma length_bits_of s : length (bits_of s) = (8 * length s)%nat.
Proof. induction s as [|b s IH]; [done|]. rewrite bits_of_cons, length_app, IH. cbn. lia. Qed.

Lemma alen_bits_of s : alen (bits_of s) = 8 * alen s.
Proof. unfold alen. rewrite length_bits_of. lia. Qed.

Lemma ones_byte b : in_u 8 b -> ones (bits_of_byte b) = aget bitsinbyte b.
Proof. intros Hb. apply Z.eqb_eq. revert Hb. apply (byte_forallb (fun b => ones (bits_of_byte b) =? aget bitsinbyte b)). vm_compute. reflexivity. Qed.

Lemma ones_range l : 0 <= ones l <= alen l.
Proof. induction l as [|[] l IH]; [done|..]; rewrite alen_cons; cbn [ones]; lia. Qed.

Lemma bitsinbyte_range b : in_u 8 b -> 0 <= aget bitsinbyte b <= 8.
Proof. intros Hb. rewrite <- ones_byte by done. apply (ones_range (bits_of_byte b)). Qed.

Lemma count_bytes_spec bits s : is_bytes s -> count_bytes bits s = bits + ones (bits_of s).
Proof.
  intros Hs. revert bits. unfold count_bytes. induction Hs as [|b s Hb Hs IH]; intros bits; [cbn; lia|].
  cbn [fold_left]. rewrite IH, bits_of_cons, ones_app, ones_byte by done. lia.
Qed.

Lemma is_bytes_split n s : is_bytes s -> is_bytes (take n s) /\ is_bytes (drop n s).
Proof. intros H. split; [by apply Forall_take|by apply Forall_drop]. Qed.

Lemma ones_split n s : ones (bits_of s) = ones (bits_of (take n s)) + ones (bits_of (drop n s)).
Proof. by rewrite <- ones_app, <- bits_of_app, take_drop. Qed.

(** ** The scalar version *)
Lemma count_head_spec addr bits s : is_bytes s -> let '(n, r) := count_head addr bits s in
  n + ones (bits_of r) = bits + ones (bits_of s) /\ is_bytes r /\ (length r <= length s)%nat.
Proof.
  intros Hs. revert addr bits. induction Hs as [|b s Hb Hs IH]; intros addr bits; cbn [count_head]; [by split; [|split; [constructor|]]|].
  destruct (Z.land addr 3 =? 0); [split; [done|split; [by constructor|done]]|].
  specialize (IH (addr + 1) (bits + aget bitsinbyte b)). destruct (count_head _ _ s) as [n r]. destruct IH as (IH & Hr & Hl).
  split_and!; [|done|cbn; lia]. rewrite IH, bits_of_cons, ones_app, ones_byte by done. lia.
Qed.

(** Words by their bytes: the steps of [swar] do not cross a byte. *)
Lemma land_low a b m m' : in_u 8 a -> in_u 8 m -> 0 <= b -> 0 <= m' -> Z.land (a + 256 * b) (m + 256 * m') = Z.land a m + 256 * Z.land b m'.
Proof.
  intros Ha Hm Hb Hm'. assert (in_u 8 (Z.land a m)) as Hl.
  { apply in_u_testbit; [lia|apply Z.land_nonneg; left; apply Ha|]. intros j Hj. rewrite Z.land_spec, (testbit_high 8 a) by (done || lia). done. }
  assert (0 <= Z.land b m') as Hbm by (apply Z.land_nonneg; by left).
  change 256 with (2 ^ 8). rewrite <- !lor_pack by (done || lia).
  apply Z.bits_inj'. intros j Hj. rewrite !Z.land_spec, !Z.lor_spec, !Z.land_spec.
  destruct (Z.lt_ge_cases j 8); [rewrite !Z.shiftl_spec_low by lia; by rewrite !orb_false_r|].
  rewrite !Z.shiftl_spec, Z.land_spec by lia. by rewrite (testbit_high 8 a j), (testbit_high 8 m j) by (done || lia).
Qed.

Lemma land_mod_small a m w : in_u w m -> 0 <= w -> Z.land (a mod 2 ^ w) m = Z.land a m.
Proof.
  intros Hm Hw. apply Z.bits_inj'. intros j Hj. rewrite !Z.land_spec. destruct (Z.lt_ge_cases j w); [by rewrite Z.mod_pow2_bits_low|].
  by rewrite (testbit_high w m j), !andb_false_r by (done || lia).
Qed.

Lemma le_val_nonneg s : is_bytes s -> 0 <= le_val s.
Proof. intros H. apply le_val_range in H. apply H. Qed.

Lemma is_bytes_map (f : Z -> Z) s : (forall b, in_u 8 b -> in_u 8 (f b)) -> is_bytes s -> is_bytes (f <$> s).
Proof. intros Hf Hs. apply Forall_fmap. eapply Forall_impl; [exact Hs|]. apply Hf. Qed.

Lemma replicate_bytes n m : in_u 8 m -> is_bytes (replicate n m).
Proof. intros. by apply Forall_replicate. Qed.

(** A mask whose top [k] bits are clear hides what a shift moves in. *)
Lemma swar_mask k m s : 0 <= k <= 8 -> in_u (8 - k) m -> is_bytes s ->
  Z.land (Z.shiftr (le_val s) k) (le_val (replicate (length s) m)) = le_val ((fun b => Z.land (Z.shiftr b k) m) <$> s).
Proof.
  intros Hk Hm Hs. assert (2 ^ (8 - k) <= 2 ^ 8) as Hp by (apply Z.pow_le_mono_r; lia).
  assert (in_u 8 m) as Hm8 by (unfold in_u in *; lia).
  assert (2 ^ 8 = 2 ^ (8 - k) * 2 ^ k) as H8 by (rewrite <- Z.pow_add_r by lia; f_equal; lia).
  assert (0 < 2 ^ k) as H2 by (apply Z.pow_pos_nonneg; lia). assert (0 < 2 ^ (8 - k)) as H3 by (apply Z.pow_pos_nonneg; lia).
  induction Hs as [|b s Hb Hs IH]; [by rewrite Z.land_0_r|]. cbn [length replicate le_val fmap list_fmap]. rewrite <- IH. clear IH.
  pose proof (le_val_nonneg s Hs) as H0. set (v := le_val s) in *. change (list_fmap Z Z) with (@fmap list _ Z Z) in *.
  assert (Z.shiftr (b + 256 * v) k = (Z.shiftr b k + 2 ^ (8 - k) * (v mod 2 ^ k)) + 256 * Z.shiftr v k) as ->.
  { rewrite !Z.shiftr_div_pow2 by lia. change 256 with (2 ^ 8). rewrite H8. pose proof (Z.div_mod v (2 ^ k) ltac:(lia)) as Hv.
    rewrite Hv at 1. replace (b + 2 ^ (8 - k) * 2 ^ k * (2 ^ k * (v / 2 ^ k) + v mod 2 ^ k)) with (b + (2 ^ (8 - k) * (2 ^ k * (v / 2 ^ k) + v mod 2 ^ k)) * 2 ^ k) by ring.
    rewrite Z.div_add by lia. ring. }
  assert (0 <= Z.shiftr b k < 2 ^ (8 - k)) as Hbk.
  { rewrite Z.shiftr_div_pow2 by lia. unfold in_u in Hb. split; [apply Z.div_pos; lia|]. apply Z.div_lt_upper_bound; [lia|]. rewrite Z.mul_comm, <- H8. lia. }
  pose proof (Z.mod_pos_bound v (2 ^ k) H2) as Hvk.
  rewrite land_low; [|unfold in_u in *; nia|done|by apply Z.shiftr_nonneg|by apply le_val_nonneg, replicate_bytes].
  f_equal. rewrite <- (land_mod_small _ m (8 - k)) by (done || lia). f_equal. rewrite Z.add_comm, Z.mul_comm, Z.add_comm.
  rewrite Z.mod_add by lia. by apply Z.mod_small.
Qed.

Lemma le_val_map2 (f g : Z -> Z) c d s : c * le_val (f <$> s) + d * le_val (g <$> s) = le_val ((fun b => c * f b + d * g b) <$> s).
Proof. induction s as [|b s IH]; cbn [le_val fmap list_fmap]; [lia|]. cbn [fmap] in IH. rewrite <- IH. ring. Qed.

Lemma le_val_32 s : length s = 4%nat -> is_bytes s -> in_u 32 (le_val s).
Proof. intros Hl Hs. pose proof (le_val_range s Hs) as H. unfold alen in H. by rewrite Hl in H. Qed.

Definition pairs8 (b : Z) : Z := b - Z.land (Z.shiftr b 1) 0x55.
Definition fours8 (b : Z) : Z := Z.land b 0x33 + Z.land (Z.shiftr b 2) 0x33.

(** What the steps do to each byte. *)
Lemma swar_byte b : in_u 8 b -> in_u 8 (pairs8 b) /\ (let f := fours8 (pairs8 b) in in_u 8 f /\ f mod 16 <= 4 /\ f / 16 <= 4 /\ (f + f / 16) mod 16 = aget bitsinbyte b).
Proof.
  intros Hb. pose proof (byte_forallb (fun b => (0 <=? pairs8 b) && (pairs8 b <? 256) && let f := fours8 (pairs8 b) in
    (0 <=? f) && (f <? 256) && (f mod 16 <=? 4) && (f / 16 <=? 4) && ((f + f / 16) mod 16 =? aget bitsinbyte b)) b ltac:(vm_compute; reflexivity) Hb) as H.
  cbn beta zeta in H. cmp_prop. unfold in_u. cbn zeta. lia.
Qed.

Lemma swar_spec s : length s = 4%nat -> is_bytes s -> swar (le_val s) = le_val ((fun b => fours8 (pairs8 b)) <$> s).
Proof.
  intros Hl Hs. unfold swar.
  assert (le_val s -32 Z.land (Z.shiftr (le_val s) 1) 0x55555555 = le_val (pairs8 <$> s)) as ->.
  { change 0x55555555 with (le_val (replicate 4 0x55)). rewrite <- Hl, swar_mask by (done || mach).
    pose proof (le_val_map2 id (fun b => Z.land (Z.shiftr b 1) 0x55) 1 (- 1) s) as H. rewrite list_fmap_id in H.
    replace (le_val s - _) with (1 * le_val s + - 1 * le_val ((fun b => Z.land (Z.shiftr b 1) 85) <$> s)) by lia. rewrite H.
    rewrite (list_fmap_ext _ pairs8) by (intros; unfold pairs8, id; lia). apply wrap_small, le_val_32; [by rewrite length_fmap|].
    apply is_bytes_map; [|done]. intros b Hb. apply (swar_byte b Hb). }
  set (s1 := pairs8 <$> s). assert (length s1 = 4%nat) as Hl1 by (unfold s1; by rewrite length_fmap).
  assert (is_bytes s1) as Hs1 by (apply is_bytes_map; [|done]; intros b Hb; apply (swar_byte b Hb)).
  change 0x33333333 with (le_val (replicate 4 0x33)). rewrite <- Hl1.
  rewrite <- (Z.shiftr_0_r (le_val s1)) at 1. rewrite !swar_mask by (done || mach).
  pose proof (le_val_map2 (fun b => Z.land (Z.shiftr b 0) 0x33) (fun b => Z.land (Z.shiftr b 2) 0x33) 1 1 s1) as H. rewrite !Z.mul_1_l in H. rewrite H.
  unfold s1. rewrite <- list_fmap_compose. rewrite (list_fmap_ext _ (fun b => fours8 (pairs8 b))) by (intros; unfold compose, fours8; rewrite Z.shiftr_0_r; lia).
  apply wrap_small, le_val_32; [by rewrite length_fmap|]. apply is_bytes_map; [|done]. intros b Hb. apply (swar_byte b Hb).
Qed.

Lemma swar_nibbles s : Forall (fun f => in_u 8 f /\ f mod 16 <= 4 /\ f / 16 <= 4) s ->
  Z.land (le_val s + Z.shiftr (le_val s) 4) (le_val (replicate (length s) 15)) = le_val ((fun f => (f + f / 16) mod 16) <$> s) /\
  0 <= le_val s /\ le_val s mod 16 <= 4.
Proof.
  induction 1 as [|f s (Hf & H1 & H2) Hs (IH & H0 & H4)]; [done|]. unfold in_u in Hf. change (2 ^ 8) with 256 in Hf.
  cbn [length replicate le_val fmap list_fmap] in *. change (list_fmap Z Z) with (@fmap list _ Z Z) in *. rewrite <- IH. clear IH. set (v := le_val s) in *.
  split; [|lia_div]. rewrite !Z.shiftr_div_pow2 by lia. change (2 ^ 4) with 16.
  replace (f + 256 * v + (f + 256 * v) / 16) with ((f + f / 16 + 16 * (v mod 16)) + 256 * (v + v / 16)) by lia_div.
  rewrite land_low; [|unfold in_u; lia_div|done|lia_div|by apply le_val_nonneg, replicate_bytes]. f_equal.
  rewrite <- (land_mod_small _ 15 4) by mach. change 15 with (Z.ones 4). rewrite Z.land_ones by lia. change (2 ^ 4) with 16. lia_div.
Qed.

Lemma swar_bytes_spec s : length s = 4%nat -> is_bytes s -> swar_bytes (swar (le_val s)) = le_val (aget bitsinbyte <$> s).
Proof.
  intros Hl Hs. rewrite swar_spec by done. unfold swar_bytes. set (t := (fun b => fours8 (pairs8 b)) <$> s).
  assert (length t = 4%nat) as Ht by (unfold t; by rewrite length_fmap).
  assert (Forall (fun f => in_u 8 f /\ f mod 16 <= 4 /\ f / 16 <= 4) t) as Hf.
  { apply Forall_fmap. eapply Forall_impl; [exact Hs|]. intros b Hb. destruct (swar_byte b Hb) as [_ (? & ? & ? & ?)]. done. }
  assert (in_u 32 (le_val t)) as Hr by (apply le_val_32; [done|]; eapply Forall_impl; [exact Hf|]; by intros ? []).
  destruct (swar_nibbles t Hf) as [Hn _]. rewrite Ht in Hn. change (le_val (replicate 4 15)) with 0x0F0F0F0F in Hn.
  unfold wrap. rewrite land_mod_small by mach. rewrite Hn. unfold t. rewrite <- list_fmap_compose. f_equal.
  apply list_fmap_ext. intros i b Hb. apply (swar_byte b). eapply Forall_lookup_1; [exact Hs|done].
Qed.

Lemma fold_multiply c0 c1 c2 c3 : 0 <= c0 -> 0 <= c1 -> 0 <= c2 -> 0 <= c3 -> c0 + c1 + c2 + c3 < 256 ->
  Z.shiftr (wrap 32 ((c0 + 256 * (c1 + 256 * (c2 + 256 * c3))) * 0x01010101)) 24 = c0 + c1 + c2 + c3.
Proof.
  intros. rewrite Z.shiftr_div_pow2 by lia. unfold wrap. change (2 ^ 24) with 16777216. change (2 ^ 32) with 4294967296.
  rewrite <- (Z.mod_unique_pos _ 4294967296 (c1 + c2 + c3 + 256 * (c2 + c3) + 65536 * c3)
    (c0 + 256 * (c0 + c1) + 65536 * (c0 + c1 + c2) + 16777216 * (c0 + c1 + c2 + c3))); [|lia|lia].
  symmetry. apply (Z.div_unique_pos _ _ _ (c0 + 256 * (c0 + c1) + 65536 * (c0 + c1 + c2))); lia.
Qed.

(** The bits of four bytes, byte by byte. *)
Definition word_counts (s : bytes) (w c0 c1 c2 c3 : Z) : Prop :=
  w = c0 + 256 * (c1 + 256 * (c2 + 256 * c3)) /\ 0 <= c0 <= 8 /\ 0 <= c1 <= 8 /\ 0 <= c2 <= 8 /\ 0 <= c3 <= 8 /\ ones (bits_of s) = c0 + c1 + c2 + c3.

Lemma word_counts_intro s : length s = 4%nat -> is_bytes s -> exists c0 c1 c2 c3, word_counts s (swar_bytes (swar (le_val s))) c0 c1 c2 c3.
Proof.
  intros Hl Hs. rewrite swar_bytes_spec by done. pose proof (count_bytes_spec 0 s Hs) as Hc. rewrite Z.add_0_l in Hc.
  destruct s as [|x0 [|x1 [|x2 [|x3 []]]]]; try done. repeat (apply Forall_cons in Hs as [? Hs]).
  exists (aget bitsinbyte x0), (aget bitsinbyte x1), (aget bitsinbyte x2), (aget bitsinbyte x3). unfold word_counts. rewrite <- Hc. cbn [le_val fmap list_fmap count_bytes fold_left].
  repeat match goal with H : in_u 8 ?z |- _ => pose proof (bitsinbyte_range z H); clear H end. lia.
Qed.

Lemma count28_spec s : length s = 28%nat -> is_bytes s -> count28 s = ones (bits_of s).
Proof.
  intros Hl Hs. unfold count28.
  assert (forall i, (i < 7)%nat -> exists c0 c1 c2 c3, word_counts (take 4 (drop (4 * i) s)) (swar_bytes (swar (le_val (take 4 (drop (4 * i) s))))) c0 c1 c2 c3) as Hw.
  { intros i Hi. apply word_counts_intro; [rewrite length_take, length_drop; lia|]. by apply Forall_take, Forall_drop. }
  assert (ones (bits_of s) = ones (bits_of (take 4 (drop (4 * 0) s))) + ones (bits_of (take 4 (drop (4 * 1) s))) + ones (bits_of (take 4 (drop (4 * 2) s))) +
    ones (bits_of (take 4 (drop (4 * 3) s))) + ones (bits_of (take 4 (drop (4 * 4) s))) + ones (bits_of (take 4 (drop (4 * 5) s))) + ones (bits_of (take 4 (drop (4 * 6) s)))) as ->.
  { clear Hw Hs. do 28 (destruct s as [|? s]; [done|]). destruct s; [|done]. cbn [take drop Nat.mul Nat.add]. rewrite !bits_of_cons, !ones_app. cbn [bits_of mbind list_bind ones]. lia. }
  destruct (Hw 0%nat ltac:(lia)) as (a0 & a1 & a2 & a3 & -> & Ha). destruct (Hw 1%nat ltac:(lia)) as (b0 & b1 & b2 & b3 & -> & Hb).
  destruct (Hw 2%nat ltac:(lia)) as (c0 & c1 & c2 & c3 & -> & Hc). destruct (Hw 3%nat ltac:(lia)) as (d0 & d1 & d2 & d3 & -> & Hd).
  destruct (Hw 4%nat ltac:(lia)) as (e0 & e1 & e2 & e3 & -> & He). destruct (Hw 5%nat ltac:(lia)) as (f0 & f1 & f2 & f3 & -> & Hf).
  destruct (Hw 6%nat ltac:(lia)) as (g0 & g1 & g2 & g3 & -> & Hg). clear Hw.
  cbv zeta. unfold word_counts in *.
  repeat match goal with |- context [wrap 32 (?x + ?y)] => rewrite (wrap_small 32 (x + y)) by mach end.
  etrans; [|etrans; [apply (fold_multiply (a0 + b0 + c0 + d0 + e0 + f0 + g0) (a1 + b1 + c1 + d1 + e1 + f1 + g1) (a2 + b2 + c2 + d2 + e2 + f2 + g2) (a3 + b3 + c3 + d3 + e3 + f3 + g3)); lia|lia]].
  do 3 f_equal. lia.
Qed.

(** A loop that takes [n] bytes at a time: it stops, and its sum is right. *)
Lemma count_words_spec fuel bits s : is_bytes s -> (length s <= fuel)%nat -> exists n r, count_words fuel bits s = Ok (n, r) /\
  n + ones (bits_of r) = bits + ones (bits_of s) /\ is_bytes r.
Proof.
  revert bits s. induction fuel as [|fuel IH]; intros bits s Hs Hl; cbn [count_words]; destruct (Z.leb_spec 28 (alen s)) as [Hge|Hlt].
  - unfold alen in Hge. lia.
  - by exists bits, s.
  - destruct (is_bytes_split 28 s Hs) as [Ht Hd]. destruct (IH (bits + count28 (take 28 s)) (drop 28 s) Hd) as (n & r & E & Hn & Hr).
    { rewrite length_drop. unfold alen in Hge. lia. }
    exists n, r. split; [done|]. split; [|done]. rewrite Hn, (ones_split 28 s), count28_spec; [lia| |done].
    rewrite length_take. unfold alen in Hge. lia.
  - by exists bits, s.
Qed.

Lemma popcountScalar_spec addr s : is_bytes s -> popcountScalar addr s = Ok (ones (bits_of s)).
Proof.
  intros Hs. unfold popcountScalar. pose proof (count_head_spec addr 0 s Hs) as H. destruct (count_head addr 0 s) as [n r]. destruct H as (Hn & Hr & Hl).
  destruct (count_words_spec (length r) n r Hr) as (n' & r' & E & Hn' & Hr'); [lia|]. rewrite E. cbn [mbind res_bind].
  rewrite count_bytes_spec by done. f_equal. lia.
Qed.

(** ** AVX2 *)
Lemma nibble_counts b : in_u 8 b -> aget lookup16 (Z.land (Z.land b 15) 15) + aget lookup16 (b / 16) = aget bitsinbyte b /\
  0 <= aget lookup16 (Z.land (Z.land b 15) 15) <= 4 /\ 0 <= aget lookup16 (b / 16) <= 4 /\ 0 <= Z.land b 15 < 128.
Proof.
  intros Hb. pose proof (byte_forallb (fun b => (aget lookup16 (Z.land (Z.land b 15) 15) + aget lookup16 (b / 16) =? aget bitsinbyte b) &&
    (0 <=? aget lookup16 (Z.land (Z.land b 15) 15)) && (aget lookup16 (Z.land (Z.land b 15) 15) <=? 4) && (0 <=? aget lookup16 (b / 16)) && (aget lookup16 (b / 16) <=? 4) &&
    (0 <=? Z.land b 15) && (Z.land b 15 <? 128)) b ltac:(vm_compute; reflexivity) Hb) as H. cbn beta in H. cmp_prop. lia.
Qed.

Lemma shuffle_cons t b v : shuffle_epi8 t (b :: v) = (if 128 <=? b then 0 else aget t (Z.land b 15)) :: shuffle_epi8 t v.
Proof. done. Qed.

(** The high nibbles: the shift of 16-bit lanes moves bits between bytes only
    above the mask. *)
Lemma srli_nibbles v : is_bytes v -> Nat.even (length v) = true -> and_bytes 0x0f (srli_epi16_4 v) = (fun b => b / 16) <$> v.
Proof.
  intros Hv. remember (length v) as n eqn:E. revert v E Hv. induction n as [n IH] using (well_founded_induction lt_wf).
  intros [|a [|b v]] -> Hv He; [done|done|]. repeat (apply Forall_cons in Hv as [? Hv]). cbn [srli_epi16_4 and_bytes fmap list_fmap].
  rewrite <- (IH (length v)) by (done || (cbn [length]; lia)). unfold and_bytes. change (list_fmap Z Z) with (@fmap list _ Z Z).
  unfold in_u in *. change (2 ^ 8) with 256 in *. rewrite Z.shiftr_div_pow2 by lia. change (2 ^ 4) with 16. change 15 with (Z.ones 4). rewrite !Z.land_ones by lia. change (2 ^ 4) with 16.
  f_equal; [lia_div|]. f_equal. lia_div.
Qed.

(** One step adds to each of the 32 counters, which do not overflow. *)
Lemma iter_spec local vec c : length vec = 32%nat -> length local = 32%nat -> is_bytes vec -> Forall (fun x => 0 <= x <= c) local -> c + 8 <= 255 ->
  let local' := iter_32_bytes local vec in
  length local' = 32%nat /\ Forall (fun x => 0 <= x <= c + 8) local' /\ local' = zip_with (fun a b => a + aget bitsinbyte b) local vec.
Proof.
  intros Hlv Hll Hv Hl Hc. cbn zeta.
  assert (iter_32_bytes local vec = zip_with (fun a b => a + aget bitsinbyte b) local vec) as E.
  { unfold iter_32_bytes. rewrite srli_nibbles by (done || by rewrite Hlv). assert (length local = length vec) as He by lia. clear Hlv Hll. revert vec He Hv.
    induction Hl as [|a local Ha Hl IH]; intros [|b vec] He Hv; try done. apply Forall_cons in Hv as [Hb Hv]. injection He as He.
    destruct (nibble_counts b Hb) as (H1 & H2 & H3 & H4). unfold and_bytes in *. cbn [fmap list_fmap]. rewrite !shuffle_cons. unfold add_epi8 in *. cbn [zip_with].
    change (list_fmap Z Z) with (@fmap list _ Z Z). rewrite IH by done. f_equal.
    rewrite (proj2 (Z.leb_gt 128 (Z.land b 15))) by lia. assert (0 <= b / 16 < 16) as Hh by (unfold in_u in Hb; change (2 ^ 8) with 256 in Hb; lia_div).
    rewrite (proj2 (Z.leb_gt 128 (b / 16))) by lia. assert (Z.land (b / 16) 15 = b / 16) as -> by (change 15 with (Z.ones 4); rewrite Z.land_ones by lia; apply Z.mod_small; lia).
    rewrite <- H1, Z.add_assoc. rewrite (wrap_small 8 (a + _)) by mach. apply wrap_small. mach. }
  rewrite E. split; [rewrite length_zip_with; lia|]. split; [|done]. clear E. assert (length local = length vec) as He by lia. clear Hlv Hll. revert vec He Hv.
  induction Hl as [|a local Ha Hl IH]; intros [|b vec] He Hv; try done. apply Forall_cons in Hv as [Hb Hv]. injection He as He.
  cbn [zip_with]. constructor; [|by apply IH]. pose proof (bitsinbyte_range b Hb). lia.
Qed.

Definition suml (l : list Z) : Z := fold_left Z.add l 0.

Lemma fold_add l x : fold_left Z.add l x = x + suml l.
Proof.
  revert x. unfold suml. induction l as [|a l IH]; intros x; cbn [fold_left]; [lia|]. rewrite (IH (x + a)), (IH (0 + a)). lia.
Qed.

Lemma suml_cons a l : suml (a :: l) = a + suml l.
Proof. unfold suml at 1. cbn [fold_left]. by rewrite fold_add. Qed.

Lemma suml_app l l' : suml (l ++ l') = suml l + suml l'.
Proof. induction l as [|a l IH]; [done|]. cbn [app]. rewrite !suml_cons, IH. lia. Qed.

Lemma suml_nonneg l : Forall (fun x => 0 <= x) l -> 0 <= suml l.
Proof. induction 1 as [|a l Ha Hl IH]; [done|]. rewrite suml_cons. lia. Qed.

Lemma suml_bound c l : Forall (fun x => 0 <= x <= c) l -> 0 <= suml l <= c * alen l.
Proof. induction 1 as [|a l Ha Hl IH]; [unfold suml, alen; cbn; lia|]. rewrite suml_cons, alen_cons. lia. Qed.

Lemma suml_counts s : is_bytes s -> suml (aget bitsinbyte <$> s) = ones (bits_of s).
Proof. induction 1 as [|b s Hb Hs IH]; [done|]. rewrite fmap_cons, suml_cons, IH, bits_of_cons, ones_app, ones_byte by done. lia. Qed.

Lemma suml_zip local vec : length local = length vec -> is_bytes vec -> suml (zip_with (fun a b => a + aget bitsinbyte b) local vec) = suml local + ones (bits_of vec).
Proof.
  intros Hl Hv. revert local Hl. induction Hv as [|b vec Hb Hv IH]; intros [|a local] Hl; try done. injection Hl as Hl. cbn [zip_with].
  rewrite !suml_cons, IH, bits_of_cons, ones_app, ones_byte by done. lia.
Qed.

(** Counters of at most [c], with the sum [n]. *)
Definition counters (k : nat) (c n : Z) (l : bytes) : Prop := length l = k /\ Forall (fun x => 0 <= x <= c) l /\ suml l = n.

Lemma counters_iter c n local vec : counters 32 c n local -> length vec = 32%nat -> is_bytes vec -> c + 8 <= 255 ->
  counters 32 (c + 8) (n + ones (bits_of vec)) (iter_32_bytes local vec).
Proof.
  intros (Hl & Hf & Hs) Hlv Hv Hc. destruct (iter_spec local vec c Hlv Hl Hv Hf Hc) as (H1 & H2 & H3). split_and!; [done|done|].
  rewrite H3, suml_zip by (done || lia). lia.
Qed.

Lemma counters_iter_n k c n local s : counters 32 c n local -> (32 * k <= length s)%nat -> is_bytes s -> c + 8 * Z.of_nat k <= 255 ->
  counters 32 (c + 8 * Z.of_nat k) (n + ones (bits_of (take (32 * k) s))) (iter_n k local s).
Proof.
  revert c n local s. induction k as [|k IH]; intros c n local s Hc Hl Hs Hb.
  - cbn [iter_n]. rewrite Nat.mul_0_r, take_0. cbn [bits_of mbind list_bind ones]. replace (c + 8 * Z.of_nat 0) with c by lia. by rewrite Z.add_0_r.
  - destruct (is_bytes_split 32 s Hs) as [Ht Hd]. cbn [iter_n].
    assert (length (take 32 s) = 32%nat) as H32 by (rewrite length_take; lia).
    pose proof (counters_iter c n local (take 32 s) Hc H32 Ht ltac:(lia)) as H1.
    specialize (IH (c + 8) _ _ (drop 32 s) H1 ltac:(rewrite length_drop; lia) Hd ltac:(lia)).
    replace (c + 8 * Z.of_nat (S k)) with (c + 8 + 8 * Z.of_nat k) by lia.
    assert (n + ones (bits_of (take (32 * S k) s)) = n + ones (bits_of (take 32 s)) + ones (bits_of (take (32 * k) (drop 32 s)))) as ->; [|done].
    rewrite (ones_split 32 (take (32 * S k) s)), take_take. replace (32 `min` (32 * S k))%nat with 32%nat by lia. rewrite skipn_firstn_comm. replace (32 * S k - 32)%nat with (32 * k)%nat by lia. lia.
Qed.

Lemma sad_spec local n c : counters 32 c n local -> suml (sad_epu8 local) = n /\ length (sad_epu8 local) = 4%nat /\ Forall (fun x => 0 <= x) (sad_epu8 local).
Proof.
  intros (Hl & Hf & <-). split; [|split; [done|]].
  - unfold sad_epu8. cbn [seq fmap list_fmap]. rewrite !suml_cons. change (suml []) with 0. rewrite !fold_add. cbn [Nat.mul Nat.add].
    assert (suml local = suml (take 8 local) + (suml (take 8 (drop 8 local)) + (suml (take 8 (drop 16 local)) + suml (take 8 (drop 24 local))))) as ->; [|rewrite drop_0; lia].
    rewrite (take_ge (drop 24 local)) by (rewrite length_drop; lia). rewrite <- (suml_app (take 8 (drop 16 local))).
    replace (drop 24 local) with (drop 8 (drop 16 local)) by (by rewrite drop_drop). rewrite take_drop, <- suml_app.
    replace (drop 16 local) with (drop 8 (drop 8 local)) by (by rewrite drop_drop). by rewrite take_drop, <- suml_app, take_drop.
  - apply Forall_fmap, Forall_forall. intros i _. cbn. apply suml_nonneg. apply Forall_take, Forall_drop. eapply Forall_impl; [exact Hf|]. cbn. lia.
Qed.

Lemma add_epi64_spec v w : length v = length w -> Forall (fun x => 0 <= x) v -> Forall (fun x => 0 <= x) w -> suml v + suml w < 2 ^ 64 ->
  suml (add_epi64 v w) = suml v + suml w /\ length (add_epi64 v w) = length w /\ Forall (fun x => 0 <= x) (add_epi64 v w).
Proof.
  intros Hl Hv. revert w Hl. induction Hv as [|a v Ha Hv IH]; intros [|b w] Hl Hw Hs; try done. apply Forall_cons in Hw as [Hb Hw]. injection Hl as Hl.
  rewrite !suml_cons in Hs. pose proof (suml_nonneg v Hv). pose proof (suml_nonneg w Hw). destruct (IH w Hl Hw ltac:(lia)) as (H1 & H2 & H3).
  unfold add_epi64 in *. cbn [zip_with length]. rewrite (wrap_small 64 (a + b)) by mach. rewrite !suml_cons, H1. split; [lia|]. split; [lia|]. constructor; [lia|done].
Qed.

Lemma zero256_counters : counters 32 0 0 zero256.
Proof. split; [done|]. split; [|done]. by apply Forall_replicate. Qed.

Lemma avx_part_a_spec fuel acc s : is_bytes s -> (length s <= fuel)%nat -> length acc = 4%nat -> Forall (fun x => 0 <= x) acc -> suml acc + 8 * alen s < 2 ^ 63 ->
  exists acc' r, avx_part_a fuel acc s = Ok (acc', r) /\ is_bytes r /\ alen r < 256 /\ (length r <= length s)%nat /\ length acc' = 4%nat /\ Forall (fun x => 0 <= x) acc' /\
    suml acc' + ones (bits_of r) = suml acc + ones (bits_of s).
Proof.
  revert acc s. induction fuel as [|fuel IH]; intros acc s Hs Hl Ha Hn Hb; cbn [avx_part_a]; destruct (Z.leb_spec (8 * 32) (alen s)) as [Hge|Hlt].
  - unfold alen in Hge. lia.
  - exists acc, s. done.
  - destruct (is_bytes_split 256 s Hs) as [Ht Hd]. assert (256 <= length s)%nat as Hge' by (unfold alen in Hge; lia).
    pose proof (counters_iter_n 8 0 0 zero256 s zero256_counters ltac:(lia) Hs ltac:(lia)) as Hc. change (32 * 8)%nat with 256%nat in Hc.
    destruct (sad_spec _ _ _ Hc) as (Hs1 & Hs2 & Hs3). rewrite Z.add_0_l in Hs1.
    pose proof (ones_range (bits_of (take 256 s))) as Ho. rewrite alen_bits_of in Ho.
    assert (alen (take 256 s) = 256) as H256 by (unfold alen; rewrite length_take; lia). assert (alen (drop 256 s) = alen s - 256) as Hd256 by (unfold alen; rewrite length_drop; lia).
    destruct (add_epi64_spec acc _ ltac:(by rewrite Ha, Hs2) Hn Hs3 ltac:(rewrite Hs1; mach)) as (H1 & H2 & H3).
    destruct (IH _ (drop 256 s) Hd ltac:(rewrite length_drop; lia) ltac:(by rewrite H2) H3 ltac:(rewrite H1, Hs1; mach)) as (acc' & r & E & Hr & Hr' & Hll & Ha' & Hn' & Hsum).
    exists acc', r. split; [done|]. split_and?; try done. { rewrite length_drop in Hll. lia. } rewrite Hsum, H1, Hs1, (ones_split 256 s). lia.
  - exists acc, s. done.
Qed.

Lemma avx_part_b_spec fuel c n local s : is_bytes s -> (length s <= fuel)%nat -> counters 32 c n local -> c + alen s / 4 <= 255 ->
  exists c' n' local' r, avx_part_b fuel local s = Ok (local', r) /\ is_bytes r /\ counters 32 c' n' local' /\ n' + ones (bits_of r) = n + ones (bits_of s).
Proof.
  revert c n local s. induction fuel as [|fuel IH]; intros c n local s Hs Hl Hc Hb; cbn [avx_part_b]; destruct (Z.leb_spec 32 (alen s)) as [Hge|Hlt].
  - unfold alen in Hge. lia.
  - exists c, n, local, s. done.
  - destruct (is_bytes_split 32 s Hs) as [Ht Hd]. assert (32 <= length s)%nat as Hge' by (unfold alen in Hge; lia).
    assert (alen s = 32 + alen (drop 32 s)) as Hd32 by (unfold alen; rewrite length_drop; lia). pose proof (alen_nonneg (drop 32 s)).
    assert (length (take 32 s) = 32%nat) as H32 by (rewrite length_take; lia).
    pose proof (counters_iter c n local (take 32 s) Hc H32 Ht ltac:(lia_div)) as H1.
    destruct (IH _ _ _ (drop 32 s) Hd ltac:(rewrite length_drop; lia) H1 ltac:(lia_div)) as (c' & n' & local' & r & E & Hr & Hc' & Hn).
    exists c', n', local', r. split_and?; try done; try apply Hc'. rewrite Hn, (ones_split 32 s). lia.
  - exists c, n, local, s. done.
Qed.

Lemma popcountAVX2_spec s : is_bytes s -> 8 * alen s < 2 ^ 63 -> popcountAVX2 s = Ok (ones (bits_of s)).
Proof.
  intros Hs Hb. unfold popcountAVX2.
  destruct (avx_part_a_spec (length s) (replicate 4 0) s Hs ltac:(lia) ltac:(done) ltac:(by apply Forall_replicate) ltac:(done)) as (acc & r & -> & Hr & H256 & Hlr & Ha & Hn & Hsum).
  cbn [mbind res_bind]. change (suml (replicate 4 0)) with 0 in Hsum.
  destruct (avx_part_b_spec (length r) 0 0 zero256 r Hr ltac:(lia) zero256_counters ltac:(lia_div)) as (c & n & local & r' & -> & Hr' & Hc & Hn').
  cbn [mbind res_bind]. destruct (sad_spec _ _ _ Hc) as (Hs1 & Hs2 & Hs3).
  pose proof (ones_range (bits_of s)) as Ho. rewrite alen_bits_of in Ho. pose proof (ones_range (bits_of r')) as Ho'.
  destruct (add_epi64_spec acc _ ltac:(by rewrite Ha, Hs2) Hn Hs3 ltac:(rewrite Hs1; mach)) as (H1 & H2 & H3).
  rewrite count_bytes_spec by done. fold (suml (add_epi64 acc (sad_epu8 local))). rewrite H1, Hs1. f_equal. lia.
Qed.

(** ** NEON *)
Lemma fold_wrap w l : 0 <= w -> Forall (fun x => 0 <= x) l -> suml l < 2 ^ w -> fold_left (fun a b => wrap w (a + b)) l 0 = suml l.
Proof.
  intros Hw Hl Hs. unfold suml. enough (forall x, 0 <= x -> x + suml l < 2 ^ w -> fold_left (fun a b => wrap w (a + b)) l x = fold_left Z.add l x) as H by (apply H; lia).
  clear Hs. induction Hl as [|a l Ha Hl IH]; intros x Hx Hb; [done|]. rewrite suml_cons in Hb. pose proof (suml_nonneg l Hl). cbn [fold_left].
  rewrite wrap_small by (unfold in_u; lia). apply IH; lia.
Qed.

Lemma zip_add v w c d : length v = length w -> Forall (fun x => 0 <= x <= c) v -> Forall (fun x => 0 <= x <= d) w -> c + d <= 255 ->
  suml (add_epi8 v w) = suml v + suml w /\ length (add_epi8 v w) = length w /\ Forall (fun x => 0 <= x <= c + d) (add_epi8 v w).
Proof.
  intros Hl Hv Hw Hc. revert w Hl Hw. induction Hv as [|a v Ha Hv IH]; intros [|b w] Hl Hw; try done. apply Forall_cons in Hw as [Hb Hw]. injection Hl as Hl.
  destruct (IH w Hl Hw) as (H1 & H2 & H3). unfold add_epi8 in *. cbn [zip_with length]. rewrite (wrap_small 8 (a + b)) by mach.
  rewrite !suml_cons, H1. split; [lia|]. split; [lia|]. constructor; [lia|done].
Qed.

Lemma vcnt_spec v : is_bytes v -> suml (vcntq_u8 v) = ones (bits_of v) /\ length (vcntq_u8 v) = length v /\ Forall (fun x => 0 <= x <= 8) (vcntq_u8 v).
Proof.
  intros Hv. unfold vcntq_u8. rewrite length_fmap, suml_counts by done. split_and?; try done. apply Forall_fmap. eapply Forall_impl; [exact Hv|]. apply bitsinbyte_range.
Qed.

Lemma vpaddl_spec v : Nat.even (length v) = true -> Forall (fun x => 0 <= x) v -> suml (vpaddlq_u8 v) = suml v /\ Forall (fun x => 0 <= x) (vpaddlq_u8 v).
Proof.
  remember (length v) as n eqn:E. revert v E. induction n as [n IH] using (well_founded_induction lt_wf).
  intros [|a [|b v]] -> He Hv; [done|done|]. repeat (apply Forall_cons in Hv as [? Hv]).
  destruct (IH (length v) ltac:(cbn [length]; lia) v eq_refl He Hv) as [H1 H2]. cbn [vpaddlq_u8]. rewrite !suml_cons, H1. split; [lia|]. constructor; [lia|done].
Qed.

Lemma neon_64_spec fuel t s : is_bytes s -> (length s <= fuel)%nat -> exists t' r, neon_64 fuel t s = Ok (t', r) /\
  is_bytes r /\ (length r <= length s)%nat /\ t' + ones (bits_of r) = t + ones (bits_of s).
Proof.
  revert t s. induction fuel as [|fuel IH]; intros t s Hs Hl; cbn [neon_64]; destruct (Z.leb_spec 64 (alen s)) as [Hge|Hlt].
  - unfold alen in Hge. lia.
  - by exists t, s.
  - assert (64 <= length s)%nat as H64 by (unfold alen in Hge; lia). destruct (is_bytes_split 64 s Hs) as [Ht Hd].
    assert (forall i, (i < 4)%nat -> length (take 16 (drop (16 * i) s)) = 16%nat /\ is_bytes (take 16 (drop (16 * i) s))) as Hp.
    { intros i Hi. split; [rewrite length_take, length_drop; lia|]. by apply Forall_take, Forall_drop. }
    destruct (vcnt_spec _ (proj2 (Hp 0%nat ltac:(lia)))) as (A1 & A2 & A3). destruct (vcnt_spec _ (proj2 (Hp 1%nat ltac:(lia)))) as (B1 & B2 & B3).
    destruct (vcnt_spec _ (proj2 (Hp 2%nat ltac:(lia)))) as (C1 & C2 & C3). destruct (vcnt_spec _ (proj2 (Hp 3%nat ltac:(lia)))) as (D1 & D2 & D3).
    rewrite (proj1 (Hp 0%nat ltac:(lia))) in A2. rewrite (proj1 (Hp 1%nat ltac:(lia))) in B2. rewrite (proj1 (Hp 2%nat ltac:(lia))) in C2. rewrite (proj1 (Hp 3%nat ltac:(lia))) in D2.
    destruct (zip_add _ _ 8 8 (eq_trans A2 (eq_sym B2)) A3 B3 ltac:(lia)) as (E1 & E2 & E3). destruct (zip_add _ _ 8 8 (eq_trans C2 (eq_sym D2)) C3 D3 ltac:(lia)) as (F1 & F2 & F3).
    destruct (zip_add _ _ 16 16 ltac:(rewrite E2, F2; lia) E3 F3 ltac:(lia)) as (G1 & G2 & G3). rewrite F2, D2 in G2.
    cbn zeta. set (s0 := add_epi8 (add_epi8 _ _) (add_epi8 _ _)) in *. destruct (vpaddl_spec s0 ltac:(by rewrite G2)) as [H1 H2]; [eapply Forall_impl; [exact G3|cbn; lia]|].
    pose proof (suml_bound _ _ G3) as Hb. unfold alen in Hb. rewrite G2 in Hb.
    destruct (IH (t + vaddvq_u16 (vpaddlq_u8 s0)) (drop 64 s) Hd ltac:(rewrite length_drop; lia)) as (t' & r & E & Hr & Hlr & Hsum).
    exists t', r. split; [done|]. split; [done|]. split; [rewrite length_drop in Hlr; lia|]. rewrite Hsum. unfold vaddvq_u16. rewrite fold_wrap by (done || mach).
    rewrite H1, G1, E1, F1, A1, B1, C1, D1, (ones_split 64 s).
    assert (take 64 s = take 16 (drop (16 * 0) s) ++ take 16 (drop (16 * 1) s) ++ take 16 (drop (16 * 2) s) ++ take 16 (drop (16 * 3) s)) as ->.
    { clear -H64. do 64 (destruct s as [|? s]; [cbn in H64; lia|]). reflexivity. }
    rewrite !bits_of_app, !ones_app. lia.
  - by exists t, s.
Qed.

Lemma neon_16_spec fuel t s : is_bytes s -> (length s <= fuel)%nat -> exists t' r, neon_16 fuel t s = Ok (t', r) /\
  is_bytes r /\ t' + ones (bits_of r) = t + ones (bits_of s).
Proof.
  revert t s. induction fuel as [|fuel IH]; intros t s Hs Hl; cbn [neon_16]; destruct (Z.leb_spec 16 (alen s)) as [Hge|Hlt].
  - unfold alen in Hge. lia.
  - by exists t, s.
  - assert (16 <= length s)%nat as H16 by (unfold alen in Hge; lia). destruct (is_bytes_split 16 s Hs) as [Ht Hd].
    destruct (vcnt_spec _ Ht) as (A1 & A2 & A3). pose proof (suml_bound _ _ A3) as Hb. unfold alen in Hb. rewrite A2, length_take in Hb.
    destruct (IH (t + vaddvq_u8 (vcntq_u8 (take 16 s))) (drop 16 s) Hd ltac:(rewrite length_drop; lia)) as (t' & r & E & Hr & Hsum).
    exists t', r. split; [done|]. split; [done|]. rewrite Hsum. unfold vaddvq_u8. rewrite fold_wrap; [|lia| |mach].
    + rewrite A1, (ones_split 16 s). lia.
    + eapply Forall_impl; [exact A3|]. cbn. lia.
  - by exists t, s.
Qed.

Lemma popcountNEON_spec addr s : is_bytes s -> popcountNEON addr s = Ok (ones (bits_of s)).
Proof.
  intros Hs. unfold popcountNEON. destruct (neon_64_spec (length s) 0 s Hs ltac:(lia)) as (t & r & -> & Hr & _ & H1). cbn [mbind res_bind].
  destruct (neon_16_spec (length r) t r Hr ltac:(lia)) as (t' & r' & -> & Hr' & H2). cbn [mbind res_bind].
  destruct (alen r' =? 0) eqn:E0.
  - apply Z.eqb_eq in E0. assert (r' = []) as -> by (destruct r'; [done|rewrite alen_cons in E0; pose proof (alen_nonneg r'); lia]). cbn in H2. f_equal. lia.
  - rewrite popcountScalar_spec by done. cbn [mbind res_bind]. f_equal. lia.
Qed.

(** ** SVE2 *)
Lemma active_lanes_spec vl i n : 0 <= i <= n -> n < 2 ^ 32 -> active_lanes vl i n = (vl `min` Z.to_nat (n - i))%nat.
Proof.
  revert i. induction vl as [|vl IH]; intros i Hi Hn; [done|]. cbn [active_lanes]. rewrite (wrap_small 32 i), (wrap_small 32 n) by mach.
  destruct (Z.ltb_spec i n); [rewrite IH by lia; lia|]. lia.
Qed.

Lemma sve_loop_spec fuel vl t i s : is_bytes s -> 0 < vl -> 0 <= i -> alen s < 2 ^ 32 -> alen s - i <= Z.of_nat fuel ->
  sve_loop fuel vl t i s = Ok (t + ones (bits_of (drop (Z.to_nat i) s))).
Proof.
  intros Hs Hv. revert t i. induction fuel as [|fuel IH]; intros t i Hi Hn Hf; cbn [sve_loop]; destruct (Z.ltb_spec i (alen s)) as [Hlt|Hge]; try lia.
  1, 3: rewrite drop_ge by (unfold alen in Hge; lia); cbn; f_equal; lia.
  rewrite active_lanes_spec by lia. set (k := (Z.to_nat vl `min` Z.to_nat (alen s - i))%nat). unfold ldn.
  rewrite (proj2 (Z.leb_le 0 i)), (proj2 (Z.leb_le 0 (Z.of_nat k))), (proj2 (Z.leb_le (i + Z.of_nat k) (alen s))) by lia. cbn [andb mbind res_bind].
  rewrite IH by lia. f_equal. rewrite Nat2Z.id. rewrite fold_add.
  rewrite (ones_split k (drop (Z.to_nat i) s)), drop_drop. rewrite suml_counts by (by apply Forall_take, Forall_drop).
  destruct (Z.le_gt_cases (i + vl) (alen s)).
  - replace (Z.to_nat i + k)%nat with (Z.to_nat (i + vl)) by lia. lia.
  - rewrite (drop_ge s (Z.to_nat (i + vl))), (drop_ge s (Z.to_nat i + k)) by (unfold alen in *; lia). cbn [bits_of mbind list_bind ones]. lia.
Qed.

(** The instruction compares 32-bit numbers. *)
Lemma sve_loop_empty fuel vl t i s : 0 < vl -> 0 <= i -> u32 (alen s) = 0 -> alen s - i <= Z.of_nat fuel -> sve_loop fuel vl t i s = Ok t.
Proof.
  intros Hv. revert t i. induction fuel as [|fuel IH]; intros t i Hi Hn Hf; cbn [sve_loop]; destruct (Z.ltb_spec i (alen s)) as [Hlt|Hge]; try lia; try done.
  assert (active_lanes (Z.to_nat vl) i (alen s) = 0)%nat as ->.
  { destruct (Z.to_nat vl); [done|]. cbn [active_lanes]. rewrite Hn. pose proof (wrap_range 32 i ltac:(lia)). rewrite (proj2 (Z.ltb_ge _ _)); [done|mach]. }
  unfold ldn. rewrite (proj2 (Z.leb_le 0 i)), (proj2 (Z.leb_le (i + Z.of_nat 0) (alen s))) by lia.
  rewrite take_0. change (0 <=? Z.of_nat 0) with true. cbn [andb mbind res_bind]. change (fold_left Z.add (vcntq_u8 []) 0) with 0. rewrite Z.add_0_r. apply IH; lia.
Qed.

Definition cpu_ok (cpu : Cpu) (s : bytes) : Prop :=
  match cpu with Sve2 vl => 0 < vl /\ alen s < 2 ^ 32 | _ => 8 * alen s < 2 ^ 63 end.

Lemma serverPopcount_spec cpu addr s : is_bytes s -> cpu_ok cpu s -> serverPopcount cpu addr s = Ok (ones (bits_of s)).
Proof.
  intros Hs Hc. destruct cpu as [| | |vl]; cbn [serverPopcount cpu_ok] in *; [by apply popcountScalar_spec|..].
  - destruct (32 <=? alen s); [by apply popcountAVX2_spec|by apply popcountScalar_spec].
  - destruct (16 <=? alen s); [by apply popcountNEON_spec|by apply popcountScalar_spec].
  - destruct (16 <=? alen s); [|by apply popcountScalar_spec]. destruct Hc as [Hv Hl]. unfold popcountSVE2. rewrite sve_loop_spec by (done || unfold alen; lia). done.
Qed.

(** ** Positions *)
Lemma first_bit_app b l l' : first_bit b (l ++ l') = match first_bit b l with Some i => Some i | None => i ← first_bit b l'; Some (i + alen l) end.
Proof.
  induction l as [|x l IH]; cbn [first_bit app].
  - destruct (first_bit b l') as [i|]; cbn; [|done]. by rewrite Z.add_0_r.
  - destruct (Bool.eqb x b); [done|]. rewrite IH. destruct (first_bit b l) as [i|]; cbn; [done|]. destruct (first_bit b l') as [i|]; cbn; [|done]. f_equal. rewrite alen_cons. lia.
Qed.

Definition skip_byte (bit : bool) : Z := if bit then 0 else 255.

Lemma first_bit_byte bit b : in_u 8 b -> first_bit bit (bits_of_byte b) = None <-> b = skip_byte bit.
Proof.
  intros Hb. pose proof (byte_forallb (fun b => Bool.eqb (match first_bit bit (bits_of_byte b) with None => true | _ => false end) (b =? skip_byte bit)) b) as H.
  specialize (H ltac:(destruct bit; vm_compute; reflexivity) Hb). cbn beta in H. apply eqb_prop in H.
  destruct (first_bit bit (bits_of_byte b)); destruct (Z.eqb_spec b (skip_byte bit)); done.
Qed.

Lemma first_bit_none bit s : is_bytes s -> first_bit bit (bits_of s) = None <-> Forall (fun b => b = skip_byte bit) s.
Proof.
  intros Hs. induction Hs as [|b s Hb Hs IH]; [by split; [constructor|]|]. rewrite bits_of_cons, first_bit_app, Forall_cons, <- IH, <- first_bit_byte by done.
  destruct (first_bit bit (bits_of_byte b)); [by split; [|intros []]|]. destruct (first_bit bit (bits_of s)); [by split; [|intros []]|done].
Qed.

(** A prefix without the bit has been passed. *)
Definition passed (bit : bool) (pos pos' : Z) (s r : bytes) : Prop :=
  exists pre, s = pre ++ r /\ Forall (fun b => b = skip_byte bit) pre /\ pos' = pos + 8 * alen pre.

Lemma passed_refl bit pos s : passed bit pos pos s s.
Proof. exists []. split; [done|]. split; [constructor|]. unfold alen. cbn. lia. Qed.

Lemma passed_trans bit p1 p2 p3 s1 s2 s3 : passed bit p1 p2 s1 s2 -> passed bit p2 p3 s2 s3 -> passed bit p1 p3 s1 s3.
Proof.
  intros (a & -> & Ha & ->) (b & -> & Hb & ->). exists (a ++ b). split; [by rewrite app_assoc|]. split; [by apply Forall_app|]. rewrite alen_app. lia.
Qed.

Lemma pos_head_spec addr bit pos s : let '(found, pos', r) := pos_head addr (skip_byte bit) pos s in
  passed bit pos pos' s r /\ (found = true -> exists b r', r = b :: r' /\ b <> skip_byte bit).
Proof.
  revert addr pos. induction s as [|b s IH]; intros addr pos; cbn [pos_head]; [split; [apply passed_refl|done]|].
  destruct (Z.land addr 7 =? 0); [split; [apply passed_refl|done]|].
  destruct (Z.eqb_spec b (skip_byte bit)) as [->|Hne]; cbn [negb]; [|split; [apply passed_refl|by exists b, s]].
  specialize (IH (addr + 1) (pos + 8)). destruct (pos_head _ _ _ s) as [[found pos'] r]. destruct IH as [Hp Hf]. split; [|done].
  eapply passed_trans; [|exact Hp]. exists [skip_byte bit]. split; [done|]. split; [by repeat constructor|]. unfold alen. cbn. lia.
Qed.

Lemma word_skip (bit : bool) s : is_bytes s -> length s = 8%nat -> le_val s = (if bit then 0 else ULONG_MAX) <-> Forall (fun b => b = skip_byte bit) s.
Proof.
  intros Hs Hl. split.
  - intros E. rewrite <- (le_bytes_val s Hs), Hl, E. destruct bit; repeat constructor.
  - intros H. assert (s = replicate 8 (skip_byte bit)) as ->; [|by destruct bit].
    rewrite <- Hl. clear Hl Hs. induction H as [|b s -> H IH]; [done|]. cbn [length replicate]. by f_equal.
Qed.

Lemma pos_words_spec fuel (bit : bool) pos s : is_bytes s -> (length s <= fuel)%nat -> exists pos' r, pos_words fuel (if bit then 0 else ULONG_MAX) pos s = Ok (pos', r) /\
  passed bit pos pos' s r /\ (8 <= alen r -> ~ Forall (fun b => b = skip_byte bit) (take 8 r)).
Proof.
  revert pos s. induction fuel as [|fuel IH]; intros pos s Hs Hl; cbn [pos_words]; destruct (Z.leb_spec 8 (alen s)) as [Hge|Hlt].
  - unfold alen in Hge. lia.
  - exists pos, s. split; [done|]. split; [apply passed_refl|lia].
  - assert (length (take 8 s) = 8%nat) as H8 by (rewrite length_take; unfold alen in Hge; lia). destruct (is_bytes_split 8 s Hs) as [Ht Hd].
    pose proof (word_skip bit (take 8 s) Ht H8) as Hw. destruct (Z.eqb_spec (le_val (take 8 s)) (if bit then 0 else ULONG_MAX)) as [E|E]; cbn [negb].
    + destruct (IH (pos + 64) (drop 8 s) Hd ltac:(rewrite length_drop; lia)) as (pos' & r & E' & Hp & Hr). exists pos', r. split; [done|]. split; [|done].
      eapply passed_trans; [|exact Hp]. exists (take 8 s). rewrite take_drop. split; [done|]. split; [by apply Hw|]. unfold alen. rewrite H8. lia.
    + exists pos, s. split; [done|]. split; [apply passed_refl|]. intros _ Hf. apply E, Hw, Hf.
  - exists pos, s. split; [done|]. split; [apply passed_refl|lia].
Qed.

(** *** The last word *)
Lemma int_bits_succ n v : 0 <= n -> int_bits (n + 1) v = Z.testbit v n :: int_bits n v.
Proof.
  intros Hn. unfold int_bits. rewrite seqZ_cons by lia. rewrite fmap_cons. f_equal; [f_equal; lia|].
  replace (Z.pred (n + 1)) with n by lia. replace (Z.succ 0) with (1 + 0) by lia. rewrite <- (fmap_add_seqZ 1 0 n), <- list_fmap_compose.
  apply list_fmap_ext. intros i x _. unfold compose. f_equal. lia.
Qed.

Lemma length_int_bits n v : 0 <= n -> length (int_bits n v) = Z.to_nat n.
Proof. intros. unfold int_bits. by rewrite length_fmap, length_seqZ. Qed.

Lemma int_bits_ext n v w : (forall j, 0 <= j < n -> Z.testbit v j = Z.testbit w j) -> int_bits n v = int_bits n w.
Proof.
  intros H. unfold int_bits. apply list_fmap_ext. intros i x Hx. apply list_elem_of_lookup_2, elem_of_seqZ in Hx. apply H. lia.
Qed.

Lemma int_bits_byte b : int_bits 8 b = bits_of_byte b.
Proof. done. Qed.

Lemma int_bits_app n m v : 0 <= n -> 0 <= m -> int_bits (n + m) v = int_bits n (Z.shiftr v m) ++ int_bits m v.
Proof.
  intros Hn Hm. revert n Hn. apply (natlike_ind (fun n => int_bits (n + m) v = int_bits n (Z.shiftr v m) ++ int_bits m v)); [done|].
  intros n Hn IH. replace (Z.succ n + m) with (n + m + 1) by lia. replace (Z.succ n) with (n + 1) by lia. rewrite !int_bits_succ, IH by lia.
  rewrite Z.shiftr_spec by lia. done.
Qed.

Lemma load_step n w b : 0 <= n <= 56 -> in_u n w -> in_u 8 b ->
  in_u (n + 8) (Z.lor (u64 (Z.shiftl w 8)) b) /\ int_bits (n + 8) (Z.lor (u64 (Z.shiftl w 8)) b) = int_bits n w ++ bits_of_byte b.
Proof.
  intros Hn Hw Hb. assert (2 ^ (n + 8) = 2 ^ n * 2 ^ 8) as Hp by (by rewrite Z.pow_add_r by lia). assert (2 ^ n <= 2 ^ 56) as Hp' by (apply Z.pow_le_mono_r; lia).
  rewrite (shl_fits w 8 n) by (done || lia). rewrite Z.lor_comm, lor_pack by (done || lia || apply Hw). split; [unfold in_u in *; change (2 ^ 8) with 256 in *; lia|].
  rewrite int_bits_app by lia. change (bits_of_byte b) with (int_bits 8 b). f_equal.
  - f_equal. rewrite Z.shiftr_div_pow2, (Z.mul_comm (2 ^ 8)), Z.div_add, Z.div_small by (mach || lia). lia.
  - apply int_bits_ext. intros j Hj. rewrite <- lor_pack by (done || lia || apply Hw). by rewrite Z.lor_spec, Z.shiftl_spec_low, orb_false_r by lia.
Qed.

Lemma load_word_spec n k w s : 0 <= k -> k + 8 * Z.of_nat n <= 64 -> in_u k w -> is_bytes s ->
  int_bits (k + 8 * Z.of_nat n) (load_word n w s) = int_bits k w ++ bits_of (take n (s ++ replicate n 0)) /\ in_u (k + 8 * Z.of_nat n) (load_word n w s).
Proof.
  revert k w s. induction n as [|n IH]; intros k w s Hk Hn Hw Hs.
  - cbn [load_word]. rewrite take_0, app_nil_r, Z.add_0_r. done.
  - cbn [load_word]. replace (k + 8 * Z.of_nat (S n)) with (k + 8 + 8 * Z.of_nat n) by lia. destruct Hs as [|b s Hb Hs].
    + destruct (load_step k w 0 ltac:(lia) Hw ltac:(mach)) as [H1 H2]. rewrite Z.lor_0_r in H1, H2. destruct (IH (k + 8) _ [] ltac:(lia) ltac:(lia) H1 ltac:(constructor)) as [H3 H4].
      split; [|done]. rewrite H3, H2. cbn [app replicate take]. rewrite bits_of_cons, app_assoc. done.
    + destruct (load_step k w b ltac:(lia) Hw Hb) as [H1 H2]. destruct (IH (k + 8) _ s ltac:(lia) ltac:(lia) H1 Hs) as [H3 H4].
      split; [|done]. rewrite H3, H2. cbn [app take]. rewrite bits_of_cons, <- app_assoc. do 3 f_equal.
      rewrite (replicate_S_end n), app_assoc, (take_app_le _ [0]); [done|]. rewrite length_app, length_replicate. lia.
Qed.

Lemma pos_bits_spec fuel m word pos bit : 0 <= m <= Z.of_nat fuel -> pos_bits fuel (if m =? 0 then 0 else 2 ^ (m - 1)) word pos bit =
  match first_bit bit (int_bits m word) with Some i => Ok (pos + i) | None => AssertFail end.
Proof.
  revert m pos. induction fuel as [|fuel IH]; intros m pos Hm; destruct (Z.eqb_spec m 0) as [->|Hne]; try lia; try done.
  assert (0 < 2 ^ (m - 1)) as Hp by (apply Z.pow_pos_nonneg; lia). cbn [pos_bits]. rewrite (proj2 (Z.eqb_neq _ 0)) by lia.
  rewrite Z.land_comm, <- Z.shiftl_1_l, bit_mask_spec by lia. pose proof (int_bits_succ (m - 1) word ltac:(lia)) as Hsucc. replace (m - 1 + 1) with m in Hsucc by lia. rewrite Hsucc. cbn [first_bit].
  destruct (Bool.eqb _ bit); [by rewrite Z.add_0_r|]. rewrite Z.shiftl_1_l.
  assert (Z.shiftr (2 ^ (m - 1)) 1 = if m - 1 =? 0 then 0 else 2 ^ (m - 1 - 1)) as ->.
  { rewrite Z.shiftr_div_pow2 by lia. destruct (Z.eqb_spec (m - 1) 0) as [->|]; [done|]. rewrite <- Z.pow_sub_r by lia. done. }
  rewrite IH by lia. destruct (first_bit bit (int_bits (m - 1) word)) as [i|]; cbn; [|done]. f_equal. lia.
Qed.

Lemma first_bit_repeat bit n : first_bit bit (bits_of (replicate n 0)) = if bit then None else match n with O => None | S _ => Some 0 end.
Proof. destruct bit; [|by destruct n]. induction n as [|n IH]; [done|]. cbn [replicate]. rewrite bits_of_cons, first_bit_app, IH. done. Qed.

Lemma int_bits_zero n w : 0 <= n -> in_u n w -> w = 0 <-> first_bit true (int_bits n w) = None.
Proof.
  intros Hn Hw. split.
  - intros ->. unfold int_bits. induction (seqZ 0 n) as [|x l IH]; [done|]. cbn [fmap list_fmap first_bit]. rewrite Z.bits_0. cbn. by rewrite IH.
  - intros H. apply Z.bits_inj'. intros j Hj. rewrite Z.bits_0. destruct (Z.lt_ge_cases j n) as [Hlt|]; [|by apply (testbit_high n)].
    revert H. replace n with (n - 1 - j + (j + 1)) by lia. rewrite int_bits_app by lia. rewrite first_bit_app.
    destruct (first_bit true (int_bits (n - 1 - j) _)); [done|]. rewrite int_bits_succ by lia. cbn [first_bit]. by destruct (Z.testbit w j).
Qed.

Lemma serverBitpos_spec addr s bit : is_bytes s -> serverBitpos addr s bit = Ok (bit_position bit (bits_of s)).
Proof.
  intros Hs. unfold serverBitpos. pose proof (pos_head_spec addr bit 0 s) as Hh. fold (skip_byte bit).
  destruct (pos_head addr (skip_byte bit) 0 s) as [[found p] r]. destruct Hh as [Hp Hf].
  assert (exists p' r', (if found : bool then Ok (p, r) else pos_words (length r) (if bit then 0 else ULONG_MAX) p r) = Ok (p', r') /\ passed bit 0 p' s r' /\
    (8 <= alen r' -> ~ Forall (fun b => b = skip_byte bit) (take 8 r'))) as (p' & r' & -> & Hp' & Hr').
  { assert (is_bytes r) as Hr by (destruct Hp as (pre & -> & _); apply Forall_app in Hs as [_ Hs]; exact Hs).
    destruct found.
    - exists p, r. split; [done|]. split; [done|]. intros _. destruct (Hf eq_refl) as (b & r' & -> & Hb). cbn [take]. intros [Hb' _]%Forall_cons. done.
    - destruct (pos_words_spec (length r) bit p r Hr ltac:(lia)) as (p' & r' & E & Hp' & Hr'). exists p', r'. split; [done|]. split; [|done]. by eapply passed_trans. }
  clear Hp Hf. cbn [mbind res_bind]. destruct Hp' as (pre & -> & Hpre & ->). apply Forall_app in Hs as [Hsp Hs].
  destruct (load_word_spec 8 0 0 r' ltac:(lia) ltac:(lia) ltac:(mach) Hs) as [Hw Hw']. change (int_bits 0 0) with (@nil bool) in Hw. change (0 + 8 * Z.of_nat 8) with 64 in *.
  set (word := load_word 8 0 r') in *. cbn [app] in Hw. assert (first_bit bit (bits_of pre) = None) as Hn by (by apply first_bit_none).
  unfold bit_position. rewrite bits_of_app, first_bit_app, Hn, alen_app, !alen_bits_of, Z.add_0_l.
  change (2 ^ 63) with (if 64 =? 0 then 0 else 2 ^ (64 - 1)). rewrite pos_bits_spec by lia. pose proof (int_bits_zero 64 word ltac:(lia) Hw') as H0.
  destruct (first_bit bit (bits_of (take 8 r'))) as [i|] eqn:Ei.
  - assert (first_bit bit (int_bits 64 word) = Some i) as Hi.
    { rewrite Hw. destruct (decide (8 <= length r')%nat); [by rewrite take_app_le|]. rewrite take_app_ge by lia. rewrite (take_ge r') in Ei by lia. by rewrite bits_of_app, first_bit_app, Ei. }
    assert (first_bit bit (bits_of r') = Some i) as -> by (rewrite <- (take_drop 8 r'), bits_of_app, first_bit_app; by rewrite Ei).
    rewrite Hi. destruct bit; cbn [andb default]; [|cbn; f_equal; lia]. destruct (Z.eqb_spec word 0) as [E0|]; [|cbn; f_equal; lia]. apply H0 in E0. congruence.
  - apply first_bit_none in Ei; [|by apply Forall_take]. assert (alen r' < 8) as Hl by (destruct (Z.lt_ge_cases (alen r') 8) as [|Hge]; [done|by destruct (Hr' Hge)]).
    assert (length r' < 8)%nat as Hl' by (unfold alen in Hl; lia). rewrite (take_ge r') in Ei by lia. apply first_bit_none in Ei; [|done]. rewrite Ei.
    assert (first_bit bit (int_bits 64 word) = if bit then None else Some (8 * alen r')) as Hi.
    { rewrite Hw, take_app_ge, bits_of_app, first_bit_app, Ei by lia. rewrite take_replicate, first_bit_repeat. destruct bit; [done|].
      destruct ((8 - length r') `min` 8)%nat eqn:E; [lia|]. cbn. f_equal. rewrite alen_bits_of. lia. }
    rewrite Hi. destruct bit; cbn [andb default option_bind mbind]; [by rewrite (proj2 (Z.eqb_eq word 0)) by (by apply H0)|]. f_equal; lia.
Qed.

(** ** Fields *)
Lemma bits_lookup p i k : (k < 8)%nat -> bits_of p !! (8 * i + k)%nat = (fun b => Z.testbit b (7 - Z.of_nat k)) <$> (p !! i).
Proof.
  intros Hk. revert i. induction p as [|b p IH]; intros i; [done|]. rewrite bits_of_cons. destruct i as [|i].
  - rewrite lookup_app_l by (cbn; lia). cbn [lookup list_lookup fmap option_fmap option_map]. do 8 (destruct k as [|k]; [done|]). lia.
  - rewrite lookup_app_r by (cbn; lia). replace (8 * S i + k - length (bits_of_byte b))%nat with (8 * i + k)%nat by (cbn; lia). apply IH.
Qed.

(** The byte and the bit in it of an offset. *)
Lemma bits_at p off : 0 <= off < 8 * alen p -> exists b, p !! Z.to_nat (Z.shiftr off 3) = Some b /\ 0 <= Z.shiftr off 3 < alen p /\ 0 <= 7 - Z.land off 7 <= 7 /\
  bits_of p !! Z.to_nat off = Some (Z.testbit b (7 - Z.land off 7)).
Proof.
  intros Ho. rewrite Z.shiftr_div_pow2 by lia. change (2 ^ 3) with 8. assert (Z.land off 7 = off mod 8) as -> by (apply (Z.land_ones off 3); lia).
  pose proof (Z.div_mod off 8 ltac:(lia)) as Hd. pose proof (Z.mod_pos_bound off 8 ltac:(lia)) as Hm. set (q := off / 8) in *. set (r := off mod 8) in *.
  unfold alen in *. destruct (lookup_lt_is_Some_2 p (Z.to_nat q) ltac:(lia)) as [b Hb].
  exists b. split; [done|]. split; [lia|]. split; [lia|]. replace (Z.to_nat off) with (8 * Z.to_nat q + Z.to_nat r)%nat by lia.
  rewrite bits_lookup by lia. rewrite Hb. cbn. do 2 f_equal. lia.
Qed.

Lemma field_succ l off n b : 0 <= off -> l !! Z.to_nat off = Some b -> 0 <= n -> field l off (n + 1) = b :: field l (off + 1) n.
Proof.
  intros Ho Hb Hn. unfold field. replace (Z.to_nat (n + 1)) with (S (Z.to_nat n)) by lia. rewrite (drop_S l b) by done. cbn [take].
  do 3 f_equal. lia.
Qed.

Lemma unsigned_range acc l : 0 <= acc -> 0 <= unsigned_of acc l < (acc + 1) * 2 ^ alen l.
Proof.
  revert acc. induction l as [|b l IH]; intros acc Ha; [unfold alen; cbn; lia|]. cbn [unsigned_of]. rewrite alen_cons, Z.pow_add_r by (pose proof (alen_nonneg l); lia).
  specialize (IH (2 * acc + if b then 1 else 0)). assert (0 < 2 ^ alen l) by (apply Z.pow_pos_nonneg; [lia|apply alen_nonneg]). destruct b; nia.
Qed.

Lemma length_bit_field l off n : 0 <= off -> 0 <= n -> off + n <= alen l -> length (field l off n) = Z.to_nat n.
Proof. intros. unfold field, alen in *. rewrite length_take, length_drop. lia. Qed.

Lemma get_bits_spec n p off v : is_bytes p -> 0 <= off -> off + Z.of_nat n <= 8 * alen p -> 8 * alen p < 2 ^ 64 -> (n <= 64)%nat -> in_u (64 - Z.of_nat n) v ->
  get_bits n p off v = Ok (unsigned_of v (field (bits_of p) off (Z.of_nat n))).
Proof.
  intros Hp. revert off v. induction n as [|n IH]; intros off v Ho Hn H64 Hn64 Hv; [done|]. cbn [get_bits].
  destruct (bits_at p off ltac:(lia)) as (b & Hb & Hi & Hk & Hbit). unfold ld. rewrite (proj2 (Z.ltb_ge _ 0)), Hb by lia. cbn [mbind res_bind].
  assert (2 ^ (64 - Z.of_nat n) = 2 * 2 ^ (64 - Z.of_nat (S n))) as Hpow by (rewrite <- Z.pow_succ_r by lia; f_equal; lia).
  assert (2 ^ (64 - Z.of_nat n) <= 2 ^ 64) as Hle by (apply Z.pow_le_mono_r; lia).
  assert (Z.land (Z.shiftr b (7 - Z.land off 7)) 1 = if Z.testbit b (7 - Z.land off 7) then 1 else 0) as ->.
  { change 1 with (Z.ones 1) at 1. rewrite Z.land_ones by lia. change (2 ^ 1) with 2. rewrite <- Z.bit0_mod, Z.shiftr_spec, Z.add_0_l by lia. by destruct (Z.testbit b _). }
  rewrite (shl_fits v 1 (64 - Z.of_nat (S n))) by (done || lia). set (x := if Z.testbit b _ then 1 else 0) in *. assert (0 <= x <= 1) as Hx by (unfold x; destruct (Z.testbit b _); lia).
  rewrite Z.lor_comm, lor_pack by (unfold in_u in *; lia). change (2 ^ 1) with 2. rewrite (wrap_small 64 (off + 1)) by (unfold in_u; lia).
  rewrite IH by (unfold in_u in *; lia). replace (Z.of_nat (S n)) with (Z.of_nat n + 1) by lia. rewrite (field_succ _ off (Z.of_nat n) _ ltac:(lia) Hbit) by lia.
  cbn [unsigned_of]. fold x. do 2 f_equal. lia.
Qed.

Lemma getUnsignedBitfield_spec p off n : is_bytes p -> 0 <= off -> 0 <= n <= 64 -> off + n <= 8 * alen p -> 8 * alen p < 2 ^ 64 ->
  getUnsignedBitfield p off n = Ok (decode false n (field (bits_of p) off n)).
Proof.
  intros Hp Ho Hn Hl H64. unfold getUnsignedBitfield. rewrite get_bits_spec by (done || unfold in_u; lia || (unfold in_u; split; [lia|apply Z.pow_pos_nonneg; lia])).
  rewrite Z2Nat.id by lia. f_equal. symmetry. apply wrap_small. pose proof (unsigned_range 0 (field (bits_of p) off n) ltac:(lia)) as H.
  unfold alen in H at 1. rewrite length_bit_field in H by (rewrite ?alen_bits_of; lia). rewrite Z2Nat.id in H by lia. unfold in_u. lia.
Qed.

Lemma swrap_high n u : 1 <= n -> in_u n u -> swrap n u = if Z.testbit u (n - 1) then u - 2 ^ n else u.
Proof.
  intros Hn Hu. assert (2 ^ n = 2 * 2 ^ (n - 1)) as Hp by (rewrite <- Z.pow_succ_r by lia; f_equal; lia). unfold in_u in Hu.
  assert (Z.testbit u (n - 1) = (2 ^ (n - 1) <=? u)) as ->.
  { destruct (Z.leb_spec (2 ^ (n - 1)) u) as [Hle|Hlt].
    - apply Z.testbit_true; [lia|]. rewrite <- (Z.div_unique_pos u (2 ^ (n - 1)) 1 (u - 2 ^ (n - 1))) by lia. done.
    - apply (testbit_high (n - 1)); unfold in_u; lia. }
  unfold swrap. destruct (Z.leb_spec (2 ^ (n - 1)) u) as [Hle|Hlt].
  - replace (u + 2 ^ (n - 1)) with (u - 2 ^ (n - 1) + 1 * 2 ^ n) by lia. rewrite Z.mod_add, Z.mod_small by lia. lia.
  - rewrite Z.mod_small by lia. lia.
Qed.

(** The mask [(uint64_t)-1 << n]. *)
Lemma high_mask n : 0 <= n <= 64 -> u64 (Z.shiftl (- 1) n) = Z.shiftl (Z.ones (64 - n)) n.
Proof.
  intros Hn. unfold wrap. rewrite <- Z.land_ones by lia. apply Z.bits_inj'. intros j Hj. rewrite Z.land_spec, Z.testbit_ones_nonneg by lia.
  destruct (Z.lt_ge_cases j n); [by rewrite !Z.shiftl_spec_low|]. rewrite !Z.shiftl_spec, Z.bits_m1, Z.testbit_ones_nonneg by lia.
  cbn. destruct (Z.ltb_spec j 64); destruct (Z.ltb_spec (j - n) (64 - n)); lia || done.
Qed.

Lemma high_mask_value n : 0 <= n <= 64 -> Z.shiftl (Z.ones (64 - n)) n = 2 ^ 64 - 2 ^ n.
Proof.
  intros Hn. rewrite Z.shiftl_mul_pow2, Z.ones_equiv, <- Z.sub_1_r, Z.mul_sub_distr_r, <- Z.pow_add_r by lia. replace (64 - n + n) with 64 by lia. lia.
Qed.

Lemma lor_high u n : in_u 64 u -> 0 <= n <= 64 -> Z.lor u (u64 (Z.shiftl (- 1) n)) = u mod 2 ^ n + (2 ^ 64 - 2 ^ n).
Proof.
  intros Hu Hn. rewrite high_mask by done. rewrite <- high_mask_value, Z.shiftl_mul_pow2, Z.mul_comm, <- lor_pack by (try lia; try (apply Z.mod_pos_bound; apply Z.pow_pos_nonneg; lia); rewrite Z.ones_equiv; pose proof (Z.pow_pos_nonneg 2 (64 - n)); lia).
  rewrite Z.mul_comm, <- Z.shiftl_mul_pow2 by lia. apply Z.bits_inj'. intros j Hj. rewrite !Z.lor_spec.
  destruct (Z.lt_ge_cases j n); [by rewrite Z.mod_pow2_bits_low by lia|]. rewrite Z.mod_pow2_bits_high, !Z.shiftl_spec, Z.testbit_ones_nonneg by lia.
  destruct (Z.lt_ge_cases j 64); [rewrite (proj2 (Z.ltb_lt _ _)) by lia; by rewrite orb_true_r|]. by rewrite (testbit_high 64 u) by (done || lia).
Qed.

Lemma land_low_mask u n : in_u 64 u -> 0 <= n <= 64 -> Z.land u (Z.lnot (u64 (Z.shiftl (- 1) n))) = u mod 2 ^ n.
Proof.
  intros Hu Hn. rewrite high_mask by done. apply Z.bits_inj'. intros j Hj. rewrite Z.land_spec, Z.lnot_spec by lia.
  destruct (Z.lt_ge_cases j n); [rewrite Z.mod_pow2_bits_low, Z.shiftl_spec_low by lia; apply andb_true_r|].
  rewrite Z.mod_pow2_bits_high, Z.shiftl_spec, Z.testbit_ones_nonneg by lia. destruct (Z.lt_ge_cases j 64); [rewrite (proj2 (Z.ltb_lt _ _)) by lia; cbn; apply andb_false_r|].
  by rewrite (testbit_high 64 u) by (done || lia).
Qed.

(** Extending the sign. *)
Lemma sign_extend r n : 1 <= n < 64 -> 2 ^ (n - 1) <= r < 2 ^ n -> i64 (r + (2 ^ 64 - 2 ^ n)) = r - 2 ^ n.
Proof.
  intros Hn Hr. assert (2 ^ n <= 2 ^ 63) as H63 by (apply Z.pow_le_mono_r; lia). assert (0 < 2 ^ (n - 1)) by (apply Z.pow_pos_nonneg; lia).
  replace (r + (2 ^ 64 - 2 ^ n)) with (r - 2 ^ n + 1 * 2 ^ 64) by lia. unfold swrap. rewrite Z.add_shuffle0, Z.mod_add by lia.
  rewrite Z.mod_small by (change (64 - 1) with 63; change (2 ^ 64) with (2 ^ 63 + 2 ^ 63); lia). lia.
Qed.

Lemma getSignedBitfield_spec p off n : is_bytes p -> 0 <= off -> 1 <= n <= 64 -> off + n <= 8 * alen p -> 8 * alen p < 2 ^ 64 ->
  getSignedBitfield p off n = Ok (decode true n (field (bits_of p) off n)).
Proof.
  intros Hp Ho Hn Hl H64. unfold getSignedBitfield. rewrite getUnsignedBitfield_spec by (done || lia). cbn [mbind res_bind]. unfold decode, int_wrap.
  set (l := field _ _ _). assert (in_u n (unsigned_of 0 l)) as Hu.
  { pose proof (unsigned_range 0 l ltac:(lia)) as H. unfold alen in H at 1. unfold l in *. rewrite length_bit_field in H by (rewrite ?alen_bits_of; lia). rewrite Z2Nat.id in H by lia. unfold in_u. lia. }
  rewrite wrap_small by done. set (u := unsigned_of 0 l) in *. f_equal. rewrite (swrap_high n u) by (done || lia). unfold LL.
  destruct (Z.ltb_spec n 64) as [Hlt|Hge]; cbn [andb].
  - assert (2 ^ n <= 2 ^ 63) as H63 by (apply Z.pow_le_mono_r; lia). unfold in_u in Hu. rewrite (swrap_small 64 u) by (change (64 - 1) with 63; lia).
    rewrite bit_mask_spec by lia. destruct (Z.testbit u (n - 1)) eqn:E; [|done].
    rewrite lor_high by (lia || (unfold in_u; lia)). rewrite Z.mod_small by done. apply sign_extend; [lia|]. split; [|lia].
    destruct (Z.lt_ge_cases u (2 ^ (n - 1))) as [Hlt'|]; [|done]. rewrite (testbit_high (n - 1)) in E; [done|unfold in_u; lia|lia].
  - assert (n = 64) as -> by lia. change (64 - 1) with 63. rewrite (swrap_high 64 u) by (done || lia). done.
Qed.

(** *** Writing *)
Lemma set_bit_byte b k x : in_u 8 b -> 0 <= k <= 7 ->
  let b' := Z.land (Z.lor (Z.land b (Z.lnot (Z.shiftl 1 k))) (Z.shiftl (if x : bool then 1 else 0) k)) 255 in
  in_u 8 b' /\ forall j, 0 <= j < 8 -> Z.testbit b' j = if j =? k then x else Z.testbit b j.
Proof.
  intros Hb Hk. cbn zeta. change 255 with (Z.ones 8). rewrite Z.land_ones by lia. split; [apply Z.mod_pos_bound; lia|].
  intros j Hj. rewrite Z.mod_pow2_bits_low, Z.lor_spec, Z.land_spec, Z.lnot_spec, testbit_shiftl_1 by lia. rewrite (Z.eqb_sym k j).
  destruct (Z.eqb_spec j k) as [->|Hne]; cbn [negb]; [rewrite andb_false_r|rewrite andb_true_r]; destruct x; cbn [orb].
  1, 3: rewrite testbit_shiftl_1 by lia. 1: apply Z.eqb_refl. 1: rewrite (proj2 (Z.eqb_neq k j)) by lia; apply orb_false_r.
  all: rewrite Z.shiftl_0_l, Z.bits_0; by rewrite ?orb_false_r.
Qed.

Lemma byte_bits b b' k x : 0 <= k <= 7 -> (forall j, 0 <= j < 8 -> Z.testbit b' j = if j =? k then x else Z.testbit b j) ->
  bits_of_byte b' = <[Z.to_nat (7 - k) := x]> (bits_of_byte b).
Proof.
  intros Hk Hj. unfold bits_of_byte. cbn [fmap list_fmap]. rewrite !Hj by lia.
  assert (k = 0 \/ k = 1 \/ k = 2 \/ k = 3 \/ k = 4 \/ k = 5 \/ k = 6 \/ k = 7) as Hc by lia. destruct_or? Hc; subst k; reflexivity.
Qed.

Lemma bits_insert p i b b' k x : p !! i = Some b -> (k < 8)%nat -> bits_of_byte b' = <[k := x]> (bits_of_byte b) -> bits_of (<[i := b']> p) = <[(8 * i + k)%nat := x]> (bits_of p).
Proof.
  revert i. induction p as [|c p IH]; intros [|i] Hi Hk Hb; try done.
  - injection Hi as ->. cbn [insert list_insert]. change (list_insert 0%nat b' (b :: p)) with (b' :: p). rewrite !bits_of_cons, Hb. rewrite insert_app_l by (cbn; lia). done.
  - change (<[S i:=b']> (c :: p)) with (c :: <[i := b']> p). rewrite !bits_of_cons, (IH i Hi Hk Hb).
    replace (8 * S i + k)%nat with (length (bits_of_byte c) + (8 * i + k))%nat by (cbn; lia). by rewrite insert_app_r.
Qed.

Lemma splice_succ l off x y : 0 <= off -> (Z.to_nat off < length l)%nat -> splice l off (x :: y) = splice (<[Z.to_nat off := x]> l) (off + 1) y.
Proof.
  intros Ho Hl. unfold splice. replace (Z.to_nat (off + 1)) with (S (Z.to_nat off)) by lia. rewrite (take_S_r _ _ x) by (by apply list_lookup_insert_eq).
  rewrite take_insert_ge by lia. rewrite <- app_assoc. cbn [app length]. do 3 f_equal. rewrite drop_insert_lt by lia. f_equal. lia.
Qed.

Lemma set_bits_spec n p off bits v j : is_bytes p -> 0 <= off -> off + Z.of_nat n <= 8 * alen p -> 8 * alen p < 2 ^ 64 -> bits - j = Z.of_nat n ->
  exists p', set_bits n p off bits v j = Ok p' /\ is_bytes p' /\ alen p' = alen p /\ bits_of p' = splice (bits_of p) off (int_bits (Z.of_nat n) v).
Proof.
  revert p off j. induction n as [|n IH]; intros p off j Hp Ho Hn H64 Hj.
  - exists p. split; [done|]. split; [done|]. split; [done|]. unfold splice. change (int_bits (Z.of_nat 0) v) with (@nil bool). cbn [app length]. by rewrite Nat.add_0_r, take_drop.
  - cbn [set_bits]. destruct (bits_at p off ltac:(lia)) as (b & Hb & Hi & Hk & Hbit). unfold ld at 1. rewrite (proj2 (Z.ltb_ge _ 0)), Hb by lia. cbn [mbind res_bind].
    replace (bits - 1 - j) with (Z.of_nat n) by lia.
    assert ((if Z.land v (Z.shiftl 1 (Z.of_nat n)) =? 0 then 0 else 1) = if Z.testbit v (Z.of_nat n) then 1 else 0) as ->.
    { rewrite <- (bit_mask_spec v (Z.of_nat n)) by lia. by destruct (_ =? 0). }
    assert (in_u 8 b) as Hb8 by (eapply Forall_lookup_1; [exact Hp|exact Hb]).
    destruct (set_bit_byte b (7 - Z.land off 7) (Z.testbit v (Z.of_nat n)) Hb8 ltac:(lia)) as [Hr Hr']. cbn zeta in Hr, Hr'. set (b' := Z.land _ 255) in *.
    set (byte := Z.shiftr off 3) in *. assert (st p byte [b'] = Ok (<[Z.to_nat byte := b']> p)) as ->.
    { unfold st. rewrite (proj2 (Z.leb_le 0 byte)), (proj2 (Z.leb_le (byte + alen [b']) _)) by (rewrite ?alen_cons, ?alen_nil; lia). cbn [andb]. f_equal.
      rewrite insert_take_drop by (unfold alen in Hi; lia). cbn [app]. do 3 f_equal. unfold alen. cbn. lia. }
    cbn [mbind res_bind]. rewrite (wrap_small 64 (off + 1)) by (unfold in_u; lia).
    assert (alen (<[Z.to_nat byte := b']> p) = alen p) as Hal by (unfold alen; by rewrite length_insert).
    assert (bits_of (<[Z.to_nat byte := b']> p) = <[Z.to_nat off := Z.testbit v (Z.of_nat n)]> (bits_of p)) as Hins.
    { rewrite (bits_insert p _ b b' (Z.to_nat (7 - (7 - Z.land off 7))) _ Hb ltac:(lia) (byte_bits b b' (7 - Z.land off 7) _ Hk Hr')). f_equal. unfold byte. rewrite Z.shiftr_div_pow2 by lia. change (2 ^ 3) with 8.
      assert (Z.land off 7 = off mod 8) as -> by (apply (Z.land_ones off 3); lia). pose proof (Z.div_mod off 8 ltac:(lia)) as Hd. pose proof (Z.mod_pos_bound off 8 ltac:(lia)) as Hm.
      set (q := off / 8) in *. set (r := off mod 8) in *. lia. }
    destruct (IH (<[Z.to_nat byte := b']> p) (off + 1) (j + 1)) as (p' & E & H1 & H2 & H3); try lia; [by apply Forall_insert|].
    exists p'. split; [done|]. split; [done|]. split; [lia|]. rewrite H3, Hins. replace (Z.of_nat (S n)) with (Z.of_nat n + 1) by lia. rewrite int_bits_succ by lia.
    symmetry. apply splice_succ; [done|]. rewrite length_bits_of. unfold alen in Hn. lia.
Qed.

Lemma setUnsignedBitfield_spec p off n v : is_bytes p -> 0 <= off -> 0 <= n -> off + n <= 8 * alen p -> 8 * alen p < 2 ^ 64 ->
  exists p', setUnsignedBitfield p off n v = Ok p' /\ is_bytes p' /\ alen p' = alen p /\ bits_of p' = splice (bits_of p) off (int_bits n v).
Proof.
  intros Hp Ho Hn Hl H64. destruct (set_bits_spec (Z.to_nat n) p off n v 0 Hp Ho ltac:(lia) H64 ltac:(lia)) as (p' & H). rewrite Z2Nat.id in H by lia. by exists p'.
Qed.

Lemma setSignedBitfield_spec p off n v : is_bytes p -> 0 <= off -> 0 <= n <= 64 -> off + n <= 8 * alen p -> 8 * alen p < 2 ^ 64 ->
  exists p', setSignedBitfield p off n v = Ok p' /\ is_bytes p' /\ alen p' = alen p /\ bits_of p' = splice (bits_of p) off (int_bits n v).
Proof.
  intros Hp Ho Hn Hl H64. unfold setSignedBitfield. destruct (setUnsignedBitfield_spec p off n (u64 v) Hp Ho ltac:(lia) Hl H64) as (p' & H1 & H2 & H3 & H4).
  exists p'. split; [done|]. split; [done|]. split; [done|]. rewrite H4. f_equal. apply int_bits_ext. intros j Hj. unfold wrap. apply Z.mod_pow2_bits_low. lia.
Qed.

(** *** Overflow *)
Definition limit (sign : bool) (n : Z) (ow : Overflow) (high : bool) (x : Z) : option Z :=
  match ow with
  | BFOVERFLOW_WRAP => Some (int_wrap sign n x)
  | BFOVERFLOW_SAT => Some (if high then int_max sign n else int_min sign n)
  | BFOVERFLOW_FAIL => None
  end.
Definition fits (sign : bool) (n x : Z) : bool := (int_min sign n <=? x) && (x <=? int_max sign n).

(** [ret]: zero exactly when the result fits. *)
Definition checked (sign : bool) (n : Z) (ow : Overflow) (high : bool) (x : Z) (r : Z * option Z) : Prop :=
  if fits sign n x then r = (0, None) else r.1 <> 0 /\ r.2 = limit sign n ow high x.

Lemma mod_mod_pow x n m : 0 <= n <= m -> (x mod 2 ^ m) mod 2 ^ n = x mod 2 ^ n.
Proof.
  intros Hn. replace m with (n + (m - n)) by lia. rewrite Z.pow_add_r by lia. assert (0 < 2 ^ n) by (apply Z.pow_pos_nonneg; lia). assert (0 < 2 ^ (m - n)) by (apply Z.pow_pos_nonneg; lia).
  rewrite Z.rem_mul_r by lia. rewrite Z.mul_comm, Z.mod_add by lia. by apply Z.mod_mod; lia.
Qed.

Lemma checkUnsigned_spec value incr n ow : 1 <= n <= 63 -> in_u 64 value -> - 2 ^ 63 <= incr < 2 ^ 63 -> value < 2 ^ n \/ incr = 0 ->
  checked false n ow (2 ^ n - 1 <? value + incr) (value + incr) (checkUnsignedBitfieldOverflow value incr n ow).
Proof.
  intros Hn Hv Hi Hc. unfold checked, checkUnsignedBitfieldOverflow, fits, int_min, int_max. rewrite (proj2 (Z.eqb_neq n 64)) by lia.
  assert (2 ^ n <= 2 ^ 63) as Hp by (apply Z.pow_le_mono_r; lia). assert (0 < 2 ^ n) as H0 by (apply Z.pow_pos_nonneg; lia).
  rewrite (wrap_small 64 (Z.shiftl 1 n)) by (rewrite Z.shiftl_1_l; mach). rewrite Z.shiftl_1_l.
  assert (forall l, Some (Z.land (value +64 incr) (Z.lnot (u64 (Z.shiftl (- 1) n)))) = l -> Some (int_wrap false n (value + incr)) = l) as Hw.
  { intros l <-. rewrite land_low_mask by (lia || by apply wrap_range). unfold wrap. by rewrite mod_mod_pow by lia. }
  unfold LL. destruct (Z.ltb_spec (2 ^ n - 1) value) as [Hgt|Hle]; cbn [orb].
  - destruct Hc as [Hc | -> ]; [lia|]. rewrite Z.add_0_r in *. rewrite (proj2 (Z.leb_gt value _)), andb_false_r by lia. rewrite (proj2 (Z.ltb_lt _ value)) by lia.
    destruct ow; cbn; split; try done. symmetry. by apply Hw.
  - rewrite (swrap_small 64 (2 ^ n - 1 - value)), (swrap_small 64 (- value)) by (unfold in_u in Hv; change (64 - 1) with 63; lia).
    unfold in_u in Hv. destruct (Z.leb_spec 0 (value + incr)); destruct (Z.leb_spec (value + incr) (2 ^ n - 1)); cbn [andb].
    + rewrite (proj2 (Z.ltb_ge (2 ^ n - 1 - value) incr)), andb_false_r by lia. destruct (Z.ltb_spec incr 0); destruct (Z.ltb_spec incr (- value)); cbn; lia || done.
    + rewrite (proj2 (Z.ltb_lt 0 incr)), (proj2 (Z.ltb_lt (2 ^ n - 1 - value) incr)), (proj2 (Z.ltb_lt (2 ^ n - 1) _)) by lia. cbn [andb]. destruct ow; cbn; split; try done. symmetry. by apply Hw.
    + rewrite (proj2 (Z.ltb_ge 0 incr)), (proj2 (Z.ltb_lt incr 0)), (proj2 (Z.ltb_lt incr (- value))), (proj2 (Z.ltb_ge (2 ^ n - 1) _)) by lia. cbn [andb]. destruct ow; cbn; split; try done. symmetry. by apply Hw.
    + lia.
Qed.

Lemma pow_pred n : 1 <= n -> 2 ^ n = 2 * 2 ^ (n - 1) /\ 0 < 2 ^ (n - 1).
Proof. intros Hn. split; [rewrite <- Z.pow_succ_r by lia; f_equal; lia|apply Z.pow_pos_nonneg; lia]. Qed.

Lemma wrapped_signed n x : 1 <= n <= 64 -> let c := u64 x in
  i64 (if n <? 64 then if Z.land c (Z.shiftl 1 (n - 1)) =? 0 then Z.land c (Z.lnot (u64 (Z.shiftl (- 1) n))) else Z.lor c (u64 (Z.shiftl (- 1) n)) else c) = swrap n x.
Proof.
  intros Hn. cbn zeta. assert (in_u 64 (u64 x)) as Hc by (apply wrap_range; lia).
  assert (swrap n x = swrap n (u64 x mod 2 ^ n)) as ->.
  { unfold wrap. rewrite mod_mod_pow by lia. unfold swrap. by rewrite Zplus_mod_idemp_l. }
  set (r := u64 x mod 2 ^ n). assert (in_u n r) as Hr by (apply Z.mod_pos_bound, Z.pow_pos_nonneg; lia). rewrite (swrap_high n r) by (done || lia).
  destruct (Z.ltb_spec n 64) as [Hlt|Hge].
  - pose proof (bit_mask_spec (u64 x) (n - 1) ltac:(lia)) as Hb. assert (Z.testbit r (n - 1) = Z.testbit (u64 x) (n - 1)) as Ht by (apply Z.mod_pow2_bits_low; lia).
    rewrite <- Ht in Hb. destruct (_ =? 0); cbn [negb] in Hb; rewrite <- Hb.
    + rewrite land_low_mask by (done || lia). fold r. assert (2 ^ n <= 2 ^ 63) by (apply Z.pow_le_mono_r; lia). unfold in_u in Hr. apply swrap_small; [lia|]. change (64 - 1) with 63. lia.
    + rewrite lor_high by (done || lia). fold r. apply sign_extend; [lia|]. unfold in_u in Hr. split; [|lia].
      destruct (Z.lt_ge_cases r (2 ^ (n - 1))) as [Hlt'|]; [|done]. rewrite (testbit_high (n - 1)) in Hb; [done|unfold in_u; lia|lia].
  - assert (n = 64) as -> by lia. unfold r. fold (wrap 64 (u64 x)). rewrite wrap_wrap. by rewrite <- (swrap_high 64 (u64 x)) by (done || lia).
Qed.

Lemma i64_u64 x : i64 (u64 x) = i64 x.
Proof. unfold swrap, wrap. by rewrite Zplus_mod_idemp_l. Qed.

Lemma u64_sub x y : u64 (u64 x - u64 y) = u64 (x - y).
Proof. unfold wrap. symmetry. apply Zminus_mod. Qed.

(** The increment of a value that fits, and a value to store.  For the latter
    the code takes what is below [max - 2^63] for an overflow. *)
Definition set_high (n x : Z) : bool := (int_max true n <? x) || negb (n =? 64) && (x <=? int_max true n - 2 ^ 63).

Section signed.
Context (value incr n : Z) (Hn : 1 <= n <= 64) (Hv : - 2 ^ 63 <= value < 2 ^ 63) (Hi : - 2 ^ 63 <= incr < 2 ^ 63) (Hc : fits true n value = true \/ incr = 0).
#[local] Abbreviation max := (int_max true n).
#[local] Abbreviation min := (int_min true n).

Lemma signed_range : min <= value <= max \/ incr = 0.
Proof. destruct Hc as [[H1 H2]%andb_true_iff | ->]; [left|by right]. apply Z.leb_le in H1, H2. done. Qed.

Lemma signed_limits : max = 2 ^ (n - 1) - 1 /\ min = - 2 ^ (n - 1) /\ 0 < 2 ^ (n - 1) /\ (n < 64 -> 2 ^ (n - 1) <= 2 ^ 62) /\ (n = 64 -> 2 ^ (n - 1) = 2 ^ 63).
Proof.
  destruct (pow_pred n ltac:(lia)) as [_ Hp]. split_and!; try done; [|by intros ->]. intros. apply Z.pow_le_mono_r; lia.
Qed.

Lemma i64_in_range x : - 2 ^ 63 <= x < 2 ^ 63 -> i64 x = x.
Proof. intros. by apply swrap_small. Qed.

Lemma i64_big x : 2 ^ 63 <= x < 2 ^ 64 -> i64 x = x - 2 ^ 64.
Proof.
  intros H. unfold swrap. change (64 - 1) with 63. replace (x + 2 ^ 63) with (x - 2 ^ 63 + 1 * 2 ^ 64) by mach. rewrite Z.mod_add, Z.mod_small by mach. mach.
Qed.

Definition high : bool := if incr =? 0 then set_high n value else max <? value + incr.

Lemma signed_over : (max <? value) || negb (n =? 64) && (i64 (max - value) <? incr) || (0 <=? value) && (0 <? incr) && (i64 (max - value) <? incr) = high.
Proof.
  destruct signed_limits as (Hx & Hm & H0 & Hlt & Heq). pose proof signed_range as Hr. unfold high, set_high. set (P := 2 ^ (n - 1)) in *.
  change (2 ^ 62) with 4611686018427387904 in *. change (2 ^ 63) with 9223372036854775808 in *.
  destruct (Z.eqb_spec n 64) as [He|He]; cbn [negb andb].
  - specialize (Heq He). rewrite !orb_false_r, !(proj2 (Z.ltb_ge max value)) by lia. cbn [orb].
    destruct (Z.leb_spec 0 value); cbn [andb].
    + rewrite i64_in_range by mach. destruct (Z.eqb_spec incr 0), (Z.ltb_spec 0 incr), (Z.ltb_spec (max - value) incr), (Z.ltb_spec max (value + incr)); cbn; lia || done.
    + destruct (Z.eqb_spec incr 0); [done|]. symmetry. apply Z.ltb_ge. lia.
  - specialize (Hlt ltac:(lia)). destruct Hr as [Hr | ->].
    + rewrite !(proj2 (Z.ltb_ge max value)) by lia. rewrite i64_in_range by mach. cbn [orb].
      destruct (Z.eqb_spec incr 0), (Z.leb_spec 0 value), (Z.ltb_spec 0 incr), (Z.ltb_spec (max - value) incr), (Z.ltb_spec max (value + incr)), (Z.leb_spec value (max - 9223372036854775808)); cbn; lia || done.
    + change (0 =? 0) with true. rewrite !Z.ltb_irrefl, andb_false_r, orb_false_r. destruct (Z.ltb_spec max value) as [|Hle]; [done|]. cbn [orb].
      destruct (Z.leb_spec value (max - 9223372036854775808)); [rewrite i64_big by mach; apply Z.ltb_lt; mach|rewrite i64_in_range by mach; apply Z.ltb_ge; mach].
Qed.

Lemma signed_under : high = false ->
  (value <? min) || negb (n =? 64) && (incr <? i64 (min - value)) || (value <? 0) && (incr <? 0) && (incr <? i64 (min - value)) = (value + incr <? min).
Proof.
  destruct signed_limits as (Hx & Hm & H0 & Hlt & Heq). pose proof signed_range as Hr. unfold high, set_high. set (P := 2 ^ (n - 1)) in *.
  change (2 ^ 62) with 4611686018427387904 in *. change (2 ^ 63) with 9223372036854775808 in *. intros Hh.
  destruct (Z.eqb_spec n 64) as [He|He]; cbn [negb andb] in *.
  - specialize (Heq He). rewrite !(proj2 (Z.ltb_ge value min)) by lia. cbn [orb].
    destruct (Z.ltb_spec value 0); cbn [andb].
    + rewrite i64_in_range by mach. destruct (Z.ltb_spec incr 0), (Z.ltb_spec incr (min - value)), (Z.ltb_spec (value + incr) min); cbn; lia || done.
    + symmetry. apply Z.ltb_ge. lia.
  - specialize (Hlt ltac:(lia)). destruct Hr as [Hr | Hr].
    + rewrite !(proj2 (Z.ltb_ge value min)) by lia. rewrite i64_in_range by mach. cbn [orb].
      destruct (Z.ltb_spec value 0), (Z.ltb_spec incr 0), (Z.ltb_spec incr (min - value)), (Z.ltb_spec (value + incr) min); cbn; lia || done.
    + revert Hh. rewrite Hr, Z.add_0_r, Z.ltb_irrefl, andb_false_r, orb_false_r. change (0 =? 0) with true. intros [H1%Z.ltb_ge H2%Z.leb_gt]%orb_false_iff.
      destruct (Z.ltb_spec value min); [done|]. cbn [orb]. rewrite i64_in_range by mach. apply Z.ltb_ge. lia.
Qed.

Lemma checkSigned_spec ow : checked true n ow high (value + incr) (checkSignedBitfieldOverflow value incr n ow).
Proof.
  pose proof signed_over as Ho. pose proof signed_under as Hu. destruct signed_limits as (Hx & Hm & H0 & Hlt & Heq). pose proof signed_range as Hr.
  unfold checkSignedBitfieldOverflow. set (c := u64 value +64 u64 incr). assert (c = u64 (value + incr)) as Hcc by (unfold c, wrap; symmetry; apply Zplus_mod).
  rewrite Hcc. clear c Hcc. pose proof (wrapped_signed n (value + incr) Hn) as Hw. cbn zeta in Hw. unfold LL. rewrite Hw. clear Hw.
  assert ((if n =? 64 then 2 ^ 63 - 1 else Z.shiftl 1 (n - 1) - 1) = max) as ->.
  { unfold int_max. destruct (Z.eqb_spec n 64) as [->|]; [done|]. by rewrite Z.shiftl_1_l. }
  assert (- max - 1 = min) as -> by (unfold int_max, int_min; lia). rewrite !u64_sub, !i64_u64, Ho. unfold checked, fits.
  destruct high eqn:Eh.
  - assert (value + incr < min \/ max < value + incr) as Hout.
    { unfold high, set_high in Eh. destruct (Z.eqb_spec incr 0); [|right; by apply Z.ltb_lt]. apply orb_true_iff in Eh as [Eh%Z.ltb_lt|[H1%negb_true_iff%Z.eqb_neq H2%Z.leb_le]%andb_true_iff]; [lia|].
      specialize (Hlt ltac:(lia)). left. mach. }
    assert ((min <=? value + incr) && (value + incr <=? max) = false) as ->.
    { apply andb_false_iff. rewrite Z.leb_gt, Z.leb_gt. done. }
    destruct ow; done.
  - rewrite Hu by done. assert (value + incr <= max) as Hle.
    { unfold high, set_high in Eh. destruct (Z.eqb_spec incr 0); [|by apply Z.ltb_ge]. apply orb_false_iff in Eh as [Eh%Z.ltb_ge _]. lia. }
    rewrite (proj2 (Z.leb_le _ max)), andb_true_r by done. rewrite Z.leb_antisym. destruct (value + incr <? min); cbn [negb]; [|done]. destruct ow; done.
Qed.
End signed.
