(* ===== verification/BitCommands.v ===== *)
(** * The bit commands (src/src/bitops.c, the commands)

    SETBIT, GETBIT, BITCOUNT, BITPOS, BITOP, BITFIELD and BITFIELD_RO over the
    keys of one database.  [argv] has the name of the command first; the
    number of arguments has been checked against the command table.  Expiry
    and notifications are left out; [dirty] and [touched] are what is
    propagated. *)
From Stdlib Require Import Ascii String.
From S2P Require Import Prelude IntString WebSocket ByteMem Bits.

(** A string in the encodings raw or embstr, a string kept as an integer,
    another type. *)
Inductive Obj := ORaw (s : bytes) | OInt (v : Z) | OOther.

Record State := mkState { keys : gmap (list Z) Obj; dirty : Z; touched : list (list Z) }.

(** [addr], [stack]: the addresses of string contents and of a local array. *)
Record Server := mkServer { proto_max_bulk_len : Z; mustObeyClient : bool; cpu : Cpu; addr : Z; stack : Z }.

(** In an array [None] is a null. *)
Inductive Reply := RErr (msg : string) | RInt (n : Z) | RArray (l : list (option Z)).

Definition wrongtypeerr : Reply := RErr "WRONGTYPE Operation against a key holding the wrong kind of value".
Definition syntaxerr : Reply := RErr "ERR syntax error".
Definition not_integer : Reply := RErr "ERR value is not an integer or out of range".
Definition offset_error : Reply := RErr "ERR bit offset is not an integer or out of range".
Definition bit_error : Reply := RErr "ERR bit is not an integer or out of range".
Definition type_error : Reply := RErr "ERR Invalid bitfield type. Use something like i16 u8. Note that u64 is not supported but i64 is.".

Definition arg (argv : list bytes) (i : Z) : bytes := aget argv i.
Definition lower (c : Z) : Z := if (65 <=? c) && (c <=? 90) then c + 32 else c.
(** [!strcasecmp(s, lit)] *)
Definition is_word (s : bytes) (lit : string) : bool := bytes_eqb (lower <$> c_string s) (bytes_of lit).

Definition put (st : State) (key : bytes) (s : bytes) : State := mkState (<[key := ORaw s]> (keys st)) (dirty st) (touched st).
Definition signal (st : State) (key : bytes) (n : Z) : State := mkState (keys st) (dirty st + n) (touched st ++ [key]).

(** ** Arguments *)

(** A product that does not fit is undefined in C; here it wraps. *)
Definition getBitOffsetFromArgument (sv : Server) (p : bytes) (hash : bool) (bits : Z) : option Z :=
  let usehash := (aget (p ++ [0]) 0 =? 35) && hash && (0 <? bits) in
  loffset ← string2llScalar (if usehash then drop 1 p else p);
  let loffset := if usehash then i64 (loffset * bits) else loffset in
  if (loffset <? 0) || negb (mustObeyClient sv) && (proto_max_bulk_len sv <=? Z.shiftr loffset 3) then None else Some loffset.

(** The sign and the number of bits. *)
Definition getBitfieldTypeFromArgument (p : bytes) : option (bool * Z) :=
  let c := aget (p ++ [0]) 0 in
  sign ← (if c =? 105 then Some true else if c =? 117 then Some false else None);
  llbits ← string2llScalar (drop 1 p);
  if (llbits <? 1) || sign && (64 <? llbits) || negb sign && (63 <? llbits) then None else Some (sign, llbits).

(** ** Objects *)
Definition decoded (o : Obj) : bytes := match o with ORaw s => s | OInt v => decimal v | OOther => [] end.

(** [sdsgrowzero] *)
Definition growzero (s : bytes) (len : Z) : bytes := s ++ replicate (Z.to_nat (len - alen s)) 0.

(** The string, long enough for the bit [maxbit] and stored under the key,
    and whether this has changed it; [None]: another type. *)
Definition lookupStringForBitCommand (st : State) (key : bytes) (maxbit : Z) : option (State * bytes * bool) :=
  let byte := Z.shiftr maxbit 3 in
  match keys st !! key with
  | Some OOther => None
  | Some o =>
      let s := growzero (decoded o) (byte + 1) in
      Some (put st key s, s, negb (alen (decoded o) =? alen s))
  | None => let s := replicate (Z.to_nat (byte + 1)) 0 in Some (put st key s, s, true)
  end.

(** The bytes of a string object, empty for none. *)
Definition getObjectReadOnlyString (o : option Obj) : bytes := match o with Some o => decoded o | None => [] end.

(** ** SETBIT and GETBIT *)
Definition setbitCommand (sv : Server) (st : State) (argv : list bytes) : res (State * Reply) :=
  match getBitOffsetFromArgument sv (arg argv 2) false 0 with
  | None => Ok (st, offset_error)
  | Some bitoffset =>
      match string2llScalar (arg argv 3) with
      | None => Ok (st, bit_error)
      | Some on =>
          if negb (Z.land on (Z.lnot 1) =? 0) then Ok (st, bit_error)
          else match lookupStringForBitCommand st (arg argv 1) bitoffset with
          | None => Ok (st, wrongtypeerr)
          | Some (st, s, grown) =>
              let byte := Z.shiftr bitoffset 3 in
              byteval ← ld s byte;
              let bit := 7 - Z.land bitoffset 7 in
              let bitval := Z.land byteval (Z.shiftl 1 bit) in
              if grown || negb ((if bitval =? 0 then 0 else 1) =? on) then
                let byteval := Z.land byteval (Z.lnot (Z.shiftl 1 bit)) in
                let byteval := Z.lor byteval (Z.shiftl (Z.land on 1) bit) in
                s ← ByteMem.st s byte [u8 byteval];
                Ok (signal (put st (arg argv 1) s) (arg argv 1) 1, RInt (if bitval =? 0 then 0 else 1))
              else Ok (st, RInt (if bitval =? 0 then 0 else 1))
          end
      end
  end.

Definition getbitCommand (sv : Server) (st : State) (argv : list bytes) : res Reply :=
  match getBitOffsetFromArgument sv (arg argv 2) false 0 with
  | None => Ok offset_error
  | Some bitoffset =>
      match keys st !! arg argv 1 with
      | None => Ok (RInt 0)
      | Some OOther => Ok wrongtypeerr
      | Some o =>
          let s := decoded o in
          let byte := Z.shiftr bitoffset 3 in
          let bit := 7 - Z.land bitoffset 7 in
          if byte <? alen s then
            b ← ld s byte;
            Ok (RInt (if Z.land b (Z.shiftl 1 bit) =? 0 then 0 else 1))
          else Ok (RInt 0)
      end
  end.

(** ** BITOP *)
Inductive BitOp := BITOP_AND | BITOP_OR | BITOP_XOR | BITOP_NOT.
#[export] Instance BitOp_eq_dec : EqDecision BitOp.
Proof. solve_decision. Defined.

Definition bitop_name (s : bytes) : option BitOp :=
  if is_word s "and" then Some BITOP_AND
  else if is_word s "or" then Some BITOP_OR
  else if is_word s "xor" then Some BITOP_XOR
  else if is_word s "not" then Some BITOP_NOT
  else None.

(** The source strings, or [None] when one has another type; the shortest and
    the longest length ([minlen] is 0 as soon as a key is missing). *)
Fixpoint bitop_sources (st : State) (ks : list bytes) (j minlen maxlen : Z) (acc : list bytes) : option (list bytes * Z * Z) :=
  match ks with
  | [] => Some (acc, minlen, maxlen)
  | k :: ks =>
      match keys st !! k with
      | None => bitop_sources st ks (j + 1) 0 maxlen (acc ++ [[]])
      | Some OOther => None
      | Some o =>
          let s := decoded o in
          bitop_sources st ks (j + 1) (if (j =? 0) || (alen s <? minlen) then alen s else minlen) (if maxlen <? alen s then alen s else maxlen) (acc ++ [s])
      end
  end.

Definition word_op (op : BitOp) (a b : Z) : Z :=
  match op with BITOP_AND => Z.land a b | BITOP_OR => Z.lor a b | BITOP_XOR => Z.lxor a b | BITOP_NOT => a end.

(** [lres[q] op= lp[i][q]], the words at byte [off]. *)
Definition op_word (op : BitOp) (out src : bytes) (off : Z) : res bytes :=
  a ← ldn out off 8; b ← ldn src off 8;
  ByteMem.st out off (le_bytes 8 (word_op op (le_val a) (le_val b))).
(** [lres[q] = ~lres[q]] *)
Definition not_word (out : bytes) (off : Z) : res bytes :=
  a ← ldn out off 8; ByteMem.st out off (le_bytes 8 (u64 (Z.lnot (le_val a)))).

Fixpoint op_sources (op : BitOp) (out : bytes) (srcs : list bytes) (j : Z) : res bytes :=
  match srcs with
  | [] => Ok out
  | s :: srcs =>
      out ← op_word op out s j; out ← op_word op out s (j + 8); out ← op_word op out s (j + 16); out ← op_word op out s (j + 24);
      op_sources op out srcs j
  end.

Fixpoint fast_loop (fuel : nat) (op : BitOp) (out : bytes) (srcs : list bytes) (j minlen : Z) : res (bytes * Z) :=
  if 32 <=? minlen then
    match fuel with
    | O => OutOfFuel
    | S fuel =>
        out ← (if decide (op = BITOP_NOT)
               then out ← not_word out j; out ← not_word out (j + 8); out ← not_word out (j + 16); not_word out (j + 24)
               else op_sources op out (tail srcs) j);
        fast_loop fuel op out srcs (j + 32) (minlen - 32)
    end
  else Ok (out, j).

(** [(len[i] <= j) ? 0 : src[i][j]] *)
Definition byte_or_0 (s : bytes) (j : Z) : Z := if alen s <=? j then 0 else aget s j.

Fixpoint fold_sources (op : BitOp) (output : Z) (srcs : list bytes) (j : Z) : Z :=
  match srcs with
  | [] => output
  | s :: srcs =>
      let byte := byte_or_0 s j in
      match op with
      | BITOP_AND => let output := Z.land output byte in if output =? 0 then output else fold_sources op output srcs j
      | BITOP_OR => let output := Z.lor output byte in if output =? 255 then output else fold_sources op output srcs j
      | BITOP_XOR => fold_sources op (Z.lxor output byte) srcs j
      | BITOP_NOT => fold_sources op output srcs j
      end
  end.

Fixpoint slow_loop (fuel : nat) (op : BitOp) (out : bytes) (srcs : list bytes) (j maxlen : Z) : res bytes :=
  if j <? maxlen then
    match fuel with
    | O => OutOfFuel
    | S fuel =>
        let output := byte_or_0 (aget srcs 0) j in
        let output := if decide (op = BITOP_NOT) then u8 (Z.lnot output) else output in
        out ← ByteMem.st out j [fold_sources op output (tail srcs) j];
        slow_loop fuel op out srcs (j + 1) maxlen
    end
  else Ok out.

Definition bitop (op : BitOp) (srcs : list bytes) (minlen maxlen : Z) : res bytes :=
  let out := replicate (Z.to_nat maxlen) 0 in
  '(out, j) ← (if (32 <=? minlen) && (alen srcs <=? 16) then
                 first ← ldn (aget srcs 0) 0 minlen;
                 out ← ByteMem.st out 0 first;
                 fast_loop (Z.to_nat minlen) op out srcs 0 minlen
               else Ok (out, 0));
  slow_loop (Z.to_nat maxlen) op out srcs j maxlen.

Definition bitopCommand (st : State) (argv : list bytes) : res (State * Reply) :=
  match bitop_name (arg argv 1) with
  | None => Ok (st, syntaxerr)
  | Some op =>
      if bool_decide (op = BITOP_NOT) && negb (alen argv =? 4) then Ok (st, RErr "ERR BITOP NOT must be called with a single source key.")
      else match bitop_sources st (drop 3 argv) 0 0 0 [] with
      | None => Ok (st, wrongtypeerr)
      | Some (srcs, minlen, maxlen) =>
          let targetkey := arg argv 2 in
          if negb (maxlen =? 0) then
            out ← bitop op srcs minlen maxlen;
            Ok (signal (put st targetkey out) targetkey 1, RInt maxlen)
          else match keys st !! targetkey with
          | Some _ => Ok (signal (mkState (delete targetkey (keys st)) (dirty st) (touched st)) targetkey 1, RInt maxlen)
          | None => Ok (st, RInt maxlen)
          end
      end
  end.

(** ** BITCOUNT and BITPOS *)

(** BIT or BYTE. *)
Definition parse_unit (s : bytes) : option bool := if is_word s "bit" then Some true else if is_word s "byte" then Some false else None.

(** Indices from the end, clamped; in bits they become bytes with the masks
    of the bits before and after the range. *)
Definition clamp_range (isbit : bool) (totlen start fin : Z) : Z * Z * Z * Z :=
  let start := if start <? 0 then totlen + start else start in
  let fin := if fin <? 0 then totlen + fin else fin in
  let start := if start <? 0 then 0 else start in
  let fin := if fin <? 0 then 0 else fin in
  let fin := if totlen <=? fin then totlen - 1 else fin in
  if isbit && (start <=? fin) then
    (Z.shiftr start 3, Z.shiftr fin 3, Z.land (Z.lnot (Z.shiftl 1 (8 - Z.land start 7) - 1)) 255, Z.shiftl 1 (7 - Z.land fin 7) - 1)
  else (start, fin, 0, 0).

Definition bitcount_reply (sv : Server) (o : option Obj) (p : bytes) (start fin first_mask last_mask : Z) : res Reply :=
  match o with
  | None => Ok (RInt 0)
  | Some _ =>
      if fin <? start then Ok (RInt 0)
      else
        s ← ldn p start (fin - start + 1);
        cnt ← serverPopcount (cpu sv) (addr sv + start) s;
        if negb (first_mask =? 0) || negb (last_mask =? 0) then
          first ← (if negb (first_mask =? 0) then b ← ld p start; Ok (Z.land b first_mask) else Ok 0);
          last ← (if negb (last_mask =? 0) then b ← ld p fin; Ok (Z.land b last_mask) else Ok 0);
          outside ← serverPopcount (cpu sv) (stack sv) [first; last];
          Ok (RInt (cnt - outside))
        else Ok (RInt cnt)
  end.

Definition bitcountCommand (sv : Server) (st : State) (argv : list bytes) : res Reply :=
  let argc := alen argv in
  let o := keys st !! arg argv 1 in
  let wrong := match o with Some OOther => true | _ => false end in
  let p := getObjectReadOnlyString o in
  if (argc =? 3) || (argc =? 4) || (argc =? 5) then
    match string2llScalar (arg argv 2) with
    | None => Ok not_integer
    | Some start =>
        match (if argc =? 5 then parse_unit (arg argv 4) else Some false) with
        | None => Ok syntaxerr
        | Some isbit =>
            match (if 4 <=? argc then string2llScalar (arg argv 3) else Some 0) with
            | None => Ok not_integer
            | Some fin =>
                if wrong then Ok wrongtypeerr
                else
                  _ ← assert (alen p <=? Z.shiftr LLONG_MAX 3);
                  let fin := if argc <? 4 then alen p - 1 else fin in
                  if (start <? 0) && (fin <? 0) && (fin <? start) then Ok (RInt 0)
                  else
                    let '(start, fin, first_mask, last_mask) := clamp_range isbit (if isbit then 8 * alen p else alen p) start fin in
                    bitcount_reply sv o p start fin first_mask last_mask
            end
        end
    end
  else if argc =? 2 then
    if wrong then Ok wrongtypeerr else bitcount_reply sv o p 0 (alen p - 1) 0 0
  else Ok syntaxerr.

(** The bits of a byte under the mask do not count. *)
Definition hide (bit : bool) (b mask : Z) : Z := if bit then Z.land b (Z.lnot mask) else Z.lor b mask.

(** [result:] *)
Definition pos_result (end_given bit : bool) (pos start bytes : Z) : Reply :=
  if end_given && negb bit && (pos =? Z.shiftl bytes 3) then RInt (- 1)
  else RInt (if pos =? - 1 then pos else pos + Z.shiftl start 3).

(** The last byte. *)
Definition pos_last (sv : Server) (end_given bit : bool) (p : bytes) (start fin last_mask bytes : Z) : res Reply :=
  b ← ld p fin;
  pos ← serverBitpos (stack sv) [hide bit b last_mask] bit;
  Ok (pos_result end_given bit pos start bytes).

(** The bytes before it. *)
Definition pos_middle (sv : Server) (end_given bit : bool) (p : bytes) (start fin last_mask bytes : Z) : res Reply :=
  let curbytes := bytes - (if last_mask =? 0 then 0 else 1) in
  if 0 <? curbytes then
    s ← ldn p start curbytes;
    pos ← serverBitpos (addr sv + start) s bit;
    if (bytes =? curbytes) || negb (pos =? - 1) && negb (pos =? Z.shiftl curbytes 3) then Ok (pos_result end_given bit pos start bytes)
    else pos_last sv end_given bit p (start + curbytes) fin last_mask (bytes - curbytes)
  else pos_last sv end_given bit p start fin last_mask bytes.

Definition bitpos_reply (sv : Server) (end_given bit : bool) (o : option Obj) (p : bytes) (start fin first_mask last_mask : Z) : res Reply :=
  match o with
  | None => Ok (RInt (if bit then - 1 else 0))
  | Some _ =>
      if fin <? start then Ok (RInt (- 1))
      else
        let bytes := fin - start + 1 in
        if negb (first_mask =? 0) then
          b ← ld p start;
          let tmpchar := hide bit b first_mask in
          let tmpchar := if negb (last_mask =? 0) && (bytes =? 1) then hide bit tmpchar last_mask else tmpchar in
          pos ← serverBitpos (stack sv) [tmpchar] bit;
          if (bytes =? 1) || negb (pos =? - 1) && negb (pos =? 8) then Ok (pos_result end_given bit pos start bytes)
          else pos_middle sv end_given bit p (start + 1) fin last_mask (bytes - 1)
        else pos_middle sv end_given bit p start fin last_mask bytes
  end.

Definition bitposCommand (sv : Server) (st : State) (argv : list bytes) : res Reply :=
  let argc := alen argv in
  let o := keys st !! arg argv 1 in
  let wrong := match o with Some OOther => true | _ => false end in
  let p := getObjectReadOnlyString o in
  match string2llScalar (arg argv 2) with
  | None => Ok not_integer
  | Some n =>
      if negb (n =? 0) && negb (n =? 1) then Ok (RErr "ERR The bit argument must be 1 or 0.")
      else
        let bit := n =? 1 in
        if (argc =? 4) || (argc =? 5) || (argc =? 6) then
          match string2llScalar (arg argv 3) with
          | None => Ok not_integer
          | Some start =>
              match (if argc =? 6 then parse_unit (arg argv 5) else Some false) with
              | None => Ok syntaxerr
              | Some isbit =>
                  match (if 5 <=? argc then string2llScalar (arg argv 4) else Some 0) with
                  | None => Ok not_integer
                  | Some fin =>
                      if wrong then Ok wrongtypeerr
                      else
                        _ ← assert (alen p <=? Z.shiftr LLONG_MAX 3);
                        let fin := if argc <? 5 then alen p - 1 else fin in
                        let '(start, fin, first_mask, last_mask) := clamp_range isbit (if isbit then 8 * alen p else alen p) start fin in
                        bitpos_reply sv (5 <=? argc) bit o p start fin first_mask last_mask
                  end
              end
          end
        else if argc =? 3 then
          if wrong then Ok wrongtypeerr else bitpos_reply sv false bit o p 0 (alen p - 1) 0 0
        else Ok syntaxerr
  end.

(** ** BITFIELD *)
Inductive Opcode := BITFIELDOP_GET | BITFIELDOP_SET | BITFIELDOP_INCRBY.
#[export] Instance Opcode_eq_dec : EqDecision Opcode.
Proof. solve_decision. Defined.
Record bitfieldOp := mkOp { offset : Z; arg64 : Z; opcode : Opcode; owtype : Overflow; bits : Z; sign : bool }.

Definition overflow_name (s : bytes) : option Overflow :=
  if is_word s "wrap" then Some BFOVERFLOW_WRAP else if is_word s "sat" then Some BFOVERFLOW_SAT else if is_word s "fail" then Some BFOVERFLOW_FAIL else None.

(** The operations, whether they all read, and the highest bit written. *)
Fixpoint parse_ops (sv : Server) (args : list bytes) (ow : Overflow) (readonly : bool) (highest : Z) (ops : list bitfieldOp) : Reply + (list bitfieldOp * bool * Z) :=
  match args with
  | [] => inr (ops, readonly, highest)
  | sub :: rest =>
      match rest with
      | [] => inl syntaxerr
      | x :: rest =>
          let set_overflow (_ : unit) :=
            match overflow_name x with Some ow => parse_ops sv rest ow readonly highest ops | None => inl (RErr "ERR Invalid OVERFLOW type specified") end in
          match rest with
          | off :: more =>
              let common k :=
                match getBitfieldTypeFromArgument x with
                | None => inl type_error
                | Some (sg, n) => match getBitOffsetFromArgument sv off true n with None => inl offset_error | Some o => k sg n o end
                end in
              let write code := fun sg n o =>
                let last := o +64 n -64 1 in
                match more with
                | v :: more => match string2llScalar v with
                    | None => inl not_integer
                    | Some v => parse_ops sv more ow false (if highest <? last then last else highest) (ops ++ [mkOp o v code ow n sg])
                    end
                | [] => inl syntaxerr
                end in
              if is_word sub "get" then common (fun sg n o => parse_ops sv more ow readonly highest (ops ++ [mkOp o 0 BITFIELDOP_GET ow n sg]))
              else if is_word sub "set" && (1 <=? alen more) then common (write BITFIELDOP_SET)
              else if is_word sub "incrby" && (1 <=? alen more) then common (write BITFIELDOP_INCRBY)
              else if is_word sub "overflow" then set_overflow tt
              else inl syntaxerr
          | [] => if is_word sub "overflow" then set_overflow tt else inl syntaxerr
          end
      end
  end.

(** SET and INCRBY: the string, the answer and whether the value has changed.
    [junk] is what an unwritten [wrapped] holds. *)
Definition exec_write (junk : Z) (op : bitfieldOp) (s : bytes) : res (bytes * option Z * bool) :=
  if sign op then
    oldval ← getSignedBitfield s (offset op) (bits op);
    let '(overflow, newval, retval) :=
      if decide (opcode op = BITFIELDOP_INCRBY) then
        let '(ov, w) := checkSignedBitfieldOverflow oldval (arg64 op) (bits op) (owtype op) in
        let newval := if negb (ov =? 0) then default junk w else i64 (oldval + arg64 op) in (ov, newval, newval)
      else
        let '(ov, w) := checkSignedBitfieldOverflow (arg64 op) 0 (bits op) (owtype op) in
        (ov, if negb (ov =? 0) then default junk w else arg64 op, oldval) in
    if negb (negb (overflow =? 0) && bool_decide (owtype op = BFOVERFLOW_FAIL)) then
      s ← setSignedBitfield s (offset op) (bits op) newval; Ok (s, Some retval, negb (oldval =? newval))
    else Ok (s, None, false)
  else
    oldval ← getUnsignedBitfield s (offset op) (bits op);
    let '(overflow, newval, retval) :=
      if decide (opcode op = BITFIELDOP_INCRBY) then
        let '(ov, w) := checkUnsignedBitfieldOverflow oldval (arg64 op) (bits op) (owtype op) in
        let newval := if negb (ov =? 0) then default 0 w else oldval +64 arg64 op in (ov, newval, newval)
      else
        let '(ov, w) := checkUnsignedBitfieldOverflow (u64 (arg64 op)) 0 (bits op) (owtype op) in
        (ov, if negb (ov =? 0) then default 0 w else u64 (arg64 op), oldval) in
    if negb (negb (overflow =? 0) && bool_decide (owtype op = BFOVERFLOW_FAIL)) then
      s ← setUnsignedBitfield s (offset op) (bits op) newval; Ok (s, Some (i64 retval), negb (oldval =? newval))
    else Ok (s, None, false).

(** GET: nine bytes are copied, with zeros after the end of the string. *)
Definition exec_get (op : bitfieldOp) (s : bytes) : res Z :=
  let byte := Z.shiftr (offset op) 3 in
  let src := take 9 (drop (Z.to_nat byte) s) in
  let buf := src ++ replicate (9 - length src) 0 in
  if sign op then getSignedBitfield buf (offset op - byte * 8) (bits op)
  else v ← getUnsignedBitfield buf (offset op - byte * 8) (bits op); Ok (i64 v).

(** All of them, in order: the string, the answers and how many changes. *)
Fixpoint exec_ops (junk : Z) (grown : bool) (ops : list bitfieldOp) (s : bytes) (replies : list (option Z)) (changes : Z) : res (bytes * list (option Z) * Z) :=
  match ops with
  | [] => Ok (s, replies, changes)
  | op :: ops =>
      if decide (opcode op = BITFIELDOP_GET) then
        v ← exec_get op s; exec_ops junk grown ops s (replies ++ [Some v]) changes
      else
        '(s, r, changed) ← exec_write junk op s;
        exec_ops junk grown ops s (replies ++ [r]) (changes + if bool_decide (r <> None) && (grown || changed) then 1 else 0)
  end.

(** [ro]: the command is BITFIELD_RO. *)
Definition bitfieldGeneric (sv : Server) (junk : Z) (ro : bool) (st : State) (argv : list bytes) : res (State * Reply) :=
  let key := arg argv 1 in
  match parse_ops sv (drop 2 argv) BFOVERFLOW_WRAP true 0 [] with
  | inl e => Ok (st, e)
  | inr (ops, readonly, highest) =>
      if readonly : bool then
        match keys st !! key with
        | Some OOther => Ok (st, wrongtypeerr)
        | o => '(_, replies, _) ← exec_ops junk false ops (getObjectReadOnlyString o) [] 0; Ok (st, RArray replies)
        end
      else if ro then Ok (st, RErr "ERR BITFIELD_RO only supports the GET subcommand")
      else match lookupStringForBitCommand st key highest with
      | None => Ok (st, wrongtypeerr)
      | Some (st, s, grown) =>
          '(s, replies, changes) ← exec_ops junk grown ops s [] 0;
          let st := put st key s in
          Ok (if negb (changes =? 0) then signal st key changes else st, RArray replies)
      end
  end.

Definition bitfieldCommand (sv : Server) (junk : Z) := bitfieldGeneric sv junk false.
Definition bitfieldroCommand (sv : Server) (junk : Z) := bitfieldGeneric sv junk true.

(** ** References *)

(** The key holds the string [p]; no key is the empty string. *)
Definition holds (st : State) (key : bytes) (p : bytes) : Prop :=
  match keys st !! key with Some OOther => False | o => p = getObjectReadOnlyString o end.

(** An index counts from the end when it is negative. *)
Definition index (total i : Z) : Z := Z.max 0 (if i <? 0 then total + i else i).

(** The bits [a] to [b], without [b], of the range [start..fin]. *)
Definition range_start (isbit : bool) (p : bytes) (start : Z) : Z := if isbit then index (8 * alen p) start else 8 * index (alen p) start.
Definition range_end (isbit : bool) (p : bytes) (fin : Z) : Z :=
  if isbit then Z.min (index (8 * alen p) fin) (8 * alen p - 1) + 1 else 8 * (Z.min (index (alen p) fin) (alen p - 1) + 1).
Definition range_bits (isbit : bool) (p : bytes) (start fin : Z) : list bool :=
  let a := range_start isbit p start in field (bits_of p) a (range_end isbit p fin - a).

(** Two indexes from the end, in the wrong order: the range is empty. *)
Definition reversed (start fin : Z) : bool := (start <? 0) && (fin <? 0) && (fin <? start).
Definition count_in (isbit : bool) (p : bytes) (start fin : Z) : Z :=
  if reversed start fin then 0 else ones (range_bits isbit p start fin).

(** The first [bit] in a range that begins at [a]; when no end is given zeros
    follow the string. *)
Definition expected (end_given bit : bool) (l : list bool) (a : Z) : Z :=
  match first_bit bit l with Some i => a + i | None => if end_given || bit then - 1 else a + alen l end.
Definition position_in (end_given bit isbit : bool) (p : bytes) (start fin : Z) : Z :=
  let a := range_start isbit p start in
  if reversed start fin || (range_end isbit p fin <=? a) then - 1 else expected end_given bit (range_bits isbit p start fin) a.

(** ** Ranges *)
Lemma bits_of_take n s : bits_of (take n s) = take (8 * n) (bits_of s).
Proof.
  revert s. induction n as [|n IH]; intros s; [by rewrite take_0|]. destruct s as [|b s]; [by rewrite !take_nil|]. cbn [take].
  rewrite !bits_of_cons, IH. replace (8 * S n)%nat with (8 + 8 * n)%nat by lia. rewrite take_app_ge by (cbn; lia). f_equal. f_equal. cbn. lia.
Qed.

Lemma bits_of_drop n s : bits_of (drop n s) = drop (8 * n) (bits_of s).
Proof.
  revert s. induction n as [|n IH]; intros s; [by rewrite !drop_0|]. destruct s as [|b s]; [by rewrite !drop_nil|]. cbn [drop].
  rewrite IH, bits_of_cons. replace (8 * S n)%nat with (8 + 8 * n)%nat by lia. rewrite drop_app_ge by (cbn; lia). f_equal. cbn. lia.
Qed.

(** The bytes from [start] to [fin]. *)
Definition slice (p : bytes) (start fin : Z) : bytes := take (Z.to_nat (fin - start + 1)) (drop (Z.to_nat start) p).

Lemma ldn_slice p start fin : 0 <= start <= fin -> fin < alen p -> ldn p start (fin - start + 1) = Ok (slice p start fin).
Proof.
  intros H1 H2. unfold ldn. rewrite (proj2 (Z.leb_le 0 start)), (proj2 (Z.leb_le 0 (fin - start + 1))), (proj2 (Z.leb_le (start + (fin - start + 1)) (alen p))) by lia. done.
Qed.

Lemma slice_bits p start fin : 0 <= start <= fin -> bits_of (slice p start fin) = field (bits_of p) (8 * start) (8 * (fin + 1) - 8 * start).
Proof.
  intros H. unfold slice, field. rewrite bits_of_take, bits_of_drop. f_equal; [lia|]. f_equal. lia.
Qed.

Lemma slice_is_bytes p start fin : is_bytes p -> is_bytes (slice p start fin).
Proof. intros H. by apply Forall_take, Forall_drop. Qed.

Lemma alen_slice p start fin : 0 <= start <= fin -> fin < alen p -> alen (slice p start fin) = fin - start + 1.
Proof. intros H1 H2. unfold slice, alen in *. rewrite length_take, length_drop. lia. Qed.

(** The masks: the first [k] bits of a byte and the bits after bit [m]. *)
Definition first_mask_of (k : Z) : Z := Z.land (Z.lnot (Z.shiftl 1 (8 - k) - 1)) 255.
Definition last_mask_of (m : Z) : Z := Z.shiftl 1 (7 - m) - 1.

Lemma bit_index_forallb (P : Z -> Z -> bool) k b : forallb (fun k => forallb (P k) (seqZ 0 256)) (seqZ 0 8) = true -> 0 <= k < 8 -> in_u 8 b -> P k b = true.
Proof.
  intros H Hk Hb. rewrite forallb_forall in H. apply byte_forallb; [|done]. apply (H k), list_elem_of_In, elem_of_seqZ. lia.
Qed.

Definition first_mask_check (k b : Z) : bool :=
  bool_decide (ones (bits_of_byte (Z.land b (first_mask_of k))) = ones (take (Z.to_nat k) (bits_of_byte b))) &&
    bool_decide (bits_of_byte (hide true b (first_mask_of k)) = replicate (Z.to_nat k) false ++ drop (Z.to_nat k) (bits_of_byte b)) &&
    bool_decide (bits_of_byte (hide false b (first_mask_of k)) = replicate (Z.to_nat k) true ++ drop (Z.to_nat k) (bits_of_byte b)) &&
    Bool.eqb (first_mask_of k =? 0) (k =? 0) && bool_decide (in_u 8 (Z.land b (first_mask_of k))) &&
    bool_decide (in_u 8 (hide true b (first_mask_of k))) && bool_decide (in_u 8 (hide false b (first_mask_of k))).
Lemma first_mask_bits k b : 0 <= k < 8 -> in_u 8 b ->
  ones (bits_of_byte (Z.land b (first_mask_of k))) = ones (take (Z.to_nat k) (bits_of_byte b)) /\
  (forall bit, bits_of_byte (hide bit b (first_mask_of k)) = replicate (Z.to_nat k) (negb bit) ++ drop (Z.to_nat k) (bits_of_byte b)) /\
  (first_mask_of k = 0 <-> k = 0) /\ in_u 8 (Z.land b (first_mask_of k)) /\ (forall bit, in_u 8 (hide bit b (first_mask_of k))).
Proof.
  intros Hk Hb.
  pose proof (bit_index_forallb first_mask_check k b ltac:(vm_compute; reflexivity) Hk Hb) as H. unfold first_mask_check in H.
  cmp_prop. repeat match goal with H : bool_decide _ = true |- _ => apply bool_decide_eq_true in H end.
  match goal with H : Bool.eqb _ _ = true |- _ => apply eqb_prop in H; rename H into Hz end.
  split; [done|]. split; [by intros []|]. split; [rewrite <- !Z.eqb_eq, Hz; done|]. split; [done|]. by intros [].
Qed.

Definition last_mask_check (m b : Z) : bool :=
  bool_decide (ones (bits_of_byte (Z.land b (last_mask_of m))) = ones (drop (Z.to_nat (m + 1)) (bits_of_byte b))) &&
    bool_decide (bits_of_byte (hide true b (last_mask_of m)) = take (Z.to_nat (m + 1)) (bits_of_byte b) ++ replicate (Z.to_nat (7 - m)) false) &&
    bool_decide (bits_of_byte (hide false b (last_mask_of m)) = take (Z.to_nat (m + 1)) (bits_of_byte b) ++ replicate (Z.to_nat (7 - m)) true) &&
    Bool.eqb (last_mask_of m =? 0) (m =? 7) && bool_decide (in_u 8 (Z.land b (last_mask_of m))) &&
    bool_decide (in_u 8 (hide true b (last_mask_of m))) && bool_decide (in_u 8 (hide false b (last_mask_of m))).
Lemma last_mask_bits m b : 0 <= m < 8 -> in_u 8 b ->
  ones (bits_of_byte (Z.land b (last_mask_of m))) = ones (drop (Z.to_nat (m + 1)) (bits_of_byte b)) /\
  (forall bit, bits_of_byte (hide bit b (last_mask_of m)) = take (Z.to_nat (m + 1)) (bits_of_byte b) ++ replicate (Z.to_nat (7 - m)) (negb bit)) /\
  (last_mask_of m = 0 <-> m = 7) /\ in_u 8 (Z.land b (last_mask_of m)) /\ (forall bit, in_u 8 (hide bit b (last_mask_of m))).
Proof.
  intros Hm Hb.
  pose proof (bit_index_forallb last_mask_check m b ltac:(vm_compute; reflexivity) Hm Hb) as H. unfold last_mask_check in H.
  cmp_prop. repeat match goal with H : bool_decide _ = true |- _ => apply bool_decide_eq_true in H end.
  match goal with H : Bool.eqb _ _ = true |- _ => apply eqb_prop in H; rename H into Hz end.
  split; [done|]. split; [by intros []|]. split; [rewrite <- !Z.eqb_eq, Hz; done|]. split; [done|]. by intros [].
Qed.

Lemma byte_at p i : 0 <= i < alen p -> exists b, ld p i = Ok b /\ p !! Z.to_nat i = Some b.
Proof.
  intros Hi. destruct (lookup_lt_is_Some_2 p (Z.to_nat i)) as [b Hb]; [unfold alen in Hi; lia|]. exists b. split; [|done]. unfold ld.
  by rewrite (proj2 (Z.ltb_ge i 0)), Hb by lia.
Qed.

Lemma slice_head p s e b : 0 <= s <= e -> p !! Z.to_nat s = Some b -> slice p s e = b :: slice p (s + 1) e.
Proof.
  intros H Hb. unfold slice. rewrite (drop_S p b) by done. replace (Z.to_nat (e - s + 1)) with (S (Z.to_nat (e - (s + 1) + 1))) by lia.
  cbn [take]. do 3 f_equal. lia.
Qed.

Lemma slice_last p s e b : 0 <= s <= e -> p !! Z.to_nat e = Some b -> slice p s e = slice p s (e - 1) ++ [b].
Proof.
  intros H Hb. unfold slice. replace (Z.to_nat (e - s + 1)) with (S (Z.to_nat (e - 1 - s + 1))) by lia. apply take_S_r.
  rewrite lookup_drop. rewrite <- Hb. f_equal. lia.
Qed.

Lemma field_split l a n : 0 <= a -> 0 <= n -> a + n <= alen l -> l = take (Z.to_nat a) l ++ field l a n ++ drop (Z.to_nat (a + n)) l.
Proof.
  intros Ha Hn Hl. unfold field. rewrite <- (take_drop (Z.to_nat a) l) at 1. f_equal. rewrite <- (take_drop (Z.to_nat n) (drop (Z.to_nat a) l)) at 1.
  f_equal. rewrite drop_drop. f_equal. lia.
Qed.

Lemma field_field l a n b m : 0 <= a -> 0 <= b -> 0 <= m -> b + m <= n -> field (field l a n) b m = field l (a + b) m.
Proof.
  intros Ha Hb Hm Hn. unfold field. rewrite skipn_firstn_comm, take_take, drop_drop. f_equal; [lia|]. f_equal. lia.
Qed.

Lemma ones_field l a n : 0 <= a -> 0 <= n -> a + n <= alen l -> ones (field l a n) = ones l - ones (take (Z.to_nat a) l) - ones (drop (Z.to_nat (a + n)) l).
Proof. intros Ha Hn Hl. rewrite (field_split l a n Ha Hn Hl) at 2. rewrite !ones_app. lia. Qed.

Definition cpu_fits (cpu : Cpu) (p : bytes) : Prop := cpu_ok cpu p /\ 8 * alen p < 2 ^ 63.

Lemma cpu_ok_le c p q : cpu_fits c p -> alen q <= alen p -> cpu_ok c q.
Proof. intros [H1 H2] Hl. destruct c; cbn in *; lia. Qed.

Lemma cpu_ok_small c p q : cpu_fits c p -> alen q <= 2 -> cpu_ok c q.
Proof. intros [H1 H2] Hl. destruct c; cbn in *; try split; try mach. Qed.

(** The bits from bit [k] of byte [s] to bit [m] of byte [e]. *)
Lemma bitcount_reply_spec sv o p s e k m : is_bytes p -> cpu_fits (cpu sv) p -> 0 <= s <= e -> e < alen p -> 0 <= k < 8 -> 0 <= m < 8 -> 8 * s + k <= 8 * e + m ->
  bitcount_reply sv (Some o) p s e (first_mask_of k) (last_mask_of m) = Ok (RInt (ones (field (bits_of p) (8 * s + k) (8 * e + m + 1 - (8 * s + k))))).
Proof.
  intros Hp Hc Hs He Hk Hm Hr. unfold bitcount_reply. rewrite (proj2 (Z.ltb_ge e s)), ldn_slice by lia. cbn [mbind res_bind].
  assert (is_bytes (slice p s e)) as Hsb by (by apply slice_is_bytes). pose proof (alen_slice p s e Hs He) as Hal.
  rewrite serverPopcount_spec by (done || (eapply cpu_ok_le; [exact Hc|lia])). cbn [mbind res_bind].
  destruct (byte_at p s ltac:(lia)) as (b & Eb & Hb). destruct (byte_at p e ltac:(lia)) as (c & Ec & Hc').
  assert (in_u 8 b) as Hb8 by (eapply Forall_lookup_1; [exact Hp|exact Hb]). assert (in_u 8 c) as Hc8 by (eapply Forall_lookup_1; [exact Hp|exact Hc']).
  destruct (first_mask_bits k b Hk Hb8) as (F1 & _ & F2 & F3 & _). destruct (last_mask_bits m c Hm Hc8) as (L1 & _ & L2 & L3 & _).
  replace (field (bits_of p) (8 * s + k) (8 * e + m + 1 - (8 * s + k))) with (field (bits_of (slice p s e)) k (8 * (e - s) + m + 1 - k))
    by (rewrite slice_bits, field_field by lia; f_equal; lia).
  rewrite ones_field by (rewrite ?alen_bits_of; lia).
  assert (take (Z.to_nat k) (bits_of (slice p s e)) = take (Z.to_nat k) (bits_of_byte b)) as ->.
  { rewrite (slice_head p s e b Hs Hb), bits_of_cons. apply take_app_le. cbn. lia. }
  assert (drop (Z.to_nat (k + (8 * (e - s) + m + 1 - k))) (bits_of (slice p s e)) = drop (Z.to_nat (m + 1)) (bits_of_byte c)) as ->.
  { rewrite (slice_last p s e c Hs Hc'), bits_of_app. assert (length (bits_of (slice p s (e - 1))) = Z.to_nat (8 * (e - s))) as Hl.
    { rewrite length_bits_of. unfold slice, alen in *. rewrite length_take, length_drop. lia. }
    rewrite drop_app_ge by lia. rewrite Hl, bits_of_cons, app_nil_r. f_equal. lia. }
  rewrite <- F1, <- L1.
  destruct (Z.eqb_spec (first_mask_of k) 0) as [E1|E1]; destruct (Z.eqb_spec (last_mask_of m) 0) as [E2|E2]; cbn [negb orb]; rewrite ?E1, ?E2, ?Z.land_0_r, ?Eb, ?Ec; cbn [mbind res_bind].
  all: rewrite ?serverPopcount_spec by (first [repeat (constructor; [first [done|mach]|]); constructor | eapply cpu_ok_small; [exact Hc|done]]).
  all: cbn [mbind res_bind]; rewrite ?bits_of_cons, ?ones_app; cbn [bits_of mbind list_bind ones app]; change (ones (bits_of_byte 0)) with 0; do 2 f_equal; lia.
Qed.

(** What the clamped range is, in bits. *)
Lemma clamp_index tot i : (let i := if i <? 0 then tot + i else i in if i <? 0 then 0 else i) = index tot i.
Proof. unfold index. cbv zeta. destruct (Z.ltb_spec (if i <? 0 then tot + i else i) 0); lia. Qed.

Lemma clamp_range_eq isbit tot start fin : clamp_range isbit tot start fin =
  let s := index tot start in let e := Z.min (index tot fin) (tot - 1) in
  if isbit && (s <=? e) then (s / 8, e / 8, first_mask_of (s mod 8), last_mask_of (e mod 8)) else (s, e, 0, 0).
Proof.
  unfold clamp_range. pose proof (clamp_index tot start) as H1. pose proof (clamp_index tot fin) as H2. cbv zeta in *. rewrite H1, H2. clear H1 H2.
  assert ((if tot <=? index tot fin then tot - 1 else index tot fin) = Z.min (index tot fin) (tot - 1)) as -> by (destruct (Z.leb_spec tot (index tot fin)); lia).
  destruct (isbit && _); [|done]. rewrite !Z.shiftr_div_pow2 by lia. change (2 ^ 3) with 8.
  assert (forall x, Z.land x 7 = x mod 8) as H7 by (intros x; apply (Z.land_ones x 3); lia). by rewrite !H7.
Qed.

Lemma clamp_range_spec isbit p start fin : let '(s, e, fm, lm) := clamp_range isbit (if isbit then 8 * alen p else alen p) start fin in
  0 <= s /\ (s <= e -> exists k m, fm = first_mask_of k /\ lm = last_mask_of m /\ e < alen p /\ 0 <= k < 8 /\ 0 <= m < 8 /\
    8 * s + k = range_start isbit p start /\ 8 * e + m + 1 = range_end isbit p fin /\ 8 * s + k <= 8 * e + m /\ (isbit = false -> k = 0 /\ m = 7)) /\
  (e < s -> range_end isbit p fin <= range_start isbit p start).
Proof.
  pose proof (alen_nonneg p). rewrite clamp_range_eq. unfold range_start, range_end. cbv zeta.
  destruct isbit; cbn [andb].
  - set (s := index (8 * alen p) start). set (e := Z.min (index (8 * alen p) fin) (8 * alen p - 1)). assert (0 <= s) as H0 by (unfold s, index; lia). assert (e < 8 * alen p) as He by lia.
    destruct (Z.leb_spec s e) as [Hle|Hgt]; [|lia]. pose proof (Z.div_mod s 8 ltac:(lia)). pose proof (Z.mod_pos_bound s 8 ltac:(lia)). pose proof (Z.div_mod e 8 ltac:(lia)). pose proof (Z.mod_pos_bound e 8 ltac:(lia)).
    split; [lia|]. split; [|lia]. intros _. exists (s mod 8), (e mod 8). split; [done|]. split; [done|]. split; [lia|]. do 2 (split; [lia|]). split; [lia|]. split; [lia|]. split; [lia|done].
  - set (s := index (alen p) start). set (e := Z.min (index (alen p) fin) (alen p - 1)). assert (0 <= s) as H0 by (unfold s, index; lia).
    split; [lia|]. split; [|lia]. intros Hle. exists 0, 7. split; [done|]. split; [done|]. split; [lia|]. do 2 (split; [lia|]). split; [lia|]. split; [lia|]. split; [lia|done].
Qed.

Lemma range_bits_empty isbit p start fin : range_end isbit p fin <= range_start isbit p start -> range_bits isbit p start fin = [].
Proof.
  intros H. unfold range_bits, field. replace (Z.to_nat (range_end isbit p fin - range_start isbit p start)) with 0%nat by lia. apply take_0.
Qed.

Lemma bitcount_range sv st key p isbit start fin : holds st key p -> is_bytes p -> cpu_fits (cpu sv) p ->
  (let '(start, fin, fm, lm) := clamp_range isbit (if isbit then 8 * alen p else alen p) start fin in bitcount_reply sv (keys st !! key) p start fin fm lm) =
  Ok (RInt (ones (range_bits isbit p start fin))).
Proof.
  intros Hh Hp Hc. pose proof (clamp_range_spec isbit p start fin) as H. destruct (clamp_range _ _ _ _) as [[[s e] fm] lm]. destruct H as (H0 & Hin & Hout).
  unfold holds in Hh. destruct (keys st !! key) as [o|] eqn:Ek.
  - destruct (Z.lt_ge_cases e s) as [Hlt|Hge].
    + unfold bitcount_reply. rewrite (proj2 (Z.ltb_lt e s)) by done. by rewrite range_bits_empty by auto.
    + destruct (Hin Hge) as (k & m & -> & -> & He & Hk & Hm & Hs & Hf & Hle & _). rewrite bitcount_reply_spec by (done || lia). unfold range_bits. by rewrite Hs, Hf.
  - cbn in Hh. subst p. cbn [bitcount_reply]. do 2 f_equal. unfold range_bits, field. change (bits_of []) with (@nil bool). by rewrite drop_nil, take_nil.
Qed.

(** ** Positions *)
Lemma first_bit_range b l i : first_bit b l = Some i -> 0 <= i < alen l.
Proof.
  revert i. induction l as [|x l IH]; intros i; [done|]. cbn [first_bit]. rewrite alen_cons. pose proof (alen_nonneg l).
  destruct (Bool.eqb x b); [intros [= <-]; lia|]. destruct (first_bit b l) as [j|]; cbn; [|done]. intros [= <-]. specialize (IH j eq_refl). lia.
Qed.

Lemma expected_app eg bit l l' a : expected eg bit (l ++ l') a = match first_bit bit l with Some i => a + i | None => expected eg bit l' (a + alen l) end.
Proof.
  unfold expected. rewrite first_bit_app. destruct (first_bit bit l); [done|]. destruct (first_bit bit l'); cbn; [lia|]. destruct (eg || bit); [done|]. rewrite alen_app. lia.
Qed.

Lemma position_found bit l : match first_bit bit l with Some i => bit_position bit l = i /\ 0 <= i < alen l | None => bit_position bit l = if bit then - 1 else alen l end.
Proof. unfold bit_position. destruct (first_bit bit l) as [i|] eqn:E; [|done]. split; [done|]. by eapply first_bit_range. Qed.

(** The end of the scan. *)
Lemma pos_result_end eg bit c start : pos_result eg bit (bit_position bit (bits_of c)) start (alen c) = RInt (expected eg bit (bits_of c) (8 * start)).
Proof.
  unfold pos_result, expected. pose proof (position_found bit (bits_of c)) as H. pose proof (alen_nonneg c). rewrite alen_bits_of in *. rewrite !Z.shiftl_mul_pow2 by lia. change (2 ^ 3) with 8.
  destruct (first_bit bit (bits_of c)) as [i|].
  - destruct H as [-> Hi]. rewrite (proj2 (Z.eqb_neq i (alen c * 8))), andb_false_r, (proj2 (Z.eqb_neq i (- 1))) by lia. f_equal. lia.
  - rewrite H. destruct bit; cbn [negb]; [by rewrite andb_false_r, orb_true_r|]. rewrite (proj2 (Z.eqb_eq (8 * alen c) _)), andb_true_r, orb_false_r by lia.
    destruct eg; cbn [andb]; [done|]. rewrite (proj2 (Z.eqb_neq _ (- 1))) by lia. f_equal. lia.
Qed.

(** A part before the end: found, or not. *)
Lemma pos_result_part eg bit c start bytes i : first_bit bit (bits_of c) = Some i -> alen c <= bytes ->
  negb (bit_position bit (bits_of c) =? - 1) && negb (bit_position bit (bits_of c) =? 8 * alen c) = true /\
  pos_result eg bit (bit_position bit (bits_of c)) start bytes = RInt (8 * start + i).
Proof.
  intros E Hl. pose proof (position_found bit (bits_of c)) as H. rewrite E, alen_bits_of in H. destruct H as [-> Hi]. split.
  - rewrite (proj2 (Z.eqb_neq i (- 1))), (proj2 (Z.eqb_neq i (8 * alen c))) by lia. done.
  - unfold pos_result. rewrite !Z.shiftl_mul_pow2 by lia. change (2 ^ 3) with 8. rewrite (proj2 (Z.eqb_neq i (bytes * 8))), andb_false_r, (proj2 (Z.eqb_neq i (- 1))) by lia. f_equal. lia.
Qed.

Lemma pos_missing bit c : first_bit bit (bits_of c) = None -> negb (bit_position bit (bits_of c) =? - 1) && negb (bit_position bit (bits_of c) =? 8 * alen c) = false.
Proof.
  intros E. pose proof (position_found bit (bits_of c)) as H. rewrite E, alen_bits_of in H. rewrite H. destruct bit; [done|]. rewrite (Z.eqb_refl (8 * alen c)). apply andb_false_r.
Qed.

Lemma pos_last_spec sv eg bit p start fin m c : ld p fin = Ok c -> in_u 8 c -> 0 <= m < 8 ->
  pos_last sv eg bit p start fin (last_mask_of m) 1 = Ok (RInt (expected eg bit (bits_of [hide bit c (last_mask_of m)]) (8 * start))).
Proof.
  intros Hc Hc8 Hm. destruct (last_mask_bits m c Hm Hc8) as (_ & _ & _ & _ & Hh). unfold pos_last. rewrite Hc. cbn [mbind res_bind].
  rewrite serverBitpos_spec by (repeat constructor; apply Hh). cbn [mbind res_bind]. f_equal. apply pos_result_end.
Qed.

(** The bits from byte [start] to bit [m] of byte [fin]; the rest of the last
    byte is hidden. *)
Lemma pos_middle_spec sv eg bit p start fin m c : is_bytes p -> 0 <= start <= fin -> fin < alen p -> p !! Z.to_nat fin = Some c -> 0 <= m < 8 ->
  pos_middle sv eg bit p start fin (last_mask_of m) (fin - start + 1) =
  Ok (RInt (expected eg bit (bits_of (slice p start (fin - 1) ++ [hide bit c (last_mask_of m)])) (8 * start))).
Proof.
  intros Hp Hs Hf Hc Hm. assert (in_u 8 c) as Hc8 by (eapply Forall_lookup_1; [exact Hp|exact Hc]). destruct (last_mask_bits m c Hm Hc8) as (_ & Hbits & H7 & _ & Hh).
  assert (ld p fin = Ok c) as Hld by (destruct (byte_at p fin ltac:(lia)) as (c' & E & E'); congruence).
  unfold pos_middle. destruct (Z.eqb_spec (last_mask_of m) 0) as [E0|E0].
  - assert (m = 7) as -> by (by apply H7). assert (hide bit c (last_mask_of 7) = c) as ->.
    { rewrite E0. destruct bit; cbn [hide]; [change (Z.lnot 0) with (- 1); apply Z.land_m1_r|apply Z.lor_0_r]. }
    rewrite Z.sub_0_r, (proj2 (Z.ltb_lt 0 _)), ldn_slice by lia. cbn [mbind res_bind]. rewrite serverBitpos_spec by (by apply slice_is_bytes). cbn [mbind res_bind].
    rewrite Z.eqb_refl. cbn [orb]. rewrite <- (slice_last p start fin c Hs Hc). rewrite <- (alen_slice p start fin) by lia. f_equal. apply pos_result_end.
  - replace (fin - start + 1 - 1) with (fin - start) by lia. destruct (Z.ltb_spec 0 (fin - start)) as [Hlt|Hge].
    + replace (fin - start) with (fin - 1 - start + 1) by lia. rewrite ldn_slice by lia. cbn [mbind res_bind]. rewrite serverBitpos_spec by (by apply slice_is_bytes). cbn [mbind res_bind].
      rewrite (proj2 (Z.eqb_neq _ (fin - 1 - start + 1))) by lia. cbn [orb]. pose proof (alen_slice p start (fin - 1) ltac:(lia) ltac:(lia)) as Hal.
      rewrite Z.shiftl_mul_pow2 by lia. change (2 ^ 3) with 8. rewrite <- Hal, (Z.mul_comm _ 8). rewrite bits_of_app, expected_app.
      destruct (first_bit bit (bits_of (slice p start (fin - 1)))) as [i|] eqn:Ei.
      * destruct (pos_result_part eg bit (slice p start (fin - 1)) start (alen (slice p start (fin - 1)) + 1) i Ei ltac:(lia)) as [-> H2]. by rewrite H2.
      * rewrite pos_missing by done. replace (alen (slice p start (fin - 1)) + 1 - alen (slice p start (fin - 1))) with 1 by lia. rewrite (pos_last_spec _ _ _ _ _ _ _ c) by done.
        do 3 f_equal. rewrite alen_bits_of. lia.
    + assert (fin = start) as -> by lia. replace (start - start + 1) with 1 by lia. rewrite (pos_last_spec _ _ _ _ _ _ _ c) by done.
      assert (slice p start (start - 1) = []) as -> by (unfold slice; by replace (Z.to_nat (start - 1 - start + 1)) with 0%nat by lia). done.
Qed.

Lemma first_bit_other bit n l : first_bit bit (replicate n (negb bit) ++ l) = (i ← first_bit bit l; Some (i + Z.of_nat n)).
Proof.
  assert (first_bit bit (replicate n (negb bit)) = None) as E.
  { induction n as [|n IH]; [done|]. cbn [replicate first_bit]. rewrite IH. by destruct bit. }
  rewrite first_bit_app, E. unfold alen. by rewrite length_replicate.
Qed.

Lemma expected_hidden eg bit k q l a : eg = true \/ q = 0%nat ->
  expected eg bit (replicate k (negb bit) ++ l ++ replicate q (negb bit)) a = expected eg bit l (a + Z.of_nat k).
Proof.
  intros Hq. unfold expected. rewrite first_bit_other, first_bit_app.
  assert (first_bit bit (replicate q (negb bit)) = None) as -> by (rewrite <- (app_nil_r (replicate q _)), first_bit_other; done).
  destruct (first_bit bit l) as [i|]; cbn; [lia|]. destruct Hq as [-> | ->]; [done|]. destruct (eg || bit); [done|].
  cbn [replicate]. rewrite app_nil_r, alen_app. unfold alen at 1. rewrite length_replicate. lia.
Qed.

(** The bits of the range between those of the first and the last byte. *)
Lemma range_pieces p s e k m b c : 0 <= s < e -> e < alen p -> 0 <= k < 8 -> 0 <= m < 8 -> p !! Z.to_nat s = Some b -> p !! Z.to_nat e = Some c ->
  field (bits_of p) (8 * s + k) (8 * e + m + 1 - (8 * s + k)) = drop (Z.to_nat k) (bits_of_byte b) ++ bits_of (slice p (s + 1) (e - 1)) ++ take (Z.to_nat (m + 1)) (bits_of_byte c).
Proof.
  intros Hs He Hk Hm Hb Hc. replace (field (bits_of p) (8 * s + k) (8 * e + m + 1 - (8 * s + k))) with (field (bits_of (slice p s e)) k (8 * (e - s) + m + 1 - k))
    by (rewrite slice_bits, field_field by lia; f_equal; lia).
  rewrite (slice_head p s e b) by (done || lia). rewrite (slice_last p (s + 1) e c) by (done || lia). rewrite bits_of_cons, bits_of_app. change (bits_of [c]) with (bits_of_byte c ++ []). rewrite app_nil_r.
  unfold field. rewrite drop_app_le by (cbn; lia). assert (length (bits_of (slice p (s + 1) (e - 1))) = Z.to_nat (8 * (e - s - 1))) as Hl.
  { rewrite length_bits_of. unfold slice, alen in *. rewrite length_take, length_drop. lia. }
  assert (length (drop (Z.to_nat k) (bits_of_byte b)) = Z.to_nat (8 - k)) as Hl' by (rewrite length_drop; cbn; lia).
  rewrite take_app_ge by lia. f_equal. rewrite take_app_ge by lia. f_equal. f_equal. lia.
Qed.

Lemma bitpos_reply_spec sv eg bit o p s e k m : is_bytes p -> 0 <= s <= e -> e < alen p -> 0 <= k < 8 -> 0 <= m < 8 -> 8 * s + k <= 8 * e + m -> eg = true \/ m = 7 ->
  bitpos_reply sv eg bit (Some o) p s e (first_mask_of k) (last_mask_of m) =
  Ok (RInt (expected eg bit (field (bits_of p) (8 * s + k) (8 * e + m + 1 - (8 * s + k))) (8 * s + k))).
Proof.
  intros Hp Hs He Hk Hm Hle Hq. destruct (byte_at p s ltac:(lia)) as (b & Eb & Hb). destruct (byte_at p e ltac:(lia)) as (c & Ec & Hc).
  assert (in_u 8 b) as Hb8 by (eapply Forall_lookup_1; [exact Hp|exact Hb]). assert (in_u 8 c) as Hc8 by (eapply Forall_lookup_1; [exact Hp|exact Hc]).
  destruct (first_mask_bits k b Hk Hb8) as (_ & F1 & F2 & _ & F4). destruct (last_mask_bits m c Hm Hc8) as (_ & L1 & L2 & _ & L4).
  set (F := field _ _ _). replace (expected eg bit F (8 * s + k)) with (expected eg bit (replicate (Z.to_nat k) (negb bit) ++ F ++ replicate (Z.to_nat (7 - m)) (negb bit)) (8 * s))
    by (rewrite expected_hidden; [f_equal; lia|destruct Hq as [Hq|Hq]; [by left|right; lia]]).
  unfold bitpos_reply. rewrite (proj2 (Z.ltb_ge e s)) by lia. destruct (Z.eqb_spec (first_mask_of k) 0) as [E0|E0]; cbn [negb].
  - assert (k = 0) as -> by (by apply F2). rewrite (pos_middle_spec _ _ _ _ _ _ _ c) by (done || lia). do 3 f_equal. rewrite bits_of_app. change (bits_of [hide bit c (last_mask_of m)]) with (bits_of_byte (hide bit c (last_mask_of m)) ++ []).
    rewrite app_nil_r, L1, app_assoc. change (replicate (Z.to_nat 0) (negb bit)) with (@nil bool). cbn [app]. f_equal. unfold F. rewrite Z.add_0_r. destruct (Z.eq_dec s e) as [->|].
    + assert (slice p e (e - 1) = []) as -> by (unfold slice; by replace (Z.to_nat (e - 1 - e + 1)) with 0%nat by lia). cbn [app].
      replace (field (bits_of p) (8 * e) (8 * e + m + 1 - 8 * e)) with (field (bits_of (slice p e e)) 0 (m + 1)) by (rewrite slice_bits, field_field by lia; f_equal; lia).
      rewrite (slice_head p e e c) by (done || lia). rewrite bits_of_cons. unfold field. rewrite drop_0. symmetry. apply take_app_le. cbn. lia.
    + pose proof (range_pieces p s e 0 m b c ltac:(lia) He ltac:(lia) Hm Hb Hc) as H. rewrite Z.add_0_r in H. rewrite H. change (drop (Z.to_nat 0) (bits_of_byte b)) with (bits_of_byte b).
      rewrite (slice_head p s (e - 1) b) by (done || lia). rewrite bits_of_cons. by rewrite app_assoc.
  - rewrite Eb. cbn [mbind res_bind]. destruct (Z.eq_dec s e) as [->|Hne].
    + assert (c = b) as -> by congruence. replace (e - e + 1) with 1 by lia. rewrite Z.eqb_refl, andb_true_r. cbn [orb].
      set (tmp := if negb (last_mask_of m =? 0) then _ else _). assert (tmp = hide bit (hide bit b (first_mask_of k)) (last_mask_of m)) as ->.
      { unfold tmp. destruct (Z.eqb_spec (last_mask_of m) 0) as [E1|]; [|done]. rewrite E1. destruct bit; unfold hide at 2; [change (Z.lnot 0) with (- 1); symmetry; apply Z.land_m1_r|symmetry; apply Z.lor_0_r]. }
      destruct (last_mask_bits m (hide bit b (first_mask_of k)) Hm (F4 bit)) as (_ & T1 & _ & _ & T4).
      rewrite serverBitpos_spec by (repeat constructor; apply T4). cbn [mbind res_bind]. f_equal. change 1 with (alen [hide bit (hide bit b (first_mask_of k)) (last_mask_of m)]). rewrite pos_result_end. do 2 f_equal.
      rewrite bits_of_cons, T1, F1. change (bits_of []) with (@nil bool). rewrite app_nil_r, app_assoc. f_equal. rewrite take_app_ge by (rewrite length_replicate; lia). f_equal. rewrite length_replicate.
      unfold F. replace (field (bits_of p) (8 * e + k) (8 * e + m + 1 - (8 * e + k))) with (field (bits_of (slice p e e)) k (m + 1 - k)) by (rewrite slice_bits, field_field by lia; f_equal; lia).
      rewrite (slice_head p e e b) by (done || lia). rewrite bits_of_cons. unfold field. rewrite drop_app_le by (cbn; lia). rewrite take_app_le by (rewrite length_drop; cbn; lia). f_equal. lia.
    + rewrite (proj2 (Z.eqb_neq (e - s + 1) 1)), andb_false_r by lia. cbn [orb]. rewrite serverBitpos_spec by (repeat constructor; apply F4). cbn [mbind res_bind].
      assert (replicate (Z.to_nat k) (negb bit) ++ F ++ replicate (Z.to_nat (7 - m)) (negb bit) =
        bits_of [hide bit b (first_mask_of k)] ++ bits_of (slice p (s + 1) (e - 1) ++ [hide bit c (last_mask_of m)])) as ->.
      { unfold F. rewrite (range_pieces p s e k m b c) by (done || lia). rewrite bits_of_app, !bits_of_cons, F1, L1. change (bits_of []) with (@nil bool). by rewrite !app_nil_r, <- !app_assoc. }
      rewrite expected_app. change 8 with (8 * alen [hide bit b (first_mask_of k)]) at 1. destruct (first_bit bit (bits_of [hide bit b (first_mask_of k)])) as [i|] eqn:Ei.
      * destruct (pos_result_part eg bit _ s (e - s + 1) i Ei) as [-> H2]; [unfold alen; cbn; lia|]. by rewrite H2.
      * rewrite pos_missing by done. replace (e - s + 1 - 1) with (e - (s + 1) + 1) by lia. rewrite (pos_middle_spec _ _ _ _ _ _ _ c) by (done || lia).
        do 3 f_equal. rewrite alen_bits_of. change (alen [_]) with 1. lia.
Qed.

(** What the code answers, on any range. *)
Definition found_from (eg bit isbit : bool) (p : bytes) (start fin : Z) : Z :=
  let a := range_start isbit p start in if range_end isbit p fin <=? a then - 1 else expected eg bit (range_bits isbit p start fin) a.

Lemma position_range sv st key p eg bit isbit start fin : holds st key p -> is_bytes p -> keys st !! key <> None -> (eg = true \/ isbit = false /\ fin = alen p - 1) ->
  (let '(start, fin, fm, lm) := clamp_range isbit (if isbit then 8 * alen p else alen p) start fin in bitpos_reply sv eg bit (keys st !! key) p start fin fm lm) =
  Ok (RInt (found_from eg bit isbit p start fin)).
Proof.
  intros Hh Hp Hk Heg. pose proof (clamp_range_spec isbit p start fin) as H. destruct (clamp_range _ _ _ _) as [[[s e] fm] lm]. destruct H as (H0 & Hin & Hout).
  unfold holds in Hh. destruct (keys st !! key) as [o|] eqn:Ek; [|done]. unfold found_from.
  destruct (Z.lt_ge_cases e s) as [Hlt|Hge].
  - unfold bitpos_reply. rewrite (proj2 (Z.ltb_lt e s)), (proj2 (Z.leb_le _ _)) by auto. done.
  - destruct (Hin Hge) as (k & m & -> & -> & He & Hk' & Hm & Hs & Hf & Hle & Hb). rewrite bitpos_reply_spec; try done; [|destruct Heg as [|[-> _]]; [by left|right; by apply Hb]].
    rewrite (proj2 (Z.leb_gt _ _)) by lia. unfold range_bits. by rewrite <- Hs, <- Hf.
Qed.

Lemma range_all p : range_bits false p 0 (alen p - 1) = bits_of p.
Proof.
  pose proof (alen_nonneg p). unfold range_bits, range_start, range_end, index, field. change (0 <? 0) with false. cbn iota. change (Z.max 0 0) with 0. rewrite drop_0.
  apply take_ge. rewrite length_bits_of. unfold alen in *. destruct (Z.ltb_spec (Z.of_nat (length p) - 1) 0); lia.
Qed.

Lemma llong_assert (p : bytes) : 8 * alen p < 2 ^ 63 -> (alen p <=? Z.shiftr LLONG_MAX 3) = true.
Proof. intros H. apply Z.leb_le. change (Z.shiftr LLONG_MAX 3) with 1152921504606846975. mach. Qed.

Lemma holds_wrong st key p : holds st key p -> match keys st !! key with Some OOther => true | _ => false end = false /\ getObjectReadOnlyString (keys st !! key) = p.
Proof. unfold holds. destruct (keys st !! key) as [[]|]; cbn; intros H; by split. Qed.

Lemma clamp_all (p : bytes) : clamp_range false (alen p) 0 (alen p - 1) = (0, alen p - 1, 0, 0).
Proof.
  pose proof (alen_nonneg p). rewrite clamp_range_eq. unfold index. cbn [andb]. change (0 <? 0) with false. cbn iota. do 3 f_equal.
  destruct (Z.ltb_spec (alen p - 1) 0); lia.
Qed.

(** The arguments of a command given as a list. *)
Ltac args := unfold arg; repeat match goal with
  | |- context [@alen ?A (?x :: ?l)] => let n := eval vm_compute in (@alen A (x :: l)) in change (@alen A (x :: l)) with n
  | |- context [aget (?x :: ?l) ?k] => let v := eval vm_compute in (aget (x :: l) k) in change (aget (x :: l) k) with v
  end; cbn [Z.eqb Z.leb Z.ltb Z.compare Pos.eqb Pos.compare Pos.compare_cont CompOpp orb andb].

(** C22. BITCOUNT, on every machine: on a string of less than 2^60 bytes (2^32
    with SVE2) it answers the number of bits set in the whole string or in
    the range given in bytes or bits, with indices from either end; nothing
    is read outside the string, and a wrong type, a bad index and a bad unit
    are the only errors. *)
Theorem bitcount_correct sv st cmd key p : holds st key p -> is_bytes p -> cpu_fits (cpu sv) p ->
  bitcountCommand sv st [cmd; key] = Ok (RInt (ones (bits_of p))) /\
  (forall a start, string2llScalar a = Some start -> bitcountCommand sv st [cmd; key; a] = Ok (RInt (count_in false p start (alen p - 1)))) /\
  (forall a b start fin, string2llScalar a = Some start -> string2llScalar b = Some fin -> bitcountCommand sv st [cmd; key; a; b] = Ok (RInt (count_in false p start fin))) /\
  (forall a b u start fin isbit, string2llScalar a = Some start -> string2llScalar b = Some fin -> parse_unit u = Some isbit ->
     bitcountCommand sv st [cmd; key; a; b; u] = Ok (RInt (count_in isbit p start fin))).
Proof.
  intros Hh Hp Hc. destruct (holds_wrong st key p Hh) as [Hw Ho]. pose proof (llong_assert p (proj2 Hc)) as Ha.
  pose proof (fun isbit start fin => bitcount_range sv st key p isbit start fin Hh Hp Hc) as Hr. unfold count_in, reversed.
  split; [|split; [|split]]; [|intros a start Es|intros a b start fin Es Ef|intros a b u start fin isbit Es Ef Eu]; unfold bitcountCommand; args; rewrite ?Es, ?Eu, ?Ef, Hw, Ho, ?Ha; cbn [assert mbind res_bind].
  - pose proof (Hr false 0 (alen p - 1)) as H. cbn iota in H. by rewrite range_all, clamp_all in H.
  - destruct (_ && _ && _); [done|]. apply (Hr false).
  - destruct (_ && _ && _); [done|]. apply (Hr false).
  - destruct (_ && _ && _); [done|]. apply (Hr isbit).
Qed.

(** C24. BITPOS answers the position of the first bit of the wanted value in
    the string, or in the range given in bytes or bits: -1 when there is none
    or the range is empty, or the position after the string when zeros are
    wanted and no end is given; on a missing key 0 or -1.  This is for a start
    and an end that are not two indexes from the end in the wrong order
    ([reversed]): those make an empty range too, but the code searches the
    first byte ([bitpos_empty_range] below).  On any range nothing is read
    outside the string and the panic at the end of the scan is never
    reached. *)
Theorem bitpos_correct sv st cmd key p v n : holds st key p -> is_bytes p -> 8 * alen p < 2 ^ 63 -> string2llScalar v = Some n -> n = 0 \/ n = 1 ->
  let bit := n =? 1 in
  let answer x := Ok (RInt (if bool_decide (keys st !! key = None) then (if bit then - 1 else 0) else x)) in
  bitposCommand sv st [cmd; key; v] = answer (if alen p =? 0 then - 1 else expected false bit (bits_of p) 0) /\
  (forall a start, string2llScalar a = Some start -> bitposCommand sv st [cmd; key; v; a] = answer (position_in false bit false p start (alen p - 1))) /\
  (forall a b start fin, string2llScalar a = Some start -> string2llScalar b = Some fin -> reversed start fin = false ->
     bitposCommand sv st [cmd; key; v; a; b] = answer (position_in true bit false p start fin)) /\
  (forall a b u start fin isbit, string2llScalar a = Some start -> string2llScalar b = Some fin -> parse_unit u = Some isbit ->
     reversed start fin = false -> bitposCommand sv st [cmd; key; v; a; b; u] = answer (position_in true bit isbit p start fin)) /\
  (forall rest, exists r, bitposCommand sv st (cmd :: key :: v :: rest) = Ok r).
Proof.
  intros Hh Hp Hl Hv Hn. cbv zeta. destruct (holds_wrong st key p Hh) as [Hw Ho]. pose proof (llong_assert p Hl) as Ha.
  assert (negb (n =? 0) && negb (n =? 1) = false) as Hn' by (by destruct Hn as [-> | ->]).
  assert (forall eg isbit start fin, eg = true \/ isbit = false /\ fin = alen p - 1 ->
    (let '(start, fin, fm, lm) := clamp_range isbit (if isbit then 8 * alen p else alen p) start fin in bitpos_reply sv eg (n =? 1) (keys st !! key) p start fin fm lm) =
    Ok (RInt (if bool_decide (keys st !! key = None) then (if n =? 1 then - 1 else 0) else found_from eg (n =? 1) isbit p start fin))) as Hr.
  { intros eg isbit start fin Heg. case_bool_decide as Hk; [|by apply position_range]. rewrite Hk. by destruct (clamp_range _ _ _ _) as [[[? ?] ?] ?]. }
  assert (forall eg isbit start fin, reversed start fin = false -> position_in eg (n =? 1) isbit p start fin = found_from eg (n =? 1) isbit p start fin) as Hpos.
  { intros eg isbit start fin Hrev. unfold position_in. by rewrite Hrev. }
  split; [|split; [|split; [|split]]];
    [|intros a start Es|intros a b start fin Es Ef Hrev|intros a b u start fin isbit Es Ef Eu Hrev|intros rest]; unfold bitposCommand; [args..|];
    rewrite ?Hv, ?Hn', ?Es, ?Eu, ?Ef, ?Hw, ?Ho, ?Ha; cbn [assert mbind res_bind].
  - pose proof (Hr false false 0 (alen p - 1) (or_intror (conj eq_refl eq_refl))) as H. cbn iota in H. rewrite clamp_all in H. rewrite H.
    unfold found_from. rewrite range_all. unfold range_start, range_end, index. change (0 <? 0) with false. cbn iota. change (8 * Z.max 0 0) with 0. pose proof (alen_nonneg p).
    destruct (Z.eqb_spec (alen p) 0) as [E|E].
    + rewrite E. done.
    + rewrite (proj2 (Z.ltb_ge (alen p - 1) 0)), (proj2 (Z.leb_gt _ 0)) by lia. done.
  - assert (position_in false (n =? 1) false p start (alen p - 1) = found_from false (n =? 1) false p start (alen p - 1)) as ->; [|apply (Hr false false); by right].
    pose proof (alen_nonneg p). unfold position_in. destruct (reversed _ _) eqn:Er; [|done]. unfold reversed in Er. cmp_prop. unfold found_from.
    assert (alen p = 0) as E0 by lia. unfold range_end, range_start, index. rewrite E0. by destruct (start <? 0) eqn:Es0; cmp_prop; rewrite ?(proj2 (Z.leb_le _ _)) by (cbn; lia).
  - rewrite Hpos by done. apply (Hr true false). by left.
  - rewrite Hpos by done. apply (Hr true isbit). by left.
  - change (arg (cmd :: key :: v :: rest) 2) with v. rewrite Hv, Hn'. change (arg (cmd :: key :: v :: rest) 1) with key. rewrite Hw, Ho, Ha. cbn [assert mbind res_bind].
    destruct (_ || _) eqn:E; [|destruct (_ =? 3); [|by eexists]].
    + destruct (string2llScalar (arg _ 3)) as [start|]; [|by eexists].
      destruct (Z.eqb_spec (alen (cmd :: key :: v :: rest)) 6) as [E6|E6]; [rewrite E6; destruct (parse_unit _) as [isbit|]; [|by eexists]|]; cbn [Z.leb Z.compare Pos.compare Pos.compare_cont].
      * destruct (string2llScalar (arg (cmd :: key :: v :: rest) 4)) as [fin|]; [|by eexists]. eexists. apply (Hr true isbit start fin). by left.
      * rewrite orb_false_r in E. destruct (Z.eqb_spec (alen (cmd :: key :: v :: rest)) 4) as [E4|E4].
        -- rewrite E4. eexists. apply (Hr false false start (alen p - 1)). by right.
        -- cbn [orb] in E. apply Z.eqb_eq in E. rewrite E. destruct (string2llScalar (arg (cmd :: key :: v :: rest) 4)) as [fin|]; [|by eexists]. eexists. apply (Hr true false start fin). by left.
    + pose proof (Hr false false 0 (alen p - 1) (or_intror (conj eq_refl eq_refl))) as H. cbn iota in H. rewrite clamp_all in H. rewrite H. by eexists.
Qed.

(** ** BITOP *)

(** The byte [j] of the result. *)
Definition bitop_byte (op : BitOp) (srcs : list bytes) (j : Z) : Z :=
  let first := byte_or_0 (aget srcs 0) j in
  if decide (op = BITOP_NOT) then 255 - first else fold_left (word_op op) ((fun s => byte_or_0 s j) <$> tail srcs) first.

Definition op_bool (op : BitOp) (a b : bool) : bool :=
  match op with BITOP_AND => a && b | BITOP_OR => a || b | BITOP_XOR => xorb a b | BITOP_NOT => a end.

Lemma word_op_bits op a b j : 0 <= j -> Z.testbit (word_op op a b) j = op_bool op (Z.testbit a j) (Z.testbit b j).
Proof. intros. destruct op; cbn; [apply Z.land_spec|apply Z.lor_spec|apply Z.lxor_spec|done]. Qed.

Lemma word_op_range op w a b : 0 <= w -> in_u w a -> in_u w b -> in_u w (word_op op a b).
Proof.
  intros Hw Ha Hb. apply in_u_testbit; [done| |].
  - unfold in_u in *. destruct op; cbn; [apply Z.land_nonneg; lia|apply Z.lor_nonneg; lia|apply Z.lxor_nonneg; lia|lia].
  - intros j Hj. rewrite word_op_bits, (testbit_high w a), (testbit_high w b) by (done || lia). by destruct op.
Qed.

Lemma word_op_split op a b c d : in_u 8 a -> in_u 8 c -> 0 <= b -> 0 <= d -> word_op op (a + 256 * b) (c + 256 * d) = word_op op a c + 256 * word_op op b d.
Proof.
  intros Ha Hc Hb Hd. pose proof (word_op_range op 8 a c ltac:(lia) Ha Hc) as Hac.
  assert (0 <= word_op op b d) as Hbd by (destruct op; cbn; [apply Z.land_nonneg; lia|apply Z.lor_nonneg; lia|apply Z.lxor_nonneg; lia|lia]).
  change 256 with (2 ^ 8). rewrite <- !lor_pack by (done || lia). apply Z.bits_inj'. intros j Hj. rewrite word_op_bits, !Z.lor_spec by done.
  destruct (Z.lt_ge_cases j 8).
  - rewrite !Z.shiftl_spec_low, !orb_false_r, word_op_bits by lia. done.
  - rewrite (testbit_high 8 a), (testbit_high 8 c), (testbit_high 8 (word_op op a c)), !Z.shiftl_spec, word_op_bits by (done || lia). done.
Qed.

Lemma word_op_le op s t : length s = length t -> is_bytes s -> is_bytes t ->
  word_op op (le_val s) (le_val t) = le_val (zip_with (word_op op) s t) /\ is_bytes (zip_with (word_op op) s t).
Proof.
  intros Hl Hs. revert t Hl. induction Hs as [|a s Ha Hs IH]; intros [|b t] Hl Ht; try done.
  - split; [by destruct op|constructor].
  - apply Forall_cons in Ht as [Hb Ht]. injection Hl as Hl. destruct (IH t Hl Ht) as [H1 H2]. cbn [le_val zip_with].
    rewrite word_op_split, H1 by (done || by apply le_val_nonneg). split; [done|]. constructor; [|done]. by apply word_op_range.
Qed.

Lemma not_le s : is_bytes s -> 2 ^ (8 * alen s) - 1 - le_val s = le_val ((fun b => 255 - b) <$> s) /\ is_bytes ((fun b => 255 - b) <$> s).
Proof.
  induction 1 as [|b s Hb Hs [IH1 IH2]]; [by split; [|constructor]|]. cbn [le_val fmap list_fmap]. change (list_fmap Z Z) with (@fmap list _ Z Z). rewrite <- IH1.
  rewrite alen_cons. pose proof (alen_nonneg s). replace (8 * (1 + alen s)) with (8 + 8 * alen s) by lia. rewrite Z.pow_add_r by lia. split; [lia|]. constructor; [mach|done].
Qed.

(** A block of [n] bytes at [off] is replaced. *)
Definition replaced (out out' : bytes) (off n : Z) (f : Z -> Z) : Prop :=
  alen out' = alen out /\ is_bytes out' /\ forall i, 0 <= i < alen out -> aget out' i = if (off <=? i) && (i <? off + n) then f i else aget out i.

Lemma aget_app (l l' : bytes) i : 0 <= i -> aget (l ++ l') i = if i <? alen l then aget l i else aget l' (i - alen l).
Proof.
  intros Hi. unfold aget, alen. destruct (Z.ltb_spec i (Z.of_nat (length l))).
  - by rewrite lookup_total_app_l by lia.
  - rewrite lookup_total_app_r by lia. f_equal. lia.
Qed.

Lemma aget_take (l : bytes) n i : 0 <= i < Z.of_nat n -> aget (take n l) i = aget l i.
Proof. intros Hi. unfold aget. apply lookup_total_take_lt. lia. Qed.

Lemma aget_drop (l : bytes) n i : 0 <= i -> aget (drop n l) i = aget l (Z.of_nat n + i).
Proof. intros Hi. unfold aget. rewrite lookup_total_drop. f_equal. lia. Qed.

Lemma st_replaced out off b : is_bytes out -> is_bytes b -> 0 <= off -> off + alen b <= alen out ->
  exists out', ByteMem.st out off b = Ok out' /\ replaced out out' off (alen b) (fun i => aget b (i - off)).
Proof.
  intros Ho Hb H0 Hl. unfold ByteMem.st. rewrite (proj2 (Z.leb_le 0 off)), (proj2 (Z.leb_le (off + alen b) _)) by lia. eexists. split; [done|].
  assert (alen (take (Z.to_nat off) out) = off) as Ht by (unfold alen in *; rewrite length_take; lia). pose proof (alen_nonneg b).
  assert (alen (drop (Z.to_nat (off + alen b)) out) = alen out - off - alen b) as Hd by (unfold alen in *; rewrite length_drop; lia).
  split; [rewrite !alen_app; lia|]. split; [apply Forall_app; split; [by apply Forall_take|]; apply Forall_app; split; [done|by apply Forall_drop]|].
  intros i Hi. rewrite aget_app by lia. rewrite Ht. destruct (Z.ltb_spec i off) as [Hlt|Hge].
  - rewrite (proj2 (Z.leb_gt off i)) by lia. cbn [andb]. apply aget_take. lia.
  - rewrite (proj2 (Z.leb_le off i)) by lia. cbn [andb]. rewrite aget_app by lia. destruct (Z.ltb_spec (i - off) (alen b)); destruct (Z.ltb_spec i (off + alen b)); try lia.
    rewrite aget_drop by lia. f_equal. lia.
Qed.

Lemma ldn_word m off : is_bytes m -> 0 <= off -> off + 8 <= alen m -> exists w, ldn m off 8 = Ok w /\ length w = 8%nat /\ is_bytes w /\ forall i, 0 <= i < 8 -> aget w i = aget m (off + i).
Proof.
  intros Hm H0 Hl. exists (take 8 (drop (Z.to_nat off) m)). unfold ldn. rewrite (proj2 (Z.leb_le 0 off)), (proj2 (Z.leb_le (off + 8) _)) by lia.
  split; [done|]. split; [unfold alen in Hl; rewrite length_take, length_drop; lia|]. split; [by apply Forall_take, Forall_drop|].
  intros i Hi. rewrite aget_take, aget_drop by lia. f_equal. lia.
Qed.

Lemma op_word_spec op out src off : is_bytes out -> is_bytes src -> 0 <= off -> off + 8 <= alen out -> off + 8 <= alen src ->
  exists out', op_word op out src off = Ok out' /\ replaced out out' off 8 (fun i => word_op op (aget out i) (aget src i)).
Proof.
  intros Ho Hs H0 H1 H2. destruct (ldn_word out off Ho H0 H1) as (a & Ea & La & Ba & Ga). destruct (ldn_word src off Hs H0 H2) as (b & Eb & Lb & Bb & Gb).
  unfold op_word. rewrite Ea. cbn [mbind res_bind]. rewrite Eb. cbn [mbind res_bind]. destruct (word_op_le op a b ltac:(lia) Ba Bb) as [-> Hz].
  set (z := zip_with (word_op op) a b) in *. assert (length z = 8%nat) as Lz by (unfold z; rewrite length_zip_with; lia). rewrite <- Lz, le_bytes_val by done.
  assert (alen z = 8) as Az by (unfold alen; lia).
  destruct (st_replaced out off z Ho Hz H0 ltac:(lia)) as (out' & E & R1 & R2 & R3). exists out'. split; [done|]. split; [done|]. split; [done|].
  intros i Hi. rewrite R3, Az by done. destruct (Z.leb_spec off i); destruct (Z.ltb_spec i (off + 8)); cbn [andb]; try done.
  assert (aget out i = aget a (i - off)) as -> by (rewrite Ga by lia; f_equal; lia). assert (aget src i = aget b (i - off)) as -> by (rewrite Gb by lia; f_equal; lia). unfold z, aget. rewrite (lookup_total_zip_with _ a b) by lia. done.
Qed.

Lemma not_word_spec out off : is_bytes out -> 0 <= off -> off + 8 <= alen out ->
  exists out', not_word out off = Ok out' /\ replaced out out' off 8 (fun i => 255 - aget out i).
Proof.
  intros Ho H0 H1. destruct (ldn_word out off Ho H0 H1) as (a & Ea & La & Ba & Ga). unfold not_word. rewrite Ea. cbn [mbind res_bind].
  pose proof (le_val_range a Ba) as Hr. destruct (not_le a Ba) as [Hv Hz]. assert (alen a = 8) as Al by (unfold alen; lia). rewrite Al in Hr, Hv.
  assert (u64 (Z.lnot (le_val a)) = le_val ((fun b => 255 - b) <$> a)) as ->.
  { rewrite <- Hv. unfold Z.lnot. replace (Z.pred (- le_val a)) with (2 ^ 64 - 1 - le_val a + (- 1) * 2 ^ 64) by mach. unfold wrap. rewrite Z.mod_add by lia. apply Z.mod_small. unfold in_u in Hr. mach. }
  set (z := (fun b => 255 - b) <$> a) in *. assert (length z = 8%nat) as Lz by (unfold z; by rewrite length_fmap). rewrite <- Lz, le_bytes_val by done.
  assert (alen z = 8) as Az by (unfold alen; lia).
  destruct (st_replaced out off z Ho Hz H0 ltac:(lia)) as (out' & E & R1 & R2 & R3). exists out'. split; [done|]. split; [done|]. split; [done|].
  intros i Hi. rewrite R3, Az by done. destruct (Z.leb_spec off i); destruct (Z.ltb_spec i (off + 8)); cbn [andb]; try done.
  assert (aget out i = aget a (i - off)) as -> by (rewrite Ga by lia; f_equal; lia). unfold z, aget. rewrite !list_lookup_total_alt, list_lookup_fmap.
  destruct (lookup_lt_is_Some_2 a (Z.to_nat (i - off)) ltac:(lia)) as [x ->]. done.
Qed.

(** Two adjacent blocks. *)
Lemma replaced_join out out1 out2 off n m f g : 0 <= n -> 0 <= m -> (forall i, off + n <= i < off + n + m -> 0 <= i < alen out -> g i = f i) ->
  replaced out out1 off n f -> replaced out1 out2 (off + n) m g -> replaced out out2 off (n + m) f.
Proof.
  intros Hn Hm Hg (A1 & A2 & A3) (B1 & B2 & B3). split; [lia|]. split; [done|]. intros i Hi. rewrite B3, A3 by lia.
  destruct (Z.leb_spec (off + n) i); destruct (Z.ltb_spec i (off + n + m)); destruct (Z.leb_spec off i); destruct (Z.ltb_spec i (off + n)); destruct (Z.ltb_spec i (off + (n + m))); cbn [andb]; try lia; try done.
  apply Hg; lia.
Qed.

(** What a later block reads has not been replaced yet. *)
Lemma replaced_same out out1 off n f i : replaced out out1 off n f -> off + n <= i -> 0 <= i < alen out -> aget out1 i = aget out i.
Proof. intros (_ & _ & H) Hi Hr. rewrite H by done. destruct (Z.ltb_spec i (off + n)); [lia|]. by rewrite andb_false_r. Qed.

Lemma four_words (F : bytes -> Z -> res bytes) (f : Z -> Z -> Z) out j : is_bytes out -> 0 <= j -> j + 32 <= alen out ->
  (forall out off, is_bytes out -> 0 <= off -> off + 8 <= j + 32 -> j + 32 <= alen out -> exists out', F out off = Ok out' /\ replaced out out' off 8 (fun i => f i (aget out i))) ->
  exists out', (out ← F out j; out ← F out (j + 8); out ← F out (j + 16); F out (j + 24)) = Ok out' /\ replaced out out' j 32 (fun i => f i (aget out i)).
Proof.
  intros Ho H0 Hl HF. destruct (HF out j Ho H0 ltac:(lia) Hl) as (o1 & -> & R1). cbn [mbind res_bind]. pose proof R1 as (A1 & A2 & _).
  destruct (HF o1 (j + 8) A2 ltac:(lia) ltac:(lia) ltac:(lia)) as (o2 & -> & R2). cbn [mbind res_bind]. pose proof R2 as (B1 & B2 & _).
  assert (replaced out o2 j (8 + 8) (fun i => f i (aget out i))) as R12.
  { eapply replaced_join; [lia|lia| |exact R1|exact R2]. intros i Hi Hr. cbn. f_equal. eapply replaced_same; [exact R1|lia|lia]. }
  destruct (HF o2 (j + 16) B2 ltac:(lia) ltac:(lia) ltac:(lia)) as (o3 & -> & R3). cbn [mbind res_bind]. pose proof R3 as (C1 & C2 & _).
  assert (replaced out o3 j (16 + 8) (fun i => f i (aget out i))) as R13.
  { eapply replaced_join; [lia|lia| |exact R12|exact R3]. intros i Hi Hr. cbn. f_equal. eapply replaced_same; [exact R12|lia|lia]. }
  destruct (HF o3 (j + 24) C2 ltac:(lia) ltac:(lia) ltac:(lia)) as (o4 & -> & R4). exists o4. split; [done|].
  eapply (replaced_join _ _ _ j 24 8); [lia|lia| |exact R13|exact R4]. intros i Hi Hr. cbn. f_equal. eapply replaced_same; [exact R13|lia|lia].
Qed.

Lemma op_sources_spec op out srcs j : is_bytes out -> Forall is_bytes srcs -> 0 <= j -> j + 32 <= alen out -> Forall (fun s => j + 32 <= alen s) srcs ->
  exists out', op_sources op out srcs j = Ok out' /\ replaced out out' j 32 (fun i => fold_left (word_op op) ((fun s => aget s i) <$> srcs) (aget out i)).
Proof.
  intros Ho Hs H0 Hl Hj. revert out Ho Hl. induction Hs as [|s srcs Hs Hss IH]; intros out Ho Hl.
  - exists out. split; [done|]. split; [done|]. split; [done|]. intros i Hi. by destruct (_ && _).
  - apply Forall_cons in Hj as [Hjs Hj]. cbn [op_sources].
    destruct (four_words (fun o => op_word op o s) (fun i x => word_op op x (aget s i)) out j Ho H0 Hl) as (o1 & E & R1).
    { intros o off Hb Ho' Hoff Hlo. by apply op_word_spec; try lia. }
    pose proof R1 as (A1 & A2 & A3). destruct (IH Hj o1 A2 ltac:(lia)) as (o2 & E2 & B1 & B2 & B3).
    exists o2. split.
    + revert E. destruct (op_word op out s j) as [a| | |]; cbn [mbind res_bind]; try done. destruct (op_word op a s (j + 8)) as [b| | |]; cbn [mbind res_bind]; try done.
      destruct (op_word op b s (j + 16)) as [c| | |]; cbn [mbind res_bind]; try done. intros ->. cbn [mbind res_bind]. done.
    + split; [lia|]. split; [done|]. intros i Hi. rewrite B3, A3 by lia. cbn [fmap list_fmap fold_left]. by destruct (_ && _).
Qed.

Lemma byte_in s i : i < alen s -> byte_or_0 s i = aget s i.
Proof. intros H. unfold byte_or_0. by rewrite (proj2 (Z.leb_gt _ _)). Qed.

Lemma byte_or_0_range s i : is_bytes s -> 0 <= i -> in_u 8 (byte_or_0 s i).
Proof. intros Hs Hi. unfold byte_or_0. destruct (Z.leb_spec (alen s) i); [mach|]. by apply Forall_aget. Qed.

(** The bytes before [j] are done, those up to [lim] hold the first source. *)
Record progress (op : BitOp) (srcs : list bytes) (maxlen : Z) (out : bytes) (j lim : Z) : Prop := {
  pr_len : alen out = maxlen;
  pr_bytes : is_bytes out;
  pr_done : forall i, 0 <= i < j -> aget out i = bitop_byte op srcs i;
  pr_first : forall i, j <= i < lim -> aget out i = aget (aget srcs 0) i }.

Lemma fast_loop_spec fuel op srcs maxlen out j minlen : Forall is_bytes srcs -> srcs <> [] -> (Z.to_nat minlen <= fuel)%nat -> 0 <= j -> 0 <= minlen ->
  Forall (fun s => j + minlen <= alen s) srcs -> j + minlen <= maxlen -> progress op srcs maxlen out j (j + minlen) ->
  exists out' j', fast_loop fuel op out srcs j minlen = Ok (out', j') /\ 0 <= j' <= maxlen /\ progress op srcs maxlen out' j' j'.
Proof.
  intros Hs Hne. revert out j minlen. induction fuel as [|fuel IH]; intros out j minlen Hf H0 Hm Hl Hx [P1 P2 P3 P4]; cbn [fast_loop]; destruct (Z.leb_spec 32 minlen) as [Hge|Hlt]; try lia.
  1, 3: exists out, j; split; [done|]; split; [lia|]; split; try done; lia.
  assert (exists out', (if decide (op = BITOP_NOT) then out ← not_word out j; out ← not_word out (j + 8); out ← not_word out (j + 16); not_word out (j + 24) else op_sources op out (tail srcs) j) = Ok out' /\
    replaced out out' j 32 (fun i => bitop_byte op srcs i)) as (out' & -> & R).
  { destruct srcs as [|s srcs]; [done|]. apply Forall_cons in Hs as [Hs Hss]. apply Forall_cons in Hl as [Hls Hl]. change (aget (s :: srcs) 0) with s in *. cbn [tail].
    unfold bitop_byte. change (aget (s :: srcs) 0) with s. cbn [tail]. destruct (decide (op = BITOP_NOT)).
    - destruct (four_words not_word (fun _ x => 255 - x) out j P2 H0 ltac:(lia)) as (o & E & R1 & R2 & R3); [intros; apply not_word_spec; try done; lia|].
      exists o. split; [done|]. split; [done|]. split; [done|]. intros i Hi. rewrite R3 by done.
      destruct (Z.leb_spec j i); destruct (Z.ltb_spec i (j + 32)); cbn [andb]; try done. rewrite P4, byte_in by lia. done.
    - destruct (op_sources_spec op out srcs j P2 Hss H0 ltac:(lia)) as (o & E & R1 & R2 & R3); [eapply Forall_impl; [exact Hl|]; cbn; lia|].
      exists o. split; [done|]. split; [done|]. split; [done|]. intros i Hi. rewrite R3 by done.
      destruct (Z.leb_spec j i); destruct (Z.ltb_spec i (j + 32)); cbn [andb]; try done. rewrite P4, byte_in by lia. f_equal.
      apply list_fmap_ext. intros k t Ht. symmetry. apply byte_in. rewrite Forall_lookup in Hl. specialize (Hl k t Ht). cbn in Hl. lia. }
  cbn [mbind res_bind]. destruct R as (R1 & R2 & R3). apply IH; try lia.
  - eapply Forall_impl; [exact Hl|]. cbn. lia.
  - replace (j + 32 + (minlen - 32)) with (j + minlen) by lia. split; [lia|done| |].
    + intros i Hi. rewrite R3 by lia. destruct (Z.leb_spec j i); destruct (Z.ltb_spec i (j + 32)); cbn [andb]; try lia; try done; apply P3; lia.
    + intros i Hi. rewrite R3 by lia. rewrite (proj2 (Z.ltb_ge i (j + 32))), andb_false_r by lia. apply P4. lia.
Qed.

Lemma fold_fixed op x l : (forall y, In y l -> word_op op x y = x) -> fold_left (word_op op) l x = x.
Proof. induction l as [|y l IH]; intros H; [done|]. cbn [fold_left]. rewrite H by (by left). apply IH. intros z Hz. apply H. by right. Qed.

Lemma lor_255 y : in_u 8 y -> Z.lor 255 y = 255.
Proof. intros Hy. apply Z.eqb_eq. revert Hy. apply (byte_forallb (fun y => Z.lor 255 y =? 255)). vm_compute. reflexivity. Qed.

(** The early exit does not change the result. *)
Lemma fold_sources_spec op x srcs j : Forall is_bytes srcs -> 0 <= j -> op <> BITOP_NOT -> fold_sources op x srcs j = fold_left (word_op op) ((fun s => byte_or_0 s j) <$> srcs) x.
Proof.
  intros Hs Hj Hop. revert x. induction Hs as [|s srcs Hs Hss IH]; intros x; [done|]. cbn [fold_sources fmap list_fmap fold_left]. change (list_fmap bytes Z) with (@fmap list _ bytes Z).
  destruct op; [| |apply IH|done].
  - destruct (Z.eqb_spec (Z.land x (byte_or_0 s j)) 0) as [E|E]; [|apply IH]. cbn [word_op]. rewrite E. symmetry. apply fold_fixed. intros y _. apply Z.land_0_l.
  - destruct (Z.eqb_spec (Z.lor x (byte_or_0 s j)) 255) as [E|E]; [|apply IH]. cbn [word_op]. rewrite E. symmetry. apply fold_fixed. intros y Hy. apply lor_255.
    apply in_map_iff in Hy as (t & <- & Ht). apply byte_or_0_range; [|done]. rewrite Forall_forall in Hss. apply Hss. by apply list_elem_of_In.
Qed.

Lemma fold_sources_not x srcs j : fold_sources BITOP_NOT x srcs j = x.
Proof. induction srcs as [|s srcs IH]; [done|]. apply IH. Qed.

Lemma fold_word_range op x l : in_u 8 x -> Forall (in_u 8) l -> in_u 8 (fold_left (word_op op) l x).
Proof. intros Hx Hl. revert x Hx. induction Hl as [|y l Hy Hl IH]; intros x Hx; [done|]. cbn [fold_left]. apply IH. by apply word_op_range. Qed.

Lemma slow_byte op srcs j : Forall is_bytes srcs -> srcs <> [] -> 0 <= j ->
  fold_sources op (if decide (op = BITOP_NOT) then u8 (Z.lnot (byte_or_0 (aget srcs 0) j)) else byte_or_0 (aget srcs 0) j) (tail srcs) j = bitop_byte op srcs j /\ in_u 8 (bitop_byte op srcs j).
Proof.
  intros Hs Hne Hj. destruct srcs as [|s srcs]; [done|]. apply Forall_cons in Hs as [Hs Hss]. unfold bitop_byte. change (aget (s :: srcs) 0) with s. cbn [tail].
  pose proof (byte_or_0_range s j Hs Hj) as Hb. destruct (decide (op = BITOP_NOT)) as [->|Hop].
  - rewrite fold_sources_not. unfold Z.lnot. replace (Z.pred (- byte_or_0 s j)) with (255 - byte_or_0 s j + (- 1) * 2 ^ 8) by mach. unfold wrap. rewrite Z.mod_add by lia.
    split; [apply Z.mod_small; mach|mach].
  - rewrite fold_sources_spec by done. split; [done|]. apply fold_word_range; [done|]. apply Forall_fmap. eapply Forall_impl; [exact Hss|]. intros t Ht. by apply byte_or_0_range.
Qed.

Lemma slow_loop_spec fuel op srcs maxlen out j : Forall is_bytes srcs -> srcs <> [] -> maxlen - j <= Z.of_nat fuel -> 0 <= j <= maxlen -> progress op srcs maxlen out j j ->
  slow_loop fuel op out srcs j maxlen = Ok (bitop_byte op srcs <$> seqZ 0 maxlen).
Proof.
  intros Hs Hne. revert out j. induction fuel as [|fuel IH]; intros out j Hf Hj [P1 P2 P3 P4]; cbn [slow_loop]; destruct (Z.ltb_spec j maxlen) as [Hlt|Hge]; try lia.
  1, 3: f_equal; apply arr_ext; [unfold alen in *; rewrite length_fmap, length_seqZ; lia|]; intros i Hi; rewrite P3 by lia; unfold aget;
    rewrite list_lookup_total_alt, list_lookup_fmap, lookup_seqZ_lt by lia; cbn; f_equal; lia.
  cbv zeta. destruct (slow_byte op srcs j Hs Hne ltac:(lia)) as [-> Hb].
  destruct (st_replaced out j [bitop_byte op srcs j] P2 ltac:(by constructor) ltac:(lia) ltac:(change (alen [_]) with 1; lia)) as (out' & -> & R1 & R2 & R3).
  cbn [mbind res_bind]. change (alen [_]) with 1 in R3. apply IH; [lia|lia|]. split; [lia|done| |lia].
  intros i Hi. rewrite R3 by lia. destruct (Z.leb_spec j i); destruct (Z.ltb_spec i (j + 1)); cbn [andb]; try lia.
  - assert (i = j) as -> by lia. by rewrite Z.sub_diag.
  - apply P3. lia.
Qed.

Lemma bitop_spec op srcs minlen maxlen : Forall is_bytes srcs -> srcs <> [] -> 0 <= minlen -> Forall (fun s => minlen <= alen s) srcs -> minlen <= maxlen ->
  bitop op srcs minlen maxlen = Ok (bitop_byte op srcs <$> seqZ 0 maxlen).
Proof.
  intros Hs Hne H0 Hl Hx. unfold bitop. assert (is_bytes (replicate (Z.to_nat maxlen) 0)) as Hz by (apply Forall_replicate; mach).
  assert (alen (replicate (Z.to_nat maxlen) 0) = maxlen) as Hzl by (unfold alen; rewrite length_replicate; lia).
  destruct ((32 <=? minlen) && _).
  - destruct srcs as [|s srcs']; [done|]. change (aget (s :: srcs') 0) with s. pose proof (proj1 (proj1 (Forall_cons _ _ _) Hs)) as Hbs. pose proof (proj1 (proj1 (Forall_cons _ _ _) Hl)) as Hls. cbn in Hls.
    unfold ldn. rewrite (proj2 (Z.leb_le 0 0)), (proj2 (Z.leb_le 0 minlen)), (proj2 (Z.leb_le (0 + minlen) _)) by lia. cbn [andb mbind res_bind]. change (Z.to_nat 0) with 0%nat. rewrite drop_0.
    assert (alen (take (Z.to_nat minlen) s) = minlen) as Ht by (unfold alen in *; rewrite length_take; lia).
    destruct (st_replaced _ 0 (take (Z.to_nat minlen) s) Hz ltac:(by apply Forall_take) ltac:(lia) ltac:(lia)) as (out & -> & R1 & R2 & R3). cbn [mbind res_bind].
    destruct (fast_loop_spec (Z.to_nat minlen) op (s :: srcs') maxlen out 0 minlen Hs Hne ltac:(lia) ltac:(lia) H0) as (out' & j & -> & Hj & Hp).
    + eapply Forall_impl; [exact Hl|]. cbn. lia.
    + lia.
    + split; [lia|done|lia|]. intros i Hi. rewrite R3 by lia. rewrite Ht, (proj2 (Z.leb_le 0 i)), (proj2 (Z.ltb_lt i _)) by lia. cbn [andb]. rewrite Z.sub_0_r. apply aget_take. lia.
    + cbn [mbind res_bind]. apply slow_loop_spec; try done; lia.
  - cbn [mbind res_bind]. apply slow_loop_spec; try done; try lia. split; try done; lia.
Qed.

Definition longest (ps : list bytes) : Z := foldr Z.max 0 (alen <$> ps).

Lemma bitop_sources_spec st ks ps j minlen maxlen acc : Forall2 (holds st) ks ps -> 0 <= j -> 0 <= minlen -> (j = 0 -> acc = []) -> (j <> 0 -> Forall (fun s => minlen <= alen s) acc) -> 0 <= maxlen ->
  exists minlen', bitop_sources st ks j minlen maxlen acc = Some (acc ++ ps, minlen', Z.max maxlen (longest ps)) /\ 0 <= minlen' /\
    (acc ++ ps <> [] -> Forall (fun s => minlen' <= alen s) (acc ++ ps)).
Proof.
  intros Hp. revert j minlen maxlen acc. induction Hp as [|k p ks ps Hk Hp IH]; intros j minlen maxlen acc Hj Hm H0 Hn Hx.
  - exists minlen. rewrite app_nil_r. unfold longest. cbn. rewrite Z.max_l by lia. split; [done|]. split; [done|]. intros Ha. apply Hn. intros ->. by apply Ha, H0.
  - cbn [bitop_sources]. pose proof (alen_nonneg p) as Hlp. unfold longest. cbn [fmap list_fmap foldr]. change (list_fmap (list Z) Z) with (@fmap list _ (list Z) Z). fold (longest ps).
    assert (forall minlen1, 0 <= minlen1 -> (acc <> [] -> Forall (fun s => minlen1 <= alen s) acc) -> minlen1 <= alen p ->
      exists minlen', bitop_sources st ks (j + 1) minlen1 (Z.max maxlen (alen p)) (acc ++ [p]) = Some (acc ++ p :: ps, minlen', Z.max maxlen (Z.max (alen p) (longest ps))) /\ 0 <= minlen' /\
      (acc ++ p :: ps <> [] -> Forall (fun s => minlen' <= alen s) (acc ++ p :: ps))) as Hgo.
    { intros m1 Hm1 Hacc Hmp. destruct (IH (j + 1) m1 (Z.max maxlen (alen p)) (acc ++ [p])) as (m' & E & G1 & G2); try lia.
      - intros _. apply Forall_app. split; [|by repeat constructor]. destruct acc; [constructor|by apply Hacc].
      - exists m'. rewrite E, <- app_assoc. cbn [app]. rewrite Z.max_assoc. split; [done|]. split; [done|]. rewrite <- app_assoc in G2. exact G2. }
    assert (forall m1, (if maxlen <? alen p then alen p else maxlen) = m1 -> Z.max maxlen (alen p) = m1) as Hmax by (intros m1 <-; destruct (Z.ltb_spec maxlen (alen p)); lia).
    unfold holds in Hk. destruct (keys st !! k) as [[s|v|]|]; [| |done|]; cbn [getObjectReadOnlyString] in Hk.
    1, 2: cbv zeta; rewrite <- Hk, <- (Hmax _ eq_refl); apply Hgo; [destruct (_ || _); lia| |];
      (destruct (Z.eqb_spec j 0) as [E|E]; cbn [orb]; [try lia; intros Hne; by destruct (Hne (H0 E))|]); destruct (Z.ltb_spec (alen p) minlen); try lia.
    1, 3: intros _; specialize (Hn E); eapply Forall_impl; [exact Hn|]; cbn; lia.
    1, 2: intros _; by apply Hn.
    subst p. assert (Z.max maxlen (alen (@nil Z)) = maxlen) as Hmn by (change (alen []) with 0; lia). rewrite Hmn in Hgo. apply Hgo; [lia| |done].
    intros _. apply Forall_forall. intros s _. apply alen_nonneg.
Qed.

(** C23. BITOP, fast path and slow path: the result is as long as the longest
    source, each of its bytes is the operation on the bytes of the sources
    (zero after their end), it replaces the target, which is deleted when all
    sources are empty; nothing is read or written outside a string. *)
Theorem bitop_correct st cmd name target ks ps op : bitop_name name = Some op -> Forall2 (holds st) ks ps -> Forall is_bytes ps -> ks <> [] -> (op = BITOP_NOT -> alen ks = 1) ->
  let maxlen := longest ps in
  bitopCommand st (cmd :: name :: target :: ks) =
    Ok (if maxlen =? 0 then match keys st !! target with Some _ => signal (mkState (delete target (keys st)) (dirty st) (touched st)) target 1 | None => st end
        else signal (put st target (bitop_byte op ps <$> seqZ 0 maxlen)) target 1, RInt maxlen).
Proof.
  intros Hop Hp Hb Hne Hnot. cbv zeta. unfold bitopCommand, arg. change (aget (cmd :: name :: target :: ks) 1) with name. change (aget (cmd :: name :: target :: ks) 2) with target. rewrite Hop. change (drop 3 (cmd :: name :: target :: ks)) with ks.
  rewrite !alen_cons. assert (bool_decide (op = BITOP_NOT) && negb (1 + (1 + (1 + alen ks)) =? 4) = false) as ->.
  { case_bool_decide as E; [|done]. rewrite (Hnot E). done. }
  destruct (bitop_sources_spec st ks ps 0 0 0 [] Hp ltac:(lia) ltac:(lia) ltac:(done) ltac:(done) ltac:(lia)) as (m & -> & Hm & Hf). cbn [app] in *.
  assert (0 <= longest ps) as Hl by (unfold longest; induction (alen <$> ps); cbn; lia). rewrite Z.max_r by lia.
  assert (ps <> []) as Hps by (destruct Hp; done). specialize (Hf Hps).
  destruct (Z.eqb_spec (longest ps) 0) as [E|E]; cbn [negb]; [by destruct (keys st !! target)|].
  rewrite bitop_spec; [done|done|done|done|done|]. destruct ps as [|p ps]; [done|]. apply Forall_cons in Hf as [Hf _]. cbn in Hf. unfold longest. cbn. lia.
Qed.

(** ** BITFIELD: the operations on bits *)

(** Bits after the end of the string are zero. *)
Definition read_bits (l : list bool) (off n : Z) : list bool := (fun k => default false (l !! Z.to_nat (off + k))) <$> seqZ 0 n.

(** What OVERFLOW asks for when [x] does not fit: the value modulo 2^n, the
    nearest value of the field, or a refusal ([None]). *)
Definition overflowed (sg : bool) (n : Z) (ow : Overflow) (x : Z) : option Z :=
  match ow with
  | BFOVERFLOW_WRAP => Some (int_wrap sg n x)
  | BFOVERFLOW_SAT => Some (Z.max (int_min sg n) (Z.min (int_max sg n) x))
  | BFOVERFLOW_FAIL => None
  end.
Definition new_value (op : bitfieldOp) (old : Z) : option Z :=
  let x := if decide (opcode op = BITFIELDOP_INCRBY) then old + arg64 op else arg64 op in
  if fits (sign op) (bits op) x then Some x else overflowed (sign op) (bits op) (owtype op) x.

(** SET with saturation of a value that the code takes for one on the other
    side of the field is left out: a negative value of an unsigned field, and
    a value of a signed field of less than 64 bits which is at least 2^63 under
    its maximum. *)
Definition sat_ok (op : bitfieldOp) : Prop := opcode op = BITFIELDOP_SET -> owtype op = BFOVERFLOW_SAT ->
  if sign op then bits op = 64 \/ int_max true (bits op) - 2 ^ 63 < arg64 op else 0 <= arg64 op.

Definition field_op (op : bitfieldOp) (l : list bool) : list bool * option Z :=
  let old := decode (sign op) (bits op) (read_bits l (offset op) (bits op)) in
  if decide (opcode op = BITFIELDOP_GET) then (l, Some old)
  else match new_value op old with
  | None => (l, None)
  | Some v => (splice l (offset op) (int_bits (bits op) v), Some (if decide (opcode op = BITFIELDOP_INCRBY) then v else old))
  end.

Fixpoint field_ops (ops : list bitfieldOp) (l : list bool) : list bool * list (option Z) :=
  match ops with
  | [] => (l, [])
  | op :: ops => let '(l, r) := field_op op l in let '(l, rs) := field_ops ops l in (l, r :: rs)
  end.

(** What the parser guarantees. *)
Record op_ok (highest : Z) (op : bitfieldOp) : Prop := {
  oo_bits : 1 <= bits op <= (if sign op then 64 else 63);
  oo_offset : 0 <= offset op < 2 ^ 63;
  oo_arg : - 2 ^ 63 <= arg64 op < 2 ^ 63;
  oo_last : opcode op <> BITFIELDOP_GET -> offset op + bits op - 1 <= highest }.

Lemma field_lookup l a n k : 0 <= a -> 0 <= k < n -> field l a n !! Z.to_nat k = l !! Z.to_nat (a + k).
Proof. intros Ha Hk. unfold field. rewrite lookup_take_lt by lia. rewrite lookup_drop. f_equal. lia. Qed.

Lemma read_bits_lookup l off n k : 0 <= k < n -> read_bits l off n !! Z.to_nat k = Some (default false (l !! Z.to_nat (off + k))).
Proof. intros Hk. unfold read_bits. rewrite list_lookup_fmap, lookup_seqZ_lt by lia. cbn. do 5 f_equal. lia. Qed.

Lemma field_read l l' a off n : 0 <= a -> 0 <= n -> a + n <= alen l -> (forall k, 0 <= k < n -> l !! Z.to_nat (a + k) = Some (default false (l' !! Z.to_nat (off + k)))) ->
  field l a n = read_bits l' off n.
Proof.
  intros Ha Hn Hl H. apply (list_eq_same_length _ _ (Z.to_nat n)).
  - unfold read_bits. rewrite length_fmap, length_seqZ. done.
  - apply length_bit_field; lia.
  - intros i x y Hi Hx Hy. rewrite <- (Nat2Z.id i) in Hx, Hy. rewrite field_lookup in Hx by lia. rewrite read_bits_lookup in Hy by lia. rewrite H in Hx by lia. congruence.
Qed.

(** Inside the string. *)
Lemma read_inside l off n : 0 <= off -> 0 <= n -> off + n <= alen l -> read_bits l off n = field l off n.
Proof.
  intros H0 Hn Hl. symmetry. apply field_read; try done. intros k Hk. destruct (lookup_lt_is_Some_2 l (Z.to_nat (off + k))) as [x Hx]; [unfold alen in Hl; lia|]. by rewrite Hx.
Qed.

(** The copy of nine bytes. *)
Lemma get_copy s off n : is_bytes s -> 0 <= off -> 0 <= n <= 64 -> let byte := Z.shiftr off 3 in
  let src := take 9 (drop (Z.to_nat byte) s) in let buf := src ++ replicate (9 - length src) 0 in
  is_bytes buf /\ alen buf = 9 /\ 0 <= off - byte * 8 <= 7 /\ field (bits_of buf) (off - byte * 8) n = read_bits (bits_of s) off n.
Proof.
  intros Hs H0 Hn. cbv zeta. rewrite Z.shiftr_div_pow2 by lia. change (2 ^ 3) with 8. pose proof (Z.div_mod off 8 ltac:(lia)) as Hd. pose proof (Z.mod_pos_bound off 8 ltac:(lia)) as Hm. pose proof (Z.div_pos off 8 ltac:(lia) ltac:(lia)) as Hq.
  set (byte := off / 8) in *. set (src := take 9 (drop (Z.to_nat byte) s)). assert (length src <= 9)%nat as Hl9 by (unfold src; rewrite length_take; lia).
  set (buf := src ++ replicate (9 - length src) 0). assert (alen buf = 9) as Ha by (unfold buf, alen; rewrite length_app, length_replicate; lia).
  split; [apply Forall_app; split; [by apply Forall_take, Forall_drop|apply Forall_replicate; mach]|]. split; [done|]. split; [lia|].
  apply field_read; [lia|lia|rewrite alen_bits_of; lia|]. intros k Hk.
  pose proof (Z.div_mod (off - byte * 8 + k) 8 ltac:(lia)) as Hd'. pose proof (Z.mod_pos_bound (off - byte * 8 + k) 8 ltac:(lia)) as Hm'. pose proof (Z.div_pos (off - byte * 8 + k) 8 ltac:(lia) ltac:(lia)) as Hq'.
  set (q := (off - byte * 8 + k) / 8) in *. set (r := (off - byte * 8 + k) mod 8) in *.
  replace (Z.to_nat (off - byte * 8 + k)) with (8 * Z.to_nat q + Z.to_nat r)%nat by lia. replace (Z.to_nat (off + k)) with (8 * (Z.to_nat byte + Z.to_nat q) + Z.to_nat r)%nat by lia.
  rewrite !bits_lookup by lia. assert (Z.to_nat q < 9)%nat as Hq9 by lia.
  assert (buf !! Z.to_nat q = Some (default 0 (s !! (Z.to_nat byte + Z.to_nat q)%nat))) as ->.
  { unfold buf. destruct (decide (Z.to_nat q < length src)%nat) as [Hlt|Hge].
    - rewrite lookup_app_l by done. unfold src in *. rewrite lookup_take_lt by lia. rewrite lookup_drop. rewrite length_take, length_drop in Hlt.
      destruct (lookup_lt_is_Some_2 s (Z.to_nat byte + Z.to_nat q)) as [x Hx]; [lia|]. by rewrite Hx.
    - rewrite lookup_app_r by lia. rewrite lookup_replicate_2 by lia. unfold src in Hge. rewrite length_take, length_drop in Hge. by rewrite (lookup_ge_None_2 s) by lia. }
  destruct (s !! _); cbn; [done|]. by rewrite Z.bits_0.
Qed.

Lemma exec_get_spec hi op s : op_ok hi op -> is_bytes s -> exec_get op s = Ok (decode (sign op) (bits op) (read_bits (bits_of s) (offset op) (bits op))).
Proof.
  intros [H1 H2 H3 H4] Hs. unfold exec_get. destruct (get_copy s (offset op) (bits op) Hs ltac:(lia) ltac:(destruct (sign op); lia)) as (G1 & G2 & G3 & G4). cbv zeta in *.
  destruct (sign op).
  - rewrite getSignedBitfield_spec by (done || lia || (rewrite G2; mach)). by rewrite G4.
  - rewrite getUnsignedBitfield_spec by (done || lia || (rewrite G2; mach)). rewrite G4. cbn [mbind res_bind]. f_equal. unfold decode, int_wrap.
    pose proof (wrap_range (bits op) (unsigned_of 0 (read_bits (bits_of s) (offset op) (bits op))) ltac:(lia)) as Hw. unfold in_u in Hw.
    assert (2 ^ bits op <= 2 ^ 63) by (apply Z.pow_le_mono_r; lia). apply i64_in_range. lia.
Qed.

Lemma unsigned_app acc l l' : unsigned_of acc (l ++ l') = unsigned_of (unsigned_of acc l) l'.
Proof. revert acc. induction l as [|b l IH]; intros acc; [done|]. apply IH. Qed.

Lemma int_bits_unsigned l : int_bits (alen l) (unsigned_of 0 l) = l.
Proof.
  induction l as [|b l IH] using rev_ind; [done|]. rewrite unsigned_app, alen_app. change (alen [b]) with 1. pose proof (alen_nonneg l). cbn [unsigned_of].
  pose proof (unsigned_range 0 l ltac:(lia)) as Hr. set (u := unsigned_of 0 l) in *. rewrite int_bits_app by lia. f_equal.
  - rewrite <- IH at 2. f_equal. rewrite Z.shiftr_div_pow2 by lia. change (2 ^ 1) with 2. destruct b; lia_div.
  - change (int_bits 1 (2 * u + (if b then 1 else 0))) with [Z.testbit (2 * u + if b then 1 else 0) 0]. f_equal. rewrite Z.bit0_odd, Z.odd_add_mul_2 || rewrite Z.bit0_odd. destruct b; [by rewrite Z.odd_add, Z.odd_mul|by rewrite Z.add_0_r, Z.odd_mul].
Qed.

Lemma int_bits_wrap sg n x : 1 <= n -> int_bits n (int_wrap sg n x) = int_bits n x.
Proof.
  intros Hn. apply int_bits_ext. intros j Hj. rewrite <- (Z.mod_pow2_bits_low (int_wrap sg n x) n), <- (Z.mod_pow2_bits_low x n) by lia. f_equal.
  destruct sg; cbn; unfold wrap, swrap; [|apply Z.mod_mod; pose proof (Z.pow_pos_nonneg 2 n); lia].
  rewrite Zminus_mod_idemp_l. f_equal. lia.
Qed.

Lemma bits_of_inj s t : is_bytes s -> is_bytes t -> bits_of s = bits_of t -> s = t.
Proof.
  intros Hs. revert t. induction Hs as [|b s Hb Hs IH]; intros [|c t] Ht E; try done.
  apply Forall_cons in Ht as [Hc Ht]. rewrite !bits_of_cons in E. apply app_inj_1 in E as [E1 E2]; [|done]. f_equal; [|by apply IH].
  assert (forall x, in_u 8 x -> unsigned_of 0 (bits_of_byte x) = x) as Hu by (intros x Hx; apply Z.eqb_eq; revert Hx; apply (byte_forallb (fun x => unsigned_of 0 (bits_of_byte x) =? x)); vm_compute; reflexivity).
  rewrite <- (Hu b Hb), <- (Hu c Hc). by f_equal.
Qed.

Lemma splice_same l off n : 0 <= off -> 0 <= n -> off + n <= alen l -> splice l off (field l off n) = l.
Proof.
  intros H0 Hn Hl. unfold splice. rewrite length_bit_field by done. rewrite (field_split l off n H0 Hn Hl) at 4. do 3 f_equal. lia.
Qed.

Lemma decode_fits sg n l : 1 <= n -> fits sg n (decode sg n l) = true.
Proof.
  intros Hn. unfold fits, decode, int_min, int_max, int_wrap. apply andb_true_iff. rewrite !Z.leb_le. destruct sg.
  - pose proof (swrap_range n (unsigned_of 0 l) ltac:(lia)). lia.
  - pose proof (wrap_range n (unsigned_of 0 l) ltac:(lia)) as H. unfold in_u in H. lia.
Qed.

Lemma fits_range (sg : bool) n x : 1 <= n <= (if sg then 64 else 63) -> fits sg n x = true -> - 2 ^ 63 <= x < 2 ^ 63 /\ (sg = false -> 0 <= x < 2 ^ n).
Proof.
  intros Hn. unfold fits, int_min, int_max. intros [H1%Z.leb_le H2%Z.leb_le]%andb_true_iff. destruct sg.
  - assert (2 ^ (n - 1) <= 2 ^ 63) by (apply Z.pow_le_mono_r; lia). split; [lia|done].
  - assert (2 ^ n <= 2 ^ 63) by (apply Z.pow_le_mono_r; lia). split; [lia|]. intros _. lia.
Qed.

Lemma checked_cases sg n ow hi1 hi2 x r : checked sg n ow hi1 x r -> (fits sg n x = false -> hi1 = hi2) ->
  fits sg n x = true /\ r = (0, None) \/ fits sg n x = false /\ exists ov, ov <> 0 /\ r = (ov, limit sg n ow hi2 x).
Proof.
  unfold checked. intros H Hh. destruct (fits _ _ x); [by left|right]. rewrite (Hh eq_refl) in H. destruct r as [ov w], H as [H1 H2]. cbn in *. subst w. split; [done|]. by exists ov.
Qed.

Definition written (op : bitfieldOp) (s : bytes) (out : res (bytes * option Z * bool)) : Prop :=
  let '(l, r) := field_op op (bits_of s) in
  exists s' ch, out = Ok (s', r, ch) /\ is_bytes s' /\ alen s' = alen s /\ bits_of s' = l /\ (ch = false -> s' = s).

(** Storing [nv] and answering [ret]. *)
Lemma store_field_spec op s (old nv ret : Z) : is_bytes s -> 1 <= bits op <= 64 -> 0 <= offset op -> offset op + bits op <= 8 * alen s -> 8 * alen s < 2 ^ 64 ->
  old = decode (sign op) (bits op) (field (bits_of s) (offset op) (bits op)) ->
  forall f, f = setSignedBitfield \/ f = setUnsignedBitfield ->
  exists s', (s' ← f s (offset op) (bits op) nv; Ok (s', Some ret, negb (old =? nv))) = Ok (s', Some ret, negb (old =? nv)) /\ is_bytes s' /\ alen s' = alen s /\
    bits_of s' = splice (bits_of s) (offset op) (int_bits (bits op) nv) /\ (negb (old =? nv) = false -> s' = s).
Proof.
  intros Hs Hb H0 Hl H64 Hold f Hf.
  assert (exists s', f s (offset op) (bits op) nv = Ok s' /\ is_bytes s' /\ alen s' = alen s /\ bits_of s' = splice (bits_of s) (offset op) (int_bits (bits op) nv)) as (s' & E & B & L & S)
    by (destruct Hf as [-> | ->]; [apply setSignedBitfield_spec|apply setUnsignedBitfield_spec]; done || lia).
  exists s'. rewrite E. split; [done|]. split; [done|]. split; [done|]. split; [done|]. intros Hc. apply bits_of_inj; try done. rewrite S.
  destruct (Z.eqb_spec old nv) as [E'|]; [|done]. rewrite <- E', Hold. unfold decode. rewrite int_bits_wrap by lia.
  pose proof (int_bits_unsigned (field (bits_of s) (offset op) (bits op))) as Hu. unfold alen in Hu at 1. rewrite length_bit_field, Z2Nat.id in Hu by (rewrite ?alen_bits_of; lia). rewrite Hu.
  apply splice_same; rewrite ?alen_bits_of; lia.
Qed.

(** The limits of the code are those that OVERFLOW asks for. *)
Lemma limit_overflowed sg n ow high x : 1 <= n -> fits sg n x = false -> (ow = BFOVERFLOW_SAT -> high = (int_max sg n <? x)) ->
  limit sg n ow high x = overflowed sg n ow x.
Proof.
  intros Hn Hf Hh. destruct ow; [done| |done]. cbn. rewrite (Hh eq_refl). f_equal.
  assert (int_min sg n <= int_max sg n) by (pose proof (Z.pow_pos_nonneg 2 (n - 1)); pose proof (Z.pow_pos_nonneg 2 n); unfold int_min, int_max; destruct sg; lia).
  unfold fits in Hf. apply andb_false_iff in Hf. rewrite !Z.leb_gt in Hf. destruct (Z.ltb_spec (int_max sg n) x); lia.
Qed.

Lemma signed_set_high op : sat_ok op -> opcode op = BITFIELDOP_SET -> sign op = true -> owtype op = BFOVERFLOW_SAT ->
  set_high (bits op) (arg64 op) = (int_max true (bits op) <? arg64 op).
Proof.
  intros H Ho Hs Hw. specialize (H Ho Hw). rewrite Hs in H. unfold set_high. destruct H as [->|H]; [by rewrite orb_false_r|].
  by rewrite (proj2 (Z.leb_gt _ _)), andb_false_r, orb_false_r.
Qed.

(** A value for an unsigned field, as the code sees it. *)
Lemma unsigned_set op : 1 <= bits op <= 63 -> - 2 ^ 63 <= arg64 op < 2 ^ 63 ->
  fits false (bits op) (u64 (arg64 op)) = fits false (bits op) (arg64 op) /\ (fits false (bits op) (arg64 op) = true -> u64 (arg64 op) = arg64 op) /\
  (fits false (bits op) (arg64 op) = false -> opcode op = BITFIELDOP_SET -> sat_ok op -> sign op = false ->
   limit false (bits op) (owtype op) (2 ^ bits op - 1 <? u64 (arg64 op)) (u64 (arg64 op)) = overflowed false (bits op) (owtype op) (arg64 op)).
Proof.
  intros Hn Ha. assert (2 ^ bits op <= 2 ^ 63) as Hp by (apply Z.pow_le_mono_r; lia). assert (0 < 2 ^ bits op) as Hp0 by (apply Z.pow_pos_nonneg; lia).
  destruct (Z.lt_ge_cases (arg64 op) 0) as [Hneg|Hpos].
  - assert (u64 (arg64 op) = arg64 op + 2 ^ 64) as Hu.
    { unfold wrap. rewrite <- (Z.mod_add (arg64 op) 1 (2 ^ 64)) by lia. apply Z.mod_small. mach. }
    assert (fits false (bits op) (arg64 op) = false) as Hf by (unfold fits, int_min; by rewrite (proj2 (Z.leb_gt 0 _))). rewrite Hf, Hu. split; [|split; [done|]].
    + unfold fits, int_max. rewrite (proj2 (Z.leb_gt _ (2 ^ bits op - 1))) by mach. by rewrite andb_false_r.
    + intros _ Ho Hs Hsg. destruct (owtype op) eqn:Ew; [| |done].
      * cbn. f_equal. rewrite <- Hu. unfold wrap. by rewrite mod_mod_pow by lia.
      * specialize (Hs Ho Ew). rewrite Hsg in Hs. lia.
  - rewrite wrap_small by mach. split; [done|]. split; [done|]. intros Hf _ _ _. apply limit_overflowed; [lia|done|done].
Qed.

(** Refused, or stored. *)
Ltac refuse := eexists _, false; split; [reflexivity|]; split; [assumption|]; split; [reflexivity|]; split; reflexivity.
Ltac store Hst nv ret f := destruct (Hst nv ret f ltac:(by (left + right))) as (s' & E & S1 & S2 & S3 & S4); exists s'; eexists; split; [exact E|]; done.

Lemma exec_write_spec junk hi op s : op_ok hi op -> sat_ok op -> opcode op <> BITFIELDOP_GET -> hi < 8 * alen s -> 8 * alen s < 2 ^ 64 -> is_bytes s -> written op s (exec_write junk op s).
Proof.
  intros [H1 H2 H3 H4] Hsat Hg Hhi H64 Hs. specialize (H4 Hg). assert (opcode op <> BITFIELDOP_INCRBY -> opcode op = BITFIELDOP_SET) as Hset by (by destruct (opcode op)). unfold written, field_op. rewrite (decide_False (P := opcode op = BITFIELDOP_GET)) by done.
  rewrite read_inside by (rewrite ?alen_bits_of; destruct (sign op); lia).
  pose proof (fun nv ret => store_field_spec op s _ nv ret Hs ltac:(destruct (sign op); lia) ltac:(lia) ltac:(lia) H64 eq_refl) as Hst.
  pose proof (decode_fits (sign op) (bits op) (field (bits_of s) (offset op) (bits op)) ltac:(lia)) as Hof.
  pose proof (fits_range (sign op) (bits op) _ H1 Hof) as [Hor Hou].
  unfold exec_write, new_value. destruct (sign op) eqn:Esg.
  - rewrite getSignedBitfield_spec by (done || lia). cbn [mbind res_bind]. set (old := decode _ _ _) in *.
    destruct (decide (opcode op = BITFIELDOP_INCRBY)) as [Ei|Ei].
    + destruct (checked_cases _ _ _ _ (int_max true (bits op) <? old + arg64 op) _ _ (checkSigned_spec old (arg64 op) (bits op) H1 Hor H3 (or_introl Hof) (owtype op))) as [[Hf Hr]|(Hf & ov & Hov & Hr)].
      * intros Hn. unfold high. destruct (Z.eqb_spec (arg64 op) 0) as [E0|]; [|done]. rewrite E0, Z.add_0_r in Hn. congruence.
      * rewrite Hr, Hf. cbn [Z.eqb negb andb]. destruct (fits_range true (bits op) _ H1 Hf) as [Hx _]. rewrite i64_in_range by done. store Hst (old + arg64 op) (old + arg64 op) setSignedBitfield.
      * rewrite limit_overflowed in Hr by (done || lia). rewrite Hr, Hf, (proj2 (Z.eqb_neq ov 0)) by done. unfold overflowed. destruct (owtype op); cbn [negb andb default id]; [|..|refuse].
        -- store Hst (int_wrap true (bits op) (old + arg64 op)) (int_wrap true (bits op) (old + arg64 op)) setSignedBitfield.
        -- set (v := Z.max _ _). store Hst v v setSignedBitfield.
    + destruct (checked_cases _ _ _ _ (set_high (bits op) (arg64 op)) _ _ (checkSigned_spec (arg64 op) 0 (bits op) H1 H3 ltac:(lia) (or_intror eq_refl) (owtype op))) as [[Hf Hr]|(Hf & ov & Hov & Hr)]; [done|..]; rewrite Z.add_0_r in *.
      * rewrite Hr, Hf. cbn [Z.eqb negb andb]. store Hst (arg64 op) old setSignedBitfield.
      * rewrite limit_overflowed in Hr by (done || lia || (intros; apply signed_set_high; auto)).
        rewrite Hr, Hf, (proj2 (Z.eqb_neq ov 0)) by done. unfold overflowed. destruct (owtype op); cbn [negb andb default id]; [|..|refuse].
        -- store Hst (int_wrap true (bits op) (arg64 op)) old setSignedBitfield.
        -- set (v := Z.max _ _). store Hst v old setSignedBitfield.
  - specialize (Hou eq_refl). rewrite getUnsignedBitfield_spec by (done || lia). cbn [mbind res_bind]. set (old := decode _ _ _) in *.
    destruct (decide (opcode op = BITFIELDOP_INCRBY)) as [Ei|Ei].
    + destruct (checked_cases _ _ _ _ _ _ _ (checkUnsigned_spec old (arg64 op) (bits op) (owtype op) H1 ltac:(unfold in_u; mach) H3 (or_introl (proj2 Hou))) (fun _ => eq_refl)) as [[Hf Hr]|(Hf & ov & Hov & Hr)].
      * rewrite Hr, Hf. cbn [Z.eqb negb andb]. destruct (fits_range false (bits op) _ H1 Hf) as [Hx Hx']. specialize (Hx' eq_refl). rewrite wrap_small by mach. rewrite i64_in_range by done. store Hst (old + arg64 op) (old + arg64 op) setUnsignedBitfield.
      * rewrite limit_overflowed in Hr by (done || lia). rewrite Hr, Hf, (proj2 (Z.eqb_neq ov 0)) by done. unfold overflowed. destruct (owtype op); cbn [negb andb default id]; [|..|refuse].
        -- set (v := int_wrap false _ _). assert (i64 v = v) as -> by (apply i64_in_range; pose proof (wrap_range (bits op) (old + arg64 op) ltac:(lia)) as Hw; assert (2 ^ bits op <= 2 ^ 63) by (apply Z.pow_le_mono_r; lia); unfold v, in_u in *; cbn [int_wrap]; lia).
           store Hst v v setUnsignedBitfield.
        -- set (v := Z.max _ _). assert (i64 v = v) as -> by (apply i64_in_range; assert (0 < 2 ^ bits op <= 2 ^ 63) by (split; [apply Z.pow_pos_nonneg; lia|apply Z.pow_le_mono_r; lia]); unfold v, int_max, int_min; lia).
           store Hst v v setUnsignedBitfield.
    + assert (i64 old = old) as Hio by (by apply i64_in_range). destruct (unsigned_set op H1 H3) as (F1 & F2 & F3).
      destruct (checked_cases _ _ _ _ _ _ _ (checkUnsigned_spec (u64 (arg64 op)) 0 (bits op) (owtype op) H1 ltac:(apply wrap_range; lia) ltac:(lia) (or_intror eq_refl)) (fun _ => eq_refl)) as [[Hf Hr]|(Hf & ov & Hov & Hr)]; rewrite Z.add_0_r, F1 in *.
      * rewrite Hr, Hf, Hio, (F2 Hf). cbn [Z.eqb negb andb]. store Hst (arg64 op) old setUnsignedBitfield.
      * rewrite F3 in Hr by auto. rewrite Hr, Hf, Hio, (proj2 (Z.eqb_neq ov 0)) by done. unfold overflowed. destruct (owtype op); cbn [negb andb default id]; [|..|refuse].
        -- store Hst (int_wrap false (bits op) (arg64 op)) old setUnsignedBitfield.
        -- set (v := Z.max _ _). store Hst v old setUnsignedBitfield.
Qed.

Lemma exec_ops_spec junk hi grown ops s replies ch : Forall (op_ok hi) ops -> Forall sat_ok ops -> Forall (fun op => opcode op = BITFIELDOP_GET) ops \/ hi < 8 * alen s /\ 8 * alen s < 2 ^ 64 -> is_bytes s ->
  let '(l, rs) := field_ops ops (bits_of s) in
  exists s' ch', exec_ops junk grown ops s replies ch = Ok (s', replies ++ rs, ch') /\ is_bytes s' /\ alen s' = alen s /\ bits_of s' = l /\ ch <= ch' /\ (ch' = ch -> s' = s).
Proof.
  intros Hok Hsat. revert Hok s replies ch. induction Hsat as [|op ops Hsa Hsat IH]; intros Hok s replies ch Hg Hs.
  - cbn. exists s, ch. rewrite app_nil_r. split; [done|]. split; [done|]. split; [done|]. split; [done|]. split; [lia|done].
  - apply Forall_cons in Hok as [Ho Hok]. specialize (IH Hok). cbn [field_ops exec_ops]. destruct (decide (opcode op = BITFIELDOP_GET)) as [Eg|Eg].
    + rewrite (exec_get_spec hi) by done. cbn [mbind res_bind]. unfold field_op. rewrite decide_True by done.
      set (v := Some (decode _ _ _)). assert (Forall (fun op => opcode op = BITFIELDOP_GET) ops \/ hi < 8 * alen s /\ 8 * alen s < 2 ^ 64) as Hg'.
      { destruct Hg as [Hg|Hg]; [left|by right]. by apply Forall_cons in Hg as [_ Hg]. }
      specialize (IH s (replies ++ [v]) ch Hg' Hs). destruct (field_ops ops (bits_of s)) as [l rs]. destruct IH as (s' & ch' & E & H). exists s', ch'. rewrite E, <- app_assoc. done.
    + destruct Hg as [Hg|[Hhi H64]]; [by apply Forall_cons in Hg as [Hg _]|]. pose proof (exec_write_spec junk hi op s Ho Hsa Eg Hhi H64 Hs) as Hw. unfold written in Hw.
      destruct (field_op op (bits_of s)) as [l1 r] eqn:Ef. destruct Hw as (s1 & c1 & -> & B1 & L1 & S1 & C1). cbn [mbind res_bind].
      set (d := if _ && (grown || c1) then 1 else 0). assert (0 <= d /\ (d = 0 -> s1 = s)) as [Hd Hd'].
      { unfold d. destruct (bool_decide (r <> None)) eqn:Er; cbn [andb].
        - destruct grown, c1; cbn [orb]; (split; [lia|]); intros ?; lia || by apply C1.
        - split; [lia|]. intros _. apply bool_decide_eq_false in Er. destruct r as [x|]; [by destruct Er|].
          revert Ef. unfold field_op. rewrite decide_False by done. destruct (new_value _ _); [done|]. intros [= <-]. by apply bits_of_inj. }
      specialize (IH s1 (replies ++ [r]) (ch + d) ltac:(right; lia) B1). rewrite S1 in IH. destruct (field_ops ops l1) as [l rs].
      destruct IH as (s' & ch' & E & H1 & H2 & H3 & H4 & H5). exists s', ch'. rewrite E, <- app_assoc. split; [done|]. split; [done|]. split; [lia|]. split; [done|]. split; [lia|].
      intros Hch. rewrite H5 by lia. apply Hd'. lia.
Qed.

(** *** The parser *)
Lemma string2ll_range s v : string2llScalar s = Some v -> - 2 ^ 63 <= v < 2 ^ 63.
Proof. rewrite scalar_is_ref. intros H. apply parse_ref_inv in H as [_ H]. exact H. Qed.

Lemma offset_range sv p hash n o : getBitOffsetFromArgument sv p hash n = Some o -> 0 <= o < 2 ^ 63.
Proof.
  unfold getBitOffsetFromArgument. set (h := _ && _ && _). clearbody h. destruct (string2llScalar _) as [v|] eqn:E; cbn [mbind option_bind]; [|done]. apply string2ll_range in E.
  destruct (Z.ltb_spec (if h then i64 (v * n) else v) 0) as [|H0]; [done|]. cbn [orb]. destruct (_ && _); [done|]. intros [= <-].
  split; [done|]. destruct h; [|lia]. apply (swrap_range 64). lia.
Qed.

Lemma type_range p sg n : getBitfieldTypeFromArgument p = Some (sg, n) -> 1 <= n <= (if sg then 64 else 63).
Proof.
  unfold getBitfieldTypeFromArgument. destruct (if _ =? 105 then _ else _) as [sg'|]; cbn [mbind option_bind]; [|done]. destruct (string2llScalar _) as [v|]; cbn [mbind option_bind]; [|done].
  destruct (_ || _) eqn:E; [done|]. intros [= <- <-]. cmp_prop. destruct sg'; cbn [negb andb] in *; cmp_prop; lia.
Qed.

Record parsed (ops : list bitfieldOp) (readonly : bool) (highest : Z) : Prop := {
  pa_ok : Forall (op_ok highest) ops;
  pa_highest : 0 <= highest < 2 ^ 63 + 64;
  pa_readonly : readonly = true -> Forall (fun op => opcode op = BITFIELDOP_GET) ops }.

Lemma op_ok_mono hi hi' op : hi <= hi' -> op_ok hi op -> op_ok hi' op.
Proof. intros H [H1 H2 H3 H4]. split; try done. intros Hg. specialize (H4 Hg). lia. Qed.

Lemma parsed_get ops ro hi o ow n sg : parsed ops ro hi -> 0 <= o < 2 ^ 63 -> 1 <= n <= (if sg : bool then 64 else 63) -> parsed (ops ++ [mkOp o 0 BITFIELDOP_GET ow n sg]) ro hi.
Proof.
  intros [P1 P2 P3] Ho Hn. split; [|done|].
  - apply Forall_app. split; [done|]. constructor; [|done]. by split.
  - intros Hr. apply Forall_app. split; [by apply P3|]. by constructor.
Qed.

Lemma parsed_write ops ro hi o v code ow n sg : parsed ops ro hi -> 0 <= o < 2 ^ 63 -> 1 <= n <= (if sg : bool then 64 else 63) -> - 2 ^ 63 <= v < 2 ^ 63 ->
  let last := o +64 n -64 1 in parsed (ops ++ [mkOp o v code ow n sg]) false (if hi <? last then last else hi).
Proof.
  intros [P1 P2 P3] Ho Hn Hv. cbv zeta. assert (n <= 64) by (destruct sg; lia). rewrite (wrap_small 64 (o + n)), (wrap_small 64 (o + n - 1)) by mach.
  set (hi' := if _ <? _ then _ else _). assert (hi <= hi' /\ o + n - 1 <= hi' < 2 ^ 63 + 64) as [Hh Hh'] by (unfold hi'; destruct (Z.ltb_spec hi (o + n - 1)); lia).
  split; [|lia|done]. apply Forall_app. split; [eapply Forall_impl; [exact P1|]; intros op; by apply op_ok_mono|]. constructor; [|done]. split; cbn; try done. intros _. lia.
Qed.

Lemma parse_ops_spec sv args ow ro hi ops ops' ro' hi' : parsed ops ro hi -> parse_ops sv args ow ro hi ops = inr (ops', ro', hi') -> parsed ops' ro' hi'.
Proof.
  remember (length args) as n eqn:En. revert args En ow ro hi ops. induction n as [n IH] using (well_founded_induction lt_wf). intros args En ow ro hi ops Hp.
  destruct args as [|sub rest]; cbn [parse_ops]; [intros [= <- <- <-]; done|]. destruct rest as [|x rest]; [done|].
  assert ((match overflow_name x with Some ow => parse_ops sv rest ow ro hi ops | None => inl (RErr "ERR Invalid OVERFLOW type specified") end) = inr (ops', ro', hi') -> parsed ops' ro' hi') as Hov.
  { destruct (overflow_name x) as [ow'|]; [|done]. apply (IH (length rest)); [subst n; cbn; lia|done|done]. }
  destruct rest as [|off more]; [by destruct (is_word sub "overflow")|].
  destruct (is_word sub "get").
  { destruct (getBitfieldTypeFromArgument x) as [[sg m]|] eqn:Et; [|done]. destruct (getBitOffsetFromArgument sv off true m) as [o|] eqn:Eo; [|done].
    apply (IH (length more)); [subst n; cbn; lia|done|]. apply parsed_get; [done|by eapply offset_range|by eapply type_range]. }
  assert (forall code, match getBitfieldTypeFromArgument x with None => inl type_error | Some (sg, m) =>
    match getBitOffsetFromArgument sv off true m with None => inl offset_error | Some o =>
      match more with [] => inl syntaxerr | v :: more => match string2llScalar v with None => inl not_integer
        | Some v => parse_ops sv more ow false (if hi <? o +64 m -64 1 then o +64 m -64 1 else hi) (ops ++ [mkOp o v code ow m sg]) end end end end = inr (ops', ro', hi') -> parsed ops' ro' hi') as Hw.
  { intros code. destruct (getBitfieldTypeFromArgument x) as [[sg m]|] eqn:Et; [|done]. destruct (getBitOffsetFromArgument sv off true m) as [o|] eqn:Eo; [|done].
    destruct more as [|v more]; [done|]. destruct (string2llScalar v) as [w|] eqn:Ew; [|done]. apply (IH (length more)); [subst n; cbn; lia|done|].
    eapply parsed_write; [exact Hp|by eapply offset_range|by eapply type_range|by eapply string2ll_range]. }
  destruct (is_word sub "set" && (1 <=? alen more)); [apply Hw|]. destruct (is_word sub "incrby" && (1 <=? alen more)); [apply Hw|]. by destruct (is_word sub "overflow").
Qed.

Lemma grow_bytes p n : is_bytes p -> is_bytes (growzero p n).
Proof. intros H. apply Forall_app. split; [done|]. apply Forall_replicate. mach. Qed.

Lemma alen_grow p n : alen (growzero p n) = Z.max (alen p) n.
Proof. unfold growzero, alen. rewrite length_app, length_replicate. lia. Qed.

(** The string under the key, grown. *)
Lemma lookup_grown st key p maxbit : holds st key p -> let s := growzero p (Z.shiftr maxbit 3 + 1) in
  exists g, lookupStringForBitCommand st key maxbit = Some (put st key s, s, g) /\ (g = false -> s = p /\ keys st !! key <> None).
Proof.
  intros Hh. cbv zeta. unfold holds, lookupStringForBitCommand in *. destruct (keys st !! key) as [[s|v|]|]; cbn [getObjectReadOnlyString] in Hh; try done; subst p.
  1, 2: eexists; split; [done|]; intros Hg; apply negb_false_iff, Z.eqb_eq in Hg; split; [|done]; unfold growzero, alen in *; rewrite length_app, length_replicate in Hg;
    (destruct (Z.to_nat _) eqn:E; [apply app_nil_r|lia]).
  exists true. split; [|done]. unfold growzero. change (alen []) with 0. rewrite Z.sub_0_r. done.
Qed.


(** ** SETBIT and GETBIT *)
Lemma bit_test b k : in_u 8 b -> 0 <= k -> (if Z.land b (Z.shiftl 1 k) =? 0 then 0 else 1) = if Z.testbit b k then 1 else 0.
Proof. intros Hb Hk. rewrite <- (bit_mask_spec b k Hk). by destruct (_ =? 0). Qed.

(** GETBIT answers the bit, zero after the end of the string. *)
Lemma getbit_correct sv st cmd key p a o : holds st key p -> is_bytes p -> getBitOffsetFromArgument sv a false 0 = Some o ->
  getbitCommand sv st [cmd; key; a] = Ok (RInt (if default false (bits_of p !! Z.to_nat o) then 1 else 0)).
Proof.
  intros Hh Hp Ha. pose proof (offset_range _ _ _ _ _ Ha) as Hr. unfold getbitCommand. args. rewrite Ha. unfold holds in Hh.
  assert (Z.shiftr o 3 = o / 8) as H8 by (rewrite Z.shiftr_div_pow2 by lia; done). pose proof (Z.div_mod o 8 ltac:(lia)) as Hd. pose proof (Z.mod_pos_bound o 8 ltac:(lia)) as Hm.
  assert (forall s, p = s -> (if Z.shiftr o 3 <? alen s then b ← ld s (Z.shiftr o 3); Ok (RInt (if Z.land b (Z.shiftl 1 (7 - Z.land o 7)) =? 0 then 0 else 1)) else Ok (RInt 0)) =
    Ok (RInt (if default false (bits_of p !! Z.to_nat o) then 1 else 0))) as Hgo.
  { intros s <-. destruct (Z.ltb_spec (Z.shiftr o 3) (alen p)) as [Hlt|Hge].
    - destruct (bits_at p o ltac:(lia)) as (b & Hb & Hi & Hk & ->). unfold ld. rewrite (proj2 (Z.ltb_ge _ 0)), Hb by lia. cbn [mbind res_bind default].
      assert (in_u 8 b) as Hb8 by (eapply Forall_lookup_1; [exact Hp|exact Hb]). by rewrite bit_test by (done || lia).
    - rewrite (lookup_ge_None_2 (bits_of p)); [done|]. rewrite length_bits_of. unfold alen in Hge. lia. }
  destruct (keys st !! key) as [[s|v|]|]; [by apply Hgo|by apply Hgo|done|]. cbn in Hh. subst p. done.
Qed.

Lemma zero_bits n : Forall (fun x => x = false) (bits_of (replicate n 0)).
Proof. induction n as [|n IH]; [constructor|]. cbn [replicate]. rewrite bits_of_cons. apply Forall_app. split; [by repeat constructor|done]. Qed.

(** SETBIT answers the old bit and sets it in the string, which it makes long
    enough; it propagates what it changes. *)
Theorem setbit_correct sv st cmd key p a v o n : holds st key p -> is_bytes p -> getBitOffsetFromArgument sv a false 0 = Some o -> string2llScalar v = Some n -> n = 0 \/ n = 1 ->
  let s0 := growzero p (Z.shiftr o 3 + 1) in
  exists s st', setbitCommand sv st [cmd; key; a; v] = Ok (st', RInt (if default false (bits_of p !! Z.to_nat o) then 1 else 0)) /\
    is_bytes s /\ bits_of s = <[Z.to_nat o := n =? 1]> (bits_of s0) /\ keys st' = <[key := ORaw s]> (keys st) /\ (touched st' = touched st -> s = p).
Proof.
  intros Hh Hp Ha Hv Hn. cbv zeta. pose proof (offset_range _ _ _ _ _ Ha) as Hr. unfold setbitCommand. args. rewrite Ha, Hv.
  assert (negb (Z.land n (Z.lnot 1) =? 0) = false) as -> by (by destruct Hn as [-> | ->]).
  destruct (lookup_grown st key p o Hh) as (g & -> & Hg). set (s0 := growzero p (Z.shiftr o 3 + 1)) in *. pose proof (grow_bytes p (Z.shiftr o 3 + 1) Hp) as Hs0. fold s0 in Hs0.
  assert (Z.shiftr o 3 = o / 8) as H8 by (rewrite Z.shiftr_div_pow2 by lia; done). pose proof (Z.div_mod o 8 ltac:(lia)) as Hd. pose proof (Z.mod_pos_bound o 8 ltac:(lia)) as Hm.
  assert (o < 8 * alen s0) as Hin by (unfold s0; rewrite alen_grow; lia). destruct (bits_at s0 o ltac:(lia)) as (b & Hb & Hi & Hk & Hbit).
  assert (default false (bits_of p !! Z.to_nat o) = Z.testbit b (7 - Z.land o 7)) as ->.
  { destruct (decide (Z.to_nat o < length (bits_of p))%nat) as [Hlt|Hge].
    - unfold s0, growzero in Hbit. rewrite bits_of_app, lookup_app_l in Hbit by done. by rewrite Hbit.
    - rewrite (lookup_ge_None_2 (bits_of p)) by lia. unfold s0, growzero in Hbit. rewrite bits_of_app, lookup_app_r in Hbit by lia. cbn [default].
      pose proof (zero_bits (Z.to_nat (Z.shiftr o 3 + 1 - alen p))) as Hz. rewrite Forall_lookup in Hz. by rewrite (Hz _ _ Hbit). }
  assert (in_u 8 b) as Hb8 by (eapply Forall_lookup_1; [exact Hs0|exact Hb]).
  unfold ld. rewrite (proj2 (Z.ltb_ge _ 0)), Hb by lia. cbn [mbind res_bind]. rewrite bit_test by (done || lia). set (x := Z.testbit b (7 - Z.land o 7)) in *.
  destruct (set_bit_byte b (7 - Z.land o 7) (n =? 1) Hb8 Hk) as [Hr8 Hrb]. cbn zeta in Hr8, Hrb.
  assert (u8 (Z.lor (Z.land b (Z.lnot (Z.shiftl 1 (7 - Z.land o 7)))) (Z.shiftl (Z.land n 1) (7 - Z.land o 7))) =
    Z.land (Z.lor (Z.land b (Z.lnot (Z.shiftl 1 (7 - Z.land o 7)))) (Z.shiftl (if n =? 1 then 1 else 0) (7 - Z.land o 7))) 255) as ->.
  { change 255 with (Z.ones 8). rewrite Z.land_ones by lia. unfold wrap. do 3 f_equal. by destruct Hn as [-> | ->]. }
  set (b' := Z.land _ 255) in *.
  pose proof (bits_insert s0 _ b b' (Z.to_nat (7 - (7 - Z.land o 7))) (n =? 1) Hb ltac:(lia) (byte_bits b b' _ _ Hk Hrb)) as Hins.
  replace (8 * Z.to_nat (Z.shiftr o 3) + Z.to_nat (7 - (7 - Z.land o 7)))%nat with (Z.to_nat o) in Hins.
  2:{ assert (Z.land o 7 = o mod 8) as -> by (apply (Z.land_ones o 3); lia). lia. }
  destruct (g || _) eqn:Eg.
  - destruct (st_replaced s0 (Z.shiftr o 3) [b'] Hs0 ltac:(by constructor) ltac:(lia) ltac:(change (alen [b']) with 1; lia)) as (s & E & R). rewrite E. cbn [mbind res_bind].
    assert (s = <[Z.to_nat (Z.shiftr o 3) := b']> s0) as ->.
    { unfold ByteMem.st in E. revert E. destruct (_ && _); [|done]. intros [= <-]. rewrite insert_take_drop by (unfold alen in Hi; lia). cbn [app]. do 3 f_equal. change (alen [b']) with 1. lia. }
    eexists _, _. split; [done|]. split; [apply R|]. split; [done|]. cbn [keys touched signal put]. split; [by rewrite insert_insert_eq|].
    intros Ht. apply (f_equal length) in Ht. rewrite length_app in Ht. cbn in Ht. lia.
  - apply orb_false_iff in Eg as [-> Eg]. destruct (Hg eq_refl) as [E0 _]. eexists _, _. split; [done|]. split; [exact Hs0|]. split; [|split; [done|]]; [|done].
    symmetry. apply list_insert_id. rewrite Hbit. f_equal. apply negb_false_iff, Z.eqb_eq in Eg. by destruct x, Hn as [-> | ->].
Qed.

(** ** Traces *)
Definition word (s : string) : bytes := bytes_of s.
Definition sv0 : Server := mkServer (512 * 1024 * 1024) false Scalar 0 4.
Definition foobar : State := mkState {[ word "k" := ORaw (word "foobar") ]} 0 [].
Definition run_bitfield (st : State) (args : list string) : option (State * Reply) := match bitfieldCommand sv0 0 st (word <$> args) with Ok r => Some r | _ => None end.

(** A refused write of a new key creates it, and nothing propagates it. *)
Theorem bitfield_fail_creates_key : exists st', run_bitfield foobar ["bitfield"; "n"; "overflow"; "fail"; "set"; "u8"; "0"; "300"]%string = Some (st', RArray [None]) /\
  keys foobar !! word "n" = None /\ keys st' !! word "n" = Some (ORaw [0]) /\ dirty st' = dirty foobar /\ touched st' = [].
Proof. eexists. split; [vm_compute; reflexivity|]. vm_compute. done. Qed.

(** SET with saturation goes the wrong way: a negative value of an unsigned
    field is stored as its maximum, and so is the least 64-bit integer in a
    field of 8 signed bits. *)
Theorem bitfield_saturates_high :
  option_map snd (run_bitfield foobar ["bitfield"; "k"; "overflow"; "sat"; "set"; "u8"; "0"; "-1"; "get"; "u8"; "0"]%string) = Some (RArray [Some 102; Some 255]) /\
  option_map snd (run_bitfield foobar ["bitfield"; "k"; "overflow"; "sat"; "set"; "i8"; "0"; "-9223372036854775808"; "get"; "i8"; "0"]%string) = Some (RArray [Some 102; Some 127]).
Proof. split; vm_compute; reflexivity. Qed.

(** An empty range from the end: BITCOUNT finds nothing in it, BITPOS looks at
    the first byte. *)
Theorem bitpos_empty_range :
  bitcountCommand sv0 foobar (word <$> ["bitcount"; "k"; "-1000"; "-2000"]%string) = Ok (RInt 0) /\
  bitposCommand sv0 foobar (word <$> ["bitpos"; "k"; "1"; "-1000"; "-2000"]%string) = Ok (RInt 1).
Proof. split; vm_compute; reflexivity. Qed.

(** The product of an offset with # and the width may pass 2^63: the code
    multiplies before it checks. *)
Theorem hash_offset_wraps : getBitOffsetFromArgument sv0 (word "#4611686018427387904") true 4 = Some 0 /\ 4611686018427387904 * 4 = 2 ^ 64.
Proof. split; vm_compute; reflexivity. Qed.

(** With SVE2 a string of 2^32 bytes has no bits. *)
Theorem sve2_counts_nothing vl s : 0 < vl -> alen s = 2 ^ 32 -> serverPopcount (Sve2 vl) 0 s = Ok 0.
Proof.
  intros Hv Hl. cbn [serverPopcount]. rewrite (proj2 (Z.leb_le 16 (alen s))) by mach. unfold popcountSVE2. apply sve_loop_empty; [done|lia| |].
  - by rewrite Hl.
  - unfold alen. lia.
Qed.

(** ** Witnesses *)
Lemma foobar_holds : holds foobar (word "k") (word "foobar").
Proof. reflexivity. Qed.

Lemma foobar_bytes : is_bytes (word "foobar").
Proof.
  change (word "foobar") with [102; 111; 111; 98; 97; 114].
  repeat (apply Forall_cons; split; [split; [discriminate|reflexivity]|]). constructor.
Qed.

Definition sv_avx : Server := mkServer (512 * 1024 * 1024) false Avx2 0 4.

Lemma bitcount_correct_witness : bitcountCommand sv_avx foobar (word <$> ["bitcount"; "k"; "5"; "30"; "BIT"]%string) = Ok (RInt 17) /\ count_in true (word "foobar") 5 30 = 17.
Proof.
  split; [|vm_compute; reflexivity].
  destruct (bitcount_correct sv_avx foobar (word "bitcount") (word "k") (word "foobar") foobar_holds foobar_bytes ltac:(split; vm_compute; reflexivity)) as (_ & _ & _ & H).
  exact (H (word "5") (word "30") (word "BIT") 5 30 true ltac:(vm_compute; reflexivity) ltac:(vm_compute; reflexivity) ltac:(vm_compute; reflexivity)).
Defined.

Lemma bitpos_correct_witness : bitposCommand sv0 foobar (word <$> ["bitpos"; "k"; "1"; "3"; "-1"; "bit"]%string) = Ok (RInt 5) /\ position_in true true true (word "foobar") 3 (- 1) = 5.
Proof.
  split; [|vm_compute; reflexivity].
  destruct (bitpos_correct sv0 foobar (word "bitpos") (word "k") (word "foobar") (word "1") 1 foobar_holds foobar_bytes ltac:(vm_compute; reflexivity) ltac:(vm_compute; reflexivity) (or_intror eq_refl)) as (_ & _ & _ & H & _).
  exact (H (word "3") (word "-1") (word "bit") 3 (- 1) true ltac:(vm_compute; reflexivity) ltac:(vm_compute; reflexivity) ltac:(vm_compute; reflexivity) eq_refl).
Defined.

Lemma bitop_correct_witness : exists st', bitopCommand foobar (word <$> ["bitop"; "XOR"; "d"; "k"; "none"]%string) = Ok (st', RInt 6) /\ keys st' !! word "d" = Some (ORaw (word "foobar")).
Proof.
  eexists. split.
  - apply (bitop_correct foobar (word "bitop") (word "XOR") (word "d") [word "k"; word "none"] [word "foobar"; []] BITOP_XOR).
    + vm_compute. reflexivity.
    + repeat constructor; vm_compute; reflexivity.
    + constructor; [apply foobar_bytes|repeat constructor].
    + discriminate.
    + discriminate.
  - vm_compute. reflexivity.
Defined.

Definition field_args : list bytes := word <$> ["incrby"; "u2"; "46"; "3"; "overflow"; "sat"; "set"; "i8"; "0"; "-200"; "get"; "u8"; "40"]%string.

