(* ===== verification/Flash.v ===== *)
(** * The flash tier (src/src/flash/flash.c, flash.h)

    An append-only file of records and an index in memory that maps the hash
    of a key to the offset of its record.  The file is a list of bytes;
    [pwrite] and [pread] take what the kernel answers as an argument, and a
    read that leaves a variable unset is [None].  [index] lists the entries of
    the index in use, so [index_count] is its length; [co_graph] likewise.
    The last sections prove that the tier refines a finite map and what the
    prefetch hands over. *)
From S2P Require Import Prelude.

(** ** The file *)
Definition slice (f : bytes) (off n : Z) : bytes := take (Z.to_nat n) (drop (Z.to_nat off) f).

(** A write past the end fills the hole with zeros. *)
Definition write_at (f : bytes) (off : Z) (b : bytes) : bytes :=
  take (Z.to_nat off) (f ++ calloc (off - alen f) 0) ++ b ++ drop (Z.to_nat (off + alen b)) f.

(** [ans] is the kernel's answer: negative is an error, otherwise so many
    bytes are written.  A negative offset is an error. *)
Definition pwrite (ans : Z) (f b : bytes) (offset : Z) : bytes * Z :=
  let off := i64 offset in
  if (ans <? 0) || (off <? 0) then (f, - 1)
  else let n := Z.min ans (alen b) in
  if n =? 0 then (f, 0) else (write_at f off (take (Z.to_nat n) b), n).

(** The bytes read, fewer at the end of the file. *)
Definition pread (ok : bool) (f : bytes) (n offset : Z) : option bytes :=
  let off := i64 offset in
  if negb ok || (off <? 0) then None else Some (slice f off n).

(** ** Data *)
Definition FLASH_HEAT_COLD_THRESH : Z := 15.
Definition FLASH_HEAT_HOT_THRESH : Z := 200.
Definition FLASH_CO_ACCESS_MAX : Z := 1024.

(** [FlashRecord]: eight bytes, three times four, one byte and the padding. *)
Record FlashRecord := mkHdr { key_hash : Z; key_len : Z; value_len : Z; expire_unix : Z; compressed : Z; pad : bytes }.
Definition SIZEOF_HDR : Z := 24.
Definition hdr_bytes (h : FlashRecord) : bytes :=
  le_bytes 8 (key_hash h) ++ le_bytes 4 (key_len h) ++ le_bytes 4 (value_len h) ++ le_bytes 4 (expire_unix h) ++ [compressed h] ++ pad h.
Definition hdr_of (b : bytes) : FlashRecord :=
  mkHdr (le_val (slice b 0 8)) (le_val (slice b 8 4)) (le_val (slice b 12 4)) (le_val (slice b 16 4)) (aget b 20) (slice b 21 3).

Record FlashIndex := mkIdx { i_hash : Z; file_offset : Z; record_size : Z; heat : Z }.
#[export] Instance FlashIndex_inhabited : Inhabited FlashIndex := populate (mkIdx 0 0 0 0).

(** [probability] is not a field: it is the quotient of the two counters next
    to it whenever it is written. *)
Record CoAccessEdge := mkEdge { key_hash_a : Z; key_hash_b : Z; co_access_count : Z; total_a_count : Z }.
#[export] Instance CoAccessEdge_inhabited : Inhabited CoAccessEdge := populate (mkEdge 0 0 0 0).

Record FlashStats := mkStats { reads : Z; writes : Z; evictions : Z; promotions : Z; prefetches : Z; prefetch_hits : Z;
  bytes_written : Z; bytes_read : Z; cooling_ops : Z }.
Record FlashConfig := mkConfig { max_size_bytes : Z; prefetch_enabled : bool; cooling_interval_ms : Z;
  heat_cold_thresh : Z; heat_hot_thresh : Z }.
Record FlashStorage := mkFlash { config : FlashConfig; file : bytes; index : list FlashIndex; index_cap : Z;
  co_graph : list CoAccessEdge; co_cap : Z; stats : FlashStats; file_size : Z; write_offset : Z }.

Definition flash_create (cfg : FlashConfig) (contents : bytes) : FlashStorage :=
  let or_default x d := if x =? 0 then d else x in
  mkFlash (mkConfig (max_size_bytes cfg) (prefetch_enabled cfg) (or_default (cooling_interval_ms cfg) 5000)
             (or_default (heat_cold_thresh cfg) FLASH_HEAT_COLD_THRESH) (or_default (heat_hot_thresh cfg) FLASH_HEAT_HOT_THRESH))
    contents [] 4096 [] FLASH_CO_ACCESS_MAX (mkStats 0 0 0 0 0 0 0 0 0) 0 0.

Definition set_index (fs : FlashStorage) (ix : list FlashIndex) : FlashStorage :=
  mkFlash (config fs) (file fs) ix (index_cap fs) (co_graph fs) (co_cap fs) (stats fs) (file_size fs) (write_offset fs).
Definition set_file (fs : FlashStorage) (f : bytes) : FlashStorage :=
  mkFlash (config fs) f (index fs) (index_cap fs) (co_graph fs) (co_cap fs) (stats fs) (file_size fs) (write_offset fs).
Definition set_stats (fs : FlashStorage) (st : FlashStats) : FlashStorage :=
  mkFlash (config fs) (file fs) (index fs) (index_cap fs) (co_graph fs) (co_cap fs) st (file_size fs) (write_offset fs).
Definition set_graph (fs : FlashStorage) (g : list CoAccessEdge) : FlashStorage :=
  mkFlash (config fs) (file fs) (index fs) (index_cap fs) g (co_cap fs) (stats fs) (file_size fs) (write_offset fs).

(** ** Operations *)
Definition count_write (vl : Z) (st : FlashStats) : FlashStats :=
  mkStats (reads st) (writes st +64 1) (evictions st +64 1) (promotions st) (prefetches st) (prefetch_hits st)
    (bytes_written st +64 vl) (bytes_read st) (cooling_ops st).
Definition count_read (vl : Z) (st : FlashStats) : FlashStats :=
  mkStats (reads st +64 1) (writes st) (evictions st) (promotions st) (prefetches st) (prefetch_hits st)
    (bytes_written st) (bytes_read st +64 vl) (cooling_ops st).

(** The array doubles when it is full; [realloc] may fail, and then the entry
    is left out.  [None]: the doubled capacity wraps to zero, and [realloc]
    frees the array that the storage keeps using. *)
Definition index_append (realloc_ok : bool) (ix : list FlashIndex) (cap : Z) (e : FlashIndex) : option (list FlashIndex * Z) :=
  if cap <=? alen ix then
    let nc := u32 (cap * 2) in
    if nc =? 0 then None
    else if realloc_ok then Some (if alen ix <? nc then ix ++ [e] else ix, nc) else Some (ix, cap)
  else Some (ix ++ [e], cap).

(** [w1], [w2] and [w3] answer the three writes. *)
Definition flash_write (w1 w2 w3 : Z) (realloc_ok : bool) (fs : FlashStorage) (kh : Z) (key value : bytes) (expire : Z)
    : option (FlashStorage * Z) :=
  let kl := alen key in
  let vl := alen value in
  if (0 <? max_size_bytes (config fs)) && (max_size_bytes (config fs) <? write_offset fs +64 SIZEOF_HDR +64 kl +64 vl)
  then Some (fs, - 1)
  else
    let offset := write_offset fs in
    let '(f, r) := pwrite w1 (file fs) (hdr_bytes (mkHdr kh kl vl expire 0 [0; 0; 0])) offset in
    if r <? 0 then Some (set_file fs f, - 1) else
    let '(f, r) := pwrite w2 f key (offset +64 SIZEOF_HDR) in
    if r <? 0 then Some (set_file fs f, - 1) else
    let '(f, r) := pwrite w3 f value (offset +64 SIZEOF_HDR +64 kl) in
    if r <? 0 then Some (set_file fs f, - 1) else
    let total_size := u32 (SIZEOF_HDR +64 kl +64 vl) in
    '(ix, cap) ← index_append realloc_ok (index fs) (index_cap fs) (mkIdx kh offset total_size (heat_cold_thresh (config fs)));
    Some (mkFlash (config fs) f ix cap (co_graph fs) (co_cap fs) (count_write vl (stats fs))
            (file_size fs +64 total_size) (write_offset fs +64 total_size), 0).

(** The first entry of a hash, by its position. *)
Definition find_entry (fs : FlashStorage) (kh : Z) : option Z :=
  find (fun i => i_hash (aget (index fs) i) =? kh) (seqZ 0 (alen (index fs))).

(** The last entry takes the place of the removed one. *)
Definition index_remove (fs : FlashStorage) (i : Z) : FlashStorage :=
  let n := alen (index fs) - 1 in
  set_index fs (take (Z.to_nat n) (aset (index fs) i (aget (index fs) n))).

(** The answer of a read: the code, the buffer and [*value_len_out] when it is set. *)
Record ReadOut := mkRead { rc : Z; buf : bytes; value_len_out : option Z }.

Definition read_miss (fs : FlashStorage) (b : bytes) : FlashStorage * ReadOut :=
  (set_stats fs (count_read 0 (stats fs)), mkRead (- 1) b None).

(** [r1] and [r2] say whether the two reads work; [None] when the header is
    not all in the file.  A short read of the value leaves the end of the
    buffer. *)
Definition flash_read (r1 r2 : bool) (now : Z) (fs : FlashStorage) (kh : Z) (value_buf : bytes) : option (FlashStorage * ReadOut) :=
  match find_entry fs kh with
  | None => Some (read_miss fs value_buf)
  | Some i =>
      let e := aget (index fs) i in
      match pread r1 (file fs) SIZEOF_HDR (file_offset e) with
      | None => Some (read_miss fs value_buf)
      | Some b =>
          if alen b <? SIZEOF_HDR then None else
          let hdr := hdr_of b in
          if (0 <? expire_unix hdr) && (expire_unix hdr <=? u32 now) then
            Some (index_remove fs i, mkRead (- 1) value_buf None)
          else if alen value_buf <? value_len hdr then Some (fs, mkRead (- 2) value_buf (Some (value_len hdr)))
          else
            match pread r2 (file fs) (value_len hdr) (file_offset e +64 SIZEOF_HDR +64 key_len hdr) with
            | None => Some (read_miss fs value_buf)
            | Some v =>
                let e' := if heat e <? 255 then mkIdx (i_hash e) (file_offset e) (record_size e) (heat e + 1) else e in
                Some (set_stats (set_index fs (aset (index fs) i e')) (count_read (value_len hdr) (stats fs)),
                      mkRead 0 (v ++ drop (length v) value_buf) (Some (value_len hdr)))
            end
      end
  end.

Definition flash_delete (fs : FlashStorage) (kh : Z) : FlashStorage * Z :=
  match find_entry fs kh with
  | Some i => (index_remove fs i, 1)
  | None => (fs, 0)
  end.

(** The header is rewritten in place. *)
Definition flash_expire (r : bool) (w : Z) (fs : FlashStorage) (kh expire : Z) : FlashStorage * Z :=
  match find_entry fs kh with
  | None => (fs, 0)
  | Some i =>
      let off := file_offset (aget (index fs) i) in
      match pread r (file fs) SIZEOF_HDR off with
      | Some b =>
          if alen b =? SIZEOF_HDR then
            let h := hdr_of b in
            let '(f, n) := pwrite w (file fs) (hdr_bytes (mkHdr (key_hash h) (key_len h) (value_len h) expire (compressed h) (pad h))) off in
            (set_file fs f, if n =? SIZEOF_HDR then 1 else 0)
          else (fs, 0)
      | None => (fs, 0)
      end
  end.

Definition flash_ttl (r : bool) (now : Z) (fs : FlashStorage) (kh : Z) : Z :=
  match find_entry fs kh with
  | None => - 2
  | Some i =>
      match pread r (file fs) SIZEOF_HDR (file_offset (aget (index fs) i)) with
      | Some b =>
          if alen b =? SIZEOF_HDR then
            let ex := expire_unix (hdr_of b) in
            if ex =? 0 then - 1
            else let ttl_s := ex - now in if 0 <? ttl_s then ttl_s * 1000 else 0
          else - 2
      | None => - 2
      end
  end.

(** [truncated]: what [ftruncate] has done; its failure is ignored. *)
Definition flash_flush (truncated : bool) (fs : FlashStorage) : FlashStorage :=
  let st := stats fs in
  mkFlash (config fs) (if truncated then [] else file fs) [] (index_cap fs) (co_graph fs) (co_cap fs)
    (mkStats (reads st) (writes st) 0 (promotions st) (prefetches st) (prefetch_hits st) 0 (bytes_read st) (cooling_ops st)) 0 0.

(** One pass of the cooling thread. *)
Definition cool (e : FlashIndex) : FlashIndex :=
  if 0 <? heat e then mkIdx (i_hash e) (file_offset e) (record_size e) (heat e - 1) else e.
Definition count_cooling (n : Z) (st : FlashStats) : FlashStats :=
  mkStats (reads st) (writes st) (evictions st) (promotions st) (prefetches st) (prefetch_hits st)
    (bytes_written st) (bytes_read st) (cooling_ops st +64 n).
Definition cooling_pass (fs : FlashStorage) : FlashStorage :=
  set_stats (set_index fs (cool <$> index fs)) (count_cooling (alen (filter (fun e => 0 < heat e) (index fs))) (stats fs)).

Definition flash_record_access (fs : FlashStorage) (key_a key_b : Z) : FlashStorage :=
  if (key_a =? 0) || (key_b =? 0) || (key_a =? key_b) then fs else
  let g := co_graph fs in
  match find (fun i => (key_hash_a (aget g i) =? key_a) && (key_hash_b (aget g i) =? key_b)) (seqZ 0 (alen g)) with
  | Some i =>
      let e := aget g i in
      set_graph fs (aset g i (mkEdge (key_hash_a e) (key_hash_b e) (co_access_count e +32 1) (total_a_count e +32 1)))
  | None => if alen g <? co_cap fs then set_graph fs (g ++ [mkEdge key_a key_b 1 1]) else fs
  end.

Definition flash_should_promote (fs : FlashStorage) (kh : Z) : bool :=
  match find_entry fs kh with
  | Some i => heat_hot_thresh (config fs) <=? heat (aget (index fs) i)
  | None => false
  end.

(** ** Prefetch

    [unlikely c t] is the comparison [(float)c / (float)t < 0.70f].  In round
    [i] the two reads and the allocation answer [io i], and [interf i] is what
    the other threads do while the lock is released around the callback; the
    result lists the calls.  [None]: bytes that were never set are used, or
    the fuel is over. *)
Section Prefetch.
Context (unlikely : Z -> Z -> bool) (io : Z -> bool * bool * bool) (interf : Z -> FlashStorage -> FlashStorage).

Definition count_prefetch (st : FlashStats) : FlashStats :=
  mkStats (reads st) (writes st) (evictions st) (promotions st) (prefetches st +64 1) (prefetch_hits st)
    (bytes_written st) (bytes_read st) (cooling_ops st).

(** What one edge of the graph loads: [None] is undefined, [Some None] nothing. *)
Definition prefetch_load (fs : FlashStorage) (i : Z) (e : CoAccessEdge) : option (option bytes) :=
  let '(r1, r2, malloc_ok) := io i in
  match find_entry fs (key_hash_b e) with
  | None => Some None
  | Some j =>
      let off := file_offset (aget (index fs) j) in
      match pread r1 (file fs) SIZEOF_HDR off with
      | None => Some None
      | Some b =>
          if alen b <? SIZEOF_HDR then None else
          let hdr := hdr_of b in
          if negb malloc_ok then Some None
          else
            match pread r2 (file fs) (value_len hdr) (off +64 SIZEOF_HDR +64 key_len hdr) with
            | None => Some None
            | Some v => if alen v <? value_len hdr then None else Some (Some v)
            end
      end
  end.

Fixpoint prefetch_loop (fuel : nat) (trigger i : Z) (fs : FlashStorage) (prefetched : Z) (calls : list (Z * bytes))
    : option (FlashStorage * Z * list (Z * bytes)) :=
  match fuel with
  | O => None
  | S fuel =>
      if i <? alen (co_graph fs) then
        let e := aget (co_graph fs) i in
        if negb (key_hash_a e =? trigger) || unlikely (co_access_count e) (total_a_count e)
        then prefetch_loop fuel trigger (i + 1) fs prefetched calls
        else
          v ← prefetch_load fs i e;
          match v with
          | None => prefetch_loop fuel trigger (i + 1) fs prefetched calls
          | Some v =>
              let fs := interf i fs in
              prefetch_loop fuel trigger (i + 1) (set_stats fs (count_prefetch (stats fs))) (prefetched + 1)
                (calls ++ [(key_hash_b e, v)])
          end
      else Some (fs, prefetched, calls)
  end.

Definition flash_prefetch (fs : FlashStorage) (trigger : Z) : option (FlashStorage * Z * list (Z * bytes)) :=
  if negb (prefetch_enabled (config fs)) then Some (fs, 0, [])
  else prefetch_loop (S (Z.to_nat (co_cap fs))) trigger 0 fs 0 [].
End Prefetch.

(** ** Reading back what was written *)
Lemma slice_lookup f off n i : 0 <= off -> 0 <= n ->
  slice f off n !! i = if decide (i < Z.to_nat n)%nat then f !! (Z.to_nat off + i)%nat else None.
Proof.
  intros. unfold slice. case_decide.
  - rewrite lookup_take_lt by done. by rewrite lookup_drop.
  - by rewrite lookup_take_ge by lia.
Qed.

Lemma write_at_lookup f off b i : 0 <= off <= alen f ->
  write_at f off b !! i =
  if decide (Z.to_nat off <= i < Z.to_nat off + length b)%nat then b !! (i - Z.to_nat off)%nat else f !! i.
Proof.
  intros Ho. unfold write_at, calloc. replace (Z.to_nat (off - alen f)) with 0%nat by (unfold alen in *; lia).
  cbn. rewrite app_nil_r. assert (length (take (Z.to_nat off) f) = Z.to_nat off) as Hl by (rewrite length_take; unfold alen in *; lia).
  case_decide as Hi.
  - rewrite lookup_app_r by lia. rewrite Hl. apply lookup_app_l. lia.
  - destruct (decide (i < Z.to_nat off)%nat).
    + rewrite lookup_app_l by lia. by apply lookup_take_lt.
    + rewrite lookup_app_r, lookup_app_r by lia. rewrite lookup_drop. f_equal. unfold alen. lia.
Qed.

Lemma slice_len f off n : 0 <= off -> 0 <= n -> off + n <= alen f -> alen (slice f off n) = n.
Proof. intros. unfold slice, alen in *. rewrite length_take, length_drop. lia. Qed.

Lemma slice_bytes f off n : is_bytes f -> is_bytes (slice f off n).
Proof. intros. by apply Forall_take, Forall_drop. Qed.

Lemma slice_write_same f off b : 0 <= off <= alen f -> slice (write_at f off b) off (alen b) = b.
Proof.
  intros Ho. apply list_eq. intros i. rewrite slice_lookup by (unfold alen; lia). unfold alen. rewrite Nat2Z.id.
  case_decide as Hi; [|symmetry; apply lookup_ge_None; lia].
  rewrite write_at_lookup by done. rewrite decide_True by lia. f_equal. lia.
Qed.

Lemma slice_write_apart f off b o n : 0 <= off <= alen f -> 0 <= o -> 0 <= n -> o + n <= off \/ off + alen b <= o ->
  slice (write_at f off b) o n = slice f o n.
Proof.
  intros Ho H1 H2 Hd. apply list_eq. intros i. rewrite !slice_lookup by done. case_decide; [|done].
  rewrite write_at_lookup by done. rewrite decide_False; [done|]. unfold alen in *. lia.
Qed.

Lemma slice_write_sub f off a b c : 0 <= off <= alen f ->
  slice (write_at f off (a ++ b ++ c)) (off + alen a) (alen b) = b.
Proof.
  intros Ho. apply list_eq. intros i. unfold alen in *. rewrite slice_lookup by lia. rewrite Nat2Z.id.
  case_decide as Hi; [|symmetry; apply lookup_ge_None; lia].
  rewrite write_at_lookup by (unfold alen; lia). rewrite decide_True by (rewrite !length_app; lia).
  rewrite lookup_app_r by lia. rewrite lookup_app_l by lia. f_equal. lia.
Qed.

Lemma alen_write_at f off b : 0 <= off <= alen f -> alen (write_at f off b) = Z.max (alen f) (off + alen b).
Proof.
  intros Ho. unfold write_at. rewrite !alen_app. unfold alen in *. rewrite length_take, length_drop, length_app.
  unfold calloc. rewrite length_replicate. lia.
Qed.

Lemma write_at_bytes f off b : is_bytes f -> is_bytes b -> is_bytes (write_at f off b).
Proof.
  intros. unfold write_at. apply Forall_app. split; [|apply Forall_app; split; [done|by apply Forall_drop]].
  apply Forall_take, Forall_app. split; [done|]. apply Forall_calloc. mach.
Qed.

Lemma write_at_adjacent f off a b : 0 <= off <= alen f -> write_at (write_at f off a) (off + alen a) b = write_at f off (a ++ b).
Proof.
  intros Ho. apply list_eq. intros i. pose proof (alen_nonneg a). pose proof (alen_write_at f off a Ho).
  rewrite !write_at_lookup by lia. unfold alen in *. rewrite length_app. repeat case_decide; try lia.
  - rewrite lookup_app_r by lia. f_equal. lia.
  - rewrite lookup_app_l by lia. done.
  - done.
Qed.

(** ** The index as a finite map

    What the tier holds for a hash: the value and the expiry time of its first
    entry, with its heat. *)
Definition rec_of (f : bytes) (e : FlashIndex) : bytes * Z * Z :=
  let h := hdr_of (slice f (file_offset e) SIZEOF_HDR) in
  (slice f (file_offset e + SIZEOF_HDR + key_len h) (value_len h), expire_unix h, heat e).
Definition entry (f : bytes) (e : FlashIndex) : Z * (bytes * Z * Z) := (i_hash e, rec_of f e).
Definition view (fs : FlashStorage) : gmap Z (bytes * Z * Z) := list_to_map (entry (file fs) <$> index fs).

(** A record lies below the end of the log, its size is that of its parts. *)
Definition rec_ok (f : bytes) (limit : Z) (e : FlashIndex) : Prop :=
  let h := hdr_of (slice f (file_offset e) SIZEOF_HDR) in
  0 <= file_offset e /\ record_size e = SIZEOF_HDR + key_len h + value_len h /\
  0 <= key_len h /\ in_u 32 (value_len h) /\ file_offset e + record_size e <= limit /\ in_u 8 (heat e).

(** No two records overlap. *)
Record inv (fs : FlashStorage) : Prop := {
  inv_recs : Forall (rec_ok (file fs) (write_offset fs)) (index fs);
  inv_apart a b : a ∈ index fs -> b ∈ index fs -> file_offset a < file_offset b -> file_offset a + record_size a <= file_offset b;
  inv_offsets : NoDup (file_offset <$> index fs);
  inv_hashes : NoDup (i_hash <$> index fs);
  inv_bytes : is_bytes (file fs);
  inv_end : 0 <= write_offset fs <= alen (file fs) /\ write_offset fs < 2 ^ 62;
  inv_cap : alen (index fs) <= index_cap fs /\ 0 < index_cap fs < 2 ^ 31;
  inv_cold : in_u 8 (heat_cold_thresh (config fs)) }.

Lemma find_seqZ_first (P : Z -> bool) n i : find P (seqZ 0 n) = Some i -> forall j, 0 <= j < i -> P j = false.
Proof.
  assert (forall k m, find P (seqZ m (Z.of_nat k)) = Some i -> forall j, m <= j < i -> P j = false) as H.
  { induction k as [|k IH]; intros m; [done|]. rewrite seqZ_cons by lia.
    replace (Z.pred (Z.of_nat (S k))) with (Z.of_nat k) by lia. cbn. destruct (P m) eqn:Hm; [intros [= ->]; lia|].
    intros E j Hj. destruct (Z.eq_dec j m) as [->|]; [done|]. apply (IH _ E). lia. }
  intros E. destruct (Z.le_gt_cases 0 n) as [Hn|Hn]; [|by rewrite seqZ_nil in E by lia].
  rewrite <- (Z2Nat.id n Hn) in E. by apply (H (Z.to_nat n) 0).
Qed.

Lemma find_entry_some fs kh i : find_entry fs kh = Some i ->
  0 <= i < alen (index fs) /\ i_hash (aget (index fs) i) = kh /\
  forall j, 0 <= j < i -> i_hash (aget (index fs) j) <> kh.
Proof.
  unfold find_entry. intros E. pose proof (find_seqZ (fun i => i_hash (aget (index fs) i) =? kh) (alen (index fs))) as H.
  rewrite E in H. destruct H as [Hr Hh]. split; [done|]. split; [by apply Z.eqb_eq|].
  intros j Hj. by apply Z.eqb_neq, (find_seqZ_first _ _ _ E j).
Qed.

Lemma find_entry_none fs kh : find_entry fs kh = None -> kh ∉ i_hash <$> index fs.
Proof.
  unfold find_entry. intros E. pose proof (find_seqZ (fun i => i_hash (aget (index fs) i) =? kh) (alen (index fs))) as H.
  rewrite E in H. intros (e & -> & He)%list_elem_of_fmap. apply list_elem_of_lookup in He as [k Hk].
  pose proof (lookup_lt_Some _ _ _ Hk). specialize (H (Z.of_nat k) ltac:(unfold alen; lia)).
  unfold aget in H. rewrite Nat2Z.id, (list_lookup_total_correct _ _ _ Hk), Z.eqb_refl in H. done.
Qed.

(** Reads see the first entry of a hash. *)
Lemma view_lookup fs kh : view fs !! kh = rec_of (file fs) ∘ aget (index fs) <$> find_entry fs kh.
Proof.
  unfold view. assert (forall l, (entry (file fs) <$> l).*1 = i_hash <$> l) as Hk by (intros l; by rewrite <- list_fmap_compose).
  destruct (find_entry fs kh) as [i|] eqn:E.
  - apply find_entry_some in E as (Hr & Hh & Hf). pose proof (aget_lookup (index fs) i Hr) as Hl.
    rewrite <- (take_drop_middle _ _ _ Hl) at 1. rewrite fmap_app, list_to_map_app, fmap_cons.
    rewrite lookup_union_r.
    + cbn. rewrite Hh. by rewrite lookup_insert_eq.
    + apply not_elem_of_list_to_map_1. rewrite Hk. intros (e & -> & He)%list_elem_of_fmap.
      apply list_elem_of_lookup in He as [k Hx]. pose proof (lookup_lt_Some _ _ _ Hx) as Hlt. rewrite length_take in Hlt.
      rewrite lookup_take_lt in Hx by lia. apply (Hf (Z.of_nat k)); [lia|]. unfold aget.
      by rewrite Nat2Z.id, (list_lookup_total_correct _ _ _ Hx).
  - apply not_elem_of_list_to_map_1. rewrite Hk. by apply find_entry_none.
Qed.

Lemma view_none fs kh : view fs !! kh = None <-> kh ∉ i_hash <$> index fs.
Proof.
  split.
  - rewrite view_lookup. destruct (find_entry fs kh) eqn:E; [done|]. intros _. by apply find_entry_none.
  - intros H. apply not_elem_of_list_to_map_1. by rewrite <- list_fmap_compose.
Qed.

Lemma entry_in fs i : 0 <= i < alen (index fs) -> aget (index fs) i ∈ index fs.
Proof. intros H. eapply list_elem_of_lookup_2, aget_lookup, H. Qed.

Lemma inv_rec fs i : inv fs -> 0 <= i < alen (index fs) -> rec_ok (file fs) (write_offset fs) (aget (index fs) i).
Proof. intros Hi Hr. pose proof (inv_recs _ Hi) as H. rewrite Forall_forall in H. by apply H, entry_in. Qed.

(** ** Removing an entry *)
Lemma index_remove_perm fs i : 0 <= i < alen (index fs) ->
  index fs ≡ₚ aget (index fs) i :: index (index_remove fs i).
Proof.
  intros Hr. cbn. set (n := alen (index fs) - 1). set (l := index fs) in *. set (y := aget l n).
  assert (l = take (Z.to_nat n) l ++ [y]) as Hl.
  { rewrite <- (take_ge l (S (Z.to_nat n))) at 1 by (unfold n, alen in *; lia). apply take_S_r. apply aget_lookup. unfold n in *. lia. }
  unfold aset. destruct (Z.eq_dec i n) as [->|Hne].
  - rewrite take_insert_ge by lia. fold y. rewrite Hl at 1. by rewrite Permutation_app_comm.
  - rewrite take_insert_lt by lia. rewrite Hl at 1. set (t := take (Z.to_nat n) l).
    assert (t !! Z.to_nat i = Some (aget l i)) as Ht by (unfold t; rewrite lookup_take_lt by lia; apply aget_lookup; lia).
    rewrite <- (take_drop_middle _ _ _ Ht) at 1. rewrite insert_take_drop by (by eapply lookup_lt_Some). solve_Permutation.
Qed.

Lemma index_remove_inv fs i : inv fs -> 0 <= i < alen (index fs) ->
  inv (index_remove fs i) /\ view (index_remove fs i) = delete (i_hash (aget (index fs) i)) (view fs).
Proof.
  intros Hi Hr. pose proof (index_remove_perm fs i Hr) as Hp. set (e := aget (index fs) i) in *. set (fs' := index_remove fs i) in *.
  pose proof (inv_hashes _ Hi) as Hh. pose proof (inv_offsets _ Hi) as Ho. rewrite Hp in Hh, Ho.
  rewrite fmap_cons in Hh, Ho. apply NoDup_cons in Hh as [Hne Hh], Ho as [_ Ho]. split.
  - destruct Hi as [Hrec Hap _ _ Hb He [Hc1 Hc2] Hcold].
    assert (alen (index fs) = 1 + alen (index fs')) as Hlen by (unfold alen; apply Permutation_length in Hp; cbn [length] in Hp; lia).
    split; try done.
    + rewrite Hp in Hrec. by apply Forall_cons in Hrec as [_ Hrec].
    + intros a b Ha Hb'. apply Hap; rewrite Hp; by right.
    + change (index_cap fs') with (index_cap fs). lia.
  - assert (view fs = <[i_hash e := rec_of (file fs) e]> (view fs')) as ->.
    { unfold view. rewrite (list_to_map_proper (entry (file fs) <$> index fs) (entry (file fs) <$> (e :: index fs'))); [done| |by rewrite Hp].
      rewrite <- list_fmap_compose. apply Hi. }
    rewrite delete_insert_id; [done|]. by apply view_none.
Qed.

(** ** Changing an entry or the file *)
Lemma flash_index_split fs i : 0 <= i < alen (index fs) -> exists rest,
  index fs ≡ₚ aget (index fs) i :: rest /\ forall e, aset (index fs) i e ≡ₚ e :: rest.
Proof.
  intros Hr. pose proof (aget_lookup (index fs) i Hr) as Hl.
  exists (take (Z.to_nat i) (index fs) ++ drop (S (Z.to_nat i)) (index fs)). split.
  - rewrite <- (take_drop_middle _ _ _ Hl) at 1. by rewrite Permutation_middle.
  - intros e. unfold aset. rewrite insert_take_drop by (by eapply lookup_lt_Some). by rewrite Permutation_middle.
Qed.

(** [keeps limit f f']: the file has changed above [limit] at most. *)
Definition keeps (limit : Z) (f f' : bytes) : Prop :=
  is_bytes f' /\ alen f <= alen f' /\ forall o n, 0 <= o -> 0 <= n -> o + n <= limit -> slice f' o n = slice f o n.

Lemma keeps_refl limit f : is_bytes f -> keeps limit f f.
Proof. done. Qed.

Lemma keeps_trans limit f f' f'' : keeps limit f f' -> keeps limit f' f'' -> keeps limit f f''.
Proof. intros (B & L & H) (B' & L' & H'). split; [done|]. split; [lia|]. intros o n ? ? ?. rewrite H' by done. by apply H. Qed.

Lemma keeps_write limit f off b : is_bytes f -> is_bytes b -> 0 <= off <= alen f -> limit <= off -> keeps limit f (write_at f off b).
Proof.
  intros Hf Hb Ho Hl. split; [by apply write_at_bytes|]. rewrite alen_write_at by done. split; [lia|].
  intros o n H1 H2 H3. apply slice_write_apart; [done..|lia].
Qed.

(** A record whose bytes are the same is the same record. *)
Lemma rec_frame f f' limit e : rec_ok f limit e ->
  (forall o n, 0 <= n -> file_offset e <= o -> o + n <= file_offset e + record_size e -> slice f' o n = slice f o n) ->
  rec_of f' e = rec_of f e /\ forall limit', limit <= limit' -> rec_ok f' limit' e.
Proof.
  unfold rec_of, rec_ok, SIZEOF_HDR. cbv zeta. intros (H0 & Hs & Hk & Hv & Hl & Hh) Hf. pose proof Hv as [Hv0 _].
  assert (slice f' (file_offset e) 24 = slice f (file_offset e) 24) as -> by (apply Hf; lia). rewrite Hf by lia. split; [done|]. intros limit' ?. split_and!; try done; lia.
Qed.

Lemma field_range s o n : is_bytes s -> 0 <= n -> in_u (8 * n) (le_val (slice s o n)).
Proof.
  intros Hs Hn. pose proof (le_val_range (slice s o n) (slice_bytes s o n Hs)) as [? ?]. split; [done|].
  eapply Z.lt_le_trans; [done|]. apply Z.pow_le_mono_r; [lia|]. unfold slice, alen. rewrite length_take. lia.
Qed.

Lemma hdr_ranges b : is_bytes b -> alen b = SIZEOF_HDR -> let h := hdr_of b in
  in_u 64 (key_hash h) /\ in_u 32 (key_len h) /\ in_u 32 (value_len h) /\ in_u 32 (expire_unix h) /\
  in_u 8 (compressed h) /\ is_bytes (pad h) /\ length (pad h) = 3%nat.
Proof.
  intros Hb Hl h. split; [by apply (field_range b 0 8)|]. split; [by apply (field_range b 8 4)|].
  split; [by apply (field_range b 12 4)|]. split; [by apply (field_range b 16 4)|]. split; [|split].
  - apply (Forall_aget (in_u 8)); [done|]. rewrite Hl. done.
  - by apply slice_bytes.
  - unfold h, hdr_of, slice, SIZEOF_HDR, alen in *. cbn [pad]. rewrite length_take, length_drop. lia.
Qed.

Lemma i64_small x : 0 <= x < 2 ^ 63 -> i64 x = x.
Proof. intros. apply swrap_small; lia. Qed.

Lemma pread_hdr f limit e : rec_ok f limit e -> limit <= alen f -> limit < 2 ^ 62 ->
  pread true f SIZEOF_HDR (file_offset e) = Some (slice f (file_offset e) SIZEOF_HDR) /\
  alen (slice f (file_offset e) SIZEOF_HDR) = SIZEOF_HDR.
Proof.
  intros (H0 & Hs & Hk & Hv & Hl & Hh) ? ?. unfold in_u, SIZEOF_HDR in *. unfold pread.
  rewrite i64_small by lia. split; [|apply slice_len; lia]. by rewrite (proj2 (Z.ltb_ge _ _)) by lia.
Qed.

Lemma pread_value f limit e : rec_ok f limit e -> limit <= alen f -> limit < 2 ^ 62 ->
  let h := hdr_of (slice f (file_offset e) SIZEOF_HDR) in
  pread true f (value_len h) (file_offset e +64 SIZEOF_HDR +64 key_len h) = Some ((rec_of f e).1.1) /\
  alen ((rec_of f e).1.1) = value_len h.
Proof.
  intros (H0 & Hs & Hk & Hv & Hl & Hh) ? ? h. fold h in Hs, Hk, Hv. unfold in_u, SIZEOF_HDR in *. unfold pread.
  assert (file_offset e +64 24 +64 key_len h = file_offset e + 24 + key_len h) as ->.
  { rewrite wrap_add_l. apply wrap_small. mach. }
  rewrite i64_small by lia. rewrite (proj2 (Z.ltb_ge _ _)) by lia. unfold rec_of, SIZEOF_HDR. fold h. cbn [fst negb orb].
  split; [done|]. apply slice_len; lia.
Qed.

Lemma pwrite_done ans f b off : alen b <= ans -> 0 <= off <= alen f -> off < 2 ^ 63 -> pwrite ans f b off = (write_at f off b, alen b).
Proof.
  intros Ha Ho Hlt. pose proof (alen_nonneg b). unfold pwrite. rewrite i64_small by lia.
  rewrite (proj2 (Z.ltb_ge ans 0)), (proj2 (Z.ltb_ge off 0)) by lia. cbn. rewrite Z.min_r by done.
  rewrite take_ge by (unfold alen; lia). destruct (Z.eqb_spec (alen b) 0) as [Hz|]; [|done].
  rewrite Hz. f_equal. destruct b; [|unfold alen in Hz; cbn in Hz; lia]. unfold write_at.
  unfold calloc. replace (Z.to_nat (off - alen f)) with 0%nat by lia. cbn. rewrite app_nil_r, Z.add_0_r. by rewrite take_drop.
Qed.

Lemma pwrite_fails ans f b off : ans < 0 -> pwrite ans f b off = (f, - 1).
Proof. intros. unfold pwrite. by rewrite (proj2 (Z.ltb_lt ans 0)) by done. Qed.

Lemma hdr_bytes_len h : length (pad h) = 3%nat -> alen (hdr_bytes h) = SIZEOF_HDR.
Proof. intros Hp. unfold hdr_bytes, alen. rewrite !length_app, !length_le_bytes. cbn [length]. by rewrite Hp. Qed.

Lemma hdr_bytes_is h : in_u 8 (compressed h) -> is_bytes (pad h) -> is_bytes (hdr_bytes h).
Proof. intros. unfold hdr_bytes, is_bytes. repeat (apply Forall_app; split); try apply le_bytes_is_bytes; [by constructor|done]. Qed.

Lemma slice_mid (a b c : bytes) o n : Z.of_nat (length a) = o -> Z.of_nat (length b) = n -> slice (a ++ b ++ c) o n = b.
Proof.
  intros <- <-. unfold slice. rewrite !Nat2Z.id. rewrite drop_app_length. by rewrite take_app_length.
Qed.

Lemma slice_self (b : bytes) n : Z.of_nat (length b) = n -> slice b 0 n = b.
Proof. intros <-. unfold slice. rewrite Nat2Z.id. cbn. by rewrite firstn_all. Qed.

(** The header is read back as it was written. *)
Lemma hdr_of_bytes h : in_u 64 (key_hash h) -> in_u 32 (key_len h) -> in_u 32 (value_len h) -> in_u 32 (expire_unix h) ->
  length (pad h) = 3%nat -> hdr_of (hdr_bytes h) = h.
Proof.
  intros H1 H2 H3 H4 Hp. unfold hdr_of, hdr_bytes. destruct h as [kh kl vl ex co pa]; cbn [key_hash key_len value_len expire_unix compressed pad] in *.
  set (B := le_bytes). assert (forall n z, length (B n z) = n) as HB by (intros; apply length_le_bytes).
  f_equal.
  - change (B 8%nat kh ++ ?r) with ([] ++ B 8%nat kh ++ r). rewrite slice_mid by (rewrite ?HB; done). by apply le_round_trip.
  - rewrite slice_mid by (rewrite ?HB; done). by apply le_round_trip.
  - rewrite (app_assoc (B 8%nat kh)). rewrite slice_mid by (rewrite ?length_app, ?HB; done). by apply le_round_trip.
  - rewrite (app_assoc (B 8%nat kh)), (app_assoc (B 8%nat kh ++ _)). rewrite slice_mid by (rewrite ?length_app, ?HB; done). by apply le_round_trip.
  - rewrite (app_assoc (B 8%nat kh)), (app_assoc (B 8%nat kh ++ _)), (app_assoc ((B 8%nat kh ++ _) ++ _)), (app_assoc (((B 8%nat kh ++ _) ++ _) ++ _)).
    rewrite <- (app_nil_r pa) at 1. rewrite slice_mid by (rewrite ?length_app, ?HB, ?Hp; done). done.
Qed.

(** A file that keeps the log keeps the map. *)
Lemma keeps_rec f f' limit e : keeps limit f f' -> rec_ok f limit e ->
  rec_of f' e = rec_of f e /\ forall limit', limit <= limit' -> rec_ok f' limit' e.
Proof.
  intros (_ & _ & Hk) He. apply (rec_frame f f' limit e He). intros o n ? ? ?. destruct He as (? & ? & ? & ? & ? & ?). apply Hk; lia.
Qed.

Lemma keeps_view fs f' : inv fs -> keeps (write_offset fs) (file fs) f' -> entry f' <$> index fs = entry (file fs) <$> index fs.
Proof.
  intros Hi Hk. apply list_fmap_ext. intros k e He. unfold entry. f_equal.
  apply (keeps_rec _ _ _ _ Hk). pose proof (inv_recs _ Hi) as H. rewrite Forall_forall in H. by eapply H, list_elem_of_lookup_2.
Qed.

Lemma set_file_keeps fs f' : inv fs -> keeps (write_offset fs) (file fs) f' -> inv (set_file fs f') /\ view (set_file fs f') = view fs.
Proof.
  intros Hi Hk. split; [|unfold view; cbn; by rewrite keeps_view].
  destruct Hi as [Hrec Hap Ho Hh Hb He Hc Hcold]. pose proof Hk as (Hb' & Hl & _). split; try done; cbn; [|lia].
  eapply Forall_impl; [exact Hrec|]. intros e He'. by apply (keeps_rec _ _ _ _ Hk He').
Qed.

(** ** Write *)
Lemma append_fits ix cap e : alen ix <= cap -> 0 < cap < 2 ^ 30 -> exists cap',
  index_append true ix cap e = Some (ix ++ [e], cap') /\ alen ix + 1 <= cap' /\ cap <= cap' /\ cap' <= Z.max cap (2 * alen ix).
Proof.
  intros Hl Hc. unfold index_append. destruct (Z.leb_spec cap (alen ix)).
  - assert (u32 (cap * 2) = cap * 2) as -> by (apply wrap_small; mach).
    destruct (Z.eqb_spec (cap * 2) 0); [lia|]. rewrite (proj2 (Z.ltb_lt _ _)) by lia. exists (cap * 2). split_and!; [done|lia..].
  - exists cap. split_and!; [done|lia..].
Qed.

Lemma append_inv fs f ix cap e : inv fs -> keeps (write_offset fs) (file fs) f -> ix = index fs ++ [e] ->
  file_offset e = write_offset fs -> rec_ok f (write_offset fs + record_size e) e -> view fs !! i_hash e = None ->
  write_offset fs + record_size e <= alen f -> write_offset fs + record_size e < 2 ^ 62 ->
  alen (index fs) + 1 <= cap < 2 ^ 31 -> 0 < record_size e ->
  forall st sz, let fs' := mkFlash (config fs) f ix cap (co_graph fs) (co_cap fs) st sz (write_offset fs + record_size e) in
  inv fs' /\ view fs' = <[i_hash e := rec_of f e]> (view fs).
Proof.
  intros Hi Hk -> Ho He Hf Hfit Hlt Hcap Hpos st sz fs'. pose proof (keeps_view fs f Hi Hk) as Hv. apply view_none in Hf.
  destruct Hi as [Hrec Hap Hoff Hh Hb Hend Hc Hcold].
  assert (forall x, x ∈ index fs -> rec_ok (file fs) (write_offset fs) x) as Hin by (by apply Forall_forall).
  split.
  - split; cbn; try done.
    + apply Forall_app. split; [|by constructor]. eapply Forall_impl; [exact Hrec|]. intros x Hx. apply (keeps_rec _ _ _ _ Hk Hx). lia.
    + intros a b [Ha| ->%list_elem_of_singleton]%elem_of_app [Hb'| ->%list_elem_of_singleton]%elem_of_app; [by apply Hap| | |lia].
      * intros _. destruct (Hin a Ha) as (_ & _ & _ & _ & ? & _). lia.
      * destruct (Hin b Hb') as (? & Hs & ? & [? _] & ? & _). unfold SIZEOF_HDR in *. lia.
    + rewrite fmap_app. apply NoDup_app. split_and!; [done| |apply NoDup_singleton].
      intros o (x & -> & Hx)%list_elem_of_fmap Hs.
      apply list_elem_of_singleton in Hs. destruct (Hin x Hx) as (? & Hsz & ? & [? _] & ? & _). unfold SIZEOF_HDR in *. lia.
    + rewrite fmap_app. apply NoDup_app. split_and!; [done| |apply NoDup_singleton].
      intros h Hx ->%list_elem_of_singleton. done.
    + apply Hk.
    + lia.
    + rewrite alen_app. change (alen [e]) with 1. pose proof (alen_nonneg (index fs)). lia.
  - unfold view. cbn. rewrite fmap_app, Hv. cbn.
    rewrite (list_to_map_proper _ (entry f e :: (entry (file fs) <$> index fs))); [done| |by rewrite Permutation_app_comm].
    rewrite fmap_app. cbn. assert (((entry (file fs) <$> index fs).*1) = i_hash <$> index fs) as -> by (by rewrite <- list_fmap_compose).
    apply NoDup_app. split_and!; [done| |apply NoDup_singleton]. intros h Hx ->%list_elem_of_singleton. done.
Qed.

(** The kernel fails or does the whole transfer. *)
Definition answers (w n : Z) : Prop := w < 0 \/ n <= w.
Definition full (fs : FlashStorage) (n : Z) : bool :=
  (0 <? max_size_bytes (config fs)) && (max_size_bytes (config fs) <? write_offset fs + SIZEOF_HDR + n).

Record write_ok (fs : FlashStorage) (kh : Z) (key value : bytes) (ex : Z) : Prop := {
  wo_hash : in_u 64 kh; wo_expire : in_u 32 ex; wo_key : is_bytes key; wo_value : is_bytes value;
  wo_size : SIZEOF_HDR + alen key + alen value < 2 ^ 32 }.

Lemma in_le w x y : in_u w y -> 0 <= x <= y -> in_u w x.
Proof. unfold in_u. lia. Qed.

Lemma fresh_record fs kh key value ex :
  let hdr := hdr_bytes (mkHdr kh (alen key) (alen value) ex 0 [0; 0; 0]) in
  let off := write_offset fs in
  let f := write_at (file fs) off ((hdr ++ key) ++ value) in
  let e := mkIdx kh off (SIZEOF_HDR + alen key + alen value) (heat_cold_thresh (config fs)) in
  inv fs -> write_ok fs kh key value ex ->
  rec_ok f (off + record_size e) e /\ rec_of f e = (value, ex, heat_cold_thresh (config fs)) /\
  keeps off (file fs) f /\ off + record_size e <= alen f.
Proof.
  intros hdr off f e Hi [W1 W2 W3 W4 W5]. pose proof (inv_end _ Hi) as [He Hlt]. pose proof (alen_nonneg key) as Hk. pose proof (alen_nonneg value) as Hv.
  assert (alen hdr = SIZEOF_HDR) as Hh by (by apply hdr_bytes_len). unfold SIZEOF_HDR in *.
  assert (slice f off 24 = hdr) as Hs.
  { rewrite <- Hh. unfold f. rewrite <- app_assoc. pose proof (slice_write_sub (file fs) off [] hdr (key ++ value) He) as H.
    rewrite Z.add_0_r in H. exact H. }
  assert (hdr_of (slice f off 24) = mkHdr kh (alen key) (alen value) ex 0 [0; 0; 0]) as Hhdr.
  { rewrite Hs. apply hdr_of_bytes; cbn; try done; mach_unfold; lia. }
  unfold rec_ok, rec_of, SIZEOF_HDR. cbn [file_offset record_size heat e]. rewrite Hhdr. cbn [key_len value_len expire_unix]. split_and!.
  - lia.
  - lia.
  - lia.
  - mach_unfold. lia.
  - mach_unfold. lia.
  - apply Hi.
  - f_equal. f_equal. unfold f. replace (off + 24 + alen key) with (off + alen (hdr ++ key)) by (rewrite alen_app; lia).
    rewrite <- (app_nil_r value) at 1. by apply slice_write_sub.
  - apply keeps_write; [apply Hi| |done|unfold off; lia]. apply Forall_app. split; [apply Forall_app; split; [|done]|done].
    apply hdr_bytes_is; cbn; [mach|repeat constructor; mach].
  - unfold f. rewrite alen_write_at by done. rewrite !alen_app. lia.
Qed.

Lemma offsets off kl vl : 0 <= off -> 0 <= kl -> 0 <= vl -> SIZEOF_HDR + kl + vl < 2 ^ 32 -> off + 2 ^ 32 < 2 ^ 62 ->
  off +64 SIZEOF_HDR = off + SIZEOF_HDR /\ off + SIZEOF_HDR +64 kl = off + SIZEOF_HDR + kl /\
  off + SIZEOF_HDR + kl +64 vl = off + SIZEOF_HDR + kl + vl /\ u32 (SIZEOF_HDR +64 kl +64 vl) = SIZEOF_HDR + kl + vl.
Proof.
  intros Ho Hk Hv Hs Hend. unfold SIZEOF_HDR in *. split_and!; [apply wrap_small; mach..|].
  rewrite (wrap_small 64 (24 + kl)) by mach. rewrite (wrap_small 64) by mach. apply wrap_small. mach.
Qed.

Lemma flash_write_spec w1 w2 w3 fs kh key value ex : inv fs -> write_ok fs kh key value ex ->
  answers w1 SIZEOF_HDR -> answers w2 (alen key) -> answers w3 (alen value) ->
  write_offset fs + 2 ^ 32 < 2 ^ 62 -> index_cap fs < 2 ^ 30 -> view fs !! kh = None ->
  exists fs' r, flash_write w1 w2 w3 true fs kh key value ex = Some (fs', r) /\ inv fs' /\ config fs' = config fs /\
    alen (index fs') <= alen (index fs) + 1 /\ index_cap fs' <= Z.max (index_cap fs) (2 * alen (index fs)) /\
    if full fs (alen key + alen value) || (w1 <? 0) || (w2 <? 0) || (w3 <? 0)
    then r = - 1 /\ view fs' = view fs /\ write_offset fs' = write_offset fs
    else r = 0 /\ view fs' = <[kh := (value, ex, heat_cold_thresh (config fs))]> (view fs) /\
         write_offset fs' = write_offset fs + SIZEOF_HDR + alen key + alen value.
Proof.
  intros Hi Hw A1 A2 A3 Hend Hcap Hfresh. destruct (fresh_record fs kh key value ex Hi Hw) as (Hrec & Hval & Hkeep & Hfit).
  pose proof (inv_end _ Hi) as [He Hlt]. pose proof (alen_nonneg key) as Hk. pose proof (alen_nonneg value) as Hv. pose proof (inv_bytes _ Hi) as Hb.
  destruct (inv_cap _ Hi) as [Hc1 Hc2]. destruct Hw as [W1 W2 W3 W4 W5].
  set (hdr := hdr_bytes (mkHdr kh (alen key) (alen value) ex 0 [0; 0; 0])) in *.
  assert (alen hdr = SIZEOF_HDR) as Hh by (by apply hdr_bytes_len).
  assert (is_bytes hdr) as Hhb by (apply hdr_bytes_is; cbn; [mach|repeat constructor; mach]).
  unfold flash_write. fold hdr. set (off := write_offset fs) in *.
  destruct (offsets off (alen key) (alen value) ltac:(lia) Hk Hv W5 Hend) as (E1 & E2 & E3 & E4). unfold SIZEOF_HDR in *. rewrite E1, E2, E3, E4.
  assert (full fs (alen key + alen value) = (0 <? max_size_bytes (config fs)) && (max_size_bytes (config fs) <? off + 24 + alen key + alen value)) as ->.
  { unfold full, SIZEOF_HDR. fold off. by rewrite !Z.add_assoc. }
  destruct (_ && _); [exists fs, (- 1); split_and!; try done; lia|].
  assert (forall f', keeps off (file fs) f' -> exists fs' r, Some (set_file fs f', - 1) = Some (fs', r) /\ inv fs' /\ config fs' = config fs /\
    alen (index fs') <= alen (index fs) + 1 /\ index_cap fs' <= Z.max (index_cap fs) (2 * alen (index fs)) /\
    r = - 1 /\ view fs' = view fs /\ write_offset fs' = off) as Hfail.
  { intros f' Hf'. destruct (set_file_keeps fs f' Hi Hf') as [? ?]. exists (set_file fs f'), (- 1). split_and!; try done; cbn; lia. }
  destruct (Z.ltb_spec w1 0) as [L1|L1].
  { rewrite pwrite_fails by done. cbn. by apply Hfail. }
  destruct A1 as [|A1]; [lia|]. rewrite (pwrite_done w1) by lia. rewrite Hh. cbn [Z.ltb Z.compare].
  set (f1 := write_at (file fs) off hdr). assert (alen f1 = Z.max (alen (file fs)) (off + 24)) as Hl1 by (unfold f1; rewrite alen_write_at; lia).
  assert (keeps off (file fs) f1) as K1 by (apply keeps_write; [done..|lia]).
  destruct (Z.ltb_spec w2 0) as [L2|L2].
  { rewrite pwrite_fails by done. cbn. by apply Hfail. }
  destruct A2 as [|A2]; [lia|]. rewrite (pwrite_done w2) by lia. rewrite (proj2 (Z.ltb_ge (alen key) 0)) by done.
  assert (write_at f1 (off + 24) key = write_at (file fs) off (hdr ++ key)) as E5 by (rewrite <- Hh; by apply write_at_adjacent).
  set (f2 := write_at f1 (off + 24) key) in *. assert (alen f2 = Z.max (alen f1) (off + 24 + alen key)) as Hl2 by (unfold f2; rewrite alen_write_at; lia).
  assert (keeps off (file fs) f2) as K2. { eapply keeps_trans; [exact K1|]. apply keeps_write; [apply K1|done|lia|lia]. }
  destruct (Z.ltb_spec w3 0) as [L3|L3].
  { rewrite pwrite_fails by done. cbn. by apply Hfail. }
  destruct A3 as [|A3]; [lia|]. rewrite (pwrite_done w3) by lia. rewrite (proj2 (Z.ltb_ge (alen value) 0)) by done.
  assert (write_at f2 (off + 24 + alen key) value = write_at (file fs) off ((hdr ++ key) ++ value)) as ->.
  { rewrite E5. replace (off + 24 + alen key) with (off + alen (hdr ++ key)) by (rewrite alen_app; lia). by apply write_at_adjacent. }
  destruct (append_fits (index fs) (index_cap fs) (mkIdx kh off (24 + alen key + alen value) (heat_cold_thresh (config fs)))) as (cap' & -> & C1 & C2 & C3); [done|lia|].
  cbn [mbind option_bind]. rewrite (wrap_small 64 (off + _)) by mach.
  edestruct (append_inv fs _ (index fs ++ [_]) cap' (mkIdx kh off (24 + alen key + alen value) (heat_cold_thresh (config fs))) Hi Hkeep eq_refl)
    as [Hinv Hview]; cbn [record_size i_hash file_offset]; [done|exact Hrec|done|exact Hfit|fold off; lia|lia|lia|].
  cbn [record_size i_hash] in Hinv, Hview. eexists _, 0. split; [reflexivity|]. split; [exact Hinv|]. split_and!.
  - done.
  - cbn. rewrite alen_app. change (alen [_]) with 1. lia.
  - cbn. lia.
  - split_and!; [done| |cbn; fold off; lia]. etransitivity; [exact Hview|]. by rewrite Hval.
Qed.

(** ** The other operations on the map *)

(** An entry keeps its record: only its heat changes. *)
Definition reheat (e e' : FlashIndex) : Prop :=
  i_hash e' = i_hash e /\ file_offset e' = file_offset e /\ record_size e' = record_size e /\ in_u 8 (heat e').

Lemma reheat_refl e : in_u 8 (heat e) -> reheat e e.
Proof. done. Qed.

Lemma reheat_inv fs ix st : inv fs -> Forall2 reheat (index fs) ix -> inv (set_stats (set_index fs ix) st).
Proof.
  intros Hi H2.
  assert (forall g : FlashIndex -> Z, (forall e e', reheat e e' -> g e' = g e) -> g <$> ix = g <$> index fs) as Hg.
  { intros g Hg. clear Hi. induction H2; [done|]. cbn. f_equal; [by apply Hg|done]. }
  assert (length ix = length (index fs)) as Hl by (symmetry; by eapply Forall2_length).
  assert (forall e', e' ∈ ix -> exists e, e ∈ index fs /\ reheat e e') as Hin.
  { intros e' (k & Hk)%list_elem_of_lookup. destruct (Forall2_lookup_r _ _ _ _ _ H2 Hk) as (e & He & Hr). exists e. split; [by eapply list_elem_of_lookup_2|done]. }
  destruct Hi as [Hrec Hap Ho Hh Hb He Hc Hcold]. split; cbn; try done.
  - apply Forall_forall. intros e' (e & Hx & Hr)%Hin. rewrite Forall_forall in Hrec. destruct (Hrec e Hx) as (R1 & R2 & R3 & R4 & R5 & R6).
    destruct Hr as (E1 & E2 & E3 & E4). unfold rec_ok. rewrite E2, E3. done.
  - intros a b (a0 & Ha & Ra)%Hin (b0 & Hb' & Rb)%Hin. destruct Ra as (_ & Ea & Sa & _), Rb as (_ & Eb & _ & _). rewrite Ea, Eb, Sa. by apply Hap.
  - rewrite Hg; [done|by intros ? ? (_ & ? & _)].
  - rewrite Hg; [done|by intros ? ? (? & _)].
  - unfold alen in *. by rewrite Hl.
Qed.

Lemma aset_reheat fs i e' : inv fs -> 0 <= i < alen (index fs) -> reheat (aget (index fs) i) e' -> Forall2 reheat (index fs) (aset (index fs) i e').
Proof.
  intros Hi Hr He. pose proof (inv_recs _ Hi) as Hrec. rewrite Forall_forall in Hrec.
  assert (Forall2 reheat (index fs) (index fs)) as H2.
  { apply Forall_Forall2_diag, Forall_forall. intros e Hx. apply reheat_refl. by destruct (Hrec e Hx) as (_ & _ & _ & _ & _ & ?). }
  rewrite <- (list_insert_id (index fs) (Z.to_nat i) (aget (index fs) i)) at 1 by (by apply aget_lookup).
  by apply Forall2_insert.
Qed.

Lemma update_view fs f i e' st : inv fs -> 0 <= i < alen (index fs) -> i_hash e' = i_hash (aget (index fs) i) ->
  (forall x, x ∈ index fs -> i_hash x <> i_hash e' -> rec_of f x = rec_of (file fs) x) ->
  view (set_stats (set_index (set_file fs f) (aset (index fs) i e')) st) = <[i_hash e' := rec_of f e']> (view fs).
Proof.
  intros Hi Hr Hh Hf. destruct (flash_index_split fs i Hr) as (rest & Hp & Ha). pose proof (inv_hashes _ Hi) as Hn.
  assert (i_hash <$> aset (index fs) i e' ≡ₚ i_hash <$> index fs) as Hsame by (rewrite (Ha e'), Hp; cbn; by rewrite Hh).
  assert (NoDup (i_hash <$> e' :: rest)) as Hn' by (by rewrite <- (Ha e'), Hsame).
  unfold view. cbn [index file set_stats set_index set_file].
  rewrite (list_to_map_proper (entry f <$> aset (index fs) i e') (entry f <$> (e' :: rest))); [| |by apply fmap_Permutation, Ha].
  2:{ rewrite <- list_fmap_compose. by rewrite Hsame. }
  rewrite (list_to_map_proper (entry (file fs) <$> index fs) (entry (file fs) <$> (aget (index fs) i :: rest))); [| |by apply fmap_Permutation].
  2:{ rewrite <- list_fmap_compose. exact Hn. }
  cbn. rewrite Hh, insert_insert_eq. f_equal. f_equal. apply list_fmap_ext. intros k x Hx. unfold entry. f_equal. apply Hf.
  - rewrite Hp. right. by eapply list_elem_of_lookup_2.
  - rewrite fmap_cons in Hn'. apply NoDup_cons in Hn' as [Hn' _]. intros Heq. apply Hn'. rewrite <- Heq.
    apply list_elem_of_fmap_2. by eapply list_elem_of_lookup_2.
Qed.

(** What a found entry holds. *)
Lemma find_view fs kh i : find_entry fs kh = Some i -> view fs !! kh = Some (rec_of (file fs) (aget (index fs) i)).
Proof. intros E. by rewrite view_lookup, E. Qed.

Lemma find_rec fs kh i : inv fs -> find_entry fs kh = Some i ->
  0 <= i < alen (index fs) /\ i_hash (aget (index fs) i) = kh /\ rec_ok (file fs) (write_offset fs) (aget (index fs) i).
Proof. intros Hi E. destruct (find_entry_some _ _ _ E) as (Hr & Hh & _). split_and!; [lia|lia|done|by apply inv_rec]. Qed.

Lemma find_none_view fs kh : find_entry fs kh = None -> view fs !! kh = None.
Proof. intros E. by rewrite view_lookup, E. Qed.

(** What a read of [r] answers, and the heat it leaves. *)
Definition expired (now ex : Z) : bool := (0 <? ex) && (ex <=? u32 now).

Definition spec_read (r1 r2 : bool) (now kh : Z) (b : bytes) (m : gmap Z (bytes * Z * Z)) : gmap Z (bytes * Z * Z) * ReadOut :=
  match m !! kh with
  | None => (m, mkRead (- 1) b None)
  | Some (v, ex, ht) =>
      if negb r1 then (m, mkRead (- 1) b None)
      else if expired now ex then (delete kh m, mkRead (- 1) b None)
      else if alen b <? alen v then (m, mkRead (- 2) b (Some (alen v)))
      else if negb r2 then (m, mkRead (- 1) b None)
      else (<[kh := (v, ex, Z.min 255 (ht + 1))]> m, mkRead 0 (v ++ drop (length v) b) (Some (alen v)))
  end.

Lemma view_stats fs st : view (set_stats fs st) = view fs.
Proof. done. Qed.

Lemma inv_stats fs st : inv fs -> inv (set_stats fs st).
Proof. intros [? ? ? ? ? ? ? ?]. by split. Qed.

Definition same_log (fs fs' : FlashStorage) : Prop :=
  config fs' = config fs /\ write_offset fs' = write_offset fs /\ index_cap fs' = index_cap fs /\ alen (index fs') <= alen (index fs).

Lemma flash_read_spec r1 r2 now fs kh b : inv fs -> exists fs' out, flash_read r1 r2 now fs kh b = Some (fs', out) /\
  inv fs' /\ same_log fs fs' /\ (view fs', out) = spec_read r1 r2 now kh b (view fs).
Proof.
  intros Hi. unfold flash_read, spec_read.
  assert (exists fs' out, Some (read_miss fs b) = Some (fs', out) /\ inv fs' /\ same_log fs fs' /\ (view fs', out) = (view fs, mkRead (- 1) b None)) as Hmiss.
  { eexists _, _. split; [done|]. split; [by apply inv_stats|]. done. }
  destruct (find_entry fs kh) as [i|] eqn:E; [|by rewrite find_none_view by done].
  rewrite (find_view _ _ _ E). destruct (find_rec _ _ _ Hi E) as (Hr & Hh & Hrec). pose proof (inv_end _ Hi) as [He Hlt].
  destruct r1; [|done]. cbn [negb].
  destruct (pread_hdr _ _ _ Hrec) as [-> ->]; [lia|done|]. cbn [Z.ltb Z.compare SIZEOF_HDR Pos.compare Pos.compare_cont].
  set (e := aget (index fs) i) in *. destruct (rec_of (file fs) e) as [[v ex] ht] eqn:Ev. destruct (pread_value _ _ _ Hrec) as [Hp Hl]; [lia|done|].
  rewrite Ev in Hp, Hl. cbn [fst] in Hp, Hl. set (h := hdr_of (slice (file fs) (file_offset e) SIZEOF_HDR)) in *.
  assert (slice (file fs) (file_offset e + SIZEOF_HDR + key_len h) (value_len h) = v /\ expire_unix h = ex /\ heat e = ht) as (Ev1 & Ex & Eh).
  { unfold rec_of in Ev. fold h in Ev. split_and!; congruence. }
  rewrite Ex. fold (expired now ex).
  destruct (expired now ex).
  { destruct (index_remove_inv fs i Hi Hr) as [Hi' Hv]. eexists _, _. split; [done|]. split; [done|]. split.
    - repeat split. cbn. unfold alen, aset. rewrite length_take, length_insert. unfold alen in *. lia.
    - rewrite Hv. fold e. by rewrite Hh. }
  rewrite Hl. destruct (alen b <? value_len h); [by eexists _, _|].
  destruct r2; cbn [negb]; [|done]. rewrite Hp. set (e' := if heat e <? 255 then _ else _).
  assert (reheat e e' /\ heat e' = Z.min 255 (ht + 1)) as [Hre Hht].
  { destruct Hrec as (_ & _ & _ & _ & _ & ?). unfold e', reheat. destruct (Z.ltb_spec (heat e) 255); cbn; (split; [split_and!; try done; mach|mach]). }
  eexists _, _. split; [done|]. split; [by apply reheat_inv, aset_reheat|]. split.
  - repeat split. cbn. by rewrite alen_aset.
  - f_equal. destruct Hre as (E1 & E2 & E3 & E4).
    etransitivity; [exact (update_view fs (file fs) i e' (count_read (value_len h) (stats fs)) Hi Hr E1 (fun _ _ _ => eq_refl))|].
    rewrite E1, Hh. f_equal. unfold rec_of. rewrite E2. fold h. by rewrite Ex, Hht, Ev1.
Qed.

Lemma flash_delete_spec fs kh : inv fs -> let '(fs', r) := flash_delete fs kh in
  inv fs' /\ same_log fs fs' /\ view fs' = delete kh (view fs) /\ r = (match view fs !! kh with Some _ => 1 | None => 0 end).
Proof.
  intros Hi. unfold flash_delete. destruct (find_entry fs kh) as [i|] eqn:E.
  - destruct (find_rec _ _ _ Hi E) as (Hr & Hh & _). destruct (index_remove_inv fs i Hi Hr) as [Hi' Hv]. split; [done|]. split.
    + repeat split. cbn. unfold alen, aset. rewrite length_take, length_insert. unfold alen in *. lia.
    + by rewrite Hv, Hh, (find_view _ _ _ E).
  - rewrite delete_id by (by apply find_none_view). by rewrite find_none_view.
Qed.

Lemma NoDup_fmap_inj {A B} (g : A -> B) (l : list A) x y : NoDup (g <$> l) -> x ∈ l -> y ∈ l -> g x = g y -> x = y.
Proof.
  intros Hn [i Hi]%list_elem_of_lookup [j Hj]%list_elem_of_lookup Hg. enough (i = j) as -> by congruence.
  apply (NoDup_lookup _ i j (g x) Hn); rewrite list_lookup_fmap; [by rewrite Hi|]. by rewrite Hj, Hg.
Qed.

(** Rewriting the header of a record with a new expiry time. *)
Lemma header_update fs i (ex : Z) : inv fs -> 0 <= i < alen (index fs) -> in_u 32 ex ->
  let e := aget (index fs) i in
  let h := hdr_of (slice (file fs) (file_offset e) SIZEOF_HDR) in
  let f' := write_at (file fs) (file_offset e) (hdr_bytes (mkHdr (key_hash h) (key_len h) (value_len h) ex (compressed h) (pad h))) in
  inv (set_file fs f') /\ view (set_file fs f') = <[i_hash e := ((rec_of (file fs) e).1.1, ex, heat e)]> (view fs).
Proof.
  intros Hi Hr Hex e h f'. pose proof (inv_rec fs i Hi Hr) as Hrec. fold e in Hrec. pose proof (inv_end _ Hi) as [He Hlt].
  destruct (pread_hdr _ _ _ Hrec) as [_ Hsl]; [lia|done|].
  pose proof (hdr_ranges _ (slice_bytes _ (file_offset e) SIZEOF_HDR (inv_bytes _ Hi)) Hsl) as (Rh & Rk & Rv & Re & Rc & Rp & Hpad).
  fold h in Rh, Rk, Rv, Re, Rc, Rp, Hpad. set (h' := mkHdr (key_hash h) (key_len h) (value_len h) ex (compressed h) (pad h)) in *.
  pose proof (hdr_bytes_len h' Hpad) as Hlen. pose proof Hrec as (R0 & R1 & R2 & R3 & R4 & R5). fold h in R1, R2, R3. unfold in_u in Rk, Rv.
  assert (0 <= file_offset e <= alen (file fs)) as Ho by (unfold SIZEOF_HDR in *; lia).
  assert (slice f' (file_offset e) SIZEOF_HDR = hdr_bytes h') as Hhs.
  { rewrite <- Hlen. unfold f'. pose proof (slice_write_sub (file fs) (file_offset e) [] (hdr_bytes h') [] Ho) as H. cbn [app] in H.
    by rewrite app_nil_r, Z.add_0_r in H. }
  assert (hdr_of (slice f' (file_offset e) SIZEOF_HDR) = h') as Hh' by (rewrite Hhs; by apply hdr_of_bytes).
  assert (rec_of f' e = ((rec_of (file fs) e).1.1, ex, heat e)) as Hre.
  { unfold rec_of. rewrite Hh'. fold h. cbn [key_len value_len expire_unix h' fst]. f_equal. f_equal.
    apply slice_write_apart; [done|unfold SIZEOF_HDR; lia|lia|]. rewrite Hlen. lia. }
  assert (forall x, x ∈ index fs -> i_hash x <> i_hash e -> rec_of f' x = rec_of (file fs) x /\ forall l, write_offset fs <= l -> rec_ok f' l x) as Hother.
  { intros x Hx Hne. pose proof (inv_recs _ Hi) as Ha. rewrite Forall_forall in Ha. specialize (Ha x Hx). apply (rec_frame _ _ _ _ Ha).
    intros o n ? ? ?. destruct Ha as (X0 & X1 & X2 & X3 & X4 & X5). apply slice_write_apart; [done|lia|lia|]. rewrite Hlen.
    assert (e ∈ index fs) as Hein by (by apply entry_in). destruct (Z.lt_trichotomy (file_offset x) (file_offset e)) as [Hc|[Hc|Hc]].
    - pose proof (inv_apart _ Hi x e Hx Hein Hc). lia.
    - exfalso. apply Hne. f_equal. by eapply (NoDup_fmap_inj file_offset); [apply Hi|..].
    - pose proof (inv_apart _ Hi e x Hein Hx Hc). unfold SIZEOF_HDR in *. lia. }
  assert (aset (index fs) i e = index fs) as Hid by (by apply list_insert_id, aget_lookup). split.
  - destruct Hi as [Hrecs Hap Hoff Hhs' Hb _ Hc Hcold]. split; try done; cbn.
    + apply Forall_forall. intros x Hx. destruct (decide (i_hash x = i_hash e)) as [Heq|]; [|by apply Hother].
      assert (x = e) as -> by (eapply (NoDup_fmap_inj i_hash); [exact Hhs'|done|by apply entry_in|done]).
      unfold rec_ok. rewrite Hh'. done.
    + apply write_at_bytes; [done|]. by apply hdr_bytes_is.
    + unfold f'. rewrite alen_write_at by done. rewrite Hlen. lia.
  - pose proof (update_view fs f' i e (stats fs) Hi Hr eq_refl (fun x Hx Hne => proj1 (Hother x Hx Hne))) as Hv.
    rewrite Hid, Hre in Hv. etransitivity; [|exact Hv]. done.
Qed.

Lemma flash_expire_spec (r : bool) w fs kh ex : inv fs -> in_u 32 ex -> answers w SIZEOF_HDR ->
  let '(fs', res) := flash_expire r w fs kh ex in
  inv fs' /\ same_log fs fs' /\
  match view fs !! kh with
  | Some (v, _, ht) => if r && (0 <=? w) then res = 1 /\ view fs' = <[kh := (v, ex, ht)]> (view fs) else res = 0 /\ view fs' = view fs
  | None => res = 0 /\ view fs' = view fs
  end.
Proof.
  intros Hi Hex Hw. unfold flash_expire. destruct (find_entry fs kh) as [i|] eqn:E; [|by rewrite find_none_view].
  rewrite (find_view _ _ _ E). destruct (find_rec _ _ _ Hi E) as (Hr & Hh & Hrec). pose proof (inv_end _ Hi) as [He Hlt].
  set (e := aget (index fs) i) in *. destruct (rec_of (file fs) e) as [[v ex0] ht] eqn:Ev.
  destruct r; [|done]. destruct (pread_hdr _ _ _ Hrec) as [-> ->]; [lia|done|]. rewrite Z.eqb_refl.
  destruct Hw as [Hw|Hw].
  { rewrite pwrite_fails by done. cbn. rewrite (proj2 (Z.leb_gt 0 w)) by done. split; [|done]. by destruct Hi. }
  destruct (header_update fs i ex Hi Hr Hex) as (Hi' & Hv). fold e in Hi', Hv.
  destruct (pread_hdr _ _ _ Hrec) as [_ Hsl]; [lia|done|].
  pose proof (hdr_ranges _ (slice_bytes _ (file_offset e) SIZEOF_HDR (inv_bytes _ Hi)) Hsl) as (_ & Rk & Rv & _ & _ & _ & Hpad).
  set (h := hdr_of (slice (file fs) (file_offset e) SIZEOF_HDR)) in *.
  set (h' := mkHdr (key_hash h) (key_len h) (value_len h) ex (compressed h) (pad h)) in *.
  pose proof (hdr_bytes_len h' Hpad) as Hlen. destruct Hrec as (R0 & R1 & R2 & R3 & R4 & R5). fold h in R1.
  unfold in_u in Rk, Rv. rewrite (pwrite_done w) by (unfold SIZEOF_HDR in *; lia). rewrite Hlen, Z.eqb_refl.
  rewrite (proj2 (Z.leb_le 0 w)) by (unfold SIZEOF_HDR in *; lia). cbn [andb]. split; [done|]. split; [done|]. split; [done|].
  rewrite Hv, Hh, Ev. cbn [fst]. f_equal. f_equal. unfold rec_of in Ev. congruence.
Qed.

Lemma header_read fs kh i : inv fs -> find_entry fs kh = Some i ->
  exists b v ht, pread true (file fs) SIZEOF_HDR (file_offset (aget (index fs) i)) = Some b /\ alen b = SIZEOF_HDR /\
    view fs !! kh = Some (v, expire_unix (hdr_of b), ht) /\ ht = heat (aget (index fs) i).
Proof.
  intros Hi E. destruct (find_rec _ _ _ Hi E) as (_ & _ & Hrec). pose proof (inv_end _ Hi) as [He Hlt].
  destruct (pread_hdr _ _ _ Hrec) as [? ?]; [lia|done|]. eexists _, _, _. split_and!; [done|done| |done]. by rewrite (find_view _ _ _ E).
Qed.

Definition ttl_at (now ex : Z) : Z := if ex =? 0 then - 1 else Z.max 0 (ex - now) * 1000.

Lemma flash_ttl_spec (r : bool) now fs kh : inv fs ->
  flash_ttl r now fs kh = match view fs !! kh with Some (_, ex, _) => if r then ttl_at now ex else - 2 | None => - 2 end.
Proof.
  intros Hi. unfold flash_ttl. destruct (find_entry fs kh) as [i|] eqn:E; [|by rewrite find_none_view].
  destruct (header_read _ _ _ Hi E) as (b & v & ht & Hp & Hl & -> & _). destruct r; [|done]. rewrite Hp, Hl. cbn [Z.eqb SIZEOF_HDR Pos.eqb].
  unfold ttl_at. destruct (expire_unix (hdr_of b) =? 0); [done|]. destruct (Z.ltb_spec 0 (expire_unix (hdr_of b) - now)); lia.
Qed.

Lemma flash_promote_spec fs kh : inv fs ->
  flash_should_promote fs kh = match view fs !! kh with Some (_, _, ht) => heat_hot_thresh (config fs) <=? ht | None => false end.
Proof.
  intros Hi. unfold flash_should_promote. destruct (find_entry fs kh) as [i|] eqn:E; [|by rewrite find_none_view].
  by destruct (header_read _ _ _ Hi E) as (b & v & ht & Hp & Hl & -> & ->).
Qed.

Lemma flash_flush_spec t fs : inv fs -> inv (flash_flush t fs) /\ view (flash_flush t fs) = ∅.
Proof.
  intros [Hrec Hap Ho Hh Hb He Hc Hcold]. split; [|done]. split; cbn; try done.
  - by intros a b ?%not_elem_of_nil.
  - constructor.
  - constructor.
  - by destruct t; [constructor|].
  - destruct t; unfold alen; cbn; lia.
  - unfold alen. cbn. lia.
Qed.

Definition cooler (r : bytes * Z * Z) : bytes * Z * Z := (r.1, Z.max 0 (r.2 - 1)).

Lemma cooling_spec fs : inv fs -> inv (cooling_pass fs) /\ same_log fs (cooling_pass fs) /\ view (cooling_pass fs) = cooler <$> view fs.
Proof.
  intros Hi. pose proof (inv_recs _ Hi) as Hrec. rewrite Forall_forall in Hrec.
  assert (forall e, e ∈ index fs -> reheat e (cool e) /\ heat (cool e) = Z.max 0 (heat e - 1)) as Hc.
  { intros e He. destruct (Hrec e He) as (_ & _ & _ & _ & _ & ?). unfold cool, reheat. destruct (Z.ltb_spec 0 (heat e)); cbn; (split; [split_and!; try done; mach|mach]). }
  split; [|split].
  - apply reheat_inv; [done|]. apply Forall2_fmap_r, Forall_Forall2_diag, Forall_forall. intros e He. by apply Hc.
  - repeat split. cbn. unfold alen. by rewrite length_fmap.
  - unfold view. rewrite <- list_to_map_fmap. cbn. f_equal. rewrite <- !list_fmap_compose. apply list_fmap_ext.
    intros k e He. destruct (Hc e ltac:(by eapply list_elem_of_lookup_2)) as ((E1 & E2 & E3 & E4) & E5).
    cbn. unfold entry, rec_of, cooler. rewrite E1, E2, E5. done.
Qed.

Lemma record_access_spec fs a b : inv fs -> inv (flash_record_access fs a b) /\ same_log fs (flash_record_access fs a b) /\ view (flash_record_access fs a b) = view fs.
Proof.
  intros Hi. assert (forall g, inv (set_graph fs g) /\ same_log fs (set_graph fs g) /\ view (set_graph fs g) = view fs) as H.
  { intros g. split; [by destruct Hi|done]. }
  unfold flash_record_access. destruct (_ || _ || _); [done|]. destruct (find _ _); [apply H|]. by destruct (_ <? _); [apply H|].
Qed.

(** ** Refinement

    A run: calls with what the kernel answers, the clock, and the passes of
    the cooling thread.  The specification is the map and the bytes used. *)
Inductive op :=
  | OWrite (w1 w2 w3 : Z) (realloc_ok : bool) (kh : Z) (key value : bytes) (ex : Z)
  | ORead (r1 r2 : bool) (now kh : Z) (b : bytes)
  | ODelete (kh : Z)
  | OExpire (r : bool) (w kh ex : Z)
  | OTtl (r : bool) (now kh : Z)
  | OFlush (truncated : bool)
  | OCool
  | OAccess (a b : Z)
  | OPromote (kh : Z).
Inductive out := OInt (r : Z) | ORead_ (r : ReadOut) | OBool (r : bool) | OUnit | OUndefined.

Definition step (o : op) (fs : FlashStorage) : FlashStorage * out :=
  match o with
  | OWrite w1 w2 w3 g kh key value ex =>
      match flash_write w1 w2 w3 g fs kh key value ex with Some (fs', r) => (fs', OInt r) | None => (fs, OUndefined) end
  | ORead r1 r2 now kh b => match flash_read r1 r2 now fs kh b with Some (fs', r) => (fs', ORead_ r) | None => (fs, OUndefined) end
  | ODelete kh => let '(fs', r) := flash_delete fs kh in (fs', OInt r)
  | OExpire r w kh ex => let '(fs', res) := flash_expire r w fs kh ex in (fs', OInt res)
  | OTtl r now kh => (fs, OInt (flash_ttl r now fs kh))
  | OFlush t => (flash_flush t fs, OUnit)
  | OCool => (cooling_pass fs, OUnit)
  | OAccess a b => (flash_record_access fs a b, OUnit)
  | OPromote kh => (fs, OBool (flash_should_promote fs kh))
  end.

Record Spec := mkSpec { sp_map : gmap Z (bytes * Z * Z); sp_used : Z }.

Definition spec_full (cfg : FlashConfig) (s : Spec) (n : Z) : bool :=
  (0 <? max_size_bytes cfg) && (max_size_bytes cfg <? sp_used s + SIZEOF_HDR + n).

Definition spec_step (cfg : FlashConfig) (o : op) (s : Spec) : Spec * out :=
  let m := sp_map s in
  match o with
  | OWrite w1 w2 w3 g kh key value ex =>
      let n := alen key + alen value in
      if spec_full cfg s n || (w1 <? 0) || (w2 <? 0) || (w3 <? 0) then (s, OInt (- 1))
      else (mkSpec (<[kh := (value, ex, heat_cold_thresh cfg)]> m) (sp_used s + SIZEOF_HDR + n), OInt 0)
  | ORead r1 r2 now kh b => let '(m', r) := spec_read r1 r2 now kh b m in (mkSpec m' (sp_used s), ORead_ r)
  | ODelete kh => (mkSpec (delete kh m) (sp_used s), OInt (match m !! kh with Some _ => 1 | None => 0 end))
  | OExpire r w kh ex =>
      match m !! kh with
      | Some (v, _, ht) => if r && (0 <=? w) then (mkSpec (<[kh := (v, ex, ht)]> m) (sp_used s), OInt 1) else (s, OInt 0)
      | None => (s, OInt 0)
      end
  | OTtl r now kh => (s, OInt (match m !! kh with Some (_, ex, _) => if r then ttl_at now ex else - 2 | None => - 2 end))
  | OFlush _ => (mkSpec ∅ 0, OUnit)
  | OCool => (mkSpec (cooler <$> m) (sp_used s), OUnit)
  | OAccess _ _ => (s, OUnit)
  | OPromote kh => (s, OBool (match m !! kh with Some (_, _, ht) => heat_hot_thresh cfg <=? ht | None => false end))
  end.

(** What is asked of a call: machine-width arguments, each transfer of the
    kernel fails or is complete, the index can grow ([realloc] works), and only
    a hash that is not stored is written.  [flash_short_write],
    [flash_write_unindexed] and [flash_write_twice] below say what happens
    otherwise. *)
Definition op_ok (o : op) (s : Spec) : Prop :=
  match o with
  | OWrite w1 w2 w3 g kh key value ex =>
      sp_map s !! kh = None /\ g = true /\ in_u 64 kh /\ in_u 32 ex /\ is_bytes key /\ is_bytes value /\ SIZEOF_HDR + alen key + alen value < 2 ^ 32 /\
      answers w1 SIZEOF_HDR /\ answers w2 (alen key) /\ answers w3 (alen value)
  | OExpire _ w _ ex => in_u 32 ex /\ answers w SIZEOF_HDR
  | _ => True
  end.

Fixpoint run (os : list op) (fs : FlashStorage) : FlashStorage * list out :=
  match os with
  | [] => (fs, [])
  | o :: os => let '(fs, r) := step o fs in let '(fs, rs) := run os fs in (fs, r :: rs)
  end.
Fixpoint spec_run (cfg : FlashConfig) (os : list op) (s : Spec) : Spec * list out :=
  match os with
  | [] => (s, [])
  | o :: os => let '(s, r) := spec_step cfg o s in let '(s, rs) := spec_run cfg os s in (s, r :: rs)
  end.
Fixpoint run_ok (cfg : FlashConfig) (os : list op) (s : Spec) : Prop :=
  match os with
  | [] => True
  | o :: os => op_ok o s /\ run_ok cfg os (spec_step cfg o s).1
  end.

Definition abs (fs : FlashStorage) : Spec := mkSpec (view fs) (write_offset fs).

Lemma flash_step_refines o fs : inv fs -> op_ok o (abs fs) -> write_offset fs + 2 ^ 32 < 2 ^ 62 -> index_cap fs < 2 ^ 30 ->
  let '(fs', r) := step o fs in
  inv fs' /\ (abs fs', r) = spec_step (config fs) o (abs fs) /\ config fs' = config fs /\
  write_offset fs' <= write_offset fs + 2 ^ 32 /\ alen (index fs') <= alen (index fs) + 1 /\
  index_cap fs' <= Z.max (index_cap fs) (2 * alen (index fs)).
Proof.
  intros Hi Hok Hend Hcap.
  assert (forall fs', same_log fs fs' -> config fs' = config fs /\ write_offset fs' <= write_offset fs + 2 ^ 32 /\
    alen (index fs') <= alen (index fs) + 1 /\ index_cap fs' <= Z.max (index_cap fs) (2 * alen (index fs))) as Hsame.
  { intros fs' (? & ? & ? & ?). split_and!; [done|lia..]. }
  assert (same_log fs fs) as Hsl by done.
  assert (forall fs' m, same_log fs fs' -> view fs' = m -> abs fs' = mkSpec m (write_offset fs)) as Habs.
  { intros fs' m (_ & Hw & _) <-. unfold abs. by rewrite Hw. }
  destruct o as [w1 w2 w3 g kh key value ex|r1 r2 now kh b|kh|r w kh ex|r now kh|t| |a b|kh]; cbn in Hok |- *.
  - destruct Hok as (Hf & -> & Hkh & Hex & Hk & Hv & Hs & A1 & A2 & A3).
    destruct (flash_write_spec w1 w2 w3 fs kh key value ex Hi) as (fs' & r & -> & Hi' & Hcf & Hl & Hcap' & Hres); [by split|done..|].
    split; [done|]. change (spec_full (config fs) (abs fs) (alen key + alen value)) with (full fs (alen key + alen value)).
    destruct (_ || _); destruct Hres as (-> & Hv' & Hw'); (split; [|split_and!; try done]); [|lia| |unfold SIZEOF_HDR in *; lia].
    + unfold abs. by rewrite Hv', Hw'.
    + unfold abs. rewrite Hv', Hw'. f_equal. f_equal. cbn. lia.
  - destruct (flash_read_spec r1 r2 now fs kh b Hi) as (fs' & r & -> & Hi' & Hs & Hr).
    split; [done|]. split; [|by apply Hsame]. destruct (spec_read _ _ _ _ _ _) as [m' r']. injection Hr as Hm ->. f_equal. by apply Habs.
  - pose proof (flash_delete_spec fs kh Hi) as Hd. destruct (flash_delete fs kh) as [fs' r]. destruct Hd as (Hi' & Hs & Hv & ->).
    split; [done|]. split; [|by apply Hsame]. f_equal. by apply Habs.
  - destruct Hok as [Hex Hw]. pose proof (flash_expire_spec r w fs kh ex Hi Hex Hw) as He. destruct (flash_expire r w fs kh ex) as [fs' res].
    destruct He as (Hi' & Hs & He). split; [done|]. split; [|by apply Hsame].
    destruct (view fs !! kh) as [[[v x] ht]|]; [destruct (_ && _)|]; destruct He as [-> Hv]; f_equal; by apply Habs.
  - split; [done|]. split; [|by apply Hsame]. by rewrite (flash_ttl_spec r now fs kh Hi).
  - destruct (flash_flush_spec t fs Hi) as [Hi' Hv]. split; [done|]. split; [unfold abs; by rewrite Hv|]. pose proof (alen_nonneg (index fs)).
    split_and!; [done| |unfold alen; cbn; lia|cbn; lia]. destruct (inv_end _ Hi) as [[? ?] ?]. cbn. lia.
  - destruct (cooling_spec fs Hi) as (Hi' & Hs & Hv). split; [done|]. split; [|exact (Hsame _ Hs)]. f_equal. by apply Habs.
  - destruct (record_access_spec fs a b Hi) as (Hi' & Hs & Hv). split; [done|]. split; [|exact (Hsame _ Hs)]. f_equal. by apply Habs.
  - split; [done|]. split; [|by apply Hsame]. by rewrite (flash_promote_spec fs kh Hi).
Qed.

Lemma flash_run_refines os : forall fs k, inv fs -> run_ok (config fs) os (abs fs) -> alen (index fs) <= k -> index_cap fs <= Z.max 4096 (2 * k) ->
  write_offset fs <= k * 2 ^ 32 -> 0 <= k -> k + alen os < 2 ^ 28 ->
  inv (run os fs).1 /\ (abs (run os fs).1, (run os fs).2) = spec_run (config fs) os (abs fs).
Proof.
  induction os as [|o os IH]; intros fs k Hi Hok Hl Hc Hw Hk Hn; [done|]. destruct Hok as [Ho Hok]. rewrite alen_cons in Hn.
  pose proof (alen_nonneg os). pose proof (flash_step_refines o fs Hi Ho ltac:(lia) ltac:(lia)) as Hs. cbn [run spec_run].
  destruct (step o fs) as [fs' r]. destruct Hs as (Hi' & Hs & Hcf & Hw' & Hl' & Hc'). rewrite <- Hs in Hok |- *. cbn [fst] in Hok.
  rewrite <- Hcf in Hok |- *. destruct (IH fs' (k + 1) Hi' Hok) as [Hi'' Hr]; [lia..|].
  destruct (run os fs') as [fs'' rs]. cbn in *. rewrite <- Hr. done.
Qed.

Lemma flash_create_inv cfg contents : is_bytes contents -> in_u 8 (heat_cold_thresh cfg) -> inv (flash_create cfg contents).
Proof.
  intros Hb Hc. split; cbn; try done.
  - by intros a b ?%not_elem_of_nil.
  - constructor.
  - constructor.
  - pose proof (alen_nonneg contents). lia.
  - destruct (_ =? 0); [unfold FLASH_HEAT_COLD_THRESH; mach|done].
Qed.

(** C16. The flash tier refines a map from hashes to a value, an expiry time
    and a heat, with a count of the bytes used, as long as the kernel and the
    allocator keep to [op_ok].  On any run of at most 2^28 calls and cooling
    passes from a fresh tier (whatever the file holds), in which each transfer
    fails or is complete, the index can grow, and a hash is only written while
    it is not stored, every answer is that of the specification and nothing is
    read that was not written: a write inserts, or answers -1 when the file
    would pass its size limit or a transfer fails, and then the map and the
    bytes used are what they were; a read returns the value, drops it when it
    is over, or answers -2 with the size it needs; expiry and deletion act on
    the map; the heat rises with reads and falls with cooling. *)
Theorem flash_refines cfg contents os :
  is_bytes contents -> in_u 8 (heat_cold_thresh cfg) -> alen os < 2 ^ 28 ->
  let fs := flash_create cfg contents in
  run_ok (config fs) os (mkSpec ∅ 0) ->
  inv (run os fs).1 /\ (run os fs).2 = (spec_run (config fs) os (mkSpec ∅ 0)).2 /\ abs (run os fs).1 = (spec_run (config fs) os (mkSpec ∅ 0)).1.
Proof.
  intros Hb Hc Hn fs Hok. destruct (flash_run_refines os fs 0) as [Hi Hr]; [by apply flash_create_inv|done|done|done|done|done|lia|].
  change (abs fs) with (mkSpec ∅ 0) in Hr. rewrite <- Hr. done.
Qed.

(** A write of a hash that is stored appends a second entry, which no read
    reaches: the write answers 0 and the old value stays, until a delete
    uncovers the new one. *)
Definition k1 : bytes := [107].
Definition twice : FlashStorage * list out :=
  run [OWrite 24 1 1 true 7 k1 [49] 0; OWrite 24 1 1 true 7 k1 [50] 0; ORead true true 0 7 [0; 0]; ODelete 7; ORead true true 0 7 [0; 0]]
    (flash_create (mkConfig 1024 true 0 0 0) []).
Theorem flash_write_twice :
  twice.2 = [OInt 0; OInt 0; ORead_ (mkRead 0 [49; 0] (Some 1)); OInt 1; ORead_ (mkRead 0 [50; 0] (Some 1))].
Proof. vm_compute. reflexivity. Qed.

(** A short write is taken for a whole one: the value read back is cut and
    the rest of the buffer is what it was. *)
Theorem flash_short_write :
  (run [OWrite 24 1 1 true 7 k1 [49; 50; 51] 0; ORead true true 0 7 [0; 0; 0]] (flash_create (mkConfig 0 true 0 0 0) [])).2 =
  [OInt 0; ORead_ (mkRead 0 [49; 0; 0] (Some 3))].
Proof. vm_compute. reflexivity. Qed.

(** When the index cannot grow the write answers as if it had: 0, and there is
    no entry for the record. *)
Theorem flash_write_unindexed w1 w2 w3 fs kh key value ex fs' r : alen (index fs) = index_cap fs ->
  flash_write w1 w2 w3 false fs kh key value ex = Some (fs', r) -> index fs' = index fs.
Proof.
  unfold flash_write, index_append. intros Hc. rewrite Hc, Z.leb_refl. destruct (_ && _); [by intros [= <- _]|].
  destruct (pwrite w1 _ _ _) as [f1 r1]. destruct (r1 <? 0); [by intros [= <- _]|].
  destruct (pwrite w2 _ _ _) as [f2 r2]. destruct (r2 <? 0); [by intros [= <- _]|].
  destruct (pwrite w3 _ _ _) as [f3 r3]. destruct (r3 <? 0); [by intros [= <- _]|].
  destruct (_ =? 0); [done|]. by intros [= <- _].
Qed.

(** ** Prefetch hands over what is stored *)
Section PrefetchSpec.
Context (unlikely : Z -> Z -> bool).
(* one, and the quotient of zeros, is not less than 0.7 *)
Hypothesis certain : forall n, in_u 32 n -> unlikely n n = false.

(** The two counters of an edge always move together. *)
Definition graph_ok (fs : FlashStorage) : Prop :=
  Forall (fun e => co_access_count e = total_a_count e /\ in_u 32 (co_access_count e)) (co_graph fs) /\ alen (co_graph fs) <= co_cap fs.

Lemma record_access_graph fs a b : graph_ok fs -> graph_ok (flash_record_access fs a b).
Proof.
  intros [Hg Hl]. unfold flash_record_access. destruct (_ || _ || _); [done|].
  pose proof (find_seqZ (fun i => (key_hash_a (aget (co_graph fs) i) =? a) && (key_hash_b (aget (co_graph fs) i) =? b)) (alen (co_graph fs))) as Hf.
  destruct (find _ _) as [i|].
  - destruct Hf as [Hr _]. split; cbn; [|by rewrite alen_aset]. apply Forall_aset; [done|]. cbn.
    destruct (Forall_aget _ _ i Hg Hr) as [-> _]. split; [done|]. by apply wrap_range.
  - destruct (Z.ltb_spec (alen (co_graph fs)) (co_cap fs)); [|done]. split; cbn.
    + apply Forall_app. split; [done|]. apply Forall_singleton. cbn. split; [done|mach].
    + rewrite alen_app. change (alen [_]) with 1. lia.
Qed.

Definition handed (m : gmap Z (bytes * Z * Z)) (trigger : Z) (e : CoAccessEdge) : option (Z * bytes) :=
  if key_hash_a e =? trigger then (fun r => (key_hash_b e, r.1.1)) <$> m !! key_hash_b e else None.

Definition io_works (i : Z) : bool * bool * bool := (true, true, true).

Lemma prefetch_load_spec fs i e : inv fs -> prefetch_load io_works fs i e = Some ((fun r => r.1.1) <$> view fs !! key_hash_b e).
Proof.
  intros Hi. unfold prefetch_load, io_works. destruct (find_entry fs (key_hash_b e)) as [j|] eqn:E; [|by rewrite find_none_view].
  destruct (find_rec _ _ _ Hi E) as (_ & _ & Hrec). pose proof (inv_end _ Hi) as [He Hlt]. rewrite (find_view _ _ _ E).
  destruct (pread_hdr _ _ _ Hrec) as [-> ->]; [lia|done|]. rewrite Z.ltb_irrefl. cbn [negb].
  destruct (pread_value _ _ _ Hrec) as [Hp Hl]; [lia|done|]. rewrite Hp. cbn [fmap option_fmap option_map]. by rewrite Hl, Z.ltb_irrefl.
Qed.

Lemma prefetch_loop_spec trigger fuel : forall fs i n calls, inv fs -> graph_ok fs -> 0 <= i <= alen (co_graph fs) ->
  (Z.to_nat (alen (co_graph fs) - i) < fuel)%nat ->
  exists fs', let more := omap (handed (view fs) trigger) (drop (Z.to_nat i) (co_graph fs)) in
  prefetch_loop unlikely io_works (fun _ fs => fs) fuel trigger i fs n calls = Some (fs', n + alen more, calls ++ more) /\
  view fs' = view fs /\ inv fs'.
Proof.
  induction fuel as [|fuel IH]; intros fs i n calls Hi Hg Hr Hf; [lia|]. cbn [prefetch_loop].
  destruct (Z.ltb_spec i (alen (co_graph fs))).
  - set (e := aget (co_graph fs) i). rewrite (drop_S _ e) by (apply aget_lookup; lia).
    replace (S (Z.to_nat i)) with (Z.to_nat (i + 1)) by lia. cbn [omap list_omap].
    destruct (Forall_aget _ _ i (proj1 Hg) ltac:(lia)) as [Heq Hu]. fold e in Heq, Hu. rewrite <- Heq, (certain _ Hu), orb_false_r.
    assert (handed (view fs) trigger e = if key_hash_a e =? trigger then (fun r => (key_hash_b e, r.1.1)) <$> view fs !! key_hash_b e else None) as -> by done.
    destruct (key_hash_a e =? trigger); cbn [negb]; [|apply IH; [done|done|lia|lia]].
    rewrite (prefetch_load_spec fs i e Hi). cbn [mbind option_bind]. destruct (view fs !! key_hash_b e) as [[[v ex] ht]|]; cbn [fmap option_fmap option_map fst]; [|apply IH; [done|done|lia|lia]].
    destruct (IH (set_stats fs (count_prefetch (stats fs))) (i + 1) (n + 1) (calls ++ [(key_hash_b e, v)])) as (fs' & Hrun & Hv & Hi'); [by apply inv_stats|done|cbn; lia|cbn; lia|].
    exists fs'. split; [|done]. rewrite Hrun. cbn [co_graph set_stats]. rewrite alen_cons, <- app_assoc, <- Z.add_assoc. done.
  - rewrite drop_ge by (unfold alen in *; lia). exists fs. cbn [omap list_omap]. rewrite app_nil_r, alen_nil, Z.add_0_r. done.
Qed.

(** The prefetch finishes; it hands over the stored value of the successor of
    every recorded edge of the trigger, in the order the edges were recorded,
    and changes the counters only. *)
Theorem flash_prefetch_spec fs trigger : inv fs -> graph_ok fs -> prefetch_enabled (config fs) = true ->
  exists fs', let calls := omap (handed (view fs) trigger) (co_graph fs) in
  flash_prefetch unlikely io_works (fun _ fs => fs) fs trigger = Some (fs', alen calls, calls) /\ view fs' = view fs /\ inv fs'.
Proof.
  intros Hi Hg He. unfold flash_prefetch. rewrite He. cbn [negb]. pose proof (alen_nonneg (co_graph fs)).
  destruct (prefetch_loop_spec trigger (S (Z.to_nat (co_cap fs))) fs 0 0 [] Hi Hg) as (fs' & Hr & Hv); [lia|destruct Hg; lia|].
  exists fs'. rewrite Hr. done.
Qed.
End PrefetchSpec.

(** ** Witnesses *)
Definition cfg0 : FlashConfig := mkConfig 100 true 0 0 2.
Definition script : list op := [
  OWrite 24 1 3 true 7 k1 [49; 50; 51] 0; OWrite 24 1 2 true 8 k1 [52; 53] 1000; OWrite (- 1) 1 2 true 9 k1 [52; 53] 1000;
  OWrite 24 1 60 true 9 k1 (calloc 60 48) 0; ORead true true 5 7 [0; 0; 0; 9]; OPromote 7; OCool; ORead true true 999 8 [0];
  OExpire true 24 7 6; OTtl true 4 7; ORead true true 1000 8 [0; 0]; OTtl true 5 8; ORead true true 6 7 [0; 0; 0; 0]; OFlush false;
  OWrite 30 1 2 true 7 k1 [57; 57] 0; ORead true true 5 7 [0; 0]; OAccess 7 8; ODelete 7; ODelete 7].

Lemma flash_refines_witness :
  (run script (flash_create cfg0 [255])).2 =
    [OInt 0; OInt 0; OInt (- 1); OInt (- 1); ORead_ (mkRead 0 [49; 50; 51; 9] (Some 3)); OBool true; OUnit; ORead_ (mkRead (- 2) [0] (Some 2));
     OInt 1; OInt 2000; ORead_ (mkRead (- 1) [0; 0] None); OInt (- 2); ORead_ (mkRead (- 1) [0; 0; 0; 0] None); OUnit;
     OInt 0; ORead_ (mkRead 0 [57; 57] (Some 2)); OUnit; OInt 1; OInt 0] /\
  abs (run script (flash_create cfg0 [255])).1 = mkSpec ∅ 27.
Proof.
  destruct (flash_refines cfg0 [255] script) as (_ & H1 & H2).
  - by apply Forall_singleton.
  - done.
  - done.
  - unfold script. repeat (split; [vm_compute; try done; repeat split; repeat constructor; intuition congruence|]). exact I.
  - rewrite H1, H2. split; vm_compute; reflexivity.
Defined.

Definition graph : FlashStorage :=
  (run [OWrite 24 1 3 true 7 k1 [49; 50; 51] 0; OWrite 24 1 2 true 8 k1 [52; 53] 1; OAccess 7 8; OAccess 7 9; OAccess 8 7; OAccess 7 8; OAccess 7 11;
        OWrite 24 1 1 true 11 k1 [54] 0] (flash_create cfg0 [])).1.

(** The value of hash 8, over since second 1, is handed over too. *)
Lemma flash_prefetch_witness : exists fs',
  flash_prefetch (fun c t => 10 * c <? 7 * t) io_works (fun _ fs => fs) graph 7 = Some (fs', 2, [(8, [52; 53]); (11, [54])]).
Proof.
  destruct (flash_prefetch_spec (fun c t => 10 * c <? 7 * t) ltac:(intros n Hn; apply Z.ltb_ge; destruct Hn; lia) graph 7) as (fs' & H & _).
  - apply (flash_run_refines _ (flash_create cfg0 []) 0); [by apply flash_create_inv; [constructor|]| |done..].
    repeat (split; [vm_compute; try done; repeat split; repeat constructor; intuition congruence|]). exact I.
  - split; [repeat constructor; done|by vm_compute].
  - done.
  - exists fs'. exact H.
Defined.
