(* ===== verification/FlashApi.v ===== *)
(** * The flash adapter of the storage interface (src/src/core/nexstorage.c)

    [NexFlashAPI]: the operations of the storage interface over the flash
    tier.  A key is known by its hash only.  [Io] says what the kernel and
    [realloc] answer during a call; [tl_buf] is the buffer of the thread that
    [flashapi_get] reads into and returns; [fl_fault] marks a run that used
    bytes that were never set. *)
From S2P Require Import Prelude StorageApi Flash.

Record Io := mkIo { io_w1 : Z; io_w2 : Z; io_w3 : Z; io_realloc : bool; io_r1 : bool; io_r2 : bool }.
Record FlBackend := mkFl { fl : FlashStorage; tl_buf : bytes; fl_fault : bool }.

Definition FLASH_BUF : Z := 1024 * 1024.

(** A [char] of the key is signed. *)
Definition flash_hash_fnv1a (key : bytes) : Z :=
  fold_left (fun hash c => Z.lxor hash (u64 (swrap 8 c)) *64 0x100000001b3) key 0xcbf29ce484222325.

Definition flashapi_create (contents : bytes) : FlBackend :=
  mkFl (flash_create (mkConfig (1024 * 1024 * 1024) true 5000 0 0) contents) (calloc FLASH_BUF 0) false.

Definition seconds (c : Ctx) : Z := now_us c / 1000000.
Definition expire_of (c : Ctx) (ttl_ms : Z) : Z := if 0 <=? ttl_ms then u32 (seconds c + ttl_ms / 1000) else 0.

Section Adapter.
Context (io : Io).

Definition flashapi_get (c : Ctx) (b : FlBackend) (k : bytes) : FlBackend * NexStorageResult * option NexEntry :=
  match flash_read (io_r1 io) (io_r2 io) (seconds c) (fl b) (flash_hash_fnv1a k) (tl_buf b) with
  | None => (mkFl (fl b) (tl_buf b) true, NEXS_ERROR, None)
  | Some (fs, r) =>
      let b' := mkFl fs (buf r) (fl_fault b) in
      if negb (rc r =? 0) then (b', NEXS_NOT_FOUND, None)
      else
        let vlen := default 0 (value_len_out r) in
        (b', NEXS_OK, Some (mkEntry (Some (take (Z.to_nat vlen) (buf r))) NEXDT_STRING (- 1) 0))
  end.

Definition flashapi_set (c : Ctx) (b : FlBackend) (k v : bytes) (type ttl_ms : Z) : FlBackend * NexStorageResult :=
  match flash_write (io_w1 io) (io_w2 io) (io_w3 io) (io_realloc io) (fl b) (flash_hash_fnv1a k) k v (expire_of c ttl_ms) with
  | None => (mkFl (fl b) (tl_buf b) true, NEXS_ERROR)
  | Some (fs, r) => (mkFl fs (tl_buf b) (fl_fault b), if r =? 0 then NEXS_OK else NEXS_ERROR)
  end.

Definition flashapi_del (c : Ctx) (b : FlBackend) (k : bytes) : FlBackend * NexStorageResult :=
  let '(fs, r) := flash_delete (fl b) (flash_hash_fnv1a k) in
  (mkFl fs (tl_buf b) (fl_fault b), if 0 <? r then NEXS_OK else NEXS_NOT_FOUND).

Definition flashapi_exists (c : Ctx) (b : FlBackend) (k : bytes) : FlBackend * bool :=
  match flash_read (io_r1 io) (io_r2 io) (seconds c) (fl b) (flash_hash_fnv1a k) [] with
  | None => (mkFl (fl b) (tl_buf b) true, false)
  | Some (fs, r) => (mkFl fs (tl_buf b) (fl_fault b), (rc r =? - 2) || (0 <? default 0 (value_len_out r)))
  end.

(** There is no read-modify-write. *)
Definition NexFlashAPI : NexStorageAPI FlBackend := mkApi flashapi_get flashapi_set flashapi_del flashapi_exists None.
End Adapter.

Definition flashapi_expire (r : bool) (w : Z) (c : Ctx) (b : FlBackend) (k : bytes) (ttl_ms : Z) : FlBackend * NexStorageResult :=
  let '(fs, res) := flash_expire r w (fl b) (flash_hash_fnv1a k) (expire_of c ttl_ms) in
  (mkFl fs (tl_buf b) (fl_fault b), if res =? 1 then NEXS_OK else NEXS_NOT_FOUND).

Definition flashapi_ttl (r : bool) (c : Ctx) (b : FlBackend) (k : bytes) : Z := flash_ttl r (seconds c) (fl b) (flash_hash_fnv1a k).

Definition flashapi_flush (truncated : bool) (b : FlBackend) : FlBackend := mkFl (flash_flush truncated (fl b)) (tl_buf b) (fl_fault b).

(** ** What the adapter keeps

    [fl_ok]: the tier is in order. *)
Definition fl_ok (b : FlBackend) : Prop := inv (fl b) /\ alen (tl_buf b) = FLASH_BUF.
Definition fl_room (b : FlBackend) (k v : bytes) : Prop :=
  is_bytes k /\ is_bytes v /\ SIZEOF_HDR + alen k + alen v < 2 ^ 32 /\ write_offset (fl b) + 2 ^ 32 < 2 ^ 62 /\ index_cap (fl b) < 2 ^ 30.
Definition io_ok (io : Io) (k v : bytes) : Prop :=
  answers (io_w1 io) SIZEOF_HDR /\ answers (io_w2 io) (alen k) /\ answers (io_w3 io) (alen v) /\ io_realloc io = true /\ io_r1 io = true /\ io_r2 io = true.

Lemma hash_range k : in_u 64 (flash_hash_fnv1a k).
Proof.
  assert (forall h, in_u 64 h -> in_u 64 (fold_left (fun hash c => Z.lxor hash (u64 (swrap 8 c)) *64 0x100000001b3) k h)) as H.
  { induction k as [|c k IH]; intros h Hh; cbn; [done|]. apply IH. by apply wrap_range. }
  apply H. mach.
Qed.

Lemma expire_range c ttl : in_u 32 (expire_of c ttl).
Proof. unfold expire_of. destruct (0 <=? ttl); [by apply wrap_range|mach]. Qed.

(** A read of the adapter is a read of the map. *)
Lemma api_read_spec c b kh v : fl_ok b -> exists fs out, flash_read true true (seconds c) (fl b) kh v = Some (fs, out) /\
  inv fs /\ (view fs, out) = spec_read true true (seconds c) kh v (view (fl b)).
Proof. intros [Hi _]. destruct (flash_read_spec true true (seconds c) (fl b) kh v Hi) as (fs & out & H1 & H2 & _ & H3). by exists fs, out. Qed.

(** What the adapter answers for a key whose hash is stored as [r]. *)
Definition get_answer (now : Z) (r : option (bytes * Z * Z)) : NexStorageResult * option NexEntry :=
  match r with
  | Some (v, ex, _) =>
      if expired now ex || (FLASH_BUF <? alen v) then (NEXS_NOT_FOUND, None) else (NEXS_OK, Some (mkEntry (Some v) NEXDT_STRING (- 1) 0))
  | None => (NEXS_NOT_FOUND, None)
  end.
Definition exists_answer (now : Z) (r : option (bytes * Z * Z)) : bool :=
  match r with Some (v, ex, _) => negb (expired now ex) && (0 <? alen v) | None => false end.

(** The flash adapter on a tier in order whose kernel calls work.  GET
    answers the value stored for the hash of the key, unless it is over or
    longer than the 1 MB buffer; EXISTS answers from the same value, but says
    no for an empty one; DEL removes it and says whether it was there; SET of
    a key whose hash is not stored either finds the file full and changes
    nothing, or stores the value with the expiry time of the TTL in whole
    seconds.  All of them keep the tier in order. *)
Theorem flashapi_correct io c b k : fl_ok b -> io_r1 io = true -> io_r2 io = true ->
  let kh := flash_hash_fnv1a k in
  (forall b' r e, flashapi_get io c b k = (b', r, e) -> fl_ok b' /\ fl_fault b' = fl_fault b /\ (r, e) = get_answer (seconds c) (view (fl b) !! kh)) /\
  (forall b' r, flashapi_exists io c b k = (b', r) -> fl_ok b' /\ fl_fault b' = fl_fault b /\ r = exists_answer (seconds c) (view (fl b) !! kh)) /\
  (forall b' r, flashapi_del c b k = (b', r) -> fl_ok b' /\ view (fl b') = delete kh (view (fl b)) /\
     r = if bool_decide (is_Some (view (fl b) !! kh)) then NEXS_OK else NEXS_NOT_FOUND) /\
  (forall v type ttl b' r, io_ok io k v -> fl_room b k v -> view (fl b) !! kh = None -> flashapi_set io c b k v type ttl = (b', r) ->
     fl_ok b' /\ fl_fault b' = fl_fault b /\
     if full (fl b) (alen k + alen v) || (io_w1 io <? 0) || (io_w2 io <? 0) || (io_w3 io <? 0) then r = NEXS_ERROR /\ view (fl b') = view (fl b)
     else r = NEXS_OK /\ view (fl b') = <[kh := (v, expire_of c ttl, heat_cold_thresh (config (fl b)))]> (view (fl b))).
Proof.
  intros Hok R1 R2 kh. pose proof Hok as [Hi Hbuf]. split_and!.
  - intros b' r e. unfold flashapi_get. rewrite R1, R2. fold kh. destruct (api_read_spec c b kh (tl_buf b) Hok) as (fs & o & -> & Hi' & Ho).
    unfold spec_read in Ho. unfold get_answer. rewrite <- Hbuf. destruct (view (fl b) !! kh) as [[[v ex] ht]|]; cbn [negb] in Ho.
    + destruct (expired _ ex); cbn [orb]; [injection Ho as _ ->; intros [= <- <- <-]; by split|].
      destruct (Z.ltb_spec (alen (tl_buf b)) (alen v)); injection Ho as _ ->; intros [= <- <- <-]; [by split|].
      split; [split; [done|]|]; cbn.
      * rewrite alen_app. rewrite <- Hbuf. unfold alen in *. rewrite length_drop. lia.
      * split; [done|]. unfold alen. rewrite Nat2Z.id. by rewrite take_app_length.
    + injection Ho as _ ->. intros [= <- <- <-]. by split.
  - intros b' r. unfold flashapi_exists. rewrite R1, R2. fold kh. destruct (api_read_spec c b kh [] Hok) as (fs & o & -> & Hi' & Ho).
    unfold spec_read in Ho. unfold exists_answer. destruct (view (fl b) !! kh) as [[[v ex] ht]|]; cbn [negb] in Ho.
    + destruct (expired _ ex); cbn [negb andb]; [injection Ho as _ ->; intros [= <- <-]; by split|]. rewrite alen_nil in Ho.
      destruct (Z.ltb_spec 0 (alen v)); injection Ho as _ ->; intros [= <- <-]; (split; [by split|]); (split; [done|]); cbn.
      * done.
      * apply Z.ltb_ge. done.
    + injection Ho as _ ->. intros [= <- <-]. by split.
  - intros b' r. unfold flashapi_del. fold kh. pose proof (flash_delete_spec (fl b) kh Hi) as Hd. destruct (flash_delete (fl b) kh) as [fs res].
    destruct Hd as (Hi' & _ & Hv & ->). intros [= <- <-]. split; [by split|]. split; [done|]. by destruct (view (fl b) !! kh).
  - intros v type ttl b' r (A1 & A2 & A3 & A4 & _) (Bk & Bv & Bs & Be & Bc) Hf. unfold flashapi_set. rewrite A4. fold kh.
    destruct (flash_write_spec (io_w1 io) (io_w2 io) (io_w3 io) (fl b) kh k v (expire_of c ttl) Hi) as (fs & res & -> & Hi' & _ & _ & _ & Hres);
      [split; [apply hash_range|apply expire_range|done..]|done..|].
    intros [= <- <-]. cbn. destruct (_ || _); destruct Hres as (-> & Hv & _); by split_and!.
Qed.

(** A TTL under a second is over at once: it is cut to whole seconds, and an
    expiry time equal to the clock counts as passed. *)
Theorem flashapi_short_ttl c ttl : 0 <= ttl < 1000 -> 0 < seconds c < 2 ^ 32 -> expired (seconds c) (expire_of c ttl) = true.
Proof.
  intros Ht Hs. unfold expired, expire_of. rewrite (proj2 (Z.leb_le 0 ttl)) by lia. rewrite (Z.div_small ttl) by lia. rewrite Z.add_0_r.
  rewrite wrap_small by mach. by rewrite (proj2 (Z.ltb_lt _ _)), Z.leb_refl by lia.
Qed.

(** ** Witness *)
Definition io1 : Io := mkIo 24 1 2 true true true.
Definition ctx1 : Ctx := mkCtx 5000000 true true None.
Definition key1 : bytes := [107].
Definition small : FlBackend := mkFl (flash_create (mkConfig 100 true 0 0 0) []) (calloc FLASH_BUF 0) false.

Lemma small_ok : fl_ok small.
Proof. split; [by apply flash_create_inv; [constructor|]|]. by apply alen_calloc. Qed.

Lemma flashapi_correct_witness : exists b1, flashapi_set io1 ctx1 small key1 [49; 50] 0 (- 1) = (b1, NEXS_OK) /\
  view (fl b1) = {[flash_hash_fnv1a key1 := ([49; 50], 0, 15)]} /\ (flashapi_del ctx1 small key1).2 = NEXS_NOT_FOUND.
Proof.
  destruct (flashapi_correct io1 ctx1 small key1 small_ok eq_refl eq_refl) as (_ & _ & Hd & Hs).
  destruct (flashapi_set io1 ctx1 small key1 [49; 50] 0 (- 1)) as [b1 r] eqn:E. destruct (flashapi_del ctx1 small key1) as [b2 r2] eqn:E2.
  destruct (Hs [49; 50] 0 (- 1) b1 r) as (_ & _ & H); [| |done|done|].
  - by split_and!; [right|right|right|..].
  - split; [by apply Forall_singleton|]. split; [repeat (apply Forall_cons; split; [mach|]); constructor|]. split; [by vm_compute|].
    change (write_offset (fl small)) with 0. change (index_cap (fl small)) with 4096. split; lia.
  - destruct H as [-> H]. destruct (Hd b2 r2 eq_refl) as (_ & _ & ->). exists b1. split; [reflexivity|]. split; [exact H|reflexivity].
Defined.
