(* ===== verification/ClusterRing.v ===== *)
(** * The sharding of the engines (src/src/cluster/cluster.c)

    A table of nodes, the consistent-hash ring of 150 virtual nodes per node,
    and the table from slots to nodes that every change of the membership
    rebuilds.  Calls hold the lock of the table, so each is one step.  The
    array of nodes has 128 elements of which the first [node_count] are in use;
    what a removal leaves behind the last one is still there when the element
    is used again.  [qsort] is a parameter: its result is a sorted permutation.
    Host names, load figures, the unused counters and printing are left out. *)
From stdpp Require Import sorting.
From S2P Require Import Prelude IntString Slots.

Definition CLUSTER_MAX_NODES : Z := 128.
Definition CLUSTER_VIRTUAL_NODES : Z := 150.
Definition CLUSTER_RING_SIZE : Z := CLUSTER_MAX_NODES * CLUSTER_VIRTUAL_NODES.
Definition CLUSTER_SLOT_COUNT : Z := 16384.

Inductive ClusterNodeState := CNODE_ACTIVE | CNODE_SUSPECT | CNODE_FAILED | CNODE_JOINING | CNODE_LEAVING.

#[export] Instance ClusterNodeState_eq : EqDecision ClusterNodeState.
Proof. solve_decision. Defined.

Record ClusterNode := mkNode { id : Z; port : Z; state : ClusterNodeState; last_ping_us : Z; last_pong_us : Z; slot_start : Z; slot_end : Z; is_master : Z }.

#[export] Instance ClusterNode_inhabited : Inhabited ClusterNode := populate (mkNode 0 0 CNODE_ACTIVE 0 0 0 0 0).

Record RingEntry := mkEntry { hash : Z; node_id : Z }.

#[export] Instance RingEntry_inhabited : Inhabited RingEntry := populate (mkEntry 0 0).

Record ClusterIndex := mkIndex { nodes : list ClusterNode; node_count : Z; self_idx : Z; ring : list RingEntry; slot_to_node : list Z; failovers : Z; key_lookups : Z }.

Definition set_state (n : ClusterNode) (s : ClusterNodeState) : ClusterNode :=
  mkNode (id n) (port n) s (last_ping_us n) (last_pong_us n) (slot_start n) (slot_end n) (is_master n).

Definition set_pong (n : ClusterNode) (t : Z) : ClusterNode :=
  mkNode (id n) (port n) (state n) (last_ping_us n) t (slot_start n) (slot_end n) (is_master n).

(** ** Slots of keys *)
Definition CRC16_TABLE : list Z := [
   0x0000; 0x1021; 0x2042; 0x3063; 0x4084; 0x50a5; 0x60c6; 0x70e7; 0x8108; 0x9129; 0xa14a; 0xb16b; 0xc18c; 0xd1ad; 0xe1ce; 0xf1ef;
   0x1231; 0x0210; 0x3273; 0x2252; 0x52b5; 0x4294; 0x72f7; 0x62d6; 0x9339; 0x8318; 0xb37b; 0xa35a; 0xd3bd; 0xc39c; 0xf3ff; 0xe3de;
   0x2462; 0x3443; 0x0420; 0x1401; 0x64e6; 0x74c7; 0x44a4; 0x5485; 0xa56a; 0xb54b; 0x8528; 0x9509; 0xe5ee; 0xf5cf; 0xc5ac; 0xd58d;
   0x3653; 0x2672; 0x1611; 0x0630; 0x76d7; 0x66f6; 0x5695; 0x46b4; 0xb75b; 0xa77a; 0x9719; 0x8738; 0xf7df; 0xe7fe; 0xd79d; 0xc7bc;
   0x4864; 0x5845; 0x6826; 0x7807; 0x08e0; 0x18c1; 0x28a2; 0x38c3; 0xc92c; 0xd90d; 0xe96e; 0xf94f; 0x89a8; 0x99b9; 0xa9da; 0xb9fb;
   0x5a55; 0x4a74; 0x7a17; 0x6a36; 0x1ad1; 0x0af0; 0x3a93; 0x2ab2; 0xdb5d; 0xcb7c; 0xfb1f; 0xeb3e; 0x9bd9; 0x8bf8; 0xbb9b; 0xabbe;
   0x6c66; 0x7c47; 0x4c24; 0x5c05; 0x2ce2; 0x3cc3; 0x0ca0; 0x1c81; 0xed6e; 0xfd4f; 0xcd2c; 0xdd0d; 0xadea; 0xbdcb; 0x8da8; 0x9d89;
   0x7e57; 0x6e76; 0x5e15; 0x4e34; 0x3ed3; 0x2ef2; 0x1e91; 0x0eb0; 0xff5f; 0xef7e; 0xdf1d; 0xcf3c; 0xbffb; 0xafda; 0x9fb9; 0x8f98;
   0x9168; 0x8149; 0xb12a; 0xa10b; 0xd1ec; 0xc1cd; 0xf1ae; 0xe18f; 0x1060; 0x0041; 0x3022; 0x2003; 0x50e4; 0x40c5; 0x70a6; 0x6087;
   0x8368; 0x9349; 0xa32a; 0xb30b; 0xc3ec; 0xd3cd; 0xe3ae; 0xf38f; 0x0260; 0x1241; 0x2222; 0x3203; 0x42e4; 0x52c5; 0x62a6; 0x7287;
   0xb51b; 0xa53a; 0x9559; 0x8578; 0xf59f; 0xe5be; 0xd5dd; 0xc5fc; 0x3413; 0x2432; 0x1451; 0x0470; 0x7497; 0x64b6; 0x54d5; 0x44f4;
   0xc713; 0xd732; 0xe751; 0xf770; 0x8797; 0x97b6; 0xa7d5; 0xb7f4; 0x461b; 0x563a; 0x6659; 0x7678; 0x069f; 0x16be; 0x26dd; 0x36fc;
   0xd98d; 0xc9ac; 0xf9cf; 0xe9ee; 0x990b; 0x892a; 0xb949; 0xa968; 0x5876; 0x4857; 0x7834; 0x6815; 0x18f2; 0x08d3; 0x38b0; 0x28c1;
   0xeb2f; 0xfb0e; 0xcb6d; 0xdb4c; 0xabab; 0xbb8a; 0x8be9; 0x9bc8; 0x6a27; 0x7a06; 0x4a65; 0x5a44; 0x2aa3; 0x3a82; 0x0ae1; 0x1ac0;
   0xed86; 0xfda7; 0xcdc4; 0xdde5; 0xad02; 0xbd23; 0x8d40; 0x9d61; 0x6caf; 0x7c8e; 0x4ced; 0x5ccc; 0x2c2b; 0x3c0a; 0x0c69; 0x1c48;
   0xcfdf; 0xdfbe; 0xeffd; 0xffdc; 0x8f3b; 0x9f1a; 0xaf79; 0xbf58; 0x7eb7; 0x6e96; 0x5ef5; 0x4ed4; 0x3e33; 0x2e12; 0x1e71; 0x0e50].

Definition crc16 (buf : bytes) : Z := fold_left (crc16_step CRC16_TABLE) buf 0.

Definition cluster_key_to_slot (key : bytes) : Z :=
  if alen key =? 0 then 0
  else
    match find_char LBRACE key with
    | Some (_, rest) =>
        match find_char RBRACE rest with
        | Some (c :: tag, _) => crc16 (c :: tag) mod CLUSTER_SLOT_COUNT
        | _ => crc16 key mod CLUSTER_SLOT_COUNT
        end
    | None => crc16 key mod CLUSTER_SLOT_COUNT
    end.

Definition fnv1a_64 (data : bytes) : Z := fold_left (fun h b => Z.lxor h b *64 1099511628211) data 14695981039346656037.

(** ** The ring *)

(** ["%u#vn%d"], ["@slot%d"] *)
Definition vnode_key (id v : Z) : bytes := decimal id ++ [35; 118; 110] ++ decimal v.
Definition slot_key (slot : Z) : bytes := [64; 115; 108; 111; 116] ++ decimal slot.

Definition vnodes (id : Z) : list RingEntry :=
  map (fun v => mkEntry (fnv1a_64 (vnode_key id v)) id) (seqZ 0 CLUSTER_VIRTUAL_NODES).

Definition is_failed (n : ClusterNode) : bool := match state n with CNODE_FAILED => true | _ => false end.

(** The entries before sorting; the loops stop when the array is full. *)
Definition ring_entries (ns : list ClusterNode) : list RingEntry :=
  take (Z.to_nat CLUSTER_RING_SIZE) (concat (map (fun n => if is_failed n then [] else vnodes (id n)) ns)).

(** The binary search; the result is [found]. *)
Fixpoint search_loop (fuel : nat) (r : list RingEntry) (h lo hi found : Z) : option Z :=
  if hi <? lo then Some found
  else
    match fuel with
    | O => None
    | S fuel =>
        let mid := (lo + hi) / 2 in
        if h <=? hash (aget r mid) then search_loop fuel r h lo (mid - 1) mid else search_loop fuel r h (mid + 1) hi found
    end.

(** [slot_to_node[slot]] after the loop, if the ring has entries. *)
Definition slot_owner (r : list RingEntry) (slot : Z) : option Z :=
  found ← search_loop (S (length r)) r (fnv1a_64 (slot_key slot)) 0 (alen r - 1) 0;
  Some (i32 (node_id (aget r (found mod alen r)))).

Definition slot_table (r : list RingEntry) (old : list Z) : option (list Z) :=
  if 0 <? alen r then mapM (slot_owner r) (seqZ 0 CLUSTER_SLOT_COUNT) else Some old.

Section cluster.
Context (qsort : list RingEntry -> list RingEntry).

Definition rebuild_ring (ci : ClusterIndex) : option ClusterIndex :=
  let r := qsort (ring_entries (take (Z.to_nat (node_count ci)) (nodes ci))) in
  table ← slot_table r (slot_to_node ci);
  Some (mkIndex (nodes ci) (node_count ci) (self_idx ci) r table (failovers ci) (key_lookups ci)).

Definition set_nodes (ci : ClusterIndex) (ns : list ClusterNode) (count : Z) : ClusterIndex :=
  mkIndex ns count (self_idx ci) (ring ci) (slot_to_node ci) (failovers ci) (key_lookups ci).

Definition zero_node : ClusterNode := mkNode 0 0 CNODE_ACTIVE 0 0 0 0 0.

Definition cluster_init (self_id port now : Z) : option ClusterIndex :=
  let self := mkNode self_id port CNODE_ACTIVE now 0 0 (CLUSTER_SLOT_COUNT - 1) 1 in
  rebuild_ring (mkIndex (aset (calloc CLUSTER_MAX_NODES zero_node) 0 self) 1 0 [] (calloc CLUSTER_SLOT_COUNT 0) 0 0).

(** The index of the node in the first [k] elements. *)
Fixpoint find_node (id_ : Z) (ns : list ClusterNode) : option Z :=
  match ns with
  | [] => None
  | n :: ns => if id n =? id_ then Some 0 else i ← find_node id_ ns; Some (i + 1)
  end.

Definition members (ci : ClusterIndex) : list ClusterNode := take (Z.to_nat (node_count ci)) (nodes ci).

Definition cluster_add_node (ci : ClusterIndex) (id_ port start end_ now : Z) : option (ClusterIndex * Z) :=
  if CLUSTER_MAX_NODES <=? node_count ci then Some (ci, - 1)
  else
    match find_node id_ (members ci) with
    | Some _ => Some (ci, - 1)
    | None =>
        let k := node_count ci in
        let n := mkNode id_ port CNODE_JOINING now (last_pong_us (aget (nodes ci) k)) start end_ 1 in
        ci ← rebuild_ring (set_nodes ci (aset (nodes ci) k n) (k + 1));
        Some (set_nodes ci (aset (nodes ci) k (set_state n CNODE_ACTIVE)) (node_count ci), 0)
    end.

Definition cluster_remove_node (ci : ClusterIndex) (id_ : Z) : option (ClusterIndex * Z) :=
  match find_node id_ (members ci) with
  | None => Some (ci, - 1)
  | Some i =>
      let ns := aset (nodes ci) i (set_state (aget (nodes ci) i) CNODE_LEAVING) in
      let k := Z.to_nat (node_count ci - i - 1) in
      (* memmove(&nodes[i], &nodes[i + 1], k) *)
      let ns := take (Z.to_nat i) ns ++ take k (drop (Z.to_nat (i + 1)) ns) ++ drop (Z.to_nat i + k) ns in
      ci ← rebuild_ring (set_nodes ci ns (node_count ci - 1)); Some (ci, 0)
  end.

Definition fail_node (ci : ClusterIndex) (i : Z) : option ClusterIndex :=
  rebuild_ring (mkIndex (aset (nodes ci) i (set_state (aget (nodes ci) i) CNODE_FAILED)) (node_count ci) (self_idx ci) (ring ci) (slot_to_node ci)
    (failovers ci +64 1) (key_lookups ci)).

Definition cluster_mark_failed (ci : ClusterIndex) (id_ : Z) : option (ClusterIndex * Z) :=
  match find_node id_ (members ci) with
  | None => Some (ci, - 1)
  | Some i => ci ← fail_node ci i; Some (ci, 0)
  end.

Definition cluster_key_to_node (ci : ClusterIndex) (key : bytes) : ClusterIndex * Z :=
  (mkIndex (nodes ci) (node_count ci) (self_idx ci) (ring ci) (slot_to_node ci) (failovers ci) (key_lookups ci +64 1),
   u32 (aget (slot_to_node ci) (cluster_key_to_slot key))).

Definition cluster_key_is_local (ci : ClusterIndex) (key : bytes) : ClusterIndex * bool :=
  if self_idx ci <? 0 then (ci, true)
  else let '(ci, node) := cluster_key_to_node ci key in (ci, node =? id (aget (nodes ci) (self_idx ci))).

Definition cluster_handle_pong (ci : ClusterIndex) (from_id now : Z) : ClusterIndex * Z :=
  match find_node from_id (members ci) with
  | None => (ci, - 1)
  | Some i =>
      let n := set_pong (aget (nodes ci) i) now in
      let n := match state n with CNODE_SUSPECT => set_state n CNODE_ACTIVE | _ => n end in
      (set_nodes ci (aset (nodes ci) i n) (node_count ci), 0)
  end.

(** One turn of the loop of [cluster_check_failures]. *)
Definition check_node (now : Z) (ci : ClusterIndex) (i : Z) : option ClusterIndex :=
  if i =? self_idx ci then Some ci
  else
    let n := aget (nodes ci) i in
    let since_pong := now -64 last_pong_us n in
    match state n with
    | CNODE_ACTIVE => Some (if 5000000 <? since_pong then set_nodes ci (aset (nodes ci) i (set_state n CNODE_SUSPECT)) (node_count ci) else ci)
    | CNODE_SUSPECT => if 15000000 <? since_pong then fail_node ci i else Some ci
    | _ => Some ci
    end.

Definition cluster_check_failures (ci : ClusterIndex) (now : Z) : option ClusterIndex :=
  fold_left (fun ci i => ci ← ci; check_node now ci i) (seqZ 0 (node_count ci)) (Some ci).
End cluster.

(** ** The entry that follows a hash on the ring *)
Definition successor (h : Z) (e : RingEntry) (S : list RingEntry) : Prop :=
  e ∈ S /\ ((h <= hash e /\ forall e', e' ∈ S -> h <= hash e' -> hash e <= hash e') \/
            ((forall e', e' ∈ S -> hash e' < h) /\ forall e', e' ∈ S -> hash e <= hash e')).

Definition owns (S : list RingEntry) (h id : Z) : Prop := exists e, successor h e S /\ node_id e = id.

Definition sorted (r : list RingEntry) : Prop := StronglySorted (fun a b => hash a <= hash b) r.

Lemma sorted_aget r i j : sorted r -> 0 <= i <= j -> j < alen r -> hash (aget r i) <= hash (aget r j).
Proof.
  intros Hs Hij Hj. destruct (Z.eq_dec i j) as [->|Hne]; [done|].
  pose proof (aget_lookup r i ltac:(lia)) as Hi. pose proof (aget_lookup r j ltac:(lia)) as Hjl.
  rewrite <- (take_drop (Z.to_nat j) r) in Hs. apply (StronglySorted_app_1_elem_of _ _ _ _ _ Hs).
  - apply list_elem_of_lookup. exists (Z.to_nat i). rewrite lookup_take_lt by lia. done.
  - apply list_elem_of_lookup. exists O. rewrite lookup_drop. by rewrite Nat.add_0_r.
Qed.

Lemma aget_elem (r : list RingEntry) i : 0 <= i < alen r -> aget r i ∈ r.
Proof. intros Hi. apply list_elem_of_lookup. exists (Z.to_nat i). by apply aget_lookup. Qed.

Lemma elem_aget (r : list RingEntry) e : e ∈ r -> exists i, 0 <= i < alen r /\ aget r i = e.
Proof.
  intros (i & Hi)%list_elem_of_lookup. exists (Z.of_nat i). pose proof (lookup_lt_Some _ _ _ Hi). split; [unfold alen; lia|].
  unfold aget. rewrite Nat2Z.id. by apply list_lookup_total_correct.
Qed.

(** Everything below [lo] is smaller than [h], [found] is the first entry
    known not to be. *)
Lemma ring_search_spec fuel r h : sorted r -> forall lo hi found, 0 <= lo -> hi < alen r -> lo <= hi + 1 -> (Z.to_nat (hi + 1 - lo) <= fuel)%nat ->
  (forall i, 0 <= i < lo -> hash (aget r i) < h) ->
  (hi + 1 < alen r /\ found = hi + 1 /\ h <= hash (aget r found) \/ hi + 1 = alen r /\ found = 0) ->
  exists f, search_loop fuel r h lo hi found = Some f /\
    (0 <= f < alen r /\ h <= hash (aget r f) /\ (forall i, 0 <= i < f -> hash (aget r i) < h) \/
     f = 0 /\ forall i, 0 <= i < alen r -> hash (aget r i) < h).
Proof.
  intros Hs. induction fuel as [|fuel IH]; intros lo hi found Hlo Hhi Hle Hf Hbelow Hfound; cbn [search_loop].
  - rewrite (proj2 (Z.ltb_lt _ _)) by lia. exists found. split; [done|]. assert (lo = hi + 1) as -> by lia. destruct Hfound as [(H1 & -> & H2)|[H1 ->]].
    + left. split; [lia|]. by split.
    + right. split; [done|]. intros i Hi. apply Hbelow. lia.
  - destruct (Z.ltb_spec hi lo) as [Hl|Hl].
    { exists found. split; [done|]. assert (lo = hi + 1) as -> by lia. destruct Hfound as [(H1 & -> & H2)|[H1 ->]].
      - left. split; [lia|]. by split.
      - right. split; [done|]. intros i Hi. apply Hbelow. lia. }
    assert (lo <= (lo + hi) / 2 <= hi) as Hmid by (split; [apply Z.div_le_lower_bound|apply Z.div_le_upper_bound]; lia). set (mid := (lo + hi) / 2) in *.
    destruct (Z.leb_spec h (hash (aget r mid))) as [Hge|Hlt].
    + apply IH; try lia; try done.
    + apply IH; try lia; try done. intros i Hi. pose proof (sorted_aget r i mid Hs). lia.
Qed.

Lemma slot_owner_spec r slot : sorted r -> 0 < alen r -> exists e, slot_owner r slot = Some (i32 (node_id e)) /\ successor (fnv1a_64 (slot_key slot)) e r.
Proof.
  intros Hs Hr. unfold slot_owner. generalize (fnv1a_64 (slot_key slot)) as h. intros h.
  destruct (ring_search_spec (S (length r)) r h Hs 0 (alen r - 1) 0) as (f & -> & Hf); try lia; [unfold alen; lia|]. cbn.
  assert (0 <= f < alen r) as Hb by (destruct Hf as [(? & _)|[-> _]]; lia). rewrite Z.mod_small by done.
  exists (aget r f). split; [done|]. split; [by apply aget_elem|]. destruct Hf as [(_ & Hge & Hbelow)|[-> Hall]].
  - left. split; [done|]. intros e' (j & Hj & <-)%elem_aget Hh. destruct (Z.lt_ge_cases j f); [|apply sorted_aget; [done|lia|lia]].
    pose proof (Hbelow j ltac:(lia)). lia.
  - right. split; intros e' (j & Hj & <-)%elem_aget; [by apply Hall|]. apply sorted_aget; [done|lia|lia].
Qed.

(** *** The owner does not depend on the order, and is unique without ties *)
Lemma successor_perm h e S S' : S ≡ₚ S' -> successor h e S -> successor h e S'.
Proof. intros Hp. unfold successor. by setoid_rewrite Hp. Qed.

Lemma hash_inj S e e' : NoDup (map hash S) -> e ∈ S -> e' ∈ S -> hash e = hash e' -> e = e'.
Proof.
  intros Hnd (i & Hi)%list_elem_of_lookup (j & Hj)%list_elem_of_lookup Hh. assert (i = j) as ->; [|congruence].
  eapply (NoDup_lookup _ _ _ (hash e) Hnd); rewrite list_lookup_fmap; [by rewrite Hi|rewrite Hj; cbn; by rewrite Hh].
Qed.

Lemma successor_unique h S e e' : NoDup (map hash S) -> successor h e S -> successor h e' S -> e = e'.
Proof.
  intros Hnd [He H] [He' H']. apply (hash_inj S); try done. destruct H as [[H1 H2]|[H1 H2]], H' as [[H1' H2']|[H1' H2']].
  - pose proof (H2 e' He' H1'). pose proof (H2' e He H1). lia.
  - pose proof (H1' e He). lia.
  - pose proof (H1 e' He'). lia.
  - pose proof (H2 e' He'). pose proof (H2' e He). lia.
Qed.

Lemma successor_subset h e S S' : (forall x, x ∈ S' -> x ∈ S) -> e ∈ S' -> successor h e S -> successor h e S'.
Proof. intros Hsub He [_ [[H1 H2]|[H1 H2]]]; (split; [done|]); [left|right]; naive_solver. Qed.

(** ** Entries of the members *)
Lemma length_vnodes i : length (vnodes i) = 150%nat.
Proof. unfold vnodes. rewrite length_map, length_seqZ. done. Qed.

Lemma ring_entries_all ns : (length ns <= 128)%nat -> ring_entries ns = concat (map (fun n => if is_failed n then [] else vnodes (id n)) ns).
Proof.
  intros Hn. unfold ring_entries. apply firstn_all2. transitivity (150 * length ns)%nat; [|change (Z.to_nat CLUSTER_RING_SIZE) with (150 * 128)%nat; lia].
  clear Hn. induction ns as [|n ns IH]; [done|]. cbn [map concat length]. rewrite length_app. case_match; [cbn; lia|]. rewrite length_vnodes. lia.
Qed.

Definition is_entry (n : ClusterNode) (e : RingEntry) : Prop := is_failed n = false /\ e ∈ vnodes (id n).

Lemma vnodes_id i e : e ∈ vnodes i -> node_id e = i.
Proof. unfold vnodes. by intros (v & -> & _)%list_elem_of_fmap. Qed.

#[local] Opaque vnodes.

Lemma elem_ring_entries ns e : (length ns <= 128)%nat -> e ∈ ring_entries ns <-> exists n, n ∈ ns /\ is_entry n e.
Proof.
  intros Hn. rewrite ring_entries_all by done. clear Hn. unfold is_entry. induction ns as [|n ns IH]; cbn [map concat].
  - split; [by intros ?%not_elem_of_nil|]. by intros (n & ?%not_elem_of_nil & _).
  - rewrite elem_of_app, IH. setoid_rewrite elem_of_cons. split.
    + intros [He|(n' & Hn' & He)]; [|by exists n'; auto]. exists n. split; [by left|]. destruct (is_failed n); [by apply not_elem_of_nil in He|done].
    + intros (n' & [->|Hn'] & Hf & He); [left; by rewrite Hf|right; by exists n'].
Qed.

Lemma i32_u32 x : in_u 32 x -> u32 (i32 x) = x.
Proof.
  intros Hx. unfold wrap, swrap. rewrite Zminus_mod_idemp_l. replace (x + 2 ^ (32 - 1) - 2 ^ (32 - 1)) with x by lia. by apply Z.mod_small.
Qed.

Lemma aget_elem_any (A : Type) `{!Inhabited A} (l : list A) i : 0 <= i < alen l -> aget l i ∈ l.
Proof. intros Hi. apply list_elem_of_lookup. exists (Z.to_nat i). by apply aget_lookup. Qed.

Lemma key_slot_range key : 0 <= cluster_key_to_slot key < 16384.
Proof.
  unfold cluster_key_to_slot, CLUSTER_SLOT_COUNT. assert (forall x, 0 <= x mod 16384 < 16384) by (intros; apply Z.mod_pos_bound; lia). repeat case_match; try done; lia.
Qed.

(** ** The invariant *)
Section invariant.
Context (qsort : list RingEntry -> list RingEntry) (Hsort : forall l, sorted (qsort l)) (Hperm : forall l, qsort l ≡ₚ l).

(** What the operations keep of the arrays. *)
Record shape (ci : ClusterIndex) : Prop := {
  shape_len : alen (nodes ci) = 128;
  shape_count : 0 <= node_count ci <= 128;
  shape_ids : NoDup (map id (members ci));
  shape_u32 : Forall (fun n => in_u 32 (id n)) (members ci);
  shape_table : alen (slot_to_node ci) = 16384
}.

(** The ring and the table are those of the members. *)
Definition built (ci : ClusterIndex) : Prop :=
  ring ci ≡ₚ ring_entries (members ci) /\
  (ring ci <> [] -> forall slot, 0 <= slot < 16384 -> owns (ring_entries (members ci)) (fnv1a_64 (slot_key slot)) (u32 (aget (slot_to_node ci) slot))).

Definition same_arrays (ci ci' : ClusterIndex) : Prop :=
  nodes ci' = nodes ci /\ node_count ci' = node_count ci /\ self_idx ci' = self_idx ci /\ failovers ci' = failovers ci.

Lemma members_length ci : shape ci -> (length (members ci) <= 128)%nat.
Proof. intros [Hl Hc _ _ _]. unfold members. rewrite length_take. lia. Qed.

Lemma rebuild_spec ci : shape ci -> exists ci', rebuild_ring qsort ci = Some ci' /\ same_arrays ci ci' /\ shape ci' /\ built ci'.
Proof.
  intros Hsh. pose proof (members_length ci Hsh) as Hml. destruct Hsh as [Hl Hc Hids Hu Ht]. unfold rebuild_ring. fold (members ci). set (es := ring_entries (members ci)) in *.
  assert (exists table, slot_table (qsort es) (slot_to_node ci) = Some table /\ alen table = 16384 /\
    (qsort es <> [] -> forall slot, 0 <= slot < 16384 -> owns es (fnv1a_64 (slot_key slot)) (u32 (aget table slot)))) as (table & -> & Htl & Hown).
  { unfold slot_table. destruct (Z.ltb_spec 0 (alen (qsort es))) as [Hpos|Hz].
    - assert (exists table, mapM (slot_owner (qsort es)) (seqZ 0 CLUSTER_SLOT_COUNT) = Some table) as [table Hm].
      { apply mapM_is_Some, Forall_forall. intros slot _. destruct (slot_owner_spec (qsort es) slot (Hsort es) Hpos) as (e & Hso & _).
        exists (i32 (node_id e)). exact Hso. }
      exists table. split; [done|]. pose proof (length_mapM _ _ _ Hm) as Hlen. rewrite length_seqZ in Hlen. split; [unfold alen; rewrite <- Hlen; done|].
      intros _ slot Hslot. apply mapM_Some_1 in Hm. assert (0 <= slot < alen table) as Hin by (unfold alen; rewrite <- Hlen; done). apply aget_lookup in Hin.
      destruct (Forall2_lookup_r _ _ _ _ _ Hm Hin) as (s & Hs & Hso). apply lookup_seqZ in Hs as [-> _]. replace (0 + Z.of_nat (Z.to_nat slot)) with slot in Hso by lia.
      destruct (slot_owner_spec (qsort es) slot (Hsort es) Hpos) as (e & Hso' & Hsucc). rewrite Hso' in Hso. injection Hso as <-.
      apply (successor_perm _ _ _ es (Hperm es)) in Hsucc. exists e. split; [done|]. destruct Hsucc as [He _]. apply elem_ring_entries in He as (n & Hn & _ & He); [|done].
      apply vnodes_id in He. rewrite He, i32_u32; [done|]. rewrite Forall_forall in Hu. by apply Hu.
    - exists (slot_to_node ci). split; [done|]. split; [done|]. intros Hne. destruct (qsort es); [done|]. rewrite alen_cons in Hz. pose proof (alen_nonneg l). lia. }
  eexists. split; [done|]. split; [done|]. split; [by split|]. split; [apply Hperm|done].
Qed.

(** *** Changes of one node *)
Lemma map_aset {B} (f : ClusterNode -> B) (l : list ClusterNode) i x : 0 <= i < alen l -> f x = f (aget l i) -> map f (aset l i x) = map f l.
Proof.
  intros Hi Hf. unfold aset. change (@map ClusterNode B f) with (fmap (M := list) f). rewrite list_fmap_insert. apply list_insert_id.
  rewrite list_lookup_fmap, (aget_lookup l i) by done. cbn. by rewrite Hf.
Qed.

Lemma take_aset (l : list ClusterNode) n i x : 0 <= i < n -> take (Z.to_nat n) (aset l i x) = aset (take (Z.to_nat n) l) i x.
Proof. intros Hi. unfold aset. apply take_insert_lt. lia. Qed.

Lemma aget_members ci i : shape ci -> 0 <= i < node_count ci -> aget (members ci) i = aget (nodes ci) i /\ i < alen (members ci).
Proof.
  intros [Hl Hc _ _ _] Hi. unfold members. split.
  - unfold aget. rewrite !list_lookup_total_alt, lookup_take_lt by lia. done.
  - unfold alen in *. rewrite length_take. lia.
Qed.

Definition with_node (ci : ClusterIndex) (i : Z) (n : ClusterNode) : ClusterIndex := set_nodes ci (aset (nodes ci) i n) (node_count ci).

Lemma with_node_shape ci i n : shape ci -> 0 <= i < node_count ci -> id n = id (aget (nodes ci) i) ->
  shape (with_node ci i n) /\ members (with_node ci i n) = aset (members ci) i n.
Proof.
  intros Hsh Hi Hid. destruct (aget_members ci i Hsh Hi) as [Hag Hlt]. pose proof Hsh as [Hl Hc Hids Hu Ht].
  assert (members (with_node ci i n) = aset (members ci) i n) as Hm by (unfold members; cbn; by apply take_aset). split; [|done].
  assert (map id (members (with_node ci i n)) = map id (members ci)) as Hmap by (rewrite Hm; apply map_aset; [lia|by rewrite Hag]).
  split; [cbn; by rewrite alen_aset|done|by rewrite Hmap| |done].
  assert (Forall (in_u 32) (map id (members ci))) as Hf by (by apply Forall_map). rewrite <- Hmap in Hf. by rewrite (Forall_map id) in Hf.
Qed.

Lemma with_node_built ci i n : shape ci -> built ci -> 0 <= i < node_count ci -> id n = id (aget (nodes ci) i) ->
  is_failed n = is_failed (aget (nodes ci) i) -> built (with_node ci i n).
Proof.
  intros Hsh Hb Hi Hid Hf. destruct (with_node_shape ci i n Hsh Hi Hid) as [_ Hm]. destruct (aget_members ci i Hsh Hi) as [Hag Hlt].
  unfold built. rewrite Hm. cbn [with_node set_nodes ring slot_to_node].
  assert (ring_entries (aset (members ci) i n) = ring_entries (members ci)) as ->; [|done].
  unfold ring_entries. do 2 f_equal. apply map_aset; [lia|]. by rewrite Hag, Hid, Hf.
Qed.

Lemma fail_node_spec ci i : shape ci -> 0 <= i < node_count ci -> exists ci', fail_node qsort ci i = Some ci' /\ shape ci' /\ built ci' /\
  members ci' = aset (members ci) i (set_state (aget (nodes ci) i) CNODE_FAILED) /\ node_count ci' = node_count ci /\ self_idx ci' = self_idx ci.
Proof.
  intros Hsh Hi. destruct (with_node_shape ci i (set_state (aget (nodes ci) i) CNODE_FAILED) Hsh Hi eq_refl) as [Hsh1 Hm]. unfold fail_node.
  set (ci1 := mkIndex _ _ _ _ _ _ _). assert (shape ci1) as Hsh' by (by destruct Hsh1).
  destruct (rebuild_spec ci1 Hsh') as (ci' & -> & (Hn & Hcnt & Hself & _) & Hsh2 & Hb). exists ci'. split; [done|]. split; [done|]. split; [done|].
  split; [|done]. unfold members at 1. by rewrite Hn, Hcnt.
Qed.

(** *** Each operation *)
Lemma find_node_spec id_ ns i : find_node id_ ns = Some i -> 0 <= i < alen ns /\ id (aget ns i) = id_ /\ exists a n b, ns = a ++ n :: b /\ alen a = i /\ id n = id_.
Proof.
  revert i. induction ns as [|n ns IH]; intros i; cbn; [done|]. pose proof (alen_nonneg ns). case_if.
  - intros [= <-]. rewrite alen_cons. split; [lia|]. split; [done|]. by exists [], n, ns.
  - destruct (find_node id_ ns) as [j|]; [|done]. intros [= <-]. destruct (IH j eq_refl) as (Hj & Hid & a & m & b & -> & Ha & Hm). rewrite alen_cons.
    split; [lia|]. split; [|exists (n :: a), m, b; rewrite alen_cons; split; [done|split; [lia|done]]].
    unfold aget in *. replace (Z.to_nat (j + 1)) with (S (Z.to_nat j)) by lia. done.
Qed.

Lemma find_node_none id_ ns : find_node id_ ns = None -> id_ ∉ map id ns.
Proof.
  induction ns as [|n ns IH]; cbn; [intros _; apply not_elem_of_nil|]. case_if; [done|]. destruct (find_node id_ ns); [done|]. intros _.
  apply not_elem_of_cons. split; [congruence|by apply IH].
Qed.

Lemma alen_members ci : shape ci -> alen (members ci) = node_count ci.
Proof. intros [Hl Hc _ _ _]. unfold members, alen in *. rewrite length_take. lia. Qed.

Lemma add_node_spec ci id_ port start end_ now : shape ci -> built ci -> in_u 32 id_ ->
  exists ci' r, cluster_add_node qsort ci id_ port start end_ now = Some (ci', r) /\ shape ci' /\ built ci' /\ self_idx ci' = self_idx ci /\
  (r = - 1 /\ ci' = ci \/ r = 0 /\ exists n, id n = id_ /\ state n = CNODE_ACTIVE /\ members ci' = members ci ++ [n]).
Proof.
  intros Hsh Hb Hid. unfold cluster_add_node. destruct (Z.leb_spec CLUSTER_MAX_NODES (node_count ci)) as [|Hroom]; [exists ci, (- 1); split_and!; auto|].
  destruct (find_node id_ (members ci)) eqn:Hf; [exists ci, (- 1); split_and!; auto|]. apply find_node_none in Hf. pose proof (alen_members ci Hsh) as Hml.
  pose proof Hsh as [Hl Hc Hids Hu Ht]. unfold CLUSTER_MAX_NODES in Hroom. set (k := node_count ci) in *. set (n := mkNode id_ _ _ _ _ _ _ _).
  set (ci1 := set_nodes ci (aset (nodes ci) k n) (k + 1)).
  assert (forall m, take (Z.to_nat (k + 1)) (aset (nodes ci) k m) = members ci ++ [m]) as Htake.
  { intros m. replace (Z.to_nat (k + 1)) with (S (Z.to_nat k)) by lia. rewrite (take_S_r _ _ m).
    - unfold aset. rewrite take_insert_ge by lia. done.
    - unfold aset. apply list_lookup_insert_eq. unfold alen in Hl. lia. }
  assert (members ci1 = members ci ++ [n]) as Hm1 by apply Htake.
  assert (shape ci1) as Hsh1.
  { split; [cbn; by rewrite alen_aset|cbn; lia| | |done].
    - rewrite Hm1, map_app. apply NoDup_app. split; [done|]. split; [|apply NoDup_singleton]. intros x Hx Hin. cbn in Hin. apply list_elem_of_singleton in Hin as ->. done.
    - rewrite Hm1. apply Forall_app. split; [done|]. by constructor. }
  destruct (rebuild_spec ci1 Hsh1) as (ci2 & -> & (Hn2 & Hc2 & Hs2 & _) & Hsh2 & Hb2). exists (with_node ci2 k (set_state n CNODE_ACTIVE)), 0. split; [done|].
  assert (aget (nodes ci2) k = n) as Hag by (rewrite Hn2; apply aget_aset_eq; lia). assert (0 <= k < node_count ci2) as Hk by (rewrite Hc2; cbn; lia).
  split; [apply with_node_shape; [done|done|by rewrite Hag]|]. split; [apply with_node_built; [done|done|done|by rewrite Hag|by rewrite Hag]|].
  split; [exact Hs2|]. right. split; [done|]. exists (set_state n CNODE_ACTIVE). split; [done|]. split; [done|].
  unfold members at 1. cbn [with_node set_nodes nodes node_count]. rewrite Hn2, Hc2. cbn. unfold aset. rewrite list_insert_insert_eq. apply Htake.
Qed.

Lemma split_member (l a b : list ClusterNode) n i : l = a ++ n :: b -> alen a = i -> take (Z.to_nat i) l = a /\ drop (Z.to_nat (i + 1)) l = b.
Proof.
  intros -> <-. unfold alen. replace (Z.to_nat (Z.of_nat (length a) + 1)) with (S (length a)) by lia. rewrite Nat2Z.id, take_app_length. split; [done|].
  change (n :: b) with ([n] ++ b). rewrite app_assoc. rewrite drop_app_length'; [done|]. rewrite length_app. cbn. lia.
Qed.

Lemma remove_node_spec ci id_ : shape ci -> built ci ->
  exists ci' r, cluster_remove_node qsort ci id_ = Some (ci', r) /\ shape ci' /\ built ci' /\ self_idx ci' = self_idx ci /\
  (r = - 1 /\ ci' = ci \/ r = 0 /\ exists a n b, id n = id_ /\ members ci = a ++ n :: b /\ members ci' = a ++ b).
Proof.
  intros Hsh Hb. unfold cluster_remove_node. destruct (find_node id_ (members ci)) as [i|] eqn:Hf; [|exists ci, (- 1); split_and!; auto].
  apply find_node_spec in Hf as (Hi & _ & a & n & b & Hm & Ha & Hid). pose proof (alen_members ci Hsh) as Hml. rewrite Hml in Hi.
  pose proof Hsh as [Hl Hc Hids Hu Ht]. set (m := set_state (aget (nodes ci) i) CNODE_LEAVING). set (ns := aset (nodes ci) i m). set (k := Z.to_nat (node_count ci - i - 1)).
  set (ns' := take (Z.to_nat i) ns ++ _). assert (alen ns = 128) as Hnl by (unfold ns; by rewrite alen_aset).
  assert (take (Z.to_nat (node_count ci)) ns = a ++ m :: b) as Hmn.
  { unfold ns. rewrite take_aset by lia. fold (members ci). rewrite Hm. unfold aset. rewrite insert_app_r_alt by (unfold alen in Ha; lia).
    by replace (Z.to_nat i - length a)%nat with O by (unfold alen in Ha; lia). }
  destruct (split_member _ _ _ _ i Hmn Ha) as [Hta Htb].
  assert (take (Z.to_nat i) ns = a) as Hpre by (rewrite <- Hta, take_take; f_equal; lia).
  assert (take k (drop (Z.to_nat (i + 1)) ns) = b) as Hmid by (rewrite <- Htb, take_drop_commute; do 2 f_equal; unfold k; lia).
  assert (length b = k) as Hbl.
  { rewrite Hm, alen_app, alen_cons, Ha in Hml. unfold k, alen in *. lia. }
  set (ci1 := set_nodes ci ns' (node_count ci - 1)).
  assert (members ci1 = a ++ b) as Hm1.
  { unfold members, ci1, ns'. cbn [set_nodes nodes node_count]. rewrite Hpre, Hmid, app_assoc. apply take_app_length'. rewrite length_app.
    unfold alen in Ha. unfold k in *. lia. }
  assert (shape ci1) as Hsh1.
  { split; [|cbn; lia| | |done].
    - cbn [ci1 set_nodes nodes]. unfold ns'. rewrite Hpre, Hmid. unfold alen in *. rewrite !length_app, length_drop. unfold k in *. lia.
    - rewrite Hm1. rewrite Hm in Hids. rewrite !map_app in *. cbn [map] in Hids. apply NoDup_app in Hids as (H1 & H2 & [_ H3]%NoDup_cons). apply NoDup_app. split; [done|].
      split; [|done]. intros x Hx Hx'. apply (H2 x Hx). by apply list_elem_of_further.
    - rewrite Hm1. rewrite Hm in Hu. apply Forall_app in Hu as [H1 [_ H2]%Forall_cons]. by apply Forall_app. }
  destruct (rebuild_spec ci1 Hsh1) as (ci2 & -> & (Hn2 & Hc2 & Hs2 & _) & Hsh2 & Hb2). exists ci2, 0. split; [done|]. split; [done|]. split; [done|].
  split; [exact Hs2|]. right. split; [done|]. exists a, n, b. split; [done|]. split; [done|]. unfold members at 1. rewrite Hn2, Hc2. exact Hm1.
Qed.

Lemma handle_pong_spec ci id_ now : shape ci -> built ci ->
  exists ci' r, cluster_handle_pong ci id_ now = (ci', r) /\ shape ci' /\ built ci' /\ self_idx ci' = self_idx ci /\ map id (members ci') = map id (members ci).
Proof.
  intros Hsh Hb. unfold cluster_handle_pong. destruct (find_node id_ (members ci)) as [i|] eqn:Hf; [|exists ci, (- 1); split_and!; auto].
  apply find_node_spec in Hf as (Hi & _). rewrite (alen_members ci Hsh) in Hi. set (n := match state _ with CNODE_SUSPECT => _ | _ => _ end).
  assert (id n = id (aget (nodes ci) i) /\ is_failed n = is_failed (aget (nodes ci) i)) as [Hid Hfl].
  { unfold n, is_failed. cbn [set_pong state]. by destruct (aget (nodes ci) i) as [? ? [] ? ? ? ? ?]. }
  destruct (with_node_shape ci i n Hsh Hi Hid) as [Hsh' Hm]. exists (with_node ci i n), 0. split_and!; [done|done|by apply with_node_built|done|].
  destruct (aget_members ci i Hsh Hi) as [Hag Hlt]. rewrite Hm. apply map_aset; [lia|by rewrite Hag].
Qed.

Lemma mark_failed_spec ci id_ : shape ci -> built ci ->
  exists ci' r, cluster_mark_failed qsort ci id_ = Some (ci', r) /\ shape ci' /\ built ci' /\ self_idx ci' = self_idx ci /\
  (r = - 1 /\ ci' = ci \/ r = 0 /\ exists i, 0 <= i < alen (members ci) /\ id (aget (members ci) i) = id_ /\
   members ci' = aset (members ci) i (set_state (aget (members ci) i) CNODE_FAILED)).
Proof.
  intros Hsh Hb. unfold cluster_mark_failed. destruct (find_node id_ (members ci)) as [i|] eqn:Hf; [|exists ci, (- 1); split_and!; auto].
  apply find_node_spec in Hf as (Hi & Hid & _). assert (0 <= i < node_count ci) as Hi' by (by rewrite <- (alen_members ci Hsh)).
  destruct (fail_node_spec ci i Hsh Hi') as (ci' & -> & Hsh' & Hb' & Hm & _ & Hself). exists ci', 0. split_and!; [done|done|done|done|].
  right. split; [done|]. exists i. destruct (aget_members ci i Hsh Hi') as [Hag _]. split; [done|]. split; [done|]. by rewrite Hag.
Qed.

Lemma check_node_spec ci now i : shape ci -> built ci -> 0 <= i < node_count ci ->
  exists ci', check_node qsort now ci i = Some ci' /\ shape ci' /\ built ci' /\ self_idx ci' = self_idx ci /\ node_count ci' = node_count ci /\
  map id (members ci') = map id (members ci).
Proof.
  intros Hsh Hb Hi. unfold check_node. destruct (aget_members ci i Hsh Hi) as [Hag Hlt]. case_if; [exists ci; split_and!; auto|].
  destruct (state (aget (nodes ci) i)) eqn:Hst; try (exists ci; split_and!; auto; done).
  - case_if; [|exists ci; split_and!; auto]. set (n := set_state _ _).
    destruct (with_node_shape ci i n Hsh Hi eq_refl) as [Hsh' Hm]. exists (with_node ci i n). split_and!; try done.
    + apply with_node_built; [done|done|done|done|]. unfold is_failed. by rewrite Hst.
    + rewrite Hm. apply map_aset; [lia|by rewrite Hag].
  - case_if; [|exists ci; split_and!; auto]. destruct (fail_node_spec ci i Hsh Hi) as (ci' & -> & Hsh' & Hb' & Hm & Hc' & Hself). exists ci'. split_and!; try done.
    rewrite Hm. apply map_aset; [lia|by rewrite Hag].
Qed.

Lemma check_failures_spec ci now : shape ci -> built ci ->
  exists ci', cluster_check_failures qsort ci now = Some ci' /\ shape ci' /\ built ci' /\ self_idx ci' = self_idx ci /\ map id (members ci') = map id (members ci).
Proof.
  intros Hsh Hb. unfold cluster_check_failures. assert (Forall (fun i => 0 <= i < node_count ci) (seqZ 0 (node_count ci))) as Hall.
  { apply Forall_forall. intros i Hi%elem_of_seqZ. lia. }
  revert Hall. generalize (seqZ 0 (node_count ci)) as l. intros l. revert ci Hsh Hb. induction l as [|i l IH]; intros ci Hsh Hb Hall; cbn [fold_left].
  { by exists ci. }
  apply Forall_cons in Hall as [Hi Hall]. destruct (check_node_spec ci now i Hsh Hb Hi) as (ci1 & Hck & Hsh1 & Hb1 & Hs1 & Hc1 & Hm1). cbn. rewrite Hck.
  destruct (IH ci1 Hsh1 Hb1) as (ci2 & Hrun & Hsh2 & Hb2 & Hs2 & Hm2); [by rewrite Hc1|]. exists ci2. split; [done|]. split; [done|]. split; [done|].
  by rewrite Hs2, Hm2.
Qed.

(** ** Runs *)
Inductive op := Add (id_ port start end_ now : Z) | Remove (id_ : Z) | MarkFailed (id_ : Z) | Pong (id_ now : Z) | Check_failures (now : Z) | Lookup (key : bytes).

Definition run_op (ci : ClusterIndex) (o : op) : option ClusterIndex :=
  match o with
  | Add id_ port start end_ now => fst <$> cluster_add_node qsort ci id_ port start end_ now
  | Remove id_ => fst <$> cluster_remove_node qsort ci id_
  | MarkFailed id_ => fst <$> cluster_mark_failed qsort ci id_
  | Pong id_ now => Some (fst (cluster_handle_pong ci id_ now))
  | Check_failures now => cluster_check_failures qsort ci now
  | Lookup key => Some (fst (cluster_key_to_node ci key))
  end.

Definition run (self port now : Z) (ops : list op) : option ClusterIndex :=
  fold_left (fun ci o => ci ← ci; run_op ci o) ops (cluster_init qsort self port now).

Definition op_ok (o : op) : Prop := match o with Add id_ _ _ _ _ => in_u 32 id_ | _ => True end.

Lemma run_op_spec ci o : shape ci -> built ci -> op_ok o -> exists ci', run_op ci o = Some ci' /\ shape ci' /\ built ci' /\ self_idx ci' = self_idx ci.
Proof.
  intros Hsh Hb Ho. destruct o as [id_ port start end_ now|id_|id_|id_ now|now|key]; cbn [run_op].
  - destruct (add_node_spec ci id_ port start end_ now Hsh Hb Ho) as (ci' & r & -> & ? & ? & ? & _). by exists ci'.
  - destruct (remove_node_spec ci id_ Hsh Hb) as (ci' & r & -> & ? & ? & ? & _). by exists ci'.
  - destruct (mark_failed_spec ci id_ Hsh Hb) as (ci' & r & -> & ? & ? & ? & _). by exists ci'.
  - destruct (handle_pong_spec ci id_ now Hsh Hb) as (ci' & r & -> & ? & ? & ? & _). by exists ci'.
  - destruct (check_failures_spec ci now Hsh Hb) as (ci' & -> & ? & ? & ? & _). by exists ci'.
  - exists (fst (cluster_key_to_node ci key)). by destruct Hsh.
Qed.

Lemma init_spec self port now : in_u 32 self -> exists ci, cluster_init qsort self port now = Some ci /\ shape ci /\ built ci /\ self_idx ci = 0.
Proof.
  intros Hs. unfold cluster_init. set (ci0 := mkIndex _ _ _ _ _ _ _). assert (shape ci0) as Hsh.
  { split; [done|cbn; lia| | |done].
    - apply NoDup_singleton.
    - by constructor. }
  destruct (rebuild_spec ci0 Hsh) as (ci & -> & (_ & _ & Hself & _) & Hsh' & Hb). by exists ci.
Qed.

Lemma cluster_run_spec self port now ops : in_u 32 self -> Forall op_ok ops -> exists ci, run self port now ops = Some ci /\ shape ci /\ built ci /\ self_idx ci = 0.
Proof.
  intros Hs Hops. unfold run. destruct (init_spec self port now Hs) as (ci & -> & Hsh & Hb & Hself). revert ci Hsh Hb Hself.
  induction Hops as [|o ops Ho _ IH]; intros ci Hsh Hb Hself; cbn [fold_left]; [by exists ci|].
  destruct (run_op_spec ci o Hsh Hb Ho) as (ci' & Hr & Hsh' & Hb' & Hself'). cbn. rewrite Hr. apply IH; [done|done|congruence].
Qed.

Definition answer (ci : ClusterIndex) (key : bytes) : Z := snd (cluster_key_to_node ci key).

Lemma live_ring ci : shape ci -> built ci -> ring ci <> [] <-> exists n, n ∈ members ci /\ is_failed n = false.
Proof.
  intros Hsh [Hp _]. pose proof (members_length ci Hsh) as Hml. split.
  - intros Hne. destruct (ring ci) as [|e r]; [done|]. assert (e ∈ ring_entries (members ci)) as He by (rewrite <- Hp; by left).
    apply elem_ring_entries in He as (n & Hn & Hf & _); [by exists n|done].
  - intros (n & Hn & Hf) Hr. assert (exists e, e ∈ vnodes (id n)) as [e He].
    { pose proof (length_vnodes (id n)). destruct (vnodes (id n)) as [|e l]; [done|]. exists e. by left. }
    assert (e ∈ ring_entries (members ci)) as Hin by (apply elem_ring_entries; [done|by exists n]). rewrite <- Hp, Hr in Hin. by apply not_elem_of_nil in Hin.
Qed.

Lemma answer_owns ci key : built ci -> ring ci <> [] -> owns (ring_entries (members ci)) (fnv1a_64 (slot_key (cluster_key_to_slot key))) (answer ci key).
Proof. intros [_ Ht] Hne. apply Ht; [done|]. apply key_slot_range. Qed.

Lemma owner_stable ci ci' key : built ci -> built ci' -> ring ci <> [] -> ring ci' <> [] -> NoDup (map hash (ring ci)) ->
  (forall e, e ∈ ring_entries (members ci') -> e ∈ ring_entries (members ci)) ->
  (forall e, e ∈ ring_entries (members ci) -> node_id e = answer ci key -> e ∈ ring_entries (members ci')) ->
  answer ci' key = answer ci key.
Proof.
  intros Hb Hb' Hne Hne' Hnd Hsub Hkeep. destruct (answer_owns ci key Hb Hne) as (e & He & Hid). destruct (answer_owns ci' key Hb' Hne') as (e' & He' & Hid').
  rewrite (proj1 Hb) in Hnd. assert (e' = e) as ->; [|congruence].
  assert (e ∈ ring_entries (members ci')) as Hin by (apply Hkeep; [apply He|done]).
  apply (successor_subset _ _ _ _ Hsub Hin) in He. destruct He as [_ He], He' as [Hin' He'].
  apply (hash_inj (ring_entries (members ci))); [done|by apply Hsub|by apply Hsub|].
  destruct He as [[H1 H2]|[H1 H2]], He' as [[H1' H2']|[H1' H2']].
  - pose proof (H2 e' Hin' H1'). pose proof (H2' e Hin H1). lia.
  - pose proof (H1' e Hin). lia.
  - pose proof (H1 e' Hin'). lia.
  - pose proof (H2 e' Hin'). pose proof (H2' e Hin). lia.
Qed.

Definition live (ci : ClusterIndex) (i : Z) : Prop := exists n, n ∈ members ci /\ is_failed n = false /\ id n = i.

Lemma answer_live ci key i : shape ci -> built ci -> live ci i -> live ci (answer ci key).
Proof.
  intros Hsh Hb (n & Hn & Hf & _). assert (ring ci <> []) as Hne by (apply live_ring; eauto).
  destruct (answer_owns ci key Hb Hne) as (e & [He _] & Hid). apply elem_ring_entries in He as (m & Hm & Hmf & He); [|by apply members_length].
  exists m. apply vnodes_id in He. split_and!; [done|done|congruence].
Qed.

(** What is dropped or marked is the only thing whose slots move. *)
Lemma loses_node ci ci' i key : shape ci -> built ci -> shape ci' -> built ci' -> NoDup (map hash (ring ci)) ->
  (exists j, live ci' j) -> (forall n, n ∈ members ci' -> is_failed n = false -> n ∈ members ci) ->
  (forall n, n ∈ members ci -> id n <> i -> n ∈ members ci') -> answer ci key <> i -> answer ci' key = answer ci key.
Proof.
  intros Hsh Hb Hsh' Hb' Hnd (j & n & Hn & Hf & _) Hsub Hkeep Ha. pose proof (members_length ci Hsh) as Hl. pose proof (members_length ci' Hsh') as Hl'.
  apply owner_stable; try done; [apply live_ring; eauto|apply live_ring; eauto| |].
  - intros e (m & Hm & Hmf & He)%elem_ring_entries; [|done]. apply elem_ring_entries; [done|]. exists m. split; [by apply Hsub|done].
  - intros e (m & Hm & Hmf & He)%elem_ring_entries He'; [|done]. apply elem_ring_entries; [done|]. exists m. split; [|done].
    apply Hkeep; [done|]. apply vnodes_id in He. congruence.
Qed.

Lemma elem_aset_other (l : list ClusterNode) i n m : n ∈ l -> n <> aget l i -> 0 <= i -> n ∈ aset l i m.
Proof.
  intros (j & Hj)%list_elem_of_lookup Hne Hi. apply list_elem_of_lookup. exists j. unfold aset. rewrite list_lookup_insert_ne; [done|].
  intros <-. apply Hne. unfold aget. symmetry. by apply list_lookup_total_correct.
Qed.

Lemma elem_aset (l : list ClusterNode) i n m : n ∈ aset l i m -> n = m \/ n ∈ l.
Proof. intros Hn. unfold aset in Hn. apply list_elem_of_lookup in Hn as [j Hj]. apply list_lookup_insert_Some in Hj as [(_ & <- & _)|[_ Hj]]; [by left|right]. apply list_elem_of_lookup. by exists j. Qed.

(** C33. Whatever changes of the membership have been made, while one member
    has not been declared failed the table of slots is that of the members that
    have not: a lookup answers the one that owns the first virtual node at or
    after the hash of the slot of the key.  (With none left the old table stays
    and failed members are answered, [failed_cluster_answers].) *)
Theorem cluster_owner self port now ops : in_u 32 self -> Forall op_ok ops ->
  exists ci, run self port now ops = Some ci /\ self_idx ci = 0 /\ NoDup (map id (members ci)) /\
    forall key, (exists i, live ci i) ->
      live ci (answer ci key) /\ owns (ring_entries (members ci)) (fnv1a_64 (slot_key (cluster_key_to_slot key))) (answer ci key).
Proof.
  intros Hs Hops. destruct (cluster_run_spec self port now ops Hs Hops) as (ci & Hr & Hsh & Hb & Hself). exists ci. split; [done|]. split; [done|].
  split; [apply Hsh|]. intros key [i Hi]. split; [by apply (answer_live ci key i)|]. apply answer_owns; [done|]. apply live_ring; try done.
  destruct Hi as (n & ? & ? & _). eauto.
Qed.

(** A change of the membership moves only what it has to, when no two
    virtual nodes collide: a new node takes slots and leaves the others where
    they are, the node that is removed or fails loses its slots and no other
    slot moves. *)
Theorem cluster_minimal_disruption self port now ops ci : in_u 32 self -> Forall op_ok ops -> run self port now ops = Some ci ->
  (forall id_ port start end_ now, in_u 32 id_ -> exists ci' r, cluster_add_node qsort ci id_ port start end_ now = Some (ci', r) /\
     (NoDup (map hash (ring ci')) -> (exists i, live ci i) -> forall key, answer ci' key = answer ci key \/ r = 0 /\ answer ci' key = id_)) /\
  (forall id_, exists ci' r, cluster_remove_node qsort ci id_ = Some (ci', r) /\
     (NoDup (map hash (ring ci)) -> (exists i, live ci' i) -> forall key, answer ci key <> id_ -> answer ci' key = answer ci key)) /\
  (forall id_, exists ci' r, cluster_mark_failed qsort ci id_ = Some (ci', r) /\
     (NoDup (map hash (ring ci)) -> (exists i, live ci' i) -> forall key, answer ci key <> id_ -> answer ci' key = answer ci key)).
Proof.
  intros Hs Hops Hr. destruct (cluster_run_spec self port now ops Hs Hops) as (ci0 & Hr' & Hsh & Hb & _). rewrite Hr in Hr'. injection Hr' as <-. split_and!.
  - intros id_ p start end_ t Hid. destruct (add_node_spec ci id_ p start end_ t Hsh Hb Hid) as (ci' & r & Hadd & Hsh' & Hb' & _ & H). exists ci', r. split; [done|].
    intros Hnd Hlive key. destruct H as [[-> ->]|[-> (n & <- & Hst & Hm)]]; [by left|]. destruct (Z.eq_dec (answer ci' key) (id n)) as [|Hne]; [by right|left].
    symmetry. apply (loses_node ci' ci (id n)); try done; rewrite Hm; setoid_rewrite elem_of_app; [by left|].
    intros m [Hm'|Hm']; [done|]. apply list_elem_of_singleton in Hm' as ->. done.
  - intros id_. destruct (remove_node_spec ci id_ Hsh Hb) as (ci' & r & Hrem & Hsh' & Hb' & _ & H). exists ci', r. split; [done|].
    intros Hnd Hlive key Hne. destruct H as [[_ ->]|[_ (a & n & b & Hid & Hm & Hm')]]; [done|].
    apply (loses_node ci ci' id_); try done; rewrite Hm, Hm'; setoid_rewrite elem_of_app; setoid_rewrite elem_of_cons; naive_solver.
  - intros id_. destruct (mark_failed_spec ci id_ Hsh Hb) as (ci' & r & Hmk & Hsh' & Hb' & _ & H). exists ci', r. split; [done|].
    intros Hnd Hlive key Hne. destruct H as [[_ ->]|[_ (i & Hi & Hid & Hm')]]; [done|].
    apply (loses_node ci ci' id_); try done; rewrite Hm'.
    + intros m [->|Hm]%elem_aset Hf; [by destruct (aget _ _)|done].
    + intros m Hm Hmi. apply elem_aset_other; [done|congruence|lia].
Qed.
End invariant.

(** ** Witnesses *)
Definition by_hash (a b : RingEntry) : Prop := hash a <= hash b.

#[export] Instance by_hash_dec : RelDecision by_hash.
Proof. intros a b. unfold by_hash. apply _. Defined.

#[export] Instance by_hash_trans : Transitive by_hash.
Proof. intros a b c. unfold by_hash. lia. Qed.

#[export] Instance by_hash_total : Total by_hash.
Proof. intros a b. unfold by_hash. lia. Qed.

Definition merge_qsort (l : list RingEntry) : list RingEntry := merge_sort by_hash l.

Lemma merge_qsort_sorted l : sorted (merge_qsort l).
Proof. apply (StronglySorted_merge_sort by_hash). Qed.

Lemma merge_qsort_perm l : merge_qsort l ≡ₚ l.
Proof. apply merge_sort_Permutation. Qed.

(** The first nodes of a cluster that nothing has happened to. *)
Lemma init_members self port now : in_u 32 self ->
  exists ci, cluster_init merge_qsort self port now = Some ci /\ shape ci /\ built ci /\ map id (members ci) = [self] /\ Forall (fun n => is_failed n = false) (members ci).
Proof.
  intros Hs. unfold cluster_init. set (ci0 := mkIndex _ _ _ _ _ _ _). assert (shape ci0) as Hsh.
  { split; [done|cbn; lia|apply NoDup_singleton|by constructor|done]. }
  destruct (rebuild_spec _ merge_qsort_sorted merge_qsort_perm ci0 Hsh) as (ci & -> & (Hn & Hc & _) & Hsh' & Hb). exists ci.
  unfold members. rewrite Hn, Hc. split_and!; try done. by constructor.
Qed.

Lemma add_members ci i port start end_ now : shape ci -> built ci -> in_u 32 i -> node_count ci < 128 -> i ∉ map id (members ci) ->
  exists ci', cluster_add_node merge_qsort ci i port start end_ now = Some (ci', 0) /\ shape ci' /\ built ci' /\ self_idx ci' = self_idx ci /\
    exists n, id n = i /\ state n = CNODE_ACTIVE /\ members ci' = members ci ++ [n].
Proof.
  intros Hsh Hb Hi Hc Hni. destruct (add_node_spec _ merge_qsort_sorted merge_qsort_perm ci i port start end_ now Hsh Hb Hi) as (ci' & r & Hadd & Hsh' & Hb' & Hself & H).
  destruct H as [[-> ->]|[-> Hn]]; [|by exists ci'].
  exfalso. revert Hadd. unfold cluster_add_node. rewrite (proj2 (Z.leb_gt _ _)) by (unfold CLUSTER_MAX_NODES; lia).
  destruct (find_node i (members ci)) as [j|] eqn:Hf.
  - apply find_node_spec in Hf as (Hj & <- & _). destruct Hni. apply list_elem_of_fmap. exists (aget (members ci) j). split; [done|].
    apply list_elem_of_lookup. exists (Z.to_nat j). by apply aget_lookup.
  - destruct (rebuild_ring _ _); cbn; [by intros [=]|done].
Qed.

Lemma ring_hashes ci : built ci -> Forall (fun n => is_failed n = false) (members ci) -> (length (members ci) <= 128)%nat ->
  NoDup (map hash (concat (map vnodes (map id (members ci))))) -> NoDup (map hash (ring ci)).
Proof.
  intros [Hp _] Hf Hl Hnd. rewrite Hp, ring_entries_all by done. rewrite map_map in Hnd.
  rewrite (map_ext_Forall _ (fun n => vnodes (id n))); [done|]. eapply Forall_impl; [exact Hf|]. cbn. by intros n ->.
Qed.

Lemma two_nodes_no_tie : NoDup (map hash (concat (map vnodes [1; 2]))).
Proof. apply (bool_decide_unpack _). vm_compute. exact I. Qed.

Lemma second_node ci1 : shape ci1 -> built ci1 -> map id (members ci1) = [1] -> Forall (fun n => is_failed n = false) (members ci1) ->
  exists ci2, cluster_add_node merge_qsort ci1 2 7002 0 8191 5 = Some (ci2, 0) /\ NoDup (map hash (ring ci2)) /\ live ci1 1 /\ live ci2 1 /\ live ci2 2 /\
  shape ci2 /\ built ci2 /\ self_idx ci2 = self_idx ci1 /\ map id (members ci2) = [1; 2].
Proof.
  intros Hsh1 Hb1 Hm1 Hf1.
  assert (node_count ci1 = 1) as Hc1 by (rewrite <- (alen_members ci1 Hsh1); unfold alen; by rewrite <- (length_map id), Hm1).
  assert (2 ∉ map id (members ci1)) as Hn2 by (rewrite Hm1; apply (bool_decide_unpack _); vm_compute; exact I).
  destruct (add_members ci1 2 7002 0 8191 5 Hsh1 Hb1 ltac:(done) ltac:(lia) Hn2) as (ci2 & Ha & Hsh2 & Hb2 & Hself2 & n & Hid & Hst & Hm2).
  exists ci2. destruct (members ci1) as [|m [|]] eqn:Hms; try discriminate Hm1. cbn in Hm1. injection Hm1 as Hid1. apply Forall_cons in Hf1 as [Hf1 _].
  assert (is_failed n = false) as Hfn by (unfold is_failed; by rewrite Hst). split; [exact Ha|]. clear Ha. unfold live. rewrite Hms, Hm2. split_and!; try done.
  - apply ring_hashes; [done|rewrite Hm2; by repeat constructor|rewrite Hm2; cbn; lia|]. rewrite Hm2. cbn [app map]. rewrite Hid1, Hid. apply two_nodes_no_tie.
  - exists m. split; [by left|done].
  - exists m. split; [by left|done].
  - exists n. split; [by right; left|done].
  - cbn. by rewrite Hid1, Hid.
Qed.

Lemma pair_cluster : exists ci1 ci2, run merge_qsort 1 7001 0 [] = Some ci1 /\ cluster_add_node merge_qsort ci1 2 7002 0 8191 5 = Some (ci2, 0) /\
  run merge_qsort 1 7001 0 [Add 2 7002 0 8191 5] = Some ci2 /\ NoDup (map hash (ring ci2)) /\ live ci1 1 /\ live ci2 1 /\ live ci2 2 /\
  shape ci2 /\ built ci2 /\ self_idx ci2 = 0 /\ map id (members ci2) = [1; 2].
Proof.
  assert (in_u 32 1) as Hu by done. destruct (init_members 1 7001 0 Hu) as (ci1 & Hi & Hsh & Hb & Hm & Hf).
  destruct (second_node ci1 Hsh Hb Hm Hf) as (ci2 & Ha & Hrest & Hl1 & Hl2 & Hl3 & Hsh2 & Hb2 & Hself & Hm2).
  destruct (init_spec _ merge_qsort_sorted merge_qsort_perm 1 7001 0 Hu) as (c & Hc & _ & _ & Hs0). rewrite Hi in Hc. injection Hc as <-.
  exists ci1, ci2. unfold run. cbn [fold_left]. rewrite Hi. cbn [mbind option_bind run_op]. rewrite Ha, Hself.
  split_and!; [reflexivity|reflexivity|reflexivity|assumption..].
Qed.

Lemma cluster_owner_witness : exists ci, run merge_qsort 1 7001 0 [Add 2 7002 0 8191 5] = Some ci /\
  forall key, live ci (answer ci key) /\ owns (ring_entries (members ci)) (fnv1a_64 (slot_key (cluster_key_to_slot key))) (answer ci key).
Proof.
  destruct pair_cluster as (c1 & c2 & _ & _ & Hr2 & _ & _ & Hl & _). assert (in_u 32 1) as Hu by (unfold in_u; lia).
  destruct (cluster_owner _ merge_qsort_sorted merge_qsort_perm 1 7001 0 [Add 2 7002 0 8191 5]) as (ci & Hr & _ & _ & H).
  - exact Hu.
  - constructor; [|constructor]. cbn. unfold in_u. lia.
  - exists ci. split; [exact Hr|]. rewrite Hr2 in Hr. injection Hr as <-. intros key. apply H. exists 1. exact Hl.
Defined.

Lemma live_after_mark ci ci' r i j : shape ci -> built ci -> cluster_mark_failed merge_qsort ci j = Some (ci', r) -> live ci i -> i <> j -> live ci' i.
Proof.
  intros Hsh Hb Hmk (n & Hn & Hf & Hi) Hne. destruct (mark_failed_spec _ merge_qsort_sorted merge_qsort_perm ci j Hsh Hb) as (c & r' & Hc & _ & _ & _ & H).
  rewrite Hmk in Hc. injection Hc as <- <-. destruct H as [[_ ->]|[_ (k & Hk & Hid & Hm)]]; [by exists n|]. exists n. split_and!; [|done|done].
  rewrite Hm. apply elem_aset_other; [done|congruence|lia].
Qed.

Lemma cluster_minimal_disruption_witness : exists ci1 ci2, run merge_qsort 1 7001 0 [] = Some ci1 /\
  cluster_add_node merge_qsort ci1 2 7002 0 8191 5 = Some (ci2, 0) /\
  (forall key, answer ci2 key = answer ci1 key \/ answer ci2 key = 2) /\
  exists ci3 r, cluster_mark_failed merge_qsort ci2 2 = Some (ci3, r) /\ forall key, answer ci2 key <> 2 -> answer ci3 key = answer ci2 key.
Proof.
  destruct pair_cluster as (ci1 & ci2 & Hr1 & Ha & Hr2 & Hnd & Hl1 & Hl2 & _ & Hsh & Hb & _). exists ci1, ci2. split; [exact Hr1|]. split; [exact Ha|].
  assert (in_u 32 1 /\ in_u 32 2) as [Hu1 Hu2] by (unfold in_u; lia). split.
  - destruct (cluster_minimal_disruption _ merge_qsort_sorted merge_qsort_perm 1 7001 0 [] ci1 Hu1 ltac:(constructor) Hr1) as [Hadd _].
    destruct (Hadd 2 7002 0 8191 5 Hu2) as (c & r & Hc & H). rewrite Ha in Hc. injection Hc as <- <-. intros key.
    destruct (H Hnd (ex_intro _ 1 Hl1) key) as [|[_ ?]]; auto.
  - destruct (cluster_minimal_disruption _ merge_qsort_sorted merge_qsort_perm 1 7001 0 _ ci2 Hu1 (proj2 (Forall_singleton op_ok (Add 2 7002 0 8191 5)) Hu2) Hr2) as (_ & _ & Hmk).
    destruct (Hmk 2) as (c & r & Hc & H). exists c, r. split; [exact Hc|]. apply (H Hnd). exists 1.
    exact (live_after_mark _ _ _ _ _ Hsh Hb Hc Hl2 ltac:(lia)).
Defined.

(** ** What the lookups give otherwise *)

(** The tables differ from the 65th entry on: the keys do not have the slots
    they have in the server's cluster, "foo" for one. *)
Lemma crc16_tables_differ : take 64 CRC16_TABLE = take 64 Slots.crc16tab /\ aget CRC16_TABLE 64 <> aget Slots.crc16tab 64 /\
  crc16 [49; 50; 51; 52; 53; 54; 55; 56; 57] <> 0x31c3 /\ cluster_key_to_slot [102; 111; 111] = 13835 /\ keyHashSlot [102; 111; 111] = 12182.
Proof. split_and!; vm_compute; congruence. Qed.

(** When the last live member fails the table is not changed: lookups go on
    answering a member that has failed. *)
Lemma rebuild_empty qsort ci ci' : rebuild_ring qsort ci = Some ci' -> ring ci' = [] -> slot_to_node ci' = slot_to_node ci.
Proof.
  unfold rebuild_ring. destruct (slot_table _ _) as [t|] eqn:Ht; [|done]. cbn [mbind option_bind]. intros [= <-]. cbn [ring slot_to_node]. intros Hr.
  rewrite Hr in Ht. unfold slot_table in Ht. by injection Ht as <-.
Qed.

Lemma failed_cluster_answers ci i ci' r : shape ci -> built ci -> cluster_mark_failed merge_qsort ci i = Some (ci', r) -> (forall j, ~ live ci' j) ->
  forall key, answer ci' key = answer ci key /\ ~ live ci' (answer ci' key).
Proof.
  intros Hsh Hb Hmk Hdead key. split; [|done]. destruct (mark_failed_spec _ merge_qsort_sorted merge_qsort_perm ci i Hsh Hb) as (c & r' & Hc & Hsh' & Hb' & _).
  rewrite Hmk in Hc. injection Hc as <- <-. assert (ring ci' = []) as Hr.
  { destruct (decide (ring ci' = [])) as [|Hne]; [done|]. apply live_ring in Hne as (n & Hn & Hf); [|done|done]. destruct (Hdead (id n)). by exists n. }
  unfold cluster_mark_failed in Hmk. destruct (find_node _ _) as [j|]; [|injection Hmk as <- _; done]. destruct (fail_node _ _ _) as [c|] eqn:Hf; [|done].
  injection Hmk as <- _. apply rebuild_empty in Hf; [|done]. unfold answer, cluster_key_to_node. cbn [snd]. by rewrite Hf.
Qed.

(** A pong does not bring back a member that was declared failed. *)
Lemma pong_failed ci i now : shape ci -> 0 <= i < node_count ci -> state (aget (nodes ci) i) = CNODE_FAILED ->
  state (aget (nodes (fst (cluster_handle_pong ci (id (aget (nodes ci) i)) now))) i) = CNODE_FAILED.
Proof.
  intros Hsh Hi Hst. destruct (aget_members ci i Hsh Hi) as [Hag Hlt]. unfold cluster_handle_pong. destruct (find_node _ _) as [j|] eqn:Hf; [|done].
  apply find_node_spec in Hf as (Hj & Hid & _). assert (j = i) as ->.
  { rewrite <- Hag in Hid. destruct Hsh as [_ _ Hnd _ _]. rewrite NoDup_alt in Hnd. apply Z2Nat.inj; [lia|lia|].
    apply (Hnd _ _ (id (aget (members ci) i))); change (map id) with (fmap (M := list) id); rewrite list_lookup_fmap, aget_lookup by lia; cbn; congruence. }
  cbn [fst set_nodes nodes]. rewrite aget_aset_eq by (destruct Hsh as [Hl Hc _ _ _]; lia). cbn [set_pong state]. by rewrite Hst.
Qed.

(** [last_pong_us] of a node that joins is what the element of the array had:
    0 at first.  Two checks at the instant of the join declare it failed. *)
Lemma join_then_checks now ci i : 15000000 < now < 2 ^ 64 -> shape ci -> 0 <= i < node_count ci -> i <> self_idx ci ->
  state (aget (nodes ci) i) = CNODE_ACTIVE -> last_pong_us (aget (nodes ci) i) = 0 ->
  exists ci1, check_node merge_qsort now ci i = Some ci1 /\ state (aget (nodes ci1) i) = CNODE_SUSPECT /\
    check_node merge_qsort now ci1 i = fail_node merge_qsort ci1 i.
Proof.
  intros Hn Hsh Hi Hself Hst Hp. assert (now -64 0 = now) as Hw by (rewrite Z.sub_0_r; apply wrap_small; unfold in_u; lia). unfold check_node at 1.
  rewrite (proj2 (Z.eqb_neq _ _) Hself), Hst, Hp, Hw, (proj2 (Z.ltb_lt _ _)) by lia. eexists. split; [done|]. destruct Hsh as [Hl Hc _ _ _].
  cbn [set_nodes nodes]. rewrite aget_aset_eq by lia. split; [done|]. unfold check_node. cbn [set_nodes nodes self_idx].
  rewrite aget_aset_eq by lia. cbn [set_state state last_pong_us]. by rewrite (proj2 (Z.eqb_neq _ _) Hself), Hp, Hw, (proj2 (Z.ltb_lt 15000000 _)) by lia.
Qed.

(** When the node itself is removed [self_idx] is left on the one that takes
    its place, whose keys are then local. *)
Lemma removed_self_is_local : exists ci ci', run merge_qsort 1 7001 0 [Add 2 7002 0 8191 5] = Some ci /\ id (aget (nodes ci) (self_idx ci)) = 1 /\
  cluster_remove_node merge_qsort ci 1 = Some (ci', 0) /\ forall key, snd (cluster_key_is_local ci' key) = true /\ answer ci' key = 2.
Proof.
  destruct pair_cluster as (_ & ci & _ & _ & Hr & _ & _ & _ & (m & Hm & Hmf & Hmid) & Hsh & Hb & Hself & Hids).
  destruct (remove_node_spec _ merge_qsort_sorted merge_qsort_perm ci 1 Hsh Hb) as (ci' & r & Hrem & Hsh' & Hb' & Hself' & H).
  exists ci, ci'. split; [exact Hr|]. clear Hr. assert (node_count ci = 2) as Hc by (rewrite <- (alen_members ci Hsh); unfold alen; by rewrite <- (length_map id), Hids).
  destruct (aget_members ci 0 Hsh ltac:(lia)) as [Hag _]. rewrite Hself, <- Hag.
  destruct (members ci) as [|n1 [|n2 [|]]] eqn:Hms; try discriminate Hids. injection Hids as H1 H2. split; [exact H1|].
  assert (m = n2) as -> by (apply elem_of_cons in Hm as [->|Hm]; [congruence|]; by apply list_elem_of_singleton in Hm).
  destruct H as [[-> ->]|[-> (a & n & b & Hid & Ha & Hm')]].
  { unfold cluster_remove_node in Hrem. rewrite Hms in Hrem. cbn [find_node] in Hrem. rewrite H1 in Hrem. cbn [Z.eqb Pos.eqb] in Hrem.
    destruct (rebuild_ring _ _); [discriminate Hrem|discriminate Hrem]. }
  split; [exact Hrem|]. assert (members ci' = [n2]) as Hmem.
  { destruct a as [|a0 [|a1 [|]]]; injection Ha as; subst; rewrite ?Hm'; congruence || done. }
  intros key. pose proof (answer_live ci' key 2 Hsh' Hb') as (x & Hx & _ & Hxid).
  { exists n2. rewrite Hmem. split; [by left|done]. }
  rewrite Hmem in Hx. apply list_elem_of_singleton in Hx as ->.
  assert (node_count ci' = 1) as Hc' by (by rewrite <- (alen_members ci' Hsh'), Hmem). destruct (aget_members ci' 0 Hsh' ltac:(lia)) as [Hag' _].
  rewrite Hmem in Hag'. change (aget [n2] 0) with n2 in Hag'. split; [|congruence]. unfold cluster_key_is_local. rewrite Hself', Hself. cbn [Z.ltb Z.compare].
  unfold answer in Hxid. destruct (cluster_key_to_node ci' key) as [c x] eqn:Hk. cbn [snd] in *. assert (self_idx c = 0 /\ nodes c = nodes ci') as [-> ->] by (injection Hk as <- _; cbn; split; congruence).
  rewrite <- Hag', Hxid. apply Z.eqb_refl.
Qed.
