(* ===== verification/SplitArgs.v ===== *)
(** * Splitting a line into arguments (src/src/sds.c)

    [sdssplitargs], [sdsnsplitargs] and the inverse [sdscatrepr], on a block of
    memory with checked accesses ([ByteMem]); [end_ = None] is the variant for
    NUL-terminated lines.  A token is parsed twice, once to count its
    characters and once into a string of that length.  [char] is signed, so
    that [new_char = *p] is negative for bytes above 127; [isspace] and
    [isprint] are those of the C locale the server runs in.  What
    [sdsnewlen(SDS_NOINIT, n)] holds is the parameter [noinit]. *)
From S2P Require Import Prelude ByteMem.

Definition isspace (c : Z) : bool := (c =? 32) || ((9 <=? c) && (c <=? 13)).
Definition isprint (c : Z) : bool := (32 <=? c) && (c <=? 126).

(** ** Printing *)
Definition hex_char (d : Z) : Z := if d <? 10 then 48 + d else 87 + d.

(** One character inside the quotes of [sdscatrepr] (34 is the quote, 92 the backslash). *)
Definition repr_char (c : Z) : bytes :=
  if isprint c && negb (c =? 92) && negb (c =? 34) then [c]
  else if (c =? 92) || (c =? 34) then [92; c]
  else if c =? 10 then [92; 110]
  else if c =? 13 then [92; 114]
  else if c =? 9 then [92; 116]
  else if c =? 7 then [92; 97]
  else if c =? 8 then [92; 98]
  else [92; 120; hex_char (c / 16); hex_char (c mod 16)].

Definition sdscatrepr (s p : bytes) : bytes := s ++ [34] ++ concat (map repr_char p) ++ [34].

Fixpoint sdsneedsrepr (s : bytes) : bool :=
  match s with
  | [] => false
  | c :: s =>
      if (c =? 92) || (c =? 34) || (c =? 10) || (c =? 13) || (c =? 9) || (c =? 7) || (c =? 8) || negb (isprint c) || isspace c
      then true else sdsneedsrepr s
  end.

(** ** Parsing *)
Definition is_hex_digit (c : Z) : bool :=
  ((48 <=? c) && (c <=? 57)) || ((97 <=? c) && (c <=? 102)) || ((65 <=? c) && (c <=? 70)).

Definition hex_digit_to_int (c : Z) : Z :=
  if (48 <=? c) && (c <=? 57) then c - 48
  else if (97 <=? c) && (c <=? 102) then c - 87
  else if (65 <=? c) && (c <=? 70) then c - 55
  else 0.

Definition isPtrExceedingEnd (ptr len : Z) (end_ : option Z) : bool :=
  match end_ with
  | None => false
  | Some e => e <=? ptr + len
  end.

(** [a && b], where [b] is evaluated only after a true [a]. *)
Definition andr (a b : res bool) : res bool := x ← a; if (x : bool) then b else Ok false.

Definition test (m : bytes) (p : Z) (f : Z -> bool) : res bool := c ← ld m p; Ok (f c).

(** The value of a [char] converted to [int]. *)
Definition schar (c : Z) : Z := swrap 8 c.

Definition escaped (c : Z) : Z :=
  if c =? 110 then 10 else if c =? 114 then 13 else if c =? 116 then 9
  else if c =? 98 then 8 else if c =? 97 then 7 else schar c.

(** One turn of the loop of [sdsparsearg] before the character is stored; -1 is no character. *)
Inductive turn := Unterminated | Next (p : Z) (inq insq done : bool) (new_char : Z).

Definition parse_turn (m : bytes) (end_ : option Z) (p : Z) (inq insq : bool) : res turn :=
  c ← ld m p;
  if inq then
    if c =? 0 then Ok Unterminated
    else
      hex ← andr (Ok (negb (isPtrExceedingEnd p 4 end_))) (andr (Ok (c =? 92)) (andr (test m (p + 1) (fun x => x =? 120))
              (andr (test m (p + 2) is_hex_digit) (test m (p + 3) is_hex_digit))));
      if (hex : bool) then
        h ← ld m (p + 2); l ← ld m (p + 3);
        Ok (Next (p + 4) true false false (hex_digit_to_int h * 16 + hex_digit_to_int l))
      else
        esc ← andr (Ok (negb (isPtrExceedingEnd p 2 end_))) (andr (Ok (c =? 92)) (test m (p + 1) (fun x => negb (x =? 0))));
        if (esc : bool) then x ← ld m (p + 1); Ok (Next (p + 2) true false false (escaped x))
        else if c =? 34 then Ok (Next (p + 1) false false false (- 1))
        else Ok (Next (p + 1) true false false (schar c))
  else if insq then
    if c =? 0 then Ok Unterminated
    else
      esc ← andr (Ok (negb (isPtrExceedingEnd p 2 end_))) (andr (Ok (c =? 92)) (test m (p + 1) (fun x => x =? 39)));
      if (esc : bool) then Ok (Next (p + 2) false true false 39)
      else if c =? 39 then Ok (Next (p + 1) false false false (- 1))
      else Ok (Next (p + 1) false true false (schar c))
  else
    let p' := if c =? 0 then p else p + 1 in
    if (c =? 32) || (c =? 10) || (c =? 13) || (c =? 9) || (c =? 0) then Ok (Next p' false false true (- 1))
    else if c =? 34 then Ok (Next p' true false false (- 1))
    else if c =? 39 then Ok (Next p' false true false (- 1))
    else Ok (Next p' false false false (schar c)).

(** [dst] is the block written to and the offset of the next write. *)
Fixpoint parse_loop (fuel : nat) (m : bytes) (end_ : option Z) (arg p : Z) (inq insq : bool) (len : Z) (dst : option (bytes * Z))
    : res (Z * Z * option (bytes * Z)) :=
  match fuel with
  | O => OutOfFuel
  | S fuel =>
      t ← parse_turn m end_ p inq insq;
      match t with
      | Unterminated => Ok (0, len, dst)
      | Next p inq insq done new_char =>
          let stored := negb (new_char =? - 1) in
          dst ← match dst with
                | Some (b, d) => if stored then b ← st b d [u8 new_char]; Ok (Some (b, d + 1)) else Ok dst
                | None => Ok None
                end;
          let len := if stored then u32 (len + 1) else len in
          if isPtrExceedingEnd p 0 end_ then
            if inq || insq then Ok (0, len, dst) else Ok (i32 (p - arg), len, dst)
          else if (done : bool) then Ok (i32 (p - arg), len, dst)
          else parse_loop fuel m end_ arg p inq insq len dst
      end
  end.

(** The result, [*len] and what [dst] holds. *)
Definition sdsparsearg (m : bytes) (arg : Z) (end_ : option Z) (dst : option bytes) : res (Z * Z * option bytes) :=
  if isPtrExceedingEnd arg 0 end_ then Ok (0, 0, dst)
  else
    '(n, len, dst) ← parse_loop (S (length m)) m end_ arg arg false false 0 (option_map (fun b => (b, 0)) dst);
    Ok (n, len, option_map fst dst).

Fixpoint skip_blanks (fuel : nat) (m : bytes) (end_ : option Z) (p : Z) : res Z :=
  match fuel with
  | O => OutOfFuel
  | S fuel =>
      c ← ld m p;
      if (c =? 0) || isPtrExceedingEnd p 0 end_ then Ok p
      else if isspace c then skip_blanks fuel m end_ (p + 1) else Ok p
  end.

Section split.
Context (noinit : Z -> bytes).

(** The arguments, or [None] for NULL. *)
Fixpoint split_loop (fuel : nat) (m : bytes) (end_ : option Z) (p cap : Z) (vector : list bytes) : res (option (list bytes)) :=
  match fuel with
  | O => OutOfFuel
  | S fuel =>
      c ← ld m p;
      if (c =? 0) || isPtrExceedingEnd p 0 end_ then Ok (Some vector)
      else
        p ← skip_blanks (S (length m)) m end_ p;
        c ← ld m p;
        if (c =? 0) || isPtrExceedingEnd p 0 end_ then Ok (Some vector)
        else
          '(n, token_len, _) ← sdsparsearg m p end_ None;
          if n =? 0 then Ok None
          else
            '(parsed_len, _, current) ← sdsparsearg m p end_ (Some (noinit token_len));
            assert (0 <? parsed_len) ≫= fun _ =>
            let cap := if alen vector =? cap then if cap =? 0 then 8 else cap * 2 else cap in
            if alen vector <? cap then split_loop fuel m end_ (p + parsed_len) cap (vector ++ [default [] current])
            else OutOfBounds
  end.

Definition sdsnsplitargs_internal (m : bytes) (line : Z) (end_ : option Z) : res (option (list bytes)) :=
  split_loop (S (length m)) m end_ line 0 [].

Definition sdssplitargs (m : bytes) (line : Z) : res (option (list bytes)) := sdsnsplitargs_internal m line None.
Definition sdsnsplitargs (m : bytes) (line len : Z) : res (option (list bytes)) := sdsnsplitargs_internal m line (Some (line + len)).
End split.

(** ** What the code computes, on a list of characters

    An intermediate step of the proofs, with the peculiarities of the code: the
    format of the lines is specified below, from its documentation.

    [bounded] is the variant with an end pointer: there an escape sequence
    counts only when a character follows it. *)
Inductive mode := Plain | Double | Single.

Definition is_sep (c : Z) : bool := (c =? 32) || (c =? 10) || (c =? 13) || (c =? 9).

(** A character is kept unless it is the byte 255, whose [int] value is the mark for no character. *)
Definition keep (c : Z) (t : option (bytes * bytes)) : option (bytes * bytes) :=
  '(w, r) ← t; Some (if c =? 255 then w else c :: w, r).

Definition follows (bounded : bool) (r : bytes) : bool := negb bounded || match r with [] => false | _ => true end.

Definition unescape (c : Z) : Z :=
  if c =? 110 then 10 else if c =? 114 then 13 else if c =? 116 then 9 else if c =? 98 then 8 else if c =? 97 then 7 else c.

(** The token at the head of [l], and what follows it. *)
Fixpoint token (bounded : bool) (md : mode) (l : bytes) : option (bytes * bytes) :=
  match l with
  | [] => match md with Plain => Some ([], []) | _ => None end
  | c :: r =>
      match md with
      | Plain =>
          if c =? 0 then Some ([], l)
          else if is_sep c then Some ([], r)
          else if c =? 34 then token bounded Double r
          else if c =? 39 then token bounded Single r
          else keep c (token bounded Plain r)
      | Double =>
          if c =? 0 then None
          else if c =? 34 then token bounded Plain r
          else
            match r with
            | e :: r1 =>
                if (c =? 92) && follows bounded r1 && negb (e =? 0) then
                  match r1 with
                  | h :: l :: r2 =>
                      if (e =? 120) && is_hex_digit h && is_hex_digit l && follows bounded r2
                      then '(w, r) ← token bounded Double r2; Some (hex_digit_to_int h * 16 + hex_digit_to_int l :: w, r)
                      else keep (unescape e) (token bounded Double r1)
                  | _ => keep (unescape e) (token bounded Double r1)
                  end
                else keep c (token bounded Double r)
            | [] => None
            end
      | Single =>
          if c =? 0 then None
          else if c =? 39 then token bounded Plain r
          else
            match r with
            | e :: r1 =>
                if (c =? 92) && follows bounded r1 && (e =? 39) then keep 39 (token bounded Single r1)
                else keep c (token bounded Single r)
            | [] => None
            end
      end
  end.

Fixpoint skip_spaces (l : bytes) : bytes :=
  match l with
  | c :: r => if isspace c then skip_spaces r else l
  | [] => []
  end.

Fixpoint tokens (fuel : nat) (bounded : bool) (l : bytes) : option (list bytes) :=
  match fuel, skip_spaces l with
  | S fuel, c :: r =>
      if c =? 0 then Some []
      else '(w, r) ← token bounded Plain (c :: r); ws ← tokens fuel bounded r; Some (w :: ws)
  | _, _ => Some []
  end.

Definition split_ref (bounded : bool) (l : bytes) : option (list bytes) := tokens (length l) bounded l.

(** ** One turn of the reference

    The next mode, whether the token ends, the character kept and the rest. *)
Definition kept (c : Z) : option Z := if c =? 255 then None else Some c.

Definition ref_turn (bounded : bool) (md : mode) (c : Z) (r : bytes) : option (mode * bool * option Z * bytes) :=
  match md with
  | Plain =>
      if c =? 0 then Some (Plain, true, None, c :: r)
      else if is_sep c then Some (Plain, true, None, r)
      else if c =? 34 then Some (Double, false, None, r)
      else if c =? 39 then Some (Single, false, None, r)
      else Some (Plain, false, kept c, r)
  | Double =>
      if c =? 0 then None
      else if c =? 34 then Some (Plain, false, None, r)
      else
        match r with
        | e :: r1 =>
            if (c =? 92) && follows bounded r1 && negb (e =? 0) then
              match r1 with
              | h :: l :: r2 =>
                  if (e =? 120) && is_hex_digit h && is_hex_digit l && follows bounded r2
                  then Some (Double, false, Some (hex_digit_to_int h * 16 + hex_digit_to_int l), r2)
                  else Some (Double, false, kept (unescape e), r1)
              | _ => Some (Double, false, kept (unescape e), r1)
              end
            else Some (Double, false, kept c, r)
        | [] => Some (Double, false, kept c, r)
        end
  | Single =>
      if c =? 0 then None
      else if c =? 39 then Some (Plain, false, None, r)
      else
        match r with
        | e :: r1 =>
            if (c =? 92) && follows bounded r1 && (e =? 39) then Some (Single, false, Some 39, r1)
            else Some (Single, false, kept c, r)
        | [] => Some (Single, false, kept c, r)
        end
  end.

Definition add_char (ch : option Z) (t : option (bytes * bytes)) : option (bytes * bytes) :=
  '(w, r) ← t; Some (option_list ch ++ w, r).

Lemma keep_add c t : keep c t = add_char (kept c) t.
Proof. destruct t as [[w r]|]; [|done]. unfold keep, kept, add_char. cbn. by case_if. Qed.

Lemma token_turn b md c r :
  token b md (c :: r) = match ref_turn b md c r with
                        | None => None
                        | Some (md', done, ch, r') => if done then Some ([], r') else add_char ch (token b md' r')
                        end.
Proof.
  assert (forall t, t = add_char None t) as Hid by (by intros [[]|]).
  destruct md; cbn [token ref_turn].
  - repeat case_if; rewrite ?keep_add; try done; apply Hid.
  - case_if; [done|]. case_if; [apply Hid|]. destruct r as [|e r1]; [by rewrite <- keep_add|].
    case_if; [|apply keep_add]. destruct r1 as [|h [|l r2]]; try apply keep_add. case_if; [done|apply keep_add].
  - case_if; [done|]. case_if; [apply Hid|]. destruct r as [|e r1]; [by rewrite <- keep_add|]. case_if; apply keep_add.
Qed.

(** ** Reading a line in memory

    [l] starts at [q] in [m]; a byte follows it, which is the terminator for
    the unbounded variant. *)
Definition suffix_at (b : bool) (m : bytes) (end_ : option Z) (q : Z) (l : bytes) : Prop :=
  exists a c x, m = a ++ l ++ c :: x /\ q = alen a /\
    match end_ with Some e => b = true /\ e = q + alen l | None => b = false /\ c = 0 /\ 0 ∉ l end.

Lemma suffix_cons b m e q c l : suffix_at b m e q (c :: l) -> suffix_at b m e (q + 1) l.
Proof.
  intros (a & c' & x & -> & -> & He). exists (a ++ [c]), c', x. rewrite <- app_assoc, alen_app.
  split; [done|]. split; [done|]. destruct e as [e|]; [|set_solver]. rewrite alen_cons in He. destruct He as [? ->]. split; [done|lia].
Qed.

Lemma suffix_app b m e q w l : suffix_at b m e q (w ++ l) -> suffix_at b m e (q + alen w) l.
Proof.
  revert q. induction w as [|c w IH]; intros q H; [by rewrite (@alen_nil Z), Z.add_0_r|].
  rewrite alen_cons, Z.add_assoc. apply IH. by apply suffix_cons with c.
Qed.

Lemma suffix_head b m e q c l : suffix_at b m e q (c :: l) -> ld m q = Ok c.
Proof. intros (a & c' & x & -> & -> & _). rewrite <- app_comm_cons. apply (ld_frame0 a [c] (l ++ c' :: x)). done. Qed.

Lemma suffix_end b m e q : suffix_at b m e q [] -> exists c, ld m q = Ok c /\ (b = false -> c = 0).
Proof.
  intros (a & c & x & -> & -> & He). exists c. split; [by apply (ld_frame0 a [c] x)|]. intros ->. destruct e; naive_solver.
Qed.

Lemma suffix_exceeds b m e q l k : suffix_at b m e q l -> isPtrExceedingEnd q k e = b && (alen l <=? k).
Proof.
  intros (a & c & x & _ & _ & He). destruct e as [e|]; cbn; [|by destruct He as (-> & _)]. destruct He as [-> ->].
  cbn. apply eq_true_iff_eq. rewrite !Z.leb_le. lia.
Qed.

Lemma suffix_fuel b m e q l : suffix_at b m e q l -> (length l < length m)%nat.
Proof. intros (a & c & x & -> & _). rewrite !length_app. cbn. lia. Qed.

Lemma suffix_zero b m e q c l : suffix_at b m e q (c :: l) -> c = 0 -> b = true.
Proof. intros (a & c' & x & _ & _ & He) ->. destruct e; [tauto|]. set_solver. Qed.

Definition char_of (new_char : Z) : option Z := if new_char =? - 1 then None else Some (u8 new_char).

Lemma char_of_schar c : in_u 8 c -> char_of (schar c) = kept c.
Proof.
  intros Hc. assert (forall c, in_u 8 c -> bool_decide (char_of (schar c) = kept c) = true) as H.
  { apply byte_forall. by vm_compute. }
  exact (bool_decide_eq_true_1 _ (H c Hc)).
Qed.

Lemma char_of_escaped c : in_u 8 c -> char_of (escaped c) = kept (unescape c).
Proof.
  intros Hc. assert (forall c, in_u 8 c -> bool_decide (char_of (escaped c) = kept (unescape c)) = true) as H.
  { apply byte_forall. by vm_compute. }
  exact (bool_decide_eq_true_1 _ (H c Hc)).
Qed.

Lemma hex_digit_range c : 0 <= hex_digit_to_int c <= 15.
Proof. unfold hex_digit_to_int. repeat case_if; lia. Qed.

Lemma char_of_small c : in_u 8 c -> char_of c = Some c.
Proof. intros. unfold char_of. rewrite (proj2 (Z.eqb_neq _ _)) by mach. by rewrite wrap_small. Qed.

Definition is_double (md : mode) : bool := match md with Double => true | _ => false end.
Definition is_single (md : mode) : bool := match md with Single => true | _ => false end.

(** [follows] is the check of the end pointer. *)
Lemma follows_exceeds b m e q w r n : suffix_at b m e q (w ++ r) -> n = alen w -> negb (isPtrExceedingEnd q n e) = follows b r.
Proof.
  intros H ->. rewrite (suffix_exceeds _ _ _ _ _ _ H), alen_app. unfold follows. rewrite negb_andb. f_equal.
  destruct r as [|c r]; [rewrite (@alen_nil Z)|rewrite alen_cons; pose proof (alen_nonneg r)];
    [apply negb_false_iff, Z.leb_le|apply negb_true_iff, Z.leb_gt]; lia.
Qed.

Lemma andr_true b : andr (Ok true) b = b.
Proof. done. Qed.

Lemma andr_false b : andr (Ok false) b = Ok false.
Proof. done. Qed.

Lemma andr_ok a b : andr (Ok a) (Ok b) = Ok (a && b).
Proof. by destruct a. Qed.

(** A look at the byte after [w]. *)
Lemma test_at b m e q w r f n : suffix_at b m e q (w ++ r) -> n = alen w -> (r = [] -> b = false) ->
  test m (q + n) f = Ok (f (hd 0 r)).
Proof.
  intros H -> Hr. apply suffix_app in H. unfold test. destruct r as [|c r].
  - destruct (suffix_end _ _ _ _ H) as (c & -> & Hc). cbn. by rewrite Hc by auto.
  - by rewrite (suffix_head _ _ _ _ _ _ H).
Qed.

Lemma escape_test b m e q c r f : suffix_at b m e q (c :: r) -> f 0 = false ->
  andr (Ok (negb (isPtrExceedingEnd q 2 e))) (andr (Ok (c =? 92)) (test m (q + 1) f)) =
  Ok (match r with x :: r1 => (c =? 92) && follows b r1 && f x | [] => false end).
Proof.
  intros H Hf. destruct r as [|x r1].
  - rewrite (suffix_exceeds _ _ _ _ _ _ H). destruct b; [done|]. cbn [andb negb]. rewrite andr_true.
    rewrite (test_at _ _ _ _ [c] [] f 1 H) by done. rewrite andr_ok. cbn. by rewrite Hf, andb_false_r.
  - rewrite (follows_exceeds b m e q [c; x] r1 2) by done. rewrite (test_at _ _ _ _ [c] (x :: r1) f 1 H) by done.
    rewrite !andr_ok. f_equal. cbn [hd]. destruct (c =? 92); cbn; [done|]. by rewrite andb_false_r.
Qed.

Lemma hex_test b m e q c r : suffix_at b m e q (c :: r) ->
  andr (Ok (negb (isPtrExceedingEnd q 4 e))) (andr (Ok (c =? 92)) (andr (test m (q + 1) (fun x => x =? 120))
    (andr (test m (q + 2) is_hex_digit) (test m (q + 3) is_hex_digit)))) =
  Ok (match r with
      | x :: h :: l :: r2 => (c =? 92) && ((x =? 120) && is_hex_digit h && is_hex_digit l && follows b r2)
      | _ => false
      end).
Proof.
  intros H. destruct r as [|x [|h [|l r2]]].
  - rewrite (suffix_exceeds _ _ _ _ _ _ H). destruct b; [done|]. cbn [andb negb]. rewrite andr_true.
    rewrite (test_at _ _ _ _ [c] [] _ 1 H) by done. cbn [hd Z.eqb]. rewrite andr_false, andr_ok. by rewrite andb_false_r.
  - rewrite (suffix_exceeds _ _ _ _ _ _ H). destruct b; [done|]. cbn [andb negb]. rewrite andr_true.
    rewrite (test_at _ _ _ _ [c] [x] _ 1 H), (test_at _ _ _ _ [c; x] [] _ 2 H) by done.
    cbn [hd]. replace (is_hex_digit 0) with false by done. rewrite andr_false, !andr_ok. by rewrite !andb_false_r.
  - rewrite (suffix_exceeds _ _ _ _ _ _ H). destruct b; [done|]. cbn [andb negb]. rewrite andr_true.
    rewrite (test_at _ _ _ _ [c] [x; h] _ 1 H), (test_at _ _ _ _ [c; x] [h] _ 2 H), (test_at _ _ _ _ [c; x; h] [] _ 3 H) by done.
    cbn [hd]. replace (is_hex_digit 0) with false by done. rewrite !andr_ok. by rewrite !andb_false_r.
  - rewrite (follows_exceeds b m e q [c; x; h; l] r2 4) by done.
    rewrite (test_at _ _ _ _ [c] (x :: h :: l :: r2) _ 1 H), (test_at _ _ _ _ [c; x] (h :: l :: r2) _ 2 H),
      (test_at _ _ _ _ [c; x; h] (l :: r2) _ 3 H) by done. cbn [hd]. rewrite !andr_ok. f_equal. by destruct (c =? 92), (x =? 120), (is_hex_digit h), (is_hex_digit l), (follows b r2).
Qed.

(** The turn in memory is the turn of the reference. *)
Definition turn_is (q : Z) (r : bytes) (t : turn) (o : option (mode * bool * option Z * bytes)) : Prop :=
  match o with
  | None => t = Unterminated
  | Some (md, done, ch, r') =>
      exists nc w, t = Next (q + alen w) (is_double md) (is_single md) done nc /\ char_of nc = ch /\ r = w ++ r' /\ (w = [] -> done = true)
  end.

Lemma turn_is_next q r md done ch nc w r' n : n = alen w -> char_of nc = ch -> r = w ++ r' -> w <> [] ->
  turn_is q r (Next (q + n) (is_double md) (is_single md) done nc) (Some (md, done, ch, r')).
Proof. intros -> ? -> ?. by exists nc, w. Qed.

Lemma parse_turn_spec b m e q md c r : suffix_at b m e q (c :: r) -> is_bytes (c :: r) ->
  exists t, parse_turn m e q (is_double md) (is_single md) = Ok t /\ turn_is q (c :: r) t (ref_turn b md c r).
Proof.
  intros H Hb. pose proof Hb as [Hc Hr]%Forall_cons. unfold parse_turn. rewrite (suffix_head _ _ _ _ _ _ H). rewrite bind_ok.
  assert (char_of (- 1) = None) as Hn by done.
  destruct md; cbn [is_double is_single ref_turn].
  - unfold is_sep. destruct (c =? 0) eqn:H0; cbn [orb].
    + rewrite orb_true_r. eexists. split; [done|]. exists (- 1), []. by rewrite (@alen_nil Z), Z.add_0_r.
    + rewrite orb_false_r. case_if; [eexists; split; [done|]; by apply (turn_is_next q _ Plain _ None _ [c])|].
      case_if; [eexists; split; [done|]; by apply (turn_is_next q _ Double _ None _ [c])|].
      case_if; [eexists; split; [done|]; by apply (turn_is_next q _ Single _ None _ [c])|].
      eexists; split; [done|]; apply (turn_is_next q _ Plain _ _ _ [c]); auto using char_of_schar.
  - case_if; [by eexists|]. rewrite (hex_test b m e q c r H), bind_ok.
    rewrite (escape_test b m e q c r (fun x => negb (x =? 0)) H) by done. rewrite bind_ok.
    assert (exists t, (if c =? 34 then Ok (Next (q + 1) false false false (- 1)) else Ok (Next (q + 1) true false false (schar c))) = Ok t /\
      turn_is q (c :: r) t (if c =? 34 then Some (Plain, false, None, r) else Some (Double, false, kept c, r))) as Hplain.
    { case_if; eexists; (split; [done|]); [by apply (turn_is_next q _ Plain _ None _ [c])|].
      apply (turn_is_next q _ Double _ _ _ [c]); auto using char_of_schar. }
    destruct r as [|x r1]; [exact Hplain|]. pose proof Hr as [Hx Hr1]%Forall_cons.
    assert ((c =? 92) && follows b r1 && negb (x =? 0) = true -> exists t, Ok (Next (q + 2) true false false (escaped x)) = Ok t /\
      turn_is q (c :: x :: r1) t (Some (Double, false, kept (unescape x), r1))) as Hesc.
    { intros _. eexists; split; [done|]; apply (turn_is_next q _ Double _ _ _ [c; x]); auto using char_of_escaped. }
    assert ((c =? 92) = true -> (c =? 34) = false) as H34 by (intros; cmp_prop; lia).
    assert (test_x : (ld m (q + 1) ≫= fun x => Ok (Next (q + 2) true false false (escaped x))) = Ok (Next (q + 2) true false false (escaped x))).
    { rewrite (suffix_head _ _ _ _ _ _ (suffix_cons _ _ _ _ _ _ H)). done. }
    rewrite test_x.
    destruct ((c =? 92) && follows b r1 && negb (x =? 0)) eqn:Hf.
    + assert ((c =? 92) = true) as Hc92 by (by destruct (c =? 92)). rewrite Hc92, H34 by done.
      destruct r1 as [|h [|l r2]]; [by apply Hesc|by apply Hesc|]. cbn [andb].
      destruct ((x =? 120) && is_hex_digit h && is_hex_digit l && follows b r2); [|by apply Hesc].
      pose proof (suffix_app b m e q [c; x] (h :: l :: r2) H : suffix_at b m e (q + 2) _) as H2.
      pose proof (suffix_app b m e q [c; x; h] (l :: r2) H : suffix_at b m e (q + 3) _) as H3.
      rewrite (suffix_head _ _ _ _ _ _ H2), bind_ok, (suffix_head _ _ _ _ _ _ H3), bind_ok.
      eexists; split; [done|]. pose proof (hex_digit_range h). pose proof (hex_digit_range l).
      apply (turn_is_next q _ Double _ _ _ [c; x; h; l]); try done. apply char_of_small. mach.
    + assert (match r1 with h :: l :: r2 => (c =? 92) && ((x =? 120) && is_hex_digit h && is_hex_digit l && follows b r2) | _ => false end = false) as ->.
      { destruct r1 as [|h [|l r2]]; try done. destruct (c =? 92); [|done]. unfold follows in Hf |- *. cbn [andb] in *.
        rewrite orb_true_r in Hf. cbn in Hf. destruct (x =? 120) eqn:Hx120; [|done]. apply Z.eqb_eq in Hx120 as ->. done. }
      exact Hplain.
  - case_if; [by eexists|]. rewrite (escape_test b m e q c r (fun x => x =? 39) H) by done. rewrite bind_ok.
    assert (exists t, (if c =? 39 then Ok (Next (q + 1) false false false (- 1)) else Ok (Next (q + 1) false true false (schar c))) = Ok t /\
      turn_is q (c :: r) t (if c =? 39 then Some (Plain, false, None, r) else Some (Single, false, kept c, r))) as Hplain.
    { case_if; eexists; (split; [done|]); [by apply (turn_is_next q _ Plain _ None _ [c])|].
      apply (turn_is_next q _ Single _ _ _ [c]); auto using char_of_schar. }
    destruct r as [|x r1]; [exact Hplain|].
    destruct ((c =? 92) && follows b r1 && (x =? 39)) eqn:Hf; [|exact Hplain].
    assert ((c =? 39) = false) as -> by (destruct (c =? 92) eqn:?; cmp_prop; lia).
    eexists; split; [done|]. by apply (turn_is_next q _ Single _ _ _ [c; x]).
Qed.

(** ** One token

    [dst_ok dst dst' w]: [w] fills what is left of [dst]. *)
Definition dst_ok (dst dst' : option (bytes * Z)) (w : bytes) : Prop :=
  match dst with
  | None => dst' = None
  | Some (b, d) => exists done rest, b = done ++ rest /\ d = alen done /\ alen rest = alen w /\ dst' = Some (done ++ w, d + alen w)
  end.

Definition store (dst : option (bytes * Z)) (new_char : Z) : res (option (bytes * Z)) :=
  match dst with
  | Some (b, d) => if negb (new_char =? - 1) then b ← st b d [u8 new_char]; Ok (Some (b, d + 1)) else Ok dst
  | None => Ok None
  end.

Lemma store_ok dst dst' nc w : dst_ok dst dst' (option_list (char_of nc) ++ w) ->
  exists dst1, store dst nc = Ok dst1 /\ dst_ok dst1 dst' w.
Proof.
  unfold store, char_of. destruct dst as [[b d]|]; [|by eexists]. destruct (nc =? - 1); [by eexists|]. cbn [dst_ok negb option_list app].
  intros (dn & rest & -> & -> & Hl & ->). change (option_list (Some (u8 nc)) ++ w) with (u8 nc :: w) in *. rewrite alen_cons in *. pose proof (alen_nonneg w).
  destruct rest as [|x rest]; [by rewrite (@alen_nil Z) in Hl; lia|]. rewrite alen_cons in Hl.
  assert (st (dn ++ [x] ++ rest) (alen dn) [u8 nc] = Ok (dn ++ [u8 nc] ++ rest)) as Hst by (by apply st_app).
  cbn [app] in Hst. rewrite Hst. cbn [mbind res_bind]. eexists. split; [done|]. exists (dn ++ [u8 nc]), rest.
  split; [by rewrite <- app_assoc|]. split; [by rewrite alen_app|]. split; [lia|].
  rewrite <- app_assoc. cbn [app]. do 2 f_equal. lia.
Qed.

Lemma store_none nc : store None nc = Ok None.
Proof. done. Qed.

(** The turn at the terminator of an unbounded line. *)
Lemma turn_at_end m q md arg fuel len dst : suffix_at false m None q [] ->
  parse_loop (S fuel) m None arg q (is_double md) (is_single md) len dst =
  match md with Plain => Ok (i32 (q - arg), len, dst) | _ => Ok (0, len, dst) end.
Proof.
  intros H. destruct (suffix_end _ _ _ _ H) as (c & Hc & Hz). rewrite Hz in Hc by done.
  cbn [parse_loop]. unfold parse_turn. rewrite Hc. by destruct md, dst as [[]|].
Qed.

Lemma loop_unfold fuel m e arg p inq insq len dst :
  parse_loop (S fuel) m e arg p inq insq len dst =
  (t ← parse_turn m e p inq insq;
   match t with
   | Unterminated => Ok (0, len, dst)
   | Next p inq insq done nc =>
       dst ← store dst nc;
       let len := if negb (nc =? - 1) then u32 (len + 1) else len in
       if isPtrExceedingEnd p 0 e then
         if inq || insq then Ok (0, len, dst) else Ok (i32 (p - arg), len, dst)
       else if (done : bool) then Ok (i32 (p - arg), len, dst)
       else parse_loop fuel m e arg p inq insq len dst
   end).
Proof. done. Qed.

Lemma len_count nc len w : 0 <= len -> len + alen (option_list (char_of nc) ++ w) < 2 ^ 32 ->
  (if negb (nc =? - 1) then u32 (len + 1) else len) = len + alen (option_list (char_of nc)).
Proof.
  unfold char_of. rewrite alen_app. pose proof (alen_nonneg w). destruct (nc =? - 1); cbn [negb]; intros.
  - change (alen (option_list (@None Z))) with 0 in *. lia.
  - change (alen (option_list (Some (u8 nc)))) with 1 in *. rewrite wrap_small by mach. lia.
Qed.

Lemma dst_ok_nil dst dst' : dst_ok dst dst' [] -> dst' = dst.
Proof.
  destruct dst as [[b d]|]; [|done]. intros (dn & rest & -> & -> & Hr & ->). rewrite (@alen_nil Z) in *.
  destruct rest; [by rewrite app_nil_r, Z.add_0_r|]. rewrite alen_cons in Hr. pose proof (alen_nonneg rest). lia.
Qed.

(** A turn that ends the token is outside quotes and keeps no character. *)
Lemma ref_turn_done b md c r md' ch r' : ref_turn b md c r = Some (md', true, ch, r') -> md' = Plain /\ ch = None.
Proof. unfold ref_turn. destruct md; repeat case_match; intros; by simplify_eq. Qed.

(** What the loop does after a turn that goes on. *)
Definition loop_result (m : bytes) (e : option Z) (arg q : Z) (md : mode) (l : bytes) (len : Z) (dst : option (bytes * Z)) (fuel : nat)
    (b : bool) : res (Z * Z * option (bytes * Z)) :=
  if b && (alen l <=? 0) then if is_double md || is_single md then Ok (0, len, dst) else Ok (i32 (q - arg), len, dst)
  else parse_loop fuel m e arg q (is_double md) (is_single md) len dst.

Definition loop_spec (b : bool) (fuel : nat) : Prop :=
  forall m e arg q md l len w r dst dst', suffix_at b m e q l -> is_bytes l -> (length l < fuel)%nat ->
  token b md l = Some (w, r) -> 0 <= len -> len + alen w < 2 ^ 32 -> dst_ok dst dst' w ->
  loop_result m e arg q md l len dst fuel b = Ok (i32 (q + alen l - alen r - arg), len + alen w, dst').

Lemma loop_ok_nil b fuel : forall m e arg q md len w r dst dst', suffix_at b m e q [] ->
  token b md [] = Some (w, r) -> dst_ok dst dst' w ->
  loop_result m e arg q md [] len dst (S fuel) b = Ok (i32 (q + alen ([] : bytes) - alen r - arg), len + alen w, dst').
Proof.
  intros m e arg q md len w r dst dst' H Ht Hd. destruct md; try done. injection Ht as <- <-. apply dst_ok_nil in Hd as ->.
  rewrite !(@alen_nil Z), !Z.add_0_r, Z.sub_0_r. unfold loop_result. destruct b; [done|]. cbn [andb].
  destruct e as [e|]; [by destruct H as (? & ? & ? & _ & _ & [? _])|]. by apply (turn_at_end m q Plain).
Qed.

Lemma loop_ok b fuel : loop_spec b fuel.
Proof.
  induction fuel as [|fuel IH]; intros m e arg q md l len w r dst dst' H Hby Hf Ht Hlen Hlw Hd; [lia|].
  destruct l as [|c r0]; [by apply loop_ok_nil|].
  unfold loop_result. rewrite (proj2 (Z.leb_gt _ _)), andb_false_r by (rewrite alen_cons; pose proof (alen_nonneg r0); lia).
  rewrite token_turn in Ht. destruct (parse_turn_spec b m e q md c r0 H Hby) as (t & Htu & Hti).
  rewrite loop_unfold, Htu, bind_ok. destruct (ref_turn b md c r0) as [[[[md' fin] ch] r']|] eqn:Hrt; [|done].
  destruct Hti as (nc & w0 & -> & Hch & Hsplit & Hw0). rewrite Hsplit in H. pose proof (suffix_app _ _ _ _ _ _ H) as H'.
  rewrite (suffix_exceeds _ _ _ _ _ 0 H'). pose proof Hby as Hby'. rewrite Hsplit in Hby'. apply is_bytes_app in Hby' as [_ Hby'].
  assert (q + alen (c :: r0) = q + alen w0 + alen r') as -> by (rewrite Hsplit, alen_app; lia).
  destruct fin.
  - injection Ht as <- <-. destruct (ref_turn_done _ _ _ _ _ _ _ Hrt) as [-> ->].
    destruct (store_ok dst dst' nc []) as (dst1 & -> & Hd1%dst_ok_nil); [by rewrite Hch|]. subst dst'.
    unfold char_of in Hch. destruct (nc =? - 1); [|done]. rewrite bind_ok. change (alen (@nil Z)) with 0. rewrite Z.add_0_r. cbn [negb is_double is_single orb].
    replace (q + alen w0 + alen r' - alen r' - arg) with (q + alen w0 - arg) by lia. by case_if.
  - destruct (token b md' r') as [[w1 r1]|] eqn:Ht1; [|done]. cbn in Ht. injection Ht as <- <-. rewrite <- Hch in *.
    destruct (store_ok dst dst' nc w1 Hd) as (dst1 & -> & Hd1). rewrite bind_ok, (len_count nc len w1) by done.
    rewrite alen_app in Hlw |- *. pose proof (alen_nonneg (option_list (char_of nc))).
    assert (length r' < fuel)%nat.
    { destruct w0; [by specialize (Hw0 eq_refl)|]. pose proof (f_equal length Hsplit) as Hl. rewrite length_app in Hl. cbn [length] in Hl, Hf. lia. }
    rewrite Z.add_assoc. apply (IH m e arg (q + alen w0) md' r'); try done; lia.
Qed.

Lemma token_none_loop b fuel : forall m e arg q md l len, suffix_at b m e q l -> is_bytes l -> (length l < fuel)%nat ->
  token b md l = None -> exists len', loop_result m e arg q md l len None fuel b = Ok (0, len', None).
Proof.
  induction fuel as [|fuel IH]; intros m e arg q md l len H Hby Hf Ht; [lia|]. destruct l as [|c r0].
  - unfold loop_result. destruct b; cbn [andb]; [destruct md; [done|by exists len..]|].
    destruct e as [e|]; [by destruct H as (? & ? & ? & _ & _ & [? _])|]. rewrite turn_at_end by done. destruct md; [done|by exists len..].
  - unfold loop_result. rewrite (proj2 (Z.leb_gt _ _)), andb_false_r by (rewrite alen_cons; pose proof (alen_nonneg r0); lia).
    rewrite token_turn in Ht. destruct (parse_turn_spec b m e q md c r0 H Hby) as (t & Htu & Hti).
    rewrite loop_unfold, Htu, bind_ok. destruct (ref_turn b md c r0) as [[[[md' fin] ch] r']|] eqn:Hrt; [|cbn in Hti; subst t; by eexists].
    destruct Hti as (nc & w0 & -> & _ & Hsplit & Hw0). rewrite Hsplit in H. pose proof (suffix_app _ _ _ _ _ _ H) as H'.
    rewrite (suffix_exceeds _ _ _ _ _ 0 H'), store_none, bind_ok. rewrite Hsplit in Hby. apply is_bytes_app in Hby as [_ Hby'].
    destruct fin; [done|]. destruct (token b md' r') as [[w1 r1]|] eqn:Ht1; [done|]. apply IH; try done.
    destruct w0; [by specialize (Hw0 eq_refl)|]. pose proof (f_equal length Hsplit) as Hl. rewrite length_app in Hl. cbn [length] in Hl, Hf. lia.
Qed.

Lemma ref_turn_shorter b md c r md' fin ch r' : ref_turn b md c r = Some (md', fin, ch, r') ->
  exists x, c :: r = x ++ r' /\ alen (option_list ch) <= alen x /\ (fin = false \/ c <> 0 -> x <> []).
Proof.
  intros H. assert (forall d, alen (option_list (kept d)) <= 1) as Hk by (intros d; unfold kept; by case_if).
  unfold ref_turn in H. destruct md; repeat case_match; simplify_eq;
    first [exists []; split; [done|]; split; [done|]; intros [|]; [done|cmp_prop; lia]
          |exists [c]; split; [done|]; split; [first [apply Hk|done]|done]
          |eexists [c; _]; split; [done|]; split; [first [etrans; [apply Hk|done]|done]|done]
          |eexists [c; _; _; _]; split; [done|]; split; [done|done]].
Qed.

Lemma token_rest b n : forall md l w r, (length l <= n)%nat -> token b md l = Some (w, r) ->
  exists x, l = x ++ r /\ alen w <= alen x /\ (hd 0 l <> 0 -> x <> []).
Proof.
  induction n as [|n IH]; intros md l w r Hl Ht.
  - destruct l; [|cbn in Hl; lia]. destruct md; try done. injection Ht as <- <-. by exists [].
  - destruct l as [|c l]; [destruct md; try done; injection Ht as <- <-; by exists []|].
    rewrite token_turn in Ht. destruct (ref_turn b md c l) as [[[[md' fin] ch] r']|] eqn:Hr; [|done].
    destruct (ref_turn_shorter _ _ _ _ _ _ _ _ Hr) as (x & Hx & Hch & Hne). destruct fin.
    + injection Ht as <- <-. exists x. split; [done|]. split; [apply alen_nonneg|]. cbn. auto.
    + destruct (token b md' r') as [[w1 r1]|] eqn:Ht1; [|done]. cbn in Ht. injection Ht as <- <-.
      assert (x <> []) as Hx0 by auto. destruct x as [|c0 x]; [done|].
      pose proof (f_equal length Hx) as Hlx. rewrite length_app in Hlx. cbn [length] in *.
      destruct (IH md' r' w1 r1) as (y & -> & Hy & _); [lia|done|]. exists (c0 :: x ++ y).
      split; [by rewrite Hx; cbn; rewrite <- app_assoc|]. rewrite app_comm_cons, !alen_app. split; [lia|done].
Qed.

Lemma parsearg_ok b m e q c r w r' : suffix_at b m e q (c :: r) -> is_bytes (c :: r) -> alen (c :: r) < 2 ^ 31 ->
  token b Plain (c :: r) = Some (w, r') ->
  let n := alen (c :: r) - alen r' in
  sdsparsearg m q e None = Ok (n, alen w, None) /\
  forall blk, alen blk = alen w -> sdsparsearg m q e (Some blk) = Ok (n, alen w, Some w).
Proof.
  intros H Hby Hl Ht n. destruct (token_rest b _ Plain _ w r' (Nat.le_refl _) Ht) as (x & Hx & Hw & _).
  pose proof (f_equal alen Hx) as Hxl. rewrite alen_app in Hxl. pose proof (alen_nonneg w). pose proof (alen_nonneg r').
  unfold sdsparsearg. rewrite (suffix_exceeds _ _ _ _ _ 0 H).
  assert ((b && (alen (c :: r) <=? 0)) = false) as Hex.
  { rewrite (proj2 (Z.leb_gt _ _)), andb_false_r; [done|]. rewrite alen_cons. pose proof (alen_nonneg r). lia. }
  rewrite Hex. pose proof (suffix_fuel _ _ _ _ _ H).
  assert (i32 (q + alen (c :: r) - alen r' - q) = n) as Hn by (subst n; rewrite swrap_small by mach; lia).
  assert (forall dst dst', dst_ok dst dst' w ->
    parse_loop (S (length m)) m e q q false false 0 dst = Ok (n, alen w, dst')) as Hrun.
  { intros dst dst' Hd. pose proof (loop_ok b (S (length m)) m e q q Plain (c :: r) 0 w r' dst dst' H Hby) as Hok.
    unfold loop_result in Hok. rewrite Hex, Hn in Hok. apply Hok; [lia|done|lia|mach|done]. }
  split.
  - cbn [option_map]. rewrite (Hrun None None); [done|done].
  - intros blk Hblk. cbn [option_map]. rewrite (Hrun (Some (blk, 0)) (Some (w, alen w))); [done|].
    by exists [], blk.
Qed.

Lemma parsearg_none b m e q c r : suffix_at b m e q (c :: r) -> is_bytes (c :: r) -> token b Plain (c :: r) = None ->
  exists len, sdsparsearg m q e None = Ok (0, len, None).
Proof.
  intros H Hby Ht. unfold sdsparsearg. rewrite (suffix_exceeds _ _ _ _ _ 0 H). pose proof (suffix_fuel _ _ _ _ _ H).
  assert ((b && (alen (c :: r) <=? 0)) = false) as Hex.
  { rewrite (proj2 (Z.leb_gt _ _)), andb_false_r; [done|]. rewrite alen_cons. pose proof (alen_nonneg r). lia. }
  rewrite Hex. destruct (token_none_loop b (S (length m)) m e q q Plain (c :: r) 0 H Hby) as (len & Hlen); [lia|done|].
  unfold loop_result in Hlen. rewrite Hex in Hlen. cbn [is_double is_single] in Hlen. cbn [option_map]. rewrite Hlen. by exists len.
Qed.

(** ** The whole line *)
Lemma skip_blanks_ok b m e : forall fuel q l, suffix_at b m e q l -> (length l < fuel)%nat ->
  exists x, skip_blanks fuel m e q = Ok (q + alen x) /\ l = x ++ skip_spaces l.
Proof.
  induction fuel as [|fuel IH]; intros q l H Hf; [lia|]. cbn [skip_blanks]. destruct l as [|c r].
  - destruct (suffix_end _ _ _ _ H) as (c & -> & Hc). rewrite bind_ok, (suffix_exceeds _ _ _ _ _ 0 H).
    exists []. rewrite (@alen_nil Z), Z.add_0_r. destruct b; [by rewrite orb_true_r|]. by rewrite Hc.
  - rewrite (suffix_head _ _ _ _ _ _ H), bind_ok, (suffix_exceeds _ _ _ _ _ 0 H).
    rewrite (proj2 (Z.leb_gt _ _)), andb_false_r, orb_false_r by (rewrite alen_cons; pose proof (alen_nonneg r); lia).
    cbn [skip_spaces]. case_if; [subst c; exists []; by rewrite (@alen_nil Z), Z.add_0_r|]. destruct (isspace c).
    + destruct (IH (q + 1) r (suffix_cons _ _ _ _ _ _ H)) as (x & -> & Hx); [cbn in Hf; lia|].
      exists (c :: x). rewrite alen_cons. split; [f_equal; lia|]. cbn. by rewrite <- Hx.
    + exists []. by rewrite (@alen_nil Z), Z.add_0_r.
Qed.

Lemma split_loop_ok noinit b m e : (forall n, 0 <= n -> alen (noinit n) = n) ->
  forall k q l cap vec n, suffix_at b m e q l -> is_bytes l -> alen l < 2 ^ 31 -> alen vec <= cap ->
  (length l < k)%nat -> (length l <= n)%nat ->
  split_loop noinit k m e q cap vec = Ok (ws ← tokens n b l; Some (vec ++ ws)).
Proof.
  intros Hno. induction k as [|k IH]; intros q l cap vec n H Hby Hl Hcap Hk Hn; [lia|]. cbn [split_loop].
  pose proof (alen_nonneg vec) as Hv. pose proof (suffix_fuel _ _ _ _ _ H).
  assert (Ok (Some vec) = Ok (Some (vec ++ []))) as Hstop by (by rewrite app_nil_r).
  destruct l as [|c r].
  { destruct (suffix_end _ _ _ _ H) as (c & -> & Hc). rewrite bind_ok, (suffix_exceeds _ _ _ _ _ 0 H).
    replace ((c =? 0) || (b && (alen ([] : bytes) <=? 0))) with true by (destruct b; [by rewrite orb_true_r|by rewrite Hc]).
    rewrite Hstop. by destruct n. }
  assert (forall c' r', ((c' =? 0) || (b && (alen (c' :: r') <=? 0))) = (c' =? 0)) as Hcond.
  { intros c' r'. rewrite (proj2 (Z.leb_gt _ _)), andb_false_r; [by rewrite orb_false_r|]. rewrite alen_cons. pose proof (alen_nonneg r'). lia. }
  rewrite (suffix_head _ _ _ _ _ _ H), bind_ok, (suffix_exceeds _ _ _ _ _ 0 H), Hcond.
  destruct n as [|n]; [cbn in Hn; lia|]. cbn [tokens]. case_if; [by subst c|].
  destruct (skip_blanks_ok b m e (S (length m)) q (c :: r) H) as (x & -> & Hx); [lia|]. rewrite bind_ok.
  rewrite Hx in H, Hby, Hl, Hk, Hn. pose proof (suffix_app _ _ _ _ _ _ H) as H'. apply is_bytes_app in Hby as [_ Hby].
  rewrite alen_app in Hl. rewrite length_app in Hk, Hn. pose proof (alen_nonneg x).
  destruct (skip_spaces (c :: r)) as [|c' r'].
  { destruct (suffix_end _ _ _ _ H') as (c' & -> & Hc). rewrite bind_ok, (suffix_exceeds _ _ _ _ _ 0 H').
    replace ((c' =? 0) || (b && (alen ([] : bytes) <=? 0))) with true by (destruct b; [by rewrite orb_true_r|by rewrite Hc]). done. }
  rewrite (suffix_head _ _ _ _ _ _ H'), bind_ok, (suffix_exceeds _ _ _ _ _ 0 H'), Hcond. destruct (c' =? 0) eqn:Hc0; [done|].
  destruct (token b Plain (c' :: r')) as [[w rest]|] eqn:Ht.
  - destruct (parsearg_ok b m e _ c' r' w rest H' Hby) as [-> Hdst]; [lia|done|].
    destruct (token_rest b _ Plain _ w rest (Nat.le_refl _) Ht) as (y & Hy & _ & Hy0). cbn [hd] in Hy0. 
    assert (y <> []) as Hyn by (apply Hy0; lia). destruct y as [|y0 y]; [done|].
    rewrite Hy in *. rewrite alen_app, alen_cons in *. pose proof (alen_nonneg y). rewrite length_app in Hk, Hn. cbn [length] in Hk, Hn.
    cbn [mbind res_bind]. rewrite (proj2 (Z.eqb_neq _ 0)) by lia. rewrite (Hdst (noinit (alen w))) by (apply Hno, alen_nonneg). cbn [mbind res_bind].
    rewrite assert_true by lia. cbn [mbind res_bind default]. set (cap' := if alen vec =? cap then _ else cap).
    assert (alen vec < cap') as Hc' by (subst cap'; repeat case_if; lia). rewrite (proj2 (Z.ltb_lt _ _)) by done.
    rewrite (IH _ rest cap' (vec ++ [w]) n); [|..|by rewrite alen_app; change (alen [w]) with 1; lia|lia|lia].
    + cbn. destruct (tokens n b rest); cbn; [by rewrite <- app_assoc|done].
    + replace (q + alen x + (1 + alen y + alen rest - alen rest)) with (q + alen x + alen (y0 :: y)) by (rewrite alen_cons; lia).
      by apply suffix_app.
    + by apply is_bytes_app in Hby as [_ ?].
    + pose proof (alen_nonneg rest). lia.
  - destruct (parsearg_none b m e _ c' r' H' Hby Ht) as (len & ->). done.
Qed.

Lemma split_ok noinit b m e q l : (forall n, 0 <= n -> alen (noinit n) = n) -> suffix_at b m e q l -> is_bytes l -> alen l < 2 ^ 31 ->
  sdsnsplitargs_internal noinit m q e = Ok (split_ref b l).
Proof.
  intros Hno H Hby Hl. pose proof (suffix_fuel _ _ _ _ _ H). unfold sdsnsplitargs_internal, split_ref.
  rewrite (split_loop_ok noinit b m e Hno (S (length m)) q l 0 [] (length l)); [|done|done|done|done|lia|lia].
  by destruct (tokens (length l) b l).
Qed.

(** The line of [len] bytes at [line], followed by at least one byte (the line
    end, or the terminator every sds has). *)
Lemma sdsnsplitargs_ref noinit a l c x : (forall n, 0 <= n -> alen (noinit n) = n) -> is_bytes l -> alen l < 2 ^ 31 ->
  sdsnsplitargs noinit (a ++ l ++ c :: x) (alen a) (alen l) = Ok (split_ref true l).
Proof. intros. apply split_ok; try done. by exists a, c, x. Qed.

Lemma sdssplitargs_ref noinit a l x : (forall n, 0 <= n -> alen (noinit n) = n) -> is_bytes l -> alen l < 2 ^ 31 -> 0 ∉ l ->
  sdssplitargs noinit (a ++ l ++ 0 :: x) (alen a) = Ok (split_ref false l).
Proof. intros. apply split_ok; try done. by exists a, 0, x. Qed.

(** ** Printing and parsing *)
Definition quoted (p : bytes) : bytes := sdscatrepr [] p.

(** The escapes of one character, read back. *)
Lemma token_repr_char b c r : in_u 8 c -> r <> [] ->
  token b Double (repr_char c ++ r) = ('(w, rest) ← token b Double r; Some (c :: w, rest)).
Proof.
  intros Hc Hr.
  assert (forall r1, r1 <> [] -> follows b r1 = true) as Hfo by (intros [|] ?; [done|apply orb_true_r]).
  assert (keep_is : forall d t, d <> 255 -> keep d t = ('(w, rest) ← t; Some (d :: w, rest))).
  { intros d [[w rest]|] Hd; [|done]. unfold keep. cbn. by rewrite (proj2 (Z.eqb_neq _ _)). }
  unfold repr_char. destruct r as [|e r1]; [done|].
  destruct (isprint c && negb (c =? 92) && negb (c =? 34)) eqn:Hp.
  { unfold isprint in Hp. cbn [app token]. rewrite !(proj2 (Z.eqb_neq c _)) by lia. cbn [andb]. apply keep_is. lia. }
  assert (forall d, negb (d =? 0) = true -> (d =? 120) = false -> unescape d <> 255 ->
    token b Double (92 :: d :: e :: r1) = ('(w, rest) ← token b Double (e :: r1); Some (unescape d :: w, rest))) as Hesc.
  { intros d Hd0 Hd1 Hd2. rewrite token_turn. cbn [ref_turn Z.eqb]. rewrite Hfo, Hd0 by done. cbn [andb negb Pos.eqb]. 
    unfold kept. rewrite (proj2 (Z.eqb_neq _ 255)) by done. rewrite Hd1. by destruct r1 as [|? [|]]. }
  case_if; [cbn [app]; rewrite Hesc; [|lia..|]; unfold unescape; repeat (rewrite (proj2 (Z.eqb_neq c _)) by lia); [done|lia]|].
  do 5 (case_if; [subst c; by apply Hesc|]).
  cbn [app]. rewrite token_turn. cbn [ref_turn Z.eqb Pos.eqb andb negb]. rewrite !Hfo by done. cbn [andb].
  assert (is_hex_digit (hex_char (c / 16)) = true /\ is_hex_digit (hex_char (c mod 16)) = true /\
    hex_digit_to_int (hex_char (c / 16)) * 16 + hex_digit_to_int (hex_char (c mod 16)) = c) as (-> & -> & ->); [|done].
  assert (forall c, in_u 8 c -> bool_decide (is_hex_digit (hex_char (c / 16)) = true /\ is_hex_digit (hex_char (c mod 16)) = true /\
    hex_digit_to_int (hex_char (c / 16)) * 16 + hex_digit_to_int (hex_char (c mod 16)) = c) = true) as Hall.
  { apply byte_forall. by vm_compute. }
  exact (bool_decide_eq_true_1 _ (Hall c Hc)).
Qed.

Lemma token_repr b p r : is_bytes p ->
  token b Double (concat (map repr_char p) ++ 34 :: r) = ('(w, rest) ← token b Plain r; Some (p ++ w, rest)).
Proof.
  induction 1 as [|c p Hc Hp IH]; cbn [map concat app].
  - cbn [token Z.eqb Pos.eqb]. by destruct (token b Plain r) as [[]|].
  - rewrite <- app_assoc, token_repr_char, IH by (done || by intros [? ?]%app_eq_nil). by destruct (token b Plain r) as [[]|].
Qed.

Lemma token_quoted b p r : is_bytes p -> token b Plain (quoted p ++ r) = ('(w, rest) ← token b Plain r; Some (p ++ w, rest)).
Proof.
  intros Hp. unfold quoted, sdscatrepr. cbn [app token Z.eqb Pos.eqb is_sep orb]. rewrite <- app_assoc. by apply token_repr.
Qed.

(** Quoted arguments with a space after each but the last. *)
Fixpoint unsplit (args : list bytes) : bytes :=
  match args with
  | [] => []
  | [p] => quoted p
  | p :: args => quoted p ++ 32 :: unsplit args
  end.

Lemma tokens_unsplit b n : forall args, Forall is_bytes args -> (length args <= n)%nat -> tokens n b (unsplit args) = Some args.
Proof.
  induction n as [|n IH]; intros args Ha Hn; [destruct args; [done|cbn in Hn; lia]|].
  destruct Ha as [|p args Hp Ha]; [done|]. cbn [length] in Hn.
  assert (unsplit (p :: args) = quoted p ++ match args with [] => [] | _ => 32 :: unsplit args end) as ->.
  { destruct args; cbn; by rewrite ?app_nil_r. }
  set (r := match args with [] => [] | _ => 32 :: unsplit args end).
  assert (skip_spaces (quoted p ++ r) = quoted p ++ r) as Hs by done. cbn [tokens]. rewrite Hs.
  assert (exists r0, quoted p ++ r = 34 :: r0) as (r0 & Hr0) by (eexists; reflexivity). rewrite Hr0. cbn [Z.eqb]. rewrite <- Hr0, token_quoted by done.
  destruct args as [|p' args]; [subst r; destruct n; cbn; by rewrite app_nil_r|]. subst r. cbn [token Z.eqb Pos.eqb is_sep orb mbind option_bind].
  rewrite IH by (done || lia). cbn. by rewrite app_nil_r.
Qed.

Lemma unsplit_length args : (length args <= length (unsplit args))%nat.
Proof.
  induction args as [|p [|p' args] IH]; cbn in *; [lia|lia|]. rewrite !length_app. cbn. lia.
Qed.

Lemma hex_char_ascii d : 0 <= d < 16 -> 48 <= hex_char d <= 102.
Proof. unfold hex_char. case_if; lia. Qed.

Lemma repr_ascii p : is_bytes p -> Forall (fun c => 1 <= c <= 126) (quoted p).
Proof.
  intros Hp. unfold quoted, sdscatrepr. apply Forall_cons. split; [lia|]. apply Forall_app. split; [|by constructor].
  induction Hp as [|c p Hc _ IH]; [constructor|]. cbn [map concat]. apply Forall_app. split; [|done].
  unfold repr_char, isprint. repeat case_if; repeat (constructor; [first [lia|cmp_prop; lia]|]); try constructor.
  - pose proof (hex_char_ascii (c / 16)). mach_unfold. assert (0 <= c / 16 < 16) by (split; [apply Z.div_pos|apply Z.div_lt_upper_bound]; lia). lia.
  - constructor; [|constructor]. pose proof (hex_char_ascii (c mod 16)). pose proof (Z.mod_pos_bound c 16). lia.
Qed.

Lemma unsplit_ascii args : Forall is_bytes args -> Forall (fun c => 1 <= c <= 126) (unsplit args).
Proof.
  induction 1 as [|p args Hp Ha IH]; [constructor|]. destruct args; [by apply repr_ascii|]. cbn [unsplit].
  apply Forall_app. split; [by apply repr_ascii|]. constructor; [lia|done].
Qed.

(** ** The format of a line

    As the comment of [sdsnsplitargs_internal] describes it: arguments that are
    bare words, or in double quotes with the escapes of a C string, or in single
    quotes, with blanks between them; quotes that are not closed are an error.
    An argument that is closed is followed by a blank or by the end of the line.
    The byte 255 is left out of the words and literal characters (it can be
    written as an escape); so is the NUL. *)
Inductive ditem := DChar (c : Z) | DHex (h l : Z) | DEsc (e : Z).
Inductive sitem := SChar (c : Z) | SQuote.
Inductive arg := Bare (w : bytes) | DQuoted (items : list ditem) | SQuoted (items : list sitem).

Definition visible (c : Z) : Prop := in_u 8 c /\ c <> 0 /\ c <> 255.

Definition ditem_ok (i : ditem) : Prop :=
  match i with
  | DChar c => visible c /\ c <> 34 /\ c <> 92
  | DHex h l => is_hex_digit h = true /\ is_hex_digit l = true
  | DEsc e => visible e /\ e <> 120
  end.
Definition ditem_text (i : ditem) : bytes := match i with DChar c => [c] | DHex h l => [92; 120; h; l] | DEsc e => [92; e] end.
Definition ditem_value (i : ditem) : Z :=
  match i with DChar c => c | DHex h l => hex_digit_to_int h * 16 + hex_digit_to_int l | DEsc e => unescape e end.

Definition sitem_ok (i : sitem) : Prop := match i with SChar c => visible c /\ c <> 39 | SQuote => True end.
Definition sitem_text (i : sitem) : bytes := match i with SChar c => [c] | SQuote => [92; 39] end.
Definition sitem_value (i : sitem) : Z := match i with SChar c => c | SQuote => 39 end.

(** A backslash before the closing quote would escape it. *)
Definition arg_ok (a : arg) : Prop :=
  match a with
  | Bare w => w <> [] /\ Forall (fun c => visible c /\ isspace c = false /\ c <> 34 /\ c <> 39) w
  | DQuoted items => Forall ditem_ok items
  | SQuoted items => Forall sitem_ok items /\ last items <> Some (SChar 92)
  end.
Definition arg_text (a : arg) : bytes :=
  match a with
  | Bare w => w
  | DQuoted items => 34 :: concat (map ditem_text items) ++ [34]
  | SQuoted items => 39 :: concat (map sitem_text items) ++ [39]
  end.
Definition arg_value (a : arg) : bytes :=
  match a with Bare w => w | DQuoted items => map ditem_value items | SQuoted items => map sitem_value items end.

(** Arguments, each with the blanks that follow it; only after the last one
    there may be none. *)
Fixpoint line_text (args : list (arg * bytes)) : bytes :=
  match args with [] => [] | (a, sep) :: args => arg_text a ++ sep ++ line_text args end.
Fixpoint line_ok (args : list (arg * bytes)) : Prop :=
  match args with
  | [] => True
  | (a, sep) :: args => arg_ok a /\ Forall (fun c => is_sep c = true) sep /\ (args <> [] -> sep <> []) /\ line_ok args
  end.

(** Opening quotes that are not closed, and whether the text ends in an escaped
    quote of the same kind. *)
Definition open_ok (a : arg) : Prop :=
  match a with Bare _ => False | DQuoted items => Forall ditem_ok items | SQuoted items => Forall sitem_ok items end.
Definition open_text (a : arg) : bytes :=
  match a with Bare w => w | DQuoted items => 34 :: concat (map ditem_text items) | SQuoted items => 39 :: concat (map sitem_text items) end.
Definition ends_escaped (a : arg) : Prop :=
  match a with Bare _ => False | DQuoted items => last items = Some (DEsc 34) | SQuoted items => last items = Some SQuote end.

Definition add_word (w : bytes) (t : option (bytes * bytes)) : option (bytes * bytes) := '(w', rest) ← t; Some (w ++ w', rest).

Lemma add_nothing t : t = add_word [] t.
Proof. by destruct t as [[]|]. Qed.

Lemma keep_char c t : c <> 255 -> keep c t = add_word [c] t.
Proof. intros H. unfold keep. destruct t as [[w r]|]; [|done]. cbn. by rewrite (proj2 (Z.eqb_neq c 255)). Qed.

Lemma add_word_app w w' t : add_word w (add_word w' t) = add_word (w ++ w') t.
Proof. destruct t as [[]|]; [|done]. cbn. by rewrite app_assoc. Qed.

Lemma follows_some b (r : bytes) : r <> [] -> follows b r = true.
Proof. destruct r; [done|]. intros _. apply orb_true_r. Qed.

Lemma visible_hex c : is_hex_digit c = true -> c <> 0 /\ c <> 34 /\ c <> 92 /\ c <> 255.
Proof. unfold is_hex_digit. intros H. cmp_prop. lia. Qed.

Lemma unescape_visible e : visible e -> unescape e <> 255.
Proof. intros (_ & _ & H). unfold unescape. repeat case_if; lia. Qed.

(** One item in double quotes, when something follows it. *)
Lemma token_ditem b i r : ditem_ok i -> r <> [] -> token b Double (ditem_text i ++ r) = add_word [ditem_value i] (token b Double r).
Proof.
  intros Hi Hr. destruct i as [c|h l|e]; cbn [ditem_text ditem_value app ditem_ok] in *.
  - destruct Hi as ((_ & H0 & H255) & H34 & H92). rewrite <- keep_char by done. destruct r as [|e r]; [done|].
    cbn [token]. rewrite !(proj2 (Z.eqb_neq c _)) by done. done.
  - destruct Hi as [Hh Hl]. rewrite token_turn. cbn [ref_turn Z.eqb Pos.eqb]. rewrite (follows_some b (h :: l :: r)) by done. cbn [andb negb].
    rewrite Hh, Hl, follows_some by done. cbn [andb]. done.
  - destruct Hi as [Hv H120]. pose proof (unescape_visible e Hv). destruct Hv as (_ & H0 & H255). rewrite <- keep_char by done. rewrite token_turn.
    cbn [ref_turn Z.eqb Pos.eqb]. rewrite follows_some, (proj2 (Z.eqb_neq e 0)), (proj2 (Z.eqb_neq e 120)) by done. cbn [andb negb].
    rewrite keep_add. by destruct r as [|? [|]].
Qed.

Lemma token_ditems b items r : Forall ditem_ok items -> r <> [] ->
  token b Double (concat (map ditem_text items) ++ r) = add_word (map ditem_value items) (token b Double r).
Proof.
  intros Hi Hr. induction Hi as [|i items Hi His IH]; cbn [map concat app]; [apply add_nothing|].
  rewrite <- app_assoc, token_ditem, IH, add_word_app; [done|done|]. by intros [_ ?]%app_eq_nil.
Qed.

Lemma token_sitem b i r : sitem_ok i -> r <> [] -> (i = SChar 92 -> hd 0 r <> 39) ->
  token b Single (sitem_text i ++ r) = add_word [sitem_value i] (token b Single r).
Proof.
  intros Hi Hr Hb. destruct i as [c|]; cbn [sitem_text sitem_value app sitem_ok] in *.
  - destruct Hi as ((_ & H0 & H255) & H39). rewrite <- keep_char by done. destruct r as [|e r1]; [done|]. cbn [token].
    rewrite (proj2 (Z.eqb_neq c 0)), (proj2 (Z.eqb_neq c 39)) by done. destruct (Z.eqb_spec c 92) as [->|]; cbn [andb]; [|done].
    cbn [hd] in Hb. by rewrite (proj2 (Z.eqb_neq e 39)), andb_false_r by auto.
  - rewrite <- keep_char by done. cbn [token Z.eqb Pos.eqb andb]. by rewrite follows_some.
Qed.

Lemma sitems_head items (r : bytes) : Forall sitem_ok items -> items <> [] -> hd 0 (concat (map sitem_text items) ++ r) <> 39.
Proof. intros Hi Hne. destruct Hi as [|[c|] items Hi _]; [done| |done]. cbn in *. by destruct Hi. Qed.

Lemma token_sitems b items r : Forall sitem_ok items -> r <> [] -> last items <> Some (SChar 92) \/ hd 0 r <> 39 ->
  token b Single (concat (map sitem_text items) ++ r) = add_word (map sitem_value items) (token b Single r).
Proof.
  intros Hi Hr. induction Hi as [|i items Hi His IH]; intros Hl; cbn [map concat app]; [apply add_nothing|].
  rewrite <- app_assoc, token_sitem, IH, add_word_app; [done| |done| |].
  - destruct items; [by destruct Hl; [left|right]|]. by destruct Hl; [left|right].
  - by intros [_ ?]%app_eq_nil.
  - intros ->. destruct items as [|i' items]; [cbn in *; by destruct Hl|]. by apply sitems_head.
Qed.

(** One argument. *)
Lemma token_arg b a r : arg_ok a -> token b Plain (arg_text a ++ r) = add_word (arg_value a) (token b Plain r).
Proof.
  destruct a as [w|items|items]; cbn [arg_ok arg_text arg_value].
  - intros [_ Hw]. induction Hw as [|c w Hc Hw IH]; [apply add_nothing|]. destruct Hc as ((_ & H0 & H255) & Hsp & H34 & H39).
    unfold isspace in Hsp. cbn [app token]. unfold is_sep. rewrite !(proj2 (Z.eqb_neq c _)) by lia. cbn [orb]. by rewrite keep_char, IH, add_word_app.
  - intros Hi. cbn [app token Z.eqb Pos.eqb is_sep orb]. rewrite <- app_assoc, token_ditems by done. done.
  - intros [Hi Hl]. cbn [app token Z.eqb Pos.eqb is_sep orb]. rewrite <- app_assoc, token_sitems by (done || by left). done.
Qed.

(** Quotes that are not closed. *)
Lemma token_open b a : open_ok a -> (b = true -> ~ ends_escaped a) -> token b Plain (open_text a) = None.
Proof.
  destruct a as [w|items|items]; [done|..]; cbn [open_ok open_text ends_escaped token Z.eqb Pos.eqb is_sep orb]; intros Hi He.
  - destruct items as [|i items _] using rev_ind; [done|]. rewrite last_snoc in He. apply Forall_app in Hi as [Hi Hl]. rewrite map_app, concat_app. cbn [map concat].
    rewrite app_nil_r, token_ditems; [|done|by destruct i]. apply Forall_cons in Hl as [Hl _].
    assert (token b Double (ditem_text i) = None) as ->; [|done]. destruct i as [c|h l|e]; cbn [ditem_text ditem_ok] in *.
    + destruct Hl as ((_ & H0 & _) & H34 & _). cbn. by rewrite (proj2 (Z.eqb_neq c 0)), (proj2 (Z.eqb_neq c 34)).
    + destruct Hl as [Hh Hl]. apply visible_hex in Hh as Hh', Hl as Hl'. destruct b; [|by cbn; rewrite Hh, Hl].
      cbn. rewrite Hh, Hl. cbn. rewrite !(proj2 (Z.eqb_neq h _)), !(proj2 (Z.eqb_neq l _)) by lia. done.
    + destruct Hl as ((_ & H0 & _) & H120). destruct b; cbn.
      * assert (e <> 34) by (intros ->; by apply He). by rewrite (proj2 (Z.eqb_neq e 0)), (proj2 (Z.eqb_neq e 34)).
      * by rewrite (proj2 (Z.eqb_neq e 0)).
  - destruct items as [|i items _] using rev_ind; [done|]. rewrite last_snoc in He. apply Forall_app in Hi as [Hi Hl]. rewrite map_app, concat_app. cbn [map concat].
    apply Forall_cons in Hl as [Hl _].
    rewrite app_nil_r, token_sitems; [|done|by destruct i|right; destruct i; cbn in *; [by destruct Hl|done]].
    assert (token b Single (sitem_text i) = None) as ->; [|done]. destruct i as [c|]; cbn [sitem_text sitem_ok] in *.
    + destruct Hl as ((_ & H0 & _) & H39). cbn. by rewrite (proj2 (Z.eqb_neq c 0)), (proj2 (Z.eqb_neq c 39)).
    + destruct b; [by destruct (He eq_refl eq_refl)|done].
Qed.
(** A line of arguments. *)
Definition blank (l : bytes) : Prop := Forall (fun c => isspace c = true) l.

Lemma skip_blank lead l : blank lead -> skip_spaces (lead ++ l) = skip_spaces l.
Proof. induction 1 as [|c lead Hc _ IH]; [done|]. cbn [app skip_spaces]. by rewrite Hc. Qed.

Lemma sep_blank sep : Forall (fun c => is_sep c = true) sep -> blank sep.
Proof. intros H. eapply Forall_impl; [exact H|]. intros c. cbn. unfold is_sep, isspace. lia. Qed.

Lemma arg_head a : arg_ok a -> exists c w, arg_text a = c :: w /\ isspace c = false /\ c <> 0.
Proof.
  destruct a as [w|items|items]; [|by eexists _, _..]. intros [Hne Hw]. destruct Hw as [|c w ((_ & H0 & _) & Hs & _) _]; [done|]. by exists c, w.
Qed.

Lemma open_head q : open_ok q -> exists c w, open_text q = c :: w /\ isspace c = false /\ c <> 0.
Proof. destruct q; [done|by eexists _, _..]. Qed.

(** The first token after blanks. *)
Lemma tokens_first b n lead c w : blank lead -> isspace c = false -> c <> 0 ->
  tokens (S n) b (lead ++ c :: w) = '(w', r) ← token b Plain (c :: w); ws ← tokens n b r; Some (w' :: ws).
Proof. intros Hl Hc H0. cbn [tokens]. rewrite skip_blank by done. cbn [skip_spaces]. by rewrite Hc, (proj2 (Z.eqb_neq c 0)). Qed.

Lemma tokens_blank b n lead : blank lead -> tokens n b lead = Some [].
Proof. intros Hl. rewrite <- (app_nil_r lead). destruct n; [done|]. cbn [tokens]. by rewrite skip_blank. Qed.

Lemma tokens_arg b n lead a r : blank lead -> arg_ok a ->
  tokens (S n) b (lead ++ arg_text a ++ r) = '(w, r) ← add_word (arg_value a) (token b Plain r); ws ← tokens n b r; Some (w :: ws).
Proof.
  intros Hl Ha. rewrite <- token_arg by done. destruct (arg_head a Ha) as (c & w & -> & Hc & H0). rewrite <- app_comm_cons. by apply tokens_first.
Qed.

Lemma tokens_sep b n lead a s r : blank lead -> arg_ok a -> is_sep s = true ->
  tokens (S n) b (lead ++ arg_text a ++ s :: r) = ws ← tokens n b r; Some (arg_value a :: ws).
Proof.
  intros Hl Ha Hs. rewrite tokens_arg by done. cbn [token]. rewrite Hs. case_if; [subst s; done|]. cbn. by rewrite app_nil_r.
Qed.

Lemma tokens_line b args : forall n lead, blank lead -> line_ok args -> (length args <= n)%nat ->
  tokens n b (lead ++ line_text args) = Some (map (fun x => arg_value x.1) args).
Proof.
  induction args as [|[a sep] args IH]; intros n lead Hl; cbn [line_text line_ok length map fst]; intros Ha Hn.
  { rewrite app_nil_r. by apply tokens_blank. }
  destruct n as [|n]; [lia|]. destruct Ha as (Ha & Hs & Hne & Hargs). destruct Hs as [|s sep Hs Hsep].
  - destruct args; [|by destruct Hne]. rewrite tokens_arg by done. cbn. rewrite app_nil_r, tokens_blank by constructor. done.
  - cbn [app]. rewrite tokens_sep, IH; [done|by apply sep_blank|done|lia|done..].
Qed.

Lemma tokens_unclosed b args q : forall n lead, blank lead -> line_ok args -> Forall (fun x => x.2 <> []) args -> open_ok q ->
  (b = true -> ~ ends_escaped q) -> (length args < n)%nat -> tokens n b (lead ++ line_text args ++ open_text q) = None.
Proof.
  intros n lead Hl Ha Hne Hq He. revert n lead Hl Ha. induction Hne as [|[a sep] args Hne _ IH]; intros n lead Hl; cbn [line_text line_ok length app];
    intros Ha Hn; (destruct n as [|n]; [lia|]).
  - pose proof (token_open b q Hq He) as Hnone. destruct (open_head q Hq) as (c & w & Hw & Hc & H0). rewrite Hw in *.
    by rewrite tokens_first, Hnone.
  - destruct Ha as (Ha & Hs & _ & Hargs). destruct Hs as [|s sep Hs Hsep]; [done|]. rewrite <- !app_assoc. cbn [app].
    rewrite tokens_sep, IH; [done|by apply sep_blank|done|lia|done..].
Qed.

Lemma arg_text_pos a : arg_ok a -> (1 <= length (arg_text a))%nat.
Proof. intros (c & w & -> & _)%arg_head. cbn. lia. Qed.

Lemma line_length args : line_ok args -> (length args <= length (line_text args))%nat.
Proof.
  induction args as [|[a sep] args IH]; cbn [line_ok line_text length]; [lia|]. intros (Ha & _ & _ & Hargs). pose proof (arg_text_pos a Ha).
  rewrite !length_app. specialize (IH Hargs). lia.
Qed.

Lemma split_line b lead args : blank lead -> line_ok args -> split_ref b (lead ++ line_text args) = Some (map (fun x => arg_value x.1) args).
Proof. intros Hl Ha. apply tokens_line; [done..|]. rewrite length_app. pose proof (line_length args Ha). lia. Qed.

Lemma split_unclosed b lead args q : blank lead -> line_ok args -> Forall (fun x => x.2 <> []) args -> open_ok q ->
  (b = true -> ~ ends_escaped q) -> split_ref b (lead ++ line_text args ++ open_text q) = None.
Proof.
  intros Hl Ha Hne Hq He. apply tokens_unclosed; [done..|]. rewrite !length_app. pose proof (line_length args Ha).
  destruct (open_head q Hq) as (c & w & -> & _). cbn. lia.
Qed.

(** ** Properties *)

(** What both variants answer on the line [l] between [a] and what follows. *)
Definition both_answer (noinit : Z -> bytes) (a l : bytes) (c : Z) (x : bytes) (r : option (list bytes)) : Prop :=
  sdsnsplitargs noinit (a ++ l ++ c :: x) (alen a) (alen l) = Ok r /\ (0 ∉ l -> sdssplitargs noinit (a ++ l ++ 0 :: x) (alen a) = Ok r).

(** C38. Splitting a line, NUL-terminated or of a given length, returns on every
    input without an access outside the block, without a write beyond a token
    string and without a failed assertion.  A line of the documented format
    (blanks, then arguments that are bare words, or in double quotes with the
    escapes of C, or in single quotes, each followed by a blank or by the end)
    is split into the values of its arguments; a line whose last quotes are not
    closed is refused.  Arguments printed by [sdscatrepr] with spaces between
    them, whatever bytes they have, are split back into themselves.  The format
    leaves out the byte 255 outside an escape, text right after closing quotes
    and, for the variant with a length, open quotes that end in an escaped quote:
    the lemmas under "Deviations" show what the code does with them. *)
Theorem splitargs_correct noinit a l c x : (forall n, 0 <= n -> alen (noinit n) = n) -> is_bytes l -> alen l < 2 ^ 31 ->
  (exists r, sdsnsplitargs noinit (a ++ l ++ c :: x) (alen a) (alen l) = Ok r) /\
  (0 ∉ l -> exists r, sdssplitargs noinit (a ++ l ++ 0 :: x) (alen a) = Ok r) /\
  (forall lead args, blank lead -> line_ok args -> l = lead ++ line_text args ->
    both_answer noinit a l c x (Some (map (fun y => arg_value y.1) args))) /\
  (forall lead args q, blank lead -> line_ok args -> Forall (fun y => y.2 <> []) args -> open_ok q -> l = lead ++ line_text args ++ open_text q ->
    (~ ends_escaped q -> sdsnsplitargs noinit (a ++ l ++ c :: x) (alen a) (alen l) = Ok None) /\
    (0 ∉ l -> sdssplitargs noinit (a ++ l ++ 0 :: x) (alen a) = Ok None)) /\
  (forall args, Forall is_bytes args -> l = unsplit args -> both_answer noinit a l c x (Some args)).
Proof.
  intros Hno Hby Hl. pose proof (sdsnsplitargs_ref noinit a l c x Hno Hby Hl) as Hn. pose proof (sdssplitargs_ref noinit a l x Hno Hby Hl) as Hz.
  unfold both_answer. rewrite Hn. split; [by eexists|]. split; [by eexists; apply Hz|]. split; [|split].
  - intros lead args Hb Ha ->. split; [by rewrite split_line|]. intros H0. by rewrite (Hz H0), split_line.
  - intros lead args q Hb Ha Hs Hq ->. split; [intros He; by rewrite split_unclosed|]. intros H0. by rewrite (Hz H0), split_unclosed.
  - intros args Ha ->. unfold split_ref in *. rewrite !(tokens_unsplit _ _ args Ha (unsplit_length args)) in *. split; [done|exact Hz].
Qed.

(** The arguments [SET], a byte string with a quote, a NUL and a byte 255, and the empty string. *)
Definition sample_args : list bytes := [[83; 69; 84]; [34; 0; 255; 10]; []].

(** After two blanks: a bare word; double quotes around a letter, a hexadecimal escape and an
    escaped quote; and at the end of the line single quotes around a letter and an escaped one. *)
Definition sample_line : list (arg * bytes) :=
  [(Bare [83; 69; 84], [32; 9]); (DQuoted [DChar 97; DHex 52 49; DEsc 34], [32]); (SQuoted [SChar 98; SQuote], [])].

Lemma splitargs_correct_witness :
  let noinit := fun n => replicate (Z.to_nat n) 7 in
  let l := [32; 32] ++ line_text sample_line in
  let o := line_text (take 1 sample_line) ++ open_text (DQuoted [DChar 97]) in
  sdsnsplitargs noinit ([42] ++ unsplit sample_args ++ 13 :: [10]) 1 (alen (unsplit sample_args)) = Ok (Some sample_args) /\
  alen (unsplit sample_args) = 23 /\
  both_answer noinit [42] l 13 [10] (Some [[83; 69; 84]; [97; 65; 34]; [98; 39]]) /\
  sdsnsplitargs noinit ([42] ++ o ++ 13 :: [10]) 1 (alen o) = Ok None.
Proof.
  assert (forall n, 0 <= n -> alen (replicate (Z.to_nat n) 7) = n) as Hr by (intros; unfold alen; rewrite length_replicate; lia).
  assert (Forall is_bytes sample_args) as Hs by (by repeat (constructor; try (vm_compute; split; congruence))).
  assert (is_bytes (unsplit sample_args)) as Hu by (eapply Forall_impl; [by apply unsplit_ascii|]; intros; mach).
  assert (line_ok sample_line) as Hk.
  { cbn. unfold visible. repeat constructor; done || lia. }
  cbn zeta. split; [|split; [by vm_compute|split]].
  - exact (proj1 (proj2 (proj2 (proj2 (proj2 (splitargs_correct _ [42] (unsplit sample_args) 13 [10] Hr Hu ltac:(by vm_compute))))) sample_args Hs eq_refl)).
  - assert (is_bytes ([32; 32] ++ line_text sample_line)) as Hb by (by repeat (constructor; [vm_compute; split; congruence|])).
    destruct (splitargs_correct _ [42] _ 13 [10] Hr Hb eq_refl) as (_ & _ & H & _).
    apply (H [32; 32] sample_line); [by repeat constructor|exact Hk|done].
  - assert (is_bytes (line_text (take 1 sample_line) ++ open_text (DQuoted [DChar 97]))) as Hb by (by repeat (constructor; [vm_compute; split; congruence|])).
    destruct (splitargs_correct _ [42] _ 13 [10] Hr Hb eq_refl) as (_ & _ & _ & H & _).
    refine (proj1 (H [] (take 1 sample_line) (DQuoted [DChar 97]) _ _ _ _ _) _).
    + constructor.
    + cbn. unfold visible. repeat constructor; done || lia.
    + by repeat constructor.
    + cbn. unfold visible. repeat constructor; done || lia.
    + done.
    + by intros [=].
Defined.

(** ** Deviations *)

(** A line that ends in an escaped quote: with an end pointer the quotes are
    taken as closed, without one as unbalanced. *)
Lemma splitargs_escape_at_end :
  sdsnsplitargs (fun n => replicate (Z.to_nat n) 0) [34; 97; 92; 34; 0] 0 4 = Ok (Some [[97; 92]]) /\
  sdssplitargs (fun n => replicate (Z.to_nat n) 0) [34; 97; 92; 34; 0] 0 = Ok None.
Proof. by vm_compute. Qed.

(** The byte 255 disappears from an unquoted argument. *)
Lemma splitargs_drops_byte_255 : split_ref true [97; 255; 98] = Some [[97; 98]].
Proof. by vm_compute. Qed.

(** Text right after closing quotes joins the argument. *)
Lemma splitargs_closed_quotes : split_ref false [34; 97; 34; 98] = Some [[97; 98]].
Proof. by vm_compute. Qed.

(** [sdsneedsrepr] lets a single quote pass, which the splitter takes for an opening quote. *)
Lemma needsrepr_apostrophe : sdsneedsrepr [105; 116; 39; 115] = false /\ split_ref false [105; 116; 39; 115] = None.
Proof. by vm_compute. Qed.

(** Apart from that, what needs no quoting is an argument as it is. *)
Lemma plain_token b s r : sdsneedsrepr s = false -> 39 ∉ s -> is_sep r = true ->
  forall rest, token b Plain (s ++ r :: rest) = Some (s, rest).
Proof.
  intros Hn H39 Hr rest. induction s as [|c s IH]; cbn [app token].
  - rewrite Hr. unfold is_sep in Hr. by case_if; [subst r|].
  - cbn [sdsneedsrepr] in Hn. destruct (_ || isspace c) eqn:Hc in Hn; [done|]. unfold isprint, isspace in Hc.
    apply not_elem_of_cons in H39 as [H39 Hs]. unfold is_sep. rewrite !(proj2 (Z.eqb_neq c _)) by lia. cbn [orb].
    rewrite IH by done. unfold keep. cbn. by rewrite (proj2 (Z.eqb_neq c 255)) by lia.
Qed.
