(* ===== verification/Resp.v ===== *)
(** * The request parser (src/src/networking.c)

    [parseMultibulk], [parseInlineBuffer], the queue of commands parsed ahead,
    [processInputBuffer] and the reading of input of an ordinary client.  The
    parser keeps its state between reads: [multibulklen] arguments to go, the
    length [bulklen] of the one being read (-1 when not known), the arguments so
    far.  What commands do to the server and to the flags of the client is
    behind the interface [Executor].

    The buffer is none, the shared one of the thread or the client's own
    ([qb_owner]); capacities of strings, the peak, command lookup ([prepareCommandQueue], key prefetching) and the
    replication offset are left out.  Lines are searched with [memchr]; a build for ARM
    SVE replaces it by a vector search that stops at LF (and NUL) as well, bytes no
    length line may contain. *)
From S2P Require Import Prelude ByteMem IntString SplitArgs.

Definition INT_MAX : Z := 2147483647.
Definition PROTO_INLINE_MAX_SIZE : Z := 1024 * 64.
Definition PROTO_MBULK_BIG_ARG : Z := 1024 * 32.
Definition COMMAND_QUEUE_MIN_CAPACITY : Z := 16.
Definition PROTO_REQ_INLINE : Z := 1.
Definition PROTO_REQ_MULTIBULK : Z := 2.

Definition READ_FLAGS_ERROR_BIG_INLINE_REQUEST : Z := Z.shiftl 1 1.
Definition READ_FLAGS_ERROR_BIG_MULTIBULK : Z := Z.shiftl 1 2.
Definition READ_FLAGS_ERROR_INVALID_MULTIBULK_LEN : Z := Z.shiftl 1 3.
Definition READ_FLAGS_ERROR_UNAUTHENTICATED_MULTIBULK_LEN : Z := Z.shiftl 1 4.
Definition READ_FLAGS_ERROR_UNAUTHENTICATED_BULK_LEN : Z := Z.shiftl 1 5.
Definition READ_FLAGS_ERROR_BIG_BULK_COUNT : Z := Z.shiftl 1 6.
Definition READ_FLAGS_ERROR_MBULK_UNEXPECTED_CHARACTER : Z := Z.shiftl 1 7.
Definition READ_FLAGS_ERROR_MBULK_INVALID_BULK_LEN : Z := Z.shiftl 1 8.
Definition READ_FLAGS_ERROR_UNEXPECTED_INLINE_FROM_REPLICATED_CLIENT : Z := Z.shiftl 1 9.
Definition READ_FLAGS_ERROR_UNBALANCED_QUOTES : Z := Z.shiftl 1 10.
Definition READ_FLAGS_INLINE_ZERO_QUERY_LEN : Z := Z.shiftl 1 11.
Definition READ_FLAGS_PARSING_NEGATIVE_MBULK_LEN : Z := Z.shiftl 1 12.
Definition READ_FLAGS_PARSING_COMPLETED : Z := Z.shiftl 1 13.
Definition READ_FLAGS_REPLICATED : Z := Z.shiftl 1 14.
Definition READ_FLAGS_AUTH_REQUIRED : Z := Z.shiftl 1 16.
Definition READ_FLAGS_ERROR_INVALID_CRLF : Z := Z.shiftl 1 22.

(** [flags & f] as a condition. *)
Definition has (flags f : Z) : bool := negb (Z.land flags f =? 0).

Record parsedCommand := mkCmd {
  p_read_flags : Z;
  argv : list bytes;
  argv_len : Z;
  argv_len_sum : Z;
  input_bytes : Z
}.

Definition no_command : parsedCommand := mkCmd 0 [] 0 0 0.

(** [querybuf] is NULL, [thread_shared_qb] or another string. *)
Inductive owner := NoBuffer | Shared | Private.

(** [cmds] are the elements up to [len]. *)
Record cmdQueue := mkQueue { cmds : list parsedCommand; off : Z; cap : Z }.

(** The command being parsed or executed is [cur]; its [p_read_flags] are the
    client's [read_flags], and [input_bytes] is [net_input_bytes_curr_cmd]. *)
Record client := mkClient {
  querybuf : bytes;
  qb_owner : owner;
  qb_pos : Z;
  reqtype : Z;
  multibulklen : Z;
  bulklen : Z;
  cur : parsedCommand;
  cmd_queue : cmdQueue
}.

Definition set_buf (c : client) (b : bytes) (o : owner) (pos : Z) : client :=
  mkClient b o pos (reqtype c) (multibulklen c) (bulklen c) (cur c) (cmd_queue c).
Definition set_pos (c : client) (pos : Z) : client := set_buf c (querybuf c) (qb_owner c) pos.
Definition set_reqtype (c : client) (r : Z) : client :=
  mkClient (querybuf c) (qb_owner c) (qb_pos c) r (multibulklen c) (bulklen c) (cur c) (cmd_queue c).
Definition set_lens (c : client) (n b : Z) : client :=
  mkClient (querybuf c) (qb_owner c) (qb_pos c) (reqtype c) n b (cur c) (cmd_queue c).
Definition set_cur (c : client) (p : parsedCommand) : client :=
  mkClient (querybuf c) (qb_owner c) (qb_pos c) (reqtype c) (multibulklen c) (bulklen c) p (cmd_queue c).
Definition set_queue (c : client) (q : cmdQueue) : client :=
  mkClient (querybuf c) (qb_owner c) (qb_pos c) (reqtype c) (multibulklen c) (bulklen c) (cur c) q.
Definition set_flags (p : parsedCommand) (f : Z) : parsedCommand := mkCmd f (argv p) (argv_len p) (argv_len_sum p) (input_bytes p).
Definition add_bytes (p : parsedCommand) (n : Z) : parsedCommand :=
  mkCmd (p_read_flags p) (argv p) (argv_len p) (argv_len_sum p) (input_bytes p +64 n).

(** [sdslen(c->querybuf) - c->qb_pos], and the string with its terminator. *)
Definition available (c : client) : Z := alen (querybuf c) -64 qb_pos c.
Definition qb (c : client) : bytes := querybuf c ++ [0].

Fixpoint index_of (ch : Z) (l : bytes) : option Z :=
  match l with
  | [] => None
  | x :: l => if x =? ch then Some 0 else Z.succ <$> index_of ch l
  end.

Definition memchr (m : bytes) (p n ch : Z) : option Z := Z.add p <$> index_of ch (take (Z.to_nat n) (drop (Z.to_nat p) m)).

Fixpoint str_index (ch : Z) (l : bytes) : option Z :=
  match l with
  | [] => None
  | x :: l => if x =? ch then Some 0 else if x =? 0 then None else Z.succ <$> str_index ch l
  end.

Definition strchr (m : bytes) (p ch : Z) : option Z := Z.add p <$> str_index ch (drop (Z.to_nat p) m).

Section parser.
Context (proto_max_bulk_len : Z).

(** ** RESP *)

(** A store at the end of [*argv], grown if needed. *)
Definition push_arg (p : parsedCommand) (n : Z) (arg : bytes) : res parsedCommand :=
  let argc := alen (argv p) in
  let alloc := if argv_len p <=? argc
               then Z.min (if argv_len p <? INT_MAX / 2 then argv_len p * 2 else INT_MAX) (argc + n)
               else argv_len p in
  if argc <? alloc then Ok (mkCmd (p_read_flags p) (argv p ++ [arg]) alloc (argv_len_sum p +64 alen arg) (input_bytes p))
  else OutOfBounds.

(** The line [$<bulklen>]: an early return with its flag, or [None] for
    [break], or the client and command that go on. *)
Inductive header := Return (flag : Z) | Break | Header (c : client) (p : parsedCommand).

Definition bulk_header (is_replicated auth_required : bool) (c : client) (p : parsedCommand) : res header :=
  match memchr (querybuf c) (qb_pos c) (available c) 13 with
  | None => Ok (if PROTO_INLINE_MAX_SIZE <? available c then Return READ_FLAGS_ERROR_BIG_BULK_COUNT else Break)
  | Some newline =>
      if i64 (available c -64 2) <? newline - qb_pos c then Ok (Return 0)
      else
        ch ← ld (qb c) (qb_pos c);
        if negb (ch =? 36) then Ok (Return READ_FLAGS_ERROR_MBULK_UNEXPECTED_CHARACTER)
        else
          lf ← ld (qb c) (newline + 1);
          if negb (lf =? 10) then Ok (Return READ_FLAGS_ERROR_INVALID_CRLF)
          else
            let bulklen_slen := newline - (qb_pos c + 1) in
            s ← ldn (qb c) (qb_pos c + 1) bulklen_slen;
            match string2llScalar s with
            | None => Ok (Return READ_FLAGS_ERROR_MBULK_INVALID_BULK_LEN)
            | Some ll =>
                if (ll <? 0) || (negb is_replicated && (proto_max_bulk_len <? ll)) then Ok (Return READ_FLAGS_ERROR_MBULK_INVALID_BULK_LEN)
                else if (16384 <? ll) && auth_required then Ok (Return READ_FLAGS_ERROR_UNAUTHENTICATED_BULK_LEN)
                else
                  let c := set_pos c (newline + 2) in
                  let c := if negb is_replicated && (PROTO_MBULK_BIG_ARG <=? ll) && (available c <=? ll +64 2)
                           then set_buf c (drop (Z.to_nat (qb_pos c)) (querybuf c)) Private 0 else c in
                  Ok (Header (set_lens c (multibulklen c) ll) (add_bytes p (bulklen_slen + 3)))
            end
  end.

(** The argument itself, for a known [bulklen].  The code grows [*argv] before it
    looks at the CRLF; when that is missing the connection is closed, so here the
    growth is part of the store. *)
Definition bulk_body (is_replicated : bool) (c : client) (p : parsedCommand) : res header :=
  if available c <? u64 (bulklen c + 2) then Ok Break
  else
    cr ← ld (qb c) (qb_pos c + bulklen c);
    lf ← ld (qb c) (qb_pos c + bulklen c + 1);
    if negb (cr =? 13) || negb (lf =? 10) then Ok (Return READ_FLAGS_ERROR_INVALID_CRLF)
    else
      arg ← ldn (querybuf c) (qb_pos c) (bulklen c);
      p ← push_arg p (multibulklen c) arg;
      let c := if negb is_replicated && (qb_pos c =? 0) && (PROTO_MBULK_BIG_ARG <=? bulklen c) && (alen (querybuf c) =? u64 (bulklen c + 2))
               then set_buf c [] Private (qb_pos c) else set_pos c (qb_pos c + (bulklen c + 2)) in
      Ok (Header (set_lens c (multibulklen c - 1) (- 1)) p).

(** The [while] loop: [Some flag] for a return inside it. *)
Fixpoint bulk_loop (fuel : nat) (is_replicated auth_required : bool) (c : client) (p : parsedCommand)
    : res (client * parsedCommand * option Z) :=
  if multibulklen c =? 0 then Ok (c, p, None)
  else
    match fuel with
    | O => OutOfFuel
    | S fuel =>
        h ← (if bulklen c =? - 1 then bulk_header is_replicated auth_required c p else Ok (Header c p));
        match h with
        | Return flag => Ok (c, p, Some flag)
        | Break => Ok (c, p, None)
        | Header c p =>
            h ← bulk_body is_replicated c p;
            match h with
            | Return flag => Ok (c, p, Some flag)
            | Break => Ok (c, p, None)
            | Header c p => bulk_loop fuel is_replicated auth_required c p
            end
        end
    end.

(** The line [*<multibulklen>]. *)
Definition multibulk_header (auth_required : bool) (c : client) (p : parsedCommand) : res (client * parsedCommand * option Z) :=
  assert (alen (argv p) =? 0) ≫= fun _ =>
  match memchr (querybuf c) (qb_pos c) (available c) 13 with
  | None => Ok (c, p, Some (if PROTO_INLINE_MAX_SIZE <? available c then READ_FLAGS_ERROR_BIG_MULTIBULK else 0))
  | Some newline =>
      if i64 (available c -64 2) <? newline - qb_pos c then Ok (c, p, Some 0)
      else
        lf ← ld (qb c) (newline + 1);
        if negb (lf =? 10) then Ok (c, p, Some READ_FLAGS_ERROR_INVALID_CRLF)
        else
          ch ← ld (qb c) (qb_pos c);
          assert (ch =? 42) ≫= fun _ =>
          let multibulklen_slen := newline - (1 + qb_pos c) in
          s ← ldn (qb c) (qb_pos c + 1) multibulklen_slen;
          match string2llScalar s with
          | None => Ok (c, p, Some READ_FLAGS_ERROR_INVALID_MULTIBULK_LEN)
          | Some ll =>
              if INT_MAX <? ll then Ok (c, p, Some READ_FLAGS_ERROR_INVALID_MULTIBULK_LEN)
              else if (10 <? ll) && auth_required then Ok (c, p, Some READ_FLAGS_ERROR_UNAUTHENTICATED_MULTIBULK_LEN)
              else
                let c := set_pos c (newline + 2) in
                if ll <=? 0 then Ok (c, p, Some READ_FLAGS_PARSING_NEGATIVE_MBULK_LEN)
                else Ok (set_lens c ll (- 1), add_bytes (mkCmd (p_read_flags p) [] (Z.min ll 1024) 0 (input_bytes p)) (multibulklen_slen + 3), None)
          end
  end.

(** The returned flag; the client's own [read_flags] are those of [cur]. *)
Definition parseMultibulk (c : client) (p : parsedCommand) : res (client * parsedCommand * Z) :=
  let is_replicated := has (p_read_flags (cur c)) READ_FLAGS_REPLICATED in
  let auth_required := has (p_read_flags (cur c)) READ_FLAGS_AUTH_REQUIRED in
  '(c, p, early) ← (if multibulklen c =? 0 then multibulk_header auth_required c p else Ok (c, p, None));
  match early with
  | Some flag => Ok (c, p, flag)
  | None =>
      assert (0 <? multibulklen c) ≫= fun _ =>
      '(c, p, early) ← bulk_loop (S (length (querybuf c))) is_replicated auth_required c p;
      match early with
      | Some flag => Ok (c, p, flag)
      | None =>
          if multibulklen c =? 0
          then Ok (set_reqtype c 0, add_bytes p (argv_len_sum p + alen (argv p) * 2), READ_FLAGS_PARSING_COMPLETED)
          else Ok (c, p, 0)
      end
  end.

(** The queue grown for one more element; [None] at the limit. *)
Definition queue_room (q : cmdQueue) : option cmdQueue :=
  if alen (cmds q) =? cap q then
    if cap q =? 0 then Some (mkQueue (cmds q) (off q) COMMAND_QUEUE_MIN_CAPACITY)
    else if cap q <=? 512 then Some (mkQueue (cmds q) (off q) (cap q * 2))
    else None
  else Some q.

Definition queue_push (q : cmdQueue) (p : parsedCommand) : cmdQueue := mkQueue (cmds q ++ [p]) (off q) (cap q).

(** Pipelined commands parsed ahead. *)
Fixpoint parse_ahead (fuel : nat) (c : client) (flag : Z) : res client :=
  if has flag READ_FLAGS_PARSING_COMPLETED && (qb_pos c <? alen (querybuf c)) then
    ch ← ld (qb c) (qb_pos c);
    if ch =? 42 then
      match fuel with
      | O => OutOfFuel
      | S fuel =>
          let c := set_reqtype c PROTO_REQ_MULTIBULK in
          match queue_room (cmd_queue c) with
          | None => Ok c
          | Some q =>
              '(c, p, flag) ← parseMultibulk c no_command;
              parse_ahead fuel (set_queue c (queue_push q (set_flags p flag))) flag
          end
      end
    else Ok c
  else Ok c.

Definition parseMultibulkBuffer (replicated : bool) (c : client) : res client :=
  '(c, p, flag) ← parseMultibulk c (cur c);
  let c := set_cur c (set_flags p (Z.lor (p_read_flags (cur c)) flag)) in
  if has (p_read_flags (cur c)) READ_FLAGS_AUTH_REQUIRED then Ok c
  else if replicated then Ok c
  else
    assert (alen (cmds (cmd_queue c)) =? 0) ≫= fun _ => parse_ahead (S (length (querybuf c))) c flag.

(** ** Inline commands *)
Section inline.
Context (noinit : Z -> bytes).

Definition or_flags (c : client) (f : Z) : client := set_cur c (set_flags (cur c) (Z.lor (p_read_flags (cur c)) f)).

Definition parseInlineBuffer (c : client) : res client :=
  let is_replicated := has (p_read_flags (cur c)) READ_FLAGS_REPLICATED in
  match strchr (qb c) (qb_pos c) 10 with
  | None => Ok (if PROTO_INLINE_MAX_SIZE <? available c then or_flags c READ_FLAGS_ERROR_BIG_INLINE_REQUEST else c)
  | Some newline =>
      cr ← (if newline =? qb_pos c then Ok false else ch ← ld (qb c) (newline - 1); Ok (ch =? 13));
      let '(newline, linefeed_chars) := if (cr : bool) then (newline - 1, 2) else (newline, 1) in
      let querylen := newline - qb_pos c in
      args ← sdsnsplitargs noinit (qb c) (qb_pos c) querylen;
      match args with
      | None => Ok (or_flags c READ_FLAGS_ERROR_UNBALANCED_QUOTES)
      | Some args =>
          let c := if querylen =? 0 then or_flags c READ_FLAGS_INLINE_ZERO_QUERY_LEN else c in
          if negb (querylen =? 0) && is_replicated then Ok (or_flags c READ_FLAGS_ERROR_UNEXPECTED_INLINE_FROM_REPLICATED_CLIENT)
          else
            let c := set_pos c (qb_pos c + (querylen + linefeed_chars)) in
            let p := cur c in
            let '(alloc, sum) := match args with [] => (argv_len p, argv_len_sum p) | _ => (alen args, 0) end in
            let sum := fold_left (fun s a => s +64 alen a) args sum in
            let p := mkCmd (Z.lor (p_read_flags p) READ_FLAGS_PARSING_COMPLETED) args alloc sum (wrap 64 (sum + (alen args - 1) + 2)) in
            Ok (set_reqtype (set_cur c p) 0)
      end
  end.

Definition parseInputBuffer (replicated : bool) (c : client) : res client :=
  assert (alen (cmds (cmd_queue c)) =? 0) ≫= fun _ =>
  c ← (if reqtype c =? 0
       then ch ← ld (qb c) (qb_pos c); Ok (set_reqtype c (if ch =? 42 then PROTO_REQ_MULTIBULK else PROTO_REQ_INLINE))
       else Ok c);
  if reqtype c =? PROTO_REQ_INLINE then parseInlineBuffer c
  else assert (reqtype c =? PROTO_REQ_MULTIBULK) ≫= fun _ => parseMultibulkBuffer replicated c.

(** ** Results of parsing *)
Inductive parseResult := PARSE_OK | PARSE_ERR | PARSE_NEEDMORE.

Definition error_flags : list Z :=
  [READ_FLAGS_ERROR_BIG_INLINE_REQUEST; READ_FLAGS_ERROR_BIG_MULTIBULK; READ_FLAGS_ERROR_INVALID_MULTIBULK_LEN;
   READ_FLAGS_ERROR_UNAUTHENTICATED_MULTIBULK_LEN; READ_FLAGS_ERROR_UNAUTHENTICATED_BULK_LEN; READ_FLAGS_ERROR_MBULK_INVALID_BULK_LEN;
   READ_FLAGS_ERROR_BIG_BULK_COUNT; READ_FLAGS_ERROR_MBULK_UNEXPECTED_CHARACTER;
   READ_FLAGS_ERROR_UNEXPECTED_INLINE_FROM_REPLICATED_CLIENT; READ_FLAGS_ERROR_UNBALANCED_QUOTES; READ_FLAGS_ERROR_INVALID_CRLF].

Definition isParsingError (c : client) : bool := has (p_read_flags (cur c)) (fold_left Z.lor error_flags 0).

(** [resetClient], as far as the parser is concerned. *)
Definition resetClient (c : client) : client := set_cur c (set_flags no_command (p_read_flags (cur c))).

(** [PARSE_ERR] goes with an error reply and [close_after_reply]. *)
Definition handleParseResults (c : client) : client * parseResult :=
  let f := p_read_flags (cur c) in
  if isParsingError c then (c, PARSE_ERR)
  else if has f READ_FLAGS_INLINE_ZERO_QUERY_LEN then (set_reqtype (resetClient c) 0, PARSE_OK)
  else if has f READ_FLAGS_PARSING_NEGATIVE_MBULK_LEN then (set_reqtype (resetClient c) 0, PARSE_OK)
  else (c, if has f READ_FLAGS_PARSING_COMPLETED then PARSE_OK else PARSE_NEEDMORE).

(** The element popped, with its flags added to the client's. *)
Definition consumeCommandQueue (c : client) : option client :=
  let q := cmd_queue c in
  if alen (cmds q) <=? off q then None
  else
    match cmds q !! Z.to_nat (off q) with
    | None => None
    | Some p =>
        let c := set_cur c (set_flags p (Z.lor (p_read_flags (cur c)) (p_read_flags p))) in
        Some (set_queue c (if off q + 1 =? alen (cmds q) then mkQueue [] 0 (cap q) else mkQueue (cmds q) (off q + 1) (cap q)))
    end.

(** [trimCommandQueue] keeps the elements and shrinks the allocation. *)
Definition trimCommandQueue (q : cmdQueue) : cmdQueue :=
  if cap q =? 0 then q
  else if alen (cmds q) =? 0 then mkQueue [] (off q) 0
  else
    let cap' := Z.max (if alen (cmds q) =? 1 then 1 else u16 (2 ^ (Z.log2 (alen (cmds q) - 1) + 1))) COMMAND_QUEUE_MIN_CAPACITY in
    if cap' <? cap q then mkQueue (cmds q) (off q) cap' else q.

Definition is_shared (c : client) : bool := match qb_owner c with Shared => true | _ => false end.

Definition resetSharedQueryBuf (c : client) : client :=
  if 0 <? available c then set_buf c (querybuf c) Private (qb_pos c) else set_buf c [] NoBuffer 0.

Definition trimClientQueryBuffer (c : client) : res client :=
  let c := if is_shared c then resetSharedQueryBuf c else c in
  assert (qb_pos c <=? alen (querybuf c)) ≫= fun _ =>
  Ok (if 0 <? qb_pos c then set_buf c (drop (Z.to_nat (qb_pos c)) (querybuf c)) (qb_owner c) 0 else c).
End inline.
End parser.

(** ** Execution *)

(** What the parser needs to know of the rest of the server: the state [X]
    includes the flags of the client.  [canParseCommand] is false for a client
    that is blocked, being closed or freed. *)
Class Executor (X : Type) := {
  authRequired : X -> bool;
  canParseCommand : X -> bool;
  blocked : X -> bool;
  freed : X -> bool;
  processCommand : X -> list bytes -> X;
  setProtocolError : X -> X;
  freeClientAsync : X -> X;
  unblock : X -> X;
  client_max_querybuf_len : X -> Z;
  mstate_argv_len_sums : X -> Z;
  blocked_stops : forall x, blocked x = true -> canParseCommand x = false;
  freed_stops : forall x, freed x = true -> canParseCommand x = false;
  error_stops : forall x, canParseCommand (setProtocolError x) = false;
  close_stops : forall x, canParseCommand (freeClientAsync x) = false
}.

Section process.
Context {X : Type} `{Executor X} (proto_max_bulk_len : Z) (noinit : Z -> bytes).

(** The loop of [processInputBuffer] of an ordinary client. *)
Fixpoint process_loop (fuel : nat) (x : X) (c : client) : res (X * client) :=
  if (qb_pos c <? alen (querybuf c)) || (off (cmd_queue c) <? alen (cmds (cmd_queue c))) then
    if negb (canParseCommand x) then Ok (x, c)
    else
      match fuel with
      | O => OutOfFuel
      | S fuel =>
          let c := set_cur c (set_flags (cur c) (if authRequired x then READ_FLAGS_AUTH_REQUIRED else 0)) in
          c ← (match consumeCommandQueue c with Some c => Ok c | None => parseInputBuffer proto_max_bulk_len noinit false c end);
          let '(c, result) := handleParseResults c in
          match result with
          | PARSE_ERR => Ok (setProtocolError x, c)
          | PARSE_NEEDMORE => Ok (x, c)
          | PARSE_OK =>
              if alen (argv (cur c)) =? 0 then process_loop fuel x c
              else
                let c := if is_shared c then resetSharedQueryBuf c else c in
                let x := processCommand x (argv (cur c)) in
                if freed x then Ok (x, c)
                else process_loop fuel x (if blocked x then c else resetClient c)
          end
      end
  else Ok (x, c).

Definition processInputBuffer (x : X) (c : client) : res (X * client) :=
  process_loop (S (2 * length (querybuf c) + length (cmds (cmd_queue c)))) x c.

(** [auth] is the flag left by the last command parsed. *)
Definition qb_limit_reached (x : X) (auth : bool) (qblen : Z) : bool :=
  let qb_memory := qblen +64 mstate_argv_len_sums x in
  (client_max_querybuf_len x <? qb_memory) || ((1024 * 1024 <? qb_memory) && auth).

(** One read: [data] is what the connection delivered. *)
Definition readQueryFromClient (x : X) (c : client) (data : bytes) : res (X * client) :=
  let big_arg := (reqtype c =? PROTO_REQ_MULTIBULK) && negb (multibulklen c =? 0) && negb (bulklen c =? - 1) && (PROTO_MBULK_BIG_ARG <=? bulklen c) in
  let o := match qb_owner c with NoBuffer => if big_arg then Private else Shared | o => o end in
  let c := set_buf c (querybuf c ++ data) o (qb_pos c) in
  if qb_limit_reached x (has (p_read_flags (cur c)) READ_FLAGS_AUTH_REQUIRED) (alen (querybuf c))
  then c ← trimClientQueryBuffer c; Ok (freeClientAsync x, c)
  else
    '(x, c) ← processInputBuffer x c;
    if freed x then Ok (x, c)
    else c ← trimClientQueryBuffer (set_queue c (trimCommandQueue (cmd_queue c))); Ok (x, c).

(** A blocked client is unblocked: its command is over and what is pending is processed. *)
Definition processUnblockedClient (x : X) (c : client) : res (X * client) :=
  let c := resetClient c in
  let x := unblock x in
  '(x, c) ← (if negb (alen (querybuf c) =? 0) || (off (cmd_queue c) <? alen (cmds (cmd_queue c))) then processInputBuffer x c else Ok (x, c));
  if freed x then Ok (x, c) else c ← trimClientQueryBuffer c; Ok (x, c).
End process.

Section session.
Context {X : Type} `{Executor X} (proto_max_bulk_len : Z) (noinit : Z -> bytes).

(** The reads of a connection, one after the other, until the client is freed. *)
Fixpoint session (x : X) (c : client) (reads : list bytes) : res (X * client) :=
  match reads with
  | [] => Ok (x, c)
  | data :: reads =>
      '(x, c) ← readQueryFromClient proto_max_bulk_len noinit x c data;
      if freed x then Ok (x, c) else session x c reads
  end.
End session.

Definition new_client : client := mkClient [] NoBuffer 0 0 0 (- 1) no_command (mkQueue [] 0 0).

(** ** Writing a request (aof.c), as for the append-only file

    [buf] is the 31 bytes of the local buffer after its first. *)
Definition count_line (buf : bytes) (ch v : Z) : bytes :=
  let '(len, buf) := ll2string buf 31 v in ch :: take (Z.to_nat len) buf ++ [13; 10].

Definition catAppendOnlyGenericCommand (buf dst : bytes) (argv : list bytes) : bytes :=
  fold_left (fun dst o => dst ++ count_line buf 36 (alen o) ++ o ++ [13; 10]) argv (dst ++ count_line buf 42 (alen argv)).
