(* ===== verification/RespRefine.v ===== *)
(** * What the request parser does: requests out of a stream, however it arrives

    A reference parser takes one request off the front of a list of bytes; the
    reference server executes requests until it has to wait, stop or report an
    error.  The parser of [Resp], with its state kept between reads and its
    queue of commands parsed ahead, is shown to execute the same commands. *)
From S2P Require Import Prelude ByteMem IntString SplitArgs Resp.

(** ** Reference *)
Fixpoint split_cr (l : bytes) : option (bytes * bytes) :=
  match l with
  | [] => None
  | x :: l => if x =? 13 then Some ([], l) else '(a, b) ← split_cr l; Some (x :: a, b)
  end.

(** A line [<first><number>CRLF]. *)
Inductive line := LMore | LBad | LNum (ll : Z) (rest : bytes).

Definition ref_line (first : Z) (l : bytes) : line :=
  match split_cr l with
  | None => if 65536 <? alen l then LBad else LMore
  | Some (_, []) => LMore
  | Some (c :: num, lf :: rest) =>
      if (c =? first) && (lf =? 10) then match string2llScalar num with Some ll => LNum ll rest | None => LBad end else LBad
  | Some ([], _ :: _) => LBad
  end.

Definition after_crlf (l : bytes) : option bytes :=
  match l with
  | a :: b :: l => if (a =? 13) && (b =? 10) then Some l else None
  | _ => None
  end.

Inductive parsed := PMore | PErr | PCmd (argv : list bytes) (rest : bytes).

Section reference.
Context (max : Z).

(** [n] arguments to go, the first of length [bl] unless that is -1. *)
Fixpoint ref_bulks (fuel : nat) (auth : bool) (n bl : Z) (args : list bytes) (l : bytes) : parsed :=
  match fuel with
  | O => PMore
  | S fuel =>
      if n =? 0 then PCmd args l
      else
        match (if bl =? - 1 then ref_line 36 l else LNum bl l) with
        | LMore => PMore
        | LBad => PErr
        | LNum ll rest =>
            if (bl =? - 1) && ((ll <? 0) || (max <? ll) || ((16384 <? ll) && auth)) then PErr
            else if alen rest <? ll + 2 then PMore
            else match after_crlf (drop (Z.to_nat ll) rest) with
                 | Some rest' => ref_bulks fuel auth (n - 1) (- 1) (args ++ [take (Z.to_nat ll) rest]) rest'
                 | None => PErr
                 end
        end
  end.

Definition bulks (auth : bool) (n bl : Z) (args : list bytes) (l : bytes) : parsed := ref_bulks (S (length l)) auth n bl args l.

Definition ref_multibulk (auth : bool) (l : bytes) : parsed :=
  match ref_line 42 l with
  | LMore => PMore
  | LBad => PErr
  | LNum ll rest =>
      if (INT_MAX <? ll) || ((10 <? ll) && auth) then PErr
      else if ll <=? 0 then PCmd [] rest
      else bulks auth ll (- 1) [] rest
  end.

(** An inline command is a line up to the first LF without a NUL before it. *)
Fixpoint split_lf (l : bytes) : option (bytes * bytes) :=
  match l with
  | [] => None
  | x :: l => if x =? 10 then Some ([], l) else if x =? 0 then None else '(a, b) ← split_lf l; Some (x :: a, b)
  end.

Definition strip_cr (l : bytes) : bytes :=
  match list.last l with
  | Some c => if c =? 13 then take (length l - 1) l else l
  | None => l
  end.

Definition ref_inline (l : bytes) : parsed :=
  match split_lf l with
  | None => if 65536 <? alen l then PErr else PMore
  | Some (line, rest) => match split_ref true (strip_cr line) with None => PErr | Some args => PCmd args rest end
  end.

Definition ref_request (auth : bool) (l : bytes) : parsed :=
  match l with
  | [] => PMore
  | c :: _ => if c =? 42 then ref_multibulk auth l else ref_inline l
  end.
End reference.

(** *** The reference on longer input *)
Lemma split_cr_app l d a b : split_cr l = Some (a, b) -> split_cr (l ++ d) = Some (a, b ++ d).
Proof.
  revert a b. induction l as [|x l IH]; intros a b; [done|]. cbn. case_if; [by intros [= <- <-]|].
  destruct (split_cr l) as [[a' b']|]; [|done]. intros [= <- <-]. by rewrite (IH a' b').
Qed.

Lemma split_cr_eq l a b : split_cr l = Some (a, b) -> l = a ++ 13 :: b.
Proof.
  revert a b. induction l as [|x l IH]; intros a b; [done|]. cbn. case_if; [intros [= <- <-]; by subst|].
  destruct (split_cr l) as [[a' b']|]; [|done]. intros [= <- <-]. cbn. by rewrite (IH a' b').
Qed.

Lemma ref_line_app f l d ll rest : ref_line f l = LNum ll rest -> ref_line f (l ++ d) = LNum ll (rest ++ d).
Proof.
  unfold ref_line. destruct (split_cr l) as [[a b]|] eqn:Hs; [|by case_if].
  rewrite (split_cr_app _ d _ _ Hs). destruct a as [|c num], b as [|lf b]; try done. cbn [app]. case_if; [|done].
  destruct (string2llScalar num); [|done]. by intros [= <- <-].
Qed.

Lemma ref_line_rest f l ll rest : ref_line f l = LNum ll rest ->
  exists num, l = f :: num ++ [13; 10] ++ rest /\ string2llScalar num = Some ll.
Proof.
  unfold ref_line. destruct (split_cr l) as [[a b]|] eqn:Hs; [|by case_if].
  destruct a as [|c num], b as [|lf b]; try done. case_if; [|done].
  destruct (string2llScalar num) eqn:Hn; [|done]. intros [= <- <-]. exists num. split; [|done].
  rewrite (split_cr_eq _ _ _ Hs). cbn. by subst.
Qed.

Lemma ref_line_length f l ll rest : ref_line f l = LNum ll rest -> (length rest + 3 <= length l)%nat.
Proof. intros (num & -> & _)%ref_line_rest. rewrite app_comm_cons, !length_app. cbn. lia. Qed.

Lemma after_crlf_eq l r : after_crlf l = Some r -> l = [13; 10] ++ r.
Proof. destruct l as [|a [|b l]]; try done. cbn. case_if; [|done]. intros [= ->]. by subst. Qed.

Lemma after_crlf_length l r : after_crlf l = Some r -> length l = S (S (length r)).
Proof. by intros ->%after_crlf_eq. Qed.

Lemma after_crlf_app l d r : after_crlf l = Some r -> after_crlf (l ++ d) = Some (r ++ d).
Proof. by intros ->%after_crlf_eq. Qed.

Section monotone.
Context (max : Z).

(** Enough fuel: every argument shortens the input. *)
Lemma ref_bulks_fuel f1 : forall f2 auth n bl args l, (length l < f1)%nat -> (length l < f2)%nat ->
  ref_bulks max f1 auth n bl args l = ref_bulks max f2 auth n bl args l.
Proof.
  induction f1 as [|f1 IH]; intros [|f2] auth n bl args l H1 H2; try lia. cbn [ref_bulks]. case_if; [done|].
  destruct (if bl =? - 1 then ref_line 36 l else LNum bl l) as [| |ll rest] eqn:Hl; [done..|].
  assert (length rest <= length l)%nat.
  { case_if_in Hl; [apply ref_line_length in Hl; lia|]. by injection Hl as _ ->. }
  case_if; [done|]. case_if; [done|].
  destruct (after_crlf (drop (Z.to_nat ll) rest)) as [rest'|] eqn:Hc; [|done]. apply after_crlf_length in Hc. rewrite length_drop in Hc.
  apply IH; lia.
Qed.

Lemma bulks_fuel f auth n bl args l : (length l < f)%nat -> ref_bulks max f auth n bl args l = bulks max auth n bl args l.
Proof. intros. apply ref_bulks_fuel; lia. Qed.

Lemma bulks_unfold auth n bl args l :
  bulks max auth n bl args l =
  if n =? 0 then PCmd args l
  else
    match (if bl =? - 1 then ref_line 36 l else LNum bl l) with
    | LMore => PMore
    | LBad => PErr
    | LNum ll rest =>
        if (bl =? - 1) && ((ll <? 0) || (max <? ll) || ((16384 <? ll) && auth)) then PErr
        else if alen rest <? ll + 2 then PMore
        else match after_crlf (drop (Z.to_nat ll) rest) with
             | Some rest' => bulks max auth (n - 1) (- 1) (args ++ [take (Z.to_nat ll) rest]) rest'
             | None => PErr
             end
    end.
Proof.
  unfold bulks at 1. cbn [ref_bulks]. case_if; [done|].
  destruct (if bl =? - 1 then ref_line 36 l else LNum bl l) as [| |ll rest] eqn:Hl; [done..|].
  assert (length rest <= length l)%nat.
  { case_if_in Hl; [apply ref_line_length in Hl; lia|]. by injection Hl as _ ->. }
  case_if; [done|]. case_if; [done|].
  destruct (after_crlf (drop (Z.to_nat ll) rest)) as [rest'|] eqn:Hc; [|done]. apply after_crlf_length in Hc. rewrite length_drop in Hc.
  apply bulks_fuel; lia.
Qed.

Definition bad_len (auth : bool) (ll : Z) : bool := (ll <? 0) || (max <? ll) || ((16384 <? ll) && auth).

Lemma bulks_more auth n args l : n <> 0 -> ref_line 36 l = LMore -> bulks max auth n (- 1) args l = PMore.
Proof. intros. rewrite bulks_unfold, (proj2 (Z.eqb_neq _ _)) by done. cbn [Z.eqb Pos.eqb]. by rewrite H0. Qed.

Lemma bulks_bad auth n args l : n <> 0 -> ref_line 36 l = LBad -> bulks max auth n (- 1) args l = PErr.
Proof. intros. rewrite bulks_unfold, (proj2 (Z.eqb_neq _ _)) by done. cbn [Z.eqb Pos.eqb]. by rewrite H0. Qed.

Lemma bulks_bad_len auth n args l ll rest : n <> 0 -> ref_line 36 l = LNum ll rest -> bad_len auth ll = true ->
  bulks max auth n (- 1) args l = PErr.
Proof.
  unfold bad_len. intros Hn Hl Hb. rewrite bulks_unfold, (proj2 (Z.eqb_neq _ _)) by done. cbn [Z.eqb Pos.eqb]. by rewrite Hl, Hb.
Qed.

Lemma bulks_header auth n args l ll rest : n <> 0 -> ref_line 36 l = LNum ll rest -> bad_len auth ll = false ->
  bulks max auth n (- 1) args l = bulks max auth n ll args rest.
Proof.
  unfold bad_len. intros Hn Hl Hb. rewrite !bulks_unfold, !(proj2 (Z.eqb_neq n _)) by done. cbn [Z.eqb Pos.eqb].
  assert ((ll =? - 1) = false) as -> by (apply orb_false_iff in Hb as [[? ?]%orb_false_iff ?]; cmp_prop; lia).
  by rewrite Hl, Hb.
Qed.

Lemma bulks_short auth n bl args l : n <> 0 -> 0 <= bl -> alen l < bl + 2 -> bulks max auth n bl args l = PMore.
Proof.
  intros. rewrite bulks_unfold, (proj2 (Z.eqb_neq n _)), (proj2 (Z.eqb_neq bl _)) by lia. cbn [andb].
  by rewrite (proj2 (Z.ltb_lt _ _)).
Qed.

Lemma bulks_body auth n bl args l : n <> 0 -> 0 <= bl -> bl + 2 <= alen l ->
  bulks max auth n bl args l =
  match after_crlf (drop (Z.to_nat bl) l) with
  | Some rest => bulks max auth (n - 1) (- 1) (args ++ [take (Z.to_nat bl) l]) rest
  | None => PErr
  end.
Proof.
  intros. rewrite bulks_unfold, (proj2 (Z.eqb_neq n _)), (proj2 (Z.eqb_neq bl _)) by lia. cbn [andb].
  by rewrite (proj2 (Z.ltb_ge _ _)).
Qed.
End monotone.

(** ** The buffer

    [l] is what of the buffer is not parsed yet. *)
Definition view (c : client) (a l : bytes) : Prop := querybuf c = a ++ l /\ qb_pos c = alen a /\ alen (a ++ l) < 2 ^ 62.

Lemma view_available c a l : view c a l -> available c = alen l.
Proof.
  intros (Hq & Hp & Hl). unfold available. rewrite Hq, Hp, alen_app in *. pose proof (alen_nonneg a). pose proof (alen_nonneg l).
  rewrite wrap_small by mach. lia.
Qed.

Lemma view_pos c a l : view c a l -> qb_pos c <= alen (querybuf c).
Proof. intros (-> & -> & _). rewrite alen_app. pose proof (alen_nonneg l). lia. Qed.

Lemma view_ld c a l1 x l2 k : view c a (l1 ++ x :: l2) -> k = alen l1 -> ld (qb c) (qb_pos c + k) = Ok x.
Proof.
  intros (Hq & Hp & _) ->. unfold qb. rewrite Hq, Hp, <- alen_app, <- !app_assoc. cbn [app].
  rewrite app_assoc. apply (ld_frame0 (a ++ l1) [x] (l2 ++ [0])). done.
Qed.

Lemma view_head c a x l : view c a (x :: l) -> ld (qb c) (qb_pos c) = Ok x.
Proof. intros H. rewrite <- (Z.add_0_r (qb_pos c)). by apply (view_ld c a [] x l). Qed.

Lemma view_ldn c a l1 w l2 k n : view c a (l1 ++ w ++ l2) -> k = alen l1 -> n = alen w -> ldn (qb c) (qb_pos c + k) n = Ok w.
Proof.
  intros (Hq & Hp & _) -> ->. unfold qb. rewrite Hq, Hp, <- alen_app.
  replace ((a ++ l1 ++ w ++ l2) ++ [0]) with ((a ++ l1) ++ w ++ (l2 ++ [0])) by (by rewrite <- !app_assoc). apply ldn_app.
Qed.

Lemma view_ldn_buf c a w l n : view c a (w ++ l) -> n = alen w -> ldn (querybuf c) (qb_pos c) n = Ok w.
Proof. intros (Hq & Hp & _) ->. rewrite Hq, Hp. apply ldn_app. Qed.

Lemma view_advance c a w l n : view c a (w ++ l) -> n = qb_pos c + alen w -> view (set_pos c n) (a ++ w) l.
Proof. intros (Hq & Hp & Hl) ->. unfold view. cbn. rewrite Hp, alen_app, <- app_assoc. done. Qed.

Lemma view_end c a : view c a [] -> (qb_pos c <? alen (querybuf c)) = false.
Proof. intros (-> & -> & _). rewrite app_nil_r. apply Z.ltb_irrefl. Qed.

Lemma view_inside c a x l : view c a (x :: l) -> (qb_pos c <? alen (querybuf c)) = true.
Proof. intros (-> & -> & _). rewrite alen_app, alen_cons. pose proof (alen_nonneg l). apply Z.ltb_lt. lia. Qed.

Lemma buf_view_length c a l : view c a l -> (length l <= length (querybuf c))%nat.
Proof. intros (-> & _). rewrite length_app. lia. Qed.

(** Searching the end of a line. *)
Lemma index_split l : index_of 13 l = match split_cr l with None => None | Some (a, _) => Some (alen a) end.
Proof.
  induction l as [|x l IH]; [done|]. cbn. case_if; [done|]. rewrite IH. destruct (split_cr l) as [[a b]|]; [|done].
  cbn. by rewrite alen_cons, Z.add_comm.
Qed.

Lemma memchr_view c a l : view c a l ->
  memchr (querybuf c) (qb_pos c) (available c) 13 = match split_cr l with None => None | Some (w, _) => Some (qb_pos c + alen w) end.
Proof.
  intros H. rewrite (view_available c a l H). destruct H as (-> & -> & _). unfold memchr, alen at 2 3. rewrite !Nat2Z.id, drop_app_length.
  rewrite firstn_all, index_split. by destruct (split_cr l) as [[w b]|].
Qed.

(** The whole line is in the buffer. *)
Lemma line_complete c a w b : view c a (w ++ 13 :: b) -> (i64 (available c -64 2) <? qb_pos c + alen w - qb_pos c) = match b with [] => true | _ => false end.
Proof.
  intros H. rewrite (view_available c a _ H). destruct H as (_ & _ & Hl). rewrite !alen_app, !alen_cons in *.
  pose proof (alen_nonneg a). pose proof (alen_nonneg w). pose proof (alen_nonneg b).
  assert (i64 ((alen w + (1 + alen b)) -64 2) = alen w + alen b - 1) as ->.
  { unfold swrap, wrap.
    rewrite Z.add_mod_idemp_l by done. rewrite Z.mod_small by mach. lia. }
  destruct b as [|x b]; [apply Z.ltb_lt; change (alen (@nil Z)) with 0 in *|apply Z.ltb_ge; rewrite alen_cons in *; pose proof (alen_nonneg b)]; lia.
Qed.

(** ** Reading one argument *)
Section arguments.
Context (max : Z) (Hmax : max < 2 ^ 62).

Definition is_error (f : Z) : Prop := f ∈ error_flags.

Ltac error := unfold is_error, error_flags; set_solver.

Lemma crlf_line c a w x b : view c a (w ++ 13 :: x :: b) -> ld (qb c) (qb_pos c + alen w + 1) = Ok x.
Proof.
  intros H. replace (qb_pos c + alen w + 1) with (qb_pos c + alen (w ++ [13])) by (rewrite alen_app; change (alen [13]) with 1; lia).
  apply (view_ld c a (w ++ [13]) x b); [by rewrite <- app_assoc|done].
Qed.

(** The number of a line: its bytes, and the position after it. *)
Lemma line_number c a x num b : view c a ((x :: num) ++ 13 :: b) ->
  ldn (qb c) (qb_pos c + 1) (qb_pos c + alen (x :: num) - (qb_pos c + 1)) = Ok num.
Proof. intros H. apply (view_ldn c a [x] num (13 :: b)); [done|done|]. rewrite alen_cons. lia. Qed.

Lemma line_advance c a x num y rest : view c a ((x :: num) ++ 13 :: y :: rest) ->
  view (set_pos c (qb_pos c + alen (x :: num) + 2)) (a ++ (x :: num) ++ [13; y]) rest.
Proof.
  intros H. apply view_advance with (l := rest); [by rewrite <- app_assoc|]. rewrite (alen_app (x :: num)).
  change (alen [13; y]) with 2. lia.
Qed.

Definition keeps_line (c : client) (w : bytes) (auth : bool) (ll : Z) (p : parsedCommand) (rest : bytes) (h : header) : Prop :=
  exists b o pos a', let c' := set_lens (set_buf c b o pos) (multibulklen c) ll in
    h = Header c' (add_bytes p (alen w)) /\ view c' a' rest.

Lemma bulk_header_spec auth c p a l : view c a l ->
  exists h, bulk_header max false auth c p = Ok h /\
  match ref_line 36 l with
  | LMore => h = Break \/ h = Return 0
  | LBad => exists e, h = Return e /\ is_error e
  | LNum ll rest =>
      if bad_len max auth ll then exists e, h = Return e /\ is_error e
      else exists w, l = w ++ rest /\ keeps_line c w auth ll p rest h
  end.
Proof.
  intros H. unfold bulk_header, ref_line. rewrite (memchr_view c a l H), (view_available c a l H).
  destruct (split_cr l) as [[w b]|] eqn:Hs.
  2:{ unfold PROTO_INLINE_MAX_SIZE. change (1024 * 64) with 65536. case_if; eexists; (split; [done|]); [eexists; split; [done|error]|by left]. }
  pose proof (split_cr_eq _ _ _ Hs) as ->. clear Hs. rewrite <- (view_available c a _ H), (line_complete c a w b H).
  destruct b as [|y rest]; [destruct w; eexists; (split; [done|]); by right|].
  destruct w as [|x num].
  { rewrite (view_head c a 13 (y :: rest) H). cbn. eexists. split; [done|]. eexists. split; [done|error]. }
  rewrite (view_head c a x (num ++ 13 :: y :: rest) H), bind_ok.
  case_if; [rewrite (proj2 (Z.eqb_neq _ _)) by done; eexists; split; [done|]; eexists; split; [done|error]|].
  rewrite (proj2 (Z.eqb_eq x 36)) by done. rewrite (crlf_line c a _ _ _ H), bind_ok.
  case_if; [rewrite (proj2 (Z.eqb_neq y _)) by done; eexists; split; [done|]; eexists; split; [done|error]|].
  rewrite (proj2 (Z.eqb_eq y 10)) by done. rewrite (line_number c a _ _ _ H), bind_ok. cbn [andb].
  destruct (string2llScalar num) as [ll|]; [|eexists; split; [done|]; eexists; split; [done|error]].
  unfold bad_len. cbn [negb andb]. destruct ((ll <? 0) || (max <? ll)) eqn:Hb1; cbn [orb]; [eexists; split; [done|]; eexists; split; [done|error]|].
  case_if; [eexists; split; [done|]; eexists; split; [done|error]|].
  eexists. split; [done|]. exists ((x :: num) ++ [13; y]). split; [by rewrite <- app_assoc|].
  pose proof (line_advance c a x num y rest H) as Hv. unfold keeps_line. rewrite (alen_app (x :: num)), alen_cons.
  change (alen [13; y]) with 2. replace (qb_pos c + (1 + alen num) - (qb_pos c + 1) + 3) with (1 + alen num + 2) by lia.
  rewrite alen_cons in Hv. case_if.
  - exists rest, Private, 0, []. split; [|split; [done|split; [done|]]].
    + destruct Hv as (Hq & Hp & _). cbn [set_pos set_buf querybuf qb_pos] in Hq, Hp |- *. rewrite Hq, Hp. unfold alen. by rewrite Nat2Z.id, drop_app_length.
    + destruct Hv as (_ & _ & Hl). rewrite alen_app in Hl. match type of Hl with alen ?t + _ < _ => pose proof (alen_nonneg t) end. cbn [app]. lia.
  - eexists _, _, _, _. split; [done|]. destruct Hv as (Hq & Hp & Hl). split; [exact Hq|]. split; [exact Hp|exact Hl].
Qed.

(** The argument and its line end. *)
Definition cap_ok (p : parsedCommand) (n : Z) : Prop := 1 <= argv_len p /\ alen (argv p) <= argv_len p /\ alen (argv p) + n <= INT_MAX.

Lemma push_arg_ok p n arg : cap_ok p n -> 1 <= n -> exists p', push_arg p n arg = Ok p' /\ argv p' = argv p ++ [arg] /\ cap_ok p' (n - 1) /\
  p_read_flags p' = p_read_flags p /\ input_bytes p' = input_bytes p /\ argv_len_sum p' = argv_len_sum p +64 alen arg.
Proof.
  intros (H1 & H2 & H3) Hn. unfold push_arg. set (alloc := if argv_len p <=? alen (argv p) then _ else _).
  assert (alen (argv p) < alloc) as Ha.
  { subst alloc. pose proof (alen_nonneg (argv p)). unfold INT_MAX in *. change (2147483647 / 2) with 1073741823. repeat case_if; lia. }
  rewrite (proj2 (Z.ltb_lt _ _)) by done. eexists. split; [done|]. split; [done|]. split; [|done].
  unfold cap_ok. cbn. rewrite alen_app. change (alen [arg]) with 1. pose proof (alen_nonneg (argv p)). lia.
Qed.

Lemma bulk_body_spec c p a l : view c a l -> 0 <= bulklen c -> bulklen c < 2 ^ 62 -> cap_ok p (multibulklen c) -> 1 <= multibulklen c ->
  exists h, bulk_body false c p = Ok h /\
  if alen l <? bulklen c + 2 then h = Break
  else match after_crlf (drop (Z.to_nat (bulklen c)) l) with
       | None => exists e, h = Return e /\ is_error e
       | Some rest =>
           exists b o pos a' p', let c' := set_lens (set_buf c b o pos) (multibulklen c - 1) (- 1) in
             h = Header c' p' /\ view c' a' rest /\ argv p' = argv p ++ [take (Z.to_nat (bulklen c)) l] /\ cap_ok p' (multibulklen c - 1) /\
             p_read_flags p' = p_read_flags p /\ input_bytes p' = input_bytes p /\ argv_len_sum p' = argv_len_sum p +64 bulklen c
       end.
Proof.
  intros H Hb Hb2 Hcap Hn. unfold bulk_body. rewrite (view_available c a l H), (wrap_small 64 (bulklen c + 2)) by mach.
  case_if; [by eexists|]. set (n := Z.to_nat (bulklen c)).
  destruct (drop n l) as [|x [|y rest]] eqn:Hd.
  { apply (f_equal length) in Hd. rewrite length_drop in Hd. cbn in Hd. unfold alen in *. lia. }
  { apply (f_equal length) in Hd. rewrite length_drop in Hd. cbn in Hd. unfold alen in *. lia. }
  assert (l = take n l ++ x :: y :: rest) as Hl by (rewrite <- Hd; by rewrite take_drop).
  assert (alen (take n l) = bulklen c) as Hw by (unfold alen in *; rewrite length_take; lia). set (w := take n l) in *. clearbody w. subst l.
  rewrite <- Hw in *. rewrite (view_ld c a w x (y :: rest)), bind_ok by done.
  rewrite <- (Z.add_assoc (qb_pos c)), (view_ld c a (w ++ [x]) y rest), bind_ok by (rewrite ?alen_app, <- ?app_assoc; done).
  unfold after_crlf. destruct (x =? 13) eqn:Hx; cbn [negb orb andb]; [|eexists; split; [done|]; eexists; split; [done|error]].
  destruct (y =? 10) eqn:Hy; cbn [negb]; [|eexists; split; [done|]; eexists; split; [done|error]].
  rewrite (view_ldn_buf c a w (x :: y :: rest)), bind_ok by done.
  destruct (push_arg_ok p (multibulklen c) w Hcap Hn) as (p' & -> & Hargv & Hcap' & Hf & Hi & Hs). rewrite bind_ok. 
  eexists. split; [done|]. case_if.
  - exists [], Private, (qb_pos c), [], p'. split; [done|]. split; [|done].
    destruct H as (Hq & Hp & _). rewrite Hq in *. unfold view. cbn.
    assert (alen (a ++ w ++ x :: y :: rest) = alen w + 2) as Hlen.
    { done. }
    rewrite !alen_app, !alen_cons in Hlen. rewrite Hp in *. pose proof (alen_nonneg rest).
    destruct rest; [|rewrite alen_cons in *; pose proof (alen_nonneg rest); lia]. done.
  - eexists _, _, _, _, p'. split; [done|]. split; [|done].
    pose proof (view_advance c a (w ++ [x; y]) rest (qb_pos c + (alen w + 2))) as Hv.
    rewrite <- app_assoc in Hv. destruct (Hv H) as (Hq' & Hp' & Hl'); [by rewrite alen_app|]. split; [exact Hq'|]. split; [exact Hp'|exact Hl'].
Qed.

(** *** The loop *)
Definition pend (auth : bool) (c : client) (p : parsedCommand) (l : bytes) : parsed := bulks max auth (multibulklen c) (bulklen c) (argv p) l.

Definition mid_ok (c : client) (p : parsedCommand) : Prop :=
  1 <= multibulklen c /\ (bulklen c = - 1 \/ 0 <= bulklen c <= max) /\ cap_ok p (multibulklen c).

(** The fields the parser of a command leaves alone. *)
Definition same_rest (c c' : client) : Prop := cur c' = cur c /\ cmd_queue c' = cmd_queue c.

(** More input is needed: what is left and the state stand for the same input as before. *)
Definition waits (auth : bool) (R : bytes -> parsed) (l : bytes) (c' : client) (p' : parsedCommand) (l' : bytes) : Prop :=
  mid_ok c' p' /\ (forall d, R (l ++ d) = pend auth c' p' (l' ++ d)) /\ pend auth c' p' l' = PMore.

Definition loop_post (auth : bool) (R : bytes -> parsed) (l : bytes) (c : client) (p : parsedCommand) (r : client * parsedCommand * option Z) : Prop :=
  let '(c', p', o) := r in
  same_rest c c' /\ reqtype c' = reqtype c /\ exists a' l', view c' a' l' /\ (exists w, l = w ++ l') /\
  match o with
  | Some f => (is_error f /\ R l = PErr) \/ (f = 0 /\ waits auth R l c' p' l')
  | None => if multibulklen c' =? 0 then argv p' <> [] /\ (forall d, R (l ++ d) = PCmd (argv p') (l' ++ d))
            else waits auth R l c' p' l'
  end.

Lemma loop_post_step auth c p l c1 p1 w l1 r : same_rest c c1 -> reqtype c1 = reqtype c -> l = w ++ l1 ->
  (forall d, pend auth c p (l ++ d) = pend auth c1 p1 (l1 ++ d)) ->
  loop_post auth (pend auth c1 p1) l1 c1 p1 r -> loop_post auth (pend auth c p) l c p r.
Proof.
  destruct r as [[c' p'] o]. intros [Hs1 Hs2] Hr -> HR ([Hs3 Hs4] & Hr' & a' & l' & Hv & (w' & ->) & Ho).
  split; [by split; etrans|]. split; [by etrans|]. exists a', l'. split; [done|]. split; [by exists (w ++ w'); rewrite <- app_assoc|].
  assert (pend auth c p (w ++ w' ++ l') = pend auth c1 p1 (w' ++ l')) as HR0 by (specialize (HR []); by rewrite !app_nil_r in HR).
  assert (waits auth (pend auth c1 p1) (w' ++ l') c' p' l' -> waits auth (pend auth c p) (w ++ w' ++ l') c' p' l') as Hw.
  { intros (Hm & Hd & Hp). split; [done|]. split; [|done]. intros d. by rewrite HR, Hd. }
  destruct o as [f|].
  - destruct Ho as [[He HE]|[-> Ho]]; [left|right; auto]. by rewrite HR0.
  - case_if; [|auto]. destruct Ho as [Ha Hd]. split; [done|]. intros d. by rewrite HR, Hd.
Qed.

Lemma pend_nil auth c p : mid_ok c p -> pend auth c p [] = PMore.
Proof.
  intros (Hn & Hb & _). unfold pend. destruct Hb as [->|Hb]; [by apply bulks_more; [lia|]|].
  apply bulks_short; [lia|lia|]. change (alen (@nil Z)) with 0. lia.
Qed.

Lemma body_step auth fuel c p a l : view c a l -> mid_ok c p -> 0 <= bulklen c -> (length l < S fuel)%nat ->
  (forall c p a l, view c a l -> multibulklen c = 0 \/ mid_ok c p -> argv p <> [] -> (length l < fuel)%nat ->
     exists r, bulk_loop max fuel false auth c p = Ok r /\ loop_post auth (pend auth c p) l c p r) ->
  exists r, (h ← bulk_body false c p;
    match h with
    | Return flag => Ok (c, p, Some flag)
    | Break => Ok (c, p, None)
    | Header c p => bulk_loop max fuel false auth c p
    end) = Ok r /\ loop_post auth (pend auth c p) l c p r.
Proof.
  intros Hv Hm Hb Hf IH. pose proof Hm as (Hn & Hbl & Hcap).
  destruct (bulk_body_spec c p a l Hv Hb) as (h & -> & Hh); [lia|done|done|]. rewrite bind_ok.
  assert (forall c0, (multibulklen c0 =? 0) = false <-> multibulklen c0 <> 0) as Hz by (intros; apply Z.eqb_neq).
  case_if_in Hh.
  { subst h. eexists. split; [done|]. split; [done|]. split; [done|]. exists a, l. split; [done|]. split; [by exists []|].
    rewrite (proj2 (Hz c)) by lia. split; [done|]. split; [done|]. apply bulks_short; lia. }
  assert (forall d, pend auth c p (l ++ d) = match after_crlf (drop (Z.to_nat (bulklen c)) l ++ d) with
    | Some rest => bulks max auth (multibulklen c - 1) (- 1) (argv p ++ [take (Z.to_nat (bulklen c)) l]) rest | None => PErr end) as HR.
  { intros d. unfold pend. rewrite bulks_body; [|lia|lia|rewrite alen_app; pose proof (alen_nonneg d); lia].
    unfold alen in *. by rewrite drop_app_le, take_app_le by lia. }
  destruct (after_crlf (drop _ l)) as [rest|] eqn:Hc.
  2:{ destruct Hh as (e & -> & He). eexists. split; [done|]. split; [done|]. split; [done|]. exists a, l. split; [done|]. split; [by exists []|].
      left. split; [done|]. specialize (HR []). by rewrite !app_nil_r, Hc in HR. }
  destruct Hh as (b & o & pos & a' & p' & -> & Hv' & Ha & Hcap' & _). set (c1 := set_lens _ _ _) in *.
  assert (exists w, l = w ++ rest) as (w & Hw).
  { apply after_crlf_eq in Hc. exists (take (Z.to_nat (bulklen c)) l ++ [13; 10]). rewrite <- app_assoc, <- Hc. by rewrite take_drop. }
  destruct (IH c1 p' a' rest Hv') as (r & Hr & Hpost).
  { destruct (Z.eq_dec (multibulklen c) 1) as [H1|]; [left; subst c1; cbn; lia|right]. subst c1. split; [cbn; lia|]. by split; [left|]. }
  { rewrite Ha. by intros [_ ?]%app_eq_nil. }
  { apply after_crlf_length in Hc. rewrite length_drop in Hc. lia. }
  exists r. split; [done|]. apply (loop_post_step auth c p l c1 p' w rest); [done|done|done| |done].
  intros d. rewrite HR, (after_crlf_app _ d _ Hc). unfold pend. by rewrite Ha.
Qed.

Lemma bulk_loop_spec auth fuel : forall c p a l, view c a l -> multibulklen c = 0 \/ mid_ok c p ->
  (multibulklen c = 0 -> argv p <> []) -> (length l < fuel)%nat ->
  exists r, bulk_loop max fuel false auth c p = Ok r /\ loop_post auth (pend auth c p) l c p r.
Proof.
  induction fuel as [|fuel IH]; intros c p a l Hv Hm Ha Hf; [lia|]. cbn [bulk_loop]. case_if.
  { eexists. split; [done|]. split; [done|]. split; [done|]. exists a, l. split; [done|]. split; [by exists []|].
    rewrite E. cbn [Z.eqb]. split; [auto|]. intros d. unfold pend. by rewrite bulks_unfold, E. }
  destruct Hm as [|Hm]; [done|]. pose proof Hm as (Hn & Hbl & Hcap).
  assert (IH' : forall c p a l, view c a l -> multibulklen c = 0 \/ mid_ok c p -> argv p <> [] -> (length l < fuel)%nat ->
     exists r, bulk_loop max fuel false auth c p = Ok r /\ loop_post auth (pend auth c p) l c p r) by (intros; eapply IH; eauto).
  case_if.
  2:{ rewrite bind_ok. apply (body_step auth fuel c p a l); auto. lia. }
  destruct (bulk_header_spec auth c p a l Hv) as (h & -> & Hh). rewrite bind_ok.
  assert ((multibulklen c =? 0) = false) as Hz by (by apply Z.eqb_neq).
  assert (forall o, o = None \/ o = Some 0 -> ref_line 36 l = LMore -> loop_post auth (pend auth c p) l c p (c, p, o)) as Hmore.
  { intros o Ho Hl. split; [done|]. split; [done|]. exists a, l. split; [done|]. split; [by exists []|].
    assert (waits auth (pend auth c p) l c p l) by (split; [done|]; split; [done|]; unfold pend; rewrite E0; apply bulks_more; [lia|done]).
    destruct Ho as [->| ->]; [by rewrite Hz|by right]. }
  assert (forall e, is_error e -> pend auth c p l = PErr -> loop_post auth (pend auth c p) l c p (c, p, Some e)) as Herr.
  { intros e He HE. split; [done|]. split; [done|]. exists a, l. split; [done|]. split; [by exists []|]. by left. }
  destruct (ref_line 36 l) as [| |ll rest] eqn:Hl.
  - destruct Hh as [-> | ->]; eexists; split; [done|auto|done|auto].
  - destruct Hh as (e & -> & He). eexists. split; [done|]. apply Herr; [done|]. unfold pend. rewrite E0. by apply bulks_bad; [lia|].
  - destruct (bad_len max auth ll) eqn:Hbad.
    { destruct Hh as (e & -> & He). eexists. split; [done|]. apply Herr; [done|]. unfold pend. rewrite E0. by apply bulks_bad_len with ll rest; [lia|..]. }
    destruct Hh as (w & Hw & b & o & pos & a' & -> & Hv'). set (c1 := set_lens _ _ _) in *.
    assert (0 <= ll <= max) as Hll by (unfold bad_len in Hbad; cmp_prop; lia).
    pose proof (ref_line_length _ _ _ _ Hl).
    destruct (body_step auth fuel c1 (add_bytes p (alen w)) a' rest Hv') as (r & Hr & Hpost); [|subst c1; cbn; lia|lia|exact IH'|].
    { split; [done|]. split; [right; subst c1; cbn; lia|done]. }
    exists r. split; [done|]. apply (loop_post_step auth c p l c1 (add_bytes p (alen w)) w rest); try done.
    intros d. unfold pend. rewrite E0. apply (bulks_header max auth (multibulklen c) (argv p) (l ++ d) ll (rest ++ d)); [lia|by apply ref_line_app|done].
Qed.

(** ** One command *)
Definition todo (auth : bool) (c : client) (p : parsedCommand) (l : bytes) : parsed :=
  if multibulklen c =? 0 then ref_multibulk max auth l else pend auth c p l.

Definition state_ok (c : client) (p : parsedCommand) (l : bytes) : Prop :=
  (multibulklen c = 0 /\ argv p = [] /\ exists l0, l = 42 :: l0) \/ mid_ok c p.

Definition parse_post (auth : bool) (R : bytes -> parsed) (l : bytes) (c : client) (r : client * parsedCommand * Z) : Prop :=
  let '(c', p', flag) := r in
  same_rest c c' /\ exists a' l', view c' a' l' /\ (exists w, l = w ++ l') /\
  ((is_error flag /\ R l = PErr) \/
   (flag = 0 /\ reqtype c' = reqtype c /\ state_ok c' p' l' /\ (forall d, R (l ++ d) = todo auth c' p' (l' ++ d)) /\ todo auth c' p' l' = PMore) \/
   (flag = READ_FLAGS_PARSING_NEGATIVE_MBULK_LEN /\ multibulklen c' = 0 /\ argv p' = [] /\ (forall d, R (l ++ d) = PCmd [] (l' ++ d))) \/
   (flag = READ_FLAGS_PARSING_COMPLETED /\ multibulklen c' = 0 /\ reqtype c' = 0 /\ argv p' <> [] /\ (forall d, R (l ++ d) = PCmd (argv p') (l' ++ d)))).

(** The loop and what follows it. *)
Lemma parse_tail_spec auth c p a l : view c a l -> mid_ok c p ->
  exists r, (assert (0 <? multibulklen c) ≫= fun _ =>
    '(c, p, early) ← bulk_loop max (S (length (querybuf c))) false auth c p;
    match early with
    | Some flag => Ok (c, p, flag)
    | None =>
        if multibulklen c =? 0
        then Ok (set_reqtype c 0, add_bytes p (argv_len_sum p + alen (argv p) * 2), READ_FLAGS_PARSING_COMPLETED)
        else Ok (c, p, 0)
    end) = Ok r /\ parse_post auth (pend auth c p) l c r.
Proof.
  intros Hv Hm. pose proof Hm as (Hn & _). rewrite assert_true, bind_ok by lia.
  destruct (bulk_loop_spec auth (S (length (querybuf c))) c p a l Hv) as ([[c' p'] o] & -> & Hs & Hr & a' & l' & Hv' & Hw & Ho);
    [by right|lia|pose proof (buf_view_length c a l Hv); lia|]. rewrite bind_ok.
  assert (waits auth (pend auth c p) l c' p' l' -> parse_post auth (pend auth c p) l c (c', p', 0)) as Hwait.
  { intros (Hm' & Hd & Hp). split; [done|]. exists a', l'. split; [done|]. split; [done|]. right; left.
    assert (forall l, todo auth c' p' l = pend auth c' p' l) as Ht.
    { intros l0. unfold todo. destruct Hm' as (? & _). by rewrite (proj2 (Z.eqb_neq _ _)) by lia. }
    split; [done|]. split; [done|]. split; [by right|]. split; [intros d; by rewrite Ht|by rewrite Ht]. }
  destruct o as [f|].
  - eexists. split; [done|]. destruct Ho as [[He HE]|[-> Ho]]; [|auto].
    split; [done|]. exists a', l'. split; [done|]. split; [done|]. by left.
  - case_if; [|eexists; split; [done|]; auto]. destruct Ho as [Ha Hd]. eexists. split; [done|]. split; [done|].
    exists a', l'. split; [done|]. split; [done|]. right; right; right. done.
Qed.

Lemma multibulk_header_spec auth c p a l : view c a l -> multibulklen c = 0 -> argv p = [] -> (exists l0, l = 42 :: l0) ->
  exists c' p' o, multibulk_header auth c p = Ok (c', p', o) /\
  match o with
  | Some f => parse_post auth (ref_multibulk max auth) l c (c', p', f)
  | None => same_rest c c' /\ reqtype c' = reqtype c /\ mid_ok c' p' /\
            exists a' l' w, view c' a' l' /\ l = w ++ l' /\ (forall d, ref_multibulk max auth (l ++ d) = pend auth c' p' (l' ++ d))
  end.
Proof.
  intros Hv H0 Ha (l0 & Hl0). unfold multibulk_header. rewrite Ha. cbn [alen length Z.of_nat]. rewrite assert_true, bind_ok by done.
  assert (ref_line 42 l = LMore -> parse_post auth (ref_multibulk max auth) l c (c, p, 0)) as Hmore.
  { intros Hl. split; [done|]. exists a, l. split; [done|]. split; [by exists []|]. right; left. unfold todo. rewrite H0. cbn [Z.eqb].
    split; [done|]. split; [done|]. split; [left; eauto|]. split; [done|]. unfold ref_multibulk. by rewrite Hl. }
  assert (forall e, is_error e -> ref_multibulk max auth l = PErr -> parse_post auth (ref_multibulk max auth) l c (c, p, e)) as Herr.
  { intros e He HE. split; [done|]. exists a, l. split; [done|]. split; [by exists []|]. by left. }
  assert (forall ll rest d, ref_line 42 l = LNum ll rest -> ref_multibulk max auth (l ++ d) =
    if (INT_MAX <? ll) || ((10 <? ll) && auth) then PErr else if ll <=? 0 then PCmd [] (rest ++ d) else bulks max auth ll (- 1) [] (rest ++ d)) as HR.
  { intros ll rest d Hl. unfold ref_multibulk. by rewrite (ref_line_app _ _ d _ _ Hl). }
  assert (ref_line 42 l = LBad -> ref_multibulk max auth l = PErr) as Hbad by (intros Hl; unfold ref_multibulk; by rewrite Hl).
  revert Hmore Hbad HR. unfold ref_line. rewrite (memchr_view c a l Hv), (view_available c a l Hv).
  destruct (split_cr l) as [[w b]|] eqn:Hs; intros Hmore Hbad HR.
  2:{ unfold PROTO_INLINE_MAX_SIZE. change (1024 * 64) with 65536. destruct (65536 <? alen l); eexists _, _, _; (split; [done|]); [apply Herr; [error|auto]|exact (Hmore eq_refl)]. }
  pose proof (split_cr_eq _ _ _ Hs) as Hl. clear Hs. rewrite <- (view_available c a _ Hv). rewrite Hl in Hv. rewrite (line_complete c a w b Hv).
  destruct b as [|y rest]; [eexists _, _, _; split; [done|]; destruct w; exact (Hmore eq_refl)|].
  assert (exists num, w = 42 :: num) as (num & ->) by (rewrite Hl0 in Hl; destruct w as [|x num]; [done|]; injection Hl as <- _; by exists num).
  rewrite (crlf_line c a _ _ _ Hv), bind_ok. cbn [Z.eqb Pos.eqb andb] in *.
  case_if; [rewrite (proj2 (Z.eqb_neq y 10)) in Hbad by done; eexists _, _, _; split; [done|]; apply Herr; [error|auto]|].
  rewrite (proj2 (Z.eqb_eq y 10)) in * by done.
  rewrite (view_head c a 42 (num ++ 13 :: y :: rest) Hv), bind_ok, assert_true, bind_ok by done.
  rewrite (Z.add_comm 1 (qb_pos c)), (line_number c a _ _ _ Hv), bind_ok.
  destruct (string2llScalar num) as [ll|]; [|eexists _, _, _; split; [done|]; apply Herr; [error|auto]].
  specialize (HR ll rest). cbn [andb] in HR.
  destruct (INT_MAX <? ll) eqn:Hmaxl; cbn [orb] in HR.
  { eexists _, _, _. split; [done|]. apply Herr; [error|]. specialize (HR [] eq_refl). by rewrite app_nil_r in HR. }
  destruct ((10 <? ll) && auth) eqn:Hau.
  { eexists _, _, _. split; [done|]. apply Herr; [error|]. specialize (HR [] eq_refl). by rewrite app_nil_r in HR. }
  pose proof (line_advance c a 42 num y rest Hv) as Hv'.
  assert (l = ((42 :: num) ++ [13; y]) ++ rest) as Hlw by (rewrite Hl, <- app_assoc; done).
  case_if.
  - eexists _, _, _. split; [done|]. split; [done|]. eexists _, rest. split; [exact Hv'|]. split; [by eexists|].
    right; right; left. split; [done|]. split; [done|]. split; [done|]. intros d. by rewrite (HR d eq_refl).
  - eexists _, _, _. split; [done|]. split; [done|]. split; [done|]. split.
    { split; [cbn; lia|]. split; [by left|]. unfold cap_ok. cbn. change (alen (@nil bytes)) with 0. cmp_prop. lia. }
    eexists _, rest, _. split; [|split; [exact Hlw|]]; [|intros d; by rewrite (HR d eq_refl)].
    destruct Hv' as (Hq & Hp & Hlen). split; [exact Hq|]. split; [exact Hp|exact Hlen].
Qed.

Lemma parseMultibulk_spec auth c p a l : view c a l -> state_ok c p l ->
  has (p_read_flags (cur c)) READ_FLAGS_REPLICATED = false -> has (p_read_flags (cur c)) READ_FLAGS_AUTH_REQUIRED = auth ->
  exists r, parseMultibulk max c p = Ok r /\ parse_post auth (todo auth c p) l c r.
Proof.
  intros Hv Hok Hrep Hau. unfold parseMultibulk. rewrite Hrep, Hau. unfold todo. destruct Hok as [(H0 & Ha & Hl)|Hm].
  - rewrite H0. cbn [Z.eqb]. destruct (multibulk_header_spec auth c p a l Hv H0 Ha Hl) as (c' & p' & o & -> & Ho). rewrite bind_ok.
    destruct o as [f|]; [by eexists|]. destruct Ho as ([Hs1 Hs2] & Hr & Hm & a' & l' & w & Hv' & -> & HR).
    destruct (parse_tail_spec auth c' p' a' l' Hv' Hm) as ([[c2 p2] f] & -> & Hpost). eexists. split; [done|].
    destruct Hpost as ([Hs3 Hs4] & a2 & l2 & Hv2 & (w2 & ->) & Ho2).
    assert (ref_multibulk max auth (w ++ w2 ++ l2) = pend auth c' p' (w2 ++ l2)) as HR0 by (specialize (HR []); by rewrite !app_nil_r in HR).
    split; [by split; etrans|]. exists a2, l2. split; [done|]. split; [by exists (w ++ w2); rewrite <- app_assoc|].
    destruct Ho2 as [(He & HE)|[(-> & Hr2 & Hok & Hd & Hp)|[(-> & Hz & Ha2 & Hd)|(-> & Hz & Hr2 & Ha2 & Hd)]]].
    + left. by rewrite HR0.
    + right; left. split; [done|]. split; [by etrans|]. split; [done|]. split; [intros d; by rewrite HR, Hd|done].
    + right; right; left. repeat (split; [done|]). intros d. by rewrite HR, Hd.
    + right; right; right. repeat (split; [done|]). intros d. by rewrite HR, Hd.
  - pose proof Hm as (Hn & _). rewrite (proj2 (Z.eqb_neq _ _)), bind_ok by lia. by apply (parse_tail_spec auth c p a l).
Qed.
End arguments.
