(* ===== verification/RespServe.v ===== *)
(** * Serving a stream of requests

    The reference server takes requests off a stream one at a time; the theorem
    is that reading the stream in pieces, with the state of the parser kept in
    between and commands parsed ahead, executes the same commands. *)
From S2P Require Import Prelude ByteMem IntString SplitArgs Resp RespRefine.

(** ** Requests get shorter *)
Lemma bulks_shorter max auth k : forall n bl args l a r, (length l <= k)%nat -> bulks max auth n bl args l = PCmd a r ->
  (length r <= length l)%nat /\ (n <> 0 -> (length r < length l)%nat).
Proof.
  induction k as [|k IH]; intros n bl args l a r Hk; rewrite bulks_unfold; (case_if; [intros [= _ ->]; by split|]).
  - destruct l; [|cbn in Hk; lia]. destruct (if bl =? - 1 then ref_line 36 [] else LNum bl []) as [| |ll rest] eqn:Hl; [done..|].
    assert (rest = []) as -> by (case_if_in Hl; [done|by injection Hl]). case_if; [done|]. case_if; [done|]. by rewrite drop_nil.
  - destruct (if bl =? - 1 then ref_line 36 l else LNum bl l) as [| |ll rest] eqn:Hl; [done..|].
    assert (length rest <= length l)%nat.
    { case_if_in Hl; [apply ref_line_length in Hl; lia|]. by injection Hl as _ ->. }
    case_if; [done|]. case_if; [done|].
    destruct (after_crlf _) as [rest'|] eqn:Hc; [|done]. apply after_crlf_length in Hc. rewrite length_drop in Hc.
    intros [? _]%IH; lia.
Qed.

Lemma split_lf_eq l a b : split_lf l = Some (a, b) -> l = a ++ 10 :: b.
Proof.
  revert a b. induction l as [|x l IH]; intros a b; [done|]. cbn. case_if; [intros [= <- <-]; by subst|]. case_if; [done|].
  destruct (split_lf l) as [[a' b']|]; [|done]. intros [= <- <-]. cbn. by rewrite (IH a' b').
Qed.

Lemma split_lf_app l d a b : split_lf l = Some (a, b) -> split_lf (l ++ d) = Some (a, b ++ d).
Proof.
  revert a b. induction l as [|x l IH]; intros a b; [done|]. cbn. case_if; [by intros [= <- <-]|]. case_if; [done|].
  destruct (split_lf l) as [[a' b']|]; [|done]. intros [= <- <-]. by rewrite (IH a' b').
Qed.

Lemma ref_inline_app l d args rest : ref_inline l = PCmd args rest -> ref_inline (l ++ d) = PCmd args (rest ++ d).
Proof.
  unfold ref_inline. destruct (split_lf l) as [[a b]|] eqn:Hs; [|by case_if]. rewrite (split_lf_app _ d _ _ Hs).
  destruct (split_ref true (strip_cr a)); [|done]. by intros [= -> ->].
Qed.

Lemma arg_body_app ll rest d rest' : ll + 2 <= alen rest -> after_crlf (drop (Z.to_nat ll) rest) = Some rest' ->
  after_crlf (drop (Z.to_nat ll) (rest ++ d)) = Some (rest' ++ d) /\ take (Z.to_nat ll) (rest ++ d) = take (Z.to_nat ll) rest.
Proof.
  intros Hl Hc. assert (Z.to_nat ll <= length rest)%nat by (unfold alen in Hl; lia).
  rewrite drop_app_le, take_app_le by done. split; [by apply after_crlf_app|done].
Qed.

Lemma bulks_app max auth d k : forall n bl args l a r, (length l <= k)%nat -> bulks max auth n bl args l = PCmd a r ->
  bulks max auth n bl args (l ++ d) = PCmd a (r ++ d).
Proof.
  induction k as [|k IH]; intros n bl args l a r Hk HR; rewrite bulks_unfold in HR |- *; (case_if; [by injection HR as -> ->|]).
  - destruct l; [|cbn in Hk; lia]. destruct (if bl =? - 1 then ref_line 36 [] else LNum bl []) as [| |ll rest] eqn:Hl; [done..|].
    assert (rest = []) as -> by (case_if_in Hl; [done|by injection Hl]). case_if_in HR; [done|]. case_if_in HR; [done|]. by rewrite drop_nil in HR.
  - destruct (if bl =? - 1 then ref_line 36 l else LNum bl l) as [| |ll rest] eqn:Hl; [done..|].
    assert ((if bl =? - 1 then ref_line 36 (l ++ d) else LNum bl (l ++ d)) = LNum ll (rest ++ d) /\ (length rest <= length l)%nat) as [-> Hlen].
    { destruct (bl =? - 1); [split; [by apply ref_line_app|apply ref_line_length in Hl; lia]|]. by injection Hl as -> ->. }
    destruct ((bl =? - 1) && _); [done|]. case_if_in HR; [done|].
    rewrite (proj2 (Z.ltb_ge _ _)) by (rewrite alen_app; pose proof (alen_nonneg d); lia).
    destruct (after_crlf _) as [rest'|] eqn:Hc in HR; [|done]. destruct (arg_body_app ll rest d rest') as [-> ->]; [lia|done|].
    apply after_crlf_length in Hc. rewrite length_drop in Hc. apply IH; [lia|done].
Qed.

Lemma ref_request_app max auth l d a r : ref_request max auth l = PCmd a r -> ref_request max auth (l ++ d) = PCmd a (r ++ d).
Proof.
  unfold ref_request. destruct l as [|c l0]; [done|]. cbn [app]. case_if; [|by apply (ref_inline_app (c :: l0))].
  unfold ref_multibulk. destruct (ref_line 42 (c :: l0)) as [| |ll rest] eqn:Hl; [done..|].
  rewrite (ref_line_app _ _ d _ _ Hl : ref_line 42 (c :: l0 ++ d) = _). case_if; [done|]. case_if; [by intros [= <- <-]|].
  by apply (bulks_app _ _ _ (length rest)).
Qed.

Lemma ref_request_shorter max auth l a r : ref_request max auth l = PCmd a r -> (length r < length l)%nat.
Proof.
  unfold ref_request. destruct l as [|c l0]; [done|]. case_if.
  - unfold ref_multibulk. destruct (ref_line 42 (c :: l0)) as [| |ll rest] eqn:Hl; [done..|]. apply ref_line_length in Hl.
    case_if; [done|]. case_if; [intros [= _ ->]; lia|]. intros [? _]%(bulks_shorter _ _ _ _ _ _ _ _ _ (Nat.le_refl _)). lia.
  - unfold ref_inline. destruct (split_lf (c :: l0)) as [[w b]|] eqn:Hs; [|by case_if]. apply split_lf_eq in Hs.
    destruct (split_ref true (strip_cr w)); [|done]. intros [= _ ->]. rewrite Hs, length_app. cbn. lia.
Qed.

(** ** The reference server *)
Section serve.
Context {X : Type} `{Executor X} (max : Z).

Fixpoint serve (fuel : nat) (x : X) (u : bytes) : X * bytes :=
  match fuel with
  | O => (x, u)
  | S fuel =>
      if canParseCommand x then
        match ref_request max (authRequired x) u with
        | PMore => (x, u)
        | PErr => (setProtocolError x, u)
        | PCmd [] rest => serve fuel x rest
        | PCmd args rest => serve fuel (processCommand x args) rest
        end
      else (x, u)
  end.

(** Every request executed, and what is left of the stream. *)
Definition serve_all (x : X) (u : bytes) : X * bytes := serve (S (length u)) x u.

Inductive serves : X -> bytes -> X -> bytes -> Prop :=
  | s_stop x u : canParseCommand x = false -> serves x u x u
  | s_more x u : canParseCommand x = true -> ref_request max (authRequired x) u = PMore -> serves x u x u
  | s_err x u : canParseCommand x = true -> ref_request max (authRequired x) u = PErr -> serves x u (setProtocolError x) u
  | s_cmd x u args rest x' u' : canParseCommand x = true -> ref_request max (authRequired x) u = PCmd args rest ->
      serves (if alen args =? 0 then x else processCommand x args) rest x' u' -> serves x u x' u'.

Lemma serves_serve x u x' u' : serves x u x' u' -> forall fuel, (length u < fuel)%nat -> serve fuel x u = (x', u').
Proof.
  induction 1 as [x u Hc|x u Hc Hr|x u Hc Hr|x u args rest x' u' Hc Hr _ IH]; intros [|fuel] Hf; try lia; cbn [serve]; rewrite Hc, ?Hr; try done.
  apply ref_request_shorter in Hr. destruct args; apply IH; lia.
Qed.

Lemma serves_all x u x' u' : serves x u x' u' -> serve_all x u = (x', u').
Proof. intros Hs. apply (serves_serve _ _ _ _ Hs). lia. Qed.
End serve.

(** ** The flags *)
Definition is_flag (f : Z) : Prop :=
  is_error f \/ f = 0 \/ f = READ_FLAGS_PARSING_NEGATIVE_MBULK_LEN \/ f = READ_FLAGS_PARSING_COMPLETED.

(** The flags of an ordinary client before parsing. *)
Definition base_flags (auth : bool) : Z := if auth then READ_FLAGS_AUTH_REQUIRED else 0.

Definition error_mask : Z := fold_left Z.lor error_flags 0.

(** Facts about the flags are settled by trying them. *)
Lemma all_flags (P : Z -> bool -> bool) :
  forallb (fun f => P f true && P f false)
    (error_flags ++ [0; READ_FLAGS_PARSING_NEGATIVE_MBULK_LEN; READ_FLAGS_PARSING_COMPLETED]) = true ->
  forall f auth, is_flag f -> P f auth = true.
Proof.
  intros HP f auth Hf.
  assert (f ∈ error_flags ++ [0; READ_FLAGS_PARSING_NEGATIVE_MBULK_LEN; READ_FLAGS_PARSING_COMPLETED]) as Hin.
  { apply elem_of_app. destruct Hf as [Hf|Hf]; [by left|right]. set_solver. }
  apply list_elem_of_In in Hin. eapply forallb_forall in HP; [|exact Hin]. apply andb_true_iff in HP as [? ?]. by destruct auth.
Qed.

Lemma flags_auth f auth : is_flag f -> has (Z.lor (base_flags auth) f) READ_FLAGS_AUTH_REQUIRED = auth.
Proof. intros Hf. apply eqb_prop. revert f auth Hf. by apply all_flags. Qed.

Lemma flags_replicated f auth : is_flag f -> has (Z.lor (base_flags auth) f) READ_FLAGS_REPLICATED = false.
Proof. intros Hf. apply negb_true_iff. revert f auth Hf. by apply (all_flags (fun f auth => negb (has (Z.lor (base_flags auth) f) READ_FLAGS_REPLICATED))). Qed.

Lemma flags_error f auth : is_error f -> has (Z.lor (base_flags auth) f) error_mask = true.
Proof.
  intros Hf. assert (is_flag f) as Hf' by (by left).
  assert (bool_decide (is_error f) = true) as Hd by (by apply bool_decide_eq_true_2).
  pose proof (all_flags (fun f auth => implb (bool_decide (f ∈ error_flags)) (has (Z.lor (base_flags auth) f) error_mask)) ltac:(by vm_compute) f auth Hf') as Hall.
  unfold is_error in Hd. cbn beta in Hall. by rewrite Hd in Hall.
Qed.

Lemma completed_flag f : is_flag f -> f <> READ_FLAGS_PARSING_COMPLETED -> has f READ_FLAGS_PARSING_COMPLETED = false.
Proof.
  intros Hf Hne.
  pose proof (all_flags (fun f _ => (f =? READ_FLAGS_PARSING_COMPLETED) || negb (has f READ_FLAGS_PARSING_COMPLETED)) ltac:(by vm_compute) f true Hf) as Hall.
  cbn beta in Hall. rewrite (proj2 (Z.eqb_neq _ _) Hne) in Hall. by apply negb_true_iff in Hall.
Qed.

(** What [handleParseResults] makes of the flag of a command. *)
Lemma handle_error c auth f : is_error f -> p_read_flags (cur c) = Z.lor (base_flags auth) f -> handleParseResults c = (c, PARSE_ERR).
Proof. intros Hf Hc. unfold handleParseResults, isParsingError. rewrite Hc. fold error_mask. by rewrite flags_error. Qed.

Lemma handle_more c auth : p_read_flags (cur c) = Z.lor (base_flags auth) 0 -> handleParseResults c = (c, PARSE_NEEDMORE).
Proof. intros Hc. unfold handleParseResults, isParsingError. rewrite Hc. by destruct auth. Qed.

Lemma handle_negative c auth : p_read_flags (cur c) = Z.lor (base_flags auth) READ_FLAGS_PARSING_NEGATIVE_MBULK_LEN ->
  handleParseResults c = (set_reqtype (resetClient c) 0, PARSE_OK).
Proof. intros Hc. unfold handleParseResults, isParsingError. rewrite Hc. by destruct auth. Qed.

Lemma handle_completed c auth : p_read_flags (cur c) = Z.lor (base_flags auth) READ_FLAGS_PARSING_COMPLETED -> handleParseResults c = (c, PARSE_OK).
Proof. intros Hc. unfold handleParseResults, isParsingError. rewrite Hc. by destruct auth. Qed.

Lemma handle_zero c auth :
  p_read_flags (cur c) = Z.lor (Z.lor (base_flags auth) READ_FLAGS_INLINE_ZERO_QUERY_LEN) READ_FLAGS_PARSING_COMPLETED ->
  handleParseResults c = (set_reqtype (resetClient c) 0, PARSE_OK).
Proof. intros Hc. unfold handleParseResults, isParsingError. rewrite Hc. by destruct auth. Qed.

(** ** Inline commands *)
Section inline.
Context (noinit : Z -> bytes) (Hnoinit : forall n, 0 <= n -> alen (noinit n) = n).

Lemma str_index_lf l : str_index 10 (l ++ [0]) = match split_lf l with None => None | Some (a, _) => Some (alen a) end.
Proof.
  induction l as [|x l IH]; [done|]. cbn. case_if; [done|]. case_if; [done|]. rewrite IH. destruct (split_lf l) as [[a b]|]; [|done].
  cbn. by rewrite alen_cons, Z.add_comm.
Qed.

Lemma drop_alen {A} (a b : list A) : drop (Z.to_nat (alen a)) (a ++ b) = b.
Proof. unfold alen. by rewrite Nat2Z.id, drop_app_length. Qed.

Lemma strchr_view c a l : view c a l ->
  strchr (qb c) (qb_pos c) 10 = match split_lf l with None => None | Some (w, _) => Some (qb_pos c + alen w) end.
Proof.
  intros (Hq & Hp & _). unfold strchr, qb. rewrite Hq, Hp, <- app_assoc, drop_alen, str_index_lf.
  by destruct (split_lf l) as [[w b]|].
Qed.

Lemma strip_cr_snoc w x : strip_cr (w ++ [x]) = if x =? 13 then w else w ++ [x].
Proof.
  unfold strip_cr. rewrite last_snoc. case_if; [|done]. rewrite length_app. cbn [length]. by rewrite Nat.add_sub, take_app_length.
Qed.

Definition inline_post (auth : bool) (l : bytes) (c c' : client) : Prop :=
  cmd_queue c' = cmd_queue c /\ multibulklen c' = multibulklen c /\ exists a' l', view c' a' l' /\ (exists w, l = w ++ l') /\
  match ref_inline l with
  | PMore => c' = c
  | PErr => exists e, is_error e /\ p_read_flags (cur c') = Z.lor (base_flags auth) e
  | PCmd args rest =>
      l' = rest /\ reqtype c' = 0 /\ argv (cur c') = args /\
      (p_read_flags (cur c') = Z.lor (base_flags auth) READ_FLAGS_PARSING_COMPLETED \/
       args = [] /\ p_read_flags (cur c') = Z.lor (Z.lor (base_flags auth) READ_FLAGS_INLINE_ZERO_QUERY_LEN) READ_FLAGS_PARSING_COMPLETED)
  end.

Lemma parse_inline_spec auth c a l : view c a l -> is_bytes l -> alen l < 2 ^ 31 -> p_read_flags (cur c) = base_flags auth ->
  exists c', parseInlineBuffer noinit c = Ok c' /\ inline_post auth l c c'.
Proof.
  intros Hv Hby Hl Hf. unfold parseInlineBuffer, inline_post, ref_inline. rewrite (strchr_view c a l Hv), (view_available c a l Hv).
  assert (has (base_flags auth) READ_FLAGS_REPLICATED = false) as Hrep by (by destruct auth).
  destruct (split_lf l) as [[w rest]|] eqn:Hs.
  2:{ change PROTO_INLINE_MAX_SIZE with 65536. case_if; eexists; (split; [done|]); (split; [done|]); (split; [done|]);
        exists a, l; (split; [done|]); (split; [by exists []|]); [|done].
      exists READ_FLAGS_ERROR_BIG_INLINE_REQUEST. cbn. rewrite Hf. split; [|done]. unfold is_error, error_flags. set_solver. }
  pose proof (split_lf_eq _ _ _ Hs) as ->.
  assert (exists line k, (forall b : bool, b = match list.last w with Some x => x =? 13 | None => false end ->
      (if b then (qb_pos c + alen w - 1, 2) else (qb_pos c + alen w, 1)) = (qb_pos c + alen line, k)) /\
    strip_cr w = line /\ alen line + k = alen w + 1 /\ exists y z, w ++ 10 :: rest = line ++ y :: z) as (line & k & Hk & Hline & Hlen & y & z & Hyz).
  { destruct w as [|x w _] using rev_ind; [exists [], 1; split; [by intros b ->|]; by eauto|].
    rewrite last_snoc, strip_cr_snoc, alen_app. change (alen [x]) with 1. destruct (x =? 13).
    - exists w, 2. split; [intros b ->; f_equal; lia|]. split; [done|]. split; [lia|]. rewrite <- app_assoc. by eauto.
    - exists (w ++ [x]), 1. split; [intros b ->; rewrite alen_app; done|]. split; [done|]. rewrite alen_app. change (alen [x]) with 1. split; [lia|]. by eauto. }
  assert ((if qb_pos c + alen w =? qb_pos c then Ok false else ch ← ld (qb c) (qb_pos c + alen w - 1); Ok (ch =? 13)) =
    Ok (match list.last w with Some x => x =? 13 | None => false end)) as ->.
  { clear Hk Hyz Hlen Hline. destruct w as [|x w _] using rev_ind; [by rewrite (proj2 (Z.eqb_eq _ _)) by (change (alen []) with 0; lia)|].
    rewrite last_snoc, alen_app. change (alen [x]) with 1. pose proof (alen_nonneg w). rewrite (proj2 (Z.eqb_neq _ _)) by lia.
    replace (qb_pos c + (alen w + 1) - 1) with (qb_pos c + alen w) by lia. rewrite <- app_assoc in Hv.
    rewrite (view_ld c a w x (10 :: rest)) by done. done. }
  rewrite bind_ok, (Hk _ eq_refl). replace (qb_pos c + alen line - qb_pos c) with (alen line) by lia.
  pose proof Hv as (Hq & Hp & Hlv). pose proof (alen_nonneg line). pose proof (alen_nonneg z).
  assert (is_bytes line /\ alen line < 2 ^ 31) as [Hbl Hll].
  { rewrite Hyz in Hby, Hl. apply is_bytes_app in Hby as [? _]. rewrite alen_app, alen_cons in Hl. split; [done|lia]. }
  assert (sdsnsplitargs noinit (qb c) (qb_pos c) (alen line) = Ok (split_ref true line)) as ->.
  { unfold qb. rewrite Hq, Hp, Hyz, <- !app_assoc. cbn [app]. by apply sdsnsplitargs_ref. }
  rewrite bind_ok, Hline.
  destruct (split_ref true line) as [args|] eqn:Hsp.
  2:{ eexists. split; [done|]. split; [done|]. split; [done|]. exists a, (w ++ 10 :: rest). split; [done|]. split; [by exists []|].
      exists READ_FLAGS_ERROR_UNBALANCED_QUOTES. cbn. rewrite Hf. split; [|done]. unfold is_error, error_flags. set_solver. }
  rewrite Hf, Hrep, andb_false_r.
  assert (view (set_pos c (qb_pos c + (alen line + k))) (a ++ w ++ [10]) rest) as Hv'.
  { apply view_advance; [by rewrite <- app_assoc|]. rewrite alen_app. change (alen [10]) with 1. lia. }
  assert (alen line = 0 -> args = []) as Hz.
  { intros Hz0. destruct line; [by injection Hsp|rewrite alen_cons in Hz0; pose proof (alen_nonneg line); lia]. }
  destruct Hv' as (Hq' & Hp' & Hl'). cbn [set_pos set_buf querybuf qb_pos] in Hq', Hp'.
  assert (exists w0, w ++ 10 :: rest = w0 ++ rest) as Hw0 by (exists (w ++ [10]); by rewrite <- app_assoc).
  destruct (alen line =? 0) eqn:E0; destruct args as [|arg args]; eexists; (split; [done|]); (split; [done|]); (split; [done|]);
    exists (a ++ w ++ [10]), rest; (split; [by repeat split|]); (split; [done|]); (split; [done|]); (split; [done|]); (split; [done|]);
    cbn; rewrite Hf; [by right|cmp_prop; by specialize (Hz E0)|by left|by left].
Qed.
End inline.

(** ** Commands parsed ahead *)
Section ahead.
Context (max : Z) (Hmax : max < 2 ^ 62).

Definition request := ref_request max.

(** The kind of request known from its first byte. *)
Definition req_ok (c : client) (l : bytes) : Prop :=
  reqtype c = 0 \/ (reqtype c = PROTO_REQ_MULTIBULK /\ exists l0, l = 42 :: l0) \/
  (reqtype c = PROTO_REQ_INLINE /\ exists x l0, l = x :: l0 /\ x <> 42).

(** [l] is the unparsed rest of the buffer. *)
Definition unparsed (c : client) (l : bytes) : Prop := (exists a, view c a l) /\ is_bytes l /\ alen l < 2 ^ 31.

(** The queue [qs] and the rest of the buffer stand for the stream [u]; they
    were parsed for an authenticated client. *)
Inductive queued : client -> bytes -> list parsedCommand -> Prop :=
  | q_done c l : unparsed c l -> multibulklen c = 0 -> req_ok c l -> queued c l []
  | q_cmd c u u' q qs : p_read_flags q = READ_FLAGS_PARSING_COMPLETED -> argv q <> [] ->
      (forall d, request false (u ++ d) = PCmd (argv q) (u' ++ d)) -> queued c u' qs -> queued c u (q :: qs)
  | q_negative c u l q : p_read_flags q = READ_FLAGS_PARSING_NEGATIVE_MBULK_LEN -> argv q = [] -> unparsed c l -> multibulklen c = 0 ->
      (forall d, request false (u ++ d) = PCmd [] (l ++ d)) -> queued c u [q]
  | q_error c u l q : is_error (p_read_flags q) -> unparsed c l -> (length l <= length u)%nat -> request false u = PErr -> queued c u [q]
  | q_part c u l q : p_read_flags q = 0 -> unparsed c l -> (length l <= length u)%nat -> reqtype c = PROTO_REQ_MULTIBULK -> state_ok max c q l ->
      (forall d, request false (u ++ d) = todo max false c q (l ++ d)) -> todo max false c q l = PMore -> queued c u [q].

(** The queue relation reads the buffer and the parser state only. *)
Definition same_parser (c c' : client) : Prop :=
  querybuf c' = querybuf c /\ qb_pos c' = qb_pos c /\ multibulklen c' = multibulklen c /\ bulklen c' = bulklen c /\ reqtype c' = reqtype c.

Lemma same_unparsed (c c' : client) l : same_parser c c' -> unparsed c l -> unparsed c' l.
Proof. intros (Hq & Hp & _) [[a (H1 & H2 & H3)] Hby]. split; [|done]. exists a. split; [by rewrite Hq|]. split; [by rewrite Hp|done]. Qed.

(** The same with the buffer moved. *)
Definition moved (c c' : client) : Prop :=
  (forall l, unparsed c l -> unparsed c' l) /\ multibulklen c' = multibulklen c /\ bulklen c' = bulklen c /\ reqtype c' = reqtype c.

Lemma same_moved (c c' : client) : same_parser c c' -> moved c c'.
Proof. intros Hs. split; [intros l; by apply same_unparsed|apply Hs]. Qed.

Lemma moved_todo (c c' : client) p l auth : moved c c' -> todo max auth c' p l = todo max auth c p l.
Proof. intros (_ & Hm & Hb & _). unfold todo, pend. by rewrite Hm, Hb. Qed.

Lemma moved_state_ok (c c' : client) p l : moved c c' -> state_ok max c p l -> state_ok max c' p l.
Proof. intros (_ & Hm & Hb & _). unfold state_ok, mid_ok. by rewrite Hm, Hb. Qed.

Lemma moved_queued (c c' : client) u qs : moved c c' -> queued c u qs -> queued c' u qs.
Proof.
  intros Hs Hq. pose proof Hs as (Hun & Hm & _ & Hr). revert c' Hs Hun Hm Hr.
  induction Hq as [c l Hu H0 Hr|c u u' q qs Hf Ha HR _ IH|c u l q Hf Ha Hu H0 HR|c u l q He Hu Hl HE|c u l q Hf Hu Hl Hr Hok HR Hp];
    intros c' Hs Hun Hm Hreq.
  - apply q_done; [auto|by rewrite Hm|]. unfold req_ok. by rewrite Hreq.
  - apply q_cmd with u'; auto.
  - apply q_negative with l; [done|done|auto|by rewrite Hm|done].
  - apply q_error with l; auto.
  - apply q_part with l; [done|auto|done|by rewrite Hreq|by eapply moved_state_ok| |].
    + intros d. rewrite HR. symmetry. by apply moved_todo.
    + rewrite <- Hp. by apply moved_todo.
Qed.

Lemma same_todo (c c' : client) p l auth : same_parser c c' -> todo max auth c' p l = todo max auth c p l.
Proof. intros Hs. by apply moved_todo, same_moved. Qed.

Lemma same_state_ok (c c' : client) p l : same_parser c c' -> state_ok max c p l -> state_ok max c' p l.
Proof. intros Hs. by apply moved_state_ok, same_moved. Qed.

Lemma same_queued (c c' : client) u qs : same_parser c c' -> queued c u qs -> queued c' u qs.
Proof. intros Hs. by apply moved_queued, same_moved. Qed.

(** What is left and the queue are no longer than the stream. *)
Lemma request_shorter auth u a u' : (forall d, request auth (u ++ d) = PCmd a (u' ++ d)) -> (length u' < length u)%nat.
Proof. intros HR. specialize (HR []). rewrite !app_nil_r in HR. by apply ref_request_shorter in HR. Qed.

Lemma queued_measure c u qs : queued c u qs -> exists l, unparsed c l /\ (2 * length l + length qs <= 2 * length u + 1)%nat /\
  (qs = [] -> u = l).
Proof.
  induction 1 as [c l Hu H0 Hr|c u u' q qs Hf Ha HR _ (l & Hu & Hl & _)|c u l q Hf Ha Hu H0 HR|c u l q He Hu Hl HE|c u l q Hf Hu Hl Hr Hok HR Hp];
    exists l; (split; [done|]); (split; [|done]); cbn [length]; try lia.
  - pose proof (request_shorter false u (argv q) u' HR). lia.
  - pose proof (request_shorter false u [] l HR). lia.
Qed.

Lemma queue_room_keeps q q' : queue_room q = Some q' -> cmds q' = cmds q /\ off q' = off q.
Proof. unfold queue_room. repeat case_if; by intros [= <-]. Qed.

Lemma unparsed_suffix (c c' : client) a' l w l' : unparsed c l -> l = w ++ l' -> view c' a' l' -> unparsed c' l'.
Proof.
  intros (_ & Hby & Hl) -> Hv. apply is_bytes_app in Hby as [_ Hby]. rewrite alen_app in Hl. pose proof (alen_nonneg w).
  split; [by exists a'|]. split; [done|lia].
Qed.

(** The outcome of [parseMultibulk] as an element of the queue. *)
Lemma parse_ahead_stop fuel c f : is_flag f -> f <> READ_FLAGS_PARSING_COMPLETED -> parse_ahead max fuel c f = Ok c.
Proof. intros Hf Hne. destruct fuel; cbn [parse_ahead]; by rewrite completed_flag. Qed.

Lemma parse_ahead_spec fuel : forall c l,
  unparsed c l -> (length l < fuel)%nat -> multibulklen c = 0 -> reqtype c = 0 ->
  has (p_read_flags (cur c)) READ_FLAGS_REPLICATED = false -> has (p_read_flags (cur c)) READ_FLAGS_AUTH_REQUIRED = false ->
  exists c' qs, parse_ahead max fuel c READ_FLAGS_PARSING_COMPLETED = Ok c' /\ cur c' = cur c /\
    cmds (cmd_queue c') = cmds (cmd_queue c) ++ qs /\ off (cmd_queue c') = off (cmd_queue c) /\ queued c' l qs.
Proof.
  induction fuel as [|fuel IH]; intros c l Hu Hf Hm Hr Hrep Hau; [lia|]. pose proof Hu as [[a Hv] _]. cbn [parse_ahead].
  change (has READ_FLAGS_PARSING_COMPLETED READ_FLAGS_PARSING_COMPLETED) with true. cbn [andb].
  destruct l as [|x l0].
  { rewrite (view_end c a Hv). exists c, []. rewrite app_nil_r. repeat (split; [done|]). apply q_done; [done|done|by left]. }
  rewrite (view_inside c a x l0 Hv), (view_head c a x l0 Hv), bind_ok. case_if.
  2:{ exists c, []. rewrite app_nil_r. repeat (split; [done|]). apply q_done; [done|done|by left]. }
  subst x. cbn [cmd_queue set_reqtype]. destruct (queue_room (cmd_queue c)) as [q|] eqn:Hq.
  2:{ exists (set_reqtype c PROTO_REQ_MULTIBULK), []. rewrite app_nil_r. repeat (split; [done|]). apply q_done; [done|done|]. right; left. eauto. }
  apply queue_room_keeps in Hq as [Hqc Hqo]. set (c1 := set_reqtype c PROTO_REQ_MULTIBULK).
  destruct (parseMultibulk_spec max Hmax false c1 no_command a (42 :: l0) Hv) as ([[c2 p2] f] & -> & [Hc2 Hq2] & a2 & l2 & Hv2 & (w & Hw) & Ho);
    [left; eauto|done|done|]. rewrite bind_ok.
  assert (forall d, todo max false c1 no_command ((42 :: l0) ++ d) = request false ((42 :: l0) ++ d)) as Htodo by (intros d; unfold todo; cbn; by rewrite Hm).
  assert (unparsed c2 l2) as Hu2 by (by apply (unparsed_suffix c c2 a2 (42 :: l0) w l2)).
  assert (length l2 <= length (42 :: l0)%Z)%nat as Hll by (rewrite Hw, length_app; lia).
  set (c3 := set_queue c2 (queue_push q (set_flags p2 f))). assert (same_parser c2 c3) as Hs by done.
  assert (is_flag f) as Hfl by (destruct Ho as [[? _]|[[? _]|[[? _]|[? _]]]]; [by left|right; auto..]).
  assert (forall qs, queued c2 (42 :: l0) (set_flags p2 f :: qs) -> parse_ahead max fuel c3 f = Ok c3 -> qs = [] ->
    exists c' qs, parse_ahead max fuel c3 f = Ok c' /\ cur c' = cur c /\ cmds (cmd_queue c') = cmds (cmd_queue c) ++ qs /\
      off (cmd_queue c') = off (cmd_queue c) /\ queued c' (42 :: l0) qs) as Hend.
  { intros qs Hqd Hst ->. exists c3, [set_flags p2 f]. split; [done|]. split; [done|]. cbn. rewrite Hqc, Hqo. repeat (split; [done|]). by apply (same_queued c2). }
  destruct Ho as [(He & HE)|[(-> & Hr2 & Hok & Hd & Hp)|[(-> & Hz & Ha2 & Hd)|(-> & Hz & Hr2 & Ha2 & Hd)]]].
  - apply (Hend []); [|apply parse_ahead_stop; [done|]|done].
    + apply q_error with l2; [done|done|done|]. specialize (Htodo []). rewrite !app_nil_r in Htodo. by rewrite <- Htodo.
    + intros ->. unfold is_error in He. revert He. by apply (bool_decide_eq_false_1 (READ_FLAGS_PARSING_COMPLETED ∈ error_flags)).
  - apply (Hend []); [|by apply parse_ahead_stop|done]. apply q_part with l2; try done. intros d. by rewrite <- Htodo, Hd.
  - apply (Hend []); [|by apply parse_ahead_stop|done]. apply q_negative with l2; try done. intros d. by rewrite <- Htodo, Hd.
  - assert (forall d, request false ((42 :: l0) ++ d) = PCmd (argv p2) (l2 ++ d)) as HR by (intros d; by rewrite <- Htodo, Hd).
    pose proof (request_shorter _ _ _ _ HR). destruct (IH c3 l2) as (c' & qs & Hpa & Hcur & Hcm & Hoff & Hqd).
    { by apply (same_unparsed c2). }
    { lia. }
    { done. }
    { done. }
    { cbn. by rewrite Hc2. }
    { cbn. by rewrite Hc2. }
    exists c', (set_flags p2 READ_FLAGS_PARSING_COMPLETED :: qs). split; [done|]. split; [by rewrite Hcur; cbn; rewrite Hc2|].
    rewrite Hcm, Hoff. cbn. rewrite Hqc, Hqo, <- app_assoc. repeat (split; [done|]).
    by apply q_cmd with l2.
Qed.

(** ** The state between two turns of the loop *)
Definition queue_rest (c : client) : list parsedCommand := drop (Z.to_nat (off (cmd_queue c))) (cmds (cmd_queue c)).

Definition queue_ok (c : client) : Prop :=
  (cmds (cmd_queue c) = [] /\ off (cmd_queue c) = 0) \/ 0 <= off (cmd_queue c) < alen (cmds (cmd_queue c)).

(** Bytes left and commands queued: what the loop consumes. *)
Definition measure (c : client) : nat := (2 * (length (querybuf c) - Z.to_nat (qb_pos c)) + length (queue_rest c))%nat.

Lemma unparsed_length c l : unparsed c l -> (length (querybuf c) - Z.to_nat (qb_pos c))%nat = length l.
Proof. intros [[a (-> & -> & _)] _]. rewrite length_app. unfold alen. lia. Qed.

(** No command is queued; [u] stands for the state of the parser and the buffer. *)
Inductive waiting (auth : bool) (c : client) (u : bytes) : Prop :=
  | w_idle l : unparsed c l -> multibulklen c = 0 -> argv (cur c) = [] -> req_ok c l ->
      (forall d, request auth (u ++ d) = request auth (l ++ d)) -> waiting auth c u
  | w_mid l : unparsed c l -> mid_ok max c (cur c) -> reqtype c = PROTO_REQ_MULTIBULK ->
      (forall d, request auth (u ++ d) = pend max auth c (cur c) (l ++ d)) -> waiting auth c u.

Definition inv (auth : bool) (c : client) (u : bytes) : Prop :=
  queue_ok c /\ ((queue_rest c = [] /\ waiting auth c u) \/ (queue_rest c <> [] /\ auth = false /\ queued c u (queue_rest c))).

(** What a turn has put into the client, by the flags; [k] bounds what is left to do. *)
Inductive turned (auth : bool) (u : bytes) (k : nat) (c : client) : Prop :=
  | t_error e l : is_error e -> p_read_flags (cur c) = Z.lor (base_flags auth) e -> unparsed c l -> (2 * length l <= k)%nat ->
      request auth u = PErr -> turned auth u k c
  | t_more l : p_read_flags (cur c) = Z.lor (base_flags auth) 0 -> queue_ok c -> queue_rest c = [] -> waiting auth c u ->
      unparsed c l -> (2 * length l <= k)%nat ->
      request auth u = PMore -> turned auth u k c
  | t_skip l : handleParseResults c = (set_reqtype (resetClient c) 0, PARSE_OK) -> queue_ok c -> queue_rest c = [] -> multibulklen c = 0 ->
      unparsed c l -> (measure c < k)%nat -> (forall d, request auth (u ++ d) = PCmd [] (l ++ d)) -> turned auth u k c
  | t_cmd u' : p_read_flags (cur c) = Z.lor (base_flags auth) READ_FLAGS_PARSING_COMPLETED -> queue_ok c -> queued c u' (queue_rest c) ->
      (queue_rest c <> [] -> auth = false) -> (measure c < k)%nat ->
      (forall d, request auth (u ++ d) = PCmd (argv (cur c)) (u' ++ d)) -> turned auth u k c.

(** *** A turn that takes the next command of the queue *)
Lemma state_waiting c q u l : unparsed c l -> state_ok max c q l -> reqtype c = PROTO_REQ_MULTIBULK -> cur c = q ->
  (forall d, request false (u ++ d) = todo max false c q (l ++ d)) -> waiting false c u.
Proof.
  intros Hu [(Hm & Ha & (l0 & ->))|Hm] Hr Hc HR.
  - apply w_idle with (42 :: l0); [done|done|by rewrite Hc|right; left; eauto|]. intros d. rewrite HR. unfold todo. by rewrite Hm.
  - apply w_mid with l; [done|by rewrite Hc|done|]. intros d. rewrite HR, Hc. unfold todo. destruct Hm as (? & _).
    by rewrite (proj2 (Z.eqb_neq _ _)) by lia.
Qed.

Lemma consume_spec c u q qs : queue_ok c -> queue_rest c = q :: qs -> queued c u (q :: qs) -> p_read_flags (cur c) = base_flags false ->
  exists c', consumeCommandQueue c = Some c' /\ turned false u (measure c) c'.
Proof.
  intros Hok Hrest Hq Hf. unfold consumeCommandQueue. unfold queue_rest in Hrest.
  destruct Hok as [[H0 _]|Hoff]; [by rewrite H0, drop_nil in Hrest|]. rewrite (proj2 (Z.leb_gt _ _)) by lia.
  assert (cmds (cmd_queue c) !! Z.to_nat (off (cmd_queue c)) = Some q) as Hlook.
  { rewrite <- (Nat.add_0_r (Z.to_nat _)), <- lookup_drop. by rewrite Hrest. }
  rewrite Hlook. eexists. split; [done|]. set (c' := set_queue _ _).
  assert (drop (S (Z.to_nat (off (cmd_queue c)))) (cmds (cmd_queue c)) = qs) as Hdrop.
  { rewrite <- (Nat.add_1_r (Z.to_nat _)), <- drop_drop, Hrest. done. }
  assert (queue_rest c' = qs /\ queue_ok c') as [Hqr Hqok].
  { subst c'. unfold queue_rest, queue_ok. cbn. case_if; cbn.
    - split; [|by left]. rewrite <- Hdrop. symmetry. apply drop_ge. unfold alen in *. lia.
    - split; [|right; lia]. by rewrite <- Hdrop, <- Z2Nat.inj_succ by lia. }
  assert (same_parser c c') as Hs by done. assert (cur c' = set_flags q (Z.lor (p_read_flags (cur c)) (p_read_flags q))) as Hcur by done.
  rewrite Hf in Hcur. clearbody c'.
  assert (measure c' < measure c)%nat as Hms.
  { unfold measure. rewrite Hqr. unfold queue_rest. rewrite Hrest. destruct Hs as (-> & -> & _). cbn [length]. lia. }
  assert (forall l, unparsed c l -> (2 * length l <= measure c)%nat) as Hlm by (intros l Hl; unfold measure; rewrite (unparsed_length c l Hl); lia).
  clear Hdrop Hrest Hlook.
  inversion Hq as [|? ? u' ? ? Hfl Ha HR Hrec|? ? l ? Hfl Ha Hu Hm HR|? ? l ? He Hu Hl HE|? ? l ? Hfl Hu Hl Hr Hst HR Hp]; subst.
  - apply t_cmd with u'; try done; [by rewrite Hcur; cbn; rewrite Hfl|by apply (same_queued c)|by rewrite Hcur].
  - apply t_skip with l; try done; [|by destruct Hs as (_ & _ & -> & _)|by apply (same_unparsed c)].
    apply (handle_negative c' false). by rewrite Hcur; cbn; rewrite Hfl.
  - apply t_error with (p_read_flags q) l; [done|by rewrite Hcur|by apply (same_unparsed c)|by apply Hlm|done].
  - assert (forall l, todo max false c' (cur c') l = todo max false c q l) as Ht.
    { intros l1. rewrite (same_todo c c') by done. by rewrite Hcur. }
    apply t_more with l; [by rewrite Hcur; cbn; rewrite Hfl|done|done| |by apply (same_unparsed c)|by apply Hlm|].
    + apply (state_waiting c' (cur c') u l); [by apply (same_unparsed c)| |by destruct Hs as (_ & _ & _ & _ & ->)|done|intros d; by rewrite Ht].
      apply (same_state_ok c); [done|]. by rewrite Hcur.
    + specialize (HR []). rewrite !app_nil_r in HR. by rewrite HR.
Qed.

(** *** A turn that parses the buffer *)
Context (noinit : Z -> bytes) (Hnoinit : forall n, 0 <= n -> alen (noinit n) = n).

Definition no_queue (c : client) : Prop := cmds (cmd_queue c) = [] /\ off (cmd_queue c) = 0.

Lemma no_queue_facts c : no_queue c -> queue_ok c /\ queue_rest c = [].
Proof. intros [H0 Ho]. split; [by left|]. unfold queue_rest. by rewrite H0, drop_nil. Qed.

Lemma multibulk_flags f auth p : is_flag f -> p_read_flags p = base_flags auth ->
  has (p_read_flags (set_flags p (Z.lor (p_read_flags p) f))) READ_FLAGS_AUTH_REQUIRED = auth /\
  has (p_read_flags (set_flags p (Z.lor (p_read_flags p) f))) READ_FLAGS_REPLICATED = false.
Proof. intros Hf Hp. cbn. rewrite Hp. split; [by apply flags_auth|by apply flags_replicated]. Qed.

Lemma todo_shorter auth c p l a l' : state_ok max c p l -> (forall d, todo max auth c p (l ++ d) = PCmd a (l' ++ d)) -> (length l' < length l)%nat.
Proof.
  intros Hok HR. specialize (HR []). rewrite !app_nil_r in HR. unfold todo in HR. destruct Hok as [(Hm & _ & l0 & ->)|(Hn & _)].
  - rewrite Hm in HR. by apply (ref_request_shorter max auth (42 :: l0) a l').
  - rewrite (proj2 (Z.eqb_neq _ _)) in HR by lia. destruct (bulks_shorter _ _ _ _ _ _ _ _ _ (Nat.le_refl _) HR) as [_ ?]. apply H. lia.
Qed.

(** [u] is what the parser state and the buffer [l] stand for. *)
Lemma multibulk_turn auth c u l : no_queue c -> p_read_flags (cur c) = base_flags auth -> unparsed c l -> state_ok max c (cur c) l ->
  reqtype c = PROTO_REQ_MULTIBULK -> (forall d, request auth (u ++ d) = todo max auth c (cur c) (l ++ d)) ->
  exists c', parseMultibulkBuffer max false c = Ok c' /\ turned auth u (2 * length l) c'.
Proof.
  intros [Hq Ho] Hf Hu Hok Hr HR. pose proof Hu as [[a Hv] _]. unfold parseMultibulkBuffer.
  destruct (parseMultibulk_spec max Hmax auth c (cur c) a l Hv Hok) as ([[c2 p2] f] & -> & [Hc2 Hq2] & a2 & l2 & Hv2 & (w & Hw) & Hout);
    [rewrite Hf; by destruct auth|rewrite Hf; by destruct auth|]. rewrite bind_ok.
  assert (is_flag f) as Hfl by (destruct Hout as [[? _]|[[? _]|[[? _]|[? _]]]]; [by left|right; auto..]).
  cbn [cur set_cur]. rewrite Hc2. destruct (multibulk_flags f auth (cur c) Hfl Hf) as [Hau Hrep]. cbn [set_flags p_read_flags] in Hau, Hrep |- *.
  set (c3 := set_cur c2 (set_flags p2 (Z.lor (p_read_flags (cur c)) f))). assert (same_parser c2 c3) as Hs by done.
  assert (p_read_flags (cur c3) = Z.lor (base_flags auth) f) as Hf3 by (cbn; by rewrite Hf).
  assert (unparsed c3 l2) as Hu3 by (apply (same_unparsed c2); [done|]; by apply (unparsed_suffix c c2 a2 l w l2)).
  assert (length l2 <= length l)%nat as Hll by (rewrite Hw, length_app; lia).
  assert (cmd_queue c3 = cmd_queue c) as Hq3 by done. assert (no_queue c3) as Hn3 by (by split; rewrite Hq3).
  destruct (no_queue_facts c3 Hn3) as [Hqok Hqr].
  rewrite Hau. assert (cmds (cmd_queue c3) = []) as Hq0 by apply Hn3.
  assert (forall P, P c3 -> (f <> READ_FLAGS_PARSING_COMPLETED) -> exists c', (if auth then Ok c3 else
    assert (alen (cmds (cmd_queue c3)) =? 0) ≫= fun _ => parse_ahead max (S (length (querybuf c3))) c3 f) = Ok c' /\ P c') as Hstop.
  { intros P HP Hne. exists c3. split; [|done]. destruct auth; [done|]. rewrite Hq0, assert_true, bind_ok by done. by apply parse_ahead_stop. }
  assert (measure c3 = 2 * length l2)%nat as Hms3 by (unfold measure; rewrite (unparsed_length c3 l2 Hu3), Hqr; cbn; lia).
  destruct Hout as [(He & HE)|[(-> & Hr2 & Hok2 & Hd & Hp)|[(-> & Hz & Ha2 & Hd)|(-> & Hz & Hr2 & Ha2 & Hd)]]].
  - apply Hstop.
    + apply t_error with f l2; try done; [lia|]. specialize (HR []). rewrite !app_nil_r in HR. by rewrite HR.
    + intros ->. revert He. by apply (bool_decide_eq_false_1 (READ_FLAGS_PARSING_COMPLETED ∈ error_flags)).
  - apply Hstop; [|done].
    assert (forall d, request auth (u ++ d) = todo max auth c3 (cur c3) (l2 ++ d)) as HR3.
    { intros d. rewrite HR, Hd. by rewrite <- (same_todo c2 c3). }
    apply t_more with l2; [done|done|done| |done|lia|].
    + destruct Hok2 as [(Hm & Ha & l0 & ->)|Hm].
      * apply w_idle with (42 :: l0); [done|done|done|right; left; split; [by rewrite <- Hr, <- Hr2|eauto]|].
        intros d. rewrite HR3. unfold todo. cbn [multibulklen c3 set_cur]. by rewrite Hm.
      * apply w_mid with l2; [done|done|by rewrite <- Hr, <- Hr2|]. intros d. rewrite HR3. unfold todo. destruct Hm as (Hn & _).
        cbn [multibulklen c3 set_cur]. by rewrite (proj2 (Z.eqb_neq _ _)) by lia.
    + specialize (HR3 []). rewrite !app_nil_r in HR3. rewrite HR3, <- Hp. by rewrite <- (same_todo c2 c3).
  - apply Hstop; [|done]. apply t_skip with l2; try done; [by apply (handle_negative c3 auth)| |intros d; by rewrite HR, Hd].
    rewrite Hms3. pose proof (todo_shorter auth c (cur c) l [] l2 Hok Hd). lia.
  - pose proof (todo_shorter auth c (cur c) l _ l2 Hok Hd) as Hsh.
    assert (forall d, request auth (u ++ d) = PCmd (argv (cur c3)) (l2 ++ d)) as HR3 by (intros d; by rewrite HR, Hd).
    destruct auth.
    + exists c3. split; [done|]. apply t_cmd with l2; [done|done| |by rewrite Hqr|by rewrite Hms3; lia|done].
      rewrite Hqr. apply q_done; [done|done|by left].
    + rewrite Hq0, assert_true, bind_ok by done.
      destruct (parse_ahead_spec (S (length (querybuf c3))) c3 l2 Hu3) as (c4 & qs & -> & Hcur & Hcm & Hoff & Hqd); try done.
      { destruct Hu3 as [[a3 Hv3] _]. pose proof (buf_view_length c3 a3 l2 Hv3). lia. }
      exists c4. split; [done|]. rewrite Hq0 in Hcm. cbn [app] in Hcm. assert (off (cmd_queue c3) = 0) as Ho0 by apply Hn3. rewrite Ho0 in Hoff.
      assert (queue_rest c4 = qs) as Hqr4 by (unfold queue_rest; by rewrite Hoff, Hcm).
      apply t_cmd with l2; [by rewrite Hcur| |by rewrite Hqr4|done| |by rewrite Hcur].
      * unfold queue_ok. rewrite Hoff, Hcm. destruct qs; [by left|right]. rewrite alen_cons. pose proof (alen_nonneg qs). lia.
      * destruct (queued_measure _ _ _ Hqd) as (l4 & Hu4 & Hm4 & _). unfold measure. rewrite (unparsed_length _ _ Hu4), Hqr4. lia.
Qed.

Lemma inline_turn auth c u x l0 : no_queue c -> p_read_flags (cur c) = base_flags auth -> unparsed c (x :: l0) -> x <> 42 ->
  multibulklen c = 0 -> argv (cur c) = [] -> reqtype c = PROTO_REQ_INLINE ->
  (forall d, request auth (u ++ d) = ref_inline ((x :: l0) ++ d)) ->
  exists c', parseInlineBuffer noinit c = Ok c' /\ turned auth u (2 * length (x :: l0)) c'.
Proof.
  intros Hn Hf Hu Hx Hm Ha Hr HR. pose proof Hu as [[a Hv] [Hby Hl]].
  destruct (parse_inline_spec noinit Hnoinit auth c a (x :: l0) Hv Hby Hl Hf) as (c' & -> & Hq & Hm' & a' & l' & Hv' & (w & Hw) & Hout).
  exists c'. split; [done|]. assert (no_queue c') as Hn' by (unfold no_queue; by rewrite Hq).
  destruct (no_queue_facts c' Hn') as [Hqok Hqr].
  assert (unparsed c' l') as Hu' by (by apply (unparsed_suffix c c' a' (x :: l0) w l')).
  assert (request auth u = ref_inline (x :: l0)) as HR0 by (specialize (HR []); by rewrite !app_nil_r in HR).
  destruct (ref_inline (x :: l0)) as [| |args rest] eqn:Hi.
  - subst c'. apply t_more with (x :: l0); [rewrite Hf; by destruct auth|done|done| |done|lia|done].
    apply w_idle with (x :: l0); [done|done|done|right; right; eauto|]. intros d. rewrite HR. cbn [app request ref_request].
    unfold request, ref_request. cbn. by rewrite (proj2 (Z.eqb_neq _ _)).
  - destruct Hout as (e & He & Hfe). apply t_error with e l'; try done. rewrite Hw, length_app. lia.
  - destruct Hout as (-> & Hr' & Ha' & Hfl).
    assert (forall d, request auth (u ++ d) = PCmd args (rest ++ d)) as HR' by (intros d; rewrite HR; by apply ref_inline_app).
    assert (measure c' < 2 * length (x :: l0)%Z)%nat as Hms.
    { unfold measure. rewrite (unparsed_length _ _ Hu'), Hqr. apply (ref_inline_app _ []) in Hi. rewrite !app_nil_r in Hi.
      assert (ref_request max auth (x :: l0) = PCmd args rest) as Hrq by (unfold ref_request; by rewrite (proj2 (Z.eqb_neq _ _))).
      apply ref_request_shorter in Hrq. cbn [length] in *. lia. }
    destruct Hfl as [Hfl|[-> Hfl]].
    + apply t_cmd with rest; [done|done| |by rewrite Hqr|done|by rewrite Ha']. rewrite Hqr. apply q_done; [done|by rewrite Hm'|by left].
    + apply t_skip with rest; try done; [by apply (handle_zero c' auth)|by rewrite Hm'].
Qed.

Lemma input_turn auth c u : no_queue c -> p_read_flags (cur c) = base_flags auth -> waiting auth c u ->
  (qb_pos c <? alen (querybuf c)) = true -> exists c', parseInputBuffer max noinit false c = Ok c' /\ turned auth u (measure c) c'.
Proof.
  intros Hn Hf Hw Hin. destruct (no_queue_facts c Hn) as [_ Hqr].
  assert (forall l, unparsed c l -> measure c = (2 * length l)%nat) as Hms.
  { intros l Hu. unfold measure. rewrite (unparsed_length _ _ Hu), Hqr. cbn. lia. }
  unfold parseInputBuffer. assert (cmds (cmd_queue c) = []) as Hq0 by apply Hn. rewrite Hq0, assert_true, bind_ok by done.
  destruct Hw as [l Hu Hm Ha Hreq HR|l Hu Hmid Hr HR].
  - rewrite (Hms l Hu). pose proof Hu as [[a Hv] _]. destruct l as [|x l0]; [by rewrite (view_end c a Hv) in Hin|].
    set (k := if x =? 42 then PROTO_REQ_MULTIBULK else PROTO_REQ_INLINE).
    assert ((if reqtype c =? 0 then ch ← ld (qb c) (qb_pos c); Ok (set_reqtype c (if ch =? 42 then PROTO_REQ_MULTIBULK else PROTO_REQ_INLINE)) else Ok c) =
      Ok (set_reqtype c k)) as ->.
    { rewrite (view_head c a x l0 Hv), bind_ok. case_if; [done|]. f_equal.
      assert (reqtype c = k) as <-; [|by destruct c].
      destruct Hreq as [Hr|[(Hr & l1 & [= -> _])|(Hr & x1 & l1 & [= <- _] & Hx)]]; [done|by rewrite Hr|].
      rewrite Hr. unfold k. by rewrite (proj2 (Z.eqb_neq _ _)). }
    rewrite bind_ok. set (c1 := set_reqtype c k). assert (unparsed c1 (x :: l0)) as Hu1 by done.
    assert (reqtype c1 = k) as Hr1 by done. rewrite Hr1. unfold k in Hr1 |- *. destruct (Z.eqb_spec x 42) as [->|Hx].
    + apply (multibulk_turn auth c1 u (42 :: l0)); try done; [left; eauto|]. intros d. rewrite HR. unfold todo. cbn. by rewrite Hm.
    + apply (inline_turn auth c1 u x l0); try done. intros d. rewrite HR. unfold request, ref_request. cbn.
      by rewrite (proj2 (Z.eqb_neq _ _)).
  - rewrite (Hms l Hu), Hr. cbn [Z.eqb PROTO_REQ_MULTIBULK]. rewrite bind_ok, Hr. cbn [Z.eqb PROTO_REQ_MULTIBULK PROTO_REQ_INLINE Pos.eqb].
    apply (multibulk_turn auth c u l); try done; [by right|]. intros d. rewrite HR. unfold todo. destruct Hmid as (? & _).
    by rewrite (proj2 (Z.eqb_neq _ _)) by lia.
Qed.

(** *** The buffer between turns *)
Definition release (c : client) : client := if is_shared c then resetSharedQueryBuf c else c.

Lemma release_moved c : (exists l, unparsed c l) -> moved c (release c) /\ cur (release c) = cur c /\ cmd_queue (release c) = cmd_queue c.
Proof.
  intros [l Hu]. unfold release. case_match; [|by split; [apply same_moved|]]. unfold resetSharedQueryBuf. pose proof Hu as [[a Hv] [Hby Hl]].
  rewrite (view_available c a l Hv). case_if; [by split; [apply same_moved|]|].
  split; [|done]. split; [|done]. intros l' Hu'. pose proof (unparsed_length c l Hu) as H1. rewrite (unparsed_length c l' Hu') in H1.
  pose proof (alen_nonneg l). assert (l' = []) as ->.
  { apply nil_length_inv. unfold alen in *. lia. }
  split; [|split; [constructor|done]]. exists []. by repeat split.
Qed.

Lemma measure_moved c c' l : moved c c' -> unparsed c l -> cmd_queue c' = cmd_queue c -> measure c' = measure c.
Proof.
  intros (Hun & _) Hu Hq. unfold measure, queue_rest. by rewrite Hq, (unparsed_length c l Hu), (unparsed_length c' l (Hun l Hu)).
Qed.

Lemma queued_inv auth c u : queued c u (queue_rest c) -> queue_ok c -> (queue_rest c <> [] -> auth = false) -> argv (cur c) = [] -> inv auth c u.
Proof.
  intros Hq Hok Hau Ha. split; [done|]. destruct (queue_rest c) as [|q qs] eqn:Hqr; [left|right; auto].
  split; [done|]. inversion Hq as [c0 l Hu Hm Hr Heq| | | |]; subst. by apply w_idle with u.
Qed.

Lemma inv_unparsed auth c u : inv auth c u -> exists l, unparsed c l.
Proof.
  intros (_ & [(_ & [l Hu _ _ _ _|l Hu _ _ _])|(_ & _ & Hq)]); [by exists l|by exists l|].
  destruct (queued_measure _ _ _ Hq) as (l & Hu & _). by exists l.
Qed.

Lemma queue_empty c : queue_ok c -> queue_rest c = [] -> no_queue c.
Proof.
  intros [H0|Hoff] Hr; [done|]. apply (f_equal length) in Hr. unfold queue_rest in Hr. rewrite length_drop in Hr. unfold alen in Hoff. cbn in Hr. lia.
Qed.

Lemma waiting_moved auth c c' u : moved c c' -> argv (cur c') = argv (cur c) -> cap_ok (cur c') (multibulklen c) = cap_ok (cur c) (multibulklen c) ->
  waiting auth c u -> waiting auth c' u.
Proof.
  intros (Hun & Hm & Hb & Hr) Ha Hcap. intros [l Hu H0 Ha0 Hrq HR|l Hu Hmid Hr0 HR].
  - apply w_idle with l; [by apply Hun|by rewrite Hm|by rewrite Ha| |done]. unfold req_ok. by rewrite Hr.
  - apply w_mid with l; [by apply Hun| |by rewrite Hr|].
    + unfold mid_ok in *. by rewrite Hm, Hb, Hcap.
    + intros d. unfold pend. by rewrite Hm, Hb, Ha.
Qed.

(** With nothing left to read and nothing queued, more is needed. *)
Lemma waiting_exhausted auth c u : waiting auth c u -> (qb_pos c <? alen (querybuf c)) = false -> request auth u = PMore.
Proof.
  assert (forall l, unparsed c l -> (qb_pos c <? alen (querybuf c)) = false -> l = []) as Hnil.
  { intros [|x l] [[a Hv] _] Hlt; [done|]. by rewrite (view_inside c a x l Hv) in Hlt. }
  intros [l Hu Hm _ _ HR|l Hu Hm _ HR] Hlt; specialize (HR []); rewrite (Hnil l Hu Hlt), app_nil_r in HR; rewrite HR; [done|].
  by apply pend_nil.
Qed.
End ahead.

(** ** Sessions *)
Section session.
Context {X : Type} `{Executor X} (max : Z) (Hmax : max < 2 ^ 62) (noinit : Z -> bytes) (Hnoinit : forall n, 0 <= n -> alen (noinit n) = n).

(** The client does not lose its authentication (no RESET, no change of the users). *)
Context (Hauth : forall x args, authRequired x = false -> authRequired (processCommand x args) = false).

Definition process_post (x : X) (u : bytes) (k : nat) (r : X * client) : Prop :=
  let '(x', c') := r in
  exists u', serves max x u x' u' /\ (exists l, unparsed c' l /\ (2 * length l <= k)%nat) /\
    (canParseCommand x' = true -> no_queue c' /\ waiting max (authRequired x') c' u').

Lemma stopped_loop fuel x c : canParseCommand x = false -> process_loop max noinit fuel x c = Ok (x, c).
Proof. intros Hx. destruct fuel; cbn [process_loop]; case_if; by rewrite ?Hx. Qed.

Lemma process_post_cmd x u args u' k r : canParseCommand x = true -> (forall d, request max (authRequired x) (u ++ d) = PCmd args (u' ++ d)) ->
  process_post (if alen args =? 0 then x else processCommand x args) u' k r -> process_post x u k r.
Proof.
  destruct r as [x' c']. intros Hc HR (u2 & Hs & Hpost). exists u2. split; [|done]. apply s_cmd with args u'; [done| |done].
  specialize (HR []). by rewrite !app_nil_r in HR.
Qed.

Lemma process_post_mono x u k k' r : process_post x u k r -> (k <= k')%nat -> process_post x u k' r.
Proof. destruct r as [x' c']. intros (u' & Hs & (l & Hu & Hl) & Hw) Hk. exists u'. split; [done|]. split; [exists l; split; [done|lia]|done]. Qed.

(** After a turn. *)
Lemma turned_spec fuel x u k c : canParseCommand x = true -> turned max (authRequired x) u k c -> (k <= fuel)%nat ->
  (forall x c u, inv max (authRequired x) c u -> (measure c < fuel)%nat -> exists r, process_loop max noinit fuel x c = Ok r /\ process_post x u (measure c) r) ->
  exists r, (let '(c, result) := handleParseResults c in
    match result with
    | PARSE_ERR => Ok (setProtocolError x, c)
    | PARSE_NEEDMORE => Ok (x, c)
    | PARSE_OK =>
        if alen (argv (cur c)) =? 0 then process_loop max noinit fuel x c
        else
          let c := if is_shared c then resetSharedQueryBuf c else c in
          let x := processCommand x (argv (cur c)) in
          if freed x then Ok (x, c) else process_loop max noinit fuel x (if blocked x then c else resetClient c)
    end) = Ok r /\ process_post x u k r.
Proof.
  intros Hc [e l He Hf Hu Hlk HE|l Hf Hok Hqr Hw Hu Hlk HM|l Hh Hok Hqr Hm Hu Hms HR|u' Hf Hok Hq Hau Hms HR] Hk IH.
  - rewrite (handle_error c (authRequired x) e He Hf). eexists. split; [done|]. exists u. split; [by apply s_err|]. split; [by exists l|].
    by rewrite error_stops.
  - rewrite (handle_more c (authRequired x) Hf). eexists. split; [done|]. exists u. split; [by apply s_more|].
    split; [by exists l|]. intros _. split; [by apply queue_empty|done].
  - rewrite Hh. set (c2 := set_reqtype (resetClient c) 0). assert (unparsed c2 l) as Hu2 by done. change (alen (argv (cur c2)) =? 0) with true. cbn [set_reqtype].
    destruct (IH x c2 l) as (r & -> & Hr).
    + split; [done|]. left. split; [done|]. apply w_idle with l; [done|done|done|by left|done].
    + change (measure c2) with (measure c). lia.
    + exists r. split; [done|]. apply (process_post_cmd x u [] l k); [done|done|]. apply (process_post_mono x l (measure c2)); [done|]. change (measure c2) with (measure c). lia.
  - rewrite (handle_completed c (authRequired x) Hf). destruct (alen (argv (cur c)) =? 0) eqn:Ha.
    + destruct (IH x c u') as (r & -> & Hr); [|lia|].
      { apply queued_inv; [done|done|done|]. destruct (argv (cur c)) as [|g gs]; [done|]. rewrite alen_cons in Ha. pose proof (alen_nonneg gs). cmp_prop. lia. }
      exists r. split; [done|]. apply (process_post_cmd x u (argv (cur c)) u' k); [done|done|rewrite Ha]. apply (process_post_mono x u' (measure c)); [done|lia].
    + destruct (queued_measure _ _ _ _ Hq) as (l & Hu & _).
      destruct (release_moved c) as (Hmv & Hcur & Hcq); [by exists l|]. cbn zeta. change (if is_shared c then resetSharedQueryBuf c else c) with (release c). rewrite Hcur.
      set (x' := processCommand x (argv (cur c))). set (c' := release c) in *. pose proof (proj1 Hmv l Hu) as Hu'.
      assert (forall c2, unparsed c2 l -> canParseCommand x' = false -> exists r, Ok (x', c2) = Ok r /\ process_post x u k r) as Hstop.
      { intros c2 Hu2 Hst. eexists. split; [done|]. apply (process_post_cmd x u (argv (cur c)) u' k); [done|done|]. rewrite Ha. fold x'.
        exists u'. split; [by apply s_stop|]. split; [exists l; split; [done|]|by rewrite Hst].
        unfold measure in Hms. rewrite (unparsed_length c l Hu) in Hms. lia. }
      destruct (freed x') eqn:Hfr; [apply Hstop; [done|by apply freed_stops]|].
      destruct (blocked x') eqn:Hbl; [rewrite stopped_loop by (by apply blocked_stops); apply Hstop; [done|by apply blocked_stops]|].
      set (c2 := resetClient c'). assert (moved c c2) as Hmv2 by done. assert (cmd_queue c2 = cmd_queue c) as Hcq2 by done.
      destruct (IH x' c2 u') as (r & -> & Hr).
      * assert (queue_rest c2 = queue_rest c) as Hqr2 by (unfold queue_rest; by rewrite Hcq2).
        apply queued_inv; [rewrite Hqr2; by apply (moved_queued max c)|unfold queue_ok; by rewrite Hcq2| |done].
        rewrite Hqr2. intros Hne. apply Hauth. auto.
      * rewrite (measure_moved c c2 l) by done. lia.
      * exists r. split; [done|]. apply (process_post_cmd x u (argv (cur c)) u' k); [done|done|rewrite Ha].
        apply (process_post_mono x' u' (measure c2)); [done|]. rewrite (measure_moved c c2 l) by done. lia.
Qed.

Lemma process_loop_spec fuel : forall x c u, inv max (authRequired x) c u -> (measure c < fuel)%nat ->
  exists r, process_loop max noinit fuel x c = Ok r /\ process_post x u (measure c) r.
Proof.
  induction fuel as [|fuel IH]; intros x c u Hinv Hf; [lia|]. cbn [process_loop].
  destruct (inv_unparsed _ _ _ _ Hinv) as (l & Hun). assert (2 * length l <= measure c)%nat as Hlm by (unfold measure; rewrite (unparsed_length c l Hun); lia). pose proof Hinv as (Hok & Hcase).
  destruct (canParseCommand x) eqn:Hx; cbn [negb].
  2:{ case_if; (eexists; split; [done|]); exists u; (split; [by apply s_stop|]); (split; [by exists l|by rewrite Hx]). }
  set (c1 := set_cur c (set_flags (cur c) (if authRequired x then READ_FLAGS_AUTH_REQUIRED else 0))).
  assert (same_parser c c1) as Hs by done. assert (p_read_flags (cur c1) = base_flags (authRequired x)) as Hf1 by done.
  assert (measure c1 = measure c) as Hms by done.
  destruct Hcase as [(Hqr & Hw)|(Hqr & Hau & Hq)].
  - pose proof (queue_empty c Hok Hqr) as Hnq. pose proof Hnq as [H0 Ho]. rewrite H0, Ho, orb_false_r.
    case_if.
    2:{ eexists. split; [done|]. exists u. split; [|by split; [exists l|]].
        apply s_more; [done|]. apply (waiting_exhausted max _ c); [done|by apply Z.ltb_ge]. }
    assert (consumeCommandQueue c1 = None) as -> by (unfold consumeCommandQueue; cbn; by rewrite H0, Ho).
    destruct (input_turn max Hmax noinit Hnoinit (authRequired x) c1 u) as (c2 & -> & Ht); [done|done| |by apply Z.ltb_lt|].
    { apply (waiting_moved max _ c); [by apply same_moved|done..]. }
    rewrite bind_ok. apply (turned_spec fuel x u (measure c1) c2); [done|done|lia|done].
  - destruct (queue_rest c) as [|q qs] eqn:Hqs; [done|].
    assert (off (cmd_queue c) < alen (cmds (cmd_queue c))) as Hoff.
    { destruct Hok as [[H0 _]|]; [|lia]. unfold queue_rest in Hqs. by rewrite H0, drop_nil in Hqs. }
    rewrite (proj2 (Z.ltb_lt (off _) _) Hoff), orb_true_r. rewrite Hau in Hf1.
    destruct (consume_spec max c1 u q qs) as (c2 & -> & Ht); [done|done|by apply (same_queued max c)|done|]. rewrite bind_ok. rewrite <- Hau in Ht.
    apply (turned_spec fuel x u (measure c1) c2); [done|done|lia|done].
Qed.

(** ** One read *)
Lemma trim_spec c l : unparsed c l -> exists c', trimClientQueryBuffer c = Ok c' /\ moved c c' /\ cur c' = cur c /\ cmd_queue c' = cmd_queue c /\
  querybuf c' = l /\ qb_pos c' = 0.
Proof.
  intros Hu. unfold trimClientQueryBuffer. fold (release c). destruct (release_moved c) as (Hmv & Hcur & Hq); [by exists l|].
  pose proof (proj1 Hmv l Hu) as Hu'. set (c1 := release c) in *. pose proof Hu' as [[a Hv] Hrest].
  rewrite assert_true, bind_ok by (apply Z.leb_le; by apply (view_pos c1 a l)). eexists. split; [done|].
  pose proof Hv as (Hqb & Hp & Hlen). pose proof (alen_nonneg a).
  assert (alen l < 2 ^ 62) by (rewrite alen_app in Hlen; lia).
  case_if.
  - assert (drop (Z.to_nat (qb_pos c1)) (querybuf c1) = l) as Hd by (by rewrite Hqb, Hp, drop_alen).
    rewrite Hd. split; [|done]. destruct Hmv as (Hun & Hm & Hb & Hr). split; [|done]. intros l' Hl'%Hun.
    pose proof Hl' as [[a' (Hqb' & Hp' & _)] _].
    assert (l' = l) as -> by (rewrite <- Hd, Hqb', Hp', drop_alen; done). split; [|done]. exists []. by repeat split.
  - assert (a = []) as ->.
    { destruct a as [|y a]; [done|]. rewrite alen_cons in *. pose proof (alen_nonneg a). lia. }
    done.
Qed.

Definition boundary (x : X) (c : client) (u : bytes) (n : Z) : Prop :=
  (canParseCommand x = true -> no_queue c /\ waiting max (authRequired x) c u /\ request max (authRequired x) u = PMore) /\
  qb_pos c = 0 /\ is_bytes (querybuf c) /\ alen (querybuf c) <= n.

Context (N : Z) (HN : N < 2 ^ 31) (Hlimit : forall x auth n, 0 <= n <= N -> qb_limit_reached x auth n = false).

Lemma serves_extend x u x1 u1 : serves max x u x1 u1 -> forall e x' u', canParseCommand x1 = true -> serves max x1 (u1 ++ e) x' u' ->
  serves max x (u ++ e) x' u'.
Proof.
  induction 1 as [x u Hc|x u Hc HM|x u Hc HE|x u args rest x1 u1 Hc HR Hs IH]; intros e x' u' H1 H2; [done|done|by rewrite error_stops in H1|].
  apply s_cmd with args (rest ++ e); [done|by apply ref_request_app|by apply IH].
Qed.

Lemma serves_more x u x1 u1 : serves max x u x1 u1 -> canParseCommand x1 = true -> request max (authRequired x1) u1 = PMore.
Proof. induction 1; intros Hc; [by rewrite Hc in *|done|by rewrite error_stops in Hc|auto]. Qed.

(** Appending what was read. *)
Lemma appended x c u n d : boundary x c u n -> is_bytes d -> n + alen d <= N -> canParseCommand x = true -> forall o,
  inv max (authRequired x) (set_buf c (querybuf c ++ d) o (qb_pos c)) (u ++ d).
Proof.
  intros (Hw & Hp & Hby & Hl) Hd Hn Hc o. destruct (Hw Hc) as (Hnq & Hwait & _). destruct (no_queue_facts c Hnq) as [Hok Hqr].
  split; [done|]. left. split; [done|]. set (c1 := set_buf _ _ _ _).
  assert (forall l, unparsed c l -> l = querybuf c) as Hl0.
  { intros l [[a (Hq & Hp' & _)] _]. rewrite Hq. rewrite Hp in Hp'. destruct a as [|y a]; [done|]. rewrite alen_cons in Hp'. pose proof (alen_nonneg a). lia. }
  assert (unparsed c1 (querybuf c ++ d)) as Hu1.
  { assert (alen (querybuf c ++ d) < 2 ^ 31) by (rewrite alen_app; lia). split; [|split; [by apply is_bytes_app|done]].
    exists []. split; [done|]. split; [done|]. cbn [app]. mach. }
  destruct Hwait as [l Hu Hm Ha Hrq HR|l Hu Hmid Hr HR]; pose proof (Hl0 l Hu) as ->.
  - apply w_idle with (querybuf c ++ d); [done|done|done| |by intros e; rewrite <- !app_assoc].
    destruct Hrq as [?|[(? & l1 & Hq)|(? & y & l1 & Hq & ?)]]; [by left|right; left|right; right]; (split; [done|]); rewrite Hq; eauto.
  - apply w_mid with (querybuf c ++ d); [done|done|done|]. intros e. rewrite <- !app_assoc. apply HR.
Qed.

Lemma read_spec x c u n d : boundary x c u n -> is_bytes d -> 0 <= n -> n + alen d <= N ->
  exists x' c' u', readQueryFromClient max noinit x c d = Ok (x', c') /\ (freed x' = false -> boundary x' c' u' (n + alen d)) /\
    (if canParseCommand x then serves max x (u ++ d) x' u' else x' = x).
Proof.
  intros Hbd Hd H0 Hn. pose proof Hbd as (Hw & Hp & Hby & Hl). unfold readQueryFromClient. set (o := match qb_owner c with NoBuffer => _ | o => o end).
  set (c1 := set_buf c (querybuf c ++ d) o (qb_pos c)). assert (alen (querybuf c1) = alen (querybuf c) + alen d) as Hlen by (apply alen_app).
  pose proof (alen_nonneg (querybuf c)). pose proof (alen_nonneg d). rewrite Hlimit by lia.
  assert (unparsed c1 (querybuf c ++ d)) as Hu1.
  { assert (alen (querybuf c ++ d) < 2 ^ 31) by (rewrite alen_app; lia). split; [|split; [by apply is_bytes_app|done]].
    exists []. split; [done|]. split; [done|]. cbn [app]. mach. }
  assert (exists x' c' u', processInputBuffer max noinit x c1 = Ok (x', c') /\ (exists l, unparsed c' l /\ (length l <= length (querybuf c ++ d))%nat) /\
    (canParseCommand x' = true -> no_queue c' /\ waiting max (authRequired x') c' u') /\
    (if canParseCommand x then serves max x (u ++ d) x' u' else x' = x)) as (x' & c' & u' & Hrun & (l & Hu & Hll) & Hpost & Hserve).
  { unfold processInputBuffer. destruct (canParseCommand x) eqn:Hc.
    - pose proof (appended x c u n d Hbd Hd Hn Hc o) as Hinv. fold c1 in Hinv.
      destruct (process_loop_spec (S (2 * length (querybuf c1) + length (cmds (cmd_queue c1)))) x c1 (u ++ d) Hinv) as ([x' c'] & Hr & u' & Hs & (l & Hu & Hl2) & Hpost).
      { unfold measure, queue_rest. rewrite length_drop. lia. }
      exists x', c', u'. split; [done|]. split; [exists l; split; [done|]|done]. unfold measure in Hl2.
      destruct (Hw eq_refl) as [Hnq _]. assert (no_queue c1) as Hnq1 by done. destruct (no_queue_facts c1 Hnq1) as [_ Hqr].
      rewrite Hqr, (unparsed_length c1 _ Hu1) in Hl2. cbn [length] in Hl2. lia.
    - rewrite stopped_loop by done. exists x, c1, u. split; [done|]. split; [by exists (querybuf c ++ d)|]. by rewrite Hc. }
  rewrite Hrun, bind_ok. destruct (freed x') eqn:Hfr.
  { exists x', c', u'. split; [done|]. split; [congruence|done]. }
  set (c2 := set_queue c' (trimCommandQueue (cmd_queue c'))).
  destruct (trim_spec c2 l) as (c3 & Hc3 & Hmv & Hcur & Hq3 & Hqb & Hp3); [done|]. rewrite Hc3. exists x', c3, u'. split; [done|]. split; [|done].
  intros _. split; [|split; [done|]].
  - intros Hc'. destruct (Hpost Hc') as [[Hq0 Ho0] Hwait]. split; [|split].
    + unfold no_queue. rewrite Hq3. cbn. unfold trimCommandQueue. rewrite Hq0. by repeat case_if.
    + apply (waiting_moved max _ c2); [done|by rewrite Hcur|by rewrite Hcur|]. by apply (waiting_moved max _ c').
    + destruct (canParseCommand x) eqn:Hc; [by apply (serves_more x (u ++ d))|]. subst x'. by rewrite Hc in Hc'.
  - rewrite Hqb. destruct Hu as (_ & Hbl & _). split; [done|]. rewrite length_app in Hll. unfold alen in *. lia.
Qed.

Lemma session_spec : forall reads x c u n, boundary x c u n -> Forall is_bytes reads -> 0 <= n -> n + alen (concat reads) <= N ->
  exists x' c', session max noinit x c reads = Ok (x', c') /\
    if canParseCommand x then exists r1 r2 u', reads = r1 ++ r2 /\ serves max x (u ++ concat r1) x' u' /\ (canParseCommand x' = true -> r2 = [])
    else x' = x.
Proof.
  induction reads as [|d reads IH]; intros x c u n Hbd Hby H0 Hn.
  - exists x, c. split; [done|]. destruct (canParseCommand x) eqn:Hc; [|done]. exists [], [], u. split; [done|]. cbn. rewrite app_nil_r. split; [|done].
    apply s_more; [done|]. destruct Hbd as (Hw & _). by destruct (Hw Hc) as (_ & _ & ?).
  - apply Forall_cons in Hby as [Hd Hby]. cbn [concat] in Hn. rewrite alen_app in Hn. pose proof (alen_nonneg (concat reads)). pose proof (alen_nonneg d).
    destruct (read_spec x c u n d Hbd Hd H0) as (x1 & c1 & u1 & Hr & Hbd1 & Hs1); [lia|]. cbn [session]. rewrite Hr, bind_ok.
    destruct (freed x1) eqn:Hfr.
    { exists x1, c1. split; [done|]. destruct (canParseCommand x); [|done]. exists [d], reads, u1. split; [done|]. cbn. rewrite app_nil_r.
      split; [done|]. by rewrite freed_stops. }
    destruct (IH x1 c1 u1 (n + alen d) (Hbd1 eq_refl) Hby) as (x' & c' & Hrun & Hres); [lia|lia|]. exists x', c'. split; [done|].
    destruct (canParseCommand x) eqn:Hc; [|subst x1; by rewrite Hc in Hres].
    destruct (canParseCommand x1) eqn:Hc1.
    + destruct Hres as (r1 & r2 & u' & -> & Hs & Hend). exists (d :: r1), r2, u'. split; [done|]. split; [|done].
      cbn [concat]. rewrite app_assoc. by apply (serves_extend x (u ++ d) x1 u1).
    + subst x'. exists [d], reads, u1. split; [done|]. cbn. rewrite app_nil_r. split; [done|]. by rewrite Hc1.
Qed.

Lemma new_boundary x : boundary x new_client [] 0.
Proof.
  split; [|split; [done|split; [constructor|done]]]. intros _. split; [done|]. split; [|done].
  apply w_idle with []; [|done|done|by left|done]. split; [by exists []|]. split; [constructor|done].
Qed.
End session.
