(* ===== verification/RespTrip.v ===== *)
(** * Round trip of requests

    Requests written for the append-only file (aof.c) and read by the request
    parser, whatever the pieces they arrive in, and the theorems of the parser. *)
From S2P Require Import Prelude ByteMem IntString SplitArgs Resp RespRefine RespServe.

(** ** Requests as the server writes them *)
Definition encode_arg (a : bytes) : bytes := 36 :: decimal (alen a) ++ 13 :: 10 :: a ++ [13; 10].

Definition encode (args : list bytes) : bytes := 42 :: decimal (alen args) ++ 13 :: 10 :: concat (map encode_arg args).

Lemma count_line_decimal buf ch v : alen buf = 31 -> 0 <= v < 2 ^ 63 -> count_line buf ch v = ch :: decimal v ++ [13; 10].
Proof.
  intros Hb Hv. unfold count_line. destruct (ll2string buf 31 v) as [len b] eqn:Hll. pose proof (sdigits10_bound v ltac:(lia)).
  destruct (ll2string_decimal buf 31 v len b) as (_ & -> & _); [lia|lia|done|lia|done].
Qed.

Lemma catAppendOnlyGenericCommand_encode buf dst args : alen buf = 31 -> alen args < 2 ^ 63 -> Forall (fun a => alen a < 2 ^ 63) args ->
  catAppendOnlyGenericCommand buf dst args = dst ++ encode args.
Proof.
  intros Hb Hn Ha. unfold catAppendOnlyGenericCommand, encode. pose proof (alen_nonneg args). rewrite count_line_decimal by lia.
  assert (forall acc, fold_left (fun dst o => dst ++ count_line buf 36 (alen o) ++ o ++ [13; 10]) args acc =
    acc ++ concat (map encode_arg args)) as Hf.
  { clear Hn H. induction Ha as [|a args Ha Hargs IH]; intros acc; cbn [fold_left map concat]; [by rewrite app_nil_r|].
    pose proof (alen_nonneg a). rewrite IH, count_line_decimal by (done || lia). by list_simplifier. }
  rewrite Hf. by list_simplifier.
Qed.

Lemma split_cr_line w b : 13 ∉ w -> split_cr (w ++ 13 :: b) = Some (w, b).
Proof.
  induction w as [|x w IH]; intros Hw; [done|]. apply not_elem_of_cons in Hw as [Hx Hw]. cbn.
  rewrite (proj2 (Z.eqb_neq x 13)) by done. by rewrite IH.
Qed.

Lemma decimal_no_cr v : 0 <= v -> 13 ∉ decimal v.
Proof.
  intros Hv. rewrite decimal_cases, (proj2 (Z.ltb_ge _ _)) by done. unfold magnitude. intros Hin.
  pose proof (all_digits_of (Z.to_nat (digits10 v)) v) as Hd. unfold all_digits in Hd. rewrite forallb_forall in Hd.
  apply list_elem_of_In in Hin. by specialize (Hd 13 Hin).
Qed.

Lemma ref_line_decimal f v r : f <> 13 -> 0 <= v < 2 ^ 63 -> ref_line f (f :: decimal v ++ 13 :: 10 :: r) = LNum v r.
Proof.
  intros Hf Hv. unfold ref_line. rewrite app_comm_cons, split_cr_line.
  2:{ apply not_elem_of_cons. split; [done|]. apply decimal_no_cr. lia. }
  rewrite Z.eqb_refl. cbn. by rewrite scalar_is_ref, parse_ref_decimal by lia.
Qed.

Definition arg_fits (max : Z) (auth : bool) (a : bytes) : Prop := alen a <= max /\ (auth = true -> alen a <= 16384).

Definition fits (max : Z) (auth : bool) (args : list bytes) : Prop :=
  1 <= alen args <= INT_MAX /\ (auth = true -> alen args <= 10) /\ Forall (arg_fits max auth) args.

Lemma fits_length max auth a : arg_fits max auth a -> bad_len max auth (alen a) = false.
Proof.
  intros [Ha Hau]. pose proof (alen_nonneg a). unfold bad_len. rewrite (proj2 (Z.ltb_ge _ 0)), (proj2 (Z.ltb_ge max _)) by lia. cbn [orb].
  destruct auth; [|by rewrite andb_false_r]. rewrite (proj2 (Z.ltb_ge _ _)); [done|]. auto.
Qed.

(** An argument read back. *)
Lemma bulks_arg max auth n acc a r : 0 <= n -> max < 2 ^ 62 -> arg_fits max auth a ->
  bulks max auth (1 + n) (- 1) acc (encode_arg a ++ r) = bulks max auth n (- 1) (acc ++ [a]) r.
Proof.
  intros Hn Hmax Ha. pose proof (alen_nonneg a). unfold encode_arg. list_simplifier.
  assert (alen a + 2 <= alen (a ++ 13 :: 10 :: r)) by (rewrite alen_app, !alen_cons; pose proof (alen_nonneg r); lia).
  rewrite (bulks_header max auth _ _ _ (alen a) (a ++ 13 :: 10 :: r)); [|lia|destruct Ha; apply ref_line_decimal; lia|by apply fits_length].
  rewrite bulks_body by lia. rewrite drop_alen. cbn [after_crlf Z.eqb Pos.eqb andb]. replace (Z.to_nat (alen a)) with (length a) by (unfold alen; lia). rewrite take_app_length.
  by replace (1 + n - 1) with n by lia.
Qed.

Lemma bulks_encode max auth args : max < 2 ^ 62 -> Forall (arg_fits max auth) args -> forall acc r,
  bulks max auth (alen args) (- 1) acc (concat (map encode_arg args) ++ r) = PCmd (acc ++ args) r.
Proof.
  intros Hmax. induction 1 as [|a args Ha _ IH]; intros acc r; cbn [map concat app].
  { rewrite bulks_unfold. change (alen (@nil bytes) =? 0) with true. by rewrite app_nil_r. }
  rewrite alen_cons, <- app_assoc, bulks_arg, IH, <- app_assoc; [done|apply alen_nonneg|done|done].
Qed.

Lemma fits_count max auth args : fits max auth args ->
  ((INT_MAX <? alen args) || ((10 <? alen args) && auth)) = false /\ (alen args <=? 0) = false.
Proof.
  intros ((H1 & H2) & Hau & _). rewrite (proj2 (Z.ltb_ge INT_MAX _)), (proj2 (Z.leb_gt _ 0)) by lia. split; [|done]. cbn [orb].
  destruct auth; [|by rewrite andb_false_r]. rewrite (proj2 (Z.ltb_ge _ _)); [done|]. auto.
Qed.

Lemma request_encode max auth args r : max < 2 ^ 62 -> fits max auth args -> ref_request max auth (encode args ++ r) = PCmd args r.
Proof.
  intros Hmax Hfit. pose proof Hfit as ((H1 & H2) & _ & Ha). unfold INT_MAX in H2. unfold encode. rewrite <- app_comm_cons. unfold ref_request. cbn [Z.eqb Pos.eqb].
  unfold ref_multibulk. rewrite <- app_assoc. cbn [app]. rewrite ref_line_decimal by lia. destruct (fits_count _ _ _ Hfit) as [-> ->]. by rewrite bulks_encode.
Qed.

(** ** Prefixes of what is written are no errors *)
Lemma split_cr_none l : 13 ∉ l -> split_cr l = None.
Proof.
  induction l as [|x l IH]; intros Hl; [done|]. apply not_elem_of_cons in Hl as [Hx Hl]. cbn.
  rewrite (proj2 (Z.eqb_neq x 13)) by done. by rewrite IH.
Qed.

Lemma ref_line_open f l : 13 ∉ l -> alen l <= 65536 -> ref_line f l = LMore.
Proof. intros Hl Hn. unfold ref_line. rewrite split_cr_none by done. by rewrite (proj2 (Z.ltb_ge _ _)). Qed.

Lemma ref_line_prefix f w l d r : 13 ∉ w -> alen w <= 65536 -> l ++ d = w ++ [13; 10] ++ r ->
  ref_line f l = LMore \/ exists r', l = w ++ [13; 10] ++ r' /\ r' ++ d = r.
Proof.
  intros Hw Hn Heq. rewrite app_assoc in Heq. apply app_eq_app in Heq as (k & [[-> ->]|[Heq ->]]).
  { right. exists k. by rewrite app_assoc. }
  apply app_eq_app in Heq as (k' & [[-> _]|[-> Heq]]).
  - left. apply ref_line_open; [by rewrite elem_of_app in Hw; tauto|]. rewrite alen_app in Hn. pose proof (alen_nonneg k'). lia.
  - destruct k' as [|y [|z k']].
    + left. rewrite app_nil_r. by apply ref_line_open.
    + injection Heq as <- _. left. unfold ref_line. rewrite split_cr_line by done. by destruct w.
    + injection Heq as <- <- Heq. symmetry in Heq. apply app_nil in Heq as [-> ->]. right. by exists [].
Qed.

(** The line of a count: the first character and the digits. *)
Lemma count_prefix f v l d r : f <> 13 -> 0 <= v < 2 ^ 63 -> l ++ d = f :: decimal v ++ 13 :: 10 :: r ->
  ref_line f l = LMore \/ exists r', l = f :: decimal v ++ 13 :: 10 :: r' /\ r' ++ d = r.
Proof.
  intros Hf Hv Heq. apply (ref_line_prefix f (f :: decimal v)); [| |done].
  - apply not_elem_of_cons. split; [done|]. apply decimal_no_cr. lia.
  - pose proof (sdigits10_bound v ltac:(lia)). rewrite alen_cons, length_decimal; lia.
Qed.

Lemma bulks_arg_prefix max auth n acc a r p q : 0 <= n -> max < 2 ^ 62 -> arg_fits max auth a -> p ++ q = encode_arg a ++ r ->
  bulks max auth (1 + n) (- 1) acc p = PMore \/ exists r', p = encode_arg a ++ r' /\ r' ++ q = r.
Proof.
  intros Hn Hmax Ha Heq. pose proof (alen_nonneg a). unfold encode_arg in Heq. list_simplifier.
  destruct (count_prefix 36 (alen a) p q (a ++ 13 :: 10 :: r)) as [Hm|(p' & -> & Heq')]; [done|destruct Ha; lia|done|left; apply bulks_more; [lia|done]|].
  destruct (Z.ltb_spec (alen p') (alen a + 2)) as [Hs|Hl].
  - left. rewrite (bulks_header max auth _ _ _ (alen a) p'); [by apply bulks_short; lia|lia|destruct Ha; apply ref_line_decimal; lia|by apply fits_length].
  - right. change (a ++ 13 :: 10 :: r) with (a ++ [13; 10] ++ r) in Heq'. rewrite app_assoc in Heq'.
    assert (alen (a ++ [13; 10]) = alen a + 2) as Hc by (by rewrite alen_app).
    apply app_eq_inv in Heq' as [(k & -> & ->)|(k & Hp & ->)].
    + exists k. split; [|done]. unfold encode_arg. by list_simplifier.
    + rewrite Hp, alen_app in Hc. assert (k = []) as ->.
      { destruct k; [done|]. rewrite alen_cons in Hc. pose proof (alen_nonneg k). lia. }
      exists []. split; [|done]. unfold encode_arg. rewrite app_nil_r in Hp. rewrite <- Hp. by list_simplifier.
Qed.

Lemma bulks_prefix max auth args : max < 2 ^ 62 -> Forall (arg_fits max auth) args ->
  forall acc p q, p ++ q = concat (map encode_arg args) -> q <> [] -> bulks max auth (alen args) (- 1) acc p = PMore.
Proof.
  intros Hmax. induction 1 as [|a args Ha _ IH]; intros acc p q Heq Hq.
  { by apply app_nil in Heq as [_ ->]. }
  pose proof (alen_nonneg args). cbn [map concat] in Heq. rewrite alen_cons.
  destruct (bulks_arg_prefix max auth (alen args) acc a (concat (map encode_arg args)) p q) as [?|(p' & -> & Heq')]; [done|done|done|done|done|].
  rewrite bulks_arg by done. by apply (IH _ p' q).
Qed.

Lemma request_prefix max auth args p q : max < 2 ^ 62 -> fits max auth args -> p ++ q = encode args -> q <> [] ->
  ref_request max auth p = PMore.
Proof.
  intros Hmax Hfit Heq Hq. pose proof Hfit as ((H1 & H2) & Hau & Ha). unfold INT_MAX in H2. destruct p as [|c p]; [done|]. unfold encode in Heq. pose proof Heq as [= -> _].
  unfold ref_request. cbn [Z.eqb Pos.eqb]. unfold ref_multibulk.
  destruct (count_prefix 42 (alen args) (42 :: p) q (concat (map encode_arg args))) as [->|(p' & Hp & Heq')]; [done|lia|done|done|].
  rewrite Hp, ref_line_decimal by lia. destruct (fits_count _ _ _ Hfit) as [-> ->]. by apply (bulks_prefix max auth args Hmax Ha [] p' q).
Qed.

(** ** A server that logs *)

(** The commands executed, and whether the client is blocked or closing;
    [block] is the command that blocks it. *)
Record logger := mkLogger { log : list (list bytes); blk : bool; closing : bool }.

Definition block : list bytes := [[66; 76; 79; 67; 75]].

#[refine, export] Instance logging : Executor logger := {
  authRequired _ := false;
  canParseCommand x := negb (blk x) && negb (closing x);
  blocked := blk;
  freed _ := false;
  processCommand x args := mkLogger (log x ++ [args]) (bool_decide (args = block)) (closing x);
  setProtocolError x := mkLogger (log x) (blk x) true;
  freeClientAsync x := mkLogger (log x) (blk x) true;
  unblock x := mkLogger (log x) false (closing x);
  client_max_querybuf_len _ := 2 ^ 30;
  mstate_argv_len_sums _ := 0
}.
Proof. all: try done; intros [? [] ?]; done. Defined.

Definition zeroes (n : Z) : bytes := repeat 0 (Z.to_nat n).

Lemma alen_zeroes n : 0 <= n -> alen (zeroes n) = n.
Proof. intros Hn. unfold zeroes, alen. rewrite repeat_length. lia. Qed.

Lemma logger_limit (y : logger) auth n : 0 <= n <= 1000 -> qb_limit_reached y auth n = false.
Proof.
  intros Hn. unfold qb_limit_reached. cbn. rewrite Z.add_0_r, wrap_small by mach. by rewrite !(proj2 (Z.ltb_ge _ n)) by lia.
Qed.

(** ** Encoded requests are served *)
Section trip.
Context {X : Type} `{Executor X} (max : Z) (Hmax : max < 2 ^ 62).
Context (Hauth : forall x args, authRequired x = false -> authRequired (processCommand x args) = false).

(** The client can still parse after each of the commands. *)
Fixpoint accepts (x : X) (cmds : list (list bytes)) : bool :=
  canParseCommand x && match cmds with [] => true | args :: cmds => accepts (processCommand x args) cmds end.

Lemma serves_encoded s x x' u' : serves max x s x' u' -> forall cmds q, authRequired x = false -> accepts x cmds = true ->
  Forall (fits max false) cmds -> s ++ q = concat (map encode cmds) ->
  canParseCommand x' = true /\ (q = [] -> x' = fold_left processCommand cmds x).
Proof.
  assert (forall x cmds, accepts x cmds = true -> canParseCommand x = true) as Hacc by (intros y [|a cmds]; cbn; by intros [? _]%andb_prop).
  assert (forall cmds p q, Forall (fits max false) cmds -> p ++ q = concat (map encode cmds) ->
    (ref_request max false p = PMore /\ (q = [] -> cmds = [])) \/
    exists args cmds' p', cmds = args :: cmds' /\ fits max false args /\ Forall (fits max false) cmds' /\
      ref_request max false p = PCmd args p' /\ p' ++ q = concat (map encode cmds')) as Hhead.
  { intros [|args cmds] p q Hfit Heq; cbn [map concat] in Heq; [apply app_nil in Heq as [-> ->]; by left|].
    apply Forall_cons in Hfit as [Hf Hfs]. apply app_eq_inv in Heq as [(k & -> & Hk)|(k & Hk & ->)].
    - right. exists args, cmds, k. by rewrite request_encode.
    - destruct k as [|y k].
      + right. exists args, cmds, []. rewrite app_nil_r in Hk. subst p. pose proof (request_encode max false args [] Hmax Hf) as Hr.
        by rewrite app_nil_r in Hr.
      + left. split; [by apply (request_prefix max false args p (y :: k))|done]. }
  induction 1 as [x u Hc|x u Hc HM|x u Hc HE|x u a rest x1 u1 Hc HR Hs IH]; intros cmds q Ha Hac Hfit Heq.
  - apply Hacc in Hac. congruence.
  - split; [done|]. intros ->. rewrite Ha in HM. destruct (Hhead cmds u [] Hfit Heq) as [[_ Hn]|(a & c' & p' & _ & _ & _ & HR & _)]; [by rewrite Hn|congruence].
  - rewrite Ha in HE. destruct (Hhead cmds u q Hfit Heq) as [[HR _]|(a & c' & p' & _ & _ & _ & HR & _)]; congruence.
  - rewrite Ha in HR. destruct (Hhead cmds u q Hfit Heq) as [[HR' _]|(a' & c' & p' & -> & Hf & Hfs & HR' & Heq')]; [congruence|].
    assert (a' = a /\ p' = rest) as [-> ->] by (split; congruence).
    assert ((alen a =? 0) = false) as Ha0 by (destruct Hf as ((? & _) & _); by apply Z.eqb_neq; lia).
    rewrite Ha0 in *. cbn in Hac. apply andb_prop in Hac as [_ Hac]. cbn [fold_left]. apply (IH c' q); auto.
Qed.

Lemma written_requests buf cmds : alen buf = 31 -> Forall (fits max false) cmds -> forall dst,
  fold_left (catAppendOnlyGenericCommand buf) cmds dst = dst ++ concat (map encode cmds).
Proof.
  intros Hb. induction 1 as [|args cmds ((? & H1) & _ & Ha) _ IH]; intros dst; cbn [fold_left map concat]; [by rewrite app_nil_r|].
  unfold INT_MAX in H1. rewrite IH, catAppendOnlyGenericCommand_encode; [by rewrite <- app_assoc|done|lia|].
  apply (Forall_impl _ _ _ Ha). intros a [? _]. lia.
Qed.
End trip.

(** ** The theorems *)

(** [x'] is what the reference server makes of the reads, up to the one after
    which the client can no longer parse commands. *)
Definition served {X} `{Executor X} (max : Z) (x : X) (reads : list bytes) (x' : X) : Prop :=
  exists r1 r2, reads = r1 ++ r2 /\ x' = fst (serve_all max x (concat r1)) /\ (canParseCommand x' = true -> r2 = []).

(** C2. The request parser serves the stream, not the reads: whatever the pieces
    in which a connection delivers bytes, with requests parsed ahead, arguments
    built in the buffer or over several reads and the buffer trimmed in between,
    no access leaves the buffer, no assertion fails, and the commands executed
    and the protocol error reported are those of the reference server, which
    takes complete requests off the concatenation of the reads; it stops before
    the end only when the client can no longer parse commands. *)
Theorem resp_session_serves {X} `{Executor X} (max : Z) (noinit : Z -> bytes) (x : X) (reads : list bytes) :
  max < 2 ^ 62 -> (forall n, 0 <= n -> alen (noinit n) = n) ->
  (forall y args, authRequired y = false -> authRequired (processCommand y args) = false) ->
  Forall is_bytes reads -> alen (concat reads) < 2 ^ 31 ->
  (forall y auth n, 0 <= n <= alen (concat reads) -> qb_limit_reached y auth n = false) ->
  exists x' c', session max noinit x new_client reads = Ok (x', c') /\ served max x reads x'.
Proof.
  intros Hmax Hno Hauth Hby HN Hlim. pose proof (alen_nonneg (concat reads)).
  destruct (session_spec max Hmax noinit Hno Hauth (alen (concat reads)) HN Hlim reads x new_client [] 0) as (x' & c' & Hrun & Hres); [|done|done|lia|].
  { by apply new_boundary. }
  exists x', c'. split; [done|]. destruct (canParseCommand x) eqn:Hc.
  - destruct Hres as (r1 & r2 & u' & -> & Hs & Hend). exists r1, r2. split; [done|]. split; [|done]. by rewrite (serves_all max x (concat r1) x' u').
  - subst x'. exists [], reads. split; [done|]. rewrite Hc. split; [|done]. unfold serve_all. cbn. by rewrite Hc.
Qed.

(** [*2 $4 ECHO $2 hi] in three pieces, an inline [PING], and an error. *)
Definition pieces : list bytes :=
  [ [42; 50; 13; 10; 36; 52; 13; 10; 69; 67]; [72; 79; 13; 10; 36; 50; 13]; [10; 104; 105; 13; 10; 80; 73; 78; 71; 10; 42; 49]; [13; 10; 88]; [13; 10]; [89] ].

Lemma resp_session_serves_witness :
  exists x' c', session (2 ^ 29) zeroes (mkLogger [] false false) new_client pieces = Ok (x', c') /\
    served (2 ^ 29) (mkLogger [] false false) pieces x'.
Proof.
  apply (resp_session_serves (2 ^ 29) zeroes).
  - done.
  - apply alen_zeroes.
  - done.
  - unfold pieces, is_bytes. repeat constructor; lia.
  - by vm_compute.
  - intros y auth n Hn. apply logger_limit. split; [lia|]. etransitivity; [apply Hn|by vm_compute].
Defined.

(** What the witness computes: two commands, then the error. *)
Lemma pieces_served : exists c', session (2 ^ 29) zeroes (mkLogger [] false false) new_client pieces =
  Ok (mkLogger [[[69; 67; 72; 79]; [104; 105]]; [[80; 73; 78; 71]]] false true, c').
Proof. eexists. by vm_compute. Qed.

(** C3. Round trip: commands written with [catAppendOnlyGenericCommand], one
    after the other, and delivered to the request parser in any pieces, are
    executed exactly, in order. *)
Theorem resp_round_trip {X} `{Executor X} (max : Z) (noinit : Z -> bytes) (buf : bytes) (x : X) (cmds : list (list bytes)) (reads : list bytes) :
  max < 2 ^ 62 -> (forall n, 0 <= n -> alen (noinit n) = n) -> alen buf = 31 ->
  (forall y args, authRequired y = false -> authRequired (processCommand y args) = false) ->
  Forall is_bytes reads -> alen (concat reads) < 2 ^ 31 ->
  (forall y auth n, 0 <= n <= alen (concat reads) -> qb_limit_reached y auth n = false) ->
  Forall (fits max false) cmds -> authRequired x = false -> accepts x cmds = true ->
  concat reads = fold_left (catAppendOnlyGenericCommand buf) cmds [] ->
  exists c', session max noinit x new_client reads = Ok (fold_left processCommand cmds x, c').
Proof.
  intros Hmax Hno Hb Hauth Hby HN Hlim Hfit Ha Hacc Heq. rewrite (written_requests max Hmax) in Heq by done. pose proof (alen_nonneg (concat reads)).
  destruct (session_spec max Hmax noinit Hno Hauth (alen (concat reads)) HN Hlim reads x new_client [] 0) as (x' & c' & Hrun & Hres); [|done|done|lia|].
  { by apply new_boundary. }
  assert (canParseCommand x = true) as Hc by (destruct cmds; by apply andb_prop in Hacc as [? _]).
  rewrite Hc in Hres. destruct Hres as (r1 & r2 & u' & -> & Hs & Hend). rewrite concat_app in Heq.
  destruct (serves_encoded max Hmax Hauth (concat r1) x x' u' Hs cmds (concat r2) Ha Hacc Hfit Heq) as [Hc' Hx']. exists c'.
  rewrite Hrun, Hx'; [done|]. by rewrite (Hend Hc').
Qed.

Definition two_commands : list (list bytes) := [[[83; 69; 84]; [107]; []]; [[71; 69; 84]; [107]]].

Lemma resp_round_trip_witness :
  exists c', session (2 ^ 29) zeroes (mkLogger [] false false) new_client (map (fun b => [b]) (fold_left (catAppendOnlyGenericCommand (zeroes 31)) two_commands [])) =
    Ok (mkLogger two_commands false false, c').
Proof.
  change (mkLogger two_commands false false) with (fold_left processCommand two_commands (mkLogger [] false false)).
  apply (resp_round_trip (X := logger) (2 ^ 29) zeroes (zeroes 31) (mkLogger [] false false) two_commands).
  - done.
  - apply alen_zeroes.
  - done.
  - done.
  - vm_compute. repeat constructor; done.
  - by vm_compute.
  - intros y auth n Hn. apply logger_limit. split; [lia|]. etransitivity; [apply Hn|by vm_compute].
  - unfold two_commands, fits, arg_fits. repeat constructor; done.
  - done.
  - done.
  - by vm_compute.
Defined.

(** ** Requests that wait

    A request parsed ahead only in part, behind a command that blocks; the rest
    arrives while the client is blocked.  When it is unblocked, the part is taken
    from the queue and the buffer is not looked at: the request is complete,
    the client can parse commands and is not blocked, and nothing happens until
    the client sends something more. *)
Definition wait_reads : list bytes := [encode block ++ take 2 (encode [[71; 69; 84]; [107]]); drop 2 (encode [[71; 69; 84]; [107]])].

Definition wait_run : res (logger * client) :=
  '(x, c) ← session (2 ^ 29) zeroes (mkLogger [] false false) new_client wait_reads;
  processUnblockedClient (2 ^ 29) zeroes x c.

Lemma unblocked_client_waits :
  exists c, wait_run = Ok (mkLogger [block] false false, c) /\ canParseCommand (mkLogger [block] false false) = true /\
  concat wait_reads = encode block ++ encode [[71; 69; 84]; [107]] /\
  ref_request (2 ^ 29) false (encode [[71; 69; 84]; [107]]) = PCmd [[71; 69; 84]; [107]] [].
Proof. eexists. split; [by vm_compute|]. by vm_compute. Qed.
