(* ===== verification/Listpack.v ===== *)
(** * Listpacks (src/src/listpack.c): definitions

    A listpack is one block: a 6-byte header (total bytes, number of elements
    or 65535 for "unknown"), the entries, and an EOF byte.  An entry is its
    encoding followed by the length of the encoding written so that it can be
    read backwards.  The model works on the bytes of the block: pointers are
    offsets from its start, every load and store is checked against the block
    ([ByteMem]), asserts are outcomes, and the usable size of the allocation
    is the length of the byte list.  [lp_malloc] and [lp_realloc] are
    arguments; their blocks may be longer than asked for, and what new bytes
    hold is not known. *)
From S2P Require Import Prelude IntString ByteMem.

Definition LP_HDR_SIZE : Z := 6.
Definition LP_HDR_NUMELE_UNKNOWN : Z := 65535.
Definition LP_EOF : Z := 255.
Definition LP_INTBUF_SIZE : Z := 21.
Definition LISTPACK_MAX_SAFETY_SIZE : Z := 1073741824.
Definition UINT32_MAX : Z := 4294967295.
Definition UINT16_MAX : Z := 65535.

(** ** Encoding of the first byte

    The cascade of [LP_ENCODING_IS_...] tests, in the order in which
    [lpCurrentEncodedSizeUnsafe], [lpCurrentEncodedSizeBytes] and
    [lpGetWithSize] make them. *)
Inductive lpenc :=
  | ENC_7BIT_UINT | ENC_6BIT_STR | ENC_13BIT_INT | ENC_16BIT_INT | ENC_24BIT_INT
  | ENC_32BIT_INT | ENC_64BIT_INT | ENC_12BIT_STR | ENC_32BIT_STR | ENC_EOF | ENC_BAD.

Definition lp_encoding (b : Z) : lpenc :=
  if Z.land b 128 =? 0 then ENC_7BIT_UINT
  else if Z.land b 192 =? 128 then ENC_6BIT_STR
  else if Z.land b 224 =? 192 then ENC_13BIT_INT
  else if Z.land b 255 =? 241 then ENC_16BIT_INT
  else if Z.land b 255 =? 242 then ENC_24BIT_INT
  else if Z.land b 255 =? 243 then ENC_32BIT_INT
  else if Z.land b 255 =? 244 then ENC_64BIT_INT
  else if Z.land b 240 =? 224 then ENC_12BIT_STR
  else if Z.land b 255 =? 240 then ENC_32BIT_STR
  else if b =? LP_EOF then ENC_EOF
  else ENC_BAD.

(** ** Header *)
Definition lpGetTotalBytes (m : bytes) : res Z := b ← ldn m 0 4; Ok (le_or 0 b).
Definition lpGetNumElements (m : bytes) : res Z := b ← ldn m 4 2; Ok (le_or 0 b).

Definition lpSetTotalBytes (m : bytes) (v : Z) : res bytes :=
  st m 0 [Z.land v 255; Z.land (Z.shiftr v 8) 255; Z.land (Z.shiftr v 16) 255; Z.land (Z.shiftr v 24) 255].
Definition lpSetNumElements (m : bytes) (v : Z) : res bytes :=
  st m 4 [Z.land v 255; Z.land (Z.shiftr v 8) 255].

Definition lpBytes (m : bytes) : res Z := lpGetTotalBytes m.

Definition lpSafeToAdd (m : option bytes) (add : Z) : res bool :=
  len ← match m with Some m => lpGetTotalBytes m | None => Ok 0 end;
  Ok (negb (LISTPACK_MAX_SAFETY_SIZE <? (len +64 add)%mach)).

(** ** Encoding of elements *)
Definition lpEncodeIntegerGetType (v : Z) : bytes :=
  if (0 <=? v) && (v <=? 127) then [v]
  else if (- 4096 <=? v) && (v <=? 4095) then
    let v := if v <? 0 then Z.shiftl 1 13 + v else v in
    [Z.lor (Z.shiftr v 8) 192; Z.land v 255]
  else if (- 32768 <=? v) && (v <=? 32767) then
    let v := if v <? 0 then Z.shiftl 1 16 + v else v in
    [241; Z.land v 255; u8 (Z.shiftr v 8)]
  else if (- 8388608 <=? v) && (v <=? 8388607) then
    let v := if v <? 0 then Z.shiftl 1 24 + v else v in
    [242; Z.land v 255; Z.land (Z.shiftr v 8) 255; u8 (Z.shiftr v 16)]
  else if (- 2147483648 <=? v) && (v <=? 2147483647) then
    let v := if v <? 0 then Z.shiftl 1 32 + v else v in
    [243; Z.land v 255; Z.land (Z.shiftr v 8) 255; Z.land (Z.shiftr v 16) 255; u8 (Z.shiftr v 24)]
  else
    let uv := u64 v in
    [244; Z.land uv 255; Z.land (Z.shiftr uv 8) 255; Z.land (Z.shiftr uv 16) 255; Z.land (Z.shiftr uv 24) 255;
     Z.land (Z.shiftr uv 32) 255; Z.land (Z.shiftr uv 40) 255; Z.land (Z.shiftr uv 48) 255; u8 (Z.shiftr uv 56)].

(** [LP_ENCODING_INT] with the encoded integer, or [LP_ENCODING_STRING]; and [enclen]. *)
Inductive enctype := LP_ENCODING_INT (intenc : bytes) | LP_ENCODING_STRING.

Definition lpEncodeGetType (ele : bytes) : enctype * Z :=
  let size := alen ele in
  match string2llScalar ele with
  | Some v => let intenc := lpEncodeIntegerGetType v in (LP_ENCODING_INT intenc, alen intenc)
  | None =>
      (LP_ENCODING_STRING,
       if size <? 64 then 1 + size else if size <? 4096 then 2 + size else 5 + size)
  end.

(** The bytes written; the value returned is their number. *)
Definition lpEncodeBacklen (l : Z) : bytes :=
  let low k := Z.lor (Z.land (Z.shiftr l k) 127) 128 in
  if l <=? 127 then [u8 l]
  else if l <? 16383 then [u8 (Z.shiftr l 7); low 0]
  else if l <? 2097151 then [u8 (Z.shiftr l 14); low 7; low 0]
  else if l <? 268435455 then [u8 (Z.shiftr l 21); low 14; low 7; low 0]
  else [u8 (Z.shiftr l 28); low 21; low 14; low 7; low 0].

Definition backlen_size (l : Z) : Z := alen (lpEncodeBacklen l).

(** At most five bytes are read: [shift] passes 28 at the fifth. *)
Fixpoint decode_backlen_loop (fuel : nat) (m : bytes) (p val shift : Z) : res Z :=
  match fuel with
  | O => OutOfFuel
  | S fuel =>
      b ← ld m p;
      let val := Z.lor val (Z.shiftl (Z.land b 127) shift) in
      if Z.land b 128 =? 0 then Ok val
      else
        let shift := shift + 7 in
        if 28 <? shift then Ok UINT64_MAX else decode_backlen_loop fuel m (p - 1) val shift
  end.

Definition lpDecodeBacklen (m : bytes) (p : Z) : res Z := decode_backlen_loop 5 m p 0 0.

(** The bytes [lpEncodeString] writes at [buf]. *)
Definition lpEncodeString (s : bytes) : bytes :=
  let len := alen s in
  if len <? 64 then Z.lor len 128 :: s
  else if len <? 4096 then Z.lor (Z.shiftr len 8) 224 :: Z.land len 255 :: s
  else 240 :: Z.land len 255 :: Z.land (Z.shiftr len 8) 255 :: Z.land (Z.shiftr len 16) 255 ::
       Z.land (Z.shiftr len 24) 255 :: s.

(** ** Reading an entry *)
Definition lpCurrentEncodedSizeUnsafe (m : bytes) (p : Z) : res Z :=
  b ← ld m p;
  match lp_encoding b with
  | ENC_7BIT_UINT => Ok 1
  | ENC_6BIT_STR => Ok (1 + Z.land b 63)
  | ENC_13BIT_INT => Ok 2
  | ENC_16BIT_INT => Ok 3
  | ENC_24BIT_INT => Ok 4
  | ENC_32BIT_INT => Ok 5
  | ENC_64BIT_INT => Ok 9
  | ENC_12BIT_STR => b1 ← ld m (p + 1); Ok (2 + Z.lor (Z.shiftl (Z.land b 15) 8) b1)
  | ENC_32BIT_STR => l ← ldn m (p + 1) 4; Ok (u32 (5 + le_or 0 l))
  | ENC_EOF => Ok 1
  | ENC_BAD => Ok 0
  end.

Definition lpCurrentEncodedSizeBytes (m : bytes) (p : Z) : res Z :=
  b ← ld m p;
  Ok match lp_encoding b with
     | ENC_12BIT_STR => 2
     | ENC_32BIT_STR => 5
     | ENC_BAD => 0
     | _ => 1
     end.

Definition lpSkip (m : bytes) (p : Z) : res Z :=
  entrylen ← lpCurrentEncodedSizeUnsafe m p; Ok (p + (entrylen + backlen_size entrylen)).

(** The tail of [lpGetWithSize]: two's complement through unsigned arithmetic. *)
Definition to_signed (uval negstart negmax : Z) : Z :=
  if negstart <=? uval then - i64 (u64 (negmax - uval)) - 1 else i64 uval.

(** What [lpGet] returns when [intbuf] is NULL: a pointer into the listpack
    with a length, or NULL with the integer. *)
Inductive lpval := VStr (ptr len : Z) | VInt (v : Z).

(** The value, and what is stored in [entry_size] (nothing for a byte that is no encoding). *)
Definition lpGetWithSize (m : bytes) (p : Z) : res (lpval * option Z) :=
  b ← ld m p;
  match lp_encoding b with
  | ENC_7BIT_UINT => Ok (VInt (to_signed (Z.land b 127) UINT64_MAX 0), Some 2)
  | ENC_6BIT_STR =>
      let count := Z.land b 63 in
      Ok (VStr (p + 1) count, Some (1 + count + backlen_size (count + 1)))
  | ENC_13BIT_INT =>
      b1 ← ld m (p + 1);
      Ok (VInt (to_signed (Z.lor (Z.shiftl (Z.land b 31) 8) b1) (Z.shiftl 1 12) 8191), Some 3)
  | ENC_16BIT_INT =>
      l ← ldn m (p + 1) 2; Ok (VInt (to_signed (le_or 0 l) (Z.shiftl 1 15) UINT16_MAX), Some 4)
  | ENC_24BIT_INT =>
      l ← ldn m (p + 1) 3; Ok (VInt (to_signed (le_or 0 l) (Z.shiftl 1 23) (Z.shiftr UINT32_MAX 8)), Some 5)
  | ENC_32BIT_INT =>
      l ← ldn m (p + 1) 4; Ok (VInt (to_signed (le_or 0 l) (Z.shiftl 1 31) UINT32_MAX), Some 6)
  | ENC_64BIT_INT =>
      l ← ldn m (p + 1) 8; Ok (VInt (to_signed (le_or 0 l) (Z.shiftl 1 63) UINT64_MAX), Some 10)
  | ENC_12BIT_STR =>
      b1 ← ld m (p + 1);
      let count := Z.lor (Z.shiftl (Z.land b 15) 8) b1 in
      Ok (VStr (p + 2) count, Some (2 + count + backlen_size (count + 2)))
  | ENC_32BIT_STR =>
      l ← ldn m (p + 1) 4;
      let count := le_or 0 l in
      Ok (VStr (p + 5) count, Some (5 + count + backlen_size (count + 5)))
  | ENC_EOF | ENC_BAD => Ok (VInt (to_signed (12345678900000000 + b) UINT64_MAX 0), None)
  end.

(** [lpGet(p, &count, NULL)] and [lpGetValue] *)
Definition lpGet (m : bytes) (p : Z) : res lpval := r ← lpGetWithSize m p; Ok (fst r).

(** [lpGet(p, &count, intbuf)]: the [count] bytes at the returned pointer. *)
Definition lpGet_buf (m : bytes) (p : Z) (intbuf : bytes) : res bytes :=
  v ← lpGet m p;
  match v with
  | VStr ptr len => ldn m ptr len
  | VInt v => let '(count, buf) := ll2string intbuf LP_INTBUF_SIZE v in ldn buf 0 count
  end.

(** ** Validation and traversal *)
Definition OUT_OF_RANGE (lpbytes p : Z) : bool := (p <? LP_HDR_SIZE) || (lpbytes - 1 <? p).

(** [None] is 0; [Some q] is 1 with [*pp] set to [q]. *)
Definition lpValidateNext (m : bytes) (pp : option Z) (lpbytes : Z) : res (option (option Z)) :=
  match pp with
  | None => Ok None
  | Some p =>
      if OUT_OF_RANGE lpbytes p then Ok None
      else
        b ← ld m p;
        if b =? LP_EOF then Ok (if p + 1 =? lpbytes then Some None else None)
        else
          lenbytes ← lpCurrentEncodedSizeBytes m p;
          if lenbytes =? 0 then Ok None
          else if OUT_OF_RANGE lpbytes (p + lenbytes) then Ok None
          else
            entrylen ← lpCurrentEncodedSizeUnsafe m p;
            let encodedBacklen := backlen_size entrylen in
            let entrylen := entrylen + encodedBacklen in
            if OUT_OF_RANGE lpbytes (p + entrylen) then Ok None
            else
              let p := p + entrylen in
              prevlen ← lpDecodeBacklen m (p - 1);
              if ((prevlen +64 encodedBacklen)%mach =? entrylen) then Ok (Some (Some p)) else Ok None
  end.

Definition lpAssertValidEntry (m : bytes) (lpbytes p : Z) : res unit :=
  r ← lpValidateNext m (Some p) lpbytes; assert (match r with Some _ => true | None => false end).

(** [if (p[0] == LP_EOF) { assert(p + 1 == lp + bytes); return NULL; }
     lpAssertValidEntry(lp, bytes, p); return p;] *)
Definition entry_or_end (m : bytes) (bytes p : Z) : res (option Z) :=
  b ← ld m p;
  if b =? LP_EOF then _ ← assert (p + 1 =? bytes); Ok None
  else _ ← lpAssertValidEntry m bytes p; Ok (Some p).

Definition lpNext (m : bytes) (p : Z) : res (option Z) :=
  p ← lpSkip m p; bytes ← lpBytes m; entry_or_end m bytes p.

Definition lpFirst (m : bytes) : res (option Z) := bytes ← lpBytes m; entry_or_end m bytes LP_HDR_SIZE.

Definition lpPrev (m : bytes) (p : Z) : res (option Z) :=
  if p =? LP_HDR_SIZE then Ok None
  else
    let p := p - 1 in
    prevlen ← lpDecodeBacklen m p;
    let prevlen := (prevlen +64 backlen_size prevlen)%mach in
    let p := p - (prevlen -64 1)%mach in
    bytes ← lpBytes m;
    _ ← lpAssertValidEntry m bytes p; Ok (Some p).

Definition lpLast (m : bytes) : res (option Z) := bytes ← lpGetTotalBytes m; lpPrev m (bytes - 1).

(** Number of iterations no traversal exceeds: one per byte of the block. *)
Definition lp_fuel (m : bytes) : nat := S (length m).

Fixpoint length_loop (fuel : nat) (m : bytes) (p : option Z) (count : Z) : res Z :=
  match p with
  | None => Ok count
  | Some p =>
      match fuel with
      | O => OutOfFuel
      | S fuel => q ← lpNext m p; length_loop fuel m q (count +32 1)%mach
      end
  end.

(** The count, and the block, whose header may get the count. *)
Definition lpLength (m : bytes) : res (Z * bytes) :=
  numele ← lpGetNumElements m;
  if negb (numele =? LP_HDR_NUMELE_UNKNOWN) then Ok (numele, m)
  else
    p ← lpFirst m;
    count ← length_loop (lp_fuel m) m p 0;
    if count <? LP_HDR_NUMELE_UNKNOWN then m ← lpSetNumElements m count; Ok (count, m)
    else Ok (count, m).

Fixpoint seek_forward (fuel : nat) (m : bytes) (ele : option Z) (index : Z) : res (option Z) :=
  match ele with
  | Some e =>
      if 0 <? index then
        match fuel with
        | O => OutOfFuel
        | S fuel => ele ← lpNext m e; seek_forward fuel m ele (index - 1)
        end
      else Ok ele
  | None => Ok None
  end.

Fixpoint seek_backward (fuel : nat) (m : bytes) (ele : option Z) (index : Z) : res (option Z) :=
  match ele with
  | Some e =>
      if index <? - 1 then
        match fuel with
        | O => OutOfFuel
        | S fuel => ele ← lpPrev m e; seek_backward fuel m ele (index + 1)
        end
      else Ok ele
  | None => Ok None
  end.

Definition lpSeek (m : bytes) (index : Z) : res (option Z) :=
  numele ← lpGetNumElements m;
  let go_forward index := ele ← lpFirst m; seek_forward (lp_fuel m) m ele index in
  let go_backward index := ele ← lpLast m; seek_backward (lp_fuel m) m ele index in
  if negb (numele =? LP_HDR_NUMELE_UNKNOWN) then
    let index := if index <? 0 then numele + index else index in
    if index <? 0 then Ok None
    else if numele <=? index then Ok None
    else if numele / 2 <? index then go_backward (index - numele)
    else go_forward index
  else if index <? 0 then go_backward index
  else go_forward index.

(** The callback gets the entry, the count of the header and the state behind [cb_userdata]. *)
Fixpoint validate_loop {U} (fuel : nat) (m : bytes) (bytes numele : Z)
    (entry_cb : option (Z -> Z -> U -> bool * U)) (p : option Z) (count : Z) (u : U) : res (option (option Z * Z) * U) :=
  match p with
  | None => Ok (Some (None, count), u)
  | Some p =>
      b ← ld m p;
      if b =? LP_EOF then Ok (Some (Some p, count), u)
      else
        match fuel with
        | O => OutOfFuel
        | S fuel =>
            r ← lpValidateNext m (Some p) bytes;
            match r with
            | None => Ok (None, u)
            | Some q =>
                let '(fine, u) := match entry_cb with Some cb => cb p numele u | None => (true, u) end in
                if fine : bool then validate_loop fuel m bytes numele entry_cb q (count +32 1)%mach u
                else Ok (None, u)
            end
        end
  end.

Definition lpValidateIntegrity {U} (m : bytes) (size : Z) (deep : bool)
    (entry_cb : option (Z -> Z -> U -> bool * U)) (u : U) : res (bool * U) :=
  if size <? LP_HDR_SIZE + 1 then Ok (false, u)
  else
    bytes ← lpGetTotalBytes m;
    if negb (bytes =? size) then Ok (false, u)
    else
      last ← ld m (size - 1);
      if negb (last =? LP_EOF) then Ok (false, u)
      else if negb deep then Ok (true, u)
      else
        numele ← lpGetNumElements m;
        r ← validate_loop (lp_fuel m) m bytes numele entry_cb (Some LP_HDR_SIZE) 0 u;
        let '(r, u) := r in
        match r with
        | None => Ok (false, u)
        | Some (p, count) =>
            if negb (bool_decide (p = Some (size - 1))) then Ok (false, u)
            else if negb (numele =? LP_HDR_NUMELE_UNKNOWN) && negb (numele =? count) then Ok (false, u)
            else Ok (true, u)
        end.

(** ** Comparison and search *)
Definition lpCompare (m : bytes) (p : Z) (s : bytes) : res bool :=
  b ← ld m p;
  if b =? LP_EOF then Ok false
  else
    v ← lpGet m p;
    match v with
    | VStr value sz =>
        if alen s =? sz then d ← ldn m value (alen s); Ok (bytes_eqb d s) else Ok false
    | VInt sz =>
        match string2llScalar s with
        | Some sval => Ok (sz =? sval)
        | None => Ok false
        end
    end.

(** [vencoding]: not tried yet, UCHAR_MAX (no integer), or 1 with [vll]. *)
Inductive vencoding := VUnknown | VNotInt | VIsInt (vll : Z).

Definition try_vencoding (v : vencoding) (s : bytes) : vencoding :=
  match v with
  | VUnknown =>
      if (32 <=? alen s) || (alen s =? 0) then VNotInt
      else match string2llScalar s with Some vll => VIsInt vll | None => VNotInt end
  | _ => v
  end.

(** One comparison: whether the entry matches, the entry size and [vencoding] left behind. *)
Definition find_compare (m : bytes) (lp_bytes p : Z) (s : bytes) (venc : vencoding) (entry_size : Z) :
    res (bool * vencoding * Z) :=
  r ← lpGetWithSize m p;
  let '(value, es) := r in
  let entry_size := default entry_size es in
  match value with
  | VStr value ll =>
      _ ← assert ((LP_HDR_SIZE <=? p) && (p + entry_size <? lp_bytes));
      if alen s =? ll then d ← ldn m value (alen s); Ok (bytes_eqb d s, venc, entry_size)
      else Ok (false, venc, entry_size)
  | VInt ll =>
      let venc := try_vencoding venc s in
      Ok (match venc with VIsInt vll => ll =? vll | _ => false end, venc, entry_size)
  end.

Fixpoint find_loop (fuel : nat) (m : bytes) (lp_bytes p : Z) (s : bytes) (skip skipcnt : Z)
    (venc : vencoding) (entry_size : Z) : res (option Z) :=
  match fuel with
  | O => OutOfFuel
  | S fuel =>
      let continue p skipcnt venc entry_size :=
        _ ← (if lp_bytes <=? p + 8 then lpAssertValidEntry m lp_bytes p
             else assert ((LP_HDR_SIZE <=? p) && (p <? lp_bytes)));
        b ← ld m p;
        if b =? LP_EOF then _ ← assert (p + 1 =? lp_bytes); Ok None
        else find_loop fuel m lp_bytes p s skip skipcnt venc entry_size in
      if skipcnt =? 0 then
        r ← find_compare m lp_bytes p s venc entry_size;
        let '(hit, venc, entry_size) := r in
        if hit : bool then Ok (Some p) else continue (p + entry_size) skip venc entry_size
      else p ← lpSkip m p; continue p (skipcnt - 1) venc entry_size
  end.

Definition lpFind (m : bytes) (p : Z) (s : bytes) (skip : Z) : res (option Z) :=
  lp_bytes ← lpBytes m; find_loop (lp_fuel m) m lp_bytes p s skip 0 VUnknown 123456789.

(** ** Updates *)
Inductive lpwhere := LP_BEFORE | LP_AFTER | LP_REPLACE.

(** The pair [elestr], [eleint]: a string, an encoded integer, or both NULL. *)
Inductive lpele := EleStr (elestr : bytes) | EleInt (eleint : bytes) | EleDel.

#[global] Instance lpwhere_eq_dec : EqDecision lpwhere.
Proof. solve_decision. Defined.
#[global] Instance lpele_eq_dec : EqDecision lpele.
Proof. solve_decision. Defined.

Section updates.
Context (lp_malloc : Z -> option bytes) (lp_realloc : bytes -> Z -> option bytes).

(** [lp == NULL] dereferenced later is an access outside every block. *)
Definition deref (m : option bytes) : res bytes := match m with Some m => Ok m | None => OutOfBounds end.

Definition lpNew (capacity : Z) : res (option bytes) :=
  match lp_malloc (if LP_HDR_SIZE + 1 <? capacity then capacity else LP_HDR_SIZE + 1) with
  | None => Ok None
  | Some m =>
      m ← lpSetTotalBytes m (LP_HDR_SIZE + 1);
      m ← lpSetNumElements m 0;
      m ← st m LP_HDR_SIZE [LP_EOF];
      Ok (Some m)
  end.

Definition lpShrinkToFit (m : bytes) : res (option bytes) :=
  size ← lpGetTotalBytes m;
  Ok (if size <? alen m then lp_realloc m size else Some m).

(** [enctype] with the bytes to store, and [enclen]. *)
Definition encode_element (ele : lpele) : option bytes * Z :=
  match ele with
  | EleStr s =>
      match lpEncodeGetType s with
      | (LP_ENCODING_INT intenc, enclen) => (Some intenc, enclen)
      | (LP_ENCODING_STRING, enclen) => (Some (lpEncodeString s), enclen)
      end
  | EleInt eleint => (Some eleint, alen eleint)
  | EleDel => (None, 0)
  end.

(** The second half of [lpInsert], from the computation of the new size on: [enc]
    and [backlen] are stored at [poff] in place of [replaced_len] bytes.
    [None] is NULL; otherwise the block and [*newp]. *)
Definition store_entry (m : bytes) (del_ele : bool) (where_ : lpwhere) (poff : Z) (enc : option bytes) (enclen : Z)
    (backlen : bytes) (old_listpack_bytes replaced_len : Z) : res (option (bytes * option Z)) :=
  let new_listpack_bytes := u64 (old_listpack_bytes + enclen + alen backlen - replaced_len) in
  if UINT32_MAX <? new_listpack_bytes then Ok None
  else
    match (if (old_listpack_bytes <? new_listpack_bytes) && (alen m <? new_listpack_bytes)
           then lp_realloc m new_listpack_bytes else Some m) with
    | None => Ok None
    | Some m =>
        m ← memmove m (poff + (enclen + alen backlen)) (poff + replaced_len)
              (u64 (old_listpack_bytes - poff - replaced_len));
        match (if new_listpack_bytes <? old_listpack_bytes then lp_realloc m new_listpack_bytes else Some m) with
        | None => Ok None
        | Some m =>
            newp ← (if del_ele then b ← ld m poff; Ok (if b =? LP_EOF then None else Some poff)
                    else Ok (Some poff));
            m ← match enc with
                | Some e => m ← st m poff e; st m (poff + enclen) backlen
                | None => Ok m
                end;
            m ← (if del_ele || match where_ with LP_REPLACE => false | _ => true end then
                   num_elements ← lpGetNumElements m;
                   if num_elements =? LP_HDR_NUMELE_UNKNOWN then Ok m
                   else if del_ele then lpSetNumElements m (num_elements -32 1)%mach
                   else lpSetNumElements m (num_elements +32 1)%mach
                 else Ok m);
            m ← lpSetTotalBytes m new_listpack_bytes;
            Ok (Some (m, newp))
        end
    end.

Definition lpInsert (m : bytes) (ele : lpele) (p : Z) (where_ : lpwhere) : res (option (bytes * option Z)) :=
  let del_ele := match ele with EleDel => true | _ => false end in
  let where_ := if del_ele then LP_REPLACE else where_ in
  pw ← match where_ with
       | LP_AFTER =>
           p ← lpSkip m p;
           bytes ← lpGetTotalBytes m;
           _ ← assert ((LP_HDR_SIZE <=? p) && (p <? bytes)); Ok (p, LP_BEFORE)
       | _ => Ok (p, where_)
       end;
  let '(poff, where_) := pw in
  let '(enc, enclen) := encode_element ele in
  let backlen := if del_ele then [] else lpEncodeBacklen enclen in
  old_listpack_bytes ← lpGetTotalBytes m;
  replaced_len ← match where_ with
                 | LP_REPLACE =>
                     l ← lpCurrentEncodedSizeUnsafe m poff;
                     let l := (l +32 backlen_size l)%mach in
                     _ ← assert ((LP_HDR_SIZE <=? poff) && (poff + l <? old_listpack_bytes)); Ok l
                 | _ => Ok 0
                 end;
  store_entry m del_ele where_ poff enc enclen backlen old_listpack_bytes replaced_len.

Definition lpInsertString (m s : bytes) (p : Z) (where_ : lpwhere) := lpInsert m (EleStr s) p where_.
Definition lpInsertInteger (m : bytes) (lval p : Z) (where_ : lpwhere) :=
  lpInsert m (EleInt (lpEncodeIntegerGetType lval)) p where_.

Definition lpAppend (m ele : bytes) : res (option (bytes * option Z)) :=
  listpack_bytes ← lpGetTotalBytes m; lpInsert m (EleStr ele) (listpack_bytes - 1) LP_BEFORE.
Definition lpAppendInteger (m : bytes) (lval : Z) : res (option (bytes * option Z)) :=
  listpack_bytes ← lpGetTotalBytes m; lpInsertInteger m lval (listpack_bytes - 1) LP_BEFORE.

Definition lpPrepend (m s : bytes) : res (option (bytes * option Z)) :=
  p ← lpFirst m;
  match p with None => lpAppend m s | Some p => lpInsert m (EleStr s) p LP_BEFORE end.
Definition lpPrependInteger (m : bytes) (lval : Z) : res (option (bytes * option Z)) :=
  p ← lpFirst m;
  match p with None => lpAppendInteger m lval | Some p => lpInsertInteger m lval p LP_BEFORE end.

Definition lpReplace (m : bytes) (p : Z) (s : bytes) := lpInsert m (EleStr s) p LP_REPLACE.
Definition lpReplaceInteger (m : bytes) (p lval : Z) := lpInsertInteger m lval p LP_REPLACE.
Definition lpDelete (m : bytes) (p : Z) := lpInsert m EleDel p LP_REPLACE.

(** [while (num--) ...]: where the deletion ends and how many entries it covers. *)
Fixpoint range_loop (fuel : nat) (m : bytes) (bytes tail num deleted : Z) : res (Z * Z) :=
  if num =? 0 then Ok (tail, deleted)
  else
    match fuel with
    | O => OutOfFuel
    | S fuel =>
        let deleted := deleted + 1 in
        tail ← lpSkip m tail;
        b ← ld m tail;
        if b =? LP_EOF then _ ← assert (tail + 1 =? bytes); Ok (tail, deleted)
        else _ ← lpAssertValidEntry m bytes tail; range_loop fuel m bytes tail (num - 1) deleted
    end.

(** The block and [*p]. *)
Definition lpDeleteRangeWithEntry (m : bytes) (p num : Z) : res (bytes * option Z) :=
  bytes ← lpBytes m;
  let eofptr := bytes - 1 in
  if num =? 0 then Ok (m, Some p)
  else
    r ← range_loop (lp_fuel m) m bytes p num 0;
    let '(tail, deleted) := r in
    m ← memmove m p tail (eofptr - tail + 1);
    m ← lpSetTotalBytes m (bytes - (tail - p));
    numele ← lpGetNumElements m;
    m ← (if numele =? LP_HDR_NUMELE_UNKNOWN then Ok m else lpSetNumElements m (u64 (numele - deleted)));
    s ← lpShrinkToFit m;
    m ← deref s;
    b ← ld m p;
    Ok (m, if b =? LP_EOF then None else Some p).

Definition lpDeleteRange (m : bytes) (index num : Z) : res bytes :=
  numele ← lpGetNumElements m;
  if num =? 0 then Ok m
  else
    p ← lpSeek m index;
    match p with
    | None => Ok m
    | Some p =>
        let known := negb (numele =? LP_HDR_NUMELE_UNKNOWN) in
        let index := if known && (index <? 0) then numele + index else index in
        if known && (u64 (numele - index) <=? num) then
          m ← st m p [LP_EOF];
          m ← lpSetTotalBytes m (p + 1);
          m ← lpSetNumElements m index;
          s ← lpShrinkToFit m;
          deref s
        else r ← lpDeleteRangeWithEntry m p num; Ok (fst r)
    end.

(** The elements deleted are [ps] from the current one on; the block and [dst]. *)
Fixpoint batch_loop (m : bytes) (ps : list Z) (dst lp_end : Z) : res (bytes * Z) :=
  match ps with
  | [] => Ok (m, dst)
  | skip :: rest =>
      b ← ld m skip;
      _ ← assert (negb (b =? LP_EOF));
      keep_start ← lpSkip m skip;
      let keep keep_end :=
        _ ← assert (keep_start <? keep_end);
        m ← memmove m dst keep_start (keep_end - keep_start);
        batch_loop m rest (dst + (keep_end - keep_start)) lp_end in
      match rest with
      | [] => keep lp_end
      | keep_end :: _ => if keep_start =? keep_end then batch_loop m rest dst lp_end else keep keep_end
      end
  end.

Definition lpBatchDelete (m : bytes) (ps : list Z) : res (option bytes) :=
  match ps with
  | [] => Ok (Some m)
  | dst :: _ =>
      total_bytes ← lpGetTotalBytes m;
      last ← ld m (total_bytes - 1);
      _ ← assert (last =? LP_EOF);
      r ← batch_loop m ps dst total_bytes;
      let '(m, dst) := r in
      let total_bytes := total_bytes - (total_bytes - dst) in
      last ← ld m (total_bytes - 1);
      _ ← assert (last =? LP_EOF);
      m ← lpSetTotalBytes m total_bytes;
      numele ← lpGetNumElements m;
      m ← (if numele =? LP_HDR_NUMELE_UNKNOWN then Ok m else lpSetNumElements m (u64 (numele - alen ps)));
      lpShrinkToFit m
  end.

(** Two distinct blocks, neither NULL.  The merged block. *)
Definition lpMerge (first second : bytes) : res bytes :=
  first_bytes ← lpBytes first;
  r ← lpLength first;
  let '(first_len, first) := r in
  second_bytes ← lpBytes second;
  r ← lpLength second;
  let '(second_len, second) := r in
  let append := second_bytes <=? first_bytes in
  let '(target, target_bytes, source, source_bytes) :=
    if append then (first, first_bytes, second, second_bytes) else (second, second_bytes, first, first_bytes) in
  let lpbytes := u64 (first_bytes + second_bytes - LP_HDR_SIZE - 1) in
  _ ← assert (lpbytes <? UINT32_MAX);
  let lplength := first_len + second_len in
  let lplength := if lplength <? UINT16_MAX then lplength else UINT16_MAX in
  target ← deref (lp_realloc target lpbytes);
  target ← (if append then
              b ← ldn source LP_HDR_SIZE (source_bytes - LP_HDR_SIZE); st target (target_bytes - 1) b
            else
              target ← memmove target (source_bytes - 1) LP_HDR_SIZE (target_bytes - LP_HDR_SIZE);
              b ← ldn source 0 (source_bytes - 1); st target 0 b);
  target ← lpSetNumElements target lplength;
  lpSetTotalBytes target lpbytes.

Definition lpDup (m : bytes) : res bytes :=
  lpbytes ← lpBytes m;
  newlp ← deref (lp_malloc lpbytes);
  b ← ldn m 0 lpbytes;
  st newlp 0 b.
End updates.

Definition lpEstimateBytesRepeatedInteger (lval rep : Z) : Z :=
  let enclen := alen (lpEncodeIntegerGetType lval) in
  u64 (LP_HDR_SIZE + (enclen + backlen_size enclen) * rep + 1).
