(* ===== verification/ListpackRefine.v ===== *)
(** * Listpacks: a listpack is a list of strings

    The bytes of a block are related to the list of encoded entries they hold
    ([lp_rep]) and, through the decoding of an entry, to the list of strings
    the caller sees ([listpack]).  Traversals visit the entries in order in
    both directions, queries answer for the list, updates act on the list. *)
From S2P Require Import Prelude IntString ByteMem Listpack.

(** ** The header *)
Definition hdr (total num : Z) : bytes := le_bytes 4 total ++ le_bytes 2 num.

Lemma alen_hdr t n : alen (hdr t n) = 6.
Proof. done. Qed.

Lemma le_bytes4 v : [Z.land v 255; Z.land (Z.shiftr v 8) 255; Z.land (Z.shiftr v 16) 255; Z.land (Z.shiftr v 24) 255]
  = le_bytes 4 v.
Proof.
  cbn [le_bytes]. rewrite <- (Z.shiftr_0_r v) at 1. rewrite !le_bytes_shift by lia.
  rewrite !Z.div_div by lia. by rewrite Z.div_1_r.
Qed.

Lemma le_bytes2 v : [Z.land v 255; Z.land (Z.shiftr v 8) 255] = le_bytes 2 v.
Proof.
  cbn [le_bytes]. rewrite <- (Z.shiftr_0_r v) at 1. rewrite !le_bytes_shift by lia. by rewrite Z.div_1_r.
Qed.

Section header.
Context (t n : Z) (x : bytes).

Lemma get_total : in_u 32 t -> lpGetTotalBytes (hdr t n ++ x) = Ok t.
Proof.
  intros Ht. unfold lpGetTotalBytes, hdr. rewrite <- app_assoc.
  rewrite (ldn_at [] (le_bytes 4 t) (le_bytes 2 n ++ x)), bind_ok, le_or_0 by first [done|apply le_bytes_is_bytes].
  by rewrite le_round_trip.
Qed.

Lemma get_num : in_u 16 n -> lpGetNumElements (hdr t n ++ x) = Ok n.
Proof.
  intros Hn. unfold lpGetNumElements, hdr. rewrite <- app_assoc.
  rewrite (ldn_at (le_bytes 4 t) (le_bytes 2 n) x), bind_ok, le_or_0 by first [done | apply le_bytes_is_bytes].
  by rewrite le_round_trip.
Qed.

Lemma set_total v : lpSetTotalBytes (hdr t n ++ x) v = Ok (hdr v n ++ x).
Proof.
  unfold lpSetTotalBytes, hdr. rewrite le_bytes4, <- !app_assoc.
  by rewrite (st_at [] (le_bytes 4 t) (le_bytes 4 v) (le_bytes 2 n ++ x)).
Qed.

Lemma set_num v : lpSetNumElements (hdr t n ++ x) v = Ok (hdr t v ++ x).
Proof.
  unfold lpSetNumElements, hdr. rewrite le_bytes2, <- !app_assoc.
  by rewrite (st_at (le_bytes 4 t) (le_bytes 2 n) (le_bytes 2 v) x).
Qed.
End header.

(** ** The length read backwards *)
Lemma land127 x : Z.land x 127 = x mod 128.
Proof. change 127 with (Z.ones 7). by rewrite Z.land_ones by lia. Qed.

Lemma low_bits q : let b := Z.lor (Z.land q 127) 128 in Z.land b 127 = q mod 128 /\ (Z.land b 128 =? 0) = false.
Proof.
  simpl. rewrite (land127 q). assert (in_u 8 (q mod 128)) as Hb by (pose proof (Z.mod_pos_bound q 128); mach).
  pose proof (byte_forall (fun x => implb (x <? 128)
    ((Z.land (Z.lor x 128) 127 =? x) && negb (Z.land (Z.lor x 128) 128 =? 0))) ltac:(by vm_compute) _ Hb) as H.
  cbv beta in H. rewrite (proj2 (Z.ltb_lt _ _)) in H by (pose proof (Z.mod_pos_bound q 128); lia).
  simpl in H. cmp_prop. split; [done|by apply Z.eqb_neq].
Qed.

Lemma lor_shift val x shift : in_u shift val -> 0 <= shift -> 0 <= x -> Z.lor val (Z.shiftl x shift) = val + 2 ^ shift * x.
Proof. intros. by apply lor_pack. Qed.

Lemma decode_more f m p val shift q : ld m p = Ok (Z.lor (Z.land q 127) 128) -> in_u shift val -> 0 <= shift <= 21 ->
  decode_backlen_loop (S f) m p val shift = decode_backlen_loop f m (p - 1) (val + 2 ^ shift * (q mod 128)) (shift + 7).
Proof.
  intros Hp Hv Hs. destruct (low_bits q) as [H1 H2]. pose proof (Z.mod_pos_bound q 128).
  cbn [decode_backlen_loop]. rewrite Hp, bind_ok. cbv zeta. rewrite H1, H2.
  rewrite (proj2 (Z.ltb_ge 28 _)) by lia. rewrite lor_shift by (done || lia). done.
Qed.

Lemma decode_last f m p val shift x : ld m p = Ok x -> 0 <= x < 128 -> in_u shift val -> 0 <= shift ->
  decode_backlen_loop (S f) m p val shift = Ok (val + 2 ^ shift * x).
Proof.
  intros Hp Hx Hv Hs. cbn [decode_backlen_loop]. rewrite Hp, bind_ok. cbv zeta.
  rewrite land127, Z.mod_small by lia. rewrite lor_shift by (done || lia).
  pose proof (byte_forall (fun x => implb (x <? 128) (Z.land x 128 =? 0)) ltac:(by vm_compute) x ltac:(mach)) as H.
  cbv beta in H. rewrite (proj2 (Z.ltb_lt _ _)) in H by lia. simpl in H. by rewrite H.
Qed.

Lemma backlen_size_bound l : 1 <= backlen_size l <= 5.
Proof. unfold backlen_size, lpEncodeBacklen. repeat case_if; simpl; unfold alen; simpl; lia. Qed.

Lemma shiftr0 l : Z.land l 127 = Z.land (Z.shiftr l 0) 127.
Proof. by rewrite Z.shiftr_0_r. Qed.

Lemma backlen_decode a b l : 0 <= l < 2 ^ 35 ->
  lpDecodeBacklen (a ++ lpEncodeBacklen l ++ b) (alen a + backlen_size l - 1) = Ok l.
Proof.
  intros Hl. unfold lpDecodeBacklen, backlen_size.
  assert (forall e i v, ld e i = Ok v -> forall j, j = alen a + i -> ld (a ++ e ++ b) j = Ok v) as Hld.
  { intros e i v H j ->. by apply ld_frame. }
  assert (forall e i q j f val shift, ld e i = Ok (Z.lor (Z.land q 127) 128) -> j = alen a + i -> in_u shift val ->
    0 <= shift <= 21 -> decode_backlen_loop (S f) (a ++ e ++ b) j val shift =
    decode_backlen_loop f (a ++ e ++ b) (j - 1) (val + 2 ^ shift * (q mod 128)) (shift + 7)) as Hmore.
  { intros e i q j f val shift He Hj Hv Hs. apply decode_more; [|done..]. by apply (Hld e i). }
  assert (forall e x j f val shift, ld e 0 = Ok x -> j = alen a + 0 -> 0 <= x < 128 -> in_u shift val -> 0 <= shift ->
    decode_backlen_loop (S f) (a ++ e ++ b) j val shift = Ok (val + 2 ^ shift * x)) as Hlast.
  { intros e x j f val shift He Hj Hx Hv Hs. apply decode_last; [|done..]. by apply (Hld e 0). }
  unfold lpEncodeBacklen. cbv zeta. repeat case_if.
  all: match goal with |- context [alen ?e] => match e with _ :: _ =>
    change (alen e) with (Z.of_nat (length e)); simpl length end end.
  all: pose proof (Z.mod_pos_bound (Z.shiftr l 0) 128); pose proof (Z.mod_pos_bound (Z.shiftr l 7) 128);
    pose proof (Z.mod_pos_bound (Z.shiftr l 14) 128); pose proof (Z.mod_pos_bound (Z.shiftr l 21) 128).
  2: rewrite (Hmore _ 1 (Z.shiftr l 0)) by first [done|mach].
  3: rewrite (Hmore _ 2 (Z.shiftr l 0)), (Hmore _ 1 (Z.shiftr l 7)) by first [done|mach].
  4: rewrite (Hmore _ 3 (Z.shiftr l 0)), (Hmore _ 2 (Z.shiftr l 7)), (Hmore _ 1 (Z.shiftr l 14)) by first [done|mach].
  5: rewrite (Hmore _ 4 (Z.shiftr l 0)), (Hmore _ 3 (Z.shiftr l 7)), (Hmore _ 2 (Z.shiftr l 14)),
       (Hmore _ 1 (Z.shiftr l 21)) by first [done|mach].
  all: rewrite !(Z.shiftr_div_pow2 l) in * by lia; rewrite ?(wrap_small 8) by
    (mach_unfold; Z.to_euclidean_division_equations; lia).
  all: erewrite Hlast; [|done|lia|mach_unfold; Z.to_euclidean_division_equations; lia|mach|lia].
  all: f_equal; mach_unfold; Z.to_euclidean_division_equations; lia.
Qed.

(** ** Encoded entries *)

(** [e] is exactly one encoding: its own size, recognised first byte, not EOF. *)
Definition wf_enc (e : bytes) : Prop :=
  is_bytes e /\ lpCurrentEncodedSizeUnsafe e 0 = Ok (alen e) /\ exists b, ld e 0 = Ok b /\ b <> LP_EOF.

Definition entry (e : bytes) : bytes := e ++ lpEncodeBacklen (alen e).
Definition body (es : list bytes) : bytes := concat (map entry es).

(** The string an encoding stands for. *)
Definition dec_str (e : bytes) : bytes :=
  match lpGetWithSize e 0 with
  | Ok (VStr p n, _) => take (Z.to_nat n) (drop (Z.to_nat p) e)
  | Ok (VInt v, _) => decimal v
  | _ => []
  end.

Definition shift_val (k : Z) (v : lpval) : lpval := match v with VStr p n => VStr (k + p) n | VInt v => VInt v end.

Lemma alen_entry e : alen (entry e) = alen e + backlen_size (alen e).
Proof. unfold entry. by rewrite alen_app. Qed.

Lemma size_frame a e b n : lpCurrentEncodedSizeUnsafe e 0 = Ok n ->
  lpCurrentEncodedSizeUnsafe (a ++ e ++ b) (alen a) = Ok n.
Proof.
  unfold lpCurrentEncodedSizeUnsafe. intros (x & Hx & H)%bind_ok_inv.
  rewrite (ld_frame0 _ _ _ _ Hx), bind_ok. destruct (lp_encoding x); try done.
  - apply bind_ok_inv in H as (y & Hy & H). by rewrite (ld_frame _ _ _ _ _ Hy).
  - apply bind_ok_inv in H as (y & Hy & H). by rewrite (ldn_frame _ _ _ _ _ _ Hy).
Qed.

Lemma get_frame a e b v n : lpGetWithSize e 0 = Ok (v, n) ->
  lpGetWithSize (a ++ e ++ b) (alen a) = Ok (shift_val (alen a) v, n).
Proof.
  unfold lpGetWithSize. intros (x & Hx & H)%bind_ok_inv.
  rewrite (ld_frame0 _ _ _ _ Hx), bind_ok. destruct (lp_encoding x).
  all: try (by injection H as <- <-).
  all: apply bind_ok_inv in H as (y & Hy & H); injection H as <- <-.
  all: first [rewrite (ld_frame _ _ _ _ _ Hy)|rewrite (ldn_frame _ _ _ _ _ _ Hy)]; done.
Qed.

Lemma land_bound b k : in_u 8 b -> 0 <= k -> 0 <= Z.land b k <= k.
Proof.
  intros Hb Hk. split; [apply Z.land_nonneg; left; apply Hb|].
  destruct Hb as [Hb _]. rewrite <- (Z2N.id b), <- (Z2N.id k), <- N2Z.inj_land by done.
  apply N2Z.inj_le, N.land_le_r.
Qed.

Lemma str12_bound b b1 : in_u 8 b -> in_u 8 b1 ->
  Z.lor (Z.shiftl (Z.land b 15) 8) b1 = 256 * Z.land b 15 + b1 /\ 0 <= Z.land b 15 <= 15.
Proof.
  intros Hb Hb1. pose proof (land_bound b 15 Hb ltac:(lia)).
  rewrite Z.lor_comm, lor_pack by (done || lia). change (2 ^ 8) with 256. lia.
Qed.

Lemma le4_range m p l : is_bytes m -> ldn m p 4 = Ok l -> 0 <= le_or 0 l < 2 ^ 32.
Proof.
  intros Hm Hl. pose proof (ldn_inv _ _ _ _ Hl) as (_ & _ & _ & Hn).
  apply ldn_byte in Hl; [|done]. rewrite le_or_0 by done. pose proof (le_val_range _ Hl) as Hv. rewrite Hn in Hv.
  apply Hv.
Qed.

Lemma to_signed_range u ns nm : - 2 ^ 63 <= to_signed u ns nm < 2 ^ 63.
Proof.
  unfold to_signed. pose proof (swrap_range 64 u ltac:(lia)). pose proof (swrap_range 64 (u64 (nm - u)) ltac:(lia)).
  case_if; mach.
Qed.

(** Decoding an encoding: the string ends where the encoding ends, the
    integer fits in 64 bits, and the entry size is that of the entry. *)
Lemma get_wf e : wf_enc e -> exists v, lpGetWithSize e 0 = Ok (v, Some (alen (entry e))) /\
  match v with VStr p n => 0 <= p /\ 0 <= n /\ p + n = alen e | VInt z => - 2 ^ 63 <= z < 2 ^ 63 end.
Proof.
  intros (Hb & Hs & x & Hx & Hne). rewrite alen_entry. unfold lpGetWithSize.
  unfold lpCurrentEncodedSizeUnsafe in Hs. rewrite Hx, !bind_ok in *.
  pose proof (ld_byte _ _ _ Hb Hx) as Hxb. pose proof (ld_lt _ _ _ Hx) as Hlt.
  destruct (lp_encoding x) eqn:He.
  all: try (injection Hs as Hs; rewrite <- Hs).
  - eexists. split; [done|]. apply to_signed_range.
  - pose proof (land_bound x 63 Hxb ltac:(lia)). eexists. split; [by rewrite (Z.add_comm (Z.land x 63) 1)|]. cbv beta iota. lia.
  - destruct (ld_in e (0 + 1)) as [y ->]; [lia|]. eexists. split; [done|]. apply to_signed_range.
  - destruct (ldn_in e (0 + 1) 2) as [y ->]; [lia..|]. eexists. split; [done|]. apply to_signed_range.
  - destruct (ldn_in e (0 + 1) 3) as [y ->]; [lia..|]. eexists. split; [done|]. apply to_signed_range.
  - destruct (ldn_in e (0 + 1) 4) as [y ->]; [lia..|]. eexists. split; [done|]. apply to_signed_range.
  - destruct (ldn_in e (0 + 1) 8) as [y ->]; [lia..|]. eexists. split; [done|]. apply to_signed_range.
  - apply bind_ok_inv in Hs as (y & Hy & [= Hs]). rewrite Hy, bind_ok.
    destruct (str12_bound x y Hxb (ld_byte _ _ _ Hb Hy)) as [-> ?]. pose proof (ld_byte _ _ _ Hb Hy) as [? ?].
    destruct (str12_bound x y Hxb (ld_byte _ _ _ Hb Hy)) as [Heq _]. rewrite Heq in Hs.
    eexists. split; [rewrite <- Hs, (Z.add_comm (_ + _) 2); done|]. cbv beta iota. lia.
  - apply bind_ok_inv in Hs as (y & Hy & [= Hs]). rewrite Hy, bind_ok. pose proof (le4_range _ _ _ Hb Hy) as Hr.
    pose proof (ldn_inv _ _ _ _ Hy) as (_ & _ & Hle & _).
    assert (5 + le_or 0 y = alen e) as Heq.
    { revert Hs. unfold wrap. destruct (Z.lt_ge_cases (5 + le_or 0 y) (2 ^ 32)) as [|Hge].
      - rewrite Z.mod_small; lia.
      - rewrite <- (Z.mod_add _ (- 1)), Z.mod_small by lia. lia. }
    eexists. split; [rewrite <- Heq, (Z.add_comm (le_or 0 y) 5); done|]. cbv beta iota. lia.
  - exfalso. revert He. unfold lp_encoding. by repeat case_if.
  - lia.
Qed.

Lemma dec_str_view e v n : lpGetWithSize e 0 = Ok (v, n) ->
  dec_str e = match v with VStr p n => take (Z.to_nat n) (drop (Z.to_nat p) e) | VInt v => decimal v end.
Proof. unfold dec_str. intros ->. by destruct v. Qed.

(** *** The encoders produce encodings *)
Definition lpenc_eqb (a b : lpenc) : bool :=
  match a, b with
  | ENC_7BIT_UINT, ENC_7BIT_UINT | ENC_6BIT_STR, ENC_6BIT_STR | ENC_13BIT_INT, ENC_13BIT_INT
  | ENC_12BIT_STR, ENC_12BIT_STR => true
  | _, _ => false
  end.

(** A first byte that packs a value [x] under a tag. *)
Definition tagged_ok (tag mask bound : Z) (enc : lpenc) : bool :=
  forallb (fun x => implb (x <? bound)
    (lpenc_eqb (lp_encoding (Z.lor x tag)) enc && (Z.land (Z.lor x tag) mask =? x) &&
     (Z.lor x tag <? 255) && (0 <=? Z.lor x tag))) (seqZ 0 256).

Lemma tagged_spec tag mask bound enc x : tagged_ok tag mask bound enc = true -> 0 <= x < bound -> bound <= 256 ->
  lp_encoding (Z.lor x tag) = enc /\ Z.land (Z.lor x tag) mask = x /\ in_u 8 (Z.lor x tag) /\ Z.lor x tag <> LP_EOF.
Proof.
  intros H Hx Hb. pose proof (byte_forall _ H x ltac:(mach)) as Hp. cbv beta in Hp.
  rewrite (proj2 (Z.ltb_lt _ _)) in Hp by lia. cbn [implb] in Hp. cmp_prop. repeat split; try lia.
  - by destruct (lp_encoding (Z.lor x tag)), enc.
  - unfold LP_EOF. lia.
Qed.

Lemma to_signed_spec w v : 0 < w <= 64 -> - 2 ^ (w - 1) <= v < 2 ^ (w - 1) ->
  to_signed (v mod 2 ^ w) (2 ^ (w - 1)) (2 ^ w - 1) = v.
Proof.
  intros Hw Hv. unfold to_signed.
  assert (2 ^ w = 2 * 2 ^ (w - 1)) as Hp by (rewrite <- Z.pow_succ_r by lia; f_equal; lia).
  assert (2 ^ (w - 1) <= 2 ^ 63) as Hle by (apply Z.pow_le_mono_r; lia).
  destruct (Z.lt_ge_cases v 0) as [Hneg|Hpos].
  - replace (v mod 2 ^ w) with (v + 2 ^ w)
      by (rewrite <- (Z.mod_add v 1 (2 ^ w)), Z.mod_small by lia; lia).
    rewrite (proj2 (Z.leb_le _ _)) by lia. rewrite wrap_small by mach. rewrite swrap_small; mach.
  - rewrite Z.mod_small by lia. rewrite (proj2 (Z.leb_gt _ _)) by lia. rewrite swrap_small; mach.
Qed.

Lemma shift_neg w v : 0 <= w -> - 2 ^ w <= v < 2 ^ w -> (if v <? 0 then Z.shiftl 1 w + v else v) = v mod 2 ^ w.
Proof.
  intros Hw Hv. rewrite Z.shiftl_1_l. case_if.
  - rewrite <- (Z.mod_add v 1 (2 ^ w)), Z.mod_small by lia. lia.
  - by rewrite Z.mod_small by lia.
Qed.

Lemma le_bytes_low n v : le_bytes n (v mod 2 ^ (8 * Z.of_nat n)) = le_bytes n v.
Proof.
  rewrite <- le_val_bytes. rewrite <- (length_le_bytes n v) at 1. apply le_bytes_val, le_bytes_is_bytes.
Qed.

Lemma le_list (l : bytes) n v : l = le_bytes n v -> is_bytes l /\ le_or 0 l = v mod 2 ^ (8 * Z.of_nat n) /\ alen l = Z.of_nat n.
Proof.
  intros ->. pose proof (le_bytes_is_bytes n v) as H. split; [done|]. rewrite le_or_0, le_val_bytes by done.
  unfold alen. by rewrite length_le_bytes.
Qed.

(** The wide integer encodings: a tag byte and the little-endian bytes. *)
Lemma enc_wide tag enc (n : nat) v l :
  lp_encoding tag = enc -> in_u 8 tag -> tag <> LP_EOF -> (1 <= n <= 8)%nat ->
  l = le_bytes n v -> - 2 ^ (8 * Z.of_nat n - 1) <= v < 2 ^ (8 * Z.of_nat n - 1) ->
  (lpCurrentEncodedSizeUnsafe (tag :: l) 0 = Ok (1 + Z.of_nat n)) ->
  lpGetWithSize (tag :: l) 0 =
    Ok (VInt (to_signed (le_or 0 l) (2 ^ (8 * Z.of_nat n - 1)) (2 ^ (8 * Z.of_nat n) - 1)), Some (2 + Z.of_nat n)) ->
  wf_enc (tag :: l) /\ dec_str (tag :: l) = decimal v.
Proof.
  intros He Ht Hne Hn Hl Hv Hs Hg. destruct (le_list l n v Hl) as (Hb & Ho & Ha). split.
  - split; [by constructor|]. split; [rewrite alen_cons, Ha; exact Hs|]. by exists tag.
  - rewrite (dec_str_view _ _ _ Hg), Ho, to_signed_spec by lia. done.
Qed.

Ltac le_explicit := cbn [le_bytes]; rewrite ?le_bytes_shift, ?Z.shiftr_div_pow2, ?Z.div_div by lia;
  unfold wrap; change 255 with (Z.ones 8); rewrite ?Z.land_ones by lia; done.

Lemma le_bytes3 v : [Z.land v 255; Z.land (Z.shiftr v 8) 255; u8 (Z.shiftr v 16)] = le_bytes 3 v.
Proof. le_explicit. Qed.
Lemma le_bytes2' v : [Z.land v 255; u8 (Z.shiftr v 8)] = le_bytes 2 v.
Proof. le_explicit. Qed.
Lemma le_bytes4' v : [Z.land v 255; Z.land (Z.shiftr v 8) 255; Z.land (Z.shiftr v 16) 255; u8 (Z.shiftr v 24)] = le_bytes 4 v.
Proof. le_explicit. Qed.
Lemma le_bytes8' v : [Z.land v 255; Z.land (Z.shiftr v 8) 255; Z.land (Z.shiftr v 16) 255; Z.land (Z.shiftr v 24) 255;
  Z.land (Z.shiftr v 32) 255; Z.land (Z.shiftr v 40) 255; Z.land (Z.shiftr v 48) 255; u8 (Z.shiftr v 56)] = le_bytes 8 v.
Proof. le_explicit. Qed.

Lemma ld_hd x l : ld (x :: l) 0 = Ok x.
Proof. done. Qed.
Lemma ld_snd x y l : ld (x :: y :: l) (0 + 1) = Ok y.
Proof. done. Qed.

Lemma land255 x : Z.land x 255 = x mod 256 /\ in_u 8 (Z.land x 255).
Proof. change 255 with (Z.ones 8). rewrite Z.land_ones by lia. split; [done|]. apply Z.mod_pos_bound. lia. Qed.

Lemma enc_uint7 v : 0 <= v <= 127 -> wf_enc [v] /\ dec_str [v] = decimal v.
Proof.
  intros Hv.
  destruct (tagged_spec 0 127 128 ENC_7BIT_UINT v ltac:(by vm_compute) ltac:(lia) ltac:(lia)) as (He & Hm & Hb & Hn).
  rewrite Z.lor_0_r in *. assert (lpGetWithSize [v] 0 = Ok (VInt v, Some 2)) as Hg.
  { unfold lpGetWithSize. rewrite ld_hd, bind_ok, He, Hm. unfold to_signed.
    rewrite (proj2 (Z.leb_gt _ _)) by lia. rewrite swrap_small by mach. done. }
  split; [|by rewrite (dec_str_view _ _ _ Hg)].
  split; [by constructor|]. split; [|by exists v].
  unfold lpCurrentEncodedSizeUnsafe. by rewrite ld_hd, bind_ok, He.
Qed.

Lemma enc_int13 v : - 4096 <= v <= 4095 -> let u := v mod 2 ^ 13 in
  let e := [Z.lor (Z.shiftr u 8) 192; Z.land u 255] in wf_enc e /\ dec_str e = decimal v.
Proof.
  intros Hv u. assert (0 <= u < 2 ^ 13) as Hu by (apply Z.mod_pos_bound; lia).
  destruct (tagged_spec 192 31 32 ENC_13BIT_INT (Z.shiftr u 8) ltac:(by vm_compute)) as (He & Hm & Hb & Hn);
    [rewrite Z.shiftr_div_pow2 by lia; mach_unfold; Z.to_euclidean_division_equations; lia|lia|].
  set (t := Z.lor (Z.shiftr u 8) 192) in *. destruct (land255 u) as [Hl Hlb].
  assert (lpGetWithSize [t; Z.land u 255] 0 = Ok (VInt v, Some 3)) as Hg.
  { unfold lpGetWithSize. rewrite ld_hd, bind_ok, He, Hm, ld_snd, bind_ok. do 4 f_equal.
    rewrite Z.lor_comm, lor_pack, Hl; [|done|lia|apply Z.shiftr_nonneg; lia].
    rewrite Z.shiftr_div_pow2 by lia. change (2 ^ 8) with 256. rewrite Z.add_comm, <- Z.div_mod by lia.
    apply (to_signed_spec 13); mach. }
  split; [|by rewrite (dec_str_view _ _ _ Hg)].
  split; [unfold is_bytes; by rewrite !Forall_cons|]. split; [|by exists t].
  unfold lpCurrentEncodedSizeUnsafe. by rewrite ld_hd, bind_ok, He.
Qed.

Lemma enc_int v : - 2 ^ 63 <= v < 2 ^ 63 ->
  let e := lpEncodeIntegerGetType v in wf_enc e /\ dec_str e = decimal v.
Proof.
  intros Hv e. subst e. unfold lpEncodeIntegerGetType. cbv zeta.
  repeat match goal with
  | |- context [if (?a <=? v) && (v <=? ?b) then _ else _] =>
      let E := fresh "E" in destruct ((a <=? v) && (v <=? b)) eqn:E
  end; cmp_prop.
  - by apply enc_uint7.
  - rewrite (shift_neg 13) by mach. by apply enc_int13.
  - rewrite (shift_neg 16) by mach. rewrite le_bytes2'. change (2 ^ 16) with (2 ^ (8 * Z.of_nat 2)). rewrite le_bytes_low.
    apply (enc_wide 241 ENC_16BIT_INT 2); (done || mach).
  - rewrite (shift_neg 24) by mach. rewrite le_bytes3. change (2 ^ 24) with (2 ^ (8 * Z.of_nat 3)). rewrite le_bytes_low.
    apply (enc_wide 242 ENC_24BIT_INT 3); (done || mach).
  - rewrite (shift_neg 32) by mach. rewrite le_bytes4'. change (2 ^ 32) with (2 ^ (8 * Z.of_nat 4)). rewrite le_bytes_low.
    apply (enc_wide 243 ENC_32BIT_INT 4); (done || mach).
  - unfold wrap. rewrite le_bytes8'. change (2 ^ 64) with (2 ^ (8 * Z.of_nat 8)). rewrite le_bytes_low.
    apply (enc_wide 244 ENC_64BIT_INT 8); (done || mach).
Qed.

Lemma dec_str_suffix h s v n : lpGetWithSize (h ++ s) 0 = Ok (VStr v n, Some (alen (entry (h ++ s)))) ->
  v = alen h -> n = alen s -> dec_str (h ++ s) = s.
Proof.
  intros Hg -> ->. rewrite (dec_str_view _ _ _ Hg). unfold alen. rewrite !Nat2Z.id, drop_app_length.
  by apply take_ge.
Qed.

(** The string encodings: [h] is the tag with the length. *)
Lemma enc_str_intro h s b k : is_bytes h -> is_bytes s -> ld (h ++ s) 0 = Ok b -> b <> LP_EOF ->
  lpCurrentEncodedSizeUnsafe (h ++ s) 0 = Ok (alen h + alen s) ->
  lpGetWithSize (h ++ s) 0 = Ok (VStr (alen h) (alen s), k) ->
  wf_enc (h ++ s) /\ dec_str (h ++ s) = s.
Proof.
  intros Hh Hs Hb Hne Hz Hg. assert (wf_enc (h ++ s)) as Hwf.
  { split; [by apply is_bytes_app|]. split; [by rewrite alen_app|eauto]. }
  split; [done|]. destruct (get_wf _ Hwf) as (v & Hv & _). rewrite Hg in Hv. injection Hv as <- ->.
  by apply (dec_str_suffix _ _ _ _ Hg).
Qed.

Lemma enc_str6 s : is_bytes s -> alen s < 64 ->
  wf_enc ([Z.lor (alen s) 128] ++ s) /\ dec_str ([Z.lor (alen s) 128] ++ s) = s.
Proof.
  intros Hs Hl. pose proof (alen_nonneg s). set (n := alen s) in *.
  destruct (tagged_spec 128 63 64 ENC_6BIT_STR n ltac:(by vm_compute)) as (He & Hm & Hb & Hn); [lia|lia|].
  apply (enc_str_intro [Z.lor n 128] s (Z.lor n 128) (Some (1 + n + backlen_size (n + 1)))); try done.
  - by apply Forall_singleton.
  - unfold lpCurrentEncodedSizeUnsafe. cbn [app]. by rewrite ld_hd, bind_ok, He, Hm.
  - unfold lpGetWithSize. cbn [app]. by rewrite ld_hd, bind_ok, He, Hm.
Qed.

Lemma enc_str12 s : is_bytes s -> alen s < 4096 -> let h := [Z.lor (Z.shiftr (alen s) 8) 224; Z.land (alen s) 255] in
  wf_enc (h ++ s) /\ dec_str (h ++ s) = s.
Proof.
  intros Hs Hl. pose proof (alen_nonneg s). cbv zeta. set (n := alen s) in *.
  destruct (tagged_spec 224 15 16 ENC_12BIT_STR (Z.shiftr n 8) ltac:(by vm_compute)) as (He & Hm & Hb & Hn);
    [rewrite Z.shiftr_div_pow2 by lia; mach_unfold; Z.to_euclidean_division_equations; lia|lia|].
  destruct (land255 n) as [Hl255 Hlb]. set (t := Z.lor (Z.shiftr n 8) 224) in *.
  assert (Z.lor (Z.shiftl (Z.land t 15) 8) (Z.land n 255) = n) as Hc.
  { rewrite Hm, Z.lor_comm, lor_pack, Hl255; [|done|lia|apply Z.shiftr_nonneg; lia].
    rewrite Z.shiftr_div_pow2 by lia. change (2 ^ 8) with 256. rewrite Z.add_comm, <- Z.div_mod; lia. }
  apply (enc_str_intro [t; Z.land n 255] s t (Some (2 + n + backlen_size (n + 2)))); try done.
  - unfold is_bytes. by rewrite !Forall_cons.
  - unfold lpCurrentEncodedSizeUnsafe. cbn [app]. by rewrite ld_hd, bind_ok, He, ld_snd, bind_ok, Hc.
  - unfold lpGetWithSize. cbn [app]. by rewrite ld_hd, bind_ok, He, ld_snd, bind_ok, Hc.
Qed.

Lemma enc_str32 s : is_bytes s -> alen s + 5 < 2 ^ 32 -> let h := 240 :: le_bytes 4 (alen s) in
  wf_enc (h ++ s) /\ dec_str (h ++ s) = s.
Proof.
  intros Hs Hl. pose proof (alen_nonneg s). cbv zeta. set (n := alen s) in *.
  destruct (le_list (le_bytes 4 n) 4 n eq_refl) as (Hb4 & Hv & Ha). rewrite Z.mod_small in Hv by mach.
  assert (ldn (240 :: le_bytes 4 n ++ s) (0 + 1) 4 = Ok (le_bytes 4 n)) as Hld by (by apply (ldn_at [240] _ s)).
  apply (enc_str_intro (240 :: le_bytes 4 n) s 240 (Some (5 + n + backlen_size (n + 5)))); try done.
  - by constructor.
  - unfold lpCurrentEncodedSizeUnsafe. cbn [app]. rewrite ld_hd, bind_ok.
    change (lp_encoding 240) with ENC_32BIT_STR. cbv iota. by rewrite Hld, bind_ok, Hv, wrap_small by mach.
  - unfold lpGetWithSize. cbn [app]. rewrite ld_hd, bind_ok. change (lp_encoding 240) with ENC_32BIT_STR.
    cbv iota. by rewrite Hld, bind_ok, Hv.
Qed.

(** What [lpInsert] stores: an encoding of the element, [enclen] bytes long. *)
Definition ele_str (ele : lpele) : option bytes :=
  match ele with EleStr s => Some s | EleInt e => Some (dec_str e) | EleDel => None end.

Definition ele_ok (ele : lpele) : Prop :=
  match ele with EleStr s => is_bytes s /\ alen s <= UINT32_MAX | EleInt e => exists v, - 2 ^ 63 <= v < 2 ^ 63 /\ e = lpEncodeIntegerGetType v | EleDel => True end.

Lemma encode_element_spec ele enc n : ele_ok ele -> encode_element ele = (enc, n) -> n <= UINT32_MAX ->
  match enc, ele_str ele with
  | Some e, Some s => wf_enc e /\ dec_str e = s /\ alen e = n
  | None, None => n = 0
  | _, _ => False
  end.
Proof.
  destruct ele as [s|e|]; intros Hok; cbn -[lpEncodeIntegerGetType lpEncodeString].
  - unfold lpEncodeGetType. rewrite scalar_is_ref. cbv zeta. destruct (parse_ref s) as [v|] eqn:Hp.
    + intros [= <- <-] _. apply parse_ref_inv in Hp as [-> Hv]. by destruct (enc_int v Hv).
    + intros [= <- <-] Hn. unfold lpEncodeString. cbv zeta. revert Hn. unfold UINT32_MAX. repeat case_if; intros Hn.
      * destruct (enc_str6 s); [apply Hok|lia|]. by rewrite alen_cons.
      * destruct (enc_str12 s); [apply Hok|lia|]. rewrite !alen_cons. split; [done|]. split; [done|lia].
      * destruct (enc_str32 s) as [H1 H2]; [apply Hok|mach|]. rewrite <- le_bytes4 in H1, H2. rewrite !alen_cons.
        split; [done|]. split; [done|lia].
  - intros [= <- <-] _. destruct Hok as (v & Hv & ->). by destruct (enc_int v Hv).
  - by intros [= <- <-].
Qed.

(** ** The block of a listpack *)
Definition off (xs : list bytes) : Z := 6 + alen (body xs).
Definition total (es : list bytes) : Z := 7 + alen (body es).
Definition lp_image (num : Z) (es : list bytes) (slack : bytes) : bytes :=
  hdr (total es) num ++ body es ++ LP_EOF :: slack.

Definition lp_wf (num : Z) (es : list bytes) : Prop :=
  Forall wf_enc es /\ total es <= UINT32_MAX /\ in_u 16 num /\ (num = LP_HDR_NUMELE_UNKNOWN \/ num = alen es).

(** [m] holds the encodings [es]; what follows the EOF byte is unspecified. *)
Definition lp_rep (m : bytes) (es : list bytes) : Prop :=
  exists num slack, m = lp_image num es slack /\ lp_wf num es.

(** [m] holds the strings [l]. *)
Definition listpack (m : bytes) (l : list bytes) : Prop := exists es, lp_rep m es /\ map dec_str es = l.

Lemma body_app xs ys : body (xs ++ ys) = body xs ++ body ys.
Proof. unfold body. by rewrite map_app, concat_app. Qed.

Lemma body_cons e ys : body (e :: ys) = entry e ++ body ys.
Proof. done. Qed.

Lemma off_app xs ys : off (xs ++ ys) = off xs + alen (body ys).
Proof. unfold off. rewrite body_app, alen_app. lia. Qed.

Lemma off_snoc xs e : off (xs ++ [e]) = off xs + (alen e + backlen_size (alen e)).
Proof. rewrite off_app, body_cons, alen_app, alen_entry. unfold body. simpl. rewrite alen_nil. lia. Qed.

Lemma off_ge xs : 6 <= off xs.
Proof. unfold off. pose proof (alen_nonneg (body xs)). lia. Qed.

Lemma wf_enc_pos e : wf_enc e -> 1 <= alen e.
Proof. intros (_ & _ & b & Hb & _). apply ld_lt in Hb. lia. Qed.

Lemma body_length es : Forall wf_enc es -> 2 * alen es <= alen (body es).
Proof.
  induction 1 as [|e es He Hes IH]; [done|]. rewrite alen_cons, body_cons, alen_app, alen_entry.
  pose proof (wf_enc_pos e He). pose proof (backlen_size_bound (alen e)). lia.
Qed.

Lemma total_off es : total es = off es + 1.
Proof. unfold total, off. lia. Qed.

Lemma off_lt es xs e ys : es = xs ++ e :: ys -> off xs + (alen e + backlen_size (alen e)) <= off es.
Proof.
  intros ->. replace (xs ++ e :: ys) with ((xs ++ [e]) ++ ys) by (by rewrite <- app_assoc).
  rewrite off_app, off_snoc. pose proof (alen_nonneg (body ys)). lia.
Qed.

Lemma wf_at num es xs e ys : lp_wf num es -> es = xs ++ e :: ys -> wf_enc e.
Proof. intros [Hall _] ->. apply Forall_app in Hall as [_ Hall]. by apply Forall_cons in Hall as [? _]. Qed.

Lemma total_range num es : lp_wf num es -> in_u 32 (total es).
Proof. intros (_ & Hsz & _). unfold total, UINT32_MAX in *. pose proof (alen_nonneg (body es)). mach. Qed.

Lemma alen_small num es xs e ys : lp_wf num es -> es = xs ++ e :: ys -> 1 <= alen e < 2 ^ 32 - 8.
Proof.
  intros Hwf Hes. pose proof (wf_enc_pos e (wf_at _ _ _ _ _ Hwf Hes)). pose proof (off_lt _ _ _ _ Hes).
  pose proof (backlen_size_bound (alen e)). pose proof (off_ge xs). pose proof (total_range _ _ Hwf). pose proof (total_off es). mach.
Qed.

Section traverse.
Context (num : Z) (es : list bytes) (slack : bytes) (Hwf : lp_wf num es).
Let m := lp_image num es slack.

Lemma image_split xs ys : es = xs ++ ys -> exists a, m = a ++ body ys ++ LP_EOF :: slack /\ alen a = off xs.
Proof.
  intros ->. exists (hdr (total (xs ++ ys)) num ++ body xs). unfold m, lp_image. rewrite body_app, <- !app_assoc.
  split; [done|]. by rewrite alen_app, alen_hdr.
Qed.

Lemma image_entry xs e ys : es = xs ++ e :: ys -> exists a b, m = a ++ e ++ b /\
  m = (a ++ e) ++ lpEncodeBacklen (alen e) ++ (body ys ++ LP_EOF :: slack) /\ alen a = off xs.
Proof.
  intros Hes. destruct (image_split xs (e :: ys) Hes) as (a & Hm & Ha). exists a, (lpEncodeBacklen (alen e) ++ body ys ++ LP_EOF :: slack).
  rewrite Hm, body_cons. unfold entry. rewrite <- !app_assoc. done.
Qed.

Lemma alen_image : alen m = off es + 1 + alen slack.
Proof. unfold m, lp_image, off. rewrite !alen_app, alen_cons, alen_hdr. lia. Qed.

Lemma image_total : lpGetTotalBytes m = Ok (total es).
Proof. by apply get_total, (total_range num). Qed.

Lemma image_num : lpGetNumElements m = Ok num.
Proof. apply get_num. by destruct Hwf as (_ & _ & ? & _). Qed.

Lemma image_bytes : lpBytes m = Ok (total es).
Proof. apply image_total. Qed.

Lemma ld_eof : ld m (off es) = Ok LP_EOF.
Proof.
  destruct (image_split es []) as (a & -> & <-); [by rewrite app_nil_r|]. cbn [body concat map app].
  by apply (ld_at a [LP_EOF] slack _ _ 0); [|lia|].
Qed.

Lemma ld_entry xs e ys : es = xs ++ e :: ys -> exists b, ld m (off xs) = Ok b /\ b <> LP_EOF.
Proof.
  intros Hes. destruct (wf_at _ _ _ _ _ Hwf Hes) as (_ & _ & b & Hb & Hne). destruct (image_entry xs e ys Hes) as (a & b' & -> & _ & <-).
  exists b. split; [by apply ld_frame0|done].
Qed.

Lemma size_at xs e ys : es = xs ++ e :: ys -> lpCurrentEncodedSizeUnsafe m (off xs) = Ok (alen e).
Proof.
  intros Hes. destruct (wf_at _ _ _ _ _ Hwf Hes) as (_ & Hs & _). destruct (image_entry xs e ys Hes) as (a & b' & -> & _ & <-).
  by apply size_frame.
Qed.

Lemma skip_at xs e ys : es = xs ++ e :: ys -> lpSkip m (off xs) = Ok (off (xs ++ [e])).
Proof. intros Hes. unfold lpSkip. rewrite (size_at xs e ys Hes), bind_ok, off_snoc. done. Qed.

Lemma get_at xs e ys : es = xs ++ e :: ys -> exists v, lpGetWithSize m (off xs) = Ok (shift_val (off xs) v, Some (alen (entry e)))
  /\ lpGetWithSize e 0 = Ok (v, Some (alen (entry e))).
Proof.
  intros Hes. destruct (get_wf e (wf_at _ _ _ _ _ Hwf Hes)) as (v & Hv & _). exists v. split; [|done].
  destruct (image_entry xs e ys Hes) as (a & b' & -> & _ & <-). by apply get_frame.
Qed.

Lemma backlen_at xs e ys : es = xs ++ e :: ys -> lpDecodeBacklen m (off (xs ++ [e]) - 1) = Ok (alen e).
Proof.
  intros Hes. pose proof (alen_small _ _ _ _ _ Hwf Hes). destruct (image_entry xs e ys Hes) as (a & b' & _ & -> & Ha).
  rewrite off_snoc. replace (off xs + _ - 1) with (alen (a ++ e) + backlen_size (alen e) - 1) by (rewrite alen_app; lia).
  apply backlen_decode. mach.
Qed.

Lemma sizebytes_at xs e ys : es = xs ++ e :: ys ->
  exists n, lpCurrentEncodedSizeBytes m (off xs) = Ok n /\ 1 <= n <= alen e.
Proof.
  intros Hes. destruct (wf_at _ _ _ _ _ Hwf Hes) as (Hb & Hs & b & Hld & Hne).
  destruct (image_entry xs e ys Hes) as (a & b' & -> & _ & <-).
  unfold lpCurrentEncodedSizeBytes. rewrite (ld_frame0 _ _ _ _ Hld), bind_ok. eexists. split; [done|].
  pose proof (ld_lt _ _ _ Hld). pose proof (get_wf e (wf_at _ _ _ _ _ Hwf Hes)) as (v & Hg & Hv).
  unfold lpCurrentEncodedSizeUnsafe, lpGetWithSize in *. rewrite Hld, !bind_ok in *. destruct (lp_encoding b); try lia.
  - apply bind_ok_inv in Hg as (y & Hy & [= <- _]). lia.
  - apply bind_ok_inv in Hg as (y & Hy & [= <- _]). lia.
  - injection Hs as Hs. lia.
Qed.

Lemma in_range p : 6 <= p <= off es -> OUT_OF_RANGE (total es) p = false.
Proof. intros. unfold OUT_OF_RANGE, LP_HDR_SIZE. rewrite total_off. apply orb_false_iff. lia. Qed.

Lemma validate_at xs e ys : es = xs ++ e :: ys ->
  lpValidateNext m (Some (off xs)) (total es) = Ok (Some (Some (off (xs ++ [e])))).
Proof.
  intros Hes. pose proof (off_ge xs). pose proof (off_lt _ _ _ _ Hes). pose proof (alen_small _ _ _ _ _ Hwf Hes).
  pose proof (backlen_size_bound (alen e)).
  unfold lpValidateNext. rewrite in_range by lia. destruct (ld_entry _ _ _ Hes) as (b & -> & Hne%Z.eqb_neq).
  rewrite bind_ok, Hne. destruct (sizebytes_at _ _ _ Hes) as (n & -> & Hn). rewrite bind_ok.
  rewrite (proj2 (Z.eqb_neq n 0)), in_range, (size_at _ _ _ Hes), bind_ok by lia. cbv zeta.
  rewrite in_range by lia. rewrite <- off_snoc, (backlen_at _ _ _ Hes), bind_ok.
  rewrite wrap_small, Z.eqb_refl by mach. done.
Qed.

Lemma validate_eof : lpValidateNext m (Some (off es)) (total es) = Ok (Some None).
Proof.
  pose proof (off_ge es). unfold lpValidateNext. rewrite in_range by lia. rewrite ld_eof, bind_ok, Z.eqb_refl.
  by rewrite total_off, Z.eqb_refl.
Qed.

Lemma entry_or_end_at xs ys : es = xs ++ ys ->
  entry_or_end m (total es) (off xs) = Ok (match ys with [] => None | _ => Some (off xs) end).
Proof.
  intros Hes. unfold entry_or_end. destruct ys as [|e ys].
  - rewrite app_nil_r in Hes. rewrite <- Hes, ld_eof, bind_ok, Z.eqb_refl, total_off, Z.eqb_refl. done.
  - destruct (ld_entry _ _ _ Hes) as (b & -> & Hne%Z.eqb_neq). rewrite bind_ok, Hne.
    unfold lpAssertValidEntry. by rewrite (validate_at _ _ _ Hes), !bind_ok.
Qed.

Lemma first_at : lpFirst m = Ok (match es with [] => None | _ => Some (off []) end).
Proof. unfold lpFirst. rewrite image_bytes, bind_ok. by apply (entry_or_end_at [] es). Qed.

Lemma next_at xs e ys : es = xs ++ e :: ys ->
  lpNext m (off xs) = Ok (match ys with [] => None | _ => Some (off (xs ++ [e])) end).
Proof.
  intros Hes. unfold lpNext. rewrite (skip_at _ _ _ Hes), bind_ok, image_bytes, bind_ok.
  apply entry_or_end_at. by rewrite Hes, <- app_assoc.
Qed.

Lemma prev_at xs e ys : es = xs ++ e :: ys -> lpPrev m (off (xs ++ [e])) = Ok (Some (off xs)).
Proof.
  intros Hes. pose proof (alen_small _ _ _ _ _ Hwf Hes). pose proof (backlen_size_bound (alen e)). pose proof (off_ge xs).
  unfold lpPrev. rewrite (proj2 (Z.eqb_neq _ _)) by (unfold LP_HDR_SIZE; rewrite off_snoc; lia).
  rewrite (backlen_at _ _ _ Hes), bind_ok. rewrite (wrap_small 64 (alen e + _)), wrap_small by mach. rewrite image_bytes, bind_ok.
  rewrite off_snoc. replace (_ - 1 - _) with (off xs) by lia.
  unfold lpAssertValidEntry. by rewrite (validate_at _ _ _ Hes), !bind_ok.
Qed.

Lemma prev_first : lpPrev m (off []) = Ok None.
Proof. done. Qed.

Lemma last_at xs e : es = xs ++ [e] -> lpLast m = Ok (Some (off xs)).
Proof.
  intros Hes. unfold lpLast. rewrite image_total, bind_ok, total_off, Z.add_simpl_r, Hes at 1. by apply (prev_at xs e []).
Qed.

Lemma last_nil : es = [] -> lpLast m = Ok None.
Proof. intros Hes. unfold lpLast. rewrite image_total, bind_ok, total_off, Z.add_simpl_r, Hes. apply prev_first. Qed.
End traverse.

(** The address of the [i]-th element, and of the EOF byte behind the last one:
    [i] times [lpSkip] from the end of the header. *)
Fixpoint skip_n (m : bytes) (p : Z) (i : nat) : res Z :=
  match i with
  | O => Ok p
  | S i => p ← lpSkip m p; skip_n m p i
  end.

Definition nth_ptr (m : bytes) (i : nat) : res Z := skip_n m LP_HDR_SIZE i.

Lemma skip_n_at num es slack xs ys zs : lp_wf num es -> es = xs ++ ys ++ zs ->
  skip_n (lp_image num es slack) (off xs) (length ys) = Ok (off (xs ++ ys)).
Proof.
  intros Hwf. revert xs. induction ys as [|e ys IH]; intros xs Hes; [by rewrite app_nil_r|].
  cbn [length skip_n]. rewrite (skip_at _ _ _ Hwf xs e (ys ++ zs) Hes), bind_ok, IH by (by rewrite <- app_assoc).
  by rewrite <- app_assoc.
Qed.

Lemma nth_ptr_at num es slack xs ys : lp_wf num es -> es = xs ++ ys ->
  nth_ptr (lp_image num es slack) (length xs) = Ok (off xs).
Proof. intros Hwf Hes. by apply (skip_n_at num es slack [] xs ys). Qed.

Lemma nth_ptr_rep m xs ys : lp_rep m (xs ++ ys) -> nth_ptr m (length xs) = Ok (off xs).
Proof. intros (num & slack & -> & Hwf). by apply (nth_ptr_at num _ slack xs ys). Qed.

(** The encodings at a position of the list of strings. *)
Lemma listpack_split m l i : listpack m l -> (i <= length l)%nat ->
  exists xs ys, lp_rep m (xs ++ ys) /\ length xs = i /\ map dec_str xs = take i l /\ map dec_str ys = drop i l.
Proof.
  intros (es & Hrep & <-) Hi. rewrite length_map in Hi. exists (take i es), (drop i es). rewrite take_drop, length_take.
  rewrite !firstn_map, !skipn_map. repeat split; [done|lia].
Qed.

Lemma listpack_at m l i : listpack m l -> (i < length l)%nat ->
  exists xs e ys, lp_rep m (xs ++ e :: ys) /\ length xs = i /\ map dec_str xs = take i l /\ l !! i = Some (dec_str e) /\
    map dec_str ys = drop (S i) l.
Proof.
  intros Hl Hi. destruct (listpack_split m l i Hl ltac:(lia)) as (xs & ys & Hrep & Hx & Hxs & Hys).
  destruct ys as [|e ys].
  - apply (f_equal length) in Hys. rewrite length_drop in Hys. simpl in Hys. lia.
  - exists xs, e, ys. destruct (drop i l) as [|y d] eqn:Hd; [done|]. injection Hys as He Hys. split; [done|].
    split; [done|]. split; [done|]. split.
    + rewrite <- (Nat.add_0_r i), <- lookup_drop, Hd. simpl. by rewrite He.
    + by rewrite <- Nat.add_1_r, <- drop_drop, Hd, Hys.
Qed.

(** ** Queries *)
Section queries.
Context (num : Z) (es : list bytes) (slack : bytes) (Hwf : lp_wf num es).
Local Abbreviation m := (lp_image num es slack).

Lemma fuel_enough : (length es < lp_fuel m)%nat.
Proof.
  unfold lp_fuel. pose proof (alen_image num es slack) as H. destruct Hwf as [Hall _].
  pose proof (body_length es Hall) as Hb. unfold off in H. pose proof (alen_nonneg slack). unfold alen in *. lia.
Qed.

Lemma alen_es : alen es < 2 ^ 31.
Proof.
  destruct Hwf as (Hall & Hsz & _). pose proof (body_length es Hall). unfold total, UINT32_MAX in *. lia.
Qed.

Lemma length_loop_at fuel xs ys c : es = xs ++ ys -> (length ys <= fuel)%nat -> 0 <= c -> c + alen ys < 2 ^ 32 ->
  length_loop fuel m (match ys with [] => None | _ => Some (off xs) end) c = Ok (c + alen ys).
Proof.
  revert fuel xs c. induction ys as [|e ys IH]; intros fuel xs c Hes Hf Hc Hl.
  - destruct fuel; cbn; by rewrite Z.add_0_r.
  - rewrite alen_cons in *. pose proof (alen_nonneg ys). destruct fuel as [|fuel]; [simpl in Hf; lia|]. cbn [length_loop].
    rewrite (next_at num es slack Hwf xs e ys Hes), bind_ok, wrap_small by mach.
    rewrite IH; [f_equal; lia|by rewrite <- app_assoc|simpl in Hf; lia|lia|lia].
Qed.

(** The count is right and the block still holds the same elements. *)
Lemma length_at : exists num', lpLength m = Ok (alen es, lp_image num' es slack) /\ lp_wf num' es.
Proof.
  pose proof alen_es. pose proof (alen_nonneg es). pose proof fuel_enough.
  unfold lpLength. rewrite image_num, bind_ok by done. case_if.
  - exists num. split; [|done]. destruct Hwf as (_ & _ & _ & [?|Hn]); [done|]. by rewrite Hn.
  - rewrite first_at, bind_ok by done. rewrite (length_loop_at _ [] es 0) by (done || lia). rewrite bind_ok, Z.add_0_l.
    case_if; [|eexists; by split]. unfold lp_image. rewrite set_num, bind_ok. exists (alen es). split; [done|].
    destruct Hwf as (? & ? & _ & _). split; [done|]. split; [done|]. unfold LP_HDR_NUMELE_UNKNOWN in *. split; [mach|by right].
Qed.

Lemma seek_forward_at fuel xs ys k : es = xs ++ ys -> (length ys <= fuel)%nat ->
  seek_forward fuel m (match ys with [] => None | _ => Some (off xs) end) (Z.of_nat k) =
  Ok (if decide (k < length ys)%nat then Some (off (xs ++ take k ys)) else None).
Proof.
  revert fuel xs k. induction ys as [|e ys IH]; intros fuel xs k Hes Hf.
  - destruct fuel; cbn; by rewrite decide_False by lia.
  - destruct fuel as [|fuel]; [simpl in Hf; lia|]. cbn [seek_forward]. destruct k as [|k].
    + cbn. rewrite app_nil_r. rewrite decide_True by lia. done.
    + rewrite (proj2 (Z.ltb_lt _ _)) by lia. rewrite (next_at num es slack Hwf xs e ys Hes), bind_ok.
      replace (Z.of_nat (S k) - 1) with (Z.of_nat k) by lia. rewrite IH; [|by rewrite <- app_assoc|simpl in Hf; lia].
      cbn [take length]. rewrite <- app_assoc. destruct (decide _), (decide _); done || lia.
Qed.

Lemma seek_backward_at fuel xs ys k : es = xs ++ ys -> (length xs <= fuel)%nat ->
  (e ← lpPrev m (off xs); seek_backward fuel m e (- 1 - Z.of_nat k)) =
  Ok (if decide (k < length xs)%nat then Some (off (take (length xs - S k) xs)) else None).
Proof.
  revert fuel ys k. induction xs as [|e xs IH] using rev_ind; intros fuel ys k Hes Hf.
  - rewrite decide_False by (simpl; lia). rewrite prev_first, bind_ok. by destruct fuel.
  - rewrite length_app in Hf. simpl in Hf. destruct fuel as [|fuel]; [lia|]. rewrite <- app_assoc in Hes.
    rewrite (prev_at num es slack Hwf xs e ys Hes), bind_ok. cbn [seek_backward]. rewrite length_app. cbn [length].
    destruct k as [|k].
    + cbn. rewrite decide_True by lia. by rewrite Nat.add_sub, take_app_length.
    + rewrite (proj2 (Z.ltb_lt _ _)) by lia. replace (- 1 - Z.of_nat (S k) + 1) with (- 1 - Z.of_nat k) by lia.
      rewrite (IH fuel (e :: ys)); [|done|lia]. destruct (decide _), (decide _); try lia; [|done].
      rewrite take_app_le by lia. do 4 f_equal. lia.
Qed.

(** [lpSeek]: the index counted from the end when it is negative. *)
Lemma seek_at index : - 2 ^ 63 <= index < 2 ^ 63 -> lpSeek m index =
  let i := if index <? 0 then alen es + index else index in
  Ok (if decide (0 <= i < alen es) then Some (off (take (Z.to_nat i) es)) else None).
Proof.
  intros Hi. cbv zeta. pose proof fuel_enough as Hf. pose proof (alen_nonneg es).
  assert (forall i, 0 <= i -> (ele ← lpFirst m; seek_forward (lp_fuel m) m ele i) =
    Ok (if decide (0 <= i < alen es) then Some (off (take (Z.to_nat i) es)) else None)) as Hfw.
  { intros i H0. rewrite first_at, bind_ok by done. rewrite <- (Z2Nat.id i) at 1 by done.
    rewrite (seek_forward_at _ [] es) by (done || lia). unfold alen. destruct (decide _), (decide _); done || lia. }
  assert (forall i, i < 0 -> (ele ← lpLast m; seek_backward (lp_fuel m) m ele i) =
    Ok (if decide (0 <= alen es + i) then Some (off (take (Z.to_nat (alen es + i)) es)) else None)) as Hbw.
  { intros i H0. unfold lpLast. rewrite image_total, bind_ok, total_off, Z.add_simpl_r by done.
    assert (exists k : nat, i = - 1 - Z.of_nat k) as [k ->] by (exists (Z.to_nat (- i - 1)); lia).
    rewrite (seek_backward_at _ es []); [|by rewrite app_nil_r|lia].
    unfold alen in *. destruct (decide _), (decide _); try lia; [|done]. do 4 f_equal. lia. }
  unfold lpSeek. rewrite image_num, bind_ok by done. cbv zeta. case_if.
  - destruct Hwf as (_ & _ & _ & [?|Hn]); [done|]. rewrite <- Hn in Hfw, Hbw |- *.
    set (i := if index <? 0 then num + index else index). repeat case_if.
    + rewrite decide_False by lia. done.
    + rewrite decide_False by lia. done.
    + rewrite Hbw by lia. replace (num + (i - num)) with i by lia. destruct (decide _), (decide _); done || lia.
    + apply Hfw. lia.
  - case_if; [rewrite Hbw by done|rewrite Hfw by done; done]. destruct (decide _), (decide _); done || lia.
Qed.
End queries.

(** *** Reading and comparing strings *)
Lemma decimal_short v : - 2 ^ 63 <= v < 2 ^ 63 -> 1 <= alen (decimal v) <= 20.
Proof.
  intros Hv. pose proof (parse_ref_decimal v Hv) as H. unfold parse_ref, LONG_STR_SIZE in H.
  destruct (decimal v) as [|c s]; [done|]. destruct (Z.leb_spec 21 (alen (c :: s))); [done|].
  rewrite alen_cons in *. pose proof (alen_nonneg s). lia.
Qed.

(** How the reading functions compare the string [s] with an entry. *)
Definition view_matches (e s : bytes) (v : lpval) : bool :=
  match v with
  | VStr p n => (alen s =? n) && bytes_eqb (take (Z.to_nat n) (drop (Z.to_nat p) e)) s
  | VInt z => match string2llScalar s with Some w => z =? w | None => false end
  end.

Lemma view_matches_spec e s v k : wf_enc e -> lpGetWithSize e 0 = Ok (v, k) -> view_matches e s v = bool_decide (dec_str e = s).
Proof.
  intros Hwf Hv. destruct (get_wf e Hwf) as (v' & Hv' & Hr). rewrite Hv in Hv'. injection Hv' as <- _.
  rewrite (dec_str_view _ _ _ Hv). destruct v as [p n|z]; cbn [view_matches].
  - unfold bytes_eqb. case_bool_decide as Heq; [|by rewrite andb_false_r]. rewrite andb_true_r, <- Heq. apply Z.eqb_eq.
    destruct Hr as (? & ? & Hr). unfold alen in *. rewrite length_take, length_drop. lia.
  - rewrite scalar_is_ref. destruct (parse_ref s) as [w|] eqn:Hp.
    + apply parse_ref_inv in Hp as [-> Hw]. case_bool_decide as Heq.
      * apply (f_equal parse_ref) in Heq. rewrite !parse_ref_decimal in Heq by done. injection Heq as ->. apply Z.eqb_refl.
      * apply Z.eqb_neq. by intros ->.
    + rewrite bool_decide_false; [done|]. intros <-. by rewrite parse_ref_decimal in Hp.
Qed.

(** What is known about the integer value of the searched string. *)
Definition venc_ok (s : bytes) (v : vencoding) : Prop :=
  match v with VUnknown => True | VNotInt => string2llScalar s = None | VIsInt z => string2llScalar s = Some z end.

Lemma try_vencoding_spec s v : venc_ok s v -> match try_vencoding v s with
  | VUnknown => False | VNotInt => string2llScalar s = None | VIsInt z => string2llScalar s = Some z end.
Proof.
  destruct v as [| |z]; try done. intros _. cbn. case_if.
  - rewrite scalar_is_ref. destruct (parse_ref s) as [w|] eqn:Hp; [|done]. apply parse_ref_inv in Hp as [-> Hw].
    pose proof (decimal_short w Hw). apply orb_true_iff in E as [E|E]; cmp_prop; lia.
  - destruct (string2llScalar s) eqn:Hs; done.
Qed.

(** The reference search: the first match among the entries at distance
    [cnt], [cnt + skip + 1], ... *)
Fixpoint find_from (s : bytes) (skip cnt : nat) (l : list bytes) : option nat :=
  match l with
  | [] => None
  | x :: l =>
      match cnt with
      | O => if bool_decide (x = s) then Some O else S <$> find_from s skip skip l
      | S c => S <$> find_from s skip c l
      end
  end.

Section strings.
Context (num : Z) (es : list bytes) (slack : bytes) (Hwf : lp_wf num es).
Local Abbreviation m := (lp_image num es slack).

Lemma ldn_view xs e ys p n k : es = xs ++ e :: ys -> lpGetWithSize e 0 = Ok (VStr p n, k) ->
  ldn m (off xs + p) n = Ok (take (Z.to_nat n) (drop (Z.to_nat p) e)).
Proof.
  intros Hes Hv. pose proof (wf_at _ _ _ _ _ Hwf Hes) as He. destruct (get_wf e He) as (v' & Hv' & Hr).
  rewrite Hv in Hv'. injection Hv' as <- _. destruct Hr as (? & ? & ?).
  destruct (image_entry num es slack Hwf xs e ys Hes) as (a & b & -> & _ & <-). apply ldn_frame.
  unfold ldn. by rewrite !(proj2 (Z.leb_le _ _)) by lia.
Qed.

Lemma get_buf_at xs e ys intbuf : es = xs ++ e :: ys -> LP_INTBUF_SIZE <= alen intbuf ->
  lpGet_buf m (off xs) intbuf = Ok (dec_str e).
Proof.
  intros Hes Hb. pose proof (wf_at _ _ _ _ _ Hwf Hes) as He. destruct (get_wf e He) as (v' & Hv' & Hr).
  destruct (get_at num es slack Hwf xs e ys Hes) as (v & Hg & Hv). unfold lpGet_buf, lpGet. rewrite Hg, !bind_ok.
  rewrite Hv in Hv'. injection Hv' as <-. rewrite (dec_str_view _ _ _ Hv). destruct v as [p n|z]; cbn [shift_val fst].
  - by apply (ldn_view xs e ys p n _ Hes Hv).
  - destruct (ll2string intbuf LP_INTBUF_SIZE z) as [len buf] eqn:Hl.
    pose proof (decimal_short z Hr). pose proof (length_decimal z Hr) as Hd. unfold LP_INTBUF_SIZE in *.
    assert (0 <= 21 <= alen intbuf) as H21 by lia. assert (sdigits10 z < 21) as Hs by lia.
    destruct (ll2string_decimal _ _ _ _ _ Hr H21 Hl Hs) as (-> & Ht & Hz).
    apply lookup_lt_Some in Hz. unfold ldn. rewrite !(proj2 (Z.leb_le _ _)) by (unfold alen; lia). cbn [andb]. by rewrite Z2Nat.inj_0, drop_0, Ht.
Qed.

Lemma compare_at xs e ys s : es = xs ++ e :: ys -> lpCompare m (off xs) s = Ok (bool_decide (dec_str e = s)).
Proof.
  intros Hes. destruct (get_at num es slack Hwf xs e ys Hes) as (v & Hg & Hv).
  rewrite <- (view_matches_spec _ _ _ _ (wf_at _ _ _ _ _ Hwf Hes) Hv).
  unfold lpCompare. destruct (ld_entry num es slack Hwf xs e ys Hes) as (b & -> & Hne%Z.eqb_neq). rewrite bind_ok, Hne.
  unfold lpGet. rewrite Hg, !bind_ok. destruct v as [p n|z]; cbn [fst shift_val view_matches].
  - case_if; [|done]. rewrite E, (ldn_view _ _ _ _ _ _ Hes Hv). done.
  - by destruct (string2llScalar s).
Qed.

Lemma find_compare_at xs e ys s venc z : es = xs ++ e :: ys -> venc_ok s venc ->
  exists venc', find_compare m (total es) (off xs) s venc z = Ok (bool_decide (dec_str e = s), venc', alen (entry e)) /\ venc_ok s venc'.
Proof.
  intros Hes Hvo. destruct (get_at num es slack Hwf xs e ys Hes) as (v & Hg & Hv).
  rewrite <- (view_matches_spec _ _ _ _ (wf_at _ _ _ _ _ Hwf Hes) Hv).
  unfold find_compare. rewrite Hg, bind_ok. cbn [from_option id]. destruct v as [p n|w]; cbn [shift_val view_matches].
  - pose proof (off_ge xs). pose proof (off_lt _ _ _ _ Hes). rewrite alen_entry, assert_true, bind_ok
      by (rewrite total_off; unfold LP_HDR_SIZE; apply andb_true_iff; lia).
    exists venc. case_if; [|by split]. rewrite E, (ldn_view _ _ _ _ _ _ Hes Hv). by split.
  - pose proof (try_vencoding_spec s venc Hvo) as Ht. exists (try_vencoding venc s). split.
    + destruct (try_vencoding venc s); [done|by rewrite Ht..].
    + by destruct (try_vencoding venc s).
Qed.

Lemma assert_valid_at xs ys : es = xs ++ ys ->
  (if total es <=? off xs + 8 then lpAssertValidEntry m (total es) (off xs)
   else assert ((LP_HDR_SIZE <=? off xs) && (off xs <? total es))) = Ok tt.
Proof.
  intros Hes. pose proof (off_ge xs). case_if.
  - unfold lpAssertValidEntry. destruct ys as [|e ys].
    + rewrite app_nil_r in Hes. by rewrite <- Hes, validate_eof.
    + by rewrite (validate_at num es slack Hwf _ _ _ Hes).
  - apply assert_true. unfold LP_HDR_SIZE. apply andb_true_iff. lia.
Qed.

Lemma find_loop_at fuel xs e ys s skip cnt venc z : es = xs ++ e :: ys -> (length ys < fuel)%nat -> venc_ok s venc ->
  find_loop fuel m (total es) (off xs) s (Z.of_nat skip) (Z.of_nat cnt) venc z =
  Ok ((fun k => off (xs ++ take k (e :: ys))) <$> find_from s skip cnt (map dec_str (e :: ys))).
Proof.
  revert xs e ys cnt venc z. induction fuel as [|fuel IH]; intros xs e ys cnt venc z Hes Hf Hv; [lia|].
  cbn [find_loop].
  set (continue := fun p skipcnt venc entry_size => _ ← (if total es <=? p + 8 then lpAssertValidEntry m (total es) p
    else assert ((LP_HDR_SIZE <=? p) && (p <? total es))); b ← ld m p; if b =? LP_EOF then _ ← assert (p + 1 =? total es); Ok None
    else find_loop fuel m (total es) p s (Z.of_nat skip) skipcnt venc entry_size).
  assert (forall cnt' venc' z', venc_ok s venc' -> continue (off (xs ++ [e])) (Z.of_nat cnt') venc' z' =
    Ok ((fun k => off (xs ++ take k (e :: ys))) <$> (S <$> find_from s skip cnt' (map dec_str ys)))) as Hc.
  { intros cnt' venc' z' Hv'. assert (es = (xs ++ [e]) ++ ys) as Hes' by (by rewrite <- app_assoc). unfold continue.
    rewrite (assert_valid_at _ ys Hes'), bind_ok. destruct ys as [|e' ys].
    - rewrite app_nil_r in Hes'. rewrite <- Hes', ld_eof, bind_ok, Z.eqb_refl by done.
      by rewrite total_off, Z.eqb_refl.
    - destruct (ld_entry num es slack Hwf _ _ _ Hes') as (b & -> & Hne%Z.eqb_neq). rewrite bind_ok, Hne.
      rewrite (IH _ e' ys) by (done || (simpl in Hf; lia)).
      destruct (find_from s skip cnt' (map dec_str (e' :: ys))); [|done]. cbn [fmap option_fmap option_map].
      by rewrite <- app_assoc. }
  cbn [map find_from]. destruct cnt as [|cnt].
  - destruct (find_compare_at xs e ys s venc z Hes Hv) as (venc' & -> & Hv'). cbn [Z.of_nat Z.eqb]. rewrite bind_ok.
    case_bool_decide; cbv iota; [by cbn; rewrite app_nil_r|].
    rewrite alen_entry, <- off_snoc. by apply Hc.
  - rewrite (proj2 (Z.eqb_neq _ _)) by lia. rewrite (skip_at num es slack Hwf xs e ys Hes), bind_ok.
    replace (Z.of_nat (S cnt) - 1) with (Z.of_nat cnt) by lia. by apply Hc.
Qed.

(** [lpFind] from the element [xs] ends at. *)
Lemma find_at xs e ys s skip : es = xs ++ e :: ys ->
  lpFind m (off xs) s (Z.of_nat skip) =
  Ok ((fun k => off (xs ++ take k (e :: ys))) <$> find_from s skip 0 (map dec_str (e :: ys))).
Proof.
  intros Hes. unfold lpFind. rewrite image_bytes, bind_ok by done. apply (find_loop_at _ _ _ _ _ skip 0); [done| |done].
  pose proof (fuel_enough num es slack Hwf) as Hf. rewrite Hes in Hf at 1. rewrite length_app in Hf. simpl in Hf. lia.
Qed.
End strings.

(** ** Queries on the list of strings *)

(** The position an index of [lpSeek] stands for. *)
Definition seek_pos (index : Z) (l : list bytes) : option nat :=
  let i := if index <? 0 then alen l + index else index in
  if decide (0 <= i < alen l) then Some (Z.to_nat i) else None.

(** A pointer result: NULL, or the address of the element at the position. *)
Definition ptr_at (m : bytes) (r : res (option Z)) (o : option nat) : Prop :=
  exists p, r = Ok p /\ match o with Some i => exists q, p = Some q /\ nth_ptr m i = Ok q | None => p = None end.

Lemma alen_map {A B} (f : A -> B) l : alen (map f l) = alen l.
Proof. unfold alen. by rewrite length_map. Qed.

Lemma listpack_seek m l index : listpack m l -> - 2 ^ 63 <= index < 2 ^ 63 -> ptr_at m (lpSeek m index) (seek_pos index l).
Proof.
  intros (es & (num & slack & -> & Hwf) & <-) Hi. unfold ptr_at, seek_pos. rewrite (seek_at num es slack Hwf index Hi), alen_map.
  cbv zeta. set (i := if index <? 0 then alen es + index else index). eexists. split; [done|].
  destruct (decide (0 <= i < alen es)) as [Hr|]; [|done]. eexists. split; [done|].
  replace (Z.to_nat i) with (length (take (Z.to_nat i) es)) at 1 by (rewrite length_take; unfold alen in *; lia).
  eapply nth_ptr_at; [done|by rewrite take_drop].
Qed.

Lemma listpack_length m l : listpack m l -> exists m', lpLength m = Ok (alen l, m') /\ listpack m' l.
Proof.
  intros (es & (num & slack & -> & Hwf) & <-). destruct (length_at num es slack Hwf) as (num' & -> & Hwf').
  rewrite alen_map. eexists. split; [done|]. exists es. split; [|done]. by exists num', slack.
Qed.

Lemma ptr_at_intro num es slack xs ys r : lp_wf num es -> es = xs ++ ys -> r = Ok (Some (off xs)) ->
  ptr_at (lp_image num es slack) r (Some (length xs)).
Proof. intros Hwf Hes ->. eexists. split; [done|]. eexists. split; [done|]. by eapply nth_ptr_at. Qed.

(** Moving from the [i]-th element. *)
Lemma listpack_move m l i p : listpack m l -> (i < length l)%nat -> nth_ptr m i = Ok p ->
  ptr_at m (lpNext m p) (if decide (S i < length l)%nat then Some (S i) else None) /\
  ptr_at m (lpPrev m p) (match i with S j => Some j | O => None end).
Proof.
  intros Hl Hi Hp. destruct (listpack_at m l i Hl Hi) as (xs & e & ys & Hrep & <- & Hxs & He & Hys).
  rewrite (nth_ptr_rep _ _ _ Hrep) in Hp. injection Hp as <-. destruct Hrep as (num & slack & -> & Hwf).
  apply (f_equal length) in Hys. rewrite length_map, length_drop in Hys. split.
  - rewrite (next_at num _ slack Hwf xs e ys eq_refl). destruct ys as [|e' ys].
    + rewrite decide_False by (simpl in Hys; lia). by eexists.
    + rewrite decide_True by (simpl in Hys; lia). replace (S (length xs)) with (length (xs ++ [e])) by (rewrite length_app; simpl; lia).
      apply (ptr_at_intro _ _ _ _ (e' :: ys) _ Hwf); [by rewrite <- app_assoc|done].
  - destruct xs as [|x xs _] using rev_ind; [by eexists|]. rewrite length_app, Nat.add_1_r.
    assert ((xs ++ [x]) ++ e :: ys = xs ++ x :: e :: ys) as Heq by (by rewrite <- app_assoc). rewrite Heq in *.
    by apply (ptr_at_intro _ _ _ _ (x :: e :: ys) _ Hwf); [|apply (prev_at num _ slack Hwf xs x (e :: ys))].
Qed.

Lemma find_from_le s skip c l k : find_from s skip c l = Some k -> (k <= length l)%nat.
Proof.
  revert c k. induction l as [|x l IH]; intros c k; [done|]. cbn [find_from length].
  destruct c; [case_bool_decide; [intros [= <-]; lia|]|];
    (destruct (find_from s skip _ l) as [k'|] eqn:E; [|done]; intros [= <-]; specialize (IH _ _ E); lia).
Qed.

(** Reading, comparing and searching from the [i]-th element. *)
Lemma listpack_read m l i p s : listpack m l -> nth_ptr m i = Ok p -> l !! i = Some s ->
  (forall intbuf, LP_INTBUF_SIZE <= alen intbuf -> lpGet_buf m p intbuf = Ok s) /\
  (forall s', lpCompare m p s' = Ok (bool_decide (s = s'))) /\
  (forall s' skip, ptr_at m (lpFind m p s' (Z.of_nat skip)) (Nat.add i <$> find_from s' skip 0 (drop i l))).
Proof.
  intros Hl Hp Hs. pose proof (lookup_lt_Some _ _ _ Hs) as Hi.
  destruct (listpack_at m l i Hl Hi) as (xs & e & ys & Hrep & <- & Hxs & He & Hys).
  rewrite (nth_ptr_rep _ _ _ Hrep) in Hp. injection Hp as <-. destruct Hrep as (num & slack & -> & Hwf).
  rewrite Hs in He. injection He as ->. split; [|split].
  - intros intbuf Hb. by apply (get_buf_at num _ slack Hwf xs e ys).
  - intros s'. by apply (compare_at num _ slack Hwf xs e ys).
  - intros s' skip. rewrite (find_at num _ slack Hwf xs e ys s' skip eq_refl).
    assert (map dec_str (e :: ys) = drop (length xs) l) as <-.
    { cbn [map]. rewrite Hys. symmetry. by apply drop_S. }
    eexists. split; [done|]. destruct (find_from s' skip 0 (map dec_str (e :: ys))) as [k|] eqn:Hk; [|done].
    eexists. split; [done|].
    pose proof (find_from_le _ _ _ _ _ Hk) as Hkl. rewrite length_map in Hkl.
    replace (length xs + k)%nat with (length (xs ++ take k (e :: ys))) by (rewrite length_app, length_take; lia).
    eapply nth_ptr_at; [done|]. rewrite <- app_assoc. by rewrite take_drop.
Qed.

(** A block with three elements, the last two bytes unused: "12", "abc", "-5000". *)
Definition three : bytes := [18; 0; 0; 0; 3; 0; 12; 1; 131; 97; 98; 99; 4; 241; 120; 236; 3; 255; 170; 170].
Definition three_strings : list bytes := [[49; 50]; [97; 98; 99]; [45; 53; 48; 48; 48]].

Lemma three_listpack : listpack three three_strings.
Proof.
  exists [[12]; [131; 97; 98; 99]; [241; 120; 236]]. split; [|by vm_compute]. exists 3, [170; 170]. split; [by vm_compute|].
  split; [|split; [by vm_compute|split; [by vm_compute|by right]]].
  repeat (apply Forall_cons; split); [..|done];
    (split; [repeat (apply Forall_cons; split; [by vm_compute|]); done|split; [by vm_compute|eexists; split; [by vm_compute|done]]]).
Qed.

(** ** Properties *)

(** C11. A listpack answers as the list of strings it holds: [lpSeek] finds the
    element of an index counted from either end, [lpLength] counts the
    elements (and keeps them), [lpNext] and [lpPrev] move by one element in
    either direction with NULL at the ends, [lpGet] returns the string stored,
    whether it is encoded as bytes or as an integer, [lpCompare] decides
    equality of strings, and [lpFind] finds the first match among every
    [skip + 1]-th element.  None of them reads outside the block or fails an
    assert, however the elements are encoded. *)
Theorem listpack_queries m l : listpack m l ->
  (forall index, - 2 ^ 63 <= index < 2 ^ 63 -> ptr_at m (lpSeek m index) (seek_pos index l)) /\
  (exists m', lpLength m = Ok (alen l, m') /\ listpack m' l) /\
  (forall i p s, nth_ptr m i = Ok p -> l !! i = Some s ->
    ptr_at m (lpNext m p) (if decide (S i < length l)%nat then Some (S i) else None) /\
    ptr_at m (lpPrev m p) (match i with S j => Some j | O => None end) /\
    (forall intbuf, LP_INTBUF_SIZE <= alen intbuf -> lpGet_buf m p intbuf = Ok s) /\
    (forall s', lpCompare m p s' = Ok (bool_decide (s = s'))) /\
    (forall s' skip, ptr_at m (lpFind m p s' (Z.of_nat skip)) (Nat.add i <$> find_from s' skip 0 (drop i l)))).
Proof.
  intros Hl. split; [by intros; apply listpack_seek|]. split; [by apply listpack_length|]. intros i p s Hp Hs.
  destruct (listpack_move m l i p Hl (lookup_lt_Some _ _ _ Hs) Hp) as [? ?].
  split; [done|]. split; [done|]. by apply listpack_read.
Qed.

Lemma listpack_queries_witness : lpGet_buf three 13 (replicate 21 0) = Ok [45; 53; 48; 48; 48] /\
  lpFind three 6 [45; 53; 48; 48; 48] 1 = Ok (Some 13) /\ lpSeek three (-2) = Ok (Some 8).
Proof.
  pose proof (listpack_queries three three_strings three_listpack) as (Hseek & _ & Hget).
  split; [|split].
  - destruct (Hget 2%nat 13 [45; 53; 48; 48; 48] ltac:(by vm_compute) eq_refl) as (_ & _ & Hg & _). apply Hg. by vm_compute.
  - destruct (Hget 0%nat 6 [49; 50] ltac:(by vm_compute) eq_refl) as (_ & _ & _ & _ & Hf).
    destruct (Hf [45; 53; 48; 48; 48] 1%nat) as (q & Hq & x & -> & Hx). change (Z.of_nat 1) with 1 in Hq. rewrite Hq.
    vm_compute in Hx. by injection Hx as <-.
  - destruct (Hseek (-2) ltac:(lia)) as (q & -> & x & -> & Hx). vm_compute in Hx. by injection Hx as <-.
Defined.
