(* ===== verification/ListpackUpdate.v ===== *)
(** * Listpacks: updates act on the list of strings

    [lpInsert] in all its uses, the deletion of ranges and of batches, and the
    merge, proved to perform the corresponding list operation for every
    allocator that respects the contract of [realloc]. *)
From S2P Require Import Prelude IntString ByteMem Listpack ListpackRefine.

(** The contract of [realloc]: at least [n] bytes, the common prefix kept. *)
Definition realloc_keeps (ra : bytes -> Z -> option bytes) : Prop := forall m n m', 0 <= n -> ra m n = Some m' ->
  n <= alen m' /\ let k := Z.to_nat (Z.min n (alen m)) in take k m' = take k m.

(** The contract of [malloc]. *)
Definition malloc_gives (ma : Z -> option bytes) : Prop := forall n m, ma n = Some m -> n <= alen m.

(** A concrete allocator that meets it: exact sizes, new bytes hold 170. *)
Definition sys_realloc (m : bytes) (n : Z) : option bytes :=
  Some (take (Z.to_nat n) (m ++ replicate (Z.to_nat n - length m) 170)).

Lemma sys_realloc_keeps : realloc_keeps sys_realloc.
Proof.
  intros m n m' Hn [= <-]. unfold alen. split.
  - rewrite length_take, length_app, length_replicate. lia.
  - rewrite take_take. rewrite (Nat.min_l _ (Z.to_nat n)) by lia. rewrite take_app_le by lia. done.
Qed.

Section updates.
Context (lp_realloc : bytes -> Z -> option bytes) (Hra : realloc_keeps lp_realloc).

Lemma realloc_prefix a b n m' : alen a <= n -> lp_realloc (a ++ b) n = Some m' -> exists b', m' = a ++ b' /\ n <= alen a + alen b'.
Proof.
  intros Ha Hr. pose proof (alen_nonneg a). assert (0 <= n) as Hn by lia. destruct (Hra _ _ _ Hn Hr) as [Hl Hk]. cbv zeta in Hk.
  apply (f_equal (take (length a))) in Hk. rewrite !take_take in Hk.
  rewrite Nat.min_l in Hk; [|rewrite alen_app; pose proof (alen_nonneg b); unfold alen in *; lia].
  rewrite take_app_length in Hk. exists (drop (length a) m'). rewrite <- Hk at 1. rewrite take_drop. split; [done|].
  rewrite <- (take_drop (length a) m'), Hk, alen_app in Hl. done.
Qed.

(** The number of elements written back after an insertion or a deletion. *)
Definition new_num (del_ele : bool) (where_ : lpwhere) (num : Z) : Z :=
  if del_ele || match where_ with LP_REPLACE => false | _ => true end then
    if num =? LP_HDR_NUMELE_UNKNOWN then num
    else if del_ele then (num -32 1)%mach else (num +32 1)%mach
  else num.

(** The reallocations before and after the move. *)
Lemma grow_block a s old new : old = alen a ->
  match (if (old <? new) && (alen (a ++ s) <? new) then lp_realloc (a ++ s) new else Some (a ++ s)) with
  | None => exists m n, lp_realloc m n = None
  | Some m' => exists s', m' = a ++ s' /\ new <= alen a + alen s'
  end.
Proof.
  intros ->. pose proof (alen_nonneg s). rewrite alen_app. case_if.
  - destruct (lp_realloc (a ++ s) new) as [m'|] eqn:Hr; [|by eauto]. apply realloc_prefix in Hr; [done|lia].
  - exists s. split; [done|]. apply andb_false_iff in E as [?|?]; cmp_prop; lia.
Qed.

Lemma shrink_block a s (c : bool) new : new = alen a ->
  match (if c then lp_realloc (a ++ s) new else Some (a ++ s)) with
  | None => exists m n, lp_realloc m n = None
  | Some m' => exists s', m' = a ++ s'
  end.
Proof.
  intros ->. destruct c; [|by eauto]. destruct (lp_realloc (a ++ s) _) as [m'|] eqn:Hr; [|by eauto].
  apply realloc_prefix in Hr as (b' & -> & _); [eauto|lia].
Qed.

(** [*newp]: NULL when the deleted entry was the last one. *)
Lemma newp_spec q y b s (del_ele : bool) h : ld b 0 = Ok h -> (del_ele = true -> y = []) ->
  (if del_ele then x ← ld (q ++ y ++ b ++ s) (alen q); Ok (if x =? LP_EOF then None else Some (alen q))
   else Ok (Some (alen q))) = Ok (if del_ele && (h =? LP_EOF) then None else Some (alen q)).
Proof.
  intros Hh Hy. destruct del_ele; [|done]. rewrite Hy by done. cbn [app].
  by rewrite (ld_frame0 _ _ _ _ Hh), bind_ok.
Qed.

(** The entry and its length written over [y]. *)
Lemma put_entry q y b enc enclen backlen :
  match enc with Some e => alen e = enclen /\ alen y = alen e + alen backlen | None => y = [] end ->
  (match enc with Some e => m ← st (q ++ y ++ b) (alen q) e; st m (alen q + enclen) backlen | None => Ok (q ++ y ++ b) end)
  = Ok (q ++ (match enc with Some e => e ++ backlen | None => [] end) ++ b).
Proof.
  destruct enc as [e|]; [|by intros ->]. intros [<- Hy].
  pose proof (alen_nonneg e). pose proof (alen_nonneg backlen).
  destruct (cut_at y (alen e)) as (y1 & y2 & -> & H1); [lia|]. rewrite alen_app in Hy.
  rewrite (st_at q y1 e (y2 ++ b)), bind_ok; [|by rewrite <- app_assoc|done|done].
  rewrite (st_at (q ++ e) y2 backlen b); [by rewrite <- !app_assoc|by rewrite <- !app_assoc|by rewrite alen_app|lia].
Qed.

(** The header after the update. *)
Lemma put_num t num x del_ele where_ : in_u 16 num ->
  (if del_ele || match where_ with LP_REPLACE => false | _ => true end then
     num_elements ← lpGetNumElements (hdr t num ++ x);
     if num_elements =? LP_HDR_NUMELE_UNKNOWN then Ok (hdr t num ++ x)
     else if del_ele then lpSetNumElements (hdr t num ++ x) (num_elements -32 1)%mach
     else lpSetNumElements (hdr t num ++ x) (num_elements +32 1)%mach
   else Ok (hdr t num ++ x)) = Ok (hdr t (new_num del_ele where_ num) ++ x).
Proof.
  intros Hn. unfold new_num. case_if; [|done]. rewrite get_num, bind_ok by done. rewrite !set_num. by repeat case_if.
Qed.

(** Storing [x] (the entry, or nothing) in place of [r], with the tail [b]
    (which ends with the EOF byte) moved behind it. *)
Lemma store_entry_spec num p r b s del_ele where_ enc enclen backlen h :
  let x := match enc with Some e => e ++ backlen | None => [] end in
  let old := 6 + alen p + alen r + alen b in
  let new := 6 + alen p + alen x + alen b in
  in_u 16 num -> old <= UINT32_MAX -> ld b 0 = Ok h ->
  match enc with Some e => alen e = enclen | None => enclen = 0 /\ backlen = [] end ->
  del_ele = match enc with Some _ => false | None => true end ->
  0 <= enclen <= UINT32_MAX + 5 -> alen backlen <= 5 ->
  exists res, store_entry lp_realloc (hdr old num ++ p ++ r ++ b ++ s) del_ele where_ (6 + alen p) enc enclen backlen old (alen r)
    = Ok res /\
  match res with
  | None => UINT32_MAX < new \/ exists m n, lp_realloc m n = None
  | Some (m', newp) => new <= UINT32_MAX /\
      (exists s', m' = hdr new (new_num del_ele where_ num) ++ p ++ x ++ b ++ s') /\
      newp = if del_ele && (h =? LP_EOF) then None else Some (6 + alen p)
  end.
Proof.
  intros x old new Hnum Hold Hh Henc Hdel Hel Hbl. unfold store_entry. unfold UINT32_MAX in *.
  pose proof (alen_nonneg p). pose proof (alen_nonneg r). pose proof (alen_nonneg b). pose proof (alen_nonneg s).
  assert (alen x = enclen + alen backlen) as Hx.
  { unfold x. destruct enc; [rewrite alen_app; lia|]. destruct Henc as [-> ->]. done. }
  pose proof (alen_nonneg backlen).
  assert (old = 6 + alen p + alen r + alen b) as Eo by done. assert (new = 6 + alen p + alen x + alen b) as En by done.
  replace (u64 (old + enclen + alen backlen - alen r)) with new by (clearbody old new x; rewrite wrap_small; [lia|mach]).
  cbv zeta. destruct (4294967295 <? new) eqn:Hbig; cmp_prop; [eexists; split; [done|by left]|].
  pose proof (grow_block (hdr old num ++ p ++ r ++ b) s old new ltac:(rewrite !alen_app, alen_hdr; lia)) as Hg.
  rewrite <- !app_assoc in Hg. destruct (if _ && _ then _ else _) as [m1|]; [|eexists; split; [done|by right]].
  destruct Hg as (s1 & -> & Hroom). rewrite <- !app_assoc. rewrite !alen_app, alen_hdr in Hroom.
  destruct (memmove_gap (hdr old num ++ p) r b s1 (alen x)) as (y & s2 & Hy & _ & Hmv);
    [pose proof (alen_nonneg backlen); clearbody old new x; lia|].
  rewrite <- !app_assoc, !alen_app, alen_hdr in Hmv. rewrite <- Hx.
  replace (u64 (old - (6 + alen p) - alen r)) with (alen b) by (clearbody old new x; rewrite wrap_small; [lia|mach]).
  rewrite Hmv, bind_ok.
  pose proof (shrink_block (hdr old num ++ p ++ y ++ b) s2 (new <? old) new ltac:(rewrite !alen_app, alen_hdr; lia)) as Hs.
  rewrite <- !app_assoc in Hs. destruct (if new <? old then _ else _) as [m2|]; [|eexists; split; [done|by right]].
  destruct Hs as (s3 & ->). rewrite <- !app_assoc.
  pose proof (newp_spec (hdr old num ++ p) y b s3 del_ele h Hh) as Hnp. rewrite <- !app_assoc, !alen_app, alen_hdr in Hnp.
  rewrite Hnp by (rewrite Hdel; unfold x in Hy; destruct enc; [done|by destruct y]). rewrite bind_ok.
  pose proof (put_entry (hdr old num ++ p) y (b ++ s3) enc enclen backlen) as Hp.
  rewrite <- !app_assoc, !alen_app, alen_hdr in Hp. rewrite Hp by (unfold x in Hy; destruct enc; [rewrite alen_app in Hy; lia|by destruct y]).
  rewrite bind_ok. fold x. rewrite put_num, bind_ok, set_total by done. eexists. split; [done|].
  split; [lia|]. split; [eauto|]. done.
Qed.
(** ** [lpInsert] *)
Definition opt_list {A} (o : option A) : list A := match o with Some x => [x] | None => [] end.

Lemma image_parts num xs rs ys slack : lp_image num (xs ++ rs ++ ys) slack =
  hdr (6 + alen (body xs) + alen (body rs) + alen (body ys ++ [LP_EOF])) num ++ body xs ++ body rs ++
  (body ys ++ [LP_EOF]) ++ slack.
Proof.
  unfold lp_image, total. rewrite !body_app, !alen_app, <- !app_assoc. change (alen [LP_EOF]) with 1. do 2 f_equal. lia.
Qed.

Lemma head_of_tail ys : Forall wf_enc ys ->
  exists h, ld (body ys ++ [LP_EOF]) 0 = Ok h /\ (h =? LP_EOF) = bool_decide (ys = []).
Proof.
  destruct ys as [|e ys]; [by exists LP_EOF|]. intros [(_ & _ & h & Hh & Hne) _]%Forall_cons. exists h. split.
  - rewrite body_cons. unfold entry. rewrite <- !app_assoc. by eapply (ld_at [] e _ _ _ 0).
  - rewrite bool_decide_false by done. by apply Z.eqb_neq.
Qed.

(** The element count after one insertion, deletion or replacement. *)
Lemma new_num_ok del where_ num n : in_u 16 num -> num = LP_HDR_NUMELE_UNKNOWN \/ num = n -> (del = true -> 1 <= n) ->
  let n' := if del then n - 1 else match where_ with LP_REPLACE => n | _ => n + 1 end in
  in_u 16 (new_num del where_ num) /\ (new_num del where_ num = LP_HDR_NUMELE_UNKNOWN \/ new_num del where_ num = n').
Proof.
  intros Hn Hc Hd. cbv zeta. unfold new_num, LP_HDR_NUMELE_UNKNOWN in *.
  destruct del, where_; cbn [orb]; try (by split; [|tauto]); case_if; try (split; [done|tauto]);
    destruct Hc as [?| ->]; try lia; rewrite wrap_small by mach; (split; [mach|tauto]).
Qed.

Lemma encode_len ele enc n : encode_element ele = (enc, n) ->
  match enc with Some e => alen e = n | None => n = 0 end /\
  match ele with EleDel => true | _ => false end = match enc with Some _ => false | None => true end.
Proof.
  destruct ele as [s|e|]; cbn -[lpEncodeIntegerGetType lpEncodeString]; [|by intros [= <- <-]..].
  unfold lpEncodeGetType. destruct (string2llScalar s); [by intros [= <- <-]|]. intros [= <- <-]. split; [|done].
  unfold lpEncodeString. repeat case_if; rewrite !alen_cons; lia.
Qed.

Lemma update_wf num xs r ys ele enc enclen where_ :
  lp_wf num (xs ++ opt_list r ++ ys) -> ele_ok ele -> encode_element ele = (enc, enclen) -> enclen <= UINT32_MAX ->
  (r = None -> ele <> EleDel /\ where_ = LP_BEFORE) -> (is_Some r -> where_ = LP_REPLACE) ->
  total (xs ++ opt_list enc ++ ys) <= UINT32_MAX ->
  lp_wf (new_num (match ele with EleDel => true | _ => false end) where_ num) (xs ++ opt_list enc ++ ys).
Proof.
  intros (Hall & Hsz & Hnum & Hcount) Hok Henc Hel Hr1 Hr2 Ht. destruct (encode_len _ _ _ Henc) as [_ Hdel].
  apply Forall_app in Hall as (Hxs & Hall'). apply Forall_app in Hall' as (Hr & Hys).
  pose proof (encode_element_spec _ _ _ Hok Henc Hel) as Hspec.
  set (del := match ele with EleDel => true | _ => false end) in *.
  pose proof (alen_nonneg xs). pose proof (alen_nonneg ys).
  destruct (new_num_ok del where_ num (alen (xs ++ opt_list r ++ ys)) Hnum Hcount) as [H1 H2].
  { intros Hd. rewrite !alen_app. destruct r as [r|]; [change (alen (opt_list (Some r))) with 1; lia|].
    destruct ele; try done. by destruct (Hr1 eq_refl). }
  split; [|split; [done|split; [done|]]].
  - rewrite !Forall_app. split; [done|]. split; [|done]. destruct enc; [|by constructor].
    apply Forall_singleton. by destruct (ele_str ele), Hspec.
  - destruct H2 as [?|H2]; [by left|right]. rewrite H2, Hdel, !alen_app.
    destruct enc as [e|], r as [r|]; cbn [opt_list]; rewrite ?alen_cons, ?alen_nil; try lia.
    + rewrite (Hr2 ltac:(eauto)). lia.
    + destruct (Hr1 eq_refl) as [_ ->]. lia.
    + exfalso. destruct (Hr1 eq_refl) as [Hne _]. by destruct ele.
Qed.

Lemma store_apply num xs r ys slack ele enc enclen where_ :
  lp_wf num (xs ++ opt_list r ++ ys) -> ele_ok ele -> encode_element ele = (enc, enclen) -> 0 <= enclen <= UINT32_MAX + 5 ->
  (r = None -> ele <> EleDel /\ where_ = LP_BEFORE) -> (is_Some r -> where_ = LP_REPLACE) ->
  let del := match ele with EleDel => true | _ => false end in
  exists res, store_entry lp_realloc (lp_image num (xs ++ opt_list r ++ ys) slack) del where_ (off xs) enc enclen
    (if del then [] else lpEncodeBacklen enclen) (total (xs ++ opt_list r ++ ys)) (alen (body (opt_list r))) = Ok res /\
  match res with
  | None => UINT32_MAX < total (xs ++ opt_list enc ++ ys) \/ exists m n, lp_realloc m n = None
  | Some (m', newp) => enclen <= UINT32_MAX /\ lp_rep m' (xs ++ opt_list enc ++ ys) /\
      newp = if del && bool_decide (ys = []) then None else Some (off xs)
  end.
Proof.
  intros Hwf Hok Henc Hel Hr1 Hr2 del. pose proof Hwf as (Hall & Hsz & Hnum & Hcount).
  destruct (encode_len _ _ _ Henc) as [Hlen Hdel]. rewrite image_parts.
  apply Forall_app in Hall as (Hxs & Hall'). apply Forall_app in Hall' as (Hr & Hys).
  destruct (head_of_tail ys Hys) as (h & Hh & Heq).
  set (bl := if del then [] else lpEncodeBacklen enclen).
  assert (total (xs ++ opt_list r ++ ys) = 6 + alen (body xs) + alen (body (opt_list r)) + alen (body ys ++ [LP_EOF])) as Ht.
  { unfold total. rewrite !body_app, !alen_app. change (alen [LP_EOF]) with 1. lia. }
  assert (body (opt_list enc) = match enc with Some e => e ++ bl | None => [] end) as Hb.
  { destruct enc as [e|]; [|done]. unfold bl, del. rewrite Hdel. cbn. unfold entry. by rewrite Hlen, app_nil_r. }
  destruct (store_entry_spec num (body xs) (body (opt_list r)) (body ys ++ [LP_EOF]) slack del where_ enc enclen bl h)
    as (res & Hst & Hres); try done.
  { by rewrite <- Ht. }
  { destruct enc; [done|]. split; [done|]. unfold bl, del. by rewrite Hdel. }
  { unfold bl. destruct del; [rewrite alen_nil; lia|]. pose proof (backlen_size_bound enclen). unfold backlen_size in *. lia. }
  rewrite Ht. unfold off. exists res. split; [exact Hst|]. rewrite <- Hb in Hres.
  assert (6 + alen (body xs) + alen (body (opt_list enc)) + alen (body ys ++ [LP_EOF]) = total (xs ++ opt_list enc ++ ys)) as Hn.
  { unfold total. rewrite !body_app, !alen_app. change (alen [LP_EOF]) with 1. lia. }
  rewrite Hn in Hres. destruct res as [[m' newp]|]; [|done]. destruct Hres as (Hle & (s' & ->) & ->).
  assert (enclen <= UINT32_MAX) as He.
  { destruct enc as [e|]; [|unfold UINT32_MAX in *; lia]. rewrite <- Hlen. revert Hle. unfold total.
    rewrite !body_app, !alen_app, Hb, alen_app. pose proof (alen_nonneg bl). pose proof (alen_nonneg (body xs)).
    pose proof (alen_nonneg (body ys)). lia. }
  split; [done|]. split; [|by rewrite Heq].
  exists (new_num del where_ num), s'. split; [rewrite image_parts, <- Hn; done|].
  by apply (update_wf num xs r ys ele enc enclen).
Qed.
Lemma enclen_bound ele enc n : ele_ok ele -> encode_element ele = (enc, n) -> 0 <= n <= UINT32_MAX + 5.
Proof.
  intros Hok He. destruct (encode_len _ _ _ He) as [Hlen _].
  assert (0 <= n) as H0 by (destruct enc as [e|]; [rewrite <- Hlen; apply alen_nonneg|lia]). split; [done|]. revert He.
  destruct ele as [s|e|]; cbn -[lpEncodeIntegerGetType lpEncodeString]; unfold UINT32_MAX in *.
  - unfold lpEncodeGetType. destruct (string2llScalar s) as [v|]; intros [= <- <-].
    + unfold lpEncodeIntegerGetType. repeat case_if; cbn; unfold alen; simpl; lia.
    + destruct Hok as [_ Hl]. unfold UINT32_MAX in Hl. repeat case_if; lia.
  - intros [= <- <-]. destruct Hok as (v & _ & ->). unfold lpEncodeIntegerGetType. repeat case_if; cbn; unfold alen; simpl; lia.
  - intros [= <- <-]. lia.
Qed.

(** What an update to the encodings [es'] may answer. *)
Definition upd_post (es' : list bytes) (newp : option Z) (res : option (bytes * option Z)) : Prop :=
  match res with
  | None => UINT32_MAX < total es' \/ exists m n, lp_realloc m n = None
  | Some (m', np) => lp_rep m' es' /\ np = newp
  end.

Lemma insert_before_raw m xs ys ele enc n : lp_rep m (xs ++ ys) -> ele_ok ele -> ele <> EleDel ->
  encode_element ele = (enc, n) ->
  exists res, lpInsert lp_realloc m ele (off xs) LP_BEFORE = Ok res /\ upd_post (xs ++ opt_list enc ++ ys) (Some (off xs)) res.
Proof.
  intros (num & slack & -> & Hwf) Hok Hne Henc.
  destruct (store_apply num xs None ys slack ele enc n LP_BEFORE) as (res & Hres & Hpost); try done.
  { by eapply enclen_bound. }
  exists res. split.
  - unfold lpInsert. destruct (encode_len _ _ _ Henc) as [_ Hd]. rewrite Henc.
    rewrite image_total by done. destruct ele; [..|done]; exact Hres.
  - destruct res as [[m' np]|]; [|done]. cbn. destruct Hpost as (_ & ? & ->). destruct ele; done.
Qed.

Lemma insert_replace_raw m xs r ys ele enc n where_ : lp_rep m (xs ++ r :: ys) -> ele_ok ele ->
  (ele = EleDel \/ where_ = LP_REPLACE) -> encode_element ele = (enc, n) ->
  exists res, lpInsert lp_realloc m ele (off xs) where_ = Ok res /\
    upd_post (xs ++ opt_list enc ++ ys)
      (if match ele with EleDel => true | _ => false end && bool_decide (ys = []) then None else Some (off xs)) res.
Proof.
  intros (num & slack & -> & Hwf) Hok Hw Henc.
  destruct (store_apply num xs (Some r) ys slack ele enc n LP_REPLACE) as (res & Hres & Hpost); try done.
  { by eapply enclen_bound. }
  exists res. split.
  - unfold lpInsert. pose proof (off_lt _ xs r ys eq_refl). pose proof (off_ge xs). pose proof (total_off (xs ++ r :: ys)).
    pose proof (alen_small _ _ _ _ _ Hwf eq_refl). pose proof (backlen_size_bound (alen r)).
    assert (forall w : lpwhere, (if match ele with EleDel => true | _ => false end then LP_REPLACE else where_) = LP_REPLACE) as Hw'.
    { intros _. destruct Hw as [-> | ->]; [done|by destruct ele]. }
    rewrite (Hw' where_), bind_ok, Henc, image_total, bind_ok, (size_at _ _ _ Hwf _ _ _ eq_refl), bind_ok by done.
    cbv zeta. rewrite wrap_small by mach. rewrite assert_true, bind_ok by (unfold LP_HDR_SIZE; apply andb_true_iff; lia).
    rewrite bind_ok. cbn [opt_list app] in Hres. rewrite body_cons, alen_app, alen_entry in Hres. change (alen (body [])) with 0 in Hres. rewrite Z.add_0_r in Hres. exact Hres.
  - destruct res as [[m' np]|]; [|done]. cbn. by destruct Hpost as (_ & ? & ->).
Qed.

Lemma insert_after_raw m xs e ys ele enc n : lp_rep m (xs ++ e :: ys) -> ele_ok ele -> ele <> EleDel ->
  encode_element ele = (enc, n) ->
  exists res, lpInsert lp_realloc m ele (off xs) LP_AFTER = Ok res /\
    upd_post ((xs ++ [e]) ++ opt_list enc ++ ys) (Some (off (xs ++ [e]))) res.
Proof.
  intros Hrep Hok Hne Henc.
  destruct (insert_before_raw m (xs ++ [e]) ys ele enc n) as (res & Hres & Hpost); [by rewrite <- app_assoc|done..|].
  exists res. split; [|done]. rewrite <- Hres. destruct Hrep as (num & slack & -> & Hwf).
  unfold lpInsert. pose proof (off_lt _ xs e ys eq_refl). pose proof (off_ge xs). pose proof (total_off (xs ++ e :: ys)).
  pose proof (wf_enc_pos e (wf_at _ _ _ _ _ Hwf eq_refl)). pose proof (backlen_size_bound (alen e)).
  destruct ele; [..|done]; cbv iota zeta;
    rewrite (skip_at _ _ _ Hwf _ _ _ eq_refl), bind_ok, image_total, !bind_ok by done;
    (rewrite assert_true; [done|]); unfold LP_HDR_SIZE; rewrite off_snoc; apply andb_true_iff; lia.
Qed.

(** ** The contract of [lpInsert] *)
Definition list_update (where_ : lpwhere) (i : nat) (o : option bytes) (l : list bytes) : list bytes :=
  match o with
  | None => delete i l
  | Some s =>
      match where_ with
      | LP_BEFORE => take i l ++ s :: drop i l
      | LP_AFTER => take (S i) l ++ s :: drop (S i) l
      | LP_REPLACE => <[i := s]> l
      end
  end.

(** The bytes an element needs. *)
Definition needed (ele : lpele) : Z := match fst (encode_element ele) with Some e => alen (entry e) | None => 0 end.

Definition insert_post (m : bytes) (ele : lpele) (p : Z) (i : nat) (where_ : lpwhere) (l : list bytes)
    (r : option (bytes * option Z)) : Prop :=
  match r with
  | None => (exists t, lpGetTotalBytes m = Ok t /\ UINT32_MAX < t + needed ele) \/ exists m n, lp_realloc m n = None
  | Some (m', newp) =>
      listpack m' (list_update where_ i (ele_str ele) l) /\
      match ele with
      | EleDel => newp = if decide (S i = length l) then None else Some p
      | _ => exists q, newp = Some q /\ nth_ptr m' (match where_ with LP_AFTER => S i | _ => i end) = Ok q
      end
  end.

Lemma stored_dec m' xs ys ele enc n : ele_ok ele -> encode_element ele = (enc, n) -> lp_rep m' (xs ++ opt_list enc ++ ys) ->
  map dec_str (opt_list enc) = opt_list (ele_str ele).
Proof.
  intros Hok Henc (num & slack & _ & Hwf). destruct (encode_len _ _ _ Henc) as [Hlen _].
  assert (n <= UINT32_MAX) as Hn.
  { destruct enc as [e|]; [|subst; unfold UINT32_MAX; lia]. pose proof (alen_small _ _ _ _ _ Hwf eq_refl).
    unfold UINT32_MAX. mach. }
  pose proof (encode_element_spec _ _ _ Hok Henc Hn) as H. destruct enc, (ele_str ele); try done.
  destruct H as (_ & <- & _). done.
Qed.

Lemma total_needed xs rs ys ele enc n : encode_element ele = (enc, n) ->
  total (xs ++ opt_list enc ++ ys) <= total (xs ++ rs ++ ys) + needed ele.
Proof.
  intros Henc. unfold total, needed. rewrite Henc, !body_app, !alen_app. pose proof (alen_nonneg (body rs)).
  destruct enc as [e|]; cbn [opt_list fst]; [|change (alen (body [])) with 0; lia].
  rewrite body_cons, alen_app. change (alen (body [])) with 0. lia.
Qed.

Lemma post_of_raw m xs rs ys ele enc n p i where_ l newp res : lp_rep m (xs ++ rs ++ ys) -> ele_ok ele ->
  encode_element ele = (enc, n) -> upd_post (xs ++ opt_list enc ++ ys) newp res ->
  list_update where_ i (ele_str ele) l = map dec_str xs ++ opt_list (ele_str ele) ++ map dec_str ys ->
  match ele with
  | EleDel => newp = if decide (S i = length l) then None else Some p
  | _ => newp = Some (off xs) /\ length xs = match where_ with LP_AFTER => S i | _ => i end
  end -> insert_post m ele p i where_ l res.
Proof.
  intros Hrep Hok Henc Hpost Hl Hnp. destruct res as [[m' np]|]; cbn in *.
  - destruct Hpost as [Hrep' ->]. split.
    + exists (xs ++ opt_list enc ++ ys). split; [done|]. rewrite Hl, !map_app. by rewrite (stored_dec _ _ _ _ _ _ Hok Henc Hrep').
    + destruct ele; [..|done]; destruct Hnp as [-> <-]; eexists; (split; [done|]); by eapply nth_ptr_rep.
  - destruct Hpost as [Hbig|?]; [left|by right]. destruct Hrep as (num & slack & -> & Hwf).
    exists (total (xs ++ rs ++ ys)). split; [by apply image_total|]. pose proof (total_needed xs rs ys _ _ _ Henc). lia.
Qed.

Lemma drop_nil_iff (ys : list bytes) i (l : list bytes) : map dec_str ys = drop (S i) l -> (i < length l)%nat ->
  bool_decide (ys = []) = bool_decide (S i = length l).
Proof.
  intros H Hi. apply bool_decide_ext. apply (f_equal length) in H. rewrite length_map, length_drop in H.
  split; [intros ->; simpl in H; lia|]. intros. apply nil_length_inv. lia.
Qed.

Lemma insert_spec m l i p ele where_ : listpack m l -> ele_ok ele -> nth_ptr m i = Ok p ->
  (i < length l)%nat \/ i = length l /\ ele <> EleDel /\ where_ = LP_BEFORE ->
  exists r, lpInsert lp_realloc m ele p where_ = Ok r /\ insert_post m ele p i where_ l r.
Proof.
  intros Hl Hok Hp Hi. destruct (encode_element ele) as [enc n] eqn:Henc.
  destruct (decide (ele <> EleDel /\ where_ = LP_BEFORE)) as [[Hne ->]|Hnb].
  { destruct (listpack_split m l i Hl ltac:(lia)) as (xs & ys & Hrep & <- & Hxs & Hys).
    rewrite (nth_ptr_rep _ _ _ Hrep) in Hp. injection Hp as <-.
    destruct (insert_before_raw m xs ys ele enc n Hrep Hok Hne Henc) as (r & Hr & Hpost). exists r. split; [done|].
    apply (post_of_raw m xs [] ys ele enc n _ _ _ _ _ _ Hrep Hok Henc Hpost).
    - rewrite Hxs, Hys. by destruct ele.
    - by destruct ele. }
  assert (i < length l)%nat as Hlt by (destruct Hi as [?|(_ & ? & ?)]; [done|tauto]).
  destruct (listpack_at m l i Hl Hlt) as (xs & e & ys & Hrep & <- & Hxs & He & Hys).
  rewrite (nth_ptr_rep _ _ _ Hrep) in Hp. injection Hp as <-.
  destruct (decide (ele = EleDel \/ where_ = LP_REPLACE)) as [Hrp|Hnr].
  - destruct (insert_replace_raw m xs e ys ele enc n where_ Hrep Hok Hrp Henc) as (r & Hr & Hpost). exists r. split; [done|].
    apply (post_of_raw m xs [e] ys ele enc n _ _ _ _ _ _ Hrep Hok Henc Hpost).
    + rewrite Hxs, Hys. destruct ele; cbn [ele_str list_update opt_list].
      1,2: destruct Hrp as [?| ->]; [done|]; by apply insert_take_drop. apply delete_take_drop.
    + rewrite (drop_nil_iff ys (length xs) l) by done. destruct ele; [| |by rewrite decide_bool_decide; cbn; case_bool_decide].
      all: destruct Hrp as [?| ->]; done.
  - assert (where_ = LP_AFTER /\ ele <> EleDel) as [-> Hne] by (destruct where_, ele; tauto).
    destruct (insert_after_raw m xs e ys ele enc n Hrep Hok Hne Henc) as (r & Hr & Hpost). exists r. split; [done|].
    assert (lp_rep m ((xs ++ [e]) ++ [] ++ ys)) as Hrep' by (by rewrite <- app_assoc).
    apply (post_of_raw m (xs ++ [e]) [] ys ele enc n _ _ _ _ _ _ Hrep' Hok Henc Hpost).
    + rewrite map_app, Hxs, Hys. assert (take (S (length xs)) l = take (length xs) l ++ [dec_str e]) as Ht by (by apply take_S_r).
      destruct ele; [..|done]; cbn [ele_str list_update opt_list map]; by rewrite Ht.
    + destruct ele; [..|done]; rewrite length_app; simpl; (split; [done|lia]).
Qed.

End updates.

(** ** Properties *)

(** C9. [lpInsert], the function behind every update of a listpack, performs
    its list operation: given the address of the [i]-th element (or of the EOF
    byte, for an insertion before it), the block it returns holds the list
    with the string inserted before or after that element, with the element
    replaced, or without it; an integer is stored in its shortest encoding
    and read back as its decimal string.  [*newp] is the address of the new
    element, or of the element that followed the deleted one (NULL at the
    end).  The answer is NULL only if the allocator failed or the new block
    would exceed 2^32 - 1 bytes.  No access is outside the block, before or
    after the reallocations and with the entries moved in place, and no
    assert fails. *)
Theorem lpInsert_refines lp_realloc m l i p ele where_ :
  realloc_keeps lp_realloc -> listpack m l -> ele_ok ele -> nth_ptr m i = Ok p ->
  (i < length l)%nat \/ i = length l /\ ele <> EleDel /\ where_ = LP_BEFORE ->
  exists r, lpInsert lp_realloc m ele p where_ = Ok r /\ insert_post lp_realloc m ele p i where_ l r.
Proof. intros Hra. exact (insert_spec lp_realloc Hra m l i p ele where_). Qed.

(** "77" inserted after "abc", where it has to move "-5000" and grow the block. *)
Lemma lpInsert_refines_witness : exists m' q,
  lpInsert sys_realloc three (EleStr [55; 55]) 8 LP_AFTER = Ok (Some (m', Some q)) /\
  listpack m' [[49; 50]; [97; 98; 99]; [55; 55]; [45; 53; 48; 48; 48]].
Proof.
  destruct (lpInsert_refines sys_realloc three three_strings 1 8 (EleStr [55; 55]) LP_AFTER) as (r & Hr & Hpost).
  - exact sys_realloc_keeps.
  - exact three_listpack.
  - split; [repeat (apply Forall_cons; split; [by vm_compute|]); done|by vm_compute].
  - by vm_compute.
  - left. simpl. lia.
  - rewrite Hr. destruct r as [[m' newp]|].
    + destruct Hpost as [Hl (q & -> & _)]. exists m', q. split; [done|exact Hl].
    + exfalso. vm_compute in Hr. discriminate Hr.
Defined.

(** ** The wrappers at the ends of the list *)
Section wrappers.
Context (lp_malloc : Z -> option bytes) (lp_realloc : bytes -> Z -> option bytes).
Context (Hma : malloc_gives lp_malloc) (Hra : realloc_keeps lp_realloc).

(** A new listpack is the empty list. *)
Lemma lpNew_spec capacity : exists r, lpNew lp_malloc capacity = Ok r /\
  match r with None => exists n, lp_malloc n = None | Some m => listpack m [] end.
Proof using Hma.
  unfold lpNew, LP_HDR_SIZE. set (n := if _ <? capacity then _ else _). assert (7 <= n) as Hn by (unfold n; case_if; lia).
  destruct (lp_malloc n) as [m|] eqn:Hm; [|by eexists; split; [done|eexists]]. apply Hma in Hm.
  destruct (cut_at m 7) as (x & s & -> & Hx); [lia|].
  assert (exists b0 b1 b2 b3 b4 b5 b6, x = [b0; b1; b2; b3; b4; b5; b6]) as (b0 & b1 & b2 & b3 & b4 & b5 & b6 & ->).
  { unfold alen in Hx. do 7 (destruct x as [|? x]; [simpl in Hx; lia|]). destruct x; [|simpl in Hx; lia]. by do 7 eexists. }
  unfold lpSetTotalBytes, lpSetNumElements. rewrite le_bytes4, le_bytes2.
  rewrite (st_at [] [b0; b1; b2; b3] _ ([b4; b5; b6] ++ s)), bind_ok by done.
  rewrite (st_at (le_bytes 4 7) [b4; b5] _ (b6 :: s)), bind_ok by done.
  rewrite (st_at (hdr 7 0) [b6] [LP_EOF] s), bind_ok by done. eexists. split; [done|].
  exists []. split; [|done]. exists 0, s. split; [done|]. split; [done|]. split; [by vm_compute|]. split; [by vm_compute|by right].
Qed.

Lemma eof_ptr m l : listpack m l -> exists t, lpGetTotalBytes m = Ok t /\ nth_ptr m (length l) = Ok (t - 1).
Proof.
  intros (es & (num & slack & -> & Hwf) & <-). exists (total es). split; [by apply image_total|].
  rewrite length_map, total_off, Z.add_simpl_r. by apply (nth_ptr_at num es slack es []); [|rewrite app_nil_r].
Qed.

Lemma lpAppend_spec m l s : listpack m l -> ele_ok (EleStr s) -> exists r p, lpAppend lp_realloc m s = Ok r /\
  insert_post lp_realloc m (EleStr s) p (length l) LP_BEFORE l r.
Proof using Hra.
  intros Hl Hok. destruct (eof_ptr m l Hl) as (t & Ht & Hp). unfold lpAppend. rewrite Ht, bind_ok.
  destruct (insert_spec lp_realloc Hra m l (length l) (t - 1) (EleStr s) LP_BEFORE Hl Hok Hp) as (r & Hr & Hpost); [by right|].
  by exists r, (t - 1).
Qed.

Lemma lpPrepend_spec m l s : listpack m l -> ele_ok (EleStr s) -> exists r p, lpPrepend lp_realloc m s = Ok r /\
  insert_post lp_realloc m (EleStr s) p 0 LP_BEFORE l r.
Proof using Hra.
  intros Hl Hok. pose proof Hl as (es & (num & slack & -> & Hwf) & Hm). unfold lpPrepend. rewrite first_at, bind_ok by done.
  destruct es as [|e es].
  - cbn in Hm. subst l. by apply (lpAppend_spec _ []).
  - assert (nth_ptr (lp_image num (e :: es) slack) 0 = Ok (off [])) as Hp by done.
    destruct (insert_spec lp_realloc Hra _ l 0 _ (EleStr s) LP_BEFORE Hl Hok Hp) as (r & Hr & Hpost).
    { left. subst l. simpl. lia. }
    by exists r, (off []).
Qed.

(** A copy holds the same list. *)
Lemma lpDup_spec m l t : listpack m l -> lpGetTotalBytes m = Ok t ->
  lp_malloc t = None \/ exists m', lpDup lp_malloc m = Ok m' /\ listpack m' l.
Proof using Hma.
  intros (es & (num & slack & -> & Hwf) & <-) Ht. rewrite image_total in Ht by done. injection Ht as <-.
  unfold lpDup. rewrite image_bytes, bind_ok by done. destruct (lp_malloc (total es)) as [m'|] eqn:Hm'; [|by left].
  right. apply Hma in Hm'. cbn [deref]. rewrite bind_ok.
  assert (alen (hdr (total es) num ++ body es ++ [LP_EOF]) = total es) as Ha.
  { rewrite !alen_app, alen_hdr. change (alen [LP_EOF]) with 1. unfold total. lia. }
  rewrite (ldn_at [] (hdr (total es) num ++ body es ++ [LP_EOF]) slack), bind_ok; [| |done|done]; cycle 1.
  { unfold lp_image. cbn [app]. by rewrite <- !app_assoc. }
  destruct (cut_at m' (total es)) as (x & s & -> & Hx); [pose proof (alen_nonneg (hdr (total es) num ++ body es ++ [LP_EOF])); lia|].
  rewrite (st_at [] x _ s) by (done || lia). eexists. split; [done|]. exists es. split; [|done].
  exists num, s. split; [|done]. unfold lp_image. cbn [app]. by rewrite <- !app_assoc.
Qed.
End wrappers.
