(* ===== verification/ListpackBulk.v ===== *)
(** * Listpacks: ranges, batches and merges

    The bulk operations of listpack.c on the list of strings: the deletion of
    a range (both the scan and the shortcut that moves the EOF byte), the
    deletion of a batch of elements in one pass, and the merge that grows the
    larger of the two blocks. *)
From S2P Require Import Prelude IntString ByteMem Listpack ListpackRefine ListpackUpdate.

Section bulk.
Context (lp_realloc : bytes -> Z -> option bytes) (Hra : realloc_keeps lp_realloc).

(** The allocator may have failed. *)
Definition oom : Prop := exists m n, lp_realloc m n = None.

Lemma shrink_image num es slack : lp_wf num es -> exists r, lpShrinkToFit lp_realloc (lp_image num es slack) = Ok r /\
  match r with None => oom | Some m' => exists slack', m' = lp_image num es slack' end.
Proof.
  intros Hwf. unfold lpShrinkToFit. rewrite image_total, bind_ok by done. eexists. split; [done|].
  pose proof (shrink_block lp_realloc Hra (hdr (total es) num ++ body es ++ [LP_EOF]) slack
    (total es <? alen (lp_image num es slack)) (total es)) as H.
  assert (total es = alen (hdr (total es) num ++ body es ++ [LP_EOF])) as Ha.
  { rewrite !alen_app, alen_hdr. change (alen [LP_EOF]) with 1. unfold total. lia. }
  specialize (H Ha). rewrite <- !app_assoc in H. cbn [app] in H. fold (lp_image num es slack) in H.
  destruct (if total es <? _ then _ else _); [|done]. destruct H as (s' & ->). exists s'. unfold lp_image. by rewrite <- !app_assoc.
Qed.

Lemma wf_sub num xs rs ys num' : lp_wf num (xs ++ rs ++ ys) -> in_u 16 num' ->
  num' = LP_HDR_NUMELE_UNKNOWN \/ num' = alen (xs ++ ys) -> lp_wf num' (xs ++ ys).
Proof.
  intros (Hall & Hsz & _) Hn Hc. rewrite !Forall_app in Hall. split; [rewrite Forall_app; tauto|].
  split; [|done]. unfold total in *. rewrite !body_app, !alen_app in *. pose proof (alen_nonneg (body rs)). lia.
Qed.

(** ** Deleting a range *)
Lemma range_loop_at num es slack fuel xs ys n d : lp_wf num es -> es = xs ++ ys -> (length ys <= fuel)%nat -> 0 <= n ->
  (ys = [] -> n = 0) -> let ds := take (Z.to_nat n) ys in
  range_loop fuel (lp_image num es slack) (total es) (off xs) n d = Ok (off (xs ++ ds), d + alen ds).
Proof.
  intros Hwf. revert xs ys n d. induction fuel as [|fuel IH]; intros xs ys n d Hes Hf Hn Hz; cbv zeta.
  { destruct ys; [|simpl in Hf; lia]. rewrite Hz by done. cbn. by rewrite app_nil_r, Z.add_0_r. }
  cbn [range_loop]. case_if; [subst n; cbn; by rewrite app_nil_r, Z.add_0_r|].
  destruct ys as [|e ys]; [by destruct E; apply Hz|]. rewrite (skip_at num es slack Hwf xs e ys Hes), bind_ok.
  assert (es = (xs ++ [e]) ++ ys) as Hes' by (by rewrite <- app_assoc).
  replace (Z.to_nat n) with (S (Z.to_nat (n - 1))) by lia. cbn [take]. rewrite alen_cons.
  destruct ys as [|e' ys].
  - rewrite app_nil_r in Hes'. rewrite <- Hes' at 1. rewrite ld_eof, bind_ok, Z.eqb_refl by done. rewrite <- Hes', total_off, Z.eqb_refl.
    by rewrite take_nil, <- Hes'.
  - destruct (ld_entry num es slack Hwf _ _ _ Hes') as (b & -> & Hne%Z.eqb_neq). rewrite bind_ok, Hne.
    unfold lpAssertValidEntry. rewrite (validate_at num es slack Hwf _ _ _ Hes'), !bind_ok.
    rewrite (IH _ (e' :: ys)); [|done|simpl in *; lia|lia|done]. rewrite <- app_assoc. cbn [assert]. rewrite bind_ok. do 2 f_equal. lia.
Qed.

(** The block and header after the entries [ds] have been cut out. *)
Lemma cut_entries num xs ds ys slack : lp_wf num (xs ++ ds ++ ys) -> exists slack',
  (m ← memmove (lp_image num (xs ++ ds ++ ys) slack) (off xs) (off (xs ++ ds)) (alen (body ys ++ [LP_EOF]));
   lpSetTotalBytes m (total (xs ++ ds ++ ys) - (off (xs ++ ds) - off xs))) = Ok (lp_image num (xs ++ ys) slack').
Proof.
  intros Hwf. rewrite image_parts. set (t := _ + alen (body ys ++ [LP_EOF])).
  destruct (memmove_gap (hdr t num ++ body xs) (body ds) (body ys ++ [LP_EOF]) slack 0) as (x & s' & Hx & _ & Hm).
  { pose proof (alen_nonneg (body ds)). pose proof (alen_nonneg slack). lia. }
  rewrite <- !app_assoc in *. rewrite !(alen_app (hdr t num)), alen_hdr, Z.add_0_r in Hm.
  assert (x = []) as -> by (by destruct x). exists s'. rewrite off_app. unfold off in *. rewrite Hm, bind_ok. rewrite set_total.
  unfold lp_image. rewrite body_app, <- !app_assoc. do 3 f_equal.
  unfold total. rewrite !body_app, !alen_app. lia.
Qed.

Definition num_minus (num k : Z) : Z := if num =? LP_HDR_NUMELE_UNKNOWN then num else num - k.

Lemma num_minus_ok num n k : in_u 16 num -> num = LP_HDR_NUMELE_UNKNOWN \/ num = n -> 0 <= k <= n ->
  in_u 16 (num_minus num k) /\ (num_minus num k = LP_HDR_NUMELE_UNKNOWN \/ num_minus num k = n - k).
Proof. intros Hn Hc Hk. unfold num_minus. case_if; [split; [done|tauto]|]. destruct Hc as [?| ->]; [done|]. split; [mach|by right]. Qed.

Lemma set_num_minus num es es' slack k : lp_wf num es -> 0 <= k <= alen es ->
  (numele ← lpGetNumElements (lp_image num es' slack);
   if numele =? LP_HDR_NUMELE_UNKNOWN then Ok (lp_image num es' slack)
   else lpSetNumElements (lp_image num es' slack) (u64 (numele - k))) = Ok (lp_image (num_minus num k) es' slack).
Proof.
  intros (_ & _ & Hn & Hc) Hk. unfold lp_image, num_minus. rewrite get_num, bind_ok by done. case_if; [done|].
  rewrite set_num. destruct Hc as [?|Hc]; [done|]. rewrite wrap_small by mach. done.
Qed.
Lemma delete_range_entry_raw num xs ds ys slack n : lp_wf num (xs ++ ds ++ ys) -> 0 < n -> 
  ds = take (Z.to_nat n) (ds ++ ys) -> ds <> [] ->
  oom \/ exists m', lpDeleteRangeWithEntry lp_realloc (lp_image num (xs ++ ds ++ ys) slack) (off xs) n =
    Ok (m', if bool_decide (ys = []) then None else Some (off xs)) /\ lp_rep m' (xs ++ ys).
Proof.
  intros Hwf Hn Hds Hne. unfold lpDeleteRangeWithEntry. rewrite image_bytes, bind_ok by done.
  rewrite (proj2 (Z.eqb_neq n 0)) by lia.
  rewrite (range_loop_at num _ slack _ xs (ds ++ ys) n 0 Hwf eq_refl); [| |lia|by intros [? ?]%app_nil]; cycle 1.
  { pose proof (fuel_enough num _ slack Hwf) as Hf. rewrite length_app in Hf. lia. }
  cbv zeta. rewrite <- Hds, bind_ok, Z.add_0_l. destruct (cut_entries num xs ds ys slack Hwf) as (s1 & Hcut).
  apply bind_ok_inv in Hcut as (m1 & Hmv & Hset).
  replace (total (xs ++ ds ++ ys) - 1 - off (xs ++ ds) + 1) with (alen (body ys ++ [LP_EOF])); cycle 1.
  { unfold total, off. rewrite !body_app, !alen_app. change (alen [LP_EOF]) with 1. lia. }
  rewrite Hmv, bind_ok, Hset, bind_ok. pose proof (alen_nonneg xs). pose proof (alen_nonneg ys). pose proof (alen_nonneg ds).
  assert (0 <= alen ds <= alen (xs ++ ds ++ ys)) as Hk by (rewrite !alen_app; lia).
  rewrite <- bind_assoc. rewrite (set_num_minus _ _ _ _ _ Hwf Hk), bind_ok. destruct Hwf as (Hall & Hsz & Hnum & Hc).
  destruct (num_minus_ok num _ _ Hnum Hc Hk) as [Hn1 Hn2].
  assert (lp_wf (num_minus num (alen ds)) (xs ++ ys)) as Hwf'.
  { apply (wf_sub num xs ds ys); [by split|done|]. destruct Hn2 as [?|Hn2]; [by left|right]. rewrite Hn2, !alen_app. lia. }
  destruct (shrink_image _ _ s1 Hwf') as (r & -> & Hr). rewrite bind_ok. destruct r as [m'|]; [|by left].
  right. destruct Hr as (s2 & ->). cbn [deref]. rewrite bind_ok. exists (lp_image (num_minus num (alen ds)) (xs ++ ys) s2).
  split; [|by exists (num_minus num (alen ds)), s2].
  destruct ys as [|e ys].
  - rewrite app_nil_r in *. by rewrite ld_eof, bind_ok, Z.eqb_refl.
  - destruct (ld_entry _ _ s2 Hwf' xs e ys eq_refl) as (b & -> & Hb%Z.eqb_neq). by rewrite bind_ok, Hb.
Qed.

(** The shortcut: the EOF byte moves to the first deleted entry. *)
Lemma cut_tail num xs e ys slack : lp_wf num (xs ++ e :: ys) -> exists slack',
  st (lp_image num (xs ++ e :: ys) slack) (off xs) [LP_EOF] = Ok (hdr (total (xs ++ e :: ys)) num ++ body xs ++ LP_EOF :: slack').
Proof.
  intros Hwf. pose proof (wf_enc_pos e (wf_at _ _ _ _ _ Hwf eq_refl)). destruct e as [|b e]; [done|].
  unfold lp_image. rewrite body_app, body_cons. unfold entry. cbn [app]. rewrite <- !app_assoc. cbn [app].
  eexists. erewrite (st_at (hdr _ num ++ body xs) [b] [LP_EOF]); [by rewrite <- app_assoc|by rewrite <- app_assoc| |done].
  by rewrite alen_app, alen_hdr.
Qed.

Lemma delete_tail_raw num xs e ys slack : lp_wf num (xs ++ e :: ys) -> num <> LP_HDR_NUMELE_UNKNOWN ->
  oom \/ exists m', (m ← st (lp_image num (xs ++ e :: ys) slack) (off xs) [LP_EOF]; m ← lpSetTotalBytes m (off xs + 1);
    m ← lpSetNumElements m (alen xs); s ← lpShrinkToFit lp_realloc m; deref s) = Ok m' /\ lp_rep m' xs.
Proof.
  intros Hwf Hnk. destruct (cut_tail num xs e ys slack Hwf) as (s1 & ->). rewrite bind_ok, set_total, bind_ok, set_num, bind_ok.
  destruct Hwf as (Hall & Hsz & Hnum & Hc). unfold LP_HDR_NUMELE_UNKNOWN in *. destruct Hc as [?|Hc]; [done|].
  rewrite alen_app, alen_cons in Hc. pose proof (alen_nonneg xs). pose proof (alen_nonneg ys).
  assert (lp_wf (alen xs) xs) as Hwf'.
  { apply Forall_app in Hall as [? _]. split; [done|]. split; [|split; [mach|by right]].
    unfold total in *. rewrite body_app, alen_app in Hsz. pose proof (alen_nonneg (body (e :: ys))). lia. }
  rewrite <- (total_off xs). fold (lp_image (alen xs) xs s1).
  destruct (shrink_image _ _ s1 Hwf') as (r & -> & Hr). rewrite bind_ok. destruct r as [m'|]; [|by left].
  right. destruct Hr as (s2 & ->). eexists. split; [done|]. by exists (alen xs), s2.
Qed.

(** What [lpDeleteRange] does to the list. *)
Definition del_range (index num : Z) (l : list bytes) : list bytes :=
  let i := if index <? 0 then alen l + index else index in
  if decide (0 <= i < alen l) then take (Z.to_nat i) l ++ drop (Z.to_nat (i + num)) l else l.

Lemma delete_range_entry_spec m l i p n : listpack m l -> (i < length l)%nat -> nth_ptr m i = Ok p -> 0 < n ->
  oom \/ exists m' p', lpDeleteRangeWithEntry lp_realloc m p n = Ok (m', p') /\
    listpack m' (take i l ++ drop (Z.to_nat (Z.of_nat i + n)) l) /\
    p' = if bool_decide (alen l <= Z.of_nat i + n) then None else Some p.
Proof.
  intros Hl Hi Hp Hn. destruct (listpack_split m l i Hl ltac:(lia)) as (xs & ys & Hrep & <- & Hxs & Hys).
  rewrite (nth_ptr_rep _ _ _ Hrep) in Hp. injection Hp as <-. destruct Hrep as (num & slack & -> & Hwf).
  pose proof (f_equal length Hys) as Hlen. rewrite length_map, length_drop in Hlen.
  set (ds := take (Z.to_nat n) ys). set (zs := drop (Z.to_nat n) ys). assert (ys = ds ++ zs) as Hy by (unfold ds, zs; by rewrite take_drop).
  assert (ds <> []) as Hne.
  { intros H0. apply (f_equal length) in H0. unfold ds in H0. rewrite length_take in H0. simpl in H0. lia. }
  rewrite Hy in Hwf |- *.
  destruct (delete_range_entry_raw num xs ds zs slack n Hwf Hn) as [?|(m' & Hm' & Hrep')];
    [by rewrite <- Hy|done|by left|right]. exists m'. eexists. split; [exact Hm'|]. split.
  - exists (xs ++ zs). split; [done|]. rewrite map_app, Hxs. f_equal. unfold zs. rewrite <- skipn_map, Hys, drop_drop. f_equal. lia.
  - rewrite (bool_decide_ext (zs = []) (alen l <= Z.of_nat (length xs) + n)); [done|]. unfold zs, alen. split.
    + intros H0. apply (f_equal length) in H0. rewrite length_drop in H0. simpl in H0. lia.
    + intros. apply drop_ge. lia.
Qed.

Lemma del_range_0 index l : del_range index 0 l = l.
Proof. unfold del_range. destruct (decide _); [|done]. by rewrite Z.add_0_r, take_drop. Qed.

Lemma delete_range_spec m l index n : listpack m l -> - 2 ^ 63 <= index < 2 ^ 63 -> 0 <= n ->
  oom \/ exists m', lpDeleteRange lp_realloc m index n = Ok m' /\ listpack m' (del_range index n l).
Proof.
  intros Hl Hi Hn. pose proof Hl as (es & (num & slack & -> & Hwf) & <-). unfold lpDeleteRange.
  rewrite image_num, bind_ok by done.
  case_if; [subst n; right; eexists; split; [done|by rewrite del_range_0]|].
  rewrite (seek_at num es slack Hwf index Hi), bind_ok. cbv zeta. unfold del_range.
  assert (alen (map dec_str es) = alen es) as Ha by (unfold alen; by rewrite length_map). rewrite Ha.
  set (i := if index <? 0 then alen es + index else index). destruct (decide (0 <= i < alen es)) as [Hr|]; [|right; by eexists].
  assert (es = take (Z.to_nat i) es ++ drop (Z.to_nat i) es) as Hes by (by rewrite take_drop).
  assert (length (take (Z.to_nat i) es) = Z.to_nat i) as Hti by (rewrite length_take; unfold alen in *; lia).
  destruct (drop (Z.to_nat i) es) as [|e ys] eqn:Hd.
  { apply (f_equal length) in Hd. rewrite length_drop in Hd. unfold alen in *. simpl in Hd. lia. }
  assert (oom \/ exists m', (r ← lpDeleteRangeWithEntry lp_realloc (lp_image num es slack) (off (take (Z.to_nat i) es)) n; Ok (fst r))
    = Ok m' /\ listpack m' (take (Z.to_nat i) (map dec_str es) ++ drop (Z.to_nat (i + n)) (map dec_str es))) as Hscan.
  { destruct (delete_range_entry_spec _ _ (Z.to_nat i) (off (take (Z.to_nat i) es)) n Hl) as [?|(m' & p' & -> & Hm' & _)];
      [rewrite length_map; unfold alen in Hr; lia| |lia|by left|].
    - rewrite <- Hti at 1. by apply (nth_ptr_at num es slack _ (e :: ys) Hwf).
    - right. exists m'. split; [done|]. by rewrite Z2Nat.id in Hm' by lia. }
  destruct (negb (num =? LP_HDR_NUMELE_UNKNOWN)) eqn:Hknown; cbn [andb]; [|exact Hscan].
  cmp_prop. pose proof Hwf as (_ & _ & Hu & [?|Hnum]); [done|].
  assert ((if index <? 0 then num + index else index) = i) as -> by (unfold i; by rewrite <- Hnum).
  rewrite (wrap_small 64) by (clearbody i; mach). case_if; [|exact Hscan].
  pose proof (delete_tail_raw num (take (Z.to_nat i) es) e ys slack) as Htail. rewrite <- Hes in Htail.
  assert (alen (take (Z.to_nat i) es) = i) as Hai by (unfold alen; lia). rewrite Hai in Htail.
  destruct (Htail Hwf Hknown) as [?|(m' & -> & Hrep)]; [by left|right]. exists m'. split; [done|].
  exists (take (Z.to_nat i) es). split; [done|]. rewrite drop_ge, app_nil_r; [by rewrite firstn_map|].
  rewrite length_map. unfold alen in *. lia.
Qed.

(** ** Deleting a batch

    The elements from the first deleted one on, as groups: a deleted element
    with the elements kept behind it. *)
Definition grp {A} (gs : list (A * list A)) : list A := concat (map (fun g => fst g :: snd g) gs).
Definition kept {A} (gs : list (A * list A)) : list A := concat (map snd gs).

(** The indices of the deleted elements, the first at [n]. *)
Fixpoint deleted_at {A} (n : nat) (gs : list (A * list A)) : list nat :=
  match gs with
  | [] => []
  | (_, k) :: gs => n :: deleted_at (n + S (length k)) gs
  end.

Fixpoint goffs (xs : list bytes) (gs : list (bytes * list bytes)) : list Z :=
  match gs with
  | [] => []
  | (d, k) :: gs => off xs :: goffs (xs ++ d :: k) gs
  end.

Lemma grp_cons d k (gs : list (bytes * list bytes)) : grp ((d, k) :: gs) = (d :: k) ++ grp gs.
Proof. done. Qed.

Lemma kept_group d k (gs : list (bytes * list bytes)) : kept ((d, k) :: gs) = k ++ kept gs.
Proof. done. Qed.

Lemma skip_frame a d b : wf_enc d -> lpSkip (a ++ entry d ++ b) (alen a) = Ok (alen a + alen (entry d)).
Proof.
  intros (_ & Hs & _). unfold lpSkip, entry. rewrite <- app_assoc, (size_frame a d _ _ Hs), bind_ok, alen_app. done.
Qed.

Lemma ld_not_eof a d b : wf_enc d -> exists x, ld (a ++ entry d ++ b) (alen a) = Ok x /\ negb (x =? LP_EOF) = true.
Proof.
  intros (_ & _ & x & Hx & Hne). exists x. unfold entry. rewrite <- app_assoc. split; [by apply ld_frame0|].
  apply negb_true_iff. by apply Z.eqb_neq.
Qed.

(** In the loop the block is the part already compacted [a], junk [j], and the rest untouched. *)
Lemma batch_loop_at gs : Forall wf_enc (grp gs) -> gs <> [] -> forall a j xs s, alen a + alen j = off xs ->
  exists s', batch_loop (a ++ j ++ body (grp gs) ++ LP_EOF :: s) (goffs xs gs) (alen a) (off (xs ++ grp gs) + 1) =
    Ok (a ++ body (kept gs) ++ LP_EOF :: s', alen a + alen (body (kept gs)) + 1).
Proof.
  induction gs as [|[d k] gs IH]; [done|]. intros Hall _ a j xs s Ha. rewrite grp_cons, kept_group in *.
  apply Forall_app in Hall as [[Hd Hk]%Forall_cons Hgs].
  cbn [goffs batch_loop]. rewrite body_app, body_cons, <- !app_assoc. rewrite <- Ha, <- alen_app.
  rewrite !(app_assoc a j). destruct (ld_not_eof (a ++ j) d (body k ++ body (grp gs) ++ LP_EOF :: s) Hd) as (x & -> & Hx).
  rewrite bind_ok, assert_true, bind_ok, skip_frame, bind_ok by done. cbv zeta.
  pose proof (alen_nonneg (body k)). destruct gs as [|[d2 k2] gs].
  - cbn [goffs]. rewrite off_app. cbn [app]. rewrite app_nil_r, body_cons, !alen_app, <- Ha. rewrite assert_true, bind_ok by (apply Z.ltb_lt; lia).
    destruct (memmove_down a (j ++ entry d) (body k ++ [LP_EOF]) s) as (j' & _ & Hm).
    rewrite !alen_app in Hm. change (alen [LP_EOF]) with 1 in Hm. rewrite <- !app_assoc in Hm. rewrite <- !app_assoc.
    cbn [app grp concat map body] in Hm |- *.
    replace (alen a + alen j + (alen (entry d) + alen (body k)) + 1 - (alen a + alen j + alen (entry d))) with (alen (body k) + 1) by lia.
    rewrite (Z.add_assoc (alen a)) in Hm. rewrite Hm, bind_ok. exists (j' ++ s). cbn [batch_loop kept concat map].
    rewrite app_nil_r. do 2 f_equal. lia.
  - set (rest := (d2, k2) :: gs) in *. assert (rest <> []) as Hr by done.
    destruct (goffs (xs ++ d :: k) rest) as [|z l] eqn:Hg; [by cbn in Hg|].
    assert (z = off (xs ++ d :: k)) as Hz by (unfold rest in Hg; cbn [goffs] in Hg; by injection Hg). clearbody rest.
    rewrite off_app, body_cons, alen_app in Hz. rewrite <- Hg, (app_assoc xs (d :: k)), alen_app. case_if.
    + assert (body k = []) as Hk0 by (destruct (body k); [done|rewrite alen_cons in *; pose proof (alen_nonneg l0); lia]).
      destruct (IH Hgs Hr a (j ++ entry d) (xs ++ d :: k) s) as (s' & Hs').
      { rewrite off_app, body_cons, !alen_app. lia. }
      exists s'. rewrite (body_app k), Hk0. rewrite <- !app_assoc in *. exact Hs'.
    + rewrite assert_true, bind_ok by (apply Z.ltb_lt; lia).
      destruct (memmove_down a (j ++ entry d) (body k) (body (grp rest) ++ LP_EOF :: s)) as (j' & Hj' & Hm).
      rewrite <- !app_assoc, alen_app, Z.add_assoc in Hm. rewrite <- !app_assoc.
      replace (z - (alen a + alen j + alen (entry d))) with (alen (body k)) by lia. rewrite Hm, bind_ok, <- alen_app.
      destruct (IH Hgs Hr (a ++ body k) j' (xs ++ d :: k) s) as (s' & Hs').
      { rewrite off_app, body_cons, !alen_app in *. lia. }
      exists s'. rewrite <- !app_assoc in *. rewrite Hs', body_app, <- app_assoc, !alen_app. do 3 f_equal. lia.
Qed.

Lemma alen_grp {A} (gs : list (A * list A)) : alen (grp gs) = alen (kept gs) + alen gs.
Proof. unfold grp, kept. induction gs as [|[d k] gs IH]; [done|]. cbn. rewrite alen_cons, !alen_app, alen_cons. lia. Qed.

Lemma length_goffs xs gs : alen (goffs xs gs) = alen gs.
Proof. revert xs. induction gs as [|[d k] gs IH]; intros xs; [done|]. cbn [goffs]. by rewrite !alen_cons, IH. Qed.

Lemma kept_wf num xs gs num' : lp_wf num (xs ++ grp gs) -> in_u 16 num' ->
  num' = LP_HDR_NUMELE_UNKNOWN \/ num' = alen (xs ++ kept gs) -> lp_wf num' (xs ++ kept gs).
Proof.
  intros (Hall & Hsz & _) Hn Hc. apply Forall_app in Hall as [Hxs Hgs].
  assert (Forall wf_enc (kept gs) /\ alen (body (kept gs)) <= alen (body (grp gs))) as [Hk Hle].
  { clear Hsz Hc. induction gs as [|[d k] gs IH]; [by split|]. rewrite grp_cons, kept_group in *.
    apply Forall_app in Hgs as [[_ Hk]%Forall_cons Hgs]. destruct (IH Hgs) as [? ?]. rewrite Forall_app. split; [done|].
    rewrite !body_app, body_cons, !alen_app. pose proof (alen_nonneg (entry d)). lia. }
  split; [by apply Forall_app|]. split; [|done]. unfold total in *. rewrite !body_app, !alen_app in *. lia.
Qed.

Lemma batch_delete_raw num xs gs slack : lp_wf num (xs ++ grp gs) ->
  oom \/ exists m', lpBatchDelete lp_realloc (lp_image num (xs ++ grp gs) slack) (goffs xs gs) = Ok (Some m') /\
    lp_rep m' (xs ++ kept gs).
Proof.
  intros Hwf. destruct gs as [|g gs0] eqn:Hgs.
  { right. eexists. split; [done|]. by exists num, slack. }
  rewrite <- Hgs in *. assert (gs <> []) as Hne by (by subst). assert (exists l, goffs xs gs = off xs :: l) as [l Hl].
  { subst. destruct g as [d k]. by eexists. }
  unfold lpBatchDelete. rewrite Hl, <- Hl. rewrite image_total, bind_ok by done. rewrite total_off, Z.add_simpl_r.
  rewrite ld_eof, bind_ok, Z.eqb_refl by done. cbn [assert]. rewrite bind_ok. pose proof Hwf as (Hall & _ & Hnum & Hc).
  apply Forall_app in Hall as [_ Hg]. set (t := total (xs ++ grp gs)).
  destruct (batch_loop_at gs Hg Hne (hdr t num ++ body xs) [] xs slack) as (s1 & Hb); [by rewrite alen_app, alen_hdr, Z.add_0_r|].
  unfold lp_image at 1. rewrite body_app, <- app_assoc. fold t. rewrite <- app_assoc in Hb. cbn [app] in Hb.
  replace (alen (hdr t num ++ body xs)) with (off xs) in Hb by (by rewrite alen_app, alen_hdr). rewrite Hb, bind_ok, <- off_app.
  replace (off (xs ++ grp gs) + 1 - (off (xs ++ grp gs) + 1 - (off (xs ++ kept gs) + 1))) with (off (xs ++ kept gs) + 1) by lia.
  rewrite Z.add_simpl_r. rewrite (ld_at (hdr t num ++ body xs ++ body (kept gs)) [LP_EOF] s1 _ _ 0 LP_EOF); cycle 1.
  { by rewrite <- !app_assoc. } { unfold off. rewrite body_app, !alen_app, alen_hdr. lia. } { done. }
  rewrite bind_ok, Z.eqb_refl. cbn [assert]. rewrite bind_ok, <- app_assoc, set_total, bind_ok, <- total_off.
  rewrite (app_assoc (body xs)), <- body_app. fold (lp_image num (xs ++ kept gs) s1).
  pose proof (alen_nonneg xs). pose proof (alen_nonneg (kept gs)). pose proof (alen_nonneg gs).
  assert (0 <= alen (goffs xs gs) <= alen (xs ++ grp gs)) as Hk by (rewrite length_goffs, alen_app, alen_grp; lia).
  rewrite <- bind_assoc, (set_num_minus _ _ _ _ _ Hwf Hk), bind_ok.
  destruct (num_minus_ok num _ _ Hnum Hc Hk) as [Hn1 Hn2].
  destruct (shrink_image (num_minus num (alen (goffs xs gs))) (xs ++ kept gs) s1) as (r & -> & Hr).
  { apply (kept_wf num xs gs); [done..|]. destruct Hn2 as [?|Hn2]; [by left|right].
    rewrite Hn2, !alen_app, alen_grp, length_goffs. lia. }
  destruct r as [m'|]; [|by left]. right. destruct Hr as (s2 & ->). eexists. split; [done|].
  eexists _, s2. split; [done|]. apply (kept_wf num xs gs); [done..|]. destruct Hn2 as [?|Hn2]; [by left|right].
  rewrite Hn2, !alen_app, alen_grp, length_goffs. lia.
Qed.

Lemma map_grp (f : bytes -> bytes) es xs gs : map f es = xs ++ grp gs ->
  exists es0 ges, es = es0 ++ grp ges /\ map f es0 = xs /\ map f (kept ges) = kept gs /\
    forall n, deleted_at n ges = deleted_at n gs.
Proof.
  revert es xs. induction gs as [|[d k] gs IH]; intros es xs Hm.
  { rewrite app_nil_r in Hm. exists es, []. by rewrite app_nil_r. }
  rewrite grp_cons, app_assoc in Hm. apply IH in Hm as (es1 & ges & -> & Hm & Hk & Hd).
  apply map_eq_app in Hm as (es0 & l & -> & <- & Hl). destruct l as [|d' k']; [done|]. injection Hl as <- <-.
  exists es0, ((d', k') :: ges). rewrite grp_cons, kept_group, <- app_assoc. repeat split; [by rewrite map_app, Hk|].
  intros n. cbn [deleted_at]. by rewrite Hd, length_map.
Qed.

Lemma goffs_ptr num es slack xs gs : lp_wf num es -> es = xs ++ grp gs ->
  Forall2 (fun i p => nth_ptr (lp_image num es slack) i = Ok p) (deleted_at (length xs) gs) (goffs xs gs).
Proof.
  intros Hwf. revert xs. induction gs as [|[d k] gs IH]; intros xs Hes; cbn [deleted_at goffs]; constructor.
  - by eapply nth_ptr_at.
  - replace (length xs + S (length k))%nat with (length (xs ++ d :: k)) by (by rewrite length_app).
    apply IH. by rewrite Hes, grp_cons, <- app_assoc.
Qed.

Lemma ptrs_unique m is_ ps qs : Forall2 (fun i p => nth_ptr m i = Ok p) is_ ps ->
  Forall2 (fun i p => nth_ptr m i = Ok p) is_ qs -> ps = qs.
Proof.
  intros H. revert qs. induction H as [|i p is_ ps Hp _ IH]; intros qs Hq; inversion Hq; subst; [done|].
  f_equal; [congruence|by apply IH].
Qed.

Lemma batch_delete_spec m xs gs ps : listpack m (xs ++ grp gs) ->
  Forall2 (fun i p => nth_ptr m i = Ok p) (deleted_at (length xs) gs) ps ->
  oom \/ exists m', lpBatchDelete lp_realloc m ps = Ok (Some m') /\ listpack m' (xs ++ kept gs).
Proof.
  intros (es & (num & slack & -> & Hwf) & Hm) Hps. apply map_grp in Hm as (es0 & ges & -> & <- & Hk & Hd).
  rewrite length_map, <- Hd in Hps. pose proof (goffs_ptr num _ slack es0 ges Hwf eq_refl) as Hg.
  rewrite (ptrs_unique _ _ _ _ Hps Hg). destruct (batch_delete_raw num es0 ges slack Hwf) as [?|(m' & -> & Hrep)]; [by left|right].
  exists m'. split; [done|]. exists (es0 ++ kept ges). split; [done|]. by rewrite map_app, Hk.
Qed.

(** ** Merging *)
Lemma merge_wf n1 es1 n2 es2 : lp_wf n1 es1 -> lp_wf n2 es2 -> total es1 + total es2 - 7 <= UINT32_MAX ->
  lp_wf (if alen es1 + alen es2 <? UINT16_MAX then alen es1 + alen es2 else UINT16_MAX) (es1 ++ es2).
Proof.
  intros (H1 & _) (H2 & _) Ht. split; [by apply Forall_app|]. pose proof (alen_nonneg es1). pose proof (alen_nonneg es2).
  split; [unfold total in *; rewrite body_app, alen_app; lia|]. rewrite alen_app. unfold LP_HDR_NUMELE_UNKNOWN, UINT16_MAX.
  case_if; (split; [mach|tauto]).
Qed.

Lemma merge_total es1 es2 : total es1 + total es2 - 7 = total (es1 ++ es2).
Proof. unfold total. rewrite body_app, alen_app. lia. Qed.

(** [second] copied behind [first], over its EOF byte. *)
Lemma merge_append n1 es1 s1 n2 es2 s2 t : lp_wf n1 es1 -> lp_wf n2 es2 -> t = total (es1 ++ es2) ->
  oom \/ exists s', (target ← deref (lp_realloc (lp_image n1 es1 s1) t);
    b ← ldn (lp_image n2 es2 s2) 6 (total es2 - 6); st target (total es1 - 1) b) =
    Ok (hdr (total es1) n1 ++ body (es1 ++ es2) ++ LP_EOF :: s').
Proof.
  intros H1 H2 ->. pose proof (alen_nonneg (body es2)). destruct (lp_realloc _ _) as [m1|] eqn:Hr; [|left; by eexists _, _].
  right. unfold lp_image at 1 in Hr. change (LP_EOF :: s1) with ([LP_EOF] ++ s1) in Hr. rewrite !app_assoc in Hr.
  apply realloc_prefix in Hr as (b' & -> & Hl); [|done|rewrite !alen_app, alen_hdr; change (alen [LP_EOF]) with 1;
    rewrite <- merge_total; unfold total; lia].
  cbn [deref]. rewrite bind_ok. rewrite (ldn_at (hdr (total es2) n2) (body es2 ++ [LP_EOF]) s2), bind_ok; cycle 1.
  { unfold lp_image. by rewrite <- app_assoc. } { done. } { rewrite alen_app. change (alen [LP_EOF]) with 1. unfold total. lia. }
  rewrite !alen_app, alen_hdr in Hl. change (alen [LP_EOF]) with 1 in Hl. rewrite <- merge_total in Hl. unfold total in Hl.
  destruct (cut_at b' (alen (body es2))) as (x & y & -> & Hx); [lia|].
  exists y. rewrite (st_at (hdr (total es1) n1 ++ body es1) ([LP_EOF] ++ x) (body es2 ++ [LP_EOF]) y).
  - by rewrite body_app, <- !app_assoc.
  - by rewrite <- !app_assoc.
  - rewrite alen_app, alen_hdr. unfold total. lia.
  - rewrite !alen_app. lia.
Qed.

(** The contents of [second] moved up, [first] copied in front. *)
Lemma merge_prepend n1 es1 s1 n2 es2 s2 t : lp_wf n1 es1 -> lp_wf n2 es2 -> t = total (es1 ++ es2) ->
  oom \/ exists s', (target ← deref (lp_realloc (lp_image n2 es2 s2) t);
    target ← memmove target (total es1 - 1) 6 (total es2 - 6);
    b ← ldn (lp_image n1 es1 s1) 0 (total es1 - 1); st target 0 b) =
    Ok (hdr (total es1) n1 ++ body (es1 ++ es2) ++ LP_EOF :: s').
Proof.
  intros H1 H2 ->. pose proof (alen_nonneg (body es1)). destruct (lp_realloc _ _) as [m1|] eqn:Hr; [|left; by eexists _, _].
  right. unfold lp_image at 1 in Hr. change (LP_EOF :: s2) with ([LP_EOF] ++ s2) in Hr. rewrite !app_assoc in Hr.
  apply realloc_prefix in Hr as (b' & -> & Hl); [|done|rewrite !alen_app, alen_hdr; change (alen [LP_EOF]) with 1;
    rewrite <- merge_total; unfold total; lia].
  cbn [deref]. rewrite bind_ok. rewrite !alen_app, alen_hdr in Hl. change (alen [LP_EOF]) with 1 in Hl.
  rewrite <- merge_total in Hl. unfold total in Hl.
  destruct (memmove_gap (hdr (total es2) n2) [] (body es2 ++ [LP_EOF]) b' (alen (body es1))) as (x & s' & Hx & _ & Hm);
    [change (alen (@nil Z)) with 0; lia|].
  rewrite alen_hdr, alen_app in Hm. change (alen (@nil Z)) with 0 in Hm. cbn [app] in Hm. change (alen [LP_EOF]) with 1 in Hm.
  replace (total es1 - 1) with (6 + alen (body es1)) by (unfold total; lia).
  replace (total es2 - 6) with (alen (body es2) + 1) by (unfold total; lia).
  rewrite <- !app_assoc in *. rewrite Z.add_0_r in Hm. rewrite Hm, bind_ok.
  rewrite (ldn_at [] (hdr (total es1) n1 ++ body es1) (LP_EOF :: s1)), bind_ok; cycle 1.
  { unfold lp_image. by rewrite <- app_assoc. } { done. } { by rewrite alen_app, alen_hdr. }
  exists s'. rewrite (st_at [] (hdr (total es2) n2 ++ x) (hdr (total es1) n1 ++ body es1) (body es2 ++ [LP_EOF] ++ s')).
  - cbn [app]. by rewrite body_app, <- !app_assoc.
  - by rewrite <- app_assoc.
  - done.
  - rewrite !alen_app, !alen_hdr. lia.
Qed.

Lemma merge_raw n1 es1 s1 n2 es2 s2 : lp_wf n1 es1 -> lp_wf n2 es2 -> total (es1 ++ es2) < UINT32_MAX ->
  oom \/ exists m', lpMerge lp_realloc (lp_image n1 es1 s1) (lp_image n2 es2 s2) = Ok m' /\ lp_rep m' (es1 ++ es2).
Proof.
  intros H1 H2 Ht. unfold lpMerge. rewrite (image_bytes n1 es1 s1), bind_ok by done.
  destruct (length_at n1 es1 s1 H1) as (n1' & -> & H1'). rewrite bind_ok. cbv beta iota. rewrite image_bytes, bind_ok by done.
  destruct (length_at n2 es2 s2 H2) as (n2' & -> & H2'). rewrite bind_ok. cbv beta iota.
  pose proof (alen_nonneg (body es1)). pose proof (alen_nonneg (body es2)). pose proof (merge_total es1 es2) as Hmt.
  assert (u64 (total es1 + total es2 - LP_HDR_SIZE - 1) = total (es1 ++ es2)) as Hw.
  { unfold LP_HDR_SIZE, UINT32_MAX in *. rewrite wrap_small; [lia|]. unfold total in *. mach. }
  assert (total es1 + total es2 - 7 <= UINT32_MAX) as Hle by lia.
  pose proof (merge_wf _ _ _ _ H1' H2' Hle) as Hwf. set (n' := if alen es1 + alen es2 <? UINT16_MAX then _ else _) in *.
  assert (forall s', (t ← lpSetNumElements (hdr (total es1) n1' ++ body (es1 ++ es2) ++ LP_EOF :: s') n'; lpSetTotalBytes t (total (es1 ++ es2)))
    = Ok (lp_image n' (es1 ++ es2) s')) as Hfin by (intros; by rewrite set_num, bind_ok, set_total).
  assert (forall s', lp_rep (lp_image n' (es1 ++ es2) s') (es1 ++ es2)) as Hrep by (intros s'; by exists n', s').
  unfold LP_HDR_SIZE in *. destruct (total es2 <=? total es1); cbv iota beta zeta; rewrite Hw, assert_true, bind_ok by (by apply Z.ltb_lt).
  - destruct (merge_append n1' es1 s1 n2' es2 s2 _ H1' H2' eq_refl) as [?|(s' & Hm)]; [by left|right].
    rewrite <- bind_assoc, Hm, bind_ok. fold n'. eauto.
  - destruct (merge_prepend n1' es1 s1 n2' es2 s2 _ H1' H2' eq_refl) as [?|(s' & Hm)]; [by left|right].
    rewrite <- bind_assoc, Hm, bind_ok. fold n'. eauto.
Qed.

Lemma merge_spec m1 l1 m2 l2 t1 t2 : listpack m1 l1 -> listpack m2 l2 -> lpGetTotalBytes m1 = Ok t1 -> lpGetTotalBytes m2 = Ok t2 ->
  t1 + t2 - 7 < UINT32_MAX ->
  oom \/ exists m', lpMerge lp_realloc m1 m2 = Ok m' /\ listpack m' (l1 ++ l2).
Proof.
  intros (es1 & (n1 & s1 & -> & H1) & <-) (es2 & (n2 & s2 & -> & H2) & <-) Ht1 Ht2 Hle.
  rewrite image_total in Ht1, Ht2 by done. injection Ht1 as <-. injection Ht2 as <-. rewrite merge_total in Hle.
  destruct (merge_raw n1 es1 s1 n2 es2 s2 H1 H2 Hle) as [?|(m' & -> & Hrep)]; [by left|right].
  exists m'. split; [done|]. exists (es1 ++ es2). by rewrite map_app.
Qed.

End bulk.

(** ** Properties *)

(** The bulk operations act on the list of strings.  [lpDeleteRange]
    removes the elements from an index counted from either end, whether it
    takes the shortcut that moves the EOF byte or scans; the cursor version
    removes [n] elements from a given one and returns the one behind them;
    [lpBatchDelete] removes exactly the elements given (each followed by the
    elements kept behind it) in one pass over the block; [lpMerge] yields the
    concatenation, whichever of the blocks is the larger one.  None of them
    reads or writes outside the block or fails an assert, unless an allocation
    failed (which the code does not check). *)
Theorem listpack_bulk lp_realloc m l : realloc_keeps lp_realloc -> listpack m l ->
  (forall index n, - 2 ^ 63 <= index < 2 ^ 63 -> 0 <= n ->
    oom lp_realloc \/ exists m', lpDeleteRange lp_realloc m index n = Ok m' /\ listpack m' (del_range index n l)) /\
  (forall i p n, (i < length l)%nat -> nth_ptr m i = Ok p -> 0 < n ->
    oom lp_realloc \/ exists m' p', lpDeleteRangeWithEntry lp_realloc m p n = Ok (m', p') /\
      listpack m' (take i l ++ drop (Z.to_nat (Z.of_nat i + n)) l) /\
      p' = if bool_decide (alen l <= Z.of_nat i + n) then None else Some p) /\
  (forall xs gs ps, l = xs ++ grp gs -> Forall2 (fun i p => nth_ptr m i = Ok p) (deleted_at (length xs) gs) ps ->
    oom lp_realloc \/ exists m', lpBatchDelete lp_realloc m ps = Ok (Some m') /\ listpack m' (xs ++ kept gs)) /\
  (forall m2 l2 t1 t2, listpack m2 l2 -> lpGetTotalBytes m = Ok t1 -> lpGetTotalBytes m2 = Ok t2 -> t1 + t2 - 7 < UINT32_MAX ->
    oom lp_realloc \/ exists m', lpMerge lp_realloc m m2 = Ok m' /\ listpack m' (l ++ l2)).
Proof.
  intros Hra Hl. split; [by intros; apply delete_range_spec|]. split; [by intros; apply delete_range_entry_spec|].
  split; [intros xs gs ps ->; by apply batch_delete_spec|]. intros m2 l2 t1 t2 Hl2 Ht1 Ht2 Hle.
  by apply (merge_spec lp_realloc Hra m l m2 l2 t1 t2).
Qed.

(** Deleting the first and the last of three elements; deleting the last two;
    merging a listpack with a copy of itself. *)
Lemma listpack_bulk_witness :
  (exists m', lpBatchDelete sys_realloc three [6; 13] = Ok (Some m') /\ listpack m' [[97; 98; 99]]) /\
  (exists m', lpDeleteRange sys_realloc three (-2) 5 = Ok m' /\ listpack m' [[49; 50]]) /\
  (exists m', lpMerge sys_realloc three three = Ok m' /\ listpack m' (three_strings ++ three_strings)).
Proof.
  destruct (listpack_bulk sys_realloc three three_strings sys_realloc_keeps three_listpack) as (Hrange & _ & Hbatch & Hmerge).
  assert (oom sys_realloc -> False) as Hno by (intros (m & n & H); discriminate H). split; [|split].
  - destruct (Hbatch [] [([49; 50], [[97; 98; 99]]); ([45; 53; 48; 48; 48], [])] [6; 13] eq_refl) as [?|H]; [|by destruct Hno|exact H].
    repeat (constructor; [by vm_compute|]). constructor.
  - destruct (Hrange (-2) 5 ltac:(lia) ltac:(lia)) as [?|H]; [by destruct Hno|exact H].
  - destruct (Hmerge three three_strings 18 18 three_listpack ltac:(by vm_compute) ltac:(by vm_compute) ltac:(by vm_compute)) as [?|H];
      [by destruct Hno|exact H].
Defined.
