(* ===== verification/ListpackValid.v ===== *)
(** * Listpacks: validation of untrusted blocks

    [lpValidateIntegrity] is what stands between a serialized listpack that
    came over the network or from a file and the rest of the code.  On any
    bytes it returns, without reading outside the block and without an assert;
    and when it accepts, the loops over the entries, forwards and backwards,
    run without faults and visit the same entries. *)
From S2P Require Import Prelude IntString ByteMem Listpack ListpackRefine ListpackUpdate.

(** [for (p = first; p; p = next(p))], with the entries visited. *)
Fixpoint walk (next : Z -> res (option Z)) (fuel : nat) (p : option Z) : res (list Z) :=
  match p with
  | None => Ok []
  | Some p =>
      match fuel with
      | O => OutOfFuel
      | S fuel => q ← next p; ps ← walk next fuel q; Ok (p :: ps)
      end
  end.

Definition walk_forward (m : bytes) : res (list Z) := p ← lpFirst m; walk (lpNext m) (lp_fuel m) p.
Definition walk_backward (m : bytes) : res (list Z) := p ← lpLast m; walk (lpPrev m) (lp_fuel m) p.

(** ** The length read backwards, on any bytes *)
Lemma decode_total m p : 4 <= p < alen m -> exists v, lpDecodeBacklen m p = Ok v.
Proof.
  intros Hp. unfold lpDecodeBacklen.
  assert (forall f q val shift, Z.of_nat f <= q + 1 -> q < alen m -> 28 < shift + 7 * Z.of_nat f ->
    exists v, decode_backlen_loop f m q val shift = Ok v \/ f = O) as H.
  { induction f as [|f IH]; intros q val shift Hq Hlt Hs; [exists 0; by right|].
    cbn [decode_backlen_loop]. destruct (ld_in m q) as [b ->]; [lia|]. rewrite bind_ok. cbv zeta.
    case_if; [eauto|]. case_if; [eauto|]. destruct (IH (q - 1) (Z.lor val (Z.shiftl (Z.land b 127) shift)) (shift + 7)) as (v & [Hv|Hf]);
      [lia..|eauto|]. subst f. lia. }
  destruct (H 5%nat p 0 0) as (v & [Hv|?]); [lia..|eauto|done].
Qed.

Lemma decode_range m p v : is_bytes m -> lpDecodeBacklen m p = Ok v ->
  exists b, ld m p = Ok b /\ (0 <= v < 2 ^ 35 \/ v = UINT64_MAX) /\ (v mod 128 = b mod 128 \/ v mod 128 = 127).
Proof.
  intros Hm. unfold lpDecodeBacklen.
  assert (forall f q val shift w, in_u shift val -> 0 <= shift <= 28 -> decode_backlen_loop f m q val shift = Ok w ->
    exists b x, ld m q = Ok b /\ (w = UINT64_MAX \/ 0 <= x < 2 ^ (35 - shift) /\ w = val + 2 ^ shift * x /\ x mod 128 = b mod 128)) as H.
  { induction f as [|f IH]; intros q val shift w Hv Hs; [done|]. cbn [decode_backlen_loop].
    intros (b & Hb & H)%bind_ok_inv. cbv zeta in H. pose proof (ld_byte _ _ _ Hm Hb) as Hbb.
    pose proof (Z.mod_pos_bound b 128 ltac:(lia)). rewrite land127, lor_shift in H by (done || lia).
    assert (128 <= 2 ^ (35 - shift)) by (change 128 with (2 ^ 7); apply Z.pow_le_mono_r; lia).
    case_if_in H; [injection H as <-; exists b, (b mod 128); split; [done|right]; rewrite Z.mod_mod by lia; split; [lia|done]|].
    case_if_in H; [injection H as <-; exists b, 0; split; [done|by left]|].
    assert (in_u (shift + 7) (val + 2 ^ shift * (b mod 128))) as Hv' by (apply in_u_pack; [done|mach|lia|lia]).
    destruct (IH _ _ _ _ Hv' ltac:(lia) H) as (c & x & _ & [->|(Hx & -> & _)]); [exists b, 0; split; [done|by left]|].
    exists b, (b mod 128 + 128 * x). split; [done|]. right.
    assert (2 ^ (35 - shift) = 128 * 2 ^ (35 - (shift + 7))) as Hp.
    { change 128 with (2 ^ 7). rewrite <- Z.pow_add_r by lia. f_equal. lia. }
    split; [lia|]. rewrite Z.pow_add_r by lia. change (2 ^ 7) with 128. split; [lia|].
    rewrite (Z.mul_comm 128), Z.mod_add by lia. by rewrite Z.mod_mod by lia. }
  intros Hd. destruct (H 5%nat p 0 0 v ltac:(mach) ltac:(lia) Hd) as (b & x & Hb & [->|(Hx & -> & Hmod)]);
    exists b; (split; [done|]); [split; [by right|by right]|].
  rewrite Z.add_0_l, Z.mul_1_l. split; [left; lia|by left].
Qed.

(** ** One entry *)
Section entry.
Context (m : bytes) (lpbytes : Z) (Hm : is_bytes m) (Hlen : lpbytes <= alen m).

Lemma size_total p n : lpCurrentEncodedSizeBytes m p = Ok n -> n <> 0 -> p + n < lpbytes ->
  exists k, lpCurrentEncodedSizeUnsafe m p = Ok k /\ 0 <= k < 2 ^ 32.
Proof using Hm Hlen.
  unfold lpCurrentEncodedSizeBytes, lpCurrentEncodedSizeUnsafe. intros (b & Hb & Hn)%bind_ok_inv Hne Hle.
  pose proof (ld_lt _ _ _ Hb). pose proof (ld_byte _ _ _ Hm Hb) as Hbb. rewrite Hb, bind_ok.
  destruct (lp_encoding b); injection Hn as <-; try (by eexists; split; [done|lia]).
  - pose proof (land_bound b 63 Hbb ltac:(lia)). eexists. split; [done|lia].
  - destruct (ld_in m (p + 1)) as [c Hc]; [lia|]. rewrite Hc, bind_ok. pose proof (ld_byte _ _ _ Hm Hc) as Hcb.
    destruct (str12_bound b c Hbb Hcb) as [-> ?]. eexists. split; [done|]. mach.
  - destruct (ldn_in m (p + 1) 4) as [l ->]; [lia..|]. rewrite bind_ok. eexists. split; [done|].
    by apply (wrap_range 32).
Qed.

(** What acceptance of an entry says. *)
Record accepted (p q : Z) : Prop := {
  acc_lo : 6 <= p;
  acc_hi : q <= lpbytes - 1;
  acc_byte : exists b, ld m p = Ok b /\ b <> LP_EOF;
  acc_size : exists n, lpCurrentEncodedSizeUnsafe m p = Ok n /\ 0 <= n < 2 ^ 32 /\ q = p + (n + backlen_size n) /\
                       lpDecodeBacklen m (q - 1) = Ok n
}.

Lemma validate_inv p q : lpValidateNext m (Some p) lpbytes = Ok (Some (Some q)) -> accepted p q.
Proof using Hm Hlen.
  unfold lpValidateNext, OUT_OF_RANGE, LP_HDR_SIZE. case_if; [done|]. intros (b & Hb & HH)%bind_ok_inv.
  case_if_in HH; [by case_if_in HH|]. apply bind_ok_inv in HH as (lb & Hlb & HH). case_if_in HH; [done|].
  case_if_in HH; [done|]. apply bind_ok_inv in HH as (n & Hn & HH). cbv zeta in HH. case_if_in HH; [done|].
  apply bind_ok_inv in HH as (v & Hv & HH). destruct (_ =? _) eqn:Heq in HH; [|done]. injection HH as <-. apply Z.eqb_eq in Heq.
  destruct (size_total p lb Hlb) as (k & Hk & Hr); [done|lia|]. rewrite Hn in Hk. injection Hk as <-.
  pose proof (backlen_size_bound n). destruct (decode_range _ _ _ Hm Hv) as (c & _ & Hvr & _).
  split; [lia|lia|eauto|]. exists n. split; [done|]. split; [done|]. split; [done|].
  assert (v = n) as ->; [|done]. destruct Hvr as [Hvr| ->].
  - rewrite wrap_small in Heq by mach. lia.
  - exfalso. revert Heq. unfold wrap. rewrite <- (Z.mod_add _ (- 1)), Z.mod_small by mach. lia.
Qed.

Lemma validate_total p : exists r, lpValidateNext m (Some p) lpbytes = Ok r.
Proof using Hm Hlen.
  unfold lpValidateNext, OUT_OF_RANGE, LP_HDR_SIZE. case_if; [eauto|]. destruct (ld_in m p) as [b Hb]; [lia|].
  rewrite Hb, bind_ok. case_if; [eauto|].
  assert (exists lb, lpCurrentEncodedSizeBytes m p = Ok lb /\ 0 <= lb) as (lb & Hlb & Hlb0).
  { unfold lpCurrentEncodedSizeBytes. rewrite Hb, bind_ok. eexists. split; [done|]. by destruct (lp_encoding b). }
  rewrite Hlb, bind_ok. case_if; [eauto|]. case_if; [eauto|].
  destruct (size_total p lb Hlb) as (n & -> & Hr); [done|lia|]. rewrite bind_ok. cbv zeta. case_if; [eauto|].
  pose proof (backlen_size_bound n). destruct (decode_total m (p + (n + backlen_size n) - 1)) as (v & ->); [lia|].
  rewrite bind_ok. case_if; eauto.
Qed.

Lemma validate_advances p q : lpValidateNext m (Some p) lpbytes = Ok (Some (Some q)) -> p < q <= lpbytes - 1.
Proof using Hm Hlen.
  intros H. destruct (validate_inv p q H) as [? ? _ (n & _ & ? & -> & _)]. pose proof (backlen_size_bound n). lia.
Qed.
End entry.

(** ** The validator returns *)
Lemma validate_loop_total {U} m lpbytes numele (cb : option (Z -> Z -> U -> bool * U)) : is_bytes m -> lpbytes <= alen m ->
  forall fuel p count u, 0 <= p <= lpbytes - 1 -> lpbytes - p <= Z.of_nat fuel ->
  exists r, validate_loop fuel m lpbytes numele cb (Some p) count u = Ok r.
Proof.
  intros Hm Hl. induction fuel as [|fuel IH]; intros p count u Hp Hf; [lia|]. cbn [validate_loop].
  destruct (ld_in m p) as [b Hb]; [lia|]. rewrite Hb, bind_ok. case_if; [eauto|].
  destruct (validate_total m lpbytes Hm Hl p) as (r & Hr). rewrite Hr, bind_ok. destruct r as [q|]; [|eauto].
  destruct (match cb with Some _ => _ | None => _ end) as [[] u']; [|eauto].
  destruct q as [q|].
  - pose proof (validate_advances m lpbytes Hm Hl p q Hr). apply IH; lia.
  - destruct fuel; cbn; eauto.
Qed.

Lemma total_of_bytes m : is_bytes m -> 4 <= alen m -> exists t, lpGetTotalBytes m = Ok t.
Proof. intros. unfold lpGetTotalBytes. destruct (ldn_in m 0 4) as [b ->]; [lia..|]. rewrite bind_ok. eauto. Qed.

Lemma num_of_bytes m : is_bytes m -> 6 <= alen m -> exists t, lpGetNumElements m = Ok t.
Proof. intros. unfold lpGetNumElements. destruct (ldn_in m 4 2) as [b ->]; [lia..|]. rewrite bind_ok. eauto. Qed.

Lemma integrity_total {U} m size deep (cb : option (Z -> Z -> U -> bool * U)) u : is_bytes m -> size <= alen m ->
  exists r, lpValidateIntegrity m size deep cb u = Ok r.
Proof.
  intros Hm Hs. unfold lpValidateIntegrity, LP_HDR_SIZE. case_if; [eauto|].
  destruct (total_of_bytes m Hm) as (t & ->); [lia|]. rewrite bind_ok. case_if; [eauto|]. subst t.
  destruct (ld_in m (size - 1)) as [b ->]; [lia|]. rewrite bind_ok. case_if; [eauto|]. case_if; [eauto|].
  destruct (num_of_bytes m Hm) as (n & ->); [lia|]. rewrite bind_ok.
  destruct (validate_loop_total m size n cb Hm Hs (lp_fuel m) 6 0 u) as (r & ->); [lia|unfold lp_fuel, alen in *; lia|].
  rewrite bind_ok. destruct r as [[[p c]|] u']; [|eauto]. repeat (case_if; [eauto|]). eauto.
Qed.

(** ** Reading an accepted entry *)
Lemma encoding_32str b : in_u 8 b -> lp_encoding b = ENC_32BIT_STR -> b = 240.
Proof.
  intros Hb He.
  pose proof (byte_forall (fun x => match lp_encoding x with ENC_32BIT_STR => x =? 240 | _ => true end) ltac:(by vm_compute) b Hb) as H.
  cbv beta in H. rewrite He in H. by apply Z.eqb_eq.
Qed.

(** A 32-bit length so large that the size of the entry wraps around is never accepted. *)
Lemma no_wrap m p l n : is_bytes m -> ld m p = Ok 240 -> ldn m (p + 1) 4 = Ok l -> n = u32 (5 + le_or 0 l) ->
  lpDecodeBacklen m (p + (n + backlen_size n) - 1) = Ok n -> 5 + le_or 0 l < 2 ^ 32.
Proof.
  intros Hm Hp Hl Hn Hd. pose proof (le4_range _ _ _ Hm Hl) as Hr. destruct (Z.lt_ge_cases (5 + le_or 0 l) (2 ^ 32)) as [|Hge]; [done|].
  exfalso. assert (n = 5 + le_or 0 l - 2 ^ 32) as Hn'.
  { rewrite Hn. unfold wrap. rewrite <- (Z.mod_add _ (- 1)), Z.mod_small by lia. lia. }
  assert (n = 0 \/ n = 1 \/ n = 2 \/ n = 3 \/ n = 4) as Hcases by lia.
  assert (l = le_bytes 4 (n - 5 + 2 ^ 32)) as Hlb.
  { pose proof (ldn_byte _ _ _ _ Hm Hl) as Hb. pose proof (ldn_inv _ _ _ _ Hl) as (_ & _ & _ & H4).
    rewrite le_or_0 in Hn' by done. replace (n - 5 + 2 ^ 32) with (le_val l) by lia.
    rewrite <- (le_bytes_val l Hb) at 1. unfold alen in H4. by replace (length l) with 4%nat by lia. }
  apply decode_range in Hd as (b & Hb & _ & Hmod); [|done].
  assert (backlen_size n = 1) as Hbs by (destruct Hcases as [-> |[-> |[-> |[-> | ->]]]]; done).
  rewrite Hbs in Hb. replace (p + (n + 1) - 1) with (p + n) in Hb by lia.
  assert (1 <= n -> ld m (p + n) = ld l (n - 1)) as Hld.
  { intros. replace (p + n) with (p + 1 + (n - 1)) by lia. apply (ldn_ld _ _ _ _ _ Hl). lia. }
  rewrite Hlb in Hld. destruct Hcases as [-> |Hcases]; [rewrite Z.add_0_r, Hp in Hb|rewrite Hld in Hb by lia].
  - injection Hb as <-. vm_compute in Hmod. by destruct Hmod.
  - destruct Hcases as [-> |[-> |[-> | ->]]]; vm_compute in Hb; injection Hb as <-; vm_compute in Hmod; by destruct Hmod.
Qed.

(** [lpGet] on an accepted entry reads only inside the block. *)
Lemma get_accepted m lpbytes p q intbuf : is_bytes m -> lpbytes <= alen m -> accepted m lpbytes p q ->
  LP_INTBUF_SIZE <= alen intbuf -> exists s, lpGet_buf m p intbuf = Ok s.
Proof.
  intros Hm Hl [Hlo Hhi (b & Hb & Hne) (n & Hn & Hr & Hq & Hd)] Hbuf. pose proof (backlen_size_bound n).
  pose proof (ld_byte _ _ _ Hm Hb) as Hbb.
  assert (forall z, - 2 ^ 63 <= z < 2 ^ 63 -> exists s, (let '(count, buf) := ll2string intbuf LP_INTBUF_SIZE z in ldn buf 0 count) = Ok s) as Hint.
  { intros z Hz. destruct (ll2string intbuf LP_INTBUF_SIZE z) as [len buf] eqn:E.
    pose proof (decimal_short z Hz). pose proof (length_decimal z Hz). unfold LP_INTBUF_SIZE in *.
    assert (0 <= 21 <= alen intbuf) as H21 by lia. assert (sdigits10 z < 21) as Hs by lia.
    destruct (ll2string_decimal _ _ _ _ _ Hz H21 E Hs) as (-> & _ & Hend). apply lookup_lt_Some in Hend.
    apply ldn_in; unfold alen; lia. }
  unfold lpGet_buf, lpGet, lpGetWithSize. unfold lpCurrentEncodedSizeUnsafe in Hn. rewrite Hb, !bind_ok in *.
  destruct (lp_encoding b) eqn:He; try (injection Hn as <-).
  - apply Hint, to_signed_range.
  - pose proof (land_bound b 63 Hbb ltac:(lia)). apply ldn_in; lia.
  - destruct (ld_in m (p + 1)) as [c ->]; [lia|]. apply Hint, to_signed_range.
  - destruct (ldn_in m (p + 1) 2) as [c ->]; [lia..|]. apply Hint, to_signed_range.
  - destruct (ldn_in m (p + 1) 3) as [c ->]; [lia..|]. apply Hint, to_signed_range.
  - destruct (ldn_in m (p + 1) 4) as [c ->]; [lia..|]. apply Hint, to_signed_range.
  - destruct (ldn_in m (p + 1) 8) as [c ->]; [lia..|]. apply Hint, to_signed_range.
  - apply bind_ok_inv in Hn as (c & Hc & [= <-]). rewrite Hc, bind_ok.
    destruct (str12_bound b c Hbb (ld_byte _ _ _ Hm Hc)) as [Heq ?]. pose proof (ld_byte _ _ _ Hm Hc) as [? ?].
    rewrite Heq in *. apply ldn_in; lia.
  - apply bind_ok_inv in Hn as (l & Hl4 & [= Hn]). rewrite Hl4, bind_ok. pose proof (le4_range _ _ _ Hm Hl4).
    rewrite (encoding_32str b Hbb He) in Hb. rewrite Hq in Hd.
    pose proof (no_wrap m p l n Hm Hb Hl4 (eq_sym Hn) Hd). rewrite wrap_small in Hn by mach. apply ldn_in; lia.
  - apply Hint, to_signed_range.
  - apply Hint, to_signed_range.
Qed.

(** ** Walks over an accepted block *)
Section walks.
Context (m : bytes) (t : Z) (Hm : is_bytes m) (Hl : t <= alen m) (Ht : lpGetTotalBytes m = Ok t) (Heof : ld m (t - 1) = Ok LP_EOF).

(** The entries [ps] lead from [p] to [q]. *)
Fixpoint seg (p : Z) (ps : list Z) (q : Z) : Prop :=
  match ps with
  | [] => p = q
  | x :: ps => p = x /\ exists p', lpValidateNext m (Some p) t = Ok (Some (Some p')) /\ seg p' ps q
  end.

Lemma seg_snoc p ps x q : seg p (ps ++ [x]) q -> seg p ps x /\ lpValidateNext m (Some x) t = Ok (Some (Some q)).
Proof.
  revert p. induction ps as [|y ps IH]; intros p; cbn.
  - intros (-> & p' & Hv & ->). done.
  - intros (-> & p' & Hv & Hs). destruct (IH _ Hs) as [? ?]. split; [eauto|done].
Qed.

Lemma seg_bound p ps q : seg p ps q -> 6 <= p -> 6 <= q -> p + alen ps <= q.
Proof using Hm Hl.
  revert p. induction ps as [|x ps IH]; intros p; cbn; [intros ->; rewrite alen_nil; lia|].
  intros (-> & p' & Hv & Hs) Hp Hq. pose proof (validate_advances m t Hm Hl _ _ Hv). rewrite alen_cons.
  pose proof (IH _ Hs ltac:(lia) Hq). lia.
Qed.

Lemma assert_valid p q : lpValidateNext m (Some p) t = Ok (Some (Some q)) -> lpAssertValidEntry m t p = Ok tt.
Proof. intros H. unfold lpAssertValidEntry. by rewrite H. Qed.

(** What [lpFirst] and [lpNext] answer at the start of a segment to the end. *)
Lemma entry_or_end_seg p ps : seg p ps (t - 1) -> entry_or_end m t p = Ok (match ps with [] => None | _ => Some p end).
Proof using Hm Hl Heof.
  unfold entry_or_end. destruct ps as [|x ps]; cbn [seg].
  - intros ->. rewrite Heof, bind_ok, Z.eqb_refl. rewrite assert_true by (apply Z.eqb_eq; lia). done.
  - intros (-> & p' & Hv & _). destruct (validate_inv m t Hm Hl _ _ Hv) as [_ _ (b & -> & Hne%Z.eqb_neq) _].
    by rewrite bind_ok, Hne, (assert_valid _ _ Hv).
Qed.

Lemma next_seg x ps p' : lpValidateNext m (Some x) t = Ok (Some (Some p')) -> seg p' ps (t - 1) ->
  lpNext m x = Ok (match ps with [] => None | _ => Some p' end).
Proof using Hm Hl Ht Heof.
  intros Hv Hs. destruct (validate_inv m t Hm Hl _ _ Hv) as [_ _ _ (n & Hn & _ & Hq & _)].
  unfold lpNext, lpSkip, lpBytes. rewrite Hn, !bind_ok, <- Hq, Ht, bind_ok. by apply entry_or_end_seg.
Qed.

Lemma prev_seg p q : lpValidateNext m (Some p) t = Ok (Some (Some q)) -> lpPrev m q = Ok (Some p).
Proof using Hm Hl Ht.
  intros Hv. destruct (validate_inv m t Hm Hl _ _ Hv) as [? _ _ (n & _ & Hr & Hq & Hd)]. pose proof (backlen_size_bound n).
  unfold lpPrev, LP_HDR_SIZE, lpBytes. rewrite (proj2 (Z.eqb_neq _ _)) by lia. rewrite Hd, bind_ok.
  rewrite (wrap_small 64 (n + _)), wrap_small by mach. rewrite Ht, bind_ok.
  replace (q - 1 - (n + backlen_size n - 1)) with p by lia. by rewrite (assert_valid _ _ Hv).
Qed.

Lemma walk_next fuel p ps : seg p ps (t - 1) -> (length ps <= fuel)%nat ->
  walk (lpNext m) fuel (match ps with [] => None | _ => Some p end) = Ok ps.
Proof using Hm Hl Ht Heof.
  revert fuel p. induction ps as [|x ps IH]; intros fuel p Hs Hf; [by destruct fuel|].
  destruct fuel as [|fuel]; [simpl in Hf; lia|]. destruct Hs as (-> & p' & Hv & Hs). cbn [walk].
  rewrite (next_seg _ _ _ Hv Hs), bind_ok, IH by (done || simpl in Hf; lia). done.
Qed.

Lemma walk_prev fuel ps q : seg 6 ps q -> (length ps <= fuel)%nat -> (p ← lpPrev m q; walk (lpPrev m) fuel p) = Ok (rev ps).
Proof using Hm Hl Ht.
  revert fuel q. induction ps as [|x ps IH] using rev_ind; intros fuel q Hs Hf.
  - cbn in Hs. subst q. by destruct fuel.
  - rewrite length_app in Hf. simpl in Hf. destruct fuel as [|fuel]; [lia|]. apply seg_snoc in Hs as [Hs Hv].
    rewrite (prev_seg _ _ Hv), bind_ok. cbn [walk]. rewrite <- bind_assoc, IH, bind_ok by (done || lia). by rewrite rev_app_distr.
Qed.

(** An accepting run of the validator is such a segment. *)
Lemma validate_loop_seg fuel numele p count q c (u u' : unit) : in_u 32 count ->
  validate_loop fuel m t numele None (Some p) count u = Ok (Some (Some q, c), u') ->
  exists ps, seg p ps q /\ c = u32 (count + alen ps).
Proof.
  revert p count. induction fuel as [|fuel IH]; intros p count Hc; cbn [validate_loop]; intros (b & Hb & H)%bind_ok_inv.
  - case_if_in H; [|done]. injection H as <- <- _. exists []. rewrite alen_nil, Z.add_0_r, wrap_small by done. done.
  - case_if_in H.
    + injection H as <- <- _. exists []. rewrite alen_nil, Z.add_0_r, wrap_small by done. done.
    + apply bind_ok_inv in H as (r & Hr & H). destruct r as [[p'|]|]; [|by destruct fuel|done]. cbv beta iota in H.
      apply IH in H as (ps & Hs & ->); [|by apply (wrap_range 32)]. exists (p :: ps). cbn [seg]. split; [eauto|].
      rewrite wrap_add_l, alen_cons. f_equal. lia.
Qed.

(** The two walks of a block from the header to the EOF byte. *)
Lemma walks_seg ps : seg 6 ps (t - 1) -> 7 <= t -> walk_forward m = Ok ps /\ walk_backward m = Ok (rev ps).
Proof using Hm Hl Ht Heof.
  intros Hs H7. pose proof (seg_bound _ _ _ Hs ltac:(lia) ltac:(lia)) as Hb.
  assert (length ps <= lp_fuel m)%nat as Hf by (unfold lp_fuel, alen in *; lia). split.
  - unfold walk_forward, lpFirst, lpBytes. rewrite Ht, bind_ok. unfold LP_HDR_SIZE. rewrite (entry_or_end_seg _ _ Hs), bind_ok.
    by apply walk_next.
  - unfold walk_backward, lpLast. rewrite Ht, bind_ok. by apply walk_prev.
Qed.

Lemma seg_entries ps p : seg 6 ps (t - 1) -> p ∈ ps -> exists q, lpValidateNext m (Some p) t = Ok (Some (Some q)).
Proof.
  intros Hs Hp. revert Hs. generalize 6. induction Hp as [ps|p x ps _ IH]; intros z; cbn [seg].
  - intros (-> & p' & Hv & _). eauto.
  - intros (_ & p' & _ & Hs). by apply (IH p').
Qed.
End walks.

(** An accepted block: its entries, what the walks see, and that every entry can be read. *)
Lemma integrity_safe m size : is_bytes m -> size <= alen m -> lpValidateIntegrity m size true None tt = Ok (true, tt) ->
  exists ps numele, walk_forward m = Ok ps /\ walk_backward m = Ok (rev ps) /\ lpGetNumElements m = Ok numele /\
    (numele = LP_HDR_NUMELE_UNKNOWN \/ numele = alen ps) /\
    forall p intbuf, p ∈ ps -> LP_INTBUF_SIZE <= alen intbuf -> exists s, lpGet_buf m p intbuf = Ok s.
Proof.
  intros Hm Hl. unfold lpValidateIntegrity, LP_HDR_SIZE. case_if; [done|].
  intros (t & Ht & H)%bind_ok_inv. case_if_in H; [done|]. subst t. apply bind_ok_inv in H as (b & Hb & H).
  case_if_in H; [done|]. cbn [negb] in H. subst b. apply bind_ok_inv in H as (numele & Hn & H).
  apply bind_ok_inv in H as ([r u] & Hr & H). destruct r as [[p c]|]; [|done].
  destruct (bool_decide _) eqn:Hp in H; [|done]. apply bool_decide_eq_true in Hp. subst p. cbn [negb] in H.
  destruct (_ && _) eqn:E2 in H; [done|].
  assert (in_u 32 0) as H0 by mach. destruct (validate_loop_seg m size _ _ _ _ _ _ _ _ H0 Hr) as (ps & Hs & ->).
  pose proof (seg_bound m size Hm Hl _ _ _ Hs ltac:(lia) ltac:(lia)) as Hbd. exists ps, numele.
  destruct (walks_seg m size Hm Hl Ht Hb ps Hs ltac:(lia)) as [Hf Hbk]. split; [done|]. split; [done|]. split; [done|].
  assert (size < 2 ^ 32) as H32.
  { unfold lpGetTotalBytes in Ht. apply bind_ok_inv in Ht as (l & Hl4 & [= <-]). by apply (le4_range m 0). }
  split.
  - apply andb_false_iff in E2 as [E2|E2]; cmp_prop; [by left|right]. rewrite E2, Z.add_0_l, wrap_small; [done|].
    pose proof (alen_nonneg ps). mach.
  - intros p intbuf Hp Hi. destruct (seg_entries m size ps p Hs Hp) as (q & Hv).
    by apply (get_accepted m size p q intbuf Hm Hl (validate_inv m size Hm Hl _ _ Hv)).
Qed.

(** ** Listpacks are accepted *)
Lemma validate_loop_at num es slack fuel numele xs ys count : lp_wf num es -> es = xs ++ ys -> (length ys <= fuel)%nat ->
  in_u 32 count -> count + alen ys < 2 ^ 32 ->
  validate_loop (U := unit) fuel (lp_image num es slack) (total es) numele None (Some (off xs)) count tt =
  Ok (Some (Some (off es), count + alen ys), tt).
Proof.
  intros Hwf. revert fuel xs count. induction ys as [|e ys IH]; intros fuel xs count Hes Hf Hc Hb.
  - rewrite app_nil_r in Hes. subst xs. rewrite alen_nil, Z.add_0_r.
    destruct fuel; cbn [validate_loop]; rewrite ld_eof, bind_ok, Z.eqb_refl by done; done.
  - destruct fuel as [|fuel]; [simpl in Hf; lia|]. cbn [validate_loop].
    destruct (ld_entry num es slack Hwf xs e ys Hes) as (b & -> & Hne%Z.eqb_neq). rewrite bind_ok, Hne.
    rewrite (validate_at num es slack Hwf xs e ys Hes), bind_ok. rewrite alen_cons in *. pose proof (alen_nonneg ys).
    rewrite wrap_small by mach. rewrite IH; [do 4 f_equal; lia|by rewrite <- app_assoc|simpl in Hf; lia|mach|lia].
Qed.

Lemma integrity_complete m l t : listpack m l -> lpGetTotalBytes m = Ok t -> lpValidateIntegrity m t true None tt = Ok (true, tt).
Proof.
  intros (es & (num & slack & -> & Hwf) & <-) Ht. rewrite image_total in Ht by done. injection Ht as <-.
  pose proof (off_ge es). pose proof (alen_es num es Hwf). pose proof (alen_nonneg es).
  unfold lpValidateIntegrity, LP_HDR_SIZE. rewrite (proj2 (Z.ltb_ge _ _)) by (rewrite total_off; lia).
  rewrite image_total, bind_ok, Z.eqb_refl by done. cbn [negb]. rewrite total_off, Z.add_simpl_r.
  rewrite ld_eof, bind_ok, Z.eqb_refl by done. cbn [negb]. rewrite image_num, bind_ok, <- total_off by done.
  rewrite (validate_loop_at num es slack _ num [] es 0 Hwf eq_refl); [|pose proof (fuel_enough num es slack Hwf); lia|mach|lia].
  rewrite bind_ok. rewrite bool_decide_true by done. cbn [negb]. rewrite Z.add_0_l.
  destruct Hwf as (_ & _ & _ & [-> | ->]); [done|]. by rewrite Z.eqb_refl, andb_false_r.
Qed.

(** ** Properties *)

(** C10. Deep validation of an untrusted block.  Whatever the bytes and the
    callback, [lpValidateIntegrity] returns: it reads nothing outside the
    block and no assert fails.  If it accepts, the loops over the entries run
    without fault or assert from either end, the backward loop visits the
    entries of the forward one in reverse, the count in the header is right or
    unknown, and [lpGet] of every entry stays inside the block, also for
    32-bit string lengths near 2^32.  And it accepts every listpack. *)
Theorem listpack_validate_safe m size : is_bytes m -> size <= alen m ->
  (forall (U : Type) deep (cb : option (Z -> Z -> U -> bool * U)) u, exists r, lpValidateIntegrity m size deep cb u = Ok r) /\
  (lpValidateIntegrity m size true None tt = Ok (true, tt) ->
    exists ps numele, walk_forward m = Ok ps /\ walk_backward m = Ok (rev ps) /\ lpGetNumElements m = Ok numele /\
      (numele = LP_HDR_NUMELE_UNKNOWN \/ numele = alen ps) /\
      forall p intbuf, p ∈ ps -> LP_INTBUF_SIZE <= alen intbuf -> exists s, lpGet_buf m p intbuf = Ok s) /\
  (forall l, listpack m l -> lpGetTotalBytes m = Ok size -> lpValidateIntegrity m size true None tt = Ok (true, tt)).
Proof.
  intros Hm Hs. split; [intros; by apply integrity_total|]. split; [by apply integrity_safe|].
  intros l Hl Ht. by apply (integrity_complete m l).
Qed.

Lemma listpack_validate_safe_witness :
  walk_forward three = Ok [6; 8; 13] /\ walk_backward three = Ok [13; 8; 6].
Proof.
  destruct (listpack_validate_safe three 18) as (_ & Hsafe & Hacc).
  - repeat (apply Forall_cons; split; [by vm_compute|]). done.
  - by vm_compute.
  - destruct (Hsafe (Hacc three_strings three_listpack ltac:(by vm_compute))) as (ps & numele & Hf & Hb & _).
    vm_compute in Hf. injection Hf as <-. split; [by vm_compute|exact Hb].
Defined.

(** The validator accepts a backward length that is only right because of the
    bytes in front of it: an empty string (128) whose length byte is 129, read
    as 1 + 0 * 2^7 + 0 * 2^14 through the entry and the zero byte of the
    header.  After an element is put in front, the next [lpLast] aborts. *)
Lemma validated_then_abort : let m := [9; 0; 0; 0; 1; 0; 128; 129; 255] in
  lpValidateIntegrity m 9 true None tt = Ok (true, tt) /\
  exists m' p, lpPrepend sys_realloc m [53] = Ok (Some (m', p)) /\ lpLast m' = AssertFail.
Proof. split; [by vm_compute|]. eexists _, _. split; [by vm_compute|]. by vm_compute. Qed.
